(* ===== verification/_CoqProject ===== *)
-Q . S2P
Prelude.v
Model.v
Domain.v
Revision.v
Schema.v
StoreTypes.v
Interner.v
LiveRows.v
Posting.v
Row.v
Identity.v
Store.v
StoreInv.v
StoreQuery.v
StoreSpec.v
StoreProps.v
StoreView.v
ViewInv.v
ViewSpec.v
ViewProps.v
EvalContext.v
Eval.v
EvalReads.v
EvalInv.v
EvalTotal.v
EvalSpec.v
EvalSound.v
EvalProps.v
CheckProps.v
ExpandProps.v
Dsl.v
Grammar.v
GrammarProps.v
Legacy.v
LegacyProps.v
Runtime.v
Writer.v
WriterSpec.v
Policy.v
PolicyProps.v
SchemaText.v
Requests.v
LookupSubjects.v
LookupSubjectsInv.v
LookupSubjectsSound.v
LookupSubjectsProps.v
LookupPlan.v
LookupPlanInv.v
LookupResources.v
LookupResourcesInv.v
LookupResourcesSound.v
LookupResourcesProps.v
Api.v
EngineProps.v
EngineReads.v
EngineLookups.v
Tenants.v
WriterActor.v
SchemaRoundtrip.v
TupleStore.v
SnapshotBytes.v
Snapshot.v
SnapshotProps.v
SnapshotSymbols.v
SnapshotIndexes.v
SnapshotDataProps.v
SnapshotIndexProps.v
SnapshotStore.v
SnapshotLoad.v
SnapshotDataSave.v
SnapshotGroups.v
SnapshotIndexSave.v
SnapshotStoreSave.v
SnapshotFile.v
SnapshotLoadProps.v
Disk.v
SnapshotDisk.v
SnapshotRoundtrip.v
PolicyFiles.v
SnapshotExample.v
