(* ===== verification/Prelude.v ===== *)
(** * A verification development for simple-zanzibar

    simple-zanzibar is an embedded relation-based access control engine: policy
    (namespaces with relations defined by userset expressions) and relationships
    [type:id#relation@subject] go in through a single writer; checks, expansions
    and lookups read immutable published snapshots. This library models the
    engine from the byte level of its identifiers up to its public interface and
    proves it correct, and records where it is not. This file is the root: it
    documents the development and holds what all files share.

    ** Parts and how they interact

    Values (src/src/model.rs, src/src/domain.rs, src/src/revision.rs):
    - [Model]: the unvalidated values callers build.
    - [Domain]: validated identifiers, references and relationships, their text.
      An identifier carries the proof that its validator accepts it.
    - [Revision]: revisions (64-bit, never zero), datastore ids, schema hashes,
      the text of consistency tokens.

    Policy (src/src/schema/mod.rs, src/src/parser.rs, src/src/policy.rs):
    - [Schema]: [from_definitions], the resolver and its indexes, the reference
      checks, [validate_relationship].
    - [Dsl]: from the parse tree of the policy language to configurations. The
      parser pest generates is the class [PestParser]. [Grammar]:
      src/src/grammar.pest as data, with the meaning of a parsing expression
      grammar; the class [FollowsGrammar] is what pest promises of its parser,
      and [grammar_parser] an executable parser that keeps it.
    - [Legacy]: configurations to compiled schemas ([compile_legacy_*]) and the
      bytes of the schema hash, and how datastore ids are drawn. The digest is the class [Blake3], the order a
      hash table is visited in the class [HashOrder].
    - [Policy]: export of policy text, and import into a candidate writer in
      batches.

    Relationship store (src/src/relationship.rs), bottom up:
    - [StoreTypes]: filters, mutations, preconditions, limits and errors; the
      hash function of the store is the class [Hasher]; the round trip of
      artifacts assumes that its values are 64-bit, nothing else is assumed.
    - [Interner] (strings to 32-bit symbols), [LiveRows] (bitmap), [Posting]
      (index lists), [Row] (six symbols per relationship, keys, matchers),
      [Identity] (duplicate detection).
    - [Store]: [IndexedRelationshipStore], its seven indexes, queries, batches
      and compaction. [StoreView]: [RelationshipStoreView], a shared checkpoint
      with an overlay of inserted and a set of deleted relationships.

    Evaluator (src/src/eval.rs, src/src/error.rs):
    - [EvalContext]: limits, membership algebra, keys, request memo and the
      mutable context. [Eval]: checks and expansions. [LookupSubjects]: the
      subjects that have a permission, a walk with checks of its candidates.
      [LookupPlan]: what a lookup of resources reads off the schema, the rules of
      its producer plan and the expansions. [LookupResources]: the traversal of
      relationships backwards and the verification of the resources it meets.

    Engine (src/src/runtime.rs, src/src/lib.rs, src/src/api.rs):
    - [Runtime]: the state readers load and the choice of a snapshot for a
      consistency. A shared pointer is an address in a list of cells.
    - [Writer]: [WriterState] and all its operations, as state-and-error
      computations on a [World] (the writer and the cells it publishes to).
    - [Requests], [Api]: request validation, reads, the writer's commands.
      [WriterActor]: the queue and the thread in front of the writer, as a step
      relation with a log of the commands run.
    - [Tenants]: tenant ids and the map from tenants to engines.
    - [TupleStore] (src/src/store.rs): the legacy tuple store.

    Artifacts and files (src/src/snapshot.rs, the codecs of
    src/src/relationship.rs, src/src/policy.rs):
    - [SnapshotBytes]: the cursor, checked conversions, little-endian integers.
      [Snapshot]: header, section directory, footer, the two writers and the
      reader of a payload. [SnapshotSymbols], [SnapshotIndexes], [SnapshotStore]:
      the interner, the rows and the seven posting indexes to sections and back,
      in both encodings and both validation modes. [SnapshotFile]: the zstd frame
      (class [Zstd]), reading a file, the bytes a save writes, the writer a load
      starts.
    - [Disk]: files as a map from paths, with a fate for every call and the
      states a crash can leave. [SnapshotDisk]: saving. [PolicyFiles]: exporting
      policy text to a directory.

    ** How operations are modelled

    [Result] is [result]; [?] with a [From] conversion is [map_err] and the bind
    of the monad. An operation on [&mut self] is a function of the state monad
    [ST], which keeps the state it reached on failure too: what an error leaves
    behind is part of the statements. Integers are [Z] with their width checked
    where the code checks it ([checked_add], [usize_max]) and proof fields where
    a type excludes values ([NonZeroU32], [Revision]). Strings are byte strings.
    Hash maps are [gmap]; where the order in which one is visited can be
    observed it is a parameter.

    ** What the theorems show

    - Specification layer. [EvalSpec] gives the meaning of a policy: [member],
      the least reading of the source definitions over a list of relationships,
      with no ids, fuel or order. [StoreTypes] and [StoreSpec] give a batch its
      meaning on a list of relationships. [WriterSpec] gives every writer
      operation its meaning on [Contents] (configurations and relationships).
    - Store: [StoreProps] proves that the indexed store refines the list
      specification (batches, queries, duplicate test), [ViewProps] that views
      do, through overlay, tombstones and checkpointing, as long as the limit of
      each precondition exceeds the deleted rows it matches ([limit_clears]); and
      [view_limit_hides_matches], which exhibits that they otherwise do not.
    - Evaluator: [EvalTotal] and [EvalProps], every evaluation returns and
      restores the context; [EvalSound] and [CheckProps], an answer of a check is
      membership (on schemas without exclusion whatever the cycles, on
      well-founded data for every schema and with the memo); [ExpandProps], the
      same of the tree an expansion returns; [memo_not_transparent], the memo's
      flaw. [LookupSubjectsInv], [LookupSubjectsSound] and [LookupSubjectsProps]:
      a lookup of subjects returns, lists only subjects that have the permission
      and, below the result limit, all of them, users provided that no subject is
      a userset of a user. All of these are of views whose deleted rows hide no
      user ([tombstones_apart]), expansions and lookups of subjects also of views
      whose deleted rows leave room within the fanout limit ([fanout_room]).
      [LookupPlanInv]: the analyses of
      the schema end, and the rules of a plan are sound; [LookupResourcesInv],
      the traversal puts each of finitely many subjects on its frontier once;
      [LookupResourcesSound] and [LookupResourcesProps], every resource listed has
      the permission, and four ways in which one that has it is left out.
    - Policy: [Schema], what compiles and what it compiles to; [LegacyProps],
      compilation does not depend on hash order, and the schema hash is
      canonical but ambiguous; [PolicyProps], import
      replaces the contents or changes nothing, and exported relationships read
      back. [GrammarProps]: parsing by the grammar ends; [SchemaText]: the schema text of an export is in the grammar and reads back
      to what it was written from; [SchemaRoundtrip]: importing the export of an
      engine whose configurations are keyed by their names gives its contents
      back ([exported_policy_restores]).
    - Engine: [EngineProps], by induction on the commands an engine has run:
      what readers see is well formed, each command refines its specification
      (a write when its preconditions' limits clear the deleted rows), and a token reads the snapshot it was issued for or is refused;
      [EngineReads] and [EngineLookups], the answers of reads on every reachable
      engine. These theorems take commands one after the other ([submit]);
      [WriterActor] proves that concurrent callers, the queue and the thread
      amount to that ([submits_linearize]) and never block for ever
      ([submits_finish]). [Tenants]: one engine per tenant, under every schedule.
    - Artifacts: [SnapshotProps], both writers produce one closed form, the
      reader gives back the sections that were written, and the sections of any
      accepted payload lie apart and inside it. [SnapshotDataProps],
      [SnapshotIndexProps], [SnapshotLoad] and
      [SnapshotLoadProps]: whatever bytes are accepted under full validation,
      the loaded store holds distinct live relationships and its indexes list
      exactly their rows ([load_payload_sound]); an artifact without the broad
      indexes answers preconditions wrongly ([narrow_load_preconditions]).
      The other way, what is written is accepted: [SnapshotDataSave] (the
      interner and the rows), [SnapshotGroups] and [SnapshotIndexSave] (the
      groups of row ids behind the seven indexes, their keys, ranges and varints,
      one after the other), [SnapshotStoreSave] (each index decoder accepts its
      group and counts its rows; then a whole store).
      [SnapshotRoundtrip] puts them together: the engine loaded, under full
      validation and with the codec of the save, from the file a save of a
      reachable engine with well keyed configurations leaves shows its readers
      what the saved one did, or the file exceeds the limit of the load
      ([saved_engine_restored]).
      [SnapshotDisk]: an uncompressed save is atomic under every failure and
      crash, a compressed one is not; [PolicyFiles]: exports stay inside their
      directory and write the policy. [SnapshotExample] applies them to an engine
      and a faulty disk.

    The evaluator and the store meet at an interface, the class [ReadsAs] of
    [EvalReads]: what a check needs of the published view. [EvalReads] proves it
    of views that satisfy [tombstones_apart], pending deletes included: a query's
    limit is applied before deleted rows are taken away, so a deleted
    [user:alice#r] can hide [user:alice] from the direct check, which asks for
    one row. (The bounded queries of expansions and lookups of subjects need
    [fanout_room] besides.) The theorems on checks use nothing else of the store.

    ** Fuel and bounds

    The evaluator's recursion takes one unit of the depth limit at each check,
    so [eval_fuel], a function of the limit alone, is enough:
    [evaluations_return], [lookup_subjects_returns] and [reads_return] prove that
    running out of it cannot happen. The test which relations a lookup must check
    visits no relation twice, so the number of relations is its fuel; so do the
    analyses of [LookupPlan]. The traversal of a lookup of resources takes a turn
    per subject, and [frontier_fuel] counts the request's subject and the pairs
    of an object some row is about and a relation that rows or the schema name
    ([universe_size]). Iterators over posting lists take the length of the list as fuel and
    [StoreQuery] proves the result independent of it. A varint of a [u32] has at
    most five groups, which is its fuel both ways; parsing by the grammar takes
    [MAX_RANK] units a byte, since no more rules nest before a byte is consumed
    ([parse_grammar_fuel]); merging two lists of index
    entries takes the sum of their lengths. Everything else is structural
    recursion.

    ** Not modelled

    - zstd, BLAKE3 and the parser pest generates are dependencies: classes with
      the operations the code calls. The hash function of std is the class
      [Hasher], its values being those of one build of the engine.
    - Panics of the writer's thread. Its queue and loop are [WriterActor].
    - Serde implementations, phase timings and benchmark counters, the
      materialized reader, examples and tests. *)

From stdpp Require Export prelude gmap strings sorting.
From Stdlib Require Export Ascii.
From Stdlib Require Import Sumbool.

Declare Scope zanzibar_scope.
Delimit Scope zanzibar_scope with zz.
Open Scope zanzibar_scope.

(** ** Rust's [Result] *)

Inductive result (E A : Type) : Type :=
| Ok (a : A)
| Err (e : E).
Arguments Ok {E A} a.
Arguments Err {E A} e.

#[global] Instance result_ret {E} : MRet (result E) := λ A a, Ok a.
#[global] Instance result_bind {E} : MBind (result E) := λ A B f r,
  match r with Ok a => f a | Err e => Err e end.
#[global] Instance result_fmap {E} : FMap (result E) := λ A B f r,
  match r with Ok a => Ok (f a) | Err e => Err e end.

Definition is_ok {E A} (r : result E A) : bool :=
  match r with Ok _ => true | Err _ => false end.

(** The [From] conversion that [?] inserts, and [Result::map_err]. *)
Definition map_err {E F A} (f : E → F) (r : result E A) : result F A :=
  match r with Ok a => Ok a | Err e => Err (f e) end.

Definition ok_or {E A} (o : option A) (e : E) : result E A :=
  match o with Some a => Ok a | None => Err e end.

(** [Result<(), E>] of a guard. *)
Definition guard_err {E} (b : bool) (e : E) : result E unit :=
  if b then Err e else Ok tt.

Section loops.
Context {E A B S : Type}.

Section try_map.
Variable f : A → result E B.
(** [iter().map(f).collect::<Result<Vec<_>, _>>()]: stops at the first error. *)
Fixpoint try_map (l : list A) : result E (list B) :=
  match l with
  | [] => Ok []
  | x :: l => y ← f x; ys ← try_map l; Ok (y :: ys)
  end.
End try_map.

Section try_for.
Variable f : A → result E unit.
(** [for x in l { f(x)?; }] *)
Fixpoint try_for (l : list A) : result E unit :=
  match l with
  | [] => Ok tt
  | x :: l => _ ← f x; try_for l
  end.
End try_for.

Section try_fold.
Variable f : S → A → result E S.
(** A loop threading a local through fallible steps: on an error it is
    dropped with the frame. *)
Fixpoint try_fold (s : S) (l : list A) : result E S :=
  match l with
  | [] => Ok s
  | x :: l => s' ← f s x; try_fold s' l
  end.
End try_fold.
End loops.

(** ** Mutation through [&mut self] that can fail

    The state is returned on the error path too, because a Rust method that
    fails leaves the object as mutated so far. *)

Definition ST (S E A : Type) : Type := S → result E A * S.

Definition st_ret {S E A} (a : A) : ST S E A := λ s, (Ok a, s).
Definition st_err {S E A} (e : E) : ST S E A := λ s, (Err e, s).
Definition st_bind {S E A B} (m : ST S E A) (f : A → ST S E B) : ST S E B := λ s,
  match m s with
  | (Ok a, s') => f a s'
  | (Err e, s') => (Err e, s')
  end.
Definition st_lift {S E A} (r : result E A) : ST S E A := λ s, (r, s).
Definition st_get {S E} : ST S E S := λ s, (Ok s, s).
Definition st_put {S E} (s : S) : ST S E unit := λ _, (Ok tt, s).
Definition st_modify {S E} (f : S → S) : ST S E unit := λ s, (Ok tt, f s).

Notation "'let!' x ':=' m 'in' k" := (st_bind m (λ x, k))
  (at level 10, x name, m at level 100, k at level 200,
   format "'[v' 'let!'  x  ':='  m  'in' '/' k ']'") : zanzibar_scope.

Fixpoint st_for {S E A} (f : A → ST S E unit) (l : list A) : ST S E unit :=
  match l with
  | [] => st_ret tt
  | x :: l => let! _ := f x in st_for f l
  end.

Lemma st_bind_Ok {S E A B} (m : ST S E A) (f : A → ST S E B) s b s' :
  st_bind m f s = (Ok b, s') → ∃ a s1, m s = (Ok a, s1) ∧ f a s1 = (Ok b, s').
Proof. unfold st_bind. destruct (m s) as [[a|e] s1]; [eauto|done]. Qed.

(** Focus on a field of the state. *)
Definition st_zoom {S T E A} (get : S → T) (set : T → S → S) (m : ST T E A) : ST S E A :=
  λ s, let '(r, t) := m (get s) in (r, set t s).

(** Weakest precondition of a stateful computation, with one postcondition
    for each exit. *)
Definition wp {S E A} (m : ST S E A) (s : S) (Q : A → S → Prop) (X : E → S → Prop) : Prop :=
  match m s with (Ok a, s') => Q a s' | (Err e, s') => X e s' end.

Lemma wp_bind {S E A B} (m : ST S E A) (f : A → ST S E B) s Q X :
  wp m s (λ a s', wp (f a) s' Q X) X → wp (st_bind m f) s Q X.
Proof. unfold wp, st_bind. by destruct (m s) as [[] ?]. Qed.

Lemma wp_mono {S E A} (m : ST S E A) s (Q Q' : A → S → Prop) (X X' : E → S → Prop) :
  (∀ a s', Q a s' → Q' a s') → (∀ e s', X e s' → X' e s') → wp m s Q X → wp m s Q' X'.
Proof. unfold wp. destruct (m s) as [[] ?]; auto. Qed.

Lemma wp_elim {S E A} (m : ST S E A) s Q X r s' :
  wp m s Q X → m s = (r, s') → match r with Ok a => Q a s' | Err e => X e s' end.
Proof. unfold wp. intros H E'. by rewrite E' in H; destruct r. Qed.

(** ** Machine integers

    Values are [Z] (or [nat] for lengths of in-memory collections); every
    operation that can leave the width is written with its bound. *)

Definition u8_max : Z := 255.
Definition u16_max : Z := 65535.
Definition u32_max : Z := 4294967295.
Definition u64_max : Z := 18446744073709551615.
(** The engine targets 64-bit platforms. *)
Definition usize_max : Z := u64_max.

Definition checked_add (max a b : Z) : option Z :=
  if (a + b <=? max)%Z then Some (a + b)%Z else None.
Definition checked_sub (a b : Z) : option Z :=
  if (b <=? a)%Z then Some (a - b)%Z else None.
Definition checked_mul (max a b : Z) : option Z :=
  if (a * b <=? max)%Z then Some (a * b)%Z else None.
Definition saturating_add (max a b : Z) : Z := Z.min max (a + b).
Definition saturating_sub (a b : Z) : Z := Z.max 0 (a - b).
Definition saturating_mul (max a b : Z) : Z := Z.min max (a * b).
(** [uN::try_from] of an unsigned value. *)
Definition try_from_uint (max v : Z) : option Z :=
  if (v <=? max)%Z then Some v else None.
(** [NonZero::new] *)
Definition non_zero (v : Z) : option Z :=
  if (v =? 0)%Z then None else Some v.

#[global] Arguments Ascii.eqb : simpl never.

(** ** Bytes and strings

    A Rust [String] is the list of its UTF-8 bytes; offsets and lengths count
    bytes. *)

Abbreviation byte_len := String.length (only parsing).

Definition byte_val (b : ascii) : Z := Z.of_N (N_of_ascii b).

Definition in_range (lo hi v : Z) : bool := ((lo <=? v) && (v <=? hi))%Z.

Definition is_ascii_alphabetic (b : ascii) : bool :=
  in_range 65 90 (byte_val b) || in_range 97 122 (byte_val b).
Definition is_ascii_digit (b : ascii) : bool := in_range 48 57 (byte_val b).
Definition is_ascii_alphanumeric (b : ascii) : bool :=
  is_ascii_alphabetic b || is_ascii_digit b.
Definition is_ascii_graphic (b : ascii) : bool := in_range 33 126 (byte_val b).
(** Space, tab, line feed, form feed and carriage return. *)
Definition is_ascii_whitespace (b : ascii) : bool :=
  existsb (Z.eqb (byte_val b)) [32; 9; 10; 12; 13]%Z.

(** [str::split_once] with an ASCII delimiter. *)
Fixpoint split_once (c : ascii) (s : string) : option (string * string) :=
  match s with
  | EmptyString => None
  | String b s =>
      if Ascii.eqb b c then Some ("", s)
      else match split_once c s with
           | Some (l, r) => Some (String b l, r)
           | None => None
           end
  end.

(** [str::contains] with an ASCII character. *)
Fixpoint str_contains (c : ascii) (s : string) : bool :=
  match s with
  | EmptyString => false
  | String b s => Ascii.eqb b c || str_contains c s
  end.

Definition str_is_empty (s : string) : bool :=
  match s with EmptyString => true | _ => false end.

(** [str::split(c)], collected. *)
Fixpoint str_split (c : ascii) (s : string) : list string :=
  match s with
  | EmptyString => [""]
  | String b s =>
      if Ascii.eqb b c then "" :: str_split c s
      else match str_split c s with
           | p :: ps => String b p :: ps
           | [] => [String b ""]
           end
  end.

(** Offset of the first byte that fails a position-dependent test. *)
Fixpoint first_invalid (valid : nat → ascii → bool) (offset : nat) (s : string)
    : option nat :=
  match s with
  | EmptyString => None
  | String b s => if valid offset b then first_invalid valid (S offset) s else Some offset
  end.

(** Every byte satisfies a test. *)
Fixpoint str_forall (p : ascii → bool) (s : string) : bool :=
  match s with
  | EmptyString => true
  | String b s => p b && str_forall p s
  end.

(** [as_bytes().get(start..end)] *)
Fixpoint str_drop (n : nat) (s : string) : string :=
  match n, s with
  | O, _ => s
  | S n, String _ s => str_drop n s
  | S _, EmptyString => EmptyString
  end.

Fixpoint str_take (n : nat) (s : string) : string :=
  match n, s with
  | O, _ => EmptyString
  | S n, String b s => String b (str_take n s)
  | S _, EmptyString => EmptyString
  end.

Definition str_slice (first last : nat) (s : string) : option string :=
  if Nat.leb first last && Nat.leb last (byte_len s)
  then Some (str_take (last - first) (str_drop first s)) else None.

(** [str::from_utf8(..).is_ok()]: the well-formed byte sequences of Unicode. *)
Definition is_continuation (b : ascii) : bool := in_range 128 191 (byte_val b).

Fixpoint utf8_valid (s : string) : bool :=
  match s with
  | EmptyString => true
  | String a s =>
      let v := byte_val a in
      if (v <? 128)%Z then utf8_valid s else
      match s with
      | EmptyString => false
      | String b s =>
          if in_range 194 223 v then is_continuation b && utf8_valid s else
          match s with
          | EmptyString => false
          | String c s =>
              let second := byte_val b in
              if (v =? 224)%Z then
                in_range 160 191 second && is_continuation c && utf8_valid s
              else if in_range 225 236 v || in_range 238 239 v then
                is_continuation b && is_continuation c && utf8_valid s
              else if (v =? 237)%Z then
                in_range 128 159 second && is_continuation c && utf8_valid s
              else
              match s with
              | EmptyString => false
              | String d s =>
                  let rest := is_continuation c && is_continuation d && utf8_valid s in
                  if (v =? 240)%Z then in_range 144 191 second && rest
                  else if in_range 241 243 v then is_continuation b && rest
                  else if (v =? 244)%Z then in_range 128 143 second && rest
                  else false
              end
          end
      end
  end.

(** ** Proof automation *)

Create HintDb zz discriminated.
Create Rewrite HintDb ids.

Lemma bind_Ok {E A B} (r : result E A) (f : A → result E B) b :
  r ≫= f = Ok b ↔ ∃ a, r = Ok a ∧ f a = Ok b.
Proof. destruct r; cbn; naive_solver. Qed.

(** Prove that a computation succeeds, one step at a time. *)
Ltac step_ok v := apply bind_Ok; exists v; split.

Lemma bind_Err {E A B} (r : result E A) (f : A → result E B) e :
  r ≫= f = Err e ↔ r = Err e ∨ ∃ a, r = Ok a ∧ f a = Err e.
Proof. destruct r; cbn; naive_solver. Qed.

Lemma map_err_Ok {E F A} (f : E → F) (r : result E A) a :
  map_err f r = Ok a ↔ r = Ok a.
Proof. destruct r; cbn; naive_solver. Qed.

Lemma ok_or_Ok {E A} (o : option A) (e : E) a : ok_or o e = Ok a ↔ o = Some a.
Proof. destruct o; cbn; naive_solver. Qed.

Lemma guard_err_Ok {E} b (e : E) u : guard_err b e = Ok u ↔ b = false.
Proof. destruct b, u; cbn; naive_solver. Qed.

Lemma fmap_Ok {E A B} (f : A → B) (r : result E A) b :
  f <$> r = Ok b ↔ ∃ a, r = Ok a ∧ b = f a.
Proof. destruct r; cbn; naive_solver. Qed.

Lemma try_map_Ok {E A B} (f : A → result E B) l l' :
  try_map f l = Ok l' ↔ Forall2 (λ x y, f x = Ok y) l l'.
Proof.
  revert l'. induction l as [|x l IH]; intros l'; simpl.
  - split; [intros [= <-]; constructor|by inversion_clear 1].
  - split.
    + intros (y & Hy & (ys & Hys%IH & [= <-])%bind_Ok)%bind_Ok. by constructor.
    + inversion_clear 1 as [|? y ? ys Hy Hys]. apply bind_Ok. exists y. split; [done|].
      apply bind_Ok. exists ys. split; [by apply IH|done].
Qed.

Lemma try_for_Ok {E A} (f : A → result E unit) l :
  try_for f l = Ok tt ↔ Forall (λ x, f x = Ok tt) l.
Proof.
  induction l as [|x l IH]; simpl; [by split; [constructor|]|].
  split.
  - intros ([] & Hx & Hl%IH)%bind_Ok. by constructor.
  - intros [Hx Hl%IH]%Forall_cons_1. apply bind_Ok. by exists tt.
Qed.

Lemma try_map_total {E A B} (f : A → result E B) l :
  Forall (λ x, ∃ y, f x = Ok y) l → ∃ l', try_map f l = Ok l'.
Proof.
  induction 1 as [|x l [y Hy] _ [l' IH]]; simpl; [eauto|].
  rewrite Hy. simpl. rewrite IH. simpl. eauto.
Qed.

Lemma Forall_iff_on {A} (P Q : A → Prop) l :
  Forall (λ x, P x ↔ Q x) l → Forall P l ↔ Forall Q l.
Proof. induction 1 as [|x l Hx _ IH]; [done|]. by rewrite !Forall_cons, Hx, IH. Qed.

Lemma try_for_is_Ok {E A} (f : A → result E unit) l :
  is_ok (try_for f l) = forallb (λ x, is_ok (f x)) l.
Proof. induction l as [|x l IH]; simpl; [done|]. destruct (f x); simpl; done. Qed.

Lemma try_fold_app {E A S} (f : S → A → result E S) s l1 l2 :
  try_fold f s (l1 ++ l2) = s' ← try_fold f s l1; try_fold f s' l2.
Proof.
  revert s. induction l1 as [|x l1 IH]; intros s; simpl; [done|].
  destruct (f s x); simpl; [apply IH|done].
Qed.

(** A loop succeeds when each turn does, given what the turns before it left. *)
Lemma try_fold_total {E A S} (f : S → A → result E S) (P : list A → S → Prop) s l :
  P [] s →
  (∀ pre x post s1, l = pre ++ x :: post → P pre s1 → ∃ s2, f s1 x = Ok s2 ∧ P (pre ++ [x]) s2) →
  ∃ s', try_fold f s l = Ok s' ∧ P l s'.
Proof.
  intros H0 Hstep.
  assert (∀ pre post s1, l = pre ++ post → P pre s1 → ∃ s', try_fold f s1 post = Ok s' ∧ P l s') as Hgen.
  { intros pre post. revert pre. induction post as [|x post IH]; intros pre s1 El HP.
    - exists s1. split; [done|]. by rewrite El, app_nil_r.
    - destruct (Hstep _ _ _ _ El HP) as (s2 & Es & HP2).
      destruct (IH (pre ++ [x]) s2) as (s' & E' & HP'); [by rewrite <- app_assoc|done|].
      exists s'. split; [|done]. simpl. by rewrite Es. }
  by apply (Hgen []).
Qed.

(** Induction on the part of the list a loop has done. *)
Lemma try_fold_ind {E A S} (f : S → A → result E S) (P : list A → S → Prop) s l s' :
  P [] s →
  (∀ pre x post s1 s2, l = pre ++ x :: post → P pre s1 → f s1 x = Ok s2 → P (pre ++ [x]) s2) →
  try_fold f s l = Ok s' → P l s'.
Proof.
  intros H0 Hstep.
  assert (∀ pre post s1, l = pre ++ post → P pre s1 → try_fold f s1 post = Ok s' → P l s') as Hgen.
  { intros pre post. revert pre. induction post as [|x post IH]; intros pre s1 El HP Hr.
    - injection Hr as <-. by rewrite El, app_nil_r.
    - apply bind_Ok in Hr as (s2 & E1 & E2). eapply (IH (pre ++ [x])); [by rewrite <- app_assoc| |done].
      by eapply Hstep. }
  by apply (Hgen []).
Qed.

Section all_of.
Context {A : Type}.
Variable P : A → Prop.
(** [Forall] as a recursive function, for predicates defined by recursion
    through lists. *)
Fixpoint all_of (l : list A) : Prop :=
  match l with [] => True | x :: l => P x ∧ all_of l end.
End all_of.

Lemma all_of_Forall {A} (P : A → Prop) l : all_of P l ↔ Forall P l.
Proof.
  induction l as [|x l IH]; simpl.
  - split; [constructor|done].
  - split; [intros [? ?]; constructor; tauto|inversion_clear 1; tauto].
Qed.

(** ** Iteration over hash tables

    [HashMap]'s iteration order is unspecified: code that iterates is given
    an arbitrary enumeration of the values. *)
Class HashOrder := {
  hash_values {K V} `{Countable K} : gmap K V → list V;
  hash_values_perm {K V} `{Countable K} (m : gmap K V) :
    hash_values m ≡ₚ (map_to_list m).*2
}.

Definition map_order : HashOrder := {|
  hash_values K V _ _ m := (map_to_list m).*2;
  hash_values_perm K V _ _ m := reflexivity _
|}.

Lemma elem_of_hash_values `{HashOrder} {K V} `{Countable K} (m : gmap K V) v :
  v ∈ hash_values m ↔ ∃ k, m !! k = Some v.
Proof.
  split.
  - intros Hv. rewrite (hash_values_perm m) in Hv.
    apply list_elem_of_fmap in Hv as ([k v'] & -> & Hk). exists k. by apply elem_of_map_to_list.
  - intros [k Hk]. rewrite (hash_values_perm m).
    apply list_elem_of_fmap. exists (k, v). split; [done|]. by apply elem_of_map_to_list.
Qed.

(** [DefaultHasher]: a deterministic 64-bit hash whose algorithm the standard
    library leaves unspecified. Nothing is assumed of it: every result holds
    whatever collides. *)
Class Hasher := { hash_value {A} `{Countable A} : A → Z }.

(** Hashers for concrete inputs: one without collisions, one with nothing else. *)
Definition injective_hasher : Hasher := {| hash_value A _ _ a := Zpos (encode a) |}.
Definition constant_hasher : Hasher := {| hash_value A _ _ _ := 0%Z |}.

(** ** Compact ids

    [NonZeroU32] newtypes: the id of the element at index [i] is [i + 1]. *)
Definition id_index (p : positive) : nat := Nat.pred (Pos.to_nat p).
Definition index_id (i : nat) : positive := Pos.of_succ_nat i.

Lemma id_index_id i : id_index (index_id i) = i.
Proof. unfold id_index, index_id. lia. Qed.
Lemma index_id_index p : index_id (id_index p) = p.
Proof. unfold id_index, index_id. lia. Qed.
#[export] Hint Rewrite id_index_id index_id_index : ids.
#[global] Instance id_index_inj : Inj (=) (=) id_index.
Proof. intros p q H. by rewrite <- (index_id_index p), <- (index_id_index q), H. Qed.
#[global] Instance index_id_inj : Inj (=) (=) index_id.
Proof. intros i j H. by rewrite <- (id_index_id i), <- (id_index_id j), H. Qed.

(** Invert a successful computation in the hypotheses, step by step. *)
Ltac inv_ok :=
  repeat match goal with
  | H : mbind _ _ = Ok _ |- _ => apply bind_Ok in H as (? & ? & ?)
  | H : fmap _ _ = Ok _ |- _ => apply fmap_Ok in H as (? & ? & ?)
  | H : map_err _ _ = Ok _ |- _ => apply map_err_Ok in H
  | H : ok_or _ _ = Ok _ |- _ => apply ok_or_Ok in H
  | H : guard_err _ _ = Ok _ |- _ => apply guard_err_Ok in H
  | H : Ok _ = Ok _ |- _ => injection H as H
  | H : Err _ = Err _ |- _ => injection H as H
  | H : Err _ = Ok _ |- _ => discriminate H
  | H : Ok _ = Err _ |- _ => discriminate H
  end; subst.

(** Boolean tests in hypotheses and goals to propositions. *)
Ltac bool_to_prop :=
  repeat match goal with
  | H : (_ && _)%bool = true |- _ => apply andb_true_iff in H as [? ?]
  | H : (_ || _)%bool = false |- _ => apply orb_false_iff in H as [? ?]
  | H : negb _ = true |- _ => apply negb_true_iff in H
  | H : negb _ = false |- _ => apply negb_false_iff in H
  end.

(** ** Lemmas on the string operations *)

Lemma split_once_Some c s l r :
  split_once c s = Some (l, r) → s = (l +:+ String c r) ∧ str_contains c l = false.
Proof.
  revert l r. induction s as [|b s IH]; intros l r; simpl; [done|].
  destruct (Ascii.eqb b c) eqn:Hb.
  - apply Ascii.eqb_eq in Hb as ->. intros [= <- <-]. done.
  - destruct (split_once c s) as [[l' r']|] eqn:Hs; [|done].
    intros [= <- <-]. destruct (IH _ _ eq_refl) as [-> Hl]. simpl. by rewrite Hb.
Qed.

Lemma split_once_app c l r :
  str_contains c l = false → split_once c (l +:+ String c r) = Some (l, r).
Proof.
  induction l as [|b l IH]; simpl; [by rewrite Ascii.eqb_refl|].
  intros [Hb Hl]%orb_false_iff. rewrite Hb. by rewrite IH.
Qed.

Lemma split_once_None c s : split_once c s = None ↔ str_contains c s = false.
Proof.
  induction s as [|b s IH]; simpl; [done|].
  destruct (Ascii.eqb b c); simpl; [done|].
  destruct (split_once c s) as [[??]|]; naive_solver.
Qed.

Lemma str_contains_app c s t :
  str_contains c (s +:+ t) = str_contains c s || str_contains c t.
Proof. induction s as [|b s IH]; simpl; [done|]. by rewrite IH, orb_assoc. Qed.

Lemma str_forall_app p s t : str_forall p (s +:+ t) = str_forall p s && str_forall p t.
Proof. induction s as [|b s IH]; simpl; [done|]. by rewrite IH, andb_assoc. Qed.

Lemma str_forall_impl (p q : ascii → bool) s :
  (∀ b, p b = true → q b = true) → str_forall p s = true → str_forall q s = true.
Proof.
  intros Hpq. induction s as [|b s IH]; simpl; [done|].
  intros [? ?]%andb_true_iff. rewrite Hpq by done. by rewrite IH.
Qed.

Lemma str_forall_not_contains (p : ascii → bool) c s :
  p c = false → str_forall p s = true → str_contains c s = false.
Proof.
  intros Hc. induction s as [|b s IH]; simpl; [done|].
  intros [Hb Hs]%andb_true_iff. rewrite IH by done.
  destruct (Ascii.eqb b c) eqn:E; [|done].
  apply Ascii.eqb_eq in E as ->. congruence.
Qed.

Lemma string_cons_app b (s t : string) : String b s +:+ t = String b (s +:+ t).
Proof. reflexivity. Qed.

Lemma string_app_assoc (s t u : string) : (s +:+ t) +:+ u = s +:+ (t +:+ u).
Proof.
  induction s as [|b s IH]; [done|].
  by rewrite !string_cons_app, IH.
Qed.

Lemma string_app_cons (s u : string) c : s +:+ String c u = (s +:+ String c "") +:+ u.
Proof. by rewrite string_app_assoc. Qed.

Lemma byte_len_app (s t : string) : byte_len (s +:+ t) = byte_len s + byte_len t.
Proof.
  induction s as [|b s IH]; [done|]. rewrite string_cons_app. simpl. by rewrite IH.
Qed.

Lemma string_app_nil_r (s : string) : s +:+ "" = s.
Proof. induction s as [|b s IH]; [done|]. by rewrite string_cons_app, IH. Qed.

Lemma str_drop_app s t : str_drop (byte_len s) (s +:+ t) = t.
Proof. induction s as [|b s IH]; [by destruct t|]. rewrite string_cons_app. exact IH. Qed.

Lemma str_take_app s t : str_take (byte_len s) (s +:+ t) = s.
Proof.
  induction s as [|b s IH]; [by destruct t|]. rewrite string_cons_app. simpl. by rewrite IH.
Qed.

Lemma str_drop_app_le n s t :
  n ≤ byte_len s → str_drop n (s +:+ t) = str_drop n s +:+ t.
Proof.
  revert s. induction n as [|n IH]; intros s Hn; [by destruct s|].
  destruct s as [|b s]; simpl in *; [lia|]. apply IH. lia.
Qed.

Lemma str_take_app_le n s t : n ≤ byte_len s → str_take n (s +:+ t) = str_take n s.
Proof.
  revert s. induction n as [|n IH]; intros s Hn; [by destruct s, t|].
  destruct s as [|b s]; simpl in *; [lia|]. f_equal. apply IH. lia.
Qed.

Lemma byte_len_drop n s : byte_len (str_drop n s) = byte_len s - n.
Proof. revert s. induction n as [|n IH]; intros [|b s]; simpl; done || apply IH. Qed.

(** A slice is not disturbed by appending. *)
Lemma str_slice_app i j s t u : str_slice i j s = Some u → str_slice i j (s +:+ t) = Some u.
Proof.
  unfold str_slice. destruct (Nat.leb i j && Nat.leb j (byte_len s)) eqn:E; [|done].
  apply andb_true_iff in E as [H1%Nat.leb_le H2%Nat.leb_le]. intros [= <-].
  rewrite byte_len_app. rewrite (proj2 (Nat.leb_le i j)), (proj2 (Nat.leb_le j _)) by lia.
  simpl. rewrite str_drop_app_le, str_take_app_le by (rewrite ?byte_len_drop; lia). done.
Qed.

Lemma str_slice_last s t : str_slice (byte_len s) (byte_len s + byte_len t) (s +:+ t) = Some t.
Proof.
  unfold str_slice. rewrite byte_len_app, !(proj2 (Nat.leb_le _ _)) by lia. simpl.
  rewrite str_drop_app, Nat.add_comm, Nat.add_sub.
  rewrite <- (string_app_nil_r t) at 2. by rewrite str_take_app.
Qed.

Lemma utf8_valid_ascii s :
  str_forall (λ b, (byte_val b <? 128)%Z) s = true → utf8_valid s = true.
Proof.
  induction s as [|b s IH]; [done|]. intros [Hb Hs]%andb_true_iff.
  cbn [utf8_valid]. rewrite Hb. auto.
Qed.

(** ** Lemmas on lists *)

Lemma filter_list_fmap {A B} (P : B → Prop) `{∀ x, Decision (P x)} (f : A → B) (l : list A) :
  filter P (f <$> l) = f <$> filter (λ x, P (f x)) l.
Proof.
  induction l as [|x l IH]; [done|]. rewrite fmap_cons, !filter_cons.
  case_decide; [rewrite fmap_cons; congruence|done].
Qed.

Lemma filter_ext_in {A} (P Q : A → Prop) `{∀ x, Decision (P x), ∀ x, Decision (Q x)}
    (l : list A) :
  (∀ x, x ∈ l → P x ↔ Q x) → filter P l = filter Q l.
Proof.
  induction l as [|x l IH]; intros Hl; [done|]. rewrite !filter_cons.
  rewrite IH by (intros y Hy; apply Hl; by right). specialize (Hl x (list_elem_of_here _ _)).
  repeat case_decide; tauto.
Qed.

Lemma length_omap_all {A B} (f : A → option B) (l : list A) :
  Forall (λ x, is_Some (f x)) l → length (omap f l) = length l.
Proof.
  induction 1 as [|x l [y Hy] _ IH]; [done|]. cbn [omap list_omap length]. rewrite Hy.
  cbn [length]. f_equal. exact IH.
Qed.

Lemma filter_all {A} (P : A → Prop) `{∀ x, Decision (P x)} (l : list A) :
  (∀ x, x ∈ l → P x) → filter P l = l.
Proof.
  induction l as [|x l IH]; intros Hl; [done|].
  rewrite filter_cons_True by (apply Hl; by left). f_equal. apply IH.
  intros y Hy. apply Hl. by right.
Qed.

Lemma StronglySorted_sublist {A} (R : A → A → Prop) (l k : list A) :
  l `sublist_of` k → StronglySorted R k → StronglySorted R l.
Proof.
  induction 1 as [|x l k Hl IH|x l k Hl IH]; [done| |]; intros Hs; inversion_clear Hs; auto.
  constructor; [auto|]. rewrite Forall_forall in *. intros y Hy.
  match goal with H : ∀ x, _ → _ |- _ => apply H end. by eapply elem_of_submseteq, sublist_submseteq.
Qed.
