(* ===== verification/Model.v ===== *)
(** * Public data model (src/src/model.rs)

    The unvalidated values callers build: objects, relations, subjects and
    tuples of plain strings, the namespace configuration of the policy
    language and the tree [expand] returns.  Validation is in [Domain]. *)

From S2P Require Import Prelude.

(** ** Objects, relations, subjects, tuples *)

Record Object := mkObject { namespace : string; id : string }.

Record Relation := mkRelation { relation_str : string }.

Inductive User :=
| UserId (id : string)
| Userset (object : Object) (relation : Relation).

Record RelationTuple := mkTuple {
  tuple_object : Object;
  tuple_relation : Relation;
  tuple_user : User
}.

#[global] Instance Object_eq_dec : EqDecision Object.
Proof. solve_decision. Defined.
#[global] Instance Relation_eq_dec : EqDecision Relation.
Proof. solve_decision. Defined.
#[global] Instance User_eq_dec : EqDecision User.
Proof. solve_decision. Defined.
#[global] Instance RelationTuple_eq_dec : EqDecision RelationTuple.
Proof. solve_decision. Defined.

#[global] Program Instance Object_countable : Countable Object :=
  inj_countable' (λ o, (namespace o, id o)) (λ p, mkObject p.1 p.2) _.
Next Obligation. by intros []. Qed.
#[global] Program Instance Relation_countable : Countable Relation :=
  inj_countable' relation_str mkRelation _.
Next Obligation. by intros []. Qed.
#[global] Program Instance User_countable : Countable User :=
  inj_countable'
    (λ u, match u with UserId i => inl i | Userset o r => inr (o, r) end)
    (λ s, match s with inl i => UserId i | inr (o, r) => Userset o r end) _.
Next Obligation. by intros []. Qed.
#[global] Program Instance RelationTuple_countable : Countable RelationTuple :=
  inj_countable'
    (λ t, (tuple_object t, tuple_relation t, tuple_user t))
    (λ p, mkTuple p.1.1 p.1.2 p.2) _.
Next Obligation. by intros []. Qed.

(** ** Policy configuration *)

(** [model::UsersetExpression], which the schema compiler imports under the
    name [LegacyUsersetExpression]. *)
Inductive LegacyUsersetExpression :=
| LThis
| LComputedUserset (relation : Relation)
| LTupleToUserset (tupleset_relation computed_userset_relation : Relation)
| LUnion (expressions : list LegacyUsersetExpression)
| LIntersection (expressions : list LegacyUsersetExpression)
| LExclusion (base exclude : LegacyUsersetExpression).

Section LegacyUsersetExpression_ind.
Variable P : LegacyUsersetExpression → Prop.
Hypothesis HThis : P LThis.
Hypothesis HComputed : ∀ r, P (LComputedUserset r).
Hypothesis HTuple : ∀ t c, P (LTupleToUserset t c).
Hypothesis HUnion : ∀ es, Forall P es → P (LUnion es).
Hypothesis HInter : ∀ es, Forall P es → P (LIntersection es).
Hypothesis HExcl : ∀ b x, P b → P x → P (LExclusion b x).

(** Induction through the operand lists. *)
Fixpoint legacy_ind (e : LegacyUsersetExpression) : P e :=
  let fix go (l : list LegacyUsersetExpression) : Forall P l :=
    match l with
    | [] => List.Forall_nil _
    | e :: l => List.Forall_cons _ _ _ (legacy_ind e) (go l)
    end in
  match e with
  | LThis => HThis
  | LComputedUserset r => HComputed r
  | LTupleToUserset t c => HTuple t c
  | LUnion es => HUnion es (go es)
  | LIntersection es => HInter es (go es)
  | LExclusion b x => HExcl b x (legacy_ind b) (legacy_ind x)
  end.
End LegacyUsersetExpression_ind.

Record RelationConfig := mkRelationConfig {
  config_relation_name : Relation;
  config_userset_rewrite : option LegacyUsersetExpression
}.

Record NamespaceConfig := mkNamespaceConfig {
  config_name : string;
  config_relations : gmap Relation RelationConfig
}.

(** ** The result of [expand] *)

Inductive ExpandedUserset :=
| EUser (id : string)
| EUserset (object : Object) (relation : Relation)
| EUnion (children : list ExpandedUserset)
| EIntersection (children : list ExpandedUserset)
| EExclusion (base exclude : ExpandedUserset).

Section ExpandedUserset_ind.
Variable P : ExpandedUserset → Prop.
Hypothesis HUser : ∀ i, P (EUser i).
Hypothesis HUserset : ∀ o r, P (EUserset o r).
Hypothesis HUnion : ∀ l, Forall P l → P (EUnion l).
Hypothesis HIntersection : ∀ l, Forall P l → P (EIntersection l).
Hypothesis HExclusion : ∀ b e, P b → P e → P (EExclusion b e).

(** Induction through the child lists. *)
Fixpoint expanded_ind (t : ExpandedUserset) : P t :=
  let fix go (l : list ExpandedUserset) : Forall P l :=
    match l with
    | [] => List.Forall_nil _
    | t :: l => List.Forall_cons _ _ _ (expanded_ind t) (go l)
    end in
  match t with
  | EUser i => HUser i
  | EUserset o r => HUserset o r
  | EUnion l => HUnion l (go l)
  | EIntersection l => HIntersection l (go l)
  | EExclusion b e => HExclusion b e (expanded_ind b) (expanded_ind e)
  end.
End ExpandedUserset_ind.
