(* ===== verification/Domain.v ===== *)
(** * Validated domain primitives (src/src/domain.rs)

    Identifiers with their byte grammar, object and subject references,
    relationships, and their text form [type:id#relation@subject]. *)

From S2P Require Import Prelude Model.

Definition MAX_TYPE_BYTES : nat := 64.
Definition MAX_RELATION_BYTES : nat := 64.
Definition MAX_ID_BYTES : nat := 256.
Definition MAX_RELATIONSHIP_BYTES : nat := 768.
Definition LEGACY_USER_SUBJECT_TYPE : string := "user".

(** ** Errors *)

Inductive IdentifierKind :=
| KObjectType | KObjectId | KRelationName | KSubjectType | KSubjectId.

Inductive DomainError :=
| IdentifierTooLong (kind : IdentifierKind) (max_bytes : nat)
| EmptyIdentifier (kind : IdentifierKind)
| InvalidIdentifierByte (kind : IdentifierKind) (offset : nat)
| MalformedRelationship (reason : string).

#[global] Instance IdentifierKind_eq_dec : EqDecision IdentifierKind.
Proof. solve_decision. Defined.
#[global] Instance DomainError_eq_dec : EqDecision DomainError.
Proof. solve_decision. Defined.

(** ** Identifier validation *)

Definition type_byte_valid (offset : nat) (b : ascii) : bool :=
  if Nat.eqb offset 0 then is_ascii_alphabetic b
  else is_ascii_alphanumeric b || Ascii.eqb b "_".

Definition id_byte_valid (offset : nat) (b : ascii) : bool :=
  is_ascii_graphic b
  && negb (existsb (Ascii.eqb b) ["#"; "@"; ":"; "/"; "\"]%char)
  && negb (is_ascii_whitespace b).

Definition validate_type_identifier (kind : IdentifierKind) (value : string)
    (max_bytes : nat) : result DomainError unit :=
  _ ← guard_err (str_is_empty value) (EmptyIdentifier kind);
  _ ← guard_err (Nat.ltb max_bytes (byte_len value)) (IdentifierTooLong kind max_bytes);
  match first_invalid type_byte_valid 0 value with
  | Some offset => Err (InvalidIdentifierByte kind offset)
  | None => Ok tt
  end.

Definition validate_id_identifier (kind : IdentifierKind) (value : string)
    (max_bytes : nat) : result DomainError unit :=
  _ ← guard_err (str_is_empty value) (EmptyIdentifier kind);
  _ ← guard_err (Nat.ltb max_bytes (byte_len value)) (IdentifierTooLong kind max_bytes);
  match first_invalid id_byte_valid 0 value with
  | Some offset => Err (InvalidIdentifierByte kind offset)
  | None => Ok tt
  end.

(** ** The identifier newtypes

    [validated_identifier!] stamps out five newtypes over [String] whose
    field is private: a value exists only if its validator accepted it.  The
    family is indexed by the kind, with the accepted check as a field. *)

Definition max_bytes (kind : IdentifierKind) : nat :=
  match kind with
  | KObjectType | KSubjectType => MAX_TYPE_BYTES
  | KRelationName => MAX_RELATION_BYTES
  | KObjectId | KSubjectId => MAX_ID_BYTES
  end.

Definition validate_identifier (kind : IdentifierKind) (value : string)
    : result DomainError unit :=
  match kind with
  | KObjectType | KRelationName | KSubjectType =>
      validate_type_identifier kind value (max_bytes kind)
  | KObjectId | KSubjectId => validate_id_identifier kind value (max_bytes kind)
  end.

Record Ident (kind : IdentifierKind) := mkIdent {
  as_str : string;
  as_str_valid : Is_true (is_ok (validate_identifier kind as_str))
}.
Arguments mkIdent {kind} as_str as_str_valid.
Arguments as_str {kind} i.
Arguments as_str_valid {kind} i.

Abbreviation ObjectType := (Ident KObjectType).
Abbreviation ObjectId := (Ident KObjectId).
Abbreviation RelationName := (Ident KRelationName).
Abbreviation SubjectType := (Ident KSubjectType).
Abbreviation SubjectId := (Ident KSubjectId).

Lemma accepted {kind value u} :
  validate_identifier kind value = Ok u →
  Is_true (is_ok (validate_identifier kind value)).
Proof. by intros ->. Qed.

Definition ident_new_from (kind : IdentifierKind) (value : string)
    (r : result DomainError unit)
    : validate_identifier kind value = r → result DomainError (Ident kind) :=
  match r with
  | Ok _ => λ H, Ok (mkIdent value (accepted H))
  | Err e => λ _, Err e
  end.

(** [$name::new]; [FromStr], [TryFrom<&str>] and [TryFrom<String>] call it. *)
Definition ident_new (kind : IdentifierKind) (value : string)
    : result DomainError (Ident kind) :=
  ident_new_from kind value _ eq_refl.

Lemma ident_eq {kind} (i j : Ident kind) : as_str i = as_str j → i = j.
Proof.
  destruct i as [s Hs], j as [t Ht]; cbn. intros <-. f_equal. apply proof_irrel.
Qed.

#[global] Instance Ident_eq_dec {kind} : EqDecision (Ident kind) := λ i j,
  match decide (as_str i = as_str j) with
  | left H => left (ident_eq i j H)
  | right H => right (λ E, H (f_equal as_str E))
  end.

Lemma ident_new_from_spec kind value r (H : validate_identifier kind value = r) :
  match ident_new_from kind value r H with
  | Ok i => as_str i = value
  | Err e => validate_identifier kind value = Err e
  end.
Proof. by destruct r. Qed.

Lemma ident_new_Err kind value e :
  ident_new kind value = Err e ↔ validate_identifier kind value = Err e.
Proof.
  pose proof (ident_new_from_spec kind value _ eq_refl) as H. unfold ident_new.
  destruct (ident_new_from kind value _ eq_refl) as [i|e'].
  - split; [done|]. intros Hv. pose proof (as_str_valid i) as Hi.
    by rewrite H, Hv in Hi.
  - rewrite H. naive_solver.
Qed.

Lemma ident_new_Ok kind value i : ident_new kind value = Ok i ↔ as_str i = value.
Proof.
  destruct (ident_new kind value) as [j|e] eqn:E.
  - unfold ident_new in E. pose proof (ident_new_from_spec kind value _ eq_refl) as H.
    rewrite E in H. split; [by intros [= <-]|].
    intros Hi. f_equal. apply ident_eq. congruence.
  - apply ident_new_Err in E. split; [done|]. intros <-.
    pose proof (as_str_valid i) as Hi. by rewrite E in Hi.
Qed.

Lemma ident_new_as_str {kind} (i : Ident kind) : ident_new kind (as_str i) = Ok i.
Proof. by apply ident_new_Ok. Qed.

Definition ident_decode (kind : IdentifierKind) (s : string) : option (Ident kind) :=
  match ident_new kind s with Ok i => Some i | Err _ => None end.

Lemma ident_decode_as_str {kind} (i : Ident kind) :
  ident_decode kind (as_str i) = Some i.
Proof. unfold ident_decode. by rewrite ident_new_as_str. Qed.

#[global] Instance Ident_countable {kind} : Countable (Ident kind) :=
  inj_countable as_str (ident_decode kind) ident_decode_as_str.

Lemma same_grammar k1 k2 s :
  (k1, k2) ∈ [(KObjectType, KSubjectType); (KObjectId, KSubjectId);
              (KSubjectType, KObjectType); (KSubjectId, KObjectId)] →
  is_ok (validate_identifier k1 s) = is_ok (validate_identifier k2 s).
Proof.
  rewrite !elem_of_cons, elem_of_nil.
  intros [[= -> ->]|[[= -> ->]|[[= -> ->]|[[= -> ->]|[]]]]]; cbn;
    unfold validate_type_identifier, validate_id_identifier, guard_err;
    destruct (str_is_empty s), (Nat.ltb _ (byte_len s)), (first_invalid _ 0 s); done.
Qed.

Lemma subject_type_accepts s :
  Is_true (is_ok (validate_identifier KObjectType s)) →
  Is_true (is_ok (validate_identifier KSubjectType s)).
Proof. by rewrite (same_grammar KObjectType KSubjectType) by set_solver. Qed.

Lemma subject_id_accepts s :
  Is_true (is_ok (validate_identifier KObjectId s)) →
  Is_true (is_ok (validate_identifier KSubjectId s)).
Proof. by rewrite (same_grammar KObjectId KSubjectId) by set_solver. Qed.

(** [impl From<&ObjectType> for SubjectType], [From<&ObjectId> for SubjectId]:
    the string is copied without a second check. *)
Definition subject_type_of (t : ObjectType) : SubjectType :=
  @mkIdent KSubjectType (as_str t)
    (subject_type_accepts _ (as_str_valid t)).
Definition subject_id_of (i : ObjectId) : SubjectId :=
  @mkIdent KSubjectId (as_str i) (subject_id_accepts _ (as_str_valid i)).

(** ** References and relationships *)

Record ObjectRef := mkObjectRef { object_type : ObjectType; object_id : ObjectId }.

Inductive SubjectRef :=
| SubjectObject (object : ObjectRef)
| SubjectUserset (object : ObjectRef) (relation : RelationName).

Record Relationship := mkRelationship {
  resource : ObjectRef;
  relation : RelationName;
  subject : SubjectRef
}.

#[global] Instance ObjectRef_eq_dec : EqDecision ObjectRef.
Proof. solve_decision. Defined.
#[global] Instance SubjectRef_eq_dec : EqDecision SubjectRef.
Proof. solve_decision. Defined.
#[global] Instance Relationship_eq_dec : EqDecision Relationship.
Proof. solve_decision. Defined.

#[global] Program Instance ObjectRef_countable : Countable ObjectRef :=
  inj_countable' (λ o, (object_type o, object_id o)) (λ p, mkObjectRef p.1 p.2) _.
Next Obligation. by intros []. Qed.
#[global] Program Instance SubjectRef_countable : Countable SubjectRef :=
  inj_countable'
    (λ s, match s with SubjectObject o => inl o | SubjectUserset o r => inr (o, r) end)
    (λ s, match s with inl o => SubjectObject o | inr (o, r) => SubjectUserset o r end) _.
Next Obligation. by intros []. Qed.
#[global] Program Instance Relationship_countable : Countable Relationship :=
  inj_countable' (λ r, (resource r, relation r, subject r))
    (λ p, mkRelationship p.1.1 p.1.2 p.2) _.
Next Obligation. by intros []. Qed.

(** [Display] of the three types. *)
Definition object_ref_to_string (o : ObjectRef) : string :=
  as_str (object_type o) +:+ String ":" (as_str (object_id o)).

Definition subject_ref_to_string (s : SubjectRef) : string :=
  match s with
  | SubjectObject o => object_ref_to_string o
  | SubjectUserset o r => object_ref_to_string o +:+ String "#" (as_str r)
  end.

Definition relationship_to_string (r : Relationship) : string :=
  object_ref_to_string (resource r) +:+
  String "#" (as_str (relation r) +:+ String "@" (subject_ref_to_string (subject r))).

(** ** Parsing *)

(** The private helper [split_once] of domain.rs: both halves non-empty. *)
Definition split_once_checked (value : string) (delimiter : ascii)
    (missing_reason : string) : result DomainError (string * string) :=
  '(lhs, rhs) ← ok_or (split_once delimiter value) (MalformedRelationship missing_reason);
  _ ← guard_err (str_is_empty lhs || str_is_empty rhs)
        (MalformedRelationship missing_reason);
  Ok (lhs, rhs).

Definition object_ref_from_str (value : string) : result DomainError ObjectRef :=
  '(t, i) ← split_once_checked value ":" "object reference must contain ':'";
  t ← ident_new KObjectType t;
  i ← ident_new KObjectId i;
  Ok (mkObjectRef t i).

Definition parse_subject_object (value : string) : result DomainError ObjectRef :=
  '(t, i) ← split_once_checked value ":" "subject reference must contain ':'";
  st ← ident_new KSubjectType t;
  t ← ident_new KObjectType (as_str st);
  si ← ident_new KSubjectId i;
  i ← ident_new KObjectId (as_str si);
  Ok (mkObjectRef t i).

Definition subject_ref_from_str (value : string) : result DomainError SubjectRef :=
  match split_once "#" value with
  | Some (object, rel) =>
      object ← object_ref_from_str object;
      rel ← ident_new KRelationName rel;
      Ok (SubjectUserset object rel)
  | None => object ← parse_subject_object value; Ok (SubjectObject object)
  end.

Definition relationship_from_str (value : string) : result DomainError Relationship :=
  _ ← guard_err (Nat.ltb MAX_RELATIONSHIP_BYTES (byte_len value))
        (IdentifierTooLong KObjectId MAX_RELATIONSHIP_BYTES);
  '(res, sub) ← split_once_checked value "@"
        "relationship must contain one '@' separator";
  _ ← guard_err (str_contains "@" sub)
        (MalformedRelationship "relationship must contain one '@' separator");
  '(object, rel) ← split_once_checked res "#"
        "relationship resource must contain '#'";
  _ ← guard_err (str_contains "#" rel)
        (MalformedRelationship "relationship resource must contain one '#'");
  object ← object_ref_from_str object;
  rel ← ident_new KRelationName rel;
  sub ← subject_ref_from_str sub;
  Ok (mkRelationship object rel sub).

(** ** Conversions from the public model *)

Definition object_ref_of_object (value : Object) : result DomainError ObjectRef :=
  t ← ident_new KObjectType (namespace value);
  i ← ident_new KObjectId (id value);
  Ok (mkObjectRef t i).

Definition relation_name_of (value : Relation) : result DomainError RelationName :=
  ident_new KRelationName (relation_str value).

Lemma relation_name_of_as_str (rel : RelationName) : relation_name_of (mkRelation (as_str rel)) = Ok rel.
Proof. apply ident_new_as_str. Qed.

Definition subject_ref_of_user (value : User) : result DomainError SubjectRef :=
  match value with
  | UserId i =>
      t ← ident_new KObjectType LEGACY_USER_SUBJECT_TYPE;
      i ← ident_new KObjectId i;
      Ok (SubjectObject (mkObjectRef t i))
  | Userset object rel =>
      object ← object_ref_of_object object;
      rel ← relation_name_of rel;
      Ok (SubjectUserset object rel)
  end.

Definition relationship_of_tuple (value : RelationTuple)
    : result DomainError Relationship :=
  res ← object_ref_of_object (tuple_object value);
  rel ← relation_name_of (tuple_relation value);
  sub ← subject_ref_of_user (tuple_user value);
  Ok (mkRelationship res rel sub).

(** ** What an accepted identifier looks like *)

Lemma first_invalid_None (valid : nat → ascii → bool) (p : ascii → bool) off s :
  (∀ n b, valid n b = true → p b = true) →
  first_invalid valid off s = None → str_forall p s = true.
Proof.
  intros Hp. revert off. induction s as [|b s IH]; intros off; simpl; [done|].
  destruct (valid off b) eqn:Hv; [|done]. intros H. by rewrite (Hp _ _ Hv), (IH _ H).
Qed.

(** Every byte of an identifier is visible ASCII and no separator of the text
    form. *)
Definition separator_free (b : ascii) : bool :=
  is_ascii_graphic b && negb (existsb (Ascii.eqb b) ["#"; "@"; ":"]%char).

Lemma type_byte_separator_free n b : type_byte_valid n b = true → separator_free b = true.
Proof.
  unfold type_byte_valid, is_ascii_alphanumeric. destruct b as [[] [] [] [] [] [] [] []];
    vm_compute; destruct n; done.
Qed.

Lemma id_byte_separator_free n b : id_byte_valid n b = true → separator_free b = true.
Proof. destruct b as [[] [] [] [] [] [] [] []]; vm_compute; done. Qed.

Lemma ident_checks {kind} (i : Ident kind) :
  str_is_empty (as_str i) = false ∧ byte_len (as_str i) ≤ max_bytes kind ∧
  str_forall separator_free (as_str i) = true.
Proof.
  destruct i as [s Hs]; simpl.
  destruct (validate_identifier kind s) as [u|] eqn:Hv; [clear Hs|done].
  destruct kind; simpl in Hv |- *;
    unfold validate_type_identifier, validate_id_identifier in Hv; inv_ok;
    destruct (first_invalid _ 0 s) eqn:Hf; try done;
    (split_and!; [done|by apply Nat.ltb_ge|]);
    (eapply first_invalid_None; [|eassumption]);
    eauto using type_byte_separator_free, id_byte_separator_free.
Qed.

Lemma ident_not_empty {kind} (i : Ident kind) : str_is_empty (as_str i) = false.
Proof. apply ident_checks. Qed.

Lemma ident_len {kind} (i : Ident kind) : byte_len (as_str i) ≤ max_bytes kind.
Proof. apply ident_checks. Qed.

Lemma ident_not_contains {kind} (i : Ident kind) c :
  separator_free c = false → str_contains c (as_str i) = false.
Proof. intros Hc. eapply str_forall_not_contains; [done|]. apply ident_checks. Qed.

Lemma ident_utf8 {kind} (i : Ident kind) : utf8_valid (as_str i) = true.
Proof.
  apply utf8_valid_ascii. eapply str_forall_impl; [|apply ident_checks].
  intros b [Hb _]%andb_true_iff. unfold is_ascii_graphic, in_range in Hb.
  apply andb_true_iff in Hb as [_ Hb%Z.leb_le]. apply Z.ltb_lt. lia.
Qed.

#[export] Hint Resolve ident_not_empty ident_utf8 : zz.

(** ** Round trips of the parts *)

Lemma split_once_checked_Ok v c m l r :
  split_once_checked v c m = Ok (l, r) →
  v = l +:+ String c r ∧ str_contains c l = false.
Proof.
  unfold split_once_checked. intros H.
  destruct (split_once c v) as [[l' r']|] eqn:Hs; [|done]. simpl in H. inv_ok.
  simplify_eq. by apply split_once_Some.
Qed.

Lemma split_once_checked_app c m l r :
  str_contains c l = false → str_is_empty l = false → str_is_empty r = false →
  split_once_checked (l +:+ String c r) c m = Ok (l, r).
Proof.
  intros Hc Hl Hr. unfold split_once_checked. rewrite split_once_app by done.
  simpl. by rewrite Hl, Hr.
Qed.

Lemma object_ref_from_to o : object_ref_from_str (object_ref_to_string o) = Ok o.
Proof.
  destruct o as [t i]. unfold object_ref_from_str, object_ref_to_string; simpl.
  rewrite split_once_checked_app by auto using ident_not_contains, ident_not_empty.
  simpl. by rewrite !ident_new_as_str.
Qed.

Lemma object_ref_to_from s o : object_ref_from_str s = Ok o → object_ref_to_string o = s.
Proof.
  unfold object_ref_from_str, object_ref_to_string. intros H.
  apply bind_Ok in H as ([t i] & Hs & H). apply split_once_checked_Ok in Hs as [-> _].
  inv_ok. simpl.
  repeat match goal with H : ident_new _ _ = Ok _ |- _ => apply ident_new_Ok in H as <- end.
  done.
Qed.

Lemma parse_subject_object_eq s o :
  parse_subject_object s = Ok o ↔ object_ref_from_str s = Ok o.
Proof.
  unfold parse_subject_object, object_ref_from_str, split_once_checked.
  destruct (split_once ":" s) as [[t i]|]; simpl; [|done].
  destruct (str_is_empty t || str_is_empty i); simpl; [done|].
  split.
  - intros (st & Hst & H)%bind_Ok. apply bind_Ok in H as (ot & Hot & H).
    apply bind_Ok in H as (si & Hsi & H). apply bind_Ok in H as (oi & Hoi & H).
    apply ident_new_Ok in Hst as <-, Hot as Hot, Hsi as <-, Hoi as Hoi.
    apply ident_new_Ok in Hot, Hoi. by rewrite Hot; simpl; rewrite Hoi.
  - intros (ot & <-%ident_new_Ok & H)%bind_Ok. apply bind_Ok in H as (oi & Hoi & H).
    apply ident_new_Ok in Hoi as <-.
    rewrite (proj2 (ident_new_Ok KSubjectType (as_str ot) (subject_type_of ot)) eq_refl).
    simpl. rewrite ident_new_as_str. simpl.
    rewrite (proj2 (ident_new_Ok KSubjectId (as_str oi) (subject_id_of oi)) eq_refl).
    simpl. by rewrite ident_new_as_str.
Qed.

Lemma object_ref_not_contains o c :
  separator_free c = false → Ascii.eqb ":" c = false →
  str_contains c (object_ref_to_string o) = false.
Proof.
  intros Hc Hne. unfold object_ref_to_string.
  rewrite str_contains_app; simpl. rewrite Hne.
  by rewrite !ident_not_contains.
Qed.

Lemma object_ref_to_string_not_empty o : str_is_empty (object_ref_to_string o) = false.
Proof.
  destruct o as [t i]. unfold object_ref_to_string. simpl.
  pose proof (ident_not_empty t). by destruct (as_str t).
Qed.

Lemma subject_ref_from_to s : subject_ref_from_str (subject_ref_to_string s) = Ok s.
Proof.
  unfold subject_ref_from_str. destruct s as [o|o r]; simpl.
  - rewrite (proj2 (split_once_None _ _)) by (by apply object_ref_not_contains).
    by rewrite (proj2 (parse_subject_object_eq _ o) (object_ref_from_to o)).
  - rewrite split_once_app by (by apply object_ref_not_contains).
    rewrite object_ref_from_to; simpl. by rewrite ident_new_as_str.
Qed.

Lemma subject_ref_to_from s r : subject_ref_from_str s = Ok r → subject_ref_to_string r = s.
Proof.
  unfold subject_ref_from_str. destruct (split_once "#" s) as [[o rel]|] eqn:Hs; intros H.
  - apply split_once_Some in Hs as [-> _].
    apply bind_Ok in H as (o' & <-%object_ref_to_from & H).
    apply bind_Ok in H as (rel' & <-%ident_new_Ok & [= <-]). done.
  - inv_ok. simpl. by apply object_ref_to_from, parse_subject_object_eq.
Qed.

Lemma subject_ref_not_contains_at s : str_contains "@" (subject_ref_to_string s) = false.
Proof.
  destruct s as [o|o r]; simpl; [by apply object_ref_not_contains|].
  rewrite str_contains_app; simpl.
  by rewrite object_ref_not_contains, ident_not_contains.
Qed.

Lemma string_app_not_empty s t : str_is_empty s = false → str_is_empty (s +:+ t) = false.
Proof. by destruct s. Qed.

Lemma subject_ref_to_string_not_empty s : str_is_empty (subject_ref_to_string s) = false.
Proof.
  destruct s; simpl; auto using object_ref_to_string_not_empty, string_app_not_empty.
Qed.

Lemma resource_relation_to_string r :
  relationship_to_string r =
  (object_ref_to_string (resource r) +:+ String "#" (as_str (relation r))) +:+
  String "@" (subject_ref_to_string (subject r)).
Proof. unfold relationship_to_string. by rewrite string_app_assoc. Qed.

Lemma relationship_from_to r :
  byte_len (relationship_to_string r) ≤ MAX_RELATIONSHIP_BYTES →
  relationship_from_str (relationship_to_string r) = Ok r.
Proof.
  intros Hlen. unfold relationship_from_str.
  rewrite (proj2 (Nat.ltb_ge _ _) Hlen). simpl. rewrite resource_relation_to_string.
  rewrite split_once_checked_app; first last.
  { apply subject_ref_to_string_not_empty. }
  { apply string_app_not_empty, object_ref_to_string_not_empty. }
  { rewrite str_contains_app; simpl.
    by rewrite object_ref_not_contains, ident_not_contains. }
  simpl. rewrite subject_ref_not_contains_at. simpl.
  rewrite split_once_checked_app
    by auto using object_ref_not_contains, object_ref_to_string_not_empty, ident_not_empty.
  simpl. rewrite ident_not_contains by done. simpl.
  rewrite object_ref_from_to; simpl. rewrite ident_new_as_str; simpl.
  rewrite subject_ref_from_to. by destruct r.
Qed.

Lemma object_ref_len o : byte_len (object_ref_to_string o) ≤ 321.
Proof.
  unfold object_ref_to_string. rewrite byte_len_app. simpl.
  pose proof (ident_len (object_type o)) as Ht. pose proof (ident_len (object_id o)) as Hi.
  simpl in Ht, Hi. unfold MAX_TYPE_BYTES, MAX_ID_BYTES in *. lia.
Qed.

(** ** Properties *)

(** C40: Printing a relationship and parsing it back is the identity exactly when
    the text fits the parser's byte limit. *)
Theorem relationship_roundtrip_iff (r : Relationship) :
  relationship_from_str (relationship_to_string r) = Ok r ↔
  byte_len (relationship_to_string r) ≤ MAX_RELATIONSHIP_BYTES.
Proof.
  split; [|apply relationship_from_to]. intros H.
  unfold relationship_from_str in H.
  apply bind_Ok in H as (u & Hg%guard_err_Ok & _). by apply Nat.ltb_ge.
Qed.

(** Parsing accepts only the canonical text: what it accepts prints back to
    the same bytes. *)
Theorem relationship_parse_print (s : string) (r : Relationship) :
  relationship_from_str s = Ok r → relationship_to_string r = s.
Proof.
  unfold relationship_from_str. intros H.
  apply bind_Ok in H as (? & _ & H).
  apply bind_Ok in H as ([res sub] & [-> _]%split_once_checked_Ok & H).
  apply bind_Ok in H as (? & _ & H).
  apply bind_Ok in H as ([o rel] & [-> _]%split_once_checked_Ok & H).
  apply bind_Ok in H as (? & _ & H).
  apply bind_Ok in H as (o' & <-%object_ref_to_from & H).
  apply bind_Ok in H as (rel' & <-%ident_new_Ok & H).
  apply bind_Ok in H as (sub' & <-%subject_ref_to_from & [= <-]).
  by rewrite resource_relation_to_string.
Qed.

(** No relationship prints to more than 773 bytes. *)
Lemma relationship_text_bound (r : Relationship) :
  byte_len (relationship_to_string r) ≤ 773.
Proof.
  unfold relationship_to_string. destruct r as [o rel sub]. simpl.
  rewrite !byte_len_app. simpl. rewrite byte_len_app. simpl.
  pose proof (object_ref_len o) as Ho. pose proof (ident_len rel) as Hrel.
  destruct sub as [o'|o' r']; simpl; pose proof (object_ref_len o') as Ho';
    simpl in Hrel; unfold MAX_RELATION_BYTES in *; [lia|].
  rewrite byte_len_app. simpl. pose proof (ident_len r') as Hr'. simpl in Hr'.
  unfold MAX_RELATION_BYTES in *. lia.
Qed.

Fixpoint str_repeat (b : ascii) (n : nat) : string :=
  match n with O => "" | S n => String b (str_repeat b n) end.

(** Every component at its own byte cap. *)
Definition longest_object : ObjectRef :=
  mkObjectRef (@mkIdent KObjectType (str_repeat "a" 64) I)
              (@mkIdent KObjectId (str_repeat "b" 256) I).
Definition longest_relation : RelationName :=
  @mkIdent KRelationName (str_repeat "c" 64) I.
Definition longest_relationship : Relationship :=
  mkRelationship longest_object longest_relation
    (SubjectUserset longest_object longest_relation).

(** The parser's 768-byte limit is below what the component caps allow: a
    valid relationship can print to 773 bytes, and its own text is rejected. *)
Theorem longest_relationship_not_reparsed :
  byte_len (relationship_to_string longest_relationship) = 773 ∧
  relationship_from_str (relationship_to_string longest_relationship) =
    Err (IdentifierTooLong KObjectId MAX_RELATIONSHIP_BYTES).
Proof. split; vm_compute; reflexivity. Qed.

Lemma first_invalid_Some valid off s n :
  first_invalid valid off s = Some n →
  off ≤ n ∧ n < off + byte_len s ∧
  (∃ b, String.get (n - off) s = Some b ∧ valid n b = false) ∧
  (∀ m b, off ≤ m → m < n → String.get (m - off) s = Some b → valid m b = true).
Proof.
  revert off. induction s as [|b s IH]; intros off; simpl; [done|].
  destruct (valid off b) eqn:Hv.
  - intros (Hle & Hlt & (b' & Hb & Hb') & Hall)%IH. split_and!; [lia|lia| |].
    + exists b'. destruct (n - off) as [|k] eqn:E; [lia|].
      replace (n - S off) with k in Hb by lia. done.
    + intros m c Hm Hmn. destruct (m - off) as [|k] eqn:E.
      * intros [= <-]. by replace m with off by lia.
      * intros Hc. apply (Hall m c); [lia|done|]. by replace (m - S off) with k by lia.
  - intros [= <-]. split_and!; [lia|lia| |].
    + exists b. by rewrite Nat.sub_diag.
    + intros; lia.
Qed.

Definition byte_rule (kind : IdentifierKind) : nat → ascii → bool :=
  match kind with
  | KObjectType | KRelationName | KSubjectType => type_byte_valid
  | KObjectId | KSubjectId => id_byte_valid
  end.

Lemma validate_identifier_unfold kind s :
  validate_identifier kind s =
  if str_is_empty s then Err (EmptyIdentifier kind)
  else if Nat.ltb (max_bytes kind) (byte_len s)
       then Err (IdentifierTooLong kind (max_bytes kind))
       else match first_invalid (byte_rule kind) 0 s with
            | Some offset => Err (InvalidIdentifierByte kind offset)
            | None => Ok tt
            end.
Proof.
  destruct kind; unfold validate_identifier, validate_type_identifier,
    validate_id_identifier, guard_err; simpl;
    destruct (str_is_empty s), (Nat.ltb _ (byte_len s)); done.
Qed.

(** A rejected byte is reported at the first offset that breaks the kind's
    grammar, and only for a value of legal length. *)
Theorem invalid_byte_is_first kind s k off :
  validate_identifier kind s = Err (InvalidIdentifierByte k off) →
  k = kind ∧ 0 < byte_len s ≤ max_bytes kind ∧
  (∃ b, String.get off s = Some b ∧ byte_rule kind off b = false) ∧
  (∀ m b, m < off → String.get m s = Some b → byte_rule kind m b = true).
Proof.
  rewrite validate_identifier_unfold.
  destruct (str_is_empty s) eqn:He; [done|].
  destruct (Nat.ltb _ _) eqn:Hl; [done|]. apply Nat.ltb_ge in Hl.
  destruct (first_invalid _ 0 s) as [n|] eqn:Hf; [|done]. intros [= <- <-].
  apply first_invalid_Some in Hf as (_ & _ & (b & Hb & Hb') & Hall).
  rewrite Nat.sub_0_r in Hb. split_and!; [done|by destruct s; simpl in *; lia|done|eauto|].
  intros m c Hm Hc. apply Hall; [lia|done|by rewrite Nat.sub_0_r].
Qed.

(** ** Concrete inputs *)

Lemma relationship_parse_print_witness :
  ∃ r, relationship_from_str "doc:readme#viewer@group:eng#member" = Ok r ∧
       relationship_to_string r = "doc:readme#viewer@group:eng#member".
Proof.
  destruct (relationship_from_str "doc:readme#viewer@group:eng#member") as [r|e] eqn:E.
  - exists r. split; [reflexivity|]. apply (relationship_parse_print _ r E).
  - vm_compute in E. discriminate E.
Defined.

Lemma invalid_byte_is_first_witness :
  validate_identifier KRelationName "can-view" = Err (InvalidIdentifierByte KRelationName 3) ∧
  (∃ b, String.get 3 "can-view" = Some b ∧ byte_rule KRelationName 3 b = false).
Proof.
  split; [reflexivity|].
  apply (invalid_byte_is_first KRelationName "can-view" KRelationName 3). reflexivity.
Defined.
