(* ===== verification/Revision.v ===== *)
(** * Revisions and consistency tokens (src/src/revision.rs)

    Monotonic revisions, the fixed-size identifiers, and the token text
    [sz1:<revision>:<schema hash>:<datastore id>]. *)

From S2P Require Import Prelude.

Local Open Scope Z_scope.

Definition TOKEN_VERSION : string := "sz1".
Definition MAX_CONSISTENCY_TOKEN_BYTES : nat := 122.
Definition DEFAULT_RETAINED_SNAPSHOTS : nat := 32.

(** ** Revisions *)

(** [NonZeroU64]: the bound is part of the type. *)
Record Revision := mkRevision {
  rev_get : Z;
  rev_bounds : Is_true (in_range 1 u64_max rev_get)
}.

Lemma revision_eq (r s : Revision) : rev_get r = rev_get s → r = s.
Proof.
  destruct r as [r Hr], s as [s Hs]; simpl. intros <-. f_equal. apply proof_irrel.
Qed.

#[global] Instance Revision_eq_dec : EqDecision Revision := λ r s,
  match decide (rev_get r = rev_get s) with
  | left H => left (revision_eq r s H)
  | right H => right (λ E, H (f_equal rev_get E))
  end.

Inductive ConsistencyError :=
| InvalidToken (reason : string)
| WrongDatastore
| RevisionExpired (revision : Revision)
| RevisionUnavailable (revision : Revision)
| SchemaHashMismatch (revision : Revision)
| RevisionOverflow.

#[global] Instance ConsistencyError_eq_dec : EqDecision ConsistencyError.
Proof. solve_decision. Defined.

(** [NonZeroU64::new(value).map(Self)] for a value already known to be a [u64]. *)
Definition revision_new (v : Z) : option Revision :=
  match sumbool_of_bool (in_range 1 u64_max v) with
  | left H => Some (mkRevision v (Is_true_eq_left _ H))
  | right _ => None
  end.

Definition revision_first : Revision := mkRevision 1 I.

Definition revision_next (r : Revision) : result ConsistencyError Revision :=
  value ← ok_or (checked_add u64_max (rev_get r) 1) RevisionOverflow;
  ok_or (revision_new value) RevisionOverflow.

(** ** Decimal text of [u64] (std [Display] and [FromStr]) *)

Definition digit_char (d : Z) : ascii := ascii_of_N (Z.to_N (48 + d)).

Fixpoint dec_digits (fuel : nat) (n : Z) (acc : string) : string :=
  match fuel with
  | O => acc
  | S fuel =>
      let acc := String (digit_char (n mod 10)) acc in
      if n / 10 =? 0 then acc else dec_digits fuel (n / 10) acc
  end.

(** A [u64] has at most 20 digits. *)
Definition u64_to_string (n : Z) : string := dec_digits 20 n "".

Fixpoint parse_digits (acc : Z) (s : string) : option Z :=
  match s with
  | EmptyString => Some acc
  | String b s =>
      if is_ascii_digit b then
        acc ← checked_mul u64_max acc 10;
        acc ← checked_add u64_max acc (byte_val b - 48);
        parse_digits acc s
      else None
  end.

(** [str::parse::<u64>]: a leading [+] is accepted, an empty number is not. *)
Definition parse_u64 (s : string) : option Z :=
  match s with
  | EmptyString => None
  | String b rest =>
      if Ascii.eqb b "+" then
        if str_is_empty rest then None else parse_digits 0 rest
      else parse_digits 0 s
  end.

Definition revision_to_string (r : Revision) : string := u64_to_string (rev_get r).

Definition revision_from_str (value : string) : result ConsistencyError Revision :=
  parsed ← ok_or (parse_u64 value)
             (InvalidToken "revision must be a non-zero unsigned integer");
  ok_or (revision_new parsed) (InvalidToken "revision must be non-zero").

(** ** Fixed-size byte arrays and their hexadecimal text *)

(** [[u8; N]] *)
Record ByteArray (n : nat) := mkByteArray {
  array_bytes : list Z;
  array_wf : Is_true (Nat.eqb (length array_bytes) n && forallb (in_range 0 u8_max) array_bytes)
}.
Arguments mkByteArray {n} array_bytes array_wf.
Arguments array_bytes {n} b.
Arguments array_wf {n} b.

Abbreviation DatastoreId := (ByteArray 16).
Abbreviation SchemaHash := (ByteArray 32).

Lemma byte_array_eq {n} (a b : ByteArray n) : array_bytes a = array_bytes b → a = b.
Proof.
  destruct a as [a Ha], b as [b Hb]; simpl. intros <-. f_equal. apply proof_irrel.
Qed.

#[global] Instance ByteArray_eq_dec {n} : EqDecision (ByteArray n) := λ a b,
  match decide (array_bytes a = array_bytes b) with
  | left H => left (byte_array_eq a b H)
  | right H => right (λ E, H (f_equal array_bytes E))
  end.

Definition nibble_char (v : Z) : ascii :=
  ascii_of_N (Z.to_N (if v <? 10 then 48 + v else 87 + v)).

(** [{byte:02x}] for each byte. *)
Fixpoint write_hex (bytes : list Z) : string :=
  match bytes with
  | [] => ""
  | b :: bytes => String (nibble_char (b / 16)) (String (nibble_char (b mod 16)) (write_hex bytes))
  end.

Definition INVALID_DIGIT : ConsistencyError :=
  InvalidToken "hex field contains invalid digit".
Definition INVALID_HEX_LENGTH : ConsistencyError :=
  InvalidToken "hex field length is invalid".

Definition decode_nibble (b : ascii) : result ConsistencyError Z :=
  let v := byte_val b in
  if in_range 48 57 v then Ok (v - 48)
  else if in_range 97 102 v then Ok (v - 97 + 10)
  else if in_range 65 70 v then Ok (v - 65 + 10)
  else Err INVALID_DIGIT.

Definition result_ok {E A} (r : result E A) : option A :=
  match r with Ok a => Some a | Err _ => None end.

(** One target byte of [decode_hex]. *)
Definition decode_pair (high low : ascii) : result ConsistencyError Z :=
  h ← decode_nibble high;
  ok_or (left ← checked_mul u8_max h 16;
         l ← result_ok (decode_nibble low);
         checked_add u8_max left l)
        INVALID_DIGIT.

(** The loop over [chunks_exact(2)], which ignores an odd last byte. *)
Fixpoint decode_pairs (s : string) : result ConsistencyError (list Z) :=
  match s with
  | String high (String low s) =>
      b ← decode_pair high low; bs ← decode_pairs s; Ok (b :: bs)
  | _ => Ok []
  end.

Definition byte_array_new (n : nat) (bytes : list Z) : option (ByteArray n) :=
  match sumbool_of_bool (Nat.eqb (length bytes) n && forallb (in_range 0 u8_max) bytes) with
  | left H => Some (mkByteArray bytes (Is_true_eq_left _ H))
  | right _ => None
  end.

(** The target array has exactly [n] cells, one per pair of the checked
    length, so building it from the decoded bytes cannot fail. *)
Definition decode_hex (n : nat) (value : string) : result ConsistencyError (ByteArray n) :=
  _ ← guard_err (negb (Nat.eqb (byte_len value) (n * 2))) INVALID_HEX_LENGTH;
  bytes ← decode_pairs value;
  ok_or (byte_array_new n bytes) INVALID_HEX_LENGTH.

(** ** Tokens *)

Record ConsistencyToken := mkToken {
  token_revision : Revision;
  token_schema_hash : SchemaHash;
  token_datastore_id : DatastoreId
}.

#[global] Instance ConsistencyToken_eq_dec : EqDecision ConsistencyToken.
Proof. solve_decision. Defined.

Definition token_to_string (t : ConsistencyToken) : string :=
  TOKEN_VERSION +:+ String ":" (revision_to_string (token_revision t) +:+
  String ":" (write_hex (array_bytes (token_schema_hash t)) +:+
  String ":" (write_hex (array_bytes (token_datastore_id t))))).

Definition token_from_str (value : string) : result ConsistencyError ConsistencyToken :=
  _ ← guard_err (Nat.ltb MAX_CONSISTENCY_TOKEN_BYTES (byte_len value))
        (InvalidToken "token exceeds maximum byte length");
  let parts := str_split ":" value in
  version ← ok_or (parts !! 0%nat) (InvalidToken "missing token version");
  _ ← guard_err (negb (String.eqb version TOKEN_VERSION))
        (InvalidToken "unsupported token version");
  rev ← ok_or (parts !! 1%nat) (InvalidToken "missing revision");
  rev ← revision_from_str rev;
  hash ← ok_or (parts !! 2%nat) (InvalidToken "missing schema hash");
  hash ← decode_hex 32 hash;
  ds ← ok_or (parts !! 3%nat) (InvalidToken "missing datastore id");
  ds ← decode_hex 16 ds;
  _ ← guard_err (bool_decide (is_Some (parts !! 4%nat)))
        (InvalidToken "too many token fields");
  Ok (mkToken rev hash ds).

(** [default_retained_snapshots]; the constant is not zero. *)
Definition default_retained_snapshots : nat := DEFAULT_RETAINED_SNAPSHOTS.

Inductive Consistency :=
| Latest
| Exact (token : ConsistencyToken).

#[global] Instance Consistency_eq_dec : EqDecision Consistency.
Proof. solve_decision. Defined.

(** ** Revisions: lemmas *)

Lemma in_range_true lo hi v : in_range lo hi v = true ↔ lo ≤ v ≤ hi.
Proof. unfold in_range. rewrite andb_true_iff, !Z.leb_le. done. Qed.

Lemma rev_range r : 1 ≤ rev_get r ≤ u64_max.
Proof. apply in_range_true, Is_true_eq_true, rev_bounds. Qed.

Lemma revision_new_Some v r : revision_new v = Some r ↔ rev_get r = v.
Proof.
  unfold revision_new. destruct (sumbool_of_bool _) as [H|H].
  - split; [by intros [= <-]|]. intros <-. f_equal. by apply revision_eq.
  - split; [done|]. intros <-. pose proof (rev_range r) as Hr.
    apply in_range_true in Hr. congruence.
Qed.

Lemma revision_new_get r : revision_new (rev_get r) = Some r.
Proof. by apply revision_new_Some. Qed.

Lemma revision_next_Ok r r' : revision_next r = Ok r' ↔ rev_get r' = rev_get r + 1.
Proof.
  unfold revision_next, checked_add. pose proof (rev_range r'). split.
  - intros H'. inv_ok. destruct (_ <=? _); [|done]. simplify_eq.
    by apply revision_new_Some.
  - intros E. replace (rev_get r + 1 <=? u64_max) with true by (symmetry; apply Z.leb_le; lia).
    simpl. rewrite <- E, revision_new_get. done.
Qed.

Lemma revision_next_Err r e :
  revision_next r = Err e ↔ e = RevisionOverflow ∧ rev_get r = u64_max.
Proof.
  unfold revision_next, checked_add. pose proof (rev_range r).
  destruct (Z.leb_spec (rev_get r + 1) u64_max); simpl.
  - unfold revision_new. destruct (sumbool_of_bool _) as [H'|H']; simpl.
    + split; [done|]. lia.
    + assert (in_range 1 u64_max (rev_get r + 1) = true) by (apply in_range_true; lia).
      congruence.
  - split; [intros [= <-]; split; [done|lia]|]. by intros [-> _].
Qed.

(** ** Decimal text *)

Lemma is_digit_char d : 0 ≤ d < 10 →
  is_ascii_digit (digit_char d) = true ∧ byte_val (digit_char d) - 48 = d ∧
  Ascii.eqb (digit_char d) "+" = false ∧ Ascii.eqb (digit_char d) ":" = false.
Proof.
  intros Hd.
  assert (d = 0 ∨ d = 1 ∨ d = 2 ∨ d = 3 ∨ d = 4 ∨ d = 5 ∨ d = 6 ∨ d = 7 ∨ d = 8 ∨ d = 9)
    as Hc by lia.
  by repeat (destruct Hc as [->|Hc]; [vm_compute|]); subst.
Qed.

Lemma parse_digits_digit a d s :
  0 ≤ d < 10 → 0 ≤ a → a * 10 + d ≤ u64_max →
  parse_digits a (String (digit_char d) s) = parse_digits (a * 10 + d) s.
Proof.
  intros Hd Ha Hmax. destruct (is_digit_char d Hd) as (Hdig & Hval & _ & _).
  simpl. rewrite Hdig, Hval. unfold checked_mul, checked_add.
  rewrite (proj2 (Z.leb_le (a * 10) u64_max)) by lia. simpl.
  by rewrite (proj2 (Z.leb_le (a * 10 + d) u64_max)) by lia.
Qed.

Lemma parse_dec_digits fuel n acc :
  0 ≤ n ≤ u64_max → n < 10 ^ Z.of_nat fuel → (0 < fuel)%nat →
  parse_digits 0 (dec_digits fuel n acc) = parse_digits n acc.
Proof.
  revert n acc. induction fuel as [|fuel IH]; intros n acc Hn Hpow Hf; [lia|].
  cbn [dec_digits]. pose proof (Z.mod_pos_bound n 10). pose proof (Z.div_mod n 10).
  destruct (Z.eqb_spec (n / 10) 0) as [Hz|Hz].
  - rewrite parse_digits_digit by lia. f_equal. lia.
  - rewrite Nat2Z.inj_succ, Z.pow_succ_r in Hpow by lia.
    assert (0 < n / 10) by (pose proof (Z.div_pos n 10); lia).
    rewrite IH; first rewrite parse_digits_digit by lia; [f_equal; lia|lia| |].
    + apply Z.div_lt_upper_bound; lia.
    + destruct fuel; [simpl in Hpow; lia|lia].
Qed.

Lemma dec_digits_shape (p : ascii → bool) fuel n acc :
  (∀ d, 0 ≤ d < 10 → p (digit_char d) = true) → 0 ≤ n →
  str_forall p acc = true → str_forall p (dec_digits fuel n acc) = true.
Proof.
  intros Hp. revert n acc. induction fuel as [|fuel IH]; intros n acc Hn Hacc; [done|].
  cbn [dec_digits]. assert (str_forall p (String (digit_char (n mod 10)) acc) = true) as Hs.
  { simpl. rewrite Hacc, Hp; [done|]. apply Z.mod_pos_bound. lia. }
  destruct (n / 10 =? 0); [done|]. apply IH; [|done]. apply Z.div_pos; lia.
Qed.

Lemma dec_digits_len fuel n acc :
  (byte_len (dec_digits fuel n acc) ≤ fuel + byte_len acc)%nat ∧
  ((0 < fuel)%nat → (0 < byte_len (dec_digits fuel n acc))%nat).
Proof.
  revert n acc. induction fuel as [|fuel IH]; intros n acc; [simpl; lia|].
  cbn [dec_digits]. destruct (n / 10 =? 0); [simpl; lia|].
  destruct (IH (n / 10) (String (digit_char (n mod 10)) acc)) as [H1 H2].
  simpl in *. split; [lia|]. intros _. destruct fuel; [simpl; lia|]. apply H2. lia.
Qed.

Lemma u64_text_len n : (byte_len (u64_to_string n) ≤ 20)%nat.
Proof.
  pose proof (proj1 (dec_digits_len 20 n "")) as H.
  change (byte_len "") with 0%nat in H. unfold u64_to_string. lia.
Qed.

Lemma dec_digits_head fuel n acc :
  0 ≤ n → (0 < fuel)%nat →
  ∃ d s, 0 ≤ d < 10 ∧ dec_digits fuel n acc = String (digit_char d) s.
Proof.
  revert n acc. induction fuel as [|fuel IH]; intros n acc Hn Hf; [lia|].
  cbn [dec_digits]. pose proof (Z.mod_pos_bound n 10).
  destruct (n / 10 =? 0); [eexists _, _; split; [|done]; lia|].
  destruct fuel as [|fuel]; [eexists _, _; split; [|done]; lia|].
  apply IH; [apply Z.div_pos; lia|lia].
Qed.

Lemma parse_u64_to_string n : 0 ≤ n ≤ u64_max → parse_u64 (u64_to_string n) = Some n.
Proof.
  intros Hn. unfold u64_to_string.
  pose proof (parse_dec_digits 20 n "") as Hp.
  destruct (dec_digits_head 20 n "") as (d & s & Hd & E); [lia|lia|].
  rewrite E in Hp |- *. unfold parse_u64.
  destruct (is_digit_char d Hd) as (_ & _ & Hplus & _). rewrite Hplus.
  rewrite Hp; [done|lia| |lia]. unfold u64_max in Hn. simpl. lia.
Qed.

Lemma revision_from_to r : revision_from_str (revision_to_string r) = Ok r.
Proof.
  unfold revision_from_str, revision_to_string. pose proof (rev_range r).
  rewrite parse_u64_to_string by lia. simpl. by rewrite revision_new_get.
Qed.

(** ** Hexadecimal text *)

Lemma byte_array_wf_list {n} (a : ByteArray n) :
  length (array_bytes a) = n ∧ Forall (λ b, 0 ≤ b ≤ u8_max) (array_bytes a).
Proof.
  pose proof (Is_true_eq_true _ (array_wf a)) as H.
  apply andb_true_iff in H as [Hl%Nat.eqb_eq Hf]. split; [done|].
  apply Forall_forall. intros b Hb. rewrite forallb_forall in Hf.
  apply in_range_true, Hf. by apply list_elem_of_In.
Qed.

Lemma byte_array_new_bytes {n} (a : ByteArray n) :
  byte_array_new n (array_bytes a) = Some a.
Proof.
  unfold byte_array_new. destruct (sumbool_of_bool _) as [H|H].
  - f_equal. by apply byte_array_eq.
  - pose proof (Is_true_eq_true _ (array_wf a)). congruence.
Qed.

Lemma nibble_char_ok v : 0 ≤ v < 16 →
  decode_nibble (nibble_char v) = Ok v ∧ Ascii.eqb (nibble_char v) ":" = false.
Proof.
  intros Hv.
  assert (v = 0 ∨ v = 1 ∨ v = 2 ∨ v = 3 ∨ v = 4 ∨ v = 5 ∨ v = 6 ∨ v = 7 ∨ v = 8 ∨ v = 9 ∨
          v = 10 ∨ v = 11 ∨ v = 12 ∨ v = 13 ∨ v = 14 ∨ v = 15) as Hc by lia.
  by repeat (destruct Hc as [->|Hc]; [vm_compute|]); subst.
Qed.

Lemma nibbles_of_byte b : 0 ≤ b ≤ u8_max →
  0 ≤ b / 16 < 16 ∧ 0 ≤ b mod 16 < 16 ∧ b / 16 * 16 + b mod 16 = b.
Proof.
  unfold u8_max. intros Hb. pose proof (Z.mod_pos_bound b 16). pose proof (Z.div_mod b 16).
  assert (0 ≤ b / 16) by (apply Z.div_pos; lia).
  assert (b / 16 < 16) by (apply Z.div_lt_upper_bound; lia). lia.
Qed.

Lemma decode_pair_byte b : 0 ≤ b ≤ u8_max →
  decode_pair (nibble_char (b / 16)) (nibble_char (b mod 16)) = Ok b.
Proof.
  intros Hb. destruct (nibbles_of_byte b Hb) as (Hh & Hl & E).
  unfold decode_pair. rewrite (proj1 (nibble_char_ok _ Hh)). simpl.
  rewrite (proj1 (nibble_char_ok _ Hl)). unfold checked_mul, checked_add. simpl.
  rewrite (proj2 (Z.leb_le (b / 16 * 16) u8_max)) by lia. simpl.
  rewrite (proj2 (Z.leb_le (b / 16 * 16 + b mod 16) u8_max)) by lia. simpl. by rewrite E.
Qed.

Lemma decode_write_pairs bytes :
  Forall (λ b, 0 ≤ b ≤ u8_max) bytes → decode_pairs (write_hex bytes) = Ok bytes.
Proof.
  induction 1 as [|b bytes Hb _ IH]; [done|].
  cbn [write_hex decode_pairs]. rewrite decode_pair_byte by done. simpl. by rewrite IH.
Qed.

Lemma write_hex_len bytes : byte_len (write_hex bytes) = (length bytes * 2)%nat.
Proof. induction bytes as [|b bytes IH]; simpl; lia. Qed.

Lemma write_hex_no_colon bytes :
  Forall (λ b, 0 ≤ b ≤ u8_max) bytes → str_contains ":" (write_hex bytes) = false.
Proof.
  induction 1 as [|b bytes Hb _ IH]; [done|]. cbn [write_hex str_contains].
  destruct (nibbles_of_byte b Hb) as (Hh & Hl & _).
  by rewrite (proj2 (nibble_char_ok _ Hh)), (proj2 (nibble_char_ok _ Hl)), IH.
Qed.

Lemma decode_write_hex {n} (a : ByteArray n) :
  decode_hex n (write_hex (array_bytes a)) = Ok a.
Proof.
  destruct (byte_array_wf_list a) as [Hl Hf]. unfold decode_hex.
  rewrite write_hex_len, Hl, Nat.eqb_refl. simpl.
  rewrite decode_write_pairs by done. simpl. by rewrite byte_array_new_bytes.
Qed.

(** ** Tokens *)

Lemma str_split_app c l r :
  str_contains c l = false → str_split c (l +:+ String c r) = l :: str_split c r.
Proof.
  induction l as [|b l IH]; [intros _; simpl; by rewrite Ascii.eqb_refl|].
  rewrite string_cons_app. simpl.
  intros [Hb Hl]%orb_false_iff. by rewrite Hb, IH.
Qed.

Lemma str_split_single c s : str_contains c s = false → str_split c s = [s].
Proof.
  induction s as [|b s IH]; [done|]. simpl.
  intros [Hb Hs]%orb_false_iff. by rewrite Hb, IH.
Qed.

Lemma revision_text_no_colon r : str_contains ":" (revision_to_string r) = false.
Proof.
  apply (str_forall_not_contains (λ b, negb (Ascii.eqb b ":"))); [done|].
  apply dec_digits_shape; [|pose proof (rev_range r); lia|done].
  intros d Hd. by rewrite (proj2 (proj2 (proj2 (is_digit_char d Hd)))).
Qed.

Lemma token_parts t :
  str_split ":" (token_to_string t) =
  [TOKEN_VERSION; revision_to_string (token_revision t);
   write_hex (array_bytes (token_schema_hash t));
   write_hex (array_bytes (token_datastore_id t))].
Proof.
  unfold token_to_string. rewrite str_split_app by done.
  rewrite str_split_app by apply revision_text_no_colon.
  rewrite str_split_app by (apply write_hex_no_colon, byte_array_wf_list).
  by rewrite str_split_single by (apply write_hex_no_colon, byte_array_wf_list).
Qed.

Lemma token_text_len t :
  (byte_len (token_to_string t) ≤ MAX_CONSISTENCY_TOKEN_BYTES)%nat.
Proof.
  unfold token_to_string. rewrite byte_len_app. cbn [String.length].
  rewrite byte_len_app. cbn [String.length]. rewrite byte_len_app. cbn [String.length].
  rewrite !write_hex_len.
  rewrite (proj1 (byte_array_wf_list (token_schema_hash t))).
  rewrite (proj1 (byte_array_wf_list (token_datastore_id t))).
  pose proof (u64_text_len (rev_get (token_revision t))) as H.
  unfold revision_to_string, MAX_CONSISTENCY_TOKEN_BYTES.
  change (byte_len TOKEN_VERSION) with 3%nat. lia.
Qed.

(** ** Properties *)

(** Every token an engine can issue survives its text form: [Display] then
    [FromStr] gives the same token, within the 122-byte limit. *)
Theorem token_roundtrip (t : ConsistencyToken) :
  (byte_len (token_to_string t) ≤ MAX_CONSISTENCY_TOKEN_BYTES)%nat ∧
  token_from_str (token_to_string t) = Ok t.
Proof.
  split; [apply token_text_len|]. unfold token_from_str.
  rewrite (proj2 (Nat.ltb_ge _ _) (token_text_len t)), token_parts. simpl. rewrite revision_from_to. simpl.
  rewrite !decode_write_hex. simpl. by destruct t.
Qed.

(** The revision counter moves by exactly one and stops with
    [RevisionOverflow] at [u64::MAX], never wrapping. *)
Theorem revision_next_spec (r : Revision) :
  match revision_next r with
  | Ok r' => rev_get r' = rev_get r + 1
  | Err e => e = RevisionOverflow ∧ rev_get r = u64_max
  end.
Proof.
  destruct (revision_next r) as [r'|e] eqn:E.
  - by apply revision_next_Ok.
  - by apply revision_next_Err.
Qed.

Example token_text_example :
  token_to_string (mkToken revision_first (@mkByteArray 32 (replicate 32 171) I)
                           (@mkByteArray 16 (replicate 16 7) I)) =
  "sz1:1:abababababababababababababababababababababababababababababababab:07070707070707070707070707070707".
Proof. reflexivity. Qed.
