(* ===== verification/Schema.v ===== *)
(** * Schema compiler and resolver (src/src/schema/mod.rs)

    The typed schema, the resolver's indexes, compilation of legacy
    configuration, resolution of same-namespace references to ids, and the
    reference checks a schema must pass. *)

From S2P Require Import Prelude Model Domain.

(** ** Errors *)

Inductive SchemaError :=
| DuplicateNamespace (namespace : string)
| DuplicateRelation (namespace relation : string)
| NamespaceNotFound (namespace : string)
| RelationNotFound (namespace relation : string)
| MissingRelationReference (namespace owner relation missing : string)
| MissingTupleToUsersetTarget (namespace owner missing : string)
| EmptyExpression (namespace owner operator : string) (min_operands : nat).

#[global] Instance SchemaError_eq_dec : EqDecision SchemaError.
Proof. solve_decision. Defined.

(** ** Typed definitions *)

Inductive UsersetExpression :=
| This
| ComputedUserset (relation : RelationName)
| TupleToUserset (tupleset_relation computed_userset_relation : RelationName)
| Union (expressions : list UsersetExpression)
| Intersection (expressions : list UsersetExpression)
| Exclusion (base exclude : UsersetExpression).

Record SchemaRelationId := mkRelationId { namespace_index : nat; relation_index : nat }.

Inductive CompiledUsersetExpression :=
| CThis
| CComputedUserset (relation : RelationName) (relation_id : SchemaRelationId)
    (target_has_rewrite : bool)
| CTupleToUserset (tupleset_relation : RelationName)
    (tupleset_relation_id : SchemaRelationId) (computed_userset_relation : RelationName)
| CUnion (expressions : list CompiledUsersetExpression)
| CIntersection (expressions : list CompiledUsersetExpression)
| CExclusion (base exclude : CompiledUsersetExpression).

Inductive AllowedSubjectTypes :=
| Unspecified
| Explicit (object_types : list ObjectType).

Record RelationDefinition := mkRelationDefinition {
  rd_name : RelationName;
  rd_allowed_subject_types : AllowedSubjectTypes;
  rd_userset_rewrite : option UsersetExpression;
  rd_compiled_userset_rewrite : option CompiledUsersetExpression
}.

Record NamespaceDefinition := mkNamespaceDefinition {
  ns_name : ObjectType;
  ns_relations : list RelationDefinition
}.

#[global] Instance SchemaRelationId_eq_dec : EqDecision SchemaRelationId.
Proof. solve_decision. Defined.
#[global] Program Instance SchemaRelationId_countable : Countable SchemaRelationId :=
  inj_countable' (λ i, (namespace_index i, relation_index i))
    (λ p, mkRelationId p.1 p.2) _.
Next Obligation. by intros []. Qed.

(** [RelationDefinition::new] and [with_allowed_subject_types]. *)
Definition relation_definition_new (name : RelationName)
    (rewrite : option UsersetExpression) : RelationDefinition :=
  mkRelationDefinition name Unspecified rewrite None.

Definition relation_definition_with_allowed (name : RelationName)
    (allowed : list ObjectType) (rewrite : option UsersetExpression) : RelationDefinition :=
  mkRelationDefinition name (Explicit allowed) rewrite None.

(** ** Sorting by name *)

(** [Ord] on [Option<&RelationName>]: [None] first, then byte order. *)
Definition opt_name_le (a b : option string) : Prop :=
  match a, b with
  | None, _ => True
  | Some _, None => False
  | Some a, Some b => String.le a b
  end.

#[global] Instance opt_name_le_dec : RelDecision opt_name_le.
Proof. intros [a|] [b|]; simpl; apply _. Defined.

Definition relation_name_at (relations : list RelationDefinition) (i : nat) : option string :=
  (λ rd, as_str (rd_name rd)) <$> (relations !! i).

Definition name_at_le (relations : list RelationDefinition) (i j : nat) : Prop :=
  opt_name_le (relation_name_at relations i) (relation_name_at relations j).

#[global] Instance name_at_le_dec relations : RelDecision (name_at_le relations) :=
  λ i j, opt_name_le_dec _ _.

(** [(0..len).sort_by(..)] *)
Definition sorted_indexes (relations : list RelationDefinition) : list nat :=
  merge_sort (name_at_le relations) (seq 0 (length relations)).

(** ** Resolver *)

Record SchemaResolver := mkResolver {
  sr_definitions : list NamespaceDefinition;
  namespace_indexes : gmap ObjectType nat;
  relation_indexes : gmap ObjectType (gmap RelationName nat);
  sorted_relation_indexes : gmap ObjectType (list nat)
}.

(** The inner loop of [SchemaResolver::new]: the relations of one namespace. *)
Definition index_relation (ns : string) (m : gmap RelationName nat)
    (p : nat * RelationDefinition) : result SchemaError (gmap RelationName nat) :=
  match m !! rd_name p.2 with
  | Some _ => Err (DuplicateRelation ns (as_str (rd_name p.2)))
  | None => Ok (<[rd_name p.2 := p.1]> m)
  end.

Definition enumerate {A} (l : list A) : list (nat * A) := imap (λ i x, (i, x)) l.

Definition index_relations (ns : NamespaceDefinition)
    : result SchemaError (gmap RelationName nat) :=
  try_fold (index_relation (as_str (ns_name ns))) ∅ (enumerate (ns_relations ns)).

(** One namespace of the outer loop. *)
Definition index_namespace (r : SchemaResolver) (p : nat * NamespaceDefinition)
    : result SchemaError SchemaResolver :=
  let '(i, ns) := p in
  _ ← guard_err (bool_decide (is_Some (namespace_indexes r !! ns_name ns)))
        (DuplicateNamespace (as_str (ns_name ns)));
  relations ← index_relations ns;
  Ok (mkResolver (sr_definitions r)
        (<[ns_name ns := i]> (namespace_indexes r))
        (<[ns_name ns := relations]> (relation_indexes r))
        (<[ns_name ns := sorted_indexes (ns_relations ns)]> (sorted_relation_indexes r))).

Definition resolver_new (definitions : list NamespaceDefinition)
    : result SchemaError SchemaResolver :=
  try_fold index_namespace (mkResolver definitions ∅ ∅ ∅) (enumerate definitions).

Definition resolver_namespace (r : SchemaResolver) (t : ObjectType)
    : result SchemaError NamespaceDefinition :=
  index ← ok_or (namespace_indexes r !! t) (NamespaceNotFound (as_str t));
  ok_or (sr_definitions r !! index) (NamespaceNotFound (as_str t)).

Definition resolver_relation (r : SchemaResolver) (t : ObjectType) (rel : RelationName)
    : result SchemaError RelationDefinition :=
  ns ← resolver_namespace r t;
  relations ← ok_or (relation_indexes r !! t) (NamespaceNotFound (as_str t));
  index ← ok_or (relations !! rel) (RelationNotFound (as_str t) (as_str rel));
  ok_or (ns_relations ns !! index) (RelationNotFound (as_str t) (as_str rel)).

Definition resolver_relation_id (r : SchemaResolver) (t : ObjectType) (rel : RelationName)
    : result SchemaError SchemaRelationId :=
  index ← ok_or (namespace_indexes r !! t) (NamespaceNotFound (as_str t));
  relations ← ok_or (relation_indexes r !! t) (NamespaceNotFound (as_str t));
  rindex ← ok_or (relations !! rel) (RelationNotFound (as_str t) (as_str rel));
  Ok (mkRelationId index rindex).

Definition relation_by_id (r : SchemaResolver) (i : SchemaRelationId)
    : option RelationDefinition :=
  ns ← sr_definitions r !! namespace_index i;
  ns_relations ns !! relation_index i.

(** [sorted_relations], with the iterator's items collected. *)
Definition sorted_relations (r : SchemaResolver) (t : ObjectType)
    : result SchemaError (list RelationDefinition) :=
  ns ← resolver_namespace r t;
  indexes ← ok_or (sorted_relation_indexes r !! t) (NamespaceNotFound (as_str t));
  Ok (omap (M:=list) (λ i, ns_relations ns !! i) indexes).

Definition relation_exists_anywhere (r : SchemaResolver) (rel : RelationName) : bool :=
  bool_decide (map_Exists (λ _ m, is_Some (m !! rel)) (relation_indexes r)).

(** ** Compiled schemas *)

Record CompiledSchema := mkCompiledSchema {
  cs_definitions : list NamespaceDefinition;
  cs_resolver : SchemaResolver
}.

Definition compiled_new (definitions : list NamespaceDefinition)
    : result SchemaError CompiledSchema :=
  r ← resolver_new definitions; Ok (mkCompiledSchema definitions r).

(** *** Reference checks *)

Definition ensure_relation_in_namespace (r : SchemaResolver) (ns : ObjectType)
    (owner : RelationName) (relation_kind : string) (rel : RelationName)
    : result SchemaError RelationDefinition :=
  match resolver_relation r ns rel with
  | Ok rd => Ok rd
  | Err (RelationNotFound _ _) =>
      Err (MissingRelationReference (as_str ns) (as_str owner) relation_kind (as_str rel))
  | Err e => Err e
  end.

Definition validate_tuple_to_userset_target (r : SchemaResolver) (ns : NamespaceDefinition)
    (owner : RelationName) (tupleset : RelationDefinition) (computed : RelationName)
    : result SchemaError unit :=
  let missing := MissingTupleToUsersetTarget (as_str (ns_name ns)) (as_str owner)
                   (as_str computed) in
  match rd_allowed_subject_types tupleset with
  | Explicit object_types =>
      try_for (λ t, guard_err (negb (is_ok (resolver_relation r t computed))) missing)
        object_types
  | Unspecified => guard_err (negb (relation_exists_anywhere r computed)) missing
  end.

Definition validate_operands (ns : NamespaceDefinition) (owner : RelationName)
    (operator : string) (min_operands : nat) (expressions : list UsersetExpression)
    : result SchemaError unit :=
  guard_err (Nat.ltb (length expressions) min_operands)
    (EmptyExpression (as_str (ns_name ns)) (as_str owner) operator min_operands).

Fixpoint validate_expression (r : SchemaResolver) (ns : NamespaceDefinition)
    (owner : RelationName) (e : UsersetExpression) : result SchemaError unit :=
  match e with
  | This => Ok tt
  | ComputedUserset rel =>
      _ ← ensure_relation_in_namespace r (ns_name ns) owner "computed userset" rel;
      Ok tt
  | TupleToUserset tupleset computed =>
      rd ← ensure_relation_in_namespace r (ns_name ns) owner
             "tuple-to-userset tupleset" tupleset;
      validate_tuple_to_userset_target r ns owner rd computed
  | Union es =>
      _ ← validate_operands ns owner "union" 1 es;
      try_for (validate_expression r ns owner) es
  | Intersection es =>
      _ ← validate_operands ns owner "intersection" 1 es;
      try_for (validate_expression r ns owner) es
  | Exclusion base exclude =>
      _ ← validate_expression r ns owner base;
      validate_expression r ns owner exclude
  end.

(** The [HashSet] of relation names of one namespace. *)
Definition insert_relation_name (ns : string) (seen : gset RelationName)
    (rd : RelationDefinition) : result SchemaError (gset RelationName) :=
  if decide (rd_name rd ∈ seen) then Err (DuplicateRelation ns (as_str (rd_name rd)))
  else Ok ({[rd_name rd]} ∪ seen).

Definition validate_namespace (r : SchemaResolver) (ns : NamespaceDefinition)
    : result SchemaError unit :=
  _ ← try_fold (insert_relation_name (as_str (ns_name ns))) ∅ (ns_relations ns);
  try_for (λ rd, match rd_userset_rewrite rd with
                 | Some e => validate_expression r ns (rd_name rd) e
                 | None => Ok tt
                 end) (ns_relations ns).

Definition validate_references (c : CompiledSchema) : result SchemaError unit :=
  try_for (validate_namespace (cs_resolver c)) (cs_definitions c).

(** *** Resolution of references to ids *)

Definition has_rewrite (rd : RelationDefinition) : bool :=
  bool_decide (is_Some (rd_userset_rewrite rd)).

Fixpoint compile_resolved_expression (r : SchemaResolver) (ns : ObjectType)
    (e : UsersetExpression) : result SchemaError CompiledUsersetExpression :=
  match e with
  | This => Ok CThis
  | ComputedUserset rel =>
      rd ← resolver_relation r ns rel;
      i ← resolver_relation_id r ns rel;
      Ok (CComputedUserset rel i (has_rewrite rd))
  | TupleToUserset tupleset computed =>
      i ← resolver_relation_id r ns tupleset;
      Ok (CTupleToUserset tupleset i computed)
  | Union es => CUnion <$> try_map (compile_resolved_expression r ns) es
  | Intersection es => CIntersection <$> try_map (compile_resolved_expression r ns) es
  | Exclusion base exclude =>
      b ← compile_resolved_expression r ns base;
      x ← compile_resolved_expression r ns exclude;
      Ok (CExclusion b x)
  end.

Definition compile_resolved_relation (r : SchemaResolver) (ns : ObjectType)
    (rd : RelationDefinition) : result SchemaError RelationDefinition :=
  compiled ← match rd_userset_rewrite rd with
             | Some e => Some <$> compile_resolved_expression r ns e
             | None => Ok None
             end;
  Ok (mkRelationDefinition (rd_name rd) (rd_allowed_subject_types rd)
        (rd_userset_rewrite rd) compiled).

Definition compile_resolved_definitions (c : CompiledSchema)
    : result SchemaError (list NamespaceDefinition) :=
  try_map (λ ns,
    relations ← try_map (compile_resolved_relation (cs_resolver c) (ns_name ns))
                  (ns_relations ns);
    Ok (mkNamespaceDefinition (ns_name ns) relations)) (cs_definitions c).

Definition from_definitions (definitions : list NamespaceDefinition)
    : result SchemaError CompiledSchema :=
  compiled ← compiled_new definitions;
  _ ← validate_references compiled;
  resolved ← compile_resolved_definitions compiled;
  compiled_new resolved.

(** *** Relationship validation *)

Definition validate_relationship (c : CompiledSchema) (r : Relationship)
    : result SchemaError unit :=
  _ ← resolver_relation (cs_resolver c) (object_type (resource r)) (relation r);
  match subject r with
  | SubjectUserset object rel =>
      _ ← resolver_relation (cs_resolver c) (object_type object) rel; Ok tt
  | SubjectObject _ => Ok tt
  end.

(** ** Induction on expressions *)

Section UsersetExpression_induction.
Variable P : UsersetExpression → Prop.
Hypothesis HThis : P This.
Hypothesis HComputed : ∀ r, P (ComputedUserset r).
Hypothesis HTuple : ∀ t c, P (TupleToUserset t c).
Hypothesis HUnion : ∀ es, Forall P es → P (Union es).
Hypothesis HInter : ∀ es, Forall P es → P (Intersection es).
Hypothesis HExcl : ∀ b x, P b → P x → P (Exclusion b x).

Fixpoint userset_induction (e : UsersetExpression) : P e :=
  let fix go (l : list UsersetExpression) : Forall P l :=
    match l with
    | [] => List.Forall_nil _
    | e :: l => List.Forall_cons _ _ _ (userset_induction e) (go l)
    end in
  match e with
  | This => HThis
  | ComputedUserset r => HComputed r
  | TupleToUserset t c => HTuple t c
  | Union es => HUnion es (go es)
  | Intersection es => HInter es (go es)
  | Exclusion b x => HExcl b x (userset_induction b) (userset_induction x)
  end.
End UsersetExpression_induction.

Section CompiledUsersetExpression_induction.
Variable P : CompiledUsersetExpression → Prop.
Hypothesis HThis : P CThis.
Hypothesis HComputed : ∀ r i h, P (CComputedUserset r i h).
Hypothesis HTuple : ∀ t i c, P (CTupleToUserset t i c).
Hypothesis HUnion : ∀ es, Forall P es → P (CUnion es).
Hypothesis HInter : ∀ es, Forall P es → P (CIntersection es).
Hypothesis HExcl : ∀ b x, P b → P x → P (CExclusion b x).

Fixpoint compiled_induction (e : CompiledUsersetExpression) : P e :=
  let fix go (l : list CompiledUsersetExpression) : Forall P l :=
    match l with
    | [] => List.Forall_nil _
    | e :: l => List.Forall_cons _ _ _ (compiled_induction e) (go l)
    end in
  match e with
  | CThis => HThis
  | CComputedUserset r i h => HComputed r i h
  | CTupleToUserset t i c => HTuple t i c
  | CUnion es => HUnion es (go es)
  | CIntersection es => HInter es (go es)
  | CExclusion b x => HExcl b x (compiled_induction b) (compiled_induction x)
  end.
End CompiledUsersetExpression_induction.

(** ** What the resolver's indexes mean *)

(** No two namespaces, and no two relations of one namespace, share a name. *)
Definition names_ok (defs : list NamespaceDefinition) : Prop :=
  NoDup (ns_name <$> defs) ∧ Forall (λ ns, NoDup (rd_name <$> ns_relations ns)) defs.

(** [defs] declares relation [rel] of namespace [t] as [rd]. *)
Definition declares (defs : list NamespaceDefinition) (t : ObjectType)
    (rel : RelationName) (rd : RelationDefinition) : Prop :=
  ∃ ns, ns ∈ defs ∧ ns_name ns = t ∧ rd ∈ ns_relations ns ∧ rd_name rd = rel.

(** [m] maps each name to the position of the element that carries it. *)
Definition indexes_by {A K} `{Countable K} (name : A → K) (l : list A) (m : gmap K nat) :=
  ∀ k j, m !! k = Some j ↔ ∃ x, l !! j = Some x ∧ name x = k.

Lemma enumerate_snoc {A} (l : list A) x :
  enumerate (l ++ [x]) = enumerate l ++ [(length l, x)].
Proof. unfold enumerate. rewrite imap_app. simpl. by rewrite Nat.add_0_r. Qed.

Lemma indexes_by_snoc {A K} `{Countable K} (name : A → K) l m x :
  indexes_by name l m → m !! name x = None →
  indexes_by name (l ++ [x]) (<[name x := length l]> m).
Proof.
  intros Hm Hx k j. rewrite lookup_insert_Some. setoid_rewrite lookup_snoc_Some. split.
  - intros [[<- <-]|[Hk Hj]]; [eauto|].
    apply Hm in Hj as (y & Hy & <-). exists y. split; [|done].
    left. split; [|done]. by eapply lookup_lt_Some.
  - intros (y & [[Hj Hy]|[-> <-]] & <-); [|eauto]. right.
    assert (m !! name y = Some j) as Hm' by (apply Hm; eauto).
    split; [|done]. intros E. rewrite E in Hx. congruence.
Qed.

Lemma indexes_by_nil {A K} `{Countable K} (name : A → K) : indexes_by name [] ∅.
Proof. intros k j. rewrite lookup_empty. split; [done|]. by intros (x & ? & _). Qed.

Lemma indexes_by_None {A K} `{Countable K} (name : A → K) l m k :
  indexes_by name l m → m !! k = None ↔ k ∉ name <$> l.
Proof.
  intros Hm. split.
  - intros Hk (x & -> & Hx)%list_elem_of_fmap.
    apply list_elem_of_lookup in Hx as [j Hj].
    assert (m !! name x = Some j) by (apply Hm; eauto). congruence.
  - intros Hk. apply eq_None_not_Some. intros [j (x & Hx & <-)%Hm].
    apply Hk, list_elem_of_fmap. exists x. split; [done|]. by eapply list_elem_of_lookup_2.
Qed.

Lemma indexes_by_unique {A K} `{Countable K} (name : A → K) l m1 m2 :
  indexes_by name l m1 → indexes_by name l m2 → m1 = m2.
Proof.
  intros H1 H2. apply map_eq. intros k. apply option_eq. intros j. by rewrite (H1 k j), (H2 k j).
Qed.

Lemma NoDup_snoc {A} (l : list A) x : NoDup (l ++ [x]) ↔ NoDup l ∧ x ∉ l.
Proof.
  rewrite NoDup_app. split.
  - intros (Hl & Hx & _). split; [done|]. intros Hin. eapply Hx; [done|]. by constructor.
  - intros [Hl Hx]. split_and!; [done| |apply NoDup_singleton].
    intros y Hy ->%list_elem_of_singleton. done.
Qed.

Section index_relations.
Context (nm : string).

Lemma index_relation_fold l :
  match try_fold (index_relation nm) ∅ (enumerate l) with
  | Ok m => NoDup (rd_name <$> l) ∧ indexes_by rd_name l m
  | Err _ => ¬ NoDup (rd_name <$> l)
  end.
Proof.
  induction l as [|rd l IH] using rev_ind; [split; [constructor|apply indexes_by_nil]|].
  rewrite enumerate_snoc, try_fold_app.
  destruct (try_fold _ ∅ (enumerate l)) as [m|e]; simpl;
    [|rewrite fmap_app; simpl; rewrite NoDup_snoc; tauto].
  destruct IH as [Hnd Hm]. unfold index_relation; simpl.
  destruct (m !! rd_name rd) as [j|] eqn:Hj; simpl;
    rewrite fmap_app; simpl; rewrite NoDup_snoc.
  - rewrite <- (indexes_by_None rd_name l m) by done. rewrite Hj. naive_solver.
  - split; [|by apply indexes_by_snoc].
    split; [done|]. by apply (indexes_by_None rd_name l m).
Qed.
End index_relations.

Lemma index_relations_Ok ns m :
  index_relations ns = Ok m →
  NoDup (rd_name <$> ns_relations ns) ∧ indexes_by rd_name (ns_relations ns) m.
Proof.
  unfold index_relations. intros H.
  pose proof (index_relation_fold (as_str (ns_name ns)) (ns_relations ns)) as Hf.
  by rewrite H in Hf.
Qed.

Lemma index_relations_Err ns e :
  index_relations ns = Err e → ¬ NoDup (rd_name <$> ns_relations ns).
Proof.
  unfold index_relations. intros H.
  pose proof (index_relation_fold (as_str (ns_name ns)) (ns_relations ns)) as Hf.
  by rewrite H in Hf.
Qed.

(** The invariant of the outer loop after the namespaces [l]. *)
Record resolver_for (defs l : list NamespaceDefinition) (r : SchemaResolver) : Prop := {
  rf_definitions : sr_definitions r = defs;
  rf_names : names_ok l;
  rf_namespaces : indexes_by ns_name l (namespace_indexes r);
  rf_relations t m : relation_indexes r !! t = Some m ↔
    ∃ ns, ns ∈ l ∧ ns_name ns = t ∧ index_relations ns = Ok m;
  rf_sorted t s : sorted_relation_indexes r !! t = Some s ↔
    ∃ ns, ns ∈ l ∧ ns_name ns = t ∧ s = sorted_indexes (ns_relations ns)
}.

(** Extending a per-namespace table with a namespace whose name is new. *)
Lemma table_snoc {B} (f : NamespaceDefinition → B → Prop) l (m : gmap ObjectType B) ns b :
  (∀ t b, m !! t = Some b ↔ ∃ ns, ns ∈ l ∧ ns_name ns = t ∧ f ns b) →
  (∀ b', f ns b' ↔ b' = b) → ns_name ns ∉ ns_name <$> l →
  ∀ t b', <[ns_name ns := b]> m !! t = Some b' ↔
    ∃ ns', ns' ∈ l ++ [ns] ∧ ns_name ns' = t ∧ f ns' b'.
Proof.
  intros Hm Hf Hnew t b'. rewrite lookup_insert_Some, Hm.
  setoid_rewrite elem_of_app. setoid_rewrite list_elem_of_singleton. split.
  - intros [[<- <-]|(Hne & ns' & Hin & <- & Hf')].
    + exists ns. split; [by right|]. split; [done|]. by apply Hf.
    + exists ns'. auto.
  - intros (ns' & [Hin| ->] & <- & Hf').
    + right. split; [|eauto]. intros E. apply Hnew. rewrite E.
      apply list_elem_of_fmap. eauto.
    + left. split; [done|]. symmetry. by apply Hf.
Qed.

Lemma resolver_fold defs l :
  match try_fold index_namespace (mkResolver defs ∅ ∅ ∅) (enumerate l) with
  | Ok r => resolver_for defs l r
  | Err _ => ¬ names_ok l
  end.
Proof.
  induction l as [|ns l IH] using rev_ind.
  { split; [done|by split; constructor|apply indexes_by_nil| |];
      intros t x; simpl; rewrite lookup_empty; split; try done;
      intros (? & ?%elem_of_nil & _); done. }
  rewrite enumerate_snoc, try_fold_app. simpl.
  destruct (try_fold _ _ (enumerate l)) as [r|e]; simpl.
  2: { unfold names_ok in *. rewrite fmap_app, Forall_app. simpl. rewrite NoDup_snoc. tauto. }
  destruct IH as [Hd [Hn Hr] Hns Hrel Hsort].
  pose proof (indexes_by_None ns_name l _ (ns_name ns) Hns) as HNone.
  unfold guard_err. case_bool_decide as Hdup; simpl.
  { unfold names_ok. rewrite fmap_app. simpl. rewrite NoDup_snoc.
    intros [[_ Hnew'] _]. apply HNone in Hnew'. rewrite Hnew' in Hdup. by destruct Hdup. }
  apply eq_None_not_Some in Hdup. pose proof (proj1 HNone Hdup) as Hnew.
  destruct (index_relations ns) as [m|e] eqn:Hm; simpl.
  2: { apply index_relations_Err in Hm. unfold names_ok. rewrite Forall_app, Forall_singleton.
       tauto. }
  pose proof (index_relations_Ok _ _ Hm) as [Hmn _].
  split; simpl; [done| |by apply indexes_by_snoc| |].
  - split; [rewrite fmap_app; simpl; by apply NoDup_snoc|].
    rewrite Forall_app, Forall_singleton. done.
  - apply (table_snoc (λ ns m, index_relations ns = Ok m)); [done| |done].
    intros m'. rewrite Hm. naive_solver.
  - apply (table_snoc (λ ns s, s = sorted_indexes (ns_relations ns))); done.
Qed.

Lemma resolver_new_Ok defs r : resolver_new defs = Ok r → resolver_for defs defs r.
Proof. intros H. pose proof (resolver_fold defs defs) as Hf. unfold resolver_new in H. by rewrite H in Hf. Qed.

Lemma resolver_new_is_Ok defs : is_ok (resolver_new defs) = true ↔ names_ok defs.
Proof.
  pose proof (resolver_fold defs defs) as Hf. unfold resolver_new.
  destruct (try_fold _ _ _) as [r|e]; simpl; [|naive_solver].
  split; [|done]. intros _. by destruct Hf.
Qed.

(** ** Resolver operations *)

(** The id [i] is the position of the relation [rel] of namespace [t]. *)
Definition id_denotes (defs : list NamespaceDefinition) (i : SchemaRelationId) (t : ObjectType)
    (rel : RelationName) (rd : RelationDefinition) : Prop :=
  ∃ ns, defs !! namespace_index i = Some ns ∧ ns_name ns = t ∧
        ns_relations ns !! relation_index i = Some rd ∧ rd_name rd = rel.

Section resolver.
Context {defs : list NamespaceDefinition} {r : SchemaResolver}.
Hypothesis Hr : resolver_new defs = Ok r.

Let Hrf : resolver_for defs defs r := resolver_new_Ok defs r Hr.

Lemma resolver_namespace_Ok t ns :
  resolver_namespace r t = Ok ns ↔ ns ∈ defs ∧ ns_name ns = t.
Proof.
  destruct Hrf as [Hd _ Hns _ _]. unfold resolver_namespace. rewrite Hd. split.
  - intros (i & (ns' & Hi & <-)%ok_or_Ok%Hns & H%ok_or_Ok)%bind_Ok.
    simplify_eq. split; [by eapply list_elem_of_lookup_2|done].
  - intros [[i Hi]%list_elem_of_lookup <-]. apply bind_Ok. exists i. split.
    + apply ok_or_Ok, Hns. eauto.
    + by rewrite Hi.
Qed.

Lemma namespace_unique ns ns' :
  ns ∈ defs → ns' ∈ defs → ns_name ns = ns_name ns' → ns = ns'.
Proof.
  intros H1 H2 E.
  assert (resolver_namespace r (ns_name ns) = Ok ns) as R1 by (by apply resolver_namespace_Ok).
  assert (resolver_namespace r (ns_name ns) = Ok ns') as R2 by (by apply resolver_namespace_Ok).
  congruence.
Qed.

Lemma namespace_relations_index ns :
  ns ∈ defs → ∃ m, relation_indexes r !! ns_name ns = Some m ∧
                   indexes_by rd_name (ns_relations ns) m.
Proof.
  intros Hin. destruct Hrf as [_ [_ Hrel] _ Hm _].
  destruct (index_relations ns) as [m|e] eqn:E.
  - exists m. split; [apply Hm; eauto|]. by apply index_relations_Ok.
  - apply index_relations_Err in E. rewrite Forall_forall in Hrel. by destruct (E (Hrel _ Hin)).
Qed.

Lemma resolver_relation_Ok t rel rd :
  resolver_relation r t rel = Ok rd ↔ declares defs t rel rd.
Proof.
  unfold resolver_relation, declares. split.
  - intros (ns & [Hin <-]%resolver_namespace_Ok & H)%bind_Ok.
    destruct (namespace_relations_index ns Hin) as (m & Hm & Hidx). rewrite Hm in H. simpl in H.
    apply bind_Ok in H as (j & (rd' & Hj & <-)%ok_or_Ok%Hidx & H%ok_or_Ok). simplify_eq.
    exists ns. split_and!; [done|done|by eapply list_elem_of_lookup_2|done].
  - intros (ns & Hin & <- & [j Hj]%list_elem_of_lookup & <-).
    rewrite (proj2 (resolver_namespace_Ok _ ns)) by done. simpl.
    destruct (namespace_relations_index ns Hin) as (m & Hm & Hidx). rewrite Hm. simpl.
    rewrite (proj2 (Hidx (rd_name rd) j)) by eauto. simpl. by rewrite Hj.
Qed.

Lemma resolver_relation_is_Ok t rel :
  is_ok (resolver_relation r t rel) = true ↔ ∃ rd, declares defs t rel rd.
Proof.
  setoid_rewrite <- resolver_relation_Ok.
  destruct (resolver_relation r t rel); simpl; naive_solver.
Qed.

(** The two ways a lookup fails, told apart as the source does. *)
Lemma resolver_relation_Err t rel e :
  resolver_relation r t rel = Err e →
  (e = NamespaceNotFound (as_str t) ∧ t ∉ ns_name <$> defs) ∨
  (e = RelationNotFound (as_str t) (as_str rel) ∧
   ∃ ns, ns ∈ defs ∧ ns_name ns = t ∧ rel ∉ rd_name <$> ns_relations ns).
Proof.
  unfold resolver_relation. intros [H|(ns & [Hin <-]%resolver_namespace_Ok & H)]%bind_Err.
  - left. destruct Hrf as [Hd _ Hns _ _]. unfold resolver_namespace in H.
    destruct (namespace_indexes r !! t) as [i|] eqn:Hi; simpl in H.
    + apply Hns in Hi as (ns & Hi & _). rewrite Hd, Hi in H. done.
    + injection H as <-. split; [done|]. by apply (indexes_by_None _ _ _ _ Hns).
  - right. destruct (namespace_relations_index ns Hin) as (m & Hm & Hidx).
    rewrite Hm in H. simpl in H.
    destruct (m !! rel) as [j|] eqn:Hj; simpl in H.
    + apply Hidx in Hj as (rd & Hj & _). by rewrite Hj in H.
    + injection H as <-. split; [done|]. exists ns. split_and!; [done|done|].
      by apply (indexes_by_None _ _ _ _ Hidx).
Qed.

(** An id and its definition. *)
Lemma resolver_relation_id_Ok t rel i :
  resolver_relation_id r t rel = Ok i ↔
  ∃ rd, id_denotes defs i t rel rd.
Proof.
  unfold id_denotes. destruct Hrf as [Hd _ Hns _ _]. unfold resolver_relation_id. split.
  - intros (n & (ns & Hn & <-)%ok_or_Ok%Hns & H)%bind_Ok.
    destruct (namespace_relations_index ns) as (m & Hm & Hidx);
      [by eapply list_elem_of_lookup_2|].
    rewrite Hm in H. simpl in H.
    apply bind_Ok in H as (j & (rd & Hj & <-)%ok_or_Ok%Hidx & [= <-]). eauto 6.
  - intros (rd & ns & Hn & <- & Hj & <-).
    rewrite (proj2 (Hns (ns_name ns) (namespace_index i))) by eauto. simpl.
    destruct (namespace_relations_index ns) as (m & Hm & Hidx);
      [by eapply list_elem_of_lookup_2|].
    rewrite Hm. simpl. rewrite (proj2 (Hidx (rd_name rd) (relation_index i))) by eauto.
    simpl. by destruct i.
Qed.

Lemma id_denotes_spec i t rel rd :
  id_denotes defs i t rel rd → relation_by_id r i = Some rd ∧ declares defs t rel rd.
Proof.
  intros (ns & Hn & <- & Hj & <-). split.
  - unfold relation_by_id. rewrite (rf_definitions _ _ _ Hrf), Hn. simpl. done.
  - exists ns. split_and!; try done; by eapply list_elem_of_lookup_2.
Qed.

Lemma resolver_relation_id_is_Ok t rel :
  is_ok (resolver_relation_id r t rel) = true ↔ ∃ rd, declares defs t rel rd.
Proof.
  split.
  - destruct (resolver_relation_id r t rel) as [i|] eqn:E; [|done]. intros _.
    apply resolver_relation_id_Ok in E as (rd & [_ ?]%id_denotes_spec). eauto.
  - intros (rd & ns & [n Hn]%list_elem_of_lookup & <- & [j Hj]%list_elem_of_lookup & <-).
    assert (resolver_relation_id r (ns_name ns) (rd_name rd) = Ok (mkRelationId n j)) as ->;
      [|done]. apply resolver_relation_id_Ok. exists rd, ns. done.
Qed.

Lemma declares_unique t rel rd rd' :
  declares defs t rel rd → declares defs t rel rd' → rd = rd'.
Proof. rewrite <- !resolver_relation_Ok. congruence. Qed.

Lemma relation_exists_anywhere_true rel :
  relation_exists_anywhere r rel = true ↔ ∃ t rd, declares defs t rel rd.
Proof.
  unfold relation_exists_anywhere. rewrite bool_decide_eq_true. split.
  - intros (t & m & Hm & [j Hj]). destruct Hrf as [_ _ _ Hrel _].
    apply Hrel in Hm as (ns & Hin & <- & [_ Hidx]%index_relations_Ok).
    apply Hidx in Hj as (rd & Hj & <-). exists (ns_name ns), rd, ns.
    split_and!; try done. by eapply list_elem_of_lookup_2.
  - intros (t & rd & ns & Hin & <- & [j Hj]%list_elem_of_lookup & <-).
    destruct (namespace_relations_index ns Hin) as (m & Hm & Hidx).
    exists (ns_name ns), m. split; [done|]. exists j. apply Hidx. eauto.
Qed.
End resolver.

(** ** Well-formed schemas *)

Definition target_ok (defs : list NamespaceDefinition) (tupleset : RelationDefinition)
    (computed : RelationName) : Prop :=
  match rd_allowed_subject_types tupleset with
  | Explicit ts => Forall (λ t, ∃ rd, declares defs t computed rd) ts
  | Unspecified => ∃ t rd, declares defs t computed rd
  end.

(** Every reference of an expression of namespace [t] resolves, and set
    operations have operands. *)
Fixpoint expr_ok (defs : list NamespaceDefinition) (t : ObjectType)
    (e : UsersetExpression) : Prop :=
  match e with
  | This => True
  | ComputedUserset rel => ∃ rd, declares defs t rel rd
  | TupleToUserset tupleset computed =>
      ∃ rd, declares defs t tupleset rd ∧ target_ok defs rd computed
  | Union es | Intersection es => es ≠ [] ∧ all_of (expr_ok defs t) es
  | Exclusion base exclude => expr_ok defs t base ∧ expr_ok defs t exclude
  end.

Definition rewrites_ok (defs : list NamespaceDefinition) : Prop :=
  ∀ ns rd e, ns ∈ defs → rd ∈ ns_relations ns → rd_userset_rewrite rd = Some e →
             expr_ok defs (ns_name ns) e.

Definition schema_ok (defs : list NamespaceDefinition) : Prop :=
  names_ok defs ∧ rewrites_ok defs.

(** Forget the resolved ids. *)
Fixpoint erase (c : CompiledUsersetExpression) : UsersetExpression :=
  match c with
  | CThis => This
  | CComputedUserset rel _ _ => ComputedUserset rel
  | CTupleToUserset tupleset _ computed => TupleToUserset tupleset computed
  | CUnion es => Union (erase <$> es)
  | CIntersection es => Intersection (erase <$> es)
  | CExclusion base exclude => Exclusion (erase base) (erase exclude)
  end.

(** The ids of a compiled expression of namespace [t] denote, in the given
    definitions, the relations they were resolved from. *)
Fixpoint refs_ok (defs : list NamespaceDefinition) (t : ObjectType)
    (c : CompiledUsersetExpression) : Prop :=
  match c with
  | CThis => True
  | CComputedUserset rel i h => ∃ rd, id_denotes defs i t rel rd ∧ h = has_rewrite rd
  | CTupleToUserset tupleset i _ => ∃ rd, id_denotes defs i t tupleset rd
  | CUnion es | CIntersection es => all_of (refs_ok defs t) es
  | CExclusion base exclude => refs_ok defs t base ∧ refs_ok defs t exclude
  end.

(** ** Reference checks *)

Section validation.
Context {defs : list NamespaceDefinition} {r : SchemaResolver}.
Hypothesis Hr : resolver_new defs = Ok r.

Lemma ensure_relation_Ok t owner kind rel rd :
  ensure_relation_in_namespace r t owner kind rel = Ok rd ↔ declares defs t rel rd.
Proof.
  rewrite <- (resolver_relation_Ok Hr). unfold ensure_relation_in_namespace.
  destruct (resolver_relation r t rel) as [|[]]; naive_solver.
Qed.

Lemma validate_target_Ok ns owner rd computed :
  validate_tuple_to_userset_target r ns owner rd computed = Ok tt ↔
  target_ok defs rd computed.
Proof.
  unfold validate_tuple_to_userset_target, target_ok.
  destruct (rd_allowed_subject_types rd) as [|ts].
  - rewrite guard_err_Ok, negb_false_iff. apply (relation_exists_anywhere_true Hr).
  - rewrite try_for_Ok. apply Forall_proper; [|done]. intros t.
    rewrite guard_err_Ok, negb_false_iff. apply (resolver_relation_is_Ok Hr).
Qed.

Lemma validate_expression_Ok ns owner e :
  validate_expression r ns owner e = Ok tt ↔ expr_ok defs (ns_name ns) e.
Proof.
  assert (∀ op es, validate_operands ns owner op 1 es = Ok tt ↔ es ≠ []) as Hops.
  { intros op es. unfold validate_operands. rewrite guard_err_Ok, Nat.ltb_ge.
    destruct es; simpl; split; (done || lia || naive_solver lia). }
  induction e as [|rel|t c|es IH|es IH|b x IHb IHx] using userset_induction; simpl.
  - done.
  - split.
    + intros (rd & Hrd%ensure_relation_Ok & _)%bind_Ok. eauto.
    + intros [rd Hrd]. apply bind_Ok. exists rd. by rewrite ensure_relation_Ok.
  - split.
    + intros (rd & Hrd%ensure_relation_Ok & Ht%validate_target_Ok)%bind_Ok. eauto.
    + intros (rd & Hrd & Ht). apply bind_Ok. exists rd.
      by rewrite ensure_relation_Ok, validate_target_Ok.
  - rewrite all_of_Forall, <- (Hops "union"). rewrite <- (Forall_iff_on _ _ _ IH), <- try_for_Ok.
    split; [by intros ([] & ? & ?)%bind_Ok|]. intros [? ?]. apply bind_Ok. by exists tt.
  - rewrite all_of_Forall, <- (Hops "intersection").
    rewrite <- (Forall_iff_on _ _ _ IH), <- try_for_Ok.
    split; [by intros ([] & ? & ?)%bind_Ok|]. intros [? ?]. apply bind_Ok. by exists tt.
  - rewrite <- IHb, <- IHx. split; [by intros ([] & ? & ?)%bind_Ok|].
    intros [? ?]. apply bind_Ok. by exists tt.
Qed.

Lemma insert_names_fold nm l seen :
  is_ok (try_fold (insert_relation_name nm) seen l) = true ↔
  NoDup (rd_name <$> l) ∧ (∀ rd, rd ∈ l → rd_name rd ∉ seen).
Proof.
  revert seen. induction l as [|rd l IH]; intros seen.
  { split; [|done]. intros _. split; [constructor|]. by intros rd ?%elem_of_nil. }
  cbn [try_fold fmap list_fmap]. rewrite NoDup_cons.
  assert (insert_relation_name nm seen rd =
          if decide (rd_name rd ∈ seen) then Err (DuplicateRelation nm (as_str (rd_name rd)))
          else Ok ({[rd_name rd]} ∪ seen)) as -> by done.
  destruct (decide (rd_name rd ∈ seen)) as [Hin|Hin]; simpl.
  - split; [done|]. intros [_ H]. destruct (H rd); [by left|done].
  - rewrite IH. split.
    + intros [Hnd Hl]. split; [split; [|done]|].
      * intros (x & E & Hx)%list_elem_of_fmap. apply (Hl x Hx). rewrite <- E. set_solver.
      * intros x [->|Hx]%elem_of_cons; [done|]. specialize (Hl x Hx). set_solver.
    + intros [[Hnew Hnd] Hl]. split; [done|]. intros x Hx [E%elem_of_singleton|Hs]%elem_of_union.
      * apply Hnew, list_elem_of_fmap. eauto.
      * apply (Hl x); [by right|done].
Qed.

Lemma validate_namespace_Ok ns :
  NoDup (rd_name <$> ns_relations ns) →
  validate_namespace r ns = Ok tt ↔
  Forall (λ rd, ∀ e, rd_userset_rewrite rd = Some e → expr_ok defs (ns_name ns) e)
    (ns_relations ns).
Proof.
  intros Hnd. unfold validate_namespace.
  assert (is_ok (try_fold (insert_relation_name (as_str (ns_name ns))) ∅
            (ns_relations ns)) = true) as Hf.
  { apply insert_names_fold. split; [done|]. set_solver. }
  destruct (try_fold _ _ _) as [seen|]; [|done]. simpl. rewrite try_for_Ok.
  apply Forall_proper; [|done]. intros rd.
  destruct (rd_userset_rewrite rd) as [e|]; [|naive_solver].
  rewrite validate_expression_Ok. naive_solver.
Qed.

Lemma validate_references_Ok :
  validate_references (mkCompiledSchema defs r) = Ok tt ↔ rewrites_ok defs.
Proof.
  unfold validate_references, rewrites_ok. simpl. rewrite try_for_Ok, Forall_forall.
  destruct (rf_names _ _ _ (resolver_new_Ok _ _ Hr)) as [_ Hrel].
  rewrite Forall_forall in Hrel. split; intros H ns.
  - intros rd e Hns Hrd He. specialize (H ns Hns).
    rewrite validate_namespace_Ok, Forall_forall in H by eauto. eauto.
  - intros Hns. rewrite validate_namespace_Ok, Forall_forall by eauto. eauto.
Qed.

(** *** Resolution succeeds on checked expressions and loses nothing *)

Lemma compile_expression_total t e :
  expr_ok defs t e → ∃ c, compile_resolved_expression r t e = Ok c.
Proof.
  induction e as [|rel|ts c|es IH|es IH|b x IHb IHx] using userset_induction; simpl.
  - eauto.
  - intros [rd Hrd]. rewrite (proj2 (resolver_relation_Ok Hr t rel rd) Hrd). simpl.
    pose proof (proj2 (resolver_relation_id_is_Ok Hr t rel)) as Hi.
    destruct (resolver_relation_id r t rel); simpl; [eauto|]. discriminate Hi; eauto.
  - intros (rd & Hrd & _). pose proof (proj2 (resolver_relation_id_is_Ok Hr t ts)) as Hi.
    destruct (resolver_relation_id r t ts); simpl; [eauto|]. discriminate Hi; eauto.
  - intros [_ Hes%all_of_Forall].
    destruct (try_map_total (compile_resolved_expression r t) es) as [cs ->]; simpl; [|eauto].
    rewrite Forall_forall in *. eauto.
  - intros [_ Hes%all_of_Forall].
    destruct (try_map_total (compile_resolved_expression r t) es) as [cs ->]; simpl; [|eauto].
    rewrite Forall_forall in *. eauto.
  - intros [[cb ->]%IHb [cx ->]%IHx]. simpl. eauto.
Qed.

Lemma compile_list_sound t es cs :
  Forall (λ e, ∀ c, compile_resolved_expression r t e = Ok c →
                    erase c = e ∧ refs_ok defs t c) es →
  try_map (compile_resolved_expression r t) es = Ok cs →
  erase <$> cs = es ∧ all_of (refs_ok defs t) cs.
Proof.
  intros IH Hcs%try_map_Ok. rewrite all_of_Forall.
  induction Hcs as [|e c es cs He Hes IHes]; [done|].
  inversion_clear IH as [|? ? IHe IHr]. destruct (IHe _ He) as [<- ?].
  destruct (IHes IHr) as [<- ?]. split; [done|by constructor].
Qed.

Lemma compile_expression_sound t e c :
  compile_resolved_expression r t e = Ok c → erase c = e ∧ refs_ok defs t c.
Proof.
  revert c. induction e as [|rel|ts cm|es IH|es IH|b x IHb IHx] using userset_induction;
    simpl; intros c H.
  - inv_ok. done.
  - apply bind_Ok in H as (rd & Hrd%(resolver_relation_Ok Hr) & H).
    apply bind_Ok in H as (i & Hi & [= <-]). split; [done|].
    apply (resolver_relation_id_Ok Hr) in Hi as [rd' Hi].
    exists rd'. split; [done|]. f_equal. eapply (declares_unique Hr); [done|].
    by eapply (id_denotes_spec Hr).
  - apply bind_Ok in H as (i & Hi & [= <-]). split; [done|].
    by apply (resolver_relation_id_Ok Hr).
  - apply fmap_Ok in H as (cs & Hcs & ->). simpl.
    by destruct (compile_list_sound t es cs IH Hcs) as [-> ?].
  - apply fmap_Ok in H as (cs & Hcs & ->). simpl.
    by destruct (compile_list_sound t es cs IH Hcs) as [-> ?].
  - apply bind_Ok in H as (cb & [<- Hb]%IHb & H).
    apply bind_Ok in H as (cx & [<- Hx]%IHx & [= <-]). done.
Qed.
End validation.

(** ** Compiled schemas *)

(** What compilation does to a relation and to a namespace: names, subject
    types and rewrites are kept, and the rewrite gets a compiled form whose ids
    denote, in the source definitions, the relations the rewrite names. *)
Definition relation_compiled (defs : list NamespaceDefinition) (t : ObjectType)
    (rd rd' : RelationDefinition) : Prop :=
  rd_name rd' = rd_name rd ∧
  rd_allowed_subject_types rd' = rd_allowed_subject_types rd ∧
  rd_userset_rewrite rd' = rd_userset_rewrite rd ∧
  rd_userset_rewrite rd = erase <$> rd_compiled_userset_rewrite rd' ∧
  (∀ c, rd_compiled_userset_rewrite rd' = Some c → refs_ok defs t c).

Definition namespace_compiled (defs : list NamespaceDefinition)
    (ns ns' : NamespaceDefinition) : Prop :=
  ns_name ns' = ns_name ns ∧
  Forall2 (relation_compiled defs (ns_name ns)) (ns_relations ns) (ns_relations ns').

Lemma compile_relation_sound {defs r} (Hr : resolver_new defs = Ok r) t rd rd' :
  compile_resolved_relation r t rd = Ok rd' → relation_compiled defs t rd rd'.
Proof.
  unfold compile_resolved_relation, relation_compiled. intros (o & Ho & [= <-])%bind_Ok. simpl.
  destruct (rd_userset_rewrite rd) as [e|].
  - apply fmap_Ok in Ho as (c & [<- Hc]%(compile_expression_sound Hr) & ->).
    split_and!; try done. by intros ? [= <-].
  - injection Ho as <-. done.
Qed.

Lemma compile_definitions_sound {defs r} (Hr : resolver_new defs = Ok r) defs' :
  compile_resolved_definitions (mkCompiledSchema defs r) = Ok defs' →
  Forall2 (namespace_compiled defs) defs defs'.
Proof.
  unfold compile_resolved_definitions. simpl. intros H%try_map_Ok.
  eapply Forall2_impl; [exact H|]. simpl. clear H.
  intros ns ns' (rds & H%try_map_Ok & [= <-])%bind_Ok. split; [done|]. simpl.
  eapply Forall2_impl; [exact H|]. intros rd rd' ?. by apply (compile_relation_sound Hr).
Qed.

Lemma compile_definitions_total {defs r} (Hr : resolver_new defs = Ok r) :
  rewrites_ok defs →
  ∃ defs', compile_resolved_definitions (mkCompiledSchema defs r) = Ok defs'.
Proof.
  intros Hok. apply try_map_total, Forall_forall. intros ns Hns. simpl.
  destruct (try_map_total (compile_resolved_relation r (ns_name ns)) (ns_relations ns))
    as [rds ->]; [|simpl; eauto].
  apply Forall_forall. intros rd Hrd. unfold compile_resolved_relation.
  destruct (rd_userset_rewrite rd) as [e|] eqn:He; [|simpl; eauto].
  destruct (compile_expression_total Hr (ns_name ns) e) as [c ->]; [eauto|]. simpl. eauto.
Qed.

Lemma compiled_ns_names {defs l l'} :
  Forall2 (namespace_compiled defs) l l' → ns_name <$> l' = ns_name <$> l.
Proof. induction 1 as [|ns ns' l l' [E _] _ IH]; [done|]. rewrite !fmap_cons. congruence. Qed.

Lemma compiled_rd_names {defs t l l'} :
  Forall2 (relation_compiled defs t) l l' → rd_name <$> l' = rd_name <$> l.
Proof. induction 1 as [|rd rd' l l' [E _] _ IH]; [done|]. rewrite !fmap_cons. congruence. Qed.

Lemma compiled_names {defs l l'} :
  Forall2 (namespace_compiled defs) l l' → names_ok l → names_ok l'.
Proof.
  intros H [Hn Hr]. split; [by rewrite (compiled_ns_names H)|]. clear Hn.
  induction H as [|ns ns' l l' [_ E] _ IH]; [constructor|].
  inversion_clear Hr as [|? ? Hns Hl]. constructor; [|by apply IH].
  by rewrite (compiled_rd_names E).
Qed.

(** An id denotes a relation in the source exactly when it denotes the
    compiled relation in the compiled definitions. *)
Lemma id_denotes_compiled {defs defs'} i t rel rd :
  Forall2 (namespace_compiled defs) defs defs' → id_denotes defs i t rel rd →
  ∃ rd', id_denotes defs' i t rel rd' ∧ relation_compiled defs t rd rd'.
Proof.
  intros H (ns & Hns & <- & Hrd & <-).
  destruct (Forall2_lookup_l _ _ _ _ _ H Hns) as (ns' & Hns' & [E Hrel]).
  destruct (Forall2_lookup_l _ _ _ _ _ Hrel Hrd) as (rd' & Hrd' & Hc).
  exists rd'. split; [|done]. exists ns'. split_and!; try done. apply Hc.
Qed.

Lemma refs_ok_compiled {defs defs'} t c :
  Forall2 (namespace_compiled defs) defs defs' → refs_ok defs t c → refs_ok defs' t c.
Proof.
  intros H.
  induction c as [|rel i h|ts i cm|es IH|es IH|b x IHb IHx] using compiled_induction; simpl.
  - done.
  - intros (rd & Hid & ->).
    destruct (id_denotes_compiled _ _ _ _ H Hid) as (rd' & Hid' & _ & _ & E & _).
    exists rd'. split; [done|]. unfold has_rewrite. by rewrite E.
  - intros (rd & Hid).
    destruct (id_denotes_compiled _ _ _ _ H Hid) as (rd' & Hid' & _). eauto.
  - rewrite !all_of_Forall. intros Hes. induction Hes; inversion_clear IH; constructor; auto.
  - rewrite !all_of_Forall. intros Hes. induction Hes; inversion_clear IH; constructor; auto.
  - naive_solver.
Qed.

Lemma from_definitions_steps defs cs :
  from_definitions defs = Ok cs →
  ∃ r, resolver_new defs = Ok r ∧ rewrites_ok defs ∧
       Forall2 (namespace_compiled defs) defs (cs_definitions cs) ∧
       resolver_new (cs_definitions cs) = Ok (cs_resolver cs).
Proof.
  unfold from_definitions, compiled_new. intros (c & (r & Hr & [= <-])%bind_Ok & H)%bind_Ok.
  apply bind_Ok in H as ([] & Hv%(validate_references_Ok Hr) & H).
  apply bind_Ok in H as (defs' & Hd%(compile_definitions_sound Hr) & H).
  apply bind_Ok in H as (r' & Hr' & [= <-]). exists r. done.
Qed.

(** The compiled relation a name denotes, from the source definitions. *)
Lemma compiled_declares defs cs t rel rd :
  from_definitions defs = Ok cs → declares defs t rel rd →
  ∃ rd', declares (cs_definitions cs) t rel rd' ∧
         relation_compiled (cs_definitions cs) t rd rd'.
Proof.
  intros (r & Hr & _ & H & Hr')%from_definitions_steps Hd.
  assert (∃ i, id_denotes defs i t rel rd) as [i Hi].
  { destruct Hd as (ns & [n Hn]%list_elem_of_lookup & <- & [j Hj]%list_elem_of_lookup & <-).
    exists (mkRelationId n j), ns. done. }
  destruct (id_denotes_compiled _ _ _ _ H Hi) as (rd' & Hi' & H1 & H2 & H3 & H4 & H5).
  exists rd'. split; [by apply (id_denotes_spec Hr') in Hi' as [_ ?]|].
  split_and!; try done. intros c Hc. eapply refs_ok_compiled; [exact H|]. eauto.
Qed.

Lemma declares_compiled defs cs t rel rd' :
  from_definitions defs = Ok cs → declares (cs_definitions cs) t rel rd' →
  ∃ rd, declares defs t rel rd.
Proof.
  intros (r & Hr & _ & H & Hr')%from_definitions_steps (ns' & Hin & <- & Hrd & <-).
  apply list_elem_of_lookup in Hin as [n Hn].
  destruct (Forall2_lookup_r _ _ _ _ _ H Hn) as (ns & Hns & [En Hrel]).
  apply list_elem_of_lookup in Hrd as [j Hj].
  destruct (Forall2_lookup_r _ _ _ _ _ Hrel Hj) as (rd & Hrd & [Erd _]).
  exists rd, ns. rewrite En, Erd. split_and!; try done; by eapply list_elem_of_lookup_2.
Qed.

(** ** Sorted listings *)

#[global] Instance opt_name_le_total : Total opt_name_le.
Proof. intros [a|] [b|]; simpl; auto. apply (total String.le). Qed.

#[global] Instance opt_name_le_trans : Transitive opt_name_le.
Proof. intros [a|] [b|] [c|]; simpl; try done. apply transitivity. Qed.

#[global] Instance name_at_le_total relations : Total (name_at_le relations).
Proof. intros i j. apply (total opt_name_le). Qed.

#[global] Instance name_at_le_trans relations : Transitive (name_at_le relations).
Proof. intros i j k Hij Hjk. eapply (opt_name_le_trans _ _ _ Hij Hjk). Qed.

(** Reading a permutation of the positions reads a permutation of the list. *)
Lemma omap_lookup_seq {A} (l : list A) :
  omap (M:=list) (λ i, l !! i) (seq 0 (length l)) = l.
Proof.
  induction l as [|x l IH] using rev_ind; [done|].
  rewrite length_app. simpl. rewrite Nat.add_1_r, seq_S. simpl. rewrite omap_app.
  f_equal; [rewrite <- IH at 2|].
  - apply list_omap_ext, Forall_Forall2_diag, Forall_forall. intros i Hi%elem_of_seq.
    apply lookup_app_l. lia.
  - simpl. by rewrite lookup_app_r, Nat.sub_diag by lia.
Qed.

Lemma sorted_omap {A} (f : nat → option A) (R : A → A → Prop) (S : nat → nat → Prop) l :
  (∀ i j x y, f i = Some x → f j = Some y → S i j → R x y) →
  StronglySorted S l → StronglySorted R (omap (M:=list) f l).
Proof.
  intros H. induction 1 as [|i l _ IH Hi]; simpl; [constructor|].
  destruct (f i) as [x|] eqn:E; [|done]. constructor; [done|].
    rewrite Forall_forall in Hi. apply Forall_forall.
    intros y (j & Hj & Ey)%list_elem_of_omap. apply (H i j); auto.
Qed.

Lemma sorted_indexes_read relations :
  let l := omap (M:=list) (λ i, relations !! i) (sorted_indexes relations) in
  l ≡ₚ relations ∧ StronglySorted (λ a b, String.le (as_str (rd_name a)) (as_str (rd_name b))) l.
Proof.
  split.
  - rewrite <- (omap_lookup_seq relations) at 2. apply omap_Permutation.
    apply merge_sort_Permutation.
  - eapply sorted_omap; [|apply StronglySorted_merge_sort; apply _].
    intros i j x y Hi Hj. unfold name_at_le, relation_name_at. by rewrite Hi, Hj.
Qed.

(** ** Properties of the schema compiler *)

Lemma from_definitions_is_Ok defs :
  is_ok (from_definitions defs) = true ↔ schema_ok defs.
Proof.
  unfold schema_ok. split.
  - destruct (from_definitions defs) as [cs|] eqn:E; [intros _|done].
    apply from_definitions_steps in E as (r & Hr & Hok & _). split; [|done].
    apply resolver_new_is_Ok. by rewrite Hr.
  - intros [Hn Hok]. pose proof (proj2 (resolver_new_is_Ok defs) Hn) as Hr.
    destruct (resolver_new defs) as [r|] eqn:E; [|done].
    unfold from_definitions, compiled_new. rewrite E. simpl.
    rewrite (proj2 (validate_references_Ok E) Hok). simpl.
    destruct (compile_definitions_total E Hok) as [defs' Hd]. rewrite Hd. simpl.
    pose proof (compiled_names (compile_definitions_sound E _ Hd) Hn) as Hn'.
    apply resolver_new_is_Ok in Hn'. by destruct (resolver_new defs').
Qed.

(** C38: a schema compiles exactly when namespace names are distinct, relation
    names are distinct within each namespace, every rewrite names relations
    that exist, and unions and intersections have operands. *)
Theorem from_definitions_accepts defs :
  is_ok (from_definitions defs) = true ↔ schema_ok defs.
Proof. apply from_definitions_is_Ok. Qed.

(** C39: compilation preserves the schema. Looking a relation up in the compiled
    schema finds exactly the declared relations; the result carries the source's
    name, subject types and rewrite, its compiled rewrite erases to the source's
    rewrite, and every resolved id in it denotes, in the compiled definitions,
    the relation of the same namespace that the rewrite names, with the
    has-rewrite flag of that relation. *)
Theorem from_definitions_preserves defs cs t rel :
  from_definitions defs = Ok cs →
  match resolver_relation (cs_resolver cs) t rel with
  | Ok rd' => ∃ rd, declares defs t rel rd ∧ relation_compiled (cs_definitions cs) t rd rd'
  | Err (NamespaceNotFound t') => t' = as_str t ∧ t ∉ ns_name <$> defs
  | Err (RelationNotFound t' rel') =>
      t' = as_str t ∧ rel' = as_str rel ∧
      ∃ ns, ns ∈ defs ∧ ns_name ns = t ∧ rel ∉ rd_name <$> ns_relations ns
  | Err _ => False
  end.
Proof.
  intros Hcs. pose proof (from_definitions_steps _ _ Hcs) as (r & Hr & _ & HF & Hr').
  destruct (resolver_relation (cs_resolver cs) t rel) as [rd'|e] eqn:E.
  - apply (resolver_relation_Ok Hr') in E.
    destruct (declares_compiled _ _ _ _ _ Hcs E) as [rd Hrd].
    destruct (compiled_declares _ _ _ _ _ Hcs Hrd) as (rd'' & Hrd'' & Hc).
    exists rd. split; [done|]. by rewrite (declares_unique Hr' _ _ _ _ E Hrd'').
  - apply (resolver_relation_Err Hr') in E as [[-> H]|[-> (ns' & Hin & <- & Hrel)]].
    + by rewrite <- (compiled_ns_names HF).
    + split_and!; [done|done|]. apply list_elem_of_lookup in Hin as [n Hn].
      destruct (Forall2_lookup_r _ _ _ _ _ HF Hn) as (ns & Hns & [En HR]).
      exists ns. rewrite <- (compiled_rd_names HR).
      split_and!; [by eapply list_elem_of_lookup_2|done|done].
Qed.

(** [sorted_relations] lists exactly the namespace's relations, in the
    order of their names. *)
Theorem sorted_relations_spec defs r ns :
  resolver_new defs = Ok r → ns ∈ defs →
  ∃ l, sorted_relations r (ns_name ns) = Ok l ∧ l ≡ₚ ns_relations ns ∧
       StronglySorted (λ a b, String.le (as_str (rd_name a)) (as_str (rd_name b))) l.
Proof.
  intros Hr Hin. unfold sorted_relations.
  rewrite (proj2 (resolver_namespace_Ok Hr (ns_name ns) ns)) by done. simpl.
  pose proof (resolver_new_Ok _ _ Hr) as Hrf.
  rewrite (proj2 (rf_sorted _ _ _ Hrf (ns_name ns) _)) by eauto. simpl.
  eexists. split; [done|]. apply sorted_indexes_read.
Qed.

Lemma validate_relationship_Ok defs cs rel :
  from_definitions defs = Ok cs →
  validate_relationship cs rel = Ok tt ↔
  (∃ rd, declares defs (object_type (resource rel)) (relation rel) rd) ∧
  match subject rel with
  | SubjectObject _ => True
  | SubjectUserset o srel => ∃ rd, declares defs (object_type o) srel rd
  end.
Proof.
  intros Hcs. pose proof (from_definitions_steps _ _ Hcs) as (r & _ & _ & _ & Hr').
  assert (∀ t n, is_ok (resolver_relation (cs_resolver cs) t n) = true ↔
                 ∃ rd, declares defs t n rd) as Hd.
  { intros t n. rewrite (resolver_relation_is_Ok Hr'). split.
    - intros [rd H]. by eapply declares_compiled.
    - intros [rd H]. destruct (compiled_declares _ _ _ _ _ Hcs H) as (rd' & ? & _). eauto. }
  rewrite <- Hd. unfold validate_relationship.
  destruct (resolver_relation _ _ (relation rel)); simpl; [|naive_solver].
  destruct (subject rel) as [o|o srel]; [done|]. rewrite <- Hd.
  destruct (resolver_relation _ _ srel); simpl; naive_solver.
Qed.

(** a relationship passes schema validation exactly when its relation is
    declared on its resource's namespace and, for a userset subject, the
    subject's relation is declared on the subject's namespace. *)
Theorem validate_relationship_spec defs cs rel :
  from_definitions defs = Ok cs →
  validate_relationship cs rel = Ok tt ↔
  (∃ rd, declares defs (object_type (resource rel)) (relation rel) rd) ∧
  match subject rel with
  | SubjectObject _ => True
  | SubjectUserset o srel => ∃ rd, declares defs (object_type o) srel rd
  end.
Proof. apply validate_relationship_Ok. Qed.

(** ** Concrete inputs *)

Module SchemaExample.
Definition doc : ObjectType := @mkIdent KObjectType "doc" I.
Definition folder : ObjectType := @mkIdent KObjectType "folder" I.
Definition owner : RelationName := @mkIdent KRelationName "owner" I.
Definition viewer : RelationName := @mkIdent KRelationName "viewer" I.
Definition parent : RelationName := @mkIdent KRelationName "parent" I.

Definition definitions : list NamespaceDefinition :=
  [mkNamespaceDefinition doc
     [relation_definition_new viewer
        (Some (Union [This; ComputedUserset owner; TupleToUserset parent viewer]));
      relation_definition_new owner None;
      relation_definition_with_allowed parent [folder] None];
   mkNamespaceDefinition folder [relation_definition_new viewer (Some This)]].

Definition compiled : CompiledSchema :=
  match from_definitions definitions with
  | Ok cs => cs
  | Err _ => mkCompiledSchema [] (mkResolver [] ∅ ∅ ∅)
  end.

Definition resolver : SchemaResolver :=
  match resolver_new definitions with Ok r => r | Err _ => mkResolver [] ∅ ∅ ∅ end.

Definition readme : ObjectRef := mkObjectRef doc (@mkIdent KObjectId "readme" I).
Definition alice : SubjectRef :=
  SubjectObject (mkObjectRef (@mkIdent KObjectType "user" I) (@mkIdent KObjectId "alice" I)).
End SchemaExample.

Lemma from_definitions_preserves_witness :
  from_definitions SchemaExample.definitions = Ok SchemaExample.compiled ∧
  match resolver_relation (cs_resolver SchemaExample.compiled) SchemaExample.doc
          SchemaExample.viewer with
  | Ok rd' => rd_compiled_userset_rewrite rd' =
      Some (CUnion [CThis;
        CComputedUserset SchemaExample.owner (mkRelationId 0 1) false;
        CTupleToUserset SchemaExample.parent (mkRelationId 0 2) SchemaExample.viewer])
  | Err _ => False
  end ∧
  match resolver_relation (cs_resolver SchemaExample.compiled) SchemaExample.folder
          SchemaExample.owner with
  | Ok rd' => False
  | Err e => e = RelationNotFound "folder" "owner"
  end ∧
  ∃ ns, ns ∈ SchemaExample.definitions ∧ ns_name ns = SchemaExample.folder ∧
        SchemaExample.owner ∉ rd_name <$> ns_relations ns.
Proof.
  split; [reflexivity|]. split; [reflexivity|]. split; [reflexivity|].
  assert (from_definitions SchemaExample.definitions = Ok SchemaExample.compiled) as H
    by reflexivity.
  apply (from_definitions_preserves _ _ SchemaExample.folder SchemaExample.owner H).
Defined.

Lemma sorted_relations_spec_witness :
  ∃ l, sorted_relations SchemaExample.resolver SchemaExample.doc = Ok l ∧
    l ≡ₚ [relation_definition_new SchemaExample.viewer
            (Some (Union [This; ComputedUserset SchemaExample.owner;
                          TupleToUserset SchemaExample.parent SchemaExample.viewer]));
          relation_definition_new SchemaExample.owner None;
          relation_definition_with_allowed SchemaExample.parent [SchemaExample.folder] None] ∧
    (λ rd, as_str (rd_name rd)) <$> l = ["owner"; "parent"; "viewer"].
Proof.
  assert (match sorted_relations SchemaExample.resolver SchemaExample.doc with
          | Ok l => (λ rd, as_str (rd_name rd)) <$> l
          | Err _ => []
          end = ["owner"; "parent"; "viewer"]) as Hnames by (vm_compute; reflexivity).
  destruct (sorted_relations_spec SchemaExample.definitions SchemaExample.resolver
    (mkNamespaceDefinition SchemaExample.doc
       [relation_definition_new SchemaExample.viewer
          (Some (Union [This; ComputedUserset SchemaExample.owner;
                        TupleToUserset SchemaExample.parent SchemaExample.viewer]));
        relation_definition_new SchemaExample.owner None;
        relation_definition_with_allowed SchemaExample.parent [SchemaExample.folder] None]))
    as (l & Hl & Hp & _); [reflexivity|by left|].
  exists l. simpl in Hl. rewrite Hl in Hnames. done.
Defined.

Lemma validate_relationship_spec_witness :
  let ok := mkRelationship SchemaExample.readme SchemaExample.viewer SchemaExample.alice in
  from_definitions SchemaExample.definitions = Ok SchemaExample.compiled ∧
  validate_relationship SchemaExample.compiled ok = Ok tt ∧
  ∃ rd, declares SchemaExample.definitions SchemaExample.doc SchemaExample.viewer rd.
Proof.
  split; [reflexivity|]. split; [reflexivity|].
  refine (proj1 (proj1 (validate_relationship_spec SchemaExample.definitions
    SchemaExample.compiled
    (mkRelationship SchemaExample.readme SchemaExample.viewer SchemaExample.alice) _) _));
    reflexivity.
Defined.
