(* ===== verification/StoreTypes.v ===== *)
(** * Store vocabulary (src/src/relationship.rs)

    Filters, mutations, preconditions and errors of the relationship store,
    with the batch limits, and the meaning of a filter on a relationship. *)

From S2P Require Import Prelude Model Domain Revision.

(** ** Limits *)

Definition DEFAULT_QUERY_LIMIT : N := 1000.
Definition MAX_MUTATIONS_PER_BATCH : Z := 10000.
Definition MAX_PRECONDITIONS_PER_BATCH : Z := 100.
Definition COMPACT_DEAD_ROWS : Z := 100000.
Definition STORE_VIEW_MAX_DELTA_MUTATIONS : Z := 100000.
Definition STORE_VIEW_MAX_DELTA_TOMBSTONES : Z := 100000.

(** [QueryLimit(NonZeroUsize)] *)
Record QueryLimit := mkQueryLimit { limit_get : N; limit_non_zero : Is_true (1 <=? limit_get)%N }.

Definition query_limit_default : QueryLimit := mkQueryLimit DEFAULT_QUERY_LIMIT I.
(** [QueryLimit::new(NonZeroUsize::MIN)] *)
Definition query_limit_min : QueryLimit := mkQueryLimit 1 I.

Lemma query_limit_eq (l k : QueryLimit) : limit_get l = limit_get k → l = k.
Proof.
  destruct l as [l Hl], k as [k Hk]; simpl. intros <-. f_equal. apply proof_irrel.
Qed.

(** A limit as the length of a prefix. *)
Definition limit_nat (l : QueryLimit) : nat := N.to_nat (limit_get l).

Lemma limit_positive (l : QueryLimit) : 0 < limit_nat l.
Proof.
  destruct l as [n Hn]. unfold limit_nat. simpl.
  apply Is_true_eq_true, N.leb_le in Hn. lia.
Qed.

#[global] Instance QueryLimit_eq_dec : EqDecision QueryLimit := λ l k,
  match decide (limit_get l = limit_get k) with
  | left H => left (query_limit_eq l k H)
  | right H => right (λ E, H (f_equal limit_get E))
  end.

(** ** Filters *)

Record SubjectFilter := mkSubjectFilter {
  sf_subject_type : SubjectType;
  sf_optional_subject_id : option SubjectId;
  sf_optional_relation : option RelationName
}.

(** [SubjectFilter::exact] *)
Definition subject_filter_exact (t : SubjectType) (i : SubjectId)
    (r : option RelationName) : SubjectFilter :=
  mkSubjectFilter t (Some i) r.

(** [TryFrom<&User> for SubjectFilter]; the domain errors are converted to
    [ZanzibarError] by [?]. *)
Definition subject_filter_of_user (value : User) : result DomainError SubjectFilter :=
  match value with
  | UserId i =>
      t ← ident_new KSubjectType "user";
      i ← ident_new KSubjectId i;
      Ok (subject_filter_exact t i None)
  | Userset object relation =>
      t ← ident_new KSubjectType (namespace object);
      i ← ident_new KSubjectId (id object);
      r ← ident_new KRelationName (relation_str relation);
      Ok (subject_filter_exact t i (Some r))
  end.

Record RelationshipFilter := mkRelationshipFilter {
  rf_resource_type : ObjectType;
  rf_optional_resource_id : option ObjectId;
  rf_optional_relation : option RelationName;
  rf_optional_subject : option SubjectFilter;
  rf_limit : QueryLimit
}.

(** [RelationshipFilter::for_exact_subject] *)
Definition filter_for_exact_subject (r : ObjectRef) (rel : RelationName)
    (s : SubjectFilter) : RelationshipFilter :=
  mkRelationshipFilter (object_type r) (Some (object_id r)) (Some rel) (Some s)
    query_limit_default.

#[global] Instance SubjectFilter_eq_dec : EqDecision SubjectFilter.
Proof. solve_decision. Defined.
#[global] Instance RelationshipFilter_eq_dec : EqDecision RelationshipFilter.
Proof. solve_decision. Defined.

(** ** Mutations *)

Inductive RelationshipMutation :=
| Create (relationship : Relationship)
| Touch (relationship : Relationship)
| Delete (relationship : Relationship).

(** [RelationshipMutation::relationship] *)
Definition mutation_relationship (m : RelationshipMutation) : Relationship :=
  match m with Create r | Touch r | Delete r => r end.

(** [RelationshipMutation::create], [touch] and [delete]. *)
Definition mutation_create (s : string) : result DomainError RelationshipMutation :=
  Create <$> relationship_from_str s.
Definition mutation_touch (s : string) : result DomainError RelationshipMutation :=
  Touch <$> relationship_from_str s.
Definition mutation_delete (s : string) : result DomainError RelationshipMutation :=
  Delete <$> relationship_from_str s.

Definition is_touch (m : RelationshipMutation) : bool :=
  match m with Touch _ => true | _ => false end.

Inductive Precondition :=
| MustMatch (filter : RelationshipFilter)
| MustNotMatch (filter : RelationshipFilter).

#[global] Instance RelationshipMutation_eq_dec : EqDecision RelationshipMutation.
Proof. solve_decision. Defined.
#[global] Instance Precondition_eq_dec : EqDecision Precondition.
Proof. solve_decision. Defined.

(** ** Errors *)

Inductive StoreError :=
| RelationshipAlreadyExists (relationship : Relationship)
| RelationshipNotFound (relationship : Relationship)
| DuplicateMutation (relationship : Relationship)
| PreconditionFailed (precondition : Precondition)
| MutationBatchTooLarge (limit actual : Z)
| PreconditionBatchTooLarge (limit actual : Z)
| CapacityExceeded (component : string)
| InternalInvariant (reason : string)
| DomainMaterialization (message : string).

#[global] Instance StoreError_eq_dec : EqDecision StoreError.
Proof. solve_decision. Defined.

(** [Display for IdentifierKind] *)
Definition identifier_kind_text (k : IdentifierKind) : string :=
  match k with
  | KObjectType => "object type"
  | KObjectId => "object id"
  | KRelationName => "relation name"
  | KSubjectType => "subject type"
  | KSubjectId => "subject id"
  end.

Definition usize_text (n : nat) : string := u64_to_string (Z.of_nat n).

(** [Display for DomainError] *)
Definition domain_error_text (e : DomainError) : string :=
  match e with
  | IdentifierTooLong k n =>
      "identifier " +:+ identifier_kind_text k +:+ " exceeds " +:+ usize_text n +:+ " bytes"
  | EmptyIdentifier k => "identifier " +:+ identifier_kind_text k +:+ " must not be empty"
  | InvalidIdentifierByte k o =>
      "identifier " +:+ identifier_kind_text k +:+ " contains invalid byte at offset " +:+
      usize_text o
  | MalformedRelationship reason => "relationship is malformed: " +:+ reason
  end.

(** [From<DomainError> for StoreError] *)
Definition store_error_of_domain (e : DomainError) : StoreError :=
  DomainMaterialization (domain_error_text e).

(** The identifiers of a check, as interned store symbols ([NonZeroU32]). *)
Record StoreCheckKey := mkStoreCheckKey {
  key_object_type : positive;
  key_object_id : positive;
  key_relation : positive;
  key_subject_type : positive;
  key_subject_id : positive;
  key_subject_relation : option positive
}.

#[global] Instance StoreCheckKey_eq_dec : EqDecision StoreCheckKey.
Proof. solve_decision. Defined.
#[global] Program Instance StoreCheckKey_countable : Countable StoreCheckKey :=
  inj_countable'
    (λ k, (key_object_type k, key_object_id k, key_relation k, key_subject_type k,
           key_subject_id k, key_subject_relation k))
    (λ p, let '(a, b, c, d, e, f) := p in mkStoreCheckKey a b c d e f) _.
Next Obligation. by intros []. Qed.

(** ** What a filter selects

    The reference meaning of the filters, on relationships: the store answers
    queries through interned ids and posting lists. *)

Definition subject_relation (s : SubjectRef) : option RelationName :=
  match s with SubjectObject _ => None | SubjectUserset _ r => Some r end.

Definition subject_object (s : SubjectRef) : ObjectRef :=
  match s with SubjectObject o | SubjectUserset o _ => o end.

Definition opt_matches {A} `{EqDecision A} (o : option A) (x : A) : bool :=
  match o with Some y => bool_decide (x = y) | None => true end.

(** An absent relation in the filter matches every subject relation: direct
    subjects and usersets alike. *)
Definition subject_matches (f : SubjectFilter) (s : SubjectRef) : bool :=
  bool_decide (as_str (object_type (subject_object s)) = as_str (sf_subject_type f)) &&
  match sf_optional_subject_id f with
  | Some i => bool_decide (as_str (object_id (subject_object s)) = as_str i)
  | None => true
  end &&
  match sf_optional_relation f with
  | Some r => bool_decide (subject_relation s = Some r)
  | None => true
  end.

Definition filter_matches (f : RelationshipFilter) (r : Relationship) : bool :=
  bool_decide (object_type (resource r) = rf_resource_type f) &&
  opt_matches (rf_optional_resource_id f) (object_id (resource r)) &&
  opt_matches (rf_optional_relation f) (relation r) &&
  match rf_optional_subject f with
  | Some s => subject_matches s (subject r)
  | None => true
  end.
