(* ===== verification/Interner.v ===== *)
(** * Identifier interner (src/src/relationship.rs, [IdentifierInterner])

    Every identifier of the store is kept once in a byte buffer and denoted by
    a 32-bit symbol. Lookups go through a hash index with collision lists, or,
    after a trusted snapshot load, through a table sorted by hash. *)

From S2P Require Import Prelude StoreTypes.

(** ** Data *)

(** [SymbolId(NonZeroU32)]. The newtypes around it ([ObjectTypeId],
    [ObjectIdId], [RelationId], [SubjectTypeId], [SubjectIdId]) add no data. *)
Abbreviation SymbolId := positive.

(** [SymbolId::from_index] and [RowId::from_len]. *)
Definition id_from_index (component : string) (index : nat) : result StoreError positive :=
  ok_or (value ← checked_add usize_max (Z.of_nat index) 1;
         value ← try_from_uint u32_max value;
         Z.to_pos <$> non_zero value)
    (CapacityExceeded component).

Definition symbol_from_index : nat → result StoreError SymbolId :=
  id_from_index "identifier interner".

Record InternedString := mkInterned { start : Z; len : Z }.

Record IdentifierInterner := mkInterner {
  bytes : string;
  entries : list InternedString;
  ids_by_hash : gmap Z SymbolId;
  hash_collisions : gmap Z (list SymbolId);
  hashes_by_id : list Z;
  sorted_lookup : list SymbolId
}.

Definition interner_default : IdentifierInterner := mkInterner "" [] ∅ ∅ [] [].

(** ** Operations *)

Definition entry_text (bytes : string) (entry : InternedString) : result StoreError string :=
  start ← ok_or (try_from_uint usize_max (start entry))
            (InternalInvariant "interned identifier start offset is out of bounds");
  len ← ok_or (try_from_uint usize_max (len entry))
          (InternalInvariant "interned identifier length is out of bounds");
  end_ ← ok_or (checked_add usize_max start len)
           (InternalInvariant "interned identifier byte range overflowed");
  slice ← ok_or (str_slice (Z.to_nat start) (Z.to_nat end_) bytes)
            (InternalInvariant "interned identifier byte range is out of bounds");
  _ ← guard_err (negb (utf8_valid slice))
        (InternalInvariant "interned identifier bytes are not valid utf-8");
  Ok slice.

Definition resolve (st : IdentifierInterner) (id : SymbolId) : result StoreError string :=
  entry ← ok_or (entries st !! id_index id)
            (InternalInvariant "interned identifier id is out of bounds");
  entry_text (bytes st) entry.

(** [self.resolve(id).ok().is_some_and(|stored| stored == value)] *)
Definition resolves_to (st : IdentifierInterner) (value : string) (id : SymbolId) : bool :=
  match resolve st id with Ok stored => String.eqb stored value | Err _ => false end.

Definition symbol_hash (st : IdentifierInterner) (id : SymbolId) : option Z :=
  hashes_by_id st !! id_index id.

(** [slice::partition_point] of a slice partitioned by [p]. *)
Fixpoint partition_point {A} (p : A → bool) (l : list A) : nat :=
  match l with
  | [] => 0
  | x :: l => if p x then S (partition_point p l) else 0
  end.

(** [iter().copied().find(p)] *)
Definition find_first {A} (p : A → bool) (l : list A) : option A := List.find p l.

Section interner.
Context `{Hasher}.

(** The loop over the run of symbols with the value's hash. *)
Fixpoint find_in_run (st : IdentifierInterner) (value : string) (hash : Z)
    (ids : list SymbolId) : option SymbolId :=
  match ids with
  | [] => None
  | id :: ids =>
      if bool_decide (symbol_hash st id = Some hash) then
        if resolves_to st value id then Some id else find_in_run st value hash ids
      else None
  end.

Definition hash_below (st : IdentifierInterner) (hash : Z) (id : SymbolId) : bool :=
  match symbol_hash st id with Some stored => (stored <? hash)%Z | None => false end.

Definition lookup (st : IdentifierInterner) (value : string) : option SymbolId :=
  let hash := hash_value value in
  match sorted_lookup st with
  | _ :: _ =>
      let first := partition_point (hash_below st hash) (sorted_lookup st) in
      find_in_run st value hash (drop first (sorted_lookup st))
  | [] =>
      let in_collisions :=
        ids ← hash_collisions st !! hash; find_first (resolves_to st value) ids in
      match ids_by_hash st !! hash with
      | Some id => if resolves_to st value id then Some id else in_collisions
      | None => in_collisions
      end
  end.

(** [(candidate_hash, candidate) < (hash, id)] *)
Definition entry_below (st : IdentifierInterner) (hash : Z) (id candidate : SymbolId) : bool :=
  match symbol_hash st candidate with
  | Some candidate_hash =>
      (candidate_hash <? hash)%Z || ((candidate_hash =? hash)%Z && (candidate <? id)%positive)
  | None => false
  end.

(** [Vec::insert] *)
Definition vec_insert {A} (i : nat) (x : A) (l : list A) : list A := take i l ++ x :: drop i l.

(** Enter the new symbol in the index in use; [Some existing] is the early
    return of the hash branch. *)
Definition intern_index (st : IdentifierInterner) (value : string) (hash : Z) (id : SymbolId)
    : option SymbolId * IdentifierInterner :=
  match sorted_lookup st with
  | [] =>
      match ids_by_hash st !! hash with
      | Some existing =>
          if resolves_to st value existing then (Some existing, st) else
          (None, mkInterner (bytes st) (entries st) (ids_by_hash st)
             (<[hash := default [] (hash_collisions st !! hash) ++ [id]]> (hash_collisions st))
             (hashes_by_id st) (sorted_lookup st))
      | None =>
          (None, mkInterner (bytes st) (entries st) (<[hash := id]> (ids_by_hash st))
             (hash_collisions st) (hashes_by_id st) (sorted_lookup st))
      end
  | _ :: _ =>
      let st := mkInterner (bytes st) (entries st) (ids_by_hash st) (hash_collisions st)
                  (hashes_by_id st ++ [hash]) (sorted_lookup st) in
      let insert_at := partition_point (entry_below st hash id) (sorted_lookup st) in
      (None, mkInterner (bytes st) (entries st) (ids_by_hash st) (hash_collisions st)
         (hashes_by_id st) (vec_insert insert_at id (sorted_lookup st)))
  end.

(** The range of the appended bytes. *)
Definition intern_range (st : IdentifierInterner) (value : string)
    : result StoreError InternedString :=
  start ← ok_or (try_from_uint u32_max (Z.of_nat (byte_len (bytes st))))
            (CapacityExceeded "identifier interner bytes");
  len ← ok_or (try_from_uint u32_max (Z.of_nat (byte_len value)))
          (CapacityExceeded "identifier interner string");
  end_ ← ok_or (checked_add usize_max (Z.of_nat (byte_len (bytes st)))
                  (Z.of_nat (byte_len value)))
           (CapacityExceeded "identifier interner bytes");
  _ ← ok_or (try_from_uint u32_max end_) (CapacityExceeded "identifier interner bytes");
  Ok (mkInterned start len).

(** The index is updated before the capacity checks: a failure keeps it. *)
Definition intern (value : string) : ST IdentifierInterner StoreError SymbolId := λ st,
  match lookup st value with
  | Some id => (Ok id, st)
  | None =>
      match symbol_from_index (length (entries st)) with
      | Err e => (Err e, st)
      | Ok id =>
          match intern_index st value (hash_value value) id with
          | (Some existing, st) => (Ok existing, st)
          | (None, st) =>
              match intern_range st value with
              | Err e => (Err e, st)
              | Ok entry =>
                  (Ok id, mkInterner (bytes st +:+ value) (entries st ++ [entry])
                     (ids_by_hash st) (hash_collisions st) (hashes_by_id st)
                     (sorted_lookup st))
              end
          end
      end
  end.
End interner.

(** ** Lists partitioned by a predicate *)

Lemma partition_point_take {A} (p : A → bool) l x :
  x ∈ take (partition_point p l) l → p x = true.
Proof.
  induction l as [|y l IH]; simpl; [by intros ?%elem_of_nil|].
  destruct (p y) eqn:E; simpl; [|by intros ?%elem_of_nil].
  intros [->|Hx]%elem_of_cons; auto.
Qed.

Lemma partition_point_drop {A} (p : A → bool) l :
  match drop (partition_point p l) l with [] => True | x :: _ => p x = false end.
Proof.
  induction l as [|y l IH]; simpl; [done|]. by destruct (p y) eqn:E.
Qed.

Section partitioned.
Context {A : Type} (R : A → A → Prop) (p : A → bool).
Hypothesis p_down : ∀ x y, R x y → p y = true → p x = true.

Lemma partition_point_drop_all l x :
  StronglySorted R l → x ∈ drop (partition_point p l) l → p x = false.
Proof.
  intros Hs. pose proof (partition_point_drop p l) as Hd.
  assert (StronglySorted R (drop (partition_point p l) l)) as Hs'.
  { rewrite <- (take_drop (partition_point p l) l) in Hs.
    by apply StronglySorted_app_1_r in Hs. }
  destruct (drop _ l) as [|y d]; [by intros ?%elem_of_nil|].
  inversion_clear Hs' as [|? ? _ Hy]. intros [->|Hx]%elem_of_cons; [done|].
  rewrite Forall_forall in Hy. destruct (p x) eqn:E; [|done].
  by rewrite (p_down y x) in Hd by eauto.
Qed.

Lemma vec_insert_sorted l x :
  StronglySorted R l →
  (∀ y, y ∈ l → p y = true → R y x) → (∀ y, y ∈ l → p y = false → R x y) →
  StronglySorted R (vec_insert (partition_point p l) x l).
Proof.
  intros Hs Hlo Hhi. unfold vec_insert. set (n := partition_point p l).
  pose proof Hs as Hs2. rewrite <- (take_drop n l) in Hs2.
  apply StronglySorted_app in Hs2 as (Hcross & Ht & Hd).
  assert (∀ y, y ∈ take n l → y ∈ l) as Htl by (intros y; apply subseteq_take).
  assert (∀ y, y ∈ drop n l → y ∈ l) as Hdl by (intros y; apply subseteq_drop).
  apply StronglySorted_app_2; [|done|].
  - intros y z Hy [->|Hz]%elem_of_cons.
    + apply Hlo; [by apply Htl|by eapply partition_point_take].
    + by apply Hcross.
  - constructor; [done|]. apply Forall_forall. intros z Hz.
    apply Hhi; [by apply Hdl|]. eapply partition_point_drop_all; [exact Hs|exact Hz].
Qed.
End partitioned.

Lemma vec_insert_perm {A} n (x : A) l : vec_insert n x l ≡ₚ x :: l.
Proof.
  unfold vec_insert. rewrite <- (take_drop n l) at 3. symmetry. apply Permutation_middle.
Qed.

(** ** Representation

    An interner stands for the list of its strings, the string at index [i]
    having symbol [index_id i]. *)

Abbreviation total_len := (sum_list_with String.length).

(** The order of the sorted table: by hash, then by symbol. *)
Definition symbol_le (st : IdentifierInterner) (a b : SymbolId) : Prop :=
  match symbol_hash st a, symbol_hash st b with
  | Some ha, Some hb => (ha < hb ∨ ha = hb ∧ (Zpos a <= Zpos b))%Z
  | _, _ => False
  end.

Section representation.
Context `{Hasher}.

(** Every string can be found through the hash index. *)
Definition hash_index_ok (st : IdentifierInterner) (l : list string) : Prop :=
  ∀ i s, l !! i = Some s →
    ids_by_hash st !! hash_value s = Some (index_id i) ∨
    ∃ ids, hash_collisions st !! hash_value s = Some ids ∧ index_id i ∈ ids.

Record sorted_index_ok (st : IdentifierInterner) (l : list string) : Prop := {
  si_hashes : hashes_by_id st = (λ s, hash_value s) <$> l;
  si_ids : sorted_lookup st ≡ₚ index_id <$> seq 0 (length l);
  si_sorted : StronglySorted (symbol_le st) (sorted_lookup st)
}.

Definition index_ok (st : IdentifierInterner) (l : list string) : Prop :=
  match sorted_lookup st with
  | [] => hash_index_ok st l
  | _ :: _ => sorted_index_ok st l
  end.

Record interner_rep (st : IdentifierInterner) (l : list string) : Prop := {
  ir_entries : Forall2 (λ e s, entry_text (bytes st) e = Ok s) (entries st) l;
  ir_nodup : NoDup l;
  ir_bytes : byte_len (bytes st) = total_len l;
  ir_cap : (Z.of_nat (byte_len (bytes st)) ≤ u32_max)%Z;
  ir_count : (Z.of_nat (length l) ≤ u32_max)%Z;
  ir_index : index_ok st l;
  ir_fields : Forall (λ e, 0 ≤ start e ∧ 0 ≤ len e)%Z (entries st)
}.

Lemma interner_rep_default : interner_rep interner_default [].
Proof.
  split; simpl; [constructor|constructor|done|done|done| |constructor].
  intros i s Hi. by rewrite lookup_nil in Hi.
Qed.

Lemma id_from_index_Ok component i :
  (Z.of_nat i + 1 ≤ u32_max)%Z → id_from_index component i = Ok (index_id i).
Proof.
  unfold id_from_index, checked_add, try_from_uint, non_zero, usize_max, u64_max, u32_max.
  intros Hi. destruct (Z.leb_spec (Z.of_nat i + 1) 18446744073709551615); [|lia]. simpl.
  destruct (Z.leb_spec (Z.of_nat i + 1) 4294967295); [|lia]. simpl.
  destruct (Z.eqb_spec (Z.of_nat i + 1) 0); [lia|]. simpl. f_equal. unfold index_id. lia.
Qed.

Lemma id_from_index_cases component i r :
  id_from_index component i = r →
  (r = Ok (index_id i) ∧ (Z.of_nat i + 1 ≤ u32_max)%Z) ∨
  (r = Err (CapacityExceeded component) ∧ (u32_max < Z.of_nat i + 1)%Z).
Proof.
  intros <-. destruct (Z.le_gt_cases (Z.of_nat i + 1) u32_max) as [Hi|Hi].
  - left. split; [by apply id_from_index_Ok|done].
  - right. split; [|lia]. unfold id_from_index, checked_add, try_from_uint.
    destruct (Z.leb_spec (Z.of_nat i + 1) usize_max); [|done]. simpl.
    destruct (Z.leb_spec (Z.of_nat i + 1) u32_max); [lia|done].
Qed.

Section rep.
Context {st : IdentifierInterner} {l : list string}.
Hypothesis Hrep : interner_rep st l.

Lemma resolve_Ok id s : resolve st id = Ok s ↔ l !! id_index id = Some s.
Proof.
  destruct Hrep as [He _ _ _ _ _]. unfold resolve. split.
  - intros (e & Hl%ok_or_Ok & Ht)%bind_Ok.
    destruct (Forall2_lookup_l _ _ _ _ _ He Hl) as (s' & Hs' & Ht'). congruence.
  - intros Hs. destruct (Forall2_lookup_r _ _ _ _ _ He Hs) as (e & Hl & Ht).
    by rewrite Hl.
Qed.

Lemma resolves_to_true v id : resolves_to st v id = true ↔ l !! id_index id = Some v.
Proof.
  rewrite <- resolve_Ok. unfold resolves_to. destruct (resolve st id) as [s|]; [|done].
  rewrite String.eqb_eq. naive_solver.
Qed.

Lemma entries_length : length (entries st) = length l.
Proof. eapply Forall2_length, Hrep. Qed.

(** Two symbols of the same string are equal. *)
Lemma symbol_unique v i j :
  l !! id_index i = Some v → l !! id_index j = Some v → i = j.
Proof. intros Hi Hj. apply (inj id_index). eapply NoDup_lookup; [apply Hrep|done|done]. Qed.

Lemma find_first_resolves v ids id :
  id ∈ ids → l !! id_index id = Some v → find_first (resolves_to st v) ids = Some id.
Proof.
  intros Hin Hv. induction ids as [|x ids IH]; [by apply not_elem_of_nil in Hin|]. simpl.
  destruct (resolves_to st v x) eqn:E.
  - apply resolves_to_true in E. f_equal. by eapply symbol_unique.
  - apply elem_of_cons in Hin as [->|Hin]; [|by apply IH].
    by rewrite (proj2 (resolves_to_true v x)) in E.
Qed.

Lemma find_first_sound v ids id :
  find_first (resolves_to st v) ids = Some id → l !! id_index id = Some v.
Proof. intros [_ Hr]%List.find_some. by apply resolves_to_true. Qed.

Lemma lookup_hash v id :
  sorted_lookup st = [] → lookup st v = Some id ↔ l !! id_index id = Some v.
Proof.
  intros E. pose proof (ir_index _ _ Hrep) as Hidx. unfold index_ok in Hidx.
  unfold lookup. rewrite E in *. split.
  - destruct (ids_by_hash st !! hash_value v) as [id'|]; simpl.
    + destruct (resolves_to st v id') eqn:R.
      * intros [= <-]. by apply resolves_to_true.
      * intros (ids & _ & Hf)%bind_Some. by eapply find_first_sound.
    + intros (ids & _ & Hf)%bind_Some. by eapply find_first_sound.
  - intros Hv. pose proof (Hidx _ _ Hv) as Hi. rewrite index_id_index in Hi.
    assert (∀ id', resolves_to st v id' = true → id' = id) as Huniq.
    { intros id' ?%resolves_to_true. by eapply symbol_unique. }
    destruct Hi as [Hi|(ids & Hc & Hin)].
    + rewrite Hi. by rewrite (proj2 (resolves_to_true v id)).
    + rewrite Hc. simpl. rewrite (find_first_resolves _ _ _ Hin Hv).
      destruct (ids_by_hash st !! hash_value v) as [id'|]; [|done].
      destruct (resolves_to st v id') eqn:R; [|done]. f_equal. by apply Huniq.
Qed.

(** In a run of symbols whose hashes are at least the value's, the loop finds
    the value's symbol. *)
Lemma find_in_run_found v ids id :
  StronglySorted (symbol_le st) ids →
  (∀ x, x ∈ ids → hash_below st (hash_value v) x = false) →
  id ∈ ids → symbol_hash st id = Some (hash_value v) → l !! id_index id = Some v →
  find_in_run st v (hash_value v) ids = Some id.
Proof.
  intros Hs Hge Hin Hh Hv.
  induction ids as [|x ids IH]; [by apply not_elem_of_nil in Hin|]. simpl.
  apply elem_of_cons in Hin as [->|Hin].
  - rewrite bool_decide_true by done. by rewrite (proj2 (resolves_to_true v x)).
  - inversion_clear Hs as [|? ? Hs' Hx]. rewrite Forall_forall in Hx.
    specialize (Hx _ Hin). pose proof (Hge x (list_elem_of_here _ _)) as Hgx.
    unfold symbol_le in Hx. unfold hash_below in Hgx. rewrite Hh in Hx.
    destruct (symbol_hash st x) as [hx|] eqn:Ex; [|done].
    apply Z.ltb_ge in Hgx. assert (hx = hash_value v) as -> by lia.
    rewrite bool_decide_true by done.
    destruct (resolves_to st v x) eqn:E.
    + apply resolves_to_true in E. f_equal. by eapply symbol_unique.
    + apply IH; [done| |done]. intros y Hy. apply Hge. by right.
Qed.

Lemma find_in_run_sound v h ids id :
  find_in_run st v h ids = Some id → l !! id_index id = Some v.
Proof.
  induction ids as [|x ids IH]; simpl; [done|]. case_bool_decide; [|done].
  destruct (resolves_to st v x) eqn:E; [|done]. intros [= <-]. by apply resolves_to_true.
Qed.

Lemma hash_below_down h x y :
  symbol_le st x y → hash_below st h y = true → hash_below st h x = true.
Proof.
  unfold symbol_le, hash_below.
  destruct (symbol_hash st x), (symbol_hash st y); try done. rewrite !Z.ltb_lt. lia.
Qed.

Lemma lookup_sorted v id :
  sorted_lookup st ≠ [] → lookup st v = Some id ↔ l !! id_index id = Some v.
Proof.
  intros E. pose proof (ir_index _ _ Hrep) as Hidx. unfold index_ok in Hidx.
  unfold lookup. destruct (sorted_lookup st) as [|y ys] eqn:Es; [done|].
  destruct Hidx as [Hh Hids Hs]. rewrite <- Es in *. split; [apply find_in_run_sound|].
  intros Hv. set (n := partition_point _ _).
  assert (symbol_hash st id = Some (hash_value v)) as Hhash.
  { unfold symbol_hash. by rewrite Hh, list_lookup_fmap, Hv. }
  assert (id ∈ drop n (sorted_lookup st)) as Hin.
  { assert (id ∈ sorted_lookup st) as Hin.
    { rewrite Hids. apply list_elem_of_fmap. exists (id_index id).
      rewrite index_id_index. split; [done|]. apply elem_of_seq.
      apply lookup_lt_Some in Hv. lia. }
    rewrite <- (take_drop n (sorted_lookup st)) in Hin.
    apply elem_of_app in Hin as [Ht|]; [|done].
    apply partition_point_take in Ht. unfold hash_below in Ht. rewrite Hhash in Ht.
    apply Z.ltb_lt in Ht. lia. }
  apply find_in_run_found; try done.
  - rewrite <- (take_drop n) in Hs. by apply StronglySorted_app_1_r in Hs.
  - intros x Hx. eapply partition_point_drop_all; [apply hash_below_down|exact Hs|exact Hx].
Qed.

(** Whatever the index in use and whatever collides, [lookup] finds exactly
    the stored strings. *)
Lemma lookup_spec v id : lookup st v = Some id ↔ l !! id_index id = Some v.
Proof.
  destruct (decide (sorted_lookup st = [])); [by apply lookup_hash|by apply lookup_sorted].
Qed.

Lemma lookup_None v : lookup st v = None ↔ v ∉ l.
Proof.
  rewrite eq_None_not_Some. split; intros Hv; contradict Hv.
  - apply list_elem_of_lookup in Hv as [i Hi]. exists (index_id i). apply lookup_spec.
    by rewrite id_index_id.
  - destruct Hv as [id Hid%lookup_spec]. by eapply list_elem_of_lookup_2.
Qed.

(** *** Interning *)

Lemma entry_below_down st' h id x y :
  symbol_le st' x y → entry_below st' h id y = true → entry_below st' h id x = true.
Proof.
  unfold symbol_le, entry_below.
  destruct (symbol_hash st' x), (symbol_hash st' y); try done.
  rewrite !orb_true_iff, !andb_true_iff, !Z.ltb_lt, !Z.eqb_eq, !Pos.ltb_lt. lia.
Qed.

Lemma entry_below_true st' h id x :
  symbol_hash st' id = Some h → is_Some (symbol_hash st' x) → (x < id)%positive →
  entry_below st' h id x = true → symbol_le st' x id.
Proof.
  unfold symbol_le, entry_below. intros -> [hx ->] Hlt.
  rewrite orb_true_iff, andb_true_iff, Z.ltb_lt, Z.eqb_eq, Pos.ltb_lt. lia.
Qed.

Lemma entry_below_false st' h id x :
  symbol_hash st' id = Some h → is_Some (symbol_hash st' x) → (x < id)%positive →
  entry_below st' h id x = false → symbol_le st' id x.
Proof.
  unfold symbol_le, entry_below. intros -> [hx ->] Hlt.
  rewrite orb_false_iff, andb_false_iff, Z.ltb_ge, Z.eqb_neq, Pos.ltb_ge. lia.
Qed.

Lemma intern_index_new v id : v ∉ l → (intern_index st v (hash_value v) id).1 = None.
Proof.
  intros Hv. unfold intern_index. destruct (sorted_lookup st) as [|y ys]; [|done].
  destruct (ids_by_hash st !! hash_value v) as [e|]; [|done].
  destruct (resolves_to st v e) eqn:E; [|done].
  apply resolves_to_true in E. destruct Hv. by eapply list_elem_of_lookup_2.
Qed.

Lemma intern_index_hash v :
  sorted_lookup st = [] → v ∉ l →
  hash_index_ok (intern_index st v (hash_value v) (index_id (length l))).2 (l ++ [v]).
Proof.
  intros E Hv. pose proof (ir_index _ _ Hrep) as Hidx. unfold index_ok in Hidx.
  unfold intern_index. rewrite E in *.
  intros i s [Hs|[-> ->]]%lookup_snoc_Some.
  - destruct Hs as [_ Hs]. specialize (Hidx _ _ Hs).
    destruct (ids_by_hash st !! hash_value v) as [e|] eqn:He; simpl.
    + destruct (resolves_to st v e); simpl; [done|].
      destruct Hidx as [Hi|(ids & Hc & Hin)]; [by left|right].
      destruct (decide (hash_value v = hash_value s)) as [Eq|Ne].
      * rewrite Eq, Hc. simpl. exists (ids ++ [index_id (length l)]). split; [apply lookup_insert_eq|].
        apply elem_of_app. by left.
      * exists ids. by rewrite lookup_insert_ne.
    + destruct Hidx as [Hi|Hi]; [left|by right]. rewrite lookup_insert_ne; [done|congruence].
  - destruct (ids_by_hash st !! hash_value s) as [e|] eqn:He; simpl.
    + destruct (resolves_to st s e) eqn:R; simpl.
      * apply resolves_to_true in R. destruct Hv. by eapply list_elem_of_lookup_2.
      * right. eexists. split; [apply lookup_insert_eq|]. apply elem_of_app. right. by left.
    + left. apply lookup_insert_eq.
Qed.

Lemma symbol_hash_stored id :
  sorted_index_ok st l → id ∈ sorted_lookup st → is_Some (symbol_hash st id).
Proof.
  intros [Hh Hids _] Hin. rewrite Hids in Hin.
  apply list_elem_of_fmap in Hin as (i & -> & Hi%elem_of_seq).
  unfold symbol_hash. rewrite Hh, id_index_id. apply lookup_lt_is_Some.
  rewrite length_fmap. lia.
Qed.

Lemma intern_index_sorted v :
  sorted_lookup st ≠ [] →
  sorted_index_ok (intern_index st v (hash_value v) (index_id (length l))).2 (l ++ [v]) ∧
  sorted_lookup (intern_index st v (hash_value v) (index_id (length l))).2 ≠ [].
Proof.
  intros E. pose proof (ir_index _ _ Hrep) as Hidx. unfold index_ok in Hidx.
  unfold intern_index. destruct (sorted_lookup st) as [|y0 ys0] eqn:Es; [done|].
  pose proof Hidx as [Hh Hids Hs]. rewrite <- Es in *. clear y0 ys0 Es. simpl.
  set (st1 := mkInterner (bytes st) (entries st) (ids_by_hash st) (hash_collisions st)
                (hashes_by_id st ++ [hash_value v]) (sorted_lookup st)).
  set (id := index_id (length l)).
  assert (∀ a, a ∈ sorted_lookup st → symbol_hash st1 a = symbol_hash st a ∧
               is_Some (symbol_hash st a) ∧ (a < id)%positive) as Hold.
  { intros a Ha. pose proof (symbol_hash_stored a Hidx Ha) as Hsome.
    assert (id_index a < length l) as Hlt.
    { rewrite Hids in Ha. apply list_elem_of_fmap in Ha as (i & -> & Hi%elem_of_seq).
      rewrite id_index_id. lia. }
    split_and!; [|done|unfold id, index_id, id_index in *; lia].
    unfold symbol_hash. simpl. rewrite lookup_app_l; [done|].
    by rewrite Hh, length_fmap. }
  assert (symbol_hash st1 id = Some (hash_value v)) as Hnew.
  { unfold symbol_hash, id. simpl. rewrite Hh, id_index_id, lookup_app_r by (by rewrite length_fmap).
    by rewrite length_fmap, Nat.sub_diag. }
  assert (StronglySorted (symbol_le st1) (sorted_lookup st)) as Hs1.
  { clear -Hs Hold. induction Hs as [|a ys Hys IH Ha]; [constructor|].
    constructor; [apply IH; intros b Hb; apply Hold; by right|].
    rewrite Forall_forall in Ha. apply Forall_forall. intros b Hb.
    specialize (Ha b Hb). unfold symbol_le in *.
    destruct (Hold a) as [-> _]; [by left|]. destruct (Hold b) as [-> _]; [by right|]. done. }
  split; [|unfold vec_insert; by destruct (take _ _)].
  split; simpl.
  - by rewrite Hh, fmap_app.
  - rewrite vec_insert_perm, Hids, length_app. simpl.
    rewrite Nat.add_1_r, seq_S, fmap_app. simpl. apply Permutation_cons_append.
  - apply (vec_insert_sorted (symbol_le st1) (entry_below st1 (hash_value v) id)); [|done| |].
    + apply entry_below_down.
    + intros a Ha. destruct (Hold a Ha) as (Ea & Hsome & Hlt). rewrite <- Ea in Hsome.
      by apply (entry_below_true st1).
    + intros a Ha. destruct (Hold a Ha) as (Ea & Hsome & Hlt). rewrite <- Ea in Hsome.
      by apply (entry_below_false st1).
Qed.
End rep.

Lemma intern_index_buffers st v h id :
  bytes (intern_index st v h id).2 = bytes st ∧
  entries (intern_index st v h id).2 = entries st.
Proof.
  unfold intern_index. destruct (sorted_lookup st); [|done].
  destruct (ids_by_hash st !! h); [|done]. by destruct (resolves_to st v p).
Qed.

Lemma intern_index_mode st v h id :
  sorted_lookup st = [] → sorted_lookup (intern_index st v h id).2 = [].
Proof.
  intros E. unfold intern_index. rewrite E.
  destruct (ids_by_hash st !! h); [|done]. by destruct (resolves_to st v p).
Qed.

Lemma intern_range_cases st v :
  (intern_range st v = Ok (mkInterned (Z.of_nat (byte_len (bytes st))) (Z.of_nat (byte_len v))) ∧
   (Z.of_nat (byte_len (bytes st)) + Z.of_nat (byte_len v) ≤ u32_max)%Z) ∨
  ((∃ c, intern_range st v = Err (CapacityExceeded c)) ∧
   (u32_max < Z.of_nat (byte_len (bytes st)) + Z.of_nat (byte_len v))%Z).
Proof.
  unfold intern_range, try_from_uint, checked_add.
  destruct (Z.leb_spec (Z.of_nat (byte_len (bytes st))) u32_max) as [H1|H1];
    [|right; split; [simpl; eauto|lia]].
  destruct (Z.leb_spec (Z.of_nat (byte_len v)) u32_max) as [H2|H2];
    [|right; split; [simpl; eauto|lia]].
  destruct (Z.leb_spec (Z.of_nat (byte_len (bytes st)) + Z.of_nat (byte_len v)) usize_max);
    [|unfold usize_max, u64_max, u32_max in *; lia].
  destruct (Z.leb_spec (Z.of_nat (byte_len (bytes st)) + Z.of_nat (byte_len v)) u32_max) as [H4|H4].
  - left. simpl. rewrite (proj2 (Z.leb_le _ _)) by lia. done.
  - right. split; [|lia]. simpl. rewrite (proj2 (Z.leb_gt _ _)) by lia. simpl. eauto.
Qed.

Lemma entry_text_app bs v e s : entry_text bs e = Ok s → entry_text (bs +:+ v) e = Ok s.
Proof.
  unfold entry_text.
  intros (a & Ha & (b & Hb & (c & Hc & H1)%bind_Ok)%bind_Ok)%bind_Ok.
  rewrite Ha. simpl. rewrite Hb. simpl. rewrite Hc. simpl.
  apply bind_Ok in H1 as (t & Ht%ok_or_Ok & H1). by rewrite (str_slice_app _ _ _ _ _ Ht).
Qed.

Lemma entry_text_last bs v :
  (Z.of_nat (byte_len bs) + Z.of_nat (byte_len v) ≤ u32_max)%Z → utf8_valid v = true →
  entry_text (bs +:+ v) (mkInterned (Z.of_nat (byte_len bs)) (Z.of_nat (byte_len v))) = Ok v.
Proof.
  intros Hle Hv. unfold entry_text, try_from_uint, checked_add. simpl.
  assert (u32_max ≤ usize_max)%Z by (unfold u32_max, usize_max, u64_max; lia).
  rewrite !(proj2 (Z.leb_le _ _)) by lia. simpl. rewrite (proj2 (Z.leb_le _ _)) by lia. simpl.
  rewrite Z2Nat.inj_add, !Nat2Z.id by lia. rewrite str_slice_last. simpl. by rewrite Hv.
Qed.

(** The list after interning a string. *)
Definition intern_list (l : list string) (v : string) : list string :=
  if decide (v ∈ l) then l else l ++ [v].

(** Room for one more symbol and the string's bytes. *)
Definition intern_fits (l : list string) (v : string) : Prop :=
  v ∈ l ∨ (Z.of_nat (length l) + 1 ≤ u32_max ∧
           Z.of_nat (total_len l) + Z.of_nat (byte_len v) ≤ u32_max)%Z.

Lemma total_len_app l k : total_len (l ++ k) = total_len l + total_len k.
Proof. induction l as [|x l IH]; simpl; [done|]. rewrite IH. lia. Qed.

Lemma intern_append st l v st1 :
  interner_rep st l → v ∉ l → utf8_valid v = true →
  intern_index st v (hash_value v) (index_id (length l)) = (None, st1) →
  (Z.of_nat (length l) + 1 ≤ u32_max)%Z →
  (Z.of_nat (byte_len (bytes st)) + Z.of_nat (byte_len v) ≤ u32_max)%Z →
  interner_rep
    (mkInterner (bytes st1 +:+ v)
       (entries st1 ++ [mkInterned (Z.of_nat (byte_len (bytes st1))) (Z.of_nat (byte_len v))])
       (ids_by_hash st1) (hash_collisions st1) (hashes_by_id st1) (sorted_lookup st1))
    (l ++ [v]).
Proof.
  intros Hrep Hv Hutf E Hlen Hcap.
  destruct (intern_index_buffers st v (hash_value v) (index_id (length l))) as [Eb Ee].
  rewrite E in Eb, Ee. simpl in Eb, Ee. rewrite Eb, Ee. pose proof Hrep as [Hent Hnd Hby _ Hc _ Hfields].
  split; simpl.
  - apply Forall2_app; [|by constructor; [apply entry_text_last|]].
    eapply Forall2_impl; [exact Hent|]. intros e s. apply entry_text_app.
  - apply NoDup_app. split_and!; [done| |apply NoDup_singleton].
    intros x Hx ->%list_elem_of_singleton. done.
  - rewrite byte_len_app, Hby, total_len_app. simpl. lia.
  - rewrite byte_len_app. lia.
  - rewrite length_app. simpl. lia.
  - unfold index_ok. simpl. destruct (decide (sorted_lookup st = [])) as [Es|Es].
    + pose proof (intern_index_hash Hrep v Es Hv) as Hi.
      pose proof (intern_index_mode st v (hash_value v) (index_id (length l)) Es) as Hm.
      rewrite E in Hi, Hm. simpl in Hi, Hm. rewrite Hm. exact Hi.
    + destruct (intern_index_sorted Hrep v Es) as [Hi Hm]. rewrite E in Hi, Hm. simpl in Hi, Hm.
      destruct (sorted_lookup st1) eqn:Es1; [done|]. rewrite <- Es1.
      destruct Hi as [Hi1 Hi2 Hi3]. by split.
  - apply Forall_app. split; [done|]. apply Forall_singleton. simpl. lia.
Qed.

(** What [intern] does: it returns the symbol of the string and stores the
    string if it is new; it fails only for lack of room, and then the buffers
    are untouched, and a hash index still finds every string. *)
Lemma intern_spec st l v r st' :
  interner_rep st l → utf8_valid v = true → intern v st = (r, st') →
  match r with
  | Ok id => interner_rep st' (intern_list l v) ∧ intern_list l v !! id_index id = Some v ∧
             (sorted_lookup st = [] → sorted_lookup st' = [])
  | Err e => (∃ c, e = CapacityExceeded c) ∧ ¬ intern_fits l v ∧
             bytes st' = bytes st ∧ entries st' = entries st ∧
             (sorted_lookup st = [] → sorted_lookup st' = [] ∧ interner_rep st' l)
  end.
Proof.
  intros Hrep Hutf. unfold intern, intern_list.
  destruct (lookup st v) as [id|] eqn:Hl.
  { intros [= <- <-]. apply (lookup_spec Hrep) in Hl.
    rewrite decide_True by (by eapply list_elem_of_lookup_2). done. }
  apply (lookup_None Hrep) in Hl. rewrite decide_False by done.
  rewrite (entries_length Hrep).
  destruct (id_from_index_cases "identifier interner" (length l) _ eq_refl)
    as [[E Hlen]|[E Hlen]]; unfold symbol_from_index; rewrite E.
  2: { intros [= <- <-]. unfold intern_fits. split_and!; [eauto|lia || (intros [?|?]; [done|lia])|done..]. }
  pose proof (intern_index_new Hrep v (index_id (length l)) Hl) as Hnone.
  destruct (intern_index st v (hash_value v) (index_id (length l))) as [o st1] eqn:Ei.
  simpl in Hnone. subst o.
  destruct (intern_index_buffers st v (hash_value v) (index_id (length l))) as [Eb Ee].
  rewrite Ei in Eb, Ee. simpl in Eb, Ee.
  destruct (intern_range_cases st1 v) as [[Er Hcap]|[[c Er] Hcap]]; rewrite Er, Eb in *;
    intros [= <- <-].
  - split_and!; [rewrite <- Eb; by eapply intern_append| |].
    + rewrite id_index_id, lookup_app_r, Nat.sub_diag by lia. done.
    + intros Es. simpl.
      pose proof (intern_index_mode st v (hash_value v) (index_id (length l)) Es) as Hm.
      by rewrite Ei in Hm.
  - split_and!; [eauto| |done|done|].
    + intros [?|[_ ?]]; [done|]. rewrite (ir_bytes _ _ Hrep) in Hcap. lia.
    + intros Es.
      pose proof (intern_index_mode st v (hash_value v) (index_id (length l)) Es) as Hm.
      pose proof (intern_index_hash Hrep v Es Hl) as Hi. rewrite Ei in Hm, Hi. simpl in Hm, Hi.
      split; [done|]. destruct Hrep as [H1 H2 H3 H4 H5 _ H6].
      split; rewrite ?Eb, ?Ee; try done. unfold index_ok. rewrite Hm.
      intros i s Hs. apply Hi. by apply lookup_app_l_Some.
Qed.

Lemma intern_total st l v :
  interner_rep st l → utf8_valid v = true → intern_fits l v →
  ∃ id st', intern v st = (Ok id, st').
Proof.
  intros Hrep Hutf Hfit. destruct (intern v st) as [[id|e] st'] eqn:E; [eauto|].
  pose proof (intern_spec _ _ _ _ _ Hrep Hutf E) as (_ & [] & _). done.
Qed.

Lemma elem_of_intern_list l v x : x ∈ intern_list l v ↔ x ∈ l ∨ x = v.
Proof.
  unfold intern_list. case_decide; [naive_solver|].
  rewrite elem_of_app, list_elem_of_singleton. done.
Qed.

Lemma intern_list_lookup l v i s : l !! i = Some s → intern_list l v !! i = Some s.
Proof. unfold intern_list. case_decide; [done|]. intros ?. by apply lookup_app_l_Some. Qed.
End representation.
