(* ===== verification/LiveRows.v ===== *)
(** * Live-row bitmap (src/src/relationship.rs, [LiveRows])

    Which rows are live: either "the first [n] rows", or one bit per row in
    64-bit words. The invariant is the set of indexes a bitmap contains. *)

From S2P Require Import Prelude.

(** [RowId(NonZeroU32)] *)
Abbreviation RowId := positive.

Record LiveRows := mkLiveRows { all_live_len : option nat; words : list Z }.

Definition live_default : LiveRows := mkLiveRows (Some 0) [].
Definition live_full (len : nat) : LiveRows := mkLiveRows (Some len) [].

(** [1_u64 << n] for [n < 64] *)
Definition bit (n : nat) : Z := Z.shiftl 1 (Z.of_nat n).

Definition set_last {A} (x : A) (l : list A) : list A :=
  match reverse l with [] => [] | _ :: l => reverse l ++ [x] end.

Definition sparse_full (len : nat) : LiveRows :=
  let word_count := (len + 63) / 64 in
  let words := replicate word_count u64_max in
  let remainder := len mod 64 in
  mkLiveRows None
    (if Nat.eqb remainder 0 then words else set_last (bit remainder - 1)%Z words).

(** [Vec::resize] *)
Definition vec_resize {A} (n : nat) (x : A) (l : list A) : list A :=
  take n l ++ replicate (n - length l) x.

Definition live_set_bit (l : LiveRows) (index : nat) : LiveRows :=
  let word := index / 64 in
  let ws := if Nat.leb (length (words l)) word then vec_resize (S word) 0%Z (words l)
            else words l in
  mkLiveRows (all_live_len l) (alter (λ value, Z.lor value (bit (index mod 64))) word ws).

Definition live_insert (l : LiveRows) (row_id : RowId) : LiveRows :=
  let index := id_index row_id in
  match all_live_len l with
  | Some len =>
      if Nat.eqb index len then
        mkLiveRows (Z.to_nat <$> checked_add usize_max (Z.of_nat len) 1) (words l)
      else if Nat.ltb index len then l
      else live_set_bit (sparse_full len) index
  | None => live_set_bit l index
  end.

Definition live_remove (l : LiveRows) (row_id : RowId) : LiveRows :=
  let index := id_index row_id in
  let l := match all_live_len l with Some len => sparse_full len | None => l end in
  mkLiveRows (all_live_len l)
    (alter (λ value, Z.land value (Z.lxor u64_max (bit (index mod 64)))) (index / 64) (words l)).

Definition live_contains (l : LiveRows) (row_id : RowId) : bool :=
  let index := id_index row_id in
  match all_live_len l with
  | Some len => Nat.ltb index len
  | None =>
      match words l !! (index / 64) with
      | Some value => negb (Z.land value (bit (index mod 64)) =? 0)%Z
      | None => false
      end
  end.

Definition is_all_live (l : LiveRows) : bool := bool_decide (is_Some (all_live_len l)).

(** ** Bits *)

Lemma testbit_bit n m : Z.testbit (bit n) (Z.of_nat m) = Nat.eqb n m.
Proof.
  unfold bit. rewrite Z.shiftl_1_l, Z.pow2_bits_eqb by lia.
  destruct (Nat.eqb_spec n m) as [->|]; [apply Z.eqb_refl|]. apply Z.eqb_neq. lia.
Qed.

Lemma testbit_mask v n : negb (Z.land v (bit n) =? 0)%Z = Z.testbit v (Z.of_nat n).
Proof.
  destruct (Z.eqb_spec (Z.land v (bit n)) 0) as [E|E]; simpl.
  - symmetry. apply (f_equal (λ z, Z.testbit z (Z.of_nat n))) in E.
    rewrite Z.land_spec, testbit_bit, Nat.eqb_refl, andb_true_r, Z.testbit_0_l in E. done.
  - symmetry. destruct (Z.testbit v (Z.of_nat n)) eqn:T; [done|]. destruct E.
    apply Z.bits_inj'. intros m Hm. rewrite Z.land_spec, Z.testbit_0_l.
    rewrite <- (Z2Nat.id m), testbit_bit by done.
    destruct (Nat.eqb_spec n (Z.to_nat m)) as [->|]; [|by rewrite andb_false_r].
    by rewrite T.
Qed.

Lemma testbit_u64_max n : n < 64 → Z.testbit u64_max (Z.of_nat n) = true.
Proof.
  intros Hn. replace u64_max with (Z.ones 64) by reflexivity. apply Z.ones_spec_low. lia.
Qed.

Lemma testbit_low_mask r n : Z.testbit (bit r - 1) (Z.of_nat n) = Nat.ltb n r.
Proof.
  unfold bit. rewrite Z.shiftl_1_l. replace (2 ^ Z.of_nat r - 1)%Z with (Z.ones (Z.of_nat r))
    by (rewrite Z.ones_equiv; lia).
  destruct (Nat.ltb_spec n r); [apply Z.ones_spec_low|apply Z.ones_spec_high]; lia.
Qed.

(** ** The set a bitmap contains *)

(** Membership by index, whatever the representation. *)
Definition live_at (l : LiveRows) (i : nat) : bool := live_contains l (index_id i).

Definition word_bit (ws : list Z) (i : nat) : bool :=
  match ws !! (i / 64) with Some v => Z.testbit v (Z.of_nat (i mod 64)) | None => false end.

Lemma live_at_sparse l i : all_live_len l = None → live_at l i = word_bit (words l) i.
Proof.
  intros E. unfold live_at, live_contains, word_bit. rewrite E, id_index_id.
  destruct (words l !! (i / 64)); [apply testbit_mask|done].
Qed.

Lemma div_mod_64 i : i = 64 * (i / 64) + i mod 64 ∧ i mod 64 < 64.
Proof. split; [apply Nat.div_mod; lia|apply Nat.mod_upper_bound; lia]. Qed.

Lemma set_last_snoc {A} (x y : A) l : set_last x (l ++ [y]) = l ++ [x].
Proof. unfold set_last. rewrite reverse_snoc. by rewrite reverse_involutive. Qed.

Lemma sparse_full_at len i : live_at (sparse_full len) i = Nat.ltb i len.
Proof.
  rewrite live_at_sparse by done. unfold word_bit, sparse_full. cbn [words].
  destruct (div_mod_64 i) as [Ei Hi], (div_mod_64 len) as [El Hl].
  set (q := i / 64) in *. set (b := i mod 64) in *. set (n := len / 64) in *.
  set (r := len mod 64) in *.
  destruct (Nat.eqb_spec r 0) as [Er|Er].
  - assert ((len + 63) / 64 = n) as -> by (symmetry; apply (Nat.div_unique _ 64 _ 63); lia).
    destruct (Nat.ltb_spec i len).
    + rewrite lookup_replicate_2 by lia. by apply testbit_u64_max.
    + rewrite (proj2 (lookup_ge_None _ _)) by (rewrite length_replicate; lia). done.
  - assert ((len + 63) / 64 = S n) as -> by (symmetry; apply (Nat.div_unique _ 64 _ (r - 1)); lia).
    rewrite replicate_S_end, set_last_snoc.
    destruct (Nat.lt_trichotomy q n) as [Hq|[->|Hq]].
    + rewrite lookup_app_l by (by rewrite length_replicate).
      rewrite lookup_replicate_2 by done. rewrite testbit_u64_max by done.
      symmetry. apply Nat.ltb_lt. lia.
    + rewrite lookup_app_r, length_replicate, Nat.sub_diag by (by rewrite length_replicate).
      simpl. rewrite testbit_low_mask. destruct (Nat.ltb_spec b r), (Nat.ltb_spec i len); done || lia.
    + rewrite (proj2 (lookup_ge_None _ _)) by (rewrite length_app, length_replicate; simpl; lia).
      symmetry. apply Nat.ltb_ge. lia.
Qed.

Lemma word_bit_resize ws n i : length ws ≤ n → word_bit (vec_resize n 0%Z ws) i = word_bit ws i.
Proof.
  intros Hn. unfold word_bit, vec_resize. rewrite take_ge by done.
  destruct (decide (i / 64 < length ws)) as [Hi|Hi]; [by rewrite lookup_app_l|].
  rewrite lookup_app_r by lia. rewrite (proj2 (lookup_ge_None ws _)) by lia.
  destruct (replicate _ _ !! _) as [v|] eqn:E; [|done].
  apply lookup_replicate in E as [-> _]. apply Z.testbit_0_l.
Qed.

Lemma word_bit_alter f ws w i :
  word_bit (alter f w ws) i =
  if decide (w = i / 64) then
    match ws !! (i / 64) with Some v => Z.testbit (f v) (Z.of_nat (i mod 64)) | None => false end
  else word_bit ws i.
Proof.
  unfold word_bit. case_decide as E.
  - subst w. rewrite list_lookup_alter_eq. by destruct (ws !! (i / 64)).
  - by rewrite list_lookup_alter_ne.
Qed.

Lemma same_index i j : i / 64 = j / 64 → Nat.eqb (i mod 64) (j mod 64) = Nat.eqb i j.
Proof.
  intros E. destruct (div_mod_64 i) as [Ei _], (div_mod_64 j) as [Ej _].
  destruct (Nat.eqb_spec (i mod 64) (j mod 64)), (Nat.eqb_spec i j); try done; lia.
Qed.

Lemma live_set_bit_at l i j :
  all_live_len l = None → live_at (live_set_bit l i) j = Nat.eqb i j || live_at l j.
Proof.
  intros E. rewrite !live_at_sparse by done. unfold live_set_bit. cbn [words].
  set (ws := if Nat.leb _ _ then _ else _).
  assert (∀ k, word_bit ws k = word_bit (words l) k) as Hws.
  { intros k. unfold ws. destruct (Nat.leb_spec (length (words l)) (i / 64)); [|done].
    apply word_bit_resize. lia. }
  assert (i / 64 < length ws) as Hlen.
  { unfold ws. destruct (Nat.leb_spec (length (words l)) (i / 64)); [|done].
    unfold vec_resize. rewrite length_app, length_take, length_replicate. lia. }
  rewrite word_bit_alter, <- Hws. unfold word_bit. case_decide as Eq.
  - rewrite <- Eq. destruct (lookup_lt_is_Some_2 _ _ Hlen) as [v ->].
    rewrite Z.lor_spec, testbit_bit, (same_index i j) by done. apply orb_comm.
  - destruct (Nat.eqb_spec i j) as [->|]; [done|]. done.
Qed.

(** Row ids are 32-bit, far from the width of a length. *)
Lemma live_insert_at l i j :
  (Z.of_nat i < u32_max)%Z →
  live_at (live_insert l (index_id i)) j = Nat.eqb i j || live_at l j.
Proof.
  intros Hi. unfold live_insert. rewrite id_index_id.
  destruct (all_live_len l) as [len|] eqn:E; [|by apply live_set_bit_at].
  assert (live_at l j = Nat.ltb j len) as El.
  { unfold live_at, live_contains. by rewrite E, id_index_id. }
  rewrite El. destruct (Nat.eqb_spec i len) as [->|Hne].
  - unfold live_at, live_contains, checked_add. simpl.
    rewrite (proj2 (Z.leb_le _ _)) by (unfold usize_max, u64_max, u32_max in *; lia). simpl.
    rewrite id_index_id. destruct (Nat.eqb_spec len j), (Nat.ltb_spec j len), (Nat.ltb_spec j (Z.to_nat (Z.of_nat len + 1)));
      simpl; done || lia.
  - destruct (Nat.ltb_spec i len).
    + rewrite El. destruct (Nat.eqb_spec i j) as [->|]; [|done]. simpl.
      apply Nat.ltb_lt. lia.
    + rewrite live_set_bit_at by done. by rewrite sparse_full_at.
Qed.

Lemma live_remove_at l i j :
  live_at (live_remove l (index_id i)) j = negb (Nat.eqb i j) && live_at l j.
Proof.
  unfold live_remove. rewrite id_index_id.
  set (l' := match all_live_len l with Some len => _ | None => l end).
  assert (all_live_len l' = None ∧ live_at l' j = live_at l j) as [E <-].
  { unfold l'. destruct (all_live_len l) as [len|] eqn:E; [|done]. split; [done|].
    rewrite sparse_full_at. unfold live_at, live_contains. by rewrite E, id_index_id. }
  rewrite !live_at_sparse by done. cbn [words]. rewrite word_bit_alter. unfold word_bit.
  case_decide as Eq.
  - destruct (words l' !! (j / 64)) as [v|]; [|by rewrite andb_false_r].
    rewrite Z.land_spec, Z.lxor_spec, testbit_u64_max, testbit_bit by apply div_mod_64.
    rewrite (same_index i j) by done. rewrite xorb_true_l. apply andb_comm.
  - destruct (Nat.eqb_spec i j) as [->|]; [done|]. done.
Qed.

Lemma live_contains_at l r : live_contains l r = live_at l (id_index r).
Proof. unfold live_at. by rewrite index_id_index. Qed.

(** A bitmap of a store of [n] rows. *)
Record live_wf (l : LiveRows) (n : nat) : Prop := {
  lw_bound i : live_at l i = true → i < n;
  lw_all k : all_live_len l = Some k → k = n
}.

Lemma live_wf_default : live_wf live_default 0.
Proof.
  split; [|naive_solver]. intros i. unfold live_at, live_contains. simpl.
  intros ?%Nat.ltb_lt. lia.
Qed.

Lemma live_wf_insert l n :
  (Z.of_nat n < u32_max)%Z → live_wf l n → live_wf (live_insert l (index_id n)) (S n).
Proof.
  intros Hn [Hb Ha]. split.
  - intros i. rewrite live_insert_at by done.
    destruct (Nat.eqb_spec n i); simpl; [lia|]. intros ?%Hb. lia.
  - unfold live_insert. rewrite id_index_id. destruct (all_live_len l) as [k|] eqn:E.
    + rewrite (Ha k eq_refl), Nat.eqb_refl. simpl. unfold checked_add.
      intros k' (z & Hz & ->)%fmap_Some. destruct (_ <=? _)%Z; [|done].
      injection Hz as <-. lia.
    + simpl. by rewrite E.
Qed.

Lemma live_wf_remove l n r : live_wf l n → live_wf (live_remove l r) n.
Proof.
  intros [Hb _]. rewrite <- (index_id_index r). split.
  - intros i. rewrite live_remove_at. intros [_ ?]%andb_true_iff. by apply Hb.
  - unfold live_remove. by destruct (all_live_len l) eqn:E; simpl; rewrite ?E.
Qed.

(** Skipping the test when the bitmap is all-live is sound. *)
Lemma is_all_live_at l n i : live_wf l n → is_all_live l = true → i < n → live_at l i = true.
Proof.
  intros [_ Ha] [k E]%bool_decide_eq_true Hi. unfold live_at, live_contains.
  rewrite E, id_index_id. apply Nat.ltb_lt. by rewrite (Ha k E).
Qed.

(** ** A bitmap is a set *)

Inductive LiveOp := LiveInsert (i : nat) | LiveRemove (i : nat).

Definition live_apply (l : LiveRows) (op : LiveOp) : LiveRows :=
  match op with
  | LiveInsert i => live_insert l (index_id i)
  | LiveRemove i => live_remove l (index_id i)
  end.

Definition set_apply (s : gset nat) (op : LiveOp) : gset nat :=
  match op with LiveInsert i => {[i]} ∪ s | LiveRemove i => s ∖ {[i]} end.

Definition op_in_range (op : LiveOp) : Prop :=
  match op with LiveInsert i | LiveRemove i => (Z.of_nat i < u32_max)%Z end.

(** after any sequence of insertions and removals of 32-bit row ids, in any
    order and across the switch from the counter to the words, [contains] is
    membership in the set those operations build. *)
Theorem live_rows_set ops i :
  Forall op_in_range ops →
  live_contains (foldl live_apply live_default ops) (index_id i) =
  bool_decide (i ∈ foldl set_apply ∅ ops).
Proof.
  rewrite live_contains_at, id_index_id.
  induction ops as [|op ops IH] using rev_ind; intros Hops.
  { rewrite bool_decide_eq_false_2 by set_solver.
    destruct (live_at live_default i) eqn:E; [|done].
    apply (lw_bound _ _ live_wf_default) in E. lia. }
  rewrite Forall_app, Forall_singleton in Hops. destruct Hops as [Hops Hop]. specialize (IH Hops).
  rewrite !foldl_app. cbn [foldl]. destruct op as [j|j]; simpl in *.
  - rewrite live_insert_at, IH by done. destruct (Nat.eqb_spec j i) as [->|Hne]; simpl.
    + symmetry. apply bool_decide_eq_true. set_solver.
    + apply bool_decide_ext. set_solver.
  - rewrite live_remove_at, IH. destruct (Nat.eqb_spec j i) as [->|Hne]; simpl.
    + symmetry. apply bool_decide_eq_false. set_solver.
    + apply bool_decide_ext. set_solver.
Qed.

Lemma live_rows_set_witness :
  live_contains (foldl live_apply live_default
    [LiveInsert 0; LiveInsert 1; LiveInsert 2; LiveRemove 1; LiveInsert 70; LiveInsert 1;
     LiveRemove 0]) (index_id 70) = true.
Proof.
  rewrite live_rows_set; [vm_compute; reflexivity|].
  repeat (constructor; [unfold op_in_range, u32_max; lia|]). constructor.
Defined.
