(* ===== verification/Posting.v ===== *)
(** * Posting lists (src/src/relationship.rs, [PostingIndex])

    The rows of each index key: a hash table with the first row inline, or the
    sorted arrays of a loaded snapshot, which turn into the hash form on the
    first insertion. *)

From S2P Require Import Prelude Interner LiveRows.

(** ** Keys with a derived [Ord]

    Fields compare in order; an absent optional field comes first. *)
Class SortKey (K : Type) := {
  sort_key : K → list N;
  sort_width : nat;
  sort_key_length k : length (sort_key k) = sort_width;
  sort_key_inj :: Inj (=) (=) sort_key
}.

#[global] Program Instance positive_sort_key : SortKey positive :=
  {| sort_key p := [Npos p]; sort_width := 1 |}.
Next Obligation. done. Qed.
Next Obligation. by intros p q [= ->]. Qed.

#[global] Program Instance option_sort_key : SortKey (option positive) :=
  {| sort_key o := [match o with Some p => Npos p | None => 0%N end]; sort_width := 1 |}.
Next Obligation. done. Qed.
Next Obligation. by intros [p|] [q|] [=]; subst. Qed.

#[global] Program Instance pair_sort_key {A B} `{SortKey A, SortKey B} : SortKey (A * B) :=
  {| sort_key p := sort_key p.1 ++ sort_key p.2;
     sort_width := sort_width (K:=A) + sort_width (K:=B) |}.
Next Obligation. intros A B ?? [a b]. rewrite length_app. by rewrite !sort_key_length. Qed.
Next Obligation.
  intros A B ?? [a b] [a' b'] E. simpl in E.
  apply app_inj_1 in E as [?%(inj sort_key) ?%(inj sort_key)]; [congruence|].
  by rewrite !sort_key_length.
Qed.

Fixpoint lex_compare (l k : list N) : comparison :=
  match l, k with
  | [], [] => Eq
  | [], _ :: _ => Lt
  | _ :: _, [] => Gt
  | x :: l, y :: k => match N.compare x y with Eq => lex_compare l k | c => c end
  end.

Definition key_compare {K} `{SortKey K} (x y : K) : comparison :=
  lex_compare (sort_key x) (sort_key y).

(** ** Data *)

(** The iterator over the candidate rows of a key. *)
Inductive CandidateRowIds :=
| CEmpty
| COne (row_id : option RowId)
| COneThenSlice (first : option RowId) (rest : list RowId)
| CSlice (indexes : list RowId).

(** [Iterator::next] *)
Definition candidates_next (c : CandidateRowIds) : option RowId * CandidateRowIds :=
  match c with
  | CEmpty => (None, CEmpty)
  | COne row_id => (row_id, COne None)
  | COneThenSlice (Some first) rest => (Some first, COneThenSlice None rest)
  | COneThenSlice None (x :: rest) => (Some x, COneThenSlice None rest)
  | COneThenSlice None [] => (None, COneThenSlice None [])
  | CSlice (x :: indexes) => (Some x, CSlice indexes)
  | CSlice [] => (None, CSlice [])
  end.

(** The items still to come. *)
Definition candidate_items (c : CandidateRowIds) : list RowId :=
  match c with
  | CEmpty => []
  | COne row_id => option_list row_id
  | COneThenSlice first rest => option_list first ++ rest
  | CSlice indexes => indexes
  end.

Record RuntimePostingRange := mkRange {
  first_row_id : RowId;
  overflow_start : Z;
  overflow_len : Z
}.

Inductive PostingIndex (K : Type) `{Countable K} :=
| PHash (primary : gmap K RowId) (overflow : gmap K (list RowId))
| PSorted (keys : list K) (ranges : list RuntimePostingRange) (overflow : list RowId).
Arguments PHash {K _ _} primary overflow.
Arguments PSorted {K _ _} keys ranges overflow.

(** ** Operations *)

(** [slice.get(start..end)] *)
Definition slice_get {A} (first last : nat) (l : list A) : option (list A) :=
  if Nat.leb first last && Nat.leb last (length l) then Some (take (last - first) (drop first l))
  else None.

Definition overflow_slice (r : RuntimePostingRange) (overflow : list RowId)
    : option (list RowId) :=
  if (overflow_len r =? 0)%Z then None else
  first ← try_from_uint usize_max (overflow_start r);
  len ← try_from_uint usize_max (overflow_len r);
  last ← checked_add usize_max first len;
  slice_get (Z.to_nat first) (Z.to_nat last) overflow.

(** [RuntimePostingRange::candidates] *)
Definition range_candidates (r : RuntimePostingRange) (overflow : list RowId)
    : CandidateRowIds :=
  match overflow_slice r overflow with
  | Some row_ids => COneThenSlice (Some (first_row_id r)) row_ids
  | None => COne (Some (first_row_id r))
  end.

(** [slice::binary_search], by halving; the fuel is the length. *)
Fixpoint bisect {K} `{SortKey K} (fuel : nat) (keys : list K) (key : K) (left right : nat)
    : option nat :=
  match fuel with
  | O => None
  | S fuel =>
      if Nat.leb right left then None else
      let mid := left + (right - left) / 2 in
      x ← keys !! mid;
      match key_compare x key with
      | Eq => Some mid
      | Lt => bisect fuel keys key (S mid) right
      | Gt => bisect fuel keys key left mid
      end
  end.

Definition binary_search {K} `{SortKey K} (keys : list K) (key : K) : option nat :=
  bisect (S (length keys)) keys key 0 (length keys).

Section posting.
Context {K : Type} `{Countable K} `{SortKey K}.

Definition posting_default : PostingIndex K := PHash ∅ ∅.

(** One step of the loop of [ensure_hash_profile]. *)
Definition hash_profile_step (overflow : list RowId)
    (m : gmap K RowId * gmap K (list RowId)) (p : K * RuntimePostingRange)
    : gmap K RowId * gmap K (list RowId) :=
  (<[p.1 := first_row_id p.2]> m.1,
   match overflow_slice p.2 overflow with
   | Some row_ids => <[p.1 := row_ids]> m.2
   | None => m.2
   end).

Definition ensure_hash_profile (p : PostingIndex K) : PostingIndex K :=
  match p with
  | PHash _ _ => p
  | PSorted keys ranges overflow =>
      let m := foldl (hash_profile_step overflow) (∅, ∅) (zip keys ranges) in
      PHash m.1 m.2
  end.

(** [PostingIndex::insert] *)
Definition posting_insert (key : K) (row_id : RowId) (p : PostingIndex K) : PostingIndex K :=
  match ensure_hash_profile p with
  | PHash primary overflow =>
      match primary !! key with
      | None => PHash (<[key := row_id]> primary) overflow
      | Some _ => PHash primary (<[key := default [] (overflow !! key) ++ [row_id]]> overflow)
      end
  | p => p
  end.

(** [PostingIndex::candidates] *)
Definition posting_candidates (p : PostingIndex K) (key : K) : CandidateRowIds :=
  match p with
  | PHash primary overflow =>
      match primary !! key, overflow !! key with
      | Some row_id, Some row_ids => COneThenSlice (Some row_id) row_ids
      | Some row_id, None => COne (Some row_id)
      | None, Some row_ids => CSlice row_ids
      | None, None => CEmpty
      end
  | PSorted keys ranges overflow =>
      match binary_search keys key with
      | Some index =>
          match ranges !! index with
          | Some range => range_candidates range overflow
          | None => CEmpty
          end
      | None => CEmpty
      end
  end.

(** ** The rows of a key *)

Definition posting (p : PostingIndex K) (key : K) : list RowId :=
  candidate_items (posting_candidates p key).

(** Keys with overflow have a first row; sorted keys are strictly increasing
    and aligned with their ranges. *)
Definition posting_wf (p : PostingIndex K) : Prop :=
  match p with
  | PHash primary overflow => ∀ k, primary !! k = None → overflow !! k = None
  | PSorted keys ranges _ =>
      StronglySorted (λ x y, key_compare x y = Lt) keys ∧ length keys = length ranges
  end.
End posting.

(** [candidates_next] enumerates [candidate_items]. *)
Lemma candidates_next_items c :
  match candidate_items c with
  | [] => (candidates_next c).1 = None
  | x :: l => (candidates_next c).1 = Some x ∧ candidate_items (candidates_next c).2 = l
  end.
Proof. by destruct c as [|[]|[] []|[]]. Qed.

(** ** Lexicographic order *)

Lemma lex_compare_eq l k : lex_compare l k = Eq ↔ l = k.
Proof.
  revert k. induction l as [|x l IH]; intros [|y k]; simpl; try done.
  destruct (N.compare_spec x y) as [->|?|?]; [rewrite IH; naive_solver|..];
    (split; [done|]; intros [= -> ->]; lia).
Qed.

Lemma lex_compare_trans l k m :
  lex_compare l k = Lt → lex_compare k m = Lt → lex_compare l m = Lt.
Proof.
  revert k m. induction l as [|x l IH]; intros [|y k] [|z m]; simpl; try done.
  destruct (N.compare_spec x y) as [->|?|?]; try done;
    destruct (N.compare_spec y z) as [->|?|?]; try done.
  - apply IH.
  - by rewrite (proj2 (N.compare_lt_iff _ _)) by lia.
  - by rewrite (proj2 (N.compare_lt_iff _ _)) by lia.
Qed.

Lemma lex_compare_gt l k : lex_compare l k = Gt ↔ lex_compare k l = Lt.
Proof.
  revert k. induction l as [|x l IH]; intros [|y k]; simpl; try done.
  rewrite (N.compare_antisym x y).
  by destruct (N.compare_spec x y) as [->|?|?]; simpl.
Qed.

Section binary_search.
Context {K : Type} `{SortKey K}.

Lemma key_compare_eq (x y : K) : key_compare x y = Eq ↔ x = y.
Proof.
  unfold key_compare. rewrite lex_compare_eq. split; [apply (inj sort_key)|by intros ->].
Qed.

Lemma key_compare_gt (x y : K) : key_compare x y = Gt ↔ key_compare y x = Lt.
Proof. apply lex_compare_gt. Qed.

Lemma key_compare_irrefl (x : K) : key_compare x x ≠ Lt.
Proof. by rewrite (proj2 (key_compare_eq x x) eq_refl). Qed.

Lemma key_compare_asym (x y : K) : key_compare x y = Lt → key_compare y x ≠ Lt.
Proof. intros Hxy Hyx. eapply key_compare_irrefl, lex_compare_trans; [apply Hxy|apply Hyx]. Qed.

Context {keys : list K}.
Hypothesis Hsorted : StronglySorted (λ x y, key_compare x y = Lt) keys.

Lemma sorted_lookup_lt i j x y :
  keys !! i = Some x → keys !! j = Some y → i < j → key_compare x y = Lt.
Proof.
  intros Hi Hj Hij. rewrite <- (take_drop j keys) in Hsorted, Hi.
  rewrite lookup_app_l in Hi by (rewrite length_take; apply lookup_lt_Some in Hj; lia).
  eapply (StronglySorted_app_1_elem_of _ _ _ _ _ Hsorted); [by eapply list_elem_of_lookup_2|].
  rewrite (drop_S _ _ _ Hj). by left.
Qed.

Lemma bisect_sound fuel key left right i :
  bisect fuel keys key left right = Some i → keys !! i = Some key.
Proof.
  revert left right. induction fuel as [|fuel IH]; intros left right; [done|].
  cbn [bisect]. destruct (Nat.leb right left); [done|].
  intros (x & Hx & Hc)%bind_Some. destruct (key_compare x key) eqn:E; [|by eapply IH..].
  injection Hc as <-. apply key_compare_eq in E. by subst.
Qed.

(** Enough fuel: one more than the length of the interval. *)
Lemma bisect_complete fuel key left right i :
  keys !! i = Some key → left ≤ i < right → right ≤ length keys → right - left < fuel →
  is_Some (bisect fuel keys key left right).
Proof.
  intros Hi. revert left right. induction fuel as [|fuel IH]; intros left right Hlr Hlen Hf; [lia|].
  cbn [bisect]. rewrite (proj2 (Nat.leb_gt _ _)) by lia.
  set (mid := left + (right - left) / 2).
  assert (left ≤ mid < right) as Hmid.
  { unfold mid. pose proof (Nat.div_lt (right - left) 2). lia. }
  destruct (lookup_lt_is_Some_2 keys mid) as [x Hx]; [lia|]. rewrite Hx. simpl.
  destruct (key_compare x key) eqn:E; [eauto|..]; apply IH; try lia.
  - destruct (decide (i ≤ mid)) as [Hle|]; [|lia].
    destruct (decide (i = mid)) as [->|].
    + rewrite Hi in Hx. injection Hx as <-. by apply key_compare_irrefl in E.
    + pose proof (sorted_lookup_lt _ _ _ _ Hi Hx ltac:(lia)) as Hlt.
      by apply key_compare_asym in Hlt.
  - apply key_compare_gt in E. destruct (decide (mid ≤ i)) as [Hle|]; [|lia].
    destruct (decide (i = mid)) as [->|].
    + rewrite Hi in Hx. injection Hx as <-. by apply key_compare_irrefl in E.
    + pose proof (sorted_lookup_lt _ _ _ _ Hx Hi ltac:(lia)) as Hlt.
      by apply key_compare_asym in Hlt.
Qed.

Lemma binary_search_spec key i : binary_search keys key = Some i ↔ keys !! i = Some key.
Proof.
  split; [apply bisect_sound|]. intros Hi.
  destruct (bisect_complete (S (length keys)) key 0 (length keys) i) as [j Hj];
    [done|split; [lia|by eapply lookup_lt_Some]|lia|lia|].
  unfold binary_search. rewrite Hj. apply bisect_sound in Hj. f_equal.
  destruct (Nat.lt_trichotomy i j) as [Hlt|[->|Hlt]]; [|done|].
  - by destruct (key_compare_irrefl key); eapply sorted_lookup_lt; [exact Hi|exact Hj|].
  - by destruct (key_compare_irrefl key); eapply sorted_lookup_lt; [exact Hj|exact Hi|].
Qed.

Lemma binary_search_None key : binary_search keys key = None ↔ key ∉ keys.
Proof.
  rewrite eq_None_not_Some. split; intros Hn; contradict Hn.
  - apply list_elem_of_lookup in Hn as [i Hi]. exists i. by apply binary_search_spec.
  - destruct Hn as [i Hi%binary_search_spec]. by eapply list_elem_of_lookup_2.
Qed.
End binary_search.

(** ** The two forms agree *)

Section posting_lemmas.
Context {K : Type} `{Countable K} `{SortKey K}.
Implicit Types p : PostingIndex K.

Lemma hash_profile_absent overflow (z : list (K * RuntimePostingRange)) m k :
  k ∉ z.*1 →
  (foldl (hash_profile_step overflow) m z).1 !! k = m.1 !! k ∧
  (foldl (hash_profile_step overflow) m z).2 !! k = m.2 !! k.
Proof.
  revert m. induction z as [|[k' r] z IH]; intros m Hk; [done|]. simpl in *.
  apply not_elem_of_cons in Hk as [Hne Hk]. destruct (IH (hash_profile_step overflow m (k', r)) Hk)
    as [-> ->]. simpl. rewrite lookup_insert_ne by done. split; [done|].
  destruct (overflow_slice r overflow); [by rewrite lookup_insert_ne|done].
Qed.

Lemma hash_profile_present overflow (z : list (K * RuntimePostingRange)) m k r :
  NoDup z.*1 → (k, r) ∈ z →
  (foldl (hash_profile_step overflow) m z).1 !! k = Some (first_row_id r) ∧
  (foldl (hash_profile_step overflow) m z).2 !! k =
    match overflow_slice r overflow with Some ids => Some ids | None => m.2 !! k end.
Proof.
  revert m. induction z as [|[k' r'] z IH]; intros m Hnd Hin; [by apply not_elem_of_nil in Hin|].
  simpl in *. apply NoDup_cons in Hnd as [Hk' Hnd]. apply elem_of_cons in Hin as [[= <- <-]|Hin].
  - destruct (hash_profile_absent overflow z (hash_profile_step overflow m (k, r)) k Hk') as [-> ->].
    simpl. rewrite lookup_insert_eq. split; [done|].
    destruct (overflow_slice r overflow); [by rewrite lookup_insert_eq|done].
  - destruct (IH (hash_profile_step overflow m (k', r')) Hnd Hin) as [-> ->]. split; [done|].
    destruct (overflow_slice r overflow); [done|]. simpl.
    assert (k' ≠ k) by (intros ->; apply Hk', list_elem_of_fmap; by exists (k, r)).
    destruct (overflow_slice r' overflow); [by rewrite lookup_insert_ne|done].
Qed.

Lemma strictly_sorted_NoDup (keys : list K) :
  StronglySorted (λ x y, key_compare x y = Lt) keys → NoDup keys.
Proof.
  induction 1 as [|x keys _ IH Hx]; constructor; [|done].
  rewrite Forall_forall in Hx. intros Hin%Hx. by apply key_compare_irrefl in Hin.
Qed.

(** Switching to the hash form changes no key's rows. *)
Lemma ensure_hash_profile_spec p :
  posting_wf p → posting_wf (ensure_hash_profile p) ∧
  ∀ k, posting (ensure_hash_profile p) k = posting p k.
Proof.
  destruct p as [primary overflow|keys ranges overflow]; [done|]. intros [Hs Hlen].
  assert ((zip keys ranges).*1 = keys) as Ez by (apply fst_zip; lia).
  assert (NoDup (zip keys ranges).*1) as Hnd by (rewrite Ez; by apply strictly_sorted_NoDup).
  split.
  - intros k Hk. simpl in *. destruct (decide (k ∈ keys)) as [Hin|Hin].
    + rewrite <- Ez in Hin. apply list_elem_of_fmap in Hin as ([k' r] & -> & Hin).
      destruct (hash_profile_present overflow _ (∅, ∅) _ _ Hnd Hin) as [E _]. simpl in *. congruence.
    + rewrite <- Ez in Hin. by destruct (hash_profile_absent overflow _ (∅, ∅) _ Hin) as [_ ->].
  - intros k. unfold posting, posting_candidates. simpl.
    destruct (binary_search keys k) as [i|] eqn:Ei.
    + apply (binary_search_spec Hs) in Ei.
      destruct (lookup_lt_is_Some_2 ranges i) as [r Hr]; [rewrite <- Hlen; by eapply lookup_lt_Some|].
      rewrite Hr. assert ((k, r) ∈ zip keys ranges) as Hin.
      { apply list_elem_of_lookup. exists i. apply lookup_zip_with_Some. eauto. }
      destruct (hash_profile_present overflow _ (∅, ∅) _ _ Hnd Hin) as [-> ->].
      unfold range_candidates. simpl. rewrite lookup_empty.
      by destruct (overflow_slice r overflow).
    + apply (binary_search_None Hs) in Ei. rewrite <- Ez in Ei.
      destruct (hash_profile_absent overflow _ (∅, ∅) _ Ei) as [-> ->]. simpl.
      by rewrite !lookup_empty.
Qed.

Lemma posting_default_wf : posting_wf (posting_default (K:=K)).
Proof. intros k _. apply lookup_empty. Qed.

Lemma posting_default_nil k : posting (posting_default (K:=K)) k = [].
Proof. unfold posting, posting_candidates. simpl. by rewrite !lookup_empty. Qed.

(** Insertion appends the row to its key's list and touches no other key. *)
Lemma posting_insert_spec p key row_id :
  posting_wf p → posting_wf (posting_insert key row_id p) ∧
  ∀ k, posting (posting_insert key row_id p) k =
       posting p k ++ (if decide (k = key) then [row_id] else []).
Proof.
  intros Hwf. apply ensure_hash_profile_spec in Hwf as [Hwf Hp]. setoid_rewrite <- Hp. clear Hp.
  unfold posting_insert. destruct (ensure_hash_profile p) as [primary overflow|] eqn:E.
  2: { by destruct p. }
  unfold posting, posting_candidates. simpl in Hwf.
  destruct (primary !! key) as [r|] eqn:Er; simpl; split.
  - intros k Hk. rewrite lookup_insert_ne by congruence. by apply Hwf.
  - intros k. case_decide as Ek.
    + subst k. rewrite Er, lookup_insert_eq. by destruct (overflow !! key).
    + rewrite lookup_insert_ne by done. by rewrite app_nil_r.
  - intros k [Hk _]%lookup_insert_None. by apply Hwf.
  - intros k. case_decide as Ek.
    + subst k. by rewrite lookup_insert_eq, Er, (Hwf key Er).
    + rewrite lookup_insert_ne by done. by rewrite app_nil_r.
Qed.
End posting_lemmas.

Section posting_property.
Context {K : Type} `{Countable K} `{SortKey K}.

(** whichever form an index starts from (the hash table of a built store or
    the sorted arrays of a loaded snapshot), after any insertions the candidates
    of a key are its old rows followed by the inserted rows of that key, in
    order. *)
Theorem posting_candidates_correct (p : PostingIndex K) (inserts : list (K * RowId)) (k : K) :
  posting_wf p →
  candidate_items (posting_candidates (foldl (λ p i, posting_insert i.1 i.2 p) p inserts) k) =
  candidate_items (posting_candidates p k) ++ (filter (λ i, k = i.1) inserts).*2.
Proof.
  revert p. induction inserts as [|[k' r] inserts IH]; intros p Hwf; simpl.
  { by rewrite app_nil_r. }
  destruct (posting_insert_spec p k' r Hwf) as [Hwf' Hins].
  rewrite (IH _ Hwf'). change (candidate_items (posting_candidates ?p ?k)) with (posting p k).
  rewrite Hins, <- app_assoc. f_equal. rewrite filter_cons. simpl.
  by case_decide.
Qed.
End posting_property.

Lemma posting_candidates_correct_witness :
  let p := PSorted [(1%positive, None); (1%positive, Some 4%positive); (7%positive, None)]
             [mkRange 2 0 0; mkRange 3 0 2; mkRange 9 0 0] [5%positive; 6%positive] in
  candidate_items (posting_candidates
    (foldl (λ p i, posting_insert i.1 i.2 p) p
       [((1%positive, Some 4%positive), 10%positive); ((7%positive, None), 11%positive)])
    (1%positive, Some 4%positive)) = [3; 5; 6; 10]%positive.
Proof.
  intros p. rewrite posting_candidates_correct; [vm_compute; reflexivity|].
  split; [|reflexivity]. repeat constructor.
Defined.
