(* ===== verification/Row.v ===== *)
(** * Compact rows (src/src/relationship.rs, [RelationshipRow])

    A relationship as six symbols, its index keys and the matchers queries
    compile to, with the correspondence to relationships. *)

From S2P Require Import Prelude Model Domain StoreTypes Interner LiveRows.

(** ** Data *)

(** [RowId::from_len] *)
Definition row_id_from_len : nat → result StoreError RowId :=
  id_from_index "relationship rows".

Record RelationshipRow := mkRow {
  row_id : RowId;
  row_resource_type : SymbolId;
  row_resource_id : SymbolId;
  row_relation : SymbolId;
  row_subject_type : SymbolId;
  row_subject_id : SymbolId;
  row_subject_relation : option SymbolId
}.

(** The fields that [PartialEq] and [Hash] look at: all but the row id. *)
Definition RowIdentity : Type :=
  SymbolId * SymbolId * SymbolId * SymbolId * SymbolId * option SymbolId.

Definition row_identity (r : RelationshipRow) : RowIdentity :=
  (row_resource_type r, row_resource_id r, row_relation r, row_subject_type r,
   row_subject_id r, row_subject_relation r).

(** [PartialEq for RelationshipRow] *)
Definition row_eqb (r s : RelationshipRow) : bool :=
  bool_decide (row_identity r = row_identity s).

#[global] Instance RowIdentity_eq_dec : EqDecision RowIdentity.
Proof. unfold RowIdentity. apply _. Defined.
#[global] Instance RowIdentity_countable : Countable RowIdentity.
Proof. unfold RowIdentity. apply _. Defined.

Section rows.
Context `{Hasher}.

(** [RelationshipRow::identity_hash] *)
Definition identity_hash (r : RelationshipRow) : Z := hash_value (row_identity r).

(** [RelationshipRow::from_relationship] *)
Definition row_from_relationship (row_id : RowId) (r : Relationship)
    : ST IdentifierInterner StoreError RelationshipRow :=
  let! resource_type := intern (as_str (object_type (resource r))) in
  let! resource_id := intern (as_str (object_id (resource r))) in
  let! rel := intern (as_str (relation r)) in
  match subject r with
  | SubjectObject object =>
      let! subject_type := intern (as_str (object_type object)) in
      let! subject_id := intern (as_str (object_id object)) in
      st_ret (mkRow row_id resource_type resource_id rel subject_type subject_id None)
  | SubjectUserset object subject_rel =>
      let! subject_type := intern (as_str (object_type object)) in
      let! subject_id := intern (as_str (object_id object)) in
      let! subject_rel := intern (as_str subject_rel) in
      st_ret (mkRow row_id resource_type resource_id rel subject_type subject_id
                (Some subject_rel))
  end.

(** [RelationshipRow::from_existing_relationship] *)
Definition row_from_existing (r : Relationship) (st : IdentifierInterner)
    : option RelationshipRow :=
  resource_type ← lookup st (as_str (object_type (resource r)));
  resource_id ← lookup st (as_str (object_id (resource r)));
  rel ← lookup st (as_str (relation r));
  match subject r with
  | SubjectObject object =>
      subject_type ← lookup st (as_str (object_type object));
      subject_id ← lookup st (as_str (object_id object));
      Some (mkRow 1 resource_type resource_id rel subject_type subject_id None)
  | SubjectUserset object subject_rel =>
      subject_type ← lookup st (as_str (object_type object));
      subject_id ← lookup st (as_str (object_id object));
      subject_rel ← lookup st (as_str subject_rel);
      Some (mkRow 1 resource_type resource_id rel subject_type subject_id (Some subject_rel))
  end.
End rows.

(** [ObjectType::try_from(self.interner.resolve(id)?)?] and its siblings. *)
Definition resolve_ident (kind : IdentifierKind) (st : IdentifierInterner) (id : SymbolId)
    : result StoreError (Ident kind) :=
  value ← resolve st id;
  map_err store_error_of_domain (ident_new kind value).

(** [IndexedRelationshipStore::relationship_from_row] *)
Definition relationship_from_row (st : IdentifierInterner) (row : RelationshipRow)
    : result StoreError Relationship :=
  resource_type ← resolve_ident KObjectType st (row_resource_type row);
  resource_id ← resolve_ident KObjectId st (row_resource_id row);
  rel ← resolve_ident KRelationName st (row_relation row);
  subject_type ← resolve_ident KObjectType st (row_subject_type row);
  subject_id ← resolve_ident KObjectId st (row_subject_id row);
  let subject_object := mkObjectRef subject_type subject_id in
  subject ← match row_subject_relation row with
            | Some rel => SubjectUserset subject_object <$> resolve_ident KRelationName st rel
            | None => Ok (SubjectObject subject_object)
            end;
  Ok (mkRelationship (mkObjectRef resource_type resource_id) rel subject).

(** [relationship_identifier_values]: the visited strings, in order. *)
Definition relationship_identifier_values (r : Relationship) : list string :=
  [as_str (object_type (resource r)); as_str (object_id (resource r)); as_str (relation r)] ++
  match subject r with
  | SubjectObject object => [as_str (object_type object); as_str (object_id object)]
  | SubjectUserset object rel =>
      [as_str (object_type object); as_str (object_id object); as_str rel]
  end.

(** ** Index keys *)

Definition ResourceIndexKey : Type := SymbolId * SymbolId * SymbolId.
Definition ResourceObjectIndexKey : Type := SymbolId * SymbolId.
Definition ResourceTypeRelationIndexKey : Type := SymbolId * SymbolId.
Definition SubjectIndexKey : Type := SymbolId * SymbolId * option SymbolId.
Definition SubjectTypeRelationIndexKey : Type := SymbolId * SymbolId.

Definition resource_key (r : RelationshipRow) : ResourceIndexKey :=
  (row_resource_type r, row_resource_id r, row_relation r).
Definition resource_object_key (r : RelationshipRow) : ResourceObjectIndexKey :=
  (row_resource_type r, row_resource_id r).
Definition resource_type_relation_key (r : RelationshipRow) : ResourceTypeRelationIndexKey :=
  (row_resource_type r, row_relation r).

(** [SubjectIndexKey::from_row]: a userset row is also found without its relation. *)
Definition subject_keys (r : RelationshipRow) : list SubjectIndexKey :=
  match row_subject_relation r with
  | Some rel => [(row_subject_type r, row_subject_id r, Some rel);
                 (row_subject_type r, row_subject_id r, None)]
  | None => [(row_subject_type r, row_subject_id r, None)]
  end.

(** [SubjectTypeRelationIndexKey::from_row] *)
Definition subject_type_relation_key (r : RelationshipRow)
    : option SubjectTypeRelationIndexKey :=
  (λ rel, (row_subject_type r, rel)) <$> row_subject_relation r.

(** ** Matchers *)

Record SubjectMatcher := mkSubjectMatcher {
  sm_subject_type : SymbolId;
  sm_optional_subject_id : option SymbolId;
  sm_optional_relation : option SymbolId
}.

Record ResourceMatcher := mkResourceMatcher {
  rm_resource_type : SymbolId;
  rm_optional_resource_id : option SymbolId;
  rm_optional_relation : option SymbolId;
  rm_optional_subject : option SubjectMatcher;
  rm_remaining : N
}.

(** [Option::is_none_or] *)
Definition is_none_or {A} (p : A → bool) (o : option A) : bool :=
  match o with Some a => p a | None => true end.

Definition matches_subject (r : RelationshipRow) (m : SubjectMatcher) : bool :=
  bool_decide (row_subject_type r = sm_subject_type m) &&
  is_none_or (λ i, bool_decide (row_subject_id r = i)) (sm_optional_subject_id m) &&
  is_none_or (λ rel, bool_decide (row_subject_relation r = Some rel)) (sm_optional_relation m).

Definition matches_resource (r : RelationshipRow) (m : ResourceMatcher) : bool :=
  bool_decide (row_resource_type r = rm_resource_type m) &&
  is_none_or (λ i, bool_decide (row_resource_id r = i)) (rm_optional_resource_id m) &&
  is_none_or (λ rel, bool_decide (row_relation r = rel)) (rm_optional_relation m) &&
  is_none_or (matches_subject r) (rm_optional_subject m).

(** ** Rows and relationships

    Over an interner that stands for the strings [l], a row stands for the
    relationship whose identifiers its symbols denote. *)

Definition denotes {kind} (l : list string) (id : SymbolId) (i : Ident kind) : Prop :=
  l !! id_index id = Some (as_str i).

Definition subject_denotes (l : list string) (row : RelationshipRow) (s : SubjectRef) : Prop :=
  denotes l (row_subject_type row) (object_type (subject_object s)) ∧
  denotes l (row_subject_id row) (object_id (subject_object s)) ∧
  match row_subject_relation row, subject_relation s with
  | None, None => True
  | Some id, Some rel => denotes l id rel
  | _, _ => False
  end.

Definition row_denotes (l : list string) (row : RelationshipRow) (r : Relationship) : Prop :=
  denotes l (row_resource_type row) (object_type (resource r)) ∧
  denotes l (row_resource_id row) (object_id (resource r)) ∧
  denotes l (row_relation row) (relation r) ∧
  subject_denotes l row (subject r).

(** The list after interning several strings. *)
Definition interned (l : list string) (vs : list string) : list string :=
  foldl intern_list l vs.

Definition interns_fit (l vs : list string) : Prop :=
  (Z.of_nat (length (interned l vs)) ≤ u32_max ∧
   Z.of_nat (total_len (interned l vs)) ≤ u32_max)%Z.

Lemma denotes_inj {kind} l id (i j : Ident kind) : denotes l id i → denotes l id j → i = j.
Proof. unfold denotes. intros Hi Hj. apply ident_eq. congruence. Qed.

Lemma denotes_unique {kind} l i j (x : Ident kind) :
  NoDup l → denotes l i x → denotes l j x → i = j.
Proof. intros Hl Hi Hj. apply (inj id_index). by eapply NoDup_lookup. Qed.

Lemma denotes_mono {kind} l k id (i : Ident kind) :
  l `prefix_of` k → denotes l id i → denotes k id i.
Proof. intros [m ->]. apply lookup_app_l_Some. Qed.

Lemma row_denotes_mono l k row r : l `prefix_of` k → row_denotes l row r → row_denotes k row r.
Proof.
  intros Hp (H1 & H2 & H3 & H4 & H5 & H6).
  split_and!; try by eapply denotes_mono. split_and!; try by eapply denotes_mono.
  destruct (row_subject_relation row), (subject_relation (subject r)); try done.
  by eapply denotes_mono.
Qed.

Lemma object_ref_eq o p :
  object_type o = object_type p → object_id o = object_id p → o = p.
Proof. destruct o, p; simpl. congruence. Qed.

Lemma subject_ref_eq s t :
  subject_object s = subject_object t → subject_relation s = subject_relation t → s = t.
Proof. destruct s, t; simpl; congruence. Qed.

(** A row stands for at most one relationship. *)
Lemma row_denotes_functional l row r r' : row_denotes l row r → row_denotes l row r' → r = r'.
Proof.
  destruct r as [o rel s], r' as [o' rel' s'].
  intros (H1 & H2 & H3 & H4 & H5 & H6) (H1' & H2' & H3' & H4' & H5' & H6'); simpl in *.
  f_equal.
  - apply object_ref_eq; by eapply denotes_inj.
  - by eapply denotes_inj.
  - apply subject_ref_eq; [apply object_ref_eq; by eapply denotes_inj|].
    destruct (row_subject_relation row), (subject_relation s), (subject_relation s'); try done.
    f_equal. by eapply denotes_inj.
Qed.

(** A relationship has at most one row, up to the row id. *)
Lemma row_denotes_identity l row row' r :
  NoDup l → row_denotes l row r → row_denotes l row' r → row_identity row = row_identity row'.
Proof.
  intros Hl (H1 & H2 & H3 & H4 & H5 & H6) (H1' & H2' & H3' & H4' & H5' & H6').
  unfold row_identity.
  rewrite (denotes_unique l _ _ _ Hl H1 H1'), (denotes_unique l _ _ _ Hl H2 H2'),
    (denotes_unique l _ _ _ Hl H3 H3'), (denotes_unique l _ _ _ Hl H4 H4'),
    (denotes_unique l _ _ _ Hl H5 H5').
  f_equal. destruct (row_subject_relation row), (row_subject_relation row'),
    (subject_relation (subject r)); try done.
  f_equal. by eapply denotes_unique.
Qed.

(** Rows that compare equal stand for the same relationship. *)
Lemma row_denotes_eqv l row row' r :
  row_identity row = row_identity row' → row_denotes l row r → row_denotes l row' r.
Proof.
  destruct row, row'. unfold row_identity. simpl. intros [= <- <- <- <- <- <-]. done.
Qed.

Lemma intern_list_prefix l v : l `prefix_of` intern_list l v.
Proof. unfold intern_list. case_decide; [done|]. by apply prefix_app_r. Qed.

Lemma interned_prefix l vs : l `prefix_of` interned l vs.
Proof.
  revert l. induction vs as [|v vs IH]; intros l; simpl; [done|].
  etrans; [apply intern_list_prefix|apply IH].
Qed.

Lemma interned_app l vs ws : interned l (vs ++ ws) = interned (interned l vs) ws.
Proof. apply foldl_app. Qed.

Lemma prefix_total_len l k : l `prefix_of` k → total_len l ≤ total_len k.
Proof. intros [m ->]. rewrite total_len_app. lia. Qed.

Section rep.
Context `{Hasher} {st : IdentifierInterner} {l : list string}.
Hypothesis Hrep : interner_rep st l.

Lemma lookup_denotes {kind} (i : Ident kind) id :
  lookup st (as_str i) = Some id ↔ denotes l id i.
Proof. apply (lookup_spec Hrep). Qed.

Lemma resolve_ident_Ok {kind} id (i : Ident kind) :
  resolve_ident kind st id = Ok i ↔ denotes l id i.
Proof.
  unfold resolve_ident, denotes. rewrite <- (resolve_Ok Hrep). split.
  - intros (v & Hv & Hi%map_err_Ok%ident_new_Ok)%bind_Ok. by rewrite Hi.
  - intros Hv. rewrite Hv. simpl. by rewrite ident_new_as_str.
Qed.

(** Finding the row of a relationship: exactly when all its identifiers are
    interned. *)
Lemma row_from_existing_Some r row :
  row_from_existing r st = Some row ↔ row_id row = 1%positive ∧ row_denotes l row r.
Proof.
  unfold row_from_existing, row_denotes, subject_denotes. split.
  - intros (a & Ha%lookup_denotes & (b & Hb%lookup_denotes & (c & Hc%lookup_denotes & H1)%bind_Some)%bind_Some)%bind_Some.
    destruct (subject r) as [o|o rel]; simpl in *.
    + apply bind_Some in H1 as (d & Hd%lookup_denotes & (e & He%lookup_denotes & [= <-])%bind_Some).
      done.
    + apply bind_Some in H1 as (d & Hd%lookup_denotes & (e & He%lookup_denotes & H1)%bind_Some).
      apply bind_Some in H1 as (f & Hf%lookup_denotes & [= <-]). done.
  - intros (Hid & Ha%lookup_denotes & Hb%lookup_denotes & Hc%lookup_denotes
            & Hd%lookup_denotes & He%lookup_denotes & Hf).
    destruct row as [i a b c d e f]; simpl in *. subst i. rewrite Ha, Hb, Hc. simpl.
    destruct (subject r) as [o|o rel], f as [f|]; simpl in *; try done; rewrite Hd, He; [done|].
    apply lookup_denotes in Hf. by rewrite Hf.
Qed.

(** Materialising a row gives back the relationship it stands for. *)
Lemma relationship_from_row_Ok row r :
  relationship_from_row st row = Ok r ↔ row_denotes l row r.
Proof.
  unfold relationship_from_row, row_denotes, subject_denotes. split.
  - intros (a & Ha%resolve_ident_Ok & (b & Hb%resolve_ident_Ok & (c & Hc%resolve_ident_Ok &
      (d & Hd%resolve_ident_Ok & (e & He%resolve_ident_Ok & (s & Hs & [= <-])%bind_Ok)%bind_Ok)%bind_Ok)%bind_Ok)%bind_Ok)%bind_Ok.
    simpl. destruct (row_subject_relation row) as [f|].
    + apply fmap_Ok in Hs as (rel & Hf%resolve_ident_Ok & ->). done.
    + injection Hs as <-. done.
  - intros (Ha%resolve_ident_Ok & Hb%resolve_ident_Ok & Hc%resolve_ident_Ok
            & Hd%resolve_ident_Ok & He%resolve_ident_Ok & Hf).
    rewrite Ha. simpl. rewrite Hb. simpl. rewrite Hc. simpl. rewrite Hd. simpl. rewrite He. simpl.
    destruct r as [[? ?] ? [[? ?]|[? ?] rel]], (row_subject_relation row) as [f|]; simpl in *; try done.
    apply resolve_ident_Ok in Hf. by rewrite Hf.
Qed.

Lemma row_from_existing_None r row' :
  row_from_existing r st = None → ¬ row_denotes l row' r.
Proof.
  intros Hn Hd. assert (row_from_existing r st = Some (mkRow 1 (row_resource_type row')
    (row_resource_id row') (row_relation row') (row_subject_type row') (row_subject_id row')
    (row_subject_relation row'))) as E; [|congruence].
  apply row_from_existing_Some. split; [done|]. by eapply row_denotes_eqv; [|exact Hd].
Qed.
End rep.

(** ** Interning a relationship *)

(** An interner that uses its hash index, as every interner does that was not
    loaded from a trusted snapshot. *)
Definition interner_hash `{Hasher} (st : IdentifierInterner) (l : list string) : Prop :=
  interner_rep st l ∧ sorted_lookup st = [].

Lemma step_fits l v vs : interns_fit l (v :: vs) → intern_fits l v.
Proof.
  intros [Hlen Htot]. unfold intern_fits. destruct (decide (v ∈ l)); [by left|right].
  simpl in *. pose proof (interned_prefix (intern_list l v) vs) as Hp.
  pose proof (prefix_length _ _ Hp). pose proof (prefix_total_len _ _ Hp).
  unfold intern_list in *. rewrite decide_False in * by done.
  rewrite length_app, total_len_app in *. simpl in *. lia.
Qed.

Section interning.
Context `{Hasher}.

Fixpoint intern_all (vs : list string) : ST IdentifierInterner StoreError (list SymbolId) :=
  match vs with
  | [] => st_ret []
  | v :: vs => let! id := intern v in let! ids := intern_all vs in st_ret (id :: ids)
  end.

Lemma wp_intern_all vs st l :
  interner_hash st l → Forall (λ v, utf8_valid v = true) vs →
  wp (intern_all vs) st
    (λ ids st', interner_hash st' (interned l vs) ∧
                Forall2 (λ id v, interned l vs !! id_index id = Some v) ids vs)
    (λ e st', (∃ c, e = CapacityExceeded c) ∧ ¬ interns_fit l vs ∧
              ∃ l', l `prefix_of` l' ∧ interner_hash st' l').
Proof.
  intros Hst Hvs. revert st l Hst. induction Hvs as [|v vs Hv Hvs IH]; intros st l [Hrep Hm].
  { unfold wp. simpl. split; [done|constructor]. }
  simpl. apply wp_bind. unfold wp at 1.
  destruct (intern v st) as [[id|e] st1] eqn:E;
    pose proof (intern_spec _ _ _ _ _ Hrep Hv E) as Hspec; simpl in Hspec.
  - destruct Hspec as (Hrep1 & Hid & Hm1). apply wp_bind.
    eapply wp_mono; [| |by apply IH; split; auto].
    + intros ids st' [Hst' Hids]. unfold wp. simpl. split; [done|]. constructor; [|done].
      pose proof (interned_prefix (intern_list l v) vs) as [m ->].
      by apply lookup_app_l_Some.
    + intros e st' (Hc & Hn & l' & Hp & Hst'). split_and!; [done|done|].
      exists l'. split; [|done]. etrans; [apply intern_list_prefix|done].
  - destruct Hspec as (Hc & Hn & _ & _ & Hkeep). specialize (Hkeep Hm) as [Hm1 Hrep1].
    split_and!; [done|by intros Hfit%step_fits|]. exists l. done.
Qed.

(** The row of freshly interned symbols. *)
Definition row_of_symbols (row_id : RowId) (ids : list SymbolId) : option RelationshipRow :=
  match ids with
  | [a; b; c; d; e] => Some (mkRow row_id a b c d e None)
  | [a; b; c; d; e; f] => Some (mkRow row_id a b c d e (Some f))
  | _ => None
  end.

Lemma row_from_relationship_symbols i r st :
  match intern_all (relationship_identifier_values r) st with
  | (Ok ids, st') => ∃ row, row_of_symbols i ids = Some row ∧
                            row_from_relationship i r st = (Ok row, st')
  | (Err e, st') => row_from_relationship i r st = (Err e, st')
  end.
Proof.
  unfold row_from_relationship, relationship_identifier_values, st_bind, st_ret.
  destruct (subject r) as [o|o rel]; cbn [intern_all app];
    unfold st_bind, st_ret;
    repeat (destruct (intern _ _) as [[?|?] ?]; [|reflexivity]); eauto.
Qed.

Lemma identifier_values_utf8 r :
  Forall (λ v, utf8_valid v = true) (relationship_identifier_values r).
Proof.
  unfold relationship_identifier_values. destruct (subject r); simpl;
    repeat constructor; auto with zz.
Qed.

Lemma wp_row_from_relationship i r st l :
  interner_hash st l →
  wp (row_from_relationship i r) st
    (λ row st', interner_hash st' (interned l (relationship_identifier_values r)) ∧
                row_denotes (interned l (relationship_identifier_values r)) row r ∧
                row_id row = i)
    (λ e st', (∃ c, e = CapacityExceeded c) ∧
              ¬ interns_fit l (relationship_identifier_values r) ∧
              ∃ l', l `prefix_of` l' ∧ interner_hash st' l').
Proof.
  intros Hst. pose proof (wp_intern_all _ _ _ Hst (identifier_values_utf8 r)) as Hall.
  pose proof (row_from_relationship_symbols i r st) as Hrow. unfold wp in *.
  destruct (intern_all _ st) as [[ids|e] st']; [|by rewrite Hrow].
  destruct Hrow as (row & Hids & ->). destruct Hall as [Hst' HF]. split; [done|].
  revert HF. generalize (interned l (relationship_identifier_values r)). intros k HF.
  unfold row_denotes, subject_denotes, denotes. unfold relationship_identifier_values in HF.
  destruct (subject r) as [o|o rel]; simpl in HF.
  all: repeat match type of HF with
       | Forall2 _ _ (_ :: _) =>
           let H' := fresh in
           apply Forall2_cons_inv_r in HF as (? & ? & ? & H' & ->); rename H' into HF
       end; apply Forall2_nil_inv_r in HF as ->; simpl in Hids; injection Hids as <-; simpl;
       auto 10.
Qed.
End interning.

(** ** The interner as a dictionary *)

Section dictionary.
Context `{Hasher}.

(** interning strings one after the other, whatever hashes collide: every
    returned symbol resolves to its string and is what looking the string up
    finds, and exactly the interned strings are found. *)
Theorem interner_dictionary vs ids st :
  Forall (λ v, utf8_valid v = true) vs →
  intern_all vs interner_default = (Ok ids, st) →
  Forall2 (λ id v, resolve st id = Ok v ∧ lookup st v = Some id) ids vs ∧
  ∀ v, is_Some (lookup st v) ↔ v ∈ vs.
Proof.
  intros Hvs E.
  pose proof (wp_elim _ _ _ _ _ _ (wp_intern_all vs interner_default []
    (conj interner_rep_default eq_refl) Hvs) E) as [[Hrep _] Hids].
  assert (∀ l v, v ∈ interned l vs ↔ v ∈ l ∨ v ∈ vs) as Hmem.
  { clear. induction vs as [|x vs IH]; intros l v; simpl.
    - split; [by left|]. intros [?|?%not_elem_of_nil]; done.
    - rewrite IH, elem_of_intern_list, elem_of_cons. tauto. }
  split.
  - eapply Forall2_impl; [exact Hids|]. intros id v Hv.
    by rewrite (resolve_Ok Hrep), (lookup_spec Hrep).
  - intros v. split.
    + intros [id Hid%(lookup_spec Hrep)%list_elem_of_lookup_2].
      apply Hmem in Hid as [?%not_elem_of_nil|]; done.
    + intros Hv. assert (v ∈ interned [] vs) as Hin by (apply Hmem; by right).
      apply list_elem_of_lookup in Hin as [i Hi]. exists (index_id i).
      apply (lookup_spec Hrep). by rewrite id_index_id.
Qed.
End dictionary.

Lemma interner_dictionary_witness :
  match @intern_all constant_hasher ["doc"; "readme"; "viewer"; "doc"] interner_default with
  | (Ok ids, st) => ids = [1; 2; 3; 1]%positive ∧
                    is_Some (@lookup constant_hasher st "viewer")
  | _ => False
  end.
Proof.
  destruct (@intern_all constant_hasher ["doc"; "readme"; "viewer"; "doc"] interner_default)
    as [[ids|e] st] eqn:E.
  - split; [vm_compute in E; injection E as <- _; reflexivity|].
    apply (@interner_dictionary constant_hasher ["doc"; "readme"; "viewer"; "doc"] ids st);
      [repeat constructor|exact E|right; right; left].
  - vm_compute in E. discriminate E.
Defined.
