(* ===== verification/Identity.v ===== *)
(** * Duplicate detection (src/src/relationship.rs, [RelationshipIdentityIndex])

    Live rows by the hash of their six symbols, with collision lists. The index
    answers "is this relationship present" in constant time; the results here
    hold for every hash function. *)

From S2P Require Import Prelude StoreTypes Interner LiveRows Row.

Record RelationshipIdentityIndex := mkIdentity {
  id_primary : gmap Z RowId;
  id_collisions : gmap Z (list RowId)
}.

Definition identity_default : RelationshipIdentityIndex := mkIdentity ∅ ∅.

(** [Vec::swap_remove] for an index in range. *)
Definition swap_remove {A} (i : nat) (l : list A) : list A :=
  match last l with
  | Some z => if Nat.eqb (S i) (length l) then take i l
              else <[i := z]> (take (length l - 1) l)
  | None => l
  end.

(** [rows.get(row_id.index()).is_some_and(|candidate| candidate == row)] *)
Definition same_row (rows : list RelationshipRow) (row : RelationshipRow) (r : RowId) : bool :=
  match rows !! id_index r with Some candidate => row_eqb candidate row | None => false end.

(** The same test with [candidate != row]. *)
Definition other_row (rows : list RelationshipRow) (row : RelationshipRow) (r : RowId) : bool :=
  match rows !! id_index r with Some candidate => negb (row_eqb candidate row) | None => false end.

Section identity.
Context `{Hasher}.

Definition identity_find (ix : RelationshipIdentityIndex) (rows : list RelationshipRow)
    (row : RelationshipRow) : option RowId :=
  let hash := identity_hash row in
  let in_collisions :=
    row_ids ← id_collisions ix !! hash; find_first (same_row rows row) row_ids in
  match id_primary ix !! hash with
  | Some row_id => if same_row rows row row_id then Some row_id else in_collisions
  | None => in_collisions
  end.

Definition identity_insert (ix : RelationshipIdentityIndex) (rows : list RelationshipRow)
    (row_id : RowId) (row : RelationshipRow) : RelationshipIdentityIndex :=
  let hash := identity_hash row in
  match id_primary ix !! hash with
  | Some existing =>
      if other_row rows row existing then
        mkIdentity (id_primary ix)
          (<[hash := default [] (id_collisions ix !! hash) ++ [row_id]]> (id_collisions ix))
      else ix
  | None => mkIdentity (<[hash := row_id]> (id_primary ix)) (id_collisions ix)
  end.

(** [collisions.pop()] after removing the primary row. *)
Definition promote (ix : RelationshipIdentityIndex) (hash : Z) : RelationshipIdentityIndex :=
  let primary := delete hash (id_primary ix) in
  match id_collisions ix !! hash with
  | Some collisions =>
      match last collisions with
      | Some promoted =>
          let rest := take (length collisions - 1) collisions in
          mkIdentity (<[hash := promoted]> primary)
            (if bool_decide (rest = []) then delete hash (id_collisions ix)
             else <[hash := rest]> (id_collisions ix))
      | None => mkIdentity primary (id_collisions ix)
      end
  | None => mkIdentity primary (id_collisions ix)
  end.

Definition remove_collision (ix : RelationshipIdentityIndex) (rows : list RelationshipRow)
    (row : RelationshipRow) : option (RowId * RelationshipIdentityIndex) :=
  let hash := identity_hash row in
  collisions ← id_collisions ix !! hash;
  index ← fst <$> list_find (λ r, same_row rows row r = true) collisions;
  removed ← collisions !! index;
  let rest := swap_remove index collisions in
  Some (removed,
        mkIdentity (id_primary ix)
          (if bool_decide (rest = []) then delete hash (id_collisions ix)
           else <[hash := rest]> (id_collisions ix))).

Definition identity_remove (ix : RelationshipIdentityIndex) (rows : list RelationshipRow)
    (row : RelationshipRow) : option (RowId * RelationshipIdentityIndex) :=
  let hash := identity_hash row in
  match id_primary ix !! hash with
  | Some row_id =>
      if same_row rows row row_id then Some (row_id, promote ix hash)
      else remove_collision ix rows row
  | None => remove_collision ix rows row
  end.

(** ** The rows of a hash *)

Definition bucket (ix : RelationshipIdentityIndex) (hash : Z) : list RowId :=
  option_list (id_primary ix !! hash) ++ default [] (id_collisions ix !! hash).

(** A hash with collisions has a primary row, and no collision list is empty. *)
Record buckets_wf (ix : RelationshipIdentityIndex) : Prop := {
  bw_primary h : id_primary ix !! h = None → id_collisions ix !! h = None;
  bw_nonempty h : id_collisions ix !! h ≠ Some []
}.

Lemma buckets_wf_default : buckets_wf identity_default.
Proof. split; intros h; simpl; by rewrite lookup_empty. Qed.

Lemma bucket_default h : bucket identity_default h = [].
Proof. unfold bucket. simpl. by rewrite !lookup_empty. Qed.

Lemma same_row_true rows row r :
  same_row rows row r = true ↔
  ∃ c, rows !! id_index r = Some c ∧ row_identity c = row_identity row.
Proof.
  unfold same_row, row_eqb. destruct (rows !! id_index r) as [c|].
  - rewrite bool_decide_eq_true. split; [by exists c|]. by intros (? & [= <-] & ?).
  - split; [done|]. by intros (? & ? & _).
Qed.

(** [find] is a search of the bucket. *)
Lemma identity_find_bucket ix rows row :
  identity_find ix rows row = find_first (same_row rows row) (bucket ix (identity_hash row)).
Proof.
  unfold identity_find, bucket. destruct (id_primary ix !! identity_hash row) as [r|]; simpl;
    [destruct (same_row rows row r); [done|]|];
    by destruct (id_collisions ix !! identity_hash row).
Qed.

Lemma identity_insert_bucket ix rows row_id row :
  buckets_wf ix →
  (∀ r, r ∈ bucket ix (identity_hash row) → other_row rows row r = true) →
  buckets_wf (identity_insert ix rows row_id row) ∧
  ∀ h, bucket (identity_insert ix rows row_id row) h =
       bucket ix h ++ (if decide (h = identity_hash row) then [row_id] else []).
Proof.
  intros [Hp Hc] Hother. unfold identity_insert, bucket in *.
  destruct (id_primary ix !! identity_hash row) as [e|] eqn:E; simpl in *.
  - rewrite (Hother e) by (by left). split; [split|]; simpl; intros h.
    + intros Hh. rewrite lookup_insert_ne by congruence. by apply Hp.
    + intros [[_ [_ ?]%app_eq_nil]|[_ Hn]]%lookup_insert_Some; [done|by eapply Hc].
    + case_decide as Eh; [subst h|].
      * rewrite lookup_insert_eq. simpl. by rewrite app_assoc.
      * rewrite lookup_insert_ne by done. by rewrite app_nil_r.
  - split; [split|]; simpl; intros h.
    + intros [Hh _]%lookup_insert_None. by apply Hp.
    + apply Hc.
    + case_decide as Eh; [subst h|].
      * by rewrite lookup_insert_eq, E, (Hp _ E).
      * rewrite lookup_insert_ne by done. by rewrite app_nil_r.
Qed.

Lemma swap_remove_perm {A} i (l : list A) x : l !! i = Some x → l ≡ₚ x :: swap_remove i l.
Proof.
  intros Hi. unfold swap_remove.
  destruct l as [|z l _] using rev_ind; [done|].
  rewrite last_snoc, length_app. change (length [z]) with 1.
  destruct (Nat.eqb_spec (S i) (length l + 1)) as [E|E].
  - rewrite lookup_app_r in Hi by lia. replace (i - length l) with 0 in Hi by lia.
    injection Hi as <-. rewrite take_app_length' by lia. symmetry. apply Permutation_cons_append.
  - assert (i < length l) as Hlt.
    { apply lookup_lt_Some in Hi. rewrite length_app in Hi. simpl in Hi. lia. }
    rewrite lookup_app_l in Hi by done. rewrite take_app_length' by lia.
    rewrite (insert_take_drop _ _ _ Hlt).
    assert (l = take i l ++ x :: drop (S i) l) as El by (by rewrite take_drop_middle).
    rewrite El at 1. generalize (take i l), (drop (S i) l). intros a b.
    rewrite <- !Permutation_middle, app_nil_r. apply perm_swap.
Qed.

Lemma last_split {A} (l : list A) z : last l = Some z → l = take (length l - 1) l ++ [z].
Proof.
  destruct l as [|y l _] using rev_ind; [done|]. rewrite last_snoc, length_app. simpl.
  intros [= ->]. by rewrite Nat.add_sub, take_app_length.
Qed.

(** Replacing a hash's collisions by a shorter list, dropping it when empty. *)
Lemma shrink_collisions (m : gmap Z (list RowId)) hash rest :
  let m' := if bool_decide (rest = []) then delete hash m else <[hash := rest]> m in
  default [] (m' !! hash) = rest ∧ m' !! hash ≠ Some [] ∧ ∀ h, h ≠ hash → m' !! h = m !! h.
Proof.
  simpl. case_bool_decide as Er.
  - rewrite lookup_delete_eq, Er. split_and!; [done|done|].
    intros h Hh. by rewrite lookup_delete_ne.
  - rewrite lookup_insert_eq. split_and!; [done|by intros [= ->]|].
    intros h Hh. by rewrite lookup_insert_ne.
Qed.

Lemma promote_bucket ix hash r :
  buckets_wf ix → id_primary ix !! hash = Some r →
  buckets_wf (promote ix hash) ∧
  bucket ix hash ≡ₚ r :: bucket (promote ix hash) hash ∧
  ∀ h, h ≠ hash → bucket (promote ix hash) h = bucket ix h.
Proof.
  intros [Hp Hn] Hr. unfold promote, bucket. rewrite Hr. simpl.
  destruct (id_collisions ix !! hash) as [c|] eqn:Ec; simpl.
  - destruct (last c) as [z|] eqn:Ez; [|apply last_None in Ez as ->; by destruct (Hn hash)].
    apply last_split in Ez. set (rest := take (length c - 1) c) in *. simpl.
    destruct (shrink_collisions (id_collisions ix) hash rest) as (Em & Hne & Hm).
    split_and!; [split|..]; simpl.
    + intros h [Hh Hneq]%lookup_insert_None. rewrite Hm by done.
      rewrite lookup_delete_ne in Hh by done. by apply Hp.
    + intros h. destruct (decide (h = hash)) as [->|]; [done|]. rewrite Hm by done. apply Hn.
    + rewrite lookup_insert_eq, Em. simpl. rewrite Ez at 1. by rewrite Permutation_app_comm.
    + intros h Hh. rewrite lookup_insert_ne, lookup_delete_ne by done. by rewrite Hm.
  - split_and!; [split|..]; simpl.
    + intros h Hh. destruct (decide (h = hash)) as [->|]; [done|].
      rewrite lookup_delete_ne in Hh by done. by apply Hp.
    + apply Hn.
    + by rewrite lookup_delete_eq, Ec.
    + intros h Hh. by rewrite lookup_delete_ne.
Qed.

Lemma remove_collision_bucket ix rows row :
  buckets_wf ix →
  (∀ r, id_primary ix !! identity_hash row = Some r → same_row rows row r = false) →
  match remove_collision ix rows row with
  | Some (r, ix') =>
      same_row rows row r = true ∧ buckets_wf ix' ∧
      bucket ix (identity_hash row) ≡ₚ r :: bucket ix' (identity_hash row) ∧
      ∀ h, h ≠ identity_hash row → bucket ix' h = bucket ix h
  | None => ∀ r, r ∈ bucket ix (identity_hash row) → same_row rows row r = false
  end.
Proof.
  intros [Hp Hn] Hprim. unfold remove_collision, bucket.
  set (hash := identity_hash row) in *.
  assert (∀ r, r ∈ option_list (id_primary ix !! hash) → same_row rows row r = false) as Hprim'.
  { intros r Hr. destruct (id_primary ix !! hash) as [e|]; [|by apply not_elem_of_nil in Hr].
    apply list_elem_of_singleton in Hr as ->. by apply Hprim. }
  destruct (id_collisions ix !! hash) as [c|] eqn:Ec; simpl.
  2: { intros r [Hr|Hr]%elem_of_app; [auto|by apply not_elem_of_nil in Hr]. }
  destruct (list_find _ c) as [[i x]|] eqn:Ef; simpl.
  - apply list_find_Some in Ef as (Hi & Hx & _). rewrite Hi. simpl.
    destruct (shrink_collisions (id_collisions ix) hash (swap_remove i c)) as (Em & Hne & Hm).
    split_and!; [done|split|..]; simpl.
    + intros h Hh. destruct (decide (h = hash)) as [->|]; [by rewrite (Hp _ Hh) in Ec|].
      rewrite Hm by done. by apply Hp.
    + intros h. destruct (decide (h = hash)) as [->|]; [done|]. rewrite Hm by done. apply Hn.
    + rewrite Em, (swap_remove_perm _ _ _ Hi) at 1. by rewrite <- Permutation_middle.
    + intros h Hh. by rewrite Hm.
  - apply list_find_None in Ef. rewrite Forall_forall in Ef.
    intros r [Hr|Hr]%elem_of_app; [auto|]. apply not_true_iff_false. by apply Ef.
Qed.

(** [remove] takes one matching row out of the bucket, or finds none. *)
Lemma identity_remove_bucket ix rows row :
  buckets_wf ix →
  match identity_remove ix rows row with
  | Some (r, ix') =>
      same_row rows row r = true ∧ buckets_wf ix' ∧
      bucket ix (identity_hash row) ≡ₚ r :: bucket ix' (identity_hash row) ∧
      ∀ h, h ≠ identity_hash row → bucket ix' h = bucket ix h
  | None => ∀ r, r ∈ bucket ix (identity_hash row) → same_row rows row r = false
  end.
Proof.
  intros Hwf. unfold identity_remove.
  destruct (id_primary ix !! identity_hash row) as [e|] eqn:E.
  - destruct (same_row rows row e) eqn:Es.
    + split; [done|]. by apply promote_bucket.
    + apply remove_collision_bucket; [done|]. intros r. rewrite E. by intros [= <-].
  - apply remove_collision_bucket; [done|]. intros r. by rewrite E.
Qed.
End identity.
