(* ===== verification/Store.v ===== *)
(** * Indexed relationship store (src/src/relationship.rs, [IndexedRelationshipStore])

    Append-only rows with a live bitmap, the duplicate index and seven posting
    indexes; queries through candidate lists; mutation batches; compaction.
    [Default], [Clone] and the iterator adaptors the queries return are
    included; snapshot encoding is not. *)

From S2P Require Import Prelude Model Domain StoreTypes Interner LiveRows Posting Row Identity.

(** ** State *)

Inductive IndexProfile := Full | CheckOnly | CheckAndObjectAudit.

(** [supports_subject_reverse_lookup]: the indexes of subjects are kept. *)
Definition supports_subject_reverse_lookup (p : IndexProfile) : bool :=
  match p with Full => true | _ => false end.

Inductive UniquenessState :=
| Ready (index : RelationshipIdentityIndex)
| KnownUniqueButNotIndexed
| UntrustedNotIndexed.

#[global] Instance ResourceIndexKey_eq_dec : EqDecision ResourceIndexKey := _.
#[global] Instance SubjectIndexKey_eq_dec : EqDecision SubjectIndexKey := _.

(** The seven index fields of the store. *)
Record StoreIndexes := mkIndexes {
  by_resource : PostingIndex (SymbolId * SymbolId * SymbolId);
  by_resource_object : PostingIndex (SymbolId * SymbolId);
  by_resource_type_relation : PostingIndex (SymbolId * SymbolId);
  by_resource_type : PostingIndex SymbolId;
  by_subject : PostingIndex (SymbolId * SymbolId * option SymbolId);
  by_subject_type_relation : PostingIndex (SymbolId * SymbolId);
  by_subject_type : PostingIndex SymbolId
}.

Record Store := mkStore {
  index_profile : IndexProfile;
  interner : IdentifierInterner;
  rows : list RelationshipRow;
  live_rows : LiveRows;
  dead_row_count : Z;
  uniqueness : UniquenessState;
  indexes : StoreIndexes
}.

Definition indexes_default : StoreIndexes :=
  mkIndexes posting_default posting_default posting_default posting_default
    posting_default posting_default posting_default.

(** [Default for IndexedRelationshipStore] *)
Definition store_default : Store :=
  mkStore Full interner_default [] live_default 0 (Ready identity_default) indexes_default.

Definition set_interner (i : IdentifierInterner) (st : Store) : Store :=
  mkStore (index_profile st) i (rows st) (live_rows st) (dead_row_count st)
    (uniqueness st) (indexes st).

Definition set_uniqueness (u : UniquenessState) (st : Store) : Store :=
  mkStore (index_profile st) (interner st) (rows st) (live_rows st) (dead_row_count st)
    u (indexes st).

(** ** Indexing a row *)

Definition index_relationship (row_id : RowId) (row : RelationshipRow) (ix : StoreIndexes)
    : StoreIndexes :=
  mkIndexes
    (posting_insert (resource_key row) row_id (by_resource ix))
    (posting_insert (resource_object_key row) row_id (by_resource_object ix))
    (posting_insert (resource_type_relation_key row) row_id (by_resource_type_relation ix))
    (posting_insert (row_resource_type row) row_id (by_resource_type ix))
    (foldl (λ p key, posting_insert key row_id p) (by_subject ix) (subject_keys row))
    (match subject_type_relation_key row with
     | Some key => posting_insert key row_id (by_subject_type_relation ix)
     | None => by_subject_type_relation ix
     end)
    (posting_insert (row_subject_type row) row_id (by_subject_type ix)).

Definition is_live (st : Store) (row : RelationshipRow) : bool :=
  live_contains (live_rows st) (row_id row).

Section store.
Context `{Hasher}.

(** [uniqueness.insert], [index_relationship], [rows.push], [live_rows.insert]: the
    common end of [insert] and [insert_compact_row_from]. *)
Definition push_row (row_id : RowId) (row : RelationshipRow) (ix : RelationshipIdentityIndex)
    (st : Store) : Store :=
  mkStore (index_profile st) (interner st) (rows st ++ [row])
    (live_insert (live_rows st) row_id) (dead_row_count st)
    (Ready (identity_insert ix (rows st) row_id row))
    (index_relationship row_id row (indexes st)).

(** [ready_uniqueness_mut] *)
Definition ready_uniqueness : ST Store StoreError RelationshipIdentityIndex := λ st,
  match uniqueness st with
  | Ready ix => (Ok ix, st)
  | _ => (Err (InternalInvariant
                 "relationship uniqueness index was not initialized before mutation"), st)
  end.

(** [IndexedRelationshipStore::insert] *)
Definition store_insert (r : Relationship) : ST Store StoreError unit := λ st,
  (let! row_id := st_lift (row_id_from_len (length (rows st))) in
   let! row := st_zoom interner set_interner (row_from_relationship row_id r) in
   let! ix := ready_uniqueness in
   st_modify (push_row row_id row ix)) st.

Definition lookup_relationship_row (st : Store) (r : Relationship) : option RelationshipRow :=
  row_from_existing r (interner st).

(** [uniqueness_ref] *)
Definition uniqueness_ref (st : Store) : option RelationshipIdentityIndex :=
  match uniqueness st with Ready ix => Some ix | _ => None end.

Definition has_ready_uniqueness (st : Store) : bool :=
  match uniqueness st with Ready _ => true | _ => false end.

Definition contains_relationship (st : Store) (r : Relationship) : bool :=
  match lookup_relationship_row st r with
  | Some row =>
      match uniqueness_ref st with
      | Some ix => bool_decide (is_Some (identity_find ix (rows st) row))
      | None => false
      end
  | None => false
  end.

(** [IndexedRelationshipStore::create] *)
Definition store_create (r : Relationship) : ST Store StoreError unit := λ st,
  if contains_relationship st r then (Err (RelationshipAlreadyExists r), st)
  else store_insert r st.

(** The [Touch] arm of the batches. *)
Definition store_touch (r : Relationship) : ST Store StoreError unit := λ st,
  if contains_relationship st r then (Ok tt, st) else store_insert r st.

(** [IndexedRelationshipStore::delete] *)
Definition store_delete (r : Relationship) : ST Store StoreError unit := λ st,
  (let! row := st_lift (ok_or (lookup_relationship_row st r) (RelationshipNotFound r)) in
   let! ix := ready_uniqueness in
   let! removed := st_lift (ok_or (identity_remove ix (rows st) row) (RelationshipNotFound r)) in
   st_put (mkStore (index_profile st) (interner st) (rows st)
             (live_remove (live_rows st) removed.1)
             (saturating_add usize_max (dead_row_count st) 1)
             (Ready removed.2) (indexes st))) st.

(** [apply_single_mutation] and the candidate loop's body. *)
Definition apply_single_mutation (m : RelationshipMutation) : ST Store StoreError unit :=
  match m with
  | Create r => store_create r
  | Touch r => store_touch r
  | Delete r => store_delete r
  end.

(** [IndexedRelationshipStore::rows] *)
Definition store_rows (st : Store) : list Relationship :=
  omap (M:=list)
    (λ row, match relationship_from_row (interner st) row with Ok r => Some r | Err _ => None end)
    (filter (λ row, is_live st row = true) (rows st)).

(** ** Queries *)

Definition opt_lookup (st : IdentifierInterner) (o : option string)
    : option (option SymbolId) :=
  match o with
  | Some v => match lookup st v with Some id => Some (Some id) | None => None end
  | None => Some None
  end.

Definition subject_matcher (st : Store) (f : SubjectFilter) : option SubjectMatcher :=
  subject_type ← lookup (interner st) (as_str (sf_subject_type f));
  subject_id ← opt_lookup (interner st) (as_str <$> sf_optional_subject_id f);
  rel ← opt_lookup (interner st) (as_str <$> sf_optional_relation f);
  Some (mkSubjectMatcher subject_type subject_id rel).

Definition resource_matcher (st : Store) (f : RelationshipFilter) : option ResourceMatcher :=
  resource_type ← lookup (interner st) (as_str (rf_resource_type f));
  resource_id ← opt_lookup (interner st) (as_str <$> rf_optional_resource_id f);
  rel ← opt_lookup (interner st) (as_str <$> rf_optional_relation f);
  subject ← match rf_optional_subject f with
            | Some s => Some <$> subject_matcher st s
            | None => Some None
            end;
  Some (mkResourceMatcher resource_type resource_id rel subject (limit_get (rf_limit f))).

Definition resource_relation_matcher (st : Store) (r : ObjectRef) (rel : RelationName)
    (limit : QueryLimit) : option ResourceMatcher :=
  resource_type ← lookup (interner st) (as_str (object_type r));
  resource_id ← lookup (interner st) (as_str (object_id r));
  rel ← lookup (interner st) (as_str rel);
  Some (mkResourceMatcher resource_type (Some resource_id) (Some rel) None (limit_get limit)).

Definition resource_relation_subject_matcher (st : Store) (r : ObjectRef)
    (rel : RelationName) (f : SubjectFilter) : option ResourceMatcher :=
  m ← resource_relation_matcher st r rel query_limit_min;
  s ← subject_matcher st f;
  Some (mkResourceMatcher (rm_resource_type m) (rm_optional_resource_id m)
          (rm_optional_relation m) (Some s) (rm_remaining m)).

Definition resource_candidate_row_ids (st : Store) (m : ResourceMatcher) : CandidateRowIds :=
  match rm_optional_resource_id m, rm_optional_relation m with
  | Some i, Some rel => posting_candidates (by_resource (indexes st)) (rm_resource_type m, i, rel)
  | Some i, None => posting_candidates (by_resource_object (indexes st)) (rm_resource_type m, i)
  | None, Some rel =>
      posting_candidates (by_resource_type_relation (indexes st)) (rm_resource_type m, rel)
  | None, None => posting_candidates (by_resource_type (indexes st)) (rm_resource_type m)
  end.

Definition subject_candidate_row_ids (st : Store) (m : SubjectMatcher) : CandidateRowIds :=
  match sm_optional_subject_id m, sm_optional_relation m with
  | Some i, rel => posting_candidates (by_subject (indexes st)) (sm_subject_type m, i, rel)
  | None, Some rel =>
      posting_candidates (by_subject_type_relation (indexes st)) (sm_subject_type m, rel)
  | None, None => posting_candidates (by_subject_type (indexes st)) (sm_subject_type m)
  end.

Inductive CompactRelationshipMatcher :=
| MResource (m : ResourceMatcher)
| MSubject (m : SubjectMatcher).

(** The candidates are kept as the items still to come. *)
Record CompactRelationshipIter := mkIter {
  all_rows_live : bool;
  candidates : list RowId;
  matcher : option CompactRelationshipMatcher
}.

(** [resource.remaining = resource.remaining.saturating_sub(1)] *)
Definition decrement (m : ResourceMatcher) : ResourceMatcher :=
  mkResourceMatcher (rm_resource_type m) (rm_optional_resource_id m) (rm_optional_relation m)
    (rm_optional_subject m) (rm_remaining m - 1)%N.

(** The loop of [CompactRelationshipIter::next], over the candidates. *)
Fixpoint compact_scan (st : Store) (all_live : bool) (m : CompactRelationshipMatcher)
    (cs : list RowId) : option RelationshipRow * CompactRelationshipIter :=
  match cs with
  | [] => (None, mkIter all_live [] (Some m))
  | row_id :: cs =>
      if negb all_live && negb (live_contains (live_rows st) row_id)
      then compact_scan st all_live m cs else
      match rows st !! id_index row_id with
      | None => (None, mkIter all_live cs (Some m))
      | Some row =>
          match m with
          | MResource rm =>
              if (rm_remaining rm =? 0)%N then (None, mkIter all_live cs (Some m))
              else if matches_resource row rm
              then (Some row, mkIter all_live cs (Some (MResource (decrement rm))))
              else compact_scan st all_live m cs
          | MSubject sm =>
              if matches_subject row sm then (Some row, mkIter all_live cs (Some m))
              else compact_scan st all_live m cs
          end
      end
  end.

Definition compact_next (st : Store) (it : CompactRelationshipIter)
    : option RelationshipRow * CompactRelationshipIter :=
  match matcher it with
  | None => (None, it)
  | Some m => compact_scan st (all_rows_live it) m (candidates it)
  end.

(** The items a [for] loop over the iterator sees: [next] until [None]. *)
Fixpoint compact_drain (fuel : nat) (st : Store) (it : CompactRelationshipIter)
    : list RelationshipRow :=
  match fuel with
  | O => []
  | S fuel =>
      match compact_next st it with
      | (Some row, it) => row :: compact_drain fuel st it
      | (None, _) => []
      end
  end.

(** Every item consumes a candidate, so the number of candidates bounds the
    calls that yield. *)
Definition compact_items (st : Store) (it : CompactRelationshipIter) : list RelationshipRow :=
  compact_drain (S (length (candidates it))) st it.

Definition resource_iter (st : Store) (m : option ResourceMatcher) : CompactRelationshipIter :=
  mkIter (is_all_live (live_rows st))
    (match m with Some m => candidate_items (resource_candidate_row_ids st m) | None => [] end)
    (MResource <$> m).

Definition subject_iter (st : Store) (m : option SubjectMatcher) : CompactRelationshipIter :=
  mkIter (is_all_live (live_rows st))
    (match m with Some m => candidate_items (subject_candidate_row_ids st m) | None => [] end)
    (MSubject <$> m).

Definition query_compact_relationships (st : Store) (f : RelationshipFilter)
    : CompactRelationshipIter :=
  resource_iter st (resource_matcher st f).

Definition reverse_query_compact_relationships (st : Store) (f : SubjectFilter)
    : CompactRelationshipIter :=
  subject_iter st (subject_matcher st f).

Definition resource_relation (st : Store) (r : ObjectRef) (rel : RelationName)
    (limit : QueryLimit) : CompactRelationshipIter :=
  resource_iter st (resource_relation_matcher st r rel limit).

Definition resource_relation_subject (st : Store) (r : ObjectRef) (rel : RelationName)
    (f : SubjectFilter) : CompactRelationshipIter :=
  resource_iter st (resource_relation_subject_matcher st r rel f).

Definition has_subject_candidates (st : Store) (f : SubjectFilter) : bool :=
  match subject_matcher st f with
  | None => false
  | Some m => bool_decide (is_Some (candidates_next (subject_candidate_row_ids st m)).1)
  end.

Definition any_resource_match (st : Store) (f : RelationshipFilter) : bool :=
  bool_decide (is_Some (compact_next st (query_compact_relationships st f)).1).

Definition check_precondition (st : Store) (p : Precondition) : result StoreError unit :=
  match p with
  | MustMatch f => if negb (any_resource_match st f) then Err (PreconditionFailed p) else Ok tt
  | MustNotMatch f => if any_resource_match st f then Err (PreconditionFailed p) else Ok tt
  end.

(** ** Evaluator keys *)

Definition store_subject_key (st : Store) (u : User)
    : option (SymbolId * SymbolId * option SymbolId) :=
  match u with
  | UserId i =>
      subject_type ← lookup (interner st) "user";
      subject_id ← lookup (interner st) i;
      Some (subject_type, subject_id, None)
  | Userset object rel =>
      subject_type ← lookup (interner st) (namespace object);
      subject_id ← lookup (interner st) (id object);
      rel ← lookup (interner st) (relation_str rel);
      Some (subject_type, subject_id, Some rel)
  end.

Definition store_check_key_for_relation (st : Store) (object : Object) (rel : SymbolId)
    (u : User) : option StoreCheckKey :=
  subject ← store_subject_key st u;
  object_type ← lookup (interner st) (namespace object);
  object_id ← lookup (interner st) (id object);
  Some (mkStoreCheckKey object_type object_id rel subject.1.1 subject.1.2 subject.2).

(** [store_check_key] and [store_check_key_for_relation_name] differ in the type
    the relation's text comes from. *)
Definition store_check_key (st : Store) (object : Object) (rel : string) (u : User)
    : option StoreCheckKey :=
  rel ← lookup (interner st) rel;
  store_check_key_for_relation st object rel u.

(** ** Uniqueness index *)

Definition uniqueness_reason (u : UniquenessState) : string :=
  match u with
  | KnownUniqueButNotIndexed =>
      "full snapshot duplicate detector was dropped after validation"
  | _ => "trusted snapshot contains duplicate relationship rows"
  end.

Definition uniqueness_step (st : Store) (reason : string) (ix : RelationshipIdentityIndex)
    (row : RelationshipRow) : result StoreError RelationshipIdentityIndex :=
  match identity_find ix (rows st) row with
  | Some _ => Err (InternalInvariant reason)
  | None => Ok (identity_insert ix (rows st) (row_id row) row)
  end.

Definition ensure_uniqueness_index : ST Store StoreError unit := λ st,
  match uniqueness st with
  | Ready _ => (Ok tt, st)
  | u =>
      match try_fold (uniqueness_step st (uniqueness_reason u)) identity_default
              (filter (λ row, is_live st row = true) (rows st)) with
      | Ok ix => (Ok tt, set_uniqueness (Ready ix) st)
      | Err e => (Err e, st)
      end
  end.

(** ** Touch batches *)

Definition ensure_insert_capacity (st : Store)
    (additional_rows additional_symbols additional_bytes : Z) : result StoreError unit :=
  if (additional_rows =? 0)%Z then Ok tt else
  last_row_len ← ok_or (v ← checked_add usize_max (Z.of_nat (length (rows st))) additional_rows;
                        checked_sub v 1)
                   (CapacityExceeded "relationship rows");
  _ ← row_id_from_len (Z.to_nat last_row_len);
  _ ← (if (0 <? additional_symbols)%Z then
         last_symbol ← ok_or (v ← checked_add usize_max
                                    (Z.of_nat (length (entries (interner st)))) additional_symbols;
                              checked_sub v 1)
                         (CapacityExceeded "identifier interner");
         _ ← symbol_from_index (Z.to_nat last_symbol);
         Ok tt
       else Ok tt);
  _ ← ok_or (v ← checked_add usize_max (Z.of_nat (byte_len (bytes (interner st))))
                   additional_bytes;
             try_from_uint u32_max v)
        (CapacityExceeded "identifier interner bytes");
  Ok tt.

(** The symbols and bytes of identifiers not yet interned, with repetitions. *)
Definition count_missing (st : IdentifierInterner) (acc : Z * Z) (value : string) : Z * Z :=
  match lookup st value with
  | None => (saturating_add usize_max acc.1 1,
             saturating_add usize_max acc.2 (Z.of_nat (byte_len value)))
  | Some _ => acc
  end.

Definition apply_touch_batch_in_place (ms : list RelationshipMutation)
    : ST Store StoreError unit := λ st,
  let new := filter (λ m, contains_relationship st (mutation_relationship m) = false) ms in
  let additional :=
    foldl (λ acc m, foldl (count_missing (interner st)) acc
                      (relationship_identifier_values (mutation_relationship m)))
      (0, 0)%Z new in
  match ensure_insert_capacity st (Z.of_nat (length new)) additional.1 additional.2 with
  | Err e => (Err e, st)
  | Ok _ => st_for (λ m, store_touch (mutation_relationship m)) ms st
  end.

(** ** Compaction *)

(** Outside tests. *)
Definition compaction_dead_row_threshold : Z := COMPACT_DEAD_ROWS.

(** [IndexedRelationshipStore::resolve] *)
Definition store_resolve (st : Store) (id : SymbolId) : string :=
  match resolve (interner st) id with Ok v => v | Err _ => "<invalid>" end.

Definition intern_compact_row (source : Store) (row_id : RowId) (row : RelationshipRow)
    : ST IdentifierInterner StoreError RelationshipRow :=
  let! resource_type := intern (store_resolve source (row_resource_type row)) in
  let! resource_id := intern (store_resolve source (row_resource_id row)) in
  let! rel := intern (store_resolve source (row_relation row)) in
  let! subject_type := intern (store_resolve source (row_subject_type row)) in
  let! subject_id := intern (store_resolve source (row_subject_id row)) in
  let! subject_rel :=
    match row_subject_relation row with
    | Some rel => let! id := intern (store_resolve source rel) in st_ret (Some id)
    | None => st_ret None
    end in
  st_ret (mkRow row_id resource_type resource_id rel subject_type subject_id subject_rel).

Definition insert_compact_row_from (source : Store) (row : RelationshipRow)
    : ST Store StoreError unit := λ st,
  (let! row_id := st_lift (row_id_from_len (length (rows st))) in
   let! compacted := st_zoom interner set_interner (intern_compact_row source row_id row) in
   let! ix := ready_uniqueness in
   st_modify (push_row row_id compacted ix)) st.

Definition needs_compaction (st : Store) : bool :=
  negb ((dead_row_count st <=? compaction_dead_row_threshold)%Z &&
        (saturating_mul usize_max (dead_row_count st) 4 <=? Z.of_nat (length (rows st)))%Z).

Definition compact_if_needed : ST Store StoreError unit := λ st,
  if needs_compaction st then
    match st_for (insert_compact_row_from st) (filter (λ row, is_live st row = true) (rows st))
            store_default with
    | (Ok _, compacted) => (Ok tt, compacted)
    | (Err e, _) => (Err e, st)
    end
  else (Ok tt, st).

(** ** Batches *)

(** [seen.insert(..)] for each mutation: the first repeated relationship. *)
Fixpoint find_duplicate (seen : gset Relationship) (ms : list RelationshipMutation)
    : option Relationship :=
  match ms with
  | [] => None
  | m :: ms =>
      let r := mutation_relationship m in
      if decide (r ∈ seen) then Some r else find_duplicate ({[r]} ∪ seen) ms
  end.

Definition batch_len {A} (l : list A) : Z := Z.of_nat (length l).

(** The mutations are tried on a clone, which replaces the store at the end. *)
Definition apply_candidate (ms : list RelationshipMutation) : ST Store StoreError unit := λ st,
  match (let! _ := st_for apply_single_mutation ms in compact_if_needed) st with
  | (Ok _, candidate) => (Ok tt, candidate)
  | (Err e, _) => (Err e, st)
  end.

Definition apply_batch (ms : list RelationshipMutation) : ST Store StoreError unit :=
  match ms with
  | [m] => let! _ := apply_single_mutation m in compact_if_needed
  | _ =>
      if forallb is_touch ms then
        let! _ := apply_touch_batch_in_place ms in compact_if_needed
      else apply_candidate ms
  end.

(** [IndexedRelationshipStore::apply_mutations] *)
Definition apply_mutations (ms : list RelationshipMutation) (ps : list Precondition)
    : ST Store StoreError unit := λ st,
  if (MAX_PRECONDITIONS_PER_BATCH <? batch_len ps)%Z
  then (Err (PreconditionBatchTooLarge MAX_PRECONDITIONS_PER_BATCH (batch_len ps)), st) else
  match try_for (check_precondition st) ps with
  | Err e => (Err e, st)
  | Ok _ =>
      if (MAX_MUTATIONS_PER_BATCH <? batch_len ms)%Z
      then (Err (MutationBatchTooLarge MAX_MUTATIONS_PER_BATCH (batch_len ms)), st) else
      (let! _ := match ms with [] => st_ret tt | _ => ensure_uniqueness_index end in
       match find_duplicate ∅ ms with
       | Some r => st_err (DuplicateMutation r)
       | None => apply_batch ms
       end) st
  end.
End store.
