(* ===== verification/StoreInv.v ===== *)
(** * The store's invariant and single-row operations

    What a store stands for (its rows paired with the relationships they
    denote, of which some are live), that insertion and deletion preserve the
    invariant, and what they do to the live relationships. *)

From S2P Require Import Prelude Model Domain StoreTypes Interner LiveRows Posting Row Identity.
From S2P Require Import Store.

(** ** Representation *)

(** The posting list of each key holds the ids of its rows, in row order, dead
    rows included. *)
Definition indexed_by {K} `{Countable K} `{SortKey K} (p : PostingIndex K)
    (keys : RelationshipRow → list K) (rows : list RelationshipRow) : Prop :=
  posting_wf p ∧ ∀ k, posting p k = row_id <$> filter (λ row, k ∈ keys row) rows.

Record indexes_ok (ix : StoreIndexes) (rows : list RelationshipRow) : Prop := {
  ix_resource : indexed_by (by_resource ix) (λ r, [resource_key r]) rows;
  ix_resource_object : indexed_by (by_resource_object ix) (λ r, [resource_object_key r]) rows;
  ix_resource_type_relation :
    indexed_by (by_resource_type_relation ix) (λ r, [resource_type_relation_key r]) rows;
  ix_resource_type : indexed_by (by_resource_type ix) (λ r, [row_resource_type r]) rows;
  ix_subject : indexed_by (by_subject ix) subject_keys rows;
  ix_subject_type_relation :
    indexed_by (by_subject_type_relation ix) (λ r, option_list (subject_type_relation_key r)) rows;
  ix_subject_type : indexed_by (by_subject_type ix) (λ r, [row_subject_type r]) rows
}.

Section invariant.
Context `{Hasher}.

(** The index holds exactly the live rows, each under its hash. *)
Record identity_ok (ix : RelationshipIdentityIndex) (rows : list RelationshipRow)
    (live : LiveRows) : Prop := {
  io_wf : buckets_wf ix;
  io_nodup h : NoDup (bucket ix h);
  io_mem h r : r ∈ bucket ix h ↔
    live_contains live r = true ∧
    ∃ row, rows !! id_index r = Some row ∧ identity_hash row = h
}.

Definition uniqueness_ok (u : UniquenessState) (rows : list RelationshipRow)
    (live : LiveRows) : Prop :=
  match u with Ready ix => identity_ok ix rows live | _ => True end.

(** The rows that are live, with what they denote. *)
Definition live_pairs (st : Store) (ps : list (RelationshipRow * Relationship)) :=
  filter (λ p, is_live st p.1 = true) ps.

Definition live_relationships (st : Store) (ps : list (RelationshipRow * Relationship))
    : list Relationship := (live_pairs st ps).*2.

Record store_rep (st : Store) (l : list string)
    (ps : list (RelationshipRow * Relationship)) : Prop := {
  sr_interner : interner_rep (interner st) l;
  sr_rows : rows st = ps.*1;
  sr_denotes : Forall (λ p, row_denotes l p.1 p.2) ps;
  sr_ids i row : rows st !! i = Some row → row_id row = index_id i;
  sr_cap : (Z.of_nat (length (rows st)) ≤ u32_max)%Z;
  sr_live : live_wf (live_rows st) (length (rows st));
  sr_indexes : indexes_ok (indexes st) (rows st);
  sr_unique : NoDup (live_relationships st ps);
  sr_uniqueness : uniqueness_ok (uniqueness st) (rows st) (live_rows st)
}.

(** The interner uses its hash index: true of every store that was not loaded
    from a trusted snapshot. *)
Definition hash_mode (st : Store) : Prop := sorted_lookup (interner st) = [].

(** [st] stands for the list [rels] of live relationships and can be mutated. *)
Definition store_is (st : Store) (rels : list Relationship) : Prop :=
  ∃ l ps, store_rep st l ps ∧ hash_mode st ∧ rels = live_relationships st ps.

(** *** The empty store *)

Lemma indexed_by_default {K} `{Countable K} `{SortKey K} (keys : RelationshipRow → list K) :
  indexed_by posting_default keys [].
Proof. split; [apply posting_default_wf|]. intros k. apply posting_default_nil. Qed.

Lemma store_rep_default : store_rep store_default [] [].
Proof.
  split.
  - apply interner_rep_default.
  - done.
  - constructor.
  - intros i row Hi. simpl in Hi. by rewrite lookup_nil in Hi.
  - done.
  - apply live_wf_default.
  - split; apply indexed_by_default.
  - constructor.
  - split.
    + apply buckets_wf_default.
    + intros h. rewrite bucket_default. constructor.
    + intros h r. rewrite bucket_default. split; [by intros ?%not_elem_of_nil|].
      intros [_ (row & Hr & _)]. simpl in Hr. by rewrite lookup_nil in Hr.
Qed.

(** *** Indexing one more row *)

Lemma indexed_by_insert {K} `{Countable K} `{SortKey K} (p : PostingIndex K) keys rows row k :
  indexed_by p keys rows → keys row = [k] →
  indexed_by (posting_insert k (row_id row) p) keys (rows ++ [row]).
Proof.
  intros [Hwf Hp] Hk. apply (posting_insert_spec p k (row_id row)) in Hwf as [Hwf Hins].
  split; [done|]. intros k'. rewrite Hins, Hp, filter_app, fmap_app. f_equal.
  destruct (decide (k' = k)) as [->|Hne]; simpl.
  - rewrite filter_cons_True; [done|]. rewrite Hk. by left.
  - rewrite filter_cons_False; [done|]. rewrite Hk. by intros ?%list_elem_of_singleton.
Qed.

Lemma indexed_by_skip {K} `{Countable K} `{SortKey K} (p : PostingIndex K) keys rows row :
  indexed_by p keys rows → keys row = [] → indexed_by p keys (rows ++ [row]).
Proof.
  intros [Hwf Hp] Hk. split; [done|]. intros k'. rewrite Hp, filter_app, fmap_app.
  rewrite filter_cons_False; [by rewrite app_nil_r|]. rewrite Hk. by intros ?%not_elem_of_nil.
Qed.

Lemma indexed_by_insert2 {K} `{Countable K} `{SortKey K} (p : PostingIndex K) keys rows row k1 k2 :
  indexed_by p keys rows → keys row = [k1; k2] → k1 ≠ k2 →
  indexed_by (posting_insert k2 (row_id row) (posting_insert k1 (row_id row) p)) keys
    (rows ++ [row]).
Proof.
  intros [Hwf Hp] Hk Hne.
  apply (posting_insert_spec p k1 (row_id row)) in Hwf as [Hwf1 Hins1].
  apply (posting_insert_spec _ k2 (row_id row)) in Hwf1 as [Hwf2 Hins2].
  split; [done|]. intros k'. rewrite Hins2, Hins1, Hp, filter_app, fmap_app, <- app_assoc. f_equal.
  destruct (decide (k' ∈ keys row)) as [Hin|Hin].
  - rewrite filter_cons_True by done. rewrite Hk in Hin.
    apply elem_of_cons in Hin as [->| ->%list_elem_of_singleton].
    + rewrite decide_True, decide_False by done. done.
    + rewrite decide_False, decide_True by done. done.
  - rewrite filter_cons_False by done. rewrite Hk in Hin.
    rewrite !decide_False; [done| |]; intros ->; apply Hin; set_solver.
Qed.

Lemma index_relationship_ok ix rows row :
  indexes_ok ix rows →
  indexes_ok (index_relationship (row_id row) row ix) (rows ++ [row]).
Proof.
  intros [H1 H2 H3 H4 H5 H6 H7]. split; simpl.
  - by apply indexed_by_insert.
  - by apply indexed_by_insert.
  - by apply indexed_by_insert.
  - by apply indexed_by_insert.
  - unfold subject_keys. destruct (row_subject_relation row) as [rel|] eqn:E; simpl.
    + apply indexed_by_insert2; [done|unfold subject_keys; by rewrite E|done].
    + apply indexed_by_insert; [done|unfold subject_keys; by rewrite E].
  - destruct (subject_type_relation_key row) eqn:E; [apply indexed_by_insert|apply indexed_by_skip];
      rewrite ?E; done.
  - by apply indexed_by_insert.
Qed.

(** ** Reading a represented store *)

Section read.
Context {st : Store} {l : list string} {ps : list (RelationshipRow * Relationship)}.
Hypothesis Hst : store_rep st l ps.

Lemma rows_lookup i row : rows st !! i = Some row ↔ ∃ r, ps !! i = Some (row, r).
Proof.
  rewrite (sr_rows _ _ _ Hst), list_lookup_fmap. destruct (ps !! i) as [[row' r]|]; simpl.
  - split; [intros [= ->]; eauto|by intros (? & [= -> ->])].
  - split; [done|by intros (? & ?)].
Qed.

Lemma pair_denotes i row r : ps !! i = Some (row, r) → row_denotes l row r.
Proof.
  intros Hi. pose proof (sr_denotes _ _ _ Hst) as Hd.
  by apply (Forall_lookup_1 _ _ _ _ Hd Hi).
Qed.

Lemma pair_id i row r : ps !! i = Some (row, r) → row_id row = index_id i.
Proof. intros Hi. apply (sr_ids _ _ _ Hst), rows_lookup. eauto. Qed.

Lemma elem_of_live r :
  r ∈ live_relationships st ps ↔ ∃ i row, ps !! i = Some (row, r) ∧ is_live st row = true.
Proof.
  unfold live_relationships, live_pairs. rewrite list_elem_of_fmap. split.
  - intros ([row r'] & -> & [Hl Hin]%list_elem_of_filter).
    apply list_elem_of_lookup in Hin as [i Hi]. eauto.
  - intros (i & row & Hi & Hl). exists (row, r). split; [done|].
    apply list_elem_of_filter. split; [done|]. by eapply list_elem_of_lookup_2.
Qed.

Lemma is_live_at i row r : ps !! i = Some (row, r) → is_live st row = live_at (live_rows st) i.
Proof. intros Hi. unfold is_live, live_at. by rewrite (pair_id _ _ _ Hi). Qed.

(** The reader's list: [rows()] materialises the live rows in order. *)
Lemma store_rows_live : store_rows st = live_relationships st ps.
Proof.
  unfold store_rows, live_relationships, live_pairs. rewrite (sr_rows _ _ _ Hst).
  pose proof (sr_denotes _ _ _ Hst) as Hd. pose proof (sr_interner _ _ _ Hst) as Hi.
  clear -Hd Hi. induction Hd as [|[row r] ps' Hr _ IH]; [done|]. simpl in *.
  rewrite !filter_cons. simpl. case_decide; simpl; [|done].
  apply (relationship_from_row_Ok Hi) in Hr. rewrite Hr. f_equal. exact IH.
Qed.

(** Rows with the same symbols as a row of [r] denote [r]. *)
Lemma same_row_denotes row r rid :
  row_denotes l row r → same_row (rows st) row rid = true ↔
  ∃ row', ps !! id_index rid = Some (row', r).
Proof.
  intros Hr. rewrite same_row_true. setoid_rewrite rows_lookup. split.
  - intros (c & [r' Hc] & E). pose proof (pair_denotes _ _ _ Hc) as Hd.
    assert (r' = r) as ->; [|eauto]. eapply row_denotes_functional; [exact Hd|].
    eapply row_denotes_eqv; [symmetry; exact E|done].
  - intros (row' & Hc). exists row'. split; [eauto|].
    eapply row_denotes_identity; [apply (sr_interner _ _ _ Hst)|by eapply pair_denotes|done].
Qed.

Section ready.
Context {ix : RelationshipIdentityIndex}.
Hypothesis Hix : uniqueness st = Ready ix.

Lemma ready_identity : identity_ok ix (rows st) (live_rows st).
Proof. pose proof (sr_uniqueness _ _ _ Hst) as Hu. by rewrite Hix in Hu. Qed.

Lemma bucket_live h rid :
  rid ∈ bucket ix h ↔
  ∃ row r, ps !! id_index rid = Some (row, r) ∧ is_live st row = true ∧ identity_hash row = h.
Proof.
  rewrite (io_mem _ _ _ ready_identity). split.
  - intros (Hl & row & [r Hr]%rows_lookup & Hh). exists row, r. split; [done|]. split; [|done].
    unfold is_live. by rewrite (pair_id _ _ _ Hr), index_id_index.
  - intros (row & r & Hr & Hl & Hh). split.
    + unfold is_live in Hl. by rewrite (pair_id _ _ _ Hr), index_id_index in Hl.
    + exists row. split; [|done]. apply rows_lookup. eauto.
Qed.

(** [contains_relationship] is membership in the live relationships. *)
Lemma contains_relationship_spec r :
  contains_relationship st r = true ↔ r ∈ live_relationships st ps.
Proof.
  unfold contains_relationship, lookup_relationship_row, uniqueness_ref. rewrite Hix, elem_of_live.
  destruct (row_from_existing r (interner st)) as [row|] eqn:E.
  - apply (row_from_existing_Some (sr_interner _ _ _ Hst)) in E as [_ Hrow].
    rewrite bool_decide_eq_true, identity_find_bucket. split.
    + intros [rid [Hin Hs]%List.find_some]. apply list_elem_of_In in Hin.
      apply bucket_live in Hin as (row' & r' & Hp & Hl & _).
      apply (same_row_denotes _ _ _ Hrow) in Hs as (row'' & Hp').
      rewrite Hp in Hp'. simplify_eq. eauto.
    + intros (i & row' & Hp & Hl).
      destruct (find_first _ _) as [rid|] eqn:Ef; [done|].
      eapply List.find_none in Ef; [|apply list_elem_of_In, (bucket_live _ (index_id i))].
      * apply not_true_iff_false in Ef. destruct Ef.
        apply (same_row_denotes _ _ _ Hrow). exists row'. by rewrite id_index_id.
      * exists row', r. rewrite id_index_id. split_and!; [done|done|].
        unfold identity_hash. f_equal.
        eapply row_denotes_identity; [apply (sr_interner _ _ _ Hst)|by eapply pair_denotes|done].
  - split; [done|]. intros (i & row & Hp & _).
    destruct (row_from_existing_None (sr_interner _ _ _ Hst) _ row E).
    by eapply pair_denotes.
Qed.
End ready.
End read.

(** ** Insertion *)

Lemma set_interner_rep st l l' ps i' :
  store_rep st l ps → l `prefix_of` l' → interner_rep i' l' →
  store_rep (set_interner i' st) l' ps.
Proof.
  intros [H1 H2 H3 H4 H5 H6 H7 H8 H9] Hp Hi. split; try done.
  eapply Forall_impl; [exact H3|]. intros p. by apply row_denotes_mono.
Qed.

Lemma filter_live_ext lv lv' (ps : list (RelationshipRow * Relationship)) :
  Forall (λ p, live_contains lv (row_id p.1) = live_contains lv' (row_id p.1)) ps →
  filter (λ p, live_contains lv (row_id p.1) = true) ps =
  filter (λ p, live_contains lv' (row_id p.1) = true) ps.
Proof.
  induction 1 as [|p ps Hp _ IH]; [done|]. rewrite !filter_cons, IH, Hp. done.
Qed.

Section push.
Context {st : Store} {l : list string} {ps : list (RelationshipRow * Relationship)}.
Context {ix : RelationshipIdentityIndex} {row : RelationshipRow} {r : Relationship}.
Hypothesis Hst : store_rep st l ps.
Hypothesis Hix : uniqueness st = Ready ix.
Hypothesis Hrow : row_denotes l row r.
Hypothesis Hid : row_id row = index_id (length (rows st)).
Hypothesis Hcap : (Z.of_nat (length (rows st)) + 1 ≤ u32_max)%Z.
Hypothesis Hnew : r ∉ live_relationships st ps.

Let st' := push_row (row_id row) row ix st.

Lemma push_live_at i :
  live_at (live_rows st') i = Nat.eqb (length (rows st)) i || live_at (live_rows st) i.
Proof. unfold st', push_row. simpl. rewrite Hid. apply live_insert_at. lia. Qed.

Lemma push_identity :
  identity_ok (identity_insert ix (rows st) (row_id row) row) (rows st ++ [row]) (live_rows st').
Proof.
  pose proof (ready_identity Hst Hix) as [Hwf Hnd Hmem].
  assert (∀ rid, rid ∈ bucket ix (identity_hash row) → other_row (rows st) row rid = true)
    as Hother.
  { intros rid Hin. apply (bucket_live Hst Hix) in Hin as (row' & r' & Hp & Hl & _).
    destruct (same_row (rows st) row rid) eqn:Es.
    - apply (same_row_denotes Hst _ _ _ Hrow) in Es as (row'' & Hp').
      destruct Hnew. apply (elem_of_live (st:=st)). eauto.
      exists (id_index rid), row''. rewrite Hp in Hp'. by simplify_eq.
    - unfold same_row, other_row in *.
      assert (rows st !! id_index rid = Some row') as Hr by (apply (rows_lookup Hst); eauto).
      rewrite Hr in *. by rewrite Es. }
  destruct (identity_insert_bucket ix (rows st) (row_id row) row Hwf Hother) as [Hwf' Hb].
  split; [done|..].
  - intros h. rewrite Hb. case_decide; [|by rewrite app_nil_r].
    apply NoDup_app. split_and!; [done| |apply NoDup_singleton].
    intros rid Hin ->%list_elem_of_singleton.
    apply Hmem in Hin as (_ & row' & Hl & _). rewrite Hid, id_index_id in Hl.
    apply lookup_lt_Some in Hl. lia.
  - intros h rid. rewrite Hb, elem_of_app, Hmem.
    rewrite (live_contains_at (live_rows st')), push_live_at, orb_true_iff, Nat.eqb_eq.
    rewrite live_contains_at. setoid_rewrite lookup_snoc_Some. split.
    + intros [(Hl & row' & Hr & Hh)|Hin].
      * split; [by right|]. exists row'. split; [|done]. left. split; [|done].
        by eapply lookup_lt_Some.
      * case_decide; [|by apply not_elem_of_nil in Hin]. subst h.
        apply list_elem_of_singleton in Hin as ->. rewrite Hid, id_index_id.
        split; [by left|]. exists row. split; [by right|done].
    + intros (Hl & row' & [[Hlt Hr]|[Hlen ->]] & Hh).
      * left. split; [destruct Hl; [lia|done]|]. eauto.
      * right. rewrite decide_True by done. apply list_elem_of_singleton.
        apply (inj id_index). by rewrite Hid, id_index_id.
Qed.

Lemma push_live_relationships :
  live_relationships st' (ps ++ [(row, r)]) = live_relationships st ps ++ [r].
Proof.
  unfold live_relationships, live_pairs, is_live. rewrite filter_app, fmap_app. f_equal.
  - f_equal. apply filter_live_ext, Forall_lookup. intros i [row' r'] Hi. cbn [fst].
    rewrite (pair_id Hst _ _ _ Hi), !live_contains_at, !id_index_id, push_live_at. destruct (Nat.eqb_spec (length (rows st)) i); [|done].
    apply lookup_lt_Some in Hi. rewrite (sr_rows _ _ _ Hst), length_fmap in *. lia.
  - rewrite filter_cons_True; [done|]. cbn [fst].
    by rewrite live_contains_at, push_live_at, Hid, id_index_id, Nat.eqb_refl.
Qed.

Lemma push_row_rep : store_rep st' l (ps ++ [(row, r)]).
Proof.
  pose proof Hst as [H1 H2 H3 H4 H5 H6 H7 H8 H9]. split.
  - done.
  - unfold st'. simpl. by rewrite fmap_app, H2.
  - apply Forall_app. split; [done|]. by apply Forall_singleton.
  - intros i row' [[_ Hi]|[-> ->]]%lookup_snoc_Some; [by apply H4|done].
  - unfold st'. simpl. rewrite length_app. simpl. lia.
  - unfold st'. simpl. rewrite length_app, Hid, Nat.add_1_r. apply live_wf_insert; [lia|done].
  - by apply index_relationship_ok.
  - rewrite push_live_relationships. apply NoDup_app.
    split_and!; [done| |apply NoDup_singleton]. intros r' Hr' ->%list_elem_of_singleton. done.
  - apply push_identity.
Qed.
End push.

(** ** Deletion *)

Lemma filter_NoDup_lt {A B} (P : A → Prop) `{∀ x, Decision (P x)} (f : A → B) l i j x y :
  NoDup (f <$> filter P l) → l !! i = Some x → l !! j = Some y → P x → P y → i < j → f x ≠ f y.
Proof.
  intros Hnd Hi Hj Hx Hy Hij E. rewrite <- (take_drop_middle l j y Hj) in Hnd.
  rewrite filter_app, filter_cons_True, fmap_app in Hnd by done.
  apply NoDup_app in Hnd as (_ & Hd & _). apply (Hd (f x)).
  - apply list_elem_of_fmap. exists x. split; [done|]. apply list_elem_of_filter.
    split; [done|]. apply elem_of_take. eauto.
  - rewrite E. by left.
Qed.

Lemma live_unique {st l ps i j row row' r} :
  store_rep st l ps → ps !! i = Some (row, r) → ps !! j = Some (row', r) →
  is_live st row = true → is_live st row' = true → i = j.
Proof.
  intros Hst Hi Hj Hl Hl'. pose proof (sr_unique _ _ _ Hst) as Hnd.
  destruct (Nat.lt_trichotomy i j) as [Hlt|[->|Hlt]]; [|done|].
  - by destruct (filter_NoDup_lt _ _ _ _ _ _ _ Hnd Hi Hj Hl Hl' Hlt).
  - by destruct (filter_NoDup_lt _ _ _ _ _ _ _ Hnd Hj Hi Hl' Hl Hlt).
Qed.

Section remove.
Context {st : Store} {l : list string} {ps : list (RelationshipRow * Relationship)}.
Context {ix ix' : RelationshipIdentityIndex} {row : RelationshipRow} {r : Relationship}.
Context {rid : RowId}.
Hypothesis Hst : store_rep st l ps.
Hypothesis Hix : uniqueness st = Ready ix.
Hypothesis Hrow : row_denotes l row r.
Hypothesis Hremove : identity_remove ix (rows st) row = Some (rid, ix').

Let st' := mkStore (index_profile st) (interner st) (rows st) (live_remove (live_rows st) rid)
             (saturating_add usize_max (dead_row_count st) 1) (Ready ix') (indexes st).

Lemma removed_bucket :
  buckets_wf ix' ∧ bucket ix (identity_hash row) ≡ₚ rid :: bucket ix' (identity_hash row) ∧
  (∀ h, h ≠ identity_hash row → bucket ix' h = bucket ix h) ∧
  ∃ row', ps !! id_index rid = Some (row', r) ∧ is_live st row' = true.
Proof.
  pose proof (ready_identity Hst Hix) as [Hwf _ _].
  pose proof (identity_remove_bucket ix (rows st) row Hwf) as Hrm. rewrite Hremove in Hrm.
  destruct Hrm as (Hs & Hwf' & Hp & Hb). split_and!; [done..|].
  apply (same_row_denotes Hst _ _ _ Hrow) in Hs as [row' Hr].
  exists row'. split; [done|].
  assert (rid ∈ bucket ix (identity_hash row)) as Hin by (rewrite Hp; by left).
  apply (bucket_live Hst Hix) in Hin as (row'' & r'' & Hr' & Hl & _).
  rewrite Hr in Hr'. by simplify_eq.
Qed.

Lemma remove_live_contains x :
  live_contains (live_rows st') x = true ↔ x ≠ rid ∧ live_contains (live_rows st) x = true.
Proof.
  rewrite !live_contains_at. unfold st'. cbn [live_rows].
  rewrite <- (index_id_index rid) at 1. rewrite live_remove_at, andb_true_iff, negb_true_iff.
  rewrite Nat.eqb_neq. split; (intros [Hne ?]; split; [|done]).
  - by intros ->.
  - intros E%(inj id_index). congruence.
Qed.

Lemma remove_identity : identity_ok ix' (rows st) (live_rows st').
Proof.
  pose proof (ready_identity Hst Hix) as [_ Hnd Hmem].
  destruct removed_bucket as (Hwf' & Hp & Hb & _).
  assert (NoDup (rid :: bucket ix' (identity_hash row))) as Hnd' by (by rewrite <- Hp).
  apply NoDup_cons in Hnd' as [Hout Hnd'].
  split; [done|..].
  - intros h. destruct (decide (h = identity_hash row)) as [->|]; [done|by rewrite Hb].
  - intros h x. rewrite remove_live_contains.
    destruct (decide (h = identity_hash row)) as [->|Hne].
    + assert (x ∈ bucket ix' (identity_hash row) ↔
              x ≠ rid ∧ x ∈ bucket ix (identity_hash row)) as ->.
      { rewrite Hp, elem_of_cons. split; [|naive_solver].
        intros Hx. split; [by intros ->|by right]. }
      rewrite Hmem. tauto.
    + rewrite Hb, Hmem by done. split; [|tauto]. intros (Hl & row' & Hr & Hh).
      split; [|eauto]. split; [|done]. intros ->.
      assert (rid ∈ bucket ix (identity_hash row)) as Hin by (rewrite Hp; by left).
      apply Hmem in Hin as (_ & row'' & Hr' & Hh'). congruence.
Qed.

Lemma remove_live_relationships :
  live_relationships st' ps = filter (λ x, x ≠ r) (live_relationships st ps).
Proof.
  unfold live_relationships, live_pairs. rewrite filter_list_fmap, list_filter_filter.
  f_equal. apply filter_ext_in. intros [row' r'] Hin.
  apply list_elem_of_lookup in Hin as [i Hi]. simpl. unfold is_live at 1.
  rewrite remove_live_contains. destruct removed_bucket as (_ & _ & _ & row0 & Hr0 & Hl0).
  rewrite (pair_id Hst _ _ _ Hi). unfold is_live. rewrite (pair_id Hst _ _ _ Hi). split.
  - intros [Hne Hl]. split; [|done]. intros ->. apply Hne. rewrite <- (index_id_index rid). f_equal.
    eapply (live_unique Hst Hi Hr0); [|done]. unfold is_live. by rewrite (pair_id Hst _ _ _ Hi).
  - intros [Hne Hl]. split; [|done]. intros <-. rewrite id_index_id in Hr0. congruence.
Qed.

Lemma remove_rep : store_rep st' l ps.
Proof.
  pose proof Hst as [H1 H2 H3 H4 H5 H6 H7 H8 H9]. split; try done.
  - by apply live_wf_remove.
  - rewrite remove_live_relationships. by apply NoDup_filter.
  - apply remove_identity.
Qed.
End remove.

(** ** The operations *)

(** A mutable store with strings [l], rows [ps] and live relationships [rels]. *)
Record store_state (st : Store) (l : list string) (ps : list (RelationshipRow * Relationship))
    (rels : list Relationship) : Prop := {
  ss_rep : store_rep st l ps;
  ss_hash : hash_mode st;
  ss_ready : has_ready_uniqueness st = true;
  ss_live : live_relationships st ps = rels
}.

(** Room for the row and the identifiers of one more relationship. *)
Definition insert_fits (l : list string) (ps : list (RelationshipRow * Relationship))
    (r : Relationship) : Prop :=
  (Z.of_nat (length ps) + 1 ≤ u32_max)%Z ∧ interns_fit l (relationship_identifier_values r).

Lemma ready_index st : has_ready_uniqueness st = true → ∃ ix, uniqueness st = Ready ix.
Proof. unfold has_ready_uniqueness. destruct (uniqueness st); [eauto|done|done]. Qed.

Lemma ss_contains st l ps rels r :
  store_state st l ps rels → contains_relationship st r = true ↔ r ∈ rels.
Proof.
  intros [Hst _ [ix Hix]%ready_index <-]. by apply (contains_relationship_spec Hst Hix).
Qed.

Lemma wp_store_insert st l ps rels r :
  store_state st l ps rels → r ∉ rels →
  wp (store_insert r) st
    (λ _ st', ∃ row, store_state st' (interned l (relationship_identifier_values r))
                       (ps ++ [(row, r)]) (rels ++ [r]))
    (λ e st', (∃ c, e = CapacityExceeded c) ∧ ¬ insert_fits l ps r ∧
              ∃ l', l `prefix_of` l' ∧ store_state st' l' ps rels).
Proof.
  intros [Hst Hh [ix Hix]%ready_index <-] Hnew.
  pose proof (sr_rows _ _ _ Hst) as Hrows.
  assert (length (rows st) = length ps) as Hlen by (by rewrite Hrows, length_fmap).
  unfold store_insert, wp, st_bind, st_lift, st_zoom, row_id_from_len.
  destruct (id_from_index_cases "relationship rows" (length (rows st)) _ eq_refl)
    as [[-> Hcap]|[-> Hcap]].
  2: { split_and!; [eauto|intros [? _]; lia|]. exists l. split; [done|].
       split; try done. unfold has_ready_uniqueness. by rewrite Hix. }
  pose proof (wp_row_from_relationship (index_id (length (rows st))) r (interner st) l
    (conj (sr_interner _ _ _ Hst) Hh)) as Hw. unfold wp in Hw.
  destruct (row_from_relationship _ r (interner st)) as [[row|e] i'].
  - destruct Hw as ([Hi' Hm'] & Hrow & Hid).
    pose proof (set_interner_rep _ _ _ _ _ Hst (interned_prefix l _) Hi') as Hst1.
    unfold ready_uniqueness, st_modify. cbn [uniqueness set_interner]. rewrite Hix.
    exists row. rewrite <- Hid. split.
    + by apply (push_row_rep (st:=set_interner i' st)).
    + done.
    + done.
    + by apply (push_live_relationships (st:=set_interner i' st)
                 (l:=interned l (relationship_identifier_values r))).
  - destruct Hw as (Hc & Hn & l' & Hp & Hi' & Hm'). split_and!; [done|by intros [_ ?]|].
    exists l'. split; [done|]. split.
    + by eapply set_interner_rep.
    + done.
    + unfold has_ready_uniqueness. simpl. by rewrite Hix.
    + done.
Qed.

Lemma wp_store_delete st l ps rels r :
  store_state st l ps rels →
  wp (store_delete r) st
    (λ _ st', r ∈ rels ∧ store_state st' l ps (filter (λ x, x ≠ r) rels))
    (λ e st', e = RelationshipNotFound r ∧ r ∉ rels ∧ st' = st).
Proof.
  intros [Hst Hh [ix Hix]%ready_index <-].
  unfold store_delete, wp, st_bind, st_lift, lookup_relationship_row.
  destruct (row_from_existing r (interner st)) as [row|] eqn:E; simpl.
  2: { split_and!; [done| |done]. rewrite (elem_of_live (st:=st)). intros (i & row & Hp & _).
       destruct (row_from_existing_None (sr_interner _ _ _ Hst) _ row E).
       by eapply (pair_denotes Hst). }
  apply (row_from_existing_Some (sr_interner _ _ _ Hst)) in E as [_ Hrow].
  unfold ready_uniqueness. rewrite Hix.
  destruct (identity_remove ix (rows st) row) as [[rid ix']|] eqn:Er; simpl.
  - destruct (removed_bucket Hst Hix Hrow Er) as (_ & _ & _ & row' & Hp & Hl).
    split; [rewrite (elem_of_live (st:=st)); eauto|]. split.
    + by eapply remove_rep.
    + done.
    + done.
    + by eapply remove_live_relationships.
  - split_and!; [done| |done]. rewrite (elem_of_live (st:=st)). intros (i & row' & Hp & Hl).
    pose proof (ready_identity Hst Hix) as [Hwf _ _].
    pose proof (identity_remove_bucket ix (rows st) row Hwf) as Hrm. rewrite Er in Hrm.
    assert (same_row (rows st) row (index_id i) = false) as Hs.
    { apply Hrm, (bucket_live Hst Hix). exists row', r. rewrite id_index_id.
      split_and!; [done|done|]. unfold identity_hash. f_equal.
      eapply row_denotes_identity; [apply (sr_interner _ _ _ Hst)|by eapply (pair_denotes Hst)|done]. }
    apply not_true_iff_false in Hs. destruct Hs.
    apply (same_row_denotes Hst _ _ _ Hrow). rewrite id_index_id. eauto.
Qed.
End invariant.
