(* ===== verification/StoreQuery.v ===== *)
(** * Queries of the indexed store

    The candidate lists, matchers and limits of the store's iterators against
    the meaning of the filters: a query lists, in row order, the first live
    relationships that satisfy the filter. *)

From S2P Require Import Prelude Model Domain StoreTypes Interner LiveRows Posting Row Identity.
From S2P Require Import Store StoreInv.

(** ** Iterators *)

(** The rows an iterator looks at: its candidates that pass the liveness test. *)
Definition visible_rows (st : Store) (all_live : bool) (cs : list RowId)
    : list RelationshipRow :=
  omap (M:=list) (λ rid, rows st !! id_index rid)
    (filter (λ rid, all_live || live_contains (live_rows st) rid = true) cs).

(** What remains of an iterator. *)
Definition matcher_items (m : CompactRelationshipMatcher) (visible : list RelationshipRow)
    : list RelationshipRow :=
  match m with
  | MResource rm =>
      take (N.to_nat (rm_remaining rm)) (filter (λ row, matches_resource row rm = true) visible)
  | MSubject sm => filter (λ row, matches_subject row sm = true) visible
  end.

Lemma compact_drain_items st all_live fuel cs m :
  length cs < fuel → Forall (λ rid, is_Some (rows st !! id_index rid)) cs →
  compact_drain fuel st (mkIter all_live cs (Some m)) =
  matcher_items m (visible_rows st all_live cs).
Proof.
  intros Hfuel Hcs. revert fuel m Hfuel.
  induction Hcs as [|rid cs [row Hrow] _ IH]; intros fuel m Hfuel.
  { destruct fuel; [simpl in Hfuel; lia|]. change (visible_rows st all_live []) with (@nil RelationshipRow).
    destruct m; simpl; [|done]. by destruct (N.to_nat (rm_remaining m)). }
  destruct fuel as [|fuel]; [simpl in Hfuel; lia|].
  assert (∀ m, compact_drain (S fuel) st (mkIter all_live cs (Some m)) =
               matcher_items m (visible_rows st all_live cs)) as IHs.
  { intros m'. apply IH. simpl in Hfuel. lia. }
  cbn [compact_drain]. unfold compact_next. cbn [matcher all_rows_live candidates compact_scan].
  unfold visible_rows. rewrite filter_cons.
  destruct (negb all_live && negb (live_contains (live_rows st) rid)) eqn:Eskip.
  - rewrite <- negb_orb, negb_true_iff in Eskip. rewrite decide_False by (by rewrite Eskip).
    apply IHs.
  - rewrite <- negb_orb, negb_false_iff in Eskip. rewrite decide_True by done.
    cbn [omap list_omap]. rewrite Hrow. destruct m as [rm|sm].
    + destruct (N.eqb_spec (rm_remaining rm) 0) as [E0|E0]; simpl; [by rewrite E0|].
      rewrite filter_cons. destruct (matches_resource row rm) eqn:Em.
      * rewrite decide_True by done. rewrite IH by (simpl in Hfuel; lia).
        unfold matcher_items. cbn [rm_remaining decrement].
        replace (N.to_nat (rm_remaining rm)) with (S (N.to_nat (rm_remaining rm - 1))) by lia.
        done.
      * rewrite decide_False by done. apply (IHs (MResource rm)).
    + simpl. rewrite filter_cons. destruct (matches_subject row sm) eqn:Em.
      * rewrite decide_True by done. f_equal. apply IH. simpl in Hfuel. lia.
      * rewrite decide_False by done. apply (IHs (MSubject sm)).
Qed.

Section queries.
Context `{Hasher} {st : Store} {l : list string} {ps : list (RelationshipRow * Relationship)}.
Hypothesis Hst : store_rep st l ps.

(** ** Candidate lists *)

(** The visible rows of a posting list are the live rows with that key. *)
Lemma visible_posting {K} `{Countable K} `{SortKey K} (p : PostingIndex K) keys k :
  indexed_by p keys (rows st) →
  Forall (λ rid, is_Some (rows st !! id_index rid)) (posting p k) ∧
  visible_rows st (is_all_live (live_rows st)) (posting p k) =
    (filter (λ q, k ∈ keys q.1) (live_pairs st ps)).*1.
Proof.
  intros [_ Hp]. rewrite Hp.
  assert (∀ row, row ∈ rows st → rows st !! id_index (row_id row) = Some row ∧
    (is_all_live (live_rows st) || live_contains (live_rows st) (row_id row)) = is_live st row)
    as Hrow.
  { intros row [i Hi]%list_elem_of_lookup. pose proof (sr_ids _ _ _ Hst _ _ Hi) as Hid.
    rewrite Hid, id_index_id. split; [done|]. unfold is_live. rewrite Hid.
    destruct (is_all_live (live_rows st)) eqn:E; [|done]. simpl. symmetry.
    apply (is_all_live_at _ _ _ (sr_live _ _ _ Hst) E). by eapply lookup_lt_Some. }
  split.
  - apply Forall_forall. intros rid (row & -> & [_ Hin]%list_elem_of_filter)%list_elem_of_fmap.
    destruct (Hrow _ Hin) as [-> _]. eauto.
  - unfold live_pairs. rewrite (sr_rows _ _ _ Hst) in *. unfold visible_rows.
    assert (∀ q, q ∈ ps → rows st !! id_index (row_id q.1) = Some q.1 ∧
      (is_all_live (live_rows st) || live_contains (live_rows st) (row_id q.1)) = is_live st q.1)
      as Hq.
    { intros q Hq. rewrite (sr_rows _ _ _ Hst). apply Hrow.
      apply list_elem_of_fmap. eauto. }
    clear -Hq. induction ps as [|q qs IH]; [done|].
    specialize (IH (λ q' Hq', Hq q' (list_elem_of_further _ _ _ Hq'))).
    destruct (Hq q (list_elem_of_here _ _)) as [Hl Ho].
    rewrite fmap_cons, !(filter_cons _ q). destruct (decide (is_live st q.1 = true)) as [Hlive|Hlive].
    + rewrite (filter_cons (λ row, k ∈ keys row)), (filter_cons _ q).
      destruct (decide (k ∈ keys q.1)); [|exact IH].
      rewrite !fmap_cons, filter_cons_True by (by rewrite Ho). cbn [omap list_omap].
      rewrite Hl. f_equal. exact IH.
    + rewrite (filter_cons (λ row, k ∈ keys row)).
      destruct (decide (k ∈ keys q.1)); [|exact IH].
      rewrite fmap_cons, filter_cons_False by (by rewrite Ho). exact IH.
Qed.

(** Filtering the candidates of a key that every match has loses nothing. *)
Lemma filter_candidates {K} (keys : RelationshipRow → list K) `{EqDecision K} (k : K)
    (f : RelationshipRow → bool) (P : Relationship → bool) :
  (∀ row, f row = true → k ∈ keys row) → (∀ q, q ∈ ps → f q.1 = P q.2) →
  filter (λ row, f row = true) (filter (λ q, k ∈ keys q.1) (live_pairs st ps)).*1 =
  (filter (λ q, P q.2 = true) (live_pairs st ps)).*1.
Proof.
  intros Hk HP. rewrite filter_list_fmap, list_filter_filter. f_equal.
  apply filter_ext_in. intros q [_ Hq]%list_elem_of_filter. rewrite HP by done.
  split; [tauto|]. intros Hp. split; [done|]. apply Hk. by rewrite HP.
Qed.

Lemma resource_iter_items m P :
  (∀ q, q ∈ ps → matches_resource q.1 m = P q.2) →
  compact_items st (resource_iter st (Some m)) =
  (take (N.to_nat (rm_remaining m)) (filter (λ q, P q.2 = true) (live_pairs st ps))).*1.
Proof.
  intros HP. unfold compact_items, resource_iter. cbn [candidates fmap option_fmap option_map].
  rewrite fmap_take. pose proof (sr_indexes _ _ _ Hst) as [H1 H2 H3 H4 _ _ _].
  assert (∀ {K} `{Countable K} `{SortKey K} (p : PostingIndex K) keys k,
    indexed_by p keys (rows st) → (∀ row, matches_resource row m = true → k ∈ keys row) →
    compact_drain (S (length (posting p k))) st
      (mkIter (is_all_live (live_rows st)) (posting p k) (Some (MResource m))) =
    take (N.to_nat (rm_remaining m)) (filter (λ q, P q.2 = true) (live_pairs st ps)).*1) as Hgen.
  { intros K ??? p keys k Hp Hk. destruct (visible_posting p keys k Hp) as [Hall Hvis].
    rewrite compact_drain_items by (done || lia). simpl. rewrite Hvis. f_equal.
    by apply filter_candidates. }
  assert (∀ row, matches_resource row m = true → row_resource_type row = rm_resource_type m ∧
    (∀ i, rm_optional_resource_id m = Some i → row_resource_id row = i) ∧
    (∀ rel, rm_optional_relation m = Some rel → row_relation row = rel)) as Hm.
  { intros row. unfold matches_resource. rewrite !andb_true_iff, bool_decide_eq_true.
    intros [[[Ht Hi] Hr] _]. split_and!; [done|..].
    - intros i E. rewrite E in Hi. by apply bool_decide_eq_true in Hi.
    - intros rel E. rewrite E in Hr. by apply bool_decide_eq_true in Hr. }
  unfold resource_candidate_row_ids.
  destruct (rm_optional_resource_id m) as [i|], (rm_optional_relation m) as [rel|].
  - apply (Hgen _ _ _ _ (by_resource (indexes st)) _ _ H1).
    intros row (Ht & Hi & Hr)%Hm. unfold resource_key.
    rewrite Ht, (Hi _ eq_refl), (Hr _ eq_refl). by left.
  - apply (Hgen _ _ _ _ (by_resource_object (indexes st)) _ _ H2).
    intros row (Ht & Hi & _)%Hm. unfold resource_object_key.
    rewrite Ht, (Hi _ eq_refl). by left.
  - apply (Hgen _ _ _ _ (by_resource_type_relation (indexes st)) _ _ H3).
    intros row (Ht & _ & Hr)%Hm. unfold resource_type_relation_key.
    rewrite Ht, (Hr _ eq_refl). by left.
  - apply (Hgen _ _ _ _ (by_resource_type (indexes st)) _ _ H4).
    intros row (Ht & _)%Hm. rewrite Ht. by left.
Qed.

Lemma subject_iter_items m P :
  (∀ q, q ∈ ps → matches_subject q.1 m = P q.2) →
  compact_items st (subject_iter st (Some m)) =
  (filter (λ q, P q.2 = true) (live_pairs st ps)).*1.
Proof.
  intros HP. unfold compact_items, subject_iter. cbn [candidates fmap option_fmap option_map].
  pose proof (sr_indexes _ _ _ Hst) as [_ _ _ _ H5 H6 H7].
  assert (∀ {K} `{Countable K} `{SortKey K} (p : PostingIndex K) keys k,
    indexed_by p keys (rows st) → (∀ row, matches_subject row m = true → k ∈ keys row) →
    compact_drain (S (length (posting p k))) st
      (mkIter (is_all_live (live_rows st)) (posting p k) (Some (MSubject m))) =
    (filter (λ q, P q.2 = true) (live_pairs st ps)).*1) as Hgen.
  { intros K ??? p keys k Hp Hk. destruct (visible_posting p keys k Hp) as [Hall Hvis].
    rewrite compact_drain_items by (done || lia). simpl. rewrite Hvis.
    by apply filter_candidates. }
  assert (∀ row, matches_subject row m = true → row_subject_type row = sm_subject_type m ∧
    (∀ i, sm_optional_subject_id m = Some i → row_subject_id row = i) ∧
    (∀ rel, sm_optional_relation m = Some rel → row_subject_relation row = Some rel)) as Hm.
  { intros row. unfold matches_subject. rewrite !andb_true_iff, bool_decide_eq_true.
    intros [[Ht Hi] Hr]. split_and!; [done|..].
    - intros i E. rewrite E in Hi. by apply bool_decide_eq_true in Hi.
    - intros rel E. rewrite E in Hr. by apply bool_decide_eq_true in Hr. }
  unfold subject_candidate_row_ids.
  destruct (sm_optional_subject_id m) as [i|], (sm_optional_relation m) as [rel|].
  - apply (Hgen _ _ _ _ (by_subject (indexes st)) _ _ H5).
    intros row (Ht & Hi & Hr)%Hm. unfold subject_keys.
    rewrite Ht, (Hi _ eq_refl), (Hr _ eq_refl). by left.
  - apply (Hgen _ _ _ _ (by_subject (indexes st)) _ _ H5).
    intros row (Ht & Hi & _)%Hm. unfold subject_keys.
    rewrite Ht, (Hi _ eq_refl). destruct (row_subject_relation row); [right|]; by left.
  - apply (Hgen _ _ _ _ (by_subject_type_relation (indexes st)) _ _ H6).
    intros row (Ht & _ & Hr)%Hm. unfold subject_type_relation_key.
    rewrite Ht, (Hr _ eq_refl). by left.
  - apply (Hgen _ _ _ _ (by_subject_type (indexes st)) _ _ H7).
    intros row (Ht & _)%Hm. rewrite Ht. by left.
Qed.

(** ** Matchers *)

Lemma symbol_test {kind} id (i : Ident kind) v sym :
  denotes l id i → lookup (interner st) v = Some sym →
  bool_decide (id = sym) = bool_decide (as_str i = v).
Proof.
  intros Hi Hsym%(lookup_spec (sr_interner _ _ _ Hst)). unfold denotes in Hi.
  apply bool_decide_ext. split; [intros ->; congruence|intros <-].
  apply (inj id_index). eapply NoDup_lookup; [apply (sr_interner _ _ _ Hst)|done|done].
Qed.

Lemma symbol_absent {kind} id (i : Ident kind) v :
  denotes l id i → lookup (interner st) v = None → as_str i ≠ v.
Proof.
  intros Hi Hv%(lookup_None (sr_interner _ _ _ Hst)) <-. apply Hv. by eapply list_elem_of_lookup_2.
Qed.

(** An optional test, compiled or not. *)
Lemma opt_symbol_test {kind} id (i : Ident kind) o os :
  denotes l id i → opt_lookup (interner st) o = Some os →
  is_none_or (λ s, bool_decide (id = s)) os = is_none_or (λ v, bool_decide (as_str i = v)) o.
Proof.
  intros Hi. destruct o as [v|]; simpl; [|by intros [= <-]].
  destruct (lookup (interner st) v) as [sym|] eqn:E; [|done]. intros [= <-]. simpl.
  by apply symbol_test.
Qed.

Lemma opt_symbol_absent {kind} id (i : Ident kind) o :
  denotes l id i → opt_lookup (interner st) o = None →
  is_none_or (λ v, bool_decide (as_str i = v)) o = false.
Proof.
  intros Hi. destruct o as [v|]; simpl; [|done].
  destruct (lookup (interner st) v) as [sym|] eqn:E; [done|]. intros _.
  apply bool_decide_eq_false. by eapply symbol_absent.
Qed.

(** The relation of a subject against an optional relation. *)
Definition relation_test (f : option string) (rel : option RelationName) : bool :=
  is_none_or (λ v, bool_decide (as_str <$> rel = Some v)) f.

Lemma opt_relation_test row s o os :
  subject_denotes l row s → opt_lookup (interner st) o = Some os →
  is_none_or (λ r, bool_decide (row_subject_relation row = Some r)) os =
  relation_test o (subject_relation s).
Proof.
  intros (_ & _ & Hr). unfold relation_test. destruct o as [v|]; simpl; [|by intros [= <-]].
  destruct (lookup (interner st) v) as [sym|] eqn:E; [|done]. intros [= <-]. simpl.
  destruct (row_subject_relation row) as [id|], (subject_relation s) as [rel|]; try done.
  pose proof (symbol_test _ _ _ _ Hr E) as Ht. simpl.
  rewrite <- (bool_decide_ext (id = sym) (Some id = Some sym)) by (split; congruence).
  rewrite Ht. apply bool_decide_ext. split; congruence.
Qed.

Lemma opt_relation_absent row s o :
  subject_denotes l row s → opt_lookup (interner st) o = None →
  relation_test o (subject_relation s) = false.
Proof.
  intros (_ & _ & Hr). unfold relation_test. destruct o as [v|]; simpl; [|done].
  destruct (lookup (interner st) v) as [sym|] eqn:E; [done|]. intros _.
  apply bool_decide_eq_false.
  destruct (row_subject_relation row) as [id|], (subject_relation s) as [rel|]; simpl; try done.
  intros [= Hv]. by eapply (symbol_absent _ _ v Hr).
Qed.

(** [subject_matches] with the tests on strings. *)
Lemma subject_matches_tests f s :
  subject_matches f s =
  bool_decide (as_str (object_type (subject_object s)) = as_str (sf_subject_type f)) &&
  is_none_or (λ v, bool_decide (as_str (object_id (subject_object s)) = v))
    (as_str <$> sf_optional_subject_id f) &&
  relation_test (as_str <$> sf_optional_relation f) (subject_relation s).
Proof.
  unfold subject_matches, relation_test. f_equal; [f_equal|].
  - by destruct (sf_optional_subject_id f).
  - destruct (sf_optional_relation f) as [rel|]; [|done]. simpl. apply bool_decide_ext.
    destruct (subject_relation s) as [rel'|]; simpl; [|done]. split; [by intros [= ->]|].
    intros [= E%ident_eq]. by rewrite E.
Qed.

Lemma filter_matches_tests f r :
  filter_matches f r =
  bool_decide (as_str (object_type (resource r)) = as_str (rf_resource_type f)) &&
  is_none_or (λ v, bool_decide (as_str (object_id (resource r)) = v))
    (as_str <$> rf_optional_resource_id f) &&
  is_none_or (λ v, bool_decide (as_str (relation r) = v)) (as_str <$> rf_optional_relation f) &&
  is_none_or (λ s, subject_matches s (subject r)) (rf_optional_subject f).
Proof.
  assert (∀ {kind} (i j : Ident kind), bool_decide (i = j) = bool_decide (as_str i = as_str j))
    as Hident.
  { intros kind i j. apply bool_decide_ext. split; [congruence|apply ident_eq]. }
  unfold filter_matches, opt_matches. rewrite Hident. f_equal; f_equal; [f_equal|].
  - destruct (rf_optional_resource_id f); [apply Hident|done].
  - destruct (rf_optional_relation f); [apply Hident|done].
Qed.

Lemma pair_in q : q ∈ ps → row_denotes l q.1 q.2.
Proof. intros Hq. pose proof (sr_denotes _ _ _ Hst) as Hd. rewrite Forall_forall in Hd. by apply Hd. Qed.

Lemma subject_matcher_spec f row s :
  subject_denotes l row s →
  match subject_matcher st f with
  | Some m => matches_subject row m = subject_matches f s
  | None => subject_matches f s = false
  end.
Proof.
  intros Hs. pose proof Hs as (Ht & Hi & _). rewrite subject_matches_tests. unfold subject_matcher.
  destruct (lookup (interner st) (as_str (sf_subject_type f))) as [t|] eqn:Et; simpl.
  2: { rewrite bool_decide_eq_false_2; [done|]. by eapply symbol_absent. }
  destruct (opt_lookup _ (as_str <$> sf_optional_subject_id f)) as [i|] eqn:Ei; simpl.
  2: { rewrite (opt_symbol_absent _ _ _ Hi Ei). by rewrite andb_false_r. }
  destruct (opt_lookup _ (as_str <$> sf_optional_relation f)) as [rel|] eqn:Er; simpl.
  2: { rewrite (opt_relation_absent _ _ _ Hs Er). by rewrite andb_false_r. }
  unfold matches_subject. simpl.
  by rewrite (symbol_test _ _ _ _ Ht Et), (opt_symbol_test _ _ _ _ Hi Ei),
    (opt_relation_test _ _ _ _ Hs Er).
Qed.

Lemma resource_matcher_spec f q :
  q ∈ ps →
  match resource_matcher st f with
  | Some m => matches_resource q.1 m = filter_matches f q.2
  | None => filter_matches f q.2 = false
  end.
Proof.
  intros (Ht & Hi & Hr & Hs)%pair_in. rewrite filter_matches_tests. unfold resource_matcher.
  destruct (lookup (interner st) (as_str (rf_resource_type f))) as [t|] eqn:Et; simpl.
  2: { rewrite bool_decide_eq_false_2; [done|]. by eapply symbol_absent. }
  destruct (opt_lookup _ (as_str <$> rf_optional_resource_id f)) as [i|] eqn:Ei; simpl.
  2: { rewrite (opt_symbol_absent _ _ _ Hi Ei). by rewrite andb_false_r. }
  destruct (opt_lookup _ (as_str <$> rf_optional_relation f)) as [rel|] eqn:Er; simpl.
  2: { rewrite (opt_symbol_absent _ _ _ Hr Er). by rewrite andb_false_r. }
  assert (∀ os, match rf_optional_subject f with
                | Some s => Some <$> subject_matcher st s
                | None => Some None
                end = os →
     match os with
     | Some m => is_none_or (matches_subject q.1) m =
                 is_none_or (λ s, subject_matches s (subject q.2)) (rf_optional_subject f)
     | None => is_none_or (λ s, subject_matches s (subject q.2)) (rf_optional_subject f) = false
     end) as Hsub.
  { intros os <-. destruct (rf_optional_subject f) as [s|]; simpl; [|done].
    pose proof (subject_matcher_spec s q.1 _ Hs) as Hm. by destruct (subject_matcher st s). }
  specialize (Hsub _ eq_refl). destruct (match rf_optional_subject f with Some _ => _ | None => _ end)
    as [m|]; simpl.
  - unfold matches_resource. simpl.
    by rewrite (symbol_test _ _ _ _ Ht Et), (opt_symbol_test _ _ _ _ Hi Ei),
      (opt_symbol_test _ _ _ _ Hr Er), Hsub.
  - by rewrite Hsub, andb_false_r.
Qed.

(** ** The queries *)

Lemma no_matches (P : Relationship → bool) :
  (∀ q, q ∈ ps → P q.2 = false) → filter (λ q, P q.2 = true) (live_pairs st ps) = [].
Proof.
  intros HP. apply elem_of_nil_inv. intros q [Hq [_ Hin]%list_elem_of_filter]%list_elem_of_filter.
  by rewrite HP in Hq.
Qed.

Lemma resource_matcher_limit f m :
  resource_matcher st f = Some m → rm_remaining m = limit_get (rf_limit f).
Proof.
  unfold resource_matcher.
  by intros (? & _ & (? & _ & (? & _ & (? & _ & [= <-])%bind_Some)%bind_Some)%bind_Some)%bind_Some.
Qed.

Lemma query_pairs f :
  compact_items st (query_compact_relationships st f) =
  (take (limit_nat (rf_limit f))
     (filter (λ q, filter_matches f q.2 = true) (live_pairs st ps))).*1.
Proof.
  unfold query_compact_relationships.
  pose proof (resource_matcher_spec f) as Hm. destruct (resource_matcher st f) as [m|] eqn:E.
  - rewrite (resource_iter_items m (filter_matches f)) by done.
    by rewrite (resource_matcher_limit _ _ E).
  - rewrite (no_matches _ Hm), take_nil. done.
Qed.

Lemma reverse_query_pairs f :
  compact_items st (reverse_query_compact_relationships st f) =
  (filter (λ q, subject_matches f (subject q.2) = true) (live_pairs st ps)).*1.
Proof.
  unfold reverse_query_compact_relationships.
  assert (∀ q, q ∈ ps → match subject_matcher st f with
    | Some m => matches_subject q.1 m = subject_matches f (subject q.2)
    | None => subject_matches f (subject q.2) = false end) as Hm.
  { intros q (_ & _ & _ & Hs)%pair_in. by apply subject_matcher_spec. }
  destruct (subject_matcher st f) as [m|] eqn:E.
  - by apply (subject_iter_items m (λ r, subject_matches f (subject r))).
  - by rewrite (no_matches (λ r, subject_matches f (subject r)) Hm).
Qed.

(** A relationship on a given resource and relation. *)
Definition on_resource (o : ObjectRef) (rel : RelationName) (r : Relationship) : bool :=
  bool_decide (resource r = o) && bool_decide (relation r = rel).

Lemma on_resource_tests o rel r :
  on_resource o rel r =
  bool_decide (as_str (object_type (resource r)) = as_str (object_type o)) &&
  bool_decide (as_str (object_id (resource r)) = as_str (object_id o)) &&
  bool_decide (as_str (relation r) = as_str rel).
Proof.
  unfold on_resource. rewrite <- !bool_decide_and. apply bool_decide_ext. split.
  - by intros [-> ->].
  - intros [[Ht%ident_eq Hi%ident_eq] Hr%ident_eq]. split; [by apply object_ref_eq|done].
Qed.

Lemma resource_relation_matcher_spec o rel limit q :
  q ∈ ps →
  match resource_relation_matcher st o rel limit with
  | Some m => matches_resource q.1 m = on_resource o rel q.2
  | None => on_resource o rel q.2 = false
  end.
Proof.
  intros (Ht & Hi & Hr & _)%pair_in. rewrite on_resource_tests. unfold resource_relation_matcher.
  destruct (lookup (interner st) (as_str (object_type o))) as [t|] eqn:Et; simpl.
  2: { rewrite bool_decide_eq_false_2; [done|]. by eapply symbol_absent. }
  destruct (lookup (interner st) (as_str (object_id o))) as [i|] eqn:Ei; simpl.
  2: { rewrite (bool_decide_eq_false_2 (as_str (object_id _) = _)); [by rewrite andb_false_r|].
       by eapply symbol_absent. }
  destruct (lookup (interner st) (as_str rel)) as [r|] eqn:Er; simpl.
  2: { rewrite (bool_decide_eq_false_2 (as_str (relation _) = _)); [by rewrite andb_false_r|].
       by eapply symbol_absent. }
  unfold matches_resource. simpl. rewrite andb_true_r.
  by rewrite (symbol_test _ _ _ _ Ht Et), (symbol_test _ _ _ _ Hi Ei), (symbol_test _ _ _ _ Hr Er).
Qed.

Lemma resource_relation_pairs o rel limit :
  compact_items st (resource_relation st o rel limit) =
  (take (limit_nat limit) (filter (λ q, on_resource o rel q.2 = true) (live_pairs st ps))).*1.
Proof.
  unfold resource_relation. pose proof (resource_relation_matcher_spec o rel limit) as Hm.
  destruct (resource_relation_matcher st o rel limit) as [m|] eqn:E.
  - rewrite (resource_iter_items m (on_resource o rel)) by done. do 2 f_equal.
    unfold resource_relation_matcher in E.
    by apply bind_Some in E as (? & _ & (? & _ & (? & _ & [= <-])%bind_Some)%bind_Some).
  - by rewrite (no_matches _ Hm), take_nil.
Qed.

Definition on_resource_subject (o : ObjectRef) (rel : RelationName) (f : SubjectFilter)
    (r : Relationship) : bool :=
  on_resource o rel r && subject_matches f (subject r).

Lemma resource_relation_subject_pairs o rel f :
  compact_items st (resource_relation_subject st o rel f) =
  (take 1 (filter (λ q, on_resource_subject o rel f q.2 = true) (live_pairs st ps))).*1.
Proof.
  unfold resource_relation_subject, resource_relation_subject_matcher.
  pose proof (resource_relation_matcher_spec o rel query_limit_min) as Hm.
  destruct (resource_relation_matcher st o rel query_limit_min) as [m|] eqn:E; simpl.
  2: { rewrite (no_matches (on_resource_subject o rel f)); [done|].
       intros q Hq. unfold on_resource_subject. by rewrite (Hm q Hq). }
  assert (∀ q, q ∈ ps → match subject_matcher st f with
    | Some m => matches_subject q.1 m = subject_matches f (subject q.2)
    | None => subject_matches f (subject q.2) = false end) as Hs.
  { intros q (_ & _ & _ & Hs)%pair_in. by apply subject_matcher_spec. }
  destruct (subject_matcher st f) as [sm|] eqn:Es; simpl.
  2: { rewrite (no_matches (on_resource_subject o rel f)); [done|].
       intros q Hq. unfold on_resource_subject. by rewrite (Hs q Hq), andb_false_r. }
  rewrite (resource_iter_items _ (on_resource_subject o rel f)).
  - cbn [rm_remaining]. do 2 f_equal. unfold resource_relation_matcher in E.
    by apply bind_Some in E as (? & _ & (? & _ & (? & _ & [= <-])%bind_Some)%bind_Some).
  - intros q Hq. unfold on_resource_subject. rewrite <- (Hm q Hq), <- (Hs q Hq).
    unfold matches_resource. simpl.
    assert (rm_optional_subject m = None) as ->; [|by rewrite andb_true_r].
    unfold resource_relation_matcher in E.
    by apply bind_Some in E as (? & _ & (? & _ & (? & _ & [= <-])%bind_Some)%bind_Some).
Qed.

(** ** First matches *)

(** [iter.next().is_some()] *)
Lemma compact_next_some it :
  bool_decide (is_Some (compact_next st it).1) = bool_decide (compact_items st it ≠ []).
Proof.
  unfold compact_items. cbn [compact_drain].
  destruct (compact_next st it) as [[row|] it']; simpl; done.
Qed.

Lemma fmap_take_filter_nonempty (P : Relationship → bool) n :
  0 < n →
  bool_decide ((take n (filter (λ q, P q.2 = true) (live_pairs st ps))).*1 ≠ []) =
  existsb P (live_relationships st ps).
Proof.
  intros Hn. unfold live_relationships. destruct n as [|n]; [lia|].
  induction (live_pairs st ps) as [|q qs IH]; [done|]. rewrite filter_cons. simpl.
  destruct (P q.2) eqn:E; [done|]. rewrite decide_False by done. exact IH.
Qed.

Lemma any_resource_match_live f :
  any_resource_match st f = existsb (filter_matches f) (live_relationships st ps).
Proof.
  unfold any_resource_match. rewrite compact_next_some, query_pairs.
  apply fmap_take_filter_nonempty, limit_positive.
Qed.
End queries.

(** ** Results as relationships *)

Section results.
Context `{Hasher}.

(** The relationships of an iterator's items, as its consumers read them. *)
Definition item_relationships (st : Store) (items : list RelationshipRow) : list Relationship :=
  omap (M:=list)
    (λ row, match relationship_from_row (interner st) row with Ok r => Some r | Err _ => None end)
    items.

Lemma item_relationships_pairs st l ps (qs : list (RelationshipRow * Relationship)) :
  store_rep st l ps → (∀ q, q ∈ qs → q ∈ ps) → item_relationships st qs.*1 = qs.*2.
Proof.
  intros Hst. induction qs as [|q qs IH]; intros Hqs; [done|].
  pose proof (pair_in Hst q (Hqs q (list_elem_of_here _ _))) as Hq.
  apply (relationship_from_row_Ok (sr_interner _ _ _ Hst)) in Hq.
  rewrite !fmap_cons. unfold item_relationships. cbn [omap list_omap]. rewrite Hq. f_equal.
  apply IH. intros q' Hq'. apply Hqs. by right.
Qed.

Lemma taken_live st l ps n (P : Relationship → bool) :
  store_rep st l ps →
  item_relationships st (take n (filter (λ q, P q.2 = true) (live_pairs st ps))).*1 =
  take n (filter (λ r, P r = true) (live_relationships st ps)).
Proof.
  intros Hst. rewrite (item_relationships_pairs _ l ps); [|done|].
  - unfold live_relationships. rewrite filter_list_fmap. apply fmap_take.
  - intros q Hq. apply subseteq_take in Hq. apply list_elem_of_filter in Hq as [_ Hq].
    by apply list_elem_of_filter in Hq as [_ ?].
Qed.
End results.
