(* ===== verification/StoreSpec.v ===== *)
(** * Mutation batches of the indexed store

    The abstract contract of a relationship store (a duplicate-free list of
    relationships with batch semantics) and the proof that the indexed store
    implements it, capacity errors apart. *)

From S2P Require Import Prelude Model Domain StoreTypes Interner LiveRows Posting Row Identity.
From S2P Require Import Store StoreInv StoreQuery.

(** ** The contract *)

Definition spec_mutation (rels : list Relationship) (m : RelationshipMutation)
    : result StoreError (list Relationship) :=
  match m with
  | Create r => if decide (r ∈ rels) then Err (RelationshipAlreadyExists r) else Ok (rels ++ [r])
  | Touch r => Ok (if decide (r ∈ rels) then rels else rels ++ [r])
  | Delete r => if decide (r ∈ rels) then Ok (filter (λ x, x ≠ r) rels)
                else Err (RelationshipNotFound r)
  end.

Definition spec_precondition (rels : list Relationship) (p : Precondition)
    : result StoreError unit :=
  match p with
  | MustMatch f => if existsb (filter_matches f) rels then Ok tt else Err (PreconditionFailed p)
  | MustNotMatch f => if existsb (filter_matches f) rels then Err (PreconditionFailed p) else Ok tt
  end.

(** The first relationship that occurs earlier in the list. *)
Definition first_repeat (rs : list Relationship) : option Relationship :=
  head (omap (M:=list) (λ i, r ← rs !! i; if decide (r ∈ take i rs) then Some r else None)
          (seq 0 (length rs))).

(** Limits, preconditions, duplicate targets, then the mutations in order. *)
Definition spec_apply (rels : list Relationship) (ms : list RelationshipMutation)
    (ps : list Precondition) : result StoreError (list Relationship) :=
  _ ← guard_err (MAX_PRECONDITIONS_PER_BATCH <? batch_len ps)%Z
        (PreconditionBatchTooLarge MAX_PRECONDITIONS_PER_BATCH (batch_len ps));
  _ ← try_for (spec_precondition rels) ps;
  _ ← guard_err (MAX_MUTATIONS_PER_BATCH <? batch_len ms)%Z
        (MutationBatchTooLarge MAX_MUTATIONS_PER_BATCH (batch_len ms));
  match first_repeat (mutation_relationship <$> ms) with
  | Some r => Err (DuplicateMutation r)
  | None => try_fold spec_mutation rels ms
  end.

Lemma find_duplicate_from pre ms :
  find_duplicate (list_to_set pre) ms =
  head (omap (M:=list)
    (λ i, r ← (pre ++ (mutation_relationship <$> ms)) !! i;
          if decide (r ∈ take i (pre ++ (mutation_relationship <$> ms))) then Some r else None)
    (seq (length pre) (length ms))).
Proof.
  revert pre. induction ms as [|m ms IH]; intros pre; [done|].
  set (r := mutation_relationship m). rewrite fmap_cons. fold r.
  cbn [find_duplicate length seq omap list_omap]. fold r.
  rewrite (list_lookup_middle _ _ _ _ eq_refl), take_app_length. cbn [mbind option_bind].
  destruct (decide (r ∈ (list_to_set pre : gset Relationship))) as [Hr|Hr].
  - rewrite decide_True by (by apply elem_of_list_to_set in Hr). done.
  - rewrite decide_False by (intros Hn; apply Hr; by apply elem_of_list_to_set).
    specialize (IH (pre ++ [r])). rewrite list_to_set_app_L in IH. cbn [list_to_set] in IH.
    replace ({[r]} ∪ list_to_set pre : gset Relationship)
      with (list_to_set pre ∪ ({[r]} ∪ ∅) : gset Relationship) by set_solver.
    rewrite IH, length_app, Nat.add_1_r. by rewrite <- app_assoc.
Qed.

Lemma find_duplicate_spec ms :
  find_duplicate ∅ ms = first_repeat (mutation_relationship <$> ms).
Proof.
  pose proof (find_duplicate_from [] ms) as E. cbn [list_to_set length app] in E.
  rewrite E. unfold first_repeat. by rewrite length_fmap.
Qed.

(** ** Room *)

Definition mutation_values (ms : list RelationshipMutation) : list string :=
  mjoin ((λ m, relationship_identifier_values (mutation_relationship m)) <$> ms).

(** Row ids, symbols and bytes for a batch, even if every identifier is new. *)
Record batch_room (l : list string) (ps : list (RelationshipRow * Relationship))
    (ms : list RelationshipMutation) : Prop := {
  room_rows : (Z.of_nat (length ps) + Z.of_nat (length ms) ≤ u32_max)%Z;
  room_symbols : (Z.of_nat (length l) + Z.of_nat (length (mutation_values ms)) ≤ u32_max)%Z;
  room_bytes : (Z.of_nat (total_len l) + Z.of_nat (total_len (mutation_values ms)) ≤ u32_max)%Z
}.

(** The strings not yet interned, with repetitions. *)
Definition missing (l0 vs : list string) : list string := filter (λ v, v ∉ l0) vs.

Lemma interned_missing l0 l vs :
  l0 `prefix_of` l →
  length (interned l vs) ≤ length l + length (missing l0 vs) ∧
  total_len (interned l vs) ≤ total_len l + total_len (missing l0 vs).
Proof.
  revert l. induction vs as [|v vs IH]; intros l Hp; simpl; [lia|].
  destruct (IH (intern_list l v)) as [H1 H2]; [etrans; [done|apply intern_list_prefix]|].
  unfold missing in *. rewrite filter_cons. unfold intern_list in *.
  destruct (decide (v ∈ l)) as [Hv|Hv].
  - destruct (decide (v ∉ l0)); simpl; lia.
  - rewrite decide_True; [|intros Hv0; apply Hv; destruct Hp as [k ->]; apply elem_of_app; by left].
    rewrite length_app, total_len_app in *. simpl in *. lia.
Qed.

Lemma missing_length l0 vs :
  length (missing l0 vs) ≤ length vs ∧ total_len (missing l0 vs) ≤ total_len vs.
Proof.
  unfold missing. induction vs as [|v vs IH]; simpl; [done|]. rewrite filter_cons.
  case_decide; simpl; lia.
Qed.

Lemma mutation_values_cons m ms :
  mutation_values (m :: ms) =
  relationship_identifier_values (mutation_relationship m) ++ mutation_values ms.
Proof. done. Qed.

Lemma batch_room_cons l ps m ms :
  let vs := relationship_identifier_values (mutation_relationship m) in
  batch_room l ps (m :: ms) ↔
  (Z.of_nat (length ps) + 1 + Z.of_nat (length ms) ≤ u32_max)%Z ∧
  (Z.of_nat (length l) + Z.of_nat (length vs) + Z.of_nat (length (mutation_values ms)) ≤ u32_max)%Z ∧
  (Z.of_nat (total_len l) + Z.of_nat (total_len vs) +
   Z.of_nat (total_len (mutation_values ms)) ≤ u32_max)%Z.
Proof.
  intros vs. split.
  - intros [Hr Hs Hb]. rewrite mutation_values_cons in Hs, Hb.
    rewrite length_app in Hs. rewrite total_len_app in Hb. fold vs in Hs, Hb.
    cbn [length] in Hr. lia.
  - intros (Hr & Hs & Hb).
    split; rewrite ?mutation_values_cons, ?length_app, ?total_len_app; fold vs; cbn [length]; lia.
Qed.

Lemma interned_bounds l vs :
  length (interned l vs) ≤ length l + length vs ∧
  total_len (interned l vs) ≤ total_len l + total_len vs.
Proof.
  destruct (interned_missing l l vs) as [H1 H2]; [done|].
  destruct (missing_length l vs). lia.
Qed.

(** A batch's room gives each mutation its room, and leaves the rest's. *)
Lemma batch_room_step l ps m ms :
  batch_room l ps (m :: ms) → insert_fits l ps (mutation_relationship m).
Proof.
  intros (Hr & Hs & Hb)%batch_room_cons.
  destruct (interned_bounds l (relationship_identifier_values (mutation_relationship m))).
  split; [lia|]. split; lia.
Qed.

Lemma batch_room_skip l ps m ms : batch_room l ps (m :: ms) → batch_room l ps ms.
Proof. intros (Hr & Hs & Hb)%batch_room_cons. split; lia. Qed.

Lemma batch_room_push l ps m ms p :
  batch_room l ps (m :: ms) →
  batch_room (interned l (relationship_identifier_values (mutation_relationship m)))
    (ps ++ [p]) ms.
Proof.
  intros (Hr & Hs & Hb)%batch_room_cons.
  destruct (interned_bounds l (relationship_identifier_values (mutation_relationship m))).
  split; rewrite ?length_app; cbn [length]; lia.
Qed.

Section batches.
Context `{Hasher}.

(** ** One mutation *)

(** What a mutation may do, against the contract: the contract's result, or a
    capacity error, only without room, that changes nothing observable. *)
Lemma wp_apply_single st l ps rels m :
  store_state st l ps rels →
  wp (apply_single_mutation m) st
    (λ _ st', ∃ rels', spec_mutation rels m = Ok rels' ∧
       (store_state st' l ps rels' ∨
        ∃ row, store_state st' (interned l (relationship_identifier_values (mutation_relationship m)))
                 (ps ++ [(row, mutation_relationship m)]) rels'))
    (λ e st', (∃ l', l `prefix_of` l' ∧ store_state st' l' ps rels) ∧
       (spec_mutation rels m = Err e ∨
        (∃ c, e = CapacityExceeded c) ∧ ¬ insert_fits l ps (mutation_relationship m))).
Proof.
  intros Hst.
  assert (∀ r, (contains_relationship st r = true ∧ r ∈ rels) ∨
               (contains_relationship st r = false ∧ r ∉ rels)) as Hc.
  { intros r. pose proof (ss_contains _ _ _ _ r Hst) as Hiff.
    destruct (contains_relationship st r); [left|right]; (split; [done|]).
    - by apply Hiff.
    - intros Hin. by apply Hiff in Hin. }
  destruct m as [r|r|r]; simpl.
  - unfold store_create. destruct (Hc r) as [[Ec Hin]|[Ec Hin]]; unfold wp; rewrite Ec.
    + split; [by exists l|]. left. by rewrite decide_True.
    + rewrite decide_False by done.
      eapply wp_mono; [| |by apply (wp_store_insert _ _ _ _ _ Hst)].
      * intros _ st' [row Hs]. eauto.
      * intros e st' (He & Hn & Hl). eauto.
  - unfold store_touch. destruct (Hc r) as [[Ec Hin]|[Ec Hin]]; unfold wp; rewrite Ec.
    + rewrite decide_True by done. eauto.
    + rewrite decide_False by done.
      eapply wp_mono; [| |by apply (wp_store_insert _ _ _ _ _ Hst)].
      * intros _ st' [row Hs]. eauto.
      * intros e st' (He & Hn & Hl). eauto.
  - eapply wp_mono; [| |by apply wp_store_delete].
    + intros _ st' [Hin Hs]. rewrite decide_True by done. eauto.
    + intros e st' (-> & Hin & ->). split; [by exists l|]. left. by rewrite decide_False.
Qed.

(** ** A sequence of mutations *)

Lemma wp_apply_sequence ms st l ps rels :
  store_state st l ps rels →
  wp (st_for apply_single_mutation ms) st
    (λ _ st', ∃ rels' l' ps', try_fold spec_mutation rels ms = Ok rels' ∧
                              store_state st' l' ps' rels')
    (λ e _, try_fold spec_mutation rels ms = Err e ∨
            (∃ c, e = CapacityExceeded c) ∧ ¬ batch_room l ps ms).
Proof.
  revert st l ps rels. induction ms as [|m ms IH]; intros st l ps rels Hst.
  { unfold wp. simpl. eauto 6. }
  cbn [st_for]. apply wp_bind. eapply wp_mono; [| |by apply wp_apply_single].
  - intros _ st1 (rels1 & E1 & Hst1). simpl. rewrite E1. simpl.
    destruct Hst1 as [Hst1|[row Hst1]];
      (eapply wp_mono; [| |by apply (IH _ _ _ _ Hst1)]); try done;
      intros e st2 [He|[He Hn]]; auto; right; split; try done; intros Hroom; apply Hn.
    + by eapply batch_room_skip.
    + by apply batch_room_push.
  - intros e st1 (_ & [He|[He Hn]]).
    + left. simpl. by rewrite He.
    + right. split; [done|]. intros Hroom. apply Hn. by eapply batch_room_step.
Qed.

(** ** Compaction *)

Lemma intern_compact_row_eq source l row rid r st :
  interner_rep (interner source) l → row_denotes l row r →
  intern_compact_row source rid row st = row_from_relationship rid r st.
Proof.
  intros Hrep (Ha & Hb & Hc & Hd & He & Hf).
  assert (∀ {kind} id (i : Ident kind), denotes l id i → store_resolve source id = as_str i) as Hres.
  { intros kind id i Hi. unfold store_resolve.
    by rewrite (proj2 (resolve_Ok Hrep id (as_str i)) Hi). }
  unfold intern_compact_row, row_from_relationship.
  rewrite (Hres _ _ _ Ha), (Hres _ _ _ Hb), (Hres _ _ _ Hc), (Hres _ _ _ Hd), (Hres _ _ _ He).
  destruct (subject r) as [o|o rel], (row_subject_relation row) as [f|]; simpl in *; try done;
    unfold st_bind, st_ret; rewrite ?(Hres _ _ _ Hf);
    repeat (destruct (intern _ _) as [[?|?] ?]; try done).
Qed.

(** Re-inserting a row of the source is inserting its relationship. *)
Lemma insert_compact_row_eq source l row r st :
  interner_rep (interner source) l → row_denotes l row r →
  insert_compact_row_from source row st = store_insert r st.
Proof.
  intros Hrep Hr. unfold insert_compact_row_from, store_insert, st_bind, st_zoom.
  destruct (st_lift _ st) as [[rid|e] st1]; [|done].
  by rewrite (intern_compact_row_eq _ _ _ _ _ _ Hrep Hr).
Qed.

Lemma elem_of_interned l vs v : v ∈ interned l vs ↔ v ∈ l ∨ v ∈ vs.
Proof.
  revert l. induction vs as [|x vs IH]; intros l; simpl.
  - split; [by left|]. intros [?|?%not_elem_of_nil]; done.
  - rewrite IH, elem_of_intern_list, elem_of_cons. tauto.
Qed.

Lemma NoDup_interned l vs : NoDup l → NoDup (interned l vs).
Proof.
  revert l. induction vs as [|x vs IH]; intros l Hl; simpl; [done|]. apply IH.
  unfold intern_list. case_decide; [done|]. apply NoDup_app.
  split_and!; [done| |apply NoDup_singleton]. by intros y Hy ->%list_elem_of_singleton.
Qed.

Lemma submseteq_total_len k l : k ⊆+ l → total_len k ≤ total_len l.
Proof. induction 1; simpl in *; lia. Qed.

(** Interning a selection of distinct strings needs no more room than they. *)
Lemma interned_subset k vs l :
  NoDup k → NoDup l → (∀ v, v ∈ k ∨ v ∈ vs → v ∈ l) →
  length (interned k vs) ≤ length l ∧ total_len (interned k vs) ≤ total_len l.
Proof.
  intros Hk Hl Hsub. assert (interned k vs ⊆+ l) as Hm.
  { apply NoDup_submseteq; [by apply NoDup_interned|].
    intros v Hv%elem_of_interned. by apply Hsub. }
  split; [by apply submseteq_length|by apply submseteq_total_len].
Qed.

Definition relationship_values (rs : list Relationship) : list string :=
  mjoin (relationship_identifier_values <$> rs).

(** Room for a sequence of new relationships. *)
Definition sequence_fits (l : list string) (ps : list (RelationshipRow * Relationship))
    (rs : list Relationship) : Prop :=
  (Z.of_nat (length ps) + Z.of_nat (length rs) ≤ u32_max)%Z ∧
  interns_fit l (relationship_values rs).

Lemma sequence_fits_cons l ps r rs :
  sequence_fits l ps (r :: rs) →
  insert_fits l ps r ∧
  ∀ p, sequence_fits (interned l (relationship_identifier_values r)) (ps ++ [p]) rs.
Proof.
  intros [Hlen Hfit].
  change (relationship_values (r :: rs))
    with (relationship_identifier_values r ++ relationship_values rs) in Hfit.
  unfold interns_fit in Hfit. rewrite interned_app in Hfit. simpl in Hlen.
  pose proof (interned_prefix (interned l (relationship_identifier_values r))
    (relationship_values rs)) as Hp.
  pose proof (prefix_length _ _ Hp). pose proof (prefix_total_len _ _ Hp).
  split; [split; [lia|]; split; lia|]. intros p. split; [|done].
  rewrite length_app. simpl. lia.
Qed.

(** Inserting distinct relationships one after the other. *)
Lemma wp_insert_sequence rs st l ps rels :
  store_state st l ps rels → NoDup (rels ++ rs) →
  wp (st_for store_insert rs) st
    (λ _ st', ∃ l' ps', store_state st' l' ps' (rels ++ rs))
    (λ e _, (∃ c, e = CapacityExceeded c) ∧ ¬ sequence_fits l ps rs).
Proof.
  revert st l ps rels. induction rs as [|r rs IH]; intros st l ps rels Hst Hnd.
  { unfold wp. simpl. exists l, ps. by rewrite app_nil_r. }
  assert (r ∉ rels) as Hnew.
  { intros Hin. apply NoDup_app in Hnd as (_ & Hd & _). apply (Hd r Hin). by left. }
  cbn [st_for]. apply wp_bind. eapply wp_mono; [| |by apply (wp_store_insert _ _ _ _ r Hst)].
  - intros [] st1 [row Hst1]. eapply wp_mono; [| |apply (IH _ _ _ _ Hst1)].
    + intros [] st2. by rewrite <- app_assoc.
    + intros e st2 [Hc Hn]. split; [done|]. intros [_ Hf]%sequence_fits_cons. by apply Hn.
    + by rewrite <- app_assoc.
  - intros e st1 (Hc & Hn & _). split; [done|]. by intros [Hf _]%sequence_fits_cons.
Qed.

Lemma store_state_default : store_state store_default [] [] [].
Proof. split; [apply store_rep_default|done..]. Qed.

Lemma compact_loop_eq st l ps qs s :
  store_rep st l ps → (∀ q, q ∈ qs → q ∈ ps) →
  st_for (insert_compact_row_from st) qs.*1 s = st_for store_insert qs.*2 s.
Proof.
  intros Hst. revert s. induction qs as [|q qs IH]; intros s Hqs; [done|].
  rewrite !fmap_cons. cbn [st_for]. unfold st_bind.
  rewrite (insert_compact_row_eq _ _ _ _ _ (sr_interner _ _ _ Hst)
             (pair_in Hst q (Hqs q (list_elem_of_here _ _)))).
  destruct (store_insert q.2 s) as [[]]; [|done]. apply IH. intros q' Hq'. apply Hqs. by right.
Qed.

Lemma relationship_values_denoted st l ps rs v :
  store_rep st l ps → (∀ r, r ∈ rs → ∃ row, (row, r) ∈ ps) →
  v ∈ relationship_values rs → v ∈ l.
Proof.
  intros Hst Hrs Hv. unfold relationship_values in Hv.
  apply list_elem_of_join in Hv as (vs & Hv & Hvs).
  apply list_elem_of_fmap in Hvs as (r & -> & [row Hr]%Hrs).
  apply (pair_in Hst) in Hr as (Ha & Hb & Hc & Hd & He & Hf). simpl in *.
  unfold relationship_identifier_values in Hv. unfold denotes in *.
  destruct (subject r) as [o|o rel]; simpl in *;
    repeat (apply elem_of_cons in Hv as [->|Hv]; [by eapply list_elem_of_lookup_2|]);
    try by apply not_elem_of_nil in Hv.
  destruct (row_subject_relation row); [|done].
  apply elem_of_cons in Hv as [->|Hv]; [by eapply list_elem_of_lookup_2|].
  by apply not_elem_of_nil in Hv.
Qed.

(** Compaction never fails and keeps the live relationships. *)
Lemma compact_ok st l ps rels :
  store_state st l ps rels →
  ∃ st' l' ps', compact_if_needed st = (Ok tt, st') ∧ store_state st' l' ps' rels.
Proof.
  intros Hst. unfold compact_if_needed. destruct (needs_compaction st); [|eauto 6].
  pose proof Hst as [Hrep _ _ <-].
  assert (filter (λ row, is_live st row = true) (rows st) = (live_pairs st ps).*1) as ->.
  { rewrite (sr_rows _ _ _ Hrep). apply filter_list_fmap. }
  assert (∀ q, q ∈ live_pairs st ps → q ∈ ps) as Hsub.
  { by intros q [_ Hq]%list_elem_of_filter. }
  rewrite (compact_loop_eq _ _ _ _ _ Hrep Hsub).
  destruct (interned_subset [] (relationship_values (live_pairs st ps).*2) l) as [Hlen Htot].
  { constructor. } { apply (sr_interner _ _ _ Hrep). }
  { intros v [Hv|Hv]; [by apply not_elem_of_nil in Hv|].
    eapply relationship_values_denoted; [exact Hrep| |exact Hv].
    intros r ([row r'] & -> & Hr)%list_elem_of_fmap. exists row. by apply Hsub. }
  pose proof (wp_insert_sequence (live_relationships st ps) _ _ _ _ store_state_default
    (sr_unique _ _ _ Hrep)) as Hw. unfold wp, live_relationships in Hw.
  destruct (st_for store_insert _ store_default) as [[[]|e] st'].
  { destruct Hw as (l' & ps' & Hst'). exists st', l', ps'. done. }
  destruct Hw as [_ []]. split.
  - pose proof (sr_cap _ _ _ Hrep) as Hcap.
    rewrite (sr_rows _ _ _ Hrep), length_fmap in Hcap.
    unfold live_pairs. rewrite length_fmap. cbn [length].
    pose proof (length_filter (λ p, is_live st p.1 = true) ps). lia.
  - pose proof (ir_cap _ _ (sr_interner _ _ _ Hrep)) as Hb.
    rewrite (ir_bytes _ _ (sr_interner _ _ _ Hrep)) in Hb.
    pose proof (ir_count _ _ (sr_interner _ _ _ Hrep)) as Hc. split; lia.
Qed.

(** ** Touch batches *)

(** The saturating counters are the true counts, cut at [usize::MAX]. *)
Lemma count_missing_values st l a b vs :
  interner_rep st l → (0 ≤ a)%Z → (0 ≤ b)%Z →
  foldl (count_missing st) (Z.min usize_max a, Z.min usize_max b) vs =
  (Z.min usize_max (a + Z.of_nat (length (missing l vs))),
   Z.min usize_max (b + Z.of_nat (total_len (missing l vs)))).
Proof.
  intros Hrep. revert a b. induction vs as [|v vs IH]; intros a b Ha Hb.
  { by rewrite !Z.add_0_r. }
  cbn [foldl]. unfold missing. rewrite filter_cons.
  unfold count_missing at 2. destruct (lookup st v) as [id|] eqn:E.
  - apply (lookup_spec Hrep) in E. rewrite decide_False by
      (intros Hn; apply Hn; by eapply list_elem_of_lookup_2). by apply IH.
  - apply (lookup_None Hrep) in E. rewrite decide_True by done. cbn [fst snd].
    unfold saturating_add.
    replace (Z.min usize_max (Z.min usize_max a + 1)) with (Z.min usize_max (a + 1)) by lia.
    replace (Z.min usize_max (Z.min usize_max b + Z.of_nat (byte_len v)))
      with (Z.min usize_max (b + Z.of_nat (byte_len v))) by lia.
    rewrite IH by lia. cbn [length sum_list_with]. unfold missing. f_equal; f_equal; lia.
Qed.

Lemma missing_app l vs ws : missing l (vs ++ ws) = missing l vs ++ missing l ws.
Proof. apply filter_app. Qed.

Lemma count_missing_mutations st l a b ms :
  interner_rep st l → (0 ≤ a)%Z → (0 ≤ b)%Z →
  foldl (λ acc m, foldl (count_missing st) acc
                    (relationship_identifier_values (mutation_relationship m)))
    (Z.min usize_max a, Z.min usize_max b) ms =
  (Z.min usize_max (a + Z.of_nat (length (missing l (mutation_values ms)))),
   Z.min usize_max (b + Z.of_nat (total_len (missing l (mutation_values ms))))).
Proof.
  intros Hrep. revert a b. induction ms as [|m ms IH]; intros a b Ha Hb.
  { by rewrite !Z.add_0_r. }
  cbn [foldl]. rewrite (count_missing_values _ _ _ _ _ Hrep) by done.
  rewrite IH by lia. rewrite mutation_values_cons, missing_app, length_app, total_len_app.
  f_equal; f_equal; lia.
Qed.

Lemma id_from_index_bound component n i : id_from_index component n = Ok i → (Z.of_nat n + 1 ≤ u32_max)%Z.
Proof. by intros [[_ ?]|[? _]]%id_from_index_cases. Qed.

(** What the capacity check of a touch batch guarantees. *)
Lemma ensure_insert_capacity_Ok st n a b :
  (0 ≤ n)%Z → (0 ≤ a)%Z → (0 ≤ b)%Z →
  ensure_insert_capacity st n (Z.min usize_max a) (Z.min usize_max b) = Ok tt → (0 < n)%Z →
  (Z.of_nat (length (rows st)) + n ≤ u32_max)%Z ∧
  (a = 0 ∨ Z.of_nat (length (entries (interner st))) + a ≤ u32_max)%Z ∧
  (Z.of_nat (byte_len (bytes (interner st))) + b ≤ u32_max)%Z.
Proof.
  intros Hn Ha Hb Hok Hpos. unfold ensure_insert_capacity in Hok.
  rewrite (proj2 (Z.eqb_neq n 0)) in Hok by lia.
  apply bind_Ok in Hok as (last & Hlast%ok_or_Ok & Hok).
  apply bind_Ok in Hok as (rid & Hrid%id_from_index_bound & Hok).
  apply bind_Ok in Hok as ([] & Hsym & Hok).
  apply bind_Ok in Hok as (v & Hv%ok_or_Ok & _).
  apply bind_Some in Hlast as (w & Hw & Hlast). apply bind_Some in Hv as (x & Hx & Hv).
  unfold checked_add, checked_sub, try_from_uint in *.
  destruct (Z.leb_spec (Z.of_nat (length (rows st)) + n) usize_max); [|done].
  injection Hw as <-. destruct (Z.leb_spec 1 (Z.of_nat (length (rows st)) + n)); [|done].
  injection Hlast as <-.
  destruct (Z.leb_spec (Z.of_nat (byte_len (bytes (interner st))) + Z.min usize_max b) usize_max);
    [|done]. injection Hx as <-.
  destruct (Z.leb_spec (Z.of_nat (byte_len (bytes (interner st))) + Z.min usize_max b) u32_max);
    [|done].
  assert (u32_max < usize_max)%Z by (unfold u32_max, usize_max, u64_max; lia).
  split_and!; [lia| |lia].
  destruct (Z.ltb_spec 0 (Z.min usize_max a)); [right|left; lia].
  apply bind_Ok in Hsym as (ls & Hls%ok_or_Ok & Hsym).
  apply bind_Ok in Hsym as (sid & Hsid%id_from_index_bound & _).
  apply bind_Some in Hls as (y & Hy & Hls).
  destruct (Z.leb_spec (Z.of_nat (length (entries (interner st))) + Z.min usize_max a) usize_max);
    [|done]. injection Hy as <-.
  destruct (Z.leb_spec 1 (Z.of_nat (length (entries (interner st))) + Z.min usize_max a)); [|done].
  injection Hls as <-. lia.
Qed.

(** The relationships of a touch batch that the store did not have. *)
Definition new_touches (rels : list Relationship) (ms : list RelationshipMutation) :=
  filter (λ m, mutation_relationship m ∉ rels) ms.

Definition touch_room (l0 l : list string) (ps : list (RelationshipRow * Relationship))
    (rels : list Relationship) (ms : list RelationshipMutation) : Prop :=
  let vs := missing l0 (mutation_values (new_touches rels ms)) in
  (Z.of_nat (length ps) + Z.of_nat (length (new_touches rels ms)) ≤ u32_max ∧
   Z.of_nat (length l) + Z.of_nat (length vs) ≤ u32_max ∧
   Z.of_nat (total_len l) + Z.of_nat (total_len vs) ≤ u32_max)%Z.

(** With that room, every touch succeeds. *)
Lemma touch_loop l0 rels0 ms st l ps rels :
  store_state st l ps rels → l0 `prefix_of` l → (∀ r, r ∈ rels0 → r ∈ rels) →
  touch_room l0 l ps rels0 ms →
  ∃ st' l' ps' rels', st_for (λ m, store_touch (mutation_relationship m)) ms st = (Ok tt, st') ∧
    store_state st' l' ps' rels' ∧
    try_fold spec_mutation rels (Touch <$> (mutation_relationship <$> ms)) = Ok rels'.
Proof.
  revert st l ps rels. induction ms as [|m ms IH]; intros st l ps rels Hst Hp Hsub Hroom.
  { eauto 8. }
  cbn [st_for fmap list_fmap try_fold spec_mutation]. unfold st_bind, store_touch at 1.
  set (r := mutation_relationship m) in *. unfold touch_room, new_touches in Hroom.
  rewrite filter_cons in Hroom. fold r in Hroom.
  pose proof (ss_contains _ _ _ _ r Hst) as Hc.
  destruct (contains_relationship st r) eqn:Ec.
  - assert (r ∈ rels) as Hin by (by apply Hc). rewrite decide_True by done.
    apply (IH _ _ _ _ Hst Hp Hsub). unfold touch_room. fold (new_touches rels0 ms) in *.
    case_decide; [|done]. rewrite mutation_values_cons, missing_app, length_app in Hroom.
    rewrite total_len_app in Hroom. cbn [length] in Hroom. lia.
  - assert (r ∉ rels) as Hnew by (intros Hin; by apply Hc in Hin).
    rewrite decide_False by done.
    rewrite decide_True in Hroom by (intros Hin; by apply Hnew, Hsub).
    fold (new_touches rels0 ms) in Hroom.
    rewrite mutation_values_cons, missing_app, length_app, total_len_app in Hroom.
    fold r in Hroom. cbn [length] in Hroom.
    destruct (interned_missing l0 l (relationship_identifier_values r) Hp) as [H1 H2].
    pose proof (wp_store_insert _ _ _ _ r Hst Hnew) as Hw. unfold wp in Hw.
    destruct (store_insert r st) as [[[]|e] st1].
    + destruct Hw as [row Hst1]. cbn [mbind result_bind].
      apply (IH _ _ _ _ Hst1).
      * etrans; [exact Hp|apply interned_prefix].
      * intros x Hx. apply elem_of_app. left. by apply Hsub.
      * unfold touch_room. rewrite length_app. cbn [length]. lia.
    + destruct Hw as (_ & Hn & _). destruct Hn. split; [lia|]. split; lia.
Qed.

Lemma forallb_touch ms :
  forallb is_touch ms = true → Touch <$> (mutation_relationship <$> ms) = ms.
Proof.
  induction ms as [|m ms IH]; [done|]. simpl. intros [Hm Hms]%andb_true_iff.
  destruct m; try done. simpl. f_equal. by apply IH.
Qed.

Lemma ensure_insert_capacity_Err st n a b e :
  ensure_insert_capacity st n a b = Err e → ∃ c, e = CapacityExceeded c.
Proof.
  unfold ensure_insert_capacity. destruct (n =? 0)%Z; [done|].
  assert (∀ {A} (o : option A) c x, ok_or o (CapacityExceeded c) = Err x → x = CapacityExceeded c)
    as Hok by (by intros A [] c x [=]).
  assert (∀ c i x, id_from_index c i = Err x → x = CapacityExceeded c) as Hid.
  { intros c i x Hx. unfold id_from_index in Hx. by apply Hok in Hx. }
  intros [H1|(last & _ & H1)]%bind_Err; [apply Hok in H1; eauto|].
  apply bind_Err in H1 as [H1|(rid & _ & H1)]; [apply Hid in H1; eauto|].
  apply bind_Err in H1 as [H1|([] & _ & H1)].
  - destruct (0 <? a)%Z; [|done].
    apply bind_Err in H1 as [H1|(ls & _ & H1)]; [apply Hok in H1; eauto|].
    apply bind_Err in H1 as [H1|(sid & _ & H1)]; [apply Hid in H1; eauto|done].
  - apply bind_Err in H1 as [H1|(v & _ & H1)]; [apply Hok in H1; eauto|done].
Qed.

Lemma ensure_insert_capacity_fits st n a b :
  (0 ≤ n)%Z → (0 ≤ a)%Z → (0 ≤ b)%Z →
  (Z.of_nat (length (rows st)) + n ≤ u32_max)%Z →
  (Z.of_nat (length (entries (interner st))) + a ≤ u32_max)%Z →
  (Z.of_nat (byte_len (bytes (interner st))) + b ≤ u32_max)%Z →
  ensure_insert_capacity st n a b = Ok tt.
Proof.
  intros Hn Ha Hb H1 H2 H3. unfold ensure_insert_capacity.
  assert (u32_max < usize_max)%Z by (unfold u32_max, usize_max, u64_max; lia).
  destruct (Z.eqb_spec n 0); [done|]. unfold checked_add, checked_sub, try_from_uint.
  rewrite (proj2 (Z.leb_le (Z.of_nat (length (rows st)) + n) _)) by lia. simpl.
  rewrite (proj2 (Z.leb_le 1 _)) by lia. simpl.
  unfold row_id_from_len. rewrite id_from_index_Ok by lia. simpl.
  rewrite (proj2 (Z.leb_le (_ + b) usize_max)) by lia. simpl.
  rewrite (proj2 (Z.leb_le (_ + b) u32_max)) by lia. simpl.
  destruct (Z.ltb_spec 0 a); [|done].
  rewrite (proj2 (Z.leb_le (_ + a) usize_max)) by lia. simpl.
  rewrite (proj2 (Z.leb_le 1 _)) by lia. simpl.
  unfold symbol_from_index. by rewrite id_from_index_Ok by lia.
Qed.

Lemma new_touches_bounds rels ms :
  length (new_touches rels ms) ≤ length ms ∧
  length (mutation_values (new_touches rels ms)) ≤ length (mutation_values ms) ∧
  total_len (mutation_values (new_touches rels ms)) ≤ total_len (mutation_values ms).
Proof.
  induction ms as [|m ms IH]; [done|]. unfold new_touches in *. rewrite filter_cons.
  rewrite (mutation_values_cons m ms), length_app, total_len_app.
  case_decide; [rewrite mutation_values_cons, length_app, total_len_app|];
    cbn [length]; lia.
Qed.

(** A touch batch is all or nothing: with its capacity checked up front, it
    cannot fail half-way. *)
Lemma wp_apply_touch_batch ms st l ps rels :
  store_state st l ps rels → forallb is_touch ms = true →
  wp (apply_touch_batch_in_place ms) st
    (λ _ st', ∃ rels' l' ps', try_fold spec_mutation rels ms = Ok rels' ∧
                              store_state st' l' ps' rels')
    (λ e st', (∃ c, e = CapacityExceeded c) ∧ st' = st ∧ ¬ batch_room l ps ms).
Proof.
  intros Hst Htouch. unfold apply_touch_batch_in_place, wp.
  assert (filter (λ m, contains_relationship st (mutation_relationship m) = false) ms =
          new_touches rels ms) as ->.
  { apply filter_ext_in. intros m _.
    pose proof (ss_contains _ _ _ _ (mutation_relationship m) Hst) as Hc.
    destruct (contains_relationship st (mutation_relationship m)); split; try done.
    - intros Hn. destruct Hn. by apply Hc.
    - intros _ Hin. by apply Hc in Hin. }
  pose proof Hst as [Hrep _ _ _]. pose proof (sr_interner _ _ _ Hrep) as Hi.
  pose proof (sr_cap _ _ _ Hrep) as Hcap. pose proof (entries_length Hi) as Hent.
  pose proof (ir_bytes _ _ Hi) as Hby. pose proof (ir_cap _ _ Hi). pose proof (ir_count _ _ Hi).
  rewrite (sr_rows _ _ _ Hrep), length_fmap in Hcap.
  change (0, 0)%Z with (Z.min usize_max 0, Z.min usize_max 0)%Z.
  rewrite (count_missing_mutations _ _ _ _ _ Hi) by done. cbn [fst snd]. rewrite !Z.add_0_l.
  set (new := new_touches rels ms). set (vs := missing l (mutation_values new)).
  destruct (ensure_insert_capacity _ _ _ _) as [[]|e] eqn:E.
  - destruct (touch_loop l rels ms st l ps rels) as (st' & l' & ps' & rels' & Eloop & Hst' & Ef);
      try done.
    + unfold touch_room. fold new. fold vs.
      destruct (decide (0 < length new)) as [Hpos|Hpos].
      * apply ensure_insert_capacity_Ok in E; [|lia..].
        rewrite (sr_rows _ _ _ Hrep), length_fmap, Hent, Hby in E. lia.
      * destruct new; simpl in Hpos; [|lia]. subst vs. simpl. lia.
    + rewrite Eloop. exists rels', l', ps'. split; [|done]. by rewrite <- (forallb_touch ms).
  - split_and!; [by eapply ensure_insert_capacity_Err|done|]. intros [R1 R2 R3].
    destruct (new_touches_bounds rels ms) as (B1 & B2 & B3).
    destruct (missing_length l (mutation_values new)) as [M1 M2]. fold vs in M1, M2.
    fold new in B1, B2, B3.
    assert (0 ≤ usize_max)%Z by (unfold usize_max, u64_max; lia).
    rewrite ensure_insert_capacity_fits in E; [done|lia|lia|lia|..].
    + rewrite (sr_rows _ _ _ Hrep), length_fmap. lia.
    + rewrite Hent. lia.
    + rewrite Hby. lia.
Qed.

(** ** The batch *)

Lemma apply_candidate_ok ms st l ps rels :
  store_state st l ps rels →
  wp (apply_candidate ms) st
    (λ _ st', ∃ rels' l' ps', try_fold spec_mutation rels ms = Ok rels' ∧
                              store_state st' l' ps' rels')
    (λ e st', st' = st ∧ (try_fold spec_mutation rels ms = Err e ∨
                          (∃ c, e = CapacityExceeded c) ∧ ¬ batch_room l ps ms)).
Proof.
  intros Hst. unfold apply_candidate, wp, st_bind.
  pose proof (wp_apply_sequence ms _ _ _ _ Hst) as Hw. unfold wp in Hw.
  destruct (st_for apply_single_mutation ms st) as [[[]|e] st1]; [|done].
  destruct Hw as (rels' & l' & ps' & E & Hst1).
  destruct (compact_ok _ _ _ _ Hst1) as (st2 & l2 & ps2 & E2 & Hst2). rewrite E2. eauto 6.
Qed.

Lemma apply_batch_ok ms st l ps rels :
  store_state st l ps rels →
  wp (apply_batch ms) st
    (λ _ st', ∃ rels' l' ps', try_fold spec_mutation rels ms = Ok rels' ∧
                              store_state st' l' ps' rels')
    (λ e st', (∃ l', store_state st' l' ps rels) ∧
              (try_fold spec_mutation rels ms = Err e ∨
               (∃ c, e = CapacityExceeded c) ∧ ¬ batch_room l ps ms)).
Proof.
  intros Hst.
  assert (∀ ms', wp (if forallb is_touch ms' then
                       let! _ := apply_touch_batch_in_place ms' in compact_if_needed
                     else apply_candidate ms') st
    (λ _ st', ∃ rels' l' ps', try_fold spec_mutation rels ms' = Ok rels' ∧
                              store_state st' l' ps' rels')
    (λ e st', (∃ l', store_state st' l' ps rels) ∧
              (try_fold spec_mutation rels ms' = Err e ∨
               (∃ c, e = CapacityExceeded c) ∧ ¬ batch_room l ps ms'))) as Hmany.
  { intros ms'. destruct (forallb is_touch ms') eqn:Et.
    - apply wp_bind. eapply wp_mono; [| |by apply (wp_apply_touch_batch ms' _ _ _ _ Hst Et)].
      + intros _ st1 (rels' & l' & ps' & E & Hst1). unfold wp.
        destruct (compact_ok _ _ _ _ Hst1) as (st2 & l2 & ps2 & -> & Hst2). eauto 6.
      + intros e st1 (Hc & -> & Hn). eauto.
    - eapply wp_mono; [| |by apply (apply_candidate_ok ms' _ _ _ _ Hst)].
      + done.
      + intros e st1 [-> He]. eauto. }
  destruct ms as [|m [|m' ms]]; [apply (Hmany [])| |apply (Hmany (m :: m' :: ms))].
  unfold apply_batch. apply wp_bind. eapply wp_mono; [| |by apply (wp_apply_single _ _ _ _ m Hst)].
  - intros _ st1 (rels' & E & Hst1). unfold wp. cbn [try_fold]. rewrite E. cbn [mbind result_bind].
    destruct Hst1 as [Hst1|[row Hst1]];
      destruct (compact_ok _ _ _ _ Hst1) as (st2 & l2 & ps2 & -> & Hst2); eauto 6.
  - intros e st1 ((l' & _ & Hst1) & He). split; [eauto|]. cbn [try_fold].
    destruct He as [->|[Hc Hn]]; [by left|right]. split; [done|].
    intros Hroom. by apply Hn, (batch_room_step _ _ _ []).
Qed.

Lemma check_precondition_spec st l ps p :
  store_rep st l ps → check_precondition st p = spec_precondition (live_relationships st ps) p.
Proof.
  intros Hst. destruct p as [f|f]; simpl; rewrite (any_resource_match_live Hst); [|done].
  by destruct (existsb _ _).
Qed.

Lemma try_for_ext {E A} (f g : A → result E unit) l :
  (∀ x, x ∈ l → f x = g x) → try_for f l = try_for g l.
Proof.
  induction l as [|x l IH]; intros Hl; [done|]. simpl. rewrite (Hl x) by (by left).
  destruct (g x); simpl; [|done]. apply IH. intros y Hy. apply Hl. by right.
Qed.

Lemma apply_mutations_ok ms pre st l ps rels :
  store_state st l ps rels →
  wp (apply_mutations ms pre) st
    (λ _ st', ∃ rels', spec_apply rels ms pre = Ok rels' ∧ store_is st' rels' ∧
                       has_ready_uniqueness st' = true)
    (λ e st', store_is st' rels ∧ has_ready_uniqueness st' = true ∧
              (spec_apply rels ms pre = Err e ∨
               (∃ c, e = CapacityExceeded c) ∧ ¬ batch_room l ps ms)).
Proof.
  intros Hst. pose proof Hst as [Hrep Hh Hr Hl].
  assert (store_is st rels) as Hsame by (exists l, ps; auto).
  unfold apply_mutations, spec_apply, guard_err, wp.
  destruct (MAX_PRECONDITIONS_PER_BATCH <? batch_len pre)%Z; simpl; [auto|].
  rewrite (try_for_ext _ (spec_precondition rels)).
  2: { intros p _. by rewrite (check_precondition_spec _ _ _ _ Hrep), Hl. }
  destruct (try_for (spec_precondition rels) pre) as [[]|e]; simpl; [|auto].
  destruct (MAX_MUTATIONS_PER_BATCH <? batch_len ms)%Z; simpl; [auto|].
  assert ((match ms with [] => st_ret tt | _ => ensure_uniqueness_index end) st = (Ok tt, st))
    as Hready.
  { destruct ms; [done|]. apply ready_index in Hr as [ix Hix].
    unfold ensure_uniqueness_index. by rewrite Hix. }
  unfold st_bind. rewrite Hready, find_duplicate_spec.
  destruct (first_repeat (mutation_relationship <$> ms)) as [r|]; simpl; [auto|].
  pose proof (apply_batch_ok ms _ _ _ _ Hst) as Hw. unfold wp in Hw.
  destruct (apply_batch ms st) as [[[]|e] st'].
  - destruct Hw as (rels' & l' & ps' & E & [Hrep' Hh' Hr' Hl']). exists rels'.
    split_and!; [done|by exists l', ps'|done].
  - destruct Hw as ((l' & [Hrep' Hh' Hr' Hl']) & He). split_and!; [by exists l', ps|done|done].
Qed.
End batches.
