(* ===== verification/StoreProps.v ===== *)
(** * Properties of the indexed store

    Stated on the stores that are reachable from the empty one by mutation
    batches, in terms of what callers observe: the result of a batch, [rows],
    and the items of a query. *)

From S2P Require Import Prelude Model Domain StoreTypes Interner LiveRows Posting Row Identity.
From S2P Require Import Store StoreInv StoreQuery StoreSpec.

Section properties.
Context `{Hasher}.

(** The stores a caller can build. *)
Inductive store_reachable : Store → Prop :=
| reach_default : store_reachable store_default
| reach_apply st ms ps res st' :
    store_reachable st → apply_mutations ms ps st = (res, st') → store_reachable st'.

Lemma store_is_rows st rels : store_is st rels → store_rows st = rels.
Proof. intros (l & ps & Hrep & _ & ->). by rewrite (store_rows_live Hrep). Qed.

Lemma store_is_NoDup st rels : store_is st rels → NoDup rels.
Proof. intros (l & ps & Hrep & _ & ->). apply (sr_unique _ _ _ Hrep). Qed.

Lemma reachable_is st :
  store_reachable st → store_is st (store_rows st) ∧ has_ready_uniqueness st = true.
Proof.
  induction 1 as [|st ms ps res st' _ [(l & qs & Hrep & Hh & Hl) Hr] E].
  - split; [|done]. exists [], []. split; [apply store_rep_default|done].
  - assert (store_state st l qs (store_rows st)) as Hst by (split; done).
    pose proof (wp_elim _ _ _ _ _ _ (apply_mutations_ok ms ps st l qs _ Hst) E) as Hw.
    destruct res as [[]|e].
    + destruct Hw as (rels' & _ & Hst' & Hr'). by rewrite (store_is_rows _ _ Hst').
    + destruct Hw as (Hst' & Hr' & _). by rewrite (store_is_rows _ _ Hst').
Qed.

Lemma apply_mutations_contract st ms ps res st' :
  store_reachable st → apply_mutations ms ps st = (res, st') →
  match spec_apply (store_rows st) ms ps with
  | Ok rels' => (res = Ok tt ∧ store_rows st' = rels') ∨
                ((∃ c, res = Err (CapacityExceeded c)) ∧ store_rows st' = store_rows st)
  | Err e => (res = Err e ∨ ∃ c, res = Err (CapacityExceeded c)) ∧
             store_rows st' = store_rows st
  end.
Proof.
  intros [(l & qs & Hrep & Hh & Hl) Hr]%reachable_is E.
  assert (store_state st l qs (store_rows st)) as Hst by (split; done).
  pose proof (wp_elim _ _ _ _ _ _ (apply_mutations_ok ms ps st l qs _ Hst) E) as Hw.
  destruct res as [[]|e].
  - destruct Hw as (rels' & -> & Hst' & _). left. split; [done|]. by apply store_is_rows.
  - destruct Hw as (Hst'%store_is_rows & _ & [->|[[c ->] _]]); rewrite Hst'; [eauto|].
    destruct (spec_apply _ _ _); eauto.
Qed.

(** C7: a mutation batch behaves as its contract says, whatever identifiers
    collide in the hash indexes. On success the rows are those of the contract;
    on failure the error is the contract's and the rows are unchanged; the only
    other outcome is a capacity error, which also leaves the rows unchanged. *)
Theorem apply_mutations_refines st ms ps res st' :
  store_reachable st → apply_mutations ms ps st = (res, st') →
  match spec_apply (store_rows st) ms ps with
  | Ok rels' => (res = Ok tt ∧ store_rows st' = rels') ∨
                ((∃ c, res = Err (CapacityExceeded c)) ∧ store_rows st' = store_rows st)
  | Err e => (res = Err e ∨ ∃ c, res = Err (CapacityExceeded c)) ∧
             store_rows st' = store_rows st
  end.
Proof. apply apply_mutations_contract. Qed.

(** with room for the batch (row ids, symbols and interner bytes below
    [u32::MAX] even if every identifier is new) the result is exactly the
    contract's: no capacity error. *)
Theorem apply_mutations_no_spurious_error st ms ps :
  store_reachable st →
  (Z.of_nat (length (rows st)) + Z.of_nat (length ms) ≤ u32_max)%Z →
  (Z.of_nat (length (entries (interner st))) + Z.of_nat (length (mutation_values ms)) ≤ u32_max)%Z →
  (Z.of_nat (byte_len (bytes (interner st))) + Z.of_nat (total_len (mutation_values ms)) ≤ u32_max)%Z →
  (apply_mutations ms ps st).1 = (λ _, tt) <$> spec_apply (store_rows st) ms ps.
Proof.
  intros [(l & qs & Hrep & Hh & Hl) Hr]%reachable_is H1 H2 H3.
  assert (store_state st l qs (store_rows st)) as Hst by (split; done).
  destruct (apply_mutations ms ps st) as [res st'] eqn:E. cbn [fst].
  pose proof (wp_elim _ _ _ _ _ _ (apply_mutations_ok ms ps st l qs _ Hst) E) as Hw.
  destruct res as [[]|e].
  - by destruct Hw as (rels' & -> & _).
  - destruct Hw as (_ & _ & [->|[_ []]]); [done|]. pose proof (sr_interner _ _ _ Hrep) as Hi.
    split.
    + by rewrite <- (length_fmap fst), <- (sr_rows _ _ _ Hrep).
    + by rewrite <- (entries_length Hi).
    + by rewrite <- (ir_bytes _ _ Hi).
Qed.

(** C21: queries from the resource side list, in insertion order, the first
    [limit] live relationships that satisfy the filter, and [any_resource_match]
    tells whether there is one. *)
Theorem query_relationships_correct st f :
  store_reachable st →
  item_relationships st (compact_items st (query_compact_relationships st f)) =
    take (limit_nat (rf_limit f)) (filter (λ r, filter_matches f r = true) (store_rows st)) ∧
  any_resource_match st f = existsb (filter_matches f) (store_rows st).
Proof.
  intros [(l & qs & Hrep & Hh & Hl) _]%reachable_is. rewrite Hl. split.
  - rewrite (query_pairs Hrep). by apply (taken_live _ l).
  - apply (any_resource_match_live Hrep).
Qed.

(** queries from the subject side list every live relationship whose
    subject satisfies the filter. *)
Theorem reverse_query_correct st f :
  store_reachable st →
  item_relationships st (compact_items st (reverse_query_compact_relationships st f)) =
  filter (λ r, subject_matches f (subject r) = true) (store_rows st).
Proof.
  intros [(l & qs & Hrep & Hh & Hl) _]%reachable_is. rewrite Hl, (reverse_query_pairs Hrep).
  rewrite <- (firstn_all (filter _ (live_pairs st qs))).
  rewrite (taken_live _ l _ _ (λ r, subject_matches f (subject r)) Hrep).
  rewrite take_ge; [done|]. unfold live_relationships.
  by rewrite filter_list_fmap, length_fmap.
Qed.

(** the evaluator's two lookups: the relationships of a resource and
    relation, up to the limit, and whether one of them has a given subject. *)
Theorem resource_lookups_correct st o rel limit f :
  store_reachable st →
  item_relationships st (compact_items st (resource_relation st o rel limit)) =
    take (limit_nat limit) (filter (λ r, on_resource o rel r = true) (store_rows st)) ∧
  bool_decide (is_Some (compact_next st (resource_relation_subject st o rel f)).1) =
    existsb (λ r, on_resource o rel r && subject_matches f (subject r)) (store_rows st).
Proof.
  intros [(l & qs & Hrep & Hh & Hl) _]%reachable_is. rewrite Hl. split.
  - rewrite (resource_relation_pairs Hrep). by apply (taken_live _ l).
  - rewrite compact_next_some, (resource_relation_subject_pairs Hrep).
    apply (fmap_take_filter_nonempty (on_resource_subject o rel f)). lia.
Qed.

(** reachable stores hold no relationship twice, and
    [contains_relationship] is membership. *)
Theorem contains_relationship_correct st r :
  store_reachable st →
  NoDup (store_rows st) ∧ contains_relationship st r = bool_decide (r ∈ store_rows st).
Proof.
  intros [Hs Hr]%reachable_is. split; [by eapply store_is_NoDup|].
  destruct Hs as (l & qs & Hrep & Hh & Hl). apply ready_index in Hr as [ix Hix].
  pose proof (contains_relationship_spec Hrep Hix r) as Hc. rewrite <- Hl in Hc.
  destruct (contains_relationship st r).
  - symmetry. apply bool_decide_eq_true. by apply Hc.
  - symmetry. apply bool_decide_eq_false. intros Hin. by apply Hc in Hin.
Qed.

(** ** Evaluator keys *)

(** The three texts of a subject. *)
Definition subject_texts (u : User) : string * string * option string :=
  match u with
  | UserId i => ("user", i, None)
  | Userset object rel => (namespace object, id object, Some (relation_str rel))
  end.

Lemma store_check_key_texts {st l} o rel u o' rel' u' k :
  interner_rep (interner st) l →
  store_check_key st o rel u = Some k → store_check_key st o' rel' u' = Some k →
  o = o' ∧ rel = rel' ∧ subject_texts u = subject_texts u'.
Proof.
  intros Hi.
  assert (∀ v w id, lookup (interner st) v = Some id → lookup (interner st) w = Some id → v = w)
    as Hinj.
  { intros v w id Hv%(lookup_spec Hi) Hw%(lookup_spec Hi). congruence. }
  unfold store_check_key, store_check_key_for_relation.
  assert (∀ u k, store_subject_key st u = Some k →
    lookup (interner st) (subject_texts u).1.1 = Some k.1.1 ∧
    lookup (interner st) (subject_texts u).1.2 = Some k.1.2 ∧
    match (subject_texts u).2, k.2 with
    | Some v, Some id => lookup (interner st) v = Some id
    | None, None => True
    | _, _ => False
    end) as Hsub.
  { intros [i|w r] k1; simpl.
    - by intros (a & Ha & (b & Hb & [= <-])%bind_Some)%bind_Some.
    - by intros (a & Ha & (b & Hb & (c & Hc & [= <-])%bind_Some)%bind_Some)%bind_Some. }
  intros (r1 & Hr1 & (s1 & Hs1%Hsub & (t1 & Ht1 & (i1 & Hi1 & [= <-])%bind_Some)%bind_Some)%bind_Some)%bind_Some.
  intros (r2 & Hr2 & (s2 & Hs2%Hsub & (t2 & Ht2 & (i2 & Hi2 & [= E1 E2 E3 E4 E5 E6])%bind_Some)%bind_Some)%bind_Some)%bind_Some.
  destruct Hs1 as (A1 & B1 & C1), Hs2 as (A2 & B2 & C2).
  subst t2 i2 r2. rewrite E4 in A2. rewrite E5 in B2. rewrite E6 in C2.
  destruct o as [ns i], o' as [ns' i'], (subject_texts u) as [[a b] c],
    (subject_texts u') as [[a' b'] c']; simpl in *.
  rewrite (Hinj _ _ _ Ht1 Ht2), (Hinj _ _ _ Hi1 Hi2), (Hinj _ _ _ Hr1 Hr2),
    (Hinj _ _ _ A1 A2), (Hinj _ _ _ B1 B2).
  split_and!; [done|done|]. f_equal.
  destruct c as [v|], c' as [v'|], (s1.2) as [x|]; try done. f_equal. by eapply Hinj.
Qed.

Lemma subject_texts_inj u u' : subject_texts u = subject_texts u' → u = u'.
Proof.
  destruct u as [i|[ns i] [rel]], u' as [i'|[ns' i'] [rel']]; simpl; by intros [=]; subst.
Qed.

(** two checks share a store key only if they ask the same question: the
    same object, relation and subject. *)
Theorem store_check_key_injective st o rel u o' rel' u' k :
  store_reachable st →
  store_check_key st o rel u = Some k → store_check_key st o' rel' u' = Some k →
  o = o' ∧ rel = rel' ∧ u = u'.
Proof.
  intros [(l & qs & Hrep & _) _]%reachable_is H1 H2.
  destruct (store_check_key_texts _ _ _ _ _ _ _ (sr_interner _ _ _ Hrep) H1 H2)
    as (-> & -> & Hu). split_and!; [done|done|]. by apply subject_texts_inj.
Qed.
End properties.

(** ** Concrete inputs

    Every hash collides here. *)

Module StoreExample.
#[export] Instance hasher : Hasher := constant_hasher.

Definition object (t i : string) (Ht : Is_true (is_ok (validate_identifier KObjectType t)))
    (Hi : Is_true (is_ok (validate_identifier KObjectId i))) : ObjectRef :=
  mkObjectRef (mkIdent t Ht) (mkIdent i Hi).

Definition readme : ObjectRef := object "doc" "readme" I I.
Definition alice : ObjectRef := object "user" "alice" I I.
Definition bob : ObjectRef := object "user" "bob" I I.
Definition eng : ObjectRef := object "group" "eng" I I.
Definition viewer : RelationName := @mkIdent KRelationName "viewer" I.
Definition member : RelationName := @mkIdent KRelationName "member" I.

Definition alice_views : Relationship := mkRelationship readme viewer (SubjectObject alice).
Definition bob_views : Relationship := mkRelationship readme viewer (SubjectObject bob).
Definition eng_views : Relationship := mkRelationship readme viewer (SubjectUserset eng member).
Definition alice_member : Relationship := mkRelationship eng member (SubjectObject alice).

Definition setup : list RelationshipMutation :=
  [Create alice_views; Touch eng_views; Create alice_member].
Definition change : list RelationshipMutation := [Delete alice_views; Create bob_views].

Definition store : Store := (apply_mutations setup [] store_default).2.

Lemma store_ok : store_reachable store.
Proof.
  eapply (reach_apply store_default setup [] (Ok tt)); [constructor|].
  unfold store. by vm_compute.
Qed.

Definition viewers : RelationshipFilter :=
  mkRelationshipFilter (@mkIdent KObjectType "doc" I) None (Some viewer) None query_limit_default.
Definition alice_filter : SubjectFilter :=
  mkSubjectFilter (@mkIdent KSubjectType "user" I) (Some (@mkIdent KSubjectId "alice" I)) None.
End StoreExample.
Import StoreExample.

Lemma apply_mutations_refines_witness :
  store_reachable store ∧
  ∃ res st', apply_mutations change [] store = (res, st') ∧ res = Ok tt ∧
    relationship_to_string <$> store_rows st' =
      ["doc:readme#viewer@group:eng#member"; "group:eng#member@user:alice";
       "doc:readme#viewer@user:bob"].
Proof.
  split; [exact store_ok|]. destruct (apply_mutations change [] store) as [res st'] eqn:E.
  exists res, st'. split; [reflexivity|].
  pose proof (apply_mutations_refines store change [] res st' store_ok E) as Hr.
  assert ((apply_mutations change [] store).1 = Ok tt) as Hres by (vm_compute; reflexivity).
  rewrite E in Hres. simpl in Hres. subst res. split; [reflexivity|].
  assert (match spec_apply (store_rows store) change [] with
          | Ok rels => relationship_to_string <$> rels
          | Err _ => []
          end = ["doc:readme#viewer@group:eng#member"; "group:eng#member@user:alice";
                 "doc:readme#viewer@user:bob"]) as Hs by (vm_compute; reflexivity).
  destruct (spec_apply (store_rows store) change []) as [rels|]; [|discriminate Hs].
  destruct Hr as [[_ ->]|[[c Hc] _]]; [exact Hs|discriminate Hc].
Defined.

Lemma apply_mutations_no_spurious_error_witness :
  store_reachable store ∧
  (apply_mutations [Create alice_views] [] store).1 = Err (RelationshipAlreadyExists alice_views).
Proof.
  split; [exact store_ok|].
  rewrite (apply_mutations_no_spurious_error store [Create alice_views] [] store_ok).
  - vm_compute. reflexivity.
  - apply Z.leb_le. vm_compute. reflexivity.
  - apply Z.leb_le. vm_compute. reflexivity.
  - apply Z.leb_le. vm_compute. reflexivity.
Defined.

Lemma query_relationships_correct_witness :
  store_reachable store ∧ any_resource_match store viewers = true ∧
  relationship_to_string <$>
    item_relationships store (compact_items store (query_compact_relationships store viewers)) =
    ["doc:readme#viewer@user:alice"; "doc:readme#viewer@group:eng#member"].
Proof.
  split; [exact store_ok|].
  destruct (query_relationships_correct store viewers store_ok) as [-> ->].
  split; vm_compute; reflexivity.
Defined.

Lemma reverse_query_correct_witness :
  store_reachable store ∧
  relationship_to_string <$>
    item_relationships store
      (compact_items store (reverse_query_compact_relationships store alice_filter)) =
    ["doc:readme#viewer@user:alice"; "group:eng#member@user:alice"].
Proof.
  split; [exact store_ok|]. rewrite (reverse_query_correct store alice_filter store_ok).
  vm_compute. reflexivity.
Defined.

Lemma resource_lookups_correct_witness :
  store_reachable store ∧
  bool_decide (is_Some (compact_next store
    (resource_relation_subject store readme viewer alice_filter)).1) = true.
Proof.
  split; [exact store_ok|].
  rewrite (proj2 (resource_lookups_correct store readme viewer query_limit_default alice_filter
                    store_ok)).
  vm_compute. reflexivity.
Defined.

Lemma contains_relationship_correct_witness :
  store_reachable store ∧ contains_relationship store eng_views = true ∧
  contains_relationship store bob_views = false.
Proof.
  split; [exact store_ok|].
  rewrite (proj2 (contains_relationship_correct store eng_views store_ok)).
  rewrite (proj2 (contains_relationship_correct store bob_views store_ok)).
  split; vm_compute; reflexivity.
Defined.

Lemma store_check_key_injective_witness :
  store_reachable store ∧ ∃ k,
    store_check_key store (mkObject "doc" "readme") "viewer" (UserId "alice") = Some k ∧
    mkObject "doc" "readme" = mkObject "doc" "readme".
Proof.
  split; [exact store_ok|].
  destruct (store_check_key store (mkObject "doc" "readme") "viewer" (UserId "alice"))
    as [k|] eqn:E; [|vm_compute in E; discriminate E].
  exists k. split; [reflexivity|].
  exact (proj1 (store_check_key_injective store _ _ _ _ _ _ k store_ok E E)).
Defined.
