(* ===== verification/StoreView.v ===== *)
(** * Published relationship views (src/src/relationship.rs, [RelationshipStoreView])

    A checkpoint store plus a delta overlay: a small store of insertions and a
    set of tombstones. Every mutation batch makes a new view; queries merge the
    two parts. *)

From S2P Require Import Prelude Model Domain StoreTypes Interner LiveRows Posting Row Identity.
From S2P Require Import Store.

(** ** State *)

(** The [Arc]s share immutable values. *)
Record StoreDelta := mkDelta {
  inserted : Store;
  deleted_rows : gset RowIdentity;
  deleted : gset Relationship;
  mutation_count : Z
}.

Record StoreView := mkView {
  checkpoint : Store;
  delta : option StoreDelta
}.

(** [from_checkpoint] and [Default]. *)
Definition view_from_checkpoint (s : Store) : StoreView := mkView s None.
Definition view_default : StoreView := view_from_checkpoint store_default.

Inductive RelationshipLocation := Inserted | CheckpointLive | CheckpointDeleted | Absent.

(** [RelationshipRef]: a row with the store that can resolve it. *)
Record RelationshipRef := mkRef { ref_store : Store; ref_row : RelationshipRow }.

Inductive StoreViewIterPhase := PInserted | PCheckpoint.

Record StoreViewCompactIter := mkViewIter {
  vi_inserted : option CompactRelationshipIter;
  vi_checkpoint : CompactRelationshipIter;
  vi_deleted : option (gset RowIdentity);
  vi_phase : StoreViewIterPhase
}.

(** The [&mut inserted] and [&mut deleted] locals: dropped when an error
    returns from [apply_mutations]. *)
Abbreviation DeltaState := (Store * gset Relationship)%type.

Section view.
Context `{Hasher}.

(** ** Iteration *)

(** The checkpoint arm of the loop: skip rows under a tombstone. *)
Fixpoint checkpoint_next (fuel : nat) (s : Store) (dead : option (gset RowIdentity))
    (it : CompactRelationshipIter) : option RelationshipRow * CompactRelationshipIter :=
  match fuel with
  | O => (None, it)
  | S fuel =>
      match compact_next s it with
      | (None, it) => (None, it)
      | (Some row, it) =>
          match dead with
          | Some d => if decide (row_identity row ∈ d) then checkpoint_next fuel s dead it
                      else (Some row, it)
          | None => (Some row, it)
          end
      end
  end.

Definition view_checkpoint_next (v : StoreView) (it : StoreViewCompactIter)
    : option RelationshipRef * StoreViewCompactIter :=
  let '(row, c) := checkpoint_next (S (length (candidates (vi_checkpoint it)))) (checkpoint v)
                     (vi_deleted it) (vi_checkpoint it) in
  (mkRef (checkpoint v) <$> row, mkViewIter (vi_inserted it) c (vi_deleted it) PCheckpoint).

(** [StoreViewCompactIter::next] *)
Definition view_next (v : StoreView) (it : StoreViewCompactIter)
    : option RelationshipRef * StoreViewCompactIter :=
  match vi_phase it with
  | PInserted =>
      match vi_inserted it, delta v with
      | Some i, Some d =>
          match compact_next (inserted d) i with
          | (Some row, i) =>
              (Some (mkRef (inserted d) row),
               mkViewIter (Some i) (vi_checkpoint it) (vi_deleted it) PInserted)
          | (None, i) =>
              view_checkpoint_next v
                (mkViewIter (Some i) (vi_checkpoint it) (vi_deleted it) PCheckpoint)
          end
      | _, _ => view_checkpoint_next v it
      end
  | PCheckpoint => view_checkpoint_next v it
  end.

Fixpoint view_drain (fuel : nat) (v : StoreView) (it : StoreViewCompactIter)
    : list RelationshipRef :=
  match fuel with
  | O => []
  | S fuel =>
      match view_next v it with
      | (Some r, it) => r :: view_drain fuel v it
      | (None, _) => []
      end
  end.

(** What a [for] loop sees; every item consumes a candidate. *)
Definition view_items (v : StoreView) (it : StoreViewCompactIter) : list RelationshipRef :=
  view_drain
    (S (match vi_inserted it with Some i => length (candidates i) | None => 0 end +
        length (candidates (vi_checkpoint it)))) v it.

(** The four queries build the same iterator from the query of each part. *)
Definition view_iter (v : StoreView) (query : Store → CompactRelationshipIter)
    : StoreViewCompactIter :=
  mkViewIter ((λ d, query (inserted d)) <$> delta v) (query (checkpoint v))
    (deleted_rows <$> delta v) PInserted.

Definition view_query (v : StoreView) (f : RelationshipFilter) : StoreViewCompactIter :=
  view_iter v (λ s, query_compact_relationships s f).
Definition view_reverse_query (v : StoreView) (f : SubjectFilter) : StoreViewCompactIter :=
  view_iter v (λ s, reverse_query_compact_relationships s f).
Definition view_resource_relation (v : StoreView) (o : ObjectRef) (rel : RelationName)
    (limit : QueryLimit) : StoreViewCompactIter :=
  view_iter v (λ s, resource_relation s o rel limit).
Definition view_resource_relation_subject (v : StoreView) (o : ObjectRef) (rel : RelationName)
    (f : SubjectFilter) : StoreViewCompactIter :=
  view_iter v (λ s, resource_relation_subject s o rel f).

Definition view_any_resource_match (v : StoreView) (f : RelationshipFilter) : bool :=
  bool_decide (is_Some (view_next v (view_query v f)).1).

Definition view_any_resource_relation_subject (v : StoreView) (o : ObjectRef)
    (rel : RelationName) (f : SubjectFilter) : bool :=
  bool_decide (is_Some (view_next v (view_resource_relation_subject v o rel f)).1).

Definition view_has_reverse_subject_candidates (v : StoreView) (f : SubjectFilter) : bool :=
  match delta v with Some d => has_subject_candidates (inserted d) f | None => false end ||
  has_subject_candidates (checkpoint v) f.

(** [RelationshipStoreView::rows] *)
Definition view_rows (v : StoreView) : list Relationship :=
  match delta v with
  | None => store_rows (checkpoint v)
  | Some d => filter (λ r, r ∉ deleted d) (store_rows (checkpoint v)) ++ store_rows (inserted d)
  end.

(** No interned key is shared between the two stores of a view with a delta. *)
Definition view_store_check_key (v : StoreView) (object : Object) (rel : string) (u : User)
    : option StoreCheckKey :=
  match delta v with
  | Some _ => None
  | None => store_check_key (checkpoint v) object rel u
  end.

(** ** Mutation *)

Definition view_check_precondition (v : StoreView) (p : Precondition) : result StoreError unit :=
  match p with
  | MustMatch f => if negb (view_any_resource_match v f) then Err (PreconditionFailed p) else Ok tt
  | MustNotMatch f => if view_any_resource_match v f then Err (PreconditionFailed p) else Ok tt
  end.

(** [ensure_checkpoint_mutation_ready], on a copy of the checkpoint. *)
Definition ensure_checkpoint_mutation_ready (v : StoreView) : result StoreError StoreView :=
  if has_ready_uniqueness (checkpoint v) then Ok v else
  match ensure_uniqueness_index (checkpoint v) with
  | (Ok _, c) => Ok (mkView c (delta v))
  | (Err e, _) => Err e
  end.

Definition relationship_location (v : StoreView) (ins : Store) (del : gset Relationship)
    (r : Relationship) : RelationshipLocation :=
  if contains_relationship ins r then Inserted
  else if contains_relationship (checkpoint v) r then
    if decide (r ∈ del) then CheckpointDeleted else CheckpointLive
  else Absent.

Definition delta_insert (d : DeltaState) (r : Relationship) : result StoreError DeltaState :=
  match store_insert r d.1 with
  | (Ok _, s) => Ok (s, d.2)
  | (Err e, _) => Err e
  end.

Definition create_delta_relationship (v : StoreView) (d : DeltaState) (r : Relationship)
    : result StoreError DeltaState :=
  match relationship_location v d.1 d.2 r with
  | Inserted | CheckpointLive => Err (RelationshipAlreadyExists r)
  | CheckpointDeleted => Ok (d.1, d.2 ∖ {[r]})
  | Absent => delta_insert d r
  end.

Definition touch_delta_relationship (v : StoreView) (d : DeltaState) (r : Relationship)
    : result StoreError DeltaState :=
  match relationship_location v d.1 d.2 r with
  | Inserted | CheckpointLive => Ok d
  | CheckpointDeleted => Ok (d.1, d.2 ∖ {[r]})
  | Absent => delta_insert d r
  end.

Definition delete_delta_relationship (v : StoreView) (d : DeltaState) (r : Relationship)
    : result StoreError DeltaState :=
  match relationship_location v d.1 d.2 r with
  | Inserted =>
      match store_delete r d.1 with
      | (Ok _, s) => Ok (s, d.2)
      | (Err e, _) => Err e
      end
  | CheckpointLive => Ok (d.1, {[r]} ∪ d.2)
  | CheckpointDeleted | Absent => Err (RelationshipNotFound r)
  end.

Definition apply_delta_mutation (v : StoreView) (d : DeltaState) (m : RelationshipMutation)
    : result StoreError DeltaState :=
  match m with
  | Create r => create_delta_relationship v d r
  | Touch r => touch_delta_relationship v d r
  | Delete r => delete_delta_relationship v d r
  end.

(** [deleted_relationship_rows] *)
Definition deleted_relationship_rows (s : Store) (del : gset Relationship) : gset RowIdentity :=
  list_to_set (omap (M:=list) (λ r, row_identity <$> row_from_existing r (interner s))
                 (elements del)).

Definition should_checkpoint (v : StoreView) : bool :=
  match delta v with
  | Some d => (STORE_VIEW_MAX_DELTA_MUTATIONS <=? mutation_count d)%Z ||
              (STORE_VIEW_MAX_DELTA_TOMBSTONES <=? Z.of_nat (size (deleted d)))%Z
  | None => false
  end.

(** [canonical_store]: the rows re-inserted into an empty store. *)
Definition canonical_store (v : StoreView) : result StoreError Store :=
  match st_for store_insert (view_rows v) store_default with
  | (Ok _, s) => Ok s
  | (Err e, _) => Err e
  end.

(** [checkpointed] *)
Definition checkpointed (v : StoreView) : result StoreError StoreView :=
  view_from_checkpoint <$> canonical_store v.

Definition next_mutation_count (v : StoreView) (ms : list RelationshipMutation)
    : result StoreError Z :=
  let previous := match delta v with Some d => mutation_count d | None => 0%Z end in
  ok_or (count ← checked_add usize_max previous (batch_len ms); non_zero count)
    (CapacityExceeded "store view delta mutations").

(** [RelationshipStoreView::apply_mutations] *)
Definition view_apply_mutations (v : StoreView) (ms : list RelationshipMutation)
    (ps : list Precondition) : result StoreError StoreView :=
  _ ← guard_err (MAX_PRECONDITIONS_PER_BATCH <? batch_len ps)%Z
        (PreconditionBatchTooLarge MAX_PRECONDITIONS_PER_BATCH (batch_len ps));
  _ ← try_for (view_check_precondition v) ps;
  _ ← guard_err (MAX_MUTATIONS_PER_BATCH <? batch_len ms)%Z
        (MutationBatchTooLarge MAX_MUTATIONS_PER_BATCH (batch_len ms));
  match find_duplicate ∅ ms with
  | Some r => Err (DuplicateMutation r)
  | None =>
      match ms with
      | [] => Ok v
      | _ =>
          base ← ensure_checkpoint_mutation_ready v;
          d ← try_fold (apply_delta_mutation base)
                (match delta base with
                 | Some d => (inserted d, deleted d)
                 | None => (store_default, ∅)
                 end) ms;
          count ← next_mutation_count base ms;
          let candidate :=
            mkView (checkpoint base)
              (Some (mkDelta d.1 (deleted_relationship_rows (checkpoint base) d.2) d.2 count)) in
          if should_checkpoint candidate then checkpointed candidate else Ok candidate
      end
  end.
End view.
