(* ===== verification/ViewInv.v ===== *)
(** * The view's iterators and invariant

    What a view's merged iterator lists, the invariant that ties the overlay to
    its checkpoint, and that every mutation of the overlay is a mutation of the
    view's relationships. *)

From S2P Require Import Prelude Model Domain StoreTypes Interner LiveRows Posting Row Identity.
From S2P Require Import Store StoreInv StoreQuery StoreSpec StoreView.

(** ** Iterators *)

Section iterators.
Context `{Hasher}.

(** An item consumes a candidate. *)
Lemma compact_scan_decreases st al m cs row it :
  compact_scan st al m cs = (Some row, it) → length (candidates it) < length cs.
Proof.
  induction cs as [|rid cs IH]; [done|]. cbn [compact_scan].
  destruct (negb al && negb _); [intros Hs%IH; simpl; lia|].
  destruct (rows st !! id_index rid) as [row'|]; [|done].
  destruct m as [rm|sm].
  - destruct (N.eqb _ _); [done|]. destruct (matches_resource row' rm).
    + intros [= <- <-]. simpl. lia.
    + intros Hs%IH. simpl. lia.
  - destruct (matches_subject row' sm); [intros [= <- <-]; simpl; lia|].
    intros Hs%IH. simpl. lia.
Qed.

Lemma compact_next_decreases st it row it' :
  compact_next st it = (Some row, it') → length (candidates it') < length (candidates it).
Proof. unfold compact_next. destruct (matcher it); [apply compact_scan_decreases|done]. Qed.

Lemma compact_drain_fuel st n m it :
  length (candidates it) < n → length (candidates it) < m →
  compact_drain n st it = compact_drain m st it.
Proof.
  revert m it. induction n as [|n IH]; intros m it Hn Hm; [lia|]. destruct m as [|m]; [lia|].
  simpl. destruct (compact_next st it) as [[row|] it'] eqn:E; [|done].
  apply compact_next_decreases in E. f_equal. apply IH; lia.
Qed.

(** The items after one call of [next]. *)
Lemma compact_items_next st it :
  compact_items st it =
  match compact_next st it with
  | (Some row, it') => row :: compact_items st it'
  | (None, _) => []
  end.
Proof.
  unfold compact_items at 1. cbn [compact_drain].
  destruct (compact_next st it) as [[row|] it'] eqn:E; [|done].
  apply compact_next_decreases in E. f_equal. apply compact_drain_fuel; lia.
Qed.

(** A row is not under a tombstone. *)
Definition visible (dead : option (gset RowIdentity)) (row : RelationshipRow) : Prop :=
  match dead with Some d => row_identity row ∉ d | None => True end.

#[global] Instance visible_dec dead row : Decision (visible dead row).
Proof. unfold visible. destruct dead; apply _. Defined.

Lemma checkpoint_next_items fuel st dead it :
  length (candidates it) < fuel →
  filter (visible dead) (compact_items st it) =
  match checkpoint_next fuel st dead it with
  | (Some row, it') => row :: filter (visible dead) (compact_items st it')
  | (None, _) => []
  end ∧
  ∀ row it', checkpoint_next fuel st dead it = (Some row, it') →
             length (candidates it') < length (candidates it).
Proof.
  revert it. induction fuel as [|fuel IH]; intros it Hf; [lia|]. cbn [checkpoint_next].
  rewrite compact_items_next. destruct (compact_next st it) as [[row|] it'] eqn:E; [|done].
  apply compact_next_decreases in E. rewrite filter_cons. unfold visible at 1.
  destruct dead as [d|].
  - destruct (decide (row_identity row ∈ d)) as [Hd|Hd].
    + rewrite decide_False by (by intros []). destruct (IH it') as [IH1 IH2]; [lia|].
      split; [done|]. intros row' it'' E'. apply IH2 in E'. lia.
    + rewrite decide_True by done. split; [done|]. intros row' it'' [= <- <-]. done.
  - rewrite decide_True by done. split; [done|]. intros row' it'' [= <- <-]. done.
Qed.

Definition inserted_items (v : StoreView) (i : option CompactRelationshipIter)
    : list RelationshipRef :=
  match i, delta v with
  | Some i, Some d => mkRef (inserted d) <$> compact_items (inserted d) i
  | _, _ => []
  end.

Definition iter_size (it : StoreViewCompactIter) : nat :=
  match vi_phase it with
  | PInserted => match vi_inserted it with Some i => length (candidates i) | None => 0 end
  | PCheckpoint => 0
  end + length (candidates (vi_checkpoint it)).

Lemma view_drain_checkpoint fuel v it :
  vi_phase it = PCheckpoint → iter_size it < fuel →
  view_drain fuel v it =
  mkRef (checkpoint v) <$>
    filter (visible (vi_deleted it)) (compact_items (checkpoint v) (vi_checkpoint it)).
Proof.
  revert it. induction fuel as [|fuel IH]; intros [i c d ph] Hph Hf; [lia|]. simpl in Hph. subst ph.
  cbn [view_drain]. unfold view_next, view_checkpoint_next. cbn [vi_phase vi_checkpoint vi_deleted vi_inserted].
  unfold iter_size in Hf. cbn in Hf.
  destruct (checkpoint_next_items (S (length (candidates c))) (checkpoint v) d c) as [-> Hdec]; [lia|].
  destruct (checkpoint_next _ _ d c) as [[row|] c'] eqn:E; simpl; [|done].
  f_equal. apply (IH (mkViewIter i c' d PCheckpoint)); [done|].
  specialize (Hdec _ _ eq_refl). unfold iter_size. simpl. lia.
Qed.

(** A view lists the items of the overlay, then those of the checkpoint that
    have no tombstone. *)
Lemma view_drain_items fuel v it :
  vi_phase it = PInserted → iter_size it < fuel →
  view_drain fuel v it =
  inserted_items v (vi_inserted it) ++
  (mkRef (checkpoint v) <$>
    filter (visible (vi_deleted it)) (compact_items (checkpoint v) (vi_checkpoint it))).
Proof.
  revert it. induction fuel as [|fuel IH]; intros [i c d ph] Hph Hf; [lia|]. simpl in Hph. subst ph.
  assert (∀ i', view_drain (S fuel) v (mkViewIter i' c d PCheckpoint) =
    (mkRef (checkpoint v) <$> filter (visible d) (compact_items (checkpoint v) c))) as Hc.
  { intros i'. apply (view_drain_checkpoint _ _ (mkViewIter i' c d PCheckpoint)); [done|].
    unfold iter_size in *. simpl in *. lia. }
  destruct i as [i|], (delta v) as [dl|] eqn:Ed; unfold inserted_items;
    cbn [vi_inserted vi_checkpoint vi_deleted]; rewrite ?Ed.
  2-4: cbn [view_drain]; unfold view_next; cbn [vi_phase vi_inserted]; rewrite ?Ed;
       first [exact (Hc None) | exact (Hc (Some _))].
  rewrite (compact_items_next (inserted dl) i).
  destruct (compact_next (inserted dl) i) as [[row|] i'] eqn:E.
  - cbn [view_drain]. unfold view_next. cbn [vi_phase vi_inserted]. rewrite Ed, E.
    rewrite fmap_cons, <- app_comm_cons. f_equal. apply compact_next_decreases in E.
    cbn [vi_checkpoint vi_deleted].
    rewrite (IH (mkViewIter (Some i') c d PInserted)); [|done|unfold iter_size in *; simpl in *; lia].
    unfold inserted_items. cbn [vi_inserted vi_checkpoint vi_deleted]. by rewrite Ed.
  - cbn [view_drain]. unfold view_next. cbn [vi_phase vi_inserted]. rewrite Ed, E.
    exact (Hc (Some i')).
Qed.

Lemma view_iter_items v q :
  view_items v (view_iter v q) =
  match delta v with Some d => mkRef (inserted d) <$> compact_items (inserted d) (q (inserted d))
                   | None => [] end ++
  (mkRef (checkpoint v) <$>
     filter (visible (deleted_rows <$> delta v)) (compact_items (checkpoint v) (q (checkpoint v)))).
Proof.
  unfold view_items. rewrite view_drain_items; [|done|].
  - unfold view_iter, inserted_items. cbn [vi_inserted vi_checkpoint vi_deleted].
    by destruct (delta v).
  - unfold iter_size, view_iter. cbn [vi_phase vi_inserted vi_checkpoint]. lia.
Qed.

(** [iter.next().is_some()] *)
Lemma view_next_some v it :
  bool_decide (is_Some (view_next v it).1) = bool_decide (view_items v it ≠ []).
Proof.
  unfold view_items. cbn [view_drain]. by destruct (view_next v it) as [[r|] it'].
Qed.
End iterators.

(** ** The overlay *)

(** The relationships of a view: those of the checkpoint without a tombstone,
    then the overlay's. *)
Definition merged (rc ri : list Relationship) (del : gset Relationship) : list Relationship :=
  filter (λ r, r ∉ del) rc ++ ri.

Lemma elem_of_merged rc ri del r : r ∈ merged rc ri del ↔ (r ∈ rc ∧ r ∉ del) ∨ r ∈ ri.
Proof. unfold merged. rewrite elem_of_app, list_elem_of_filter. tauto. Qed.

Section overlay.
Context `{Hasher}.

Lemma ss_NoDup st l ps rels : store_state st l ps rels → NoDup rels.
Proof. intros [Hrep _ _ <-]. apply (sr_unique _ _ _ Hrep). Qed.

(** An overlay with strings [l], rows [ps] and insertions [ri], over a checkpoint
    that holds [rc]. *)
Record overlay (rc : list Relationship) (d : DeltaState) (l : list string)
    (ps : list (RelationshipRow * Relationship)) (ri : list Relationship) : Prop := {
  ov_inserted : store_state d.1 l ps ri;
  ov_deleted r : r ∈ d.2 → r ∈ rc;
  ov_apart r : r ∈ ri → r ∉ rc
}.

Lemma merged_NoDup rc d l ps ri : NoDup rc → overlay rc d l ps ri → NoDup (merged rc ri d.2).
Proof.
  intros Hrc [Hins _ Ha]. apply NoDup_app. split_and!.
  - by apply NoDup_filter.
  - intros r [_ Hr]%list_elem_of_filter Hri. by apply (Ha r).
  - by eapply ss_NoDup.
Qed.

Section mutation.
Context {v : StoreView} {lc : list string} {pc : list (RelationshipRow * Relationship)}.
Context {rc : list Relationship}.
Hypothesis Hc : store_state (checkpoint v) lc pc rc.

Lemma relationship_location_spec d l ps ri r :
  overlay rc d l ps ri →
  match relationship_location v d.1 d.2 r with
  | Inserted => r ∈ ri
  | CheckpointLive => r ∈ rc ∧ r ∉ d.2 ∧ r ∉ ri
  | CheckpointDeleted => r ∈ rc ∧ r ∈ d.2 ∧ r ∉ ri
  | Absent => r ∉ rc ∧ r ∉ ri
  end.
Proof.
  intros [Hi _ _]. unfold relationship_location.
  pose proof (ss_contains _ _ _ _ r Hi) as Hini. pose proof (ss_contains _ _ _ _ r Hc) as Hinc.
  destruct (contains_relationship d.1 r); [by apply Hini|].
  assert (r ∉ ri) by (intros Hr; by apply Hini in Hr).
  destruct (contains_relationship (checkpoint v) r).
  - assert (r ∈ rc) by (by apply Hinc). by destruct (decide (r ∈ d.2)).
  - split; [|done]. intros Hr. by apply Hinc in Hr.
Qed.

(** What a mutation of the overlay must do to a view that holds [rels]. *)
Definition mutation_done (rels : list Relationship) (l : list string)
    (ps : list (RelationshipRow * Relationship)) (m : RelationshipMutation)
    (res : result StoreError DeltaState) : Prop :=
  match res with
  | Ok d' => ∃ rels' ri', spec_mutation rels m = Ok rels' ∧ rels' ≡ₚ merged rc ri' d'.2 ∧
      (overlay rc d' l ps ri' ∨
       ∃ row, overlay rc d' (interned l (relationship_identifier_values (mutation_relationship m)))
                (ps ++ [(row, mutation_relationship m)]) ri')
  | Err e => spec_mutation rels m = Err e ∨
             (∃ c, e = CapacityExceeded c) ∧ ¬ insert_fits l ps (mutation_relationship m)
  end.

(** Both sides of a change of the merged list are duplicate-free, so it is
    enough to compare their elements. *)
Lemma merged_perm rels rels' d d' l l' ps ps' ri ri' :
  overlay rc d l ps ri → overlay rc d' l' ps' ri' → rels ≡ₚ merged rc ri d.2 → NoDup rels' →
  (∀ x, x ∈ rels' ↔ x ∈ merged rc ri' d'.2) → rels' ≡ₚ merged rc ri' d'.2.
Proof.
  intros Ho Ho' Hp Hnd Hx. apply NoDup_Permutation; [done| |done].
  eapply merged_NoDup; [by eapply ss_NoDup|done].
Qed.

Lemma delta_insert_ok rels d l ps ri r m :
  overlay rc d l ps ri → rels ≡ₚ merged rc ri d.2 → r ∉ rc → r ∉ ri →
  mutation_relationship m = r → spec_mutation rels m = Ok (rels ++ [r]) →
  mutation_done rels l ps m (delta_insert d r).
Proof.
  intros Ho Hp Hrc Hri <- Hm. pose proof Ho as [Hi Hd Ha]. unfold delta_insert.
  pose proof (wp_store_insert _ _ _ _ _ Hi Hri) as Hw. unfold wp in Hw.
  destruct (store_insert _ d.1) as [[[]|e] s].
  - destruct Hw as [row Hs]. exists (rels ++ [mutation_relationship m]), (ri ++ [mutation_relationship m]).
    split_and!; [done| |right; exists row; split; [done|done|]].
    + cbn [snd]. unfold merged. rewrite Hp. unfold merged. by rewrite <- app_assoc.
    + intros r [?| ->%list_elem_of_singleton]%elem_of_app; [by apply Ha|done].
  - destruct Hw as (He & Hn & _). by right.
Qed.

Lemma undelete_ok rels d l ps ri r m :
  overlay rc d l ps ri → rels ≡ₚ merged rc ri d.2 → r ∈ rc → r ∈ d.2 → r ∉ ri →
  mutation_relationship m = r → spec_mutation rels m = Ok (rels ++ [r]) →
  mutation_done rels l ps m (Ok (d.1, d.2 ∖ {[r]})).
Proof.
  intros Ho Hp Hrc Hdel Hri <- Hm. pose proof Ho as [Hi Hd Ha].
  set (r := mutation_relationship m) in *.
  assert (overlay rc (d.1, d.2 ∖ {[r]}) l ps ri) as Ho'.
  { split; [done| |done]. intros x. cbn [snd]. rewrite elem_of_difference. intros [? _]. by apply Hd. }
  exists (rels ++ [r]), ri. split_and!; [done| |by left].
  eapply merged_perm; [exact Ho|exact Ho'|exact Hp| |].
  - rewrite Hp. apply NoDup_app. split_and!; [|intros x Hx ->%list_elem_of_singleton|apply NoDup_singleton].
    + eapply merged_NoDup; [by eapply ss_NoDup|exact Ho].
    + apply elem_of_merged in Hx. tauto.
  - intros x. rewrite elem_of_app, Hp, !elem_of_merged, list_elem_of_singleton. cbn [snd].
    rewrite elem_of_difference, elem_of_singleton.
    destruct (decide (x = r)) as [->|]; tauto.
Qed.

Lemma apply_delta_mutation_ok rels d l ps ri m :
  overlay rc d l ps ri → rels ≡ₚ merged rc ri d.2 →
  mutation_done rels l ps m (apply_delta_mutation v d m).
Proof.
  intros Ho Hp.
  assert (∀ x, x ∈ rels ↔ (x ∈ rc ∧ x ∉ d.2) ∨ x ∈ ri) as Hx.
  { intros x. by rewrite Hp, elem_of_merged. }
  pose proof (relationship_location_spec d l ps ri (mutation_relationship m) Ho) as Hloc.
  pose proof Ho as [Hi Hd Ha]. destruct m as [r|r|r]; cbn [mutation_relationship] in Hloc; simpl.
  - unfold create_delta_relationship.
    destruct (relationship_location v d.1 d.2 r).
    + left. simpl. rewrite decide_True; [done|]. apply Hx. tauto.
    + left. simpl. rewrite decide_True; [done|]. apply Hx. tauto.
    + destruct Hloc as (H1 & H2 & H3). apply (undelete_ok _ _ _ _ ri r); try done.
      simpl. rewrite decide_False; [done|]. rewrite Hx. tauto.
    + destruct Hloc as (H1 & H2). apply (delta_insert_ok _ _ _ _ ri r); try done.
      simpl. rewrite decide_False; [done|]. rewrite Hx. tauto.
  - unfold touch_delta_relationship.
    destruct (relationship_location v d.1 d.2 r).
    + exists rels, ri. simpl. rewrite decide_True; [by eauto|]. apply Hx. tauto.
    + exists rels, ri. simpl. rewrite decide_True; [by eauto|]. apply Hx. tauto.
    + destruct Hloc as (H1 & H2 & H3). apply (undelete_ok _ _ _ _ ri r); try done.
      simpl. rewrite decide_False; [done|]. rewrite Hx. tauto.
    + destruct Hloc as (H1 & H2). apply (delta_insert_ok _ _ _ _ ri r); try done.
      simpl. rewrite decide_False; [done|]. rewrite Hx. tauto.
  - unfold delete_delta_relationship.
    assert (NoDup rels) as Hnd.
    { rewrite Hp. eapply merged_NoDup; [by eapply ss_NoDup|exact Ho]. }
    destruct (relationship_location v d.1 d.2 r).
    + pose proof (wp_store_delete _ _ _ _ r Hi) as Hw. unfold wp in Hw.
      destruct (store_delete r d.1) as [[[]|e] s]; [|by destruct Hw as (_ & ? & _)].
      destruct Hw as [_ Hs].
      assert (overlay rc (s, d.2) l ps (filter (λ x, x ≠ r) ri)) as Ho'.
      { split; [done|done|]. intros x [_ Hin]%list_elem_of_filter. by apply Ha. }
      exists (filter (λ x, x ≠ r) rels), (filter (λ x, x ≠ r) ri).
      split_and!; [simpl; rewrite decide_True; [done|]; apply Hx; tauto| |by left].
      eapply merged_perm; [exact Ho|exact Ho'|exact Hp|by apply NoDup_filter|].
      intros x. rewrite elem_of_merged, !list_elem_of_filter, Hx. cbn [snd].
      specialize (Ha r Hloc). destruct (decide (x = r)) as [->|]; tauto.
    + destruct Hloc as (H1 & H2 & H3).
      assert (overlay rc (d.1, {[r]} ∪ d.2) l ps ri) as Ho'.
      { split; [done| |done]. intros x. cbn [snd]. rewrite elem_of_union, elem_of_singleton.
        intros [->|?]; [done|by apply Hd]. }
      exists (filter (λ x, x ≠ r) rels), ri.
      split_and!; [simpl; rewrite decide_True; [done|]; apply Hx; tauto| |by left].
      eapply merged_perm; [exact Ho|exact Ho'|exact Hp|by apply NoDup_filter|].
      intros x. rewrite elem_of_merged, !list_elem_of_filter, Hx. cbn [snd].
      rewrite elem_of_union, elem_of_singleton. destruct (decide (x = r)) as [->|]; tauto.
    + left. simpl. rewrite decide_False; [done|]. rewrite Hx. tauto.
    + left. simpl. rewrite decide_False; [done|]. rewrite Hx. tauto.
Qed.

Lemma apply_delta_sequence ms rels d l ps ri :
  overlay rc d l ps ri → rels ≡ₚ merged rc ri d.2 →
  match try_fold (apply_delta_mutation v) d ms with
  | Ok d' => ∃ rels' l' ps' ri', try_fold spec_mutation rels ms = Ok rels' ∧
               overlay rc d' l' ps' ri' ∧ rels' ≡ₚ merged rc ri' d'.2
  | Err e => try_fold spec_mutation rels ms = Err e ∨
             (∃ c, e = CapacityExceeded c) ∧ ¬ batch_room l ps ms
  end.
Proof.
  revert rels d l ps ri. induction ms as [|m ms IH]; intros rels d l ps ri Ho Hp; simpl.
  { eauto 8. }
  pose proof (apply_delta_mutation_ok rels d l ps ri m Ho Hp) as Hm.
  destruct (apply_delta_mutation v d m) as [d1|e]; simpl.
  - destruct Hm as (rels1 & ri1 & -> & Hp1 & Hov). simpl.
    assert (∀ l1 ps1, overlay rc d1 l1 ps1 ri1 →
      (batch_room l ps (m :: ms) → batch_room l1 ps1 ms) →
      match try_fold (apply_delta_mutation v) d1 ms with
      | Ok d' => ∃ rels' l' ps' ri', try_fold spec_mutation rels1 ms = Ok rels' ∧
                   overlay rc d' l' ps' ri' ∧ rels' ≡ₚ merged rc ri' d'.2
      | Err e => try_fold spec_mutation rels1 ms = Err e ∨
                 (∃ c, e = CapacityExceeded c) ∧ ¬ batch_room l ps (m :: ms)
      end) as Hstep.
    { intros l1 ps1 Ho1 Hroom. specialize (IH rels1 d1 l1 ps1 ri1 Ho1 Hp1).
      destruct (try_fold (apply_delta_mutation v) d1 ms); [done|]. tauto. }
    destruct Hov as [Ho1|[row Ho1]]; apply (Hstep _ _ Ho1).
    + apply batch_room_skip.
    + apply batch_room_push.
  - destruct Hm as [->|[He Hn]]; [by left|right]. split; [done|]. intros Hroom.
    apply Hn. by eapply batch_room_step.
Qed.
End mutation.
End overlay.
