(* ===== verification/ViewSpec.v ===== *)
(** * Views against the contract of a relationship store

    The invariant of a view, what its queries list, and that a batch on a view
    is a batch on its relationships, through undeletion, overlay and
    checkpointing. *)

From S2P Require Import Prelude Model Domain StoreTypes Interner LiveRows Posting Row Identity.
From S2P Require Import Store StoreInv StoreQuery StoreSpec StoreProps StoreView ViewInv.

(** The filter of a precondition. *)
Definition precondition_filter (p : Precondition) : RelationshipFilter :=
  match p with MustMatch f | MustNotMatch f => f end.

Section views.
Context `{Hasher}.

(** ** Invariant *)

Definition view_overlay (v : StoreView) : DeltaState :=
  match delta v with Some d => (inserted d, deleted d) | None => (store_default, ∅) end.

(** The overlay's own rows, in insertion order, and the tombstones. *)
Definition overlay_rows (v : StoreView) : list Relationship := store_rows (view_overlay v).1.
Definition tombstones (v : StoreView) : gset Relationship := (view_overlay v).2.

(** The deleted relationships a filter matches. The limit of a query is applied
    before they are taken away, so they count against it. *)
Definition deleted_matches (v : StoreView) (P : Relationship → bool) : nat :=
  length (filter (λ t, P t = true) (elements (tombstones v))).

(** The limit of a precondition exceeds the deleted relationships it matches. *)
Definition limit_clears (v : StoreView) (p : Precondition) : Prop :=
  deleted_matches v (filter_matches (precondition_filter p)) <
  limit_nat (rf_limit (precondition_filter p)).

#[export] Instance limit_clears_dec v p : Decision (limit_clears v p).
Proof. unfold limit_clears. apply _. Defined.

Lemma no_deleted_matches v P : tombstones v = ∅ → deleted_matches v P = 0.
Proof. unfold deleted_matches. by intros ->. Qed.

Record view_state (v : StoreView) (lc : list string) (pc : list (RelationshipRow * Relationship))
    (rc : list Relationship) (l : list string) (ps : list (RelationshipRow * Relationship))
    (ri : list Relationship) : Prop := {
  vs_checkpoint : store_state (checkpoint v) lc pc rc;
  vs_overlay : overlay rc (view_overlay v) l ps ri;
  vs_rows d : delta v = Some d →
    deleted_rows d = deleted_relationship_rows (checkpoint v) (deleted d);
  vs_count d : delta v = Some d → (0 ≤ mutation_count d)%Z ∧ should_checkpoint v = false
}.

Lemma ss_store_rows st l ps rels : store_state st l ps rels → store_rows st = rels.
Proof. intros [Hrep _ _ <-]. apply (store_rows_live Hrep). Qed.

Lemma vs_view_rows v lc pc rc l ps ri :
  view_state v lc pc rc l ps ri → view_rows v = merged rc ri (tombstones v).
Proof.
  intros [Hc [Hi _ _] _ _]. unfold view_rows, merged, tombstones, view_overlay in *.
  apply ss_store_rows in Hc as <-. destruct (delta v) as [d|]; simpl in *.
  - by apply ss_store_rows in Hi as <-.
  - apply ss_store_rows in Hi as <-. simpl. rewrite app_nil_r.
    symmetry. apply filter_all. intros r _. apply not_elem_of_empty.
Qed.

Lemma view_state_checkpoint st l ps rels :
  store_state st l ps rels → view_state (view_from_checkpoint st) l ps rels [] [] [].
Proof.
  intros Hst. split; [done| |done|done].
  split; [apply store_state_default|by intros r ?%elem_of_empty|by intros r ?%not_elem_of_nil].
Qed.

(** ** Checkpointing *)

Lemma checkpointed_ok v :
  NoDup (view_rows v) →
  match checkpointed v with
  | Ok v' => (∃ l' ps', view_state v' l' ps' (view_rows v) [] [] []) ∧ view_rows v' = view_rows v
  | Err e => (∃ c, e = CapacityExceeded c) ∧ ¬ sequence_fits [] [] (view_rows v)
  end.
Proof.
  intros Hnd. pose proof (wp_insert_sequence (view_rows v) _ _ _ _ store_state_default Hnd) as Hw.
  unfold checkpointed, canonical_store, wp in *.
  destruct (st_for store_insert _ _) as [[[]|e] st']; simpl; [|done].
  destruct Hw as (l' & ps' & Hst'). split.
  - exists l', ps'. by apply view_state_checkpoint.
  - by apply (ss_store_rows _ _ _ _ Hst').
Qed.

(** ** Queries *)

(** The relationships of a view iterator's items, as its consumers read them. *)
Definition ref_relationships (items : list RelationshipRef) : list Relationship :=
  omap (M:=list)
    (λ x, match relationship_from_row (interner (ref_store x)) (ref_row x) with
          | Ok r => Some r | Err _ => None end) items.

Lemma ref_relationships_app xs ys :
  ref_relationships (xs ++ ys) = ref_relationships xs ++ ref_relationships ys.
Proof. apply omap_app. Qed.

Lemma ref_relationships_store st items :
  ref_relationships (mkRef st <$> items) = item_relationships st items.
Proof.
  unfold ref_relationships, item_relationships.
  induction items as [|row items IH]; [done|]. rewrite fmap_cons. cbn [omap list_omap ref_store ref_row].
  destruct (relationship_from_row _ _); [|done]. f_equal. exact IH.
Qed.

Section state.
Context {v : StoreView} {lc : list string} {pc : list (RelationshipRow * Relationship)}.
Context {rc : list Relationship} {l : list string} {ps : list (RelationshipRow * Relationship)}.
Context {ri : list Relationship}.
Hypothesis Hv : view_state v lc pc rc l ps ri.

Lemma vs_checkpoint_rep : store_rep (checkpoint v) lc pc.
Proof. apply Hv. Qed.

(** The compact tombstones hide exactly the rows of the deleted relationships. *)
Lemma visible_tombstones q :
  q ∈ pc → visible (deleted_rows <$> delta v) q.1 ↔ q.2 ∉ tombstones v.
Proof.
  intros Hq. pose proof vs_checkpoint_rep as Hrep. pose proof (sr_interner _ _ _ Hrep) as Hi.
  pose proof (pair_in Hrep q Hq) as Hd. unfold visible, tombstones, view_overlay.
  destruct (delta v) as [d|] eqn:Ed; simpl; [|split; [intros _; apply not_elem_of_empty|exact (λ _, I)]].
  rewrite (vs_rows _ _ _ _ _ _ _ Hv d Ed). unfold deleted_relationship_rows.
  rewrite elem_of_list_to_set, list_elem_of_omap. apply not_iff_compat. split.
  - intros (r & Hr & (row & Hrow & E)%fmap_Some).
    apply (row_from_existing_Some Hi) in Hrow as [_ Hrow].
    apply elem_of_elements in Hr. assert (r = q.2) as Er; [|by rewrite <- Er].
    symmetry.
    eapply row_denotes_functional; [exact Hd|]. by eapply row_denotes_eqv; [symmetry; exact E|].
  - intros Hr. exists q.2. split; [by apply elem_of_elements|].
    destruct (row_from_existing q.2 (interner (checkpoint v))) as [row|] eqn:E.
    + apply fmap_Some. exists row. split; [done|].
      apply (row_from_existing_Some Hi) in E as [_ E].
      by apply (row_denotes_identity lc _ _ q.2); [apply Hi| |].
    + by destruct (row_from_existing_None Hi _ _ E Hd).
Qed.

Lemma visible_items n P :
  item_relationships (checkpoint v)
    (filter (visible (deleted_rows <$> delta v))
       (take n (filter (λ q, P q.2 = true) (live_pairs (checkpoint v) pc))).*1) =
  filter (λ r, r ∉ tombstones v) (take n (filter (λ r, P r = true) rc)).
Proof.
  pose proof vs_checkpoint_rep as Hrep.
  pose proof (vs_checkpoint _ _ _ _ _ _ _ Hv) as [_ _ _ Hrc].
  rewrite <- Hrc. set (qs := take n _).
  assert (∀ q, q ∈ qs → q ∈ pc) as Hqs.
  { intros q [_ Hq]%subseteq_take%list_elem_of_filter. by apply list_elem_of_filter in Hq as [_ ?]. }
  rewrite filter_list_fmap.
  rewrite (item_relationships_pairs _ lc pc _ Hrep).
  2: { intros q [_ Hq]%list_elem_of_filter. by apply Hqs. }
  rewrite (filter_ext_in _ (λ q, q.2 ∉ tombstones v)) by
    (intros q Hq; by apply visible_tombstones, Hqs).
  transitivity (filter (λ r, r ∉ tombstones v) qs.*2); [by rewrite filter_list_fmap|].
  f_equal. unfold qs.
  unfold live_relationships. rewrite fmap_take. by rewrite filter_list_fmap.
Qed.

(** A query that lists the first [n] live relationships satisfying [P] in any
    indexed store lists on a view the first [n] of the overlay, then those of
    the first [n] of the checkpoint that have no tombstone. *)
Lemma view_query_cut q (n : Store → nat) P :
  (∀ st l ps, store_rep st l ps → compact_items st (q st) =
     (take (n st) (filter (λ p, P p.2 = true) (live_pairs st ps))).*1) →
  ref_relationships (view_items v (view_iter v q)) =
  take (n (view_overlay v).1) (filter (λ r, P r = true) ri) ++
  filter (λ r, r ∉ tombstones v) (take (n (checkpoint v)) (filter (λ r, P r = true) rc)).
Proof.
  intros Hq. rewrite view_iter_items, ref_relationships_app, ref_relationships_store. f_equal.
  - destruct Hv as [_ [Hi _ _] _ _]. unfold view_overlay in Hi.
    unfold view_overlay. destruct (delta v) as [d|]; simpl in *.
    + rewrite ref_relationships_store. destruct Hi as [Hrep _ _ <-].
      rewrite (Hq _ _ _ Hrep). by apply (taken_live _ l).
    + apply ss_store_rows in Hi as <-. change (store_rows store_default) with (@nil Relationship).
      by rewrite filter_nil, take_nil.
  - rewrite (Hq _ _ _ vs_checkpoint_rep). apply visible_items.
Qed.

Lemma view_query_lists q n P :
  (∀ st l ps, store_rep st l ps → compact_items st (q st) =
     (take n (filter (λ p, P p.2 = true) (live_pairs st ps))).*1) →
  ref_relationships (view_items v (view_iter v q)) =
  take n (filter (λ r, P r = true) ri) ++
  filter (λ r, r ∉ tombstones v) (take n (filter (λ r, P r = true) rc)).
Proof. apply (view_query_cut q (λ _, n)). Qed.

Lemma live_pairs_bound st k ks (P : Relationship → bool) :
  store_rep st k ks →
  length (filter (λ q, P q.2 = true) (live_pairs st ks)) ≤ length (rows st).
Proof.
  intros Hst. rewrite (sr_rows _ _ _ Hst), length_fmap. unfold live_pairs.
  etrans; [apply length_filter|apply length_filter].
Qed.

(** Queries from the subject side have no limit. *)
Lemma view_reverse_lists f :
  ref_relationships (view_items v (view_reverse_query v f)) =
  filter (λ r, subject_matches f (subject r) = true) ri ++
  filter (λ r, r ∉ tombstones v) (filter (λ r, subject_matches f (subject r) = true) rc).
Proof.
  set (P := λ r, subject_matches f (subject r)).
  assert (∀ st k ks rs, store_state st k ks rs →
    take (length (rows st)) (filter (λ r, P r = true) rs) = filter (λ r, P r = true) rs) as Hall.
  { intros st k ks rs [Hst _ _ <-]. apply take_ge.
    unfold live_relationships. rewrite filter_list_fmap, length_fmap.
    by apply (live_pairs_bound st k). }
  unfold view_reverse_query. rewrite (view_query_cut _ (λ st, length (rows st)) P).
  - by rewrite (Hall _ _ _ _ (vs_checkpoint _ _ _ _ _ _ _ Hv)),
      (Hall _ _ _ _ (ov_inserted _ _ _ _ _ (vs_overlay _ _ _ _ _ _ _ Hv))).
  - intros st k ks Hst. rewrite (reverse_query_pairs Hst), take_ge; [done|].
    by apply (live_pairs_bound st k).
Qed.

Lemma pairs_resolve st k (ks qs : list (RelationshipRow * Relationship)) row :
  store_rep st k ks → (∀ q, q ∈ qs → q ∈ ks) → row ∈ qs.*1 →
  is_Some (match relationship_from_row (interner st) row with Ok r => Some r | Err _ => None end).
Proof.
  intros Hst Hqs ([row' r] & -> & Hq%Hqs)%list_elem_of_fmap.
  pose proof (pair_in Hst _ Hq) as Hd. simpl in Hd.
  apply (relationship_from_row_Ok (sr_interner _ _ _ Hst)) in Hd. simpl. rewrite Hd. eauto.
Qed.

(** Every item of a view resolves. *)
Lemma view_cut_resolve q (n : Store → nat) P :
  (∀ st l ps, store_rep st l ps → compact_items st (q st) =
     (take (n st) (filter (λ p, P p.2 = true) (live_pairs st ps))).*1) →
  length (ref_relationships (view_items v (view_iter v q))) =
  length (view_items v (view_iter v q)).
Proof.
  intros Hq.
  assert (∀ st k ks, store_rep st k ks →
    ∀ p, p ∈ take (n st) (filter (λ p, P p.2 = true) (live_pairs st ks)) → p ∈ ks) as Hsub.
  { intros st k ks _ p [_ Hp]%subseteq_take%list_elem_of_filter.
    by apply list_elem_of_filter in Hp as [_ ?]. }
  assert (∀ st k ks x, store_rep st k ks → x ∈ mkRef st <$> compact_items st (q st) →
    is_Some (match relationship_from_row (interner (ref_store x)) (ref_row x) with
             | Ok r => Some r | Err _ => None end)) as Hres.
  { intros st k ks x Hst (row & -> & Hrow)%list_elem_of_fmap. rewrite (Hq _ _ _ Hst) in Hrow.
    eapply (pairs_resolve st k ks); [done|by apply (Hsub st k)|exact Hrow]. }
  rewrite view_iter_items. apply length_omap_all. apply Forall_app. split; apply Forall_forall.
  - destruct Hv as [_ [[Hi _ _ _] _ _] _ _]. unfold view_overlay in Hi.
    intros x Hx. destruct (delta v) as [d|]; [|by apply not_elem_of_nil in Hx].
    by apply (Hres _ _ _ _ Hi).
  - intros x Hx. apply (Hres _ _ _ _ vs_checkpoint_rep).
    apply list_elem_of_fmap in Hx as (row & -> & [_ Hrow]%list_elem_of_filter).
    apply list_elem_of_fmap. eauto.
Qed.

Lemma view_items_resolve q n P :
  (∀ st l ps, store_rep st l ps → compact_items st (q st) =
     (take n (filter (λ p, P p.2 = true) (live_pairs st ps))).*1) →
  length (ref_relationships (view_items v (view_iter v q))) =
  length (view_items v (view_iter v q)).
Proof. apply (view_cut_resolve q (λ _, n)). Qed.

(** With a limit above the number of deleted matches, a match is found when there
    is one. *)
Lemma filter_take_tombstones n P :
  deleted_matches v P < n →
  filter (λ r, r ∉ tombstones v) (take n (filter (λ r, P r = true) rc)) = [] →
  filter (λ r, r ∉ tombstones v) (filter (λ r, P r = true) rc) = [].
Proof.
  intros Hn Hnil. destruct (decide (length (filter (λ r, P r = true) rc) ≤ n)) as [Hle|Hgt].
  { by rewrite take_ge in Hnil. }
  exfalso. set (k := take n (filter (λ r, P r = true) rc)) in *.
  assert (NoDup k) as Hk.
  { eapply (sublist_NoDup _ (filter (λ r, P r = true) rc)); [|apply sublist_take].
    eapply NoDup_filter, ss_NoDup, (vs_checkpoint _ _ _ _ _ _ _ Hv). }
  assert (k ⊆+ filter (λ t, P t = true) (elements (tombstones v))) as Hsub%submseteq_length.
  { apply NoDup_submseteq; [done|]. intros r Hr. apply list_elem_of_filter. split.
    - apply subseteq_take, list_elem_of_filter in Hr. by destruct Hr.
    - apply elem_of_elements. destruct (decide (r ∈ tombstones v)) as [|Hn']; [done|].
      assert (r ∈ filter (λ r, r ∉ tombstones v) k) as Hin by (by apply list_elem_of_filter).
      rewrite Hnil in Hin. by apply not_elem_of_nil in Hin. }
  unfold k, deleted_matches in *. rewrite length_take in Hsub. lia.
Qed.

(** ** First matches *)

Lemma existsb_filter (P : Relationship → bool) rs :
  existsb P rs = bool_decide (filter (λ r, P r = true) rs ≠ []).
Proof.
  induction rs as [|r rs IH]; [done|]. rewrite filter_cons. simpl.
  destruct (P r); simpl; [done|exact IH].
Qed.

Lemma filter_comm (P Q : Relationship → Prop) `{∀ x, Decision (P x), ∀ x, Decision (Q x)} (rs : list Relationship) :
  filter P (filter Q rs) = filter Q (filter P rs).
Proof. rewrite !list_filter_filter. apply list_filter_iff. tauto. Qed.

Lemma view_rows_exists P :
  existsb P (view_rows v) = true ↔
  filter (λ r, P r = true) ri ≠ [] ∨
  filter (λ r, r ∉ tombstones v) (filter (λ r, P r = true) rc) ≠ [].
Proof.
  rewrite (vs_view_rows _ _ _ _ _ _ _ Hv), existsb_filter, bool_decide_eq_true. unfold merged.
  rewrite filter_app, filter_comm.
  destruct (filter (λ r, r ∉ tombstones v) _); simpl; [|naive_solver].
  naive_solver.
Qed.

Lemma view_found q n P :
  (∀ st l ps, store_rep st l ps → compact_items st (q st) =
     (take n (filter (λ p, P p.2 = true) (live_pairs st ps))).*1) →
  bool_decide (is_Some (view_next v (view_iter v q)).1) = true ↔
  take n (filter (λ r, P r = true) ri) ++
  filter (λ r, r ∉ tombstones v) (take n (filter (λ r, P r = true) rc)) ≠ [].
Proof.
  intros Hq. rewrite <- (view_query_lists q n P Hq), view_next_some, bool_decide_eq_true.
  pose proof (view_items_resolve q n P Hq) as Hlen.
  by destruct (view_items v (view_iter v q)), (ref_relationships _).
Qed.

Lemma take_nonempty {A} n (k : list A) : 0 < n → take n k = [] → k = [].
Proof. destruct k; [done|]. destruct n; [lia|done]. Qed.

(** A first match is a relationship of the view. *)
Lemma view_first_sound q n P :
  (∀ st l ps, store_rep st l ps → compact_items st (q st) =
     (take n (filter (λ p, P p.2 = true) (live_pairs st ps))).*1) →
  bool_decide (is_Some (view_next v (view_iter v q)).1) = true →
  existsb P (view_rows v) = true.
Proof.
  intros Hq Hne%(view_found q n P Hq). apply view_rows_exists.
  destruct (decide (take n (filter (λ r, P r = true) ri) = [])) as [Hi|Hi]; [right|left].
  2: { intros E. by rewrite E, take_nil in Hi. }
  rewrite Hi in Hne. intros E. apply Hne, elem_of_nil_inv. intros r [Hr Hin%subseteq_take]%list_elem_of_filter.
  assert (r ∈ filter (λ r, r ∉ tombstones v) (filter (λ r, P r = true) rc)) as Hx
    by (by apply list_elem_of_filter).
  rewrite E in Hx. by apply not_elem_of_nil in Hx.
Qed.

(** None is missed when the deleted rows do not fill the limit. *)
Lemma view_first_found q n P :
  0 < n →
  (∀ st l ps, store_rep st l ps → compact_items st (q st) =
     (take n (filter (λ p, P p.2 = true) (live_pairs st ps))).*1) →
  (filter (λ r, r ∉ tombstones v) (take n (filter (λ r, P r = true) rc)) = [] →
   filter (λ r, r ∉ tombstones v) (filter (λ r, P r = true) rc) = []) →
  bool_decide (is_Some (view_next v (view_iter v q)).1) = existsb P (view_rows v).
Proof.
  intros Hn Hq Hfill. apply eq_bool_prop_intro. split; intros Ht%Is_true_eq_true; apply Is_true_eq_left.
  - by apply (view_first_sound q n P).
  - apply (view_found q n P Hq). intros [Hi%(take_nonempty _ _ Hn) Hc]%app_eq_nil.
    apply view_rows_exists in Ht as [Hx|Hx]; [done|by apply Hx, Hfill].
Qed.

(** In particular when the limit exceeds the number of deleted matches. *)
Lemma view_first_match q n P :
  0 < n →
  (∀ st l ps, store_rep st l ps → compact_items st (q st) =
     (take n (filter (λ p, P p.2 = true) (live_pairs st ps))).*1) →
  deleted_matches v P < n →
  bool_decide (is_Some (view_next v (view_iter v q)).1) = existsb P (view_rows v).
Proof.
  intros Hn Hq Hlim. by apply (view_first_found q n P Hn Hq), filter_take_tombstones.
Qed.

Lemma view_check_precondition_ok p :
  limit_clears v p →
  view_check_precondition v p = spec_precondition (view_rows v) p.
Proof.
  intros Hlim.
  assert (∀ f, deleted_matches v (filter_matches f) < limit_nat (rf_limit f) →
    view_any_resource_match v f = existsb (filter_matches f) (view_rows v)) as Hm.
  { intros f Hf. unfold view_any_resource_match, view_query.
    eapply view_first_match; [|by intros st k ks Hst; apply (query_pairs Hst)|exact Hf]. lia. }
  destruct p as [f|f]; simpl in *; rewrite (Hm f Hlim); [|done]. by destruct (existsb _ _).
Qed.
End state.

(** ** Batches *)

(** Room for a checkpoint of the view's relationships and a batch's, even if no
    identifier is shared. *)
Record checkpoint_room (rels : list Relationship) (ms : list RelationshipMutation) : Prop := {
  cr_rows : (Z.of_nat (length rels) + Z.of_nat (length ms) ≤ u32_max)%Z;
  cr_symbols : (Z.of_nat (length (relationship_values rels)) +
                Z.of_nat (length (mutation_values ms)) ≤ u32_max)%Z;
  cr_bytes : (Z.of_nat (total_len (relationship_values rels)) +
              Z.of_nat (total_len (mutation_values ms)) ≤ u32_max)%Z
}.

Lemma relationship_values_app rs ts :
  relationship_values (rs ++ ts) = relationship_values rs ++ relationship_values ts.
Proof. unfold relationship_values. by rewrite fmap_app, join_app. Qed.

Lemma relationship_values_cons r rs :
  relationship_values (r :: rs) = relationship_identifier_values r ++ relationship_values rs.
Proof. done. Qed.

Lemma relationship_values_filter P `{∀ r, Decision (P r)} rs :
  length (filter P rs) ≤ length rs ∧
  length (relationship_values (filter P rs)) ≤ length (relationship_values rs) ∧
  total_len (relationship_values (filter P rs)) ≤ total_len (relationship_values rs).
Proof.
  induction rs as [|r rs IH]; [done|]. rewrite filter_cons.
  rewrite (relationship_values_cons r rs), length_app, total_len_app.
  case_decide; [rewrite relationship_values_cons, length_app, total_len_app|]; cbn [length]; lia.
Qed.

Lemma relationship_values_perm rs ts :
  rs ≡ₚ ts → relationship_values rs ≡ₚ relationship_values ts.
Proof.
  induction 1 as [|r rs ts _ IH|r t rs|rs ts us _ IH1 _ IH2]; rewrite ?relationship_values_cons.
  - done.
  - by rewrite IH.
  - rewrite !app_assoc. f_equiv. apply Permutation_app_comm.
  - by rewrite IH1.
Qed.

Lemma checkpoint_room_step rels rels' m ms :
  spec_mutation rels m = Ok rels' → checkpoint_room rels (m :: ms) → checkpoint_room rels' ms.
Proof.
  intros Hm [H1 H2 H3]. rewrite mutation_values_cons, length_app in H2.
  rewrite mutation_values_cons, total_len_app in H3. cbn [length] in H1.
  assert (∀ r, mutation_relationship m = r → checkpoint_room (rels ++ [r]) ms) as Happ.
  { intros r <-. assert (relationship_values [mutation_relationship m] =
      relationship_identifier_values (mutation_relationship m)) as E by apply app_nil_r.
    split; rewrite ?relationship_values_app, ?length_app, ?total_len_app, ?E; cbn [length]; lia. }
  assert (checkpoint_room rels ms) as Hskip by (split; lia).
  destruct m as [r|r|r]; simpl in Hm.
  - destruct (decide (r ∈ rels)); [done|]. injection Hm as <-. by apply Happ.
  - injection Hm as <-. destruct (decide (r ∈ rels)); [done|by apply Happ].
  - destruct (decide (r ∈ rels)); [|done]. injection Hm as <-.
    destruct (relationship_values_filter (λ x, x ≠ r) rels) as (F1 & F2 & F3). split; lia.
Qed.

Lemma checkpoint_room_sequence ms rels rels' :
  try_fold spec_mutation rels ms = Ok rels' → checkpoint_room rels ms → checkpoint_room rels' [].
Proof.
  revert rels. induction ms as [|m ms IH]; intros rels; simpl; [by intros [= <-]|].
  intros (rels1 & H1 & H2)%bind_Ok Hr. eapply IH; [done|]. by eapply checkpoint_room_step.
Qed.

Lemma checkpoint_room_fits rels rels' :
  rels ≡ₚ rels' → checkpoint_room rels [] → sequence_fits [] [] rels'.
Proof.
  intros Hp [H1 H2 H3]. pose proof (relationship_values_perm _ _ Hp) as Hv.
  destruct (interned_bounds [] (relationship_values rels')) as [B1 B2].
  assert (total_len (relationship_values rels) = total_len (relationship_values rels')) as Ht.
  { clear -Hv. induction Hv; simpl; lia. }
  apply Permutation_length in Hp, Hv. split; [|split]; simpl in *; lia.
Qed.

Lemma view_ready v lc pc rc l ps ri :
  view_state v lc pc rc l ps ri → ensure_checkpoint_mutation_ready v = Ok v.
Proof. intros [[_ _ Hr _] _ _ _]. unfold ensure_checkpoint_mutation_ready. by rewrite Hr. Qed.

(** The mutation counter cannot overflow: a view that large is a checkpoint. *)
Lemma next_mutation_count_ok v lc pc rc l ps ri ms :
  view_state v lc pc rc l ps ri → ms ≠ [] → (batch_len ms ≤ MAX_MUTATIONS_PER_BATCH)%Z →
  ∃ n, next_mutation_count v ms = Ok n ∧ (0 ≤ n)%Z.
Proof.
  intros Hv Hne Hlen. pose proof (vs_count _ _ _ _ _ _ _ Hv) as Hcount.
  unfold next_mutation_count, should_checkpoint in *.
  set (prev := match delta v with Some d => mutation_count d | None => 0%Z end).
  assert (0 ≤ prev < STORE_VIEW_MAX_DELTA_MUTATIONS)%Z as Hprev.
  { unfold prev. destruct (delta v) as [d|]; [|done].
    destruct (Hcount d eq_refl) as [H0 [H1%Z.leb_gt _]%orb_false_iff]. lia. }
  assert (0 < batch_len ms)%Z by (unfold batch_len; destruct ms; simpl; [done|lia]).
  unfold STORE_VIEW_MAX_DELTA_MUTATIONS, MAX_MUTATIONS_PER_BATCH in *.
  unfold checked_add. rewrite (proj2 (Z.leb_le _ usize_max)).
  2: { unfold usize_max, u64_max. lia. }
  simpl. unfold non_zero. rewrite (proj2 (Z.eqb_neq _ _)) by lia.
  eexists. split; [done|]. lia.
Qed.

(** The overlay after a batch, kept or checkpointed. *)
Lemma finish_batch_ok v lc pc rc d l ps ri rels ms n :
  store_state (checkpoint v) lc pc rc → overlay rc d l ps ri → rels ≡ₚ merged rc ri d.2 →
  (0 ≤ n)%Z →
  let candidate :=
    mkView (checkpoint v) (Some (mkDelta d.1 (deleted_relationship_rows (checkpoint v) d.2) d.2 n)) in
  match (if should_checkpoint candidate then checkpointed candidate else Ok candidate) with
  | Ok v' => (∃ lc' pc' rc' l' ps' ri', view_state v' lc' pc' rc' l' ps' ri') ∧
             view_rows v' ≡ₚ rels
  | Err e => (∃ c, e = CapacityExceeded c) ∧ ¬ checkpoint_room rels ms
  end.
Proof.
  intros Hc Ho Hp Hn candidate. destruct (should_checkpoint candidate) eqn:Es.
  - assert (view_rows candidate = merged rc ri d.2) as Hrows.
    { unfold view_rows. simpl. apply ss_store_rows in Hc as ->. destruct Ho as [Hi _ _].
      by apply ss_store_rows in Hi as ->. }
    assert (NoDup (view_rows candidate)) as Hnd.
    { rewrite Hrows. eapply merged_NoDup; [by eapply ss_NoDup|exact Ho]. }
    pose proof (checkpointed_ok _ Hnd) as Hw. destruct (checkpointed candidate) as [v'|e].
    + destruct Hw as [(l' & ps' & Hv') ->]. split; [eauto 8|]. by rewrite Hp, Hrows.
    + destruct Hw as [Hcap Hf]. split; [done|]. intros [H1 H2 H3]. apply Hf.
      rewrite Hrows. apply (checkpoint_room_fits rels _ Hp). split; cbn; lia.
  - assert (view_state candidate lc pc rc l ps ri) as Hv.
    { split; [done|by destruct d|by intros d' [= <-]|by intros d' [= <-]]. }
    split; [eauto 8|]. by rewrite (vs_view_rows _ _ _ _ _ _ _ Hv), Hp.
Qed.

(** A batch on a view is a batch on its relationships. *)
Lemma view_apply_ok v lc pc rc l ps ri ms pre :
  view_state v lc pc rc l ps ri →
  (∀ p, p ∈ pre → view_check_precondition v p = spec_precondition (view_rows v) p) →
  match view_apply_mutations v ms pre with
  | Ok v' => (∃ lc' pc' rc' l' ps' ri', view_state v' lc' pc' rc' l' ps' ri') ∧
             ∃ rels', spec_apply (view_rows v) ms pre = Ok rels' ∧ view_rows v' ≡ₚ rels'
  | Err e => spec_apply (view_rows v) ms pre = Err e ∨
             (∃ c, e = CapacityExceeded c) ∧
             ¬ (batch_room l ps ms ∧ checkpoint_room (view_rows v) ms)
  end.
Proof.
  intros Hv Hpre. unfold view_apply_mutations, spec_apply, guard_err.
  destruct (MAX_PRECONDITIONS_PER_BATCH <? batch_len pre)%Z; simpl; [by left|].
  rewrite (try_for_ext _ _ pre Hpre).
  destruct (try_for (spec_precondition (view_rows v)) pre) as [[]|e]; simpl; [|by left].
  destruct (Z.ltb_spec MAX_MUTATIONS_PER_BATCH (batch_len ms)) as [|Hlen]; simpl; [by left|].
  rewrite find_duplicate_spec. destruct (first_repeat _) as [r|]; [by left|].
  destruct (decide (ms = [])) as [->|Hne]; [simpl; eauto 12|].
  pose proof Hv as [Hc Ho _ _].
  assert (∀ {A} (a b : A), match ms with [] => a | _ => b end = b) as Hms by by destruct ms.
  rewrite Hms, (view_ready _ _ _ _ _ _ _ Hv). cbn [mbind result_bind].
  fold (view_overlay v).
  pose proof (apply_delta_sequence Hc ms (view_rows v) (view_overlay v) l ps ri Ho) as Hs.
  rewrite (vs_view_rows _ _ _ _ _ _ _ Hv) in Hs at 1. specialize (Hs (reflexivity _)).
  destruct (try_fold (apply_delta_mutation v) (view_overlay v) ms) as [d|e]; cbn [mbind result_bind].
  2: { destruct Hs as [?|[He Hn]]; [by left|right]. split; [done|]. by intros [? _]. }
  destruct Hs as (rels' & l' & ps' & ri' & Hspec & Ho' & Hp).
  destruct (next_mutation_count_ok _ _ _ _ _ _ _ ms Hv Hne Hlen) as (n & -> & Hn).
  cbn [mbind result_bind].
  pose proof (finish_batch_ok v lc pc rc d l' ps' ri' rels' [] n Hc Ho' Hp Hn) as Hfin.
  cbv zeta in Hfin. cbv zeta. destruct (if should_checkpoint _ then _ else _) as [v'|e].
  - destruct Hfin as [Hst Hr]. eauto.
  - right. destruct Hfin as [He Hr]. split; [done|]. intros [_ Hroom]. apply Hr.
    by eapply checkpoint_room_sequence.
Qed.
End views.
