(* ===== verification/ViewProps.v ===== *)
(** * Properties of published views

    Stated on the views that are reachable from an indexed store by mutation
    batches, in terms of the relationships a view holds. *)

From S2P Require Import Prelude Model Domain StoreTypes Interner LiveRows Posting Row Identity.
From S2P Require Import Store StoreInv StoreQuery StoreSpec StoreProps StoreView ViewInv ViewSpec.

Section properties.
Context `{Hasher}.

(** The views an engine can publish. *)
Inductive view_reachable : StoreView → Prop :=
| vreach_checkpoint st : store_reachable st → view_reachable (view_from_checkpoint st)
| vreach_apply v ms ps v' :
    view_reachable v → view_apply_mutations v ms ps = Ok v' → view_reachable v'.

(** Whatever the preconditions answered, they were met. *)
Lemma view_apply_without v ms ps v' :
  view_apply_mutations v ms ps = Ok v' → view_apply_mutations v ms [] = Ok v'.
Proof.
  unfold view_apply_mutations. intros ([] & _ & ([] & _ & Hms)%bind_Ok)%bind_Ok. exact Hms.
Qed.

Lemma view_reachable_state v :
  view_reachable v → ∃ lc pc rc l ps ri, view_state v lc pc rc l ps ri.
Proof.
  induction 1 as [st Hst|v ms ps v' _ (lc & pc & rc & l & qs & ri & Hv) E%view_apply_without].
  - apply reachable_is in Hst as [(l & qs & Hrep & Hh & Hl) Hr].
    exists l, qs, (store_rows st), [], [], []. by apply view_state_checkpoint.
  - pose proof (view_apply_ok v lc pc rc l qs ri ms [] Hv) as Hw. rewrite E in Hw.
    apply Hw. by intros p ?%not_elem_of_nil.
Qed.

Lemma view_apply_contract v ms ps :
  view_reachable v →
  (∀ p, p ∈ ps → limit_clears v p) →
  match view_apply_mutations v ms ps with
  | Ok v' => ∃ rels', spec_apply (view_rows v) ms ps = Ok rels' ∧ view_rows v' ≡ₚ rels'
  | Err e => spec_apply (view_rows v) ms ps = Err e ∨ ∃ c, e = CapacityExceeded c
  end.
Proof.
  intros (lc & pc & rc & l & qs & ri & Hv)%view_reachable_state Hlim.
  pose proof (view_apply_ok v lc pc rc l qs ri ms ps Hv) as Hw.
  destruct (view_apply_mutations v ms ps) as [v'|e].
  - apply Hw. intros p Hp. by apply (view_check_precondition_ok Hv), Hlim.
  - destruct Hw as [?|[? _]]; [|by left|by right].
    intros p Hp. by apply (view_check_precondition_ok Hv), Hlim.
Qed.

(** C8: on every reachable view, when the limit of each precondition's filter
    exceeds the number of deleted relationships still in the checkpoint that the
    filter matches ([limit_clears]), a batch refines the list contract: if it
    succeeds, so does the contract, and the new view's relationships are the
    contract's up to their order (a relationship that is deleted and created again
    takes its old place); if it fails, the error is the contract's or a table's
    capacity error. *)
Theorem view_apply_mutations_refines v ms ps :
  view_reachable v →
  (∀ p, p ∈ ps → limit_clears v p) →
  match view_apply_mutations v ms ps with
  | Ok v' => ∃ rels', spec_apply (view_rows v) ms ps = Ok rels' ∧ view_rows v' ≡ₚ rels'
  | Err e => spec_apply (view_rows v) ms ps = Err e ∨ ∃ c, e = CapacityExceeded c
  end.
Proof. apply view_apply_contract. Qed.

(** with room for the batch in the overlay, and for a checkpoint of the
    result, a batch on a view has exactly the contract's outcome: the counter of
    the overlay's mutations cannot overflow. *)
Theorem view_apply_no_spurious_error v ms ps :
  view_reachable v →
  (∀ p, p ∈ ps → limit_clears v p) →
  (Z.of_nat (length (rows (view_overlay v).1)) + Z.of_nat (length ms) ≤ u32_max)%Z →
  (Z.of_nat (length (entries (interner (view_overlay v).1))) +
   Z.of_nat (length (mutation_values ms)) ≤ u32_max)%Z →
  (Z.of_nat (byte_len (bytes (interner (view_overlay v).1))) +
   Z.of_nat (total_len (mutation_values ms)) ≤ u32_max)%Z →
  checkpoint_room (view_rows v) ms →
  (λ _, tt) <$> view_apply_mutations v ms ps = (λ _, tt) <$> spec_apply (view_rows v) ms ps.
Proof.
  intros (lc & pc & rc & l & qs & ri & Hv)%view_reachable_state Hlim H1 H2 H3 Hroom.
  pose proof (view_apply_ok v lc pc rc l qs ri ms ps Hv) as Hw.
  assert (∀ p, p ∈ ps → view_check_precondition v p = spec_precondition (view_rows v) p) as Hpre.
  { intros p Hp. by apply (view_check_precondition_ok Hv), Hlim. }
  specialize (Hw Hpre). destruct (view_apply_mutations v ms ps) as [v'|e].
  - by destruct Hw as (_ & rels' & -> & _).
  - destruct Hw as [->|[_ []]]; [done|]. split; [|done].
    destruct Hv as [_ [[Hrep _ _ _] _ _] _ _]. pose proof (sr_interner _ _ _ Hrep) as Hi. split.
    + by rewrite <- (length_fmap fst), <- (sr_rows _ _ _ Hrep).
    + by rewrite <- (entries_length Hi).
    + by rewrite <- (ir_bytes _ _ Hi).
Qed.

(** what the queries of a view list, exactly: the matches of the overlay,
    then those of the checkpoint without a tombstone, each part cut at the
    filter's limit before tombstones are taken away. *)
Theorem view_queries_correct v f sf o rel limit :
  view_reachable v →
  ref_relationships (view_items v (view_query v f)) =
    take (limit_nat (rf_limit f)) (filter (λ r, filter_matches f r = true) (overlay_rows v)) ++
    filter (λ r, r ∉ tombstones v)
      (take (limit_nat (rf_limit f))
         (filter (λ r, filter_matches f r = true) (store_rows (checkpoint v)))) ∧
  ref_relationships (view_items v (view_resource_relation v o rel limit)) =
    take (limit_nat limit) (filter (λ r, on_resource o rel r = true) (overlay_rows v)) ++
    filter (λ r, r ∉ tombstones v)
      (take (limit_nat limit)
         (filter (λ r, on_resource o rel r = true) (store_rows (checkpoint v)))) ∧
  ref_relationships (view_items v (view_reverse_query v sf)) ≡ₚ
    filter (λ r, subject_matches sf (subject r) = true) (view_rows v).
Proof.
  intros (lc & pc & rc & l & qs & ri & Hv)%view_reachable_state.
  pose proof (ss_store_rows _ _ _ _ (vs_checkpoint _ _ _ _ _ _ _ Hv)) as ->.
  assert (overlay_rows v = ri) as ->.
  { eapply ss_store_rows, (ov_inserted _ _ _ _ _ (vs_overlay _ _ _ _ _ _ _ Hv)). }
  split_and!.
  - apply (view_query_lists Hv). intros st k ks Hst. apply (query_pairs Hst).
  - apply (view_query_lists Hv). intros st k ks Hst. apply (resource_relation_pairs Hst).
  - rewrite (view_reverse_lists Hv), (vs_view_rows _ _ _ _ _ _ _ Hv). unfold merged.
    by rewrite filter_app, (Permutation_app_comm (filter _ ri)), filter_comm.
Qed.

(** a match reported by a view (a precondition's, or the evaluator's direct
    check) is one of its relationships; and when the limit exceeds the number of
    deleted matches, every match is reported. *)
Theorem view_matches_correct v f o rel sf :
  view_reachable v →
  (view_any_resource_match v f = true → existsb (filter_matches f) (view_rows v) = true) ∧
  (deleted_matches v (filter_matches f) < limit_nat (rf_limit f) →
   view_any_resource_match v f = existsb (filter_matches f) (view_rows v)) ∧
  (view_any_resource_relation_subject v o rel sf = true →
   existsb (on_resource_subject o rel sf) (view_rows v) = true) ∧
  (tombstones v = ∅ →
   view_any_resource_relation_subject v o rel sf =
   existsb (on_resource_subject o rel sf) (view_rows v)).
Proof.
  intros (lc & pc & rc & l & qs & ri & Hv)%view_reachable_state.
  assert (∀ st k ks, store_rep st k ks → compact_items st (query_compact_relationships st f) =
    (take (limit_nat (rf_limit f)) (filter (λ p, filter_matches f p.2 = true) (live_pairs st ks))).*1)
    as Hq by (intros st k ks Hst; apply (query_pairs Hst)).
  assert (∀ st k ks, store_rep st k ks → compact_items st (resource_relation_subject st o rel sf) =
    (take 1 (filter (λ p, on_resource_subject o rel sf p.2 = true) (live_pairs st ks))).*1)
    as Hd by (intros st k ks Hst; apply (resource_relation_subject_pairs Hst)).
  split_and!.
  - apply (view_first_sound Hv _ _ _ Hq).
  - apply (view_first_match Hv _ _ _ (limit_positive _) Hq).
  - apply (view_first_sound Hv _ _ _ Hd).
  - intros Ht. apply (view_first_match Hv _ _ _ Nat.lt_0_1 Hd). rewrite (no_deleted_matches _ _ Ht). lia.
Qed.

Lemma view_rows_NoDup v : view_reachable v → NoDup (view_rows v).
Proof.
  intros (lc & pc & rc & l & qs & ri & Hv)%view_reachable_state.
  rewrite (vs_view_rows _ _ _ _ _ _ _ Hv). destruct Hv as [Hc Ho _ _].
  eapply (merged_NoDup rc (view_overlay v)); [by eapply ss_NoDup|exact Ho].
Qed.

(** C37: a published view lists no relationship twice, its tombstones are
    relationships of its checkpoint, its overlay adds relationships the
    checkpoint does not hold, and overlay and tombstones are below the
    checkpointing thresholds. *)
Theorem view_overlay_bounded v :
  view_reachable v →
  NoDup (view_rows v) ∧
  (∀ r, r ∈ tombstones v → r ∈ store_rows (checkpoint v)) ∧
  (∀ r, r ∈ overlay_rows v → r ∉ store_rows (checkpoint v)) ∧
  match delta v with
  | Some d => (mutation_count d < STORE_VIEW_MAX_DELTA_MUTATIONS)%Z ∧
              (Z.of_nat (size (deleted d)) < STORE_VIEW_MAX_DELTA_TOMBSTONES)%Z
  | None => True
  end.
Proof.
  intros (lc & pc & rc & l & qs & ri & Hv)%view_reachable_state.
  rewrite (vs_view_rows _ _ _ _ _ _ _ Hv). destruct Hv as [Hc Ho _ Hcount].
  split.
  { eapply (merged_NoDup rc (view_overlay v)); [by eapply ss_NoDup|exact Ho]. }
  destruct Ho as [Hi Hd Ha]. rewrite (ss_store_rows _ _ _ _ Hc).
  unfold overlay_rows, tombstones. rewrite (ss_store_rows _ _ _ _ Hi). split; [exact Hd|].
  split; [exact Ha|]. destruct (delta v) as [d|] eqn:Ed; [|done].
  destruct (Hcount d eq_refl) as [_ Hs]. unfold should_checkpoint in Hs. rewrite Ed in Hs.
  apply orb_false_iff in Hs as [H1%Z.leb_gt H2%Z.leb_gt]. done.
Qed.
End properties.

(** ** Concrete inputs

    Every hash collides here. *)

Module ViewExample.
Export StoreExample.

Definition base : StoreView := view_from_checkpoint store.
Definition batch (v : StoreView) (ms : list RelationshipMutation) : StoreView :=
  match view_apply_mutations v ms [] with Ok v' => v' | Err _ => v end.

(** An overlay with an insertion and a tombstone. *)
Definition view : StoreView := batch base change.

Lemma base_ok : view_reachable base.
Proof. constructor. exact store_ok. Qed.

Lemma batch_ok v ms : view_reachable v → view_reachable (batch v ms).
Proof.
  intros Hv. unfold batch. destruct (view_apply_mutations v ms []) as [v'|] eqn:E; [|done].
  by eapply vreach_apply.
Qed.

Lemma view_ok : view_reachable view.
Proof. apply batch_ok, base_ok. Qed.

(** The same view, with the query limit at one. *)
Definition one_viewer : RelationshipFilter :=
  mkRelationshipFilter (@mkIdent KObjectType "doc" I) None (Some viewer) None query_limit_min.

(** A userset and a user with the same type and id. *)
Definition alice_userset : Relationship :=
  mkRelationship readme viewer (SubjectUserset alice member).
Definition twins : StoreView :=
  view_from_checkpoint
    (apply_mutations [Create alice_userset; Create alice_views] [] store_default).2.
Definition twin_deleted : StoreView := batch twins [Delete alice_userset].

Lemma twins_ok : view_reachable twins.
Proof.
  constructor.
  eapply (reach_apply store_default [Create alice_userset; Create alice_views] [] (Ok tt));
    [constructor|]. by vm_compute.
Qed.
End ViewExample.
Import ViewExample.

(** C36: the limit is applied to the checkpoint before the tombstones, so a
    precondition's limit can hide a relationship of the view (the batch is
    refused although the relationship it requires is there), and the direct
    check, whose limit is one, can miss a user behind a deleted userset. *)
Theorem view_limit_hides_matches :
  (∃ v f, view_reachable v ∧ existsb (filter_matches f) (view_rows v) = true ∧
     view_apply_mutations v [] [MustMatch f] = Err (PreconditionFailed (MustMatch f)) ∧
     spec_apply (view_rows v) [] [MustMatch f] = Ok (view_rows v)) ∧
  (∃ v o rel sf r, view_reachable v ∧ r ∈ view_rows v ∧
     on_resource_subject o rel sf r = true ∧
     view_any_resource_relation_subject v o rel sf = false).
Proof.
  split.
  - exists (batch base [Delete alice_views]), one_viewer. split; [apply batch_ok, base_ok|].
    assert (existsb (filter_matches one_viewer) (view_rows (batch base [Delete alice_views])) = true)
      as Hm by (vm_compute; reflexivity).
    assert (view_any_resource_match (batch base [Delete alice_views]) one_viewer = false)
      as Hn by (vm_compute; reflexivity).
    split; [exact Hm|]. split.
    + unfold view_apply_mutations. simpl. unfold view_check_precondition. by rewrite Hn.
    + unfold spec_apply. simpl. unfold spec_precondition. by rewrite Hm.
  - exists twin_deleted, readme, viewer, alice_filter, alice_views.
    split; [apply batch_ok, twins_ok|]. split.
    + eapply bool_decide_eq_true_1. vm_compute. reflexivity.
    + split; vm_compute; reflexivity.
Qed.

Lemma view_apply_mutations_refines_witness :
  view_reachable view ∧
  ∃ v', view_apply_mutations view [Create alice_views] [MustMatch viewers] = Ok v' ∧
        relationship_to_string <$> view_rows v' =
          ["doc:readme#viewer@user:alice"; "doc:readme#viewer@group:eng#member";
           "group:eng#member@user:alice"; "doc:readme#viewer@user:bob"] ∧
        ∃ rels', view_rows v' ≡ₚ rels'.
Proof.
  split; [exact view_ok|].
  pose proof (view_apply_mutations_refines view [Create alice_views] [MustMatch viewers] view_ok) as Hr.
  assert (match view_apply_mutations view [Create alice_views] [MustMatch viewers] with
          | Ok v' => relationship_to_string <$> view_rows v' | Err _ => [] end =
          ["doc:readme#viewer@user:alice"; "doc:readme#viewer@group:eng#member";
           "group:eng#member@user:alice"; "doc:readme#viewer@user:bob"]) as Hs
    by (vm_compute; reflexivity).
  destruct (view_apply_mutations view [Create alice_views] [MustMatch viewers]) as [v'|e];
    [|discriminate Hs].
  exists v'. split; [reflexivity|]. split; [exact Hs|].
  destruct Hr as (rels' & _ & Hp); [|exists rels'; exact Hp].
  intros p Hp. apply list_elem_of_singleton in Hp as ->.
  eapply bool_decide_eq_true_1. vm_compute. reflexivity.
Defined.

Lemma view_apply_no_spurious_error_witness :
  view_reachable view ∧
  (λ _, tt) <$> view_apply_mutations view [Create bob_views] [] =
  Err (RelationshipAlreadyExists bob_views).
Proof.
  split; [exact view_ok|].
  rewrite (view_apply_no_spurious_error view [Create bob_views] [] view_ok).
  - vm_compute. reflexivity.
  - intros p Hp. destruct (not_elem_of_nil _ Hp).
  - apply Z.leb_le. vm_compute. reflexivity.
  - apply Z.leb_le. vm_compute. reflexivity.
  - apply Z.leb_le. vm_compute. reflexivity.
  - split; apply Z.leb_le; vm_compute; reflexivity.
Defined.

Lemma view_queries_correct_witness :
  view_reachable view ∧
  relationship_to_string <$> ref_relationships (view_items view (view_query view viewers)) =
    ["doc:readme#viewer@user:bob"; "doc:readme#viewer@group:eng#member"].
Proof.
  split; [exact view_ok|].
  rewrite (proj1 (view_queries_correct view viewers alice_filter readme viewer query_limit_min view_ok)).
  vm_compute. reflexivity.
Defined.

Lemma view_matches_correct_witness :
  view_reachable view ∧ view_any_resource_match view viewers = true.
Proof.
  split; [exact view_ok|].
  destruct (view_matches_correct view viewers readme viewer alice_filter view_ok) as (_ & -> & _).
  - vm_compute. reflexivity.
  - simpl. apply Nat.ltb_lt. vm_compute. reflexivity.
Defined.

Lemma view_overlay_bounded_witness : view_reachable view ∧ NoDup (view_rows view).
Proof. split; [exact view_ok|]. exact (proj1 (view_overlay_bounded view view_ok)). Defined.
