(* ===== verification/EvalContext.v ===== *)
(** * Evaluation context (src/src/eval.rs, src/src/error.rs, src/src/revision.rs)

    The errors, limits, membership algebra and keys of the evaluator, the
    published snapshot it reads, and the mutable context it threads: depth,
    active keys, check frames and the request memo. Benchmark counters are left
    out. *)

From S2P Require Import Prelude Model Domain Revision Schema StoreTypes Store StoreView.

(** ** Limits and membership *)

Definition DEFAULT_MAX_DEPTH : Z := 50.
Definition DEFAULT_MAX_FANOUT_PER_STEP : Z := 1000.
Definition DEFAULT_MAX_LOOKUP_RESULTS : Z := 1000.
Definition ACTIVE_INDEX_THRESHOLD : nat := 8.

Record NonZeroU32 := mkNonZeroU32 {
  nz_get : Z;
  nz_bounds : Is_true (in_range 1 u32_max nz_get)
}.

Lemma nz_range x : (1 ≤ nz_get x ≤ u32_max)%Z.
Proof.
  pose proof (nz_bounds x) as Hb. apply Is_true_eq_true in Hb. unfold in_range in Hb.
  by apply andb_true_iff in Hb as [H1%Z.leb_le H2%Z.leb_le].
Qed.

Record EvaluationLimits := mkLimits {
  max_depth : NonZeroU32;
  max_fanout_per_step : NonZeroU32;
  max_lookup_results : NonZeroU32
}.

(** [Default for EvaluationLimits] *)
Definition limits_default : EvaluationLimits :=
  mkLimits (mkNonZeroU32 DEFAULT_MAX_DEPTH I) (mkNonZeroU32 DEFAULT_MAX_FANOUT_PER_STEP I)
    (mkNonZeroU32 DEFAULT_MAX_LOOKUP_RESULTS I).

Inductive Membership := Allowed | Denied | Conditional.

#[global] Instance Membership_eq_dec : EqDecision Membership.
Proof. solve_decision. Defined.

Definition is_allowed (m : Membership) : bool := match m with Allowed => true | _ => false end.

(** [Membership::union], [intersection] and [exclusion]. *)
Definition m_union (a b : Membership) : Membership :=
  match a, b with
  | Allowed, _ | _, Allowed => Allowed
  | Conditional, _ | _, Conditional => Conditional
  | Denied, Denied => Denied
  end.

Definition m_intersection (a b : Membership) : Membership :=
  match a, b with
  | Denied, _ | _, Denied => Denied
  | Conditional, _ | _, Conditional => Conditional
  | Allowed, Allowed => Allowed
  end.

Definition m_exclusion (a b : Membership) : Membership :=
  match a, b with
  | Denied, _ | _, Allowed => Denied
  | Conditional, _ | _, Conditional => Conditional
  | Allowed, Denied => Allowed
  end.

Definition is_memo_cacheable (m : Membership) : bool :=
  match m with Allowed | Denied => true | Conditional => false end.

(** ** Keys *)

Inductive CheckKey :=
| KStore (key : StoreCheckKey)
| KPublicName (object : Object) (relation : RelationName) (user : User)
| KPublic (object : Object) (relation : Relation) (user : User).

Record ExpandKey := mkExpandKey { expand_object : Object; expand_relation : RelationName }.

Inductive EvaluationKey :=
| EvalCheck (key : CheckKey)
| EvalExpand (key : ExpandKey).

Inductive CheckMemoKey :=
| MStore (key : StoreCheckKey)
| MPublic (object : Object) (relation : RelationName) (user : User).

#[global] Instance CheckKey_eq_dec : EqDecision CheckKey.
Proof. solve_decision. Defined.
#[global] Instance ExpandKey_eq_dec : EqDecision ExpandKey.
Proof. solve_decision. Defined.
#[global] Instance CheckMemoKey_eq_dec : EqDecision CheckMemoKey.
Proof. solve_decision. Defined.
#[global] Program Instance CheckKey_countable : Countable CheckKey :=
  inj_countable'
    (λ k, match k with
          | KStore k => inl k
          | KPublicName o r u => inr (inl (o, r, u))
          | KPublic o r u => inr (inr (o, r, u))
          end)
    (λ s, match s with
          | inl k => KStore k
          | inr (inl (o, r, u)) => KPublicName o r u
          | inr (inr (o, r, u)) => KPublic o r u
          end) _.
Next Obligation. by intros []. Qed.
#[global] Program Instance ExpandKey_countable : Countable ExpandKey :=
  inj_countable' (λ k, (expand_object k, expand_relation k)) (λ p, mkExpandKey p.1 p.2) _.
Next Obligation. by intros []. Qed.
#[global] Program Instance CheckMemoKey_countable : Countable CheckMemoKey :=
  inj_countable'
    (λ k, match k with MStore k => inl k | MPublic o r u => inr (o, r, u) end)
    (λ s, match s with inl k => MStore k | inr (o, r, u) => MPublic o r u end) _.
Next Obligation. by intros []. Qed.

(** ** Errors *)

Inductive EvaluationError :=
| DepthExceeded (key : EvaluationKey)
| FanoutExceeded (limit : NonZeroU32).

(** [ZanzibarError]; the last five come from the [From] impls. *)
Inductive ZanzibarError :=
| ZNamespaceNotFound (name : string)
| ZRelationNotFound (relation namespace : string)
| ZParseError (reason : string)
| ZStorageError (reason : string)
| ZSchemaRequired
| ZDomain (error : DomainError)
| ZSchema (error : SchemaError)
| ZStore (error : StoreError)
| ZConsistency (error : ConsistencyError)
| ZEvaluation (error : EvaluationError).

Definition compiled_schema_invariant_error : ZanzibarError :=
  ZStorageError "compiled schema relation id is out of bounds".

(** ** The snapshot *)

Record PublishedSnapshot := mkSnapshot {
  snapshot_revision : Revision;
  snapshot_schema_hash : SchemaHash;
  snapshot_configs : gmap string NamespaceConfig;
  snapshot_schema : CompiledSchema;
  snapshot_relationships : StoreView
}.

Section keys.
Context `{Hasher}.

(** [CheckKey::new] *)
Definition check_key_new (snapshot : PublishedSnapshot) (object : Object) (rel : Relation)
    (u : User) : CheckKey :=
  match view_store_check_key (snapshot_relationships snapshot) object (relation_str rel) u with
  | Some key => KStore key
  | None => KPublic object rel u
  end.

(** [CheckKey::from_relation_name] *)
Definition check_key_from_relation_name (snapshot : PublishedSnapshot) (object : Object)
    (rel : RelationName) (u : User) : CheckKey :=
  match view_store_check_key (snapshot_relationships snapshot) object (as_str rel) u with
  | Some key => KStore key
  | None => KPublicName object rel u
  end.
End keys.

(** [CheckMemoKey::from_check_key] *)
Definition memo_key_from_check_key (key : CheckKey) : result ZanzibarError CheckMemoKey :=
  match key with
  | KStore key => Ok (MStore key)
  | KPublicName object rel u => Ok (MPublic object rel u)
  | KPublic object rel u =>
      rel ← map_err ZDomain (relation_name_of rel);
      Ok (MPublic object rel u)
  end.

(** ** The request memo *)

Record CheckMemoEntry := mkMemoEntry { entry_membership : Membership; entry_depth_required : Z }.

Record RequestCheckMemo := mkMemo { memo_entries : gmap CheckMemoKey CheckMemoEntry; memo_bound : nat }.

Inductive MemoLookup := Hit (m : Membership) | Miss | DepthInsufficient.

Definition clamp (lo hi v : Z) : Z := Z.max lo (Z.min hi v).

Definition memo_capacity (limits : EvaluationLimits) : nat :=
  Z.to_nat (clamp 128 16384 (saturating_mul u32_max (nz_get (max_lookup_results limits)) 4)).

Definition memo_new (limits : EvaluationLimits) : RequestCheckMemo :=
  mkMemo ∅ (memo_capacity limits).

Definition memo_get (memo : RequestCheckMemo) (key : CheckMemoKey) (remaining : Z) : MemoLookup :=
  match memo_entries memo !! key with
  | Some e => if (entry_depth_required e <=? remaining)%Z then Hit (entry_membership e)
              else DepthInsufficient
  | None => Miss
  end.

(** [RequestCheckMemo::insert] *)
Definition memo_put (key : CheckMemoKey) (m : Membership) (depth_required : Z)
    (memo : RequestCheckMemo) : RequestCheckMemo :=
  match memo_entries memo !! key with
  | Some e =>
      if (depth_required <=? entry_depth_required e)%Z
      then mkMemo (<[key := mkMemoEntry m depth_required]> (memo_entries memo)) (memo_bound memo)
      else memo
  | None =>
      if Nat.leb (memo_bound memo) (size (memo_entries memo)) then memo
      else mkMemo (<[key := mkMemoEntry m depth_required]> (memo_entries memo)) (memo_bound memo)
  end.

(** ** The context *)

Record CheckFrame := mkFrame { entry_remaining_depth : Z; minimum_remaining_depth : Z }.

Record VisitMark := mkMark { mark_generation : Z; mark_active : bool }.

(** The two stacks and the frames are kept with their last element first. *)
Record EvaluationContext := mkContext {
  ctx_snapshot : PublishedSnapshot;
  ctx_limits : EvaluationLimits;
  generation : Z;
  use_active_indexes : bool;
  remaining_depth : Z;
  active_checks : gmap CheckKey VisitMark;
  active_expands : gmap ExpandKey VisitMark;
  check_stack : list CheckKey;
  expand_stack : list ExpandKey;
  check_frames : list CheckFrame;
  check_memo : option RequestCheckMemo
}.

(** [EvaluationContext::new] *)
Definition context_new (snapshot : PublishedSnapshot) (limits : EvaluationLimits)
    : EvaluationContext :=
  mkContext snapshot limits 1 false (nz_get (max_depth limits)) ∅ ∅ [] [] [] None.

(** [EvaluationContext::new_with_request_memo] *)
Definition context_new_with_request_memo (snapshot : PublishedSnapshot)
    (limits : EvaluationLimits) : EvaluationContext :=
  mkContext snapshot limits 1 false (nz_get (max_depth limits)) ∅ ∅ [] [] []
    (Some (memo_new limits)).

(** [reset_for_reuse] *)
Definition reset_for_reuse (c : EvaluationContext) : EvaluationContext :=
  match checked_add u32_max (generation c) 1 with
  | Some g =>
      mkContext (ctx_snapshot c) (ctx_limits c) g true (nz_get (max_depth (ctx_limits c)))
        (active_checks c) (active_expands c) [] [] [] (check_memo c)
  | None =>
      mkContext (ctx_snapshot c) (ctx_limits c) 1 true (nz_get (max_depth (ctx_limits c)))
        ∅ ∅ [] [] [] (check_memo c)
  end.

Definition set_depth (d : Z) (c : EvaluationContext) : EvaluationContext :=
  mkContext (ctx_snapshot c) (ctx_limits c) (generation c) (use_active_indexes c) d
    (active_checks c) (active_expands c) (check_stack c) (expand_stack c) (check_frames c)
    (check_memo c).

Definition set_checks (active : gmap CheckKey VisitMark) (stack : list CheckKey)
    (c : EvaluationContext) : EvaluationContext :=
  mkContext (ctx_snapshot c) (ctx_limits c) (generation c) (use_active_indexes c)
    (remaining_depth c) active (active_expands c) stack (expand_stack c) (check_frames c)
    (check_memo c).

Definition set_expands (active : gmap ExpandKey VisitMark) (stack : list ExpandKey)
    (c : EvaluationContext) : EvaluationContext :=
  mkContext (ctx_snapshot c) (ctx_limits c) (generation c) (use_active_indexes c)
    (remaining_depth c) (active_checks c) active (check_stack c) stack (check_frames c)
    (check_memo c).

Definition set_frames (frames : list CheckFrame) (c : EvaluationContext) : EvaluationContext :=
  mkContext (ctx_snapshot c) (ctx_limits c) (generation c) (use_active_indexes c)
    (remaining_depth c) (active_checks c) (active_expands c) (check_stack c) (expand_stack c)
    frames (check_memo c).

Definition set_memo (memo : option RequestCheckMemo) (c : EvaluationContext)
    : EvaluationContext :=
  mkContext (ctx_snapshot c) (ctx_limits c) (generation c) (use_active_indexes c)
    (remaining_depth c) (active_checks c) (active_expands c) (check_stack c) (expand_stack c)
    (check_frames c) memo.

(** ** Depth and frames *)

Definition record_check_frame_depth (d : Z) (c : EvaluationContext) : EvaluationContext :=
  match check_frames c with
  | f :: fs =>
      set_frames (mkFrame (entry_remaining_depth f) (Z.min (minimum_remaining_depth f) d) :: fs) c
  | [] => c
  end.

Definition enter (key : EvaluationKey) (c : EvaluationContext)
    : result ZanzibarError EvaluationContext :=
  if (remaining_depth c =? 0)%Z then Err (ZEvaluation (DepthExceeded key)) else
  let d := saturating_sub (remaining_depth c) 1 in
  Ok (record_check_frame_depth d (set_depth d c)).

Definition leave (c : EvaluationContext) : EvaluationContext :=
  set_depth (saturating_add u32_max (remaining_depth c) 1) c.

Definition push_check_frame (entry : Z) (c : EvaluationContext) : EvaluationContext :=
  set_frames (mkFrame entry (remaining_depth c) :: check_frames c) c.

(** [pop_check_frame_depth_required]; [non_zero_u32] replaces zero by one. *)
Definition pop_check_frame_depth_required (c : EvaluationContext) : Z * EvaluationContext :=
  match check_frames c with
  | [] => (1%Z, c)
  | f :: fs =>
      let c := record_check_frame_depth (minimum_remaining_depth f) (set_frames fs c) in
      let required := saturating_sub (entry_remaining_depth f) (minimum_remaining_depth f) in
      (if (required =? 0)%Z then 1%Z else required, c)
  end.

(** ** Active keys

    A linear scan of the stack, or, in a reused context with a deep stack, a
    table of marks of the current generation. *)

Section active.
Context {K : Type} `{Countable K}.

Definition is_active (g : Z) (use : bool) (marks : gmap K VisitMark) (stack : list K) (key : K)
    : bool :=
  if negb use || Nat.ltb (length stack) ACTIVE_INDEX_THRESHOLD then bool_decide (key ∈ stack)
  else match marks !! key with
       | Some m => (mark_generation m =? g)%Z && mark_active m
       | None => false
       end.

Definition mark_all (g : Z) (stack : list K) (marks : gmap K VisitMark) : gmap K VisitMark :=
  foldr (λ key, <[key := mkMark g true]>) marks stack.

(** [push_check_key] and [push_expand_key], with [rebuild_active_checks] and
    [rebuild_active_expands]. *)
Definition push_key (g : Z) (use : bool) (key : K) (marks : gmap K VisitMark) (stack : list K)
    : gmap K VisitMark * list K :=
  let marks :=
    if use && Nat.leb ACTIVE_INDEX_THRESHOLD (length stack + 1) then
      <[key := mkMark g true]>
        (if Nat.eqb (length stack + 1) ACTIVE_INDEX_THRESHOLD then mark_all g stack marks
         else marks)
    else marks in
  (marks, key :: stack).

(** [deactivate_check_key] and [deactivate_expand_key] *)
Definition deactivate (g : Z) (key : K) (marks : gmap K VisitMark) : gmap K VisitMark :=
  match marks !! key with
  | Some m => if (mark_generation m =? g)%Z then <[key := mkMark g false]> marks else marks
  | None => marks
  end.

Definition pop_key (g : Z) (marks : gmap K VisitMark) (stack : list K)
    : gmap K VisitMark * list K :=
  match stack with
  | [] => (marks, [])
  | key :: stack => (deactivate g key marks, stack)
  end.
End active.

Definition is_check_active (c : EvaluationContext) (key : CheckKey) : bool :=
  is_active (generation c) (use_active_indexes c) (active_checks c) (check_stack c) key.
Definition is_expand_active (c : EvaluationContext) (key : ExpandKey) : bool :=
  is_active (generation c) (use_active_indexes c) (active_expands c) (expand_stack c) key.

Definition push_check_key (key : CheckKey) (c : EvaluationContext) : EvaluationContext :=
  let p := push_key (generation c) (use_active_indexes c) key (active_checks c) (check_stack c) in
  set_checks p.1 p.2 c.
Definition push_expand_key (key : ExpandKey) (c : EvaluationContext) : EvaluationContext :=
  let p := push_key (generation c) (use_active_indexes c) key (active_expands c)
             (expand_stack c) in
  set_expands p.1 p.2 c.
Definition pop_check_key (c : EvaluationContext) : EvaluationContext :=
  let p := pop_key (generation c) (active_checks c) (check_stack c) in set_checks p.1 p.2 c.
Definition pop_expand_key (c : EvaluationContext) : EvaluationContext :=
  let p := pop_key (generation c) (active_expands c) (expand_stack c) in set_expands p.1 p.2 c.

(** ** Memo access *)

Definition memo_lookup (c : EvaluationContext) (key : CheckKey)
    : result ZanzibarError (option Membership) :=
  match check_memo c with
  | None => Ok None
  | Some memo =>
      key ← memo_key_from_check_key key;
      Ok (match memo_get memo key (remaining_depth c) with
          | Hit m => Some m
          | Miss | DepthInsufficient => None
          end)
  end.

Definition memo_insert (key : CheckKey) (m : Membership) (depth_required : Z)
    (c : EvaluationContext) : EvaluationContext :=
  match check_memo c, memo_key_from_check_key key with
  | Some memo, Ok key => set_memo (Some (memo_put key m depth_required memo)) c
  | _, _ => c
  end.
