(* ===== verification/Eval.v ===== *)
(** * Check and expand (src/src/eval.rs, the [check*], [eval_*] and [expand*] methods)

    The evaluator of relation checks and of userset expansion, over a published
    snapshot. Recursion goes through [evaluate_check_key] (or
    [expand_relation_name]), which takes one unit of the depth limit each time;
    the fuel bounds it, and running out of fuel is told apart from every error of
    the program. *)

From S2P Require Import Prelude Model Domain Revision Schema StoreTypes Row Store StoreView.
From S2P Require Import EvalContext.

(** ** Reading a relationship (src/src/relationship.rs, [RelationshipRef]) *)

Definition resource_object_legacy (x : RelationshipRef) : Object :=
  mkObject (store_resolve (ref_store x) (row_resource_type (ref_row x)))
    (store_resolve (ref_store x) (row_resource_id (ref_row x))).

Definition resource_type_eq (x : RelationshipRef) (t : ObjectType) : bool :=
  bool_decide (store_resolve (ref_store x) (row_resource_type (ref_row x)) = as_str t).

Definition relation_name_str (x : RelationshipRef) : string :=
  store_resolve (ref_store x) (row_relation (ref_row x)).

Definition relation_name_eq (x : RelationshipRef) (rel : RelationName) : bool :=
  bool_decide (relation_name_str x = as_str rel).

(** The object a row's subject is, or is a userset of. *)
Definition subject_object_legacy (x : RelationshipRef) : Object :=
  mkObject (store_resolve (ref_store x) (row_subject_type (ref_row x)))
    (store_resolve (ref_store x) (row_subject_id (ref_row x))).

Definition direct_user_subject_id (x : RelationshipRef) : option string :=
  match row_subject_relation (ref_row x) with
  | None => if bool_decide (namespace (subject_object_legacy x) = "user")
            then Some (id (subject_object_legacy x)) else None
  | Some _ => None
  end.

Definition subject_userset_relation_name (x : RelationshipRef)
    : result ZanzibarError (option (Object * RelationName)) :=
  match row_subject_relation (ref_row x) with
  | Some rel =>
      rel ← map_err ZDomain (ident_new KRelationName (store_resolve (ref_store x) rel));
      Ok (Some (subject_object_legacy x, rel))
  | None => Ok None
  end.

Definition expanded_subject (x : RelationshipRef) : result ZanzibarError ExpandedUserset :=
  let o := subject_object_legacy x in
  match row_subject_relation (ref_row x) with
  | Some rel => Ok (EUserset o (mkRelation (store_resolve (ref_store x) rel)))
  | None =>
      if bool_decide (namespace o = "user") then Ok (EUser (id o)) else
      Err (ZStorageError ("legacy expand cannot represent direct subject type '" +:+
                          namespace o +:+ "'"))
  end.

(** ** The evaluation monad *)

Inductive EvalStop :=
| Stop (e : ZanzibarError)
| OutOfFuel.

Abbreviation Eval := (ST EvaluationContext EvalStop).

Definition lift {A} (r : result ZanzibarError A) : Eval A := st_lift (map_err Stop r).
Definition lift_domain {A} (r : result DomainError A) : Eval A := lift (map_err ZDomain r).
Definition lift_schema {A} (r : result SchemaError A) : Eval A := lift (map_err ZSchema r).

(** [QueryLimit::new(NonZeroUsize::MAX)] *)
Definition unbounded_query_limit : QueryLimit := mkQueryLimit (Z.to_N usize_max) I.

(** [increment_fanout]: the new counter. *)
Definition increment_fanout (fanout : Z) : Eval Z := λ c,
  let fanout := saturating_add u32_max fanout 1 in
  let limit := max_fanout_per_step (ctx_limits c) in
  if (nz_get limit <? fanout)%Z then (Err (Stop (ZEvaluation (FanoutExceeded limit))), c)
  else (Ok fanout, c).

(** [fanout_query_limit]: one more than the fanout limit. *)
Definition fanout_limit_value (limits : EvaluationLimits) : N :=
  Z.to_N (nz_get (max_fanout_per_step limits)) + 1.

Definition fanout_query_limit (limits : EvaluationLimits) : QueryLimit :=
  mkQueryLimit (fanout_limit_value limits)
    (Is_true_eq_left _ (proj2 (N.leb_le _ _) (N.le_add_l 1 _))).

Definition relation_of_id (rid : SchemaRelationId) : Eval RelationDefinition := λ c,
  lift (ok_or (relation_by_id (cs_resolver (snapshot_schema (ctx_snapshot c))) rid)
          compiled_schema_invariant_error) c.

Definition relation_of_name (t : ObjectType) (rel : RelationName) : Eval RelationDefinition := λ c,
  lift_schema (resolver_relation (cs_resolver (snapshot_schema (ctx_snapshot c))) t rel) c.

Section eval.
Context `{Hasher}.

(** [snapshot.relationships().resource_relation(..)], as the items of the loop. *)
Definition relation_items (c : EvaluationContext) (o : ObjectRef) (rel : RelationName)
    (limit : QueryLimit) : list RelationshipRef :=
  let v := snapshot_relationships (ctx_snapshot c) in
  view_items v (view_resource_relation v o rel limit).

(** ** Check *)

(** [evaluate_check_key]: the active-cycle cut, the memo, the depth limit and
    the bookkeeping around an evaluation. *)
Definition evaluate_check_key (key : CheckKey) (evaluate : Eval Membership) : Eval Membership := λ c,
  if is_check_active c key then (Ok Denied, c) else
  let memo_eligible := bool_decide (is_Some (check_memo c)) && negb (bool_decide (check_stack c = [])) in
  match (if memo_eligible then memo_lookup c key else Ok None) with
  | Err e => (Err (Stop e), c)
  | Ok (Some m) => (Ok m, c)
  | Ok None =>
      let entry_remaining_depth := remaining_depth c in
      match enter (EvalCheck key) c with
      | Err e => (Err (Stop e), c)
      | Ok c =>
          let c := if memo_eligible then push_check_frame entry_remaining_depth c else c in
          let '(res, c) := evaluate (push_check_key key c) in
          let c := pop_check_key c in
          let '(depth_required, c) :=
            if memo_eligible then pop_check_frame_depth_required c else (1%Z, c) in
          let c := leave c in
          (res,
           match res with
           | Ok m => if memo_eligible && is_memo_cacheable m then memo_insert key m depth_required c
                     else c
           | Err _ => c
           end)
      end
  end.

Section expression.
(** The recursive entries: a check by relation name, by relation id, and of a
    relation known to have no rewrite ([check_relation_name],
    [check_relation_id], [eval_plain_computed_userset]). *)
Variable check_relation_name : Object → RelationName → User → Eval Membership.
Variable check_relation_id : Object → RelationName → SchemaRelationId → User → Eval Membership.
Variable eval_plain_computed_userset : Object → RelationName → User → Eval Membership.

(** The loops of [eval_this] and [eval_tuple_to_userset]: [check] is applied to
    the userset of each row that has one. *)
Fixpoint userset_loop (check : Object → RelationName → Eval Membership) (fanout : Z)
    (items : list RelationshipRef) : Eval Membership :=
  match items with
  | [] => st_ret Denied
  | x :: items =>
      let! target := lift (subject_userset_relation_name x) in
      match target with
      | None => userset_loop check fanout items
      | Some (o, rel) =>
          let! fanout := increment_fanout fanout in
          let! m := check o rel in
          if is_allowed m then st_ret Allowed else userset_loop check fanout items
      end
  end.

Definition eval_this (object : Object) (rel : RelationName) (u : User) : Eval Membership := λ c,
  (let! res := lift_domain (object_ref_of_object object) in
   let! subject := lift_domain (subject_filter_of_user u) in
   if view_any_resource_relation_subject (snapshot_relationships (ctx_snapshot c)) res rel subject
   then st_ret Allowed
   else userset_loop (λ o rel, check_relation_name o rel u) 0
          (relation_items c res rel unbounded_query_limit)) c.

Definition eval_tuple_to_userset (object : Object) (u : User) (tupleset computed : RelationName)
    : Eval Membership := λ c,
  (let! res := lift_domain (object_ref_of_object object) in
   userset_loop (λ o _, check_relation_name o computed u) 0
     (relation_items c res tupleset unbounded_query_limit)) c.

Section operands.
Variable eval : CompiledUsersetExpression → Eval Membership.
(** [eval_compiled_schema_union] and [eval_compiled_schema_intersection]. *)
Fixpoint eval_union (res : Membership) (es : list CompiledUsersetExpression) : Eval Membership :=
  match es with
  | [] => st_ret res
  | e :: es =>
      let! m := eval e in
      let res := m_union res m in
      if decide (res = Allowed) then st_ret res else eval_union res es
  end.

Fixpoint eval_intersection (res : Membership) (es : list CompiledUsersetExpression)
    : Eval Membership :=
  match es with
  | [] => st_ret res
  | e :: es =>
      let! m := eval e in
      let res := m_intersection res m in
      if decide (res = Denied) then st_ret res else eval_intersection res es
  end.
End operands.

Definition should_eval_exclude_first (exclude : CompiledUsersetExpression) : bool :=
  match exclude with
  | CThis => true
  | CComputedUserset _ _ target_has_rewrite => negb target_has_rewrite
  | _ => false
  end.

(** [eval_compiled_schema_expression] *)
Fixpoint eval_expression (object : Object) (rel : RelationName) (u : User)
    (e : CompiledUsersetExpression) : Eval Membership :=
  match e with
  | CThis => eval_this object rel u
  | CComputedUserset rel' rid target_has_rewrite =>
      if negb target_has_rewrite then eval_plain_computed_userset object rel' u
      else check_relation_id object rel' rid u
  | CTupleToUserset _ tupleset_id computed =>
      let! tupleset := relation_of_id tupleset_id in
      eval_tuple_to_userset object u (rd_name tupleset) computed
  | CUnion es => eval_union (eval_expression object rel u) Denied es
  | CIntersection es => eval_intersection (eval_expression object rel u) Allowed es
  | CExclusion base exclude =>
      if should_eval_exclude_first exclude then
        let! ex := eval_expression object rel u exclude in
        if decide (ex = Allowed) then st_ret Denied else
        let! b := eval_expression object rel u base in
        st_ret (m_exclusion b ex)
      else
        let! b := eval_expression object rel u base in
        if decide (b = Denied) then st_ret Denied else
        let! ex := eval_expression object rel u exclude in
        st_ret (m_exclusion b ex)
  end.

(** The common end of the [check_*_entered] methods. *)
Definition eval_definition (object : Object) (rel : RelationName) (u : User)
    (rd : RelationDefinition) : Eval Membership :=
  match rd_compiled_userset_rewrite rd with
  | Some e => eval_expression object rel u e
  | None => eval_this object rel u
  end.

(** [check_relation_name_entered] and [check_relation_id_entered]. *)
Definition check_relation_name_entered (object : Object) (rel : RelationName) (u : User)
    : Eval Membership :=
  let! t := lift_domain (ident_new KObjectType (namespace object)) in
  let! rd := relation_of_name t rel in
  eval_definition object rel u rd.

Definition check_relation_id_entered (object : Object) (rel : RelationName)
    (rid : SchemaRelationId) (u : User) : Eval Membership :=
  let! rd := relation_of_id rid in
  eval_definition object rel u rd.
End expression.

(** Which of the three recursive entries is taken. *)
Inductive CheckEntry := ByName | ById (rid : SchemaRelationId) | Plain.

(** [check_relation_name], [check_relation_id] and
    [eval_plain_computed_userset]. *)
Fixpoint check_entry (fuel : nat) (entry : CheckEntry) (object : Object) (rel : RelationName)
    (u : User) : Eval Membership := λ c,
  match fuel with
  | O => (Err OutOfFuel, c)
  | S fuel =>
      let by_name := check_entry fuel ByName in
      let by_id object rel rid := check_entry fuel (ById rid) object rel in
      let plain := check_entry fuel Plain in
      evaluate_check_key (check_key_from_relation_name (ctx_snapshot c) object rel u)
        match entry with
        | ByName => check_relation_name_entered by_name by_id plain object rel u
        | ById rid => check_relation_id_entered by_name by_id plain object rel rid u
        | Plain => eval_this by_name object rel u
        end c
  end.

Definition check_by_name (fuel : nat) := check_entry fuel ByName.
Definition check_by_id (fuel : nat) (object : Object) (rel : RelationName)
    (rid : SchemaRelationId) := check_entry fuel (ById rid) object rel.
Definition check_plain (fuel : nat) := check_entry fuel Plain.

(** [check_entered] *)
Definition check_entered (fuel : nat) (object : Object) (rel : Relation) (u : User)
    : Eval Membership :=
  let! t := lift_domain (ident_new KObjectType (namespace object)) in
  let! rel := lift_domain (relation_name_of rel) in
  let! rd := relation_of_name t rel in
  eval_definition (check_by_name fuel) (check_by_id fuel) (check_plain fuel) object rel u rd.

(** [EvaluationContext::check] *)
Definition check (fuel : nat) (object : Object) (rel : Relation) (u : User) : Eval Membership := λ c,
  evaluate_check_key (check_key_new (ctx_snapshot c) object rel u)
    (check_entered fuel object rel u) c.

(** [EvaluationContext::check_prepared] *)
Definition check_prepared (fuel : nat) (object : Object) (rel : Relation) (u : User)
    (rd : RelationDefinition) : Eval Membership := λ c,
  evaluate_check_key (check_key_new (ctx_snapshot c) object rel u)
    (eval_definition (check_by_name fuel) (check_by_id fuel) (check_plain fuel)
       object (rd_name rd) u rd) c.

(** Every recursive call takes one unit of the depth limit. *)
Definition eval_fuel (limits : EvaluationLimits) : nat := Z.to_nat (nz_get (max_depth limits)).

Definition check_with_snapshot (snapshot : PublishedSnapshot) (object : Object) (rel : Relation)
    (u : User) (limits : EvaluationLimits) : result EvalStop Membership :=
  (check (eval_fuel limits) object rel u (context_new snapshot limits)).1.

Definition check_prepared_with_snapshot (snapshot : PublishedSnapshot) (object : Object)
    (rel : Relation) (u : User) (rd : RelationDefinition) (limits : EvaluationLimits)
    : result EvalStop Membership :=
  (check_prepared (eval_fuel limits) object rel u rd (context_new snapshot limits)).1.

(** ** Expand *)

Section expansion.
Variable expand_relation_name : Object → RelationName → Eval ExpandedUserset.

(** The loop of the tuple-to-userset arm. *)
Fixpoint expand_loop (computed : RelationName) (fanout : Z) (items : list RelationshipRef)
    : Eval (list ExpandedUserset) :=
  match items with
  | [] => st_ret []
  | x :: items =>
      let! target := lift (subject_userset_relation_name x) in
      match target with
      | None => expand_loop computed fanout items
      | Some (o, _) =>
          let! fanout := increment_fanout fanout in
          let! t := expand_relation_name o computed in
          let! ts := expand_loop computed fanout items in
          st_ret (t :: ts)
      end
  end.

Fixpoint expand_subjects (fanout : Z) (items : list RelationshipRef)
    : Eval (list ExpandedUserset) :=
  match items with
  | [] => st_ret []
  | x :: items =>
      let! fanout := increment_fanout fanout in
      let! t := lift (expanded_subject x) in
      let! ts := expand_subjects fanout items in
      st_ret (t :: ts)
  end.

Definition expand_this (object : Object) (rel : RelationName) : Eval ExpandedUserset := λ c,
  (let! res := lift_domain (object_ref_of_object object) in
   let! ts := expand_subjects 0 (relation_items c res rel (fanout_query_limit (ctx_limits c))) in
   st_ret (EUnion ts)) c.

Section operands.
Variable expand : CompiledUsersetExpression → Eval ExpandedUserset.
Fixpoint expand_operands (es : list CompiledUsersetExpression) : Eval (list ExpandedUserset) :=
  match es with
  | [] => st_ret []
  | e :: es =>
      let! t := expand e in
      let! ts := expand_operands es in
      st_ret (t :: ts)
  end.
End operands.

(** [expand_compiled_schema_expression] *)
Fixpoint expand_expression (object : Object) (rel : RelationName)
    (e : CompiledUsersetExpression) : Eval ExpandedUserset :=
  match e with
  | CThis => expand_this object rel
  | CComputedUserset rel' _ _ => expand_relation_name object rel'
  | CTupleToUserset _ tupleset_id computed => λ c,
      (let! res := lift_domain (object_ref_of_object object) in
       let! tupleset := relation_of_id tupleset_id in
       let! ts := expand_loop computed 0
                    (relation_items c res (rd_name tupleset) unbounded_query_limit) in
       st_ret (EUnion ts)) c
  | CUnion es =>
      let! ts := expand_operands (expand_expression object rel) es in st_ret (EUnion ts)
  | CIntersection es =>
      let! ts := expand_operands (expand_expression object rel) es in st_ret (EIntersection ts)
  | CExclusion base exclude =>
      let! b := expand_expression object rel base in
      let! x := expand_expression object rel exclude in
      st_ret (EExclusion b x)
  end.

(** [expand_relation_name_entered] *)
Definition expand_relation_name_entered (object : Object) (rel : RelationName)
    : Eval ExpandedUserset :=
  let! t := lift_domain (ident_new KObjectType (namespace object)) in
  let! rd := relation_of_name t rel in
  match rd_compiled_userset_rewrite rd with
  | Some e => expand_expression object rel e
  | None => expand_this object rel
  end.
End expansion.

(** [expand_relation_name]: the bookkeeping around an expansion. *)
Definition evaluate_expand_key (key : ExpandKey) (expand : Eval ExpandedUserset)
    : Eval ExpandedUserset := λ c,
  if is_expand_active c key then (Ok (EUnion []), c) else
  match enter (EvalExpand key) c with
  | Err e => (Err (Stop e), c)
  | Ok c =>
      let '(res, c) := expand (push_expand_key key c) in
      (res, leave (pop_expand_key c))
  end.

Fixpoint expand_relation_name (fuel : nat) (object : Object) (rel : RelationName)
    : Eval ExpandedUserset :=
  match fuel with
  | O => st_err OutOfFuel
  | S fuel =>
      evaluate_expand_key (mkExpandKey object rel)
        (expand_relation_name_entered (expand_relation_name fuel) object rel)
  end.

(** [EvaluationContext::expand] *)
Definition expand (fuel : nat) (object : Object) (rel : Relation) : Eval ExpandedUserset :=
  let! rel := lift_domain (relation_name_of rel) in
  expand_relation_name fuel object rel.

(** One more unit than for checks: the root goes through the same function. *)
Definition expand_with_snapshot (snapshot : PublishedSnapshot) (object : Object) (rel : Relation)
    (limits : EvaluationLimits) : result EvalStop ExpandedUserset :=
  (expand (S (eval_fuel limits)) object rel (context_new snapshot limits)).1.
End eval.
