(* ===== verification/EvalReads.v ===== *)
(** * What the evaluator relies on of a published view

    The interface between the evaluator and the relationship store, and its
    implementation by the views none of whose deleted rows differs from a live
    one in the relation of its subject only. Other views do not meet it: their
    direct check can miss a relationship. *)

From S2P Require Import Prelude Model Domain Revision Schema StoreTypes Interner LiveRows Posting.
From S2P Require Import Row Identity Store StoreInv StoreQuery StoreSpec StoreProps StoreView.
From S2P Require Import ViewInv ViewSpec ViewProps EvalContext Eval.

(** ** A row as a relationship *)

Definition object_of_ref (o : ObjectRef) : Object :=
  mkObject (as_str (object_type o)) (as_str (object_id o)).

(** The userset a relationship grants to, if its subject is one. *)
Definition userset_of (s : SubjectRef) : option (Object * RelationName) :=
  match s with
  | SubjectObject _ => None
  | SubjectUserset o rel => Some (object_of_ref o, rel)
  end.

Section reads.
Context `{Hasher}.

(** A row of a store that stands for a relationship. *)
Definition ref_denotes (x : RelationshipRef) (r : Relationship) : Prop :=
  relationship_from_row (interner (ref_store x)) (ref_row x) = Ok r.

Lemma resolve_ident_store st kind sid i :
  resolve_ident kind (interner st) sid = Ok i → store_resolve st sid = as_str i.
Proof.
  unfold resolve_ident, store_resolve. intros (v & Hv & Hi%map_err_Ok%ident_new_Ok)%bind_Ok.
  by rewrite Hv.
Qed.

Lemma ref_denotes_parts x r :
  ref_denotes x r →
  resource_object_legacy x = object_of_ref (resource r) ∧
  relation_name_str x = as_str (relation r) ∧
  subject_object_legacy x = object_of_ref (subject_object (subject r)) ∧
  match row_subject_relation (ref_row x) with
  | Some sid => ∃ rel, subject r = SubjectUserset (subject_object (subject r)) rel ∧
                       store_resolve (ref_store x) sid = as_str rel
  | None => subject r = SubjectObject (subject_object (subject r))
  end.
Proof.
  unfold ref_denotes, relationship_from_row.
  intros (a & Ha%resolve_ident_store & (b & Hb%resolve_ident_store & (c & Hc%resolve_ident_store &
    (d & Hd%resolve_ident_store & (e & He%resolve_ident_store & (s & Hs & [= <-])%bind_Ok)%bind_Ok)%bind_Ok)%bind_Ok)%bind_Ok)%bind_Ok.
  unfold resource_object_legacy, relation_name_str, subject_object_legacy, object_of_ref.
  rewrite Ha, Hb, Hc, Hd, He. destruct (row_subject_relation (ref_row x)) as [sid|].
  - apply fmap_Ok in Hs as (rel & Hrel%resolve_ident_store & ->). simpl. eauto 6.
  - injection Hs as <-. done.
Qed.

Lemma subject_userset_denotes x r :
  ref_denotes x r → subject_userset_relation_name x = Ok (userset_of (subject r)).
Proof.
  intros (_ & _ & Ho & Hs)%ref_denotes_parts. unfold subject_userset_relation_name.
  destruct (row_subject_relation (ref_row x)) as [sid|].
  - destruct Hs as (rel & -> & ->). rewrite ident_new_as_str, Ho. done.
  - by rewrite Hs.
Qed.

(** ** The interface *)

(** A check of a user asks for the first row that matches, whatever the relation
    of its subject, and the overlay hides a deleted row only after that limit: the
    question is answered right when no deleted relationship still in the
    checkpoint names the same user as a live one at the same place, as
    [user:alice#r] and [user:alice] do. *)
Definition shadows (t r : Relationship) : Prop :=
  resource t = resource r ∧ relation t = relation r ∧
  subject_object (subject t) = subject_object (subject r) ∧
  as_str (object_type (subject_object (subject r))) = "user".

Definition tombstones_apart (v : StoreView) : Prop :=
  ∀ t, t ∈ tombstones v → Forall (λ r, ¬ shadows t r) (view_rows v).

(** Bounded queries lose no row when a relation of an object with deleted rows
    has, those included, at most [n] rows. *)
Definition same_place (t r : Relationship) : Prop :=
  resource t = resource r ∧ relation t = relation r.

Definition tombstones_within (v : StoreView) (n : nat) : Prop :=
  ∀ t, t ∈ tombstones v →
  length (filter (same_place t) (view_rows v)) +
    length (filter (same_place t) (elements (tombstones v))) ≤ n.

#[export] Instance shadows_dec t r : Decision (shadows t r).
Proof. unfold shadows. apply _. Defined.
#[export] Instance same_place_dec t r : Decision (same_place t r).
Proof. unfold same_place. apply _. Defined.
#[export] Instance tombstones_apart_dec v : Decision (tombstones_apart v).
Proof. unfold tombstones_apart. apply (set_Forall_dec _). Defined.
#[export] Instance tombstones_within_dec v n : Decision (tombstones_within v n).
Proof. unfold tombstones_within. apply (set_Forall_dec _). Defined.

(** A view without tombstones, one freshly checkpointed among them. *)
Lemma no_tombstones_apart v : tombstones v = ∅ → tombstones_apart v.
Proof. intros E t. rewrite E. by intros ?%not_elem_of_empty. Qed.

Lemma no_tombstones_within v n : tombstones v = ∅ → tombstones_within v n.
Proof. intros E t. rewrite E. by intros ?%not_elem_of_empty. Qed.

Lemma tombstones_within_mono v n n' :
  n ≤ n' → tombstones_within v n → tombstones_within v n'.
Proof. intros Hn Hv t Ht. specialize (Hv t Ht). lia. Qed.

(** Room for the deleted rows within a fanout limit. *)
Definition fanout_room (v : StoreView) (limits : EvaluationLimits) : Prop :=
  tombstones_within v (Z.to_nat (nz_get (max_fanout_per_step limits))).

#[export] Instance fanout_room_dec v limits : Decision (fanout_room v limits).
Proof. unfold fanout_room. apply _. Defined.

Lemma fanout_room_query v limits :
  fanout_room v limits → tombstones_within v (limit_nat (fanout_query_limit limits)).
Proof.
  apply tombstones_within_mono. unfold limit_nat. simpl. unfold fanout_limit_value.
  pose proof (nz_range (max_fanout_per_step limits)). lia.
Qed.

(** The view answers the evaluator's reads as the relationships [rels] do, in
    some order: questions about a subject, bounded and unbounded queries of a
    relation, and queries from the subject side. *)
Class ReadsAs (v : StoreView) (rels : list Relationship) : Prop := {
  reads_direct o rel u f : subject_filter_of_user u = Ok f →
    view_any_resource_relation_subject v o rel f = existsb (on_resource_subject o rel f) rels;
  reads_items o rel limit :
    tombstones_within v (limit_nat limit) →
    (N.of_nat (length (view_items v (view_resource_relation v o rel limit))) < limit_get limit)%N →
    ∃ rs, Forall2 ref_denotes (view_items v (view_resource_relation v o rel limit)) rs ∧
          rs ≡ₚ filter (λ r, on_resource o rel r = true) rels;
  reads_rows o rel limit :
    ∃ rs, Forall2 ref_denotes (view_items v (view_resource_relation v o rel limit)) rs ∧
          ∀ r, r ∈ rs → r ∈ rels ∧ on_resource o rel r = true;
  reads_all o rel :
    ∃ rs, Forall2 ref_denotes (view_items v (view_resource_relation v o rel unbounded_query_limit)) rs ∧
          rs ≡ₚ filter (λ r, on_resource o rel r = true) rels;
  reads_reverse f :
    ∃ rs, Forall2 ref_denotes (view_items v (view_reverse_query v f)) rs ∧
          rs ≡ₚ filter (λ r, subject_matches f (subject r) = true) rels;
  reads_keys o rel u o' rel' u' k :
    view_store_check_key v o rel u = Some k → view_store_check_key v o' rel' u' = Some k →
    o = o' ∧ rel = rel' ∧ u = u'
}.

(** ** Its implementation *)

Lemma length_omap_le {A B} (f : A → option B) (l : list A) : length (omap f l) ≤ length l.
Proof.
  induction l as [|a l IHl]; [done|].
  change (omap f (a :: l)) with (match f a with Some y => y :: omap f l | None => omap f l end).
  destruct (f a); cbn [length]; lia.
Qed.

Lemma omap_Forall2 {A B} (f : A → option B) (xs : list A) ys :
  omap f xs = ys → length ys = length xs → Forall2 (λ x y, f x = Some y) xs ys.
Proof.
  revert ys. induction xs as [|x xs IH]; intros ys <- Hl; [constructor|].
  change (omap f (x :: xs)) with (match f x with Some y => y :: omap f xs | None => omap f xs end) in *.
  destruct (f x) as [y|] eqn:E; cbn [length] in Hl.
  - constructor; [done|]. apply IH; [done|]. lia.
  - pose proof (length_omap_le f xs). lia.
Qed.

(** The items of a query that all resolve, as relationships. *)
Lemma items_denote items :
  length (ref_relationships items) = length items →
  Forall2 ref_denotes items (ref_relationships items).
Proof.
  intros Hlen. apply (omap_Forall2 _ _ _ eq_refl) in Hlen.
  eapply Forall2_impl; [exact Hlen|]. intros x r. unfold ref_denotes.
  by destruct (relationship_from_row _ _) as [r'|]; [intros [= ->]|].
Qed.

Section implementation.
Context {v : StoreView} {lc : list string} {pc : list (RelationshipRow * Relationship)}
  {rc : list Relationship} {l : list string} {qs : list (RelationshipRow * Relationship)}
  {ri : list Relationship}.
Hypothesis Hv : view_state v lc pc rc l qs ri.

Lemma view_rows_parts : view_rows v = filter (λ r, r ∉ tombstones v) rc ++ ri.
Proof. apply (vs_view_rows _ _ _ _ _ _ _ Hv). Qed.

Lemma store_capped st k ks rs : store_state st k ks rs → (Z.of_nat (length rs) ≤ u32_max)%Z.
Proof.
  intros [Hst _ _ <-]. pose proof (sr_cap _ _ _ Hst) as Hc.
  rewrite (sr_rows _ _ _ Hst), length_fmap in Hc. unfold live_relationships, live_pairs.
  rewrite length_fmap. pose proof (length_filter (λ p, is_live st p.1 = true) ks). lia.
Qed.

(** A bounded query of a relation: the first rows of the overlay, then the first
    rows of the checkpoint less the deleted ones. *)
Lemma view_resource_relation_items o rel limit :
  Forall2 ref_denotes (view_items v (view_resource_relation v o rel limit))
    (take (limit_nat limit) (filter (λ r, on_resource o rel r = true) ri) ++
     filter (λ r, r ∉ tombstones v)
       (take (limit_nat limit) (filter (λ r, on_resource o rel r = true) rc))).
Proof.
  assert (∀ st l ps, store_rep st l ps → compact_items st (resource_relation st o rel limit) =
     (take (limit_nat limit) (filter (λ p, on_resource o rel p.2 = true) (live_pairs st ps))).*1)
    as Hq by (intros st k ks Hst; apply (resource_relation_pairs Hst)).
  unfold view_resource_relation. rewrite <- (view_query_lists Hv _ _ _ Hq).
  apply items_denote, (view_items_resolve Hv _ _ _ Hq).
Qed.

Lemma view_reverse_items f :
  Forall2 ref_denotes (view_items v (view_reverse_query v f))
    (filter (λ r, subject_matches f (subject r) = true) ri ++
     filter (λ r, r ∉ tombstones v) (filter (λ r, subject_matches f (subject r) = true) rc)).
Proof.
  rewrite <- (view_reverse_lists Hv). apply items_denote.
  apply (view_cut_resolve Hv _ (λ st, length (rows st)) (λ r, subject_matches f (subject r))).
  intros st k ks Hst. rewrite (reverse_query_pairs Hst), take_ge; [done|].
  by apply (live_pairs_bound st k ks (λ r, subject_matches f (subject r))).
Qed.

(** The rows a whole query lists are the view's. *)
Lemma whole_query P :
  filter (λ r, P r = true) ri ++ filter (λ r, r ∉ tombstones v) (filter (λ r, P r = true) rc)
  ≡ₚ filter (λ r, P r = true) (view_rows v).
Proof.
  rewrite view_rows_parts, filter_app, (filter_comm (λ r, P r = true)).
  apply Permutation_app_comm.
Qed.

Lemma deleted_at_place t o rel :
  on_resource o rel t = true → ∀ r, on_resource o rel r = true ↔ same_place t r.
Proof.
  unfold on_resource, same_place. setoid_rewrite andb_true_iff.
  setoid_rewrite bool_decide_eq_true. intros [-> ->] r. naive_solver.
Qed.

(** The rows of a place, the deleted ones included, number at most what
    [tombstones_within] allows. *)
Lemma place_fits t o rel n :
  tombstones_within v n → t ∈ tombstones v → on_resource o rel t = true →
  length (filter (λ r, on_resource o rel r = true) rc) ≤ n ∧
  length (filter (λ r, on_resource o rel r = true) ri) ≤ n.
Proof.
  intros Hroom Ht Hon. specialize (Hroom t Ht). pose proof (deleted_at_place t o rel Hon) as Hplace.
  rewrite !(list_filter_iff (λ r, on_resource o rel r = true) (same_place t) _ Hplace).
  rewrite view_rows_parts, filter_app, length_app, filter_comm in Hroom.
  set (gone := elements (tombstones v)) in *.
  enough (length (filter (same_place t) rc) ≤
    length (filter (λ r, r ∉ tombstones v) (filter (same_place t) rc)) +
    length (filter (same_place t) gone)) as Hk
    by (split; (etransitivity; [|exact Hroom]);
        [etransitivity; [exact Hk|]; apply Nat.add_le_mono_r, Nat.le_add_r
        |etransitivity; [apply Nat.le_add_l|apply Nat.le_add_r]]).
  set (k := filter (same_place t) rc).
  rewrite <- (Permutation_length (filter_app_complement (λ r, r ∉ tombstones v) k)), length_app.
  apply Nat.add_le_mono_l, submseteq_length, NoDup_submseteq.
  - apply NoDup_filter, NoDup_filter, (ss_NoDup _ _ _ _ (vs_checkpoint _ _ _ _ _ _ _ Hv)).
  - intros r [Hr [Hs _]%list_elem_of_filter]%list_elem_of_filter. apply list_elem_of_filter.
    split; [done|]. apply elem_of_elements. by destruct (decide (r ∈ tombstones v)).
Qed.

(** A query that lists fewer rows than its limit lost none. *)
Lemma cut_query o rel n :
  tombstones_within v n →
  let on := λ r, on_resource o rel r = true in
  let rs := take n (filter on ri) ++ filter (λ r, r ∉ tombstones v) (take n (filter on rc)) in
  length rs < n →
  rs ≡ₚ filter on (view_rows v).
Proof.
  intros Hroom on rs Hlen. etransitivity; [|apply (whole_query (on_resource o rel))].
  unfold rs in *. clear rs.
  destruct (decide (set_Exists on (tombstones v))) as [(t & Ht & Hon)|Hno].
  - destruct (place_fits t o rel n Hroom Ht Hon) as [Hc Hi]. by rewrite !take_ge.
  - assert (∀ k, k ⊆ filter on rc → filter (λ r, r ∉ tombstones v) k = k) as Hall.
    { intros k Hk. apply filter_all. intros r [Hr _]%Hk%list_elem_of_filter Hd. apply Hno. by exists r. }
    rewrite (Hall (take n _)) in * by apply subseteq_take. rewrite (Hall (filter on rc)) by done.
    rewrite length_app, !length_take in Hlen. by rewrite !take_ge by lia.
Qed.

(** Subjects a user's filter matches differ only in the relation of a user. *)
Lemma same_filter u f s s' :
  subject_filter_of_user u = Ok f → subject_matches f s = true → subject_matches f s' = true →
  subject_object s = subject_object s' ∧
  (s = s' ∨ as_str (object_type (subject_object s')) = "user").
Proof.
  intros Hf Hs Hs'. unfold subject_matches in Hs, Hs'.
  apply andb_true_iff in Hs as [[Ht Hi]%andb_true_iff Hr], Hs' as [[Ht' Hi']%andb_true_iff Hr'].
  apply bool_decide_eq_true in Ht, Ht'.
  destruct u as [i|o rel]; cbn [subject_filter_of_user] in Hf.
  - apply bind_Ok in Hf as (t & Hu%ident_new_Ok & (j & _ & [= <-])%bind_Ok). simpl in *.
    apply bool_decide_eq_true in Hi, Hi'. split; [|right; congruence].
    apply object_ref_eq; apply ident_eq; congruence.
  - apply bind_Ok in Hf as (t & _ & (j & _ & (k & _ & [= <-])%bind_Ok)%bind_Ok). simpl in *.
    apply bool_decide_eq_true in Hi, Hi', Hr, Hr'.
    assert (subject_object s = subject_object s') as Ho
      by (apply object_ref_eq; apply ident_eq; congruence).
    split; [done|]. left. destruct s, s'; simpl in *; congruence.
Qed.

(** Deleted rows do not hide a subject they lie apart from. *)
Lemma direct_query o rel u f :
  tombstones_apart v → subject_filter_of_user u = Ok f →
  view_any_resource_relation_subject v o rel f =
  existsb (on_resource_subject o rel f) (view_rows v).
Proof.
  intros Hapart Hf. unfold view_any_resource_relation_subject, view_resource_relation_subject.
  apply (view_first_found Hv _ 1 (on_resource_subject o rel f) Nat.lt_0_1).
  { intros st k ks Hst. apply (resource_relation_subject_pairs Hst). }
  intros Hnil. apply elem_of_nil_inv. intros r [Hlive Hr]%list_elem_of_filter.
  destruct (filter (λ r, on_resource_subject o rel f r = true) rc) as [|x k] eqn:E;
    [by apply not_elem_of_nil in Hr|].
  assert (x ∈ filter (λ r, on_resource_subject o rel f r = true) rc) as [Hx _]%list_elem_of_filter
    by (rewrite E; by left).
  rewrite <- E in Hr. apply list_elem_of_filter in Hr as [Hr Hin].
  simpl in Hnil. rewrite take_0, filter_cons in Hnil.
  destruct (decide (x ∉ tombstones v)) as [|Hd%dec_stable]; [done|].
  assert (r ∈ view_rows v) as Hview.
  { rewrite view_rows_parts. apply elem_of_app. left. by apply list_elem_of_filter. }
  apply (proj1 (Forall_forall _ _) (Hapart x Hd) r Hview).
  unfold on_resource_subject in Hx, Hr. apply andb_true_iff in Hx as [Hx Hxs], Hr as [Hr Hrs].
  apply (deleted_at_place x o rel Hx) in Hr as [Hres Hrel].
  destruct (same_filter u f _ _ Hf Hxs Hrs) as [Ho [Hs|Ht]]; [|done].
  assert (x = r) as -> by (destruct x, r; simpl in *; congruence). done.
Qed.
End implementation.

(** Views whose deleted rows lie apart from the live ones. *)
Lemma view_reads v :
  view_reachable v → tombstones_apart v →
  ReadsAs v (view_rows v).
Proof.
  intros (lc & pc & rc & l & qs & ri & Hv)%view_reachable_state Ht. split.
  - intros o rel u f. by apply (direct_query Hv).
  - intros o rel limit Hroom Hlen.
    pose proof (view_resource_relation_items Hv o rel limit) as Hi.
    eexists. split; [exact Hi|]. apply (cut_query Hv); [done|].
    rewrite <- (Forall2_length _ _ _ Hi). unfold limit_nat. lia.
  - intros o rel limit. eexists. split; [by apply (view_resource_relation_items Hv)|].
    intros r Hr. rewrite (view_rows_parts Hv), elem_of_app, list_elem_of_filter.
    apply elem_of_app in Hr as [Hr%subseteq_take|[Hd Hr%subseteq_take]%list_elem_of_filter];
      apply list_elem_of_filter in Hr as [? ?]; auto.
  - intros o rel. eexists. split; [by apply (view_resource_relation_items Hv)|].
    rewrite <- (whole_query Hv).
    pose proof (store_capped _ _ _ _ (vs_checkpoint _ _ _ _ _ _ _ Hv)).
    pose proof (store_capped _ _ _ _ (ov_inserted _ _ _ _ _ (vs_overlay _ _ _ _ _ _ _ Hv))).
    pose proof (length_filter (λ r, on_resource o rel r = true) ri).
    pose proof (length_filter (λ r, on_resource o rel r = true) rc).
    unfold limit_nat. cbn [limit_get unbounded_query_limit].
    unfold usize_max, u64_max, u32_max in *. by rewrite !take_ge by lia.
  - intros f. eexists. split; [by apply (view_reverse_items Hv)|]. by apply (whole_query Hv).
  - intros o rel u o' rel' u' k. unfold view_store_check_key.
    destruct (delta v); [done|]. intros H1 H2.
    pose proof (ss_rep _ _ _ _ (vs_checkpoint _ _ _ _ _ _ _ Hv)) as Hrep.
    destruct (store_check_key_texts _ _ _ _ _ _ _ (sr_interner _ _ _ Hrep) H1 H2)
      as (-> & -> & Hu). split_and!; [done|done|]. by apply subject_texts_inj.
Qed.

(** The keys of the evaluator determine the question they stand for. *)
Definition key_question (snapshot : PublishedSnapshot) (key : CheckKey)
    (o : Object) (rel : RelationName) (u : User) : Prop :=
  key = check_key_from_relation_name snapshot o rel u ∨
  key = check_key_new snapshot o (mkRelation (as_str rel)) u.

Lemma key_question_unique snapshot rels key o rel u o' rel' u' :
  ReadsAs (snapshot_relationships snapshot) rels →
  key_question snapshot key o rel u → key_question snapshot key o' rel' u' →
  o = o' ∧ rel = rel' ∧ u = u'.
Proof.
  intros Hreads.
  assert (∀ o rel u, key_question snapshot key o rel u →
    match key with
    | KStore k => view_store_check_key (snapshot_relationships snapshot) o (as_str rel) u = Some k
    | KPublicName o' rel' u' => o = o' ∧ rel = rel' ∧ u = u'
    | KPublic o' rel' u' => o = o' ∧ rel' = mkRelation (as_str rel) ∧ u = u'
    end) as Hk.
  { intros a b c. unfold key_question, check_key_from_relation_name, check_key_new. simpl.
    destruct (view_store_check_key _ a (as_str b) c); intros [-> | ->]; done. }
  intros H1%Hk H2%Hk. destruct key as [k|a b c|a b c].
  - destruct (reads_keys _ _ _ _ _ _ _ H1 H2) as (-> & Hr & ->).
    split_and!; [done| |done]. by apply ident_eq.
  - destruct H1 as (-> & -> & ->), H2 as (-> & -> & ->). done.
  - destruct H1 as (-> & Hr1 & ->), H2 as (-> & Hr2 & ->). split_and!; [done| |done].
    apply ident_eq. congruence.
Qed.
End reads.
