(* ===== verification/EvalInv.v ===== *)
(** * The evaluation context's invariant

    The table of active keys agrees with the stack, and every evaluation, whether
    it succeeds or fails, gives back the depth, the stacks and the frames it
    found. *)

From S2P Require Import Prelude Model Domain Revision Schema StoreTypes Store StoreView.
From S2P Require Import EvalContext Eval.

(** ** Active keys *)

Section marks.
Context {K : Type} `{Countable K}.

(** Marks of the current generation say what is on the stack; the table is
    complete once it is consulted. *)
Record marks_ok (g : Z) (use : bool) (marks : gmap K VisitMark) (stack : list K) : Prop := {
  mk_nodup : NoDup stack;
  mk_age k m : marks !! k = Some m → (mark_generation m ≤ g)%Z;
  mk_sound k m : marks !! k = Some m → mark_generation m = g → mark_active m = true → k ∈ stack;
  mk_complete k : use = true → ACTIVE_INDEX_THRESHOLD ≤ length stack → k ∈ stack →
    marks !! k = Some (mkMark g true)
}.

Lemma is_active_spec g use marks stack key :
  marks_ok g use marks stack → is_active g use marks stack key = bool_decide (key ∈ stack).
Proof.
  intros [_ _ Hs Hc]. unfold is_active.
  destruct use; simpl; [|done]. destruct (Nat.ltb_spec (length stack) ACTIVE_INDEX_THRESHOLD)
    as [|Hlen]; [done|]. symmetry.
  destruct (marks !! key) as [m|] eqn:E.
  - destruct (Z.eqb_spec (mark_generation m) g) as [Hg|Hg]; simpl.
    + destruct (mark_active m) eqn:Ha.
      * apply bool_decide_eq_true. by eapply Hs.
      * apply bool_decide_eq_false. intros Hin. specialize (Hc key eq_refl Hlen Hin).
          rewrite E in Hc. injection Hc as ->. done.
    + apply bool_decide_eq_false. intros Hin. specialize (Hc key eq_refl Hlen Hin).
          rewrite E in Hc. injection Hc as ->. done.
  - apply bool_decide_eq_false. intros Hin. apply Hc in Hin; [|done|done]. congruence.
Qed.

Lemma mark_all_lookup g stack (marks : gmap K VisitMark) k :
  mark_all g stack marks !! k =
  if decide (k ∈ stack) then Some (mkMark g true) else marks !! k.
Proof.
  unfold mark_all. induction stack as [|key stack IH].
  - rewrite decide_False by apply not_elem_of_nil. done.
  - destruct (decide (k = key)) as [->|Hne].
    + cbn [foldr]. rewrite lookup_insert_eq, decide_True by left. done.
    + cbn [foldr]. rewrite lookup_insert_ne by done. rewrite IH.
      destruct (decide (k ∈ stack)) as [Hin|Hin].
      * by rewrite decide_True by (by right).
      * rewrite decide_False; [done|]. by intros [?|?]%elem_of_cons.
Qed.

Lemma push_key_ok g use key marks stack :
  marks_ok g use marks stack → key ∉ stack →
  (push_key g use key marks stack).2 = key :: stack ∧
  marks_ok g use (push_key g use key marks stack).1 (key :: stack).
Proof.
  intros [Hn Ha Hs Hc] Hk. split; [done|]. unfold push_key.
  set (rebuilt := if Nat.eqb _ _ then _ else _).
  assert (∀ k, rebuilt !! k = marks !! k ∨ (k ∈ stack ∧ rebuilt !! k = Some (mkMark g true)))
    as Hreb.
  { intros k. unfold rebuilt. destruct (Nat.eqb _ _); [|by left].
    rewrite mark_all_lookup. destruct (decide (k ∈ stack)); auto. }
  assert (NoDup (key :: stack)) as Hn' by (by constructor).
  destruct (use && Nat.leb ACTIVE_INDEX_THRESHOLD (length stack + 1)) eqn:E; simpl.
  - apply andb_true_iff in E as [Hu Hlen%Nat.leb_le]. split; [done|..].
    + intros k m. destruct (decide (k = key)) as [->|Hne].
      * rewrite lookup_insert_eq. intros [= <-]. simpl. done.
      * rewrite lookup_insert_ne by done. destruct (Hreb k) as [->|[_ ->]]; [apply Ha|].
        intros [= <-]. simpl. done.
    + intros k m. destruct (decide (k = key)) as [->|Hne]; [intros; by left|].
      rewrite lookup_insert_ne by done. intros Hm Hg Hact. right.
      destruct (Hreb k) as [Hr|[? _]]; [|done]. rewrite Hr in Hm. by eapply Hs.
    + intros k _ _ [->|Hin]%elem_of_cons; [by rewrite lookup_insert_eq|].
      rewrite lookup_insert_ne by (intros ->; done). unfold rebuilt.
      destruct (Nat.eqb_spec (length stack + 1) ACTIVE_INDEX_THRESHOLD).
      * by rewrite mark_all_lookup, decide_True.
      * apply Hc; [done|lia|done].
  - split; [done|done|..].
    + intros k m Hm Hg Hact. right. by eapply Hs.
    + intros k Hu Hlen. rewrite Hu, andb_true_l in E. apply Nat.leb_gt in E. cbn [length] in Hlen. lia.
Qed.

Lemma pop_key_ok g use key marks stack :
  marks_ok g use marks (key :: stack) →
  (pop_key g marks (key :: stack)).2 = stack ∧
  marks_ok g use (pop_key g marks (key :: stack)).1 stack.
Proof.
  intros [Hn Ha Hs Hc]. apply NoDup_cons in Hn as [Hk Hn]. split; [done|]. simpl.
  assert (∀ k, k ≠ key → deactivate g key marks !! k = marks !! k) as Hother.
  { intros k Hne. unfold deactivate. destruct (marks !! key) as [m|]; [|done].
    destruct (_ =? _)%Z; [|done]. by rewrite lookup_insert_ne. }
  assert (∀ m, deactivate g key marks !! key = Some m →
    (mark_generation m ≤ g)%Z ∧ (mark_generation m = g → mark_active m = false)) as Hkey.
  { intros m. unfold deactivate. destruct (marks !! key) as [m'|] eqn:E.
    - destruct (Z.eqb_spec (mark_generation m') g).
      + rewrite lookup_insert_eq. intros [= <-]. simpl. done.
      + rewrite E. intros [= <-]. split; [by eapply Ha|done].
    - rewrite E. done. }
  split; [done|..].
  - intros k m. destruct (decide (k = key)) as [->|Hne]; [by intros [? _]%Hkey|].
    rewrite Hother by done. apply Ha.
  - intros k m. destruct (decide (k = key)) as [->|Hne].
    + intros [_ Hf]%Hkey Hg Hact. rewrite Hf in Hact; done.
    + rewrite Hother by done. intros Hm Hg Hact.
      specialize (Hs k m Hm Hg Hact). by apply elem_of_cons in Hs as [?|?].
  - intros k Hu Hlen Hin. rewrite Hother by (by intros ->).
    apply Hc; [done|simpl; lia|by right].
Qed.

(** Emptying the stack and advancing the generation, as a reused context does. *)
Lemma marks_ok_next g use use' marks stack :
  marks_ok g use marks stack → marks_ok (g + 1) use' marks [].
Proof.
  intros [_ Ha _ _]. split.
  - constructor.
  - intros k m Hm. apply Ha in Hm. lia.
  - intros k m Hm Hg. apply Ha in Hm. lia.
  - by intros k _ _ ?%not_elem_of_nil.
Qed.

Lemma marks_ok_empty g use : marks_ok g use (∅ : gmap K VisitMark) [].
Proof.
  split; [constructor|by intros ??; rewrite lookup_empty|by intros ??; rewrite lookup_empty|].
  by intros k _ _ ?%not_elem_of_nil.
Qed.
End marks.

(** ** The context *)

Record context_ok (c : EvaluationContext) : Prop := {
  co_depth : (0 ≤ remaining_depth c ≤ u32_max)%Z;
  co_checks : marks_ok (generation c) (use_active_indexes c) (active_checks c) (check_stack c);
  co_expands : marks_ok (generation c) (use_active_indexes c) (active_expands c) (expand_stack c)
}.

(** The parts of a context that an evaluation gives back unchanged. *)
Record shell (c c' : EvaluationContext) : Prop := {
  sh_snapshot : ctx_snapshot c' = ctx_snapshot c;
  sh_limits : ctx_limits c' = ctx_limits c;
  sh_generation : generation c' = generation c;
  sh_use : use_active_indexes c' = use_active_indexes c;
  sh_depth : remaining_depth c' = remaining_depth c;
  sh_checks : check_stack c' = check_stack c;
  sh_expands : expand_stack c' = expand_stack c;
  sh_frames : length (check_frames c') = length (check_frames c);
  sh_memo : is_Some (check_memo c') ↔ is_Some (check_memo c)
}.

#[export] Instance shell_equivalence : Equivalence shell.
Proof.
  split.
  - by intros c; split.
  - intros c d []. split; congruence || by symmetry.
  - intros c d e [] []. split; try congruence. by etrans.
Qed.

Lemma record_depth_parts d c :
  shell c (record_check_frame_depth d c) ∧
  active_checks (record_check_frame_depth d c) = active_checks c ∧
  active_expands (record_check_frame_depth d c) = active_expands c ∧
  check_memo (record_check_frame_depth d c) = check_memo c.
Proof.
  unfold record_check_frame_depth. destruct (check_frames c) as [|f fs] eqn:E; [done|].
  split_and!; [|done..]. split; try done. simpl. by rewrite E.
Qed.

Lemma context_ok_next c : context_ok c → context_ok (reset_for_reuse c).
Proof.
  intros [_ Hc He]. unfold reset_for_reuse, checked_add.
  pose proof (nz_range (max_depth (ctx_limits c))).
  destruct (_ <=? _)%Z; split; simpl; try lia;
    try (by eapply marks_ok_next); apply marks_ok_empty.
Qed.

Lemma context_ok_new snapshot limits : context_ok (context_new snapshot limits).
Proof.
  pose proof (nz_range (max_depth limits)). split; simpl; [lia|apply marks_ok_empty..].
Qed.

Lemma context_ok_new_memo snapshot limits :
  context_ok (context_new_with_request_memo snapshot limits).
Proof. destruct (context_ok_new snapshot limits). by split. Qed.

(** ** What an evaluation keeps

    [G] says which memo entries are right, [E] which errors may occur. *)

Section evals.
Variable G : CheckMemoKey → Membership → Prop.
Variable E : ZanzibarError → Prop.

Definition memo_good (c : EvaluationContext) : Prop :=
  ∀ memo k e, check_memo c = Some memo → memo_entries memo !! k = Some e →
              G k (entry_membership e).

Record keeps (c c' : EvaluationContext) : Prop := {
  kp_shell : shell c c';
  kp_ok : context_ok c';
  kp_memo : memo_good c'
}.

Lemma keeps_refl c : context_ok c → memo_good c → keeps c c.
Proof. by split. Qed.

Lemma keeps_trans c d e : keeps c d → keeps d e → keeps c e.
Proof. intros [? _ _] [? ? ?]. split; [by etrans|done..]. Qed.

Definition stops (e : EvalStop) : Prop := ∃ z, e = Stop z ∧ E z.

(** [m] returns within its fuel; it keeps the context, its result satisfies [Q]
    and its error [E]. *)
Definition evals {A} (c : EvaluationContext) (m : Eval A) (Q : A → Prop) : Prop :=
  wp m c (λ a c', keeps c c' ∧ Q a) (λ e c', keeps c c' ∧ stops e).

Lemma evals_mono {A} c (m : Eval A) (Q Q' : A → Prop) :
  evals c m Q → (∀ a, Q a → Q' a) → evals c m Q'.
Proof. intros Hm HQ. eapply wp_mono; [| |exact Hm]; naive_solver. Qed.

(** What matters is what a computation does from [c]. *)
Lemma evals_from {A} c (m m' : Eval A) (Q : A → Prop) :
  m c = m' c → evals c m' Q → evals c m Q.
Proof. intros Hm. unfold evals, wp. by rewrite Hm. Qed.

#[export] Instance evals_proper {A} c (m : Eval A) :
  Proper (pointwise_relation _ iff ==> iff) (evals c m).
Proof. intros Q Q' HQ. split; intros Hm; (eapply evals_mono; [exact Hm|]); intros a; apply HQ. Qed.

Lemma evals_ret {A} c (a : A) (Q : A → Prop) :
  context_ok c → memo_good c → Q a → evals c (st_ret a) Q.
Proof. intros. unfold evals, wp. simpl. split; [by apply keeps_refl|done]. Qed.

Lemma evals_bind {A B} c (m : Eval A) (f : A → Eval B) (Q : A → Prop) (R : B → Prop) :
  evals c m Q → (∀ a c', keeps c c' → Q a → evals c' (f a) R) →
  evals c (st_bind m f) R.
Proof.
  intros Hm Hf. apply wp_bind. eapply wp_mono; [| |exact Hm].
  - intros a c' [Hk HQ]. specialize (Hf a c' Hk HQ). unfold evals in Hf.
    eapply wp_mono; [| |exact Hf].
    + intros b c'' [Hk' HR]. split; [by eapply keeps_trans|done].
    + intros e c'' [Hk' He]. split; [by eapply keeps_trans|done].
  - done.
Qed.

Lemma evals_lift {A} c (r : result ZanzibarError A) (Q : A → Prop) :
  context_ok c → memo_good c → (∀ a, r = Ok a → Q a) → (∀ z, r = Err z → E z) →
  evals c (lift r) Q.
Proof.
  intros Hc Hm HQ HE. unfold evals, wp, lift, st_lift.
  destruct r as [a|e]; simpl; (split; [by apply keeps_refl|]); [by apply HQ|].
  exists e. auto.
Qed.

Lemma evals_lift_err {A F} (f : F → ZanzibarError) c (r : result F A) (Q : A → Prop) :
  context_ok c → memo_good c → (∀ a, r = Ok a → Q a) → (∀ e, r = Err e → E (f e)) →
  evals c (lift (map_err f r)) Q.
Proof.
  intros Hc Hm HQ HE. apply evals_lift; [done..| |].
  - intros a Ha%map_err_Ok. auto.
  - destruct r as [a|e]; [done|]. intros z [= <-]. auto.
Qed.

(** One more than [n], as long as it stays within the fanout limit. *)
Lemma evals_fanout c n : context_ok c → memo_good c →
  let limit := max_fanout_per_step (ctx_limits c) in
  (0 ≤ n ≤ nz_get limit)%Z →
  ((nz_get limit ≤ n)%Z → nz_get limit ≠ u32_max → E (ZEvaluation (FanoutExceeded limit))) →
  evals c (increment_fanout n)
    (λ n', (n ≤ n' ≤ n + 1)%Z ∧ (n' ≤ nz_get limit)%Z ∧ (n < u32_max → n' = n + 1)%Z).
Proof.
  intros Hc Hm limit Hn HE. unfold evals, wp, increment_fanout. fold limit. unfold saturating_add.
  destruct (Z.ltb_spec (nz_get limit) (Z.min u32_max (n + 1)))
    as [Hlt|Hle]; (split; [by apply keeps_refl|]).
  - eexists. split; [done|]. apply HE; lia.
  - pose proof (nz_range limit). lia.
Qed.

(** ** A check key *)

(** The context in which the body of a check key runs. *)
Record entered (key : CheckKey) (c c1 : EvaluationContext) : Prop := {
  en_snapshot : ctx_snapshot c1 = ctx_snapshot c;
  en_limits : ctx_limits c1 = ctx_limits c;
  en_depth : remaining_depth c1 = (remaining_depth c - 1)%Z;
  en_checks : check_stack c1 = key :: check_stack c;
  en_expands : expand_stack c1 = expand_stack c;
  en_memo : check_memo c1 = check_memo c
}.

Definition open_check (eligible : bool) (key : CheckKey) (c : EvaluationContext)
    : EvaluationContext :=
  let d := saturating_sub (remaining_depth c) 1 in
  let c' := record_check_frame_depth d (set_depth d c) in
  push_check_key key (if eligible then push_check_frame (remaining_depth c) c' else c').

Definition close_check (eligible : bool) (c : EvaluationContext) : EvaluationContext :=
  let c := pop_check_key c in
  leave (if eligible then (pop_check_frame_depth_required c).2 else c).

Lemma record_depth_set d c :
  let c' := record_check_frame_depth d (set_depth d c) in
  ctx_snapshot c' = ctx_snapshot c ∧ ctx_limits c' = ctx_limits c ∧
  generation c' = generation c ∧ use_active_indexes c' = use_active_indexes c ∧
  remaining_depth c' = d ∧ active_checks c' = active_checks c ∧
  active_expands c' = active_expands c ∧ check_stack c' = check_stack c ∧
  expand_stack c' = expand_stack c ∧ length (check_frames c') = length (check_frames c) ∧
  check_memo c' = check_memo c.
Proof.
  unfold record_check_frame_depth. simpl. destruct (check_frames c) eqn:Ef; simpl; rewrite ?Ef; done.
Qed.

Lemma open_check_ok (el : bool) key c :
  context_ok c → (0 < remaining_depth c)%Z → key ∉ check_stack c →
  context_ok (open_check el key c) ∧ entered key c (open_check el key c) ∧
  generation (open_check el key c) = generation c ∧
  use_active_indexes (open_check el key c) = use_active_indexes c ∧
  length (check_frames (open_check el key c)) = length (check_frames c) + (if el then 1 else 0).
Proof.
  intros [Hd Hc He] Hpos Hk. unfold open_check.
  assert (saturating_sub (remaining_depth c) 1 = remaining_depth c - 1)%Z as ->
    by (unfold saturating_sub; lia).
  destruct (record_depth_set (remaining_depth c - 1) c)
    as (E1 & E2 & E3 & E4 & E5 & E6 & E7 & E8 & E9 & E10 & E11).
  set (c' := record_check_frame_depth _ _) in *.
  destruct (push_key_ok _ _ key _ _ Hc Hk) as [Hp1 Hp2].
  destruct el; (split_and!;
    [split; simpl; rewrite ?E3, ?E4, ?E5, ?E6, ?E7, ?E8, ?E9; [lia|exact Hp2|exact He]
    |split; simpl; congruence|exact E3|exact E4|simpl; rewrite E10; lia]).
Qed.

Lemma close_check_ok (el : bool) key c c2 :
  context_ok c → (0 < remaining_depth c)%Z → context_ok c2 →
  ctx_snapshot c2 = ctx_snapshot c → ctx_limits c2 = ctx_limits c →
  generation c2 = generation c → use_active_indexes c2 = use_active_indexes c →
  remaining_depth c2 = (remaining_depth c - 1)%Z → check_stack c2 = key :: check_stack c →
  expand_stack c2 = expand_stack c →
  length (check_frames c2) = length (check_frames c) + (if el then 1 else 0) →
  (is_Some (check_memo c2) ↔ is_Some (check_memo c)) →
  shell c (close_check el c2) ∧ context_ok (close_check el c2) ∧
  check_memo (close_check el c2) = check_memo c2.
Proof.
  intros [Hd Hc He] Hpos [Hd2 Hc2 He2] S1 S2 S3 S4 S5 S6 S7 S8 S9.
  rewrite S6 in Hc2. destruct (pop_key_ok _ _ _ _ _ Hc2) as [Hp1 Hp2].
  assert (∀ c3, ctx_snapshot c3 = ctx_snapshot c2 → ctx_limits c3 = ctx_limits c2 →
    generation c3 = generation c2 → use_active_indexes c3 = use_active_indexes c2 →
    remaining_depth c3 = remaining_depth c2 → active_expands c3 = active_expands c2 →
    expand_stack c3 = expand_stack c2 → check_memo c3 = check_memo c2 →
    active_checks c3 = active_checks (pop_check_key c2) →
    check_stack c3 = check_stack (pop_check_key c2) →
    length (check_frames c3) = length (check_frames c) →
    shell c (leave c3) ∧ context_ok (leave c3) ∧ check_memo (leave c3) = check_memo c2) as Hend.
  { intros c3 T1 T2 T3 T4 T5 T6 T7 T8 T9 T10 T11.
    unfold pop_check_key in T9, T10. rewrite S6 in T9, T10. simpl in T9, T10.
    split_and!; [| |done].
    - split; simpl; try congruence. unfold saturating_add. lia.
    - split; simpl.
      + unfold saturating_add. lia.
      + rewrite T3, T4, T9, T10. exact Hp2.
      + rewrite T3, T4, T6, T7. exact He2. }
  unfold close_check. destruct el.
  - unfold pop_check_frame_depth_required.
    destruct (check_frames (pop_check_key c2)) as [|f fs] eqn:Ef.
    { simpl in Ef. rewrite Ef in S8. simpl in S8. lia. }
    simpl. destruct (record_depth_parts (minimum_remaining_depth f) (set_frames fs (pop_check_key c2)))
      as ([] & P1 & P2 & P3). simpl in *. apply Hend; try congruence.
    rewrite sh_frames0. rewrite Ef in S8. simpl in S8. lia.
  - apply Hend; try done. simpl. lia.
Qed.

Lemma memo_put_good k m d memo (P : CheckMemoKey → Membership → Prop) :
  (∀ k' e, memo_entries memo !! k' = Some e → P k' (entry_membership e)) → P k m →
  ∀ k' e, memo_entries (memo_put k m d memo) !! k' = Some e → P k' (entry_membership e).
Proof.
  intros Hm Hk k' e. unfold memo_put.
  assert (∀ b, memo_entries (mkMemo (<[k:=mkMemoEntry m d]> (memo_entries memo)) b) !! k' = Some e →
    P k' (entry_membership e)) as Hins.
  { intros b. simpl. destruct (decide (k' = k)) as [->|Hne].
    - rewrite lookup_insert_eq. by intros [= <-].
    - rewrite lookup_insert_ne by done. apply Hm. }
  destruct (memo_entries memo !! k) as [e0|]; [destruct (_ <=? _)%Z|destruct (Nat.leb _ _)];
    first [apply Hins | apply Hm].
Qed.

(** Storing a result that may be stored. *)
Lemma memo_insert_keeps key m dr c c3 :
  keeps c c3 →
  (∀ memo mk, check_memo c = Some memo → memo_key_from_check_key key = Ok mk → G mk m) →
  keeps c (memo_insert key m dr c3).
Proof.
  intros Hk HG. unfold memo_insert. destruct (check_memo c3) as [memo|] eqn:E3; [|done].
  destruct (memo_key_from_check_key key) as [mk|] eqn:Ek; [|done].
  destruct Hk as [[] [] Hgood]. split; [split; try done|by split|].
  - simpl. rewrite <- sh_memo0. rewrite E3. split; eauto.
  - intros memo' k e. simpl. intros [= <-]. apply memo_put_good; [intros; by eapply Hgood|].
    destruct (check_memo c) as [memo0|] eqn:E0; [by eapply HG|].
    destruct (proj1 sh_memo0) as [? ?]; [eauto|done].
Qed.

(** The rule for a check key: the cut, the memo, the depth limit, and the body in
    the entered context. *)
Lemma evals_check_key key body c (Q : Membership → Prop) :
  context_ok c → memo_good c →
  (key ∈ check_stack c → Q Denied) →
  (∀ memo mk m, check_stack c ≠ [] → check_memo c = Some memo →
     memo_key_from_check_key key = Ok mk → G mk m → Q m) →
  (∀ memo mk m, check_stack c ≠ [] → check_memo c = Some memo →
     memo_key_from_check_key key = Ok mk → Q m → G mk m) →
  (∀ z, memo_key_from_check_key key = Err z → E z) →
  (remaining_depth c = 0%Z → E (ZEvaluation (DepthExceeded (EvalCheck key)))) →
  (key ∉ check_stack c → (0 < remaining_depth c)%Z →
   ∀ c1, context_ok c1 → memo_good c1 → entered key c c1 → evals c1 body Q) →
  evals c (evaluate_check_key key body) Q.
Proof.
  intros Hc Hm Hcut Hhit Hput Hkey Hdepth Hbody. unfold evals, wp, evaluate_check_key, is_check_active.
  rewrite (is_active_spec _ _ _ _ _ (co_checks _ Hc)).
  destruct (decide (key ∈ check_stack c)) as [Hin|Hin].
  { rewrite bool_decide_eq_true_2 by done. split; [by apply keeps_refl|by apply Hcut]. }
  rewrite bool_decide_eq_false_2 by done.
  set (el := bool_decide (is_Some (check_memo c)) && _).
  assert (el = true → check_stack c ≠ []) as Hel.
  { unfold el. rewrite andb_true_iff, negb_true_iff. by intros [_ ?%bool_decide_eq_false]. }
  assert (match (if el then memo_lookup c key else Ok None) with
          | Ok (Some m) => Q m | Ok None => True | Err z => E z end) as Hlook.
  { destruct el; [|done]. specialize (Hel eq_refl). unfold memo_lookup. destruct (check_memo c) as [memo|] eqn:Em; [|done].
    destruct (memo_key_from_check_key key) as [mk|] eqn:Ek; [|by apply Hkey]. simpl.
    unfold memo_get. destruct (memo_entries memo !! mk) as [e|] eqn:Ee; [|done].
    destruct (_ <=? _)%Z; [|done]. eapply Hhit; [done|done|done|]. by eapply Hm. }
  destruct (if el then memo_lookup c key else Ok None) as [[m|]|e];
    [split; [by apply keeps_refl|done]| |split; [by apply keeps_refl|by eexists]].
  unfold enter. destruct (Z.eqb_spec (remaining_depth c) 0) as [Hz|Hz].
  { split; [by apply keeps_refl|]. eexists. split; [done|]. by apply Hdepth. }
  pose proof (co_depth _ Hc) as Hd. assert (0 < remaining_depth c)%Z as Hpos by lia.
  destruct (open_check_ok el key c Hc Hpos Hin) as (Hc1 & Hen & Hg & Hu & Hf).
  pose proof Hen as [N1 N2 N3 N4 N5 N6].
  assert (memo_good (open_check el key c)) as Hm1.
  { intros memo k e. rewrite N6. apply Hm. }
  specialize (Hbody Hin Hpos _ Hc1 Hm1 Hen). unfold evals, wp in Hbody.
  unfold open_check in Hbody at 1. cbv zeta in Hbody. cbv zeta.
  set (c1 := open_check el key c) in *.
  destruct (body _) as [res c2]. 
  assert (keeps c1 c2 ∧ match res with Ok m => Q m | Err e => stops e end) as [Hk Hres].
  { destruct res; exact Hbody. }
  destruct Hk as [[K1 K2 K3 K4 K5 K6 K7 K8 K9] Hc2 Hm2].
  assert (is_Some (check_memo c2) ↔ is_Some (check_memo c)) as K9' by (rewrite K9, N6; done).
  destruct (close_check_ok el key c c2 Hc Hpos Hc2) as (Hsh & Hok & Hmemo); try congruence.
  unfold close_check in Hsh, Hok, Hmemo.
  assert (∀ dr c3, c3 = leave (if el then (pop_check_frame_depth_required (pop_check_key c2)).2
                               else pop_check_key c2) →
    match (res, match res with
           | Ok m => if el && is_memo_cacheable m then memo_insert key m dr c3 else c3
           | Err _ => c3 end) with
    | (Ok a, s') => keeps c s' ∧ Q a
    | (Err e, s') => keeps c s' ∧ stops e
    end) as Hgoal.
  { intros dr c3 ->. set (c3 := leave _) in *.
    assert (keeps c c3) as Hk3.
    { split; [done|done|]. intros memo k e. rewrite Hmemo. apply Hm2. }
    destruct res as [m|e]; [|done]. split; [|done].
    destruct (el && is_memo_cacheable m) eqn:Eel; [|done].
    apply andb_true_iff in Eel as [Hst%Hel _]. apply memo_insert_keeps; [done|]. intros memo mk Em Ek.
    by eapply Hput. }
  destruct el.
  - destruct (pop_check_frame_depth_required (pop_check_key c2)) as [dr c3] eqn:Ep.
    by apply Hgoal.
  - by apply Hgoal.
Qed.

(** ** An expand key *)

Record expand_entered (key : ExpandKey) (c c1 : EvaluationContext) : Prop := {
  xn_snapshot : ctx_snapshot c1 = ctx_snapshot c;
  xn_limits : ctx_limits c1 = ctx_limits c;
  xn_depth : remaining_depth c1 = (remaining_depth c - 1)%Z;
  xn_checks : check_stack c1 = check_stack c;
  xn_expands : expand_stack c1 = key :: expand_stack c;
  xn_memo : check_memo c1 = check_memo c
}.

Definition open_expand (key : ExpandKey) (c : EvaluationContext) : EvaluationContext :=
  let d := saturating_sub (remaining_depth c) 1 in
  push_expand_key key (record_check_frame_depth d (set_depth d c)).

Lemma open_expand_ok key c :
  context_ok c → (0 < remaining_depth c)%Z → key ∉ expand_stack c →
  context_ok (open_expand key c) ∧ expand_entered key c (open_expand key c) ∧
  generation (open_expand key c) = generation c ∧
  use_active_indexes (open_expand key c) = use_active_indexes c ∧
  length (check_frames (open_expand key c)) = length (check_frames c).
Proof.
  intros [Hd Hc He] Hpos Hk. unfold open_expand.
  assert (saturating_sub (remaining_depth c) 1 = remaining_depth c - 1)%Z as ->
    by (unfold saturating_sub; lia).
  destruct (record_depth_set (remaining_depth c - 1) c)
    as (E1 & E2 & E3 & E4 & E5 & E6 & E7 & E8 & E9 & E10 & E11).
  set (c' := record_check_frame_depth _ _) in *.
  destruct (push_key_ok _ _ key _ _ He Hk) as [Hp1 Hp2].
  split_and!;
    [split; simpl; rewrite ?E3, ?E4, ?E5, ?E6, ?E7, ?E8, ?E9; [lia|exact Hc|exact Hp2]
    |split; simpl; congruence|exact E3|exact E4|simpl; rewrite E10; lia].
Qed.

Lemma close_expand_ok key c c1 c2 :
  context_ok c → (0 < remaining_depth c)%Z → expand_entered key c c1 →
  generation c1 = generation c → use_active_indexes c1 = use_active_indexes c →
  length (check_frames c1) = length (check_frames c) →
  keeps c1 c2 → keeps c (leave (pop_expand_key c2)).
Proof.
  intros [Hd Hc He] Hpos [] Hg Hu Hf [[] [Hd2 Hc2 He2] Hm2].
  unfold pop_expand_key. rewrite sh_expands0, xn_expands0.
  rewrite sh_expands0, xn_expands0 in He2. destruct (pop_key_ok _ _ _ _ _ He2) as [Hp1 Hp2].
  split; [|split|done]; [split; simpl in *; try congruence|..].
  - unfold saturating_add. lia.
  - simpl. unfold saturating_add. lia.
  - exact Hc2.
  - exact Hp2.
Qed.

(** The rule for an expand key. *)
Lemma evals_expand_key key body c (Q : ExpandedUserset → Prop) :
  context_ok c → memo_good c →
  (key ∈ expand_stack c → Q (EUnion [])) →
  (remaining_depth c = 0%Z → E (ZEvaluation (DepthExceeded (EvalExpand key)))) →
  (key ∉ expand_stack c → (0 < remaining_depth c)%Z →
   ∀ c1, context_ok c1 → memo_good c1 → expand_entered key c c1 → evals c1 body Q) →
  evals c (evaluate_expand_key key body) Q.
Proof.
  intros Hc Hm Hcut Hdepth Hbody. unfold evals, wp, evaluate_expand_key, is_expand_active.
  rewrite (is_active_spec _ _ _ _ _ (co_expands _ Hc)).
  destruct (decide (key ∈ expand_stack c)) as [Hin|Hin].
  { rewrite bool_decide_eq_true_2 by done. split; [by apply keeps_refl|by apply Hcut]. }
  rewrite bool_decide_eq_false_2 by done.
  unfold enter. destruct (Z.eqb_spec (remaining_depth c) 0) as [Hz|Hz].
  { split; [by apply keeps_refl|]. eexists. split; [done|]. by apply Hdepth. }
  pose proof (co_depth _ Hc) as Hd. assert (0 < remaining_depth c)%Z as Hpos by lia.
  destruct (open_expand_ok key c Hc Hpos Hin) as (Hc1 & Hen & Hg & Hu & Hf).
  assert (memo_good (open_expand key c)) as Hm1.
  { intros memo k e. rewrite (xn_memo _ _ _ Hen). apply Hm. }
  specialize (Hbody Hin Hpos _ Hc1 Hm1 Hen). unfold evals, wp in Hbody.
  unfold open_expand in Hbody at 1. cbv zeta in Hbody.
  destruct (body _) as [res c2].
  destruct res; destruct Hbody as [Hk HQ]; (split; [by eapply close_expand_ok|done]).
Qed.
End evals.
