(* ===== verification/EvalTotal.v ===== *)
(** * Every evaluation returns

    Checks and expansions return within the fuel their depth limit pays for, for
    every snapshot and every context, and give the context back as they found
    it. Nothing is assumed of the schema or of the relationships. *)

From S2P Require Import Prelude Model Domain Revision Schema StoreTypes Store StoreView.
From S2P Require Import EvalContext Eval EvalInv.

Section total.
Context `{Hasher}.

Definition any_memo (k : CheckMemoKey) (m : Membership) : Prop := True.
Definition any_error (e : ZanzibarError) : Prop := True.

(** An expansion leaves the memo alone, whatever is known of it. *)
Variable G : CheckMemoKey → Membership → Prop.

(** [m] returns from [c], and restores it. *)
Definition runs {A} (c : EvaluationContext) (m : Eval A) : Prop :=
  evals G any_error c m (λ _, True).

(** [m] returns from every context of depth at most [n]. *)
Definition runs_within {A} (n : nat) (m : Eval A) : Prop :=
  ∀ c, context_ok c → memo_good G c → (remaining_depth c ≤ Z.of_nat n)%Z → runs c m.

Lemma within_ret {A} n (a : A) : runs_within n (st_ret a).
Proof. intros c Hc Hm _. by apply evals_ret. Qed.

Lemma within_lift {A} n (r : result ZanzibarError A) : runs_within n (lift r).
Proof. intros c Hc Hm _. by apply evals_lift. Qed.

Lemma within_bind {A B} n (m : Eval A) (f : A → Eval B) :
  runs_within n m → (∀ a, runs_within n (f a)) → runs_within n (st_bind m f).
Proof.
  intros Hm Hf c Hc Hg Hd. eapply evals_bind; [by apply Hm|].
  intros a c' [Hs Hc' Hg'] _. apply Hf; [done|done|]. rewrite (sh_depth _ _ Hs). lia.
Qed.

(** What a computation does from a context may depend on the context. *)
Lemma within_from {A} n (m : Eval A) (m' : EvaluationContext → Eval A) :
  (∀ c, m c = m' c c) → (∀ c, runs_within n (m' c)) → runs_within n m.
Proof. intros Hm Hm' c Hc Hg Hd. apply (evals_from _ _ c _ (m' c)); [done|]. by apply Hm'. Qed.

Lemma within_fanout n fanout : runs_within n (increment_fanout fanout).
Proof.
  intros c Hc Hg _. unfold runs, evals, wp, increment_fanout.
  destruct (_ <? _)%Z; (split; [by apply keeps_refl|]); [|done]. by eexists.
Qed.

Lemma within_if {A} n (b : bool) (m m' : Eval A) :
  runs_within n m → runs_within n m' → runs_within n (if b then m else m').
Proof. by destruct b. Qed.

Lemma within_decide {A} n (P : Prop) (b : {P} + {¬ P}) (m m' : Eval A) :
  runs_within n m → runs_within n m' → runs_within n (if b then m else m').
Proof. by destruct b. Qed.

Create HintDb runs discriminated.
#[local] Hint Resolve within_ret within_lift within_bind within_fanout within_if within_decide
  : runs.

Lemma within_lift_domain {A} n (r : result DomainError A) : runs_within n (lift_domain r).
Proof. apply within_lift. Qed.
#[local] Hint Resolve within_lift_domain : runs.

Lemma within_relation_of_id n rid : runs_within n (relation_of_id rid).
Proof. eapply (within_from n _ (λ c, lift _)); [done|]. auto with runs. Qed.
Lemma within_relation_of_name n t rel : runs_within n (relation_of_name t rel).
Proof. eapply (within_from n _ (λ c, lift_schema _)); [done|]. intros c. apply within_lift. Qed.
#[local] Hint Resolve within_relation_of_id within_relation_of_name : runs.

(** ** Check *)

Lemma within_userset_loop n check : (∀ o rel, runs_within n (check o rel)) →
  ∀ items fanout, runs_within n (userset_loop check fanout items).
Proof.
  intros Hcheck. induction items as [|x items IH]; intros fanout; simpl; [auto with runs|].
  apply within_bind; [auto with runs|]. intros [[o rel]|]; auto 6 with runs.
Qed.

Section expression.
Variable n : nat.
Variable by_name : Object → RelationName → User → Eval Membership.
Variable by_id : Object → RelationName → SchemaRelationId → User → Eval Membership.
Variable plain : Object → RelationName → User → Eval Membership.
Hypothesis Hname : ∀ o rel u, runs_within n (by_name o rel u).
Hypothesis Hid : ∀ o rel rid u, runs_within n (by_id o rel rid u).
Hypothesis Hplain : ∀ o rel u, runs_within n (plain o rel u).

Lemma within_this o rel u : runs_within n (eval_this by_name o rel u).
Proof.
  eapply (within_from n _ (λ c, st_bind _ _)); [done|]. intros c.
  apply within_bind; [auto with runs|]. intros res. apply within_bind; [auto with runs|].
  intros f. apply within_if; [auto with runs|]. apply within_userset_loop. auto.
Qed.

Lemma within_tuple_to_userset o u tupleset computed :
  runs_within n (eval_tuple_to_userset by_name o u tupleset computed).
Proof.
  eapply (within_from n _ (λ c, st_bind _ _)); [done|]. intros c.
  apply within_bind; [auto with runs|]. intros res. apply within_userset_loop. auto.
Qed.

Lemma within_union ev es : Forall (λ e, runs_within n (ev e)) es →
  ∀ acc, runs_within n (eval_union ev acc es).
Proof. induction 1; intros acc; simpl; auto 6 with runs. Qed.

Lemma within_intersection ev es : Forall (λ e, runs_within n (ev e)) es →
  ∀ acc, runs_within n (eval_intersection ev acc es).
Proof. induction 1; intros acc; simpl; auto 6 with runs. Qed.

Lemma within_expression o rel u e : runs_within n (eval_expression by_name by_id plain o rel u e).
Proof.
  induction e as [|rel' rid h|ts rid cm|es IH|es IH|b x IHb IHx] using compiled_induction; simpl.
  - apply within_this.
  - auto with runs.
  - apply within_bind; [auto with runs|]. intros rd. apply within_tuple_to_userset.
  - by apply within_union.
  - by apply within_intersection.
  - auto 8 with runs.
Qed.

Lemma within_definition o rel u rd : runs_within n (eval_definition by_name by_id plain o rel u rd).
Proof.
  unfold eval_definition. destruct (rd_compiled_userset_rewrite rd);
    [apply within_expression|apply within_this].
Qed.
End expression.

Lemma within_zero {A} (m : Eval A) :
  (∀ c, remaining_depth c = 0%Z → context_ok c → memo_good G c → runs c m) → runs_within 0 m.
Proof.
  intros Hm c Hc Hg Hd. apply Hm; [|done|done]. pose proof (co_depth _ Hc). lia.
Qed.

(** ** Expand *)

Section expansion.
Variable n : nat.
Variable expand_rec : Object → RelationName → Eval ExpandedUserset.
Hypothesis Hrec : ∀ o rel, runs_within n (expand_rec o rel).

Lemma within_expand_loop computed items : ∀ fanout,
  runs_within n (expand_loop expand_rec computed fanout items).
Proof.
  induction items as [|x items IH]; intros fanout; simpl; [auto with runs|].
  apply within_bind; [auto with runs|]. intros [[o rel]|]; auto 8 with runs.
Qed.

Lemma within_expand_subjects items : ∀ fanout, runs_within n (expand_subjects fanout items).
Proof. induction items as [|x items IH]; intros fanout; simpl; auto 8 with runs. Qed.

Lemma within_expand_this o rel : runs_within n (expand_this o rel).
Proof.
  eapply (within_from n _ (λ c, st_bind _ _)); [done|]. intros c.
  apply within_bind; [auto with runs|]. intros res.
  apply within_bind; [apply within_expand_subjects|]. auto with runs.
Qed.

Lemma within_expand_operands ex es : Forall (λ e, runs_within n (ex e)) es →
  runs_within n (expand_operands ex es).
Proof. induction 1; simpl; auto 6 with runs. Qed.

Lemma within_expand_expression o rel e : runs_within n (expand_expression expand_rec o rel e).
Proof.
  induction e as [|rel' rid h|ts rid cm|es IH|es IH|b x IHb IHx] using compiled_induction; simpl.
  - apply within_expand_this.
  - auto.
  - eapply (within_from n _ (λ c, st_bind _ _)); [done|]. intros c.
    apply within_bind; [auto with runs|]. intros res. apply within_bind; [auto with runs|].
    intros rd. apply within_bind; [apply within_expand_loop|]. auto with runs.
  - apply within_bind; [by apply within_expand_operands|auto with runs].
  - apply within_bind; [by apply within_expand_operands|auto with runs].
  - auto 8 with runs.
Qed.
End expansion.

Lemma within_expand_relation_name n o rel : runs_within n (expand_relation_name (S n) o rel).
Proof.
  revert o rel. induction n as [|n IH]; intros o rel; cbn [expand_relation_name].
  - apply within_zero. intros c Hz Hc Hg. apply evals_expand_key; try done. intros _ Hpos. lia.
  - intros c Hc Hg Hd. apply evals_expand_key; try done. intros _ Hpos c1 Hc1 Hg1 Hen.
    assert (remaining_depth c1 ≤ Z.of_nat n)%Z as Hd1 by (rewrite (xn_depth _ _ _ Hen); lia).
    revert c1 Hc1 Hg1 Hen Hd1. intros c1 Hc1 Hg1 _. revert c1 Hc1 Hg1.
    apply within_bind; [auto with runs|]. intros t. apply within_bind; [auto with runs|].
    intros rd. destruct (rd_compiled_userset_rewrite rd);
      [by apply within_expand_expression|apply within_expand_this].
Qed.

Lemma within_expand n o rel : runs_within n (expand (S n) o rel).
Proof.
  apply within_bind; [auto with runs|]. intros rel'. apply within_expand_relation_name.
Qed.


(** ** Whole checks

    They write to the memo: here every entry is allowed. *)

Section checks.
Hypothesis HG : ∀ k m, G k m.

(** A key takes one unit of the depth. *)
Lemma within_check_key n key body :
  runs_within n body → runs_within (S n) (evaluate_check_key key body).
Proof.
  intros Hbody c Hc Hg Hd. apply evals_check_key; try done. intros _ Hpos c1 Hc1 Hg1 Hen.
  apply Hbody; [done|done|]. rewrite (en_depth _ _ _ Hen). lia.
Qed.

(** With no depth left, a key fails without calling its body. *)
Lemma zero_check_key key body c :
  remaining_depth c = 0%Z → context_ok c → memo_good G c → runs c (evaluate_check_key key body).
Proof. intros Hz Hc Hg. apply evals_check_key; try done. intros _ Hpos. lia. Qed.

Lemma check_entry_S fuel entry o rel u c :
  check_entry (S fuel) entry o rel u c =
  evaluate_check_key (check_key_from_relation_name (ctx_snapshot c) o rel u)
    match entry with
    | ByName => check_relation_name_entered (check_entry fuel ByName)
                  (λ o rel rid, check_entry fuel (ById rid) o rel) (check_entry fuel Plain) o rel u
    | ById rid => check_relation_id_entered (check_entry fuel ByName)
                    (λ o rel rid, check_entry fuel (ById rid) o rel) (check_entry fuel Plain)
                    o rel rid u
    | Plain => eval_this (check_entry fuel ByName) o rel u
    end c.
Proof. done. Qed.

Lemma within_entry n entry o rel u : runs_within n (check_entry (S n) entry o rel u).
Proof.
  revert entry o rel u. induction n as [|n IH]; intros entry o rel u.
  - apply within_zero. intros c Hz Hc Hg. eapply evals_from; [apply check_entry_S|].
    by apply zero_check_key.
  - intros c Hc Hg Hd. eapply evals_from; [apply check_entry_S|].
    refine (within_check_key n _ _ _ c Hc Hg Hd).
    destruct entry as [|rid|].
    + apply within_bind; [auto with runs|]. intros t. apply within_bind; [auto with runs|].
      intros rd. apply within_definition; intros; apply IH.
    + apply within_bind; [auto with runs|]. intros rd. apply within_definition; intros; apply IH.
    + apply within_this. intros. apply IH.
Qed.

Lemma within_check n o rel u : runs_within n (check n o rel u).
Proof.
  destruct n as [|n].
  - apply within_zero. intros c Hz Hc Hg.
    eapply (evals_from _ _ c _ (evaluate_check_key _ _)); [done|]. by apply zero_check_key.
  - intros c Hc Hg Hd. eapply (evals_from _ _ c _ (evaluate_check_key _ _)); [done|].
    refine (within_check_key n _ _ _ c Hc Hg Hd).
    apply within_bind; [auto with runs|]. intros t. apply within_bind; [auto with runs|].
    intros rel'. apply within_bind; [auto with runs|].
    intros rd. apply within_definition; intros; apply within_entry.
Qed.

Lemma within_check_prepared n o rel u rd : runs_within n (check_prepared n o rel u rd).
Proof.
  destruct n as [|n].
  - apply within_zero. intros c Hz Hc Hg.
    eapply (evals_from _ _ c _ (evaluate_check_key _ _)); [done|]. by apply zero_check_key.
  - intros c Hc Hg Hd. eapply (evals_from _ _ c _ (evaluate_check_key _ _)); [done|].
    refine (within_check_key n _ _ _ c Hc Hg Hd).
    apply within_definition; intros; apply within_entry.
Qed.

End checks.
End total.

(** ** What a caller sees *)

(** [m] returned [res] from [c], and left [c']. *)
Record returned {A} (c : EvaluationContext) (res : result EvalStop A) (c' : EvaluationContext)
    : Prop := {
  rt_total : res ≠ Err OutOfFuel;
  rt_shell : shell c c';
  rt_ok : context_ok c'
}.

Lemma within_returned {A} G n (m : Eval A) c :
  runs_within G n m → context_ok c → memo_good G c → (remaining_depth c ≤ Z.of_nat n)%Z →
  returned c (m c).1 (m c).2 ∧ memo_good G (m c).2.
Proof.
  intros Hm Hc Hg Hd. specialize (Hm c Hc Hg Hd). unfold runs, evals, wp in Hm.
  destruct (m c) as [[a|e] c']; destruct Hm as [[Hs Hk Hg'] HQ]; (split; [split|]); try done.
  destruct HQ as (z & -> & _). done.
Qed.
