(* ===== verification/EvalSpec.v ===== *)
(** * The meaning of a check

    A reference semantics of relation membership, read off the source schema and
    the list of relationships: no ids, no fuel, no order of evaluation. [sat]
    says when a userset expression admits a user, [member] is its least reading
    on schemas without exclusion. *)

From S2P Require Import Prelude Model Domain Schema StoreTypes Row EvalReads.

(** ** Readings of the text of a relationship *)

(** The user a subject names; a subject userset [user:a#r] names the user [a]
    too, because the filter for a user leaves the subject relation open. *)
Definition names_user (u : User) (s : SubjectRef) : Prop :=
  match u with
  | UserId i => object_of_ref (subject_object s) = mkObject "user" i
  | Userset o rel => ∃ rel', userset_of s = Some (o, rel') ∧ as_str rel' = relation_str rel
  end.

Lemma object_ref_of_object_Ok o r : object_ref_of_object o = Ok r ↔ object_of_ref r = o.
Proof.
  unfold object_ref_of_object, object_of_ref. destruct o as [t i]. simpl. split.
  - intros (a & <-%ident_new_Ok & (b & <-%ident_new_Ok & [= <-])%bind_Ok)%bind_Ok. done.
  - intros [= <- <-]. rewrite !ident_new_as_str. by destruct r.
Qed.

Lemma object_of_ref_inj a b : object_of_ref a = object_of_ref b → a = b.
Proof.
  unfold object_of_ref. intros [= Ht Hi]. apply object_ref_eq; by apply ident_eq.
Qed.

Lemma subject_filter_names u f s :
  subject_filter_of_user u = Ok f → subject_matches f s = true ↔ names_user u s.
Proof.
  unfold subject_matches. destruct u as [i|o rel]; cbn [subject_filter_of_user]; intros Hf.
  - apply bind_Ok in Hf as (t & Ht%ident_new_Ok & Hf).
    apply bind_Ok in Hf as (j & Hj%ident_new_Ok & [= <-]).
    unfold subject_filter_exact. cbn [sf_subject_type sf_optional_subject_id sf_optional_relation].
    rewrite andb_true_r, andb_true_iff, !bool_decide_eq_true, Ht, Hj. simpl. unfold object_of_ref.
    split; [by intros [-> ->]|by intros [= -> ->]].
  - apply bind_Ok in Hf as (t & Ht%ident_new_Ok & Hf).
    apply bind_Ok in Hf as (j & Hj%ident_new_Ok & Hf).
    apply bind_Ok in Hf as (k & Hk%ident_new_Ok & [= <-]).
    unfold subject_filter_exact. cbn [sf_subject_type sf_optional_subject_id sf_optional_relation].
    rewrite !andb_true_iff, !bool_decide_eq_true, Ht, Hj. destruct o as [ns oi]. simpl.
    destruct s as [so|so srel]; simpl; unfold object_of_ref; simpl.
    + split; [by intros [_ ?]|by intros (? & ? & _)].
    + split.
      * intros [[-> ->] [= ->]]. eauto.
      * intros (rel' & [= <- <- <-] & Hrel). split_and!; [done|done|]. f_equal.
        apply ident_eq. congruence.
Qed.

(** ** Expressions without exclusion *)

Fixpoint positive (e : UsersetExpression) : Prop :=
  match e with
  | This | ComputedUserset _ | TupleToUserset _ _ => True
  | Union es | Intersection es => all_of positive es
  | Exclusion _ _ => False
  end.

Section any_of.
Context {A : Type}.
Variable P : A → Prop.
Fixpoint any_of (l : list A) : Prop :=
  match l with [] => False | x :: l => P x ∨ any_of l end.
End any_of.

Lemma any_of_Exists {A} (P : A → Prop) l : any_of P l ↔ ∃ x, x ∈ l ∧ P x.
Proof.
  induction l as [|x l IH]; simpl.
  - split; [done|]. by intros (? & ?%not_elem_of_nil & _).
  - rewrite IH. setoid_rewrite elem_of_cons. naive_solver.
Qed.

(** ** Semantics *)

Definition Members := Object → RelationName → Prop.

Definition included (P Q : Members) : Prop := ∀ o rel, P o rel → Q o rel.

Section semantics.
Variable defs : list NamespaceDefinition.
Variable rels : list Relationship.
Variable u : User.

(** The relationships of relation [rel] of object [o]. *)
Definition granted (o : Object) (rel : RelationName) (s : SubjectRef) : Prop :=
  ∃ r, r ∈ rels ∧ object_of_ref (resource r) = o ∧ relation r = rel ∧ subject r = s.

(** [e], of relation [rel] of object [o], admits [u], when [P] says who belongs to
    the relations it refers to; below an exclusion, [Q] does. *)
Fixpoint sat (P Q : Members) (o : Object) (rel : RelationName) (e : UsersetExpression) : Prop :=
  match e with
  | This =>
      (∃ s, granted o rel s ∧ names_user u s) ∨
      (∃ s o' rel', granted o rel s ∧ userset_of s = Some (o', rel') ∧ P o' rel')
  | ComputedUserset rel' => P o rel'
  | TupleToUserset tupleset computed =>
      ∃ s o' rel', granted o tupleset s ∧ userset_of s = Some (o', rel') ∧ P o' computed
  | Union es => any_of (sat P Q o rel) es
  | Intersection es => all_of (sat P Q o rel) es
  | Exclusion base exclude => sat P Q o rel base ∧ ¬ sat Q P o rel exclude
  end.

(** The rewrite of relation [rel] of [o]'s namespace. *)
Definition rewrites_to (o : Object) (rel : RelationName) (e : UsersetExpression) : Prop :=
  ∃ t rd, as_str t = namespace o ∧ declares defs t rel rd ∧
          e = default This (rd_userset_rewrite rd).

Definition step (P Q : Members) : Members := λ o rel,
  ∃ e, rewrites_to o rel e ∧ sat P Q o rel e.

(** [P] is a reading of the schema: relation by relation, it says what the
    rewrites say. *)
Definition reading (P : Members) : Prop := ∀ o rel, P o rel ↔ step P P o rel.

(** The least reading, by iteration from below. *)
Fixpoint member_n (n : nat) : Members :=
  match n with
  | O => λ _ _, False
  | S n => step (member_n n) (member_n n)
  end.

Definition member : Members := λ o rel, ∃ n, member_n n o rel.

(** The checks [e] leads to. *)
Inductive calls (o : Object) (rel : RelationName) : UsersetExpression → Members :=
| calls_this s o' rel' : granted o rel s → userset_of s = Some (o', rel') →
    calls o rel This o' rel'
| calls_computed rel' : calls o rel (ComputedUserset rel') o rel'
| calls_tuple tupleset computed s o' rel' : granted o tupleset s →
    userset_of s = Some (o', rel') → calls o rel (TupleToUserset tupleset computed) o' computed
| calls_union es e o' rel' : e ∈ es → calls o rel e o' rel' → calls o rel (Union es) o' rel'
| calls_intersection es e o' rel' : e ∈ es → calls o rel e o' rel' →
    calls o rel (Intersection es) o' rel'
| calls_base b x o' rel' : calls o rel b o' rel' → calls o rel (Exclusion b x) o' rel'
| calls_exclude b x o' rel' : calls o rel x o' rel' → calls o rel (Exclusion b x) o' rel'.

Definition leads_to (o : Object) (rel : RelationName) : Members := λ o' rel',
  ∃ e, rewrites_to o rel e ∧ calls o rel e o' rel'.

(** Only the relations it leads to bear on an expression. *)
Lemma sat_mono P P' Q Q' o rel e :
  (∀ o' rel', calls o rel e o' rel' → P o' rel' → P' o' rel') →
  (∀ o' rel', calls o rel e o' rel' → Q' o' rel' → Q o' rel') →
  sat P Q o rel e → sat P' Q' o rel e.
Proof.
  revert P P' Q Q'.
  induction e as [|rel'|ts cm|es IH|es IH|b x IHb IHx] using userset_induction;
    intros P P' Q Q' HP HQ; simpl.
  - intros [?|(s & o' & rel' & Hg & Hu & Hp)]; [by left|]. right. exists s, o', rel'.
    split_and!; [done..|]. apply HP; [by econstructor|done].
  - apply HP. constructor.
  - intros (s & o' & rel' & Hg & Hu & Hp). exists s, o', rel'.
    split_and!; [done..|]. apply HP; [by econstructor|done].
  - rewrite !any_of_Exists. intros (e & He & Hs). exists e. split; [done|].
    rewrite Forall_forall in IH. eapply IH; [done| | |done]; intros o' rel' Hc.
    + apply HP. by eapply calls_union.
    + apply HQ. by eapply calls_union.
  - rewrite !all_of_Forall, !Forall_forall. rewrite Forall_forall in IH. intros Hs e He.
    eapply IH; [done| | |by apply Hs]; intros o' rel' Hc.
    + apply HP. by eapply calls_intersection.
    + apply HQ. by eapply calls_intersection.
  - intros [Hb Hx]. split.
    + eapply IHb; [| |done]; intros o' rel' Hc; [apply HP|apply HQ]; by constructor.
    + intros Hx'. apply Hx. eapply IHx; [| |done]; intros o' rel' Hc; [apply HQ|apply HP];
        by apply calls_exclude.
Qed.

Lemma sat_positive P Q Q' o rel e : positive e → sat P Q o rel e → sat P Q' o rel e.
Proof.
  induction e as [|rel'|ts cm|es IH|es IH|b x IHb IHx] using userset_induction; simpl; try done.
  - rewrite all_of_Forall, !any_of_Exists, !Forall_forall in *. naive_solver.
  - rewrite !all_of_Forall, !Forall_forall in *. naive_solver.
Qed.

(** *** Least readings *)

Definition positive_schema : Prop := ∀ o rel e, rewrites_to o rel e → positive e.

Lemma step_mono P P' Q : positive_schema → included P P' →
  included (step P Q) (step P' Q).
Proof.
  intros Hpos HP o rel (e & He & Hs). exists e. split; [done|].
  eapply sat_mono; [| |exact Hs]; [|done]. intros o' rel' _. apply HP.
Qed.

Lemma step_positive P Q Q' : positive_schema → included (step P Q) (step P Q').
Proof.
  intros Hpos o rel (e & He & Hs). exists e. split; [done|].
  eapply sat_positive; [by eapply Hpos|done].
Qed.

Lemma member_n_S n : positive_schema → included (member_n n) (member_n (S n)).
Proof.
  intros Hpos. induction n as [|n IH]; intros o rel Hs; [by destruct Hs|].
  refine (step_positive _ (member_n n) _ Hpos _ _ _). exact (step_mono _ _ _ Hpos IH _ _ Hs).
Qed.

Lemma member_n_le m n : positive_schema → m ≤ n → included (member_n m) (member_n n).
Proof.
  intros Hpos. induction 1 as [|n _ IH]; intros o rel Hm; [done|].
  by apply member_n_S, IH.
Qed.

(** A finite expression needs finitely many members. *)
Lemma sat_member Q o rel e : positive_schema → positive e →
  sat member Q o rel e → ∃ n, sat (member_n n) Q o rel e.
Proof.
  intros Hpos.
  induction e as [|rel'|ts cm|es IH|es IH|b x IHb IHx] using userset_induction; simpl; try done.
  - intros _ [?|(s & o' & rel' & Hg & Hu & n & Hn)]; [by exists 0; left|].
    exists n. right. by exists s, o', rel'.
  - intros _ (s & o' & rel' & Hg & Hu & n & Hn). exists n, s, o', rel'. done.
  - rewrite all_of_Forall, any_of_Exists. rewrite !Forall_forall in *.
    intros Hp (e & He & Hs). destruct (IH e He) as [n Hn]; [auto..|]. exists n.
    rewrite any_of_Exists. eauto.
  - rewrite !all_of_Forall. intros Hp Hs. induction IH as [|e es He _ IHes]; [by exists 0|].
    inversion_clear Hp. inversion_clear Hs. destruct He as [n Hn]; [done..|].
    destruct IHes as [m Hm]; [done..|]. exists (n `max` m).
    assert (∀ k e, k ≤ n `max` m → sat (member_n k) Q o rel e →
      sat (member_n (n `max` m)) Q o rel e) as Hk.
    { intros k e' Hk. apply sat_mono; [|done]. intros o' rel' _. by apply member_n_le. }
    split; [eapply Hk; [|done]; lia|]. rewrite all_of_Forall in Hm |- *. eapply Forall_impl; [exact Hm|].
    intros e' ?. eapply Hk; [|done]. lia.
Qed.

Lemma member_reading : positive_schema → reading member.
Proof.
  intros Hpos o rel. split.
  - intros [[|n] Hn]; [done|]. refine (step_positive _ (member_n n) _ Hpos _ _ _).
    eapply step_mono; [done| |exact Hn]. intros o' rel' ?. by exists n.
  - intros (e & He & Hs). pose proof (Hpos _ _ _ He) as Hp.
    destruct (sat_member _ _ _ _ Hpos Hp Hs) as [n Hn]. exists (S n), e. split; [done|].
    by eapply sat_positive.
Qed.

Lemma member_least P : positive_schema → included (step P P) P → included member P.
Proof.
  intros Hpos HP o rel [n Hn]. revert o rel Hn. induction n as [|n IH]; [done|].
  intros o rel Hn. apply HP. refine (step_positive _ (member_n n) _ Hpos _ _ _).
  exact (step_mono _ _ _ Hpos IH _ _ Hn).
Qed.
End semantics.

(** Readings agree wherever the data is well-founded. *)
Lemma readings_agree defs rels u P Q o rel :
  reading defs rels u P → reading defs rels u Q →
  Acc (λ q p, leads_to defs rels p.1 p.2 q.1 q.2) (o, rel) → P o rel ↔ Q o rel.
Proof.
  intros HP HQ Hacc. remember (o, rel) as p eqn:Ep. revert o rel Ep.
  induction Hacc as [p _ IH]. intros o rel ->.
  assert (∀ e o' rel', rewrites_to defs o rel e → calls rels o rel e o' rel' →
    P o' rel' ↔ Q o' rel') as Hsub.
  { intros e o' rel' He Hc. apply (IH (o', rel')); [|done]. by exists e. }
  rewrite (HP o rel), (HQ o rel).
  split; intros (e & He & Hs); exists e; (split; [done|]);
    (eapply sat_mono; [| |exact Hs]; intros o' rel' Hc Hp; by apply (Hsub e o' rel')).
Qed.

(** ** Ranked data

    When every relation leads to relations of smaller rank only, iteration
    settles at the rank, exclusions included, and its limit is the reading. *)

Section ranked.
Variable defs : list NamespaceDefinition.
Variable rels : list Relationship.
Variable rank : Object → RelationName → nat.
Hypothesis Hrank : ∀ o rel o' rel', leads_to defs rels o rel o' rel' → rank o' rel' < rank o rel.

Lemma step_agree u P Q o rel :
  (∀ o' rel', rank o' rel' < rank o rel → P o' rel' ↔ Q o' rel') →
  step defs rels u P P o rel ↔ step defs rels u Q Q o rel.
Proof.
  intros HPQ.
  assert (∀ e o' rel', rewrites_to defs o rel e → calls rels o rel e o' rel' →
    P o' rel' ↔ Q o' rel') as Hc.
  { intros e o' rel' He Hcall. apply HPQ, Hrank. by exists e. }
  split; intros (e & He & Hs); exists e; (split; [done|]);
    (eapply sat_mono; [| |exact Hs]; intros o' rel' Hcall; apply (Hc e); done).
Qed.

Lemma member_n_settles u r o rel n m :
  rank o rel < r → rank o rel < n → rank o rel < m →
  member_n defs rels u n o rel ↔ member_n defs rels u m o rel.
Proof.
  revert o rel n m. induction r as [|r IH]; intros o rel [|n] [|m] Hr Hn Hm; try lia.
  simpl. apply step_agree. intros o' rel' Hlt. apply IH; lia.
Qed.

Definition ranked_member (u : User) : Members := λ o rel,
  member_n defs rels u (S (rank o rel)) o rel.

Lemma ranked_reading u : reading defs rels u (ranked_member u).
Proof.
  intros o rel. unfold ranked_member at 1. simpl. apply step_agree. intros o' rel' Hlt.
  apply (member_n_settles u (S (rank o' rel'))); lia.
Qed.
End ranked.

(** A test for schemas without exclusion. *)
Fixpoint positiveb (e : UsersetExpression) : bool :=
  match e with
  | This | ComputedUserset _ | TupleToUserset _ _ => true
  | Union es | Intersection es => forallb positiveb es
  | Exclusion _ _ => false
  end.

Definition positive_schemab (defs : list NamespaceDefinition) : bool :=
  forallb (λ ns, forallb (λ rd, positiveb (default This (rd_userset_rewrite rd)))
    (ns_relations ns)) defs.

Lemma positiveb_positive e : positiveb e = true → positive e.
Proof.
  induction e as [| | |es IH|es IH|] using userset_induction; simpl; try done;
    intros He; apply all_of_Forall; rewrite forallb_forall in He; rewrite Forall_forall in IH |- *;
    intros e Hin; apply (IH e Hin), He; by apply list_elem_of_In.
Qed.

Lemma positive_schemab_positive defs : positive_schemab defs = true → positive_schema defs.
Proof.
  unfold positive_schemab. intros Hb o rel e (t & rd & _ & (ns & Hns & _ & Hrd & _) & ->).
  rewrite forallb_forall in Hb. apply list_elem_of_In in Hns, Hrd. specialize (Hb ns Hns).
  rewrite forallb_forall in Hb. by apply positiveb_positive, Hb.
Qed.

(** A rank by relation name, checked against the rewrites and the rows. *)
Section rank_check.
Variable rels : list Relationship.
Variable f : RelationName → nat.

Definition row_ranked (r : Relationship) : bool :=
  match userset_of (subject r) with
  | Some (_, rel') => Nat.ltb (f rel') (f (relation r))
  | None => true
  end.

Fixpoint expr_ranked (rel : RelationName) (e : UsersetExpression) : bool :=
  match e with
  | This => forallb (λ r, negb (bool_decide (relation r = rel)) || row_ranked r) rels
  | ComputedUserset rel' => Nat.ltb (f rel') (f rel)
  | TupleToUserset _ computed => Nat.ltb (f computed) (f rel)
  | Union es | Intersection es => forallb (expr_ranked rel) es
  | Exclusion b x => expr_ranked rel b && expr_ranked rel x
  end.

Definition schema_ranked (defs : list NamespaceDefinition) : bool :=
  forallb (λ ns, forallb (λ rd, expr_ranked (rd_name rd) (default This (rd_userset_rewrite rd)))
    (ns_relations ns)) defs.

Lemma expr_ranked_calls o rel e o' rel' :
  expr_ranked rel e = true → calls rels o rel e o' rel' → f rel' < f rel.
Proof.
  intros He Hc. induction Hc as [s o' rel' Hg Hus|rel'|ts cm s o' rel' _ _|es e o' rel' Hin _ IH
    |es e o' rel' Hin _ IH|b x o' rel' _ IH|b x o' rel' _ IH]; simpl in He.
  - destruct Hg as (r & Hr & _ & Hrel & <-). rewrite forallb_forall in He.
    apply list_elem_of_In in Hr. specialize (He r Hr). rewrite bool_decide_eq_true_2 in He by done.
    unfold row_ranked in He. rewrite Hus, <- Hrel in *. by apply Nat.ltb_lt.
  - by apply Nat.ltb_lt.
  - by apply Nat.ltb_lt.
  - rewrite forallb_forall in He. by apply IH, He, list_elem_of_In.
  - rewrite forallb_forall in He. by apply IH, He, list_elem_of_In.
  - apply andb_true_iff in He as [? _]. auto.
  - apply andb_true_iff in He as [_ ?]. auto.
Qed.

Lemma schema_ranked_spec defs o rel o' rel' :
  schema_ranked defs = true → leads_to defs rels o rel o' rel' → f rel' < f rel.
Proof.
  intros Hs (e & (t & rd & _ & (ns & Hns & _ & Hrd & <-) & ->) & Hc).
  unfold schema_ranked in Hs. rewrite forallb_forall in Hs. apply list_elem_of_In in Hns, Hrd.
  specialize (Hs ns Hns). rewrite forallb_forall in Hs. specialize (Hs rd Hrd).
  by eapply expr_ranked_calls.
Qed.
End rank_check.

(** ** Compiled schemas *)

(** What the evaluator relies on of the compiled schema it is given. *)
Record schema_good (cs : CompiledSchema) : Prop := {
  sg_resolver : resolver_new (cs_definitions cs) = Ok (cs_resolver cs);
  sg_compiled t rel rd : declares (cs_definitions cs) t rel rd →
    relation_compiled (cs_definitions cs) t rd rd
}.

Lemma from_definitions_good defs cs : from_definitions defs = Ok cs → schema_good cs.
Proof.
  intros Hcs. pose proof (from_definitions_steps _ _ Hcs) as (r & _ & _ & _ & Hr').
  split; [done|]. intros t rel rd Hrd.
  destruct (declares_compiled _ _ _ _ _ Hcs Hrd) as [rd0 H0].
  destruct (compiled_declares _ _ _ _ _ Hcs H0) as (rd' & Hd & H1 & H2 & H3 & H4 & H5).
  rewrite (declares_unique Hr' _ _ _ _ Hrd Hd). split_and!; try done. by rewrite H3.
Qed.

(** Compilation keeps the meaning: the rewrites of the compiled definitions are
    those of the source. *)
Lemma rewrites_to_compiled defs cs o rel e :
  from_definitions defs = Ok cs →
  rewrites_to (cs_definitions cs) o rel e ↔ rewrites_to defs o rel e.
Proof.
  intros Hcs. pose proof (from_definitions_steps _ _ Hcs) as (r & Hr & _ & _ & Hr').
  split; intros (t & rd & Ht & Hd & ->).
  - destruct (declares_compiled _ _ _ _ _ Hcs Hd) as [rd0 H0].
    destruct (compiled_declares _ _ _ _ _ Hcs H0) as (rd' & Hd' & _ & _ & H3 & _).
    rewrite (declares_unique Hr' _ _ _ _ Hd Hd'), H3. by exists t, rd0.
  - destruct (compiled_declares _ _ _ _ _ Hcs Hd) as (rd' & Hd' & _ & _ & H3 & _).
    rewrite <- H3. by exists t, rd'.
Qed.

Lemma step_source defs cs rels u P Q o rel :
  from_definitions defs = Ok cs →
  step (cs_definitions cs) rels u P Q o rel ↔ step defs rels u P Q o rel.
Proof. intros Hcs. unfold step. by setoid_rewrite (rewrites_to_compiled defs cs o rel _ Hcs). Qed.

Lemma member_source defs cs rels u o rel :
  from_definitions defs = Ok cs →
  member (cs_definitions cs) rels u o rel ↔ member defs rels u o rel.
Proof.
  intros Hcs.
  assert (∀ n o rel, member_n (cs_definitions cs) rels u n o rel ↔ member_n defs rels u n o rel) as Hn.
  { induction n as [|n IH]; [done|]. intros o' rel'. simpl. rewrite (step_source _ _ _ _ _ _ _ _ Hcs).
    split; intros (e & He & Hs); exists e; (split; [done|]);
      (eapply sat_mono; [| |exact Hs]; intros o'' rel'' _; apply IH). }
  unfold member. by setoid_rewrite Hn.
Qed.
