(* ===== verification/EvalSound.v ===== *)
(** * The evaluator computes the semantics

    Rules for the pieces of a check, from the row loops up to a whole check, and
    the induction on depth that ties the recursion. The lower and upper bounds of
    a result, the invariant of the stack and the allowed errors are parameters;
    [EvalProps] instantiates them. *)

From S2P Require Import Prelude Model Domain Revision Schema StoreTypes StoreQuery Store StoreView.
From S2P Require Import EvalContext Eval EvalReads EvalInv EvalSpec.

(** A result between a lower and an upper bound. *)
Definition post (lo hi : Prop) (m : Membership) : Prop :=
  (m = Allowed → hi) ∧ (lo → m = Allowed) ∧ m ≠ Conditional.

Lemma post_denied (lo hi : Prop) : ¬ lo → post lo hi Denied.
Proof. by intros ?; split_and!. Qed.

Lemma post_allowed (lo hi : Prop) : hi → post lo hi Allowed.
Proof. by intros ?; split_and!. Qed.

Lemma post_impl (lo lo' hi hi' : Prop) m :
  (lo' → lo) → (hi → hi') → post lo hi m → post lo' hi' m.
Proof. intros ?? (? & ? & ?). split_and!; auto. Qed.

(** Results are decided, so that the lower bound may be used up to double
    negation. *)
Lemma post_stable (lo lo' hi hi' : Prop) m :
  (lo' → ¬ ¬ lo) → (hi → hi') → post lo hi m → post lo' hi' m.
Proof.
  intros Hlo Hhi (Ha & Hl & Hc). split_and!; [auto| |done].
  intros H'. destruct (decide (m = Allowed)) as [|Hm]; [done|]. destruct (Hlo H'). auto.
Qed.

#[export] Instance post_proper : Proper (iff ==> iff ==> pointwise_relation _ iff) post.
Proof. intros lo lo' Hl hi hi' Hh m. unfold post. by rewrite Hl, Hh. Qed.

#[export] Instance post_proper_at : Proper (iff ==> iff ==> eq ==> iff) post.
Proof. intros lo lo' Hl hi hi' Hh m ? <-. by apply post_proper. Qed.

Lemma post_union (a b a' b' : Prop) m m' :
  post a b m → post a' b' m' → post (a ∨ a') (b ∨ b') (m_union m m').
Proof. destruct m, m'; unfold post; simpl; naive_solver. Qed.

Lemma post_intersection (a b a' b' : Prop) m m' :
  post a b m → post a' b' m' → post (a ∧ a') (b ∧ b') (m_intersection m m').
Proof. destruct m, m'; unfold post; simpl; naive_solver. Qed.

Lemma post_exclusion (a b a' b' : Prop) m m' :
  post a b m → post a' b' m' → post (a ∧ ¬ b') (b ∧ ¬ a') (m_exclusion m m').
Proof. destruct m, m'; unfold post; simpl; naive_solver. Qed.

#[export] Hint Resolve post_union post_intersection post_exclusion : zz.

(** Which entry may be taken for a relation. *)
Definition entry_ok (cs : CompiledSchema) (entry : CheckEntry) (o : Object) (rel : RelationName)
    : Prop :=
  match entry with
  | ByName => True
  | ById rid => ∃ t rd, as_str t = namespace o ∧ declares (cs_definitions cs) t rel rd ∧
                        relation_by_id (cs_resolver cs) rid = Some rd
  | Plain => ∃ t rd, as_str t = namespace o ∧ declares (cs_definitions cs) t rel rd ∧
                     rd_userset_rewrite rd = None
  end.

Definition rows_of (rels : list Relationship) (o : Object) (rel : RelationName)
    : list Relationship :=
  filter (λ r, object_of_ref (resource r) = o ∧ relation r = rel) rels.

(** The members some row grants, of a list of rows. *)
Definition some_row (rs : list Relationship) (P : Members) : Prop :=
  ∃ r o' rel', r ∈ rs ∧ userset_of (subject r) = Some (o', rel') ∧ P o' rel'.

#[export] Instance some_row_proper : Proper ((≡ₚ) ==> eq ==> iff) some_row.
Proof. intros rs rs' Hp P ? <-. unfold some_row. by setoid_rewrite Hp. Qed.

Lemma some_row_cons r rs P :
  some_row (r :: rs) P ↔
  (∃ o' rel', userset_of (subject r) = Some (o', rel') ∧ P o' rel') ∨ some_row rs P.
Proof.
  unfold some_row. setoid_rewrite elem_of_cons. naive_solver.
Qed.

Lemma granted_rows rels o rel s :
  granted rels o rel s ↔ ∃ r, r ∈ rows_of rels o rel ∧ subject r = s.
Proof.
  unfold granted, rows_of. setoid_rewrite list_elem_of_filter. naive_solver.
Qed.

(** [some_row], on the rows of a relation. *)
Lemma some_row_granted rels o rel P :
  some_row (rows_of rels o rel) P ↔
  ∃ s o' rel', granted rels o rel s ∧ userset_of s = Some (o', rel') ∧ P o' rel'.
Proof.
  unfold some_row. setoid_rewrite granted_rows. naive_solver.
Qed.

Section sound.
Context `{Hasher}.
Variable snapshot : PublishedSnapshot.
Variable rels : list Relationship.
Context `{Hreads : !ReadsAs (snapshot_relationships snapshot) rels}.
Hypothesis Hschema : schema_good (snapshot_schema snapshot).
Variable u : User.
Variable limits : EvaluationLimits.
Variable G : CheckMemoKey → Membership → Prop.
Variable E : ZanzibarError → Prop.

Abbreviation evals := (EvalInv.evals G E).
Abbreviation keeps := (EvalInv.keeps G).
Abbreviation defs := (cs_definitions (snapshot_schema snapshot)).

(** The errors [E] allows in evaluating the relations of [o]. *)
Record may_fail (o : Object) : Prop := {
  mf_object e : object_ref_of_object o = Err e → E (ZDomain e);
  mf_user e : subject_filter_of_user u = Err e → E (ZDomain e);
  mf_fanout rel : (nz_get (max_fanout_per_step limits) < Z.of_nat (length (rows_of rels o rel)))%Z →
    E (ZEvaluation (FanoutExceeded (max_fanout_per_step limits)))
}.

(** ** Loops over rows *)

Section base.
Variable c0 : EvaluationContext.
Hypothesis Hsnap : ctx_snapshot c0 = snapshot.
Hypothesis Hlim : ctx_limits c0 = limits.

Lemma keeps_snapshot c : keeps c0 c → ctx_snapshot c = snapshot.
Proof. intros [[] _ _]. congruence. Qed.

Lemma keeps_limits c : keeps c0 c → ctx_limits c = limits.
Proof. intros [[] _ _]. congruence. Qed.

Lemma evals_userset_loop (L U : Members) check items rs :
  Forall2 ref_denotes items rs →
  (∀ r o' rel' c, r ∈ rs → userset_of (subject r) = Some (o', rel') → keeps c0 c →
     evals c (check o' rel') (post (L o' rel') (U o' rel'))) →
  ∀ fanout c, keeps c0 c →
  (0 ≤ fanout ≤ nz_get (max_fanout_per_step limits))%Z →
  ((nz_get (max_fanout_per_step limits) < fanout + Z.of_nat (length rs))%Z →
   E (ZEvaluation (FanoutExceeded (max_fanout_per_step limits)))) →
  evals c (userset_loop check fanout items) (post (some_row rs L) (some_row rs U)).
Proof.
  induction 1 as [|x r items rs Hx _ IH]; intros Hcheck fanout c Hc Hn Hfan; simpl.
  - apply evals_ret; [apply Hc..|]. apply post_denied. by intros (? & ? & ? & ?%not_elem_of_nil & _).
  - eapply evals_bind; [apply (evals_lift G E c _ (λ t, t = userset_of (subject r)));
      [apply Hc..| |]|].
    + intros t. rewrite (subject_userset_denotes _ _ Hx). by intros [= <-].
    + intros z. by rewrite (subject_userset_denotes _ _ Hx).
    + intros t c1 Hc1 ->. pose proof (keeps_trans _ _ _ _ Hc Hc1) as Hc1'.
      assert (∀ fanout c, keeps c0 c → (0 ≤ fanout ≤ nz_get (max_fanout_per_step limits))%Z →
        ((nz_get (max_fanout_per_step limits) < fanout + Z.of_nat (length rs))%Z →
         E (ZEvaluation (FanoutExceeded (max_fanout_per_step limits)))) →
        evals c (userset_loop check fanout items) (post (some_row rs L) (some_row rs U))) as Hrest.
      { apply IH. intros. eapply Hcheck; [by right|done..]. }
      cbn [length] in Hfan.
      destruct (userset_of (subject r)) as [[o' rel']|] eqn:Eu.
      2:{ eapply evals_mono; [apply Hrest; [done|done|]|].
          - intros Hlt. apply Hfan. lia.
          - intros m. apply post_impl; rewrite some_row_cons, Eu; naive_solver. }
      eapply evals_bind; [apply evals_fanout; [apply Hc1..| |]; rewrite (keeps_limits _ Hc1')|].
      { lia. } { intros ? _. apply Hfan. lia. }
      intros fanout' c2 Hc2 (Hf1 & Hf2 & Hf3). rewrite (keeps_limits _ Hc1') in Hf2.
      pose proof (keeps_trans _ _ _ _ Hc1' Hc2) as Hc2'.
      eapply evals_bind; [eapply Hcheck; [by left|done|done]|].
      intros m c3 Hc3 Hm. pose proof (keeps_trans _ _ _ _ Hc2' Hc3) as Hc3'.
      destruct m; simpl.
      * apply evals_ret; [apply Hc3'..|]. apply post_allowed. rewrite some_row_cons, Eu. left.
        exists o', rel'. split; [done|]. by apply Hm.
      * eapply evals_mono; [apply Hrest; [done|lia|]|].
        { intros Hlt. apply Hfan. lia. }
        intros m. apply post_impl; rewrite some_row_cons, Eu; [|naive_solver].
        intros [(? & ? & [= <- <-] & HL)|?]; [|done]. by apply Hm in HL.
      * by destruct Hm as (_ & _ & []).
Qed.

Lemma rows_of_items res rel c o :
  keeps c0 c → object_of_ref res = o →
  ∃ rs, Forall2 ref_denotes (relation_items c res rel unbounded_query_limit) rs ∧
        rs ≡ₚ rows_of rels o rel.
Proof.
  intros Hc <-. unfold relation_items. rewrite (keeps_snapshot _ Hc).
  destruct (reads_all res rel) as (rs & Hi & Hp).
  exists rs. split; [exact Hi|]. rewrite Hp. unfold rows_of. apply reflexive_eq, filter_ext_in. intros r _. simpl. unfold on_resource.
  rewrite andb_true_iff, !bool_decide_eq_true. split.
  - by intros [-> ->].
  - by intros [->%object_of_ref_inj ->].
Qed.

(** ** [This] *)

Lemma evals_this (L U L' U' : Members) (check : Object → RelationName → User → Eval Membership)
    o rel c :
  may_fail o → keeps c0 c →
  (∀ o' rel' c, calls rels o rel This o' rel' → keeps c0 c →
     evals c (check o' rel' u) (post (L o' rel') (U o' rel'))) →
  evals c (eval_this check o rel u) (post (sat rels u L L' o rel This) (sat rels u U U' o rel This)).
Proof.
  intros Hf Hc Hcheck. unfold eval_this.
  eapply (evals_bind G E c).
  { apply (evals_lift_err G E ZDomain c _ (λ res, object_of_ref res = o)); [apply Hc..| |apply Hf].
    intros res. apply object_ref_of_object_Ok. }
  intros res c1 Hc1 Hres. pose proof (keeps_trans _ _ _ _ Hc Hc1) as Hc1'.
  eapply evals_bind.
  { apply (evals_lift_err G E ZDomain c1 _ (λ f, subject_filter_of_user u = Ok f));
      [apply Hc1..|done|apply Hf]. }
  intros f c2 Hc2 Hu. pose proof (keeps_trans _ _ _ _ Hc1' Hc2) as Hc2'.
  rewrite (keeps_snapshot _ Hc), (reads_direct res rel u f Hu).
  assert (existsb (on_resource_subject res rel f) rels = true ↔
    ∃ s, granted rels o rel s ∧ names_user u s) as Hdirect.
  { rewrite existsb_exists. unfold granted, on_resource_subject, on_resource.
    split.
    - intros (r & Hr%list_elem_of_In & [[Ho Hr']%andb_true_iff Hn]%andb_true_iff).
      apply bool_decide_eq_true in Ho as <-, Hr' as <-.
      exists (subject r). split; [by exists r|]. by apply (subject_filter_names u f _ Hu).
    - rewrite <- Hres. intros (s & (r & Hr & Ho%object_of_ref_inj & <- & <-) & Hn). exists r.
      split; [by apply list_elem_of_In|]. rewrite !bool_decide_eq_true_2 by done.
      by apply (subject_filter_names u f _ Hu). }
  destruct (rows_of_items res rel c o Hc Hres) as (rs & Hitems & Hperm).
  destruct (existsb (on_resource_subject res rel f) rels) eqn:Eb.
  - apply evals_ret; [apply Hc2..|]. apply post_allowed. left. by apply Hdirect.
  - eapply evals_mono.
    + eapply (evals_userset_loop L U (λ o rel, check o rel u) _ rs).
      * exact Hitems.
      * intros r o' rel' c3 Hr Hus Hc3. apply Hcheck; [|done].
        apply (calls_this _ _ _ (subject r)); [|done]. apply granted_rows. rewrite Hperm in Hr. eauto.
      * done.
      * pose proof (nz_range (max_fanout_per_step limits)). lia.
      * rewrite Hperm. simpl. apply Hf.
    + intros m. apply post_impl; rewrite Hperm, some_row_granted; simpl.
      * intros [Hs%Hdirect|?]; done.
      * by right.
Qed.

(** ** [TupleToUserset] *)

Lemma evals_tuple_to_userset (L U L' U' : Members) check o rel tupleset computed c :
  may_fail o → keeps c0 c →
  (∀ o' c, calls rels o rel (TupleToUserset tupleset computed) o' computed → keeps c0 c →
     evals c (check o' computed u) (post (L o' computed) (U o' computed))) →
  evals c (eval_tuple_to_userset check o u tupleset computed)
    (post (sat rels u L L' o rel (TupleToUserset tupleset computed))
       (sat rels u U U' o rel (TupleToUserset tupleset computed))).
Proof.
  intros Hf Hc Hcheck. unfold eval_tuple_to_userset.
  eapply (evals_bind G E c).
  { apply (evals_lift_err G E ZDomain c _ (λ res, object_of_ref res = o)); [apply Hc..| |apply Hf].
    intros res. apply object_ref_of_object_Ok. }
  intros res c1 Hc1 Hres. pose proof (keeps_trans _ _ _ _ Hc Hc1) as Hc1'.
  destruct (rows_of_items res tupleset c o Hc Hres) as (rs & Hitems & Hperm).
  eapply evals_mono.
  - eapply (evals_userset_loop (λ o' _, L o' computed) (λ o' _, U o' computed)
      (λ o _, check o computed u) _ rs).
    + exact Hitems.
    + intros r o' rel' c3 Hr Hus Hc3. apply Hcheck; [|done].
      apply (calls_tuple _ _ _ _ _ (subject r) _ rel'); [|done]. apply granted_rows. rewrite Hperm in Hr. eauto.
    + done.
    + pose proof (nz_range (max_fanout_per_step limits)). lia.
    + rewrite Hperm. simpl. apply Hf.
  - intros m. by apply post_impl; rewrite Hperm, some_row_granted.
Qed.

(** ** Set operations *)

Section operands.
Variable ev : CompiledUsersetExpression → Eval Membership.
Variables lo hi : UsersetExpression → Prop.

Definition operand_ok (e : CompiledUsersetExpression) : Prop :=
  ∀ c, keeps c0 c → evals c (ev e) (post (lo (erase e)) (hi (erase e))).

Lemma evals_union es : Forall operand_ok es → ∀ acc (a b : Prop) c, keeps c0 c → post a b acc →
  evals c (eval_union ev acc es)
    (post (a ∨ any_of lo (erase <$> es)) (b ∨ any_of hi (erase <$> es))).
Proof.
  induction 1 as [|e es He _ IH]; intros acc a b c Hc Hacc; simpl.
  - apply evals_ret; [apply Hc..|]. by rewrite !(right_id False or).
  - eapply evals_bind; [by apply He|]. intros m c1 Hc1 Hm.
    pose proof (keeps_trans _ _ _ _ Hc Hc1) as Hc1'.
    pose proof (post_union _ _ _ _ _ _ Hacc Hm) as Hu.
    rewrite !(assoc or). case_decide as Hd.
    + apply evals_ret; [apply Hc1'..|]. rewrite Hd in *. apply post_allowed. left. by apply Hu.
    + by apply IH.
Qed.

Lemma evals_intersection es : Forall operand_ok es →
  ∀ acc (a b : Prop) c, keeps c0 c → post a b acc →
  evals c (eval_intersection ev acc es)
    (post (a ∧ all_of lo (erase <$> es)) (b ∧ all_of hi (erase <$> es))).
Proof.
  induction 1 as [|e es He _ IH]; intros acc a b c Hc Hacc; simpl.
  - apply evals_ret; [apply Hc..|]. by rewrite !(right_id True and).
  - eapply evals_bind; [by apply He|]. intros m c1 Hc1 Hm.
    pose proof (keeps_trans _ _ _ _ Hc Hc1) as Hc1'.
    pose proof (post_intersection _ _ _ _ _ _ Hacc Hm) as Hu.
    rewrite !(assoc and). case_decide as Hd.
    + apply evals_ret; [apply Hc1'..|]. rewrite Hd in *. apply post_denied.
      intros [Ha _]. destruct Hu as (_ & Hu & _). by specialize (Hu Ha).
    + by apply IH.
Qed.
End operands.

(** ** Expressions *)

Section recursion.
Variable rec : CheckEntry → Object → RelationName → User → Eval Membership.
Variables L U : Members.

Abbreviation by_id := (λ o rel rid, rec (ById rid) o rel).

Definition calls_ok (o : Object) (rel : RelationName) (e : UsersetExpression) : Prop :=
  ∀ entry o' rel' c, keeps c0 c → entry_ok (snapshot_schema snapshot) entry o' rel' →
    calls rels o rel e o' rel' → evals c (rec entry o' rel' u) (post (L o' rel') (U o' rel')).

Lemma calls_ok_sub o rel e e' :
  (∀ o' rel', calls rels o rel e o' rel' → calls rels o rel e' o' rel') →
  calls_ok o rel e' → calls_ok o rel e.
Proof. intros He Hrec entry o' rel' c Hc Hk Hcall. apply Hrec; auto. Qed.

Lemma evals_relation_of_id t rid rel rd c :
  keeps c0 c → id_denotes defs rid t rel rd →
  evals c (relation_of_id rid) (λ rd', rd' = rd).
Proof.
  intros Hc Hid. apply (id_denotes_spec (sg_resolver _ Hschema)) in Hid as [Hid _].
  apply (evals_from G E c _ (lift (Ok rd))).
  - unfold relation_of_id. by rewrite (keeps_snapshot _ Hc), Hid.
  - apply evals_lift; [apply Hc..| |done]. by intros a [= <-].
Qed.

Lemma evals_computed o rel rel' rid (h : bool) t c :
  as_str t = namespace o → (∃ rd, id_denotes defs rid t rel' rd ∧ h = has_rewrite rd) →
  calls_ok o rel (ComputedUserset rel') → keeps c0 c →
  evals c (eval_expression (rec ByName) by_id (rec Plain) o rel u (CComputedUserset rel' rid h))
    (post (L o rel') (U o rel')).
Proof.
  intros Ht (rd & Hid & ->) Hrec Hc. simpl.
  apply (id_denotes_spec (sg_resolver _ Hschema)) in Hid as [Hid Hd].
  destruct (has_rewrite rd) eqn:Eh; simpl; (apply Hrec; [done| |constructor]).
  - exists t, rd. done.
  - exists t, rd. split_and!; [done|done|]. apply bool_decide_eq_false in Eh.
    by apply eq_None_not_Some.
Qed.

Lemma evals_exclusion o rel b x c :
  let ev := eval_expression (rec ByName) by_id (rec Plain) o rel u in
  operand_ok ev (sat rels u L U o rel) (sat rels u U L o rel) b →
  operand_ok ev (sat rels u L U o rel) (sat rels u U L o rel) x → keeps c0 c →
  evals c (ev (CExclusion b x))
    (post (sat rels u L U o rel (erase (CExclusion b x)))
       (sat rels u U L o rel (erase (CExclusion b x)))).
Proof.
  intros ev Hb Hx Hc. subst ev. cbn [eval_expression erase sat].
  destruct (should_eval_exclude_first x).
  - eapply evals_bind; [by apply Hx|]. intros mx c1 Hc1 Hmx.
    pose proof (keeps_trans _ _ _ _ Hc Hc1) as Hc1'. case_decide as Hd.
    + rewrite Hd in *. apply evals_ret; [apply Hc1'..|]. apply post_denied. intros [_ Hn].
      apply Hn. by apply Hmx.
    + eapply evals_bind; [by apply Hb|]. intros mb c2 Hc2 Hmb.
      pose proof (keeps_trans _ _ _ _ Hc1' Hc2) as Hc2'.
      apply evals_ret; [apply Hc2'..|]. by apply post_exclusion.
  - eapply evals_bind; [by apply Hb|]. intros mb c1 Hc1 Hmb.
    pose proof (keeps_trans _ _ _ _ Hc Hc1) as Hc1'. case_decide as Hd.
    + rewrite Hd in *. apply evals_ret; [apply Hc1'..|]. apply post_denied. intros [Hl _].
      destruct Hmb as (_ & Hl' & _). by specialize (Hl' Hl).
    + eapply evals_bind; [by apply Hx|]. intros mx c2 Hc2 Hmx.
      pose proof (keeps_trans _ _ _ _ Hc1' Hc2) as Hc2'.
      apply evals_ret; [apply Hc2'..|]. by apply post_exclusion.
Qed.

(** An expression whose references resolve is evaluated to its meaning. *)
Lemma evals_expression o rel t e : as_str t = namespace o → may_fail o →
  refs_ok defs t e → calls_ok o rel (erase e) →
  operand_ok (eval_expression (rec ByName) by_id (rec Plain) o rel u)
    (sat rels u L U o rel) (sat rels u U L o rel) e.
Proof.
  intros Ht Hf.
  induction e as [|rel' rid h|ts rid cm|es IH|es IH|b x IHb IHx] using compiled_induction;
    intros Hrefs Hrec c Hc.
  - apply evals_this; [done..|]. intros o' rel' c' Hcall Hc'. by apply Hrec.
  - by eapply evals_computed.
  - destruct Hrefs as (rd & Hid). simpl.
    eapply evals_bind; [by apply (evals_relation_of_id t rid ts rd)|].
    intros rd' c1 Hc1 ->. pose proof (keeps_trans _ _ _ _ Hc Hc1) as Hc1'.
    destruct Hid as (ns & _ & _ & _ & ->).
    eapply (evals_tuple_to_userset L U U L); [done..|]. intros o' c' Hcall Hc'. by apply Hrec.
  - simpl in Hrefs. rewrite all_of_Forall in Hrefs. simpl.
    eapply evals_mono; [eapply (evals_union _ (sat rels u L U o rel) (sat rels u U L o rel) es)|].
    + rewrite Forall_forall in *. intros e He. apply IH; [done|by apply Hrefs|].
      eapply calls_ok_sub; [|exact Hrec]. intros o' rel' Hcall. simpl. eapply calls_union; [|done].
      apply list_elem_of_fmap. by exists e.
    + done.
    + apply (post_denied False False). tauto.
    + intros m. apply post_impl; naive_solver.
  - simpl in Hrefs. rewrite all_of_Forall in Hrefs. simpl.
    eapply evals_mono;
      [eapply (evals_intersection _ (sat rels u L U o rel) (sat rels u U L o rel) es)|].
    + rewrite Forall_forall in *. intros e He. apply IH; [done|by apply Hrefs|].
      eapply calls_ok_sub; [|exact Hrec]. intros o' rel' Hcall. simpl.
      eapply calls_intersection; [|done]. apply list_elem_of_fmap. by exists e.
    + done.
    + apply (post_allowed True True). done.
    + intros m. apply post_impl; naive_solver.
  - destruct Hrefs as [Hb Hx]. apply evals_exclusion; [apply IHb|apply IHx|done]; try done.
    + eapply calls_ok_sub; [|exact Hrec]. intros o' rel' Hcall. simpl. by apply calls_base.
    + eapply calls_ok_sub; [|exact Hrec]. intros o' rel' Hcall. simpl. by apply calls_exclude.
Qed.

(** ** Definitions *)

Lemma rewrites_to_unique o rel rd t e :
  as_str t = namespace o → declares defs t rel rd → rewrites_to defs o rel e →
  e = default This (rd_userset_rewrite rd).
Proof.
  intros Ht Hd (t' & rd' & Ht' & Hd' & ->).
  assert (t' = t) as -> by (apply ident_eq; congruence).
  by rewrite (declares_unique (sg_resolver _ Hschema) _ _ _ _ Hd Hd').
Qed.

Lemma evals_declared (m : Eval Membership) o rel rd t c :
  as_str t = namespace o → declares defs t rel rd →
  let e := default This (rd_userset_rewrite rd) in
  evals c m (post (sat rels u L U o rel e) (sat rels u U L o rel e)) →
  evals c m (post (step defs rels u L U o rel) (step defs rels u U L o rel)).
Proof.
  intros Ht Hd e Hm. eapply evals_mono; [exact Hm|]. intros m'. apply post_impl.
  - intros (e' & He & Hs). by rewrite (rewrites_to_unique _ _ _ _ _ Ht Hd He) in Hs.
  - intros Hs. exists e. split; [|done]. by exists t, rd.
Qed.

Definition node_calls_ok (o : Object) (rel : RelationName) : Prop :=
  ∀ e, rewrites_to defs o rel e → calls_ok o rel e.

Lemma evals_definition o rel rd t c :
  as_str t = namespace o → declares defs t rel rd → may_fail o → node_calls_ok o rel →
  keeps c0 c →
  evals c (eval_definition (rec ByName) by_id (rec Plain) o rel u rd)
    (post (step defs rels u L U o rel) (step defs rels u U L o rel)).
Proof.
  intros Ht Hd Hf Hrec Hc. apply (evals_declared _ o rel rd t); [done..|].
  assert (calls_ok o rel (default This (rd_userset_rewrite rd))) as Hrec'
    by (apply Hrec; by exists t, rd).
  destruct (sg_compiled _ Hschema _ _ _ Hd) as (_ & _ & _ & Her & Hrefs).
  unfold eval_definition. rewrite Her in *.
  destruct (rd_compiled_userset_rewrite rd) as [e|]; simpl in *.
  - apply (evals_expression o rel t e); auto.
  - apply (evals_this L U U L); [done..|]. intros o' rel' c' Hcall Hc'. by apply Hrec'.
Qed.

(** The errors of looking the relation up. *)
Record lookup_fails (o : Object) (rel : RelationName) : Prop := {
  lf_namespace e : ident_new KObjectType (namespace o) = Err e → E (ZDomain e);
  lf_relation t e : as_str t = namespace o →
    resolver_relation (cs_resolver (snapshot_schema snapshot)) t rel = Err e → E (ZSchema e)
}.

Abbreviation define := (eval_definition (rec ByName) by_id (rec Plain)).

Lemma evals_namespace o rel c :
  lookup_fails o rel → keeps c0 c →
  evals c (lift_domain (ident_new KObjectType (namespace o))) (λ t, as_str t = namespace o).
Proof.
  intros Hl Hc. apply (evals_lift_err G E ZDomain); [apply Hc..| |apply Hl].
  by intros t <-%ident_new_Ok.
Qed.

Lemma evals_relation o rel t c :
  may_fail o → lookup_fails o rel → node_calls_ok o rel → keeps c0 c → as_str t = namespace o →
  evals c (let! rd := relation_of_name t rel in define o rel u rd)
    (post (step defs rels u L U o rel) (step defs rels u U L o rel)).
Proof.
  intros Hf Hl Hrec Hc Ht.
  eapply (evals_bind G E c _ _ (λ rd, declares defs t rel rd)).
  { eapply evals_from; [unfold relation_of_name; by rewrite (keeps_snapshot _ Hc)|].
    apply (evals_lift_err G E ZSchema); [apply Hc..| |].
    - intros rd. apply (resolver_relation_Ok (sg_resolver _ Hschema)).
    - intros e. by apply Hl. }
  intros rd c2 Hc2 Hd. apply (evals_definition o rel rd t); try done. by eapply keeps_trans.
Qed.

Lemma evals_by_name o rel c :
  may_fail o → lookup_fails o rel → node_calls_ok o rel → keeps c0 c →
  evals c (check_relation_name_entered (rec ByName) by_id (rec Plain) o rel u)
    (post (step defs rels u L U o rel) (step defs rels u U L o rel)).
Proof.
  intros Hf Hl Hrec Hc. eapply evals_bind; [by apply (evals_namespace o rel)|].
  intros t c1 Hc1 Ht. apply evals_relation; try done. by eapply keeps_trans.
Qed.

(** The same, for a relation given as text. *)
Lemma evals_by_text o rel c :
  may_fail o → lookup_fails o rel → node_calls_ok o rel → keeps c0 c →
  evals c
    (let! t := lift_domain (ident_new KObjectType (namespace o)) in
     let! rel := lift_domain (relation_name_of (mkRelation (as_str rel))) in
     let! rd := relation_of_name t rel in define o rel u rd)
    (post (step defs rels u L U o rel) (step defs rels u U L o rel)).
Proof.
  intros Hf Hl Hrec Hc. eapply evals_bind; [by apply (evals_namespace o rel)|].
  intros t c1 Hc1 Ht. pose proof (keeps_trans _ _ _ _ Hc Hc1) as Hc1'.
  eapply (evals_bind G E c1 _ _ (λ rel', rel' = rel)).
  - rewrite relation_name_of_as_str.
    apply (evals_lift_err G E ZDomain c1 (Ok rel)); [apply Hc1..| |done]. by intros a [= <-].
  - intros rel' c2 Hc2 ->. apply evals_relation; try done. by eapply keeps_trans.
Qed.
End recursion.
End base.

(** ** The recursion *)

Abbreviation node := (Object * RelationName)%type.

Definition memo_question (mk : CheckMemoKey) (o : Object) (rel : RelationName) : Prop :=
  ∃ key, key_question snapshot key o rel u ∧ memo_key_from_check_key key = Ok mk.

Lemma key_question_memo key o rel :
  key_question snapshot key o rel u → ∃ mk, memo_key_from_check_key key = Ok mk.
Proof.
  unfold check_key_from_relation_name, check_key_new.
  intros [-> | ->]; unfold check_key_from_relation_name, check_key_new;
    destruct (view_store_check_key _ _ _ _); simpl; [eauto..|].
  cbn [memo_key_from_check_key]. rewrite relation_name_of_as_str. simpl. eauto.
Qed.

(** A context in the middle of a check: the nodes on the stack, and the depth
    they leave of [D]. *)
Record stacked (D : Z) (memo : Prop) (c : EvaluationContext) (S : list node) : Prop := {
  sk_snapshot : ctx_snapshot c = snapshot;
  sk_limits : ctx_limits c = limits;
  sk_keys : Forall2 (λ key q, key_question snapshot key q.1 q.2 u) (check_stack c) S;
  sk_depth : (remaining_depth c + Z.of_nat (length S) = D)%Z;
  sk_memo : is_Some (check_memo c) → memo
}.

Lemma stacked_keeps D memo c c' S : stacked D memo c S → keeps c c' → stacked D memo c' S.
Proof.
  intros [H1 H2 H3 H4 H5] [[K1 K2 K3 K4 K5 K6 K7 K8 K9] _ _]. split; try congruence.
  intros Hm. by apply H5, K9.
Qed.

Lemma stacked_entered D memo c c1 S key o rel :
  stacked D memo c S → entered key c c1 → key_question snapshot key o rel u →
  stacked D memo c1 ((o, rel) :: S).
Proof.
  intros [H1 H2 H3 H4 H5] [N1 N2 N3 N4 N5 N6] Hk. split; try congruence.
  - rewrite N4. by constructor.
  - rewrite N3. cbn [length]. lia.
  - by rewrite N6.
Qed.

(** What the bounds of a check's result must satisfy. [Inv] holds of every check
    and the nodes on the stack above it. *)
Record interpretation (D : Z) (memo : Prop) (Inv L : list node → Members) (U : Members) : Prop := {
  it_calls S o rel o' rel' :
    Inv S o rel → leads_to defs rels o rel o' rel' → Inv ((o, rel) :: S) o' rel';
  it_fail S o rel : Inv S o rel → may_fail o;
  it_lookup S o rel : Inv S o rel → lookup_fails o rel;
  it_depth S o rel key : Inv S o rel → (D ≤ Z.of_nat (length S))%Z →
    E (ZEvaluation (DepthExceeded (EvalCheck key)));
  it_cut S o rel : Inv S o rel → (o, rel) ∈ S → ¬ L S o rel;
  it_lower S o rel : Inv S o rel → L S o rel → ¬ ¬ step defs rels u (L ((o, rel) :: S)) U o rel;
  it_upper S o rel : Inv S o rel → step defs rels u U (L ((o, rel) :: S)) o rel → U o rel;
  it_hit S o rel mk m : memo → Inv S o rel → memo_question mk o rel → G mk m →
    post (L S o rel) (U o rel) m;
  it_put S o rel mk m : memo → Inv S o rel → memo_question mk o rel →
    post (L S o rel) (U o rel) m → G mk m
}.

Section interpreted.
Context {D : Z} {memo : Prop} {Inv L : list node → Members} {U : Members}.
Hypothesis Hint : interpretation D memo Inv L U.

Lemma evals_node key body o rel c S :
  stacked D memo c S → context_ok c → memo_good G c → Inv S o rel →
  key_question snapshot key o rel u →
  (∀ c1, keeps c1 c1 → stacked D memo c1 ((o, rel) :: S) →
     remaining_depth c1 = (remaining_depth c - 1)%Z → (0 < remaining_depth c)%Z →
     evals c1 body (post (step defs rels u (L ((o, rel) :: S)) U o rel)
                      (step defs rels u U (L ((o, rel) :: S)) o rel))) →
  evals c (evaluate_check_key key body) (post (L S o rel) (U o rel)).
Proof.
  intros Hst Hc Hm Hi Hk Hbody. destruct (key_question_memo _ _ _ Hk) as [mk Hmk].
  apply evals_check_key; [done|done|..].
  - intros Hin. apply post_denied. apply (it_cut _ _ _ _ _ Hint); [done|].
    pose proof (sk_keys _ _ _ _ Hst) as HF. apply list_elem_of_lookup in Hin as [i Hi'].
    destruct (Forall2_lookup_l _ _ _ _ _ HF Hi') as ([o' rel'] & HS & Hq).
    destruct (key_question_unique _ _ _ _ _ _ _ _ _ Hreads Hk Hq) as (-> & -> & _).
    by eapply list_elem_of_lookup_2.
  - intros mm mk' m _ Hmm Hmk' HG. assert (memo) by (apply (sk_memo _ _ _ _ Hst); eauto).
    apply (it_hit _ _ _ _ _ Hint S o rel mk'); [done|done|by exists key|done].
  - intros mm mk' m _ Hmm Hmk' HG. assert (memo) by (apply (sk_memo _ _ _ _ Hst); eauto).
    by apply (it_put _ _ _ _ _ Hint S o rel mk'); [..|exists key|].
  - intros z Hz. congruence.
  - intros Hz. apply (it_depth _ _ _ _ _ Hint S o rel); [done|].
    pose proof (sk_depth _ _ _ _ Hst). lia.
  - intros Hni Hpos c1 Hc1 Hm1 Hen. eapply evals_mono.
    + apply Hbody; [by apply keeps_refl| |apply Hen|done]. by eapply stacked_entered.
    + intros m. apply post_stable; [by apply (it_lower _ _ _ _ _ Hint)|].
      by apply (it_upper _ _ _ _ _ Hint).
Qed.

(** The induction on depth. *)
Definition entries_ok (fuel : nat) : Prop := ∀ entry o rel c S,
  stacked D memo c S → context_ok c → memo_good G c → Inv S o rel →
  entry_ok (snapshot_schema snapshot) entry o rel → (remaining_depth c < Z.of_nat fuel)%Z →
  evals c (check_entry fuel entry o rel u) (post (L S o rel) (U o rel)).

Lemma node_calls fuel c1 o rel S :
  entries_ok fuel → stacked D memo c1 ((o, rel) :: S) → Inv S o rel →
  (remaining_depth c1 < Z.of_nat fuel)%Z →
  node_calls_ok c1 (check_entry fuel) (L ((o, rel) :: S)) U o rel.
Proof.
  intros IH Hst1 Hi Hd e Hrw entry' o' rel' c' Hc' He' Hcall.
  apply IH; [by eapply stacked_keeps|apply Hc'..| |done|].
  - apply (it_calls _ _ _ _ _ Hint); [done|]. by exists e.
  - destruct Hc' as [[] _ _]. lia.
Qed.

Lemma evals_entry fuel : entries_ok fuel.
Proof.
  induction fuel as [|fuel IH]; intros entry o rel c S Hst Hc Hm Hi He Hd.
  { pose proof (co_depth _ Hc). lia. }
  eapply evals_from; [reflexivity|]. cbn [check_entry]. eapply evals_node; [done..| |].
  { left. by rewrite (sk_snapshot _ _ _ _ Hst). }
  intros c1 Hc1 Hst1 Hd1 Hpos.
  assert (node_calls_ok c1 (check_entry fuel) (L ((o, rel) :: S)) U o rel) as Hrec
    by (apply node_calls; [done..|lia]).
  pose proof (sk_snapshot _ _ _ _ Hst1) as Hs1. pose proof (sk_limits _ _ _ _ Hst1) as Hl1.
  pose proof (it_fail _ _ _ _ _ Hint _ _ _ Hi) as Hf.
  destruct entry as [|rid|].
  - apply (evals_by_name c1 Hs1 Hl1 (check_entry fuel)); [done| |done|done].
    by eapply (it_lookup _ _ _ _ _ Hint).
  - destruct He as (t & rd & Ht & Hdec & Hid). unfold check_relation_id_entered.
    eapply (evals_bind G E c1 _ _ (λ rd', rd' = rd)).
    + apply (evals_from G E c1 _ (lift (Ok rd))).
      * unfold relation_of_id. by rewrite Hs1, Hid.
      * apply evals_lift; [apply Hc1..| |done]. by intros a [= <-].
    + intros rd' c2 Hc2 ->.
      apply (evals_definition c1 Hs1 Hl1 (check_entry fuel) _ _ o rel rd t); done.
  - destruct He as (t & rd & Ht & Hdec & Hnone).
    apply (evals_declared _ _ _ o rel rd t); [done..|]. rewrite Hnone.
    apply (evals_this c1 Hs1 Hl1 (L ((o, rel) :: S)) U); [done..|].
    intros o' rel' c' Hcall Hc'. apply (Hrec This); [|done..]. exists t, rd. by rewrite Hnone.
Qed.

(** Checks from the outside. *)
Lemma evals_check fuel o rel c S :
  stacked D memo c S → context_ok c → memo_good G c → Inv S o rel →
  (remaining_depth c ≤ Z.of_nat fuel)%Z →
  evals c (check fuel o (mkRelation (as_str rel)) u) (post (L S o rel) (U o rel)).
Proof.
  intros Hst Hc Hm Hi Hd. eapply evals_from; [reflexivity|]. cbn [check].
  eapply evals_node; [done..| |].
  { right. by rewrite (sk_snapshot _ _ _ _ Hst). }
  intros c1 Hc1 Hst1 Hd1 Hpos.
  apply (evals_by_text c1 (sk_snapshot _ _ _ _ Hst1) (sk_limits _ _ _ _ Hst1) (check_entry fuel));
    [by eapply (it_fail _ _ _ _ _ Hint)|by eapply (it_lookup _ _ _ _ _ Hint)| |done].
  apply node_calls; [apply evals_entry|done|done|]. lia.
Qed.

Lemma evals_check_prepared fuel o rel rd t c S :
  stacked D memo c S → context_ok c → memo_good G c → Inv S o rel →
  as_str t = namespace o → declares defs t rel rd → (remaining_depth c ≤ Z.of_nat fuel)%Z →
  evals c (check_prepared fuel o (mkRelation (as_str rel)) u rd) (post (L S o rel) (U o rel)).
Proof.
  intros Hst Hc Hm Hi Ht Hdec Hd. eapply evals_from; [reflexivity|]. cbn [check_prepared].
  eapply evals_node; [done..| |].
  { right. by rewrite (sk_snapshot _ _ _ _ Hst). }
  intros c1 Hc1 Hst1 Hd1 Hpos. assert (rd_name rd = rel) as -> by (by destruct Hdec as (? & _ & _ & _ & ?)).
  apply (evals_definition c1 (sk_snapshot _ _ _ _ Hst1) (sk_limits _ _ _ _ Hst1) (check_entry fuel)
    _ _ o rel rd t); [done|done|by eapply (it_fail _ _ _ _ _ Hint)| |done].
  apply node_calls; [apply evals_entry|done|done|]. lia.
Qed.
End interpreted.
End sound.
