(* ===== verification/EvalProps.v ===== *)
(** * Properties of the evaluator

    Termination and the frame of an evaluation, the table of active keys, the
    request memo, and the correctness of checks: on schemas without exclusion,
    whatever the cycles of the data, and on well-founded data, whatever the
    schema. *)

From S2P Require Import Prelude Model Domain Revision Schema StoreTypes Store StoreView ViewSpec.
From S2P Require Import ViewProps EvalContext Eval EvalReads EvalInv EvalTotal EvalSpec EvalSound.

Section properties.
Context `{Hasher}.

(** What is known of a memo when nothing is claimed of it. *)
Lemma returned_any {A} n (m : Eval A) c :
  runs_within any_memo n m → context_ok c → (remaining_depth c ≤ Z.of_nat n)%Z →
  returned c (m c).1 (m c).2.
Proof. intros Hm Hc Hd. by apply (within_returned any_memo n m c). Qed.

Abbreviation check_runs := (within_check any_memo (λ _ _, I)).
Abbreviation prepared_runs := (within_check_prepared any_memo (λ _ _, I)).
Abbreviation expand_runs := (within_expand any_memo).

(** ** Contexts *)

Abbreviation fuel_of c := (eval_fuel (ctx_limits c)).

(** The contexts a request goes through. *)
Inductive context_reachable : EvaluationContext → Prop :=
| creach_new snapshot limits : context_reachable (context_new snapshot limits)
| creach_memo snapshot limits : context_reachable (context_new_with_request_memo snapshot limits)
| creach_reset c : context_reachable c → context_reachable (reset_for_reuse c)
| creach_check c o rel u : context_reachable c →
    context_reachable (check (fuel_of c) o rel u c).2
| creach_prepared c o rel u rd : context_reachable c →
    context_reachable (check_prepared (fuel_of c) o rel u rd c).2
| creach_expand c o rel : context_reachable c →
    context_reachable (expand (S (fuel_of c)) o rel c).2.

(** Between two evaluations. *)
Record idle (c : EvaluationContext) : Prop := {
  idle_depth : remaining_depth c = nz_get (max_depth (ctx_limits c));
  idle_checks : check_stack c = [];
  idle_expands : expand_stack c = [];
  idle_frames : check_frames c = []
}.

Lemma returned_idle {A} c (res : result EvalStop A) c' : returned c res c' → idle c → idle c'.
Proof.
  intros [_ [_ Hl _ _ Hd Hc He Hf _] _] [Id Ic Ie If]. split; try congruence.
  apply nil_length_inv. by rewrite Hf, If.
Qed.

Lemma idle_fuel c : idle c → (remaining_depth c ≤ Z.of_nat (fuel_of c))%Z.
Proof. intros []. unfold eval_fuel. lia. Qed.

Lemma context_reachable_ok c : context_reachable c → context_ok c ∧ idle c.
Proof.
  induction 1 as [snapshot limits|snapshot limits|c _ [IH1 IH2]|c o rel u _ [IH1 IH2]
                 |c o rel u rd _ [IH1 IH2]|c o rel _ [IH1 IH2]].
  - split; [apply context_ok_new|done].
  - split; [apply context_ok_new_memo|done].
  - split; [by apply context_ok_next|]. unfold reset_for_reuse.
    by destruct (checked_add _ _ _).
  - pose proof (returned_any _ _ c (check_runs (fuel_of c) o rel u) IH1 (idle_fuel _ IH2))
      as Hr. split; [apply Hr|]. by eapply returned_idle.
  - pose proof (returned_any _ _ c (prepared_runs (fuel_of c) o rel u rd) IH1
      (idle_fuel _ IH2)) as Hr. split; [apply Hr|]. by eapply returned_idle.
  - pose proof (returned_any _ _ c (expand_runs (fuel_of c) o rel) IH1 (idle_fuel _ IH2))
      as Hr. split; [apply Hr|]. by eapply returned_idle.
Qed.

Lemma evaluations_ok c o rel u rd :
  context_reachable c →
  (let '(res, c') := check (fuel_of c) o rel u c in returned c res c' ∧ idle c') ∧
  (let '(res, c') := check_prepared (fuel_of c) o rel u rd c in returned c res c' ∧ idle c') ∧
  (let '(res, c') := expand (S (fuel_of c)) o rel c in returned c res c' ∧ idle c').
Proof.
  intros [Hc Hi]%context_reachable_ok. pose proof (idle_fuel _ Hi) as Hf.
  pose proof (returned_any _ _ c (check_runs (fuel_of c) o rel u) Hc Hf) as H1.
  pose proof (returned_any _ _ c (prepared_runs (fuel_of c) o rel u rd) Hc Hf) as H2.
  pose proof (returned_any _ _ c (expand_runs (fuel_of c) o rel) Hc Hf) as H3.
  destruct (check _ o rel u c), (check_prepared _ o rel u rd c), (expand _ o rel c).
  simpl in *. split_and!; eauto using returned_idle.
Qed.

(** C18: whatever the schema and the relationships, cycles included, a check or
    an expansion returns within the depth limit, without running out of fuel;
    on success and on every error it leaves the depth, both stacks, the frames
    and the active-key tables as it found them. *)
Theorem evaluations_return c o rel u rd :
  context_reachable c →
  (let '(res, c') := check (fuel_of c) o rel u c in returned c res c' ∧ idle c') ∧
  (let '(res, c') := check_prepared (fuel_of c) o rel u rd c in returned c res c' ∧ idle c') ∧
  (let '(res, c') := expand (S (fuel_of c)) o rel c in returned c res c' ∧ idle c').
Proof. apply evaluations_ok. Qed.

(** ** Active keys *)

(** The pushes and pops an evaluation makes, and the reuse of a context. *)
Inductive tracks : EvaluationContext → Prop :=
| tracks_new snapshot limits : tracks (context_new snapshot limits)
| tracks_push_check key c : tracks c → is_check_active c key = false → tracks (push_check_key key c)
| tracks_pop_check c : tracks c → tracks (pop_check_key c)
| tracks_push_expand key c : tracks c → is_expand_active c key = false →
    tracks (push_expand_key key c)
| tracks_pop_expand c : tracks c → tracks (pop_expand_key c)
| tracks_reset c : tracks c → tracks (reset_for_reuse c).

Definition tables_ok (c : EvaluationContext) : Prop :=
  marks_ok (generation c) (use_active_indexes c) (active_checks c) (check_stack c) ∧
  marks_ok (generation c) (use_active_indexes c) (active_expands c) (expand_stack c).

Lemma is_check_active_spec c key : tables_ok c →
  is_check_active c key = bool_decide (key ∈ check_stack c).
Proof. intros [Hc _]. by apply (is_active_spec _ _ _ _ _ Hc). Qed.

Lemma is_expand_active_spec c key : tables_ok c →
  is_expand_active c key = bool_decide (key ∈ expand_stack c).
Proof. intros [_ He]. by apply (is_active_spec _ _ _ _ _ He). Qed.

Lemma tables_ok_pop_check c : tables_ok c → tables_ok (pop_check_key c).
Proof.
  intros [Hc He]. unfold pop_check_key. destruct (check_stack c) as [|key stack] eqn:Es.
  - split; simpl; [exact Hc|exact He].
  - split; simpl; [by apply (pop_key_ok _ _ _ _ _ Hc)|exact He].
Qed.

Lemma tables_ok_pop_expand c : tables_ok c → tables_ok (pop_expand_key c).
Proof.
  intros [Hc He]. unfold pop_expand_key. destruct (expand_stack c) as [|key stack] eqn:Es.
  - split; simpl; [exact Hc|exact He].
  - split; simpl; [exact Hc|by apply (pop_key_ok _ _ _ _ _ He)].
Qed.

Lemma tables_ok_reset c : tables_ok c → tables_ok (reset_for_reuse c).
Proof.
  intros [Hc He]. unfold reset_for_reuse, checked_add.
  destruct (_ <=? _)%Z; split; simpl;
    first [by eapply marks_ok_next|apply marks_ok_empty].
Qed.

Lemma tracks_ok c : tracks c → tables_ok c.
Proof.
  induction 1 as [snapshot limits|key c _ IH Hk|c _ IH|key c _ IH Hk|c _ IH|c _ IH].
  - split; apply marks_ok_empty.
  - rewrite is_check_active_spec in Hk by done. apply bool_decide_eq_false in Hk.
    destruct IH as [Hc He]. split; [by apply (push_key_ok _ _ key _ _ Hc Hk)|exact He].
  - by apply tables_ok_pop_check.
  - rewrite is_expand_active_spec in Hk by done. apply bool_decide_eq_false in Hk.
    destruct IH as [Hc He]. split; [exact Hc|by apply (push_key_ok _ _ key _ _ He Hk)].
  - by apply tables_ok_pop_expand.
  - by apply tables_ok_reset.
Qed.

(** the table of active keys answers as a scan of the stack would: through
    pushes, pops, the threshold at which the table takes over from the scan, the
    reuse of a context without clearing its table and the wrap of the generation
    counter, a key is active exactly when it is on the stack. *)
Theorem active_keys_agree c : tracks c →
  (∀ key, is_check_active c key = bool_decide (key ∈ check_stack c)) ∧
  (∀ key, is_expand_active c key = bool_decide (key ∈ expand_stack c)) ∧
  NoDup (check_stack c) ∧ NoDup (expand_stack c).
Proof.
  intros Hok%tracks_ok. split_and!.
  - intros key. by apply is_check_active_spec.
  - intros key. by apply is_expand_active_spec.
  - apply (mk_nodup _ _ _ _ (proj1 Hok)).
  - apply (mk_nodup _ _ _ _ (proj2 Hok)).
Qed.

(** ** The request memo *)

(** The memo after some insertions, the last one first. *)
Definition memo_after (limits : EvaluationLimits) (puts : list (CheckMemoKey * Membership * Z))
    : RequestCheckMemo :=
  foldr (λ p memo, memo_put p.1.1 p.1.2 p.2 memo) (memo_new limits) puts.

Lemma memo_put_entry k m d memo k' e :
  memo_entries (memo_put k m d memo) !! k' = Some e →
  memo_entries memo !! k' = Some e ∨ (k' = k ∧ e = mkMemoEntry m d).
Proof.
  unfold memo_put.
  assert (memo_entries (mkMemo (<[k:=mkMemoEntry m d]> (memo_entries memo)) (memo_bound memo)) !! k'
    = Some e → memo_entries memo !! k' = Some e ∨ (k' = k ∧ e = mkMemoEntry m d)) as Hins.
  { simpl. intros [[<- <-]|[_ ?]]%lookup_insert_Some; auto. }
  destruct (memo_entries memo !! k); [destruct (_ <=? _)%Z|destruct (Nat.leb _ _)]; auto.
Qed.

Lemma memo_put_bound k m d memo :
  memo_bound (memo_put k m d memo) = memo_bound memo ∧
  (size (memo_entries memo) ≤ memo_bound memo →
   size (memo_entries (memo_put k m d memo)) ≤ memo_bound memo).
Proof.
  unfold memo_put. destruct (memo_entries memo !! k) as [e|] eqn:Ek.
  - destruct (_ <=? _)%Z; [|done]. split; [done|]. simpl.
    by rewrite map_size_insert_Some.
  - destruct (Nat.leb_spec (memo_bound memo) (size (memo_entries memo))); [done|].
    split; [done|]. simpl. rewrite map_size_insert_None by done. lia.
Qed.

(** the memo holds at most its capacity, which is between 128 and 16384
    whatever the limits, and a hit is the result of an earlier insertion under
    that key that required no more depth than the caller has left. *)
Theorem memo_bounded_hits limits puts k d m :
  let memo := memo_after limits puts in
  (128 ≤ Z.of_nat (memo_bound memo) ≤ 16384)%Z ∧ size (memo_entries memo) ≤ memo_bound memo ∧
  (memo_get memo k d = Hit m → ∃ required, (k, m, required) ∈ puts ∧ (required ≤ d)%Z).
Proof.
  assert (let memo := memo_after limits puts in
    memo_bound memo = memo_capacity limits ∧ size (memo_entries memo) ≤ memo_capacity limits ∧
    ∀ k e, memo_entries memo !! k = Some e →
           (k, entry_membership e, entry_depth_required e) ∈ puts) as (Hb & Hs & Hin).
  { simpl. induction puts as [|[[k1 m1] d1] puts (Hb & Hs & Hin)]; simpl.
    - split; [done|]. split; [rewrite map_size_empty; lia|]. intros k0 e. by rewrite lookup_empty.
    - destruct (memo_put_bound k1 m1 d1 (memo_after limits puts)) as [Hb' Hs'].
      rewrite Hb', Hb. split; [done|]. split; [rewrite Hb in Hs'; auto|].
      intros k0 e [He|[-> ->]]%memo_put_entry; [right; by apply Hin|by left]. }
  simpl. rewrite Hb. split; [|split; [done|]].
  - unfold memo_capacity, clamp. lia.
  - unfold memo_get. destruct (memo_entries _ !! k) as [e|] eqn:Ek; [|done].
    destruct (Z.leb_spec (entry_depth_required e) d); [|done]. intros [= <-].
    exists (entry_depth_required e). split; [by apply Hin|done].
Qed.
End properties.

(** ** Concrete inputs *)

Module ContextExample.
Export ViewExample.

Definition snapshot : PublishedSnapshot :=
  mkSnapshot revision_first (@mkByteArray 32 (repeat 0%Z 32) I) ∅ SchemaExample.compiled view.

Definition readme : Object := mkObject "doc" "readme".
Definition fresh : EvaluationContext := context_new_with_request_memo snapshot limits_default.
Definition reused : EvaluationContext :=
  reset_for_reuse (check 50 readme (mkRelation "viewer") (UserId "alice") fresh).2.

Definition key (i : string) : CheckKey :=
  KPublic (mkObject "doc" i) (mkRelation "viewer") (UserId "alice").

(** A reused context nine checks deep: past the threshold of the table. *)
Definition deep : EvaluationContext :=
  foldr (λ i, push_check_key (key i)) (reset_for_reuse (context_new snapshot limits_default))
    ["i"; "h"; "g"; "f"; "e"; "d"; "c"; "b"; "a"].

Lemma deep_ok : tracks deep.
Proof. repeat (apply tracks_push_check; [|vm_compute; reflexivity]). repeat constructor. Qed.
End ContextExample.
Import ContextExample.

Lemma evaluations_return_witness :
  context_reachable reused ∧
  idle (check (eval_fuel (ctx_limits reused)) readme (mkRelation "viewer") (UserId "bob") reused).2.
Proof.
  assert (context_reachable reused) as Hr.
  { apply creach_reset. apply (creach_check fresh readme (mkRelation "viewer") (UserId "alice")).
    apply creach_memo. }
  split; [exact Hr|].
  destruct (evaluations_return reused readme (mkRelation "viewer") (UserId "bob")
    (relation_definition_new SchemaExample.viewer None) Hr) as (Hc & _ & _).
  revert Hc. destruct (check _ _ _ _ reused) as [res c']. intros [_ Hi]. exact Hi.
Defined.

Lemma active_keys_agree_witness :
  tracks deep ∧ is_check_active deep (key "a") = true ∧ is_check_active deep (key "z") = false.
Proof.
  split; [exact deep_ok|].
  destruct (active_keys_agree deep deep_ok) as (Hk & _).
  rewrite (Hk (key "a")), (Hk (key "z")). split; vm_compute; reflexivity.
Defined.
