(* ===== verification/CheckProps.v ===== *)
(** * Correctness of checks

    What a check of a published snapshot answers: on schemas without exclusion,
    the least reading of the schema, whatever cycles the relationships form; on
    well-founded data, the reading of any schema, in every context of a request,
    request memo included. And when a check fails. *)

From S2P Require Import Prelude Model Domain Revision Schema StoreTypes Store StoreProps StoreView ViewSpec.
From S2P Require Import ViewProps EvalContext Eval EvalReads EvalInv EvalTotal EvalSpec EvalSound.
From S2P Require Import EvalProps.

(** A snapshot of compiled [defs] whose deleted rows still in the overlay do not
    hide a user from the direct check. *)
Record serves `{Hasher} (snapshot : PublishedSnapshot) (defs : list NamespaceDefinition) : Prop := {
  sv_schema : from_definitions defs = Ok (snapshot_schema snapshot);
  sv_view : view_reachable (snapshot_relationships snapshot);
  sv_tombstones : tombstones_apart (snapshot_relationships snapshot)
}.

Abbreviation rels_of snapshot := (view_rows (snapshot_relationships snapshot)).

Section correctness.
Context `{Hasher}.
Variable snapshot : PublishedSnapshot.
Variable defs : list NamespaceDefinition.
Hypothesis Hserves : serves snapshot defs.

#[local] Instance snapshot_reads : ReadsAs (snapshot_relationships snapshot) (rels_of snapshot).
Proof. apply view_reads; apply Hserves. Qed.

Lemma serves_good : schema_good (snapshot_schema snapshot).
Proof. eapply from_definitions_good, Hserves. Qed.

Abbreviation cdefs := (cs_definitions (snapshot_schema snapshot)).
Abbreviation rels := (rels_of snapshot).

Lemma step_compiled u P Q o rel : step cdefs rels u P Q o rel ↔ step defs rels u P Q o rel.
Proof. apply step_source, (sv_schema _ _ Hserves). Qed.

Lemma leads_to_compiled o rel o' rel' :
  leads_to cdefs rels o rel o' rel' ↔ leads_to defs rels o rel o' rel'.
Proof.
  unfold leads_to. by setoid_rewrite (rewrites_to_compiled defs (snapshot_schema snapshot) o rel _
    (sv_schema _ _ Hserves)).
Qed.

(** What a whole check gives, from a context between evaluations. *)
Lemma check_post u limits G E memo Inv L U c o rel :
  interpretation snapshot rels u limits G E (nz_get (max_depth limits)) memo Inv L U →
  context_ok c → idle c → memo_good G c → ctx_snapshot c = snapshot → ctx_limits c = limits →
  (is_Some (check_memo c) → memo) → Inv [] o rel →
  evals G E c (check (eval_fuel limits) o (mkRelation (as_str rel)) u) (post (L [] o rel) (U o rel)).
Proof.
  intros Hint Hc [] Hm Hs Hl Hmemo Hi.
  eapply (evals_check snapshot rels serves_good u limits G E Hint); [|done|done|done|].
  - split; [done|done| | |done].
    + rewrite idle_checks. constructor.
    + rewrite idle_depth, Hl. simpl. lia.
  - rewrite idle_depth, Hl. unfold eval_fuel. lia.
Qed.

(** ** Schemas without exclusion *)

(** A relation that belongs at some stage at which no relation on the stack
    does. *)
Definition before (u : User) (S : list (Object * RelationName)) : Members := λ o rel,
  ∃ n, member_n cdefs rels u n o rel ∧ ∀ q, q ∈ S → ¬ member_n cdefs rels u n q.1 q.2.

Lemma before_step u S o rel : positive_schema cdefs → before u S o rel →
  ¬ ¬ step cdefs rels u (before u ((o, rel) :: S)) (member cdefs rels u) o rel.
Proof.
  intros Hpos (n & Hn & HS). induction n as [|n IH]; [done|]. intros Hno.
  assert (∀ q, q ∈ S → ¬ member_n cdefs rels u n q.1 q.2) as HS'.
  { intros q Hq Hm. exact (HS q Hq (member_n_S _ _ _ _ Hpos _ _ Hm)). }
  assert (¬ ¬ (member_n cdefs rels u n o rel ∨ ¬ member_n cdefs rels u n o rel)) as Hem by tauto.
  apply Hem. intros [Hm|Hm]; [by apply IH|]. apply Hno.
  apply (step_positive _ _ _ _ (member_n cdefs rels u n) _ Hpos).
  refine (step_mono _ _ _ _ _ _ Hpos _ _ _ Hn). intros o' rel' Hm'. exists n. split; [done|]. intros q [->|Hq]%elem_of_cons; [done|by apply HS'].
Qed.

Lemma positive_interpretation u limits : positive_schema cdefs →
  interpretation snapshot rels u limits any_memo any_error (nz_get (max_depth limits)) False
    (λ _ _ _, True) (before u) (member cdefs rels u).
Proof.
  intros Hpos. split; try done.
  - intros S o rel _ Hin (n & Hn & HS). by destruct (HS _ Hin).
  - intros S o rel _ Hb. by apply before_step.
  - intros S o rel _ Hs. apply (member_reading _ _ _ Hpos o rel).
    exact (step_positive _ _ _ _ _ _ Hpos _ _ Hs).
Qed.

Lemma member_compiled u o rel : member cdefs rels u o rel ↔ member defs rels u o rel.
Proof. apply member_source, (sv_schema _ _ Hserves). Qed.

Lemma positive_compiled : positive_schema defs ↔ positive_schema cdefs.
Proof.
  unfold positive_schema. by setoid_rewrite (rewrites_to_compiled defs (snapshot_schema snapshot) _ _ _
    (sv_schema _ _ Hserves)).
Qed.

(** ** Entries that skip lookups *)

Lemma check_key_ext key e1 e2 c :
  (∀ c', ctx_snapshot c' = ctx_snapshot c → e1 c' = e2 c') →
  evaluate_check_key key e1 c = evaluate_check_key key e2 c.
Proof.
  intros He. unfold evaluate_check_key, enter.
  destruct (is_check_active c key); [done|].
  set (el := bool_decide (is_Some (check_memo c)) && _).
  destruct (if el then memo_lookup c key else Ok None) as [[m|]|e]; [done| |done].
  destruct (remaining_depth c =? 0)%Z; [done|].
  destruct (record_depth_set (saturating_sub (remaining_depth c) 1) c) as (Hs & _).
  rewrite He; [done|]. by destruct el.
Qed.

Lemma declared_lookups o rel t rd c :
  ctx_snapshot c = snapshot → as_str t = namespace o →
  resolver_relation (cs_resolver (snapshot_schema snapshot)) t rel = Ok rd →
  lift_domain (ident_new KObjectType (namespace o)) c = (Ok t, c) ∧
  relation_of_name t rel c = (Ok rd, c) ∧ rd_name rd = rel.
Proof.
  intros Hs <- Hr. rewrite ident_new_as_str. unfold relation_of_name. rewrite Hs, Hr.
  split_and!; [done|done|]. apply (resolver_relation_Ok (sg_resolver _ serves_good)) in Hr.
  by destruct Hr as (ns & _ & _ & _ & ->).
Qed.

Lemma prepared_agrees fuel o rel u t rd c :
  ctx_snapshot c = snapshot → as_str t = namespace o →
  resolver_relation (cs_resolver (snapshot_schema snapshot)) t rel = Ok rd →
  check_prepared fuel o (mkRelation (as_str rel)) u rd c =
  check fuel o (mkRelation (as_str rel)) u c.
Proof.
  intros Hs Ht Hr. unfold check_prepared, check. apply check_key_ext. intros c' Hs'.
  destruct (declared_lookups o rel t rd c') as (H1 & H2 & H3); [congruence|done|done|].
  assert (lift_domain (relation_name_of (mkRelation (as_str rel))) c' = (Ok rel, c')) as H4
    by (by rewrite relation_name_of_as_str).
  unfold check_entered, st_bind. by rewrite H1, H4, H2, H3.
Qed.

Lemma entry_agrees fuel entry o rel u c :
  ctx_snapshot c = snapshot → (∃ t rd, as_str t = namespace o ∧ declares cdefs t rel rd) →
  entry_ok (snapshot_schema snapshot) entry o rel →
  check_entry fuel entry o rel u c = check_entry fuel ByName o rel u c.
Proof.
  intros Hs (t & rd & Ht & Hd) He. destruct fuel as [|fuel]; [done|]. rewrite !check_entry_S.
  apply check_key_ext. intros c' Hs'.
  pose proof (proj2 (resolver_relation_Ok (sg_resolver _ serves_good) t rel rd) Hd) as Hr.
  destruct (declared_lookups o rel t rd c') as (H1 & H2 & H3); [congruence|done|done|].
  destruct (sg_compiled _ serves_good _ _ _ Hd) as (_ & _ & _ & Her & _).
  unfold check_relation_name_entered, st_bind. rewrite H1, H2.
  assert (∀ t' rd', as_str t' = namespace o → declares cdefs t' rel rd' → rd' = rd) as Huniq.
  { intros t' rd' Ht' Hd'. assert (t' = t) as -> by (apply ident_eq; congruence).
    by apply (declares_unique (sg_resolver _ serves_good) _ _ _ _ Hd' Hd). }
  destruct entry as [|rid|].
  - by rewrite H1, H2.
  - destruct He as (t' & rd' & Ht' & Hd' & Hid). rewrite (Huniq _ _ Ht' Hd') in Hid.
    unfold check_relation_id_entered, st_bind, relation_of_id. by rewrite Hs', Hs, Hid.
  - destruct He as (t' & rd' & Ht' & Hd' & Hnone). rewrite (Huniq _ _ Ht' Hd') in Hnone.
    unfold eval_definition. rewrite Hnone in Her.
    by destruct (rd_compiled_userset_rewrite rd).
Qed.

(** ** Well-founded data *)

Lemma memo_question_shape u mk o rel :
  memo_question snapshot u mk o rel →
  match mk with
  | MStore k => view_store_check_key (snapshot_relationships snapshot) o (as_str rel) u = Some k
  | MPublic o' rel' u' => o = o' ∧ rel = rel' ∧ u = u'
  end.
Proof.
  unfold memo_question, key_question, check_key_from_relation_name, check_key_new.
  intros (key & Hk & Hmk). simpl in Hk.
  destruct (view_store_check_key _ o (as_str rel) u) as [k|] eqn:E.
  - destruct Hk as [-> | ->]; simpl in Hmk; by injection Hmk as <-.
  - destruct Hk as [-> | ->]; simpl in Hmk; [by injection Hmk as <-|].
    rewrite relation_name_of_as_str in Hmk.
    by injection Hmk as <-.
Qed.

Lemma memo_question_unique u mk o rel u' o' rel' :
  memo_question snapshot u mk o rel → memo_question snapshot u' mk o' rel' →
  u = u' ∧ o = o' ∧ rel = rel'.
Proof.
  intros H1%memo_question_shape H2%memo_question_shape. destruct mk as [k|a b d].
  - destruct (reads_keys _ _ _ _ _ _ _ H1 H2) as (-> & Hr & ->).
    split_and!; [done|done|]. by apply ident_eq.
  - naive_solver.
Qed.

Section well_founded.
Variable rank : Object → RelationName → nat.
Hypothesis Hrank : ∀ o rel o' rel', leads_to defs rels o rel o' rel' → rank o' rel' < rank o rel.
Variable M : User → Members.
Hypothesis HM : ∀ u, reading defs rels u (M u).

(** A memo entry that is right. *)
Definition right_entry (mk : CheckMemoKey) (m : Membership) : Prop :=
  ∀ u o rel, memo_question snapshot u mk o rel → post (M u o rel) (M u o rel) m.

Definition below (S : list (Object * RelationName)) : Members := λ o rel,
  ∀ q, q ∈ S → rank o rel < rank q.1 q.2.

Lemma ranked_interpretation u limits E D (extra : list (Object * RelationName) → Members) :
  (∀ S o rel o' rel', extra S o rel → leads_to cdefs rels o rel o' rel' →
     rank o' rel' < rank o rel → extra ((o, rel) :: S) o' rel') →
  (∀ S o rel, extra S o rel → may_fail rels u limits E o) →
  (∀ S o rel, extra S o rel → lookup_fails snapshot E o rel) →
  (∀ S o rel key, extra S o rel → (D ≤ Z.of_nat (length S))%Z →
     E (ZEvaluation (DepthExceeded (EvalCheck key)))) →
  interpretation snapshot rels u limits right_entry E D True
    (λ S o rel, below S o rel ∧ extra S o rel) (λ _, M u) (M u).
Proof.
  intros Hcalls Hfail Hlookup Hdepth. split.
  - intros S o rel o' rel' [Hb He] Hl. pose proof Hl as Hl'. apply leads_to_compiled in Hl'.
    apply Hrank in Hl'. split; [|by eapply Hcalls].
    intros q [->|Hq]%elem_of_cons; [done|]. specialize (Hb q Hq). lia.
  - intros S o rel [_ He]. by eapply Hfail.
  - intros S o rel [_ He]. by eapply Hlookup.
  - intros S o rel key [_ He]. by eapply Hdepth.
  - intros S o rel [Hb _] Hin. specialize (Hb _ Hin). simpl in Hb. lia.
  - intros S o rel _ Hm Hno. by apply Hno, step_compiled, HM.
  - intros S o rel _ Hs. by apply HM, step_compiled.
  - intros S o rel mk m _ _ Hq Hg. by apply Hg.
  - intros S o rel mk m _ _ Hq Hp u' o' rel' Hq'.
    destruct (memo_question_unique _ _ _ _ _ _ _ Hq Hq') as (<- & <- & <-). done.
Qed.

Lemma ranked_any u limits :
  interpretation snapshot rels u limits right_entry any_error (nz_get (max_depth limits)) True
    (λ S o rel, below S o rel ∧ True) (λ _, M u) (M u).
Proof. by apply ranked_interpretation. Qed.

(** The contexts of one request. *)
Inductive request : EvaluationContext → Prop :=
| req_new limits : request (context_new snapshot limits)
| req_memo limits : request (context_new_with_request_memo snapshot limits)
| req_reset c : request c → request (reset_for_reuse c)
| req_check c o (rel : RelationName) u : request c →
    request (check (eval_fuel (ctx_limits c)) o (mkRelation (as_str rel)) u c).2
| req_prepared c o (rel : RelationName) u (t : ObjectType) rd : request c → as_str t = namespace o →
    resolver_relation (cs_resolver (snapshot_schema snapshot)) t rel = Ok rd →
    request (check_prepared (eval_fuel (ctx_limits c)) o (mkRelation (as_str rel)) u rd c).2
| req_expand c o rel : request c → request (expand (S (eval_fuel (ctx_limits c))) o rel c).2.

Lemma request_reachable c : request c → context_reachable c.
Proof. induction 1; by constructor. Qed.

Lemma wf_check c o (rel : RelationName) u :
  context_ok c → idle c → memo_good right_entry c → ctx_snapshot c = snapshot →
  evals right_entry any_error c
    (check (eval_fuel (ctx_limits c)) o (mkRelation (as_str rel)) u)
    (post (M u o rel) (M u o rel)).
Proof.
  intros Hc Hi Hm Hs. apply (check_post u _ _ _ _ _ _ _ c o rel (ranked_any u (ctx_limits c)));
    try done. split; [|done]. by intros q ?%not_elem_of_nil.
Qed.

Lemma request_ok c : request c →
  context_ok c ∧ idle c ∧ ctx_snapshot c = snapshot ∧ memo_good right_entry c.
Proof.
  intros Hr. pose proof (context_reachable_ok c (request_reachable c Hr)) as [Hc Hi].
  split; [done|]. split; [done|]. clear Hi Hc.
  assert (∀ c o (rel : RelationName) u, request c → ctx_snapshot c = snapshot ∧ memo_good right_entry c →
    let c' := (check (eval_fuel (ctx_limits c)) o (mkRelation (as_str rel)) u c).2 in
    ctx_snapshot c' = snapshot ∧ memo_good right_entry c') as Hcheck.
  { intros c1 o rel u Hr1 [Hs Hm].
    destruct (context_reachable_ok c1 (request_reachable c1 Hr1)) as [Hc1 Hi1].
    pose proof (wf_check c1 o rel u Hc1 Hi1 Hm Hs) as Hw. unfold evals, wp in Hw.
    destruct (check _ _ _ _ c1) as [[m|e] c']; destruct Hw as [[[] _ Hm'] _]; simpl;
      (split; [congruence|done]). }
  induction Hr as [limits|limits|c Hr IH|c o rel u Hr IH|c o rel u t rd Hr IH Ht Hrd|c o rel Hr IH].
  - done.
  - split; [done|]. intros memo k e [= <-]. simpl. by rewrite lookup_empty.
  - unfold reset_for_reuse. by destruct (checked_add _ _ _).
  - by apply Hcheck.
  - rewrite (prepared_agrees _ _ _ _ t) by (done || apply IH). by apply Hcheck.
  - destruct (context_reachable_ok c (request_reachable c Hr)) as [Hc Hi].
    destruct IH as [Hs Hm].
    destruct (within_returned right_entry _ _ c (within_expand right_entry _ o rel) Hc Hm
      (idle_fuel c Hi)) as [[_ [] _] Hm']. split; [congruence|done].
Qed.
End well_founded.

(** ** Typed data *)

(** Every relation the check can lead to is declared. *)
Definition closed (o : Object) (rel : RelationName) : Prop :=
  ∀ q, rtc (λ p q, leads_to defs rels p.1 p.2 q.1 q.2) (o, rel) q →
       ∃ e, rewrites_to defs q.1 q.2 e.

Definition valid_object (o : Object) : Prop := ∃ r, object_of_ref r = o.

Lemma calls_valid o rel e o' rel' :
  valid_object o → calls rels o rel e o' rel' → valid_object o'.
Proof.
  intros Ho. assert (∀ s o' rel', userset_of s = Some (o', rel') → valid_object o') as Hus.
  { intros [|so srel] ? ?; [done|]. intros [= <- <-]. by exists so. }
  induction 1; eauto.
Qed.

(** What the errors depend on: a check in a typed request. *)
Record typed (u : User) (o : Object) (rel : RelationName) : Prop := {
  ty_object : valid_object o;
  ty_user : is_ok (subject_filter_of_user u) = true;
  ty_closed : closed o rel
}.

Lemma typed_calls u o rel o' rel' : typed u o rel → leads_to defs rels o rel o' rel' →
  typed u o' rel'.
Proof.
  intros [Ho Hu Hc] Hl. split; [|done|].
  - destruct Hl as (e & _ & Hcall). by eapply calls_valid.
  - intros q Hq. apply Hc. by eapply rtc_l; [|exact Hq].
Qed.

Lemma typed_may_fail u limits E o rel : typed u o rel →
  (∀ rel', (nz_get (max_fanout_per_step limits) < Z.of_nat (length (rows_of rels o rel')))%Z →
     E (ZEvaluation (FanoutExceeded (max_fanout_per_step limits)))) →
  may_fail rels u limits E o.
Proof.
  intros [[r Ho] Hu _] Hf. split; [| |done].
  - intros e He. apply object_ref_of_object_Ok in Ho. congruence.
  - intros e He. by rewrite He in Hu.
Qed.

Lemma typed_lookup u E o rel : typed u o rel → lookup_fails snapshot E o rel.
Proof.
  intros [_ _ Hc]. destruct (Hc (o, rel)) as [e He]; [constructor|].
  apply (rewrites_to_compiled _ _ _ _ _ (sv_schema _ _ Hserves)) in He.
  destruct He as (t & rd & Ht & Hd & _). simpl in *. split.
  - intros z. by rewrite <- Ht, ident_new_as_str.
  - intros t' z Ht'. assert (t' = t) as -> by (apply ident_eq; congruence).
    apply (resolver_relation_Ok (sg_resolver _ serves_good)) in Hd. congruence.
Qed.

(** The errors that stay possible on typed data. *)
Definition limit_error (limits : EvaluationLimits) (z : ZanzibarError) : Prop :=
  (∃ key, z = ZEvaluation (DepthExceeded key)) ∨
  z = ZEvaluation (FanoutExceeded (max_fanout_per_step limits)).

Lemma typed_interpretation u limits :
  interpretation snapshot rels u limits any_memo (limit_error limits)
    (nz_get (max_depth limits)) False (λ _, typed u) (λ _ _ _, False) (λ _ _, True).
Proof.
  split; try done.
  - intros S o rel o' rel' Ht Hl. apply leads_to_compiled in Hl. by eapply typed_calls.
  - intros S o rel Ht. eapply typed_may_fail; [done|]. intros _ _. by right.
  - intros S o rel Ht. by eapply typed_lookup.
  - intros S o rel key _ _. left. eauto.
  - by intros S o rel _ _ [].
Qed.

(** The check of a fresh context, from an interpretation without memo. *)
Lemma check_new_post u limits E Inv L U o rel :
  interpretation snapshot rels u limits any_memo E (nz_get (max_depth limits)) False Inv L U →
  Inv [] o rel →
  match check_with_snapshot snapshot o (mkRelation (as_str rel)) u limits with
  | Ok m => post (L [] o rel) (U o rel) m
  | Err e => stops E e
  end.
Proof.
  intros Hint Hi. pose proof (context_reachable_ok _ (creach_new snapshot limits)) as [Hc Hid].
  pose proof (check_post u limits any_memo E _ _ _ _ _ o rel Hint Hc Hid) as Hp.
  unfold check_with_snapshot. unfold evals, wp in Hp.
  destruct (check _ _ _ _ _) as [[m|e] c']; apply Hp; try done; by intros [? ?].
Qed.
End correctness.

Lemma positive_answer `{Hasher} snapshot defs o (rel : RelationName) u limits m :
  serves snapshot defs → positive_schema defs →
  check_with_snapshot snapshot o (mkRelation (as_str rel)) u limits = Ok m →
  m ≠ Conditional ∧ (m = Allowed ↔ member defs (rels_of snapshot) u o rel).
Proof.
  intros Hs Hpos Hm. apply (positive_compiled _ _ Hs) in Hpos.
  pose proof (check_new_post snapshot defs Hs u limits any_error _ _ _ o rel
    (positive_interpretation snapshot u limits Hpos) I) as Hp.
  rewrite Hm in Hp. destruct Hp as (Ha & Hl & Hc). split; [done|].
  rewrite <- (member_compiled _ _ Hs). split; [done|]. intros [n Hn]. apply Hl.
  exists n. split; [done|]. by intros q ?%not_elem_of_nil.
Qed.

Lemma ranked_answer `{Hasher} snapshot defs rank M o (rel : RelationName) u limits m :
  serves snapshot defs →
  (∀ o rel o' rel', leads_to defs (rels_of snapshot) o rel o' rel' → rank o' rel' < rank o rel) →
  (∀ u, reading defs (rels_of snapshot) u (M u)) →
  check_with_snapshot snapshot o (mkRelation (as_str rel)) u limits = Ok m →
  m ≠ Conditional ∧ (m = Allowed ↔ M u o rel).
Proof.
  intros Hs Hrank HM Hm.
  destruct (request_ok snapshot defs Hs rank Hrank M HM _ (req_new _ limits)) as (Hc & Hi & Hsn & Hg).
  pose proof (wf_check snapshot defs Hs rank Hrank M HM _ o rel u Hc Hi Hg Hsn) as Hp.
  unfold check_with_snapshot in Hm. cbn [ctx_limits context_new] in Hp.
  unfold evals, wp in Hp. destruct (check _ _ _ _ _) as [res c']. simpl in Hm. subst res.
  destruct Hp as [_ (? & ? & ?)]. by split.
Qed.

(** ** Properties *)

(** C1: for a snapshot of a compiled schema without exclusion and a reachable view
    in which no deleted relationship still in the checkpoint names the same user as
    a live one on the same resource and relation ([tombstones_apart]), a check that
    answers is exact, whatever cycles the relationships form: it never answers
    [Conditional], and answers [Allowed] exactly for the members of the least
    reading of the source schema over the view's relationships. In particular the
    cut at an active key loses no proof. (Without the condition it can answer
    [Denied] for a member: [view_limit_hides_matches].) *)
Theorem check_positive_correct `{Hasher} snapshot defs o (rel : RelationName) u limits m :
  serves snapshot defs → positive_schema defs →
  check_with_snapshot snapshot o (mkRelation (as_str rel)) u limits = Ok m →
  m ≠ Conditional ∧ (m = Allowed ↔ member defs (rels_of snapshot) u o rel).
Proof. intros Hs Hpos Hm. by apply (positive_answer snapshot defs o rel u limits). Qed.

(** C2: for a snapshot of any compiled schema, exclusions included, and a reachable
    view in which no deleted relationship still in the checkpoint names the same
    user as a live one on the same resource and relation ([tombstones_apart]): on
    well-founded data (a rank falls from each relation to those its rewrite
    consults) and in every context of a request to the snapshot (fresh or reused,
    with or without the request memo, after any checks and expansions), a check that
    answers is exact: it never answers [Conditional], and answers [Allowed] exactly
    when the reading of the schema says so. *)
Theorem check_well_founded_correct `{Hasher} snapshot defs rank M c o (rel : RelationName) u m :
  serves snapshot defs →
  (∀ o rel o' rel', leads_to defs (rels_of snapshot) o rel o' rel' → rank o' rel' < rank o rel) →
  (∀ u, reading defs (rels_of snapshot) u (M u)) →
  request snapshot c →
  (check (eval_fuel (ctx_limits c)) o (mkRelation (as_str rel)) u c).1 = Ok m →
  m ≠ Conditional ∧ (m = Allowed ↔ M u o rel).
Proof.
  intros Hs Hrank HM Hr Hm.
  destruct (request_ok snapshot defs Hs rank Hrank M HM c Hr) as (Hc & Hi & Hsn & Hg).
  pose proof (wf_check snapshot defs Hs rank Hrank M HM c o rel u Hc Hi Hg Hsn) as Hp.
  unfold evals, wp in Hp. destruct (check _ _ _ _ c) as [res c']. simpl in Hm. subst res.
  destruct Hp as [_ (? & ? & ?)]. by split.
Qed.

(** C6: for a snapshot of any compiled schema and a reachable view in which no
    deleted relationship still in the checkpoint names the same user as a live one
    on the same resource and relation ([tombstones_apart]): on well-founded typed
    data (object and user are valid, and every relation the check leads to is
    declared), when the depth limit exceeds the rank of the question and no relation
    of an object has more rows than the fanout limit, a check in a fresh context
    answers, never [Conditional], and [Allowed] exactly when the reading of the
    schema says so. *)
Theorem check_decides `{Hasher} snapshot defs rank M o (rel : RelationName) u limits :
  serves snapshot defs →
  (∀ o rel o' rel', leads_to defs (rels_of snapshot) o rel o' rel' → rank o' rel' < rank o rel) →
  reading defs (rels_of snapshot) u M →
  typed snapshot defs u o rel →
  (Z.of_nat (rank o rel) < nz_get (max_depth limits))%Z →
  (∀ o rel, Z.of_nat (length (rows_of (rels_of snapshot) o rel)) ≤
            nz_get (max_fanout_per_step limits))%Z →
  ∃ m, check_with_snapshot snapshot o (mkRelation (as_str rel)) u limits = Ok m ∧
       m ≠ Conditional ∧ (m = Allowed ↔ M o rel).
Proof.
  intros Hs Hrank HM Ht Hd Hf.
  pose (extra := λ (S : list (Object * RelationName)) o rel,
    typed snapshot defs u o rel ∧
    (Z.of_nat (length S) + Z.of_nat (rank o rel) < nz_get (max_depth limits))%Z).
  assert (interpretation snapshot (rels_of snapshot) u limits any_memo (λ _, False)
    (nz_get (max_depth limits)) False (λ S o rel, below rank S o rel ∧ extra S o rel)
    (λ _, M) M) as Hint.
  { assert (∀ o rel, M o rel ↔ step (cs_definitions (snapshot_schema snapshot))
      (rels_of snapshot) u M M o rel) as HM'.
    { intros o' rel'. rewrite (step_compiled _ _ Hs). apply HM. }
    split; try done.
    - intros S o1 rel1 o2 rel2 [Hb [Ht1 Hd1]] Hl. apply (leads_to_compiled _ _ Hs) in Hl.
      pose proof (Hrank _ _ _ _ Hl). split; [|split].
      + intros q [->|Hq]%elem_of_cons; [done|]. specialize (Hb q Hq). lia.
      + by eapply typed_calls.
      + cbn [length]. lia.
    - intros S o1 rel1 [_ [Ht1 _]]. eapply typed_may_fail; [done|]. intros rel2.
      specialize (Hf o1 rel2). lia.
    - intros S o1 rel1 [_ [Ht1 _]]. by eapply typed_lookup.
    - intros S o1 rel1 key [_ [_ Hd1]]. lia.
    - intros S o1 rel1 [Hb _] Hin. specialize (Hb _ Hin). simpl in Hb. lia.
    - intros S o1 rel1 _ Hm Hno. by apply Hno, HM'.
    - intros S o1 rel1 _. apply HM'. }
  pose proof (check_new_post snapshot defs Hs u limits _ _ _ _ o rel Hint) as Hp.
  destruct (check_with_snapshot _ _ _ _ _) as [m|e].
  - exists m. split; [done|]. destruct Hp as (? & ? & ?); [|by split].
    split; [by intros q ?%not_elem_of_nil|]. split; [done|]. simpl. lia.
  - destruct Hp as (? & _ & []). split; [by intros q ?%not_elem_of_nil|].
    split; [done|]. simpl. lia.
Qed.

(** C19: for a snapshot of any compiled schema and a reachable view in which no
    deleted relationship still in the checkpoint names the same user as a live one
    on the same resource and relation ([tombstones_apart]): on typed data (object
    and user are valid, and every relation the check leads to is declared), cycles
    and exclusions allowed, a check in a fresh context that fails does so with
    [DepthExceeded] or with [FanoutExceeded] of the request's fanout limit. *)
Theorem check_fails_by_limits `{Hasher} snapshot defs o (rel : RelationName) u limits e :
  serves snapshot defs → typed snapshot defs u o rel →
  check_with_snapshot snapshot o (mkRelation (as_str rel)) u limits = Err e →
  (∃ key, e = Stop (ZEvaluation (DepthExceeded key))) ∨
  e = Stop (ZEvaluation (FanoutExceeded (max_fanout_per_step limits))).
Proof.
  intros Hs Ht He.
  pose proof (check_new_post snapshot defs Hs u limits _ _ _ _ o rel
    (typed_interpretation snapshot defs Hs u limits) Ht) as Hp.
  rewrite He in Hp. destruct Hp as (z & -> & [[key ->]| ->]); [left; by exists key|by right].
Qed.

(** the entries that skip a lookup do what a check by name does: by the id
    the compiled expression carries, by the knowledge that the relation has no
    rewrite, and with the definition prepared by the caller; in every context
    they return the same result and leave the same context. *)
Theorem entries_agree `{Hasher} snapshot defs fuel entry o (rel : RelationName) u t rd c :
  serves snapshot defs → ctx_snapshot c = snapshot → as_str t = namespace o →
  resolver_relation (cs_resolver (snapshot_schema snapshot)) t rel = Ok rd →
  (entry_ok (snapshot_schema snapshot) entry o rel →
   check_entry fuel entry o rel u c = check_entry fuel ByName o rel u c) ∧
  check_prepared fuel o (mkRelation (as_str rel)) u rd c =
    check fuel o (mkRelation (as_str rel)) u c.
Proof.
  intros Hs Hc Ht Hr. split.
  - apply (entry_agrees _ _ Hs); [done|]. exists t, rd. split; [done|].
    by apply (resolver_relation_Ok (sg_resolver _ (serves_good _ _ Hs))).
  - by apply (prepared_agrees _ _ Hs _ _ _ _ t).
Qed.

(** ** Concrete inputs

    Every hash collides here. *)

Module CheckExample.
#[export] Existing Instance constant_hasher.

Definition rel (s : string) : RelationName :=
  match ident_new KRelationName s with Ok i => i | Err _ => @mkIdent KRelationName "x" I end.
Definition obj_type (s : string) : ObjectType :=
  match ident_new KObjectType s with Ok i => i | Err _ => @mkIdent KObjectType "x" I end.

Definition rows (l : list string) : list RelationshipMutation :=
  omap (λ s, match relationship_from_str s with Ok r => Some (Create r) | Err _ => None end) l.

Definition schema (defs : list NamespaceDefinition) : CompiledSchema :=
  match from_definitions defs with
  | Ok cs => cs
  | Err _ => mkCompiledSchema [] (mkResolver [] ∅ ∅ ∅)
  end.

Definition view (l : list string) : StoreView :=
  view_from_checkpoint (apply_mutations (rows l) [] store_default).2.

Definition snapshot_of (defs : list NamespaceDefinition) (l : list string) : PublishedSnapshot :=
  mkSnapshot revision_first (@mkByteArray 32 (repeat 0%Z 32) I) ∅ (schema defs) (view l).

Lemma rows_view_ok l : view_reachable (view l).
Proof.
  constructor. eapply (reach_apply store_default (rows l) []); [constructor|].
  apply surjective_pairing.
Qed.

Lemma serves_of defs l : is_ok (from_definitions defs) = true → serves (snapshot_of defs l) defs.
Proof.
  intros Hd. split; [|apply rows_view_ok|done]. simpl. unfold schema.
  by destruct (from_definitions defs).
Qed.

(** The snapshot with rows deleted, while they are still in the checkpoint. *)
Definition retract (s : PublishedSnapshot) (l : list string) : PublishedSnapshot :=
  let v := snapshot_relationships s in
  let deletions := omap (λ s, match relationship_from_str s with
                              | Ok r => Some (Delete r) | Err _ => None end) l in
  mkSnapshot (snapshot_revision s) (snapshot_schema_hash s) (snapshot_configs s) (snapshot_schema s)
    (match view_apply_mutations v deletions [] with Ok v' => v' | Err _ => v end).

Lemma serves_retract s defs l :
  serves s defs → tombstones_apart (snapshot_relationships (retract s l)) → serves (retract s l) defs.
Proof.
  intros [Hc Hv _] Ht. split; [done| |done]. simpl in *.
  destruct (view_apply_mutations _ _ _) eqn:E; [|done]. by eapply vreach_apply.
Qed.

Definition alice : User := UserId "alice".
Definition group (i : string) : Object := mkObject "group" i.
Definition member_of : RelationName := rel "member".

(** Groups with nested groups. *)
Definition groups : list NamespaceDefinition :=
  [mkNamespaceDefinition (obj_type "group") [relation_definition_new member_of None]].

Lemma groups_positive : positive_schema groups.
Proof.
  intros o r e (t & rd & _ & (ns & [->|[]%not_elem_of_nil]%elem_of_cons & _ & Hrd & _) & ->).
  apply list_elem_of_singleton in Hrd as ->. exact I.
Qed.

(** Groups [a] and [b] contain each other, [c] is in [a], [b] in [d]. *)
Definition cyclic : PublishedSnapshot := snapshot_of groups
  ["group:a#member@group:b#member"; "group:a#member@group:c#member";
   "group:b#member@group:a#member"; "group:c#member@user:alice"; "group:d#member@group:b#member"].

(** Without [c] in [a]; the deleted row is still in the checkpoint. *)
Definition departed : PublishedSnapshot := retract cyclic ["group:a#member@group:c#member"].

(** A chain of groups, and two detours to it. *)
Definition chain : PublishedSnapshot := snapshot_of groups
  ["group:x#member@group:b#member"; "group:b#member@group:c#member";
   "group:c#member@group:d#member"; "group:d#member@user:alice"; "group:y#member@group:p#member";
   "group:p#member@group:b#member"; "group:z#member@group:v#member";
   "group:v#member@group:w#member"; "group:w#member@group:s#member";
   "group:s#member@group:p#member"].

Definition six : EvaluationLimits :=
  mkLimits (mkNonZeroU32 6 I) (mkNonZeroU32 DEFAULT_MAX_FANOUT_PER_STEP I)
    (mkNonZeroU32 DEFAULT_MAX_LOOKUP_RESULTS I).

(** One check of a request. *)
Definition ask (i : string) (c : EvaluationContext) : result EvalStop Membership * EvaluationContext :=
  check (eval_fuel (ctx_limits c)) (group i) (mkRelation "member") alice c.

(** The contexts of a request that checks several groups in turn. *)
Definition after (l : list string) (c : EvaluationContext) : EvaluationContext :=
  foldl (λ c i, reset_for_reuse (ask i c).2) c l.

Lemma after_ok snapshot l c : request snapshot c → request snapshot (after l c).
Proof.
  revert c. induction l as [|i l IH]; intros c Hc; [done|]. simpl. apply IH.
  apply req_reset. by apply (req_check snapshot c (group i) member_of alice).
Qed.
End CheckExample.
Import CheckExample.

(** C20: the request memo is not transparent. A result computed while an
    enclosing check was active is stored as if it were complete: after a check of
    group [a] of the cycle, the check of [d] answers [Denied], although [d]
    contains the user and a fresh context says so. And a hit does not charge its
    depth to the enclosing check: on a chain, a check answers [Allowed] at a
    depth limit at which a fresh context reports that the depth is exceeded. *)
Theorem memo_not_transparent :
  (∃ snapshot defs c o (rel : RelationName) u, serves snapshot defs ∧
     tombstones (snapshot_relationships snapshot) = ∅ ∧ positive_schema defs ∧ request snapshot c ∧
     (check (eval_fuel (ctx_limits c)) o (mkRelation (as_str rel)) u c).1 = Ok Denied ∧
     member defs (rels_of snapshot) u o rel ∧
     check_with_snapshot snapshot o (mkRelation (as_str rel)) u (ctx_limits c) = Ok Allowed) ∧
  (∃ snapshot defs c o (rel : RelationName) u key, serves snapshot defs ∧
     tombstones (snapshot_relationships snapshot) = ∅ ∧ positive_schema defs ∧ request snapshot c ∧
     (check (eval_fuel (ctx_limits c)) o (mkRelation (as_str rel)) u c).1 = Ok Allowed ∧
     check_with_snapshot snapshot o (mkRelation (as_str rel)) u (ctx_limits c) =
       Err (Stop (ZEvaluation (DepthExceeded key)))).
Proof.
  assert (∀ l, serves (snapshot_of groups l) groups) as Hs
    by (intros l; by apply serves_of; vm_compute).
  split.
  - assert (check_with_snapshot cyclic (group "d") (mkRelation (as_str member_of)) alice
      limits_default = Ok Allowed) as Ha by (vm_compute; reflexivity).
    exists cyclic, groups, (after ["a"] (context_new_with_request_memo cyclic limits_default)),
      (group "d"), member_of, alice.
    split; [apply Hs|]. split; [reflexivity|]. split; [apply groups_positive|].
    split; [apply after_ok; constructor|].
    split; [vm_compute; reflexivity|]. split; [|exact Ha].
    by apply (positive_answer cyclic groups (group "d") member_of alice limits_default Allowed);
      [apply Hs|apply groups_positive| |].
  - assert (match check_with_snapshot chain (group "z") (mkRelation (as_str member_of)) alice six with
            | Err (Stop (ZEvaluation (DepthExceeded _))) => true | _ => false end = true) as Hd
      by (vm_compute; reflexivity).
    destruct (check_with_snapshot chain (group "z") (mkRelation (as_str member_of)) alice six)
      as [|[[| | | | | | | | |[key|]]|]] eqn:E; try discriminate Hd.
    exists chain, groups, (after ["x"; "y"] (context_new_with_request_memo chain six)),
      (group "z"), member_of, alice, key.
    split; [apply Hs|]. split; [reflexivity|]. split; [apply groups_positive|].
    split; [apply after_ok; constructor|].
    split; [vm_compute; reflexivity|]. exact E.
Qed.

(** Documents whose viewers may be banned. *)
Module BannedExample.
Export CheckExample.

Definition can_view : RelationName := rel "can_view".
Definition viewer : RelationName := rel "viewer".
Definition banned : RelationName := rel "banned".

Definition defs : list NamespaceDefinition :=
  [mkNamespaceDefinition (obj_type "doc")
     [relation_definition_new viewer None; relation_definition_new banned None;
      relation_definition_new can_view
        (Some (Exclusion (ComputedUserset viewer) (ComputedUserset banned)))];
   mkNamespaceDefinition (obj_type "group") [relation_definition_new member_of None]].

Definition snapshot : PublishedSnapshot := snapshot_of defs
  ["doc:readme#viewer@group:eng#member"; "group:eng#member@user:alice";
   "group:eng#member@user:bob"; "doc:readme#banned@user:bob"].

Definition readme : Object := mkObject "doc" "readme".

Definition weight (r : RelationName) : nat :=
  if decide (r = can_view) then 2 else if decide (r = member_of) then 0 else 1.
Definition rank (o : Object) : RelationName → nat := weight.

Definition reads (u : User) : Members := ranked_member defs (rels_of snapshot) rank u.

Lemma served : serves snapshot defs.
Proof. apply serves_of. by vm_compute. Qed.

Lemma ranked o r o' r' : leads_to defs (rels_of snapshot) o r o' r' → rank o' r' < rank o r.
Proof. apply schema_ranked_spec. by vm_compute. Qed.

Lemma reads_reading u : reading defs (rels_of snapshot) u (reads u).
Proof. apply ranked_reading, ranked. Qed.

Lemma declared_rewrite o t r rd : as_str t = namespace o → declares defs t r rd →
  ∃ e, rewrites_to defs o r e.
Proof. intros Ht Hd. eexists. exists t, rd. done. Qed.

(** The objects of the example that a check can reach are documents and groups,
    with their relations. *)
Definition known (o : Object) (r : RelationName) : Prop :=
  (namespace o = "doc" ∧ r ∈ [can_view; viewer; banned]) ∨
  (namespace o = "group" ∧ r = member_of).

Lemma known_declared o r : known o r → ∃ e, rewrites_to defs o r e.
Proof.
  intros [[Ho Hr]|[Ho ->]].
  - apply (declared_rewrite o (obj_type "doc") r
      (if decide (r = can_view) then relation_definition_new can_view
         (Some (Exclusion (ComputedUserset viewer) (ComputedUserset banned)))
       else relation_definition_new r None)); [by rewrite Ho|].
    eexists. split; [left|]. split; [done|].
    repeat (apply elem_of_cons in Hr as [->|Hr]); [..|by apply not_elem_of_nil in Hr];
      vm_compute decide; simpl; (split; [|done]); repeat first [left | right].
  - apply (declared_rewrite o (obj_type "group") member_of (relation_definition_new member_of None));
      [by rewrite Ho|].
    eexists. split; [right; left|]. split; [done|]. split; [left|done].
Qed.

Lemma usersets_known r o' r' : r ∈ rels_of snapshot → userset_of (subject r) = Some (o', r') →
  known o' r'.
Proof.
  assert (forallb (λ r, match userset_of (subject r) with
    | Some (o', r') => bool_decide (namespace o' = "group") && bool_decide (r' = member_of)
    | None => true end) (rels_of snapshot) = true) as Hall by (vm_compute; reflexivity).
  rewrite forallb_forall in Hall. intros Hr%list_elem_of_In Hu. specialize (Hall r Hr).
  rewrite Hu in Hall. apply andb_true_iff in Hall as [H1%bool_decide_eq_true H2%bool_decide_eq_true].
  right. split; assumption.
Qed.

Lemma this_known o r o' r' : calls (rels_of snapshot) o r This o' r' → known o' r'.
Proof.
  inversion_clear 1 as [s ? ? Hg Hu| | | | | |]. destruct Hg as (x & Hx & _ & _ & <-).
  by eapply usersets_known.
Qed.

Lemma calls_exclusion o r b x o' r' : calls (rels_of snapshot) o r (Exclusion b x) o' r' →
  calls (rels_of snapshot) o r b o' r' ∨ calls (rels_of snapshot) o r x o' r'.
Proof. remember (Exclusion b x) as e eqn:E. intros Hc. destruct Hc; simplify_eq; auto. Qed.

Lemma calls_computed_only o r r1 o' r' :
  calls (rels_of snapshot) o r (ComputedUserset r1) o' r' → o' = o ∧ r' = r1.
Proof. remember (ComputedUserset r1) as e eqn:E. intros Hc. destruct Hc; simplify_eq; auto. Qed.

Lemma leads_known o r o' r' : leads_to defs (rels_of snapshot) o r o' r' → known o' r'.
Proof.
  intros (e & (t & rd & Ht & (ns & Hns & <- & Hrd & <-) & ->) & Hc).
  repeat (apply elem_of_cons in Hns as [->|Hns]); [..|by apply not_elem_of_nil in Hns].
  - repeat (apply elem_of_cons in Hrd as [->|Hrd]); [..|by apply not_elem_of_nil in Hrd];
      [exact (this_known _ _ _ _ Hc)|exact (this_known _ _ _ _ Hc)|].
    left. cbn in Hc. apply calls_exclusion in Hc as [Hc|Hc]; apply calls_computed_only in Hc as [-> ->];
      (split; [exact (eq_sym Ht)|]); [right; left|right; right; left].
  - apply list_elem_of_singleton in Hrd as ->. exact (this_known _ _ _ _ Hc).
Qed.

Lemma readme_typed : typed snapshot defs alice readme can_view.
Proof.
  split.
  - exists (mkObjectRef (obj_type "doc") (@mkIdent KObjectId "readme" I)). reflexivity.
  - reflexivity.
  - intros q Hq. apply known_declared. revert Hq.
    assert (∀ p, rtc (λ p q, leads_to defs (rels_of snapshot) p.1 p.2 q.1 q.2) p q →
      known p.1 p.2 → known q.1 q.2) as Hk.
    { induction 1 as [p|p p' q Hl _ IH]; [done|]. intros _. apply IH. by eapply leads_known. }
    intros Hq. apply (Hk _ Hq). left. split; [done|left].
Qed.

Lemma rows_few o r : (Z.of_nat (length (rows_of (rels_of snapshot) o r)) ≤
  nz_get (max_fanout_per_step limits_default))%Z.
Proof.
  unfold rows_of. etrans; [apply Nat2Z.inj_le, length_filter|]. apply Z.leb_le. vm_compute. done.
Qed.
End BannedExample.
Import BannedExample.

Lemma check_positive_correct_witness :
  serves cyclic groups ∧
  check_with_snapshot cyclic (group "d") (mkRelation "member") alice limits_default = Ok Allowed ∧
  member groups (rels_of cyclic) alice (group "d") member_of ∧
  serves departed groups ∧ tombstones (snapshot_relationships departed) ≠ ∅ ∧
  check_with_snapshot departed (group "d") (mkRelation "member") alice limits_default = Ok Denied ∧
  ¬ member groups (rels_of departed) alice (group "d") member_of.
Proof.
  assert (serves cyclic groups) as Hs by (apply serves_of; vm_compute; reflexivity).
  assert (serves departed groups) as Hs'
    by (apply serves_retract; [exact Hs|]; eapply bool_decide_eq_true_1; vm_compute; reflexivity).
  assert (check_with_snapshot cyclic (group "d") (mkRelation "member") alice limits_default =
    Ok Allowed) as Hm by (vm_compute; reflexivity).
  assert (check_with_snapshot departed (group "d") (mkRelation "member") alice limits_default =
    Ok Denied) as Hm' by (vm_compute; reflexivity).
  split; [exact Hs|]. split; [exact Hm|]. split.
  - destruct (check_positive_correct cyclic groups (group "d") member_of alice limits_default Allowed
      Hs groups_positive Hm) as [_ Hiff]. apply Hiff. reflexivity.
  - split; [exact Hs'|]. split; [eapply bool_decide_eq_true_1; vm_compute; reflexivity|].
    split; [exact Hm'|]. intros Hd.
    destruct (check_positive_correct departed groups (group "d") member_of alice limits_default Denied
      Hs' groups_positive Hm') as [_ Hiff]. apply Hiff in Hd. discriminate Hd.
Defined.

Lemma check_well_founded_correct_witness :
  serves snapshot defs ∧ reads (UserId "alice") readme can_view ∧
  ¬ reads (UserId "bob") readme can_view.
Proof.
  split; [exact served|].
  assert (request snapshot (context_new_with_request_memo snapshot limits_default)) as Hr
    by (apply req_memo).
  assert (∀ i m, (check (eval_fuel limits_default) readme (mkRelation "can_view") (UserId i)
      (context_new_with_request_memo snapshot limits_default)).1 = Ok m →
    m = Allowed ↔ reads (UserId i) readme can_view) as Hc.
  { intros i m Hm.
    exact (proj2 (check_well_founded_correct snapshot defs rank reads _ readme can_view (UserId i) m
      served ranked reads_reading Hr Hm)). }
  split; [apply (Hc "alice" Allowed); [vm_compute; reflexivity|reflexivity]|].
  intros Hb. apply (Hc "bob" Denied) in Hb; [discriminate Hb|vm_compute; reflexivity].
Defined.

Lemma check_decides_witness :
  typed snapshot defs alice readme can_view ∧
  ∃ m, check_with_snapshot snapshot readme (mkRelation "can_view") alice limits_default = Ok m.
Proof.
  split; [exact readme_typed|].
  destruct (check_decides snapshot defs rank (reads alice) readme can_view alice limits_default
    served ranked (reads_reading alice) readme_typed) as (m & Hm & _).
  - apply Z.ltb_lt. vm_compute. reflexivity.
  - exact rows_few.
  - exists m. exact Hm.
Defined.

Definition one_level : EvaluationLimits :=
  mkLimits (mkNonZeroU32 1 I) (mkNonZeroU32 DEFAULT_MAX_FANOUT_PER_STEP I)
    (mkNonZeroU32 DEFAULT_MAX_LOOKUP_RESULTS I).

Lemma check_fails_by_limits_witness :
  typed snapshot defs alice readme can_view ∧
  ∃ e, check_with_snapshot snapshot readme (mkRelation "can_view") alice one_level = Err e ∧
  ((∃ key, e = Stop (ZEvaluation (DepthExceeded key))) ∨
   e = Stop (ZEvaluation (FanoutExceeded (max_fanout_per_step one_level)))).
Proof.
  split; [exact readme_typed|].
  assert (is_ok (check_with_snapshot snapshot readme (mkRelation "can_view") alice one_level) = false)
    as Hf by (vm_compute; reflexivity).
  destruct (check_with_snapshot snapshot readme (mkRelation "can_view") alice one_level)
    as [m|e] eqn:E; [discriminate Hf|].
  exists e. split; [reflexivity|].
  exact (check_fails_by_limits snapshot defs readme can_view alice one_level e served readme_typed E).
Defined.

Lemma entries_agree_witness :
  serves snapshot defs ∧ ∃ rd,
    resolver_relation (cs_resolver (snapshot_schema snapshot)) (obj_type "doc") viewer = Ok rd ∧
    check_prepared 50 readme (mkRelation "viewer") alice rd (context_new snapshot limits_default) =
    check 50 readme (mkRelation "viewer") alice (context_new snapshot limits_default).
Proof.
  split; [exact served|].
  destruct (resolver_relation (cs_resolver (snapshot_schema snapshot)) (obj_type "doc") viewer)
    as [rd|e] eqn:E; [|vm_compute in E; discriminate E].
  exists rd. split; [reflexivity|].
  exact (proj2 (entries_agree snapshot defs 50 ByName readme viewer alice (obj_type "doc") rd
    (context_new snapshot limits_default) served eq_refl eq_refl E)).
Defined.
