(* ===== verification/ExpandProps.v ===== *)
(** * Correctness of expansion

    The tree an expansion returns, read as a set expression over its leaves, is
    the meaning of the relation it expands. *)

From S2P Require Import Prelude Model Domain Revision Schema StoreTypes StoreQuery Store StoreProps.
From S2P Require Import StoreView ViewProps EvalContext Eval EvalReads EvalInv EvalTotal EvalSpec.
From S2P Require Import EvalSound EvalProps CheckProps Row.

(** ** What a tree says *)

Section tree.
Variable u : User.
Variable P : Members.

(** A userset leaf admits its members, and the user whose text it carries. *)
Fixpoint tree_sat (t : ExpandedUserset) : Prop :=
  match t with
  | EUser i => u = UserId i
  | EUserset o rel =>
      match u with
      | UserId i => o = mkObject "user" i
      | Userset o' rel' => o' = o ∧ rel' = rel
      end ∨ ∃ rel', mkRelation (as_str rel') = rel ∧ P o rel'
  | EUnion ts => any_of tree_sat ts
  | EIntersection ts => all_of tree_sat ts
  | EExclusion b x => tree_sat b ∧ ¬ tree_sat x
  end.
End tree.

(** The leaf of a relationship. *)
Lemma leaf_sat u P x r t :
  ref_denotes x r → expanded_subject x = Ok t →
  tree_sat u P t ↔
  names_user u (subject r) ∨
  ∃ o' rel', userset_of (subject r) = Some (o', rel') ∧ P o' rel'.
Proof.
  intros (_ & _ & Ho & Hs)%ref_denotes_parts. unfold expanded_subject. rewrite Ho.
  destruct (row_subject_relation (ref_row x)) as [sid|].
  - destruct Hs as (rel' & Hs & ->). intros [= <-]. rewrite Hs. simpl.
    set (o := object_of_ref (subject_object (subject r))).
    assert ((∃ rel'', mkRelation (as_str rel'') = mkRelation (as_str rel') ∧ P o rel'') ↔ P o rel')
      as ->.
    { split; [intros (rel'' & [= Hr%ident_eq] & Hp); by subst|by exists rel']. }
    assert ((∃ o' rel'0, Some (o, rel') = Some (o', rel'0) ∧ P o' rel'0) ↔ P o rel') as ->.
    { split; [by intros (? & ? & [= <- <-] & ?)|by exists o, rel']. }
    destruct u as [i|o1 r1]; simpl; [done|].
    assert ((o1 = o ∧ r1 = mkRelation (as_str rel')) ↔
      ∃ rel'0, Some (o, rel') = Some (o1, rel'0) ∧ as_str rel'0 = relation_str r1) as ->; [|done].
    split.
    + intros [-> ->]. by exists rel'.
    + intros (? & [= <- <-] & Hr). split; [done|]. destruct r1. simpl in Hr. by subst.
  - case_bool_decide as Hn; [|done]. intros [= <-]. rewrite Hs. simpl.
    destruct u as [i|o1 r1]; cbn [names_user userset_of subject_object tree_sat].
    2:{ split; [done|]. by intros [(? & ? & _)|(? & ? & ? & _)]. }
    unfold object_of_ref in *. simpl in Hn. rewrite Hn. split; [intros [= ->]; by left|by intros [[= ->]|(? & ? & ? & _)]].
Qed.

Lemma leaves_sat u P items rs ts :
  Forall2 ref_denotes items rs → Forall2 (λ x t, expanded_subject x = Ok t) items ts →
  any_of (tree_sat u P) ts ↔
  ∃ r, r ∈ rs ∧ (names_user u (subject r) ∨
                 ∃ o' rel', userset_of (subject r) = Some (o', rel') ∧ P o' rel').
Proof.
  intros Hrs. revert ts. induction Hrs as [|x r items rs Hx _ IH]; intros ts Hts.
  - inversion_clear Hts. simpl. split; [done|]. by intros (? & ?%not_elem_of_nil & _).
  - inversion_clear Hts as [|? t ? ts' Ht Hts']. simpl.
    rewrite (leaf_sat u P x r t Hx Ht), (IH ts' Hts'). setoid_rewrite elem_of_cons. naive_solver.
Qed.

Section expand_sound.
Context `{Hasher}.
Variable snapshot : PublishedSnapshot.
Variable rels : list Relationship.
Context `{Hreads : !ReadsAs (snapshot_relationships snapshot) rels}.
Hypothesis Hschema : schema_good (snapshot_schema snapshot).
Variable limits : EvaluationLimits.
Hypothesis Hfan : (nz_get (max_fanout_per_step limits) < u32_max)%Z.
Hypothesis Hroom : fanout_room (snapshot_relationships snapshot) limits.
Variable M : User → Members.

Abbreviation evals := (EvalInv.evals any_memo any_error).
Abbreviation keeps := (EvalInv.keeps any_memo).
Abbreviation defs := (cs_definitions (snapshot_schema snapshot)).
Abbreviation fan := (nz_get (max_fanout_per_step limits)).

(** A tree that says what [F] says, to every user. *)
Definition tree_means (F : User → Prop) (t : ExpandedUserset) : Prop :=
  ∀ u, tree_sat u (M u) t ↔ F u.

Lemma fan_positive : (0 ≤ 0 ≤ fan)%Z.
Proof. pose proof (nz_range (max_fanout_per_step limits)). lia. Qed.

Section base.
Variable c0 : EvaluationContext.
Hypothesis Hsnap : ctx_snapshot c0 = snapshot.
Hypothesis Hlim : ctx_limits c0 = limits.

Lemma evals_count fanout c : keeps c0 c → (0 ≤ fanout ≤ fan)%Z →
  evals c (increment_fanout fanout) (λ n, (n = fanout + 1)%Z ∧ (n ≤ fan)%Z).
Proof.
  intros Hc Hn. assert (ctx_limits c = limits) as Hl by (destruct Hc as [[] _ _]; congruence).
  eapply evals_mono; [apply evals_fanout; [apply Hc..|by rewrite Hl|done]|].
  rewrite Hl. intros n (H1 & H2 & H3). split; [|done]. apply H3. lia.
Qed.

(** ** [This] *)

Lemma evals_expand_subjects items : ∀ fanout c, keeps c0 c → (0 ≤ fanout ≤ fan)%Z →
  evals c (expand_subjects fanout items)
    (λ ts, (fanout + Z.of_nat (length items) ≤ fan)%Z ∧
           Forall2 (λ x t, expanded_subject x = Ok t) items ts).
Proof.
  induction items as [|x items IH]; intros fanout c Hc Hn; simpl.
  - apply evals_ret; [apply Hc..|]. split; [lia|constructor].
  - eapply evals_bind; [by apply evals_count|]. intros n c1 Hc1 [-> Hn1].
    pose proof (keeps_trans _ _ _ _ Hc Hc1) as Hc1'.
    eapply (evals_bind _ _ c1 _ _ (λ t, expanded_subject x = Ok t));
      [by apply evals_lift; [apply Hc1..|done|]|].
    intros t c2 Hc2 Ht. pose proof (keeps_trans _ _ _ _ Hc1' Hc2) as Hc2'.
    eapply evals_bind; [apply IH; [done|lia]|]. intros ts c3 Hc3 [Hlen Hts].
    apply evals_ret; [apply Hc3..|]. split; [lia|by constructor].
Qed.

Lemma evals_expand_this o rel c : keeps c0 c →
  evals c (expand_this o rel) (tree_means (λ u, sat rels u (M u) (M u) o rel This)).
Proof.
  intros Hc. unfold expand_this. eapply (evals_bind _ _ c).
  { apply (evals_lift_err _ _ ZDomain c _ (λ res, object_of_ref res = o)); [apply Hc..| |done].
    intros res. apply object_ref_of_object_Ok. }
  intros res c1 Hc1 <-. pose proof (keeps_trans _ _ _ _ Hc Hc1) as Hc1'.
  eapply evals_bind; [apply evals_expand_subjects; [done|apply fan_positive]|].
  intros ts c2 Hc2 [Hlen Hts]. apply evals_ret; [apply Hc2..|]. intros u.
  assert (ctx_snapshot c = snapshot ∧ ctx_limits c = limits) as [Hs Hl]
    by (destruct Hc as [[] _ _]; split; congruence).
  unfold relation_items in *. rewrite Hs, Hl in *.
  destruct (reads_items res rel (fanout_query_limit limits)) as (rs & Hrs & Hp).
  { by apply fanout_room_query. }
  { simpl. unfold fanout_limit_value. pose proof fan_positive. lia. }
  simpl. rewrite (leaves_sat u (M u) _ _ _ Hrs Hts).
  setoid_rewrite Hp. setoid_rewrite list_elem_of_filter. unfold granted, on_resource.
  setoid_rewrite andb_true_iff. setoid_rewrite bool_decide_eq_true. split.
  - intros (r & [[<- <-] Hr] & [Hn|(o' & rel' & Hu & Hm)]).
    + left. exists (subject r). split; [|done]. by exists r.
    + right. exists (subject r), o', rel'. split; [|done]. by exists r.
  - intros [(s & (r & Hr & Ho%object_of_ref_inj & <- & <-) & Hn)
           |(s & o' & rel' & (r & Hr & Ho%object_of_ref_inj & <- & <-) & Hu)];
      (exists r; split; [done|]); [by left|right; by exists o', rel'].
Qed.

(** ** Recursion *)

Section recursion.
Variable rec : Object → RelationName → Eval ExpandedUserset.

Definition expands (o : Object) (rel : RelationName) (e : UsersetExpression) : Prop :=
  ∀ o' rel' c, keeps c0 c → calls rels o rel e o' rel' →
    evals c (rec o' rel') (tree_means (λ u, M u o' rel')).

Lemma evals_expand_loop computed items rs :
  Forall2 ref_denotes items rs →
  (∀ r o' rel' c, r ∈ rs → userset_of (subject r) = Some (o', rel') → keeps c0 c →
     evals c (rec o' computed) (tree_means (λ u, M u o' computed))) →
  ∀ fanout c, keeps c0 c → (0 ≤ fanout ≤ fan)%Z →
  evals c (expand_loop rec computed fanout items)
    (λ ts, ∀ u, any_of (tree_sat u (M u)) ts ↔ some_row rs (λ o' _, M u o' computed)).
Proof.
  induction 1 as [|x r items rs Hx _ IH]; intros Hrec fanout c Hc Hn; simpl.
  - apply evals_ret; [apply Hc..|]. intros u. simpl. split; [done|].
    by intros (? & ? & ? & ?%not_elem_of_nil & _).
  - eapply (evals_bind _ _ c _ _ (λ t, t = userset_of (subject r)));
      [apply evals_lift; [apply Hc..| |done]|].
    { intros t. rewrite (subject_userset_denotes _ _ Hx). by intros [= <-]. }
    intros t c1 Hc1 ->. pose proof (keeps_trans _ _ _ _ Hc Hc1) as Hc1'.
    assert (∀ fanout c, keeps c0 c → (0 ≤ fanout ≤ fan)%Z →
      evals c (expand_loop rec computed fanout items)
        (λ ts, ∀ u, any_of (tree_sat u (M u)) ts ↔ some_row rs (λ o' _, M u o' computed))) as Hrest.
    { apply IH. intros. eapply Hrec; [by right|done..]. }
    destruct (userset_of (subject r)) as [[o' rel']|] eqn:Eu.
    2:{ eapply evals_mono; [by apply Hrest|]. intros ts Hts u.
        rewrite (Hts u), some_row_cons, Eu. split; [by right|]. by intros [(? & ? & ? & _)|?]. }
    eapply evals_bind; [by apply evals_count|]. intros n c2 Hc2 [-> Hn2].
    pose proof (keeps_trans _ _ _ _ Hc1' Hc2) as Hc2'.
    eapply evals_bind; [eapply Hrec; [by left|done|done]|]. intros t c3 Hc3 Ht.
    pose proof (keeps_trans _ _ _ _ Hc2' Hc3) as Hc3'.
    eapply evals_bind; [apply Hrest; [done|lia]|]. intros ts c4 Hc4 Hts.
    apply evals_ret; [apply Hc4..|]. intros u. simpl.
    rewrite (Ht u), (Hts u), some_row_cons, Eu. naive_solver.
Qed.

Lemma evals_expand_operands (ex : CompiledUsersetExpression → Eval ExpandedUserset)
    (F : UsersetExpression → User → Prop) es :
  Forall (λ e, ∀ c, keeps c0 c → evals c (ex e) (tree_means (F (erase e)))) es →
  ∀ c, keeps c0 c →
  evals c (expand_operands ex es)
    (λ ts, ∀ u, (any_of (tree_sat u (M u)) ts ↔ any_of (λ e, F e u) (erase <$> es)) ∧
                (all_of (tree_sat u (M u)) ts ↔ all_of (λ e, F e u) (erase <$> es))).
Proof.
  induction 1 as [|e es He _ IH]; intros c Hc; simpl.
  - apply evals_ret; [apply Hc..|]. done.
  - eapply evals_bind; [by apply He|]. intros t c1 Hc1 Ht.
    pose proof (keeps_trans _ _ _ _ Hc Hc1) as Hc1'.
    eapply evals_bind; [by apply IH|]. intros ts c2 Hc2 Hts.
    apply evals_ret; [apply Hc2..|]. intros u. destruct (Hts u) as [H1 H2]. simpl.
    by rewrite (Ht u), H1, H2.
Qed.

Lemma evals_expand_expression o rel t e : as_str t = namespace o → refs_ok defs t e →
  expands o rel (erase e) → ∀ c, keeps c0 c →
  evals c (expand_expression rec o rel e)
    (tree_means (λ u, sat rels u (M u) (M u) o rel (erase e))).
Proof.
  intros Ht.
  induction e as [|rel' rid h|ts rid cm|es IH|es IH|b x IHb IHx] using compiled_induction;
    intros Hrefs Hrec c Hc.
  - by apply evals_expand_this.
  - apply Hrec; [done|constructor].
  - destruct Hrefs as (rd & Hid). eapply (evals_bind _ _ c).
    { apply (evals_lift_err _ _ ZDomain c _ (λ res, object_of_ref res = o)); [apply Hc..| |done].
      intros res. apply object_ref_of_object_Ok. }
    intros res c1 Hc1 Hres. pose proof (keeps_trans _ _ _ _ Hc Hc1) as Hc1'.
    eapply (evals_bind _ _ c1 _ _ (λ rd', rd' = rd)).
    { destruct (proj1 (id_denotes_spec (sg_resolver _ Hschema) _ _ _ _ Hid), tt) as [Hby _].
      apply (evals_from _ _ c1 _ (lift (Ok rd))).
      - unfold relation_of_id. destruct Hc1' as [[Hs _ _ _ _ _ _ _ _] _ _]. by rewrite Hs, Hsnap, Hby.
      - apply evals_lift; [apply Hc1..| |done]. by intros a [= <-]. }
    intros rd' c2 Hc2 ->. pose proof (keeps_trans _ _ _ _ Hc1' Hc2) as Hc2'.
    destruct Hid as (ns & _ & _ & _ & ->).
    destruct (rows_of_items snapshot rels any_memo c0 Hsnap res ts c o Hc Hres) as (rs & Hi & Hp).
    eapply evals_bind; [eapply (evals_expand_loop cm _ rs Hi); [|done|apply fan_positive]|].
    + intros r o' rel' c3 Hr Hu Hc3. apply Hrec; [done|]. rewrite Hp in Hr.
      apply (calls_tuple _ _ _ _ _ (subject r) _ rel'); [|done]. apply granted_rows. eauto.
    + intros trees c3 Hc3 Htrees. apply evals_ret; [apply Hc3..|]. intros u. simpl.
      by rewrite (Htrees u), Hp, some_row_granted.
  - simpl in Hrefs. rewrite all_of_Forall in Hrefs. simpl.
    eapply evals_bind; [apply (evals_expand_operands _ (λ e u, sat rels u (M u) (M u) o rel e) es); [|done]|].
    + rewrite Forall_forall in *. intros e He c' Hc'. apply IH; [done|by apply Hrefs| |done].
      intros o' rel' c'' Hc'' Hcall. apply Hrec; [done|]. eapply calls_union; [|done].
      apply list_elem_of_fmap. by exists e.
    + intros trees c1 Hc1 Htrees. apply evals_ret; [apply Hc1..|]. intros u. apply (Htrees u).
  - simpl in Hrefs. rewrite all_of_Forall in Hrefs. simpl.
    eapply evals_bind; [apply (evals_expand_operands _ (λ e u, sat rels u (M u) (M u) o rel e) es); [|done]|].
    + rewrite Forall_forall in *. intros e He c' Hc'. apply IH; [done|by apply Hrefs| |done].
      intros o' rel' c'' Hc'' Hcall. apply Hrec; [done|]. eapply calls_intersection; [|done].
      apply list_elem_of_fmap. by exists e.
    + intros trees c1 Hc1 Htrees. apply evals_ret; [apply Hc1..|]. intros u. apply (Htrees u).
  - destruct Hrefs as [Hb Hx]. simpl.
    eapply evals_bind; [apply IHb; [done| |done]|].
    { intros o' rel' c' Hc' Hcall. apply Hrec; [done|]. by apply calls_base. }
    intros tb c1 Hc1 Htb. pose proof (keeps_trans _ _ _ _ Hc Hc1) as Hc1'.
    eapply evals_bind; [apply IHx; [done| |done]|].
    { intros o' rel' c' Hc' Hcall. apply Hrec; [done|]. by apply calls_exclude. }
    intros tx c2 Hc2 Htx. apply evals_ret; [apply Hc2..|]. intros u. simpl.
    by rewrite (Htb u), (Htx u).
Qed.

Lemma evals_expand_entered o rel c : keeps c0 c →
  (∀ e, rewrites_to defs o rel e → expands o rel e) →
  evals c (expand_relation_name_entered rec o rel)
    (tree_means (λ u, step defs rels u (M u) (M u) o rel)).
Proof.
  intros Hc Hrec. eapply evals_bind.
  { apply (evals_lift_err _ _ ZDomain c _ (λ t, as_str t = namespace o)); [apply Hc..| |done].
    by intros t <-%ident_new_Ok. }
  intros t c1 Hc1 Ht. pose proof (keeps_trans _ _ _ _ Hc Hc1) as Hc1'.
  eapply (evals_bind _ _ c1 _ _ (λ rd, declares defs t rel rd)).
  { eapply evals_from.
    - unfold relation_of_name. destruct Hc1' as [[Hs _ _ _ _ _ _ _ _] _ _]. by rewrite Hs, Hsnap.
    - apply (evals_lift_err _ _ ZSchema); [apply Hc1..| |done].
      intros rd. apply (resolver_relation_Ok (sg_resolver _ Hschema)). }
  intros rd c2 Hc2 Hd. pose proof (keeps_trans _ _ _ _ Hc1' Hc2) as Hc2'.
  assert (rewrites_to defs o rel (default This (rd_userset_rewrite rd))) as Hrw
    by (by exists t, rd).
  assert (∀ F, (∀ u, F u ↔ sat rels u (M u) (M u) o rel (default This (rd_userset_rewrite rd))) →
    ∀ tr, tree_means F tr → tree_means (λ u, step defs rels u (M u) (M u) o rel) tr) as Hstep.
  { intros F HF tr Htr u. rewrite (Htr u), HF. split.
    - intros Hs. by exists (default This (rd_userset_rewrite rd)).
    - intros (e & He & Hs).
      by rewrite (rewrites_to_unique snapshot Hschema _ _ _ _ _ Ht Hd He) in Hs. }
  pose proof (Hrec _ Hrw) as Hrec'.
  destruct (sg_compiled _ Hschema _ _ _ Hd) as (_ & _ & _ & Her & Hrefs). rewrite Her in *.
  destruct (rd_compiled_userset_rewrite rd) as [e|]; simpl in *.
  - eapply evals_mono; [by apply (evals_expand_expression o rel t e); auto|]. by apply Hstep.
  - eapply evals_mono; [by apply evals_expand_this|]. by apply Hstep.
Qed.
End recursion.
End base.

(** ** Ranked data *)

Variable rank : Object → RelationName → nat.
Hypothesis Hrank : ∀ o rel o' rel', leads_to defs rels o rel o' rel' → rank o' rel' < rank o rel.
Hypothesis HM : ∀ u o rel, M u o rel ↔ step defs rels u (M u) (M u) o rel.

(** A context whose expansions in progress all have a larger rank. *)
Record expanding (c : EvaluationContext) (r : nat) : Prop := {
  ex_snapshot : ctx_snapshot c = snapshot;
  ex_limits : ctx_limits c = limits;
  ex_above k : k ∈ expand_stack c → r < rank (expand_object k) (expand_relation k)
}.

Lemma evals_expand fuel o rel c : expanding c (rank o rel) → context_ok c →
  (remaining_depth c < Z.of_nat fuel)%Z →
  evals c (expand_relation_name fuel o rel) (tree_means (λ u, M u o rel)).
Proof.
  revert o rel c. induction fuel as [|fuel IH]; intros o rel c [Hs Hl Ha] Hc Hd.
  { pose proof (co_depth _ Hc). lia. }
  cbn [expand_relation_name]. apply evals_expand_key; [done..| | |].
  - intros Hin. specialize (Ha _ Hin). simpl in Ha. lia.
  - done.
  - intros _ Hpos c1 Hc1 Hm1 [X1 X2 X3 X4 X5 X6].
    eapply evals_mono.
    + apply (evals_expand_entered c1); [congruence|congruence|by apply keeps_refl|].
      intros e He o' rel' c' Hc' Hcall. pose proof Hc' as [[K1 K2 K3 K4 K5 K6 K7 K8 K9] Hok' _].
      assert (rank o' rel' < rank o rel) as Hlt by (apply Hrank; by exists e).
      apply IH; [split; [congruence|congruence|]|done|lia].
      rewrite K7, X5. intros k [->|Hk]%elem_of_cons; simpl; [done|].
      specialize (Ha k Hk). lia.
    + intros tr Htr u. by rewrite (Htr u), <- HM.
Qed.
End expand_sound.

(** C17: for a snapshot of any compiled schema and a reachable view in which no
    deleted relationship still in the checkpoint names the same user as a live one
    on the same resource and relation ([tombstones_apart]) and each relation of an
    object with deleted rows still in the checkpoint has, those included, at most as
    many rows as the fanout limit ([fanout_room]), and for a fanout limit below
    [u32::MAX]: on well-founded data, the tree an expansion returns, in any
    reachable context of the snapshot, says exactly what the relation means: a user
    is admitted by the set expression over its leaves (a userset leaf standing for
    its members) exactly when the reading of the schema admits the user. In
    particular reading one row more than the fanout limit never loses a row
    silently. *)
Theorem expand_means `{Hasher} snapshot schema_defs rank M c o (rel : RelationName) t :
  serves snapshot schema_defs →
  (∀ o rel o' rel', leads_to schema_defs (rels_of snapshot) o rel o' rel' →
     rank o' rel' < rank o rel) →
  (∀ u, reading schema_defs (rels_of snapshot) u (M u)) →
  context_reachable c → ctx_snapshot c = snapshot →
  (nz_get (max_fanout_per_step (ctx_limits c)) < u32_max)%Z →
  fanout_room (snapshot_relationships snapshot) (ctx_limits c) →
  (expand (S (eval_fuel (ctx_limits c))) o (mkRelation (as_str rel)) c).1 = Ok t →
  ∀ u, tree_sat u (M u) t ↔ M u o rel.
Proof.
  intros Hs Hrank HM Hr Hsn Hf Hroom Ht.
  pose proof (context_reachable_ok c Hr) as [Hc Hi]. pose proof (idle_fuel c Hi) as Hfuel.
  assert (∀ o rel o' rel', leads_to (cs_definitions (snapshot_schema snapshot))
    (rels_of snapshot) o rel o' rel' → rank o' rel' < rank o rel) as Hrank'.
  { intros a b a' b' Hl. by apply Hrank, (leads_to_compiled _ _ Hs). }
  assert (∀ u o rel, M u o rel ↔ step (cs_definitions (snapshot_schema snapshot))
    (rels_of snapshot) u (M u) (M u) o rel) as HM'.
  { intros u a b. rewrite (step_compiled _ _ Hs). apply HM. }
  pose proof (evals_expand snapshot (rels_of snapshot) (Hreads := snapshot_reads _ _ Hs)
    (serves_good _ _ Hs) (ctx_limits c) Hf Hroom M rank Hrank' HM'
    (S (eval_fuel (ctx_limits c))) o rel c) as He.
  unfold evals, wp in He. revert Ht. unfold expand, st_bind.
  assert (lift_domain (relation_name_of (mkRelation (as_str rel))) c = (Ok rel, c)) as ->
    by (by rewrite relation_name_of_as_str).
  destruct (expand_relation_name _ o rel c) as [res c']. simpl. intros ->.
  apply He; [|done|lia]. split; [done|done|]. destruct Hi as [_ _ -> _].
  by intros k ?%not_elem_of_nil.
Qed.

Import BannedExample.

Lemma expand_means_witness :
  serves snapshot defs ∧ ∃ t,
    expand_with_snapshot snapshot readme (mkRelation "can_view") limits_default = Ok t ∧
    t = EExclusion (EUnion [EUserset (group "eng") (mkRelation "member")])
          (EUnion [EUser "bob"]) ∧
    (tree_sat alice (reads alice) t ↔ reads alice readme can_view).
Proof.
  split; [exact served|]. unfold expand_with_snapshot.
  destruct (expand (S (eval_fuel limits_default)) readme (mkRelation "can_view")
    (context_new snapshot limits_default)).1 as [t|e] eqn:E; [|vm_compute in E; discriminate E].
  exists t. split; [reflexivity|]. split; [vm_compute in E; injection E as <-; reflexivity|].
  apply (expand_means snapshot defs rank reads (context_new snapshot limits_default) readme can_view t
    served ranked reads_reading); [constructor|reflexivity| | |exact E].
  - apply Z.ltb_lt. vm_compute. reflexivity.
  - eapply bool_decide_eq_true_1. vm_compute. reflexivity.
Defined.
