(* ===== verification/Dsl.v ===== *)
(** * Reading the policy language (src/src/parser.rs)

    The tree a pest parse of [grammar.pest] yields and its translation to
    namespaces. The parser pest generates from the grammar is an argument: a
    function from the source text to the tree or to an error message. *)

From S2P Require Import Prelude Model EvalContext.

(** ** Pest trees *)

(** The rules of [grammar.pest] and pest's end-of-input rule. *)
Inductive Rule :=
| EOI | WHITESPACE | COMMENT | IDENTIFIER | STRING_LITERAL
| NAMESPACE | RELATION | REWRITE | THIS | COMPUTED_USERSET | TUPLE_TO_USERSET
| UNION | INTERSECTION | EXCLUSION
| file | namespace_def | relation_def | rewrite_rule | expression | term
| this_expr | computed_userset_expr | tuple_to_userset_expr
| union_expr | intersection_expr | exclusion_expr.

#[global] Instance Rule_eq_dec : EqDecision Rule.
Proof. solve_decision. Defined.

(** The derived [Debug] of the generated enum. *)
Definition rule_debug (r : Rule) : string :=
  match r with
  | EOI => "EOI" | WHITESPACE => "WHITESPACE" | COMMENT => "COMMENT"
  | IDENTIFIER => "IDENTIFIER" | STRING_LITERAL => "STRING_LITERAL"
  | NAMESPACE => "NAMESPACE" | RELATION => "RELATION" | REWRITE => "REWRITE"
  | THIS => "THIS" | COMPUTED_USERSET => "COMPUTED_USERSET"
  | TUPLE_TO_USERSET => "TUPLE_TO_USERSET" | UNION => "UNION"
  | INTERSECTION => "INTERSECTION" | EXCLUSION => "EXCLUSION"
  | file => "file" | namespace_def => "namespace_def" | relation_def => "relation_def"
  | rewrite_rule => "rewrite_rule" | expression => "expression" | term => "term"
  | this_expr => "this_expr" | computed_userset_expr => "computed_userset_expr"
  | tuple_to_userset_expr => "tuple_to_userset_expr" | union_expr => "union_expr"
  | intersection_expr => "intersection_expr" | exclusion_expr => "exclusion_expr"
  end.

(** A pest [Pair]: the rule, the text it spans and its inner pairs. *)
Inductive Pair := mkPair (rule : Rule) (text : string) (inner : list Pair).

Definition as_rule (p : Pair) : Rule := let '(mkPair r _ _) := p in r.
Definition pair_str (p : Pair) : string := let '(mkPair _ s _) := p in s.
Definition into_inner (p : Pair) : list Pair := let '(mkPair _ _ l) := p in l.

(** [ZanzibarParser::parse(Rule::file, ..)], the generated parser, with the
    text of its error. *)
Class PestParser := { parse_file : string → result string (list Pair) }.

(** ** The syntax tree *)

Record LegacyRelationAst := mkRelationAst {
  ast_relation_name : string;
  ast_rewrite : option LegacyUsersetExpression
}.

Record LegacyNamespaceAst := mkNamespaceAst {
  ast_name : string;
  ast_relations : list LegacyRelationAst
}.

(** ** Translation of the tree *)

(** [next_pair]: the next pair of an iterator and the rest of it. *)
Definition next_pair (pairs : list Pair) (expected : string)
    : result ZanzibarError (Pair * list Pair) :=
  match pairs with
  | p :: pairs => Ok (p, pairs)
  | [] => Err (ZParseError ("Expected " +:+ expected))
  end.

(** [str::trim_matches] for one byte. *)
Fixpoint trim_start_matches (c : ascii) (s : string) : string :=
  match s with
  | String b s' => if Ascii.eqb b c then trim_start_matches c s' else s
  | EmptyString => EmptyString
  end.
Fixpoint trim_end_matches (c : ascii) (s : string) : string :=
  match s with
  | String b s' =>
      let t := trim_end_matches c s' in
      if Ascii.eqb b c && str_is_empty t then EmptyString else String b t
  | EmptyString => EmptyString
  end.
Definition trim_matches (c : ascii) (s : string) : string :=
  trim_end_matches c (trim_start_matches c s).

(** The quotation mark. *)
Definition QUOTE : ascii := ascii_of_N 34.

(** The texts of the second and later inner pairs of a rule whose first is its
    keyword, without their quotation marks. *)
Definition unquoted (p : Pair) : string := trim_matches QUOTE (pair_str p).

Fixpoint parse_expression (p : Pair) : result ZanzibarError LegacyUsersetExpression :=
  let '(mkPair rule _ inner) := p in
  match rule with
  | expression =>
      match inner with
      | [] => Err (ZParseError "Expected expression term")
      | q :: _ => parse_expression q
      end
  | term =>
      match inner with
      | [] => Err (ZParseError "Expected term expression")
      | q :: _ => parse_expression q
      end
  | this_expr => Ok LThis
  | computed_userset_expr =>
      '(_, inner) ← next_pair inner "computed_userset keyword";
      '(q, _) ← next_pair inner "computed_userset relation";
      Ok (LComputedUserset (mkRelation (unquoted q)))
  | tuple_to_userset_expr =>
      '(_, inner) ← next_pair inner "tuple_to_userset keyword";
      '(q1, inner) ← next_pair inner "tuple_to_userset tupleset relation";
      '(q2, _) ← next_pair inner "tuple_to_userset computed relation";
      Ok (LTupleToUserset (mkRelation (unquoted q1)) (mkRelation (unquoted q2)))
  | union_expr =>
      match inner with
      | [] => Err (ZParseError "Expected set operation keyword")
      | _ :: inner => es ← try_map parse_expression inner; Ok (LUnion es)
      end
  | intersection_expr =>
      match inner with
      | [] => Err (ZParseError "Expected set operation keyword")
      | _ :: inner => es ← try_map parse_expression inner; Ok (LIntersection es)
      end
  | exclusion_expr =>
      match inner with
      | [] => Err (ZParseError "Expected exclusion keyword")
      | [_] => Err (ZParseError "Expected exclusion base expression")
      | [_; q1] =>
          base ← parse_expression q1;
          Err (ZParseError "Expected exclusion exclude expression")
      | _ :: q1 :: q2 :: _ =>
          base ← parse_expression q1;
          exclude ← parse_expression q2;
          Ok (LExclusion base exclude)
      end
  | r => Err (ZParseError ("Unexpected rule: " +:+ rule_debug r))
  end.

Definition parse_rewrite (p : Pair) : result ZanzibarError LegacyUsersetExpression :=
  '(_, inner) ← next_pair (into_inner p) "rewrite keyword";
  '(q, _) ← next_pair inner "rewrite expression";
  parse_expression q.

Definition parse_relation_ast (p : Pair) : result ZanzibarError LegacyRelationAst :=
  '(_, inner) ← next_pair (into_inner p) "relation keyword";
  '(name, inner) ← next_pair inner "relation name";
  rewrite ← match inner with
            | q :: _ =>
                if decide (as_rule q = rewrite_rule) then Some <$> parse_rewrite q else Ok None
            | [] => Ok None
            end;
  Ok (mkRelationAst (pair_str name) rewrite).

Definition parse_namespace_ast (p : Pair) : result ZanzibarError LegacyNamespaceAst :=
  '(_, inner) ← next_pair (into_inner p) "namespace keyword";
  '(name, inner) ← next_pair inner "namespace identifier";
  relations ← try_map parse_relation_ast inner;
  Ok (mkNamespaceAst (pair_str name) relations).

Definition parse_dsl_ast `{PestParser} (dsl : string)
    : result ZanzibarError (list LegacyNamespaceAst) :=
  pairs ← map_err ZParseError (parse_file dsl);
  try_map parse_namespace_ast
    (filter (λ p, as_rule p = namespace_def) (mbind (M:=list) into_inner pairs)).

(** [TryFrom<LegacyNamespaceAst>]: of two relations of one name the later wins. *)
Definition config_of_ast (ns : LegacyNamespaceAst) : NamespaceConfig :=
  mkNamespaceConfig (ast_name ns)
    (foldl (λ m r, let name := mkRelation (ast_relation_name r) in
                   <[name := mkRelationConfig name (ast_rewrite r)]> m)
       ∅ (ast_relations ns)).

Definition parse_dsl `{PestParser} (dsl : string) : result ZanzibarError (list NamespaceConfig) :=
  asts ← parse_dsl_ast dsl; Ok (fmap (M:=list) config_of_ast asts).
