(* ===== verification/Grammar.v ===== *)
(** * The grammar of the policy language (src/src/grammar.pest)

    The rules of the grammar as data, and what a parser that pest generates from
    such rules does with a text: a parsing expression grammar with implicit
    white space between the parts of a sequence. *)

From S2P Require Import Prelude Model EvalContext Dsl.

(** ** Parsing expressions *)

Inductive Peg :=
| Str (literal : string)
| Byte (p : ascii → bool)
| Use (r : Rule)
| Then (a b : Peg)
| Or (a b : Peg)
| Many (a : Peg)
| Maybe (a : Peg)
| Unless (a : Peg)
| SOI
| EndOfInput.

Declare Scope peg_scope.
Delimit Scope peg_scope with peg.
Bind Scope peg_scope with Peg.
Notation "a ~> b" := (Then a b) (at level 63, right associativity) : peg_scope.
Notation "a </> b" := (Or a b) (at level 64, right associativity) : peg_scope.
Coercion Str : string >-> Peg.
Coercion Use : Rule >-> Peg.

(** [_{ }], [@{ }] and [{ }]. *)
Inductive RuleType := Silent | Atomic | Normal.

Definition silent (e : Peg) : RuleType * Peg := (Silent, e).
Definition atomic (e : Peg) : RuleType * Peg := (Atomic, e).
Definition normal (e : Peg) : RuleType * Peg := (Normal, e).

(** Matches of a string literal and of any one byte. Bytes stand for characters:
    the grammar uses [ANY] only to skip to a given ASCII character. *)
Definition ANY : Peg := Byte (λ _, true).
Definition ASCII_ALPHA : Peg := Byte is_ascii_alphabetic.
Definition ASCII_ALPHANUMERIC : Peg := Byte is_ascii_alphanumeric.

Definition TAB : string := String (ascii_of_N 9) "".
Definition NEWLINE : string := String (ascii_of_N 10) "".
Definition RETURN : string := String (ascii_of_N 13) "".
Definition QUOTATION : string := String QUOTE "".

(** The rules of [grammar.pest], in its order, and pest's own [EOI]. *)
Definition grammar (r : Rule) : RuleType * Peg :=
  (match r with
   | WHITESPACE => silent (" " </> TAB </> RETURN </> NEWLINE)
   | COMMENT => silent ("//" ~> Many (Unless NEWLINE ~> ANY))
   | IDENTIFIER => atomic ((ASCII_ALPHA </> "_") ~> Many (ASCII_ALPHANUMERIC </> "_"))
   | STRING_LITERAL => atomic (QUOTATION ~> Many (Unless QUOTATION ~> ANY) ~> QUOTATION)
   | NAMESPACE => normal ("namespace")
   | RELATION => normal ("relation")
   | REWRITE => normal ("rewrite")
   | THIS => normal ("this")
   | COMPUTED_USERSET => normal ("computed_userset")
   | TUPLE_TO_USERSET => normal ("tuple_to_userset")
   | UNION => normal ("union")
   | INTERSECTION => normal ("intersection")
   | EXCLUSION => normal ("exclusion")
   | file => normal (SOI ~> Many namespace_def ~> EOI)
   | namespace_def => normal (NAMESPACE ~> IDENTIFIER ~> "{" ~> Many relation_def ~> "}")
   | relation_def => normal (RELATION ~> IDENTIFIER ~> "{" ~> Maybe rewrite_rule ~> "}")
   | rewrite_rule => normal (REWRITE ~> expression)
   | expression => normal (union_expr </> intersection_expr </> exclusion_expr </> term)
   | term =>
       normal (this_expr </> computed_userset_expr </> tuple_to_userset_expr </> "(" ~> expression ~> ")")
   | this_expr => normal (THIS)
   | computed_userset_expr =>
       normal (COMPUTED_USERSET ~> "(" ~> "relation" ~> ":" ~> STRING_LITERAL ~> ")")
   | tuple_to_userset_expr =>
       normal (TUPLE_TO_USERSET ~> "("
           ~> "tupleset" ~> ":" ~> STRING_LITERAL ~> ","
           ~> "computed_userset" ~> ":" ~> STRING_LITERAL
         ~> ")")
   | union_expr => normal (UNION ~> "(" ~> Maybe (expression ~> Many ("," ~> expression)) ~> ")")
   | intersection_expr =>
       normal (INTERSECTION ~> "(" ~> Maybe (expression ~> Many ("," ~> expression)) ~> ")")
   | exclusion_expr => normal (EXCLUSION ~> "(" ~> expression ~> "," ~> expression ~> ")")
   | EOI => normal (EndOfInput)
   end)%peg%string.

(** ** Parsing *)

(** A match consumes [text], leaves [rest] and yields pairs. *)
Inductive Outcome :=
| Matched (text rest : string) (pairs : list Pair)
| Failed
| OutOfFuel.

(** A parser from an offset in the source, 0 at its start, and what is left. *)
Abbreviation Parse := (nat → string → Outcome).

Definition nothing : Parse := λ _ s, Matched "" s [].

Definition both (a b : Parse) : Parse := λ at_ s,
  match a at_ s with
  | Matched t s ps =>
      match b (at_ + String.length t) s with
      | Matched t' s ps' => Matched (t +:+ t') s (ps ++ ps')
      | o => o
      end
  | o => o
  end.

Definition otherwise (a b : Parse) : Parse := λ at_ s,
  match a at_ s with Failed => b at_ s | o => o end.

(** As often as it matches, at most [n] times. *)
Fixpoint many (n : nat) (a : Parse) : Parse := λ at_ s,
  match n with
  | 0 => OutOfFuel
  | S n => otherwise (both a (many n a)) nothing at_ s
  end.

Fixpoint literal (l s : string) : option string :=
  match l, s with
  | EmptyString, _ => Some s
  | String a l, String b s => if Ascii.eqb a b then literal l s else None
  | String _ _, EmptyString => None
  end.

Section eval.
(** The rules, and what is skipped between the parts of a sequence. *)
Context (use : Rule → Parse) (skip : Parse).

Fixpoint eval (e : Peg) : Parse := λ at_ s,
  match e with
  | Str l => match literal l s with Some rest => Matched l rest [] | None => Failed end
  | Byte p =>
      match s with
      | String b rest => if p b then Matched (String b "") rest [] else Failed
      | EmptyString => Failed
      end
  | Use r => use r at_ s
  | Then a b => both (eval a) (both skip (eval b)) at_ s
  | Or a b => otherwise (eval a) (eval b) at_ s
  | Many a =>
      otherwise (both (eval a) (many (S (String.length s)) (both skip (eval a)))) nothing at_ s
  | Maybe a => otherwise (eval a) nothing at_ s
  | Unless a =>
      match eval a at_ s with
      | Matched _ _ _ => Failed
      | Failed => Matched "" s []
      | OutOfFuel => OutOfFuel
      end
  | SOI => if (at_ =? 0)%nat then Matched "" s [] else Failed
  | EndOfInput => if str_is_empty s then Matched "" s [] else Failed
  end.
End eval.

(** White space and comments are skipped inside no atomic rule, and are atomic
    themselves. *)
Definition is_atomic (r : Rule) (ty : RuleType) : bool :=
  match ty, r with
  | Atomic, _ | _, WHITESPACE | _, COMMENT => true
  | _, _ => false
  end.

(** The pair of a rule that matched. *)
Definition pair_of (r : Rule) (ty : RuleType) (o : Outcome) : Outcome :=
  match o with
  | Matched t rest ps =>
      Matched t rest match ty with Silent => ps | Atomic => [mkPair r t []] | Normal => [mkPair r t ps] end
  | o => o
  end.

Definition skip_with (use : Rule → Parse) : Parse := λ at_ s,
  many (S (String.length s)) (otherwise (use WHITESPACE) (use COMMENT)) at_ s.

(** A rule, [within] when it is used inside an atomic one, which leaves no pairs
    but its own. The fuel is the depth of the nesting of rules. *)
Fixpoint run (fuel : nat) (within : bool) (r : Rule) : Parse := λ at_ s,
  match fuel with
  | 0 => OutOfFuel
  | S fuel =>
      let '(ty, body) := grammar r in
      let inside := within || is_atomic r ty in
      let skip := if inside then nothing else skip_with (run fuel true) in
      let o := eval (run fuel inside) skip body at_ s in
      if within then match o with Matched t rest _ => Matched t rest [] | o => o end
      else pair_of r ty o
  end.

(** Rules nest at most [MAX_RANK] deep before one of them consumes a byte. *)
Definition MAX_RANK : nat := 5.
Definition grammar_fuel (s : string) : nat := S (MAX_RANK * S (String.length s)).

(** [ZanzibarParser::parse(Rule::file, ..)] up to the text of its error. *)
Definition parse_grammar (dsl : string) : option (list Pair) :=
  match run (grammar_fuel dsl) false file 0 dsl with
  | Matched _ _ pairs => Some pairs
  | _ => None
  end.

(** What pest promises of the parser it generates: it accepts the texts of the
    grammar, with the pairs of their rules. *)
Class FollowsGrammar `{PestParser} := follows_grammar dsl :
  match parse_file dsl with Ok ps => Some ps | Err _ => None end = parse_grammar dsl.

(** A parser that keeps the promise. *)
Definition grammar_parser : PestParser :=
  {| parse_file dsl := match parse_grammar dsl with Some ps => Ok ps | None => Err "no match" end |}.

#[export] Instance grammar_parser_follows : @FollowsGrammar grammar_parser.
Proof. intros dsl. unfold parse_file, grammar_parser. by destruct (parse_grammar dsl). Qed.
