(* ===== verification/GrammarProps.v ===== *)
(** * What a parser of the grammar answers

    Parsing ends on every text, more fuel does not change an answer, and the
    rules by which a text is read are derived once for all rules: when a parsing
    expression accepts or refuses a text, whatever the fuel from some point on,
    and the tokens (names, string literals, white space). *)

From S2P Require Import Prelude Model EvalContext Dsl Grammar.

(** ** Parsing consumes what it matches *)

Definition splits (eats : bool) (a : Parse) : Prop :=
  ∀ at_ s t rest ps, a at_ s = Matched t rest ps → s = t +:+ rest ∧ (eats = true → t ≠ "").

Lemma splits_weaken x a : splits x a → splits false a.
Proof. intros Ha at_ s t rest ps Hm. by destruct (Ha _ _ _ _ _ Hm) as [? _]. Qed.

Lemma nothing_splits : splits false nothing.
Proof. intros at_ s t rest ps [= <- <- <-]. done. Qed.

Lemma both_splits x y a b : splits x a → splits y b → splits (x || y) (both a b).
Proof.
  intros Ha Hb at_ s t rest ps. unfold both.
  destruct (a at_ s) as [t1 r1 p1| |] eqn:E1; [|done|done].
  destruct (b _ r1) as [t2 r2 p2| |] eqn:E2; [|done|done]. intros [= <- <- <-].
  destruct (Ha _ _ _ _ _ E1) as [-> H1], (Hb _ _ _ _ _ E2) as [-> H2].
  split; [by rewrite string_app_assoc|]. intros [->| ->]%orb_true_iff E;
    (destruct t1; [|done]); [by apply H1|by apply H2].
Qed.

Lemma otherwise_splits x a b : splits x a → splits x b → splits x (otherwise a b).
Proof.
  intros Ha Hb at_ s t rest ps. unfold otherwise. destruct (a at_ s) eqn:E; [|by apply Hb|done].
  intros [= <- <- <-]. by eapply Ha.
Qed.

Lemma many_splits x n a : splits x a → splits false (many n a).
Proof.
  intros Ha. induction n as [|n IH]; [done|]. apply (otherwise_splits false); [|apply nothing_splits].
  apply (both_splits false false); [by eapply splits_weaken|done].
Qed.

Lemma literal_splits l s rest : literal l s = Some rest ↔ s = l +:+ rest.
Proof.
  revert s. induction l as [|a l IH]; intros s; [split; [by intros [= ->]|by intros ->]|].
  destruct s as [|b s]; [done|]. cbn [literal]. rewrite string_cons_app.
  destruct (Ascii.eqb_spec a b) as [->|Hn]; [rewrite IH|].
  - split; [by intros ->|by intros [= ->]].
  - split; [done|]. by intros [= -> _].
Qed.

(** ** Static checks of the grammar *)

(** How deep a rule nests others without consuming anything. *)
Definition rank (r : Rule) : nat :=
  match r with
  | WHITESPACE | COMMENT => 0
  | expression => 4
  | term | file => 3
  | namespace_def | relation_def | rewrite_rule | this_expr | computed_userset_expr
  | tuple_to_userset_expr | union_expr | intersection_expr | exclusion_expr => 2
  | _ => 1
  end.

Definition eats (r : Rule) : bool := match r with file | EOI => false | _ => true end.

Fixpoint consumes (e : Peg) : bool :=
  match e with
  | Str l => negb (str_is_empty l)
  | Byte _ => true
  | Use r => eats r
  | Then a b => consumes a || consumes b
  | Or a b => consumes a && consumes b
  | _ => false
  end.

(** Before a byte is consumed, only rules of a rank below [k] are used; what is
    repeated consumes. *)
Fixpoint fits (k : nat) (e : Peg) : bool :=
  match e with
  | Use r => rank r <? k
  | Then a b => fits k a && fits (if consumes a then MAX_RANK else k) b
  | Or a b => fits k a && fits k b
  | Many a => consumes a && fits k a && fits MAX_RANK a
  | Maybe a | Unless a => fits k a
  | _ => true
  end.

Lemma grammar_fits r : fits (rank r) (grammar r).2 = true.
Proof. by destruct r. Qed.
Lemma grammar_eats r : eats r = true → consumes (grammar r).2 = true.
Proof. by destruct r. Qed.
(** ** Evaluation *)

Section eval_props.
Context (use : Rule → Parse) (skip : Parse).
Hypothesis use_splits : ∀ r, splits (eats r) (use r).
Hypothesis skip_splits : splits false skip.

Lemma eval_splits e : splits (consumes e) (eval use skip e).
Proof.
  induction e as [l|p|r|a IHa b IHb|a IHa b IHb|a IH|a IH|a IH| |]; cbn [consumes].
  - intros at_ s t rest ps. cbn. destruct (literal l s) eqn:E; [|done]. intros [= <- <- <-].
    apply literal_splits in E as ->. split; [done|]. by destruct l.
  - intros at_ s t rest ps. cbn. destruct s as [|b s]; [done|]. destruct (p b); [|done].
    by intros [= <- <- <-].
  - apply use_splits.
  - intros at_ s. cbn. rewrite <- (orb_false_l (consumes b)).
    by apply both_splits, both_splits.
  - intros at_ s. cbn. apply otherwise_splits.
    + intros ?????. intros [-> Hx]%IHa. split; [done|]. by intros [? _]%andb_prop; auto.
    + intros ?????. intros [-> Hx]%IHb. split; [done|]. by intros [_ ?]%andb_prop; auto.
  - intros at_ s t rest ps. cbn [eval]. revert t rest ps.
    apply (otherwise_splits false); [|apply nothing_splits].
    apply (both_splits false false); [by eapply splits_weaken|]. eapply many_splits.
    by apply both_splits.
  - intros at_ s. cbn. apply otherwise_splits; [by eapply splits_weaken|apply nothing_splits].
  - intros at_ s t rest ps. cbn. destruct (eval use skip a at_ s); [done| |done]. by intros [= <- <- <-].
  - intros at_ s t rest ps. cbn. destruct (at_ =? 0); [|done]. by intros [= <- <- <-].
  - intros at_ s t rest ps. cbn. destruct (str_is_empty s); [|done]. by intros [= <- <- <-].
Qed.
End eval_props.

Lemma skip_splits use : (∀ r, splits (eats r) (use r)) → splits false (skip_with use).
Proof.
  intros Hu at_ s. unfold skip_with. eapply many_splits. 
  apply (otherwise_splits true); [apply (Hu WHITESPACE)|apply (Hu COMMENT)].
Qed.

Lemma run_splits n within r : splits (eats r) (run n within r).
Proof.
  revert within r. induction n as [|n IH]; intros within r; [done|].
  intros at_ s t rest ps. cbn [run].
  destruct (grammar r) as [ty body] eqn:Eg.
  set (inside := within || is_atomic r ty). set (skip := if inside then nothing else _).
  assert (splits false skip) as Hskip.
  { subst skip. destruct inside; [apply nothing_splits|by apply skip_splits]. }
  pose proof (eval_splits (run n inside) skip (IH inside) Hskip body at_ s) as Hs.
  assert (eats r = true → consumes body = true) as He.
  { intros Hr%grammar_eats. by rewrite Eg in Hr. }
  destruct (eval _ _ body at_ s) as [t' rest' ps'| |]; [|by destruct within|by destruct within].
  destruct (Hs _ _ _ eq_refl) as [-> Hne].
  destruct within; [intros [= <- <- <-]|intros [= <- <- _]]; auto.
Qed.

(** ** Parsing ends *)

Ltac fuel_lia := unfold MAX_RANK in *; lia.

Definition answers (n : nat) (a : Parse) : Prop := ∀ at_ s, byte_len s ≤ n → a at_ s ≠ OutOfFuel.

Lemma both_answers n x a b :
  answers n a → splits x a → (if x then ∀ m, n = S m → answers m b else answers n b) →
  answers n (both a b).
Proof.
  intros Ha Hs Hb at_ s Hlen. unfold both. destruct (a at_ s) as [t rest ps| |] eqn:E; [|done|].
  2: { by destruct (Ha at_ s Hlen). }
  destruct (Hs _ _ _ _ _ E) as [-> Ht]. rewrite byte_len_app in Hlen.
  enough (b (at_ + String.length t) rest ≠ OutOfFuel) by (by destruct (b _ rest)).
  destruct x; [|apply Hb; lia]. destruct t as [|c t]; [by destruct Ht|].
  cbn in Hlen. destruct n as [|n]; [lia|]. apply (Hb n); [done|]. lia.
Qed.

Lemma otherwise_answers n a b : answers n a → answers n b → answers n (otherwise a b).
Proof.
  intros Ha Hb at_ s Hlen. unfold otherwise. destruct (a at_ s) eqn:E; [done|by apply Hb|].
  by destruct (Ha at_ s Hlen).
Qed.

Lemma nothing_answers n : answers n nothing.
Proof. done. Qed.

Lemma many_answers n m a : answers n a → splits true a → n < m → answers n (many m a).
Proof.
  intros Ha Hs. revert m. induction n as [n IH] using lt_wf_ind. intros [|m] Hm; [lia|].
  apply otherwise_answers; [|apply nothing_answers].
  apply (both_answers n true); [done|done|]. intros k ->. apply (IH k); [lia| |lia].
  intros at_ s Hl. apply Ha. lia.
Qed.

Section eval_answers.
Context (use : Rule → Parse) (skip : Parse) (fuel : nat) (skips : bool).
Hypothesis use_splits : ∀ r, splits (eats r) (use r).
Hypothesis skip_splits : splits false skip.
Hypothesis use_answers : ∀ r n, MAX_RANK * n + rank r < fuel → answers n (use r).
Hypothesis skip_answers : ∀ n, (skips = true → MAX_RANK * n < fuel) → answers n skip.

Lemma eval_answers e : ∀ k n,
  (skips = true → 0 < k) ∧ k ≤ MAX_RANK → fits k e = true → MAX_RANK * n + k ≤ fuel → answers n (eval use skip e).
Proof.
  assert (∀ e, splits (consumes e) (eval use skip e)) as Hsplit by (intros; by apply eval_splits).
  induction e as [l|p|r|a IHa b IHb|a IHa b IHb|a IH|a IH|a IH| |]; intros k n Hk Hfit Hfuel;
    cbn [fits] in Hfit; rewrite ?andb_true_iff in Hfit.
  - intros at_ s _. cbn. by destruct (literal l s).
  - intros at_ s _. cbn. destruct s as [|b s]; [done|]. by destruct (p b).
  - apply use_answers. apply Nat.ltb_lt in Hfit. lia.
  - destruct Hfit as [Hfa Hfb]. intros at_ s. cbn [eval]. revert at_ s.
    change (answers n (both (eval use skip a) (both skip (eval use skip b)))).
    apply (both_answers n (consumes a)); [by apply (IHa k)|done|].
    destruct (consumes a); [intros m ->|]; (apply (both_answers _ false);
      [apply skip_answers; intros Hsk; pose proof (proj1 Hk Hsk); fuel_lia|done|]).
    + apply (IHb MAX_RANK); [split; intros; fuel_lia|done|]. fuel_lia.
    + by apply (IHb k).
  - destruct Hfit as [Hfa Hfb].
    change (answers n (otherwise (eval use skip a) (eval use skip b))).
    apply otherwise_answers; [by apply (IHa k)|by apply (IHb k)].
  - destruct Hfit as [[Hc Hfa] Hfm]. intros at_ s Hlen.
    change (otherwise (both (eval use skip a) (many (S (String.length s)) (both skip (eval use skip a))))
              nothing at_ s ≠ OutOfFuel).
    pose proof (Hsplit a) as Hsa. rewrite Hc in Hsa.
    apply (otherwise_answers (byte_len s)); [|apply nothing_answers|done].
    apply (both_answers _ true); [apply (IH k); [done|done|fuel_lia]|done|]. intros m Em.
    apply many_answers; [|by apply (both_splits false true)|lia].
    apply (both_answers _ false); [apply skip_answers; intros Hsk; pose proof (proj1 Hk Hsk); fuel_lia|done|].
    apply (IH MAX_RANK); [split; intros; fuel_lia|done|]. fuel_lia.
  - change (answers n (otherwise (eval use skip a) nothing)).
    apply otherwise_answers; [by apply (IH k)|apply nothing_answers].
  - intros at_ s Hlen. cbn. pose proof (IH k n Hk Hfit Hfuel at_ s Hlen). by destruct (eval _ _ a at_ s).
  - intros at_ s _. cbn. by destruct (at_ =? 0).
  - intros at_ s _. cbn. by destruct (str_is_empty s).
Qed.
End eval_answers.

Lemma skip_answers use n :
  (∀ r, splits (eats r) (use r)) → answers n (use WHITESPACE) → answers n (use COMMENT) →
  answers n (skip_with use).
Proof.
  intros Hs Hw Hc at_ s Hlen. unfold skip_with.
  apply (many_answers (byte_len s)); [| |lia|done].
  - apply otherwise_answers; intros at' s' Hl; [apply Hw|apply Hc]; lia.
  - apply (otherwise_splits true); [apply (Hs WHITESPACE)|apply (Hs COMMENT)].
Qed.

Lemma run_answers fuel : ∀ within r n, MAX_RANK * n + rank r < fuel → answers n (run fuel within r).
Proof.
  induction fuel as [|fuel IH]; intros within r n Hn; [lia|]. intros at_ s Hlen. cbn [run].
  pose proof (grammar_fits r) as Hfit. destruct (grammar r) as [ty body] eqn:Eg. cbn [snd] in Hfit.
  set (inside := within || is_atomic r ty). set (skip := if inside then nothing else _).
  assert (rank r = 0 → inside = true) as Hz.
  { intros Hr. subst inside. apply orb_true_iff. right. by destruct r, ty. }
  enough (eval (run fuel inside) skip body at_ s ≠ OutOfFuel) as H.
  { by destruct within, (eval _ _ body at_ s). }
  revert Hlen. revert at_ s.
  assert (rank r ≤ MAX_RANK) by (unfold MAX_RANK; destruct r; cbn; lia).
  apply (eval_answers _ _ fuel (negb inside)) with (k := rank r); [apply run_splits| | | | |done|lia].
  - subst skip. destruct inside; [apply nothing_splits|apply skip_splits, run_splits].
  - intros r' m Hm. by apply IH.
  - intros m Hm. subst skip. destruct inside; [apply nothing_answers|].
    apply skip_answers; [apply run_splits|apply IH; specialize (Hm eq_refl); cbn [rank]; lia..].
  - split; [|done]. destruct inside; [done|]. intros _. destruct (rank r); [by specialize (Hz eq_refl)|lia].
Qed.

(** ** More fuel does not matter *)

Definition below (a b : Parse) : Prop := ∀ at_ s, a at_ s ≠ OutOfFuel → b at_ s = a at_ s.

Lemma below_refl a : below a a.
Proof. done. Qed.

Lemma both_below a a' b b' : below a a' → below b b' → below (both a b) (both a' b').
Proof.
  intros Ha Hb at_ s. unfold both. destruct (a at_ s) as [t rest ps| |] eqn:E; [| |done];
    intros Hn; rewrite (Ha at_ s), E by (by rewrite E); [|done].
  destruct (b _ rest) eqn:E'; [| |done]; by rewrite (Hb _ rest), E' by (by rewrite E').
Qed.

Lemma otherwise_below a a' b b' : below a a' → below b b' → below (otherwise a b) (otherwise a' b').
Proof.
  intros Ha Hb at_ s. unfold otherwise. destruct (a at_ s) eqn:E; [| |done];
    intros Hn; rewrite (Ha at_ s), E by (by rewrite E); [done|]. by apply Hb.
Qed.

Lemma many_below n a a' : below a a' → below (many n a) (many n a').
Proof.
  intros Ha. induction n as [|n IH]; [done|].
  apply otherwise_below; [by apply both_below|apply below_refl].
Qed.

Lemma eval_below use use' skip skip' e :
  (∀ r, below (use r) (use' r)) → below skip skip' → below (eval use skip e) (eval use' skip' e).
Proof.
  intros Hu Hs. induction e as [l|p|r|a IHa b IHb|a IHa b IHb|a IH|a IH|a IH| |]; try done.
  - apply Hu.
  - apply (both_below _ _ _ _ IHa (both_below _ _ _ _ Hs IHb)).
  - apply (otherwise_below _ _ _ _ IHa IHb).
  - intros at_ s. apply (otherwise_below _ _ nothing nothing); [|done].
    apply both_below; [done|]. apply many_below. by apply both_below.
  - apply (otherwise_below _ _ nothing nothing IH), below_refl.
  - intros at_ s. cbn. destruct (eval use skip a at_ s) eqn:E; [| |done];
      intros _; by rewrite (IH at_ s), E by (by rewrite E).
Qed.

Lemma run_below n n' within r : n ≤ n' → below (run n within r) (run n' within r).
Proof.
  revert n' within r. induction n as [|n IH]; intros n' within r Hn; [by intros at_ s []|].
  destruct n' as [|n']; [lia|]. intros at_ s. cbn [run]. destruct (grammar r) as [ty body].
  set (inside := within || is_atomic r ty). intros Hne.
  assert (below (eval (run n inside) (if inside then nothing else skip_with (run n true)) body)
    (eval (run n' inside) (if inside then nothing else skip_with (run n' true)) body)) as Hb.
  { apply eval_below; [intros r'; apply IH; lia|]. destruct inside; [done|].
    intros at' s'. apply many_below. apply otherwise_below; apply IH; lia. }
  rewrite Hb; [done|]. intros E. by rewrite E in Hne; destruct within.
Qed.

(** The fuel of [parse_grammar] is enough: any more gives the same answer, and
    so does pest, which has none. *)
Lemma parse_grammar_fuel fuel dsl :
  grammar_fuel dsl ≤ fuel →
  parse_grammar dsl = match run fuel false file 0 dsl with Matched _ _ ps => Some ps | _ => None end ∧
  run fuel false file 0 dsl ≠ OutOfFuel.
Proof.
  intros Hf. assert (run (grammar_fuel dsl) false file 0 dsl ≠ OutOfFuel) as Ha.
  { apply (run_answers _ _ _ (byte_len dsl)); [|done]. cbn [rank]. unfold grammar_fuel. fuel_lia. }
  unfold parse_grammar. by rewrite (run_below _ fuel false file Hf 0 dsl Ha).
Qed.

#[local] Arguments Ascii.eqb : simpl never.

(** ** Accepting and refusing *)

(** A parsing expression outside atomic rules. *)
Definition peg (n : nat) (e : Peg) : Parse := eval (run n false) (skip_with (run n true)) e.

(** From some fuel on, and at every offset. *)
Definition eventually (a : nat → Parse) (s : string) (o : Outcome) : Prop :=
  ∃ n, ∀ m at_, n ≤ m → a m at_ s = o.

Definition accepts (e : Peg) (s rest : string) (ps : list Pair) : Prop :=
  ∃ t, eventually (λ m, peg m e) s (Matched t rest ps).
Definition refuses (e : Peg) (s : string) : Prop := eventually (λ m, peg m e) s Failed.

Definition blank (b : ascii) : bool :=
  existsb (Ascii.eqb b) [" "%char; ascii_of_N 9; ascii_of_N 13; ascii_of_N 10].
(** Nothing is skipped before [s]. *)
Definition starts (s : string) : bool :=
  match s with String b _ => negb (blank b) && negb (Ascii.eqb b "/") | EmptyString => true end.
Definition skips (s rest : string) : Prop :=
  ∃ w, s = w +:+ rest ∧ str_forall blank w = true ∧ starts rest = true.

Lemma skips_blank b s rest : blank b = true → skips s rest → skips (String b s) rest.
Proof. intros Hb (w & -> & Hw & Hr). exists (String b w). split; [done|]. cbn [str_forall]. by rewrite Hb. Qed.
Lemma skips_none s : starts s = true → skips s s.
Proof. intros Hs. by exists "". Qed.

(** A step that takes the bytes of [w] one by one and then fails. *)
Lemma many_run (a : Parse) (p : ascii → bool) w rest at_ k :
  (∀ at_ b s, p b = true → a at_ (String b s) = Matched (String b "") s []) →
  (∀ at_, a at_ rest = Failed) → str_forall p w = true → byte_len (w +:+ rest) < k →
  many k a at_ (w +:+ rest) = Matched w rest [].
Proof.
  intros Ha Hr. revert at_ k. induction w as [|b w IH]; intros at_ [|k] Hw Hk; [lia| |cbn in Hk; lia|].
  - cbn [many]. unfold otherwise, both. by rewrite Hr.
  - cbn in Hw. apply andb_prop in Hw as [Hb Hw]. rewrite string_cons_app in Hk. cbn [String.length] in Hk. cbn [many]. rewrite string_cons_app.
    unfold otherwise, both. rewrite Ha by done. rewrite IH by (done || lia). done.
Qed.

Lemma skip_run m at_ w rest :
  1 < m → str_forall blank w = true → starts rest = true →
  skip_with (run m true) at_ (w +:+ rest) = Matched w rest [].
Proof.
  intros Hm Hw Hr. unfold skip_with. do 2 (destruct m as [|m]; [lia|]).
  apply (many_run _ blank); [| |done|lia].
  - intros at' b s Hb. unfold otherwise. cbn.
    unfold blank in Hb. cbn in Hb. rewrite !orb_true_iff, !Ascii.eqb_eq in Hb.
    by destruct Hb as [-> |[-> |[-> |[-> |?]]]].
  - intros at'. unfold otherwise. destruct rest as [|b rest]; [done|]. unfold starts in Hr.
    apply andb_prop in Hr as [Hb Hs]. apply negb_true_iff in Hb, Hs.
    unfold blank in Hb. cbn in Hb. rewrite !orb_false_iff in Hb. destruct Hb as (H1 & H2 & H3 & H4 & _).
    rewrite Ascii.eqb_sym in H1, H2, H3, H4, Hs. cbn. unfold otherwise. cbn.
    rewrite H1, H2, H3, H4. cbn. unfold both. cbn. by rewrite Hs.
Qed.

Lemma peg_consumes m e at_ s t rest ps :
  peg m e at_ s = Matched t rest ps → s = t +:+ rest ∧ (consumes e = true → byte_len rest < byte_len s).
Proof.
  intros [-> Ht]%eval_splits; [|intros; apply run_splits|apply skip_splits, run_splits].
  split; [done|]. intros Hc. rewrite byte_len_app. destruct t; [by destruct (Ht Hc)|cbn; lia].
Qed.

(** ** Rules *)

Lemma accepts_str (l s rest : string) : literal l s = Some rest → accepts (Str l) s rest [].
Proof. intros Hl. exists l, 0. intros m at_ _. cbn. by rewrite Hl. Qed.

Lemma accepts_use (r : Rule) body s rest ps :
  grammar r = normal body → accepts body s rest ps → ∃ t, accepts (Use r) s rest [mkPair r t ps].
Proof.
  intros Hg (t & n & Ht). exists t, t, (S n). intros m at_ Hm. destruct m as [|m]; [lia|].
  assert (is_atomic r Normal = false) as Ha by (by destruct r).
  unfold peg. cbn [eval run]. rewrite Hg. cbn -[is_atomic]. rewrite Ha. cbn.
  unfold peg in Ht. by rewrite Ht by lia.
Qed.

Lemma accepts_then a b s s1 s2 rest ps ps' :
  accepts a s s1 ps → skips s1 s2 → accepts b s2 rest ps' → accepts (Then a b) s rest (ps ++ ps').
Proof.
  intros (t & n & Ha) (w & -> & Hw & Hs) (t' & n' & Hb). exists (t +:+ (w +:+ t')), (2 + n + n').
  intros m at_ Hm. change (both (peg m a) (both (skip_with (run m true)) (peg m b)) at_ s =
    Matched (t +:+ (w +:+ t')) rest (ps ++ ps')). unfold both. rewrite Ha by lia.
  rewrite skip_run by (done || lia). by rewrite Hb by lia.
Qed.

Lemma accepts_left a b s rest ps : accepts a s rest ps → accepts (Or a b) s rest ps.
Proof.
  intros (t & n & Ha). exists t, n. intros m at_ Hm.
  change (otherwise (peg m a) (peg m b) at_ s = Matched t rest ps). unfold otherwise. by rewrite Ha.
Qed.

Lemma accepts_right a b s rest ps :
  refuses a s → accepts b s rest ps → accepts (Or a b) s rest ps.
Proof.
  intros [n Ha] (t & n' & Hb). exists t, (n + n'). intros m at_ Hm.
  change (otherwise (peg m a) (peg m b) at_ s = Matched t rest ps). unfold otherwise.
  rewrite Ha by lia. apply Hb. lia.
Qed.

Lemma accepts_maybe a s rest ps : accepts a s rest ps → accepts (Maybe a) s rest ps.
Proof.
  intros (t & n & Ha). exists t, n. intros m at_ Hm.
  change (otherwise (peg m a) nothing at_ s = Matched t rest ps). unfold otherwise. by rewrite Ha.
Qed.

Lemma accepts_none a s : refuses a s → accepts (Maybe a) s s [].
Proof.
  intros [n Ha]. exists "", n. intros m at_ Hm.
  change (otherwise (peg m a) nothing at_ s = Matched "" s []). unfold otherwise. by rewrite Ha.
Qed.

(** Repetition after its first turn. *)
Definition chain (a : Peg) (s rest : string) (ps : list Pair) : Prop :=
  ∃ t n, ∀ m at_ k, n ≤ m → byte_len s < k →
    many k (both (skip_with (run m true)) (peg m a)) at_ s = Matched t rest ps.

Lemma chain_end a s s' : skips s s' → refuses a s' → chain a s s [].
Proof.
  intros (w & -> & Hw & Hs) [n Ha]. exists "", (2 + n). intros m at_ [|k] Hm Hk; [lia|]. cbn [many].
  unfold otherwise, both. rewrite skip_run by (done || lia). by rewrite Ha by lia.
Qed.

Lemma chain_turn a s s1 s2 rest ps ps' :
  consumes a = true → skips s s1 → accepts a s1 s2 ps → chain a s2 rest ps' →
  chain a s rest (ps ++ ps').
Proof.
  intros Hc (w & -> & Hw & Hs) (t & n & Ha) (t' & n' & Hb).
  exists ((w +:+ t) +:+ t'), (2 + n + n'). intros m at_ [|k] Hm Hk; [lia|]. cbn [many].
  unfold otherwise. unfold both at 1. unfold both at 1.
  rewrite skip_run by (done || lia). rewrite Ha by lia.
  destruct (peg_consumes m a 0 s1 t s2 ps) as [_ Hl]; [apply Ha; lia|]. specialize (Hl Hc).
  rewrite byte_len_app in Hk. by rewrite Hb by lia.
Qed.

Lemma accepts_empty a s : refuses a s → accepts (Many a) s s [].
Proof.
  intros [n Ha]. exists "", n. intros m at_ Hm.
  change (otherwise (both (peg m a) (many (S (String.length s))
    (both (skip_with (run m true)) (peg m a)))) nothing at_ s = Matched "" s []).
  unfold otherwise, both at 1. by rewrite Ha.
Qed.

Lemma accepts_many a s s1 rest ps ps' :
  consumes a = true → accepts a s s1 ps → chain a s1 rest ps' → accepts (Many a) s rest (ps ++ ps').
Proof.
  intros Hc (t & n & Ha) (t' & n' & Hb). exists (t +:+ t'), (n + n'). intros m at_ Hm.
  change (otherwise (both (peg m a) (many (S (String.length s))
    (both (skip_with (run m true)) (peg m a)))) nothing at_ s = Matched (t +:+ t') rest (ps ++ ps')).
  unfold otherwise. unfold both at 1. rewrite Ha by lia.
  destruct (peg_consumes m a 0 s t s1 ps) as [_ Hl]; [apply Ha; lia|]. specialize (Hl Hc).
  by rewrite Hb by lia.
Qed.

(** Refusals that the first bytes decide. *)
Ltac refuse :=
  exists 8; let m := fresh "m" in intros m ? ?; do 8 (destruct m as [|m]; [lia|]); reflexivity.

(** ** Tokens *)

Definition name_byte (b : ascii) : bool := is_ascii_alphanumeric b || Ascii.eqb b "_".
Definition grammar_ident (s : string) : bool :=
  match s with
  | String b s => (is_ascii_alphabetic b || Ascii.eqb b "_") && str_forall name_byte s
  | EmptyString => false
  end.
Definition ends_name (s : string) : bool :=
  match s with String b _ => negb (name_byte b) | EmptyString => true end.

(** A byte of a class or the underscore. *)
Lemma or_underscore (p : ascii → bool) use skip at_ b s :
  eval use skip (Or (Byte p) (Str "_")) at_ (String b s) =
  if p b || Ascii.eqb b "_" then Matched (String b "") s [] else Failed.
Proof.
  cbn. unfold otherwise. cbn. destruct (p b); [done|]. cbn. rewrite Ascii.eqb_sym.
  by destruct (Ascii.eqb_spec b "_") as [->|].
Qed.

Lemma run_atomic m (r : Rule) body at_ s :
  grammar r = atomic body →
  peg (S m) (Use r) at_ s = pair_of r Atomic (eval (run m true) nothing body at_ s).
Proof. intros Hg. unfold peg. cbn [eval run]. by rewrite Hg. Qed.

Lemma many_bytes use (e : Peg) (p : ascii → bool) w rest at_ :
  (∀ at_ b s, eval use nothing e at_ (String b s) = if p b then Matched (String b "") s [] else Failed) →
  (∀ at_, eval use nothing e at_ "" = Failed) → str_forall p w = true →
  match rest with String b _ => p b = false | EmptyString => True end →
  eval use nothing (Many e) at_ (w +:+ rest) = Matched w rest [].
Proof.
  intros He Hn Hw Hr.
  change (otherwise (both (eval use nothing e) (many (S (byte_len (w +:+ rest)))
    (both nothing (eval use nothing e)))) nothing at_ (w +:+ rest) = Matched w rest []).
  assert (∀ at_, eval use nothing e at_ rest = Failed) as Hfail.
  { intros a. destruct rest as [|b rest]; [done|]. by rewrite He, Hr. }
  unfold otherwise, both at 1. destruct w as [|b w]; [by rewrite Hfail|].
  cbn [str_forall] in Hw. apply andb_prop in Hw as [Hb Hw]. rewrite string_cons_app, He, Hb.
  rewrite (many_run _ p); [done| | |done|cbn; lia].
  - intros a b' s Hb'. unfold both. cbn. by rewrite He, Hb'.
  - intros a. unfold both. cbn. by rewrite Hfail.
Qed.

Lemma accepts_identifier name rest :
  grammar_ident name = true → ends_name rest = true →
  accepts (Use IDENTIFIER) (name +:+ rest) rest [mkPair IDENTIFIER name []].
Proof.
  destruct name as [|b w]; [done|]. intros [Hb Hw]%andb_prop Hr.
  exists (String b w), 1. intros m at_ Hm. destruct m as [|m]; [lia|].
  rewrite (run_atomic m IDENTIFIER _ at_ _ eq_refl).
  change (pair_of IDENTIFIER Atomic (both (eval (run m true) nothing (Or ASCII_ALPHA (Str "_")))
    (both nothing (eval (run m true) nothing (Many (Or ASCII_ALPHANUMERIC (Str "_"))))) at_
    (String b w +:+ rest)) = Matched (String b w) rest [mkPair IDENTIFIER (String b w) []]).
  unfold both. rewrite string_cons_app. unfold ASCII_ALPHA, ASCII_ALPHANUMERIC. rewrite or_underscore, Hb.
  cbn [nothing]. rewrite (many_bytes _ _ name_byte); [done|..].
  - intros a b' s. apply or_underscore.
  - done.
  - done.
  - destruct rest; [done|]. by apply negb_true_iff.
Qed.

Lemma accepts_literal s rest :
  str_contains QUOTE s = false →
  accepts (Use STRING_LITERAL) (String QUOTE (s +:+ String QUOTE rest)) rest
    [mkPair STRING_LITERAL (String QUOTE (s +:+ String QUOTE "")) []].
Proof.
  intros Hs. exists (String QUOTE (s +:+ String QUOTE "")), 1. intros m at_ Hm. destruct m as [|m]; [lia|].
  rewrite (run_atomic m STRING_LITERAL _ at_ _ eq_refl).
  set (inside := Then (Unless QUOTATION) ANY).
  change (pair_of STRING_LITERAL Atomic (both (eval (run m true) nothing QUOTATION)
    (both nothing (both (eval (run m true) nothing (Many inside))
      (both nothing (eval (run m true) nothing QUOTATION)))) at_ (String QUOTE (s +:+ String QUOTE rest))) =
    Matched (String QUOTE (s +:+ String QUOTE "")) rest
      [mkPair STRING_LITERAL (String QUOTE (s +:+ String QUOTE "")) []]).
  unfold both. cbn [nothing].
  change (eval (run m true) nothing QUOTATION at_ (String QUOTE (s +:+ String QUOTE rest))) with
    (Matched QUOTATION (s +:+ String QUOTE rest) []). cbv iota beta.
  rewrite (many_bytes _ _ (λ b, negb (Ascii.eqb b QUOTE))); [done|..].
  - intros a b t. subst inside. cbn [eval]. unfold both. cbn [eval nothing]. unfold QUOTATION.
    cbn [literal]. rewrite Ascii.eqb_sym. by destruct (Ascii.eqb b QUOTE).
  - done.
  - clear rest. induction s as [|b s IH]; [done|]. cbn [str_contains str_forall] in *.
    apply orb_false_iff in Hs as [-> Hs]. by apply IH.
  - done.
Qed.
