(* ===== verification/Legacy.v ===== *)
(** * Compilation of namespace configurations and the hash of a schema

    [compile_legacy_*] of src/src/schema/mod.rs, which turn configurations or
    the syntax tree of the policy language into a compiled schema, and
    [SchemaHash::for_schema] of src/src/revision.rs, the byte stream that
    identifies a schema in tokens. *)

From S2P Require Import Prelude Model Domain Revision Schema EvalContext Dsl.

(** ** Compilation *)

Definition to_object_type (s : string) : result ZanzibarError ObjectType :=
  map_err ZDomain (ident_new KObjectType s).
Definition to_relation_name (s : string) : result ZanzibarError RelationName :=
  map_err ZDomain (ident_new KRelationName s).

Fixpoint compile_legacy_expression (e : LegacyUsersetExpression)
    : result ZanzibarError UsersetExpression :=
  match e with
  | LThis => Ok This
  | LComputedUserset rel =>
      rel ← to_relation_name (relation_str rel); Ok (ComputedUserset rel)
  | LTupleToUserset tupleset computed =>
      tupleset ← to_relation_name (relation_str tupleset);
      computed ← to_relation_name (relation_str computed);
      Ok (TupleToUserset tupleset computed)
  | LUnion es => es ← try_map compile_legacy_expression es; Ok (Union es)
  | LIntersection es => es ← try_map compile_legacy_expression es; Ok (Intersection es)
  | LExclusion base exclude =>
      base ← compile_legacy_expression base;
      exclude ← compile_legacy_expression exclude;
      Ok (Exclusion base exclude)
  end.

Definition compile_legacy_relation (r : LegacyRelationAst)
    : result ZanzibarError RelationDefinition :=
  name ← to_relation_name (ast_relation_name r);
  rewrite ← match ast_rewrite r with
            | Some e => Some <$> compile_legacy_expression e
            | None => Ok None
            end;
  Ok (relation_definition_new name rewrite).

(** One turn of the loop of [compile_legacy_ast]. *)
Definition compile_legacy_namespace (ns : LegacyNamespaceAst)
    : result ZanzibarError NamespaceDefinition :=
  relations ← try_map compile_legacy_relation (ast_relations ns);
  name ← to_object_type (ast_name ns);
  Ok (mkNamespaceDefinition name relations).

Definition compile_legacy_ast (namespaces : list LegacyNamespaceAst)
    : result ZanzibarError CompiledSchema :=
  definitions ← try_map compile_legacy_namespace namespaces;
  map_err ZSchema (from_definitions definitions).

Definition compile_legacy_dsl `{PestParser} (source : string)
    : result ZanzibarError CompiledSchema :=
  asts ← parse_dsl_ast source; compile_legacy_ast asts.

(** The first loop of [compile_legacy_configs]: [into_values] visits the
    relations in the order of the hash table. *)
Definition ast_of_config `{HashOrder} (config : NamespaceConfig) : LegacyNamespaceAst :=
  mkNamespaceAst (config_name config)
    ((λ r, mkRelationAst (relation_str (config_relation_name r)) (config_userset_rewrite r))
       <$> hash_values (config_relations config)).

Definition compile_legacy_configs `{HashOrder} (configs : list NamespaceConfig)
    : result ZanzibarError CompiledSchema :=
  compile_legacy_ast (ast_of_config <$> configs).

(** ** The hash of a schema *)

Local Open Scope Z_scope.

(** [n.to_le_bytes()] for an integer of [width] bytes. *)
Fixpoint le_bytes (width : nat) (n : Z) : list Z :=
  match width with
  | O => []
  | S width => n mod 256 :: le_bytes width (n / 256)
  end.

Fixpoint str_bytes (s : string) : list Z :=
  match s with
  | EmptyString => []
  | String b s => byte_val b :: str_bytes s
  end.

(** [update_str]: the length as a 64-bit [usize], then the bytes. The hasher's
    input is the concatenation of its updates. *)
Definition update_str (value : string) : list Z :=
  le_bytes 8 (Z.of_nat (byte_len value)) ++ str_bytes value.

Fixpoint update_expression (e : UsersetExpression) : list Z :=
  match e with
  | This => update_str "this"
  | ComputedUserset rel => update_str "computed_userset" ++ update_str (as_str rel)
  | TupleToUserset tupleset computed =>
      update_str "tuple_to_userset" ++ update_str (as_str tupleset) ++ update_str (as_str computed)
  | Union es => update_str "union" ++ concat (map update_expression es)
  | Intersection es => update_str "intersection" ++ concat (map update_expression es)
  | Exclusion base exclude =>
      update_str "exclusion" ++ update_expression base ++ update_expression exclude
  end.

(** [sort_by] on names. *)
Definition by_name {A} (name : A → string) (a b : A) : Prop := String.le (name a) (name b).
#[global] Instance by_name_dec {A} (name : A → string) : RelDecision (by_name name) :=
  λ a b, decide (String.le (name a) (name b)).
Definition sort_by_name {A} (name : A → string) (l : list A) : list A :=
  merge_sort (by_name name) l.

Definition update_relation (rd : RelationDefinition) : list Z :=
  update_str "relation" ++ update_str (as_str (rd_name rd)) ++
  match rd_allowed_subject_types rd with
  | Unspecified => update_str "subjects_unspecified"
  | Explicit ts =>
      update_str "subjects_explicit" ++ concat (map update_str (sort_by_name (λ s, s) (map as_str ts)))
  end ++
  match rd_userset_rewrite rd with
  | Some e => update_expression e
  | None => update_str "rewrite_none"
  end.

Definition relation_key (rd : RelationDefinition) : string := as_str (rd_name rd).
Definition namespace_key (ns : NamespaceDefinition) : string := as_str (ns_name ns).

Definition update_namespace (ns : NamespaceDefinition) : list Z :=
  update_str "namespace" ++ update_str (namespace_key ns) ++
  concat (map update_relation (sort_by_name relation_key (ns_relations ns))).

(** What [for_schema] feeds the hasher. *)
Definition schema_bytes (c : CompiledSchema) : list Z :=
  concat (map update_namespace (sort_by_name namespace_key (cs_definitions c))).

(** [blake3::Hasher]: the digest of the bytes it was fed. *)
Class Blake3 := { blake3 : list Z → SchemaHash }.

Definition hash_for_schema `{Blake3} (c : CompiledSchema) : SchemaHash := blake3 (schema_bytes c).

(** ** Datastore ids

    [DatastoreId::new_unique]: the ids that tie consistency tokens to one engine.
    The clock and the process id are arguments, the process-wide counter is
    state. *)

Lemma le_bytes_length n v : length (le_bytes n v) = n.
Proof. revert v. induction n as [|n IH]; intros v; simpl; [done|by rewrite IH]. Qed.

Lemma le_bytes_inj n a b :
  (0 ≤ a < 256 ^ Z.of_nat n)%Z → (0 ≤ b < 256 ^ Z.of_nat n)%Z → le_bytes n a = le_bytes n b → a = b.
Proof.
  revert a b. induction n as [|n IH]; intros a b Ha Hb E; [cbn in *; lia|].
  rewrite Nat2Z.inj_succ, Z.pow_succ_r in Ha, Hb by lia. cbn [le_bytes] in E. injection E as E0 E.
  apply IH in E; [|split; [apply Z.div_pos; lia|apply Z.div_lt_upper_bound; lia]..].
  rewrite (Z.div_mod a 256), (Z.div_mod b 256) by lia. lia.
Qed.

Section datastore.
Local Open Scope Z_scope.

(** The initial value of [NEXT_DATASTORE_COUNTER]. *)
Definition NEXT_DATASTORE_COUNTER : Z := 1.

(** What the hasher is fed: a [u64], the [u128] of the nanoseconds between now
    and the epoch, and the process id as a [u64]. *)
Definition datastore_input (counter elapsed pid : Z) : list Z :=
  le_bytes 8 counter ++ le_bytes 16 elapsed ++ le_bytes 8 pid.

Lemma first_bytes_wf {n} m (b : ByteArray n) :
  Is_true (Nat.leb m n) →
  Is_true (Nat.eqb (length (take m (array_bytes b))) m && forallb (in_range 0 u8_max) (take m (array_bytes b))).
Proof.
  intros Hm%Is_true_true%Nat.leb_le. destruct b as [bs Hb]. cbn [array_bytes].
  apply Is_true_true, andb_true_iff in Hb as [Hl%Nat.eqb_eq Hb].
  apply Is_true_true, andb_true_iff. split.
  - apply Nat.eqb_eq. rewrite length_take. lia.
  - rewrite forallb_forall in Hb |- *. intros x Hx. apply Hb. apply list_elem_of_In.
    apply list_elem_of_In in Hx. by apply (subseteq_take m).
Qed.

(** The loop over the first bytes of a digest. *)
Definition first_bytes {n} m (b : ByteArray n) (Hm : Is_true (Nat.leb m n)) : ByteArray m :=
  mkByteArray (take m (array_bytes b)) (first_bytes_wf m b Hm).

(** [new_unique] with the counter before and after: [fetch_add] wraps. *)
Definition new_unique `{Blake3} (elapsed pid counter : Z) : DatastoreId * Z :=
  (first_bytes 16 (blake3 (datastore_input counter elapsed pid)) I, (counter + 1) mod 2 ^ 64).

(** The ids a process draws, one after the other, at the times of [clock]. *)
Fixpoint draw_ids `{Blake3} (pid counter : Z) (clock : list Z) : list DatastoreId :=
  match clock with
  | [] => []
  | elapsed :: clock =>
      let '(id, counter) := new_unique elapsed pid counter in id :: draw_ids pid counter clock
  end.

Lemma datastore_input_counter c e p c' e' p' :
  0 ≤ c < 2 ^ 64 → 0 ≤ c' < 2 ^ 64 → datastore_input c e p = datastore_input c' e' p' → c = c'.
Proof.
  intros Hc Hc' E. unfold datastore_input in E.
  apply app_inj_1 in E as [E _]; [|by rewrite !le_bytes_length].
  by apply le_bytes_inj in E.
Qed.

(** The [k]-th id is the digest of the [k]-th value of the counter. *)
Lemma drawn_id `{Blake3} pid c clock k id :
  1 ≤ c → c + Z.of_nat (length clock) ≤ 2 ^ 64 → draw_ids pid c clock !! k = Some id →
  ∃ elapsed, (k < length clock)%nat ∧
    array_bytes id = take 16 (array_bytes (blake3 (datastore_input (c + Z.of_nat k) elapsed pid))).
Proof.
  revert c k. induction clock as [|t ts IH]; intros c k Hc Hm Hk; [done|].
  cbn [length] in *. destruct k as [|k]; cbn [draw_ids new_unique lookup list_lookup] in Hk.
  - injection Hk as <-. exists t. rewrite Z.add_0_r. split; [lia|done].
  - destruct ts as [|t' ts]; [done|]. rewrite Z.mod_small in Hk by (cbn [length] in *; lia).
    destruct (IH (c + 1) k) as (e & He & Ex); [lia|lia|done|].
    exists e. replace (c + Z.of_nat (S k)) with (c + 1 + Z.of_nat k) by lia. split; [lia|done].
Qed.

(** No two of the first 2^64 - 1 ids of a process are digests of the same bytes:
    they are equal only if the digests collide, whatever the clock shows. *)
Theorem drawn_ids_collide_only_by_digest `{Blake3} pid clock i j id id' :
  Z.of_nat (length clock) < 2 ^ 64 → i ≠ j →
  draw_ids pid NEXT_DATASTORE_COUNTER clock !! i = Some id →
  draw_ids pid NEXT_DATASTORE_COUNTER clock !! j = Some id' →
  ∃ a b, a ≠ b ∧ array_bytes id = take 16 (array_bytes (blake3 a)) ∧
    array_bytes id' = take 16 (array_bytes (blake3 b)).
Proof.
  unfold NEXT_DATASTORE_COUNTER. intros Hl Hij Hi Hj.
  apply drawn_id in Hi as (e & Hi & Ei); [|lia..]. apply drawn_id in Hj as (e' & Hj & Ej); [|lia..].
  eexists _, _. split; [|split; [exact Ei|exact Ej]]. intros E%datastore_input_counter; lia.
Qed.
End datastore.
