(* ===== verification/LegacyProps.v ===== *)
(** * What configurations compile to

    Compilation of configurations is exact (nothing is lost or invented), does
    not depend on the order in which hash tables are visited, and the hash of a
    schema is canonical, but not injective. *)

From S2P Require Import Prelude Model Domain Revision StoreTypes Schema EvalContext EvalReads EvalSpec.
From S2P Require Import Dsl Legacy.

(** ** Compilation is exact *)

(** Back from the validated expression to the configuration's. *)
Fixpoint legacy_expr (e : UsersetExpression) : LegacyUsersetExpression :=
  match e with
  | This => LThis
  | ComputedUserset rel => LComputedUserset (mkRelation (as_str rel))
  | TupleToUserset ts computed =>
      LTupleToUserset (mkRelation (as_str ts)) (mkRelation (as_str computed))
  | Union es => LUnion (map legacy_expr es)
  | Intersection es => LIntersection (map legacy_expr es)
  | Exclusion base exclude => LExclusion (legacy_expr base) (legacy_expr exclude)
  end.

Definition legacy_relation (rd : RelationDefinition) : LegacyRelationAst :=
  mkRelationAst (relation_key rd) (legacy_expr <$> rd_userset_rewrite rd).
Definition legacy_namespace (ns : NamespaceDefinition) : LegacyNamespaceAst :=
  mkNamespaceAst (namespace_key ns) (map legacy_relation (ns_relations ns)).

(** A definition as [RelationDefinition::new] makes it. *)
Definition plain (rd : RelationDefinition) : Prop :=
  rd = relation_definition_new (rd_name rd) (rd_userset_rewrite rd).
Definition plain_namespace (ns : NamespaceDefinition) : Prop := Forall plain (ns_relations ns).

Lemma to_relation_name_Ok s rel : to_relation_name s = Ok rel ↔ as_str rel = s.
Proof. unfold to_relation_name. by rewrite map_err_Ok, ident_new_Ok. Qed.
Lemma to_object_type_Ok s t : to_object_type s = Ok t ↔ as_str t = s.
Proof. unfold to_object_type. by rewrite map_err_Ok, ident_new_Ok. Qed.

Lemma try_map_inverse {E A B} (f : A → result E B) (g : B → A) (P : B → Prop) l ys :
  Forall (λ x, ∀ y, f x = Ok y ↔ x = g y ∧ P y) l →
  try_map f l = Ok ys ↔ l = map g ys ∧ Forall P ys.
Proof.
  intros Hl. rewrite try_map_Ok. revert ys.
  induction Hl as [|x l Hx _ IH]; intros [|y ys]; simpl.
  - by split.
  - split; [by inversion 1|]. by intros [? _].
  - split; [by inversion 1|]. by intros [? _].
  - rewrite Forall2_cons, Hx, IH, Forall_cons. naive_solver.
Qed.

Lemma compile_expression_Ok e e' : compile_legacy_expression e = Ok e' ↔ e = legacy_expr e'.
Proof.
  revert e'. induction e as [|[r]|[t] [c]|es IH|es IH|b x IHb IHx] using legacy_ind; intros e';
    cbn [compile_legacy_expression relation_str].
  - destruct e'; naive_solver.
  - rewrite bind_Ok. setoid_rewrite to_relation_name_Ok.
    destruct e'; simpl; naive_solver.
  - rewrite bind_Ok. setoid_rewrite bind_Ok. repeat setoid_rewrite to_relation_name_Ok.
    destruct e'; simpl; naive_solver.
  - assert (∀ ys, try_map compile_legacy_expression es = Ok ys ↔
                  es = map legacy_expr ys ∧ Forall (λ _, True) ys) as H.
    { intros ys. apply try_map_inverse. eapply Forall_impl; [exact IH|]. naive_solver. }
    rewrite bind_Ok. setoid_rewrite H. destruct e' as [| | |l|l|]; simpl; try naive_solver.
    split; [naive_solver|]. intros [= ->]. exists l. split; [|done].
    split; [done|]. by apply Forall_true.
  - assert (∀ ys, try_map compile_legacy_expression es = Ok ys ↔
                  es = map legacy_expr ys ∧ Forall (λ _, True) ys) as H.
    { intros ys. apply try_map_inverse. eapply Forall_impl; [exact IH|]. naive_solver. }
    rewrite bind_Ok. setoid_rewrite H. destruct e' as [| | |l|l|]; simpl; try naive_solver.
    split; [naive_solver|]. intros [= ->]. exists l. split; [|done].
    split; [done|]. by apply Forall_true.
  - rewrite bind_Ok. setoid_rewrite bind_Ok. setoid_rewrite IHb. setoid_rewrite IHx.
    destruct e'; simpl; naive_solver.
Qed.

Lemma compile_relation_Ok r rd :
  compile_legacy_relation r = Ok rd ↔ r = legacy_relation rd ∧ plain rd.
Proof.
  unfold compile_legacy_relation. rewrite bind_Ok. setoid_rewrite to_relation_name_Ok.
  setoid_rewrite bind_Ok. split.
  - intros (name & Hn & o & Ho & [= <-]). split; [|done].
    unfold legacy_relation, relation_key. simpl. destruct r as [s o']. simpl in *.
    rewrite Hn. f_equal. destruct o' as [e|]; [|by injection Ho as <-].
    apply fmap_Ok in Ho as (e' & He%compile_expression_Ok & ->). simpl. by f_equal.
  - intros [-> Hp]. exists (rd_name rd). split; [done|].
    exists (rd_userset_rewrite rd). simpl. split; [|by rewrite <- Hp].
    destruct (rd_userset_rewrite rd) as [e|]; simpl; [|done].
    apply fmap_Ok. exists e. split; [by apply compile_expression_Ok|done].
Qed.

Lemma compile_namespace_Ok a ns :
  compile_legacy_namespace a = Ok ns ↔ a = legacy_namespace ns ∧ plain_namespace ns.
Proof.
  unfold compile_legacy_namespace. rewrite bind_Ok.
  assert (∀ rds, try_map compile_legacy_relation (ast_relations a) = Ok rds ↔
    ast_relations a = map legacy_relation rds ∧ Forall plain rds) as H.
  { intros rds. apply try_map_inverse, Forall_forall. intros r _. apply compile_relation_Ok. }
  setoid_rewrite H. setoid_rewrite bind_Ok. setoid_rewrite to_object_type_Ok.
  destruct a as [s rs], ns as [t rds]. unfold legacy_namespace, plain_namespace, namespace_key. simpl.
  naive_solver.
Qed.

(** What a syntax tree compiles to: the definitions it spells. *)
Lemma compile_ast_Ok asts cs :
  compile_legacy_ast asts = Ok cs ↔
  ∃ defs, asts = map legacy_namespace defs ∧ Forall plain_namespace defs ∧
          from_definitions defs = Ok cs.
Proof.
  unfold compile_legacy_ast. rewrite bind_Ok. setoid_rewrite map_err_Ok.
  assert (∀ defs, try_map compile_legacy_namespace asts = Ok defs ↔
    asts = map legacy_namespace defs ∧ Forall plain_namespace defs) as H.
  { intros defs. apply try_map_inverse, Forall_forall. intros a _. apply compile_namespace_Ok. }
  setoid_rewrite H. naive_solver.
Qed.

(** ** The order of definitions does not matter *)

(** The same namespaces with the same relations, listed in any order. *)
Definition namespace_perm (a b : NamespaceDefinition) : Prop :=
  ns_name a = ns_name b ∧ ns_relations a ≡ₚ ns_relations b.
Definition definitions_perm (l1 l2 : list NamespaceDefinition) : Prop :=
  ∃ l, l1 ≡ₚ l ∧ Forall2 namespace_perm l l2.

Lemma namespace_perm_sym a b : namespace_perm a b → namespace_perm b a.
Proof. intros [H1 H2]. split; by symmetry. Qed.

Lemma definitions_perm_sym l1 l2 : definitions_perm l1 l2 → definitions_perm l2 l1.
Proof.
  intros (l & Hp & HF). symmetry in Hp.
  destruct (Permutation_Forall2 Hp HF) as (l' & Hp' & HF').
  exists l'. split; [done|]. apply Forall2_flip. eapply Forall2_impl; [exact HF'|].
  intros a b H. by apply namespace_perm_sym.
Qed.

Lemma definitions_perm_in l1 l2 ns :
  definitions_perm l1 l2 → ns ∈ l1 → ∃ ns', ns' ∈ l2 ∧ namespace_perm ns ns'.
Proof.
  intros (l & Hp & HF) Hin. rewrite Hp in Hin. apply list_elem_of_lookup in Hin as [i Hi].
  destruct (Forall2_lookup_l _ _ _ _ _ HF Hi) as (ns' & Hi' & H).
  exists ns'. split; [|done]. by eapply list_elem_of_lookup_2.
Qed.

Lemma declares_perm l1 l2 t rel rd :
  definitions_perm l1 l2 → declares l1 t rel rd ↔ declares l2 t rel rd.
Proof.
  assert (∀ l1 l2, definitions_perm l1 l2 → declares l1 t rel rd → declares l2 t rel rd) as H.
  { intros m1 m2 Hm (ns & Hin & <- & Hrd & <-).
    destruct (definitions_perm_in _ _ _ Hm Hin) as (ns' & Hin' & Hn & Hp).
    exists ns'. rewrite <- Hp. done. }
  intros Hp. split; apply H; [done|]. by apply definitions_perm_sym.
Qed.

Lemma target_ok_ext l1 l2 rd computed :
  (∀ t rel rd, declares l1 t rel rd ↔ declares l2 t rel rd) →
  target_ok l1 rd computed → target_ok l2 rd computed.
Proof.
  intros Hd. unfold target_ok. destruct (rd_allowed_subject_types rd).
  - intros (t & rd' & H). exists t, rd'. by apply Hd.
  - intros H. eapply Forall_impl; [exact H|]. intros t (rd' & H'). exists rd'. by apply Hd.
Qed.

Lemma expr_ok_ext l1 l2 t e :
  (∀ t rel rd, declares l1 t rel rd ↔ declares l2 t rel rd) →
  expr_ok l1 t e → expr_ok l2 t e.
Proof.
  intros Hd. induction e as [|r|ts c|es IH|es IH|b x IHb IHx] using userset_induction; simpl.
  - done.
  - intros [rd H]. exists rd. by apply Hd.
  - intros (rd & H & Ht). exists rd. split; [by apply Hd|]. by eapply target_ok_ext.
  - rewrite !all_of_Forall. rewrite !Forall_forall in *. naive_solver.
  - rewrite !all_of_Forall. rewrite !Forall_forall in *. naive_solver.
  - naive_solver.
Qed.

Lemma schema_ok_perm l1 l2 : definitions_perm l1 l2 → schema_ok l1 → schema_ok l2.
Proof.
  intros Hp [[Hn Hr] Hw]. assert (Hp' := Hp). destruct Hp' as (l & Hl & HF). split; [split|].
  - assert (ns_name <$> l2 = ns_name <$> l) as ->.
    { clear Hl Hp. induction HF as [|a b m1 m2 [E _] _ IH]; [done|]. by rewrite !fmap_cons, E, IH. }
    by rewrite <- Hl.
  - rewrite Hl in Hr. clear Hl Hp. induction HF as [|a b m1 m2 [_ E] _ IH]; [constructor|].
    apply Forall_cons in Hr as [Ha Hr]. constructor; [by rewrite <- E|by apply IH].
  - intros ns rd e Hin Hrd He.
    destruct (definitions_perm_in l2 l1 ns) as (ns' & Hin' & Hnm & Hp');
      [by apply definitions_perm_sym|done|].
    apply (expr_ok_ext l1 l2); [intros t rel' rd'; by apply declares_perm|].
    rewrite Hnm. apply (Hw ns' rd e); [done|by rewrite <- Hp'|done].
Qed.

Lemma NoDup_keyed_eq {A B} (l1 l2 : list (A * B)) :
  l1 ≡ₚ l2 → NoDup l1.*1 → l1.*1 = l2.*1 → l1 = l2.
Proof.
  intros Hp Hn He. revert l2 Hp He.
  induction l1 as [|[a b] l1 IH]; intros [|[a' b'] l2] Hp He; [done|done|done|].
  rewrite !fmap_cons in He. injection He as Ha He. simpl in Ha. subst a'.
  apply NoDup_cons in Hn as [Hna Hn].
  assert (b = b') as <-.
  { assert ((a, b) ∈ (a, b') :: l2) as Hin by (rewrite <- Hp; by left).
    apply elem_of_cons in Hin as [E|Hin]; [by injection E|].
    assert (a ∈ l2.*1) as H by (apply list_elem_of_fmap; by exists (a, b)).
    exfalso. apply Hna. simpl. change (a ∈ l1.*1). by rewrite He. }
  f_equal. apply IH; [done|by apply Permutation_cons_inv in Hp|done].
Qed.

#[global] Instance by_name_total {A} (name : A → string) : Total (by_name name).
Proof. intros a b. apply (total String.le). Qed.
#[global] Instance by_name_trans {A} (name : A → string) : Transitive (by_name name).
Proof. intros a b c. unfold by_name. apply transitivity. Qed.

Lemma sorted_names {A} (name : A → string) (l : list A) :
  StronglySorted String.le (name <$> sort_by_name name l).
Proof.
  apply (StronglySorted_fmap name (by_name name)); [done|].
  apply StronglySorted_merge_sort; apply _.
Qed.

(** Sorting by a key forgets the order of the list when keys do not repeat. *)
Lemma sort_by_name_ext {A B} (name : A → string) (f : A → B) l1 l2 :
  NoDup (name <$> l1) → (λ a, (name a, f a)) <$> l1 ≡ₚ (λ a, (name a, f a)) <$> l2 →
  map f (sort_by_name name l1) = map f (sort_by_name name l2).
Proof.
  intros Hn Hp. set (pair := λ a, (name a, f a)) in *.
  assert (∀ l, (pair <$> l).*1 = name <$> l) as Hfst.
  { intros l. by rewrite <- list_fmap_compose. }
  assert (∀ l, (pair <$> l).*2 = map f l) as Hsnd.
  { intros l. by rewrite <- list_fmap_compose. }
  unfold sort_by_name. set (s1 := merge_sort _ l1). set (s2 := merge_sort _ l2).
  assert (s1 ≡ₚ l1) as H1 by apply merge_sort_Permutation.
  assert (s2 ≡ₚ l2) as H2 by apply merge_sort_Permutation.
  rewrite <- !Hsnd. f_equal. apply NoDup_keyed_eq.
  - by rewrite H1, H2.
  - by rewrite Hfst, H1.
  - rewrite !Hfst. apply (StronglySorted_unique String.le).
    + apply sorted_names.
    + apply sorted_names.
    + by rewrite H1, H2, <- !Hfst, Hp.
Qed.

Lemma NoDup_names {A kind} (name : A → Ident kind) (l : list A) :
  NoDup (name <$> l) → NoDup ((λ a, as_str (name a)) <$> l).
Proof.
  intros H. rewrite (list_fmap_compose name as_str).
  apply NoDup_fmap_2_strong; [|done]. intros i j _ _. apply ident_eq.
Qed.

Lemma update_namespace_ext a b :
  ns_name a = ns_name b → NoDup (rd_name <$> ns_relations a) →
  (λ rd, (relation_key rd, update_relation rd)) <$> ns_relations a ≡ₚ
    (λ rd, (relation_key rd, update_relation rd)) <$> ns_relations b →
  update_namespace a = update_namespace b.
Proof.
  intros Hn Hd Hp. unfold update_namespace, namespace_key. rewrite Hn. do 3 f_equal.
  by apply sort_by_name_ext; [apply NoDup_names|].
Qed.

Lemma update_namespace_perm a b :
  NoDup (rd_name <$> ns_relations a) → namespace_perm a b →
  update_namespace a = update_namespace b.
Proof. intros Hd [Hn Hp]. apply update_namespace_ext; [done|done|by rewrite Hp]. Qed.

Lemma update_namespace_compiled defs a b :
  NoDup (rd_name <$> ns_relations a) → namespace_compiled defs a b →
  update_namespace a = update_namespace b.
Proof.
  intros Hd [Hn HF]. apply update_namespace_ext; [done|done|]. apply reflexive_eq. clear Hd.
  induction HF as [|x y l1 l2 Hxy _ IH]; [done|]. rewrite !fmap_cons, IH. f_equal.
  destruct Hxy as (H1 & H2 & H3 & _). unfold relation_key, update_relation.
  by rewrite H1, H2, H3.
Qed.

Definition definitions_bytes (defs : list NamespaceDefinition) : list Z :=
  concat (map update_namespace (sort_by_name namespace_key defs)).

Lemma definitions_bytes_ext (R : NamespaceDefinition → NamespaceDefinition → Prop) l1 l l2 :
  names_ok l1 → l1 ≡ₚ l → Forall2 R l l2 →
  (∀ a b, NoDup (rd_name <$> ns_relations a) → R a b →
          ns_name a = ns_name b ∧ update_namespace a = update_namespace b) →
  definitions_bytes l1 = definitions_bytes l2.
Proof.
  intros [Hn Hd] Hp HF HR. unfold definitions_bytes. f_equal.
  apply sort_by_name_ext; [by apply NoDup_names|].
  rewrite Hp in Hd. rewrite Hp. apply reflexive_eq. clear Hn Hp.
  induction HF as [|a b m1 m2 Hab _ IH]; [done|].
  apply Forall_cons in Hd as [Ha Hd]. destruct (HR a b Ha Hab) as [H1 H2].
  rewrite !fmap_cons, IH by done. unfold namespace_key. by rewrite H1, H2.
Qed.

Lemma definitions_bytes_perm l1 l2 :
  names_ok l1 → definitions_perm l1 l2 → definitions_bytes l1 = definitions_bytes l2.
Proof.
  intros Hn (l & Hp & HF). apply (definitions_bytes_ext namespace_perm l1 l l2 Hn Hp HF).
  intros a b Ha Hab. split; [apply Hab|by apply update_namespace_perm].
Qed.

(** The bytes of a compiled schema are those of its definitions. *)
Lemma schema_bytes_source defs cs :
  from_definitions defs = Ok cs → schema_bytes cs = definitions_bytes defs.
Proof.
  intros Hcs. assert (is_ok (from_definitions defs) = true) as Hok by (by rewrite Hcs).
  apply from_definitions_is_Ok in Hok as [Hok _].
  destruct (from_definitions_steps _ _ Hcs) as (r & _ & _ & HF & _). symmetry.
  apply (definitions_bytes_ext (namespace_compiled defs) defs defs); [done|done|done|].
  intros a b Ha Hab. split; [symmetry; apply Hab|by eapply update_namespace_compiled].
Qed.

(** *** Two visits of the same hash tables *)

Lemma ast_reorder (h1 h2 : HashOrder) c ns :
  @ast_of_config h1 c = legacy_namespace ns → plain_namespace ns →
  ∃ ns', @ast_of_config h2 c = legacy_namespace ns' ∧ plain_namespace ns' ∧ namespace_perm ns ns'.
Proof.
  unfold ast_of_config, legacy_namespace. intros [= Hn Hr] Hp.
  set (f := λ r, mkRelationAst _ _) in *.
  assert (f <$> @hash_values h2 _ _ _ _ (config_relations c) ≡ₚ
          map legacy_relation (ns_relations ns)) as Hp2.
  { rewrite <- Hr. by rewrite (@hash_values_perm h1), (@hash_values_perm h2). }
  apply Permutation_map_inv in Hp2 as (l & -> & Hl).
  exists (mkNamespaceDefinition (ns_name ns) l). split; [by rewrite Hn|].
  split; [|by split]. unfold plain_namespace in *. cbn [ns_relations]. by rewrite <- Hl.
Qed.

Lemma asts_reorder (h1 h2 : HashOrder) configs defs :
  map (@ast_of_config h1) configs = map legacy_namespace defs → Forall plain_namespace defs →
  ∃ defs', map (@ast_of_config h2) configs = map legacy_namespace defs' ∧
           Forall plain_namespace defs' ∧ Forall2 namespace_perm defs defs'.
Proof.
  revert defs. induction configs as [|c configs IH]; intros [|ns defs] Hm Hp; try done.
  - exists []. split_and!; constructor.
  - apply cons_eq_inj in Hm as [Hc Hm]. apply Forall_cons in Hp as [Hn Hp].
    destruct (ast_reorder h1 h2 c ns Hc Hn) as (ns' & E & Hn' & Hs).
    destruct (IH defs Hm Hp) as (defs' & E' & Hp' & HF).
    exists (ns' :: defs'). simpl. rewrite E, E'. split_and!; [done|by constructor|by constructor].
Qed.

Definition compile_configs `{HashOrder} (configs : gmap string NamespaceConfig)
    : result ZanzibarError CompiledSchema :=
  compile_legacy_configs (hash_values configs).

Lemma compile_configs_Ok `{HashOrder} configs cs :
  compile_configs configs = Ok cs ↔
  ∃ defs, map ast_of_config (hash_values configs) = map legacy_namespace defs ∧
          Forall plain_namespace defs ∧ from_definitions defs = Ok cs.
Proof. apply compile_ast_Ok. Qed.

Lemma compile_legacy_reorder (h1 h2 : HashOrder) l1 l2 c1 :
  @compile_legacy_configs h1 l1 = Ok c1 → l1 ≡ₚ l2 →
  ∃ c2 defs1 defs2, @compile_legacy_configs h2 l2 = Ok c2 ∧ definitions_perm defs1 defs2 ∧
    from_definitions defs1 = Ok c1 ∧ from_definitions defs2 = Ok c2.
Proof.
  intros (defs1 & Hm & Hp & Hc1)%compile_ast_Ok Hl12.
  assert (map (@ast_of_config h1) l2 ≡ₚ map legacy_namespace defs1) as Hpm.
  { change (map (@ast_of_config h1) l1 = map legacy_namespace defs1) in Hm. rewrite <- Hm.
    by apply Permutation_map. }
  apply Permutation_map_inv in Hpm as (l & Hl & Hd).
  destruct (asts_reorder h1 h2 _ l Hl) as (defs2 & E2 & Hp2 & HF); [by rewrite <- Hd|].
  assert (definitions_perm defs1 defs2) as Hperm by by exists l.
  assert (schema_ok defs1) as Hok1 by (apply from_definitions_is_Ok; by rewrite Hc1).
  assert (is_ok (from_definitions defs2) = true) as Hok2
    by (apply from_definitions_is_Ok; by eapply schema_ok_perm).
  destruct (from_definitions defs2) as [c2|] eqn:Hc2; [|done].
  exists c2, defs1, defs2. split_and!; try done. apply compile_ast_Ok. by exists defs2.
Qed.

Lemma compile_configs_reorder (h1 h2 : HashOrder) configs c1 :
  @compile_configs h1 configs = Ok c1 →
  ∃ c2 defs1 defs2, @compile_configs h2 configs = Ok c2 ∧ definitions_perm defs1 defs2 ∧
    from_definitions defs1 = Ok c1 ∧ from_definitions defs2 = Ok c2.
Proof.
  unfold compile_configs. intros Hc1. eapply (compile_legacy_reorder h1 h2); [exact Hc1|].
  by rewrite (@hash_values_perm h1), (@hash_values_perm h2).
Qed.

(** Schemas of the same definitions have the same hash bytes and mean the same. *)
Definition same_meaning (c1 c2 : CompiledSchema) : Prop :=
  ∀ rels u M, reading (cs_definitions c1) rels u M ↔ reading (cs_definitions c2) rels u M.

Lemma definitions_perm_same d1 d2 c1 c2 :
  definitions_perm d1 d2 → from_definitions d1 = Ok c1 → from_definitions d2 = Ok c2 →
  schema_bytes c1 = schema_bytes c2 ∧ same_meaning c1 c2.
Proof.
  intros Hp H1 H2. split.
  - rewrite (schema_bytes_source _ _ H1), (schema_bytes_source _ _ H2).
    apply definitions_bytes_perm; [|done]. apply from_definitions_is_Ok. by rewrite H1.
  - intros rels u M. unfold reading, step.
    setoid_rewrite (rewrites_to_compiled d1 c1 _ _ _ H1).
    setoid_rewrite (rewrites_to_compiled d2 c2 _ _ _ H2).
    unfold rewrites_to. by setoid_rewrite (declares_perm d1 d2 _ _ _ Hp).
Qed.

(** C23: the schema a set of configurations compiles to does not depend on the
    order in which the hash tables of namespaces and of relations are visited:
    the same sets compile, to the same hash, and to schemas of the same meaning. *)
Theorem compile_order_independent (h1 h2 : HashOrder) configs :
  match @compile_configs h1 configs, @compile_configs h2 configs with
  | Ok c1, Ok c2 =>
      schema_bytes c1 = schema_bytes c2 ∧
      ∀ rels u M, reading (cs_definitions c1) rels u M ↔ reading (cs_definitions c2) rels u M
  | Err _, Err _ => True
  | _, _ => False
  end.
Proof.
  destruct (@compile_configs h1 configs) as [c1|e1] eqn:E1,
    (@compile_configs h2 configs) as [c2|e2] eqn:E2; [|exfalso|exfalso|done].
  - destruct (compile_configs_reorder h1 h2 configs c1 E1) as (c2' & d1 & d2 & E2' & Hp & H1 & H2).
    rewrite E2 in E2'. injection E2' as <-. by apply (definitions_perm_same d1 d2).
  - destruct (compile_configs_reorder h1 h2 configs c1 E1) as (c2' & d1 & d2 & E2' & _). congruence.
  - destruct (compile_configs_reorder h2 h1 configs c2 E2) as (c1' & d1 & d2 & E1' & _). congruence.
Qed.

(** ** The hash is not injective *)

Module HashExample.

Definition rel (s : string) : LegacyUsersetExpression := LComputedUserset (mkRelation s).

(** Membership of [p] by [a] or by [b], and by [a] and [b]. *)
Definition either : LegacyUsersetExpression := LUnion [LIntersection [rel "a"]; rel "b"].
Definition both : LegacyUsersetExpression := LUnion [LIntersection [rel "a"; rel "b"]].

Definition asts (e : LegacyUsersetExpression) : list LegacyNamespaceAst :=
  [mkNamespaceAst "doc" [mkRelationAst "a" None; mkRelationAst "b" None;
                         mkRelationAst "p" (Some e)]].

Definition definitions (e : UsersetExpression) : list NamespaceDefinition :=
  [mkNamespaceDefinition (@mkIdent KObjectType "doc" I)
     [relation_definition_new (@mkIdent KRelationName "a" I) None;
      relation_definition_new (@mkIdent KRelationName "b" I) None;
      relation_definition_new (@mkIdent KRelationName "p" I) (Some e)]].

Definition a : RelationName := @mkIdent KRelationName "a" I.
Definition b : RelationName := @mkIdent KRelationName "b" I.
Definition p : RelationName := @mkIdent KRelationName "p" I.
Definition or_ab : UsersetExpression := Union [Intersection [ComputedUserset a]; ComputedUserset b].
Definition and_ab : UsersetExpression := Union [Intersection [ComputedUserset a; ComputedUserset b]].

Definition compiled (e : UsersetExpression) : CompiledSchema :=
  match from_definitions (definitions e) with
  | Ok c => c
  | Err _ => mkCompiledSchema [] (mkResolver [] ∅ ∅ ∅)
  end.

Definition readme : ObjectRef :=
  mkObjectRef (@mkIdent KObjectType "doc" I) (@mkIdent KObjectId "readme" I).
Definition user : ObjectRef :=
  mkObjectRef (@mkIdent KObjectType "user" I) (@mkIdent KObjectId "alice" I).
Definition rows : list Relationship := [mkRelationship readme a (SubjectObject user)].
Definition alice : User := UserId "alice".
Definition doc_readme : Object := mkObject "doc" "readme".

Lemma compiles e e' :
  is_ok (from_definitions (definitions e)) = true → e' = legacy_expr e →
  from_definitions (definitions e) = Ok (compiled e) ∧
  compile_legacy_ast (asts e') = Ok (compiled e).
Proof.
  unfold compiled. destruct (from_definitions (definitions e)) as [c|] eqn:E; [intros _|done].
  intros ->. split; [done|]. apply compile_ast_Ok. exists (definitions e).
  split; [done|]. split; [|done]. repeat constructor.
Qed.

Lemma rewrites_here e rel e' :
  rewrites_to (definitions e) doc_readme rel e' ↔
  (rel = a ∨ rel = b) ∧ e' = This ∨ rel = p ∧ e' = e.
Proof.
  split.
  - intros (t & rd & _ & (ns & ->%list_elem_of_singleton & _ & Hrd & <-) & ->).
    repeat (apply elem_of_cons in Hrd as [->|Hrd]; [simpl; auto|]). by apply not_elem_of_nil in Hrd.
  - assert (∀ rd, rd ∈ [relation_definition_new a None; relation_definition_new b None;
        relation_definition_new p (Some e)] →
      rewrites_to (definitions e) doc_readme (rd_name rd) (default This (rd_userset_rewrite rd))) as H.
    { intros rd Hrd. exists (@mkIdent KObjectType "doc" I), rd. split; [done|]. split; [|done].
      eexists. split; [by left|]. split; [done|]. by split. }
    intros [[[-> | ->] ->]|[-> ->]].
    + apply (H (relation_definition_new a None)). by left.
    + apply (H (relation_definition_new b None)). right. by left.
    + apply (H (relation_definition_new p (Some e))). right. right. by left.
Qed.

Lemma granted_here o rel s : granted rows o rel s → o = doc_readme ∧ rel = a.
Proof. by intros (r & ->%list_elem_of_singleton & <- & <- & _). Qed.

Lemma b_empty e n : ¬ member_n (definitions e) rows alice n doc_readme b.
Proof.
  destruct n as [|n]; [intros []|]. intros (e' & [[_ ->]|[Hb _]]%rewrites_here & Hs); [|discriminate Hb].
  destruct Hs as [(s & Hg & _)|(s & o' & r & Hg & _)]; apply granted_here in Hg as [_ Hb]; discriminate Hb.
Qed.

Lemma either_member : member (definitions or_ab) rows alice doc_readme p.
Proof.
  exists 2. exists or_ab. split; [apply rewrites_here; auto|]. left. simpl. split; [|done].
  exists This. split; [apply rewrites_here; auto|]. left. exists (SubjectObject user).
  split; [|done]. eexists. split; [by left|]. done.
Qed.

Lemma both_not_member : ¬ member (definitions and_ab) rows alice doc_readme p.
Proof.
  intros [[|n] Hn]; [destruct Hn|]. destruct Hn as (e & [[[Hp|Hp] _]|[_ ->]]%rewrites_here & Hs);
    [discriminate Hp|discriminate Hp|].
  destruct Hs as [(_ & Hb & _)|[]]. by apply b_empty in Hb.
Qed.
End HashExample.

(** C32: the bytes a schema hash is computed from do not determine the schema:
    the operands of a set operation are written without their number, so two
    policies, one of which grants a permission the other does not, have the
    same hash whatever the hash function. *)
Theorem schema_hash_ambiguous `{Blake3} :
  ∃ asts1 asts2 c1 c2 rels u o rel,
    compile_legacy_ast asts1 = Ok c1 ∧ compile_legacy_ast asts2 = Ok c2 ∧
    hash_for_schema c1 = hash_for_schema c2 ∧
    member (cs_definitions c1) rels u o rel ∧ ¬ member (cs_definitions c2) rels u o rel.
Proof.
  assert (is_ok (from_definitions (HashExample.definitions HashExample.or_ab)) = true) as H1
    by (vm_compute; reflexivity).
  assert (is_ok (from_definitions (HashExample.definitions HashExample.and_ab)) = true) as H2
    by (vm_compute; reflexivity).
  apply (HashExample.compiles _ HashExample.either) in H1 as [D1 C1]; [|reflexivity].
  apply (HashExample.compiles _ HashExample.both) in H2 as [D2 C2]; [|reflexivity].
  exists (HashExample.asts HashExample.either), (HashExample.asts HashExample.both),
    (HashExample.compiled HashExample.or_ab), (HashExample.compiled HashExample.and_ab),
    HashExample.rows, HashExample.alice, HashExample.doc_readme, HashExample.p.
  split; [exact C1|]. split; [exact C2|]. split; [|split].
  - unfold hash_for_schema. rewrite (schema_bytes_source _ _ D1), (schema_bytes_source _ _ D2).
    assert (definitions_bytes (HashExample.definitions HashExample.or_ab) =
            definitions_bytes (HashExample.definitions HashExample.and_ab)) as ->
      by (vm_compute; reflexivity).
    reflexivity.
  - apply (member_source _ _ _ _ _ _ D1), HashExample.either_member.
  - intros Hm. apply HashExample.both_not_member, (member_source _ _ _ _ _ _ D2), Hm.
Qed.
