(* ===== verification/Runtime.v ===== *)
(** * The published engine state (src/src/runtime.rs)

    What readers see: the latest snapshot, the retained history, and how a read
    chooses its snapshot. The shared pointer [Arc<ArcSwapOption<EngineState>>]
    is the address of a cell in a store, so that two owners of one pointer see
    the same state. *)

From S2P Require Import Prelude Revision EvalContext.

Record EngineState := mkEngineState {
  latest_snapshot : PublishedSnapshot;
  es_history : list PublishedSnapshot;
  es_datastore_id : DatastoreId;
  es_last_revision : Revision;
  es_limits : EvaluationLimits
}.

(** ** Shared cells *)

Abbreviation SharedEngineState := nat (only parsing).
Abbreviation Cells := (list (option EngineState)) (only parsing).

(** [Arc::new(ArcSwapOption::empty())], [load_full] and [store]. *)
Definition cell_new (cells : Cells) : SharedEngineState * Cells :=
  (length cells, cells ++ [None]).
Definition cell_load (cells : Cells) (a : SharedEngineState) : option EngineState :=
  default None (cells !! a).
Definition cell_store (a : SharedEngineState) (v : option EngineState) (cells : Cells) : Cells :=
  <[a := v]> cells.

(** ** Choosing a snapshot *)

Definition rev_lt (a b : Revision) : bool := (rev_get a <? rev_get b)%Z.

Definition snapshot_for_token (s : EngineState) (token : ConsistencyToken)
    : result ZanzibarError PublishedSnapshot :=
  _ ← guard_err (negb (bool_decide (token_datastore_id token = es_datastore_id s)))
        (ZConsistency WrongDatastore);
  _ ← guard_err (rev_lt (es_last_revision s) (token_revision token))
        (ZConsistency (RevisionUnavailable (token_revision token)));
  _ ← match head (es_history s) with
      | Some oldest =>
          guard_err (rev_lt (token_revision token) (snapshot_revision oldest))
            (ZConsistency (RevisionExpired (token_revision token)))
      | None => Ok tt
      end;
  snapshot ← ok_or
    (snd <$> list_find (λ x, snapshot_revision x = token_revision token) (es_history s))
    (ZConsistency (RevisionUnavailable (token_revision token)));
  _ ← guard_err
        (negb (bool_decide (snapshot_schema_hash snapshot = token_schema_hash token)))
        (ZConsistency (SchemaHashMismatch (token_revision token)));
  Ok snapshot.

Definition snapshot_for_consistency (s : EngineState) (consistency : Consistency)
    : result ZanzibarError PublishedSnapshot :=
  match consistency with
  | Latest => Ok (latest_snapshot s)
  | Exact token => snapshot_for_token s token
  end.
