(* ===== verification/Writer.v ===== *)
(** * The writer (src/src/lib.rs, [WriterState])

    The single owner of the mutable state: configurations, compiled schema,
    relationships and the history of published snapshots, with every operation
    that changes them and the publication of the result. *)

From S2P Require Import Prelude Model Domain Revision StoreTypes Schema Store StoreView.
From S2P Require Import EvalContext Dsl Legacy Runtime.

(** [NonZeroUsize] *)
Record NonZeroUsize := mkNonZeroUsize {
  nzu_get : nat;
  nzu_positive : Is_true (Nat.leb 1 nzu_get && (Z.of_nat nzu_get <=? usize_max)%Z)
}.

Record WriterState := mkWriter {
  configs : gmap string NamespaceConfig;
  schema : option CompiledSchema;
  relationships : StoreView;
  current_snapshot : option PublishedSnapshot;
  snapshot_history : list PublishedSnapshot;
  datastore_id : DatastoreId;
  retained_snapshots : NonZeroUsize;
  last_revision : option Revision;
  evaluation_limits : EvaluationLimits;
  published_state : SharedEngineState
}.

(** A writer and the cells it publishes to. *)
Record World := mkWorld { wd_writer : WriterState; wd_cells : Cells }.

Abbreviation Op := (ST World ZanzibarError ConsistencyToken).

(** ** Construction *)

Definition default_retention : NonZeroUsize := mkNonZeroUsize default_retained_snapshots I.

(** [new_with_publisher]; [fresh] is what [DatastoreId::new_unique] returns. *)
Definition new_with_publisher (fresh : DatastoreId) (a : SharedEngineState) : WriterState :=
  mkWriter ∅ None view_default None [] fresh default_retention None limits_default a.

Definition writer_new (fresh : DatastoreId) (cells : Cells) : World :=
  let '(a, cells) := cell_new cells in mkWorld (new_with_publisher fresh a) cells.

Definition set_retention (n : NonZeroUsize) (s : WriterState) : WriterState :=
  mkWriter (configs s) (schema s) (relationships s) (current_snapshot s) (snapshot_history s)
    (datastore_id s) n (last_revision s) (evaluation_limits s) (published_state s).

Definition with_snapshot_retention (n : NonZeroUsize) (fresh : DatastoreId) (cells : Cells) : World :=
  let w := writer_new fresh cells in mkWorld (set_retention n (wd_writer w)) (wd_cells w).

Definition with_snapshot_retention_and_publisher (n : NonZeroUsize) (fresh : DatastoreId)
    (a : SharedEngineState) : WriterState :=
  set_retention n (new_with_publisher fresh a).

Definition with_evaluation_limits (limits : EvaluationLimits) (s : WriterState) : WriterState :=
  mkWriter (configs s) (schema s) (relationships s) (current_snapshot s) (snapshot_history s)
    (datastore_id s) (retained_snapshots s) (last_revision s) limits (published_state s).

(** ** Publication *)

Definition next_revision (s : WriterState) : result ConsistencyError Revision :=
  match last_revision s with
  | Some revision => revision_next revision
  | None => Ok revision_first
  end.

(** [while history.len() > retained { history.pop_front() }] *)
Fixpoint pop_excess (retained : nat) (history : list PublishedSnapshot) : list PublishedSnapshot :=
  match history with
  | x :: history' =>
      if Nat.ltb retained (length history) then pop_excess retained history' else history
  | [] => []
  end.

Definition publish_current_engine_state (s : WriterState) (cells : Cells) : Cells :=
  cell_store (published_state s)
    match current_snapshot s, last_revision s with
    | Some snapshot, Some revision =>
        Some (mkEngineState snapshot (snapshot_history s) (datastore_id s) revision
                (evaluation_limits s))
    | _, _ => None
    end cells.

Definition replace_publisher (a : SharedEngineState) (w : World) : World :=
  let s := wd_writer w in
  let s := mkWriter (configs s) (schema s) (relationships s) (current_snapshot s)
             (snapshot_history s) (datastore_id s) (retained_snapshots s) (last_revision s)
             (evaluation_limits s) a in
  mkWorld s (publish_current_engine_state s (wd_cells w)).

Section operations.
Context `{Hasher, HashOrder, Blake3, PestParser}.

Definition publish_snapshot (next_configs : gmap string NamespaceConfig)
    (next_schema : CompiledSchema) (next_relationships : StoreView) : Op := λ w,
  let s := wd_writer w in
  match next_revision s with
  | Err e => (Err (ZConsistency e), w)
  | Ok revision =>
      let hash := hash_for_schema next_schema in
      let snapshot := mkSnapshot revision hash next_configs next_schema next_relationships in
      let s := mkWriter next_configs (Some next_schema) next_relationships (Some snapshot)
                 (pop_excess (nzu_get (retained_snapshots s)) (snapshot_history s ++ [snapshot]))
                 (datastore_id s) (retained_snapshots s) (Some revision) (evaluation_limits s)
                 (published_state s) in
      (Ok (mkToken revision hash (datastore_id s)),
       mkWorld s (publish_current_engine_state s (wd_cells w)))
  end.

(** ** Schema changes *)

(** One turn of [revalidate_relationship_store]. *)
Definition revalidate_relationship (c : CompiledSchema) (st : Store) (r : Relationship)
    : result ZanzibarError Store :=
  _ ← map_err ZSchema (validate_relationship c r);
  match apply_mutations [Touch r] [] st with
  | (Ok _, st) => Ok st
  | (Err e, _) => Err (ZStore e)
  end.

Definition revalidate_relationship_store (s : WriterState) (c : CompiledSchema)
    : result ZanzibarError StoreView :=
  st ← try_fold (revalidate_relationship c) store_default (view_rows (relationships s));
  Ok (view_from_checkpoint st).

Definition relationship_store_for_schema (s : WriterState) (c : CompiledSchema)
    : result ZanzibarError StoreView :=
  match schema s with
  | Some _ => revalidate_relationship_store s c
  | None => Ok view_default
  end.

(** The tail every schema operation shares: compile, revalidate, publish. *)
Definition install_configs (next : gmap string NamespaceConfig) : Op := λ w,
  (let! compiled := st_lift (compile_legacy_configs (hash_values next)) in
   let! rels := st_lift (relationship_store_for_schema (wd_writer w) compiled) in
   publish_snapshot next compiled rels) w.

Definition insert_config (m : gmap string NamespaceConfig) (c : NamespaceConfig)
    : gmap string NamespaceConfig := <[config_name c := c]> m.

Definition apply_namespace_configs (cs : list NamespaceConfig) : Op := λ w,
  install_configs (foldl insert_config (configs (wd_writer w)) cs) w.

Definition add_dsl_with_token (dsl : string) : Op :=
  let! _ := st_lift (compile_legacy_dsl dsl) in
  let! cs := st_lift (parse_dsl dsl) in
  apply_namespace_configs cs.

Definition replace_dsl_with_token (dsl : string) : Op :=
  let! _ := st_lift (compile_legacy_dsl dsl) in
  let! cs := st_lift (parse_dsl dsl) in
  install_configs (foldl insert_config ∅ cs).

Definition delete_namespace (ns : string) : Op := λ w,
  (let! _ := st_lift (to_object_type ns) in
   let next := configs (wd_writer w) in
   match next !! ns with
   | None => st_err (ZNamespaceNotFound ns)
   | Some _ => install_configs (delete ns next)
   end) w.

Definition delete_relation (ns rel : string) : Op := λ w,
  (let! _ := st_lift (to_object_type ns) in
   let! _ := st_lift (to_relation_name rel) in
   let next := configs (wd_writer w) in
   match next !! ns with
   | None => st_err (ZNamespaceNotFound ns)
   | Some config =>
       let key := mkRelation rel in
       match config_relations config !! key with
       | None => st_err (ZRelationNotFound rel ns)
       | Some _ =>
           install_configs
             (<[ns := mkNamespaceConfig (config_name config) (delete key (config_relations config))]>
                next)
       end
   end) w.

(** ** Relationship changes *)

Definition validate_subject_filter (c : CompiledSchema) (f : SubjectFilter)
    : result ZanzibarError unit :=
  match sf_optional_relation f with
  | Some rel =>
      t ← to_object_type (as_str (sf_subject_type f));
      _ ← map_err ZSchema (resolver_relation (cs_resolver c) t rel);
      Ok tt
  | None => Ok tt
  end.

Definition validate_relationship_filter (c : CompiledSchema) (f : RelationshipFilter)
    : result ZanzibarError unit :=
  _ ← map_err ZSchema (resolver_namespace (cs_resolver c) (rf_resource_type f));
  _ ← match rf_optional_relation f with
      | Some rel =>
          _ ← map_err ZSchema (resolver_relation (cs_resolver c) (rf_resource_type f) rel);
          Ok tt
      | None => Ok tt
      end;
  match rf_optional_subject f with
  | Some sf => validate_subject_filter c sf
  | None => Ok tt
  end.

Definition validate_precondition_filter (c : CompiledSchema) (p : Precondition)
    : result ZanzibarError unit :=
  match p with MustMatch f | MustNotMatch f => validate_relationship_filter c f end.

Definition apply_relationship_mutations (ms : list RelationshipMutation)
    (ps : list Precondition) : Op := λ w,
  let s := wd_writer w in
  (let! c := st_lift (ok_or (schema s) ZSchemaRequired) in
   let! _ := st_lift (try_for (λ m, map_err ZSchema (validate_relationship c (mutation_relationship m)))
                        ms) in
   let! _ := st_lift (try_for (validate_precondition_filter c) ps) in
   let! rels := st_lift (map_err ZStore (view_apply_mutations (relationships s) ms ps)) in
   publish_snapshot (configs s) c rels) w.
End operations.
