(* ===== verification/WriterSpec.v ===== *)
(** * The writer's invariant and contract

    What holds of a writer between operations, and what one publication does. The
    contract of the writer's operations on the contents of a service
    (configurations, their schema, relationships), and the proof that each
    operation of [Writer] meets it and keeps the invariant. *)

From S2P Require Import Prelude Model Domain Revision Schema StoreTypes Store StoreSpec StoreProps.
From S2P Require Import StoreView ViewSpec ViewProps EvalContext Dsl Legacy Runtime Writer.

(** ** Histories *)

(** Each revision is the successor of the one before it. *)
Fixpoint consecutive (l : list Revision) : Prop :=
  match l with
  | r :: ((r' :: _) as l') => rev_get r' = (rev_get r + 1)%Z ∧ consecutive l'
  | _ => True
  end.

Lemma consecutive_snoc l r r' :
  consecutive (l ++ [r]) → rev_get r' = (rev_get r + 1)%Z → consecutive ((l ++ [r]) ++ [r']).
Proof.
  induction l as [|x l IH]; intros Hl Hr; [done|].
  destruct l as [|y l]; [simpl in *; naive_solver|]. destruct Hl as [H1 H2].
  split; [exact H1|]. by apply IH.
Qed.

Lemma consecutive_tail x l : consecutive (x :: l) → consecutive l.
Proof. destruct l; [done|]. by intros [_ ?]. Qed.

Lemma consecutive_from x l r :
  consecutive (x :: l) → r ∈ l → (rev_get x < rev_get r)%Z.
Proof.
  revert x. induction l as [|y l IH]; intros x; [by intros _ ?%not_elem_of_nil|].
  intros [Hy Hl] [->|Hr]%elem_of_cons; [lia|]. specialize (IH y Hl Hr). lia.
Qed.

Lemma consecutive_last l x r :
  consecutive (l ++ [x]) → r ∈ l → (rev_get r < rev_get x)%Z.
Proof.
  induction l as [|y l IH]; [by intros _ ?%not_elem_of_nil|].
  intros Hl [->|Hr]%elem_of_cons.
  - apply (consecutive_from _ (l ++ [x])); [done|]. apply elem_of_app. right. by left.
  - apply IH; [|done]. by apply (consecutive_tail y).
Qed.

Lemma consecutive_app_l l1 l2 : consecutive (l1 ++ l2) → consecutive l1.
Proof.
  induction l1 as [|x l1 IH]; [done|]. destruct l1 as [|y l1]; [done|]. simpl.
  intros [Hx Hl]. split; [done|]. by apply IH.
Qed.

Lemma consecutive_NoDup l : consecutive l → NoDup l.
Proof.
  induction l as [|x l IH]; [constructor|]. intros Hl. constructor.
  - intros Hx. pose proof (consecutive_from x l x Hl Hx). lia.
  - by apply IH, (consecutive_tail x).
Qed.

Lemma pop_excess_drop n l : pop_excess n l = drop (length l - n) l.
Proof.
  induction l as [|x l IH]; [by rewrite drop_nil|]. cbn [pop_excess].
  destruct (Nat.ltb_spec n (length (x :: l))) as [H|H]; cbn [length] in *.
  - rewrite IH. by replace (S (length l) - n) with (S (length l - n)) by lia.
  - by replace (S (length l) - n) with 0 by lia.
Qed.

Lemma pop_excess_length n l : length (pop_excess n l) ≤ n.
Proof. rewrite pop_excess_drop, length_drop. lia. Qed.

Lemma pop_excess_snoc n l x :
  1 ≤ n → pop_excess n (l ++ [x]) = drop (S (length l) - n) l ++ [x].
Proof.
  intros Hn. rewrite pop_excess_drop, length_app. simpl.
  rewrite drop_app_le by lia. by rewrite Nat.add_1_r.
Qed.

Lemma consecutive_drop n l : consecutive l → consecutive (drop n l).
Proof.
  revert l. induction n as [|n IH]; intros [|x l] H; try done. simpl.
  by apply IH, (consecutive_tail x).
Qed.

(** ** The invariant *)

Section invariant.
Context `{Hasher, HashOrder, Blake3, PestParser}.

(** A published snapshot: its schema is what its configurations compile to, its
    hash is the schema's, and every relationship of it passes its schema. *)
Record snapshot_ok (x : PublishedSnapshot) : Prop := {
  so_schema : compile_legacy_configs (hash_values (snapshot_configs x)) = Ok (snapshot_schema x);
  so_hash : snapshot_schema_hash x = hash_for_schema (snapshot_schema x);
  so_view : view_reachable (snapshot_relationships x);
  so_rows : Forall (λ r, validate_relationship (snapshot_schema x) r = Ok tt)
              (view_rows (snapshot_relationships x))
}.

(** The state a snapshot was published from is the writer's. *)
Record holds (s : WriterState) (x : PublishedSnapshot) : Prop := {
  ho_configs : configs s = snapshot_configs x;
  ho_schema : schema s = Some (snapshot_schema x);
  ho_relationships : relationships s = snapshot_relationships x;
  ho_revision : last_revision s = Some (snapshot_revision x)
}.

(** What the published cell shows. *)
Definition engine_view (s : WriterState) : option EngineState :=
  match current_snapshot s, last_revision s with
  | Some snapshot, Some revision =>
      Some (mkEngineState snapshot (snapshot_history s) (datastore_id s) revision
              (evaluation_limits s))
  | _, _ => None
  end.

Record writer_ok (w : World) : Prop := {
  wo_snapshots : Forall snapshot_ok (snapshot_history (wd_writer w));
  wo_current :
    match current_snapshot (wd_writer w) with
    | Some x => holds (wd_writer w) x ∧ ∃ older, snapshot_history (wd_writer w) = older ++ [x]
    | None => configs (wd_writer w) = ∅ ∧ schema (wd_writer w) = None ∧
              relationships (wd_writer w) = view_default ∧ snapshot_history (wd_writer w) = []
    end;
  wo_consecutive : consecutive (snapshot_revision <$> snapshot_history (wd_writer w));
  wo_bound : length (snapshot_history (wd_writer w)) ≤ nzu_get (retained_snapshots (wd_writer w));
  wo_alive : published_state (wd_writer w) < length (wd_cells w);
  wo_cell : cell_load (wd_cells w) (published_state (wd_writer w)) = engine_view (wd_writer w)
}.

(** What successful publication of [x] under token [t] does to the world. *)
Record published (w : World) (t : ConsistencyToken) (x : PublishedSnapshot) (w' : World) : Prop := {
  pb_next : next_revision (wd_writer w) = Ok (snapshot_revision x);
  pb_token : t = mkToken (snapshot_revision x) (snapshot_schema_hash x) (datastore_id (wd_writer w));
  pb_current : current_snapshot (wd_writer w') = Some x;
  pb_history : snapshot_history (wd_writer w') =
    pop_excess (nzu_get (retained_snapshots (wd_writer w))) (snapshot_history (wd_writer w) ++ [x]);
  pb_datastore : datastore_id (wd_writer w') = datastore_id (wd_writer w);
  pb_retained : retained_snapshots (wd_writer w') = retained_snapshots (wd_writer w);
  pb_limits : evaluation_limits (wd_writer w') = evaluation_limits (wd_writer w);
  pb_cell : published_state (wd_writer w') = published_state (wd_writer w);
  pb_cells : ∃ v, wd_cells w' = <[published_state (wd_writer w) := v]> (wd_cells w)
}.

Lemma retained_positive (n : NonZeroUsize) : 1 ≤ nzu_get n.
Proof.
  pose proof (Is_true_eq_true _ (nzu_positive n)) as [Hp _]%andb_true_iff. by apply Nat.leb_le in Hp.
Qed.

Lemma cell_load_store a v cells : a < length cells → cell_load (cell_store a v cells) a = v.
Proof. intros Ha. unfold cell_load, cell_store. by rewrite list_lookup_insert_eq. Qed.

Lemma cell_load_other a b v cells : a ≠ b → cell_load (cell_store a v cells) b = cell_load cells b.
Proof. intros Hab. unfold cell_load, cell_store. by rewrite list_lookup_insert_ne. Qed.

Lemma revision_step w x older :
  writer_ok w → snapshot_history (wd_writer w) = older ++ [x] →
  last_revision (wd_writer w) = Some (snapshot_revision x).
Proof.
  intros Hw Hh. pose proof (wo_current w Hw) as Hc.
  destruct (current_snapshot (wd_writer w)) as [y|].
  - destruct Hc as [Hy (older' & E)]. rewrite Hh in E. apply app_inj_tail in E as [_ <-].
    apply Hy.
  - destruct Hc as (_ & _ & _ & E). rewrite Hh in E. by destruct older.
Qed.

(** Publication keeps the invariant, or fails on the last revision. *)
Lemma publish_ok w m c v :
  writer_ok w → compile_legacy_configs (hash_values m) = Ok c → view_reachable v →
  Forall (λ r, validate_relationship c r = Ok tt) (view_rows v) →
  match publish_snapshot m c v w with
  | (Ok t, w') => ∃ x, published w t x w' ∧ writer_ok w' ∧ snapshot_ok x ∧
      snapshot_configs x = m ∧ snapshot_schema x = c ∧ snapshot_relationships x = v
  | (Err e, w') => w' = w ∧ e = ZConsistency RevisionOverflow ∧
      ∃ r, last_revision (wd_writer w) = Some r ∧ rev_get r = u64_max
  end.
Proof.
  intros Hw Hc Hv Hrows. unfold publish_snapshot.
  destruct (next_revision (wd_writer w)) as [revision|e] eqn:Hn.
  - set (x := mkSnapshot _ _ _ _ _). exists x.
    assert (snapshot_ok x) as Hx by done.
    split; [split; try done; by eexists|]. split; [|done].
    pose proof (retained_positive (retained_snapshots (wd_writer w))) as Hr.
    split; cbn [wd_writer wd_cells configs schema relationships current_snapshot snapshot_history
                datastore_id retained_snapshots last_revision evaluation_limits published_state].
    + rewrite pop_excess_drop. apply Forall_drop, Forall_app. split; [apply Hw|by constructor].
    + split; [done|]. rewrite pop_excess_snoc by done. by eexists.
    + rewrite pop_excess_drop, fmap_drop. apply consecutive_drop. rewrite fmap_app.
      destruct (snapshot_history (wd_writer w)) as [|y l _] eqn:Eh using rev_ind; [done|].
      rewrite fmap_app. apply consecutive_snoc.
      * change [snapshot_revision y] with (snapshot_revision <$> [y]). rewrite <- fmap_app, <- Eh.
        apply Hw.
      * pose proof (revision_step w y l Hw Eh) as Hl. unfold next_revision in Hn. rewrite Hl in Hn.
        by apply revision_next_Ok in Hn.
    + apply pop_excess_length.
    + unfold publish_current_engine_state, cell_store. rewrite length_insert. apply Hw.
    + unfold publish_current_engine_state. simpl. rewrite cell_load_store; [done|apply Hw].
  - split; [done|]. unfold next_revision in Hn. destruct (last_revision (wd_writer w)) as [r|]; [|done].
    apply revision_next_Err in Hn as [-> Hr]. split; [done|]. eauto.
Qed.
End invariant.

(** ** The contract *)

Record Contents := mkContents {
  ct_configs : gmap string NamespaceConfig;
  ct_schema : CompiledSchema;
  ct_relationships : list Relationship
}.

Section contract.
Context `{HashOrder, PestParser}.

Definition spec_validate (c : CompiledSchema) (rs : list Relationship) : result ZanzibarError unit :=
  try_for (λ r, map_err ZSchema (validate_relationship c r)) rs.

(** A new set of configurations must compile, and every relationship must pass
    the new schema; relationships are kept as they are. *)
Definition spec_install (cur : option Contents) (next : gmap string NamespaceConfig)
    : result ZanzibarError Contents :=
  let rels := match cur with Some x => ct_relationships x | None => [] end in
  c ← compile_legacy_configs (hash_values next);
  _ ← spec_validate c rels;
  Ok (mkContents next c rels).

Definition spec_configs (cur : option Contents) : gmap string NamespaceConfig :=
  match cur with Some x => ct_configs x | None => ∅ end.

Definition spec_apply_configs (cur : option Contents) (cs : list NamespaceConfig)
    : result ZanzibarError Contents :=
  spec_install cur (foldl insert_config (spec_configs cur) cs).

Definition spec_add_dsl (cur : option Contents) (dsl : string) : result ZanzibarError Contents :=
  _ ← compile_legacy_dsl dsl; cs ← parse_dsl dsl; spec_apply_configs cur cs.

Definition spec_replace_dsl (cur : option Contents) (dsl : string)
    : result ZanzibarError Contents :=
  _ ← compile_legacy_dsl dsl; cs ← parse_dsl dsl; spec_install cur (foldl insert_config ∅ cs).

Definition spec_delete_namespace (cur : option Contents) (ns : string)
    : result ZanzibarError Contents :=
  _ ← to_object_type ns;
  _ ← ok_or (spec_configs cur !! ns) (ZNamespaceNotFound ns);
  spec_install cur (delete ns (spec_configs cur)).

Definition spec_delete_relation (cur : option Contents) (ns rel : string)
    : result ZanzibarError Contents :=
  _ ← to_object_type ns;
  _ ← to_relation_name rel;
  config ← ok_or (spec_configs cur !! ns) (ZNamespaceNotFound ns);
  _ ← ok_or (config_relations config !! mkRelation rel) (ZRelationNotFound rel ns);
  spec_install cur
    (<[ns := mkNamespaceConfig (config_name config)
               (delete (mkRelation rel) (config_relations config))]> (spec_configs cur)).

(** A batch must name declared relations only, in mutations and in
    preconditions, and then obeys the contract of the relationship store. *)
Definition spec_write (cur : option Contents) (ms : list RelationshipMutation)
    (ps : list Precondition) : result ZanzibarError Contents :=
  x ← ok_or cur ZSchemaRequired;
  _ ← spec_validate (ct_schema x) (mutation_relationship <$> ms);
  _ ← try_for (validate_precondition_filter (ct_schema x)) ps;
  rels ← map_err ZStore (spec_apply (ct_relationships x) ms ps);
  Ok (mkContents (ct_configs x) (ct_schema x) rels).
End contract.

(** Errors the contract leaves to the implementation: full tables, and the end
    of the revision counter. *)
Definition resource_error (e : ZanzibarError) : Prop :=
  (∃ c, e = ZStore (CapacityExceeded c)) ∨ e = ZConsistency RevisionOverflow.

(** ** The contents of a writer *)

Definition contents (w : World) : option Contents :=
  (λ c, mkContents (configs (wd_writer w)) c (view_rows (relationships (wd_writer w)))) <$>
    schema (wd_writer w).

(** Contents up to the order of relationships. *)
Definition same_contents (x y : Contents) : Prop :=
  ct_configs x = ct_configs y ∧ ct_schema x = ct_schema y ∧ ct_relationships x ≡ₚ ct_relationships y.

Section refinement.
Context `{Hasher, HashOrder, Blake3, PestParser}.

(** An operation meets a contract: success publishes contents the contract
    allows; failure changes nothing and reports the contract's error or a
    resource error. *)
Definition meets (op : Op) (spec : option Contents → result ZanzibarError Contents) (w : World)
    : Prop :=
  match op w with
  | (Ok t, w') =>
      writer_ok w' ∧ ∃ x y, published w t x w' ∧ snapshot_ok x ∧
        spec (contents w) = Ok y ∧
        same_contents (mkContents (snapshot_configs x) (snapshot_schema x)
                         (view_rows (snapshot_relationships x))) y
  | (Err e, w') => w' = w ∧ (spec (contents w) = Err e ∨ resource_error e)
  end.

Lemma contents_configs w : writer_ok w → configs (wd_writer w) = spec_configs (contents w).
Proof.
  intros Hw. pose proof (wo_current w Hw) as Hc. unfold contents, spec_configs.
  destruct (current_snapshot (wd_writer w)) as [x|].
  - destruct Hc as [[_ -> _ _] _]. done.
  - destruct Hc as (-> & -> & _). done.
Qed.

Lemma contents_current w y :
  writer_ok w → contents w = Some y →
  ∃ x, current_snapshot (wd_writer w) = Some x ∧ snapshot_ok x ∧ holds (wd_writer w) x ∧
       y = mkContents (snapshot_configs x) (snapshot_schema x) (view_rows (snapshot_relationships x)).
Proof.
  intros Hw Hy. pose proof (wo_current w Hw) as Hc. pose proof (wo_snapshots w Hw) as Hs.
  unfold contents in Hy. destruct (current_snapshot (wd_writer w)) as [x|].
  - destruct Hc as [Hx (older & E)]. exists x. split; [done|].
    rewrite E in Hs. apply Forall_app in Hs as [_ Hs]. apply Forall_cons in Hs as [Hs _].
    split; [done|]. split; [done|]. destruct Hx as [E1 E2 E3 _]. rewrite E1, E2, E3 in Hy.
    by injection Hy as <-.
  - destruct Hc as (_ & Hc & _). by rewrite Hc in Hy.
Qed.

(** *** Revalidation *)

Lemma revalidate_step c st r :
  store_reachable st → r ∉ store_rows st →
  match revalidate_relationship c st r with
  | Ok st' => validate_relationship c r = Ok tt ∧ store_reachable st' ∧
              store_rows st' = store_rows st ++ [r]
  | Err e => map_err ZSchema (validate_relationship c r) = Err e ∨
             validate_relationship c r = Ok tt ∧ resource_error e
  end.
Proof.
  intros Hst Hr. unfold revalidate_relationship.
  destruct (validate_relationship c r) as [[]|e]; simpl; [|by left].
  destruct (apply_mutations [Touch r] [] st) as [res st'] eqn:E.
  pose proof (apply_mutations_contract st [Touch r] [] res st' Hst E) as Hc.
  assert (spec_apply (store_rows st) [Touch r] [] = Ok (store_rows st ++ [r])) as Hs.
  { unfold spec_apply. simpl. by rewrite decide_False by done. }
  rewrite Hs in Hc. destruct Hc as [[-> ->]|[[cap ->] _]].
  - split; [done|]. split; [|done]. by eapply reach_apply.
  - right. split; [done|]. left. by exists cap.
Qed.

Lemma revalidate_fold c st rs :
  store_reachable st → NoDup (store_rows st ++ rs) →
  match try_fold (revalidate_relationship c) st rs with
  | Ok st' => spec_validate c rs = Ok tt ∧ store_reachable st' ∧
              store_rows st' = store_rows st ++ rs
  | Err e => spec_validate c rs = Err e ∨ resource_error e
  end.
Proof.
  revert st. induction rs as [|r rs IH]; intros st Hst Hn; simpl.
  { by rewrite app_nil_r. }
  assert (r ∉ store_rows st) as Hr.
  { apply NoDup_app in Hn as (_ & Hn & _). intros Hin. apply (Hn r Hin). by left. }
  pose proof (revalidate_step c st r Hst Hr) as Hs.
  destruct (revalidate_relationship c st r) as [st'|e]; simpl.
  - destruct Hs as (Hv & Hst' & Hrows). specialize (IH st' Hst').
    rewrite Hrows, <- app_assoc in IH. specialize (IH Hn).
    unfold spec_validate in *. simpl. rewrite Hv. exact IH.
  - unfold spec_validate. simpl. destruct Hs as [Hs|[_ Hs]]; [|by right]. rewrite Hs. by left.
Qed.

Lemma spec_validate_Ok c rs :
  spec_validate c rs = Ok tt ↔ Forall (λ r, validate_relationship c r = Ok tt) rs.
Proof.
  unfold spec_validate. rewrite try_for_Ok. apply Forall_iff. intros r. by rewrite map_err_Ok.
Qed.

Lemma view_default_rows : view_rows view_default = [].
Proof. done. Qed.

Lemma relationship_store_for_schema_ok w c :
  writer_ok w →
  let rels := match contents w with Some x => ct_relationships x | None => [] end in
  match relationship_store_for_schema (wd_writer w) c with
  | Ok v => spec_validate c rels = Ok tt ∧ view_reachable v ∧ view_rows v = rels
  | Err e => spec_validate c rels = Err e ∨ resource_error e
  end.
Proof.
  intros Hw. unfold relationship_store_for_schema.
  destruct (schema (wd_writer w)) as [c0|] eqn:Es.
  - destruct (contents w) as [y|] eqn:Ey; [|unfold contents in Ey; by rewrite Es in Ey].
    destruct (contents_current w y Hw Ey) as (x & _ & Hx & Hh & ->). simpl.
    unfold revalidate_relationship_store. rewrite (ho_relationships _ _ Hh).
    pose proof (revalidate_fold c store_default (view_rows (snapshot_relationships x))) as Hf.
    destruct (try_fold _ _ _) as [st|e]; simpl.
    + destruct Hf as (Hv & Hst & Hrows); [apply reach_default|by apply view_rows_NoDup, Hx|].
      split; [done|]. split; [by apply vreach_checkpoint|]. exact Hrows.
    + apply Hf; [apply reach_default|by apply view_rows_NoDup, Hx].
  - unfold contents. rewrite Es. simpl. split; [done|].
    split; [apply vreach_checkpoint, reach_default|]. apply view_default_rows.
Qed.

(** *** Operations *)

Lemma install_ok w m :
  writer_ok w → meets (install_configs m) (λ cur, spec_install cur m) w.
Proof.
  intros Hw. unfold meets, install_configs, st_bind, st_lift, spec_install.
  destruct (compile_legacy_configs (hash_values m)) as [c|e] eqn:Ec; simpl; [|by eauto].
  pose proof (relationship_store_for_schema_ok w c Hw) as Hr. simpl in Hr.
  set (rels := match contents w with Some x => _ | None => _ end) in *.
  destruct (relationship_store_for_schema (wd_writer w) c) as [v|e]; simpl.
  - destruct Hr as (Hval & Hv & Hrows).
    pose proof (publish_ok w m c v Hw Ec Hv) as Hp. rewrite Hrows in Hp.
    specialize (Hp (proj1 (spec_validate_Ok c rels) Hval)).
    rewrite Hval. simpl. destruct (publish_snapshot m c v w) as [[t|e] w'].
    + destruct Hp as (x & Hpb & Hw' & Hx & <- & <- & <-). split; [done|].
      exists x, (mkContents (snapshot_configs x) (snapshot_schema x) rels).
      split_and!; try done. unfold same_contents. simpl. by rewrite Hrows.
    + destruct Hp as (-> & -> & _). split; [done|]. right. by right.
  - split; [done|]. destruct Hr as [Hr|Hr]; [|by right]. rewrite Hr. by left.
Qed.

Lemma meets_lift {A} (r : result ZanzibarError A) (op : A → Op)
    (spec : A → option Contents → result ZanzibarError Contents) w :
  (∀ a, r = Ok a → meets (op a) (spec a) w) →
  meets (let! a := st_lift r in op a) (λ cur, a ← r; spec a cur) w.
Proof.
  unfold meets, st_bind, st_lift. destruct r as [a|e]; simpl; [intros Hk; by apply Hk|by eauto].
Qed.

Lemma meets_err e spec w : spec (contents w) = Err e → meets (st_err e) spec w.
Proof. intros Hs. split; [done|]. by left. Qed.

Lemma meets_ext (op op' : Op) spec spec' w :
  op' w = op w → spec' (contents w) = spec (contents w) → meets op spec w → meets op' spec' w.
Proof. unfold meets. by intros -> ->. Qed.

Lemma apply_configs_ok w cs :
  writer_ok w → meets (apply_namespace_configs cs) (λ cur, spec_apply_configs cur cs) w.
Proof.
  intros Hw. unfold apply_namespace_configs, spec_apply_configs.
  eapply meets_ext; [reflexivity| |apply install_ok; exact Hw].
  simpl. by rewrite <- contents_configs.
Qed.

Lemma add_dsl_ok w dsl :
  writer_ok w → meets (add_dsl_with_token dsl) (λ cur, spec_add_dsl cur dsl) w.
Proof.
  intros Hw. apply (meets_lift _ _ (λ _ cur, cs ← parse_dsl dsl; spec_apply_configs cur cs)).
  intros _ _. apply (meets_lift _ _ (λ cs cur, spec_apply_configs cur cs)).
  intros cs _. by apply apply_configs_ok.
Qed.

Lemma replace_dsl_ok w dsl :
  writer_ok w → meets (replace_dsl_with_token dsl) (λ cur, spec_replace_dsl cur dsl) w.
Proof.
  intros Hw.
  apply (meets_lift _ _ (λ _ cur, cs ← parse_dsl dsl; spec_install cur (foldl insert_config ∅ cs))).
  intros _ _. apply (meets_lift _ _ (λ cs cur, spec_install cur (foldl insert_config ∅ cs))).
  intros cs _. by apply install_ok.
Qed.

Lemma delete_namespace_ok w ns :
  writer_ok w → meets (delete_namespace ns) (λ cur, spec_delete_namespace cur ns) w.
Proof.
  intros Hw. unfold meets, delete_namespace. rewrite (contents_configs w Hw).
  apply (meets_lift _ _ (λ _ cur, _ ← ok_or (spec_configs cur !! ns) (ZNamespaceNotFound ns);
                                  spec_install cur (delete ns (spec_configs cur)))).
  intros _ _. destruct (spec_configs (contents w) !! ns) as [config|] eqn:E.
  - eapply meets_ext; [reflexivity| |apply install_ok; exact Hw]. simpl. by rewrite E.
  - apply meets_err. by rewrite E.
Qed.

Lemma delete_relation_ok w ns rel :
  writer_ok w → meets (delete_relation ns rel) (λ cur, spec_delete_relation cur ns rel) w.
Proof.
  intros Hw. unfold meets, delete_relation. rewrite (contents_configs w Hw).
  apply (meets_lift _ _ (λ _ cur, _ ← to_relation_name rel;
    config ← ok_or (spec_configs cur !! ns) (ZNamespaceNotFound ns);
    _ ← ok_or (config_relations config !! mkRelation rel) (ZRelationNotFound rel ns);
    spec_install cur _)).
  intros _ _. apply (meets_lift _ _ (λ _ cur,
    config ← ok_or (spec_configs cur !! ns) (ZNamespaceNotFound ns);
    _ ← ok_or (config_relations config !! mkRelation rel) (ZRelationNotFound rel ns);
    spec_install cur _)).
  intros _ _. destruct (spec_configs (contents w) !! ns) as [config|] eqn:E.
  - destruct (config_relations config !! mkRelation rel) as [rc|] eqn:E'.
    + eapply meets_ext; [reflexivity| |apply install_ok; exact Hw]. simpl. rewrite E. simpl.
      by rewrite E'.
    + apply meets_err. rewrite E. simpl. by rewrite E'.
  - apply meets_err. by rewrite E.
Qed.

(** *** Writes *)

Lemma spec_mutation_from rels m rels' r :
  spec_mutation rels m = Ok rels' → r ∈ rels' → r ∈ rels ∨ r = mutation_relationship m.
Proof.
  destruct m as [x|x|x]; simpl; case_decide; intros [= <-]; try (by left).
  - intros [?|?%list_elem_of_singleton]%elem_of_app; auto.
  - intros [?|?%list_elem_of_singleton]%elem_of_app; auto.
  - intros [_ ?]%list_elem_of_filter. by left.
Qed.

Lemma spec_fold_from ms rels rels' r :
  try_fold spec_mutation rels ms = Ok rels' → r ∈ rels' →
  r ∈ rels ∨ r ∈ mutation_relationship <$> ms.
Proof.
  revert rels. induction ms as [|m ms IH]; intros rels; simpl.
  - intros [= <-]. by left.
  - intros (rels1 & E & Hf)%bind_Ok Hr. rewrite elem_of_cons.
    destruct (IH _ Hf Hr) as [Hin|Hin]; [|by auto].
    destruct (spec_mutation_from _ _ _ _ E Hin); auto.
Qed.

Lemma spec_apply_from rels ms ps rels' r :
  spec_apply rels ms ps = Ok rels' → r ∈ rels' → r ∈ rels ∨ r ∈ mutation_relationship <$> ms.
Proof.
  unfold spec_apply. intros (? & _ & (? & _ & (? & _ & Hs)%bind_Ok)%bind_Ok)%bind_Ok.
  destruct (first_repeat _); [done|]. by apply spec_fold_from.
Qed.

(** The limit of every precondition exceeds the deleted relationships it
    matches. *)
Definition limits_clear (w : World) (ps : list Precondition) : Prop :=
  ∀ p, p ∈ ps → limit_clears (relationships (wd_writer w)) p.

(** What a batch goes through before it reaches the view. *)
Definition write_guards (c : CompiledSchema) (ms : list RelationshipMutation)
    (ps : list Precondition) : result ZanzibarError unit :=
  _ ← spec_validate c (mutation_relationship <$> ms);
  try_for (validate_precondition_filter c) ps.

Lemma write_shape w x ms ps :
  holds (wd_writer w) x →
  apply_relationship_mutations ms ps w =
  match write_guards (snapshot_schema x) ms ps with
  | Err e => (Err e, w)
  | Ok _ =>
      match view_apply_mutations (snapshot_relationships x) ms ps with
      | Err e => (Err (ZStore e), w)
      | Ok v => publish_snapshot (snapshot_configs x) (snapshot_schema x) v w
      end
  end.
Proof.
  intros Hh. unfold apply_relationship_mutations, write_guards, st_bind, st_lift.
  rewrite (ho_schema _ _ Hh), (ho_configs _ _ Hh), (ho_relationships _ _ Hh). simpl.
  assert (try_for (λ m, map_err ZSchema (validate_relationship (snapshot_schema x)
            (mutation_relationship m))) ms =
          spec_validate (snapshot_schema x) (mutation_relationship <$> ms)) as ->.
  { unfold spec_validate. clear. induction ms as [|m ms IH]; [done|]. simpl. by rewrite IH. }
  destruct (spec_validate _ _) as [[]|e]; simpl; [|done].
  destruct (try_for (validate_precondition_filter _) ps) as [[]|e]; simpl; [|done].
  by destruct (view_apply_mutations _ ms ps).
Qed.

(** Whatever the preconditions, a batch that succeeds publishes relationships
    that all pass the schema. *)
Lemma write_publishes w x ms ps v :
  writer_ok w → snapshot_ok x → write_guards (snapshot_schema x) ms ps = Ok tt →
  view_apply_mutations (snapshot_relationships x) ms ps = Ok v →
  match publish_snapshot (snapshot_configs x) (snapshot_schema x) v w with
  | (Ok t, w') => ∃ x', published w t x' w' ∧ writer_ok w' ∧ snapshot_ok x' ∧
      snapshot_configs x' = snapshot_configs x ∧ snapshot_schema x' = snapshot_schema x ∧
      snapshot_relationships x' = v
  | (Err e, w') => w' = w ∧ e = ZConsistency RevisionOverflow ∧
      ∃ r, last_revision (wd_writer w) = Some r ∧ rev_get r = u64_max
  end.
Proof.
  intros Hw Hx ([] & Ev%spec_validate_Ok & _)%bind_Ok Ea.
  apply publish_ok; [done|apply Hx|by eapply vreach_apply, Ea; apply Hx|].
  apply view_apply_without in Ea.
  pose proof (view_apply_contract _ ms [] (so_view _ Hx)) as Hc. rewrite Ea in Hc.
  destruct Hc as (rels' & Hs & Hp); [by intros p ?%not_elem_of_nil|].
  apply Forall_forall. intros r. rewrite Hp. intros Hr.
  rewrite Forall_forall in Ev.
  destruct (spec_apply_from _ _ _ _ _ Hs Hr) as [Hin|Hin]; [|by apply Ev].
  pose proof (so_rows _ Hx) as Hall. rewrite Forall_forall in Hall. by apply Hall.
Qed.

Lemma write_ok w ms ps :
  writer_ok w → limits_clear w ps →
  meets (apply_relationship_mutations ms ps) (λ cur, spec_write cur ms ps) w.
Proof.
  intros Hw Hlim. unfold meets, spec_write. destruct (contents w) as [y|] eqn:Ey.
  2: { unfold apply_relationship_mutations. unfold contents in Ey.
       destruct (schema (wd_writer w)); [done|]. simpl. by eauto. }
  destruct (contents_current w y Hw Ey) as (x & _ & Hx & Hh & ->).
  rewrite (write_shape w x ms ps Hh). unfold limits_clear in Hlim.
  rewrite (ho_relationships _ _ Hh) in Hlim. cbn [ok_or mbind result_bind ct_schema ct_relationships].
  pose proof (view_apply_contract _ ms ps (so_view _ Hx) Hlim) as Hc.
  pose proof (write_publishes w x ms ps) as Hpub. unfold write_guards in *.
  destruct (spec_validate _ _) as [[]|e]; cbn [mbind result_bind]; [|by eauto].
  destruct (try_for (validate_precondition_filter _) ps) as [[]|e]; cbn [mbind result_bind]; [|by eauto].
  destruct (view_apply_mutations _ ms ps) as [v|e].
  - specialize (Hpub v Hw Hx eq_refl eq_refl). destruct Hc as (rels' & Hs & Hp).
    destruct (publish_snapshot _ _ v w) as [[t|e] w'].
    + destruct Hpub as (x' & Hpb & Hw' & Hx' & E1 & E2 & E3). split; [done|].
      exists x', (mkContents (snapshot_configs x) (snapshot_schema x) rels').
      rewrite Hs, E1, E2, E3. by split_and!.
    + destruct Hpub as (-> & -> & _). split; [done|]. right. by right.
  - split; [done|]. destruct Hc as [->|[cap ->]]; [by left|]. right. left. by exists cap.
Qed.

(** What every operation does, whatever the preconditions: publish sound
    contents, or change nothing. *)
Definition safe (op : Op) (w : World) : Prop :=
  match op w with
  | (Ok t, w') => writer_ok w' ∧ ∃ x, published w t x w' ∧ snapshot_ok x
  | (Err e, w') => w' = w
  end.

Lemma meets_safe op spec w : meets op spec w → safe op w.
Proof.
  unfold meets, safe. destruct (op w) as [[t|e] w']; [|by intros [? _]].
  intros (Hw & x & y & Hp & Hx & _). eauto.
Qed.

Lemma write_safe w ms ps : writer_ok w → safe (apply_relationship_mutations ms ps) w.
Proof.
  intros Hw. unfold safe. destruct (contents w) as [y|] eqn:Ey.
  2: { unfold apply_relationship_mutations. unfold contents in Ey.
       by destruct (schema (wd_writer w)). }
  destruct (contents_current w y Hw Ey) as (x & _ & Hx & Hh & ->).
  rewrite (write_shape w x ms ps Hh). pose proof (write_publishes w x ms ps) as Hpub.
  destruct (write_guards _ _ _) as [[]|e]; [|done].
  destruct (view_apply_mutations _ ms ps) as [v|e]; [|done].
  specialize (Hpub v Hw Hx eq_refl eq_refl).
  destruct (publish_snapshot _ _ v w) as [[t|e] w']; [|by destruct Hpub].
  destruct Hpub as (x' & Hpb & Hw' & Hx' & _). eauto.
Qed.

(** ** Successive publications *)

Lemma published_contents w t x w' :
  published w t x w' → writer_ok w' →
  contents w' =
  Some (mkContents (snapshot_configs x) (snapshot_schema x) (view_rows (snapshot_relationships x))).
Proof.
  intros Hp Hw. pose proof (wo_current w' Hw) as Hc. rewrite (pb_current _ _ _ _ Hp) in Hc.
  destruct Hc as [[E1 E2 E3 _] _]. unfold contents. by rewrite E1, E2, E3.
Qed.

(** What no operation changes, and what it can only advance. *)
Record follows (w w' : World) : Prop := {
  fo_datastore : datastore_id (wd_writer w') = datastore_id (wd_writer w);
  fo_retained : retained_snapshots (wd_writer w') = retained_snapshots (wd_writer w);
  fo_limits : evaluation_limits (wd_writer w') = evaluation_limits (wd_writer w);
  fo_cell : published_state (wd_writer w') = published_state (wd_writer w);
  fo_length : length (wd_cells w') = length (wd_cells w);
  fo_cells a : a ≠ published_state (wd_writer w) → wd_cells w' !! a = wd_cells w !! a;
  fo_revision r : last_revision (wd_writer w) = Some r →
    ∃ r', last_revision (wd_writer w') = Some r' ∧ (rev_get r ≤ rev_get r')%Z;
  fo_history s r : s ∈ snapshot_history (wd_writer w') → last_revision (wd_writer w) = Some r →
    s ∈ snapshot_history (wd_writer w) ∨ (rev_get r < rev_get (snapshot_revision s))%Z
}.

#[global] Instance follows_preorder : PreOrder follows.
Proof.
  split.
  - intros w. split; try done; [|by left]. intros r Hr. by exists r.
  - intros w1 w2 w3 [A1 A2 A3 A4 A5 A6 A7 A8] [B1 B2 B3 B4 B5 B6 B7 B8]. split; try congruence.
    + intros a Ha. rewrite B6 by congruence. by apply A6.
    + intros r Hr. destruct (A7 r Hr) as (r' & Hr' & ?). destruct (B7 r' Hr') as (r'' & ? & ?).
      exists r''. split; [done|]. lia.
    + intros s r Hs Hr. destruct (A7 r Hr) as (r' & Hr' & ?).
      destruct (B8 s r' Hs Hr') as [Hin|?]; [by apply A8|]. right. lia.
Qed.

Lemma published_follows w t x w' :
  published w t x w' → writer_ok w' → follows w w'.
Proof.
  intros Hp Hw'. pose proof (wo_current w' Hw') as Hc. rewrite (pb_current _ _ _ _ Hp) in Hc.
  destruct Hc as [[_ _ _ Hrev] _]. destruct Hp as [Hn _ _ Hh ? ? ? ? (v & Hcells)].
  split; try done.
  - by rewrite Hcells, length_insert.
  - intros a Ha. rewrite Hcells. by apply list_lookup_insert_ne.
  - intros r Hr. exists (snapshot_revision x). split; [done|].
    unfold next_revision in Hn. rewrite Hr in Hn. apply revision_next_Ok in Hn. lia.
  - intros s r Hs Hr. rewrite Hh, pop_excess_drop in Hs.
    apply subseteq_drop, elem_of_app in Hs as [Hs| ->%list_elem_of_singleton]; [by left|].
    right. unfold next_revision in Hn. rewrite Hr in Hn. apply revision_next_Ok in Hn. lia.
Qed.

(** The token names the current snapshot. *)
Definition token_current (t : ConsistencyToken) (w : World) : Prop :=
  ∃ x, current_snapshot (wd_writer w) = Some x ∧
       t = mkToken (snapshot_revision x) (snapshot_schema_hash x) (datastore_id (wd_writer w)).

Lemma published_advances w t x w' r :
  published w t x w' → writer_ok w' → last_revision (wd_writer w) = Some r →
  ∃ r', last_revision (wd_writer w') = Some r' ∧ (rev_get r < rev_get r')%Z.
Proof.
  intros Hp Hw' Hr. pose proof (wo_current w' Hw') as Hc. rewrite (pb_current _ _ _ _ Hp) in Hc.
  destruct Hc as [[_ _ _ Hrev] _]. exists (snapshot_revision x). split; [done|].
  pose proof (pb_next _ _ _ _ Hp) as Hn. unfold next_revision in Hn. rewrite Hr in Hn.
  apply revision_next_Ok in Hn. lia.
Qed.

Lemma published_token w t x w' : published w t x w' → token_current t w'.
Proof.
  intros Hp. exists x. split; [apply Hp|]. rewrite (pb_datastore _ _ _ _ Hp). apply Hp.
Qed.
End refinement.
