(* ===== verification/Policy.v ===== *)
(** * Policy text (src/src/policy.rs)

    Export of configurations and relationships to reviewable text, and the
    replacement of a writer's state by policy text. Reading and writing files
    is left out. *)

From S2P Require Import Prelude Model Domain Revision StoreTypes Schema EvalContext.
From S2P Require Import Dsl Legacy Runtime Writer.

Definition RELATIONSHIP_DIRECTORY_NAME : string := "relationships".
Definition RELATIONSHIP_FILE_EXTENSION : string := "zedtuples".
Definition POLICY_IMPORT_BATCH_SIZE : Z := 10000.

Record PolicyTextFile := mkPolicyFile { pf_path : string; pf_contents : string }.
Record PolicyText := mkPolicy {
  policy_schema : string;
  policy_relationship_files : list PolicyTextFile
}.

(** [PolicyText::from_single_relationship_file] *)
Definition from_single_relationship_file (schema relationships : string) : PolicyText :=
  mkPolicy schema
    [mkPolicyFile (RELATIONSHIP_DIRECTORY_NAME +:+ "/all." +:+ RELATIONSHIP_FILE_EXTENSION)
       relationships].

(** ** Export *)

Definition LF : string := String (ascii_of_N 10) "".
Definition quoted (s : string) : string := String QUOTE (s +:+ String QUOTE "").

(** [push_expression_list]: the separator is empty before the first operand. *)
Fixpoint join (separator : string) (l : list string) : string :=
  match l with
  | [] => ""
  | [s] => s
  | s :: l => s +:+ separator +:+ join separator l
  end.

(** What [push_expression] appends. *)
Fixpoint expression_text (e : LegacyUsersetExpression) : string :=
  match e with
  | LThis => "this"
  | LComputedUserset rel => "computed_userset(relation: " +:+ quoted (relation_str rel) +:+ ")"
  | LTupleToUserset tupleset computed =>
      "tuple_to_userset(tupleset: " +:+ quoted (relation_str tupleset) +:+
      ", computed_userset: " +:+ quoted (relation_str computed) +:+ ")"
  | LUnion es => "union(" +:+ join ", " (map expression_text es) +:+ ")"
  | LIntersection es => "intersection(" +:+ join ", " (map expression_text es) +:+ ")"
  | LExclusion base exclude =>
      "exclusion(" +:+ expression_text base +:+ ", " +:+ expression_text exclude +:+ ")"
  end.

(** What [push_relation] appends. *)
Definition relation_text (r : RelationConfig) : string :=
  match config_userset_rewrite r with
  | Some e =>
      "    relation " +:+ relation_str (config_relation_name r) +:+ " {" +:+ LF +:+
      "        rewrite " +:+ expression_text e +:+ LF +:+ "    }" +:+ LF
  | None => "    relation " +:+ relation_str (config_relation_name r) +:+ " {}" +:+ LF
  end.

Section export.
Context `{HashOrder}.

(** The body of the loop of [canonical_schema_source]. *)
Definition namespace_text (c : NamespaceConfig) : string :=
  "namespace " +:+ config_name c +:+ " {" +:+ LF +:+
  join "" (map relation_text
    (sort_by_name (λ r, relation_str (config_relation_name r)) (hash_values (config_relations c)))) +:+
  "}" +:+ LF +:+ LF.

Definition canonical_schema_source (m : gmap string NamespaceConfig) : string :=
  join "" (map namespace_text (sort_by_name config_name (hash_values m))).

(** The [BTreeMap] of [relationship_files]: lines by resource type. *)
Definition group_line (groups : gmap string (list string)) (r : Relationship)
    : gmap string (list string) :=
  let key := as_str (object_type (resource r)) in
  <[key := default [] (groups !! key) ++ [relationship_to_string r]]> groups.

(** [lines.sort()]; [lines.join("\n")] and a final newline. *)
Definition group_file (g : string * list string) : PolicyTextFile :=
  let contents := join LF (sort_by_name (λ s, s) g.2) in
  mkPolicyFile
    (RELATIONSHIP_DIRECTORY_NAME +:+ "/" +:+ g.1 +:+ "." +:+ RELATIONSHIP_FILE_EXTENSION)
    (if str_is_empty contents then contents else contents +:+ LF).

(** A [BTreeMap] is visited in key order. *)
Definition relationship_files (rs : list Relationship) : list PolicyTextFile :=
  map group_file (sort_by_name fst (map_to_list (foldl group_line ∅ rs))).

Definition export_policy_text (m : gmap string NamespaceConfig) (rs : list Relationship)
    : PolicyText :=
  mkPolicy (canonical_schema_source m) (relationship_files rs).
End export.

(** ** Import *)

(** [str::trim] drops Unicode white space. The UTF-8 encodings that start a
    white space character: one byte, two bytes, three bytes. *)
Definition space1 (b : ascii) : bool :=
  let v := byte_val b in in_range 9 13 v || (v =? 32)%Z.
Definition space2 (a b : ascii) : bool :=
  ((byte_val a =? 194) && ((byte_val b =? 133) || (byte_val b =? 160)))%Z.
Definition space3 (a b c : ascii) : bool :=
  let x := byte_val a in let y := byte_val b in let z := byte_val c in
  ((x =? 225) && (y =? 154) && (z =? 128) ||
   (x =? 226) && (y =? 128) && (in_range 128 138 z || (z =? 168) || (z =? 169) || (z =? 175)) ||
   (x =? 226) && (y =? 129) && (z =? 159) ||
   (x =? 227) && (y =? 128) && (z =? 128))%Z.

Fixpoint trim_start (s : string) : string :=
  match s with
  | EmptyString => EmptyString
  | String a s1 =>
      if space1 a then trim_start s1 else
      match s1 with
      | EmptyString => s
      | String b s2 =>
          if space2 a b then trim_start s2 else
          match s2 with
          | EmptyString => s
          | String c s3 => if space3 a b c then trim_start s3 else s
          end
      end
  end.

(** A suffix is dropped when nothing but white space is left of it. *)
Fixpoint trim_end (s : string) : string :=
  match s with
  | EmptyString => EmptyString
  | String b s' =>
      if str_is_empty (trim_start s) then EmptyString else String b (trim_end s')
  end.

Definition trim (s : string) : string := trim_end (trim_start s).

Definition CR : ascii := ascii_of_N 13.

Fixpoint strip_cr (s : string) : string :=
  match s with
  | EmptyString => EmptyString
  | String b EmptyString => if Ascii.eqb b CR then EmptyString else s
  | String b s' => String b (strip_cr s')
  end.

(** [str::lines]: an empty last line is not a line; a line feed may be preceded
    by a carriage return. *)
Fixpoint lines_from (pieces : list string) : list string :=
  match pieces with
  | [] => []
  | [last] => if str_is_empty last then [] else [last]
  | s :: pieces => strip_cr s :: lines_from pieces
  end.
Definition str_lines (s : string) : list string := lines_from (str_split (ascii_of_N 10) s).

Fixpoint starts_with (prefix s : string) : bool :=
  match prefix, s with
  | EmptyString, _ => true
  | String a prefix, String b s => Ascii.eqb a b && starts_with prefix s
  | _, EmptyString => false
  end.

Definition is_comment (line : string) : bool :=
  str_is_empty line || starts_with "#" line || starts_with "//" line.

Definition parse_relationships (policy : PolicyText)
    : result ZanzibarError (list Relationship) :=
  try_map (λ line, map_err ZDomain (relationship_from_str line))
    (filter (λ line, is_comment line = false)
       (map trim (concat (map (λ f, str_lines (pf_contents f)) (policy_relationship_files policy))))).

Section import.
Context `{Hasher, HashOrder, Blake3, PestParser}.

(** One turn of the import loop: the batch is applied when it is full. *)
Definition import_relationship (p : ConsistencyToken * list RelationshipMutation) (r : Relationship)
    : ST World ZanzibarError (ConsistencyToken * list RelationshipMutation) :=
  let mutations := p.2 ++ [Create r] in
  if (Z.of_nat (length mutations) =? POLICY_IMPORT_BATCH_SIZE)%Z
  then let! token := apply_relationship_mutations mutations [] in st_ret (token, [])
  else st_ret (p.1, mutations).

Fixpoint import_relationships (p : ConsistencyToken * list RelationshipMutation)
    (rs : list Relationship) : ST World ZanzibarError (ConsistencyToken * list RelationshipMutation) :=
  match rs with
  | [] => st_ret p
  | r :: rs => let! p := import_relationship p r in import_relationships p rs
  end.

(** What happens on the candidate, from its empty state to its last batch. *)
Definition import_policy (policy : PolicyText) : Op :=
  let! token := replace_dsl_with_token (policy_schema policy) in
  let! rs := st_lift (parse_relationships policy) in
  let! p := import_relationships (token, []) rs in
  match p.2 with
  | [] => st_ret p.1
  | mutations => apply_relationship_mutations mutations []
  end.

(** The candidate keeps the service's retention, limits, datastore and last
    revision, and publishes to a cell of its own. *)
Definition policy_candidate (fresh : DatastoreId) (w : World) : World :=
  let s := wd_writer w in
  let c := with_snapshot_retention (retained_snapshots s) fresh (wd_cells w) in
  let cs := with_evaluation_limits (evaluation_limits s) (wd_writer c) in
  mkWorld
    (mkWriter (configs cs) (schema cs) (relationships cs) (current_snapshot cs)
       (snapshot_history cs) (datastore_id s) (retained_snapshots cs) (last_revision s)
       (evaluation_limits cs) (published_state cs))
    (wd_cells c).

(** [apply_policy_text_to_service]: the service is replaced only when the whole
    import succeeded; a failed import leaves the candidate's cell behind. *)
Definition apply_policy_text (fresh : DatastoreId) (policy : PolicyText) : Op := λ w,
  match import_policy policy (policy_candidate fresh w) with
  | (Ok token, candidate) =>
      (Ok token, replace_publisher (published_state (wd_writer w)) candidate)
  | (Err e, candidate) => (Err e, mkWorld (wd_writer w) (wd_cells candidate))
  end.

(** [WriterState::from_policy_text] *)
Definition from_policy_text (fresh fresh' : DatastoreId) (policy : PolicyText) (cells : Cells)
    : result ZanzibarError World :=
  match apply_policy_text fresh' policy (writer_new fresh cells) with
  | (Ok _, w) => Ok w
  | (Err e, _) => Err e
  end.
End import.
