(* ===== verification/PolicyProps.v ===== *)
(** * Policy text: replacement of a service

    Importing policy text replaces a service's contents by the policy's, or
    leaves the service as it was. The relationship files of exported policy text
    read back to the relationships they were written from. *)

From S2P Require Import Prelude Model Domain Revision Schema StoreTypes Store StoreSpec StoreProps.
From S2P Require Import StoreView ViewSpec ViewProps EvalContext Dsl Legacy LegacyProps Runtime Writer.
From S2P Require Import WriterSpec Policy.

(** ** Batches of creations *)

Lemma first_repeat_None rs : first_repeat rs = None ↔ NoDup rs.
Proof.
  unfold first_repeat.
  set (f := λ i, r ← rs !! i; if decide (r ∈ take i rs) then Some r else None).
  assert (∀ i r, f i = Some r ↔ rs !! i = Some r ∧ r ∈ take i rs) as Hf.
  { intros i r. unfold f. destruct (rs !! i) as [x|]; simpl; [|naive_solver].
    case_decide; naive_solver. }
  assert (head (omap (M:=list) f (seq 0 (length rs))) = None ↔ ∀ i r, f i ≠ Some r) as ->.
  { split.
    - intros Hh i r Hi. assert (r ∈ omap (M:=list) f (seq 0 (length rs))) as Hin.
      { apply list_elem_of_omap. exists i. split; [|done]. apply elem_of_seq.
        apply Hf in Hi as [Hi%lookup_lt_Some _]. lia. }
      destruct (omap f _); [by apply not_elem_of_nil in Hin|done].
    - intros Hn. destruct (omap (M:=list) f (seq 0 (length rs))) as [|r l] eqn:E; [done|].
      assert (r ∈ omap (M:=list) f (seq 0 (length rs))) as Hin by (rewrite E; by left).
      apply list_elem_of_omap in Hin as (i & _ & Hi). by destruct (Hn i r). }
  setoid_rewrite Hf. rewrite NoDup_alt. split.
  - intros Hn i j x Hi Hj. destruct (Nat.lt_trichotomy i j) as [Hl|[?|Hl]]; [|done|].
    + destruct (Hn j x). split; [done|]. apply list_elem_of_lookup. exists i.
      by rewrite lookup_take_lt.
    + destruct (Hn i x). split; [done|]. apply list_elem_of_lookup. exists j.
      by rewrite lookup_take_lt.
  - intros Hn i x [Hi Hx]. apply list_elem_of_lookup in Hx as [j Hj].
    apply lookup_take_Some in Hj as [Hj Hlt]. specialize (Hn i j x Hi Hj). lia.
Qed.

Lemma create_fold rels rs :
  NoDup rs →
  match try_fold spec_mutation rels (Create <$> rs) with
  | Ok rels' => (∀ r, r ∈ rs → r ∉ rels) ∧ rels' = rels ++ rs
  | Err _ => ∃ r, r ∈ rs ∧ r ∈ rels
  end.
Proof.
  revert rels. induction rs as [|r rs IH]; intros rels Hn; simpl.
  { rewrite app_nil_r. split; [|done]. by intros r ?%not_elem_of_nil. }
  apply NoDup_cons in Hn as [Hr Hn]. case_decide as Hin; simpl.
  { exists r. split; [by left|done]. }
  specialize (IH (rels ++ [r]) Hn). destruct (try_fold _ _ _) as [rels'|e].
  - destruct IH as [Hd ->]. rewrite <- app_assoc. split; [|done].
    intros x [->|Hx]%elem_of_cons; [done|]. intros Hx'. apply (Hd x Hx), elem_of_app. by left.
  - destruct IH as (x & Hx & [Hx'| ->%list_elem_of_singleton]%elem_of_app); [|done].
    exists x. split; [by right|done].
Qed.

Lemma spec_apply_creates rels rs :
  NoDup rels → (Z.of_nat (length rs) ≤ MAX_MUTATIONS_PER_BATCH)%Z →
  match spec_apply rels (Create <$> rs) [] with
  | Ok rels' => NoDup (rels ++ rs) ∧ rels' = rels ++ rs
  | Err _ => ¬ NoDup (rels ++ rs)
  end.
Proof.
  intros Hrels Hlen. unfold spec_apply, batch_len. rewrite length_fmap. simpl.
  rewrite (proj2 (Z.ltb_ge _ _)) by done. simpl.
  assert (mutation_relationship <$> (Create <$> rs) = rs) as ->.
  { rewrite <- list_fmap_compose. apply list_fmap_id. } destruct (first_repeat rs) as [x|] eqn:E.
  - intros (_ & _ & Hn)%NoDup_app. apply first_repeat_None in Hn. by rewrite E in Hn.
  - apply first_repeat_None in E. pose proof (create_fold rels rs E) as Hc.
    destruct (try_fold _ _ _) as [rels'|e].
    + destruct Hc as [Hd ->]. split; [|done]. apply NoDup_app.
      split; [done|]. split; [|done]. intros x Hx Hx'. by apply (Hd x).
    + destruct Hc as (x & Hx & Hx'). intros (_ & Hd & _)%NoDup_app. by apply (Hd x).
Qed.

(** ** Import *)

Section import.
Context `{Hasher, HashOrder, Blake3, PestParser}.

(** What policy text describes: its schema, compiled, and its relationships,
    which must be distinct and pass the schema. *)
Definition policy_contents (policy : PolicyText) (y : Contents) : Prop :=
  ∃ x rs, spec_replace_dsl None (policy_schema policy) = Ok x ∧
    parse_relationships policy = Ok rs ∧ NoDup rs ∧ spec_validate (ct_schema x) rs = Ok tt ∧
    y = mkContents (ct_configs x) (ct_schema x) rs.

(** Between two turns of the import loop: [done] was read, a part of it is
    written and the rest is pending. *)
Record importing (x : Contents) (done : list Relationship)
    (p : ConsistencyToken * list RelationshipMutation) (w : World) : Prop := {
  im_ok : writer_ok w;
  im_token : token_current p.1 w;
  im_contents : ∃ y rs, contents w = Some y ∧ ct_configs y = ct_configs x ∧
    ct_schema y = ct_schema x ∧ p.2 = Create <$> rs ∧
    (Z.of_nat (length rs) < POLICY_IMPORT_BATCH_SIZE)%Z ∧ ct_relationships y ++ rs ≡ₚ done ∧
    NoDup (ct_relationships y) ∧ spec_validate (ct_schema x) (ct_relationships y) = Ok tt
}.

(** Why a batch of the import can fail. *)
Definition import_error (x : Contents) (rs : list Relationship) (e : ZanzibarError) : Prop :=
  resource_error e ∨ ¬ (NoDup rs ∧ spec_validate (ct_schema x) rs = Ok tt).

Lemma spec_validate_perm c rs rs' :
  rs ≡ₚ rs' → spec_validate c rs = Ok tt ↔ spec_validate c rs' = Ok tt.
Proof. intros Hp. rewrite !spec_validate_Ok. by rewrite Hp. Qed.

Lemma spec_validate_app c rs rs' :
  spec_validate c (rs ++ rs') = Ok tt ↔ spec_validate c rs = Ok tt ∧ spec_validate c rs' = Ok tt.
Proof. rewrite !spec_validate_Ok. apply Forall_app. Qed.

Lemma write_batch x done w y rs :
  writer_ok w → contents w = Some y → ct_configs y = ct_configs x → ct_schema y = ct_schema x →
  (Z.of_nat (length rs) ≤ MAX_MUTATIONS_PER_BATCH)%Z → ct_relationships y ++ rs ≡ₚ done →
  NoDup (ct_relationships y) → spec_validate (ct_schema x) (ct_relationships y) = Ok tt →
  match apply_relationship_mutations (Create <$> rs) [] w with
  | (Ok t, w') => importing x done (t, []) w' ∧ follows w w'
  | (Err e, w') => w' = w ∧ import_error x done e
  end.
Proof.
  intros Hw Hy E1 E2 Hlen Hdone Hn Hv.
  pose proof (write_ok w (Create <$> rs) [] Hw) as Hm. unfold meets, spec_write in Hm.
  rewrite Hy in Hm. cbn [ok_or mbind result_bind try_for] in Hm.
  assert (mutation_relationship <$> (Create <$> rs) = rs) as Er.
  { rewrite <- list_fmap_compose. apply list_fmap_id. }
  rewrite Er, E2 in Hm.
  pose proof (spec_apply_creates (ct_relationships y) rs Hn Hlen) as Hs.
  destruct (apply_relationship_mutations _ _ w) as [[t|e] w'].
  - destruct Hm as (Hw' & x' & y' & Hp & Hx' & Hy' & Hsame); [by intros p ?%not_elem_of_nil|].
    apply bind_Ok in Hy' as ([] & Hvr & (rels' & E%map_err_Ok & [= <-])%bind_Ok).
    rewrite E in Hs. destruct Hs as [Hn' ->].
    destruct Hsame as (S1 & S2 & S3). simpl in S1, S2, S3.
    split; [|by eapply published_follows]. split; [done|by eapply published_token|].
    eexists _, []. split; [by eapply published_contents|]. simpl.
    rewrite app_nil_r. split; [congruence|]. split; [congruence|]. split; [done|].
    split; [done|]. split; [by rewrite S3|]. split; [by rewrite S3|].
    apply (spec_validate_perm _ _ _ S3), spec_validate_app. by split.
  - destruct Hm as [-> Hm]; [by intros p ?%not_elem_of_nil|]. split; [done|].
    destruct Hm as [Hm|Hm]; [|by left]. right. intros [Hn' Hv'].
    rewrite <- Hdone in Hn'. apply (spec_validate_perm _ _ _ Hdone), spec_validate_app in Hv' as [_ Hv'].
    rewrite Hv' in Hm. cbn [mbind result_bind] in Hm.
    destruct (spec_apply _ _ _); [done|]. by apply Hs.
Qed.

Lemma import_error_more x rs rs' e : import_error x rs e → import_error x (rs ++ rs') e.
Proof.
  intros [?|Hne]; [by left|]. right. intros [(Hn & _ & _)%NoDup_app Hv].
  apply Hne. split; [done|]. by apply spec_validate_app in Hv as [? _].
Qed.

Lemma import_step x done p w r :
  importing x done p w →
  match import_relationship p r w with
  | (Ok p', w') => importing x (done ++ [r]) p' w' ∧ follows w w'
  | (Err e, w') => w' = w ∧ import_error x (done ++ [r]) e
  end.
Proof.
  intros [Hw Ht (y & rs & Hy & E1 & E2 & Ep & Hlen & Hdone & Hn & Hv)].
  unfold import_relationship. rewrite Ep.
  assert ((Create <$> rs) ++ [Create r] = Create <$> (rs ++ [r])) as -> by by rewrite fmap_app.
  rewrite length_fmap, length_app. cbn [length].
  assert (ct_relationships y ++ (rs ++ [r]) ≡ₚ done ++ [r]) as Hd by (by rewrite app_assoc, Hdone).
  destruct (Z.eqb_spec (Z.of_nat (length rs + 1)) POLICY_IMPORT_BATCH_SIZE) as [Hfull|Hfull].
  - pose proof (write_batch x (done ++ [r]) w y (rs ++ [r]) Hw Hy E1 E2) as Hb.
    unfold st_bind. destruct (apply_relationship_mutations _ _ w) as [[t|e] w'];
      (apply Hb; [|done|done|done]); rewrite length_app; simpl; rewrite Hfull;
      unfold POLICY_IMPORT_BATCH_SIZE, MAX_MUTATIONS_PER_BATCH; lia.
  - split; [|reflexivity]. split; [done|done|]. exists y, (rs ++ [r]).
    split_and!; try done. rewrite length_app. simpl. lia.
Qed.

Lemma import_loop x done p w rs :
  importing x done p w →
  match import_relationships p rs w with
  | (Ok p', w') => importing x (done ++ rs) p' w' ∧ follows w w'
  | (Err e, w') => follows w w' ∧ import_error x (done ++ rs) e
  end.
Proof.
  revert done p w. induction rs as [|r rs IH]; intros done p w Hi; simpl.
  { by rewrite app_nil_r. }
  unfold st_bind. pose proof (import_step x done p w r Hi) as Hs.
  replace (done ++ r :: rs) with ((done ++ [r]) ++ rs) by by rewrite <- app_assoc.
  destruct (import_relationship p r w) as [[p'|e] w'].
  - destruct Hs as [Hi' Hf]. specialize (IH _ _ _ Hi').
    destruct (import_relationships p' rs w') as [[p''|e] w''].
    + destruct IH as [Hi'' Hf']. split; [done|]. by etrans.
    + destruct IH as [Hf' He]. split; [by etrans|done].
  - destruct Hs as [-> He]. split; [done|]. by apply import_error_more.
Qed.

(** Right after the schema was replaced. *)
Lemma import_starts text x y t c :
  writer_ok c → token_current t c → contents c = Some y → spec_replace_dsl None text = Ok x →
  same_contents y x → importing x [] (t, []) c.
Proof.
  intros Hc Ht Hy Hx (S1 & S2 & S3).
  assert (ct_relationships x = []) as Hempty.
  { unfold spec_replace_dsl, spec_install in Hx. cbn in Hx.
    by apply bind_Ok in Hx as (? & _ & (? & _ & (? & _ & [= <-])%bind_Ok)%bind_Ok). }
  rewrite Hempty in S3. apply Permutation_nil_r in S3. split; [done|done|]. exists y, [].
  simpl. rewrite S3. split_and!; try done. constructor.
Qed.

Definition holds_policy (policy : PolicyText) (c : World) : Prop :=
  ∃ y y', contents c = Some y ∧ policy_contents policy y' ∧ same_contents y y'.

Lemma import_finished policy x rs p c :
  spec_replace_dsl None (policy_schema policy) = Ok x → parse_relationships policy = Ok rs →
  importing x rs p c → p.2 = [] → writer_ok c ∧ token_current p.1 c ∧ holds_policy policy c.
Proof.
  intros Hx Hrs [Hw Ht (y & rs' & Hy & E1 & E2 & Ep & _ & Hd & Hn & Hv)] Hp.
  rewrite Ep in Hp. apply fmap_nil_inv in Hp as ->. rewrite app_nil_r in Hd.
  split_and!; [done|done|]. exists y, (mkContents (ct_configs x) (ct_schema x) rs). split; [done|]. split.
  - exists x, rs. split_and!; [done|done|by rewrite <- Hd|by apply (spec_validate_perm _ _ _ Hd)|done].
  - by split_and!.
Qed.

(** The last, incomplete batch. *)
Lemma import_flush policy x rs p c :
  spec_replace_dsl None (policy_schema policy) = Ok x → parse_relationships policy = Ok rs →
  importing x rs p c →
  match match p.2 with [] => st_ret p.1 | ms => apply_relationship_mutations ms [] end c with
  | (Ok t, c') => writer_ok c' ∧ token_current t c' ∧ follows c c' ∧ holds_policy policy c'
  | (Err e, c') => c' = c ∧ import_error x rs e
  end.
Proof.
  intros Hx Hrs Hi. pose proof Hi as [Hw Ht (y & rs' & Hy & E1 & E2 & Ep & Hlen & Hd & Hn & Hv)].
  destruct (p.2) as [|m ms] eqn:Ep2.
  { destruct (import_finished policy x rs p c Hx Hrs Hi Ep2) as (? & ? & ?). by split_and!. }
  rewrite Ep. pose proof (write_batch x rs c y rs' Hw Hy E1 E2) as Hb.
  destruct (apply_relationship_mutations _ _ c) as [[t|e] c'];
    (destruct Hb as [Hb Hf]; [unfold POLICY_IMPORT_BATCH_SIZE, MAX_MUTATIONS_PER_BATCH in *; lia|done..|]).
  - destruct (import_finished policy x rs (t, []) c' Hx Hrs Hb eq_refl) as (? & ? & ?). by split_and!.
  - done.
Qed.

Lemma import_policy_ok policy c :
  writer_ok c → contents c = None →
  match import_policy policy c with
  | (Ok t, c') => writer_ok c' ∧ token_current t c' ∧ follows c c' ∧
      (∀ r, last_revision (wd_writer c) = Some r →
            ∃ r', last_revision (wd_writer c') = Some r' ∧ (rev_get r < rev_get r')%Z) ∧
      holds_policy policy c'
  | (Err e, c') => follows c c' ∧ (resource_error e ∨ ¬ ∃ y', policy_contents policy y')
  end.
Proof.
  intros Hc Hnone. unfold import_policy, st_bind, st_lift.
  pose proof (replace_dsl_ok c (policy_schema policy) Hc) as Hm. unfold meets in Hm.
  rewrite Hnone in Hm.
  destruct (replace_dsl_with_token (policy_schema policy) c) as [[t|e] c1].
  2: { destruct Hm as [-> [Hs|?]]; (split; [done|]); [right|by left].
       intros (y' & x & rs & Hx & _). congruence. }
  destruct Hm as (Hc1 & x1 & x & Hp & Hx1 & Hx & Hsame).
  pose proof (published_follows _ _ _ _ Hp Hc1) as Hf1.
  destruct (parse_relationships policy) as [rs|e] eqn:Hrs.
  2: { split; [done|]. right. intros (y' & ? & rs & _ & ? & _). congruence. }
  pose proof (import_loop x [] (t, []) c1 rs) as Hl.
  assert (∀ e, import_error x rs e → resource_error e ∨ ¬ ∃ y', policy_contents policy y') as Herr.
  { intros e [?|Hn]; [by left|]. right. intros (y' & x' & rs' & Hx' & Hrs' & Hnd & Hv & _).
    apply Hn. assert (x' = x) as -> by congruence. assert (rs' = rs) as -> by congruence. done. }
  destruct (import_relationships (t, []) rs c1) as [[p|e] c2];
    (destruct Hl as [Hi Hf]; [eapply import_starts; [done|by eapply published_token|by eapply published_contents|done..]|]).
  2: { split; [by etrans|]. by apply (Herr e). }
  pose proof (import_flush policy x rs p c2 Hx Hrs Hi) as Hfl.
  match type of Hfl with match ?last with _ => _ end => destruct last as [[t'|e] c3] end.
  - destruct Hfl as (Hw3 & Ht3 & Hf3 & Hh). split_and!; [done|done|etrans; [exact Hf1|]; by etrans| |done].
    intros r Hr. destruct (published_advances _ _ _ _ r Hp Hc1 Hr) as (r1 & Hr1 & ?).
    assert (follows c1 c3) as Hf13 by by etrans.
    destruct (fo_revision _ _ Hf13 r1 Hr1) as (r2 & Hr2 & ?). exists r2. split; [done|]. lia.
  - destruct Hfl as [-> He]. split; [by etrans|]. by apply (Herr e).
Qed.
End import.

(** ** Replacing a service *)

Section replace.
Context `{Hasher, HashOrder, Blake3, PestParser}.

Lemma candidate_ok fresh w :
  writer_ok w → writer_ok (policy_candidate fresh w) ∧ contents (policy_candidate fresh w) = None.
Proof.
  intros Hw. split; [|done]. split; cbn; try done; [lia| |].
  - rewrite length_app. simpl. lia.
  - unfold cell_load. by rewrite list_lookup_middle.
Qed.

Lemma replace_publisher_ok a w :
  writer_ok w → a < length (wd_cells w) → writer_ok (replace_publisher a w).
Proof.
  intros [? ? ? ? _ _] Ha. unfold replace_publisher, publish_current_engine_state.
  split; cbn [wd_writer wd_cells published_state current_snapshot snapshot_history configs schema
              relationships retained_snapshots last_revision datastore_id evaluation_limits]; try done.
  - destruct (current_snapshot (wd_writer w)); [|done]. by destruct wo_current as [[] ?].
  - unfold cell_store. by rewrite length_insert.
  - by apply cell_load_store.
Qed.

Lemma writer_ok_cells w cells' :
  writer_ok w → length (wd_cells w) ≤ length cells' →
  (∀ a, a < length (wd_cells w) → cells' !! a = wd_cells w !! a) →
  writer_ok (mkWorld (wd_writer w) cells').
Proof.
  intros [? ? ? ? Ha Hc] Hl He. split; cbn; try done; [lia|].
  rewrite <- Hc. unfold cell_load. by rewrite He.
Qed.

(** A policy replaces the contents, and every snapshot a reader can still find
    is newer than what was there; or it changes nothing a reader can see. *)
Lemma apply_policy_ok fresh policy w :
  writer_ok w →
  match apply_policy_text fresh policy w with
  | (Ok t, w') => writer_ok w' ∧ token_current t w' ∧
      datastore_id (wd_writer w') = datastore_id (wd_writer w) ∧
      published_state (wd_writer w') = published_state (wd_writer w) ∧
      retained_snapshots (wd_writer w') = retained_snapshots (wd_writer w) ∧
      evaluation_limits (wd_writer w') = evaluation_limits (wd_writer w) ∧
      (∀ r, last_revision (wd_writer w) = Some r →
        (∃ r', last_revision (wd_writer w') = Some r' ∧ (rev_get r < rev_get r')%Z) ∧
        ∀ s, s ∈ snapshot_history (wd_writer w') → (rev_get r < rev_get (snapshot_revision s))%Z) ∧
      ∃ y y', contents w' = Some y ∧ policy_contents policy y' ∧ same_contents y y'
  | (Err e, w') => wd_writer w' = wd_writer w ∧ writer_ok w' ∧
      (resource_error e ∨ ¬ ∃ y, policy_contents policy y)
  end.
Proof.
  intros Hw. destruct (candidate_ok fresh w Hw) as [Hc Hnone].
  pose proof (import_policy_ok policy _ Hc Hnone) as Hi. unfold apply_policy_text.
  destruct (import_policy policy (policy_candidate fresh w)) as [[t|e] c'].
  - destruct Hi as (Hc' & Ht & Hf & Hadv & Hy).
    pose proof (wo_alive w Hw) as Ha.
    assert (published_state (wd_writer w) < length (wd_cells c')) as Ha'.
    { rewrite (fo_length _ _ Hf). cbn. rewrite length_app. simpl. lia. }
    split; [by apply replace_publisher_ok|]. split; [done|].
    split; [exact (fo_datastore _ _ Hf)|]. split; [done|].
    split; [exact (fo_retained _ _ Hf)|]. split; [exact (fo_limits _ _ Hf)|].
    split; [|done]. intros r Hr. split; [by apply Hadv|].
    intros s Hs. by destruct (fo_history _ _ Hf s r Hs Hr) as [?%not_elem_of_nil|].
  - destruct Hi as [Hf He]. split; [done|]. split; [|done]. apply writer_ok_cells; [done| |].
    + rewrite (fo_length _ _ Hf). cbn. rewrite length_app. simpl. lia.
    + intros a Ha. rewrite (fo_cells _ _ Hf) by (cbn; lia). cbn. by apply lookup_app_l.
Qed.
End replace.

(** ** The lines of an exported file *)

(** Visible ASCII that starts with a letter: what a relationship prints to. *)
Definition tidy (line : string) : Prop :=
  (∃ b s, line = String b s ∧ is_ascii_alphabetic b = true) ∧
  str_forall is_ascii_graphic line = true.

Lemma type_head (t : ObjectType) : ∃ b s, as_str t = String b s ∧ is_ascii_alphabetic b = true.
Proof.
  destruct t as [[|b s] Hs]; simpl; [by vm_compute in Hs|]. exists b, s. split; [done|].
  destruct (is_ascii_alphabetic b) eqn:Hb; [done|]. exfalso. revert Hs. simpl.
  unfold validate_type_identifier, guard_err. destruct (Nat.ltb _ _); [done|].
  unfold first_invalid. replace (type_byte_valid 0 b) with (is_ascii_alphabetic b) by done.
  by rewrite Hb.
Qed.

Lemma ident_graphic {kind} (i : Ident kind) : str_forall is_ascii_graphic (as_str i) = true.
Proof.
  eapply str_forall_impl; [|apply ident_checks]. by intros b [Hb _]%andb_true_iff.
Qed.

Lemma relationship_tidy r : tidy (relationship_to_string r).
Proof.
  split.
  - destruct (type_head (object_type (resource r))) as (b & s & E & Hb).
    unfold relationship_to_string, object_ref_to_string. rewrite E.
    exists b. eexists. by split.
  - assert (∀ o, str_forall is_ascii_graphic (object_ref_to_string o) = true) as Ho.
    { intros o. unfold object_ref_to_string. rewrite str_forall_app. simpl.
      by rewrite !ident_graphic. }
    unfold relationship_to_string. rewrite str_forall_app. simpl. rewrite str_forall_app. simpl.
    rewrite Ho, ident_graphic. simpl. destruct (subject r) as [o|o rel]; simpl; [apply Ho|].
    rewrite str_forall_app. simpl. by rewrite Ho, ident_graphic.
Qed.

Lemma graphic_not_space a :
  is_ascii_graphic a = true →
  space1 a = false ∧ (∀ b, space2 a b = false) ∧ (∀ b c, space3 a b c = false).
Proof. destruct a as [[] [] [] [] [] [] [] []]; vm_compute; done. Qed.

Lemma trim_start_graphic s : str_forall is_ascii_graphic s = true → trim_start s = s.
Proof.
  destruct s as [|a s]; [done|]. simpl. intros [Ha _]%andb_true_iff.
  destruct (graphic_not_space a Ha) as (H1 & H2 & H3). rewrite H1.
  destruct s as [|b s]; [done|]. rewrite H2. destruct s as [|c s]; [done|]. by rewrite H3.
Qed.

Lemma trim_end_graphic s : str_forall is_ascii_graphic s = true → trim_end s = s.
Proof.
  induction s as [|a s IH]; [done|]. intros Hs. cbn [trim_end].
  rewrite trim_start_graphic by done. cbn [str_is_empty]. f_equal. apply IH.
  simpl in Hs. by apply andb_true_iff in Hs as [_ ?].
Qed.

Lemma trim_tidy line : tidy line → trim line = line.
Proof.
  intros [_ Hl]. unfold trim. by rewrite trim_start_graphic, trim_end_graphic.
Qed.

Lemma tidy_not_comment line : tidy line → is_comment line = false.
Proof.
  intros [(b & s & -> & Hb) _]. unfold is_comment. simpl.
  destruct b as [[] [] [] [] [] [] [] []]; vm_compute in Hb |- *; done.
Qed.

Lemma strip_cr_tidy line : str_forall is_ascii_graphic line = true → strip_cr line = line.
Proof.
  induction line as [|b s IH]; [done|]. simpl. intros [Hb Hs]%andb_true_iff.
  destruct s as [|c s]; [|by rewrite IH].
  destruct b as [[] [] [] [] [] [] [] []]; vm_compute in Hb |- *; done.
Qed.

Lemma tidy_no_newline line :
  str_forall is_ascii_graphic line = true → str_contains (ascii_of_N 10) line = false.
Proof. intros Hl. by apply (str_forall_not_contains is_ascii_graphic). Qed.

(** Reading back the lines a file was joined from. *)
Lemma split_join ls :
  Forall tidy ls → ls ≠ [] →
  str_split (ascii_of_N 10) (join LF ls +:+ LF) = ls ++ [""].
Proof.
  induction 1 as [|line ls [_ Hl] _ IH]; [done|]. intros _.
  assert (∀ rest, str_split (ascii_of_N 10) (line +:+ String (ascii_of_N 10) rest) =
                  line :: str_split (ascii_of_N 10) rest) as Hsplit.
  { intros rest. apply str_split_app. by apply tidy_no_newline. }
  destruct ls as [|line' ls].
  - change (join LF [line] +:+ LF) with (line +:+ String (ascii_of_N 10) ""). by rewrite Hsplit.
  - change (join LF (line :: line' :: ls)) with (line +:+ LF +:+ join LF (line' :: ls)).
    rewrite !string_app_assoc.
    change (LF +:+ join LF (line' :: ls) +:+ LF)
      with (String (ascii_of_N 10) (join LF (line' :: ls) +:+ LF)).
    rewrite Hsplit, IH by done. done.
Qed.

Lemma lines_from_tidy ls :
  Forall tidy ls → lines_from (ls ++ [""]) = ls.
Proof.
  induction 1 as [|line ls [_ Hl] _ IH]; [done|]. simpl.
  rewrite strip_cr_tidy by done. destruct ls as [|l ls]; [done|]. simpl in *. by rewrite IH.
Qed.

Lemma group_lines key ls :
  Forall tidy ls → ls ≠ [] → str_lines (pf_contents (group_file (key, ls))) = sort_by_name (λ s, s) ls.
Proof.
  intros Hl Hne. unfold group_file. cbn [pf_contents snd].
  set (sorted := sort_by_name _ ls).
  assert (sorted ≡ₚ ls) as Hp by apply merge_sort_Permutation.
  assert (Forall tidy sorted) as Hs by by rewrite Hp.
  assert (sorted ≠ []) as Hn. { intros E. rewrite E in Hp. by apply Permutation_nil_l in Hp. }
  assert (str_is_empty (join LF sorted) = false) as ->.
  { destruct sorted as [|l [|l' s]]; [done| |]; apply Forall_cons in Hs as [[(b & x & -> & _) _] _];
      done. }
  unfold str_lines. by rewrite split_join, lines_from_tidy.
Qed.

(** ** Grouping *)

Definition group_values (groups : gmap string (list string)) : list string :=
  concat (map_to_list groups).*2.

(** Appending a line to its group adds the line. *)
Lemma group_line_values groups r :
  group_values (group_line groups r) ≡ₚ relationship_to_string r :: group_values groups.
Proof.
  unfold group_line, group_values.
  set (key := as_str (object_type (resource r))). set (line := relationship_to_string r).
  destruct (groups !! key) as [ls|] eqn:E; simpl.
  - rewrite <- (insert_delete_eq groups), map_to_list_insert by apply lookup_delete_eq.
    rewrite <- (insert_delete_id groups key ls E) at 2.
    rewrite map_to_list_insert by apply lookup_delete_eq. simpl.
    rewrite <- app_assoc. simpl. by rewrite <- Permutation_middle.
  - by rewrite map_to_list_insert.
Qed.

Lemma group_lines_values groups rs :
  group_values (foldl group_line groups rs) ≡ₚ group_values groups ++ map relationship_to_string rs.
Proof.
  revert groups. induction rs as [|r rs IH]; intros groups; simpl; [by rewrite app_nil_r|].
  rewrite IH, group_line_values. simpl. by rewrite Permutation_middle.
Qed.

(** Every group has a line, and every line is the text of a relationship. *)
Lemma groups_tidy rs groups :
  map_Forall (λ _ ls, Forall tidy ls ∧ ls ≠ []) groups →
  map_Forall (λ _ ls, Forall tidy ls ∧ ls ≠ []) (foldl group_line groups rs).
Proof.
  revert groups. induction rs as [|r rs IH]; intros groups Hg; simpl; [done|].
  apply IH. unfold group_line. apply map_Forall_insert_2; [|done]. split.
  - apply Forall_app. split; [|by repeat constructor; apply relationship_tidy].
    destruct (groups !! _) as [ls|] eqn:E; simpl; [|done]. by apply (Hg _ _ E).
  - by destruct (default _ _).
Qed.

Lemma files_lines rs :
  concat (map (λ f, str_lines (pf_contents f)) (relationship_files rs)) ≡ₚ
  map relationship_to_string rs.
Proof.
  unfold relationship_files. rewrite map_map.
  set (groups := foldl group_line ∅ rs).
  assert (sort_by_name fst (map_to_list groups) ≡ₚ map_to_list groups) as Hp
    by apply merge_sort_Permutation.
  rewrite Hp. transitivity (group_values groups).
  - unfold group_values.
    assert (∀ g, g ∈ map_to_list groups → Forall tidy g.2 ∧ g.2 ≠ []) as Hg.
    { intros [key ls] Hin%elem_of_map_to_list. simpl.
      eapply (groups_tidy rs ∅); [apply map_Forall_empty|done]. }
    revert Hg. induction (map_to_list groups) as [|[key ls] l IH]; intros Hg; [done|].
    cbn [map concat fmap list_fmap snd].
    destruct (Hg (key, ls)) as [Ht Hn]; [by left|]. simpl in Ht, Hn.
    rewrite group_lines by done. apply Permutation_app; [apply merge_sort_Permutation|].
    apply IH; [apply merge_sort_Permutation|]. intros g Hin. apply Hg. by right.
  - unfold groups. rewrite group_lines_values. done.
Qed.

(** ** Parsing the lines *)

Lemma tidy_lines_kept ls :
  Forall tidy ls → filter (λ line, is_comment line = false) (map trim ls) = ls.
Proof.
  induction 1 as [|line ls Hl _ IH]; [done|]. simpl. rewrite trim_tidy by done.
  rewrite filter_cons_True by by apply tidy_not_comment. by rewrite IH.
Qed.

Definition line_fits (r : Relationship) : Prop :=
  byte_len (relationship_to_string r) ≤ MAX_RELATIONSHIP_BYTES.
#[export] Instance line_fits_dec r : Decision (line_fits r).
Proof. unfold line_fits. apply _. Defined.

Lemma parse_fits r r' : relationship_from_str (relationship_to_string r) = Ok r' → line_fits r.
Proof. unfold relationship_from_str. intros (u & Hg%guard_err_Ok & _)%bind_Ok. by apply Nat.ltb_ge. Qed.

(** Reading the lines succeeds exactly when every line fits. *)
Lemma lines_parse rs rs' :
  try_map (λ line, map_err ZDomain (relationship_from_str line)) (map relationship_to_string rs) =
  Ok rs' ↔ Forall line_fits rs ∧ rs' = rs.
Proof.
  revert rs'. induction rs as [|r rs IH]; intros rs'; simpl.
  - split; [by intros [= <-]|by intros [_ ->]].
  - split.
    + intros H. inv_ok. rename select (try_map _ _ = _) into Hs. apply IH in Hs as [Hs ->].
      rename select (relationship_from_str _ = _) into Hr. pose proof (parse_fits _ _ Hr) as Hfit.
      rewrite relationship_from_to in Hr by done. injection Hr as ->. by split; [constructor|].
    + intros [[Hr Hs]%Forall_cons ->]. rewrite relationship_from_to by done. simpl.
      by rewrite (proj2 (IH rs)).
Qed.

Section roundtrip.
Context `{HashOrder}.

(** Whatever the configurations, the relationship files of an export read
    back to the exported relationships, each of them as often and none added,
    exactly when every relationship prints to at most [MAX_RELATIONSHIP_BYTES]
    bytes; otherwise the import of the exported text fails. *)
Theorem relationships_roundtrip (m : gmap string NamespaceConfig) (rs : list Relationship) :
  if decide (Forall line_fits rs)
  then ∃ rs', parse_relationships (export_policy_text m rs) = Ok rs' ∧ rs' ≡ₚ rs
  else ∃ e, parse_relationships (export_policy_text m rs) = Err e.
Proof.
  unfold parse_relationships, export_policy_text. cbn [policy_relationship_files].
  destruct (Permutation_map_inv _ _ (files_lines rs)) as (rs' & -> & Hp).
  rewrite tidy_lines_kept by apply Forall_map, Forall_true, relationship_tidy.
  destruct (decide _) as [Hfit|Hfit].
  - exists rs'. split; [|by symmetry]. apply lines_parse. split; [by rewrite <- Hp|done].
  - destruct (try_map _ _) as [rs''|e] eqn:E; [|by exists e].
    apply lines_parse in E as [E _]. by rewrite <- Hp in E.
Qed.
End roundtrip.
