(* ===== verification/SchemaText.v ===== *)
(** * The schema an export writes is read back

    The canonical text of a schema belongs to the grammar, and the pairs a
    parser of the grammar yields for it translate to the configurations it was
    written from. *)

From S2P Require Import Prelude Model Domain Revision StoreTypes Schema EvalContext EvalSpec Dsl.
From S2P Require Import Grammar GrammarProps Legacy LegacyProps Runtime Writer Policy.

(** ** Names *)

Definition is_type_kind (kind : IdentifierKind) : bool :=
  match kind with KObjectId | KSubjectId => false | _ => true end.

(** A byte that may start a name: it is never skipped. *)
Definition name_head (s : string) : bool :=
  match s with String b _ => is_ascii_alphabetic b | EmptyString => false end.

Lemma type_ident_name {kind} (i : Ident kind) :
  is_type_kind kind = true → name_head (as_str i) = true ∧ grammar_ident (as_str i) = true.
Proof.
  intros Hk. destruct i as [s Hs]. simpl.
  assert (str_is_empty s = false ∧ first_invalid type_byte_valid 0 s = None) as [He Hf].
  { destruct kind; try done; simpl in Hs; unfold validate_type_identifier, guard_err in Hs;
      (destruct (str_is_empty s); [done|]); (destruct (Nat.ltb _ _); [done|]);
      by destruct (first_invalid _ 0 s). }
  clear Hk Hs. destruct s as [|b s]; [done|]. cbn [first_invalid] in Hf.
  destruct (type_byte_valid 0 b) eqn:Hb; [|done]. change (is_ascii_alphabetic b = true) in Hb.
  cbn [name_head grammar_ident]. rewrite Hb. split; [done|]. cbn.
  assert (∀ off t, first_invalid type_byte_valid (S off) t = None → str_forall name_byte t = true) as H.
  { clear. intros off t. revert off. induction t as [|b t IH]; intros off; [done|]. cbn [first_invalid str_forall].
    change (type_byte_valid (S off) b) with (name_byte b). destruct (name_byte b); [|done]. apply IH. }
  by eapply H.
Qed.

Lemma name_head_starts s rest : name_head s = true → starts (s +:+ rest) = true.
Proof.
  destruct s as [|b s]; [done|]. intros Hb. cbn in Hb |- *.
  destruct b as [[] [] [] [] [] [] [] []]; by vm_compute in Hb |- *.
Qed.

Lemma name_unquoted s : grammar_ident s = true → str_contains QUOTE s = false.
Proof.
  destruct s as [|b s]; [done|]. intros [Hb Hs]%andb_prop.
  apply (str_forall_not_contains name_byte); [by vm_compute|]. cbn [str_forall]. rewrite Hs, andb_true_r.
  unfold name_byte, is_ascii_alphanumeric. apply orb_true_iff in Hb as [->| ->]; [done|by rewrite orb_true_r].
Qed.

(** Trimming the quotation marks of a name in a literal. *)
Lemma trim_end_unquoted s : str_contains QUOTE s = false → trim_end_matches QUOTE (s +:+ String QUOTE "") = s.
Proof.
  induction s as [|b s IH]; [done|]. cbn [str_contains]. intros [Hb Hs]%orb_false_iff.
  rewrite string_cons_app. cbn [trim_end_matches]. rewrite IH by done. by rewrite Hb.
Qed.

Lemma trim_quoted s : grammar_ident s = true → trim_matches QUOTE (quoted s) = s.
Proof.
  intros Hg. pose proof (name_unquoted s Hg) as Hs. unfold trim_matches, quoted. cbn [trim_start_matches].
  rewrite Ascii.eqb_refl. destruct s as [|b s]; [done|]. rewrite string_cons_app. cbn [trim_start_matches].
  assert (Ascii.eqb b QUOTE = false) as -> by (cbn [str_contains] in Hs; by apply orb_false_iff in Hs as [? _]).
  by apply (trim_end_unquoted (String b s)).
Qed.

(** ** Expressions *)

Lemma string_nil_app (s : string) : "" +:+ s = s.
Proof. done. Qed.

Ltac flatten := repeat first [rewrite string_app_assoc | rewrite string_cons_app | rewrite string_nil_app].

Ltac skip :=
  repeat (apply skips_blank; [reflexivity|]); apply skips_none;
  try (reflexivity || (apply name_head_starts; assumption)).
Ltac next_by tac := eapply accepts_then; [tac|skip|].
Ltac next_str := next_by ltac:(apply accepts_str; reflexivity).

Definition reads_expression (e : LegacyUsersetExpression) : Prop :=
  ∀ rest, ∃ p, accepts (Use expression) (expression_text e +:+ rest) rest [p] ∧ parse_expression p = Ok e.

Lemma expression_head e : name_head (expression_text e) = true.
Proof. by destruct e. Qed.

Lemma accepts_keyword (r : Rule) (l rest : string) :
  grammar r = normal (Str l) → ∃ t, accepts (Use r) (l +:+ rest) rest [mkPair r t []].
Proof. intros Hg. eapply accepts_use; [done|]. by apply accepts_str, literal_splits. Qed.

(** A set operation by its rule, a term by the rule of its form. *)
Lemma by_term s rest e :
  refuses (Use union_expr) s → refuses (Use intersection_expr) s → refuses (Use exclusion_expr) s →
  (∃ p, accepts (grammar term).2 s rest [p] ∧ parse_expression p = Ok e) →
  ∃ p, accepts (Use expression) s rest [p] ∧ parse_expression p = Ok e.
Proof.
  intros H1 H2 H3 (p & Hp & He). destruct (accepts_use term _ _ _ _ eq_refl Hp) as [t1 Ht].
  destruct (accepts_use expression (grammar expression).2 s rest [mkPair term t1 [p]] eq_refl) as [t2 Hq].
  { do 3 (apply accepts_right; [done|]). done. }
  eexists. split; [exact Hq|done].
Qed.

Lemma by_operation s rest e :
  (∃ p, accepts (grammar expression).2 s rest [p] ∧ parse_expression p = Ok e) →
  ∃ p, accepts (Use expression) s rest [p] ∧ parse_expression p = Ok e.
Proof.
  intros (p & Hp & He). destruct (accepts_use expression _ _ _ _ eq_refl Hp) as [t Hq].
  eexists. split; [exact Hq|done].
Qed.

Lemma reads_this : reads_expression LThis.
Proof.
  intros rest. destruct (accepts_keyword THIS "this" rest eq_refl) as [t Hk].
  destruct (accepts_use this_expr _ _ _ _ eq_refl Hk) as [t1 H1].
  apply by_term; [refuse..|]. eexists. split; [by apply accepts_left|done].
Qed.

Lemma unquoted_literal t n :
  grammar_ident n = true → unquoted (mkPair t (String QUOTE (n +:+ String QUOTE "")) []) = n.
Proof. apply trim_quoted. Qed.

Lemma reads_computed n :
  grammar_ident n = true → reads_expression (LComputedUserset (mkRelation n)).
Proof.
  intros Hn rest. cbn [expression_text relation_str]. unfold quoted.
  destruct (accepts_keyword COMPUTED_USERSET "computed_userset"
    ("(relation: " +:+ String QUOTE (n +:+ String QUOTE (String ")" rest))) eq_refl) as [t Hk].
  eassert (accepts (grammar computed_userset_expr).2 _ rest _) as Hbody.
  { next_by ltac:(exact Hk). do 3 next_str.
    next_by ltac:(by apply accepts_literal, name_unquoted). by apply accepts_str. }
  destruct (accepts_use computed_userset_expr _ _ _ _ eq_refl Hbody) as [t1 H1].
  flatten. revert H1. flatten. intros H1.
  apply by_term; [refuse..|]. eexists. split; [apply accepts_right; [refuse|]; apply accepts_left, H1|].
  cbn [parse_expression next_pair mbind result_bind app]. by rewrite unquoted_literal.
Qed.

Lemma reads_tuple ts c :
  grammar_ident ts = true → grammar_ident c = true →
  reads_expression (LTupleToUserset (mkRelation ts) (mkRelation c)).
Proof.
  intros Hts Hc rest. cbn [expression_text relation_str]. unfold quoted.
  destruct (accepts_keyword TUPLE_TO_USERSET "tuple_to_userset"
    ("(tupleset: " +:+ String QUOTE (ts +:+ String QUOTE (", computed_userset: " +:+
     String QUOTE (c +:+ String QUOTE (String ")" rest))))) eq_refl) as [t Hk].
  eassert (accepts (grammar tuple_to_userset_expr).2 _ rest _) as Hbody.
  { next_by ltac:(exact Hk). do 3 next_str.
    next_by ltac:(by apply accepts_literal, name_unquoted). do 3 next_str.
    next_by ltac:(by apply accepts_literal, name_unquoted). by apply accepts_str. }
  destruct (accepts_use tuple_to_userset_expr _ _ _ _ eq_refl Hbody) as [t1 H1].
  flatten. revert H1. flatten. intros H1. apply by_term; [refuse..|]. eexists. split.
  - do 2 (apply accepts_right; [refuse|]). apply accepts_left, H1.
  - cbn [parse_expression next_pair mbind result_bind app]. by rewrite !unquoted_literal.
Qed.

Lemma reads_exclusion b x :
  reads_expression b → reads_expression x → reads_expression (LExclusion b x).
Proof.
  intros Hb Hx rest. cbn [expression_text]. flatten.
  pose proof (expression_head b) as Eb. pose proof (expression_head x) as Ex.
  destruct (Hx (String ")" rest)) as (px & Hpx & Hex).
  destruct (Hb (", " +:+ expression_text x +:+ String ")" rest)) as (pb & Hpb & Heb).
  destruct (accepts_keyword EXCLUSION "exclusion"
    ("(" +:+ expression_text b +:+ ", " +:+ expression_text x +:+ String ")" rest) eq_refl) as [t Hk].
  eassert (accepts (grammar exclusion_expr).2 _ rest _) as Hbody.
  { next_by ltac:(exact Hk). next_str. next_by ltac:(exact Hpb). next_str. next_by ltac:(exact Hpx).
    by apply accepts_str. }
  destruct (accepts_use exclusion_expr _ _ _ _ eq_refl Hbody) as [t1 H1]. revert H1. flatten. intros H1.
  apply by_operation. eexists. split.
  - do 2 (apply accepts_right; [refuse|]). apply accepts_left, H1.
  - cbn [parse_expression mbind result_bind app]. by rewrite Heb, Hex.
Qed.

(** *** Operands *)

Definition operands : Peg := Maybe (Then (Use expression) (Many (Then (Str ",") (Use expression)))).

Fixpoint tail_text (es : list LegacyUsersetExpression) : string :=
  match es with
  | [] => ""
  | e :: es => ", " +:+ expression_text e +:+ tail_text es
  end.

Lemma join_tail e es :
  join ", " (map expression_text (e :: es)) = expression_text e +:+ tail_text es.
Proof.
  revert e. induction es as [|e' es IH]; intros e; [cbn; by rewrite string_app_nil_r|].
  change (expression_text e +:+ ", " +:+ join ", " (map expression_text (e' :: es)) =
    expression_text e +:+ ", " +:+ expression_text e' +:+ tail_text es). by rewrite IH.
Qed.

Lemma tail_starts es rest : starts (tail_text es +:+ String ")" rest) = true.
Proof. by destruct es. Qed.

Lemma reads_tail es rest :
  Forall reads_expression es →
  ∃ ps, chain (Then (Str ",") (Use expression)) (tail_text es +:+ String ")" rest) (String ")" rest) ps ∧
    try_map parse_expression ps = Ok es.
Proof.
  induction 1 as [|e es He _ (ps & Hc & Hps)].
  - exists []. split; [|done]. eapply chain_end; [by apply skips_none|]. refuse.
  - destruct (He (tail_text es +:+ String ")" rest)) as (p & Hp & Hpe). exists ([p] ++ ps).
    pose proof (expression_head e) as Eh. split; [|cbn; rewrite Hpe; cbn; by rewrite Hps].
    cbn [tail_text]. flatten. eapply (chain_turn _ _ _ _ _ ([] ++ [p])); [done|by apply skips_none| |exact Hc].
    next_str. exact Hp.
Qed.

Lemma reads_operands es rest :
  Forall reads_expression es →
  ∃ ps, accepts operands (join ", " (map expression_text es) +:+ String ")" rest) (String ")" rest) ps ∧
    try_map parse_expression ps = Ok es.
Proof.
  intros Hes. destruct es as [|e es].
  { exists []. split; [|done]. apply accepts_none. refuse. }
  apply Forall_cons in Hes as [He Hes]. rewrite join_tail, string_app_assoc.
  destruct (He (tail_text es +:+ String ")" rest)) as (p & Hp & Hpe).
  assert (∃ ps, accepts (Many (Then (Str ",") (Use expression))) (tail_text es +:+ String ")" rest)
    (String ")" rest) ps ∧ try_map parse_expression ps = Ok es) as (ps & Hm & Hps).
  { destruct es as [|e' es]; [exists []; split; [|done]; apply accepts_empty; refuse|].
    apply Forall_cons in Hes as [He' Hes]. destruct (reads_tail es rest Hes) as (ps & Hc & Hps).
    destruct (He' (tail_text es +:+ String ")" rest)) as (p' & Hp' & Hpe').
    pose proof (expression_head e') as Eh. exists (([] ++ [p']) ++ ps). split; [|cbn; rewrite Hpe'; cbn; by rewrite Hps].
    cbn [tail_text]. flatten. eapply accepts_many; [done| |exact Hc]. next_str. exact Hp'. }
  exists ([p] ++ ps). split; [|cbn; rewrite Hpe; cbn; by rewrite Hps]. apply accepts_maybe.
  eapply accepts_then; [exact Hp|apply skips_none, tail_starts|exact Hm].
Qed.

Lemma reads_set (r kw : Rule) (l : string) (f : list LegacyUsersetExpression → LegacyUsersetExpression) es :
  (r = union_expr ∧ kw = UNION ∧ l = "union" ∧ f = LUnion) ∨
  (r = intersection_expr ∧ kw = INTERSECTION ∧ l = "intersection" ∧ f = LIntersection) →
  Forall reads_expression es →
  reads_expression (f es).
Proof.
  intros Hr Hes rest. destruct (reads_operands es rest Hes) as (ps & Hps & Eps).
  assert (starts (join ", " (map expression_text es) +:+ String ")" rest) = true) as Hst.
  { destruct es as [|e es]; [done|]. rewrite join_tail, string_app_assoc.
    apply name_head_starts, expression_head. }
  destruct (accepts_keyword kw l ("(" +:+ join ", " (map expression_text es) +:+ String ")" rest))
    as [t Hk]; [by destruct Hr as [(_ & -> & -> & _)|(_ & -> & -> & _)]|].
  eassert (accepts (grammar r).2 _ rest _) as Hbody.
  { assert ((grammar r).2 = Then (Use kw) (Then (Str "(") (Then operands (Str ")")))) as ->
      by (by destruct Hr as [(-> & -> & _)|(-> & -> & _)]).
    next_by ltac:(exact Hk). eapply accepts_then; [apply accepts_str; reflexivity|by apply skips_none|].
    next_by ltac:(exact Hps). by apply accepts_str. }
  assert (grammar r = normal (grammar r).2) as Hn by (by destruct Hr as [(-> & _)|(-> & _)]).
  destruct (accepts_use r _ _ _ _ Hn Hbody) as [t1 H1].
  apply by_operation. eexists. split.
  - destruct Hr as [(-> & -> & -> & ->)|(-> & -> & -> & ->)]; cbn [expression_text]; revert H1; flatten;
      intros H1; [|apply accepts_right; [refuse|]]; apply accepts_left, H1.
  - destruct Hr as [(-> & -> & -> & ->)|(-> & -> & -> & ->)];
      cbn [parse_expression app]; rewrite app_nil_r; by rewrite Eps.
Qed.

(** Every expression of a compiled schema is read back. *)
Lemma reads_expressions (e : UsersetExpression) : reads_expression (legacy_expr e).
Proof.
  induction e as [|r|ts c|es IH|es IH|b x IHb IHx] using userset_induction; cbn [legacy_expr].
  - apply reads_this.
  - by apply reads_computed, type_ident_name.
  - by apply reads_tuple; apply type_ident_name.
  - apply (reads_set union_expr UNION "union"); [by left|by apply Forall_map].
  - apply (reads_set intersection_expr INTERSECTION "intersection"); [by right|by apply Forall_map].
  - by apply reads_exclusion.
Qed.

(** ** Relations *)

(** The text of a relation without its indentation and its last newline. *)
Definition relation_body (a : LegacyRelationAst) : string :=
  match ast_rewrite a with
  | Some e => "relation " +:+ ast_relation_name a +:+ " {" +:+ LF +:+ "        rewrite " +:+
              expression_text e +:+ LF +:+ "    }"
  | None => "relation " +:+ ast_relation_name a +:+ " {}"
  end.

Lemma reads_relation rd rest :
  ∃ p, accepts (Use relation_def) (relation_body (legacy_relation rd) +:+ rest) rest [p] ∧
    parse_relation_ast p = Ok (legacy_relation rd).
Proof.
  destruct (type_ident_name (rd_name rd) eq_refl) as [Hh Hn]. unfold legacy_relation, relation_key.
  set (n := as_str (rd_name rd)) in *. unfold relation_body, LF. cbn [ast_rewrite ast_relation_name].
  destruct (rd_userset_rewrite rd) as [e|]; cbn [fmap option_fmap option_map].
  - set (after := String (ascii_of_N 10) ("    }" +:+ rest)).
    destruct (reads_expressions e after) as (p & Hp & Hpe). pose proof (expression_head (legacy_expr e)) as Eh.
    destruct (accepts_keyword REWRITE "rewrite" (" " +:+ expression_text (legacy_expr e) +:+ after) eq_refl)
      as [t Hk].
    eassert (accepts (grammar rewrite_rule).2 _ after _) as Hrw by (next_by ltac:(exact Hk); exact Hp).
    destruct (accepts_use rewrite_rule _ _ _ _ eq_refl Hrw) as [t1 H1].
    destruct (accepts_keyword RELATION "relation" (" " +:+ n +:+ " {" +:+ String (ascii_of_N 10)
      ("        rewrite " +:+ expression_text (legacy_expr e) +:+ after)) eq_refl) as [t2 H2].
    eassert (accepts (grammar relation_def).2 _ rest _) as Hbody.
    { next_by ltac:(exact H2). next_by ltac:(by apply accepts_identifier). next_str.
      next_by ltac:(apply accepts_maybe; exact H1). by apply accepts_str. }
    destruct (accepts_use relation_def _ _ _ _ eq_refl Hbody) as [t3 H3].
    revert H3. subst after. flatten. intros H3. eexists. split; [exact H3|].
    unfold parse_relation_ast. cbn. by rewrite Hpe.
  - destruct (accepts_keyword RELATION "relation" (" " +:+ n +:+ " {}" +:+ rest) eq_refl) as [t2 H2].
    eassert (accepts (grammar relation_def).2 _ rest _) as Hbody.
    { next_by ltac:(exact H2). next_by ltac:(by apply accepts_identifier). next_str.
      next_by ltac:(apply accepts_none; refuse). by apply accepts_str. }
    destruct (accepts_use relation_def _ _ _ _ eq_refl Hbody) as [t3 H3].
    revert H3. flatten. intros H3. eexists. split; [exact H3|done].
Qed.

Lemma relation_body_head a : name_head (relation_body a) = true.
Proof. unfold relation_body. by destruct (ast_rewrite a). Qed.

Definition relations_text (as_ : list LegacyRelationAst) : string :=
  join "" (map (λ a, "    " +:+ relation_body a +:+ LF) as_).

Lemma join_cons x l : join "" (x :: l) = x +:+ join "" l.
Proof. destruct l; cbn [join]; [by rewrite string_app_nil_r|done]. Qed.

(** The relations after the newline that ends the line before them. *)
Lemma chain_relations rds rest :
  ∃ ps, chain (Use relation_def) (LF +:+ relations_text (map legacy_relation rds) +:+ String "}" rest)
      (LF +:+ String "}" rest) ps ∧ try_map parse_relation_ast ps = Ok (map legacy_relation rds).
Proof.
  induction rds as [|rd rds (ps & Hc & Hps)].
  - exists []. split; [|done]. eapply chain_end; [skip|]. refuse.
  - destruct (reads_relation rd (LF +:+ relations_text (map legacy_relation rds) +:+ String "}" rest))
      as (p & Hp & Hpe). pose proof (relation_body_head (legacy_relation rd)) as Eh.
    exists ([p] ++ ps). split; [|cbn; rewrite Hpe; cbn; by rewrite Hps].
    unfold relations_text in *. cbn [map]. rewrite join_cons. unfold LF in *. revert Hc Hp. flatten. intros Hc Hp.
    eapply chain_turn; [done| |exact Hp|exact Hc]. skip.
Qed.

Lemma reads_relations rds rest :
  ∃ s s' ps, skips (LF +:+ relations_text (map legacy_relation rds) +:+ String "}" rest) s ∧
    accepts (Many (Use relation_def)) s s' ps ∧ skips s' (String "}" rest) ∧
    try_map parse_relation_ast ps = Ok (map legacy_relation rds).
Proof.
  destruct rds as [|rd rds].
  - exists (String "}" rest), (String "}" rest), []. split_and!; [skip| |skip|done].
    apply accepts_empty. refuse.
  - destruct (chain_relations rds rest) as (ps & Hc & Hps).
    destruct (reads_relation rd (LF +:+ relations_text (map legacy_relation rds) +:+ String "}" rest))
      as (p & Hp & Hpe). pose proof (relation_body_head (legacy_relation rd)) as Eh.
    exists (relation_body (legacy_relation rd) +:+ LF +:+ relations_text (map legacy_relation rds) +:+ String "}" rest),
      (LF +:+ String "}" rest), ([p] ++ ps). split_and!.
    + unfold relations_text. cbn [map]. rewrite join_cons. unfold LF. flatten. skip.
    + by eapply accepts_many.
    + skip.
    + cbn. rewrite Hpe. cbn. by rewrite Hps.
Qed.

(** ** Namespaces *)

Definition namespace_body (a : LegacyNamespaceAst) : string :=
  "namespace " +:+ ast_name a +:+ " {" +:+ LF +:+ relations_text (ast_relations a) +:+ "}".

Lemma reads_namespace ns rest :
  ∃ p, accepts (Use namespace_def) (namespace_body (legacy_namespace ns) +:+ rest) rest [p] ∧
    parse_namespace_ast p = Ok (legacy_namespace ns) ∧ as_rule p = namespace_def.
Proof.
  destruct (type_ident_name (ns_name ns) eq_refl) as [Hh Hn]. unfold legacy_namespace, namespace_key.
  set (n := as_str (ns_name ns)) in *. unfold namespace_body. cbn [ast_name ast_relations].
  destruct (reads_relations (ns_relations ns) rest) as (s & s' & ps & Hs & Hm & Hs' & Hps).
  set (text := LF +:+ relations_text _ +:+ String "}" rest) in Hs.
  destruct (accepts_keyword NAMESPACE "namespace" (" " +:+ n +:+ " {" +:+ text) eq_refl) as [t Hk].
  eassert (accepts (grammar namespace_def).2 _ rest _) as Hbody.
  { next_by ltac:(exact Hk). next_by ltac:(by apply accepts_identifier).
    eapply accepts_then; [by apply accepts_str|exact Hs|].
    eapply accepts_then; [exact Hm|exact Hs'|]. by apply accepts_str. }
  destruct (accepts_use namespace_def _ _ _ _ eq_refl Hbody) as [t3 H3].
  revert H3. subst text. flatten. intros H3. eexists. split; [exact H3|]. split; [|done].
  unfold parse_namespace_ast. cbn. rewrite app_nil_r. by rewrite Hps.
Qed.

Lemma namespace_body_head a : name_head (namespace_body a) = true.
Proof. done. Qed.

Definition schema_text (as_ : list LegacyNamespaceAst) : string :=
  join "" (map (λ a, namespace_body a +:+ LF +:+ LF) as_).

Definition reads_namespaces (ps : list Pair) (nss : list NamespaceDefinition) : Prop :=
  try_map parse_namespace_ast ps = Ok (map legacy_namespace nss) ∧
  Forall (λ p, as_rule p = namespace_def) ps.

(** The namespaces after the empty line that ends the one before them. *)
Lemma chain_namespaces nss :
  ∃ ps, chain (Use namespace_def) (LF +:+ LF +:+ schema_text (map legacy_namespace nss)) (LF +:+ LF) ps ∧
    reads_namespaces ps nss.
Proof.
  induction nss as [|ns nss (ps & Hc & Hps & Hall)].
  - exists []. split; [|done]. eapply chain_end; [skip|]. refuse.
  - destruct (reads_namespace ns (LF +:+ LF +:+ schema_text (map legacy_namespace nss))) as (p & Hp & Hpe & Hpr).
    exists ([p] ++ ps). split.
    + unfold schema_text in *. cbn [map]. rewrite join_cons. unfold LF in *. revert Hc Hp. flatten. intros Hc Hp.
      eapply chain_turn; [done| |exact Hp|exact Hc]. skip.
    + split; [cbn; rewrite Hpe; cbn; by rewrite Hps|by constructor].
Qed.

Lemma accepts_namespaces nss :
  ∃ s' ps, accepts (Many (Use namespace_def)) (schema_text (map legacy_namespace nss)) s' ps ∧
    skips s' "" ∧ reads_namespaces ps nss.
Proof.
  destruct nss as [|ns nss].
  - exists "", []. split_and!; [|by apply skips_none|by split]. apply accepts_empty. refuse.
  - destruct (chain_namespaces nss) as (ps & Hc & Hps & Hall).
    destruct (reads_namespace ns (LF +:+ LF +:+ schema_text (map legacy_namespace nss))) as (p & Hp & Hpe & Hpr).
    exists (LF +:+ LF), ([p] ++ ps). split_and!.
    + unfold schema_text in *. cbn [map]. rewrite join_cons. unfold LF in *. revert Hc Hp. flatten. intros Hc Hp.
      by eapply accepts_many.
    + skip.
    + split; [cbn; rewrite Hpe; cbn; by rewrite Hps|by constructor].
Qed.

Lemma schema_text_starts as_ : starts (schema_text as_) = true.
Proof. destruct as_; [done|]. unfold schema_text. cbn [map]. by rewrite join_cons. Qed.

(** A parser of the grammar reads a written schema back. *)
Lemma reads_schema `{PestParser, !FollowsGrammar} nss :
  parse_dsl_ast (schema_text (map legacy_namespace nss)) = Ok (map legacy_namespace nss).
Proof.
  destruct (accepts_namespaces nss) as (s' & ps & Hm & Hs' & Hps & Hall).
  set (text := schema_text (map legacy_namespace nss)) in *.
  assert (∃ t, accepts (Use EOI) "" "" [mkPair EOI t []]) as [te He].
  { eapply accepts_use; [done|]. by exists "", 0. }
  destruct (accepts_then _ _ _ _ _ _ _ _ Hm Hs' He) as (t & n & Ht).
  assert (∃ t', parse_grammar text = Some [mkPair file t' (ps ++ [mkPair EOI te []])]) as [t' Hp].
  { destruct (parse_grammar_fuel (S (2 + n + grammar_fuel text)) text) as [-> _]; [lia|].
    cbn [run grammar normal orb is_atomic]. set (m := 2 + n + grammar_fuel text).
    exists ("" +:+ ("" +:+ t)).
    assert (eval (run m false) (skip_with (run m true))
      (Then SOI (Then (Many (Use namespace_def)) (Use EOI))) 0 text =
      Matched ("" +:+ ("" +:+ t)) "" (ps ++ [mkPair EOI te []])) as E.
    { change (both (peg m SOI) (both (skip_with (run m true))
        (peg m (Then (Many (Use namespace_def)) (Use EOI)))) 0 text =
        Matched ("" +:+ ("" +:+ t)) "" (ps ++ [mkPair EOI te []])).
      unfold both at 1. change (peg m SOI 0 text) with (Matched "" text []). cbv iota beta. unfold both at 1.
      rewrite (skip_run m _ "" text) by (done || (subst m; lia) || apply schema_text_starts).
      rewrite Ht by (subst m; lia). done. }
    by rewrite E. }
  pose proof (follows_grammar text) as Hf. rewrite Hp in Hf.
  unfold parse_dsl_ast. destruct (parse_file text) as [pairs|]; [|done]. injection Hf as ->. cbn.
  rewrite app_nil_r, filter_app, filter_cons_False by done. rewrite filter_nil, app_nil_r.
  assert (filter (λ p, as_rule p = namespace_def) ps = ps) as -> by (clear -Hall; induction Hall as [|p ps Hp _ IH];
    [done|by rewrite filter_cons_True, IH]).
  done.
Qed.

(** ** The text is ASCII *)

Definition ascii_text (s : string) : Prop := str_forall (λ b, (byte_val b <? 128)%Z) s = true.

Lemma ascii_app s t : ascii_text s → ascii_text t → ascii_text (s +:+ t).
Proof. unfold ascii_text. rewrite str_forall_app. by intros -> ->. Qed.

Lemma ascii_cons b s : (byte_val b <? 128)%Z = true → ascii_text s → ascii_text (String b s).
Proof. unfold ascii_text. cbn. by intros -> ->. Qed.

Lemma ascii_join sep l : ascii_text sep → Forall ascii_text l → ascii_text (join sep l).
Proof.
  intros Hsep. induction 1 as [|x l Hx Hl IH]; [done|]. destruct l as [|y l]; [done|].
  change (ascii_text (x +:+ sep +:+ join sep (y :: l))). by repeat apply ascii_app.
Qed.

Lemma ascii_ident {kind} (i : Ident kind) : ascii_text (as_str i).
Proof.
  eapply str_forall_impl; [|apply ident_checks].
  intros b [Hb _]%andb_true_iff. unfold is_ascii_graphic, in_range in Hb.
  apply andb_true_iff in Hb as [_ Hb%Z.leb_le]. apply Z.ltb_lt. lia.
Qed.

Ltac ascii := repeat first
  [ assumption | reflexivity | apply ascii_ident | apply ascii_app | apply ascii_cons ].

Lemma ascii_expression (e : UsersetExpression) : ascii_text (expression_text (legacy_expr e)).
Proof.
  induction e as [|r|ts c|es IH|es IH|b x IHb IHx] using userset_induction;
    cbn [legacy_expr expression_text relation_str]; unfold quoted; ascii;
    (apply ascii_join; [done|]; by apply Forall_map, Forall_map).
Qed.

Lemma ascii_relation rd : ascii_text (relation_body (legacy_relation rd)).
Proof.
  pose proof (λ e, ascii_expression e) as He. unfold relation_body, legacy_relation, relation_key.
  cbn [ast_rewrite ast_relation_name]. destruct (rd_userset_rewrite rd) as [e|]; cbn [fmap option_fmap option_map];
    [specialize (He e)|]; unfold LF; ascii.
Qed.

Lemma ascii_namespace ns : ascii_text (namespace_body (legacy_namespace ns)).
Proof.
  unfold namespace_body, legacy_namespace, namespace_key, relations_text, LF. cbn [ast_name ast_relations].
  assert (ascii_text (join "" (map (λ a, "    " +:+ relation_body a +:+ String (ascii_of_N 10) "")
    (map legacy_relation (ns_relations ns))))) as Hr.
  { apply ascii_join; [done|]. apply Forall_map, Forall_map, Forall_true. intros rd.
    pose proof (ascii_relation rd). ascii. }
  ascii.
Qed.

Lemma schema_text_utf8 nss : utf8_valid (schema_text (map legacy_namespace nss)) = true.
Proof.
  apply utf8_valid_ascii. change (ascii_text (schema_text (map legacy_namespace nss))).
  apply ascii_join; [done|]. apply Forall_map, Forall_map, Forall_true. intros ns.
  pose proof (ascii_namespace ns). unfold LF. ascii.
Qed.
