(* ===== verification/Requests.v ===== *)
(** * Requests (src/src/model.rs)

    The request and response types of the public interface and their
    validation. *)

From S2P Require Import Prelude Model Domain Revision.

(** ** Validation of values: the conversion to the validated type, dropped *)

Definition checked {A} (r : result DomainError A) : result DomainError unit := (λ _, tt) <$> r.

Definition object_validate (o : Object) : result DomainError unit := checked (object_ref_of_object o).
Definition relation_validate (r : Relation) : result DomainError unit := checked (relation_name_of r).
Definition user_validate (u : User) : result DomainError unit := checked (subject_ref_of_user u).
Definition tuple_validate (t : RelationTuple) : result DomainError unit :=
  checked (relationship_of_tuple t).

(** ** Requests *)

Record CheckRequest := mkCheckRequest {
  cr_object : Object; cr_relation : Relation; cr_user : User; cr_consistency : Consistency
}.

Definition check_request_validate (r : CheckRequest) : result DomainError unit :=
  _ ← object_validate (cr_object r);
  _ ← relation_validate (cr_relation r);
  user_validate (cr_user r).

Record CheckResponse := mkCheckResponse { allowed : bool }.

Record ExpandRequest := mkExpandRequest {
  er_object : Object; er_relation : Relation; er_consistency : Consistency
}.

Definition expand_request_validate (r : ExpandRequest) : result DomainError unit :=
  _ ← object_validate (er_object r);
  relation_validate (er_relation r).

Record ExpandResponse := mkExpandResponse { expanded : ExpandedUserset }.

Record LookupResourcesRequest := mkLookupResources {
  lr_subject : User; lr_permission : Relation; lr_resource_type : string
}.

Definition lookup_resources_validate (r : LookupResourcesRequest) : result DomainError unit :=
  _ ← user_validate (lr_subject r);
  _ ← relation_validate (lr_permission r);
  checked (ident_new KObjectType (lr_resource_type r)).

Record LookupResources := mkResources { resources : list Object }.

Record LookupSubjectsRequest := mkLookupSubjects {
  ls_resource : Object; ls_permission : Relation; ls_subject_type : string
}.

Definition lookup_subjects_validate (r : LookupSubjectsRequest) : result DomainError unit :=
  _ ← object_validate (ls_resource r);
  _ ← relation_validate (ls_permission r);
  checked (ident_new KSubjectType (ls_subject_type r)).

Record LookupSubjects := mkSubjects { subjects : list User }.

Record LookupPermissionsRequest := mkLookupPermissions {
  lp_subject : User; lp_resource : Object; lp_consistency : Consistency
}.

Definition lookup_permissions_validate (r : LookupPermissionsRequest) : result DomainError unit :=
  _ ← user_validate (lp_subject r);
  object_validate (lp_resource r).

Record LookupPermissions := mkPermissions { permissions : list Relation }.

Record LookupObjectPermissionsRequest := mkLookupObjectPermissions {
  lo_resource : Object; lo_subject_type : string; lo_consistency : Consistency
}.

Definition lookup_object_permissions_validate (r : LookupObjectPermissionsRequest)
    : result DomainError unit :=
  _ ← object_validate (lo_resource r);
  checked (ident_new KSubjectType (lo_subject_type r)).

Record PermissionSubjects := mkPermissionSubjects {
  ps_permission : Relation; ps_subjects : list User
}.

Record LookupObjectPermissions := mkObjectPermissions {
  object_permissions : list PermissionSubjects
}.
