(* ===== verification/LookupSubjects.v ===== *)
(** * Lookup of subjects (src/src/eval.rs, [lookup_subjects_with_snapshot])

    The subjects of a type that have a permission on a resource: a walk over the
    usersets the permission leads to collects candidates, and those the schema
    does not prove are checked. The walk has an evaluation context of its own,
    the checks of the candidates another one. *)

From S2P Require Import Prelude Model Domain Revision Schema StoreTypes Store StoreView.
From S2P Require Import EvalContext Eval Requests.

(** [lookup_result_limit_reached] *)
Definition lookup_result_limit_reached (len : nat) (limits : EvaluationLimits) : bool :=
  (nz_get (max_lookup_results limits) <=? Z.of_nat len)%Z.

(** ** Which relations need their candidates checked

    [visiting] holds the relations being expanded; the fuel bounds their number. *)

Definition schema_ids (cs : CompiledSchema) : list SchemaRelationId :=
  concat (imap (λ i ns, imap (λ j _, mkRelationId i j) (ns_relations ns))
            (sr_definitions (cs_resolver cs))).

(** Relations expanded at most one inside the other. *)
Definition schema_fuel (cs : CompiledSchema) : nat := S (length (schema_ids cs)).

Definition lift_stop {A} (r : result ZanzibarError A) : result EvalStop A := map_err Stop r.

Definition definition_by_id (cs : CompiledSchema) (rid : SchemaRelationId)
    : result EvalStop RelationDefinition :=
  lift_stop (ok_or (relation_by_id (cs_resolver cs) rid) compiled_schema_invariant_error).

Section requires.
Variable cs : CompiledSchema.

Section operands.
Variable requires : CompiledUsersetExpression → result EvalStop bool.
Fixpoint any_requires (es : list CompiledUsersetExpression) : result EvalStop bool :=
  match es with
  | [] => Ok false
  | e :: es => b ← requires e; if (b : bool) then Ok true else any_requires es
  end.
End operands.

Section expression.
(** The verdict on the rewrite of a relation, by its id. *)
Variable relation_requires : SchemaRelationId → gset SchemaRelationId → result EvalStop bool.

(** [expression_requires_lookup_subject_verification] *)
Fixpoint expression_requires (visiting : gset SchemaRelationId) (e : CompiledUsersetExpression)
    : result EvalStop bool :=
  match e with
  | CThis => Ok false
  | CComputedUserset _ rid target_has_rewrite =>
      if negb target_has_rewrite then Ok false
      else if decide (rid ∈ visiting) then Ok true
      else relation_requires rid ({[rid]} ∪ visiting)
  | CUnion es => any_requires (expression_requires visiting) es
  | CTupleToUserset _ _ _ | CIntersection _ | CExclusion _ _ => Ok true
  end.
End expression.

Fixpoint relation_requires (fuel : nat) (rid : SchemaRelationId)
    (visiting : gset SchemaRelationId) : result EvalStop bool :=
  match fuel with
  | O => Err OutOfFuel
  | S fuel =>
      rd ← definition_by_id cs rid;
      match rd_compiled_userset_rewrite rd with
      | Some e => expression_requires (relation_requires fuel) visiting e
      | None => Ok false
      end
  end.

(** [relation_definition_requires_lookup_subject_verification] *)
Definition relation_definition_requires (rd : RelationDefinition) : result EvalStop bool :=
  match rd_compiled_userset_rewrite rd with
  | Some e => expression_requires (relation_requires (schema_fuel cs)) ∅ e
  | None => Ok false
  end.
End requires.

(** ** The walk *)

(** [LookupSubjectCollector], with the context of the walk. *)
Record LookupState := mkLookup {
  walk_context : EvaluationContext;
  seen_subjects : gset User;
  seen_usersets : gset (Object * RelationName);
  found_subjects : list User;
  check_context : EvaluationContext
}.

Abbreviation Lookup := (ST LookupState EvalStop).

Definition set_walk (c : EvaluationContext) (s : LookupState) : LookupState :=
  mkLookup c (seen_subjects s) (seen_usersets s) (found_subjects s) (check_context s).
Definition set_check (c : EvaluationContext) (s : LookupState) : LookupState :=
  mkLookup (walk_context s) (seen_subjects s) (seen_usersets s) (found_subjects s) c.
Definition see_subject (u : User) (s : LookupState) : LookupState :=
  mkLookup (walk_context s) ({[u]} ∪ seen_subjects s) (seen_usersets s) (found_subjects s)
    (check_context s).
Definition see_userset (p : Object * RelationName) (s : LookupState) : LookupState :=
  mkLookup (walk_context s) (seen_subjects s) ({[p]} ∪ seen_usersets s) (found_subjects s)
    (check_context s).
Definition push_subject (u : User) (s : LookupState) : LookupState :=
  mkLookup (walk_context s) (seen_subjects s) (seen_usersets s) (found_subjects s ++ [u])
    (check_context s).

Definition on_walk {A} (m : Eval A) : Lookup A := st_zoom walk_context (λ c s, set_walk c s) m.
Definition on_check {A} (m : Eval A) : Lookup A := st_zoom check_context (λ c s, set_check c s) m.

Section lookup.
Context `{Hasher}.
Variable resource : Object.
Variable permission : Relation.
Variable subject_type : SubjectType.
Variable limits : EvaluationLimits.

Definition result_limit_reached (s : LookupState) : bool :=
  lookup_result_limit_reached (length (found_subjects s)) limits.

(** [push_verified_subject] *)
Definition push_verified_subject (u : User) : Lookup bool := λ s,
  let s := push_subject u s in (Ok (negb (result_limit_reached s)), s).

(** The check of a candidate, in the reused context. *)
Definition check_candidate (u : User) : Lookup bool := on_check (λ c,
  (let! m := check (eval_fuel (ctx_limits c)) resource permission u in
   st_ret (is_allowed m)) (reset_for_reuse c)).

(** [collect_user_candidate] *)
Definition collect_user_candidate (i : string) (verify_candidate : bool) : Lookup unit := λ s,
  if negb (bool_decide (as_str subject_type = "user")) then (Ok tt, s) else
  let u := UserId i in
  if decide (u ∈ seen_subjects s) then (Ok tt, s) else
  (if negb verify_candidate then let! _ := push_verified_subject u in st_ret tt
   else
     let! b := check_candidate u in
     if (b : bool) then let! _ := push_verified_subject u in st_ret tt else st_ret tt)
    (see_subject u s).

(** The first half of [collect_userset_candidate]: [Some b] when it returns. *)
Definition collect_userset_subject (u : User) (verify_candidate : bool) : Lookup (option bool) :=
  if negb verify_candidate then let! b := push_verified_subject u in st_ret (Some b)
  else
    let! allowed := check_candidate u in
    if (allowed : bool) then
      let! room := push_verified_subject u in
      st_ret (if (room : bool) then None else Some false)
    else st_ret None.

(** [collect_userset_candidate]: whether to walk into the userset. *)
Definition collect_userset_candidate (o : Object) (rel : RelationName) (verify_candidate : bool)
    : Lookup bool := λ s,
  let u := Userset o (mkRelation (as_str rel)) in
  let first : Lookup (option bool) := λ s,
    if negb (bool_decide (namespace o = as_str subject_type)) then (Ok None, s) else
    if decide (u ∈ seen_subjects s) then (Ok None, s) else
    collect_userset_subject u verify_candidate (see_subject u s) in
  (let! r := first in
   match r with
   | Some b => st_ret b
   | None => λ s, (Ok (bool_decide ((o, rel) ∉ seen_usersets s)), see_userset (o, rel) s)
   end) s.

Section walk.
Variable walk_relation : Object → RelationName → bool → Lookup unit.

(** The rows of [stream_lookup_subjects_this]. *)
Fixpoint walk_rows (verify : bool) (fanout : Z) (items : list RelationshipRef) : Lookup unit :=
  match items with
  | [] => st_ret tt
  | x :: items => λ s,
      if result_limit_reached s then (Ok tt, s) else
      (let! fanout := on_walk (increment_fanout fanout) in
       let! target := on_walk (lift (subject_userset_relation_name x)) in
       let! _ := match target with
                 | Some (o, rel) =>
                     let! b := collect_userset_candidate o rel verify in
                     if (b : bool) then walk_relation o rel verify else st_ret tt
                 | None =>
                     match direct_user_subject_id x with
                     | Some i => collect_user_candidate i verify
                     | None => let! _ := on_walk (lift (expanded_subject x)) in st_ret tt
                     end
                 end in
       walk_rows verify fanout items) s
  end.

(** [stream_lookup_subjects_this] *)
Definition walk_this (object : Object) (rel : RelationName) (verify : bool) : Lookup unit := λ s,
  (let! res := on_walk (lift_domain (object_ref_of_object object)) in
   walk_rows verify 0
     (relation_items (walk_context s) res rel (fanout_query_limit (ctx_limits (walk_context s))))) s.

(** The rows of the tuple-to-userset arm. *)
Fixpoint walk_tupleset (computed : RelationName) (fanout : Z) (items : list RelationshipRef)
    : Lookup unit :=
  match items with
  | [] => st_ret tt
  | x :: items => λ s,
      if result_limit_reached s then (Ok tt, s) else
      (let! target := on_walk (lift (subject_userset_relation_name x)) in
       match target with
       | Some (o, _) =>
           let! fanout := on_walk (increment_fanout fanout) in
           let! _ := walk_relation o computed true in
           walk_tupleset computed fanout items
       | None => walk_tupleset computed fanout items
       end) s
  end.

Section operands.
Variable walk : CompiledUsersetExpression → Lookup unit.
Fixpoint walk_operands (es : list CompiledUsersetExpression) : Lookup unit :=
  match es with
  | [] => st_ret tt
  | e :: es =>
      let! _ := walk e in
      λ s, if result_limit_reached s then (Ok tt, s) else walk_operands es s
  end.
End operands.

(** [stream_lookup_subjects_expression] *)
Fixpoint walk_expression (object : Object) (rel : RelationName) (e : CompiledUsersetExpression)
    (verify : bool) : Lookup unit := λ s,
  if result_limit_reached s then (Ok tt, s) else
  match e with
  | CThis => walk_this object rel verify s
  | CComputedUserset rel' _ _ => walk_relation object rel' verify s
  | CTupleToUserset _ tupleset_id computed =>
      (let! res := on_walk (lift_domain (object_ref_of_object object)) in
       let! tupleset := on_walk (relation_of_id tupleset_id) in
       walk_tupleset computed 0
         (relation_items (walk_context s) res (rd_name tupleset) unbounded_query_limit)) s
  | CUnion es | CIntersection es => walk_operands (λ e, walk_expression object rel e verify) es s
  | CExclusion base _ => walk_expression object rel base true s
  end.

(** [stream_lookup_subjects_relation_entered] *)
Definition walk_relation_entered (object : Object) (rel : RelationName) (inherited : bool)
    : Lookup unit :=
  let! t := on_walk (lift_domain (ident_new KObjectType (namespace object))) in
  let! rd := on_walk (relation_of_name t rel) in
  let! required :=
    if inherited then st_ret true
    else λ s, (relation_definition_requires
                 (snapshot_schema (ctx_snapshot (walk_context s))) rd, s) in
  match rd_compiled_userset_rewrite rd with
  | Some e => walk_expression object rel e required
  | None => walk_this object rel required
  end.
End walk.

(** [stream_lookup_subjects_relation] *)
Definition walk_key (key : ExpandKey) (body : Lookup unit) : Lookup unit := λ s,
  if result_limit_reached s then (Ok tt, s) else
  if is_expand_active (walk_context s) key then (Ok tt, s) else
  match enter (EvalExpand key) (walk_context s) with
  | Err e => (Err (Stop e), s)
  | Ok c =>
      let '(res, s) := body (set_walk (push_expand_key key c) s) in
      (res, set_walk (leave (pop_expand_key (walk_context s))) s)
  end.

Fixpoint walk_relation (fuel : nat) (object : Object) (rel : RelationName) (inherited : bool)
    : Lookup unit :=
  match fuel with
  | O => st_err OutOfFuel
  | S fuel =>
      walk_key (mkExpandKey object rel)
        (walk_relation_entered (walk_relation fuel) object rel inherited)
  end.
End lookup.

(** [lookup_subjects_with_snapshot]; as for an expansion, one unit of fuel more
    than the depth. *)
Definition lookup_subjects_with_snapshot `{Hasher} (snapshot : PublishedSnapshot)
    (request : LookupSubjectsRequest) (limits : EvaluationLimits) : result EvalStop LookupSubjects :=
  let resolver := cs_resolver (snapshot_schema snapshot) in
  let domain {A} (r : result DomainError A) := lift_stop (map_err ZDomain r) in
  let schema {A} (r : result SchemaError A) := lift_stop (map_err ZSchema r) in
  res ← domain (object_ref_of_object (ls_resource request));
  permission ← domain (relation_name_of (ls_permission request));
  _ ← schema (resolver_relation resolver (object_type res) permission);
  st ← domain (ident_new KSubjectType (ls_subject_type request));
  _ ← (if bool_decide (as_str st = "user") then Ok tt else
       t ← domain (ident_new KObjectType (as_str st));
       _ ← schema (resolver_namespace resolver t);
       Ok tt);
  let '(r, s) :=
    walk_relation (ls_resource request) (ls_permission request) st limits
      (S (eval_fuel limits)) (ls_resource request) permission false
      (mkLookup (context_new snapshot limits) ∅ ∅ [] (context_new snapshot limits)) in
  _ ← r;
  Ok (mkSubjects (found_subjects s)).
