(* ===== verification/LookupSubjectsInv.v ===== *)
(** * The walk of a subject lookup returns

    The walk of a lookup ends within its fuel and gives back its context; the
    subjects it finds are of the requested type, different from each other and
    within the result limit. Nothing is assumed of the schema or of the data. *)

From S2P Require Import Prelude Model Domain Revision Schema StoreTypes Store StoreView.
From S2P Require Import EvalContext Eval EvalInv EvalTotal EvalProps Requests LookupSubjects.

(** ** Relations expanded inside each other *)

Lemma elem_of_schema_ids cs rid rd :
  relation_by_id (cs_resolver cs) rid = Some rd → rid ∈ schema_ids cs.
Proof.
  unfold relation_by_id, schema_ids. intros (ns & Hns & Hrd)%bind_Some.
  apply list_elem_of_In, in_concat. eexists. split; apply list_elem_of_In.
  - apply elem_of_lookup_imap. by exists (namespace_index rid), ns.
  - apply elem_of_lookup_imap. exists (relation_index rid), rd. by destruct rid.
Qed.

(** A set has at most as many elements as a list that holds them all. *)
Lemma size_le_length {A} `{Countable A} (X : gset A) l : (∀ x, x ∈ X → x ∈ l) → size X ≤ length l.
Proof.
  intros Hl. unfold size, set_size. simpl. apply submseteq_length, NoDup_submseteq; [apply NoDup_elements|].
  intros x Hx%elem_of_elements. by apply Hl.
Qed.

(** The relations being expanded are different relations of the schema. *)
Definition expanding (cs : CompiledSchema) (fuel : nat) (visiting : gset SchemaRelationId) : Prop :=
  (∀ i, i ∈ visiting → i ∈ schema_ids cs) ∧ length (schema_ids cs) < fuel + size visiting.

Lemma expanding_start cs : expanding cs (schema_fuel cs) ∅.
Proof. split; [set_solver|]. unfold schema_fuel. lia. Qed.

Lemma expanding_fuel cs fuel visiting : expanding cs fuel visiting → 0 < fuel.
Proof.
  intros [Hv%size_le_length Hf]. lia.
Qed.

Lemma expanding_next cs fuel visiting rid :
  expanding cs (S fuel) visiting → rid ∉ visiting → rid ∈ schema_ids cs →
  expanding cs fuel ({[rid]} ∪ visiting).
Proof.
  intros [Hv Hf] Hn Hr. split; [set_solver|].
  rewrite size_union by set_solver. rewrite size_singleton. lia.
Qed.

(** A result is reached: enough fuel is left for every relation not yet being
    expanded. *)
Definition reached {A} (r : result EvalStop A) : Prop := r ≠ Err OutOfFuel.

Lemma definition_by_id_cases cs rid :
  (∃ rd, relation_by_id (cs_resolver cs) rid = Some rd ∧ definition_by_id cs rid = Ok rd) ∨
  ∃ z, definition_by_id cs rid = Err (Stop z).
Proof.
  unfold definition_by_id. destruct (relation_by_id _ rid) as [rd|]; simpl; eauto.
Qed.

Lemma any_requires_reached f es : Forall (λ e, reached (f e)) es → reached (any_requires f es).
Proof.
  induction 1 as [|e es He _ IH]; [done|]. simpl. unfold reached in *.
  destruct (f e) as [[]|]; done.
Qed.

(** [rec] is asked for relations that are not being expanded yet. *)
Lemma expression_requires_reached rec visiting e :
  (∀ rid, rid ∉ visiting → reached (rec rid ({[rid]} ∪ visiting))) →
  reached (expression_requires rec visiting e).
Proof.
  intros Hrec. induction e as [|rel rid h|ts rid cm|es IH|es IH|b x _ _] using compiled_induction;
    simpl; try done; [|by apply any_requires_reached].
  destruct (negb h); [done|]. destruct (decide (rid ∈ visiting)); [done|by apply Hrec].
Qed.

(** One relation is expanded already when its rewrite is read. *)
Lemma relation_requires_reached cs fuel : ∀ rid visiting,
  expanding cs (S fuel) visiting → rid ∉ visiting →
  reached (relation_requires cs (S fuel) rid ({[rid]} ∪ visiting)).
Proof.
  induction fuel as [|fuel IH]; intros rid visiting Hv Hn; cbn [relation_requires];
    (destruct (definition_by_id_cases cs rid) as [(rd & Hby & ->)|[z ->]]; [simpl|done]);
    apply elem_of_schema_ids in Hby.
  - pose proof (expanding_fuel _ _ _ (expanding_next _ _ _ _ Hv Hn Hby)). lia.
  - destruct (rd_compiled_userset_rewrite rd) as [e|]; [|done].
    apply expression_requires_reached. intros rid' Hn'. apply IH; [|done]. by apply expanding_next.
Qed.

Lemma definition_requires_reached cs rd : reached (relation_definition_requires cs rd).
Proof.
  unfold relation_definition_requires. destruct (rd_compiled_userset_rewrite rd) as [e|]; [|done].
  apply expression_requires_reached. intros rid Hn. apply relation_requires_reached; [|done].
  apply expanding_start.
Qed.

(** A rewrite found to need no check only unites the rows and other relations. *)
Fixpoint plain_expression (e : CompiledUsersetExpression) : Prop :=
  match e with
  | CThis | CComputedUserset _ _ _ => True
  | CUnion es => all_of plain_expression es
  | CTupleToUserset _ _ _ | CIntersection _ | CExclusion _ _ => False
  end.

Lemma expression_requires_false rec visiting e :
  expression_requires rec visiting e = Ok false → plain_expression e.
Proof.
  induction e as [|rel rid h|ts rid cm|es IH|es IH|b x _ _] using compiled_induction; simpl; try done.
  intros Hes. induction IH as [|e es He _ IHes]; [done|]. simpl in Hes |- *.
  apply bind_Ok in Hes as ([] & Hb & Hes); [done|]. auto.
Qed.

Lemma definition_requires_false cs rd e :
  relation_definition_requires cs rd = Ok false → rd_compiled_userset_rewrite rd = Some e →
  plain_expression e.
Proof.
  unfold relation_definition_requires. intros Hr E. rewrite E in Hr.
  by eapply expression_requires_false.
Qed.

(** ** The frame of the walk *)

(** Subjects of the requested type. *)
Definition of_type (st : SubjectType) (u : User) : Prop :=
  match u with
  | UserId _ => as_str st = "user"
  | Userset o _ => namespace o = as_str st
  end.

Section walk.
Context `{Hasher}.
Variable resource : Object.
Variable permission : Relation.
Variable subject_type : SubjectType.
Variable limits : EvaluationLimits.

Abbreviation full := (result_limit_reached limits).

Record lookup_ok (s : LookupState) : Prop := {
  lk_walk : context_ok (walk_context s);
  lk_walk_memo : check_memo (walk_context s) = None;
  lk_check : context_ok (check_context s);
  lk_check_memo : check_memo (check_context s) = None;
  lk_nodup : NoDup (found_subjects s);
  lk_seen u : u ∈ found_subjects s → u ∈ seen_subjects s ∧ of_type subject_type u;
  lk_bound : (Z.of_nat (length (found_subjects s)) ≤ nz_get (max_lookup_results limits))%Z
}.

(** What a part of the walk leaves as it was. *)
Record walks (s s' : LookupState) : Prop := {
  wk_shell : shell (walk_context s) (walk_context s');
  wk_snapshot : ctx_snapshot (check_context s') = ctx_snapshot (check_context s);
  wk_limits : ctx_limits (check_context s') = ctx_limits (check_context s);
  wk_subjects : seen_subjects s ⊆ seen_subjects s';
  wk_usersets : seen_usersets s ⊆ seen_usersets s';
  wk_found : found_subjects s `prefix_of` found_subjects s'
}.

#[export] Instance walks_preorder : PreOrder walks.
Proof.
  split.
  - intros s. by split.
  - intros s1 s2 s3 [] []. split; try congruence; by etransitivity.
Qed.

Lemma walks_full s s' : walks s s' → full s = true → full s' = true.
Proof.
  intros [_ _ _ _ _ Hp%prefix_length]. unfold result_limit_reached, lookup_result_limit_reached.
  rewrite !Z.leb_le. lia.
Qed.

(** [m] returns from states of depth at most [n], and restores them. *)
Definition returns {A} (s : LookupState) (m : Lookup A) : Prop :=
  let '(r, s') := m s in r ≠ Err OutOfFuel ∧ lookup_ok s' ∧ walks s s'.

Definition within {A} (n : nat) (m : Lookup A) : Prop :=
  ∀ s, lookup_ok s → (remaining_depth (walk_context s) ≤ Z.of_nat n)%Z → returns s m.

Lemma within_done {A} n (r : result EvalStop A) : r ≠ Err OutOfFuel → within n (λ s, (r, s)).
Proof. by intros Hr s Hs _. Qed.

Lemma within_pure {A} n (a : A) : within n (st_ret a).
Proof. by apply within_done. Qed.

Lemma within_seq {A B} n (m : Lookup A) (f : A → Lookup B) :
  within n m → (∀ a, within n (f a)) → within n (st_bind m f).
Proof.
  intros Hm Hf s Hs Hd. specialize (Hm s Hs Hd). unfold returns, st_bind in *.
  destruct (m s) as [[a|e] s1]; destruct Hm as (Hr & Hs1 & Hw); [|by split; [congruence|]].
  specialize (Hf a s1 Hs1). unfold returns in Hf.
  destruct (f a s1) as [r s2]. rewrite (sh_depth _ _ (wk_shell _ _ Hw)) in Hf.
  destruct (Hf Hd) as (Hr2 & Hs2 & Hw2). split_and!; [done|done|by etransitivity].
Qed.

(** What a part of the walk does from a state may depend on the state. *)
Lemma within_state {A} n (m : Lookup A) (m' : LookupState → Lookup A) :
  (∀ s, m s = m' s s) → (∀ s, within n (m' s)) → within n m.
Proof. intros Hm Hm' s Hs Hd. unfold returns. rewrite Hm. by apply Hm'. Qed.

Lemma within_case {A} n (b : LookupState → bool) (m m' : Lookup A) :
  within n m → within n m' → within n (λ s, if b s then m s else m' s).
Proof. intros Hm Hm' s Hs Hd. unfold returns. destruct (b s); [by apply Hm|by apply Hm']. Qed.

(** Nothing more is done once the limit is reached. *)
Lemma within_full n (m : Lookup unit) :
  (∀ s, lookup_ok s → full s = false → (remaining_depth (walk_context s) ≤ Z.of_nat n)%Z →
        returns s m) →
  within n (λ s, if full s then (Ok tt, s) else m s).
Proof.
  intros Hm s Hs Hd. unfold returns. destruct (full s) eqn:E; [done|]. by apply Hm.
Qed.

Lemma within_walk {A} n (m : Eval A) : runs_within any_memo n m → within n (on_walk m).
Proof.
  intros Hm s Hs Hd. specialize (Hm _ (lk_walk _ Hs)). unfold runs, evals, wp in Hm.
  unfold returns, on_walk, st_zoom.
  assert (memo_good any_memo (walk_context s)) as Hg by done. specialize (Hm Hg Hd).
  destruct (m (walk_context s)) as [r c]. destruct Hs as [H1 H2 H3 H4 H5 H6 H7].
  assert (r ≠ Err OutOfFuel ∧ keeps any_memo (walk_context s) c) as [Hr [Hsh Hok _]].
  { destruct r as [a|e]; [by destruct Hm|]. destruct Hm as [Hk (z & -> & _)]. by split. }
  split; [done|]. split; [split; simpl; try done|by split].
  pose proof (sh_memo _ _ Hsh) as Hmm. rewrite H2 in Hmm.
  destruct (check_memo c); [|done]. by destruct (proj1 Hmm (mk_is_Some _ _ eq_refl)).
Qed.

(** ** Candidates *)

Lemma full_room s : full s = false →
  (Z.of_nat (length (found_subjects s)) < nz_get (max_lookup_results limits))%Z.
Proof. apply Z.leb_gt. Qed.

(** The state after a check of a candidate: only its context differs. *)
Lemma check_candidate_frame u s :
  lookup_ok s → ∃ r c, check_candidate resource permission u s = (r, set_check c s) ∧
    r ≠ Err OutOfFuel ∧ lookup_ok (set_check c s) ∧ walks s (set_check c s).
Proof.
  intros Hs. set (c0 := reset_for_reuse (check_context s)).
  assert (context_ok c0) as Hc0 by apply context_ok_next, Hs.
  assert (check_memo c0 = None ∧ ctx_snapshot c0 = ctx_snapshot (check_context s) ∧
          ctx_limits c0 = ctx_limits (check_context s) ∧
          remaining_depth c0 = nz_get (max_depth (ctx_limits c0))) as (Hm & Hsn & Hl & Hd).
  { pose proof (lk_check_memo _ Hs). unfold c0, reset_for_reuse. by destruct (checked_add _ _ _). }
  pose proof (returned_any _ _ c0 (within_check any_memo (λ _ _, I)
    (eval_fuel (ctx_limits (check_context s))) resource permission u) Hc0) as Hr.
  rewrite Hd, Hl in Hr. specialize (Hr ltac:(unfold eval_fuel; lia)).
  unfold check_candidate, on_check, st_zoom. fold c0. unfold st_bind.
  destruct (check _ resource permission u c0) as [r c]. simpl in Hr.
  destruct Hr as [Hre Hsh Hok].
  assert (lookup_ok (set_check c s) ∧ walks s (set_check c s)) as [Hok' Hw].
  { destruct Hs as [H1 H2 H3 H4 H5 H6 H7]. split; [split; simpl; try done|].
    - pose proof (sh_memo _ _ Hsh) as Hmm. rewrite Hm in Hmm.
      destruct (check_memo c); [|done]. by destruct (proj1 Hmm (mk_is_Some _ _ eq_refl)).
    - split; simpl; try done; [by rewrite (sh_snapshot _ _ Hsh)|by rewrite (sh_limits _ _ Hsh)]. }
  destruct r as [m|e]; [exists (Ok (is_allowed m)), c|exists (Err e), c]; (split; [done|]); (split; [|by split]);
    [discriminate|]. intros [= ->]. by apply Hre.
Qed.

Lemma push_ok u s : lookup_ok s → full s = false → u ∈ seen_subjects s → u ∉ found_subjects s →
  of_type subject_type u → lookup_ok (push_subject u s) ∧ walks s (push_subject u s).
Proof.
  intros [H1 H2 H3 H4 H5 H6 H7] Hf%full_room Hu Hn Ht. split; [split; simpl; try done|].
  - apply NoDup_app. split_and!; [done|set_solver|apply NoDup_singleton].
  - intros v [Hv| ->%list_elem_of_singleton]%elem_of_app; [by apply H6|done].
  - rewrite length_app. simpl. lia.
  - split; simpl; try done. by apply prefix_app_r.
Qed.

Lemma see_subject_ok u s : lookup_ok s → lookup_ok (see_subject u s) ∧ walks s (see_subject u s).
Proof.
  intros [H1 H2 H3 H4 H5 H6 H7]. split; [split; simpl; try done|split; simpl; try done; set_solver].
  intros v [Hv Ht]%H6. set_solver.
Qed.

Lemma see_userset_ok p s : lookup_ok s → lookup_ok (see_userset p s) ∧ walks s (see_userset p s).
Proof. intros []. split; [by split|split; simpl; try done; set_solver]. Qed.

(** Both kinds of candidates are found unless a check denies them: whether one is
    found. *)
Definition offer (u : User) (verify : bool) : Lookup bool :=
  if negb verify then let! _ := push_verified_subject limits u in st_ret true
  else
    let! b := check_candidate resource permission u in
    if (b : bool) then let! _ := push_verified_subject limits u in st_ret true else st_ret false.

Lemma collect_user_offer i verify s :
  collect_user_candidate resource permission subject_type limits i verify s =
  if negb (bool_decide (as_str subject_type = "user")) then (Ok tt, s) else
  if decide (UserId i ∈ seen_subjects s) then (Ok tt, s) else
  (let! _ := offer (UserId i) verify in st_ret tt) (see_subject (UserId i) s).
Proof.
  unfold collect_user_candidate, offer. destruct (negb (bool_decide _)); [done|].
  destruct (decide _); [done|]. destruct verify; [|done]. unfold st_bind. simpl.
  by destruct (check_candidate _ _ _ _) as [[[]|] ?].
Qed.

(** The end of [collect_userset_candidate]. *)
Definition visit (p : Object * RelationName) : Lookup bool := λ s,
  (Ok (bool_decide (p ∉ seen_usersets s)), see_userset p s).

Lemma collect_userset_offer o rel verify s :
  let u := Userset o (mkRelation (as_str rel)) in
  collect_userset_candidate resource permission subject_type limits o rel verify s =
  if negb (bool_decide (namespace o = as_str subject_type)) then visit (o, rel) s else
  if decide (u ∈ seen_subjects s) then visit (o, rel) s else
  (let! found := offer u verify in
   λ s, if found && (negb verify || full s) then (Ok (negb (full s)), s) else visit (o, rel) s)
    (see_subject u s).
Proof.
  intros u. unfold collect_userset_candidate, collect_userset_subject, offer. fold u.
  unfold st_bind. simpl. destruct (negb (bool_decide _)); [done|]. destruct (decide _); [done|].
  destruct verify; simpl; [|done]. destruct (check_candidate _ _ _ _) as [[[]|] s1]; simpl; try done.
  by destruct (full (push_subject u s1)).
Qed.

Definition check_says (u : User) (s : LookupState) (b : bool) : Prop :=
  ∃ s', check_candidate resource permission u s = (Ok b, s').

Lemma offer_spec u verify s :
  lookup_ok s → full s = false → u ∈ seen_subjects s → u ∉ found_subjects s →
  of_type subject_type u →
  let '(r, s') := offer u verify s in
  r ≠ Err OutOfFuel ∧ lookup_ok s' ∧ walks s s' ∧
  seen_subjects s' = seen_subjects s ∧ seen_usersets s' = seen_usersets s ∧
  match r with
  | Ok true => found_subjects s' = found_subjects s ++ [u] ∧ (verify = true → check_says u s true)
  | Ok false => found_subjects s' = found_subjects s ∧ verify = true ∧ check_says u s false
  | Err _ => found_subjects s' = found_subjects s
  end.
Proof.
  intros Hs Hf Hu Hn Ht. unfold offer. destruct verify; simpl.
  - destruct (check_candidate_frame u s Hs) as (r & c & E & Hr & Hs1 & Hw1). unfold st_bind. rewrite E.
    destruct r as [[]|e]; simpl.
    + destruct (push_ok u (set_check c s)) as [Hs2 Hw2]; try done.
      split_and!; try done; [by etransitivity|]. intros _. by eexists.
    + split_and!; try done. by eexists.
    + split_and!; done.
  - destruct (push_ok u s) as [Hs2 Hw2]; try done.
Qed.

Lemma within_collect_user i verify s :
  lookup_ok s → full s = false →
  returns s (collect_user_candidate resource permission subject_type limits i verify).
Proof.
  intros Hs Hf. unfold returns. rewrite collect_user_offer.
  case_bool_decide as Ht; [|done]. simpl. destruct (decide _) as [Hin|Hin]; [done|].
  destruct (see_subject_ok (UserId i) s Hs) as [Hs1 Hw1].
  pose proof (offer_spec (UserId i) verify (see_subject (UserId i) s) Hs1 Hf) as Ho.
  unfold st_bind. destruct (offer _ _ _) as [r s2].
  destruct Ho as (Hr & Hs2 & Hw2 & _); [simpl; set_solver| |done|].
  { intros Hfd. by apply Hin, (lk_seen _ Hs). }
  destruct r; simpl; (split_and!; [|done|by etransitivity]); [done|]. intros [= ->]. by apply Hr.
Qed.

Lemma within_visit n p : within n (visit p).
Proof.
  intros s Hs _. unfold returns, visit. destruct (see_userset_ok p s Hs). by split_and!.
Qed.

Lemma within_collect_userset o rel verify s :
  lookup_ok s → full s = false →
  returns s (collect_userset_candidate resource permission subject_type limits o rel verify).
Proof.
  intros Hs Hf. unfold returns. rewrite collect_userset_offer.
  assert (∀ s, lookup_ok s → returns s (visit (o, rel))) as Hvisit.
  { intros s' Hs'. apply (within_visit (Z.to_nat (remaining_depth (walk_context s')))); [done|lia]. }
  case_bool_decide as Ht; [|by apply Hvisit]. simpl.
  set (u := Userset o _). destruct (decide _) as [Hin|Hin]; [by apply Hvisit|].
  destruct (see_subject_ok u s Hs) as [Hs1 Hw1].
  pose proof (offer_spec u verify (see_subject u s) Hs1 Hf) as Ho.
  unfold st_bind. destruct (offer _ _ _) as [r s2].
  destruct Ho as (Hr & Hs2 & Hw2 & _); [simpl; set_solver| |done|].
  { intros Hfd. by apply Hin, (lk_seen _ Hs). }
  destruct r as [b|e]; [|split_and!; [intros [= ->]; by apply Hr|done|by etransitivity]].
  destruct (b && _).
  - split_and!; [done|done|by etransitivity].
  - destruct (Hvisit s2 Hs2) as (? & ? & ?). split_and!; [done|done|by do 2 etransitivity].
Qed.

(** ** The walk *)

Create HintDb looks discriminated.
#[local] Hint Resolve within_pure within_seq within_walk within_lift within_lift_domain within_fanout
  within_relation_of_id within_relation_of_name : looks.

Lemma returns_within {A} n (m : Lookup A) s :
  within n m → lookup_ok s → (remaining_depth (walk_context s) ≤ Z.of_nat n)%Z → returns s m.
Proof. auto. Qed.

Section recursion.
Variable n : nat.
Variable rec : Object → RelationName → bool → Lookup unit.
Hypothesis Hrec : ∀ o rel v, within n (rec o rel v).

Abbreviation rows := (walk_rows resource permission subject_type limits rec).

Lemma walks_depth m s s' : walks s s' → (remaining_depth (walk_context s) ≤ m)%Z →
  (remaining_depth (walk_context s') ≤ m)%Z.
Proof. intros Hw. by rewrite (sh_depth _ _ (wk_shell _ _ Hw)). Qed.

(** A collection, which needs room for a result, and then the rest. *)
Lemma returns_seq {A B} (m : Lookup A) (f : A → Lookup B) s :
  returns s m → (∀ a, within n (f a)) → (remaining_depth (walk_context s) ≤ Z.of_nat n)%Z →
  returns s (st_bind m f).
Proof.
  intros Hm Hf Hd. unfold returns, st_bind in *.
  destruct (m s) as [[a|e] s1]; destruct Hm as (Hr & Hs1 & Hw);
    [|split_and!; [intros [= ->]; by apply Hr|done|done]].
  pose proof (Hf a s1 Hs1) as Hf1. unfold returns in Hf1.
  rewrite (sh_depth _ _ (wk_shell _ _ Hw)) in Hf1. specialize (Hf1 Hd).
  destruct (f a s1) as [r s2]. destruct Hf1 as (? & ? & ?). split_and!; [done|done|by etransitivity].
Qed.

(** What happens in the context of the walk alone leaves the results as they
    are. *)
Lemma walk_step {A B} (m : Eval A) (f : A → Lookup B) s :
  runs_within any_memo n m → lookup_ok s →
  (remaining_depth (walk_context s) ≤ Z.of_nat n)%Z →
  (∀ a c, lookup_ok (set_walk c s) → walks s (set_walk c s) → returns (set_walk c s) (f a)) →
  returns s (st_bind (on_walk m) f).
Proof.
  intros Hm Hs Hd Hf. pose proof (within_walk n m Hm s Hs Hd) as Hw. unfold returns, st_bind in *.
  unfold on_walk, st_zoom in *. destruct (m (walk_context s)) as [[a|e] c];
    destruct Hw as (Hr & Hs1 & Hw1); [|split_and!; [intros [= ->]; by apply Hr|done|done]].
  specialize (Hf a c Hs1 Hw1). destruct (f a _) as [r s2]. destruct Hf as (? & ? & ?).
  split_and!; [done|done|by etransitivity].
Qed.

(** What is done with the subject of a row. *)
Definition walk_row (verify : bool) (x : RelationshipRef) (target : option (Object * RelationName))
    : Lookup unit :=
  match target with
  | Some (o, rel) =>
      let! b := collect_userset_candidate resource permission subject_type limits o rel verify in
      if (b : bool) then rec o rel verify else st_ret tt
  | None =>
      match direct_user_subject_id x with
      | Some i => collect_user_candidate resource permission subject_type limits i verify
      | None => let! _ := on_walk (lift (expanded_subject x)) in st_ret tt
      end
  end.

Lemma walk_rows_cons verify fanout x items s :
  rows verify fanout (x :: items) s =
  if full s then (Ok tt, s) else
  (let! fanout := on_walk (increment_fanout fanout) in
   let! target := on_walk (lift (subject_userset_relation_name x)) in
   let! _ := walk_row verify x target in
   rows verify fanout items) s.
Proof. reflexivity. Qed.

Lemma walk_row_returns verify x target s :
  lookup_ok s → full s = false → (remaining_depth (walk_context s) ≤ Z.of_nat n)%Z →
  returns s (walk_row verify x target).
Proof.
  intros Hs Hf Hd. unfold walk_row. destruct target as [[o rel]|].
  - apply returns_seq; [by apply within_collect_userset|intros []; auto with looks|done].
  - destruct (direct_user_subject_id x) as [i|]; [by apply within_collect_user|].
    apply (returns_within n); [auto 6 with looks|done|done].
Qed.

Lemma within_rows verify items : ∀ fanout, within n (rows verify fanout items).
Proof.
  induction items as [|x items IH]; intros fanout; [cbn [walk_rows]; auto with looks|].
  intros s Hs Hd. unfold returns. rewrite walk_rows_cons. destruct (full s) eqn:Hf; [done|].
  apply walk_step; [apply within_fanout|done|done|]. intros fanout' c1 Hs1 Hw1.
  pose proof (walks_depth _ _ _ Hw1 Hd) as Hd1.
  apply walk_step; [apply within_lift|done|done|]. intros target c2 Hs2 Hw2.
  apply returns_seq; [|by intros []|by apply (walks_depth _ _ _ Hw2)].
  by apply walk_row_returns; [|done|apply (walks_depth _ _ _ Hw2)].
Qed.

(** Unless the result limit stops it, the walk counts every row against the fanout
    limit of its context. *)
Lemma rows_counted verify items : ∀ fanout s s',
  let fan := nz_get (max_fanout_per_step (ctx_limits (walk_context s))) in
  lookup_ok s → (remaining_depth (walk_context s) ≤ Z.of_nat n)%Z → (fan < u32_max)%Z →
  (0 ≤ fanout ≤ fan)%Z → rows verify fanout items s = (Ok tt, s') → full s' = false →
  (fanout + Z.of_nat (length items) ≤ fan)%Z.
Proof.
  induction items as [|x items IH]; intros fanout s s' fan Hs Hd Hfan Hn Hr Hf; [simpl; lia|].
  rewrite walk_rows_cons in Hr. destruct (full s) eqn:Hfs; [injection Hr as <-; congruence|].
  apply st_bind_Ok in Hr as (fanout' & s1 & E1 & (target & s2 & E2 & (u & s3 & E3 & Hr)%st_bind_Ok)%st_bind_Ok).
  pose proof (within_walk n _ (within_fanout any_memo n fanout) s Hs Hd) as H1.
  unfold returns in H1. rewrite E1 in H1. destruct H1 as (_ & Hs1 & Hw1).
  pose proof (walks_depth _ _ _ Hw1 Hd) as Hd1.
  unfold on_walk, st_zoom, lift, st_lift in E2. injection E2 as _ <-.
  assert (set_walk (walk_context s1) s1 = s1) as Es1 by by destruct s1. rewrite Es1 in E3.
  assert (full s1 = false) as Hf1.
  { unfold on_walk, st_zoom in E1. destruct (increment_fanout _ _). by injection E1 as _ <-. }
  pose proof (walk_row_returns verify x target s1 Hs1 Hf1 Hd1) as H3.
  unfold returns in H3. rewrite E3 in H3. destruct H3 as (_ & Hs3 & Hw3).
  assert (ctx_limits (walk_context s3) = ctx_limits (walk_context s)) as El.
  { by rewrite (sh_limits _ _ (wk_shell _ _ Hw3)), (sh_limits _ _ (wk_shell _ _ Hw1)). }
  unfold on_walk, st_zoom, increment_fanout in E1. fold fan in E1.
  destruct (Z.ltb_spec fan (saturating_add u32_max fanout 1)) as [Hlt|Hle]; [done|].
  injection E1 as <- _. unfold saturating_add in *.
  specialize (IH (Z.min u32_max (fanout + 1)) s3 s'). rewrite El in IH. fold fan in IH.
  cbn [length]. specialize (IH Hs3 (walks_depth _ _ _ Hw3 Hd1) Hfan ltac:(lia) Hr Hf). lia.
Qed.

Lemma within_walk_this o rel verify :
  within n (walk_this resource permission subject_type limits rec o rel verify).
Proof.
  eapply (within_state n _ (λ s, st_bind _ _)); [done|]. intros s.
  apply within_seq; [auto with looks|]. intros res. apply within_rows.
Qed.

Lemma within_tupleset computed items : ∀ fanout,
  within n (walk_tupleset limits rec computed fanout items).
Proof.
  induction items as [|x items IH]; intros fanout; simpl; [auto with looks|].
  apply within_full. intros s Hs _ Hd. revert s Hs Hd.
  apply within_seq; [auto with looks|]. intros [[o rel]|]; auto 6 with looks.
Qed.

Lemma within_operands w es : Forall (λ e, within n (w e)) es → within n (walk_operands limits w es).
Proof.
  induction 1 as [|e es He _ IH]; simpl; [auto with looks|].
  apply within_seq; [done|]. intros _. apply within_full. auto.
Qed.

Lemma within_walk_expression o rel e : ∀ verify,
  within n (walk_expression resource permission subject_type limits rec o rel e verify).
Proof.
  induction e as [|rel' rid h|ts rid cm|es IH|es IH|b x IHb IHx] using compiled_induction;
    intros verify; cbn [walk_expression]; apply within_full; intros s Hs _ Hd; revert s Hs Hd.
  - apply within_walk_this.
  - apply Hrec.
  - eapply (within_state n _ (λ s, st_bind _ _)); [done|]. intros s.
    apply within_seq; [auto with looks|]. intros res. apply within_seq; [auto with looks|].
    intros rd. apply within_tupleset.
  - apply within_operands. eapply Forall_impl; [exact IH|]. auto.
  - apply within_operands. eapply Forall_impl; [exact IH|]. auto.
  - apply IHb.
Qed.

Lemma within_walk_entered o rel inherited :
  within n (walk_relation_entered resource permission subject_type limits rec o rel inherited).
Proof.
  apply within_seq; [auto with looks|]. intros t. apply within_seq; [auto with looks|]. intros rd.
  apply within_seq.
  - destruct inherited; [auto with looks|]. intros s Hs _. unfold returns. split; [|done].
    apply definition_requires_reached.
  - intros required. destruct (rd_compiled_userset_rewrite rd);
      [apply within_walk_expression|apply within_walk_this].
Qed.
End recursion.

(** The states before and in the body of a key. *)
Definition open_walk (key : ExpandKey) (s : LookupState) : LookupState :=
  set_walk (open_expand key (walk_context s)) s.

(** [enter], and what its error is. *)
Lemma walk_key_cases key body s :
  lookup_ok s →
  (walk_key limits key body s = (Ok tt, s) ∧
   (full s = true ∨ key ∈ expand_stack (walk_context s))) ∨
  (remaining_depth (walk_context s) = 0%Z ∧ (∃ e, walk_key limits key body s = (Err (Stop e), s))) ∨
  full s = false ∧ key ∉ expand_stack (walk_context s) ∧ (0 < remaining_depth (walk_context s))%Z ∧
  walk_key limits key body s =
    let '(res, s1) := body (open_walk key s) in
    (res, set_walk (leave (pop_expand_key (walk_context s1))) s1).
Proof.
  intros Hs. unfold walk_key. destruct (full s) eqn:Hf; [auto|].
  unfold is_expand_active. rewrite (is_active_spec _ _ _ _ _ (co_expands _ (lk_walk _ Hs))).
  case_bool_decide as Hin; [auto|]. right. unfold enter.
  destruct (Z.eqb_spec (remaining_depth (walk_context s)) 0) as [Hz|Hz]; [left; eauto|]. right.
  pose proof (co_depth _ (lk_walk _ Hs)). split_and!; [done|done|lia|done].
Qed.

Lemma open_walk_ok key s :
  lookup_ok s → (0 < remaining_depth (walk_context s))%Z → key ∉ expand_stack (walk_context s) →
  lookup_ok (open_walk key s) ∧
  expand_entered key (walk_context s) (walk_context (open_walk key s)) ∧
  ∀ s1, lookup_ok s1 → walks (open_walk key s) s1 →
    lookup_ok (set_walk (leave (pop_expand_key (walk_context s1))) s1) ∧
    walks s (set_walk (leave (pop_expand_key (walk_context s1))) s1).
Proof.
  intros Hs Hpos Hk.
  destruct (open_expand_ok key (walk_context s) (lk_walk _ Hs) Hpos Hk) as (Hc & Hen & Hg & Hu & Hf).
  split_and!; [|done|].
  - destruct Hs as [H1 H2 H3 H4 H5 H6 H7]. split; simpl; try done. pose proof (xn_memo _ _ _ Hen) as E. by rewrite H2 in E.
  - intros s1 Hs1 Hw. destruct Hw as [W1 W2 W3 W4 W5 W6]. simpl in *.
    destruct (close_expand_ok any_memo key (walk_context s) _ (walk_context s1) (lk_walk _ Hs) Hpos Hen
      Hg Hu Hf) as [Hsh Hok _]; [by split; [|apply Hs1|]|].
    destruct Hs1 as [S1 S2 S3 S4 S5 S6 S7]. split; [by split|by split].
Qed.

Lemma walk_relation_S n o rel verify :
  walk_relation resource permission subject_type limits (S n) o rel verify =
  walk_key limits (mkExpandKey o rel)
    (walk_relation_entered resource permission subject_type limits
       (walk_relation resource permission subject_type limits n) o rel verify).
Proof. reflexivity. Qed.

Lemma within_walk_relation n o rel verify :
  within n (walk_relation resource permission subject_type limits (S n) o rel verify).
Proof.
  revert o rel verify. induction n as [|n IH]; intros o rel verify s Hs Hd;
    unfold returns; rewrite walk_relation_S; set (body := walk_relation_entered _ _ _ _ _ o rel verify);
    destruct (walk_key_cases (mkExpandKey o rel) body s Hs)
      as [[-> _]|[[Hz (e & ->)]|(Hf & Hk & Hpos & E)]]; try done; [by lia|].
  rewrite E. destruct (open_walk_ok (mkExpandKey o rel) s Hs Hpos Hk) as (Hs1 & Hen & Hclose).
  pose proof (within_walk_entered n _ IH o rel verify (open_walk (mkExpandKey o rel) s) Hs1) as Hb.
  rewrite (xn_depth _ _ _ Hen) in Hb. specialize (Hb ltac:(lia)). unfold returns in Hb.
  fold body in Hb. destruct (body _) as [r s1]. destruct Hb as (Hr & Hok & Hw).
  split; [done|]. by apply Hclose.
Qed.
End walk.
