(* ===== verification/LookupSubjectsSound.v ===== *)
(** * What the walk of a subject lookup finds

    The walk visits every relation through which the schema can grant the
    permission, and records every subject the rows of those relations name; it
    finds those that have the permission, and no other. The argument is that of
    a depth-first search: what is visited is closed under the links of the
    schema and the data, up to the relations still being walked. *)

From S2P Require Import Prelude Model Domain Revision Schema StoreTypes Row Store StoreView ViewProps.
From S2P Require Import EvalContext Eval EvalReads EvalInv EvalTotal EvalSpec EvalSound EvalProps.
From S2P Require Import StoreQuery CheckProps Requests LookupSubjects LookupSubjectsInv.

(** ** Links *)

Section links.
Variable rels : list Relationship.

(** The subjects named by the rows that [e] of relation [rel] of [o] reads
    itself, and the relations it leads to; what an exclusion takes away is left
    out, since it grants nothing. *)
Fixpoint named (o : Object) (rel : RelationName) (e : UsersetExpression) (x : SubjectRef) : Prop :=
  match e with
  | This => granted rels o rel x
  | ComputedUserset _ | TupleToUserset _ _ => False
  | Union es | Intersection es => any_of (λ e, named o rel e x) es
  | Exclusion base _ => named o rel base x
  end.

Fixpoint walked (o : Object) (rel : RelationName) (e : UsersetExpression) : Members := λ o' rel',
  match e with
  | This => ∃ x, granted rels o rel x ∧ userset_of x = Some (o', rel')
  | ComputedUserset r => o' = o ∧ rel' = r
  | TupleToUserset tupleset computed =>
      rel' = computed ∧ ∃ x r, granted rels o tupleset x ∧ userset_of x = Some (o', r)
  | Union es | Intersection es => any_of (λ e, walked o rel e o' rel') es
  | Exclusion base _ => walked o rel base o' rel'
  end.

(** Unions and intersections have operands. *)
Fixpoint has_operands (e : UsersetExpression) : Prop :=
  match e with
  | This | ComputedUserset _ | TupleToUserset _ _ => True
  | Union es | Intersection es => es ≠ [] ∧ all_of has_operands es
  | Exclusion base exclude => has_operands base ∧ has_operands exclude
  end.

(** Whoever an expression admits is named by it or belongs to a relation it leads
    to. *)
Lemma sat_walked u P Q o rel e :
  has_operands e → sat rels u P Q o rel e →
  (∃ x, named o rel e x ∧ names_user u x) ∨ (∃ o' rel', walked o rel e o' rel' ∧ P o' rel').
Proof.
  induction e as [|r|ts cm|es IH|es IH|b x IHb _] using userset_induction; simpl.
  - intros _ [(x & Hx & Hn)|(x & o' & rel' & Hx & Hu & HP)]; [left; eauto|right; eauto 6].
  - intros _ HP. right. eauto.
  - intros _ (x & o' & rel' & Hx & Hu & HP). right. exists o', cm. eauto 6.
  - intros [_ Hes%all_of_Forall] (e & He & Hs)%any_of_Exists. setoid_rewrite any_of_Exists.
    rewrite Forall_forall in IH, Hes.
    destruct (IH e He (Hes e He) Hs) as [(x & ? & ?)|(o' & rel' & ? & ?)]; [left|right]; eauto 6.
  - intros [Hne Hes%all_of_Forall] Hs%all_of_Forall. setoid_rewrite any_of_Exists.
    destruct es as [|e es]; [done|]. apply Forall_cons in IH as [IH _], Hes as [Hes _], Hs as [Hs _].
    destruct (IH Hes Hs) as [(x & ? & ?)|(o' & rel' & ? & ?)]; [left; exists x|right; exists o', rel'];
      (split; [|done]); exists e; (split; [by left|done]).
  - intros [Hb _] [Hs _]. by apply IHb.
Qed.
End links.

Lemma expr_ok_operands defs t e : expr_ok defs t e → has_operands e.
Proof.
  induction e as [|r|ts cm|es IH|es IH|b x IHb IHx] using userset_induction; simpl; try done;
    [| |naive_solver]; intros [Hne Hes%all_of_Forall]; (split; [done|]); apply all_of_Forall;
    rewrite Forall_forall in *; auto.
Qed.

(** What a lookup takes a row to name: [user:a#r] is a userset, not the user
    [a]. *)
Definition names_exactly (u : User) (x : SubjectRef) : Prop :=
  names_user u x ∧ match u with UserId _ => userset_of x = None | Userset _ _ => True end.

Section sound.
Context `{Hasher}.
Variable snapshot : PublishedSnapshot.
Variable rels : list Relationship.
Context `{Hreads : !ReadsAs (snapshot_relationships snapshot) rels}.
Hypothesis Hschema : schema_good (snapshot_schema snapshot).
Abbreviation defs := (cs_definitions (snapshot_schema snapshot)).

Variable resource : Object.
Variable permission : RelationName.
Variable subject_type : SubjectType.
Variable limits : EvaluationLimits.
Hypothesis Hfan : (nz_get (max_fanout_per_step limits) < u32_max)%Z.
Hypothesis Hroom : fanout_room (snapshot_relationships snapshot) limits.

(** Who has which relation, and that checks and rewrites agree with it. *)
Variable M : User → Members.
Hypothesis Hstep : ∀ u o rel, step defs rels u (M u) (M u) o rel → M u o rel.
Hypothesis Hcheck : ∀ c u m,
  context_ok c → idle c → ctx_snapshot c = snapshot → check_memo c = None →
  (check (eval_fuel (ctx_limits c)) resource (mkRelation (as_str permission)) u c).1 = Ok m →
  is_allowed m = true ↔ M u resource permission.

Abbreviation root u := (M u resource permission).
Abbreviation full := (result_limit_reached limits).
Abbreviation ok := (lookup_ok subject_type limits).
Abbreviation stack s := (expand_stack (walk_context s)).

(** ** What is known of a state *)

(** Of the subjects seen, exactly those with the permission are found. *)
Record told (s : LookupState) : Prop := {
  td_sound u : u ∈ found_subjects s → root u;
  td_found u : u ∈ seen_subjects s → root u → u ∈ found_subjects s
}.

Definition recorded (s : LookupState) (x : SubjectRef) : Prop :=
  ∀ u, of_type subject_type u → names_exactly u x → u ∈ seen_subjects s.

Definition on_stack (S : list ExpandKey) : Members := λ o rel, mkExpandKey o rel ∈ S.

Definition arrived (D : Members) (S : list ExpandKey) (s : LookupState) (A : SubjectRef → Prop)
    (N : Members) : Prop :=
  (∀ x, A x → recorded s x) ∧ (∀ o rel, N o rel → D o rel ∨ on_stack S o rel).

(** [D] is closed under links, up to the relations being walked; the usersets
    seen are in it, or about to be walked. *)
Definition covers (W D : Members) (S : list ExpandKey) (s : LookupState) : Prop :=
  (∀ o rel e, D o rel → rewrites_to defs o rel e →
     arrived D S s (named rels o rel e) (walked rels o rel e)) ∧
  (∀ o rel, (o, rel) ∈ seen_usersets s → D o rel ∨ on_stack S o rel ∨ W o rel).

Definition none : Members := λ _ _, False.
Definition no_subject : SubjectRef → Prop := λ _, False.
Definition only (o : Object) (rel : RelationName) : Members := λ o' rel', o' = o ∧ rel' = rel.

(** What a part of the walk adds: [A] is recorded, and the relations [N] are
    visited, unless the result limit stops it. *)
Definition gains (W : Members) (s s' : LookupState) (A : SubjectRef → Prop) (N : Members) : Prop :=
  told s' ∧
  (full s' = false → ∀ D, covers W D (stack s) s →
   ∃ D', included D D' ∧ covers none D' (stack s) s' ∧ arrived D' (stack s) s' A N).

Lemma arrived_mono (D D' : Members) S s s' A N :
  included D D' → seen_subjects s ⊆ seen_subjects s' → arrived D S s A N → arrived D' S s' A N.
Proof.
  intros HD Hs [HA HN]. split.
  - intros x Hx u Hu Hn. apply Hs. by eapply HA.
  - intros o rel Hn. destruct (HN o rel Hn) as [?|?]; [left; by apply HD|by right].
Qed.

Lemma covers_later W D S s s' :
  seen_subjects s ⊆ seen_subjects s' → seen_usersets s' = seen_usersets s →
  covers W D S s → covers W D S s'.
Proof.
  intros Hs Hu [HD Hseen]. split.
  - intros o rel e Ho He. apply (arrived_mono D D S s); [by intros ? ?|exact Hs|by apply HD].
  - rewrite Hu. exact Hseen.
Qed.

Lemma walks_stack s s' : walks s s' → stack s' = stack s.
Proof. intros Hw. apply (sh_expands _ _ (wk_shell _ _ Hw)). Qed.

Lemma not_full s s' : walks s s' → full s' = false → full s = false.
Proof.
  intros Hw Hf. destruct (full s) eqn:E; [|done]. by rewrite (walks_full limits s s' Hw E) in Hf.
Qed.

Lemma gains_trans W s s1 s2 A N A' N' :
  walks s s1 → walks s1 s2 → gains W s s1 A N → gains none s1 s2 A' N' →
  gains W s s2 (λ x, A x ∨ A' x) (λ o rel, N o rel ∨ N' o rel).
Proof.
  intros Hw1 Hw2 [_ H1'] [Ht H2']. split; [done|]. intros Hf D HD.
  destruct (H1' (not_full _ _ Hw2 Hf) D HD) as (D1 & Hi1 & Hc1 & Ha1).
  rewrite (walks_stack _ _ Hw1) in H2'.
  destruct (H2' Hf D1 Hc1) as (D2 & Hi2 & Hc2 & HA2 & HN2).
  exists D2. split; [intros o rel ?; by apply Hi2, Hi1|]. split; [done|].
  destruct (arrived_mono D1 D2 _ s1 s2 A N Hi2 (wk_subjects _ _ Hw2) Ha1) as [HA1 HN1].
  split; [intros x [?|?]; auto|intros o rel [?|?]; auto].
Qed.

Lemma gains_weaken W s s' (A A' : SubjectRef → Prop) (N N' : Members) :
  gains W s s' A N → (full s' = false → ∀ x, A' x → A x) →
  (full s' = false → ∀ o rel, N' o rel → N o rel) → gains W s s' A' N'.
Proof.
  intros [Ht Hg] HA HN. split; [done|]. intros Hf D HD.
  destruct (Hg Hf D HD) as (D' & Hi & Hc & HA' & HN'). exists D'. split_and!; [done|done|].
  split; [intros x Hx; by apply HA', HA|intros o rel Ho; by apply HN', HN].
Qed.

(** Nothing more is gained once the limit is reached. *)
Lemma gains_full W s A N : told s → full s = true → gains W s s A N.
Proof. intros Ht Hf. split; [done|]. by rewrite Hf. Qed.

(** Only the contexts change. *)
Lemma gains_still s s' :
  told s → seen_subjects s' = seen_subjects s → seen_usersets s' = seen_usersets s →
  found_subjects s' = found_subjects s → gains none s s' no_subject none.
Proof.
  intros [Ht1 Ht2] Hs Hu Hf. split.
  - split; rewrite Hf; [done|]. by rewrite Hs.
  - intros _ D HD. exists D. split; [by intros ? ?|]. split; [|split; [by intros ? []|by intros ? ? []]].
    apply (covers_later _ _ _ s); [by rewrite Hs|done|done].
Qed.

(** A state of the walk, at depth [n] or less. *)
Record good (n : nat) (s : LookupState) : Prop := {
  gd_ok : ok s;
  gd_told : told s;
  gd_walk : ctx_snapshot (walk_context s) = snapshot;
  gd_limits : ctx_limits (walk_context s) = limits;
  gd_check : ctx_snapshot (check_context s) = snapshot;
  gd_depth : (remaining_depth (walk_context s) ≤ Z.of_nat n)%Z
}.

Lemma good_next n s s' : good n s → ok s' → walks s s' → told s' → good n s'.
Proof.
  intros [H1 H2 H3 H4 H5 H6] Hok [[] W2 W3 W4 W5 W6] Ht. split; try done; congruence || lia.
Qed.

Definition does {T} (W : Members) (s : LookupState) (m : Lookup T) (A : SubjectRef → Prop)
    (N : Members) : Prop :=
  let '(r, s') := m s in ok s' ∧ walks s s' ∧ ∀ a, r = Ok a → gains W s s' A N.

Lemma does_ret {T} s (a : T) : ok s → told s → does none s (st_ret a) no_subject none.
Proof. intros Hs Ht. split_and!; [done|done|]. intros _ _. by apply gains_still. Qed.

Lemma does_bind {T U} W n s (m : Lookup T) (f : T → Lookup U) A N A' N' :
  good n s → does W s m A N →
  (∀ a s1, m s = (Ok a, s1) → good n s1 → walks s s1 → does none s1 (f a) A' N') →
  does W s (st_bind m f) (λ x, A x ∨ A' x) (λ o rel, N o rel ∨ N' o rel).
Proof.
  intros Hg Hm Hf. unfold does, st_bind in *. destruct (m s) as [[a|e] s1] eqn:E;
    destruct Hm as (Hok & Hw & Hgain); [|by split_and!].
  specialize (Hgain a eq_refl).
  specialize (Hf a s1 eq_refl (good_next _ _ _ Hg Hok Hw (proj1 Hgain)) Hw).
  destruct (f a s1) as [r s2]. destruct Hf as (Hok2 & Hw2 & Hgain2).
  split_and!; [done|by etransitivity|]. intros b Hb. eapply gains_trans; eauto.
Qed.

Lemma does_weaken {T} W s (m : Lookup T) (A A' : SubjectRef → Prop) (N N' : Members) :
  does W s m A N → (∀ x, A' x → A x) → (∀ o rel, N' o rel → N o rel) → does W s m A' N'.
Proof.
  intros Hm HA HN. unfold does in *. destruct (m s) as [r s']. destruct Hm as (? & ? & Hg).
  split_and!; [done|done|]. intros a Ha. eapply gains_weaken; eauto.
Qed.

(** A step that only uses the context of the walk. *)
Lemma does_walk {T U} n s (m : Eval T) (f : T → Lookup U) A N :
  good n s → runs_within any_memo n m →
  (∀ a c, m (walk_context s) = (Ok a, c) → good n (set_walk c s) → walks s (set_walk c s) →
     does none (set_walk c s) (f a) A N) →
  does none s (st_bind (on_walk m) f) A N.
Proof.
  intros Hg Hm Hf. eapply does_weaken; [eapply (does_bind none n s _ _ no_subject none A N)|..];
    [done| | |by right|by right].
  - pose proof (within_walk subject_type limits n m Hm s (gd_ok _ _ Hg) (gd_depth _ _ Hg)) as Hw.
    unfold returns, does in *. unfold on_walk, st_zoom in *. destruct (m (walk_context s)) as [r c].
    destruct Hw as (_ & Hok & Hw). split_and!; [done|done|]. intros a _. apply gains_still; [|done..].
    apply Hg.
  - intros a s1 E Hg1 Hw1. unfold on_walk, st_zoom in E.
    destruct (m (walk_context s)) as [r c] eqn:Em. injection E as -> <-. by apply Hf.
Qed.

(** What stops at the result limit. *)
Lemma does_unless_full n s (m : Lookup unit) A N :
  good n s → (full s = false → does none s m A N) →
  does none s (λ s, if full s then (Ok tt, s) else m s) A N.
Proof.
  intros Hg Hm. unfold does in *. destruct (full s) eqn:E; [|by apply Hm].
  split_and!; [apply Hg|done|]. intros _ _. by apply gains_full; [apply Hg|].
Qed.

(** ** Candidates *)

Abbreviation offered := (offer resource (mkRelation (as_str permission)) limits).
Abbreviation says := (check_says resource (mkRelation (as_str permission))).

Lemma idle_reset c : idle (reset_for_reuse c).
Proof. unfold reset_for_reuse. by destruct (checked_add _ _ _). Qed.

Lemma check_right u s b :
  ok s → ctx_snapshot (check_context s) = snapshot → says u s b → b = true ↔ root u.
Proof.
  intros Hok Hsnap (s' & Hs). unfold check_candidate, on_check, st_zoom, st_bind in Hs.
  pose proof (Hcheck (reset_for_reuse (check_context s)) u) as Hc.
  assert (ctx_snapshot (reset_for_reuse (check_context s)) = snapshot ∧
          check_memo (reset_for_reuse (check_context s)) = None ∧
          ctx_limits (reset_for_reuse (check_context s)) = ctx_limits (check_context s))
    as (Hsn & Hm & Hl).
  { pose proof (lk_check_memo _ _ _ Hok). unfold reset_for_reuse. by destruct (checked_add _ _ _). }
  rewrite Hl in Hc.
  destruct (check _ _ _ _ (reset_for_reuse (check_context s))) as [[m|e] c]; [|done].
  injection Hs as <- _. apply (Hc m); try done; [|apply idle_reset].
  apply context_ok_next, Hok.
Qed.

(** A new candidate is found exactly if it has the permission. *)
Lemma offer_told n u verify s :
  good n s → full s = false → u ∉ seen_subjects s → of_type subject_type u →
  (verify = false → root u) →
  let '(r, s') := offered u verify (see_subject u s) in
  ok s' ∧ walks s s' ∧ seen_subjects s' = {[u]} ∪ seen_subjects s ∧
  seen_usersets s' = seen_usersets s ∧ (is_ok r = true → told s').
Proof.
  intros Hg Hf Hu Ht Hplain. destruct (see_subject_ok subject_type limits u s (gd_ok _ _ Hg)) as [Hs1 Hw1].
  pose proof (offer_spec resource (mkRelation (as_str permission)) subject_type limits u verify
    (see_subject u s) Hs1 Hf) as Ho.
  assert (u ∉ found_subjects s) as Hnew.
  { intros Hin. by apply Hu, (lk_seen _ _ _ (gd_ok _ _ Hg)). }
  destruct (offered u verify (see_subject u s)) as [r s2].
  destruct Ho as (_ & Hs2 & Hw2 & Hseen & Huse & Hfound); [simpl; set_solver|done|done|].
  split; [done|]. split; [by etransitivity|]. split; [done|]. split; [done|].
  destruct (gd_told _ _ Hg) as [Ht1 Ht2]. intros Hr.
  assert (∀ b, says u (see_subject u s) b → b = true ↔ root u) as Hsays.
  { intros b. apply check_right; [done|]. apply (gd_check _ _ Hg). }
  destruct r as [[]|e]; [| |done]; simpl in Hfound.
  - destruct Hfound as [E Hv]. assert (root u) as Hroot.
    { destruct verify; [|by apply Hplain]. exact (proj1 (Hsays true (Hv eq_refl)) eq_refl). }
    split; rewrite E.
    + intros v [Hv'| ->%list_elem_of_singleton]%elem_of_app; [by apply Ht1|done].
    + intros v. rewrite Hseen. intros [->%elem_of_singleton|Hv']%elem_of_union Hr'; apply elem_of_app.
      * right. by apply list_elem_of_singleton.
      * left. by apply Ht2.
  - destruct Hfound as (E & _ & Hv). split; rewrite E; [done|].
    intros v. rewrite Hseen. intros [->%elem_of_singleton|Hv']%elem_of_union Hr'; [|by apply Ht2].
    by destruct (proj2 (Hsays false Hv)).
Qed.

Lemma told_covers s s' A :
  told s' → seen_subjects s ⊆ seen_subjects s' → seen_usersets s' = seen_usersets s →
  (full s' = false → ∀ x, A x → recorded s' x) → gains none s s' A none.
Proof.
  intros Ht Hs Hu HA. split; [done|]. intros Hf D' HD. exists D'. split; [by intros ? ?|].
  split; [by apply (covers_later _ _ _ s)|]. split; [by apply HA|by intros ? ? []].
Qed.

Lemma does_collect_user n i verify s :
  good n s → full s = false → (verify = false → root (UserId i)) →
  does none s
    (collect_user_candidate resource (mkRelation (as_str permission)) subject_type limits i verify)
    (λ x, ∀ u, names_exactly u x → u = UserId i) none.
Proof.
  intros Hg Hf Hplain. unfold does. rewrite collect_user_offer.
  assert (∀ s', (as_str subject_type = "user" → UserId i ∈ seen_subjects s') → ∀ x,
    (∀ u, names_exactly u x → u = UserId i) → recorded s' x) as Hrec.
  { intros s' Hi x Hx u Ht Hn. rewrite (Hx u Hn) in *. by apply Hi. }
  case_bool_decide as Ht; simpl.
  2:{ split_and!; [apply Hg|done|]. intros _ _. apply told_covers; try done; [apply Hg|].
      intros _. by apply Hrec. }
  destruct (decide _) as [Hin|Hin].
  { split_and!; [apply Hg|done|]. intros _ _. apply told_covers; try done; [apply Hg|].
    intros _. by apply Hrec. }
  pose proof (offer_told n (UserId i) verify s Hg Hf Hin Ht Hplain) as Ho. unfold st_bind.
  destruct (offered _ _ _) as [r s2]. destruct Ho as (Hok & Hw & Hseen & Hus & Htold).
  destruct r as [b|e]; (split_and!; [done|done|]); [|done]. intros _ _.
  apply told_covers; [by apply Htold|by rewrite Hseen; set_solver|done|].
  intros _. apply Hrec. intros _. rewrite Hseen. set_solver.
Qed.

(** The state after a userset was collected: its subject is recorded, and it is
    among the usersets seen before unless it is to be walked. *)
Lemma collect_userset_told n o rel verify s :
  good n s → full s = false → (verify = false → root (Userset o (mkRelation (as_str rel)))) →
  let '(r, s') := collect_userset_candidate resource (mkRelation (as_str permission)) subject_type
                    limits o rel verify s in
  ok s' ∧ walks s s' ∧ ∀ b, r = Ok b →
    told s' ∧ seen_usersets s' ⊆ {[(o, rel)]} ∪ seen_usersets s ∧
    (full s' = false →
       (∀ x, userset_of x = Some (o, rel) → recorded s' x) ∧
       (b = false → (o, rel) ∈ seen_usersets s)).
Proof.
  intros Hg Hf Hplain. set (u := Userset o (mkRelation (as_str rel))).
  assert (∀ s', (namespace o = as_str subject_type → u ∈ seen_subjects s') → ∀ x,
    userset_of x = Some (o, rel) → recorded s' x) as Hrec.
  { intros s' Hi x Hx [i|o' r] Ht [Hn Hx']; [congruence|].
    destruct Hn as (rel' & Hn & Hr). rewrite Hx in Hn. injection Hn as <- <-.
    destruct r. simpl in Hr. subst. by apply Hi. }
  assert (∀ s1, ok s1 → walks s s1 → told s1 → seen_usersets s1 = seen_usersets s →
    (namespace o = as_str subject_type → u ∈ seen_subjects s1) →
    let '(r, s') := visit (o, rel) s1 in
    ok s' ∧ walks s s' ∧ ∀ b, r = Ok b →
      told s' ∧ seen_usersets s' ⊆ {[(o, rel)]} ∪ seen_usersets s ∧
      (full s' = false → (∀ x, userset_of x = Some (o, rel) → recorded s' x) ∧
                         (b = false → (o, rel) ∈ seen_usersets s))) as Hvisit.
  { intros s1 Hs1 Hw1 [Ht1 Ht2] Hus Hu. unfold visit.
    destruct (see_userset_ok subject_type limits (o, rel) s1 Hs1) as [Hs2 Hw2].
    split_and!; [done|by etransitivity|]. intros b [= <-]. split; [by split|].
    simpl. rewrite Hus. split; [done|]. intros _. split; [by apply Hrec|].
    intros Hb%bool_decide_eq_false. destruct (decide ((o, rel) ∈ seen_usersets s)); [done|].
    exfalso. by apply Hb. }
  rewrite collect_userset_offer. case_bool_decide as Ht; simpl; [|by apply Hvisit; apply Hg || done].
  fold u. destruct (decide _) as [Hin|Hin]; [by apply Hvisit; apply Hg || done|].
  pose proof (offer_told n u verify s Hg Hf Hin Ht Hplain) as Ho. unfold st_bind.
  destruct (offered _ _ _) as [r s2]. destruct Ho as (Hok & Hw & Hseen & Hus & Htold).
  destruct r as [found|e]; [|by split_and!]. specialize (Htold eq_refl).
  assert (u ∈ seen_subjects s2) as Hu by (rewrite Hseen; set_solver).
  destruct (found && _) eqn:Eb; [|by apply Hvisit].
  split_and!; [done|done|]. intros b [= <-]. split; [done|]. split; [rewrite Hus; set_solver|].
  intros Hf2. split; [by apply Hrec|]. by rewrite Hf2.
Qed.

(** ** The walk *)

Section recursion.
Variable n : nat.
Variable rec : Object → RelationName → bool → Lookup unit.
(** The relation asked for may be among the usersets seen already. *)
Hypothesis Hrec : ∀ o rel v s, good n s → (v = false → ∀ u, M u o rel → root u) →
  does (only o rel) s (rec o rel v) no_subject (only o rel).

Abbreviation collect_userset :=
  (collect_userset_candidate resource (mkRelation (as_str permission)) subject_type limits).

Lemma covers_only o rel W D S s s1 :
  covers none D S s → seen_subjects s ⊆ seen_subjects s1 →
  seen_usersets s1 ⊆ {[(o, rel)]} ∪ seen_usersets s → (only o rel o rel → W o rel) → covers W D S s1.
Proof.
  intros [HD Hseen] Hs Hu HW. split.
  - intros o' rel' e Ho He. apply (arrived_mono D D S s); [by intros ? ?|done|by apply HD].
  - intros o' rel' [[= -> ->]%elem_of_singleton|Hin]%Hu%elem_of_union; [right; right; by apply HW|].
    destruct (Hseen o' rel' Hin) as [?|[?|[]]]; auto.
Qed.

Lemma covers_unseen W D S s : covers none D S s → covers W D S s.
Proof. intros [HD Hs]. split; [done|]. intros o rel Hin. destruct (Hs o rel Hin) as [?|[?|[]]]; auto. Qed.

(** A relation walked that no userset led to. *)
Lemma does_rec o rel v s : good n s → (v = false → ∀ u, M u o rel → root u) →
  does none s (rec o rel v) no_subject (only o rel).
Proof.
  intros Hg Hv. pose proof (Hrec o rel v s Hg Hv) as Hr. unfold does in *.
  destruct (rec o rel v s) as [r s']. destruct Hr as (Hok & Hw & Hr). split_and!; [done|done|].
  intros a Ha. destruct (Hr a Ha) as [Ht Hgain]. split; [done|]. intros Hf D HD.
  apply Hgain; [done|]. by apply covers_unseen.
Qed.

Lemma does_userset o rel v s :
  good n s → full s = false → (v = false → root (Userset o (mkRelation (as_str rel)))) →
  (v = false → ∀ u, M u o rel → root u) →
  does none s (let! b := collect_userset o rel v in if b then rec o rel v else st_ret tt)
    (λ x, userset_of x = Some (o, rel)) (only o rel).
Proof.
  intros Hg Hf Hv1 Hv2. pose proof (collect_userset_told n o rel v s Hg Hf Hv1) as Hc.
  unfold does, st_bind. destruct (collect_userset o rel v s) as [[b|e] s1];
    destruct Hc as (Hok & Hw & Hc); [|by split_and!].
  destruct (Hc b eq_refl) as (Ht & Hus & Hc'). clear Hc.
  pose proof (good_next _ _ _ Hg Hok Hw Ht) as Hg1. destruct b.
  - pose proof (Hrec o rel v s1 Hg1 Hv2) as Hr. unfold does in Hr.
    destruct (rec o rel v s1) as [r s2]. destruct Hr as (Hok2 & Hw2 & Hr).
    split_and!; [done|by etransitivity|]. intros a Ha. destruct (Hr a Ha) as [Ht2 Hgain].
    split; [done|]. intros Hf2 D HD. rewrite (walks_stack _ _ Hw) in Hgain.
    destruct (Hgain Hf2 D) as (D' & Hi & Hc2 & _ & HN).
    { eapply covers_only; [exact HD|apply Hw|exact Hus|done]. }
    exists D'. split_and!; [done|done|]. split; [|done]. intros x Hx u Hu Hn.
    apply (wk_subjects _ _ Hw2). apply (proj1 (Hc' (not_full _ _ Hw2 Hf2)) x Hx u Hu Hn).
  - split_and!; [done|done|]. intros _ _. split; [done|]. intros Hf1 D HD.
    destruct (Hc' Hf1) as [HA Hin]. specialize (Hin eq_refl).
    exists D. split; [by intros ? ?|].
    assert (covers none D (stack s) s1) as HD1.
    { destruct HD as [HD Hseen]. split.
      - intros o' rel' e Ho He. apply (arrived_mono D D _ s); [by intros ? ?|apply Hw|by apply HD].
      - intros o' rel' [[= -> ->]%elem_of_singleton|Hi]%Hus%elem_of_union; by apply Hseen. }
    split; [done|]. split; [done|]. intros o' rel' [-> ->].
    destruct (proj2 HD o rel Hin) as [?|[?|[]]]; auto.
Qed.

(** What a row the walk reads without checks must grant. *)
Definition row_grants (r : Relationship) : Prop :=
  (∀ u, names_user u (subject r) → root u) ∧
  (∀ o rel, userset_of (subject r) = Some (o, rel) → ∀ u, M u o rel → root u).

Definition rows_name (rs : list Relationship) (x : SubjectRef) : Prop := ∃ r, r ∈ rs ∧ subject r = x.
Definition rows_lead (rs : list Relationship) : Members := λ o rel,
  ∃ r, r ∈ rs ∧ userset_of (subject r) = Some (o, rel).

Lemma direct_user_denotes x r i :
  ref_denotes x r → direct_user_subject_id x = Some i →
  userset_of (subject r) = None ∧ object_of_ref (subject_object (subject r)) = mkObject "user" i.
Proof.
  intros (_ & _ & Ho & Hs)%ref_denotes_parts. unfold direct_user_subject_id.
  destruct (row_subject_relation (ref_row x)); [done|]. rewrite Hs, Ho. simpl.
  case_bool_decide as Hn; [|done]. intros [= <-]. split; [done|]. unfold object_of_ref in *.
  simpl in *. by rewrite Hn.
Qed.

Abbreviation rows := (walk_rows resource (mkRelation (as_str permission)) subject_type limits rec).

Lemma does_rows v items rs : Forall2 ref_denotes items rs →
  (v = false → Forall row_grants rs) →
  ∀ fanout s, good n s → does none s (rows v fanout items) (rows_name rs) (rows_lead rs).
Proof.
  induction 1 as [|x r items rs Hx _ IH]; intros Hv fanout s Hg.
  { eapply does_weaken; [by apply does_ret; apply Hg|..].
    - by intros ? (? & ?%not_elem_of_nil & _).
    - by intros ? ? (? & ?%not_elem_of_nil & _). }
  cbn [walk_rows]. apply does_unless_full with n; [done|]. intros Hf.
  assert (v = false → row_grants r) as Hvr by (intros E; by destruct (Forall_cons_1 _ _ _ (Hv E))).
  assert (v = false → Forall row_grants rs) as Hvs by (intros E; by destruct (Forall_cons_1 _ _ _ (Hv E))).
  apply does_walk with n; [done|apply within_fanout|]. intros fanout' c1 _ Hg1 Hw1.
  apply does_walk with n; [done|apply within_lift|]. intros target c2 Htarget Hg2 Hw2.
  unfold lift, st_lift in Htarget. rewrite (subject_userset_denotes _ _ Hx) in Htarget.
  injection Htarget as <- ->.
  set (s2 := set_walk _ (set_walk _ s)) in *.
  eapply does_weaken; [eapply (does_bind none n s2 _ _ (λ y, y = subject r)
    (λ o rel, userset_of (subject r) = Some (o, rel)) (rows_name rs) (rows_lead rs))|..]; [done| | | |].
  - destruct (userset_of (subject r)) as [[o rel]|] eqn:Eu.
    + eapply does_weaken; [apply (does_userset o rel v s2 Hg2)|..].
      * done.
      * intros E. apply (proj1 (Hvr E)). simpl. by exists rel.
      * intros E. by apply (proj2 (Hvr E)).
      * by intros y ->.
      * intros o' rel' [= -> ->]. done.
    + destruct (direct_user_subject_id x) as [i|] eqn:Ei.
      * destruct (direct_user_denotes _ _ _ Hx Ei) as [_ Hi].
        eapply does_weaken; [apply (does_collect_user n i v s2 Hg2)|..]; [done| | |done].
        -- intros E. apply (proj1 (Hvr E)). done.
        -- intros y -> [j|o rel] [Hn _]; simpl in Hn.
           ++ rewrite Hi in Hn. by injection Hn as ->.
           ++ destruct Hn as (? & Hn & _). congruence.
      * destruct (ref_denotes_parts _ _ Hx) as (_ & _ & Ho & Hs).
        apply does_walk with n; [done|apply within_lift|]. intros t c3 Ht Hg3 Hw3. exfalso.
        unfold lift, st_lift, expanded_subject in Ht. unfold direct_user_subject_id in Ei.
        destruct (row_subject_relation (ref_row x)) as [sid|].
        { destruct Hs as (? & Hs & _). rewrite Hs in Eu. done. }
        by case_bool_decide.
  - intros [] s3 _ Hg3 Hw3. by apply IH.
  - intros y (r' & [->|Hr']%elem_of_cons & <-); [by left|]. right. by exists r'.
  - intros o rel (r' & [->|Hr']%elem_of_cons & Hu); [by left|]. right. by exists r'.
Qed.

(** *** [This] *)

Lemma lift_Ok {T} (r : result ZanzibarError T) a c c' : lift r c = (Ok a, c') → r = Ok a ∧ c' = c.
Proof. unfold lift, st_lift. by intros [= Hr%map_err_Ok ->]. Qed.

Lemma lift_domain_Ok {T} (r : result DomainError T) a c c' :
  lift_domain r c = (Ok a, c') → r = Ok a ∧ c' = c.
Proof. unfold lift_domain. by intros [Hr%map_err_Ok ->]%lift_Ok. Qed.

Lemma items_denote_unique items rs rs' :
  Forall2 ref_denotes items rs → Forall2 ref_denotes items rs' → rs = rs'.
Proof.
  intros Hrs. revert rs'. induction Hrs as [|x r items rs Hx _ IH]; intros rs' Hrs'.
  - by inversion_clear Hrs'.
  - inversion_clear Hrs' as [|? r' ? rs'' Hx' Hr]. unfold ref_denotes in *.
    f_equal; [congruence|by apply IH].
Qed.

Lemma on_resource_granted res rel r :
  r ∈ rels → on_resource res rel r = true → granted rels (object_of_ref res) rel (subject r).
Proof.
  unfold on_resource. rewrite andb_true_iff, !bool_decide_eq_true. intros Hr [<- <-].
  by exists r.
Qed.

Lemma granted_on_resource res rel x :
  granted rels (object_of_ref res) rel x →
  ∃ r, r ∈ filter (λ r, on_resource res rel r = true) rels ∧ subject r = x.
Proof.
  intros (r & Hr & Ho%object_of_ref_inj & <- & <-). exists r. split; [|done].
  apply list_elem_of_filter. split; [|done]. unfold on_resource.
  by rewrite andb_true_iff, !bool_decide_eq_true.
Qed.

Lemma fan_start : (0 ≤ 0 ≤ nz_get (max_fanout_per_step limits))%Z.
Proof. pose proof (nz_range (max_fanout_per_step limits)). lia. Qed.

Hypothesis Hreturns : ∀ o rel v, within subject_type limits n (rec o rel v).

Abbreviation this := (walk_this resource (mkRelation (as_str permission)) subject_type limits rec).

Lemma does_walk_this o rel v s : good n s →
  (v = false → ∀ u, sat rels u (M u) (M u) o rel This → root u) →
  does none s (this o rel v) (named rels o rel This) (walked rels o rel This).
Proof.
  intros Hg Hv. unfold does, walk_this. set (items := relation_items _).
  enough (does none s (let! res := on_walk (lift_domain (object_ref_of_object o)) in
    rows v 0 (items res rel (fanout_query_limit (ctx_limits (walk_context s)))))
    (named rels o rel This) (walked rels o rel This)) as Hd by exact Hd.
  apply does_walk with n; [done|apply within_lift_domain|]. subst items.
  intros res c [Ho%object_ref_of_object_Ok ->]%lift_domain_Ok Hg1 Hw1. subst o.
  rewrite (gd_limits _ _ Hg). unfold relation_items. rewrite (gd_walk _ _ Hg).
  set (items := view_items _ _).
  destruct (reads_rows res rel (fanout_query_limit limits)) as (rs & Hrs & Hin). fold items in Hrs.
  assert (v = false → Forall row_grants rs) as Hgrants.
  { intros E. apply Forall_forall. intros r Hr. apply Hin in Hr as [Hr Hon].
    pose proof (on_resource_granted res rel r Hr Hon) as Hgr. split.
    - intros u Hu. apply (Hv E). left. by exists (subject r).
    - intros o' rel' Hu u Hm. apply (Hv E). right. by exists (subject r), o', rel'. }
  pose proof (does_rows v items rs Hrs Hgrants 0 (set_walk (walk_context s) s) Hg1) as Hd.
  pose proof (rows_counted resource (mkRelation (as_str permission)) subject_type limits n rec
    Hreturns v items 0 (set_walk (walk_context s) s)) as Hcount.
  unfold does in *. destruct (rows v 0 items _) as [r s'].
  destruct Hd as (Hok & Hw & Hgain). split_and!; [done|done|]. intros [] ->.
  assert (full s' = false → rs ≡ₚ filter (λ r, on_resource res rel r = true) rels) as Hall.
  { intros Hf. specialize (Hcount s' (gd_ok _ _ Hg1) (gd_depth _ _ Hg1)). simpl in Hcount.
    rewrite (gd_limits _ _ Hg) in Hcount. specialize (Hcount Hfan fan_start eq_refl Hf).
    destruct (reads_items res rel (fanout_query_limit limits)) as (rs' & Hrs' & Hp).
    { by apply fanout_room_query. }
    { fold items. simpl. unfold fanout_limit_value. pose proof fan_start. lia. }
    by rewrite (items_denote_unique _ _ _ Hrs Hrs'). }
  eapply gains_weaken; [exact (Hgain tt eq_refl)|..].
  - intros Hf x (r & Hr & <-)%granted_on_resource. exists r. by rewrite (Hall Hf).
  - intros Hf o' rel' (x & (r & Hr & <-)%granted_on_resource & Hu). exists r.
    by rewrite (Hall Hf).
Qed.

(** *** Rewrites *)

Lemma does_tupleset cm items rs : Forall2 ref_denotes items rs →
  ∀ fanout s, good n s →
  does none s (walk_tupleset limits rec cm fanout items) no_subject
    (λ o rel, rel = cm ∧ ∃ r, rows_lead rs o r).
Proof.
  induction 1 as [|x r items rs Hx _ IH]; intros fanout s Hg.
  { eapply does_weaken; [by apply does_ret; apply Hg|done|].
    by intros ? ? (_ & ? & ? & ?%not_elem_of_nil & _). }
  cbn [walk_tupleset]. apply does_unless_full with n; [done|]. intros Hf.
  apply does_walk with n; [done|apply within_lift|].
  intros target c [Htarget ->]%lift_Ok Hg1 Hw1.
  rewrite (subject_userset_denotes _ _ Hx) in Htarget. injection Htarget as <-.
  assert (∀ o rel, rows_lead (r :: rs) o rel ↔ userset_of (subject r) = Some (o, rel) ∨ rows_lead rs o rel)
    as Hlead.
  { intros o rel. unfold rows_lead. setoid_rewrite elem_of_cons. naive_solver. }
  destruct (userset_of (subject r)) as [[o rel]|].
  - apply does_walk with n; [done|apply within_fanout|]. intros fanout' c' _ Hg2 Hw2.
    eapply does_weaken; [eapply (does_bind none n)|..]; [done|by apply does_rec| | |].
    + intros [] s3 _ Hg3 Hw3. by apply IH.
    + by intros y [].
    + intros o' rel' [-> (r' & [[= -> ->]|Hr']%Hlead)]; [by left|right; eauto].
  - eapply does_weaken; [by apply IH|done|].
    intros o' rel' [-> (r' & [?|Hr']%Hlead)]; [done|eauto].
Qed.

Lemma does_operands (w : CompiledUsersetExpression → Lookup unit) A N es :
  Forall (λ e, ∀ s, good n s → does none s (w e) (A (erase e)) (N (erase e))) es →
  ∀ s, good n s →
  does none s (walk_operands limits w es) (λ x, any_of (λ e, A e x) (erase <$> es))
    (λ o rel, any_of (λ e, N e o rel) (erase <$> es)).
Proof.
  induction 1 as [|e es He _ IH]; intros s Hg; simpl.
  - by apply does_ret; apply Hg.
  - eapply (does_bind none n); [done|by apply He|]. intros [] s1 _ Hg1 _.
    apply does_unless_full with n; [done|]. intros _. by apply IH.
Qed.

(** What the walk relies on when it checks no candidate. *)
Definition plainly (v : bool) (o : Object) (rel : RelationName) (e : CompiledUsersetExpression) : Prop :=
  v = false → plain_expression e ∧ ∀ u, sat rels u (M u) (M u) o rel (erase e) → root u.

Lemma plainly_union v o rel es e : plainly v o rel (CUnion es) → e ∈ es → plainly v o rel e.
Proof.
  intros Hp He E. destruct (Hp E) as [Hes Hs]. simpl in Hes. rewrite all_of_Forall, Forall_forall in Hes.
  split; [by apply Hes|]. intros u Hu. apply Hs. simpl. apply any_of_Exists.
  exists (erase e). split; [|done]. apply list_elem_of_fmap. by exists e.
Qed.

Abbreviation walk_expr := (walk_expression resource (mkRelation (as_str permission)) subject_type limits rec).

Lemma does_expression o rel t e : as_str t = namespace o → refs_ok defs t e →
  ∀ v s, good n s → plainly v o rel e →
  does none s (walk_expr o rel e v) (named rels o rel (erase e)) (walked rels o rel (erase e)).
Proof.
  intros Ht.
  induction e as [|rel' rid h|ts rid cm|es IH|es IH|b x IHb _] using compiled_induction;
    intros Hrefs v s Hg Hp; cbn [walk_expression]; apply does_unless_full with n; try done; intros Hf.
  - apply does_walk_this; [done|]. intros E. by apply (Hp E).
  - eapply does_weaken; [apply does_rec|..]; [done| |done|done].
    intros E u Hu. by apply (Hp E).
  - destruct Hrefs as (rd & Hid).
    enough (does none s (let! res := on_walk (lift_domain (object_ref_of_object o)) in
      let! tupleset := on_walk (relation_of_id rid) in
      walk_tupleset limits rec cm 0
        (relation_items (walk_context s) res (rd_name tupleset) unbounded_query_limit))
      no_subject (walked rels o rel (erase (CTupleToUserset ts rid cm)))) as Hd by exact Hd.
    apply does_walk with n; [done|apply within_lift_domain|].
    intros res c [Ho%object_ref_of_object_Ok ->]%lift_domain_Ok Hg1 _.
    apply does_walk with n; [done|apply within_relation_of_id|].
    intros rd' c Hrd Hg2 _.
    assert (rd' = rd ∧ rd_name rd = ts) as [-> Hname].
    { unfold relation_of_id in Hrd. apply lift_Ok in Hrd as [Hrd _].
      simpl in Hrd. rewrite (gd_walk _ _ Hg) in Hrd.
      destruct (id_denotes_spec (sg_resolver _ Hschema) _ _ _ _ Hid) as [Hby _].
      rewrite Hby in Hrd. injection Hrd as <-. split; [done|]. by destruct Hid as (ns & _ & _ & _ & ->). }
    rewrite Hname. unfold relation_items. rewrite (gd_walk _ _ Hg).
    destruct (reads_all res ts) as (rs & Hrs & Hperm).
    eapply does_weaken; [by apply (does_tupleset cm _ rs Hrs)|done|].
    simpl. intros o' rel' (-> & x & r' & Hx & Hu). split; [done|]. exists r'. subst o.
    apply granted_on_resource in Hx as (r & Hr & <-). exists r. by rewrite Hperm.
  - simpl in Hrefs. rewrite all_of_Forall in Hrefs. apply (does_operands _ (named rels o rel)
      (walked rels o rel)); [|done]. rewrite Forall_forall in *. intros e He s' Hg'.
    apply IH; [done|by apply Hrefs|done|]. by eapply plainly_union.
  - simpl in Hrefs. rewrite all_of_Forall in Hrefs. apply (does_operands _ (named rels o rel)
      (walked rels o rel)); [|done]. rewrite Forall_forall in *. intros e He s' Hg'.
    apply IH; [done|by apply Hrefs|done|]. intros E. by destruct (Hp E).
  - apply IHb; [by apply Hrefs|done|]. done.
Qed.

(** *** A relation *)

(** The subjects and the relations a relation leads to. *)
Definition relation_names (o : Object) (rel : RelationName) (x : SubjectRef) : Prop :=
  ∃ e, rewrites_to defs o rel e ∧ named rels o rel e x.
Definition relation_walks (o : Object) (rel : RelationName) : Members := λ o' rel',
  ∃ e, rewrites_to defs o rel e ∧ walked rels o rel e o' rel'.

Lemma does_pure {T} s (r : result EvalStop T) :
  ok s → told s → does none s (λ s, (r, s)) no_subject none.
Proof. intros Hs Ht. split_and!; [done|done|]. intros _ _. by apply gains_still. Qed.

Lemma does_entered o rel inherited s : good n s →
  (inherited = false → ∀ u, M u o rel → root u) →
  does none s
    (walk_relation_entered resource (mkRelation (as_str permission)) subject_type limits rec o rel
       inherited)
    (relation_names o rel) (relation_walks o rel).
Proof.
  intros Hg Hv. unfold walk_relation_entered.
  apply does_walk with n; [done|apply within_lift_domain|].
  intros t c [Ht%ident_new_Ok ->]%lift_domain_Ok Hg1 _.
  apply does_walk with n; [done|apply within_relation_of_name|]. intros rd c Hrd Hg2 _.
  assert (declares defs t rel rd) as Hd.
  { unfold relation_of_name, lift_schema in Hrd. apply lift_Ok in Hrd as [Hrd%map_err_Ok _].
    simpl in Hrd. rewrite (gd_walk _ _ Hg) in Hrd.
    by apply (resolver_relation_Ok (sg_resolver _ Hschema)). }
  set (s2 := set_walk c _) in *.
  assert (rewrites_to defs o rel (default This (rd_userset_rewrite rd))) as Hrw by (by exists t, rd).
  assert (∀ x, relation_names o rel x → named rels o rel (default This (rd_userset_rewrite rd)) x)
    as HA.
  { intros x (e & He & Hx). by rewrite (rewrites_to_unique snapshot Hschema _ _ _ _ _ Ht Hd He) in Hx. }
  assert (∀ o' rel', relation_walks o rel o' rel' →
    walked rels o rel (default This (rd_userset_rewrite rd)) o' rel') as HN.
  { intros o' rel' (e & He & Hx).
    by rewrite (rewrites_to_unique snapshot Hschema _ _ _ _ _ Ht Hd He) in Hx. }
  destruct (sg_compiled _ Hschema _ _ _ Hd) as (_ & _ & _ & Her & Hrefs).
  eapply does_weaken; [eapply (does_bind none n s2 _ _ no_subject none
    (named rels o rel (default This (rd_userset_rewrite rd)))
    (walked rels o rel (default This (rd_userset_rewrite rd))))|..];
    [done| | |intros x Hx; right; by apply HA|intros o' rel' Hx; right; by apply HN].
  { destruct inherited; [apply does_ret|apply does_pure]; apply Hg2. }
  intros required s3 Ereq Hg3 _.
  assert (required = false → inherited = false ∧ relation_definition_requires
    (snapshot_schema snapshot) rd = Ok false) as Hreq.
  { intros ->. destruct inherited; [done|]. split; [done|]. injection Ereq as Er _.
    by rewrite <- (gd_walk _ _ Hg2). }
  assert (required = false → ∀ u, sat rels u (M u) (M u) o rel (default This (rd_userset_rewrite rd)) →
    root u) as Hroot.
  { intros E u Hu. apply (Hv (proj1 (Hreq E))), Hstep. by exists (default This (rd_userset_rewrite rd)). }
  rewrite Her in *. destruct (rd_compiled_userset_rewrite rd) as [e|] eqn:Ee; simpl in *.
  - apply (does_expression o rel t e); [done|by apply Hrefs|done|]. intros E. split; [|by apply Hroot].
    by eapply definition_requires_false; [apply (Hreq E)|].
  - by apply does_walk_this.
Qed.
End recursion.

(** The walk of a relation that is not on the stack visits it. *)
Lemma closes_relation D S s1 s' o rel :
  seen_subjects s' = seen_subjects s1 → seen_usersets s' = seen_usersets s1 →
  covers none D (mkExpandKey o rel :: S) s1 →
  arrived D (mkExpandKey o rel :: S) s1 (relation_names o rel) (relation_walks o rel) →
  covers none (λ o' rel', D o' rel' ∨ only o rel o' rel') S s'.
Proof.
  intros Es Eu [HD Hseen] Ho.
  assert (∀ o' rel', D o' rel' ∨ on_stack (mkExpandKey o rel :: S) o' rel' →
    (D o' rel' ∨ only o rel o' rel') ∨ on_stack S o' rel') as Hin.
  { intros o' rel' [?|[[= -> ->]|?]%elem_of_cons]; unfold only; auto. }
  split.
  - intros o' rel' e Hd He.
    assert (arrived D (mkExpandKey o rel :: S) s1 (named rels o' rel' e) (walked rels o' rel' e))
      as [HA HN].
    { destruct Hd as [Hd|[-> ->]]; [by apply HD|]. destruct Ho as [HA HN].
      split; [intros x Hx; apply HA; by exists e|intros a b Hx; apply HN; by exists e]. }
    split; [intros x Hx; unfold recorded; rewrite Es; by apply HA|].
    intros a b Hx. by apply Hin, HN.
  - intros o' rel'. rewrite Eu. intros Hs%Hseen.
    destruct Hs as [?|[?|[]]]; destruct (Hin o' rel') as [?|?]; auto.
Qed.

Abbreviation walk_rel :=
  (walk_relation resource (mkRelation (as_str permission)) subject_type limits).

Lemma does_walk_relation n : ∀ o rel v s, good n s → (v = false → ∀ u, M u o rel → root u) →
  does (only o rel) s (walk_rel (S n) o rel v) no_subject (only o rel).
Proof.
  induction n as [|n IH]; intros o rel v s Hg Hv; unfold does; rewrite walk_relation_S;
    set (body := walk_relation_entered _ _ _ _ _ o rel v); set (key := mkExpandKey o rel);
    destruct (walk_key_cases subject_type limits key body s (gd_ok _ _ Hg))
      as [[-> Hstop]|[[Hz (e & ->)]|(Hf & Hk & Hpos & E)]].
  1,4: split_and!; [apply Hg|done|]; intros _ _; destruct Hstop as [Hf|Hk];
    [by apply gains_full; [apply Hg|]|]; split; [apply Hg|]; intros _ D [HD Hseen]; exists D;
    split; [by intros ? ?|]; split; [split; [done|]; intros o' rel' Hs;
      destruct (Hseen o' rel' Hs) as [?|[?|[-> ->]]]; auto|];
    split; [by intros ? []|by intros o' rel' [-> ->]; right].
  1,3: by split_and!; [apply Hg|done|].
  { pose proof (gd_depth _ _ Hg). lia. }
  rewrite E. destruct (open_walk_ok subject_type limits key s (gd_ok _ _ Hg) Hpos Hk)
    as (Hs1 & Hen & Hclose).
  assert (good n (open_walk key s)) as Hg1.
  { destruct Hg as [H1 H2 H3 H4 H5 H6]. destruct Hen as [X1 X2 X3 X4 X5 X6].
    split; [done|by destruct H2|by rewrite X1|by rewrite X2|done|]. simpl in *. lia. }
  pose proof (does_entered n (walk_rel (S n)) IH
    (within_walk_relation _ _ subject_type limits n) o rel v (open_walk key s) Hg1 Hv) as Hb.
  unfold does in Hb. fold body in Hb. destruct (body _) as [r s1]. destruct Hb as (Hok & Hw & Hgain).
  destruct (Hclose s1 Hok Hw) as [Hok' Hw']. split_and!; [done|done|]. intros a Ha.
  destruct (Hgain a Ha) as [Ht Hg']. split; [by destruct Ht|]. intros Hf' D [HD Hseen].
  assert (stack (open_walk key s) = key :: stack s) as Est by apply (xn_expands _ _ _ Hen).
  rewrite Est in Hg'. destruct (Hg' Hf' D) as (D1 & Hi & Hc1 & Ha1).
  { split.
    - intros o' rel' e Ho He. destruct (HD o' rel' e Ho He) as [HA HN].
      split; [exact HA|]. intros a' b' Hn. destruct (HN a' b' Hn) as [?|?]; [by left|]. right. by right.
    - intros o' rel' Hs. destruct (Hseen o' rel' Hs) as [?|[?|[-> ->]]]; [by left|right; left; by right|].
      right. left. by left. }
  exists (λ o' rel', D1 o' rel' ∨ only o rel o' rel').
  split; [intros ? ? ?; left; by apply Hi|]. split; [by eapply closes_relation|].
  split; [by intros ? []|]. intros o' rel' Ho. by left; right.
Qed.

(** ** The whole walk *)

Abbreviation start := (mkLookup (context_new snapshot limits) ∅ ∅ [] (context_new snapshot limits)).

Lemma start_ok : ok start.
Proof.
  split; try done; try apply context_ok_new.
  - constructor.
  - by intros u ?%not_elem_of_nil.
  - simpl. pose proof (nz_range (max_lookup_results limits)). lia.
Qed.

Lemma start_good : good (eval_fuel limits) start.
Proof.
  split; try done; [apply start_ok|split; [by intros ? ?%not_elem_of_nil|by intros ? ?]|].
  simpl. unfold eval_fuel. lia.
Qed.

(** The links visited are closed, unless the result limit was reached. *)
Lemma walk_visits a s' :
  walk_rel (S (eval_fuel limits)) resource permission false start = (Ok a, s') →
  ok s' ∧ told s' ∧ (full s' = false → ∃ D, D resource permission ∧ covers none D [] s').
Proof.
  intros E. pose proof (does_walk_relation (eval_fuel limits) resource permission false start
    start_good (λ _ _ Hu, Hu)) as Hd. unfold does in Hd. rewrite E in Hd.
  destruct Hd as (Hok & _ & Hgain). destruct (Hgain a eq_refl) as [Ht Hg].
  split_and!; [done|done|]. intros Hf. destruct (Hg Hf none) as (D & _ & Hc & _ & HN).
  { split; [by intros ? ? ? []|]. intros ? ? Hin. simpl in Hin. set_solver. }
  exists D. split; [|done]. by destruct (HN resource permission) as [?|?%not_elem_of_nil].
Qed.

(** Everyone belongs to a relation at some stage of its iteration, and a user is
    only ever named as such. *)
Hypothesis Hoperands : ∀ o rel e, rewrites_to defs o rel e → has_operands e.
Hypothesis Hfounded : ∀ u o rel, M u o rel → ∃ n, member_n defs rels u n o rel.

Definition no_user_sets : Prop := ∀ r, r ∈ rels → ∀ o rel, userset_of (subject r) = Some (o, rel) →
  namespace o ≠ "user".

Lemma named_granted o rel e x : named rels o rel e x → granted rels o rel x.
Proof.
  induction e as [| | |es IH|es IH|b ? IHb _] using userset_induction; simpl; try done;
    rewrite any_of_Exists; rewrite Forall_forall in IH; naive_solver.
Qed.

Lemma named_exactly u o rel x : (as_str subject_type = "user" → no_user_sets) →
  of_type subject_type u → granted rels o rel x → names_user u x → names_exactly u x.
Proof.
  intros Hno Ht (r & Hr & _ & _ & <-) Hn. split; [done|]. destruct u as [i|]; [|done].
  destruct (userset_of (subject r)) as [[o' rel']|] eqn:Eu; [|done]. exfalso.
  apply (Hno Ht r Hr o' rel' Eu). simpl in Hn. destruct (subject r) as [so|so srel]; [done|].
  simpl in *. injection Eu as <- _. by rewrite Hn.
Qed.

Lemma closed_records D s u o rel n : (as_str subject_type = "user" → no_user_sets) →
  covers none D [] s → of_type subject_type u → D o rel → member_n defs rels u n o rel →
  u ∈ seen_subjects s.
Proof.
  intros Hno [HD _] Ht. revert o rel. induction n as [|n IH]; intros o rel Ho Hm; [done|].
  destruct Hm as (e & He & Hs). destruct (HD o rel e Ho He) as [HA HN].
  destruct (sat_walked rels u _ _ o rel e (Hoperands _ _ _ He) Hs) as [(x & Hx & Hn)|(o' & rel' & Hw & Hm)].
  - apply (HA x Hx u Ht). eapply named_exactly; [done|done|by eapply named_granted|done].
  - destruct (HN o' rel' Hw) as [Hd|?%not_elem_of_nil]; [by apply (IH o' rel')|done].
Qed.

(** What the walk finds: the subjects of the type that have the permission. *)
Lemma walk_exact a s' :
  walk_rel (S (eval_fuel limits)) resource permission false start = (Ok a, s') →
  (∀ u, u ∈ found_subjects s' → root u) ∧
  ((Z.of_nat (length (found_subjects s')) < nz_get (max_lookup_results limits))%Z →
   (as_str subject_type = "user" → no_user_sets) →
   ∀ u, of_type subject_type u → root u → u ∈ found_subjects s').
Proof.
  intros E. destruct (walk_visits a s' E) as (_ & [Ht1 Ht2] & Hclosed). split; [exact Ht1|].
  intros Hf%Z.leb_gt Hno u Ht Hu. destruct (Hclosed Hf) as (D & Hd & Hc). apply Ht2; [|done].
  destruct (Hfounded _ _ _ Hu) as [n Hn]. by eapply closed_records.
Qed.
End sound.
