(* ===== verification/LookupSubjectsProps.v ===== *)
(** * Correctness of subject lookups

    A lookup of subjects returns; the subjects it lists have the permission; and
    unless the result limit stopped it, it lists all of them. *)

From S2P Require Import Prelude Model Domain Revision Schema StoreTypes Store StoreProps StoreView ViewSpec.
From S2P Require Import ViewProps EvalContext Eval EvalReads EvalInv EvalTotal EvalSpec EvalSound.
From S2P Require Import EvalProps CheckProps Requests LookupSubjects LookupSubjectsInv LookupSubjectsSound.

Section lookup.
Context `{Hasher}.

(** ** The request *)

(** The walk a lookup starts. *)
Definition lookup_walk (snapshot : PublishedSnapshot) (resource : Object) (permission : RelationName)
    (st : SubjectType) (limits : EvaluationLimits) : result EvalStop unit * LookupState :=
  walk_relation resource (mkRelation (as_str permission)) st limits (S (eval_fuel limits)) resource
    permission false (mkLookup (context_new snapshot limits) ∅ ∅ [] (context_new snapshot limits)).

Lemma lookup_cases snapshot request limits :
  (∃ z, lookup_subjects_with_snapshot snapshot request limits = Err (Stop z)) ∨
  ∃ (permission : RelationName) (st : SubjectType),
    mkRelation (as_str permission) = ls_permission request ∧ as_str st = ls_subject_type request ∧
    lookup_subjects_with_snapshot snapshot request limits =
      let '(r, s) := lookup_walk snapshot (ls_resource request) permission st limits in
      _ ← r; Ok (mkSubjects (found_subjects s)).
Proof.
  unfold lookup_subjects_with_snapshot, lift_stop.
  destruct (object_ref_of_object _) as [res|e]; [|left; by eexists].
  destruct (relation_name_of _) as [permission|e] eqn:Hp; [|left; by eexists].
  cbn [map_err mbind result_bind].
  destruct (resolver_relation _ _ permission) as [rd|e]; [|left; by eexists].
  destruct (ident_new KSubjectType _) as [st|e] eqn:Hst; [|left; by eexists].
  cbn [map_err mbind result_bind]. apply ident_new_Ok in Hst, Hp.
  assert (mkRelation (as_str permission) = ls_permission request) as E
    by (rewrite Hp; by destruct (ls_permission request)).
  rewrite <- E. case_bool_decide.
  - right. by exists permission, st.
  - destruct (ident_new KObjectType _) as [t|e]; [|left; by eexists]. cbn [map_err mbind result_bind].
    destruct (resolver_namespace _ t) as [ns|e]; [|left; by eexists].
    right. by exists permission, st.
Qed.

Lemma lookup_returns snapshot request limits :
  match lookup_subjects_with_snapshot snapshot request limits with
  | Ok l =>
      NoDup (subjects l) ∧
      (Z.of_nat (length (subjects l)) ≤ nz_get (max_lookup_results limits))%Z ∧
      ∃ st : SubjectType, as_str st = ls_subject_type request ∧
        Forall (of_type st) (subjects l)
  | Err e => e ≠ OutOfFuel
  end.
Proof.
  destruct (lookup_cases snapshot request limits) as [[z ->]|(permission & st & _ & Hst & ->)]; [done|].
  pose proof (within_walk_relation (ls_resource request) (mkRelation (as_str permission)) st limits
    (eval_fuel limits) (ls_resource request) permission false
    (mkLookup (context_new snapshot limits) ∅ ∅ [] (context_new snapshot limits))
    (start_ok snapshot st limits)) as Hw.
  unfold returns, lookup_walk in *. destruct (walk_relation _ _ _ _ _ _ _ _ _) as [[a|e] s].
  - destruct Hw as (_ & [_ _ _ _ Hnd Hof Hb] & _); [simpl; unfold eval_fuel; lia|]. simpl.
    split_and!; [done|done|]. exists st. split; [done|]. apply Forall_forall. intros u Hu. by apply Hof.
  - destruct Hw as (He & _); [simpl; unfold eval_fuel; lia|]. simpl. congruence.
Qed.

Lemma lookup_total snapshot request limits :
  lookup_subjects_with_snapshot snapshot request limits ≠ Err OutOfFuel.
Proof.
  pose proof (lookup_returns snapshot request limits) as Hl.
  destruct (lookup_subjects_with_snapshot _ _ _); congruence.
Qed.

(** C31: a lookup of subjects returns, for every schema and whatever the
    relationships are: its walk ends within the fuel the depth limit gives, and
    so does every check of a candidate. The subjects it lists are different from
    each other, of the requested type, and no more than the result limit. *)
Theorem lookup_subjects_returns snapshot request limits :
  match lookup_subjects_with_snapshot snapshot request limits with
  | Ok l =>
      NoDup (subjects l) ∧
      (Z.of_nat (length (subjects l)) ≤ nz_get (max_lookup_results limits))%Z ∧
      ∃ st : SubjectType, as_str st = ls_subject_type request ∧
        Forall (of_type st) (subjects l)
  | Err e => e ≠ OutOfFuel
  end.
Proof. apply lookup_returns. Qed.
(** ** The answer *)

Section answer.
Variable snapshot : PublishedSnapshot.
Variable defs : list NamespaceDefinition.
Hypothesis Hserves : serves snapshot defs.
Variable resource : Object.
Variable permission : RelationName.
Variable limits : EvaluationLimits.
Hypothesis Hfan : (nz_get (max_fanout_per_step limits) < u32_max)%Z.
Hypothesis Hroom : fanout_room (snapshot_relationships snapshot) limits.

Abbreviation cdefs := (cs_definitions (snapshot_schema snapshot)).
Abbreviation rels := (rels_of snapshot).

Lemma served_operands o rel e : rewrites_to cdefs o rel e → has_operands e.
Proof.
  rewrite (rewrites_to_compiled _ _ _ _ _ (sv_schema _ _ Hserves)).
  intros (t & rd & _ & (ns & Hns & _ & Hrd & _) & ->).
  destruct (from_definitions_steps _ _ (sv_schema _ _ Hserves)) as (_ & _ & Hok & _).
  destruct (rd_userset_rewrite rd) as [e|] eqn:E; [|done]. simpl.
  eapply expr_ok_operands. by eapply Hok.
Qed.

(** The answer of a lookup, when [M] says who has which relation. *)
Definition lists_exactly (st : string) (M : User → Members) (l : list User) : Prop :=
  (∀ u, u ∈ l → M u resource permission) ∧
  ((Z.of_nat (length l) < nz_get (max_lookup_results limits))%Z →
   (st = "user" → no_user_sets rels) →
   ∀ (t : SubjectType) u, as_str t = st → of_type t u → M u resource permission → u ∈ l).

Lemma lookup_answer (M : User → Members) st l :
  (∀ u o rel, step cdefs rels u (M u) (M u) o rel → M u o rel) →
  (∀ u o rel, M u o rel → ∃ n, member_n cdefs rels u n o rel) →
  (∀ c u m, context_ok c → idle c → ctx_snapshot c = snapshot → check_memo c = None →
     (check (eval_fuel (ctx_limits c)) resource (mkRelation (as_str permission)) u c).1 = Ok m →
     m ≠ Conditional ∧ (m = Allowed ↔ M u resource permission)) →
  lookup_subjects_with_snapshot snapshot
    (mkLookupSubjects resource (mkRelation (as_str permission)) st) limits = Ok l →
  lists_exactly st M (subjects l).
Proof.
  intros Hstep Hfounded Hcheck Hl.
  destruct (lookup_cases snapshot (mkLookupSubjects resource (mkRelation (as_str permission)) st) limits)
    as [[z E]|(permission' & t & Hp & Ht & E)]; [congruence|].
  simpl in Hp, Ht. injection Hp as Hp%ident_eq. subst permission'. rewrite Hl in E. simpl in E.
  unfold lookup_walk in E.
  pose proof (walk_exact snapshot rels (Hreads := snapshot_reads _ _ Hserves) (serves_good _ _ Hserves)
    resource permission t limits Hfan Hroom M Hstep) as Hw.
  destruct (walk_relation _ _ _ _ _ _ _ _ _) as [[a|e] s]; [|done]. injection E as ->.
  destruct (Hw) with (a := a) (s' := s) as [Hs Hc].
  - intros c u m Hok Hi Hsn Hm E. destruct (Hcheck c u m Hok Hi Hsn Hm E) as [Hne <-].
    by destruct m.
  - apply served_operands.
  - exact Hfounded.
  - done.
  - split; [exact Hs|]. intros Hlt Hno t' u Ht' Hu Hroot.
    assert (t' = t) as -> by (apply ident_eq; congruence).
    apply Hc; [done| |done|done]. intros E. apply Hno. congruence.
Qed.

Lemma positive_lookup st l : positive_schema defs →
  lookup_subjects_with_snapshot snapshot
    (mkLookupSubjects resource (mkRelation (as_str permission)) st) limits = Ok l →
  lists_exactly st (member defs rels) (subjects l).
Proof.
  intros Hpos Hl. apply (positive_compiled _ _ Hserves) in Hpos.
  assert (lists_exactly st (member cdefs rels) (subjects l)) as [Hs Hc].
  { apply lookup_answer; [| | |exact Hl].
    - intros u o rel. apply (member_reading _ _ _ Hpos o rel).
    - done.
    - intros c u m Hok Hi Hsn Hm E.
      pose proof (check_post snapshot defs Hserves u (ctx_limits c) any_memo any_error _ _ _ _ c resource
        permission (positive_interpretation snapshot u (ctx_limits c) Hpos) Hok Hi) as Hp.
      unfold evals, wp in Hp. destruct (check _ _ _ _ c) as [r c']. simpl in E. subst r.
      destruct Hp as (_ & Ha & Hu & Hn); [done|done|done|by rewrite Hm; intros [? ?]|done|].
      split; [done|]. split; [done|]. intros [n Hn']. apply Hu. exists n. split; [done|].
      by intros q ?%not_elem_of_nil. }
  unfold lists_exactly. setoid_rewrite <- (member_compiled snapshot defs Hserves). by split.
Qed.

Variable rank : Object → RelationName → nat.
Hypothesis Hrank : ∀ o rel o' rel', leads_to defs rels o rel o' rel' → rank o' rel' < rank o rel.
Variable M : User → Members.
Hypothesis HM : ∀ u, reading defs rels u (M u).

Lemma leads_acc : ∀ p : Object * RelationName,
  Acc (λ q p, leads_to cdefs rels p.1 p.2 q.1 q.2) p.
Proof.
  intros p. remember (S (rank p.1 p.2)) as r eqn:E.
  assert (rank p.1 p.2 < r) as Hr by lia. clear E. revert p Hr.
  induction r as [|r IH]; intros p Hr; [lia|]. constructor. intros q Hq. apply IH.
  apply (leads_to_compiled _ _ Hserves), Hrank in Hq. lia.
Qed.

Lemma ranked_founded u o rel : M u o rel → ∃ n, member_n cdefs rels u n o rel.
Proof.
  intros Hm. exists (S (rank o rel)). change (ranked_member cdefs rels rank u o rel).
  apply (readings_agree cdefs rels u (M u)); [| |apply leads_acc|done].
  - intros o' rel'. rewrite (step_compiled _ _ Hserves). apply HM.
  - apply ranked_reading. intros o1 r1 o2 r2 Hl. apply Hrank. by apply (leads_to_compiled _ _ Hserves).
Qed.

Lemma ranked_lookup st l :
  lookup_subjects_with_snapshot snapshot
    (mkLookupSubjects resource (mkRelation (as_str permission)) st) limits = Ok l →
  lists_exactly st M (subjects l).
Proof.
  apply lookup_answer; [|apply ranked_founded|].
  - intros u o rel. rewrite (step_compiled _ _ Hserves). apply HM.
  - intros c u m Hok Hi Hsn Hm E.
    pose proof (wf_check snapshot defs Hserves rank Hrank M HM c resource permission u Hok Hi) as Hp.
    unfold evals, wp in Hp. destruct (check _ _ _ _ c) as [r c']. simpl in E. subst r.
    destruct Hp as (_ & Ha & Hu & Hn); [|done|done].
    intros memo k e Hmemo. by rewrite Hm in Hmemo.
Qed.
End answer.

(** C13: for a snapshot of a compiled schema without exclusion and a reachable view
    in which no deleted relationship still in the checkpoint names the same user as
    a live one on the same resource and relation ([tombstones_apart]) and each
    relation of an object with deleted rows still in the checkpoint has, those
    included, at most as many rows as the fanout limit ([fanout_room]), and for a
    fanout limit below [u32::MAX]: every subject a lookup of subjects lists is a
    member of the permission, in the least reading of the source schema over the
    view's relationships, whatever cycles they form; and when fewer subjects are
    listed than the result limit allows, every member of the requested type is
    listed, for the type [user] provided that no relationship has a subject such as
    [user:a#r] (see [lookup_subjects_misses]). In particular the candidates that are
    not checked need no check, and the usersets the walk visits once are enough. *)
Theorem lookup_subjects_exact snapshot defs o (rel : RelationName) st limits l :
  serves snapshot defs → positive_schema defs →
  (nz_get (max_fanout_per_step limits) < u32_max)%Z →
  fanout_room (snapshot_relationships snapshot) limits →
  lookup_subjects_with_snapshot snapshot (mkLookupSubjects o (mkRelation (as_str rel)) st) limits =
    Ok l →
  (∀ u, u ∈ subjects l → member defs (rels_of snapshot) u o rel) ∧
  ((Z.of_nat (length (subjects l)) < nz_get (max_lookup_results limits))%Z →
   (st = "user" → no_user_sets (rels_of snapshot)) →
   ∀ (t : SubjectType) u, as_str t = st → of_type t u → member defs (rels_of snapshot) u o rel →
     u ∈ subjects l).
Proof. intros Hs Hpos Hf Hroom Hl. by apply (positive_lookup snapshot defs Hs o rel limits Hf Hroom). Qed.

(** C14: for a snapshot of any compiled schema, exclusions and intersections
    included, and a reachable view in which no deleted relationship still in the
    checkpoint names the same user as a live one on the same resource and relation
    ([tombstones_apart]) and each relation of an object with deleted rows still in
    the checkpoint has, those included, at most as many rows as the fanout limit
    ([fanout_room]), and for a fanout limit below [u32::MAX]: on well-founded data,
    a lookup of subjects that answers lists only subjects that have the permission
    in the reading of the schema; and when fewer are listed than the result limit
    allows, every subject of the requested type that has it, for the type [user]
    provided that no relationship has a subject such as [user:a#r]. *)
Theorem lookup_subjects_well_founded snapshot defs rank M o (rel : RelationName) st limits l :
  serves snapshot defs →
  (∀ o rel o' rel', leads_to defs (rels_of snapshot) o rel o' rel' → rank o' rel' < rank o rel) →
  (∀ u, reading defs (rels_of snapshot) u (M u)) →
  (nz_get (max_fanout_per_step limits) < u32_max)%Z →
  fanout_room (snapshot_relationships snapshot) limits →
  lookup_subjects_with_snapshot snapshot (mkLookupSubjects o (mkRelation (as_str rel)) st) limits =
    Ok l →
  (∀ u, u ∈ subjects l → M u o rel) ∧
  ((Z.of_nat (length (subjects l)) < nz_get (max_lookup_results limits))%Z →
   (st = "user" → no_user_sets (rels_of snapshot)) →
   ∀ (t : SubjectType) u, as_str t = st → of_type t u → M u o rel → u ∈ subjects l).
Proof. 
  intros Hs Hrank HM Hf Hroom Hl.
  by apply (ranked_lookup snapshot defs Hs o rel limits Hf Hroom rank Hrank M HM).
 Qed.
End lookup.

(** ** Concrete inputs *)

Module LookupExample.
Export CheckExample.

Definition viewer : RelationName := rel "viewer".
Definition friend : RelationName := rel "friend".
Definition doc : Object := mkObject "doc" "x".

(** Users who have friends, and documents. *)
Definition friends : list NamespaceDefinition :=
  [mkNamespaceDefinition (obj_type "user") [relation_definition_new friend None];
   mkNamespaceDefinition (obj_type "doc") [relation_definition_new viewer None]].

(** The friends of [alice] may view the document. *)
Definition befriended : PublishedSnapshot :=
  snapshot_of friends ["doc:x#viewer@user:alice#friend"].

Definition lookup_users (snapshot : PublishedSnapshot) (o : Object) (r : RelationName) : result EvalStop LookupSubjects :=
  lookup_subjects_with_snapshot snapshot (mkLookupSubjects o (mkRelation (as_str r)) "user")
    limits_default.

Definition lists (snapshot : PublishedSnapshot) (o : Object) (r : RelationName) (us : list User) : bool :=
  match lookup_users snapshot o r with
  | Ok l => bool_decide (subjects l = us)
  | Err _ => false
  end.

Lemma lists_spec snapshot o r us : lists snapshot o r us = true →
  lookup_users snapshot o r = Ok (mkSubjects us).
Proof.
  unfold lists. destruct (lookup_users _ _ _) as [[l]|]; [|done].
  by intros Hl%bool_decide_eq_true; simpl in Hl; subst.
Qed.
End LookupExample.
Import LookupExample.

(** without the condition on the data the lookup can miss a user that a
    check admits: when the friends of a user may view a document, a check that
    the user may view it answers [Allowed], because the filter for a user leaves
    the relation of the subject open; the lookup, which reads the subject as a
    userset, lists the userset and not the user. *)
Theorem lookup_subjects_misses :
  ∃ snapshot defs o (rel : RelationName) i l,
    serves snapshot defs ∧ positive_schema defs ∧
    rels_of snapshot = omap (λ s, match relationship_from_str s with Ok r => Some r | Err _ => None end)
      ["doc:x#viewer@user:alice#friend"] ∧
    check_with_snapshot snapshot o (mkRelation (as_str rel)) (UserId i) limits_default = Ok Allowed ∧
    lookup_subjects_with_snapshot snapshot (mkLookupSubjects o (mkRelation (as_str rel)) "user")
      limits_default = Ok l ∧
    (Z.of_nat (length (subjects l)) < nz_get (max_lookup_results limits_default))%Z ∧
    UserId i ∉ subjects l.
Proof.
  assert (lookup_users befriended doc viewer =
    Ok (mkSubjects [Userset (mkObject "user" "alice") (mkRelation "friend")])) as Hl
    by (apply lists_spec; vm_compute; reflexivity).
  exists befriended, friends, doc, viewer, "alice",
    (mkSubjects [Userset (mkObject "user" "alice") (mkRelation "friend")]).
  split; [apply serves_of; vm_compute; reflexivity|].
  split; [apply positive_schemab_positive; vm_compute; reflexivity|].
  split; [vm_compute; reflexivity|]. split; [vm_compute; reflexivity|].
  split; [exact Hl|]. split; [apply Z.ltb_lt; vm_compute; reflexivity|].
  by intros [=]%list_elem_of_singleton.
Qed.

(** Every subject of the example is a group or a plain user. *)
Definition no_user_setsb (rels : list Relationship) : bool :=
  forallb (λ r, match userset_of (subject r) with
                | Some (o, _) => negb (bool_decide (namespace o = "user"))
                | None => true end) rels.

Lemma no_user_setsb_spec rels : no_user_setsb rels = true → no_user_sets rels.
Proof.
  unfold no_user_setsb. rewrite forallb_forall. intros Hb r Hr%list_elem_of_In o rel Hu.
  specialize (Hb r Hr). rewrite Hu in Hb. by case_bool_decide.
Qed.

Lemma lookup_subjects_exact_witness :
  lookup_users cyclic (group "d") member_of = Ok (mkSubjects [alice]) ∧
  member groups (rels_of cyclic) alice (group "d") member_of ∧
  ¬ member groups (rels_of cyclic) (UserId "bob") (group "d") member_of.
Proof.
  assert (lookup_users cyclic (group "d") member_of = Ok (mkSubjects [alice])) as Hl
    by (apply lists_spec; vm_compute; reflexivity).
  assert (serves cyclic groups) as Hs by (apply serves_of; vm_compute; reflexivity).
  assert (nz_get (max_fanout_per_step limits_default) < u32_max)%Z as Hf
    by (apply Z.ltb_lt; vm_compute; reflexivity).
  assert (fanout_room (snapshot_relationships cyclic) limits_default) as Hroom
    by (eapply bool_decide_eq_true_1; vm_compute; reflexivity).
  destruct (lookup_subjects_exact cyclic groups (group "d") member_of "user" limits_default
    (mkSubjects [alice]) Hs groups_positive Hf Hroom Hl) as [Hsound Hcomplete].
  split; [exact Hl|]. split; [apply Hsound; left|]. intros Hm.
  assert (UserId "bob" ∈ [alice]) as Hb.
  { apply (Hcomplete ltac:(apply Z.ltb_lt; vm_compute; reflexivity)) with
      (t := @mkIdent KSubjectType "user" I); [|reflexivity|reflexivity|exact Hm].
    intros _. apply no_user_setsb_spec. vm_compute. reflexivity. }
  apply list_elem_of_singleton in Hb. discriminate Hb.
Defined.

Import BannedExample.

Lemma lookup_subjects_well_founded_witness :
  lookup_users snapshot readme can_view = Ok (mkSubjects [alice]) ∧
  reads alice readme can_view ∧ ¬ reads (UserId "bob") readme can_view.
Proof.
  assert (lookup_users snapshot readme can_view = Ok (mkSubjects [alice])) as Hl
    by (apply lists_spec; vm_compute; reflexivity).
  assert (nz_get (max_fanout_per_step limits_default) < u32_max)%Z as Hf
    by (apply Z.ltb_lt; vm_compute; reflexivity).
  assert (fanout_room (snapshot_relationships snapshot) limits_default) as Hroom
    by (eapply bool_decide_eq_true_1; vm_compute; reflexivity).
  destruct (lookup_subjects_well_founded snapshot defs rank reads readme can_view "user" limits_default
    (mkSubjects [alice]) served ranked reads_reading Hf Hroom Hl) as [Hsound Hcomplete].
  split; [exact Hl|]. split; [apply Hsound; left|]. intros Hm.
  assert (UserId "bob" ∈ [alice]) as Hb.
  { apply (Hcomplete ltac:(apply Z.ltb_lt; vm_compute; reflexivity)) with
      (t := @mkIdent KSubjectType "user" I); [|reflexivity|reflexivity|exact Hm].
    intros _. apply no_user_setsb_spec. vm_compute. reflexivity. }
  apply list_elem_of_singleton in Hb. discriminate Hb.
Defined.
