(* ===== verification/LookupPlan.v ===== *)
(** * The schema analysis of resource lookups (src/src/eval.rs)

    What a lookup of resources computes from the schema before and while it
    follows relationships backwards: which relations of an object include
    another, which relations reach an object through a tupleset, and the producer
    plan: from which relations a resource can get the permission, and what is left
    to check of a candidate found through each of them. *)

From S2P Require Import Prelude Model Domain Schema StoreTypes Row Store StoreView.
From S2P Require Import EvalContext Eval LookupSubjects.

(** ** Verification of candidates *)

Inductive LookupResidualExpected := ExpectAllowed | ExpectDenied.

Record LookupResidualCheck := mkResidual {
  residual_context : RelationName;
  residual_expression : CompiledUsersetExpression;
  residual_expected : LookupResidualExpected
}.

Inductive LookupCandidateVerification :=
| FullRoot
| ProvenWithoutCheck
| Residual (residuals : list LookupResidualCheck).

#[global] Instance LookupResidualExpected_eq_dec : EqDecision LookupResidualExpected.
Proof. solve_decision. Defined.

(** [CompiledUsersetExpression]'s derived equality. *)
Section list_eqb.
Context {A : Type}.
Variable eqb : A → A → bool.
Fixpoint list_eqb (xs ys : list A) : bool :=
  match xs, ys with
  | [], [] => true
  | x :: xs, y :: ys => eqb x y && list_eqb xs ys
  | _, _ => false
  end.
End list_eqb.

Fixpoint expression_eqb (x y : CompiledUsersetExpression) : bool :=
  match x, y with
  | CThis, CThis => true
  | CComputedUserset r i h, CComputedUserset r' i' h' =>
      bool_decide (r = r') && bool_decide (i = i') && bool_decide (h = h')
  | CTupleToUserset r i c, CTupleToUserset r' i' c' =>
      bool_decide (r = r') && bool_decide (i = i') && bool_decide (c = c')
  | CUnion es, CUnion es' | CIntersection es, CIntersection es' => list_eqb expression_eqb es es'
  | CExclusion b e, CExclusion b' e' => expression_eqb b b' && expression_eqb e e'
  | _, _ => false
  end.

Lemma list_eqb_eq {A} (eqb : A → A → bool) xs :
  Forall (λ x, ∀ y, eqb x y = true ↔ x = y) xs → ∀ ys, list_eqb eqb xs ys = true ↔ xs = ys.
Proof.
  induction 1 as [|x xs Hx _ IH]; intros [|y ys]; simpl; try done.
  rewrite andb_true_iff, Hx, IH. naive_solver.
Qed.

Lemma expression_eqb_eq x : ∀ y, expression_eqb x y = true ↔ x = y.
Proof.
  induction x as [|r i h|r i c|es IH|es IH|b e IHb IHe] using compiled_induction; intros [];
    simpl; try done; rewrite ?andb_true_iff, ?bool_decide_eq_true, ?IHb, ?IHe;
    try (rewrite list_eqb_eq by done); naive_solver.
Qed.

#[global] Instance CompiledUsersetExpression_eq_dec : EqDecision CompiledUsersetExpression.
Proof.
  refine (λ x y, cast_if (decide (expression_eqb x y = true))); abstract (by rewrite <- expression_eqb_eq).
Defined.

#[global] Instance LookupResidualCheck_eq_dec : EqDecision LookupResidualCheck.
Proof. solve_decision. Defined.

(** [with_residual], [with_required_allowed], [with_required_denied] *)
Definition with_residual (residual : LookupResidualCheck) (v : LookupCandidateVerification)
    : LookupCandidateVerification :=
  match v with
  | FullRoot => FullRoot
  | ProvenWithoutCheck => Residual [residual]
  | Residual residuals => Residual (residuals ++ [residual])
  end.
Definition with_required_allowed (context : RelationName) (e : CompiledUsersetExpression)
    : LookupCandidateVerification → LookupCandidateVerification :=
  with_residual (mkResidual context e ExpectAllowed).
Definition with_required_denied (context : RelationName) (e : CompiledUsersetExpression)
    : LookupCandidateVerification → LookupCandidateVerification :=
  with_residual (mkResidual context e ExpectDenied).

Definition union_merge (v w : LookupCandidateVerification) : LookupCandidateVerification :=
  match v, w with
  | ProvenWithoutCheck, _ | _, ProvenWithoutCheck => ProvenWithoutCheck
  | Residual rs, Residual rs' => if decide (rs = rs') then Residual rs else FullRoot
  | _, _ => FullRoot
  end.

Record LookupVerificationRule := mkRule {
  rule_relation : RelationName;
  rule_verification : LookupCandidateVerification
}.

Definition map_rule (f : LookupCandidateVerification → LookupCandidateVerification)
    (r : LookupVerificationRule) : LookupVerificationRule :=
  mkRule (rule_relation r) (f (rule_verification r)).

(** [merge_lookup_verification_rules] *)
Fixpoint merge_rule (merged : list LookupVerificationRule) (rule : LookupVerificationRule)
    : list LookupVerificationRule :=
  match merged with
  | [] => [rule]
  | existing :: merged =>
      if decide (rule_relation existing = rule_relation rule)
      then map_rule (λ v, union_merge v (rule_verification rule)) existing :: merged
      else existing :: merge_rule merged rule
  end.

Definition merge_rules (rules : list LookupVerificationRule) : list LookupVerificationRule :=
  foldl merge_rule [] rules.

Definition is_full_root (r : LookupVerificationRule) : bool :=
  match rule_verification r with FullRoot => true | _ => false end.

(** ** The rules of a relation *)

Section rules.
Variable cs : CompiledSchema.

(** [None]: the relation is not planned for. *)
Abbreviation Rules := (option (list LookupVerificationRule)).

Definition proven (rel : RelationName) : list LookupVerificationRule :=
  [mkRule rel ProvenWithoutCheck].

Section lists.
Variable collect : CompiledUsersetExpression → result EvalStop Rules.

(** The loop of the union arm. *)
Fixpoint collect_union (rules : list LookupVerificationRule) (es : list CompiledUsersetExpression)
    : result EvalStop Rules :=
  match es with
  | [] => Ok (Some rules)
  | e :: es =>
      child ← collect e;
      match child with
      | None => Ok None
      | Some child => collect_union (rules ++ child) es
      end
  end.

(** The operands of an intersection other than the seed guard its rules. *)
Definition guard_rules (current : RelationName) (seed : nat) (guards : list CompiledUsersetExpression)
    (rules : list LookupVerificationRule) : list LookupVerificationRule :=
  foldl (λ rules '(i, guard), if decide (i = seed) then rules
                              else map (map_rule (with_required_allowed current guard)) rules)
    rules (imap pair guards).

(** [collect_intersection_verification_rules] *)
Fixpoint collect_intersection (current : RelationName) (all : list CompiledUsersetExpression)
    (seed : nat) (es : list CompiledUsersetExpression) : result EvalStop Rules :=
  match es with
  | [] => Ok None
  | e :: es =>
      rules ← collect e;
      match rules with
      | None => collect_intersection current all (S seed) es
      | Some rules =>
          if existsb is_full_root rules then collect_intersection current all (S seed) es
          else Ok (Some (guard_rules current seed all rules))
      end
  end.
End lists.

Section expression.
(** The rules of a relation, by its id. *)
Variable relation_rules : SchemaRelationId → RelationDefinition → gset SchemaRelationId →
  result EvalStop Rules.

(** [collect_expression_verification_rules] *)
Fixpoint expression_rules (current : RelationName) (visiting : gset SchemaRelationId)
    (e : CompiledUsersetExpression) : result EvalStop Rules :=
  match e with
  | CThis => Ok (Some (proven current))
  | CComputedUserset rel rid target_has_rewrite =>
      if negb target_has_rewrite then Ok (Some (proven rel)) else
      rd ← definition_by_id cs rid;
      relation_rules rid rd visiting
  | CUnion es => collect_union (expression_rules current visiting) [] es
  | CExclusion base exclude =>
      rules ← expression_rules current visiting base;
      Ok (fmap (M:=option) (map (map_rule (with_required_denied current exclude))) rules)
  | CTupleToUserset tupleset _ _ => Ok (Some [mkRule tupleset FullRoot])
  | CIntersection es => collect_intersection (expression_rules current visiting) current es 0 es
  end.
End expression.

(** [collect_relation_verification_rules]; as for [relation_requires], the fuel
    bounds the relations expanded inside each other. *)
Fixpoint relation_rules (fuel : nat) (rid : SchemaRelationId) (rd : RelationDefinition)
    (visiting : gset SchemaRelationId) : result EvalStop Rules :=
  match fuel with
  | O => Err OutOfFuel
  | S fuel =>
      if decide (rid ∈ visiting) then Ok None else
      rules ← match rd_compiled_userset_rewrite rd with
              | Some e => expression_rules (relation_rules fuel) (rd_name rd) ({[rid]} ∪ visiting) e
              | None => Ok (Some (proven (rd_name rd)))
              end;
      Ok (fmap (M:=option) merge_rules rules)
  end.

Record LookupProducerPlan := mkPlan {
  plan_relations : list RelationName;
  plan_rules : list LookupVerificationRule
}.

(** The relations of the rules, each once. *)
Definition rule_relations (rules : list LookupVerificationRule) : list RelationName :=
  foldl (λ rels rule, if decide (rule_relation rule ∈ rels) then rels
                      else rels ++ [rule_relation rule]) [] rules.

(** [lookup_producer_plan] *)
Definition lookup_producer_plan (t : ObjectType) (permission : RelationName)
    : result EvalStop (option LookupProducerPlan) :=
  rid ← lift_stop (map_err ZSchema (resolver_relation_id (cs_resolver cs) t permission));
  rd ← definition_by_id cs rid;
  rules ← relation_rules (schema_fuel cs) rid rd ∅;
  match rules with
  | None | Some [] => Ok None
  | Some rules => Ok (Some (mkPlan (rule_relations rules) rules))
  end.

(** ** Relations that include another of the same object *)

Section include.
Variable source : RelationName.

Section expression.
Variable id_can_include : SchemaRelationId → gset SchemaRelationId → result EvalStop bool.

(** [expression_can_include_same_object_relation] *)
Fixpoint expression_can_include (current : RelationName) (visiting : gset SchemaRelationId)
    (e : CompiledUsersetExpression) : result EvalStop bool :=
  match e with
  | CThis => Ok (bool_decide (current = source))
  | CComputedUserset rel rid target_has_rewrite =>
      if decide (rel = source) then Ok true
      else if negb target_has_rewrite then Ok false
      else id_can_include rid visiting
  | CUnion es | CIntersection es => any_requires (expression_can_include current visiting) es
  | CExclusion base _ => expression_can_include current visiting base
  | CTupleToUserset _ _ _ => Ok false
  end.
End expression.

(** [relation_id_can_include_same_object_relation] *)
Fixpoint relation_id_can_include (fuel : nat) (rid : SchemaRelationId)
    (visiting : gset SchemaRelationId) : result EvalStop bool :=
  match fuel with
  | O => Err OutOfFuel
  | S fuel =>
      if decide (rid ∈ visiting) then Ok false else
      rd ← definition_by_id cs rid;
      match rd_compiled_userset_rewrite rd with
      | None => Ok false
      | Some e =>
          expression_can_include (relation_id_can_include fuel) (rd_name rd) ({[rid]} ∪ visiting) e
      end
  end.

(** The loop of [compute_same_object_relation_expansions]. *)
Fixpoint including_relations (t : ObjectType) (rds : list RelationDefinition)
    : result EvalStop (list RelationName) :=
  match rds with
  | [] => Ok []
  | rd :: rds =>
      if decide (rd_name rd = source) then including_relations t rds else
      rid ← lift_stop (map_err ZSchema (resolver_relation_id (cs_resolver cs) t (rd_name rd)));
      b ← relation_id_can_include (schema_fuel cs) rid ∅;
      rels ← including_relations t rds;
      Ok (if (b : bool) then rd_name rd :: rels else rels)
  end.

(** [compute_same_object_relation_expansions] *)
Definition same_object_relations (t : ObjectType) : result EvalStop (list RelationName) :=
  rds ← lift_stop (map_err ZSchema (sorted_relations (cs_resolver cs) t));
  including_relations t rds.

(** [relation_name_can_include_same_object_relation] *)
Definition relation_name_can_include (t : ObjectType) (rel : RelationName) : result EvalStop bool :=
  if decide (rel = source) then Ok true else
  match resolver_relation_id (cs_resolver cs) t rel with
  | Err _ => Ok false
  | Ok rid => relation_id_can_include (schema_fuel cs) rid ∅
  end.

(** ** Relations that reach an object through a tupleset *)

Record TupleToUsersetExpansionTarget := mkTarget {
  target_resource_type : ObjectType;
  target_tupleset_relation : RelationName;
  target_computed_relation : RelationName;
  target_relation : RelationName
}.

Variable intermediate : ObjectType.

Section targets.
Variable collect : CompiledUsersetExpression → result EvalStop (list TupleToUsersetExpansionTarget).
Fixpoint collect_targets (es : list CompiledUsersetExpression)
    : result EvalStop (list TupleToUsersetExpansionTarget) :=
  match es with
  | [] => Ok []
  | e :: es => ts ← collect e; ts' ← collect_targets es; Ok (ts ++ ts')
  end.
End targets.

Section expression.
Variable id_targets : SchemaRelationId → gset SchemaRelationId →
  result EvalStop (list TupleToUsersetExpansionTarget).

(** [collect_tuple_to_userset_expression_expansions], for a relation of an owner
    type. *)
Fixpoint expression_targets (owner : ObjectType) (owner_relation : RelationName)
    (visiting : gset SchemaRelationId) (e : CompiledUsersetExpression)
    : result EvalStop (list TupleToUsersetExpansionTarget) :=
  match e with
  | CThis => Ok []
  | CComputedUserset _ rid target_has_rewrite =>
      if negb target_has_rewrite then Ok [] else
      if decide (rid ∈ visiting) then Ok [] else
      id_targets rid ({[rid]} ∪ visiting)
  | CTupleToUserset tupleset _ computed =>
      b ← relation_name_can_include intermediate computed;
      Ok (if (b : bool) then [mkTarget owner tupleset computed owner_relation] else [])
  | CUnion es | CIntersection es => collect_targets (expression_targets owner owner_relation visiting) es
  | CExclusion base _ => expression_targets owner owner_relation visiting base
  end.
End expression.

(** The relation a computed userset refers to, once it is marked as visited. *)
Fixpoint id_targets (fuel : nat) (owner : ObjectType) (owner_relation : RelationName)
    (rid : SchemaRelationId) (visiting : gset SchemaRelationId)
    : result EvalStop (list TupleToUsersetExpansionTarget) :=
  match fuel with
  | O => Err OutOfFuel
  | S fuel =>
      rd ← definition_by_id cs rid;
      match rd_compiled_userset_rewrite rd with
      | None => Ok []
      | Some e => expression_targets (id_targets fuel owner owner_relation) owner owner_relation visiting e
      end
  end.

(** [collect_tuple_to_userset_relation_expansions], from the outside. *)
Definition relation_targets (owner : ObjectType) (rd : RelationDefinition)
    : result EvalStop (list TupleToUsersetExpansionTarget) :=
  match rd_compiled_userset_rewrite rd with
  | None => Ok []
  | Some e =>
      expression_targets (id_targets (schema_fuel cs) owner (rd_name rd)) owner (rd_name rd) ∅ e
  end.

Fixpoint relations_targets (owner : ObjectType) (rds : list RelationDefinition)
    : result EvalStop (list TupleToUsersetExpansionTarget) :=
  match rds with
  | [] => Ok []
  | rd :: rds => ts ← relation_targets owner rd; ts' ← relations_targets owner rds; Ok (ts ++ ts')
  end.

Fixpoint definitions_targets (defs : list NamespaceDefinition)
    : result EvalStop (list TupleToUsersetExpansionTarget) :=
  match defs with
  | [] => Ok []
  | ns :: defs =>
      ts ← relations_targets (ns_name ns) (ns_relations ns); ts' ← definitions_targets defs; Ok (ts ++ ts')
  end.

(** [compute_tuple_to_userset_relation_expansions] *)
Definition tuple_to_userset_targets : result EvalStop (list TupleToUsersetExpansionTarget) :=
  definitions_targets (cs_definitions cs).
End include.
End rules.
