(* ===== verification/LookupPlanInv.v ===== *)
(** * The schema analysis of a resource lookup

    Every analysis of the schema ends within its fuel, and the rules of a producer
    plan are sound: an object that grants a rule's relation to the user directly,
    and passes what the rule leaves to check, has the permission. *)

From S2P Require Import Prelude Model Domain Schema StoreTypes Row Store StoreView.
From S2P Require Import EvalContext Eval EvalReads EvalSpec EvalSound.
From S2P Require Import LookupSubjects LookupSubjectsInv LookupSubjectsSound LookupPlan.

(** ** The analyses end *)

Lemma reached_bind {A B} (r : result EvalStop A) (f : A → result EvalStop B) :
  reached r → (∀ a, r = Ok a → reached (f a)) → reached (a ← r; f a).
Proof.
  intros Hr Hf. unfold reached in *. destruct r as [a|e]; simpl; [by apply Hf|].
  intros [= ->]. by apply Hr.
Qed.

Lemma reached_ok {A} (a : A) : reached (Ok a).
Proof. discriminate. Qed.

Lemma reached_lift {A} (r : result ZanzibarError A) : reached (lift_stop r).
Proof. by destruct r. Qed.

Create HintDb reaches discriminated.
#[export] Hint Resolve reached_bind reached_ok reached_lift : reaches.

Lemma definition_by_id_reached cs rid : reached (definition_by_id cs rid).
Proof. destruct (definition_by_id_cases cs rid) as [(rd & _ & ->)|[z ->]]; done. Qed.
#[export] Hint Resolve definition_by_id_reached : reaches.

Lemma definition_by_id_Ok cs rid rd :
  definition_by_id cs rid = Ok rd → relation_by_id (cs_resolver cs) rid = Some rd.
Proof. destruct (definition_by_id_cases cs rid) as [(rd' & Hby & ->)|[z ->]]; congruence. Qed.

Section reached.
Variable cs : CompiledSchema.

Lemma collect_union_reached collect es : Forall (λ e, reached (collect e)) es →
  ∀ rules, reached (collect_union collect rules es).
Proof.
  induction 1 as [|e es He _ IH]; intros rules; simpl; [auto with reaches|].
  apply reached_bind; [done|]. intros [child|] _; auto with reaches.
Qed.

Lemma collect_intersection_reached collect current all es :
  Forall (λ e, reached (collect e)) es →
  ∀ seed, reached (collect_intersection collect current all seed es).
Proof.
  induction 1 as [|e es He _ IH]; intros seed; simpl; [auto with reaches|].
  apply reached_bind; [done|]. intros [rules|] _; [|done].
  destruct (existsb _ _); auto with reaches.
Qed.

Lemma relation_rules_reached fuel : ∀ rid rd visiting,
  expanding cs fuel visiting → rid ∈ schema_ids cs → reached (relation_rules cs fuel rid rd visiting).
Proof.
  induction fuel as [|fuel IH]; intros rid rd visiting Hv Hr;
    [by pose proof (expanding_fuel _ _ _ Hv); lia|]. cbn [relation_rules].
  destruct (decide (rid ∈ visiting)) as [|Hn]; [done|].
  apply reached_bind; [|auto with reaches].
  destruct (rd_compiled_userset_rewrite rd) as [e|]; [|done].
  pose proof (expanding_next _ _ _ _ Hv Hn Hr) as Hv'. generalize (rd_name rd) as current.
  induction e as [|rel rid' h|ts rid' cm|es IHes|es IHes|b x IHb _] using compiled_induction;
    intros current; simpl; try done.
  - destruct (negb h); [done|]. apply reached_bind; [auto with reaches|].
    intros rd' Hrd. apply IH; [done|]. by eapply elem_of_schema_ids, definition_by_id_Ok.
  - apply collect_union_reached. by eapply Forall_impl; [exact IHes|]; intros e He; apply He.
  - apply collect_intersection_reached. by eapply Forall_impl; [exact IHes|]; intros e He; apply He.
  - apply reached_bind; auto with reaches.
Qed.

Lemma producer_plan_reached t permission : reached (lookup_producer_plan cs t permission).
Proof.
  unfold lookup_producer_plan. apply reached_bind; [auto with reaches|]. intros rid _.
  apply reached_bind; [auto with reaches|]. intros rd Hrd. apply reached_bind.
  - apply relation_rules_reached; [apply expanding_start|]. by eapply elem_of_schema_ids, definition_by_id_Ok.
  - by intros [[|]|] _.
Qed.

(** *** Relations that include another *)

Lemma can_include_reached source fuel : ∀ rid visiting,
  expanding cs fuel visiting → reached (relation_id_can_include cs source fuel rid visiting).
Proof.
  induction fuel as [|fuel IH]; intros rid visiting Hv;
    [by pose proof (expanding_fuel _ _ _ Hv); lia|]. cbn [relation_id_can_include].
  destruct (decide (rid ∈ visiting)) as [|Hn]; [done|].
  apply reached_bind; [auto with reaches|]. intros rd Hrd%definition_by_id_Ok%elem_of_schema_ids.
  destruct (rd_compiled_userset_rewrite rd) as [e|]; [|done].
  pose proof (expanding_next _ _ _ _ Hv Hn Hrd) as Hv'. generalize (rd_name rd) as current.
  induction e as [|rel rid' h|ts rid' cm|es IHes|es IHes|b x IHb _] using compiled_induction;
    intros current; simpl; try done.
  - destruct (decide _); [done|]. destruct (negb h); [done|by apply IH].
  - apply any_requires_reached. by eapply Forall_impl; [exact IHes|]; intros e He; apply He.
  - apply any_requires_reached. by eapply Forall_impl; [exact IHes|]; intros e He; apply He.
Qed.

Lemma including_reached source t rds : reached (including_relations cs source t rds).
Proof.
  induction rds as [|rd rds IH]; cbn [including_relations]; [done|]. destruct (decide _); [done|].
  apply reached_bind; [auto with reaches|]. intros rid _. apply reached_bind.
  - apply can_include_reached, expanding_start.
  - auto with reaches.
Qed.

Lemma same_object_reached source t : reached (same_object_relations cs source t).
Proof. apply reached_bind; [auto with reaches|]. intros rds _. apply including_reached. Qed.

(** The relations found are relations of the type. *)
Lemma including_subset source t rds names :
  including_relations cs source t rds = Ok names → ∀ n, n ∈ names → n ∈ rd_name <$> rds.
Proof.
  revert names. induction rds as [|rd rds IH]; intros names; simpl.
  - intros [= <-] n. by intros ?%not_elem_of_nil.
  - destruct (decide _).
    { intros Hr n Hn. right. by apply (IH names). }
    intros (rid & _ & (b & _ & (rels & Hrels & [= <-])%bind_Ok)%bind_Ok)%bind_Ok rel.
    destruct b; [intros [->|Hr]%elem_of_cons; [by left|]|intros Hr]; right; by apply (IH rels).
Qed.

(** *** Tuplesets *)

Lemma name_can_include_reached source t rel : reached (relation_name_can_include cs source t rel).
Proof.
  unfold relation_name_can_include. destruct (decide _); [done|].
  destruct (resolver_relation_id _ t rel); [|done]. apply can_include_reached, expanding_start.
Qed.
#[local] Hint Resolve name_can_include_reached : reaches.

Section tuplesets.
Variable source : RelationName.
Variable intermediate : ObjectType.

Lemma collect_targets_reached collect es : Forall (λ e, reached (collect e)) es →
  reached (collect_targets collect es).
Proof. induction 1; simpl; auto with reaches. Qed.

Lemma expression_targets_reached rec owner rel visiting e :
  (∀ rid, rid ∉ visiting → reached (rec rid ({[rid]} ∪ visiting))) →
  reached (expression_targets cs source intermediate rec owner rel visiting e).
Proof.
  intros Hrec. induction e as [|rel' rid h|ts rid cm|es IH|es IH|b x IHb _] using compiled_induction;
    simpl; try done; [|auto with reaches|by apply collect_targets_reached..].
  destruct (negb h); [done|]. destruct (decide (rid ∈ visiting)); [done|by apply Hrec].
Qed.

(** As for [relation_requires], one relation is expanded already. *)
Lemma id_targets_reached owner rel fuel : ∀ rid visiting,
  expanding cs (S fuel) visiting → rid ∉ visiting →
  reached (id_targets cs source intermediate (S fuel) owner rel rid ({[rid]} ∪ visiting)).
Proof.
  induction fuel as [|fuel IH]; intros rid visiting Hv Hn; cbn [id_targets];
    (apply reached_bind; [auto with reaches|]); intros rd Hrd%definition_by_id_Ok%elem_of_schema_ids.
  - pose proof (expanding_fuel _ _ _ (expanding_next _ _ _ _ Hv Hn Hrd)). lia.
  - destruct (rd_compiled_userset_rewrite rd) as [e|]; [|done].
    apply expression_targets_reached. intros rid' Hn'. apply IH; [|done]. by apply expanding_next.
Qed.

Lemma relation_targets_reached owner rd : reached (relation_targets cs source intermediate owner rd).
Proof.
  unfold relation_targets. destruct (rd_compiled_userset_rewrite rd) as [e|]; [|done].
  apply expression_targets_reached. intros rid Hn. apply id_targets_reached; [|done].
  apply expanding_start.
Qed.

Lemma relations_targets_reached owner rds : reached (relations_targets cs source intermediate owner rds).
Proof. induction rds; simpl; auto using relation_targets_reached with reaches. Qed.

Lemma tuple_targets_reached : reached (tuple_to_userset_targets cs source intermediate).
Proof.
  unfold tuple_to_userset_targets. induction (cs_definitions cs); simpl;
    auto using relations_targets_reached with reaches.
Qed.

(** The targets of a relation are for that relation. *)
Definition targets_of (names : list RelationName)
    (r : result EvalStop (list TupleToUsersetExpansionTarget)) : Prop :=
  ∀ ts, r = Ok ts → ∀ t, t ∈ ts → target_relation t ∈ names.

Lemma targets_nil names : targets_of names (Ok []).
Proof. by intros ts [= <-] t ?%not_elem_of_nil. Qed.

Lemma targets_app names r r' :
  targets_of names r → targets_of names r' → targets_of names (ts ← r; ts' ← r'; Ok (ts ++ ts')).
Proof.
  intros H1 H2 ts (ts1 & E1 & (ts2 & E2 & [= <-])%bind_Ok)%bind_Ok t [?|?]%elem_of_app; eauto.
Qed.

Lemma collect_targets_of names collect es : Forall (λ e, targets_of names (collect e)) es →
  targets_of names (collect_targets collect es).
Proof. induction 1; simpl; [apply targets_nil|by apply targets_app]. Qed.

Lemma expression_targets_of rec owner rel visiting e :
  (∀ rid visiting, targets_of [rel] (rec rid visiting)) →
  targets_of [rel] (expression_targets cs source intermediate rec owner rel visiting e).
Proof.
  intros Hrec.
  induction e as [|rel' rid h|ts rid cm|es IH|es IH|b x IHb _] using compiled_induction; simpl;
    [apply targets_nil| | |by apply collect_targets_of|by apply collect_targets_of|done].
  - destruct (negb h); [apply targets_nil|]. destruct (decide _); [apply targets_nil|apply Hrec].
  - intros r ([] & _ & [= <-])%bind_Ok t; [intros [->|[]%not_elem_of_nil]%elem_of_cons|by intros ?%not_elem_of_nil].
    by left.
Qed.

Lemma id_targets_of owner rel fuel : ∀ rid visiting,
  targets_of [rel] (id_targets cs source intermediate fuel owner rel rid visiting).
Proof.
  induction fuel as [|fuel IH]; intros rid visiting; cbn [id_targets]; [done|].
  intros ts (rd & _ & Hts)%bind_Ok. revert ts Hts.
  destruct (rd_compiled_userset_rewrite rd); [by apply expression_targets_of|apply targets_nil].
Qed.

Lemma targets_mono names names' r : (∀ n, n ∈ names → n ∈ names') → targets_of names r → targets_of names' r.
Proof. intros Hn Hr ts Hts t Ht. eapply Hn, Hr; eauto. Qed.

Lemma relations_targets_of owner rds :
  targets_of (rd_name <$> rds) (relations_targets cs source intermediate owner rds).
Proof.
  induction rds as [|rd rds IH]; [apply targets_nil|]. apply targets_app.
  - apply (targets_mono [rd_name rd]); [by intros n ->%list_elem_of_singleton; left|].
    unfold relation_targets. destruct (rd_compiled_userset_rewrite rd); [|apply targets_nil].
    apply expression_targets_of. intros. apply id_targets_of.
  - eapply targets_mono; [|exact IH]. intros n Hn. by right.
Qed.

(** The names of the relations of some definitions. *)
Definition relation_names_of (defs : list NamespaceDefinition) : list RelationName :=
  rd_name <$> concat (ns_relations <$> defs).

Lemma tuple_targets_of :
  targets_of (relation_names_of (cs_definitions cs)) (tuple_to_userset_targets cs source intermediate).
Proof.
  unfold tuple_to_userset_targets, relation_names_of.
  induction (cs_definitions cs) as [|ns defs IH]; [apply targets_nil|].
  cbn [definitions_targets fmap list_fmap concat]. rewrite fmap_app.
  apply targets_app; (eapply targets_mono; [|first [exact IH|apply relations_targets_of]]);
    intros n Hn; apply elem_of_app; auto.
Qed.
End tuplesets.

Lemma same_object_names source t names : same_object_relations cs source t = Ok names →
  ∀ n, n ∈ names → n ∈ relation_names_of (sr_definitions (cs_resolver cs)).
Proof.
  unfold same_object_relations. intros (rds & Hrds%map_err_Ok%map_err_Ok & Hi)%bind_Ok n Hn.
  apply (including_subset _ _ _ _ Hi), list_elem_of_fmap in Hn as (rd & -> & Hrd).
  apply list_elem_of_fmap. exists rd. split; [done|]. unfold sorted_relations in Hrds.
  apply bind_Ok in Hrds as (ns & Hns & (ix & _ & [= <-])%bind_Ok).
  apply list_elem_of_omap in Hrd as (i & _ & Hi'%list_elem_of_lookup_2).
  unfold resolver_namespace in Hns. apply bind_Ok in Hns as (j & _ & Hns%ok_or_Ok%list_elem_of_lookup_2).
  apply list_elem_of_In, in_concat. exists (ns_relations ns). split; apply list_elem_of_In; [|done].
  apply list_elem_of_fmap. by exists ns.
Qed.
End reached.

(** ** The rules of a plan *)

Section rules.
Variable cs : CompiledSchema.
Hypothesis Hschema : schema_good cs.
Variable rels : list Relationship.
Variable u : User.
Variable M : Members.

Abbreviation defs := (cs_definitions cs).
Hypothesis Hstep : ∀ o rel, step defs rels u M M o rel → M o rel.

(** The rows of a relation name the user. *)
Definition direct (o : Object) (rel : RelationName) : Prop :=
  ∃ s, granted rels o rel s ∧ names_user u s.

(** What the verification of a candidate, once passed, says. *)
Definition holds (o : Object) (r : LookupResidualCheck) : Prop :=
  let says := sat rels u M M o (residual_context r) (erase (residual_expression r)) in
  match residual_expected r with ExpectAllowed => says | ExpectDenied => ¬ says end.

Definition verified (o : Object) (v : LookupCandidateVerification) : Prop :=
  match v with
  | FullRoot => False
  | ProvenWithoutCheck => True
  | Residual rs => Forall (holds o) rs
  end.

Lemma with_residual_verified o r v : verified o (with_residual r v) → verified o v ∧ holds o r.
Proof.
  destruct v as [| |rs]; simpl; [done|by rewrite Forall_singleton|].
  by rewrite Forall_app, Forall_singleton.
Qed.

Lemma union_merge_verified o v w : verified o (union_merge v w) → verified o v ∨ verified o w.
Proof. destruct v, w; simpl; try case_decide; simpl; tauto. Qed.

(** *** Where residuals come from *)

Variable t : ObjectType.
Abbreviation objects := (λ o, namespace o = as_str t).

(** [e] is a part of the rewrite of [rel]. *)
Record part_of (rel : RelationName) (e : CompiledUsersetExpression) : Prop := {
  pt_refs : refs_ok defs t e;
  pt_calls o o' rel' : objects o → calls rels o rel (erase e) o' rel' → leads_to defs rels o rel o' rel';
  pt_positive : positive_schema defs → positive (erase e)
}.

(** [rel] leads to [rel'] on the same object. *)
Definition includes : RelationName → RelationName → Prop :=
  rtc (λ rel rel', ∀ o, objects o → leads_to defs rels o rel o rel').

Record residual_fits (rel : RelationName) (r : LookupResidualCheck) : Prop := {
  rs_includes : includes rel (residual_context r);
  rs_part : part_of (residual_context r) (residual_expression r);
  rs_positive : positive_schema defs → residual_expected r = ExpectAllowed
}.

Definition fits (rel : RelationName) (v : LookupCandidateVerification) : Prop :=
  match v with Residual rs => Forall (residual_fits rel) rs | _ => True end.

Lemma fits_includes rel rel' v : includes rel rel' → fits rel' v → fits rel v.
Proof.
  intros Hi. destruct v as [| |rs]; simpl; [done..|]. intros Hf. eapply Forall_impl; [exact Hf|].
  intros r [H1 H2 H3]. split; [by etrans|done|done].
Qed.

Lemma with_residual_fits rel r v : fits rel v → residual_fits rel r → fits rel (with_residual r v).
Proof.
  destruct v as [| |rs]; simpl; [done|by rewrite Forall_singleton|].
  by rewrite Forall_app, Forall_singleton.
Qed.

Lemma union_merge_fits rel v w : fits rel v → fits rel w → fits rel (union_merge v w).
Proof. destruct v, w; simpl; try case_decide; simpl; auto. Qed.

(** *** Sound rules *)

(** A rule under which an object satisfies [P]; its residuals are parts of the
    relations [rel] includes. *)
Record rule_ok (P : Object → Prop) (rel : RelationName) (r : LookupVerificationRule) : Prop := {
  ru_sound o : objects o → direct o (rule_relation r) → verified o (rule_verification r) → P o;
  ru_fits : fits rel (rule_verification r)
}.

Definition rules_ok (P : Object → Prop) (rel : RelationName)
    (res : result EvalStop (option (list LookupVerificationRule))) : Prop :=
  ∀ rules, res = Ok (Some rules) → Forall (rule_ok P rel) rules.

Lemma rule_ok_impl (P Q : Object → Prop) rel r :
  (∀ o, objects o → P o → Q o) → rule_ok P rel r → rule_ok Q rel r.
Proof. intros HPQ [Hs Hf]. split; [eauto|done]. Qed.

Lemma merge_rule_ok P rel merged r : Forall (rule_ok P rel) merged → rule_ok P rel r →
  Forall (rule_ok P rel) (merge_rule merged r).
Proof.
  induction 1 as [|r' merged Hr' Hm IH]; intros Hr; simpl; [by apply Forall_singleton|].
  case_decide as E; (constructor; [|by auto]); [|done].
  destruct Hr as [Hs Hf], Hr' as [Hs' Hf']. split; simpl.
  - intros o Ho Hd [Hv|Hv]%union_merge_verified; [by apply Hs'|]. apply Hs; [done| |done]. by rewrite <- E.
  - by apply union_merge_fits.
Qed.

Lemma merge_rules_ok P rel rules : Forall (rule_ok P rel) rules → Forall (rule_ok P rel) (merge_rules rules).
Proof.
  unfold merge_rules. intros Hr. assert (Forall (rule_ok P rel) []) as Hm by constructor.
  revert Hm. generalize (@nil LookupVerificationRule) as merged.
  induction Hr as [|r rules Hr _ IH]; intros merged Hm; simpl; [done|].
  by apply IH, merge_rule_ok.
Qed.

(** *** The rules of an expression *)

Abbreviation admits rel e := (λ o, sat rels u M M o rel (erase e)).

Lemma declared_rewrites rel rd o : declares defs t rel rd → objects o →
  rewrites_to defs o rel (default This (rd_userset_rewrite rd)).
Proof. intros Hd Ho. by exists t, rd. Qed.

Lemma declared_step rel rd o : declares defs t rel rd → objects o →
  sat rels u M M o rel (default This (rd_userset_rewrite rd)) → M o rel.
Proof. intros Hd Ho Hs. apply Hstep. eexists. split; [by apply declared_rewrites|done]. Qed.

Lemma proven_ok rel : Forall (rule_ok (λ o, sat rels u M M o rel This) rel) (proven rel).
Proof. apply Forall_singleton. split; [|done]. intros o _ Hd _. by left. Qed.

Section expression.
Variable rec : SchemaRelationId → RelationDefinition → gset SchemaRelationId →
  result EvalStop (option (list LookupVerificationRule)).
Hypothesis Hrec : ∀ rid rd visiting rel, declares defs t rel rd →
  rules_ok (λ o, M o rel) rel (rec rid rd visiting).

Lemma part_sub rel e e' :
  part_of rel e → (refs_ok defs t e → refs_ok defs t e') →
  (∀ o o' rel', calls rels o rel (erase e') o' rel' → calls rels o rel (erase e) o' rel') →
  (positive (erase e) → positive (erase e')) → part_of rel e'.
Proof. intros [H1 H2 H3] Hr Hc Hp. split; auto. Qed.

Lemma part_operand rel es e : e ∈ es → part_of rel (CUnion es) ∨ part_of rel (CIntersection es) →
  part_of rel e.
Proof.
  intros He Hp. assert (erase e ∈ erase <$> es) as He' by (apply list_elem_of_fmap; eauto).
  destruct Hp as [Hp|Hp]; (eapply part_sub; [exact Hp|..]); simpl;
    try (rewrite all_of_Forall, Forall_forall; auto); intros; by econstructor.
Qed.

Lemma computed_ok current rel rid h visiting : part_of current (CComputedUserset rel rid h) →
  rules_ok (λ o, M o rel) current (expression_rules cs rec current visiting (CComputedUserset rel rid h)).
Proof.
  intros [(rd & Hid & ->) Hcalls _] rules. simpl.
  apply (id_denotes_spec (sg_resolver _ Hschema)) in Hid as [Hby Hd].
  destruct (has_rewrite rd) eqn:E; simpl.
  - intros (rd' & Hrd%definition_by_id_Ok & Hrules)%bind_Ok. rewrite Hby in Hrd. injection Hrd as <-.
    apply (Hrec _ _ _ _ Hd) in Hrules. eapply Forall_impl; [exact Hrules|]. intros r [Hs Hf].
    split; [done|]. eapply fits_includes; [|exact Hf]. apply rtc_once. intros o Ho.
    apply Hcalls; [done|constructor].
  - intros [= <-]. apply Forall_singleton. split; [|done]. intros o Ho Hdir _.
    apply (declared_step rel rd o Hd Ho). apply bool_decide_eq_false, eq_None_not_Some in E.
    rewrite E. by left.
Qed.

Lemma union_ok current visiting es (P : Object → Prop) :
  (∀ e o, e ∈ es → objects o → admits current e o → P o) →
  Forall (λ e, rules_ok (admits current e) current (expression_rules cs rec current visiting e)) es →
  ∀ rules, Forall (rule_ok P current) rules →
  rules_ok P current (collect_union (expression_rules cs rec current visiting) rules es).
Proof.
  intros HP Hes. induction Hes as [|e es He _ IH]; intros rules Hrules; simpl.
  { by intros ? [= <-]. }
  intros res (child & Hc & Hres)%bind_Ok. destruct child as [child|]; [|done]. revert res Hres.
  apply IH; [intros; eapply HP; [by right|done..]|]. apply Forall_app. split; [done|].
  eapply Forall_impl; [by apply He|]. intros r. apply rule_ok_impl. intros o. apply HP. by left.
Qed.

(** A residual that guards a rule. *)
Lemma guarded_ok (P Q : Object → Prop) current g expected rules :
  part_of current g → (positive_schema defs → expected = ExpectAllowed) →
  (∀ o, P o → holds o (mkResidual current g expected) → Q o) →
  Forall (rule_ok P current) rules →
  Forall (rule_ok Q current) (map (map_rule (with_residual (mkResidual current g expected))) rules).
Proof.
  intros Hg Hpos HPQ Hr. apply Forall_fmap. eapply Forall_impl; [exact Hr|]. intros r [Hs Hf].
  split; simpl.
  - intros o Ho Hd [Hv Hh]%with_residual_verified. eauto.
  - apply with_residual_fits; [done|]. by split; [apply rtc_refl|..].
Qed.

Lemma guard_rules_ok current seed gs : ∀ k rules (P : Object → Prop),
  (∀ e, e ∈ gs → part_of current e) → Forall (rule_ok P current) rules →
  Forall (rule_ok (λ o, P o ∧ ∀ i g, gs !! i = Some g → k + i ≠ seed → admits current g o) current)
    (foldl (λ rules '(i, guard), if decide (i = seed) then rules
                                 else map (map_rule (with_required_allowed current guard)) rules)
       rules (imap (λ i g, (k + i, g)) gs)).
Proof.
  induction gs as [|g gs IH]; intros k rules P Hp Hr; simpl.
  { eapply Forall_impl; [exact Hr|]. intros r. by apply rule_ok_impl. }
  rewrite Nat.add_0_r.
  rewrite (imap_ext _ (λ i g, (S k + i, g))) by (intros; simpl; f_equal; lia).
  set (P' := λ o, P o ∧ (k ≠ seed → admits current g o)).
  eapply Forall_impl; [apply (IH (S k) _ P')|].
  - intros e He. apply Hp. by right.
  - case_decide as E.
    + eapply Forall_impl; [exact Hr|]. intros r. apply rule_ok_impl. by intros o _ Ho.
    + eapply guarded_ok; [apply Hp; left|done| |exact Hr]. intros o HP Hh. by split.
  - intros r. apply rule_ok_impl. intros o Ho [[HP Hg] Hgs]. split; [done|].
    intros [|i] g' Hi Hne; simpl in Hi.
    + injection Hi as <-. apply Hg. lia.
    + apply (Hgs i); [done|]. lia.
Qed.

Lemma intersection_ok current visiting all es : ∀ seed,
  (∀ e, e ∈ all → part_of current e) → drop seed all = es →
  Forall (λ e, rules_ok (admits current e) current (expression_rules cs rec current visiting e)) es →
  rules_ok (admits current (CIntersection all)) current
    (collect_intersection (expression_rules cs rec current visiting) current all seed es).
Proof.
  induction es as [|e es IH]; intros seed Hp Hdrop Hes; simpl; [done|].
  apply Forall_cons in Hes as [He Hes]. intros res (rules & Hr & Hres)%bind_Ok.
  assert (drop (S seed) all = es) as Hdrop'.
  { rewrite <- Nat.add_1_r, <- drop_drop, Hdrop. done. }
  assert (all !! seed = Some e) as Hseed.
  { pose proof (lookup_drop all seed 0) as Hl. rewrite Hdrop, Nat.add_0_r in Hl. by symmetry. }
  pose proof (IH (S seed) Hp Hdrop' Hes) as Hrest.
  destruct rules as [rules|]; [|by apply Hrest].
  destruct (existsb is_full_root rules); [by apply Hrest|]. injection Hres as <-.
  specialize (He _ Hr).
  eapply Forall_impl; [apply (guard_rules_ok current seed all 0 rules _ Hp He)|].
  intros r. apply rule_ok_impl. intros o _ [Hadm Hgs]. cbn [erase sat].
  apply all_of_Forall, Forall_fmap, Forall_forall. intros g (i & Hi)%list_elem_of_lookup.
  destruct (decide (i = seed)) as [->|Hne]; [|by apply (Hgs i)]. simpl.
  rewrite Hseed in Hi. by injection Hi as <-.
Qed.

Lemma expression_rules_ok current visiting e : part_of current e →
  rules_ok (admits current e) current (expression_rules cs rec current visiting e).
Proof.
  induction e as [|rel rid h|ts rid cm|es IH|es IH|b x IHb _] using compiled_induction;
    intros Hp; cbn [expression_rules].
  - intros rules [= <-]. apply proven_ok.
  - by apply computed_ok.
  - intros rules [= <-]. apply Forall_singleton. by split.
  - apply union_ok; [|apply Forall_forall|constructor].
    + intros e o He _ Ho. cbn [erase sat]. apply any_of_Exists. exists (erase e).
      split; [apply list_elem_of_fmap; eauto|done].
    + rewrite Forall_forall in IH. intros e He. apply IH; [done|]. eapply part_operand; eauto.
  - apply intersection_ok; [|done|apply Forall_forall].
    + intros e He. eapply part_operand; eauto.
    + rewrite Forall_forall in IH. intros e He. apply IH; [done|]. eapply part_operand; eauto.
  - intros rules ([base|] & Hb & [= <-])%bind_Ok.
    assert (part_of current b ∧ part_of current x ∧ ¬ positive_schema defs) as (Hpb & Hpx & Hneg).
    { split_and!; [eapply part_sub; [exact Hp|..]; simpl; try tauto; intros; by constructor..|].
      intros Hpos. by apply (pt_positive _ _ Hp) in Hpos. }
    eapply (guarded_ok (admits current b)); [done|done| |by apply IHb].
    intros o Hs Hn. by split.
Qed.
End expression.

Lemma relation_rules_ok fuel : ∀ rid rd visiting rel, declares defs t rel rd →
  rules_ok (λ o, M o rel) rel (relation_rules cs fuel rid rd visiting).
Proof.
  induction fuel as [|fuel IH]; intros rid rd visiting rel Hd rules; [done|]. cbn [relation_rules].
  destruct (decide _); [done|]. intros ([rules'|] & Hr & [= <-])%bind_Ok. apply merge_rules_ok.
  assert (rd_name rd = rel) as Hname by (by destruct Hd as (? & _ & _ & _ & ?)).
  destruct (sg_compiled _ Hschema _ _ _ Hd) as (_ & _ & _ & Her & Hrefs). rewrite Hname in Hr.
  destruct (rd_compiled_userset_rewrite rd) as [e|] eqn:Ee; simpl in *.
  - assert (part_of rel e) as Hp.
    { split; [by apply Hrefs| |].
      - intros o o' rel' Ho Hc. eexists. split; [by apply (declared_rewrites rel rd)|]. by rewrite Her.
      - intros Hpos. apply (Hpos (mkObject (as_str t) "") rel).
        pose proof (declared_rewrites rel rd (mkObject (as_str t) "") Hd eq_refl) as Hw.
        by rewrite Her in Hw. }
    eapply Forall_impl; [exact (expression_rules_ok _ IH _ _ e Hp _ Hr)|]. intros r.
    apply rule_ok_impl. intros o Ho Hs. apply (declared_step rel rd o Hd Ho). by rewrite Her.
  - injection Hr as <-. eapply Forall_impl; [apply proven_ok|]. intros r.
    apply rule_ok_impl. intros o Ho Hs. apply (declared_step rel rd o Hd Ho). by rewrite Her.
Qed.

(** The plan for a permission. *)
Lemma producer_plan_ok permission plan :
  lookup_producer_plan cs t permission = Ok (Some plan) →
  Forall (rule_ok (λ o, M o permission) permission) (plan_rules plan).
Proof.
  unfold lookup_producer_plan.
  intros (rid & Hrid%map_err_Ok%map_err_Ok & (rd & Hrd%definition_by_id_Ok & (rules & Hr & Hp)%bind_Ok)%bind_Ok)%bind_Ok.
  apply (resolver_relation_id_Ok (sg_resolver _ Hschema)) in Hrid as (rd' & Hid).
  apply (id_denotes_spec (sg_resolver _ Hschema)) in Hid as [Hby Hd].
  rewrite Hby in Hrd. injection Hrd as ->.
  destruct rules as [[|r rules]|]; [done| |done]. injection Hp as <-. simpl.
  exact (relation_rules_ok _ _ _ _ _ Hd _ Hr).
Qed.
End rules.
