(* ===== verification/LookupResources.v ===== *)
(** * Lookup of resources (src/src/eval.rs, [lookup_resources_with_snapshot])

    The resources of a type on which a subject has a permission: relationships are
    followed backwards from the subject, breadth first; every resource of the type
    that is met is a candidate, proven or checked as the plan says. *)

From S2P Require Import Prelude Model Domain Revision Schema StoreTypes Row Store StoreView.
From S2P Require Import EvalContext Eval Requests LookupSubjects LookupPlan.

(** ** Proofs of the frontier's subjects *)

Record LookupSubjectProof := mkProof { direct_depth : Z; proof_exact : bool }.

Definition exact_root : LookupSubjectProof := mkProof 0 true.
Definition inexact : LookupSubjectProof := mkProof 0 false.
Definition next_exact (p : LookupSubjectProof) : LookupSubjectProof :=
  if proof_exact p then mkProof (saturating_add u32_max (direct_depth p) 1) true else inexact.

Record LookupFrontierEntry := mkEntry {
  frontier_subject : User;
  frontier_proof : LookupSubjectProof
}.

(** ** Pruning *)

Definition allows_relationship (plan : LookupProducerPlan) (x : RelationshipRef) : bool :=
  existsb (relation_name_eq x) (plan_relations plan).

(** [verification_for_relationship] *)
Definition verification_for_relationship (plan : LookupProducerPlan) (x : RelationshipRef)
    (proof : LookupSubjectProof) (limits : EvaluationLimits) : LookupCandidateVerification :=
  if negb (proof_exact proof) || (nz_get (max_depth limits) <=? direct_depth proof)%Z then FullRoot
  else match List.find (λ rule, relation_name_eq x (rule_relation rule)) (plan_rules plan) with
       | Some rule => rule_verification rule
       | None => FullRoot
       end.

Definition LOOKUP_PLANNER_SAMPLE_RELATIONSHIPS : Z := 64.
Definition LOOKUP_PLANNER_MIN_PRUNE_BPS : Z := 500.

Record LookupProducerRuntime := mkRuntime {
  runtime_enabled : bool;
  sampled_relationships : Z;
  pruned_relationships : Z
}.

Definition runtime_new (enabled : bool) : LookupProducerRuntime := mkRuntime enabled 0 0.

(** [record_sample]: a plan that prunes too little is given up. *)
Definition record_sample (pruned : bool) (r : LookupProducerRuntime) : LookupProducerRuntime :=
  if (LOOKUP_PLANNER_SAMPLE_RELATIONSHIPS <=? sampled_relationships r)%Z then r else
  let sampled := saturating_add u32_max (sampled_relationships r) 1 in
  let pruned := if pruned then saturating_add u32_max (pruned_relationships r) 1
                else pruned_relationships r in
  mkRuntime
    (runtime_enabled r &&
     negb ((sampled =? LOOKUP_PLANNER_SAMPLE_RELATIONSHIPS)%Z &&
           (saturating_mul u32_max pruned 10000 <?
            saturating_mul u32_max LOOKUP_PLANNER_MIN_PRUNE_BPS sampled)%Z))
    sampled pruned.

(** [should_prune] *)
Definition should_prune (plan : LookupProducerPlan) (x : RelationshipRef)
    (r : LookupProducerRuntime) : bool * LookupProducerRuntime :=
  if negb (runtime_enabled r) then (false, r) else
  let prune := negb (allows_relationship plan x) in
  (prune, record_sample prune r).

(** ** The state of a lookup: the locals of the function *)

Record SameObjectRelationExpansion := mkExpansion {
  se_object_type : ObjectType;
  se_source_relation : RelationName;
  se_target_relations : list RelationName
}.

Record TupleToUsersetRelationExpansion := mkTupleExpansion {
  te_object_type : ObjectType;
  te_source_relation : RelationName;
  te_targets : list TupleToUsersetExpansionTarget
}.

Record ResourceState := mkResourceState {
  producer_runtime : LookupProducerRuntime;
  pruned_downstream : list (RelationName * bool);
  relation_expansions : list SameObjectRelationExpansion;
  tuple_expansions : list TupleToUsersetRelationExpansion;
  frontier : list LookupFrontierEntry;
  visited_subjects : gset User;
  seen_resources : gset Object;
  found_resources : list Object;
  resource_context : EvaluationContext
}.

Abbreviation Trace := (ST ResourceState EvalStop).

Definition set_runtime (r : LookupProducerRuntime) (s : ResourceState) : ResourceState :=
  mkResourceState r (pruned_downstream s) (relation_expansions s) (tuple_expansions s) (frontier s)
    (visited_subjects s) (seen_resources s) (found_resources s) (resource_context s).
Definition set_downstream (l : list (RelationName * bool)) (s : ResourceState) : ResourceState :=
  mkResourceState (producer_runtime s) l (relation_expansions s) (tuple_expansions s) (frontier s)
    (visited_subjects s) (seen_resources s) (found_resources s) (resource_context s).
Definition set_expansions (l : list SameObjectRelationExpansion) (s : ResourceState) : ResourceState :=
  mkResourceState (producer_runtime s) (pruned_downstream s) l (tuple_expansions s) (frontier s)
    (visited_subjects s) (seen_resources s) (found_resources s) (resource_context s).
Definition set_tuples (l : list TupleToUsersetRelationExpansion) (s : ResourceState) : ResourceState :=
  mkResourceState (producer_runtime s) (pruned_downstream s) (relation_expansions s) l (frontier s)
    (visited_subjects s) (seen_resources s) (found_resources s) (resource_context s).
Definition set_frontier (l : list LookupFrontierEntry) (s : ResourceState) : ResourceState :=
  mkResourceState (producer_runtime s) (pruned_downstream s) (relation_expansions s)
    (tuple_expansions s) l (visited_subjects s) (seen_resources s) (found_resources s)
    (resource_context s).
Definition see_resource (o : Object) (s : ResourceState) : ResourceState :=
  mkResourceState (producer_runtime s) (pruned_downstream s) (relation_expansions s)
    (tuple_expansions s) (frontier s) (visited_subjects s) ({[o]} ∪ seen_resources s)
    (found_resources s) (resource_context s).
Definition push_resource (o : Object) (s : ResourceState) : ResourceState :=
  mkResourceState (producer_runtime s) (pruned_downstream s) (relation_expansions s)
    (tuple_expansions s) (frontier s) (visited_subjects s) (seen_resources s)
    (found_resources s ++ [o]) (resource_context s).
Definition set_context (c : EvaluationContext) (s : ResourceState) : ResourceState :=
  mkResourceState (producer_runtime s) (pruned_downstream s) (relation_expansions s)
    (tuple_expansions s) (frontier s) (visited_subjects s) (seen_resources s) (found_resources s) c.

(** [visited_subjects.insert(..)] and, if it is new, [frontier.push_back(..)] *)
Definition visit_subject (u : User) (proof : LookupSubjectProof) : Trace unit := λ s,
  if decide (u ∈ visited_subjects s) then (Ok tt, s) else
  (Ok tt,
   mkResourceState (producer_runtime s) (pruned_downstream s) (relation_expansions s)
     (tuple_expansions s) (frontier s ++ [mkEntry u proof]) ({[u]} ∪ visited_subjects s)
     (seen_resources s) (found_resources s) (resource_context s)).

Definition try_domain {A} (r : result DomainError A) : Trace A := st_lift (lift_stop (map_err ZDomain r)).
Definition try_schema {A} (r : result SchemaError A) : Trace A := st_lift (lift_stop (map_err ZSchema r)).

Section lookup.
Context `{Hasher}.
Variable snapshot : PublishedSnapshot.
Variable request : LookupResourcesRequest.
Variable limits : EvaluationLimits.
Variable resource_type : ObjectType.

Abbreviation schema := (snapshot_schema snapshot).
Abbreviation view := (snapshot_relationships snapshot).

(** ** Candidates *)

(** [verify_lookup_residuals_entered] *)
Fixpoint verify_residuals_entered (fuel : nat) (object : Object) (u : User)
    (residuals : list LookupResidualCheck) : Eval Membership :=
  match residuals with
  | [] => st_ret Allowed
  | residual :: residuals =>
      let! m := eval_expression (check_by_name fuel) (check_by_id fuel) (check_plain fuel) object
                  (residual_context residual) u (residual_expression residual) in
      match residual_expected residual with
      | ExpectAllowed => if negb (bool_decide (m = Allowed)) then st_ret Denied
                         else verify_residuals_entered fuel object u residuals
      | ExpectDenied => if bool_decide (m = Allowed) then st_ret Denied
                        else verify_residuals_entered fuel object u residuals
      end
  end.

(** [verify_lookup_residuals] *)
Definition verify_residuals (fuel : nat) (object : Object) (root : RelationName) (u : User)
    (residuals : list LookupResidualCheck) : Eval Membership := λ c,
  evaluate_check_key (check_key_from_relation_name (ctx_snapshot c) object root u)
    (verify_residuals_entered fuel object u residuals) c.

(** [verify_lookup_resource_candidate] *)
Definition verify_candidate (object : Object) (v : LookupCandidateVerification) : Eval bool := λ c,
  match v with
  | FullRoot =>
      (let! m := check (eval_fuel (ctx_limits c)) object (lr_permission request) (lr_subject request) in
       st_ret (is_allowed m)) (reset_for_reuse c)
  | ProvenWithoutCheck => (Ok true, c)
  | Residual residuals =>
      (let! root := lift_domain (relation_name_of (lr_permission request)) in
       let! m := verify_residuals (eval_fuel (ctx_limits c)) object root (lr_subject request) residuals in
       st_ret (is_allowed m)) (reset_for_reuse c)
  end.

(** A candidate not seen before: verified and, if it passes, listed. Whether the
    result limit is reached then. *)
Definition try_candidate (object : Object) (v : LookupCandidateVerification) : Trace bool := λ s,
  (let! b := st_zoom resource_context (λ c s, set_context c s) (verify_candidate object v) in
   if (b : bool) then λ s,
     let s := push_resource object s in
     (Ok (lookup_result_limit_reached (length (found_resources s)) limits), s)
   else st_ret false) (see_resource object s).

(** ** Relationships *)

(** [relation_direct_row_is_exact_proof] *)
Definition direct_row_is_exact (t : ObjectType) (rel : RelationName) : Trace bool :=
  let! rd := try_schema (resolver_relation (cs_resolver schema) t rel) in
  st_ret match rd_compiled_userset_rewrite rd with None | Some CThis => true | _ => false end.

(** [lookup_relationship_proof] *)
Definition relationship_proof (x : RelationshipRef) (proof : LookupSubjectProof) (object : Object)
    : Trace LookupSubjectProof :=
  if negb (proof_exact proof) || (0 <? direct_depth proof)%Z then st_ret inexact else
  let! t := try_domain (ident_new KObjectType (namespace object)) in
  let! rel := try_domain (ident_new KRelationName (relation_name_str x)) in
  let! b := direct_row_is_exact t rel in
  st_ret (if (b : bool) then next_exact proof else inexact).

(** [pruned_relation_may_have_downstream] *)
Definition may_have_downstream (st : SubjectType) (name : string) : Trace bool := λ s,
  match List.find (λ p : RelationName * bool, bool_decide (as_str p.1 = name)) (pruned_downstream s) with
  | Some (_, b) => (Ok b, s)
  | None =>
      (let! rel := try_domain (ident_new KRelationName name) in
       let b := view_has_reverse_subject_candidates view (mkSubjectFilter st None (Some rel)) in
       λ s, (Ok b, set_downstream (pruned_downstream s ++ [(rel, b)]) s)) s
  end.

(** What becomes of a relationship that is not dropped. *)
Definition process_row (plan : option LookupProducerPlan) (entry : LookupFrontierEntry)
    (x : RelationshipRef) (prune : bool) : Trace bool :=
  let object := resource_object_legacy x in
  let! proof := relationship_proof x (frontier_proof entry) object in
  let! stop := (λ s,
    if resource_type_eq x resource_type && negb prune &&
       negb (bool_decide (object ∈ seen_resources s))
    then try_candidate object
           (match plan with
            | None => FullRoot
            | Some plan => verification_for_relationship plan x proof limits
            end) s
    else (Ok false, s)) in
  if (stop : bool) then st_ret true else
  let u := Userset object (mkRelation (relation_name_str x)) in
  let! follow :=
    if prune then
      let! f := try_domain (subject_filter_of_user u) in
      st_ret (view_has_reverse_subject_candidates view f)
    else st_ret true in
  let! _ := if (follow : bool) then visit_subject u proof else st_ret tt in
  st_ret false.

(** [process_lookup_resources_relationship] *)
Definition process_relationship (plan : option LookupProducerPlan) (st : SubjectType)
    (entry : LookupFrontierEntry) (x : RelationshipRef) : Trace bool :=
  let! prune := (λ s,
    match plan with
    | Some plan =>
        if resource_type_eq x resource_type
        then let '(b, r) := should_prune plan x (producer_runtime s) in (Ok b, set_runtime r s)
        else (Ok false, s)
    | None => (Ok false, s)
    end) in
  let! go := if (prune : bool) then may_have_downstream st (relation_name_str x) else st_ret true in
  if (go : bool) then process_row plan entry x prune else st_ret false.

Section loop.
Context {A : Type}.
Variable step : A → Trace bool.
(** A loop that returns early: whether it did. *)
Fixpoint process_all (l : list A) : Trace bool :=
  match l with
  | [] => st_ret false
  | x :: l => let! stop := step x in if (stop : bool) then st_ret true else process_all l
  end.
End loop.

(** ** Expansions *)

(** [same_object_relation_expansions], remembered. *)
Definition same_object_expansions (t : ObjectType) (source : RelationName)
    : Trace (list RelationName) := λ s,
  match List.find (λ x, bool_decide (se_object_type x = t) && bool_decide (se_source_relation x = source))
          (relation_expansions s) with
  | Some x => (Ok (se_target_relations x), s)
  | None =>
      (let! rels := st_lift (same_object_relations schema source t) in
       λ s, (Ok rels, set_expansions (relation_expansions s ++ [mkExpansion t source rels]) s)) s
  end.

(** The loop of [enqueue_same_object_relation_expansions]. *)
Fixpoint enqueue_targets (object : Object) (rels : list RelationName) : Trace unit :=
  match rels with
  | [] => st_ret tt
  | rel :: rels =>
      let u := Userset object (mkRelation (as_str rel)) in
      let! f := try_domain (subject_filter_of_user u) in
      let! _ := if view_has_reverse_subject_candidates view f then visit_subject u inexact
                else st_ret tt in
      enqueue_targets object rels
  end.

(** [enqueue_same_object_relation_expansions] *)
Definition enqueue_expansions (u : User) : Trace unit :=
  match u with
  | UserId _ => st_ret tt
  | Userset object rel =>
      let! t := try_domain (ident_new KObjectType (namespace object)) in
      let! source := try_domain (ident_new KRelationName (relation_str rel)) in
      let! rels := same_object_expansions t source in
      enqueue_targets object rels
  end.

(** [tuple_to_userset_relation_expansions], remembered. *)
Definition tuple_targets (t : ObjectType) (source : RelationName)
    : Trace (list TupleToUsersetExpansionTarget) := λ s,
  match List.find (λ x, bool_decide (te_object_type x = t) && bool_decide (te_source_relation x = source))
          (tuple_expansions s) with
  | Some x => (Ok (te_targets x), s)
  | None =>
      (let! ts := st_lift (tuple_to_userset_targets schema source t) in
       λ s, (Ok ts, set_tuples (tuple_expansions s ++ [mkTupleExpansion t source ts]) s)) s
  end.

(** [tuple_to_userset_broad_targets] *)
Definition broad_targets (st : SubjectType) (i : SubjectId) (ts : list TupleToUsersetExpansionTarget)
    : list TupleToUsersetExpansionTarget :=
  filter (λ t, view_has_reverse_subject_candidates view
                 (subject_filter_exact st i (Some (target_computed_relation t))) = false) ts.

(** The body of the inner loop of [process_tuple_to_userset_ignored_relation_edges]. *)
Definition process_target (x : RelationshipRef) (t : TupleToUsersetExpansionTarget) : Trace bool :=
  if negb (resource_type_eq x (target_resource_type t) &&
           relation_name_eq x (target_tupleset_relation t)) then st_ret false else
  let candidate := resource_object_legacy x in
  let! stop := (λ s,
    if resource_type_eq x resource_type && negb (bool_decide (candidate ∈ seen_resources s))
    then try_candidate candidate FullRoot s
    else (Ok false, s)) in
  if (stop : bool) then st_ret true else
  let u := Userset candidate (mkRelation (as_str (target_relation t))) in
  let! f := try_domain (subject_filter_of_user u) in
  let! _ := if view_has_reverse_subject_candidates view f then visit_subject u inexact
            else st_ret tt in
  st_ret false.

(** [process_tuple_to_userset_ignored_relation_edges] *)
Definition process_tuple_edges (u : User) : Trace bool :=
  match u with
  | UserId _ => st_ret false
  | Userset object rel =>
      let! t := try_domain (ident_new KObjectType (namespace object)) in
      let! source := try_domain (ident_new KRelationName (relation_str rel)) in
      let! ts := tuple_targets t source in
      let! st := try_domain (ident_new KSubjectType (namespace object)) in
      let! i := try_domain (ident_new KSubjectId (id object)) in
      let broad := broad_targets st i ts in
      if bool_decide (broad = []) then st_ret false else
      process_all (λ x, process_all (process_target x) broad)
        (view_items view (view_reverse_query view (subject_filter_exact st i None)))
  end.

(** ** The lookup *)

(** One turn of the loop over the frontier. *)
Definition process_entry (plan : option LookupProducerPlan) (st : SubjectType)
    (entry : LookupFrontierEntry) : Trace bool :=
  let! _ := enqueue_expansions (frontier_subject entry) in
  let! f := try_domain (subject_filter_of_user (frontier_subject entry)) in
  let! stop := process_all (process_relationship plan st entry)
                 (view_items view (view_reverse_query view f)) in
  if (stop : bool) then st_ret true else process_tuple_edges (frontier_subject entry).

(** [while let Some(entry) = frontier.pop_front()] *)
Fixpoint process_frontier (plan : option LookupProducerPlan) (st : SubjectType) (fuel : nat)
    : Trace unit := λ s,
  match frontier s with
  | [] => (Ok tt, s)
  | entry :: rest =>
      match fuel with
      | O => (Err OutOfFuel, s)
      | S fuel =>
          (let! stop := process_entry plan st entry in
           if (stop : bool) then st_ret tt else process_frontier plan st fuel) (set_frontier rest s)
      end
  end.
End lookup.

(** Every subject is put on the frontier once; it is the request's, or a userset
    of an object and a relation that rows or the schema name. *)
Definition view_row_count (v : StoreView) : nat :=
  length (rows (checkpoint v)) + match delta v with Some d => length (rows (inserted d)) | None => 0 end.

Definition relation_count (defs : list NamespaceDefinition) : nat :=
  length (concat (ns_relations <$> defs)).

Definition frontier_fuel (snapshot : PublishedSnapshot) : nat :=
  let rows := view_row_count (snapshot_relationships snapshot) in
  let relations := relation_count (cs_definitions (snapshot_schema snapshot)) +
                   relation_count (sr_definitions (cs_resolver (snapshot_schema snapshot))) in
  S ((1 + rows) * (rows + relations)).

(** [lookup_resources_with_snapshot] *)
Definition lookup_resources_with_snapshot `{Hasher} (snapshot : PublishedSnapshot)
    (request : LookupResourcesRequest) (limits : EvaluationLimits)
    : result EvalStop LookupResources :=
  let cs := snapshot_schema snapshot in
  t ← lift_stop (map_err ZDomain (ident_new KObjectType (lr_resource_type request)));
  permission ← lift_stop (map_err ZDomain (relation_name_of (lr_permission request)));
  _ ← lift_stop (map_err ZSchema (resolver_relation (cs_resolver cs) t permission));
  plan ← lookup_producer_plan cs t permission;
  st ← lift_stop (map_err ZDomain (ident_new KSubjectType (as_str t)));
  let '(r, s) :=
    process_frontier snapshot request limits t plan st (frontier_fuel snapshot)
      (mkResourceState (runtime_new (bool_decide (is_Some plan))) [] [] []
         [mkEntry (lr_subject request) exact_root] {[lr_subject request]} ∅ []
         (context_new_with_request_memo snapshot limits)) in
  _ ← r;
  Ok (mkResources (found_resources s)).
