(* ===== verification/LookupResourcesInv.v ===== *)
(** * The traversal of a resource lookup

    Every subject is put on the frontier at most once and comes from a finite set,
    so the traversal ends within its fuel; the resources it lists are of the
    requested type, different from each other, within the result limit, and
    verified. What verification establishes is a parameter. *)

From S2P Require Import Prelude Model Domain Revision Schema StoreTypes Row Store StoreView.
From S2P Require Import EvalContext Eval EvalInv EvalTotal Requests LookupSubjects LookupPlan.
From S2P Require Import LookupSubjectsInv LookupPlanInv LookupResources.

(** ** The rows of a view *)

Definition all_rows (v : StoreView) : list RelationshipRef :=
  (mkRef (checkpoint v) <$> rows (checkpoint v)) ++
  match delta v with Some d => mkRef (inserted d) <$> rows (inserted d) | None => [] end.

Lemma length_all_rows v : length (all_rows v) = view_row_count v.
Proof.
  unfold all_rows, view_row_count. rewrite length_app, length_fmap.
  destruct (delta v); [by rewrite length_fmap|done].
Qed.

Section items.
Context `{Hasher}.

Lemma compact_scan_row st live m cs row it :
  compact_scan st live m cs = (Some row, it) → row ∈ rows st.
Proof.
  revert m. induction cs as [|i cs IH]; intros m; simpl; [done|].
  destruct (_ && _); [apply IH|]. destruct (rows st !! id_index i) as [row'|] eqn:E; [|done].
  apply list_elem_of_lookup_2 in E.
  destruct m as [rm|sm]; [destruct (_ =? _)%N; [done|]|]; (destruct (matches_resource _ _) ||
    destruct (matches_subject _ _)); try apply IH; by intros [= <- _].
Qed.

Lemma compact_next_row st it row it' : compact_next st it = (Some row, it') → row ∈ rows st.
Proof. unfold compact_next. destruct (matcher it); [apply compact_scan_row|done]. Qed.

Lemma checkpoint_next_row fuel s dead : ∀ it row it',
  checkpoint_next fuel s dead it = (Some row, it') → row ∈ rows s.
Proof.
  induction fuel as [|fuel IH]; intros it row it'; simpl; [done|].
  destruct (compact_next s it) as [[row'|] it1] eqn:E; [|done]. apply compact_next_row in E.
  destruct dead as [d|]; [case_decide; [apply IH|]|]; by intros [= <- _].
Qed.

Lemma checkpoint_next_all v it x it' : view_checkpoint_next v it = (Some x, it') → x ∈ all_rows v.
Proof.
  unfold view_checkpoint_next. destruct (checkpoint_next _ _ _ _) as [[row|] c] eqn:E; [|done].
  intros [= <- _]. apply checkpoint_next_row in E. apply elem_of_app. left.
  apply list_elem_of_fmap. eauto.
Qed.

Lemma view_next_all v it x it' : view_next v it = (Some x, it') → x ∈ all_rows v.
Proof.
  unfold view_next. destruct (vi_phase it); [|apply checkpoint_next_all].
  destruct (vi_inserted it) as [i|]; [|apply checkpoint_next_all].
  destruct (delta v) as [d|] eqn:Ed; [|apply checkpoint_next_all].
  destruct (compact_next (inserted d) i) as [[row|] i'] eqn:E; [|apply checkpoint_next_all].
  intros [= <- _]. apply compact_next_row in E. apply elem_of_app. right. rewrite Ed.
  apply list_elem_of_fmap. eauto.
Qed.

(** What a view lists are its rows. *)
Lemma view_items_all v it x : x ∈ view_items v it → x ∈ all_rows v.
Proof.
  unfold view_items. generalize (S (match vi_inserted it with Some i => length (candidates i) | None => 0 end +
    length (candidates (vi_checkpoint it)))) as fuel. intros fuel. revert it.
  induction fuel as [|fuel IH]; intros it; simpl; [by intros ?%not_elem_of_nil|].
  destruct (view_next v it) as [[y|] it'] eqn:E; [|by intros ?%not_elem_of_nil].
  intros [->|Hx]%elem_of_cons; [by eapply view_next_all|by eapply IH].
Qed.
End items.

(** ** The subjects that can be visited *)

Section universe.
Variable snapshot : PublishedSnapshot.
Variable subject : User.

Definition universe_objects : list Object :=
  match subject with Userset o _ => o | UserId _ => mkObject "" "" end ::
  (resource_object_legacy <$> all_rows (snapshot_relationships snapshot)).

Definition schema_names : list RelationName :=
  relation_names_of (cs_definitions (snapshot_schema snapshot)) ++
  relation_names_of (sr_definitions (cs_resolver (snapshot_schema snapshot))).

Definition universe_names : list string :=
  (relation_name_str <$> all_rows (snapshot_relationships snapshot)) ++ (as_str <$> schema_names).

Definition universe_usersets : list User :=
  concat ((λ o, (λ n, Userset o (mkRelation n)) <$> universe_names) <$> universe_objects).

Definition universe : gset User := {[subject]} ∪ list_to_set universe_usersets.

Lemma elem_of_usersets o n :
  Userset o (mkRelation n) ∈ universe_usersets ↔ o ∈ universe_objects ∧ n ∈ universe_names.
Proof.
  unfold universe_usersets. rewrite list_elem_of_In, in_concat. setoid_rewrite <- list_elem_of_In.
  split.
  - intros (l & (o' & -> & Ho)%list_elem_of_fmap & (n' & [= -> ->] & Hn)%list_elem_of_fmap). done.
  - intros [Ho Hn]. exists ((λ n, Userset o (mkRelation n)) <$> universe_names).
    split; apply list_elem_of_fmap; [by exists o|by exists n].
Qed.

Lemma elem_of_universe o n : o ∈ universe_objects → n ∈ universe_names →
  Userset o (mkRelation n) ∈ universe.
Proof. intros. apply elem_of_union_r, elem_of_list_to_set. by apply elem_of_usersets. Qed.

Lemma universe_object o rel : Userset o rel ∈ universe → o ∈ universe_objects.
Proof.
  unfold universe. rewrite elem_of_union, elem_of_singleton, elem_of_list_to_set. destruct rel as [n].
  intros [E|[? _]%elem_of_usersets]; [|done]. unfold universe_objects. rewrite <- E. left.
Qed.

Lemma universe_size : size universe ≤ frontier_fuel snapshot.
Proof.
  etrans; [apply (size_le_length _ (subject :: universe_usersets))|].
  - unfold universe. intros u. rewrite elem_of_union, elem_of_singleton, elem_of_list_to_set.
    by rewrite elem_of_cons.
  - cbn [length]. unfold frontier_fuel. apply le_n_S. unfold universe_usersets.
    assert (∀ l : list Object, length (concat ((λ o, (λ n, Userset o (mkRelation n)) <$> universe_names) <$> l)) =
      length l * length universe_names) as ->.
    { induction l as [|o l IH]; [done|]. rewrite fmap_cons. cbn [concat length].
      rewrite length_app, IH, length_fmap. lia. }
    unfold universe_objects, universe_names, schema_names, relation_names_of, relation_count.
    cbn [length]. rewrite !length_app, !length_fmap, !length_all_rows, length_app, !length_fmap. lia.
Qed.
End universe.

(** ** The invariant *)

Section traversal.
Context `{Hasher}.
Variable snapshot : PublishedSnapshot.
Variable request : LookupResourcesRequest.
Variable limits : EvaluationLimits.
Variable resource_type : ObjectType.
Variable plan : option LookupProducerPlan.
Abbreviation subject := (lr_subject request).
Abbreviation view := (snapshot_relationships snapshot).
Abbreviation schema := (snapshot_schema snapshot).

(** A context between verifications, what is known of a candidate that is
    verified, and what a verification that passes says. *)
Variable fresh : EvaluationContext → Prop.
Variable proper : Object → LookupCandidateVerification → Prop.
Variable fact : Object → Prop.
Hypothesis Hverify : ∀ o v c, fresh c → proper o v →
  let '(r, c') := verify_candidate request o v c in
  r ≠ Err OutOfFuel ∧ fresh c' ∧ (r = Ok true → fact o).
Hypothesis Hfull : ∀ o, namespace o = as_str resource_type → proper o FullRoot.
Hypothesis Hrule : ∀ p f x rule, plan = Some p → subject_filter_of_user subject = Ok f →
  x ∈ view_items view (view_reverse_query view f) → resource_type_eq x resource_type = true →
  rule ∈ plan_rules p → relation_name_eq x (rule_relation rule) = true →
  proper (resource_object_legacy x) (rule_verification rule).

(** What may be listed. *)
Record listed_ok (l : list Object) : Prop := {
  ls_nodup : NoDup l;
  ls_fact o : o ∈ l → namespace o = as_str resource_type ∧ fact o;
  ls_bound : (Z.of_nat (length l) ≤ nz_get (max_lookup_results limits))%Z
}.

(** A proof of depth 0 is the request's subject. *)
Record subject_ok (entry : LookupFrontierEntry) : Prop := {
  fe_depth : (0 ≤ direct_depth (frontier_proof entry))%Z;
  fe_universe : frontier_subject entry ∈ universe snapshot subject;
  fe_root : proof_exact (frontier_proof entry) = true →
            direct_depth (frontier_proof entry) = 0%Z → frontier_subject entry = subject
}.

Record trace_ok (s : ResourceState) : Prop := {
  tr_context : fresh (resource_context s);
  tr_listed : listed_ok (found_resources s);
  tr_room : (Z.of_nat (length (found_resources s)) < nz_get (max_lookup_results limits))%Z;
  tr_seen o : o ∈ found_resources s → o ∈ seen_resources s;
  tr_frontier : Forall subject_ok (frontier s);
  tr_visited u : u ∈ visited_subjects s → u ∈ universe snapshot subject;
  tr_expansions x n : x ∈ relation_expansions s → n ∈ se_target_relations x → n ∈ schema_names snapshot;
  tr_tuples x t : x ∈ tuple_expansions s → t ∈ te_targets x → target_relation t ∈ schema_names snapshot
}.

(** The turns that are left. *)
Definition turns (s : ResourceState) : nat :=
  length (frontier s) + (size (universe snapshot subject) - size (visited_subjects s)).

(** ** What a part of the traversal does

    It keeps the invariant and the turns left, unless it stops the lookup at its
    result limit. *)
Definition traced {A} (stop : A → bool) (Q : A → Prop) (m : Trace A) : Prop := ∀ s, trace_ok s →
  wp m s
    (λ a s', Q a ∧ if stop a then listed_ok (found_resources s') else trace_ok s' ∧ turns s' ≤ turns s)
    (λ e _, e ≠ OutOfFuel).

Abbreviation continues := (traced (λ _, false)).
Abbreviation any := (λ _, True).
Abbreviation may_stop := (traced (λ b : bool, b) any).

Lemma traced_done {A} (r : result EvalStop A) (Q : A → Prop) :
  reached r → (∀ a, r = Ok a → Q a) → continues Q (λ s, (r, s)).
Proof. intros Hr HQ s Hs. unfold wp. destruct r as [a|e]; [auto|]. intros ->. by apply Hr. Qed.

Lemma traced_ret {A} (a : A) : continues (λ b, b = a) (st_ret a).
Proof. apply traced_done; [done|]. by intros b [= <-]. Qed.

Lemma traced_any {A} (a : A) : continues any (st_ret a).
Proof. by intros s Hs. Qed.

Lemma stops_ret (b : bool) : b = false → may_stop (st_ret b).
Proof. intros -> s Hs. by split. Qed.

Lemma traced_domain {A} (r : result DomainError A) : continues (λ a, r = Ok a) (try_domain r).
Proof. apply traced_done; [apply reached_lift|]. by intros a Ha%map_err_Ok%map_err_Ok. Qed.

Lemma traced_bind {A B} stop (P : A → Prop) (Q : B → Prop) (m : Trace A) (f : A → Trace B) :
  continues P m → (∀ a, P a → traced stop Q (f a)) → traced stop Q (st_bind m f).
Proof.
  intros Hm Hf s Hs. apply wp_bind. eapply wp_mono; [| |by apply Hm]; [|done].
  intros a s1 (HP & Hs1 & Ht1). eapply wp_mono; [| |by apply Hf]; [|done].
  intros b s2 [HQ Hb]. split; [done|]. destruct (stop b); [done|]. destruct Hb. split; [done|lia].
Qed.

(** A part that may stop the lookup, and what follows if it does not. *)
Lemma stops_bind (m m' : Trace bool) : may_stop m → may_stop m' →
  may_stop (let! stop := m in if (stop : bool) then st_ret true else m').
Proof.
  intros Hm Hm' s Hs. apply wp_bind. eapply wp_mono; [| |by apply Hm]; [|done].
  intros [] s1 [_ Hs1]; [by split|]. destruct Hs1 as [Hs1 Ht1].
  eapply wp_mono; [| |by apply Hm']; [|done].
  intros [] s2 [_ Hb]; (split; [done|]); [done|]. destruct Hb. split; [done|lia].
Qed.

Lemma traced_mono {A} stop (P Q : A → Prop) (m : Trace A) :
  traced stop P m → (∀ a, P a → Q a) → traced stop Q m.
Proof. intros Hm HPQ s Hs. eapply wp_mono; [| |by apply Hm]; naive_solver. Qed.

Lemma traced_state {A} stop (Q : A → Prop) (m : Trace A) (m' : ResourceState → Trace A) :
  (∀ s, m s = m' s s) → (∀ s, trace_ok s → traced stop Q (m' s)) → traced stop Q m.
Proof. intros Hm Hm' s Hs. unfold wp. rewrite Hm. by apply (Hm' s). Qed.

(** An update that leaves the frontier, the sets and the results alone. *)
Lemma traced_update {A} (a : A) (f : ResourceState → ResourceState) :
  (∀ s, trace_ok s → trace_ok (f s) ∧ turns (f s) = turns s) →
  continues (λ b, b = a) (λ s, (Ok a, f s)).
Proof. intros Hf s Hs. destruct (Hf s Hs) as [? Ht]. split; [done|]. split; [done|by rewrite Ht]. Qed.

(** ** The frontier *)

(** The proof of a subject other than the request's. *)
Definition later (p : LookupSubjectProof) : Prop :=
  (0 ≤ direct_depth p)%Z ∧ (proof_exact p = true → (0 < direct_depth p)%Z).

Lemma inexact_later : later inexact.
Proof. done. Qed.

Lemma traced_visit u p : u ∈ universe snapshot subject → later p → continues any (visit_subject u p).
Proof.
  intros Hu [Hp0 Hp] s Hs. unfold wp, visit_subject. destruct (decide (u ∈ visited_subjects s)) as [|Hn]; [done|].
  split; [done|]. destruct Hs as [H1 H2 H3 H4 H5 H6 H7 H8]. split.
  - split; simpl; try done; [|set_solver]. apply Forall_app. split; [done|].
    apply Forall_singleton. split; simpl; [done|done|]. intros Hex%Hp. lia.
  - unfold turns. cbn [frontier visited_subjects]. rewrite length_app.
    assert (size ({[u]} ∪ visited_subjects s) = S (size (visited_subjects s))) as E.
    { rewrite size_union by set_solver. by rewrite size_singleton. }
    assert (size ({[u]} ∪ visited_subjects s) ≤ size (universe snapshot subject)).
    { apply subseteq_size. set_solver. }
    simpl. lia.
Qed.

(** ** Candidates *)

Lemma traced_candidate o v :
  namespace o = as_str resource_type → proper o v →
  ∀ s, trace_ok s → o ∉ seen_resources s →
  wp (try_candidate request limits o v) s
    (λ b s', if (b : bool) then listed_ok (found_resources s') else trace_ok s' ∧ turns s' ≤ turns s)
    (λ e _, e ≠ OutOfFuel).
Proof.
  intros Ho Hv s [H1 H2 H3 H4 H5 H6 H7 H8] Hn. unfold wp, try_candidate, st_bind, st_zoom.
  cbn [see_resource resource_context]. pose proof (Hverify o v _ H1 Hv) as Hc.
  destruct (verify_candidate request o v (resource_context s)) as [r c]. destruct Hc as (Hr & Hc & Hf).
  destruct r as [[]|e]; [| |intros ->; by apply Hr]; cbn.
  - assert (listed_ok (found_resources s ++ [o])) as Hl.
    { destruct H2 as [L1 L2 L3]. split.
      - apply NoDup_app. split_and!; [done|set_solver|apply NoDup_singleton].
      - intros o' [?| ->%list_elem_of_singleton]%elem_of_app; [by apply L2|]. split; [done|by apply Hf].
      - rewrite length_app. simpl. lia. }
    unfold lookup_result_limit_reached. destruct (Z.leb_spec (nz_get (max_lookup_results limits))
      (Z.of_nat (length (found_resources s ++ [o])))); [done|].
    split; [|done]. split; try done. cbn. intros o' [?%H4| ->%list_elem_of_singleton]%elem_of_app; set_solver.
  - split; [|done]. split; try done. cbn. intros o' ?%H4. set_solver.
Qed.

(** A candidate is looked at once. *)
Lemma may_stop_candidate (test : bool) o v :
  (test = true → namespace o = as_str resource_type ∧ proper o v) →
  may_stop (λ s, if test && negb (bool_decide (o ∈ seen_resources s))
                 then try_candidate request limits o v s else (Ok false, s)).
Proof.
  intros Hp s Hs. unfold wp. destruct test; simpl; [|done]. destruct (Hp eq_refl) as [Ho Hv].
  case_bool_decide as Hn; simpl; [done|]. pose proof (traced_candidate o v Ho Hv s Hs Hn) as Hc.
  unfold wp in Hc. destruct (try_candidate _ _ _ _ s) as [[[]|e] s']; try done.
Qed.

(** ** Relationships *)

Lemma traced_direct_row t rel : continues any (direct_row_is_exact snapshot t rel).
Proof.
  eapply (traced_bind _ any); [by apply traced_done; [apply reached_lift|]|].
  intros rd _. apply traced_any.
Qed.

Lemma traced_proof x p o : (0 ≤ direct_depth p)%Z →
  continues (λ q, later q ∧ (proof_exact q = true → proof_exact p = true ∧ direct_depth p = 0%Z))
    (relationship_proof snapshot x p o).
Proof.
  intros Hp. assert (continues (λ q, later q ∧ (proof_exact q = true → proof_exact p = true ∧
    direct_depth p = 0%Z)) (st_ret inexact)) as Hinexact.
  { eapply traced_mono; [apply traced_ret|]. by intros a ->. }
  unfold relationship_proof. destruct (proof_exact p) eqn:E; simpl; [|done].
  destruct (Z.ltb_spec 0 (direct_depth p)); [done|].
  eapply traced_bind; [apply traced_domain|]. intros t _.
  eapply traced_bind; [apply traced_domain|]. intros rel _.
  eapply traced_bind; [apply traced_direct_row|]. intros b _. destruct b; [|done].
  eapply traced_mono; [apply traced_ret|]. intros a ->. unfold next_exact. rewrite E.
  unfold later, saturating_add. simpl. unfold u32_max. split_and!; [lia|lia|]. intros _. split; [done|lia].
Qed.

(** A result that is remembered: looked up, or computed and stored. *)
Lemma traced_remembered {A} (find : ResourceState → option A) (Q : A → Prop) (m : Trace A)
    (store : A → ResourceState → ResourceState) (f : Trace A) :
  (∀ s, f s = match find s with
              | Some a => (Ok a, s)
              | None => (let! a := m in λ s, (Ok a, store a s)) s
              end) →
  (∀ s a, trace_ok s → find s = Some a → Q a) → continues Q m →
  (∀ s a, Q a → trace_ok s → trace_ok (store a s) ∧ turns (store a s) = turns s) → continues Q f.
Proof.
  intros Hf Hfind Hm Hstore s Hs. unfold wp. rewrite Hf. destruct (find s) as [a|] eqn:E; [by eauto|].
  pose proof (Hm s Hs) as Hw. unfold st_bind, wp in *. destruct (m s) as [[a|e] s1]; [|done].
  destruct Hw as (HQ & Hs1 & Ht). destruct (Hstore s1 a HQ Hs1) as [Hs2 Ht2]. split; [done|].
  split; [done|]. by rewrite Ht2.
Qed.

Lemma traced_downstream st name : continues any (may_have_downstream snapshot st name).
Proof.
  eapply (traced_remembered (λ s, snd <$> List.find (λ p : RelationName * bool,
    bool_decide (as_str p.1 = name)) (pruned_downstream s)) _
    (let! rel := try_domain (ident_new KRelationName name) in
     st_ret (view_has_reverse_subject_candidates view (mkSubjectFilter st None (Some rel))))
    (λ b s, set_downstream (pruned_downstream s ++
       match ident_new KRelationName name with Ok rel => [(rel, b)] | Err _ => [] end) s)).
  - intros s. unfold may_have_downstream. destruct (List.find _ _) as [[r b]|]; [done|].
    cbn [fmap option_fmap option_map]. unfold try_domain, st_lift, lift_stop, st_bind. by destruct (ident_new _ _).
  - done.
  - eapply (traced_bind _ any); [eapply traced_mono; [apply traced_domain|done]|]. intros rel _.
    apply traced_any.
  - intros s a _ []. split; [by split|done].
Qed.

(** What a row is listed for. *)
Definition listed_for (entry : LookupFrontierEntry) (x : RelationshipRef) : Prop :=
  ∃ f, subject_filter_of_user (frontier_subject entry) = Ok f ∧
       x ∈ view_items view (view_reverse_query view f).

Lemma listed_all entry x : listed_for entry x → x ∈ all_rows view.
Proof. intros (f & _ & Hx). by eapply view_items_all. Qed.

Lemma row_universe x n : x ∈ all_rows view → n ∈ universe_names snapshot →
  Userset (resource_object_legacy x) (mkRelation n) ∈ universe snapshot subject.
Proof.
  intros Hx Hn. apply elem_of_universe; [|done]. right. apply list_elem_of_fmap. by exists x.
Qed.

Lemma row_name x : x ∈ all_rows view → relation_name_str x ∈ universe_names snapshot.
Proof. intros Hx. apply elem_of_app. left. apply list_elem_of_fmap. by exists x. Qed.

Lemma row_type x : resource_type_eq x resource_type = true →
  namespace (resource_object_legacy x) = as_str resource_type.
Proof. by intros ?%bool_decide_eq_true. Qed.

(** The verification a row's candidate gets. *)
Lemma row_proper entry x q :
  subject_ok entry → listed_for entry x → resource_type_eq x resource_type = true →
  (proof_exact q = true → proof_exact (frontier_proof entry) = true ∧
     direct_depth (frontier_proof entry) = 0%Z) →
  proper (resource_object_legacy x)
    (match plan with Some p => verification_for_relationship p x q limits | None => FullRoot end).
Proof.
  intros [_ _ Hroot] (f & Hf & Hx) Ht Hq. pose proof (Hfull _ (row_type _ Ht)) as Hfr.
  destruct plan as [p|] eqn:Ep; [|done]. unfold verification_for_relationship.
  destruct (proof_exact q); simpl; [|done]. destruct (_ <=? _)%Z; [done|].
  destruct (List.find _ _) as [rule|] eqn:Er; [|done].
  apply List.find_some in Er as [Hin%list_elem_of_In Hr].
  destruct (Hq eq_refl) as [Hex H0']. rewrite (Hroot Hex H0') in Hf. by eapply Hrule.
Qed.

Lemma stops_row entry x prune : subject_ok entry → listed_for entry x →
  may_stop (process_row snapshot request limits resource_type plan entry x prune).
Proof.
  intros He Hx. pose proof (listed_all _ _ Hx) as Hall.
  eapply traced_bind; [apply traced_proof, He|]. intros q [Hlater Hq].
  apply stops_bind.
  - eapply (may_stop_candidate (resource_type_eq x resource_type && negb prune)).
    intros [Ht _]%andb_true_iff. split; [by apply row_type|]. by apply (row_proper entry).
  - eapply (traced_bind _ any); [destruct prune|].
    + eapply traced_bind; [apply traced_domain|]. intros f _. apply traced_any.
    + apply traced_any.
    + intros follow _. eapply (traced_bind _ any); [destruct follow|].
      * apply traced_visit; [|done]. by apply row_universe, row_name.
      * apply traced_any.
      * intros _ _. by apply stops_ret.
Qed.

Lemma stops_relationship st entry x : subject_ok entry → listed_for entry x →
  may_stop (process_relationship snapshot request limits resource_type plan st entry x).
Proof.
  intros He Hx. eapply (traced_bind _ any).
  - destruct plan as [p|]; [|apply (traced_any false)].
    intros s Hs. unfold wp. destruct (resource_type_eq x resource_type); [|done].
    destruct (should_prune p x (producer_runtime s)) as [b r]. split; [done|]. destruct Hs. by split.
  - intros prune _. eapply (traced_bind _ any).
    + destruct prune; [apply traced_downstream|apply traced_any].
    + intros [] _; [by apply stops_row|by apply stops_ret].
Qed.

Lemma stops_all {A} (step : A → Trace bool) l : Forall (λ x, may_stop (step x)) l →
  may_stop (process_all step l).
Proof.
  induction 1 as [|x l Hx _ IH]; simpl; [by apply stops_ret|]. by apply stops_bind.
Qed.

(** ** Expansions *)

Definition from_schema (names : list RelationName) : Prop := ∀ n, n ∈ names → n ∈ schema_names snapshot.

Lemma traced_same_object t source :
  continues from_schema (same_object_expansions snapshot t source).
Proof.
  eapply (traced_remembered (λ s, se_target_relations <$> List.find (λ x,
      bool_decide (se_object_type x = t) && bool_decide (se_source_relation x = source))
      (relation_expansions s)) _ (st_lift (same_object_relations schema source t))
    (λ rels s, set_expansions (relation_expansions s ++ [mkExpansion t source rels]) s)).
  - intros s. unfold same_object_expansions. by destruct (List.find _ _).
  - intros s names Hs (x & Hx & ->)%fmap_Some n Hn. apply List.find_some in Hx as [Hx%list_elem_of_In _].
    by eapply (tr_expansions _ Hs).
  - apply traced_done; [apply same_object_reached|]. intros names Hn n Hin. apply elem_of_app. right.
    by eapply same_object_names.
  - intros s names Hn []. split; [split; try done|done]. intros x n. cbn.
    intros [Hx| ->%list_elem_of_singleton]%elem_of_app Hin; [by eapply tr_expansions0|by apply Hn].
Qed.

(** A userset is visited if the view may hold rows for it. *)
Lemma enqueue_then {A} stop (Q : A → Prop) (k : Trace A) o n :
  o ∈ universe_objects snapshot subject → n ∈ schema_names snapshot → traced stop Q k →
  let u := Userset o (mkRelation (as_str n)) in
  traced stop Q
    (let! f := try_domain (subject_filter_of_user u) in
     let! _ := if view_has_reverse_subject_candidates view f then visit_subject u inexact
               else st_ret tt in
     k).
Proof.
  intros Ho Hn Hk u. eapply traced_bind; [apply traced_domain|]. intros f _.
  eapply (traced_bind _ any); [|done].
  destruct (view_has_reverse_subject_candidates _ f); [|apply traced_any].
  apply traced_visit; [|apply inexact_later]. apply elem_of_universe; [done|].
  apply elem_of_app. right. apply list_elem_of_fmap. by exists n.
Qed.

Lemma traced_enqueue_targets o names : o ∈ universe_objects snapshot subject → from_schema names →
  continues any (enqueue_targets snapshot o names).
Proof.
  intros Ho. induction names as [|n names IH]; intros Hn; [apply traced_any|].
  apply enqueue_then; [done|apply Hn; by left|]. apply IH. intros n' Hn'. apply Hn. by right.
Qed.

Lemma traced_expansions entry : subject_ok entry →
  continues any (enqueue_expansions snapshot (frontier_subject entry)).
Proof.
  intros [_ Hu _]. destruct (frontier_subject entry) as [i|o rel]; [apply traced_any|].
  apply universe_object in Hu.
  eapply traced_bind; [apply traced_domain|]. intros t _.
  eapply traced_bind; [apply traced_domain|]. intros source _.
  eapply traced_bind; [apply traced_same_object|]. intros names Hn. by apply traced_enqueue_targets.
Qed.

(** ** Tuplesets *)

Definition targets_from_schema (ts : list TupleToUsersetExpansionTarget) : Prop :=
  ∀ t, t ∈ ts → target_relation t ∈ schema_names snapshot.

Lemma traced_tuple_targets t source : continues targets_from_schema (tuple_targets snapshot t source).
Proof.
  eapply (traced_remembered (λ s, te_targets <$> List.find (λ x,
      bool_decide (te_object_type x = t) && bool_decide (te_source_relation x = source))
      (tuple_expansions s)) _ (st_lift (tuple_to_userset_targets schema source t))
    (λ ts s, set_tuples (tuple_expansions s ++ [mkTupleExpansion t source ts]) s)).
  - intros s. unfold tuple_targets. by destruct (List.find _ _).
  - intros s ts Hs (x & Hx & ->)%fmap_Some t' Ht. apply List.find_some in Hx as [Hx%list_elem_of_In _].
    by eapply (tr_tuples _ Hs).
  - apply traced_done; [apply tuple_targets_reached|]. intros ts Hts t' Ht. apply elem_of_app. left.
    by eapply tuple_targets_of.
  - intros s ts Hts []. split; [split; try done|done]. intros x t'. cbn.
    intros [Hx| ->%list_elem_of_singleton]%elem_of_app Hin; [by eapply tr_tuples0|by apply Hts].
Qed.

Lemma stops_target x t : x ∈ all_rows view → target_relation t ∈ schema_names snapshot →
  may_stop (process_target snapshot request limits resource_type x t).
Proof.
  intros Hx Ht. unfold process_target. destruct (negb _); [by apply stops_ret|]. apply stops_bind.
  - apply may_stop_candidate. intros Htype%row_type. split; [done|by apply Hfull].
  - apply enqueue_then; [|done|by apply stops_ret]. right. apply list_elem_of_fmap. by exists x.
Qed.

Lemma stops_tuple_edges entry : subject_ok entry →
  may_stop (process_tuple_edges snapshot request limits resource_type (frontier_subject entry)).
Proof.
  intros _. destruct (frontier_subject entry) as [i|o rel]; [by apply stops_ret|].
  eapply traced_bind; [apply traced_domain|]. intros t _.
  eapply traced_bind; [apply traced_domain|]. intros source _.
  eapply traced_bind; [apply traced_tuple_targets|]. intros ts Hts.
  eapply traced_bind; [apply traced_domain|]. intros st _.
  eapply traced_bind; [apply traced_domain|]. intros i _. cbv zeta.
  case_bool_decide; [by apply stops_ret|]. apply stops_all, Forall_forall. intros x Hx%view_items_all.
  apply stops_all, Forall_forall. intros t' [_ Ht']%list_elem_of_filter. by apply stops_target; [|apply Hts].
Qed.

(** ** The frontier *)

Lemma stops_entry st entry : subject_ok entry →
  may_stop (process_entry snapshot request limits resource_type plan st entry).
Proof.
  intros He. eapply traced_bind; [by apply traced_expansions|]. intros _ _.
  eapply traced_bind; [apply traced_domain|]. intros f Hf. apply stops_bind; [|by apply stops_tuple_edges].
  apply stops_all, Forall_forall. intros x Hx. apply stops_relationship; [done|]. by exists f.
Qed.

Lemma process_frontier_eq st fuel s entry rest : frontier s = entry :: rest →
  process_frontier snapshot request limits resource_type plan st (S fuel) s =
  (let! stop := process_entry snapshot request limits resource_type plan st entry in
   if (stop : bool) then st_ret tt
   else process_frontier snapshot request limits resource_type plan st fuel) (set_frontier rest s).
Proof. intros E. cbn [process_frontier]. by rewrite E. Qed.

(** The traversal ends, and what it lists is right. *)
Lemma frontier_ends st fuel : ∀ s, trace_ok s → turns s ≤ fuel →
  wp (process_frontier snapshot request limits resource_type plan st fuel) s
    (λ _ s', listed_ok (found_resources s')) (λ e _, e ≠ OutOfFuel).
Proof.
  induction fuel as [|fuel IH]; intros s Hs Ht; (destruct (frontier s) as [|entry rest] eqn:E;
    [unfold wp; cbn [process_frontier]; rewrite E; apply Hs|]).
  - unfold turns in Ht. rewrite E in Ht. simpl in Ht. lia.
  - unfold wp. rewrite (process_frontier_eq _ _ _ _ _ E).
    pose proof (tr_frontier _ Hs) as Hfr. rewrite E in Hfr. apply Forall_cons in Hfr as [He Hrest].
    assert (trace_ok (set_frontier rest s)) as Hs1 by (destruct Hs; by split).
    assert (turns (set_frontier rest s) ≤ fuel) as Ht1.
    { unfold turns in *. rewrite E in Ht. simpl in *. lia. }
    refine (wp_bind (process_entry _ _ _ _ _ st entry) _ (set_frontier rest s) _ _ _).
    eapply wp_mono; [| |by apply (stops_entry st entry He)]; [|done].
    intros [] s2 [_ Hs2]; [exact Hs2|]. destruct Hs2. apply IH; [done|lia].
Qed.

(** From the state a lookup starts in, its fuel is enough. *)
Lemma start_ends st (b : bool) :
  fresh (context_new_with_request_memo snapshot limits) →
  wp (process_frontier snapshot request limits resource_type plan st (frontier_fuel snapshot))
    (mkResourceState (runtime_new b) [] [] [] [mkEntry subject exact_root] {[subject]} ∅ []
       (context_new_with_request_memo snapshot limits))
    (λ _ s', listed_ok (found_resources s')) (λ e _, e ≠ OutOfFuel).
Proof.
  intros Hc. pose proof (nz_range (max_lookup_results limits)). apply frontier_ends.
  - split; simpl; [done| |lia|by intros o ?%not_elem_of_nil| | |by intros x n ?%not_elem_of_nil..].
    + split; simpl; [constructor|by intros o ?%not_elem_of_nil|lia].
    + apply Forall_singleton. split; simpl; [lia| |done]. unfold universe. set_solver.
    + unfold universe. set_solver.
  - unfold turns. cbn [frontier visited_subjects length]. rewrite size_singleton.
    pose proof (universe_size snapshot subject).
    assert (0 < frontier_fuel snapshot) by (unfold frontier_fuel; lia). lia.
Qed.
End traversal.
