(* ===== verification/LookupResourcesSound.v ===== *)
(** * The verification of a resource candidate

    A verification returns and gives back its context; a candidate it passes has
    the permission: by a whole check, or by the rule of the producer plan and the
    residuals left to check. *)

From S2P Require Import Prelude Model Domain Revision Schema StoreTypes Row Store StoreView.
From S2P Require Import EvalContext Eval EvalReads EvalInv EvalTotal EvalSpec EvalSound EvalProps CheckProps.
From S2P Require Import Requests LookupSubjects LookupSubjectsInv LookupPlan LookupPlanInv.
From S2P Require Import LookupResources LookupResourcesInv.

Section candidates.
Context `{Hasher}.
Variable request : LookupResourcesRequest.

(** ** Verifications return *)

Lemma reset_parts c :
  ctx_snapshot (reset_for_reuse c) = ctx_snapshot c ∧ ctx_limits (reset_for_reuse c) = ctx_limits c ∧
  check_memo (reset_for_reuse c) = check_memo c ∧ check_stack (reset_for_reuse c) = [] ∧
  remaining_depth (reset_for_reuse c) = nz_get (max_depth (ctx_limits c)).
Proof. unfold reset_for_reuse. by destruct (checked_add _ _ _). Qed.

Section total.
Variable G : CheckMemoKey → Membership → Prop.
Hypothesis HG : ∀ k m, G k m.

Lemma within_residuals n o u rs : runs_within G n (verify_residuals_entered (S n) o u rs).
Proof.
  induction rs as [|r rs IH]; cbn [verify_residuals_entered]; [apply within_ret|].
  apply within_bind; [apply within_expression; intros; by apply within_entry|].
  intros m. destruct (residual_expected r); destruct (_ : bool); auto using within_ret.
Qed.

Lemma within_verify_residuals n o root u rs :
  runs_within G (S n) (verify_residuals (S n) o root u rs).
Proof.
  eapply (within_from G _ _ (λ c, evaluate_check_key _ _)); [done|]. intros c.
  by apply within_check_key, within_residuals.
Qed.
End total.

Lemma verify_returns o v c : context_ok c →
  let '(r, c') := verify_candidate request o v c in r ≠ Err OutOfFuel ∧ context_ok c'.
Proof.
  intros Hc. set (c0 := reset_for_reuse c).
  assert (context_ok c0) as Hc0 by by apply context_ok_next.
  destruct (reset_parts c) as (_ & _ & _ & _ & Hd). fold c0 in Hd.
  assert (∀ m : Eval bool, runs_within any_memo (eval_fuel (ctx_limits c)) m →
    let '(r, c') := m c0 in r ≠ Err OutOfFuel ∧ context_ok c') as Hrun.
  { intros m Hm. pose proof (returned_any _ m c0 Hm Hc0) as Hr.
    rewrite Hd in Hr. specialize (Hr ltac:(unfold eval_fuel; lia)). destruct (m c0). split; apply Hr. }
  destruct v as [| |rs]; unfold verify_candidate; fold c0; [|done|].
  - apply (Hrun (st_bind _ _)). apply within_bind; [by apply within_check|]. intros m. apply within_ret.
  - apply (Hrun (st_bind _ _)). apply within_bind; [apply within_lift_domain|]. intros root.
    apply within_bind; [|intros m; apply within_ret].
    assert (∃ n, eval_fuel (ctx_limits c) = S n) as [n ->].
    { pose proof (nz_range (max_depth (ctx_limits c))). unfold eval_fuel.
      exists (Z.to_nat (nz_get (max_depth (ctx_limits c)) - 1)). lia. }
    by apply within_verify_residuals.
Qed.
End candidates.

(** ** Verifications are right *)

Section sound.
Context `{Hasher}.
Variable snapshot : PublishedSnapshot.
Variable rels : list Relationship.
Context `{Hreads : !ReadsAs (snapshot_relationships snapshot) rels}.
Hypothesis Hschema : schema_good (snapshot_schema snapshot).
Variable request : LookupResourcesRequest.
Variable limits : EvaluationLimits.
Variable t : ObjectType.
Variable permission : RelationName.
Hypothesis Hpermission : mkRelation (as_str permission) = lr_permission request.

Abbreviation u := (lr_subject request).
Abbreviation defs := (cs_definitions (snapshot_schema snapshot)).

(** The bounds of checks, as in [EvalSound]; [U] says who has which relation. *)
Variable G : CheckMemoKey → Membership → Prop.
Variable Inv L : list (Object * RelationName) → Members.
Variable U : Members.
Hypothesis Hint : interpretation snapshot rels u limits G any_error (nz_get (max_depth limits)) True
  Inv L U.
Hypothesis Hroot : ∀ o, Inv [] o permission.

(** What the residuals of the permission's rules need. *)
Definition residual_right (o : Object) (r : LookupResidualCheck) : Prop :=
  let e := erase (residual_expression r) in let rel := residual_context r in
  let below := L [(o, permission)] in
  refs_ok defs t (residual_expression r) ∧
  (∀ o' rel', calls rels o rel e o' rel' → Inv [(o, permission)] o' rel') ∧
  (sat rels u U below o rel e → sat rels u U U o rel e) ∧
  (residual_expected r = ExpectDenied → sat rels u U U o rel e → sat rels u below U o rel e).

(** A context between verifications. *)
Record fresh (c : EvaluationContext) : Prop := {
  fr_ok : context_ok c;
  fr_snapshot : ctx_snapshot c = snapshot;
  fr_limits : ctx_limits c = limits;
  fr_memo : memo_good G c
}.

Abbreviation evals := (EvalInv.evals G any_error).

Lemma fresh_reset c : fresh c → fresh (reset_for_reuse c).
Proof.
  intros [H1 H2 H3 H4]. destruct (reset_parts c) as (Hs & Hl & Hm & _ & _).
  split; [by apply context_ok_next|congruence|congruence|]. unfold memo_good. by rewrite Hm.
Qed.

Lemma fresh_keeps c c' : fresh c → keeps G c c' → fresh c'.
Proof. intros [H1 H2 H3 H4] [[] Hc Hm]. split; [done|congruence|congruence|done]. Qed.

Lemma reset_stacked c : fresh c →
  stacked snapshot u limits (nz_get (max_depth limits)) True (reset_for_reuse c) [].
Proof.
  intros Hf. destruct (reset_parts c) as (Hs & Hl & _ & Hk & Hd).
  split; [by rewrite Hs; apply Hf|by rewrite Hl; apply Hf|rewrite Hk; constructor| |done].
  rewrite Hd, (fr_limits _ Hf). simpl. lia.
Qed.

(** The residuals, once the root is entered. *)
Lemma evals_residuals fuel o rs c1 :
  namespace o = as_str t → Forall (residual_right o) rs →
  stacked snapshot u limits (nz_get (max_depth limits)) True c1 [(o, permission)] →
  (remaining_depth c1 < Z.of_nat fuel)%Z → ∀ c, keeps G c1 c →
  evals c (verify_residuals_entered fuel o u rs)
    (λ m, m = Allowed → Forall (holds rels u U o) rs).
Proof.
  intros Ho Hrs Hst Hd. induction Hrs as [|r rs (Hrefs & Hcalls & Hup & Hlow) _ IH]; intros c Hc;
    cbn [verify_residuals_entered]; [by apply evals_ret; [apply Hc..|constructor]|].
  set (e := residual_expression r) in *. set (rel := residual_context r) in *.
  eapply evals_bind.
  - apply (evals_expression snapshot rels Hschema u limits G any_error c1 (sk_snapshot _ _ _ _ _ _ _ Hst)
      (sk_limits _ _ _ _ _ _ _ Hst) (check_entry fuel) (L [(o, permission)]) U o rel t e);
      [by rewrite Ho|by split|done| |done].
    intros entry o' rel' c' Hc' He Hcall.
    apply (evals_entry snapshot rels Hschema u limits G any_error Hint fuel);
      [by eapply stacked_keeps|apply Hc'..|by apply Hcalls|done|].
    rewrite (sh_depth _ _ (kp_shell _ _ _ Hc')). done.
  - intros m c2 Hc2 Hm. pose proof (keeps_trans _ _ _ _ Hc Hc2) as Hc2'.
    assert (∀ b : bool, (b = false → holds rels u U o r) →
      evals c2 (if b then st_ret Denied else verify_residuals_entered fuel o u rs)
        (λ m, m = Allowed → Forall (holds rels u U o) (r :: rs))) as Hrest.
    { intros [] Hb; [by apply evals_ret; [apply Hc2'..|]|].
      eapply evals_mono; [by apply IH|]. intros m' Hm' Ha. constructor; auto. }
    unfold holds in Hrest. fold e rel in Hrest. destruct (residual_expected r); apply Hrest.
    + rewrite negb_false_iff, bool_decide_eq_true. intros ->. by apply Hup, Hm.
    + rewrite bool_decide_eq_false. intros Hne Hs. by apply Hne, Hm, Hlow.
Qed.

Lemma evals_verify_residuals o rs c :
  namespace o = as_str t → Forall (residual_right o) rs → fresh c →
  evals (reset_for_reuse c) (verify_residuals (eval_fuel limits) o permission u rs)
    (λ m, m = Allowed → Forall (holds rels u U o) rs).
Proof.
  intros Ho Hrs Hf. pose proof (reset_stacked c Hf) as Hst. destruct (fresh_reset c Hf) as [Hok Hsn Hl Hm].
  destruct (reset_parts c) as (_ & _ & _ & Hk & Hd). rewrite (fr_limits _ Hf) in Hd.
  eapply (evals_from G any_error _ _ (evaluate_check_key _ _)); [done|]. rewrite Hsn.
  apply evals_check_key; [done|done|..]; rewrite ?Hk; try done.
  intros _ Hpos c1 Hc1 Hm1 Hen. apply (evals_residuals _ o rs c1); [done|done| | |by apply keeps_refl].
  - eapply stacked_entered; [exact Hst|exact Hen|by left].
  - rewrite (en_depth _ _ _ Hen), Hd. unfold eval_fuel. lia.
Qed.

(** What the traversal knows of a candidate. *)
Definition proper (o : Object) (v : LookupCandidateVerification) : Prop :=
  namespace o = as_str t ∧
  match v with
  | FullRoot => True
  | ProvenWithoutCheck => U o permission
  | Residual rs => Forall (residual_right o) rs ∧ (Forall (holds rels u U o) rs → U o permission)
  end.

Lemma verify_right o v c : fresh c → proper o v →
  let '(r, c') := verify_candidate request o v c in
  r ≠ Err OutOfFuel ∧ fresh c' ∧ (r = Ok true → U o permission).
Proof.
  intros Hf [Ho Hv]. pose proof (verify_returns request o v c (fr_ok _ Hf)) as Hr.
  assert (∀ (m : Eval Membership) (P : Membership → Prop), evals (reset_for_reuse c) m P →
    (∀ m, P m → m = Allowed → U o permission) →
    let '(r, c') := (let! m := m in st_ret (is_allowed m)) (reset_for_reuse c) in
    fresh c' ∧ (r = Ok true → U o permission)) as Hrun.
  { intros m P Hm HP. unfold evals, wp, st_bind in *.
    destruct (m (reset_for_reuse c)) as [[m'|e] c']; destruct Hm as [Hk HQ];
      (split; [by eapply fresh_keeps; [apply fresh_reset|]|]); [|done].
    intros [= Ha]. apply (HP m' HQ). by destruct m'. }
  pose proof (fr_limits _ Hf) as Hl.
  destruct v as [| |rs]; unfold verify_candidate in *.
  - rewrite Hl, <- Hpermission in *.
    specialize (Hrun (check (eval_fuel limits) o (mkRelation (as_str permission)) u)
      (post (L [] o permission) (U o permission))).
    destruct ((let! m := _ in _) (reset_for_reuse c)) as [r c'].
    assert (fresh c' ∧ (r = Ok true → U o permission)); [|naive_solver].
    apply Hrun; [|intros m Hm; apply Hm]. destruct (fresh_reset c Hf) as [Hok Hsn Hlim Hm].
    apply (evals_check snapshot rels Hschema u limits G any_error Hint); [by apply reset_stacked|done|done|done|].
    destruct (reset_parts c) as (_ & _ & _ & _ & ->). rewrite Hl. unfold eval_fuel. lia.
  - done.
  - destruct Hv as [Hrs Hholds]. rewrite Hl, <- Hpermission in *.
    specialize (Hrun (verify_residuals (eval_fuel limits) o permission u rs)
      (λ m, m = Allowed → Forall (holds rels u U o) rs)).
    assert (lift_domain (relation_name_of (mkRelation (as_str permission))) = st_ret permission) as Hp
      by (by rewrite relation_name_of_as_str).
    rewrite Hp in *. unfold st_bind at 1, st_ret at 1 in Hr. unfold st_bind at 1, st_ret at 1.
    destruct ((let! m := verify_residuals _ _ _ _ _ in _) (reset_for_reuse c)) as [r c'].
    assert (fresh c' ∧ (r = Ok true → U o permission)); [|naive_solver].
    apply Hrun; [by apply evals_verify_residuals|]. auto.
Qed.

(** ** The traversal *)

Hypothesis Hstep : ∀ o rel, step defs rels u U U o rel → U o rel.
Hypothesis Hfits : ∀ o r, namespace o = as_str t →
  residual_fits (snapshot_schema snapshot) rels t permission r → residual_right o r.

(** A row of the request's subject grants its relation directly. *)
Lemma row_direct f x rel :
  subject_filter_of_user u = Ok f →
  x ∈ view_items (snapshot_relationships snapshot) (view_reverse_query (snapshot_relationships snapshot) f) →
  relation_name_eq x rel = true → direct rels u (resource_object_legacy x) rel.
Proof.
  intros Hf Hx Hrel%bool_decide_eq_true. destruct (reads_reverse f) as (rs & Hden & Hperm).
  apply list_elem_of_lookup in Hx as [i Hi]. destruct (Forall2_lookup_l _ _ _ _ _ Hden Hi) as (r & Hri & Hr).
  apply list_elem_of_lookup_2 in Hri. rewrite Hperm in Hri. apply list_elem_of_filter in Hri as [Hm Hin].
  apply ref_denotes_parts in Hr as (-> & Hname & _). exists (subject r).
  split; [|by apply (subject_filter_names _ _ _ Hf)]. exists r. split_and!; [done|done| |done].
  apply ident_eq. congruence.
Qed.

Lemma rule_proper p f x rule :
  lookup_producer_plan (snapshot_schema snapshot) t permission = Ok (Some p) →
  subject_filter_of_user u = Ok f →
  x ∈ view_items (snapshot_relationships snapshot) (view_reverse_query (snapshot_relationships snapshot) f) →
  resource_type_eq x t = true → rule ∈ plan_rules p → relation_name_eq x (rule_relation rule) = true →
  proper (resource_object_legacy x) (rule_verification rule).
Proof.
  intros Hp Hf Hx Ht%row_type Hr Hrel. split; [done|].
  pose proof (producer_plan_ok _ Hschema rels u U Hstep t permission p Hp) as Hrules.
  rewrite Forall_forall in Hrules. destruct (Hrules rule Hr) as [Hs Hfit].
  specialize (Hs _ Ht (row_direct f x _ Hf Hx Hrel)).
  destruct (rule_verification rule) as [| |rs]; simpl in *; [done|by apply Hs|].
  split; [|done]. eapply Forall_impl; [exact Hfit|]. intros r Hr'. by apply Hfits.
Qed.

(** Whoever is listed has the permission. *)
Lemma frontier_right plan st b :
  lookup_producer_plan (snapshot_schema snapshot) t permission = Ok plan →
  wp (process_frontier snapshot request limits t plan st (frontier_fuel snapshot))
    (mkResourceState (runtime_new b) [] [] [] [mkEntry u exact_root] {[u]} ∅ []
       (context_new_with_request_memo snapshot limits))
    (λ _ s', listed_ok limits t (λ o, U o permission) (found_resources s')) (λ e _, e ≠ OutOfFuel).
Proof.
  intros Hp. apply (start_ends _ _ _ _ _ fresh proper).
  - intros o v c. apply verify_right.
  - intros o Ho. by split.
  - intros p f x rule -> . by apply rule_proper.
  - split; [apply context_ok_new_memo|done|done|]. intros memo k e [= <-]. simpl.
    by rewrite lookup_empty.
Qed.
End sound.
