(* ===== verification/LookupResourcesProps.v ===== *)
(** * Correctness of resource lookups

    A lookup of resources returns, and the resources it lists have the
    permission; that it lists all of them fails, in four ways. *)

From S2P Require Import Prelude Model Domain Revision Schema StoreTypes Store StoreProps StoreView ViewSpec.
From S2P Require Import ViewProps EvalContext Eval EvalReads EvalInv EvalTotal EvalSpec EvalSound.
From S2P Require Import EvalProps CheckProps Requests LookupSubjects LookupPlan LookupPlanInv.
From S2P Require Import LookupResources LookupResourcesInv LookupResourcesSound.

Section lookup.
Context `{Hasher}.

(** ** The request *)

(** The traversal a lookup starts. *)
Definition lookup_traversal (snapshot : PublishedSnapshot) (request : LookupResourcesRequest)
    (limits : EvaluationLimits) (t : ObjectType) (plan : option LookupProducerPlan) (st : SubjectType)
    : result EvalStop unit * ResourceState :=
  process_frontier snapshot request limits t plan st (frontier_fuel snapshot)
    (mkResourceState (runtime_new (bool_decide (is_Some plan))) [] [] []
       [mkEntry (lr_subject request) exact_root] {[lr_subject request]} ∅ []
       (context_new_with_request_memo snapshot limits)).

Lemma lookup_resources_cases snapshot request limits :
  (∃ z, lookup_resources_with_snapshot snapshot request limits = Err (Stop z)) ∨
  ∃ (t : ObjectType) (permission : RelationName) plan st,
    as_str t = lr_resource_type request ∧ relation_name_of (lr_permission request) = Ok permission ∧
    lookup_producer_plan (snapshot_schema snapshot) t permission = Ok plan ∧
    lookup_resources_with_snapshot snapshot request limits =
      let '(r, s) := lookup_traversal snapshot request limits t plan st in
      _ ← r; Ok (mkResources (found_resources s)).
Proof.
  unfold lookup_resources_with_snapshot, lift_stop.
  destruct (ident_new KObjectType _) as [t|e] eqn:Ht; [|left; by eexists].
  destruct (relation_name_of _) as [permission|e] eqn:Hp; [|left; by eexists].
  cbn [map_err mbind result_bind].
  destruct (resolver_relation _ t permission) as [rd|e]; [|left; by eexists].
  cbn [map_err mbind result_bind].
  pose proof (producer_plan_reached (snapshot_schema snapshot) t permission) as Hr.
  destruct (lookup_producer_plan _ t permission) as [plan|[z|]] eqn:Hplan; [|left; by eexists|done].
  destruct (ident_new KSubjectType _) as [st|e]; [|left; by eexists].
  right. exists t, permission, plan, st. apply ident_new_Ok in Ht. done.
Qed.

Lemma resources_returned snapshot request limits :
  match lookup_resources_with_snapshot snapshot request limits with
  | Ok l =>
      NoDup (resources l) ∧
      (Z.of_nat (length (resources l)) ≤ nz_get (max_lookup_results limits))%Z ∧
      ∀ o, o ∈ resources l → namespace o = lr_resource_type request
  | Err e => e ≠ OutOfFuel
  end.
Proof.
  destruct (lookup_resources_cases snapshot request limits)
    as [[z ->]|(t & permission & plan & st & Ht & _ & _ & ->)]; [done|].
  pose proof (start_ends snapshot request limits t plan context_ok (λ _ _, True) (λ _, True)) as Hw.
  unfold lookup_traversal, wp in *.
  assert (∀ o v c, context_ok c → True → let '(r, c') := verify_candidate request o v c in
    r ≠ Err OutOfFuel ∧ context_ok c' ∧ (r = Ok true → True)) as Hv.
  { intros o v c Hc _. pose proof (verify_returns request o v c Hc) as Hr.
    destruct (verify_candidate _ _ _ _). naive_solver. }
  specialize (Hw Hv (λ _ _, I) (λ _ _ _ _ _ _ _ _ _ _, I) st (bool_decide (is_Some plan))
    (context_ok_new_memo snapshot limits)).
  destruct (process_frontier _ _ _ _ _ _ _ _) as [[a|e] s]; [|simpl; congruence].
  destruct Hw as [Hn Hf Hb]. split_and!; [done|done|]. intros o [Ho _]%Hf. congruence.
Qed.

Lemma resources_total snapshot request limits :
  lookup_resources_with_snapshot snapshot request limits ≠ Err OutOfFuel.
Proof.
  pose proof (resources_returned snapshot request limits) as Hl.
  destruct (lookup_resources_with_snapshot _ _ _); congruence.
Qed.

(** a lookup of resources returns, for every schema and whatever the
    relationships are: the analyses of the schema end although relations refer to
    each other in cycles, every subject is put on the frontier at most once and
    there are finitely many, and every verification of a candidate ends within
    the depth limit. The resources it lists are different from each other, of the
    requested type, and no more than the result limit. *)
Theorem lookup_resources_returns snapshot request limits :
  match lookup_resources_with_snapshot snapshot request limits with
  | Ok l =>
      NoDup (resources l) ∧
      (Z.of_nat (length (resources l)) ≤ nz_get (max_lookup_results limits))%Z ∧
      ∀ o, o ∈ resources l → namespace o = lr_resource_type request
  | Err e => e ≠ OutOfFuel
  end.
Proof. apply resources_returned. Qed.

(** ** The answer *)

Section answer.
Variable snapshot : PublishedSnapshot.
Variable defs : list NamespaceDefinition.
Hypothesis Hserves : serves snapshot defs.
Variable request : LookupResourcesRequest.
Variable permission : RelationName.
Hypothesis Hpermission : relation_name_of (lr_permission request) = Ok permission.
Variable limits : EvaluationLimits.

Abbreviation cdefs := (cs_definitions (snapshot_schema snapshot)).
Abbreviation rels := (rels_of snapshot).
Abbreviation u := (lr_subject request).

(** What is listed, for bounds under which checks and residuals are right. *)
Lemma listed_right G Inv L (U : Members) l :
  interpretation snapshot rels u limits G any_error (nz_get (max_depth limits)) True Inv L U →
  (∀ o, Inv [] o permission) → (∀ o rel, step cdefs rels u U U o rel → U o rel) →
  (∀ (t : ObjectType) o r, namespace o = as_str t →
     residual_fits (snapshot_schema snapshot) rels t permission r →
     residual_right snapshot rels request t permission Inv L U o r) →
  lookup_resources_with_snapshot snapshot request limits = Ok l →
  ∀ o, o ∈ resources l → U o permission.
Proof.
  intros Hint Hroot Hstep Hfits Hl.
  destruct (lookup_resources_cases snapshot request limits)
    as [[z E]|(t & permission' & plan & st & Ht & Hp & Hplan & E)]; [congruence|].
  rewrite Hpermission in Hp. injection Hp as <-. rewrite Hl in E.
  assert (mkRelation (as_str permission) = lr_permission request) as Hname.
  { unfold relation_name_of in Hpermission. apply ident_new_Ok in Hpermission.
    rewrite Hpermission. by destruct (lr_permission request). }
  pose proof (frontier_right snapshot rels (Hreads := snapshot_reads _ _ Hserves) (serves_good _ _ Hserves)
    request limits t permission Hname G Inv L U Hint Hroot Hstep (Hfits t) plan st
    (bool_decide (is_Some plan)) Hplan) as Hw.
  unfold lookup_traversal, wp in *. destruct (process_frontier _ _ _ _ _ _ _ _) as [[a|e] s]; [|done].
  injection E as ->. intros o Ho. by apply Hw.
Qed.

(** *** Schemas without exclusion *)

(** A memo entry that does not grant too much. *)
Definition grants_members (mk : CheckMemoKey) (m : Membership) : Prop :=
  m ≠ Conditional ∧ ∀ v o rel, memo_question snapshot v mk o rel → m = Allowed → member cdefs rels v o rel.

Lemma granting_interpretation : positive_schema cdefs →
  interpretation snapshot rels u limits grants_members any_error (nz_get (max_depth limits)) True
    (λ _ _ _, True) (λ _ _ _, False) (member cdefs rels u).
Proof.
  intros Hpos. split; try done.
  - by intros S o rel _ _ [].
  - intros S o rel _ Hs. apply (member_reading _ _ _ Hpos o rel).
    exact (step_positive _ _ _ _ _ _ Hpos _ _ Hs).
  - intros S o rel mk m _ _ Hq [Hm Hg]. split_and!; [by apply Hg|done|done].
  - intros S o rel mk m _ _ Hq (Ha & _ & Hm). split; [done|]. intros v o' rel' Hq'.
    destruct (memo_question_unique snapshot defs Hserves _ _ _ _ _ _ _ Hq Hq') as (<- & <- & <-). done.
Qed.

Lemma positive_listed l : positive_schema defs →
  lookup_resources_with_snapshot snapshot request limits = Ok l →
  ∀ o, o ∈ resources l → member defs rels u o permission.
Proof.
  intros Hpos Hl o Ho. apply (positive_compiled _ _ Hserves) in Hpos.
  apply (member_compiled snapshot defs Hserves). revert o Ho.
  apply (listed_right _ _ _ _ l (granting_interpretation Hpos)); [done| | |done].
  - intros o rel. apply (member_reading _ _ _ Hpos o rel).
  - intros t o r Ho [Hi [Hrefs Hcalls Hp] Hx]. split_and!; [done|done| |by rewrite Hx].
    apply sat_positive; auto.
Qed.

(** *** Well-founded data *)

Variable rank : Object → RelationName → nat.
Hypothesis Hrank : ∀ o rel o' rel', leads_to defs rels o rel o' rel' → rank o' rel' < rank o rel.
Variable M : User → Members.
Hypothesis HM : ∀ u, reading defs rels u (M u).

Lemma includes_rank (t : ObjectType) o rel rel' : namespace o = as_str t →
  includes (snapshot_schema snapshot) rels t rel rel' → rank o rel' ≤ rank o rel.
Proof.
  intros Ho. induction 1 as [rel|rel rel1 rel' Hl _ IH]; [done|].
  specialize (Hl o Ho). apply (leads_to_compiled _ _ Hserves), Hrank in Hl. lia.
Qed.

Lemma ranked_listed l : lookup_resources_with_snapshot snapshot request limits = Ok l →
  ∀ o, o ∈ resources l → M u o permission.
Proof.
  apply (listed_right _ _ _ _ l (ranked_interpretation snapshot defs Hserves rank Hrank M HM u limits
    any_error (nz_get (max_depth limits)) (λ _ _ _, True) ltac:(done) ltac:(by split) ltac:(by split) ltac:(done))).
  - intros o. split; [|done]. by intros q ?%not_elem_of_nil.
  - intros o rel. rewrite (step_compiled _ _ Hserves). apply HM.
  - intros t o r Ho [Hi [Hrefs Hcalls Hp] Hx]. split_and!; [done| |done|done].
    intros o' rel' Hc. split; [|done]. intros q ->%list_elem_of_singleton. simpl.
    apply (Hcalls _ _ _ Ho), (leads_to_compiled _ _ Hserves), Hrank in Hc.
    pose proof (includes_rank t o _ _ Ho Hi). lia.
Qed.
End answer.

(** C16: for a snapshot of a compiled schema without exclusion and a reachable view
    in which no deleted relationship still in the checkpoint names the same user as
    a live one on the same resource and relation ([tombstones_apart]), every
    resource a lookup lists has the permission: the subject is a member, in the
    least reading of the source schema over the view's relationships, whatever
    cycles they form, and although the checks of the candidates share a memo that
    can hold wrong denials. *)
Theorem lookup_resources_sound snapshot defs request permission limits l :
  serves snapshot defs → positive_schema defs →
  relation_name_of (lr_permission request) = Ok permission →
  lookup_resources_with_snapshot snapshot request limits = Ok l →
  ∀ o, o ∈ resources l → member defs (rels_of snapshot) (lr_subject request) o permission.
Proof. intros. by eapply positive_listed. Qed.

(** C15: for a snapshot of any compiled schema and a reachable view in which no
    deleted relationship still in the checkpoint names the same user as a live one
    on the same resource and relation ([tombstones_apart]): on well-founded data,
    every resource a lookup lists has the permission in the reading of the schema.
    In particular the candidates accepted without a whole check are right: a row of
    the relation a rule of the producer plan names, and the residuals that guard the
    rule (the other operands of an intersection, the negation of what an exclusion
    takes away), entail the permission. *)
Theorem lookup_resources_well_founded snapshot defs rank M request permission limits l :
  serves snapshot defs →
  (∀ o rel o' rel', leads_to defs (rels_of snapshot) o rel o' rel' → rank o' rel' < rank o rel) →
  (∀ u, reading defs (rels_of snapshot) u (M u)) →
  relation_name_of (lr_permission request) = Ok permission →
  lookup_resources_with_snapshot snapshot request limits = Ok l →
  ∀ o, o ∈ resources l → M (lr_subject request) o permission.
Proof. intros. by eapply ranked_listed. Qed.
End lookup.

(** ** Concrete inputs *)

Module ResourceExample.
Export CheckExample.

Definition lookup_of (snapshot : PublishedSnapshot) (u : User) (r : RelationName) (t : string)
    : result EvalStop LookupResources :=
  lookup_resources_with_snapshot snapshot (mkLookupResources u (mkRelation (as_str r)) t)
    limits_default.

Definition finds (snapshot : PublishedSnapshot) (u : User) (r : RelationName) (t : string)
    (os : list Object) : bool :=
  match lookup_of snapshot u r t with
  | Ok l => bool_decide (resources l = os)
  | Err _ => false
  end.

Lemma finds_spec snapshot u r t os : finds snapshot u r t os = true →
  lookup_of snapshot u r t = Ok (mkResources os).
Proof.
  unfold finds. destruct (lookup_of _ _ _ _) as [[l]|]; [|done].
  by intros Hl%bool_decide_eq_true; simpl in Hl; subst.
Qed.

Definition doc (i : string) : Object := mkObject "doc" i.
Definition relations (t : string) (rds : list RelationDefinition) : NamespaceDefinition :=
  mkNamespaceDefinition (obj_type t) rds.
Definition stored (r : string) : RelationDefinition := relation_definition_new (rel r) None.
Definition rewritten (r : string) (e : UsersetExpression) : RelationDefinition :=
  relation_definition_new (rel r) (Some e).

(** Two ways to view a document, one of them for the unbanned. *)
Definition two_ways : list NamespaceDefinition :=
  [relations "doc" [stored "invited"; stored "staff"; stored "banned";
     rewritten "view" (Union [Exclusion (ComputedUserset (rel "invited")) (ComputedUserset (rel "banned"));
                              ComputedUserset (rel "staff")])]].
Definition invited_staff : PublishedSnapshot := snapshot_of two_ways
  ["doc:x#invited@user:alice"; "doc:x#staff@user:alice"; "doc:x#banned@user:alice"].

(** Admins of a group are members. *)
Definition admins : list NamespaceDefinition :=
  [relations "group" [stored "admin"; rewritten "member" (Union [This; ComputedUserset (rel "admin")]);
     stored "viewer"]].
Definition administered : PublishedSnapshot := snapshot_of admins
  ["group:g1#admin@user:alice"; "group:g2#viewer@group:g1#member"].

(** Documents in folders. *)
Definition folders : list NamespaceDefinition :=
  [relations "folder" [stored "viewer"; stored "owner"; rewritten "view" (ComputedUserset (rel "viewer"))];
   relations "doc" [stored "parent"; rewritten "view" (TupleToUserset (rel "parent") (rel "view"))]].
Definition filed : PublishedSnapshot := snapshot_of folders
  ["folder:y#viewer@user:alice"; "doc:x1#parent@folder:y#view"; "doc:x2#parent@folder:y#owner"].
End ResourceExample.
Import ResourceExample.

(** The lookup that answers [os] leaves out [o], which a check admits. *)
Definition misses (snapshot : PublishedSnapshot) (defs : list NamespaceDefinition) (r : RelationName)
    (o : Object) (os : list Object) : Prop :=
  serves snapshot defs ∧
  lookup_of snapshot alice r (namespace o) = Ok (mkResources os) ∧
  check_with_snapshot snapshot o (mkRelation (as_str r)) alice limits_default = Ok Allowed ∧
  (Z.of_nat (length os) < nz_get (max_lookup_results limits_default))%Z ∧ o ∉ os.

Definition missesb (snapshot : PublishedSnapshot) (r : RelationName) (o : Object) (os : list Object)
    : bool :=
  finds snapshot alice r (namespace o) os &&
  match check_with_snapshot snapshot o (mkRelation (as_str r)) alice limits_default with
  | Ok m => bool_decide (m = Allowed) | Err _ => false end &&
  (Z.of_nat (length os) <? nz_get (max_lookup_results limits_default))%Z && negb (bool_decide (o ∈ os)).

Lemma missesb_spec snapshot defs r o os :
  serves snapshot defs → missesb snapshot r o os = true → misses snapshot defs r o os.
Proof.
  intros Hs [[[Hf%finds_spec Hc]%andb_true_iff Hl%Z.ltb_lt]%andb_true_iff Ho]%andb_true_iff.
  split; [done|]. split; [done|]. split; [|split; [done|]].
  - destruct (check_with_snapshot _ _ _ _ _); [|done]. by apply bool_decide_eq_true in Hc as ->.
  - by apply negb_true_iff, bool_decide_eq_false in Ho.
Qed.

(** a lookup of resources that is not stopped by its limits can leave out a
    resource that a check admits.
    - A resource is marked as seen before the residuals of the first row that
      leads to it are checked, so it is lost when they fail and another row would
      have granted it: an invited, banned member of staff.
    - A pruned row whose userset no relationship names is dropped before the
      relations that include its relation are looked at: the admin of a group,
      who is a member, and a member of the group may view another.
    - A tupleset is searched by object only when the exact userset named by the
      schema has no rows: one document filed under a folder's viewers hides
      another filed under its owners.
    - The request memo holds wrong denials on cyclic data: of groups that contain
      each other, and one that contains them, the last is left out. *)
Theorem lookup_resources_misses :
  misses invited_staff two_ways (rel "view") (doc "x") [] ∧
  misses administered admins (rel "viewer") (group "g2") [] ∧
  misses filed folders (rel "view") (doc "x2") [doc "x1"] ∧
  misses cyclic groups member_of (group "d") [group "c"; group "a"; group "b"].
Proof.
  split_and!; apply missesb_spec; first [apply serves_of; vm_compute; reflexivity|vm_compute; reflexivity].
Qed.

Lemma lookup_resources_sound_witness :
  lookup_of cyclic alice member_of "group" = Ok (mkResources [group "c"; group "a"; group "b"]) ∧
  member groups (rels_of cyclic) alice (group "b") member_of.
Proof.
  assert (lookup_of cyclic alice member_of "group" =
    Ok (mkResources [group "c"; group "a"; group "b"])) as Hl by (apply finds_spec; vm_compute; reflexivity).
  assert (serves cyclic groups) as Hs by (apply serves_of; vm_compute; reflexivity).
  split; [exact Hl|].
  apply (lookup_resources_sound cyclic groups
    (mkLookupResources alice (mkRelation (as_str member_of)) "group") member_of limits_default _ Hs groups_positive
    (relation_name_of_as_str member_of) Hl).
  right; right; left.
Defined.

Import BannedExample.

Lemma lookup_resources_well_founded_witness :
  lookup_of snapshot alice can_view "doc" = Ok (mkResources [readme]) ∧
  reads alice readme can_view.
Proof.
  assert (lookup_of snapshot alice can_view "doc" = Ok (mkResources [readme])) as Hl
    by (apply finds_spec; vm_compute; reflexivity).
  split; [exact Hl|].
  apply (lookup_resources_well_founded snapshot defs rank reads
    (mkLookupResources alice (mkRelation (as_str can_view)) "doc") can_view limits_default _
    served ranked reads_reading (relation_name_of_as_str can_view) Hl). left.
Defined.
