(* ===== verification/Api.v ===== *)
(** * The public engine (src/src/api.rs)

    Reads go through the published cell, writes through the writer. The writer
    thread is one owner that runs one command at a time; a command is a function
    on the world. *)

From S2P Require Import Prelude Model Domain Revision StoreTypes Schema Store StoreView EvalContext Eval.
From S2P Require Import Dsl Legacy Runtime Writer Policy Requests LookupSubjects LookupResources.

(** ** Errors *)

(** [EngineError]; the writer's channel is outside the model, so its error is not
    produced. *)
Inductive EngineError :=
| EDomain (error : DomainError)
| ESchema (error : SchemaError)
| EStore (error : StoreError)
| EConsistency (error : ConsistencyError)
| EEvaluation (error : EvaluationError)
| ENamespaceNotFound (namespace : string)
| ERelationNotFound (namespace relation : string)
| EParseError (message : string)
| EStorageError (message : string)
| ESchemaRequired
| EWriterUnavailable (operation : string)
| EUnsupportedIndexProfile (operation : string) (profile : IndexProfile).

(** [From<ZanzibarError> for EngineError] *)
Definition engine_error (e : ZanzibarError) : EngineError :=
  match e with
  | ZNamespaceNotFound ns => ENamespaceNotFound ns
  | ZRelationNotFound rel ns => ERelationNotFound ns rel
  | ZParseError message => EParseError message
  | ZStorageError message => EStorageError message
  | ZSchemaRequired => ESchemaRequired
  | ZDomain e => EDomain e
  | ZSchema e => ESchema e
  | ZStore e => EStore e
  | ZConsistency e => EConsistency e
  | ZEvaluation e => EEvaluation e
  end.

(** The derived [Debug] of an index profile. *)
Definition profile_name (p : IndexProfile) : string :=
  match p with
  | Full => "Full"
  | CheckOnly => "CheckOnly"
  | CheckAndObjectAudit => "CheckAndObjectAudit"
  end.

(** [From<EngineError> for ZanzibarError] *)
Definition zanzibar_error (e : EngineError) : ZanzibarError :=
  match e with
  | ENamespaceNotFound ns => ZNamespaceNotFound ns
  | ERelationNotFound ns rel => ZRelationNotFound rel ns
  | EParseError message => ZParseError message
  | EStorageError message => ZStorageError message
  | ESchemaRequired => ZSchemaRequired
  | EDomain e => ZDomain e
  | ESchema e => ZSchema e
  | EStore e => ZStore e
  | EConsistency e => ZConsistency e
  | EEvaluation e => ZEvaluation e
  | EWriterUnavailable operation =>
      ZStorageError ("engine writer actor unavailable during " +:+ operation)
  | EUnsupportedIndexProfile operation profile =>
      ZStorageError ("index profile " +:+ profile_name profile +:+ " does not support " +:+ operation)
  end.

(** How a read ends without an answer: an error, or no fuel left, which the
    program does not have. *)
Inductive EngineStop :=
| Fails (e : EngineError)
| NoFuel.

Abbreviation Answer := (result EngineStop).

Definition of_domain {A} (r : result DomainError A) : Answer A := map_err (λ e, Fails (EDomain e)) r.
Definition of_schema {A} (r : result SchemaError A) : Answer A := map_err (λ e, Fails (ESchema e)) r.
Definition of_zanzibar {A} (r : result ZanzibarError A) : Answer A :=
  map_err (λ e, Fails (engine_error e)) r.
Definition of_eval {A} (r : result EvalStop A) : Answer A :=
  map_err (λ s, match s with Stop e => Fails (engine_error e) | OutOfFuel => NoFuel end) r.

(** ** Reads *)

Section reads.
Context `{Hasher}.

(** [current_state] *)
Definition current_state (cells : Cells) (a : SharedEngineState) : Answer EngineState :=
  ok_or (cell_load cells a) (Fails ESchemaRequired).

(** [ZanzibarEngine::snapshot_for_consistency] *)
Definition read_snapshot (cells : Cells) (a : SharedEngineState) (consistency : Consistency)
    : Answer (PublishedSnapshot * EvaluationLimits) :=
  state ← current_state cells a;
  snapshot ← of_zanzibar (snapshot_for_consistency state consistency);
  Ok (snapshot, es_limits state).

(** [ZanzibarEngine::check] *)
Definition engine_check (cells : Cells) (a : SharedEngineState) (request : CheckRequest)
    : Answer CheckResponse :=
  _ ← of_domain (check_request_validate request);
  '(snapshot, limits) ← read_snapshot cells a (cr_consistency request);
  t ← of_domain (ident_new KObjectType (namespace (cr_object request)));
  rel ← of_domain (ident_new KRelationName (relation_str (cr_relation request)));
  rd ← of_schema (resolver_relation (cs_resolver (snapshot_schema snapshot)) t rel);
  m ← of_eval (check_prepared_with_snapshot snapshot (cr_object request) (cr_relation request)
                 (cr_user request) rd limits);
  Ok (mkCheckResponse (is_allowed m)).

(** [check_relation_with_consistency], [check_relation] *)
Definition check_relation_with_consistency (cells : Cells) (a : SharedEngineState)
    (object : Object) (rel : Relation) (u : User) (consistency : Consistency) : Answer bool :=
  allowed <$> engine_check cells a (mkCheckRequest object rel u consistency).
Definition check_relation (cells : Cells) (a : SharedEngineState)
    (object : Object) (rel : Relation) (u : User) : Answer bool :=
  check_relation_with_consistency cells a object rel u Latest.

(** [ZanzibarEngine::expand] *)
Definition engine_expand (cells : Cells) (a : SharedEngineState) (request : ExpandRequest)
    : Answer ExpandResponse :=
  _ ← of_domain (expand_request_validate request);
  '(snapshot, limits) ← read_snapshot cells a (er_consistency request);
  t ← of_domain (ident_new KObjectType (namespace (er_object request)));
  rel ← of_domain (ident_new KRelationName (relation_str (er_relation request)));
  _ ← of_schema (resolver_relation (cs_resolver (snapshot_schema snapshot)) t rel);
  tree ← of_eval (expand_with_snapshot snapshot (er_object request) (er_relation request) limits);
  Ok (mkExpandResponse tree).

(** [expand_relation] *)
Definition expand_relation (cells : Cells) (a : SharedEngineState)
    (object : Object) (rel : Relation) : Answer ExpandedUserset :=
  expanded <$> engine_expand cells a (mkExpandRequest object rel Latest).

(** One turn of the loop of [lookup_permissions]: the context of the request is
    reset, but keeps its memo. *)
Definition permission_turn (request : LookupPermissionsRequest) (rd : RelationDefinition)
    : Eval (option Relation) := λ c,
  let rel := mkRelation (as_str (rd_name rd)) in
  (let! m := check_prepared (eval_fuel (ctx_limits c)) (lp_resource request) rel
               (lp_subject request) rd in
   st_ret (if is_allowed m then Some rel else None)) (reset_for_reuse c).

Fixpoint permission_loop (request : LookupPermissionsRequest) (rds : list RelationDefinition)
    : Eval (list Relation) :=
  match rds with
  | [] => st_ret []
  | rd :: rds =>
      let! p := permission_turn request rd in
      let! ps := permission_loop request rds in
      st_ret (option_list p ++ ps)
  end.

(** [lookup_permissions] *)
Definition lookup_permissions (cells : Cells) (a : SharedEngineState)
    (request : LookupPermissionsRequest) : Answer LookupPermissions :=
  _ ← of_domain (lookup_permissions_validate request);
  '(snapshot, limits) ← read_snapshot cells a (lp_consistency request);
  t ← of_domain (ident_new KObjectType (namespace (lp_resource request)));
  _ ← of_schema (resolver_namespace (cs_resolver (snapshot_schema snapshot)) t);
  rds ← of_schema (sorted_relations (cs_resolver (snapshot_schema snapshot)) t);
  ps ← of_eval (permission_loop request rds (context_new_with_request_memo snapshot limits)).1;
  Ok (mkPermissions ps).

(** [ensure_subject_reverse_lookup_supported] *)
Definition ensure_subject_reverse_lookup_supported (snapshot : PublishedSnapshot)
    (operation : string) : Answer unit :=
  let profile := index_profile (checkpoint (snapshot_relationships snapshot)) in
  guard_err (negb (supports_subject_reverse_lookup profile))
    (Fails (EUnsupportedIndexProfile operation profile)).

(** [lookup_resources_with_consistency], [lookup_resources] *)
Definition lookup_resources_with_consistency (cells : Cells) (a : SharedEngineState)
    (request : LookupResourcesRequest) (consistency : Consistency) : Answer LookupResources :=
  _ ← of_domain (lookup_resources_validate request);
  '(snapshot, limits) ← read_snapshot cells a consistency;
  _ ← ensure_subject_reverse_lookup_supported snapshot "lookup_resources";
  of_eval (lookup_resources_with_snapshot snapshot request limits).
Definition lookup_resources (cells : Cells) (a : SharedEngineState)
    (request : LookupResourcesRequest) : Answer LookupResources :=
  lookup_resources_with_consistency cells a request Latest.

(** [lookup_subjects_with_consistency], [lookup_subjects] *)
Definition lookup_subjects_with_consistency (cells : Cells) (a : SharedEngineState)
    (request : LookupSubjectsRequest) (consistency : Consistency) : Answer LookupSubjects :=
  _ ← of_domain (lookup_subjects_validate request);
  '(snapshot, limits) ← read_snapshot cells a consistency;
  of_eval (lookup_subjects_with_snapshot snapshot request limits).
Definition lookup_subjects (cells : Cells) (a : SharedEngineState)
    (request : LookupSubjectsRequest) : Answer LookupSubjects :=
  lookup_subjects_with_consistency cells a request Latest.

(** The loop of [lookup_object_permissions]: one lookup of subjects per relation,
    and an entry if it found any. *)
Fixpoint object_permission_loop (snapshot : PublishedSnapshot) (limits : EvaluationLimits)
    (request : LookupObjectPermissionsRequest) (rds : list RelationDefinition)
    : result EvalStop (list PermissionSubjects) :=
  match rds with
  | [] => Ok []
  | rd :: rds =>
      let permission := mkRelation (as_str (rd_name rd)) in
      l ← lookup_subjects_with_snapshot snapshot
            (mkLookupSubjects (lo_resource request) permission (lo_subject_type request)) limits;
      ps ← object_permission_loop snapshot limits request rds;
      Ok (if bool_decide (subjects l = []) then ps
          else mkPermissionSubjects permission (subjects l) :: ps)
  end.

(** [lookup_object_permissions] *)
Definition lookup_object_permissions (cells : Cells) (a : SharedEngineState)
    (request : LookupObjectPermissionsRequest) : Answer LookupObjectPermissions :=
  _ ← of_domain (lookup_object_permissions_validate request);
  '(snapshot, limits) ← read_snapshot cells a (lo_consistency request);
  let resolver := cs_resolver (snapshot_schema snapshot) in
  t ← of_domain (ident_new KObjectType (namespace (lo_resource request)));
  _ ← of_schema (resolver_namespace resolver t);
  st ← of_domain (ident_new KSubjectType (lo_subject_type request));
  _ ← (if bool_decide (as_str st = "user") then Ok tt else
       t ← of_domain (ident_new KObjectType (as_str st));
       _ ← of_schema (resolver_namespace resolver t);
       Ok tt);
  rds ← of_schema (sorted_relations resolver t);
  ps ← of_eval (object_permission_loop snapshot limits request rds);
  Ok (mkObjectPermissions ps).
End reads.

Definition export_policy `{HashOrder} (cells : Cells) (a : SharedEngineState) : Answer PolicyText :=
  state ← current_state cells a;
  Ok (export_policy_text (snapshot_configs (latest_snapshot state))
        (StoreView.view_rows (snapshot_relationships (latest_snapshot state)))).

(** ** Writes *)

Inductive WriterCommand :=
| WriteRelationships (mutations : list RelationshipMutation) (preconditions : list Precondition)
| ApplySchema (text : string)
| ApplyNamespaceConfigs (cs : list NamespaceConfig)
| ReplaceSchema (text : string)
| DeleteNamespace (namespace : string)
| DeleteRelation (namespace relation : string)
| ApplyPolicyText (policy : PolicyText).

Section writes.
Context `{Hasher, HashOrder, Blake3, PestParser}.

(** The body of the writer's loop; [fresh] is the identifier a new writer would
    draw. *)
Definition run_command (fresh : DatastoreId) (command : WriterCommand) : Op :=
  match command with
  | WriteRelationships ms ps => apply_relationship_mutations ms ps
  | ApplySchema text => add_dsl_with_token text
  | ApplyNamespaceConfigs cs => apply_namespace_configs cs
  | ReplaceSchema text => replace_dsl_with_token text
  | DeleteNamespace ns => delete_namespace ns
  | DeleteRelation ns rel => delete_relation ns rel
  | ApplyPolicyText policy => apply_policy_text fresh policy
  end.

(** [submit_write] on a running writer. *)
Definition submit (fresh : DatastoreId) (command : WriterCommand) (w : World)
    : result EngineError ConsistencyToken * World :=
  let '(r, w) := run_command fresh command w in (map_err engine_error r, w).

(** The wrappers that build a command from text or from a tuple. *)
Definition command_of_tuple (f : Relationship → RelationshipMutation) (t : RelationTuple)
    : result EngineError WriterCommand :=
  r ← map_err EDomain (relationship_of_tuple t); Ok (WriteRelationships [f r] []).
Definition write_tuple : RelationTuple → result EngineError WriterCommand := command_of_tuple Touch.
Definition delete_tuple : RelationTuple → result EngineError WriterCommand := command_of_tuple Delete.

Definition command_of_text (f : string → result DomainError RelationshipMutation) (text : string)
    : result EngineError WriterCommand :=
  m ← map_err EDomain (f text); Ok (WriteRelationships [m] []).
Definition create_relationship : string → result EngineError WriterCommand :=
  command_of_text mutation_create.
Definition touch_relationship : string → result EngineError WriterCommand :=
  command_of_text mutation_touch.
Definition delete_relationship : string → result EngineError WriterCommand :=
  command_of_text mutation_delete.

(** [ZanzibarEngineBuilder] and its [build]. *)
Record ZanzibarEngineBuilder := mkBuilder {
  b_retained_snapshots : NonZeroUsize;
  b_evaluation_limits : EvaluationLimits
}.

Definition builder_new : ZanzibarEngineBuilder := mkBuilder default_retention limits_default.

Definition build (b : ZanzibarEngineBuilder) (fresh : DatastoreId) (cells : Cells) : World :=
  let '(a, cells) := cell_new cells in
  mkWorld (with_evaluation_limits (b_evaluation_limits b)
             (with_snapshot_retention_and_publisher (b_retained_snapshots b) fresh a)) cells.
End writes.
