(* ===== verification/EngineProps.v ===== *)
(** * The engine as a state machine

    Every state an engine can reach by commands, what a reader finds there, and
    which snapshot a consistency token reads. *)

From S2P Require Import Prelude Model Domain Revision StoreTypes Schema Store StoreView StoreSpec.
From S2P Require Import StoreProps ViewSpec ViewProps EvalContext Dsl Legacy Runtime Writer WriterSpec.
From S2P Require Import Policy PolicyProps Requests Api.

Section engine.
Context `{Hasher, HashOrder, Blake3, PestParser}.

(** ** One command *)

(** What a command that succeeds with token [t] and leaves [x] as the current
    snapshot does, whichever command it is. *)
Record renews (w : World) (t : ConsistencyToken) (x : PublishedSnapshot) (w' : World) : Prop := {
  rn_ok : writer_ok w';
  rn_current : current_snapshot (wd_writer w') = Some x;
  rn_token : t = mkToken (snapshot_revision x) (snapshot_schema_hash x) (datastore_id (wd_writer w));
  rn_datastore : datastore_id (wd_writer w') = datastore_id (wd_writer w);
  rn_limits : evaluation_limits (wd_writer w') = evaluation_limits (wd_writer w);
  rn_later r : last_revision (wd_writer w) = Some r → (rev_get r < rev_get (snapshot_revision x))%Z;
  rn_kept s r : s ∈ snapshot_history (wd_writer w) → last_revision (wd_writer w) = Some r →
    (rev_get (snapshot_revision s) ≤ rev_get r)%Z →
    s ∈ snapshot_history (wd_writer w') ∨
    ∀ s', s' ∈ snapshot_history (wd_writer w') →
          (rev_get (snapshot_revision s) < rev_get (snapshot_revision s'))%Z;
  rn_new s r : s ∈ snapshot_history (wd_writer w') → last_revision (wd_writer w) = Some r →
    s ∈ snapshot_history (wd_writer w) ∨ (rev_get r < rev_get (snapshot_revision s))%Z
}.

Lemma current_last w x :
  writer_ok w → current_snapshot (wd_writer w) = Some x →
  last_revision (wd_writer w) = Some (snapshot_revision x) ∧
  x ∈ snapshot_history (wd_writer w) ∧ snapshot_ok x.
Proof.
  intros Hw Hx. pose proof (wo_current w Hw) as Hc. rewrite Hx in Hc.
  destruct Hc as [Hh (older & E)]. pose proof (wo_snapshots w Hw) as Hs. rewrite E in Hs |- *.
  split; [apply Hh|]. split; [apply elem_of_app; right; by left|].
  apply Forall_app in Hs as [_ Hs]. by apply Forall_cons in Hs as [? _].
Qed.

Lemma history_revisions w s r :
  writer_ok w → s ∈ snapshot_history (wd_writer w) → last_revision (wd_writer w) = Some r →
  (rev_get (snapshot_revision s) ≤ rev_get r)%Z.
Proof.
  intros Hw Hs Hr. pose proof (wo_consecutive w Hw) as Hc.
  destruct (snapshot_history (wd_writer w)) as [|x l _] eqn:E using rev_ind;
    [by apply not_elem_of_nil in Hs|].
  pose proof (revision_step w x l Hw E) as Hx. rewrite Hr in Hx. injection Hx as ->.
  rewrite fmap_app in Hc. apply elem_of_app in Hs as [Hs| ->%list_elem_of_singleton]; [|lia].
  apply Z.lt_le_incl, (consecutive_last _ _ _ Hc), list_elem_of_fmap_2, Hs.
Qed.

Lemma published_renews w t x w' :
  writer_ok w → published w t x w' → writer_ok w' → renews w t x w'.
Proof.
  intros Hw Hp Hw'. pose proof (published_follows _ _ _ _ Hp Hw') as Hf.
  destruct (current_last w' x Hw' (pb_current _ _ _ _ Hp)) as (Hlast & _ & _).
  split; try apply Hp; try done.
  - intros r Hr. destruct (published_advances _ _ _ _ r Hp Hw' Hr) as (r' & E & ?). congruence.
  - intros s r Hs Hr Hle. rewrite (pb_history _ _ _ _ Hp), pop_excess_snoc by apply retained_positive.
    set (k := S (length _) - _). rewrite <- (take_drop k (snapshot_history (wd_writer w))) in Hs.
    apply elem_of_app in Hs as [Hs|Hs]; [right|left; apply elem_of_app; by left].
    intros s' [Hs'| ->%list_elem_of_singleton]%elem_of_app.
    + pose proof (wo_consecutive w Hw) as Hc.
      rewrite <- (take_drop k (snapshot_history (wd_writer w))), fmap_app in Hc.
      apply list_elem_of_split in Hs' as (l1 & l2 & E). rewrite E, fmap_app, fmap_cons in Hc.
      rewrite app_assoc in Hc. change (snapshot_revision s' :: (snapshot_revision <$> l2))
        with ([snapshot_revision s'] ++ (snapshot_revision <$> l2)) in Hc.
      rewrite app_assoc in Hc. apply consecutive_app_l in Hc.
      apply (consecutive_last _ _ _ Hc), elem_of_app. left. by apply list_elem_of_fmap_2.
    + pose proof (pb_next _ _ _ _ Hp) as Hn. unfold next_revision in Hn. rewrite Hr in Hn.
      apply revision_next_Ok in Hn. lia.
  - intros s r. apply (fo_history _ _ Hf).
Qed.

Lemma command_ok fresh cmd w :
  writer_ok w →
  match run_command fresh cmd w with
  | (Ok t, w') => ∃ x, renews w t x w'
  | (Err e, w') => wd_writer w' = wd_writer w ∧ writer_ok w'
  end.
Proof.
  intros Hw.
  assert (∀ op, safe op w →
    match op w with
    | (Ok t, w') => ∃ x, renews w t x w'
    | (Err e, w') => wd_writer w' = wd_writer w ∧ writer_ok w'
    end) as Hs.
  { intros op Hs. unfold safe in Hs. destruct (op w) as [[t|e] w']; [|by rewrite Hs].
    destruct Hs as (Hw' & x & Hp & _). exists x. by apply published_renews. }
  destruct cmd as [ms ps|text|cs|text|ns|ns rel|policy]; simpl.
  - by apply Hs, write_safe.
  - by eapply Hs, meets_safe, add_dsl_ok.
  - by eapply Hs, meets_safe, apply_configs_ok.
  - by eapply Hs, meets_safe, replace_dsl_ok.
  - by eapply Hs, meets_safe, delete_namespace_ok.
  - by eapply Hs, meets_safe, delete_relation_ok.
  - pose proof (apply_policy_ok fresh policy w Hw) as Hp.
    destruct (apply_policy_text fresh policy w) as [[t|e] w']; [|by destruct Hp as (? & ? & _)].
    destruct Hp as (Hw' & (x & Hx & Ht) & Hd & _ & _ & Hl & Hlater & _). exists x.
    destruct (current_last w' x Hw' Hx) as (Hlast & _ & _).
    split; try done; [by rewrite Ht, Hd| | |].
    + intros r Hr. destruct (Hlater r Hr) as [(r' & E & ?) _]. congruence.
    + intros s r _ Hr Hle. right. intros s' Hs'. destruct (Hlater r Hr) as [_ Hn].
      specialize (Hn s' Hs'). lia.
    + intros s r Hs' Hr. right. by apply (Hlater r Hr).
Qed.

(** ** Reachable states *)

(** A new engine and any commands, with the tokens returned so far and the
    snapshots they were returned for. *)
Inductive engine_run : World → list (ConsistencyToken * PublishedSnapshot) → Prop :=
| run_build b fresh cells : engine_run (build b fresh cells) []
| run_succeeds w log fresh cmd t w' x :
    engine_run w log → run_command fresh cmd w = (Ok t, w') →
    current_snapshot (wd_writer w') = Some x → engine_run w' (log ++ [(t, x)])
| run_fails w log fresh cmd e w' :
    engine_run w log → run_command fresh cmd w = (Err e, w') → engine_run w' log.

(** The tokens given out, against the writer's history. *)
Record log_ok (w : World) (log : list (ConsistencyToken * PublishedSnapshot)) : Prop := {
  lo_entries t s : (t, s) ∈ log →
    t = mkToken (snapshot_revision s) (snapshot_schema_hash s) (datastore_id (wd_writer w)) ∧
    (∃ r, last_revision (wd_writer w) = Some r ∧ (rev_get (snapshot_revision s) ≤ rev_get r)%Z) ∧
    (s ∈ snapshot_history (wd_writer w) ∨
     ∀ s', s' ∈ snapshot_history (wd_writer w) →
           (rev_get (snapshot_revision s) < rev_get (snapshot_revision s'))%Z);
  lo_sound t s : (t, s) ∈ log → snapshot_ok s;
  lo_last : last log.*2 = current_snapshot (wd_writer w)
}.

Lemma build_ok b fresh cells : writer_ok (build b fresh cells).
Proof.
  split; cbn; try done; [lia| |].
  - rewrite length_app. simpl. lia.
  - unfold cell_load. by rewrite list_lookup_middle.
Qed.

Lemma renews_log w log t x w' : log_ok w log → renews w t x w' → log_ok w' (log ++ [(t, x)]).
Proof.
  intros [He Hok _] Hr.
  destruct (current_last w' x (rn_ok _ _ _ _ Hr) (rn_current _ _ _ _ Hr)) as (Hl & Hx & Hxok).
  split.
  - intros t' s [Hin|Heq%list_elem_of_singleton]%elem_of_app.
    + destruct (He t' s Hin) as (Ht & (r & Hr' & Hle) & Hs). rewrite (rn_datastore _ _ _ _ Hr).
      split; [done|]. pose proof (rn_later _ _ _ _ Hr r Hr') as Hlt. split.
      { eexists. split; [done|]. lia. }
      destruct Hs as [Hs|Hs]; [by eapply rn_kept|]. right. intros s' Hs'.
      destruct (rn_new _ _ _ _ Hr s' r Hs' Hr') as [?|?]; [by apply Hs|lia].
    + injection Heq as -> ->. rewrite (rn_datastore _ _ _ _ Hr). split; [apply Hr|].
      split; [by eexists|by left].
  - intros t' s [Hin|Heq%list_elem_of_singleton]%elem_of_app; [by eapply Hok|].
    by injection Heq as -> ->.
  - rewrite fmap_app. cbn [fmap list_fmap snd]. rewrite last_snoc. symmetry. apply Hr.
Qed.

Lemma same_writer_log w w' log :
  wd_writer w' = wd_writer w → log_ok w log → log_ok w' log.
Proof. intros E [He Hok Hl]. split; [by rewrite E|done|by rewrite E]. Qed.

Lemma engine_run_ok w log : engine_run w log → writer_ok w ∧ log_ok w log.
Proof.
  induction 1 as [b fresh cells|w log fresh cmd t w' x _ [Hw Hlog] E Hx|w log fresh cmd e w' _ [Hw Hlog] E].
  - split; [apply build_ok|]. split; [| |done]; by intros t s ?%not_elem_of_nil.
  - pose proof (command_ok fresh cmd w Hw) as Hc. rewrite E in Hc. destruct Hc as (y & Hr).
    assert (y = x) as -> by (pose proof (rn_current _ _ _ _ Hr); congruence).
    split; [apply Hr|by eapply renews_log].
  - pose proof (command_ok fresh cmd w Hw) as Hc. rewrite E in Hc. destruct Hc as [Ew Hw'].
    split; [done|by eapply same_writer_log].
Qed.

(** ** Reading by token *)

Lemma find_revision l s :
  NoDup (snapshot_revision <$> l) → s ∈ l →
  snd <$> list_find (λ x, snapshot_revision x = snapshot_revision s) l = Some s.
Proof.
  intros Hn Hs. destruct (list_find _ l) as [[i y]|] eqn:E; simpl.
  - apply list_find_Some in E as (Hi & He & _). f_equal.
    apply list_elem_of_lookup in Hs as [j Hj]. rewrite NoDup_alt in Hn.
    assert (i = j) as ->; [|congruence].
    apply (Hn i j (snapshot_revision s)); rewrite list_lookup_fmap; [by rewrite Hi; simpl; f_equal|].
    by rewrite Hj.
  - apply list_find_None in E. rewrite Forall_forall in E. by destruct (E s Hs).
Qed.

Lemma token_of_history w s r :
  writer_ok w → last_revision (wd_writer w) = Some r → s ∈ snapshot_history (wd_writer w) →
  ∀ x, snapshot_for_token
    (mkEngineState x (snapshot_history (wd_writer w)) (datastore_id (wd_writer w)) r
       (evaluation_limits (wd_writer w)))
    (mkToken (snapshot_revision s) (snapshot_schema_hash s) (datastore_id (wd_writer w))) = Ok s.
Proof.
  intros Hw Hr Hs x. unfold snapshot_for_token.
  cbn [token_datastore_id es_datastore_id token_revision es_last_revision es_history token_schema_hash].
  rewrite bool_decide_eq_true_2 by done. cbn [negb guard_err mbind result_bind].
  unfold rev_lt. pose proof (history_revisions w s r Hw Hs Hr) as Hle.
  rewrite (proj2 (Z.ltb_ge _ _)) by done. cbn [guard_err mbind result_bind].
  pose proof (wo_consecutive w Hw) as Hc.
  rewrite find_revision; [|by apply consecutive_NoDup|done].
  assert (match head (snapshot_history (wd_writer w)) with
    | Some oldest => guard_err (rev_get (snapshot_revision s) <? rev_get (snapshot_revision oldest))%Z
        (ZConsistency (RevisionExpired (snapshot_revision s)))
    | None => Ok tt end = Ok tt) as ->.
  { destruct (snapshot_history (wd_writer w)) as [|o l]; [done|]. simpl.
    rewrite (proj2 (Z.ltb_ge _ _)); [done|]. rewrite fmap_cons in Hc.
    apply elem_of_cons in Hs as [->|Hs]; [lia|].
    apply Z.lt_le_incl, (consecutive_from _ _ _ Hc), list_elem_of_fmap_2, Hs. }
  cbn [mbind result_bind ok_or]. by rewrite bool_decide_eq_true_2.
Qed.

Lemma token_reads w log t s :
  engine_run w log → (t, s) ∈ log →
  ∃ state, cell_load (wd_cells w) (published_state (wd_writer w)) = Some state ∧
    snapshot_for_consistency state (Exact t) =
      (if bool_decide (snapshot_revision s ∈ snapshot_revision <$> es_history state) then Ok s
       else Err (ZConsistency (RevisionExpired (snapshot_revision s)))) ∧
    Some (latest_snapshot state) = last log.*2 ∧
    ∀ t' s', last log = Some (t', s') →
      snapshot_for_consistency state (Exact t') = Ok s' ∧
      snapshot_for_consistency state Latest = Ok s'.
Proof.
  intros [Hw [He _ Hl]]%engine_run_ok Hin.
  destruct (last log) as [[t' s']|] eqn:Elast; [|apply last_None in Elast as ->; by apply not_elem_of_nil in Hin].
  assert (current_snapshot (wd_writer w) = Some s') as Hx by (by rewrite <- Hl, fmap_last, Elast).
  destruct (current_last w s' Hw Hx) as (Hr & Hs' & _).
  pose proof (wo_cell w Hw) as Hcell. unfold engine_view in Hcell. rewrite Hx, Hr in Hcell.
  eexists. split; [exact Hcell|]. cbn [es_history latest_snapshot snapshot_for_consistency].
  assert ((t', s') ∈ log) as Hin' by (by apply last_Some_elem_of).
  destruct (He t s Hin) as (Ht & (r & Er & Hle) & Hs). rewrite Er in Hr. injection Hr as ->.
  split; [|split; [by rewrite Hl, Hx|]].
  - rewrite Ht. destruct Hs as [Hs|Hs].
    + rewrite bool_decide_eq_true_2 by (by apply list_elem_of_fmap_2). by apply token_of_history.
    + rewrite bool_decide_eq_false_2.
      2: { intros (y & E & Hy)%list_elem_of_fmap. specialize (Hs y Hy). rewrite E in Hs. lia. }
      unfold snapshot_for_token, rev_lt.
      cbn [token_datastore_id es_datastore_id token_revision es_last_revision es_history].
      rewrite bool_decide_eq_true_2 by done. cbn [negb guard_err mbind result_bind].
      rewrite (proj2 (Z.ltb_ge _ _)) by done. cbn [guard_err mbind result_bind].
      destruct (snapshot_history (wd_writer w)) as [|o l]; [by apply not_elem_of_nil in Hs'|]. simpl.
      rewrite (proj2 (Z.ltb_lt _ _)); [done|]. apply Hs. by left.
  - intros t1 s1 [= <- <-]. split; [|done]. destruct (He t' s' Hin') as (-> & _ & _).
    by apply token_of_history.
Qed.

(** C4: a token returned by any command reads exactly the snapshot the command
    published, in every later state of the engine, or is reported as expired
    when that snapshot is no longer retained; the last token is never expired
    and latest reads return its snapshot. *)
Theorem exact_reads w log t s :
  engine_run w log → (t, s) ∈ log →
  ∃ state, cell_load (wd_cells w) (published_state (wd_writer w)) = Some state ∧
    snapshot_for_consistency state (Exact t) =
      (if bool_decide (snapshot_revision s ∈ snapshot_revision <$> es_history state) then Ok s
       else Err (ZConsistency (RevisionExpired (snapshot_revision s)))) ∧
    Some (latest_snapshot state) = last log.*2 ∧
    ∀ t' s', last log = Some (t', s') →
      snapshot_for_consistency state (Exact t') = Ok s' ∧
      snapshot_for_consistency state Latest = Ok s'.
Proof. apply token_reads. Qed.

(** ** The contract of commands *)

Definition command_spec (cmd : WriterCommand) (cur : option Contents)
    (res : result ZanzibarError Contents) : Prop :=
  match cmd with
  | WriteRelationships ms ps => spec_write cur ms ps = res
  | ApplySchema text => spec_add_dsl cur text = res
  | ApplyNamespaceConfigs cs => spec_apply_configs cur cs = res
  | ReplaceSchema text => spec_replace_dsl cur text = res
  | DeleteNamespace ns => spec_delete_namespace cur ns = res
  | DeleteRelation ns rel => spec_delete_relation cur ns rel = res
  | ApplyPolicyText policy =>
      match res with
      | Ok y => policy_contents policy y
      | Err _ => ¬ ∃ y, policy_contents policy y
      end
  end.

Lemma same_writer_cell w w' :
  writer_ok w → writer_ok w' → wd_writer w' = wd_writer w →
  cell_load (wd_cells w') (published_state (wd_writer w)) =
  cell_load (wd_cells w) (published_state (wd_writer w)).
Proof.
  intros Hw Hw' E. rewrite (wo_cell w Hw). pose proof (wo_cell w' Hw') as Hc.
  by rewrite E in Hc.
Qed.

(** What a command may do, given its contract: the two outcomes. *)
Definition command_outcome (cmd : WriterCommand) (w : World)
    (res : result ZanzibarError ConsistencyToken) (w' : World) : Prop :=
  match res with
  | Ok t => ∃ y y', contents w' = Some y ∧ command_spec cmd (contents w) (Ok y') ∧
      same_contents y y' ∧ token_current t w'
  | Err e => contents w' = contents w ∧
      cell_load (wd_cells w') (published_state (wd_writer w)) =
        cell_load (wd_cells w) (published_state (wd_writer w)) ∧
      (command_spec cmd (contents w) (Err e) ∨ resource_error e)
  end.

Lemma meets_outcome cmd op spec w :
  (∀ cur res, spec cur = res → command_spec cmd cur res) → meets op spec w →
  command_outcome cmd w (op w).1 (op w).2.
Proof.
  intros Hspec Hm. unfold meets in Hm. destruct (op w) as [[t|e] w']; simpl.
  - destruct Hm as (Hw' & x & y & Hp & _ & Hy & Hs). eexists _, y.
    split; [by eapply published_contents|]. split; [by apply Hspec|]. split; [done|].
    by eapply published_token.
  - destruct Hm as [-> He]. split; [done|]. split; [done|]. destruct He as [He|?]; [|by right].
    left. by apply Hspec.
Qed.

(** C3: on every reachable engine each writer command does what its contract says of
    the contents (configurations, compiled schema, relationships): on success the
    contents become those of the contract, up to the order of relationships, and the
    token names the new snapshot; on failure neither the contents nor what readers
    see changes, and the error is the contract's (for the import of a policy: its
    text describes no valid contents) or that of an exhausted table or revision
    counter. For a write of relationships this assumes that the limit of each
    precondition's filter exceeds the number of deleted relationships still in the
    checkpoint that the filter matches ([limits_clear]). *)
Theorem commands_refine w log fresh cmd :
  engine_run w log → (∀ ms ps, cmd = WriteRelationships ms ps → limits_clear w ps) →
  command_outcome cmd w (run_command fresh cmd w).1 (run_command fresh cmd w).2.
Proof.
  intros [Hw _]%engine_run_ok Hlim. destruct cmd as [ms ps|text|cs|text|ns|ns rel|policy].
  - eapply meets_outcome; [|apply (write_ok w ms ps Hw), (Hlim ms ps eq_refl)]. done.
  - eapply meets_outcome; [|by apply add_dsl_ok]. done.
  - eapply meets_outcome; [|by apply apply_configs_ok]. done.
  - eapply meets_outcome; [|by apply replace_dsl_ok]. done.
  - eapply meets_outcome; [|by apply delete_namespace_ok]. done.
  - eapply meets_outcome; [|by apply delete_relation_ok]. done.
  - pose proof (apply_policy_ok fresh policy w Hw) as Hp. simpl.
    destruct (apply_policy_text fresh policy w) as [[t|e] w']; simpl.
    + destruct Hp as (_ & Ht & _ & _ & _ & _ & _ & y & y' & Hy & Hy' & Hs). eauto 10.
    + destruct Hp as (E & Hw' & He). split; [unfold contents; by rewrite E|].
      split; [by apply same_writer_cell|]. destruct He; auto.
Qed.

(** C11: what readers see is sound in every reachable engine: each retained
    snapshot holds the schema its configurations compile to, that schema's hash,
    and distinct relationships that all pass the schema; the history is no longer
    than the retention, its revisions are consecutive, and it ends with the
    latest snapshot. *)
Theorem readers_see_sound_state w log state :
  engine_run w log → cell_load (wd_cells w) (published_state (wd_writer w)) = Some state →
  (∀ s, s ∈ es_history state →
    compile_legacy_configs (hash_values (snapshot_configs s)) = Ok (snapshot_schema s) ∧
    snapshot_schema_hash s = hash_for_schema (snapshot_schema s) ∧
    NoDup (view_rows (snapshot_relationships s)) ∧
    ∀ r, r ∈ view_rows (snapshot_relationships s) →
         validate_relationship (snapshot_schema s) r = Ok tt) ∧
  length (es_history state) ≤ nzu_get (retained_snapshots (wd_writer w)) ∧
  consecutive (snapshot_revision <$> es_history state) ∧
  last (es_history state) = Some (latest_snapshot state).
Proof.
  intros [Hw _]%engine_run_ok Hc. rewrite (wo_cell w Hw) in Hc. unfold engine_view in Hc.
  destruct (current_snapshot (wd_writer w)) as [x|] eqn:Hx; [|done].
  destruct (current_last w x Hw Hx) as (Hr & Hin & _). rewrite Hr in Hc. injection Hc as <-.
  cbn [es_history latest_snapshot]. split; [|split; [apply Hw|split; [apply Hw|]]].
  - intros s Hs. pose proof (wo_snapshots w Hw) as Hall. rewrite Forall_forall in Hall.
    destruct (Hall s Hs) as [H1' H2' H3' H4']. split; [done|]. split; [done|].
    split; [by apply view_rows_NoDup|]. by apply Forall_forall.
  - pose proof (wo_current w Hw) as Hcur. rewrite Hx in Hcur. destruct Hcur as [_ (older & ->)].
    apply last_snoc.
Qed.

(** ** Running commands *)

Fixpoint execute (w : World) (log : list (ConsistencyToken * PublishedSnapshot))
    (cmds : list (DatastoreId * WriterCommand)) : World * list (ConsistencyToken * PublishedSnapshot) :=
  match cmds with
  | [] => (w, log)
  | (fresh, cmd) :: cmds =>
      match run_command fresh cmd w with
      | (Ok t, w') =>
          match current_snapshot (wd_writer w') with
          | Some x => execute w' (log ++ [(t, x)]) cmds
          | None => execute w' log cmds
          end
      | (Err _, w') => execute w' log cmds
      end
  end.

Lemma execute_run w log cmds :
  engine_run w log → engine_run (execute w log cmds).1 (execute w log cmds).2.
Proof.
  revert w log. induction cmds as [|[fresh cmd] cmds IH]; intros w log Hrun; [done|]. simpl.
  pose proof (command_ok fresh cmd w (proj1 (engine_run_ok w log Hrun))) as Hc.
  destruct (run_command fresh cmd w) as [[t|e] w'] eqn:E.
  - destruct Hc as (x & Hr). rewrite (rn_current _ _ _ _ Hr). apply IH.
    eapply run_succeeds; [done|done|apply Hr].
  - apply IH. by eapply run_fails.
Qed.
End engine.

(** ** Concrete inputs *)

Module EngineExample.
#[export] Existing Instance constant_hasher.
#[export] Existing Instance map_order.

#[export] Instance no_digest : Blake3 := {| blake3 _ := @mkByteArray 32 (replicate 32 0%Z) I |}.

(** Every policy text reads as [namespace doc { relation viewer {} }]. *)
Definition tree : list Pair :=
  [mkPair file "" [mkPair namespace_def ""
     [mkPair NAMESPACE "namespace" []; mkPair IDENTIFIER "doc" [];
      mkPair relation_def "" [mkPair RELATION "relation" []; mkPair IDENTIFIER "viewer" []]];
     mkPair EOI "" []]].
#[export] Instance one_tree : PestParser := {| parse_file _ := Ok tree |}.

Definition here : DatastoreId := @mkByteArray 16 (replicate 16 0%Z) I.

(** [a] includes [b], [b] is [a], and [c] is [b]. *)
Definition mutual : NamespaceConfig :=
  mkNamespaceConfig "doc"
    (<[mkRelation "a" := mkRelationConfig (mkRelation "a")
        (Some (LUnion [LComputedUserset (mkRelation "b"); LThis]))]>
     (<[mkRelation "b" := mkRelationConfig (mkRelation "b")
        (Some (LComputedUserset (mkRelation "a")))]>
     (<[mkRelation "c" := mkRelationConfig (mkRelation "c")
        (Some (LComputedUserset (mkRelation "b")))]> ∅))).

Definition writes (l : list string) : WriterCommand :=
  WriteRelationships (omap (λ s, result_ok (Touch <$> relationship_from_str s)) l) [].

Definition start : World := build builder_new here [].

Definition session : World * list (ConsistencyToken * PublishedSnapshot) :=
  execute start [] [(here, ApplyNamespaceConfigs [mutual]); (here, writes ["doc:x#a@user:alice"]);
                    (here, DeleteNamespace "doc"); (here, ApplyNamespaceConfigs [mutual])].

Lemma session_run : engine_run session.1 session.2.
Proof. apply execute_run, run_build. Qed.
End EngineExample.

Import EngineExample.

Lemma exact_reads_witness :
  ∃ t s, engine_run session.1 session.2 ∧
    (t, s) ∈ session.2 ∧
    ∃ state, cell_load (wd_cells session.1)
        (published_state (wd_writer session.1)) = Some state ∧
      is_ok (snapshot_for_consistency state (Exact t)) = true.
Proof.
  assert (bool_decide (is_Some (session.2 !! 0)) = true) as Hsome by (vm_compute; reflexivity).
  apply bool_decide_eq_true_1 in Hsome. destruct (session.2 !! 0) as [[t s]|] eqn:E.
  2: { destruct Hsome as [x Hx]. discriminate Hx. }
  apply list_elem_of_lookup_2 in E as Hin. exists t, s.
  split; [exact session_run|]. split; [exact Hin|].
  destruct (exact_reads _ _ t s session_run Hin) as (state & Hc & He & _).
  exists state. split; [exact Hc|]. rewrite He.
  assert (match session.2 !! 0, cell_load (wd_cells session.1)
      (published_state (wd_writer session.1)) with
    | Some (_, s), Some state => bool_decide (snapshot_revision s ∈ snapshot_revision <$> es_history state)
    | _, _ => false end = true) as Hb by (vm_compute; reflexivity).
  rewrite E, Hc in Hb. rewrite Hb. reflexivity.
Defined.

Definition policy : PolicyText := from_single_relationship_file "" "doc:x#viewer@user:alice".

Lemma commands_refine_witness :
  engine_run session.1 session.2 ∧
  ∃ t w' y, run_command here (ApplyPolicyText policy) session.1 = (Ok t, w') ∧
    contents w' = Some y ∧ rev_get (token_revision t) = 5%Z.
Proof.
  split; [exact session_run|].
  pose proof (commands_refine session.1 session.2 here (ApplyPolicyText policy) session_run) as Hc.
  assert (match (run_command here (ApplyPolicyText policy) session.1).1 with
          | Ok t => (rev_get (token_revision t) =? 5)%Z | Err _ => false end = true) as Hok
    by (vm_compute; reflexivity).
  destruct (run_command here (ApplyPolicyText policy) session.1) as [[t|e] w'] eqn:E;
    [|discriminate Hok].
  exists t, w'. destruct Hc as (y & y' & Hy & _); [intros ms ps Hd; discriminate Hd|].
  exists y. split; [reflexivity|]. split; [exact Hy|]. apply Z.eqb_eq. exact Hok.
Defined.

Lemma readers_see_sound_state_witness :
  ∃ state, engine_run session.1 session.2 ∧
    cell_load (wd_cells session.1) (published_state (wd_writer session.1)) = Some state ∧
    consecutive (snapshot_revision <$> es_history state).
Proof.
  assert (bool_decide (is_Some (cell_load (wd_cells session.1)
    (published_state (wd_writer session.1)))) = true) as Hsome by (vm_compute; reflexivity).
  apply bool_decide_eq_true_1 in Hsome as [state E]. exists state.
  split; [exact session_run|]. split; [exact E|].
  apply (readers_see_sound_state session.1 session.2 state session_run E).
Defined.
