(* ===== verification/EngineReads.v ===== *)
(** * What reads answer

    Checks, expansions and permission lookups of an engine always return, and
    their answers are those of the schema on the snapshot the token names. *)

From S2P Require Import Prelude Model Domain Revision StoreTypes Schema Store StoreView StoreSpec.
From S2P Require Import StoreProps ViewSpec ViewProps EvalContext Eval EvalReads EvalInv EvalTotal EvalSpec.
From S2P Require Import EvalProps CheckProps Dsl Legacy LegacyProps Runtime Writer WriterSpec.
From S2P Require Import Policy PolicyProps Requests LookupSubjects LookupSubjectsProps.
From S2P Require Import LookupResources LookupResourcesProps Api EngineProps.

Section reads.
Context `{Hasher}.

(** ** Reads return *)

Lemma of_eval_total {A} (r : result EvalStop A) : r ≠ Err OutOfFuel → of_eval r ≠ Err NoFuel.
Proof. destruct r as [a|[e|]]; simpl; congruence. Qed.

Lemma permission_turn_ok request rd c :
  context_reachable c →
  (permission_turn request rd c).1 ≠ Err OutOfFuel ∧
  context_reachable (permission_turn request rd c).2 ∧
  ctx_limits (permission_turn request rd c).2 = ctx_limits c.
Proof.
  intros Hc. apply creach_reset in Hc as Hr.
  unfold permission_turn, st_bind.
  set (rel := mkRelation _). set (c0 := reset_for_reuse c) in *.
  assert (ctx_limits c0 = ctx_limits c) as El.
  { unfold c0, reset_for_reuse. by destruct (checked_add _ _ _). }
  rewrite <- El.
  pose proof (creach_prepared c0 (lp_resource request) rel (lp_subject request) rd Hr) as Hp.
  destruct (evaluations_ok c0 (lp_resource request) rel (lp_subject request) rd Hr) as (_ & Hret & _).
  destruct (check_prepared _ _ _ _ _ c0) as [[m|e] c'] eqn:E; destruct Hret as [[Ht Hs _] _]; simpl.
  - split; [discriminate|]. split; [exact Hp|]. apply Hs.
  - split; [intros [= ->]; by apply Ht|]. split; [exact Hp|]. apply Hs.
Qed.

Lemma permission_loop_total request rds c :
  context_reachable c → (permission_loop request rds c).1 ≠ Err OutOfFuel.
Proof.
  revert c. induction rds as [|rd rds IH]; intros c Hc; [done|]. simpl. unfold st_bind.
  destruct (permission_turn_ok request rd c Hc) as (Ht & Hr & _).
  destruct (permission_turn request rd c) as [[p|e] c']; simpl in *.
  2: { intros [= ->]. by apply Ht. }
  specialize (IH c' Hr). destruct (permission_loop request rds c') as [[ps|e] c'']; simpl in *;
    [discriminate|]. intros [= ->]. by apply IH.
Qed.

Lemma object_permission_loop_total snapshot limits request rds :
  object_permission_loop snapshot limits request rds ≠ Err OutOfFuel.
Proof.
  induction rds as [|rd rds IH]; [done|]. simpl. set (q := mkLookupSubjects _ _ _).
  pose proof (lookup_total snapshot q limits) as Hl.
  destruct (lookup_subjects_with_snapshot _ q _); [|simpl; congruence]. simpl.
  destruct (object_permission_loop _ _ _ rds); simpl; congruence.
Qed.

(** C12: no read runs out of fuel: whatever the state of the engine, its limits
    and the request, checks, expansions and lookups of permissions, of subjects
    and of resources return an answer or one of the engine's errors. *)
Theorem reads_return cells a rc re rp rs co ro rr :
  engine_check cells a rc ≠ Err NoFuel ∧ engine_expand cells a re ≠ Err NoFuel ∧
  lookup_permissions cells a rp ≠ Err NoFuel ∧
  lookup_subjects_with_consistency cells a rs co ≠ Err NoFuel ∧
  lookup_object_permissions cells a ro ≠ Err NoFuel ∧
  lookup_resources_with_consistency cells a rr co ≠ Err NoFuel.
Proof.
  assert (∀ A (r : result DomainError A), of_domain r ≠ Err NoFuel) as Hd by (by intros A []).
  assert (∀ A (r : result SchemaError A), of_schema r ≠ Err NoFuel) as Hs by (by intros A []).
  assert (∀ co, read_snapshot cells a co ≠ Err NoFuel) as Hr.
  { intros co'. unfold read_snapshot, current_state. destruct (cell_load cells a); [|done]. simpl.
    by destruct (snapshot_for_consistency _ _). }
  assert (∀ A B (r : Answer A) (f : A → Answer B),
    r ≠ Err NoFuel → (∀ x, f x ≠ Err NoFuel) → r ≫= f ≠ Err NoFuel) as Hb.
  { intros A B [x|e] f Hx Hf; [apply Hf|]. simpl. congruence. }
  split_and!.
  - apply Hb; [apply Hd|]. intros _. apply Hb; [apply Hr|]. intros [s limits].
    apply Hb; [apply Hd|]. intros t. apply Hb; [apply Hd|]. intros rel.
    apply Hb; [apply Hs|]. intros rd. apply Hb; [|done]. apply of_eval_total.
    unfold check_prepared_with_snapshot.
    destruct (evaluations_ok (context_new s limits) (cr_object rc) (cr_relation rc) (cr_user rc) rd
      (creach_new s limits)) as (_ & Hret & _). cbn [ctx_limits context_new] in Hret.
    destruct (check_prepared _ _ _ _ _ _) as [r c']. by destruct Hret as [[Ht _ _] _].
  - apply Hb; [apply Hd|]. intros _. apply Hb; [apply Hr|]. intros [s limits].
    apply Hb; [apply Hd|]. intros t. apply Hb; [apply Hd|]. intros rel.
    apply Hb; [apply Hs|]. intros rd. apply Hb; [|done]. apply of_eval_total.
    unfold expand_with_snapshot.
    destruct (evaluations_ok (context_new s limits) (er_object re) (er_relation re) (UserId "") rd
      (creach_new s limits)) as (_ & _ & Hret). cbn [ctx_limits context_new] in Hret.
    destruct (expand _ _ _ _) as [r c']. by destruct Hret as [[Ht _ _] _].
  - apply Hb; [apply Hd|]. intros _. apply Hb; [apply Hr|]. intros [s limits].
    apply Hb; [apply Hd|]. intros t. apply Hb; [apply Hs|]. intros _.
    apply Hb; [apply Hs|]. intros rds. apply Hb; [|done].
    apply of_eval_total, permission_loop_total. constructor.
  - apply Hb; [apply Hd|]. intros _. apply Hb; [apply Hr|]. intros [s limits].
    apply of_eval_total, lookup_total.
  - apply Hb; [apply Hd|]. intros _. apply Hb; [apply Hr|]. intros [s limits].
    apply Hb; [apply Hd|]. intros t. apply Hb; [apply Hs|]. intros _.
    apply Hb; [apply Hd|]. intros st. apply Hb.
    { case_bool_decide; [done|]. apply Hb; [apply Hd|]. intros t'. by apply Hb; [apply Hs|]. }
    intros _. apply Hb; [apply Hs|]. intros rds. apply Hb; [|done].
    apply of_eval_total, object_permission_loop_total.
  - apply Hb; [apply Hd|]. intros _. apply Hb; [apply Hr|]. intros [s limits].
    apply Hb.
    { unfold ensure_subject_reverse_lookup_supported.
      by destruct (supports_subject_reverse_lookup _). }
    intros _. apply of_eval_total, resources_total.
Qed.
End reads.

(** ** Answers *)

Section answers.
Context `{Hasher, HashOrder, Blake3, PestParser}.

Lemma snapshot_served s :
  snapshot_ok s → tombstones_apart (snapshot_relationships s) →
  ∃ defs, from_definitions defs = Ok (snapshot_schema s) ∧ serves s defs.
Proof.
  intros Hs Ht. pose proof (so_schema _ Hs) as Hc.
  apply compile_configs_Ok in Hc as (defs & _ & _ & Hc).
  exists defs. split; [done|]. split; [done|apply Hs|done].
Qed.

(** A read at a token, once it has its snapshot. *)
Lemma read_exact w log t s x limits :
  engine_run w log → (t, s) ∈ log →
  read_snapshot (wd_cells w) (published_state (wd_writer w)) (Exact t) = Ok (x, limits) → x = s.
Proof.
  intros Hrun Hin. destruct (token_reads w log t s Hrun Hin) as (st & Hc & He & _).
  unfold read_snapshot, current_state. rewrite Hc. cbn [ok_or mbind result_bind].
  rewrite He. case_bool_decide; simpl; [|done]. by intros [= -> _].
Qed.

(** A read of a reachable engine is of a retained snapshot, and a sound one. *)
Lemma read_retained w log co s limits :
  engine_run w log →
  read_snapshot (wd_cells w) (published_state (wd_writer w)) co = Ok (s, limits) →
  ∃ state, cell_load (wd_cells w) (published_state (wd_writer w)) = Some state ∧
    snapshot_for_consistency state co = Ok s ∧ s ∈ es_history state ∧ snapshot_ok s.
Proof.
  intros [Hw _]%engine_run_ok Hx. unfold read_snapshot, current_state in Hx.
  apply bind_Ok in Hx as (state & Hcell%ok_or_Ok & (x & Hs%map_err_Ok & [= -> _])%bind_Ok).
  exists state. split; [done|]. split; [done|].
  pose proof (wo_snapshots w Hw) as Hall. rewrite Forall_forall in Hall.
  rewrite (wo_cell w Hw) in Hcell. unfold engine_view in Hcell.
  destruct (current_snapshot (wd_writer w)) as [y|] eqn:Hy; [|done].
  destruct (current_last w y Hw Hy) as (Hr & Hin & _). rewrite Hr in Hcell. injection Hcell as <-.
  assert (s ∈ snapshot_history (wd_writer w)); [|by split; [|apply Hall]].
  destruct co as [|t]; cbn [snapshot_for_consistency latest_snapshot] in Hs; [by injection Hs as <-|].
  unfold snapshot_for_token in Hs. cbn [es_history] in Hs.
  apply bind_Ok in Hs as ([] & _ & ([] & _ & ([] & _ & (z & Hz%ok_or_Ok & Hs)%bind_Ok)%bind_Ok)%bind_Ok).
  apply bind_Ok in Hs as ([] & _ & [= ->]).
  apply fmap_Some in Hz as ([i z] & (Hi & _)%list_find_Some & ->). by eapply list_elem_of_lookup_2.
Qed.

Lemma engine_check_inv w o rel u co resp :
  engine_check (wd_cells w) (published_state (wd_writer w)) (mkCheckRequest o rel u co) = Ok resp →
  ∃ s limits (n : RelationName) ot rd m,
    read_snapshot (wd_cells w) (published_state (wd_writer w)) co = Ok (s, limits) ∧
    relation_str rel = as_str n ∧ as_str ot = namespace o ∧
    resolver_relation (cs_resolver (snapshot_schema s)) ot n = Ok rd ∧
    check_prepared_with_snapshot s o (mkRelation (as_str n)) u rd limits = Ok m ∧
    allowed resp = is_allowed m.
Proof.
  intros He. unfold engine_check in He.
  cbn [cr_object cr_relation cr_user cr_consistency] in He.
  apply bind_Ok in He as ([] & _ & ([s limits] & Hx & He)%bind_Ok).
  apply bind_Ok in He as (ot & Hot%map_err_Ok%ident_new_Ok & He).
  apply bind_Ok in He as (n & Hn%map_err_Ok%ident_new_Ok & He).
  apply bind_Ok in He as (rd & Hrd%map_err_Ok & He).
  apply bind_Ok in He as (m & Hm%map_err_Ok & [= <-]).
  exists s, limits, n, ot, rd, m. split_and!; try done. by rewrite Hn; destruct rel.
Qed.

(** C10: what a check of a reachable engine that answers has answered, for every
    consistency of the request. The answer is by one retained snapshot, the one the
    consistency chooses (the latest; or, for a token, the one the write that
    returned the token published, whatever was written since). When no deleted
    relationship still in the checkpoint names the same user as a live one on the
    same resource and relation ([tombstones_apart]) in that snapshot, the answer is
    membership in the least reading of the snapshot's schema over its relationships
    if the schema has no exclusion, and the reading of the schema, exclusions
    included, if the data are well-founded. *)
Theorem engine_check_correct w log o rel u co resp :
  engine_run w log →
  engine_check (wd_cells w) (published_state (wd_writer w)) (mkCheckRequest o rel u co) = Ok resp →
  ∃ state s (n : RelationName),
    cell_load (wd_cells w) (published_state (wd_writer w)) = Some state ∧
    s ∈ es_history state ∧ snapshot_for_consistency state co = Ok s ∧
    (∀ t s', co = Exact t → (t, s') ∈ log → s = s') ∧
    relation_str rel = as_str n ∧
    (tombstones_apart (snapshot_relationships s) →
     (positive_schema (cs_definitions (snapshot_schema s)) →
      allowed resp = true ↔ member (cs_definitions (snapshot_schema s)) (rels_of s) u o n) ∧
     (∀ rank M,
        (∀ o rel o' rel', leads_to (cs_definitions (snapshot_schema s)) (rels_of s) o rel o' rel' →
           rank o' rel' < rank o rel) →
        (∀ u, reading (cs_definitions (snapshot_schema s)) (rels_of s) u (M u)) →
        allowed resp = true ↔ M u o n)).
Proof.
  intros Hrun He. destruct (engine_check_inv w o rel u co resp He)
    as (s & limits & n & ot & rd & m & Hx & Hn & Hot & Hrd & Hm & ->).
  destruct (read_retained w log co s limits Hrun Hx) as (state & Hcell & Hco & Hin & Hs).
  exists state, s, n. do 3 (split; [done|]).
  split. { intros t s' -> Ht. by apply (read_exact w log t s' s limits). }
  split; [done|]. intros Hapart. destruct (snapshot_served s Hs Hapart) as (defs & Hc & Hsv).
  unfold check_prepared_with_snapshot in Hm.
  rewrite (prepared_agrees s defs Hsv _ o n u ot rd) in Hm by done.
  assert (∀ P : Prop, m ≠ Conditional → (m = Allowed ↔ P) → is_allowed m = true ↔ P) as Hans
    by (intros P Hne <-; destruct m; simpl; naive_solver).
  split.
  - intros Hpos. assert (positive_schema defs) as Hp.
    { intros a b e He'. apply (Hpos a b e). by apply (rewrites_to_compiled _ _ _ _ _ Hc). }
    rewrite (member_source _ _ _ _ _ _ Hc).
    destruct (positive_answer s defs o n u limits m Hsv Hp Hm). by apply Hans.
  - intros rank M Hrank HM.
    destruct (ranked_answer s defs rank M o n u limits m Hsv) as [Hne Ha]; [..|done|by apply Hans].
    + intros o1 r1 o2 r2 Hl1. by apply Hrank, (leads_to_compiled _ _ Hsv).
    + intros u' o' rel'. rewrite <- (step_source _ _ _ _ _ _ _ _ Hc). apply HM.
Qed.

(** *** Permissions *)

Section permissions.
Variable s : PublishedSnapshot.
Variable defs : list NamespaceDefinition.
Variable rank : Object → RelationName → nat.
Variable M : User → Members.
Hypothesis Hserves : serves s defs.
Hypothesis Hrank : ∀ o rel o' rel',
  leads_to defs (rels_of s) o rel o' rel' → rank o' rel' < rank o rel.
Hypothesis HM : ∀ u, reading defs (rels_of s) u (M u).

Lemma permission_turn_exact o u co t rd c p :
  request s c → as_str t = namespace o →
  resolver_relation (cs_resolver (snapshot_schema s)) t (rd_name rd) = Ok rd →
  (permission_turn (mkLookupPermissions u o co) rd c).1 = Ok p →
  request s (permission_turn (mkLookupPermissions u o co) rd c).2 ∧
  (p = Some (mkRelation (as_str (rd_name rd))) ∧ M u o (rd_name rd) ∨
   p = None ∧ ¬ M u o (rd_name rd)).
Proof.
  intros Hc Ht Hrd. unfold permission_turn, st_bind.
  cbn [lp_subject lp_resource]. set (c0 := reset_for_reuse c).
  assert (request s c0) as Hc0 by by constructor.
  assert (ctx_limits c = ctx_limits c0) as ->.
  { unfold c0, reset_for_reuse. by destruct (checked_add _ _ _). }
  destruct (request_ok s defs Hserves rank Hrank M HM c0 Hc0) as (Hok & Hi & Hsn & Hg).
  pose proof (wf_check s defs Hserves rank Hrank M HM c0 o (rd_name rd) u Hok Hi Hg Hsn) as Hp.
  pose proof (req_prepared s c0 o (rd_name rd) u t rd Hc0 Ht Hrd) as Hc1.
  unfold evals, wp in Hp.
  rewrite <- (prepared_agrees s defs Hserves _ o (rd_name rd) u t rd c0 Hsn Ht Hrd) in Hp.
  destruct (check_prepared _ _ _ _ _ c0) as [[m|e] c1]; simpl in *; [|done].
  destruct Hp as [_ (Ha & Hm & Hnc)]. intros [= <-]. split; [done|].
  destruct m; simpl; [left|right|done]; (split; [done|]); [by apply Ha|].
  intros HMo. by specialize (Hm HMo).
Qed.

Lemma permission_loop_exact o u co t rds c ps :
  request s c → as_str t = namespace o →
  Forall (λ rd, resolver_relation (cs_resolver (snapshot_schema s)) t (rd_name rd) = Ok rd) rds →
  (permission_loop (mkLookupPermissions u o co) rds c).1 = Ok ps →
  ∃ l, l `sublist_of` rds ∧ ps = map (λ rd, mkRelation (as_str (rd_name rd))) l ∧
       ∀ rd, rd ∈ rds → rd ∈ l ↔ M u o (rd_name rd).
Proof.
  intros Hc Ht. revert c ps Hc. induction rds as [|rd rds IH]; intros c ps Hc Hrds.
  { simpl. intros [= <-]. exists []. split; [done|]. split; [done|]. by intros rd ?%not_elem_of_nil. }
  apply Forall_cons in Hrds as [Hrd Hrds]. simpl. unfold st_bind.
  pose proof (permission_turn_exact o u co t rd c) as Hturn.
  destruct (permission_turn _ rd c) as [[p|e] c1]; [|done]. simpl in Hturn.
  destruct (Hturn p Hc Ht Hrd eq_refl) as [Hc1 Hp].
  specialize (IH c1). destruct (permission_loop _ rds c1) as [[qs|e] c2]; [|done].
  simpl. intros [= <-]. destruct (IH qs Hc1 Hrds eq_refl) as (l & Hl & -> & Hiff).
  assert (∀ rd', rd' ∈ rd :: rds → rd' = rd ∨ rd_name rd' ≠ rd_name rd ∧ rd' ∈ rds) as Hcase.
  { intros rd' [->|Hin]%elem_of_cons; [by left|]. destruct (decide (rd_name rd' = rd_name rd)) as [E|E].
    - left. rewrite Forall_forall in Hrds. pose proof (Hrds rd' Hin) as Hr'. rewrite E in Hr'. congruence.
    - by right. }
  destruct Hp as [[-> HMrd]|[-> HMrd]]; simpl.
  - exists (rd :: l). split; [by apply sublist_skip|]. split; [done|].
    intros rd' [->|[Hne Hin]]%Hcase.
    + split; [done|]. intros _. by left.
    + rewrite elem_of_cons, <- (Hiff rd' Hin). split; [|by right]. intros [->|?]; [done|done].
  - exists l. split; [by apply sublist_cons|]. split; [done|].
    intros rd' [->|[Hne Hin]]%Hcase; [|by apply Hiff]. split; [|done].
    intros Hin. exfalso. apply HMrd, Hiff; [|done].
    by eapply elem_of_submseteq, sublist_submseteq.
Qed.
End permissions.

(** C24: on well-founded data, and when no deleted relationship still in the
    checkpoint names the same user as a live one on the same resource and relation
    ([tombstones_apart]), a permission lookup at a token that answers lists exactly
    the relations and permissions the subject has on the resource in the token's
    snapshot, in name order, although its checks share a memo. *)
Theorem lookup_permissions_exact w log t s rank M o u resp :
  engine_run w log → (t, s) ∈ log → tombstones_apart (snapshot_relationships s) →
  (∀ o rel o' rel', leads_to (cs_definitions (snapshot_schema s)) (rels_of s) o rel o' rel' →
     rank o' rel' < rank o rel) →
  (∀ u, reading (cs_definitions (snapshot_schema s)) (rels_of s) u (M u)) →
  lookup_permissions (wd_cells w) (published_state (wd_writer w))
    (mkLookupPermissions u o (Exact t)) = Ok resp →
  StronglySorted String.le (relation_str <$> permissions resp) ∧
  ∀ rel, rel ∈ permissions resp ↔ ∃ n : RelationName, rel = mkRelation (as_str n) ∧ M u o n.
Proof.
  intros Hrun Hin Ht Hrank0 HM0 Hl.
  destruct (engine_run_ok w log Hrun) as [_ Hlog]. pose proof (lo_sound _ _ Hlog t s Hin) as Hs.
  destruct (snapshot_served s Hs Ht) as (defs & Hc & Hsv).
  assert (∀ o rel o' rel', leads_to defs (rels_of s) o rel o' rel' → rank o' rel' < rank o rel) as Hrank.
  { intros o1 r1 o2 r2 Hl1. by apply Hrank0, (leads_to_compiled _ _ Hsv). }
  assert (∀ u, reading defs (rels_of s) u (M u)) as HM.
  { intros u' o' rel'. rewrite <- (step_source _ _ _ _ _ _ _ _ Hc). apply HM0. }
  clear Hrank0 HM0. unfold lookup_permissions in Hl.
  apply bind_Ok in Hl as ([] & _ & ([x limits] & Hx & Hl)%bind_Ok).
  apply (read_exact w log t s x limits Hrun Hin) in Hx as ->.
  apply bind_Ok in Hl as (ot & Hot%map_err_Ok%ident_new_Ok & Hl).
  apply bind_Ok in Hl as (ns & Hns%map_err_Ok & Hl).
  apply bind_Ok in Hl as (rds & Hrds%map_err_Ok & Hl).
  apply bind_Ok in Hl as (ps & Hps & [= <-]).
  destruct (from_definitions_steps _ _ Hc) as (r & Hr & _ & HF & Hr').
  apply (resolver_namespace_Ok Hr') in Hns as [Hnsin Hnsn]. subst ot.
  destruct (sorted_relations_spec _ _ ns Hr' Hnsin) as (l & El & Hperm & Hsorted).
  rewrite El in Hrds. injection Hrds as ->.
  destruct ((permission_loop (mkLookupPermissions u o (Exact t)) rds
    (context_new_with_request_memo s limits)).1) as [qs|[]] eqn:Eq; try done.
  injection Hps as ->.
  destruct (permission_loop_exact s defs rank M Hsv Hrank HM o u (Exact t) (ns_name ns) rds
    (context_new_with_request_memo s limits) ps) as (sel & Hsub & -> & Hiff); [constructor|done| |done|].
  { apply Forall_forall. intros rd Hrd. apply (resolver_relation_Ok Hr'). exists ns.
    split; [done|]. split; [done|]. by rewrite <- Hperm. }
  simpl. split.
  - rewrite <- list_fmap_compose.
    apply (StronglySorted_fmap _ (λ a b, String.le (as_str (rd_name a)) (as_str (rd_name b)))); [done|].
    by eapply StronglySorted_sublist.
  - intros rel. rewrite list_elem_of_fmap. split.
    + intros (rd & -> & Hrd). exists (rd_name rd). split; [done|].
      apply Hiff; [|done]. by eapply elem_of_submseteq, sublist_submseteq.
    + intros (n & -> & Hn). apply HM in Hn as Hstep. destruct Hstep as (e & Hrw & _).
      apply (rewrites_to_compiled _ _ _ _ _ Hc) in Hrw as (t' & rd & Ht' & Hd & _).
      destruct Hd as (ns' & Hns' & <- & Hrd & <-).
      assert (ns' = ns) as ->.
      { apply (namespace_unique Hr'); [done|done|]. apply ident_eq. by rewrite Ht', Hot. }
      exists rd. split; [done|]. rewrite <- Hperm in Hrd. by apply (Hiff rd Hrd).
Qed.
End answers.

(** ** Concrete inputs *)

Import EngineExample.

(** permission lookups can miss a permission: on a reachable engine a check
    grants a permission that the lookup of the same subject on the same resource
    omits, because an earlier check of the request left a cycle's provisional
    denial in the shared memo. *)
Theorem lookup_permissions_misses :
  ∃ w log u o rel resp,
    engine_run w log ∧
    check_relation (wd_cells w) (published_state (wd_writer w)) o rel u = Ok true ∧
    lookup_permissions (wd_cells w) (published_state (wd_writer w))
      (mkLookupPermissions u o Latest) = Ok resp ∧
    rel ∉ permissions resp.
Proof.
  exists session.1, session.2, (UserId "alice"), (mkObject "doc" "x"), (mkRelation "c"),
    (mkPermissions [mkRelation "a"; mkRelation "b"]).
  split; [exact session_run|]. split; [vm_compute; reflexivity|].
  split; [vm_compute; reflexivity|]. simpl. eapply bool_decide_eq_true_1. vm_compute. reflexivity.
Qed.

(** Viewers include owners. *)
Definition sharing : NamespaceConfig :=
  mkNamespaceConfig "doc"
    (<[mkRelation "owner" := mkRelationConfig (mkRelation "owner") None]>
     (<[mkRelation "viewer" := mkRelationConfig (mkRelation "viewer")
        (Some (LUnion [LThis; LComputedUserset (mkRelation "owner")]))]> ∅)).

Definition shared : World * list (ConsistencyToken * PublishedSnapshot) :=
  execute start [] [(here, ApplyNamespaceConfigs [sharing]); (here, writes ["doc:x#owner@user:alice"])].

Lemma shared_run : engine_run shared.1 shared.2.
Proof. apply execute_run, run_build. Qed.

(** A property of the snapshot the example's write published. *)
Definition of_write (f : ConsistencyToken → PublishedSnapshot → bool) : bool :=
  match shared.2 !! 1 with Some (t, s) => f t s | None => false end.

Lemma the_write : ∃ t s, shared.2 !! 1 = Some (t, s).
Proof.
  assert (bool_decide (is_Some (shared.2 !! 1)) = true) as Hsome by (vm_compute; reflexivity).
  apply bool_decide_eq_true_1 in Hsome as [[t s] E]. by exists t, s.
Qed.

Lemma write_facts f t s : of_write f = true → shared.2 !! 1 = Some (t, s) → f t s = true.
Proof. unfold of_write. intros Hf E. rewrite E in Hf. exact Hf. Qed.

Definition doc_x : Object := mkObject "doc" "x".
Definition alice_user : User := UserId "alice".
Definition owner_weight (r : RelationName) : nat := if bool_decide (as_str r = "viewer") then 1 else 0.

Definition alice_checks (t : ConsistencyToken) : Answer CheckResponse :=
  engine_check (wd_cells shared.1) (published_state (wd_writer shared.1))
    (mkCheckRequest doc_x (mkRelation "viewer") alice_user (Exact t)).
Definition alice_looks_up (t : ConsistencyToken) : Answer LookupPermissions :=
  lookup_permissions (wd_cells shared.1) (published_state (wd_writer shared.1))
    (mkLookupPermissions alice_user doc_x (Exact t)).

Lemma engine_check_correct_witness :
  ∃ t s resp, engine_run shared.1 shared.2 ∧ (t, s) ∈ shared.2 ∧ alice_checks t = Ok resp ∧
    ∃ n : RelationName, "viewer" = as_str n ∧
      (allowed resp = true ↔
       member (cs_definitions (snapshot_schema s)) (rels_of s) alice_user doc_x n).
Proof.
  destruct the_write as (t & s & E).
  pose proof (write_facts (λ t s, is_ok (alice_checks t) &&
    bool_decide (tombstones_apart (snapshot_relationships s)) &&
    positive_schemab (cs_definitions (snapshot_schema s))) t s) as Hf.
  assert (of_write (λ t s, is_ok (alice_checks t) &&
    bool_decide (tombstones_apart (snapshot_relationships s)) &&
    positive_schemab (cs_definitions (snapshot_schema s))) = true) as Hw by (vm_compute; reflexivity).
  specialize (Hf Hw E). apply andb_true_iff in Hf as [Hf Hpos]. apply andb_true_iff in Hf as [Hok Ht].
  destruct (alice_checks t) as [resp|e] eqn:Er; [|discriminate Hok].
  exists t, s, resp. split; [exact shared_run|]. apply list_elem_of_lookup_2 in E as Hin.
  split; [exact Hin|]. split; [exact Er|].
  destruct (engine_check_correct shared.1 shared.2 doc_x (mkRelation "viewer") alice_user (Exact t)
    resp shared_run Er) as (state & s' & n & _ & _ & _ & Hs & Hn & Hans).
  rewrite (Hs t s eq_refl Hin) in Hans. exists n. split; [exact Hn|].
  apply (Hans (bool_decide_eq_true_1 _ Ht)), positive_schemab_positive, Hpos.
Defined.

Lemma lookup_permissions_exact_witness :
  ∃ t s resp, engine_run shared.1 shared.2 ∧ (t, s) ∈ shared.2 ∧ alice_looks_up t = Ok resp ∧
    relation_str <$> permissions resp = ["owner"; "viewer"] ∧
    ∀ rel, rel ∈ permissions resp ↔ ∃ n : RelationName, rel = mkRelation (as_str n) ∧
      ranked_member (cs_definitions (snapshot_schema s)) (rels_of s) (λ _, owner_weight) alice_user doc_x n.
Proof.
  destruct the_write as (t & s & E).
  pose proof (write_facts (λ t s,
    bool_decide (match alice_looks_up t with Ok r => relation_str <$> permissions r | Err _ => [] end =
                 ["owner"; "viewer"]) &&
    bool_decide (tombstones_apart (snapshot_relationships s)) &&
    schema_ranked (rels_of s) owner_weight (cs_definitions (snapshot_schema s))) t s) as Hf.
  assert (of_write (λ t s,
    bool_decide (match alice_looks_up t with Ok r => relation_str <$> permissions r | Err _ => [] end =
                 ["owner"; "viewer"]) &&
    bool_decide (tombstones_apart (snapshot_relationships s)) &&
    schema_ranked (rels_of s) owner_weight (cs_definitions (snapshot_schema s))) = true) as Hw
    by (vm_compute; reflexivity).
  specialize (Hf Hw E). apply andb_true_iff in Hf as [Hf Hr]. apply andb_true_iff in Hf as [Hok Ht].
  apply bool_decide_eq_true_1 in Hok, Ht.
  destruct (alice_looks_up t) as [resp|e] eqn:Er; [|discriminate Hok].
  exists t, s, resp. split; [exact shared_run|]. apply list_elem_of_lookup_2 in E as Hin.
  split; [exact Hin|]. split; [exact Er|]. split; [exact Hok|].
  assert (∀ o rel o' rel', leads_to (cs_definitions (snapshot_schema s)) (rels_of s) o rel o' rel' →
    owner_weight rel' < owner_weight rel) as Hrank.
  { intros o rel o' rel' Hl. exact (schema_ranked_spec _ _ _ _ _ _ _ Hr Hl). }
  apply (lookup_permissions_exact shared.1 shared.2 t s (λ _, owner_weight)
    (ranked_member (cs_definitions (snapshot_schema s)) (rels_of s) (λ _, owner_weight))
    doc_x alice_user resp shared_run Hin Ht Hrank).
  - intros u. apply ranked_reading. exact Hrank.
  - exact Er.
Defined.
