(* ===== verification/EngineLookups.v ===== *)
(** * Lookups of subjects through the engine

    The subjects per permission of an object, as the engine lists them at a token:
    a listing of the relations of the object's namespace composed with a lookup of
    subjects for each. *)

From S2P Require Import Prelude Model Domain Revision StoreTypes Schema Store StoreView StoreSpec.
From S2P Require Import StoreProps ViewSpec ViewProps EvalContext Eval EvalReads EvalInv EvalSpec.
From S2P Require Import EvalProps CheckProps Dsl Legacy LegacyProps Runtime Writer WriterSpec.
From S2P Require Import Policy PolicyProps Requests Api EngineProps EngineReads.
From S2P Require Import LookupSubjects LookupSubjectsInv LookupSubjectsSound LookupSubjectsProps.

(** ** The loop *)

Section loop.
Context `{Hasher}.
Variable snapshot : PublishedSnapshot.
Variable limits : EvaluationLimits.
Variable request : LookupObjectPermissionsRequest.

Abbreviation found rd := (lookup_subjects_with_snapshot snapshot
  (mkLookupSubjects (lo_resource request) (mkRelation (as_str (rd_name rd))) (lo_subject_type request))
  limits).

(** The entry of a relation whose lookup found somebody. *)
Definition entry (rd : RelationDefinition) (p : PermissionSubjects) : Prop :=
  ∃ l, found rd = Ok l ∧ subjects l ≠ [] ∧
       p = mkPermissionSubjects (mkRelation (as_str (rd_name rd))) (subjects l).

Lemma object_permission_loop_spec rds ps :
  object_permission_loop snapshot limits request rds = Ok ps →
  (∃ sel, sel `sublist_of` rds ∧ Forall2 entry sel ps) ∧
  ∀ rd, rd ∈ rds → ∃ l, found rd = Ok l ∧ (subjects l ≠ [] → ∃ p, p ∈ ps ∧ entry rd p).
Proof.
  revert ps. induction rds as [|rd rds IH]; intros ps; simpl.
  { intros [= <-]. split; [exists []; by split|]. by intros rd ?%not_elem_of_nil. }
  intros (l & Hl & (qs & Hqs & [= <-])%bind_Ok)%bind_Ok.
  destruct (IH qs Hqs) as [(sel & Hsub & Hsel) Hall]. case_bool_decide as E.
  - split; [exists sel; split; [by apply sublist_cons|done]|].
    intros rd' [->|Hin]%elem_of_cons; [by exists l|by apply Hall].
  - set (p := mkPermissionSubjects _ _).
    assert (entry rd p) as Hp by by exists l.
    split; [exists (rd :: sel); split; [by apply sublist_skip|by constructor]|].
    intros rd' [->|Hin]%elem_of_cons.
    + exists l. split; [done|]. intros _. exists p. split; [by left|done].
    + destruct (Hall rd' Hin) as (l' & Hl' & Hx). exists l'. split; [done|].
      intros Hne. destruct (Hx Hne) as (p' & Hp' & Hen). exists p'. split; [by right|done].
Qed.

Lemma entries_sorted sel ps : Forall2 entry sel ps →
  relation_str <$> (ps_permission <$> ps) = as_str <$> (rd_name <$> sel).
Proof.
  induction 1 as [|rd p sel ps (l & _ & _ & ->) _ IH]; [done|]. rewrite !fmap_cons. by f_equal.
Qed.
End loop.

(** ** The engine *)

Section engine.
Context `{Hasher, HashOrder, Blake3, PestParser}.

Lemma read_limits cells a co x limits :
  read_snapshot cells a co = Ok (x, limits) →
  ∃ st, cell_load cells a = Some st ∧ es_limits st = limits.
Proof.
  unfold read_snapshot, current_state. destruct (cell_load cells a) as [st|]; [|done]. simpl.
  destruct (snapshot_for_consistency _ _); [|done]. intros [= _ <-]. by exists st.
Qed.

Section permissions.
Variable s : PublishedSnapshot.
Variable defs : list NamespaceDefinition.
Variable limits : EvaluationLimits.
Variable o : Object.
Variable st : string.
Variable M : User → Members.
Hypothesis Hserves : serves s defs.
Hypothesis Hexact : ∀ n l,
  lookup_subjects_with_snapshot s (mkLookupSubjects o (mkRelation (as_str n)) st) limits = Ok l →
  lists_exactly s o n limits st M (subjects l).
Hypothesis HM : ∀ u n, M u o n → ∃ e, rewrites_to (cs_definitions (snapshot_schema s)) o n e.

(** The entries of a namespace's relations. *)
Lemma entries_exact co ns rds ps :
  as_str (ns_name ns) = namespace o → ns ∈ cs_definitions (snapshot_schema s) →
  sorted_relations (cs_resolver (snapshot_schema s)) (ns_name ns) = Ok rds →
  object_permission_loop s limits (mkLookupObjectPermissions o st co) rds = Ok ps →
  StronglySorted String.le (relation_str <$> (ps_permission <$> ps)) ∧
  (∀ p, p ∈ ps → ps_subjects p ≠ [] ∧ ∃ n : RelationName,
     ps_permission p = mkRelation (as_str n) ∧ ∀ u, u ∈ ps_subjects p → M u o n) ∧
  ((st = "user" → no_user_sets (rels_of s)) →
   ∀ (t : SubjectType) u (n : RelationName), as_str t = st → of_type t u → M u o n →
   ∃ p, p ∈ ps ∧ ps_permission p = mkRelation (as_str n) ∧
        (u ∈ ps_subjects p ∨
         (nz_get (max_lookup_results limits) ≤ Z.of_nat (length (ps_subjects p)))%Z)).
Proof.
  intros Hns Hin Hsort Hloop. set (request := mkLookupObjectPermissions o st co) in *.
  destruct (from_definitions_steps _ _ (sv_schema _ _ Hserves)) as (_ & _ & _ & _ & Hr').
  destruct (sorted_relations_spec _ _ ns Hr' Hin) as (l & El & Hperm & Hsorted).
  rewrite El in Hsort. injection Hsort as ->.
  destruct (object_permission_loop_spec s limits request rds ps Hloop) as [(sel & Hsub & Hsel) Hall].
  split_and!.
  - rewrite (entries_sorted _ _ _ _ _ Hsel), <- list_fmap_compose.
    apply (StronglySorted_fmap _ (λ a b, String.le (as_str (rd_name a)) (as_str (rd_name b)))); [done|].
    by eapply StronglySorted_sublist.
  - intros p Hp. destruct (list_elem_of_lookup_1 _ _ Hp) as [i Hi].
    destruct (Forall2_lookup_r _ _ _ _ _ Hsel Hi) as (rd & _ & (l & Hl & Hne & ->)).
    split; [done|]. exists (rd_name rd). split; [done|]. by apply (Hexact _ _ Hl).
  - intros Hno t u n Ht Hu Hm. destruct (HM u n Hm) as (e & t' & rd & Ht' & Hd & _).
    destruct Hd as (ns' & Hns' & <- & Hrd & <-).
    assert (ns' = ns) as -> by (apply (namespace_unique Hr'); [done|done|]; apply ident_eq; congruence).
    rewrite <- Hperm in Hrd. destruct (Hall rd Hrd) as (l & Hl & Hentry).
    destruct (Hexact _ _ Hl) as [_ Hc].
    destruct (decide (Z.of_nat (length (subjects l)) < nz_get (max_lookup_results limits))%Z) as [Hlt|Hge].
    + specialize (Hc Hlt Hno t u Ht Hu Hm).
      destruct Hentry as (p & Hp & (l' & Hl' & _ & ->)); [by destruct (subjects l); set_solver|].
      rewrite Hl in Hl'. injection Hl' as <-. eexists. split; [exact Hp|]. split; [done|]. by left.
    + assert (0 < nz_get (max_lookup_results limits))%Z as Hpos.
      { pose proof (nz_range (max_lookup_results limits)). lia. }
      destruct Hentry as (p & Hp & (l' & Hl' & _ & ->)).
      { intros E. rewrite E in Hge. simpl in Hge. lia. }
      rewrite Hl in Hl'. injection Hl' as <-. eexists. split; [exact Hp|]. split; [done|]. right.
      simpl. lia.
Qed.
End permissions.

(** C30: the subjects per permission of an object, listed by a reachable engine at a
    token. On well-founded data, when in the token's snapshot no deleted
    relationship still in the checkpoint names the same user as a live one on the
    same resource and relation ([tombstones_apart]) and each relation of an object
    with deleted rows still in the checkpoint has, those included, at most as many
    rows as the fanout limit ([fanout_room]), and the fanout limit is below
    [u32::MAX]: the engine lists, in name order, relations of the object, each with
    at least one subject and only subjects that have it in the reading of the
    schema; every relation that a subject of the requested type has is listed, with
    that subject unless the entry's list is as long as the result limit, for the
    type [user] provided that no relationship has a subject such as [user:a#r]. *)
Theorem lookup_object_permissions_exact w log t s rank M o st resp :
  engine_run w log → (t, s) ∈ log → tombstones_apart (snapshot_relationships s) →
  (∀ o rel o' rel', leads_to (cs_definitions (snapshot_schema s)) (rels_of s) o rel o' rel' →
     rank o' rel' < rank o rel) →
  (∀ u, reading (cs_definitions (snapshot_schema s)) (rels_of s) u (M u)) →
  (∀ x, cell_load (wd_cells w) (published_state (wd_writer w)) = Some x →
        (nz_get (max_fanout_per_step (es_limits x)) < u32_max)%Z ∧
        fanout_room (snapshot_relationships s) (es_limits x)) →
  lookup_object_permissions (wd_cells w) (published_state (wd_writer w))
    (mkLookupObjectPermissions o st (Exact t)) = Ok resp →
  StronglySorted String.le (relation_str <$> (ps_permission <$> object_permissions resp)) ∧
  (∀ p, p ∈ object_permissions resp → ps_subjects p ≠ [] ∧ ∃ n : RelationName,
     ps_permission p = mkRelation (as_str n) ∧ ∀ u, u ∈ ps_subjects p → M u o n) ∧
  ((st = "user" → no_user_sets (rels_of s)) →
   ∀ (k : SubjectType) u (n : RelationName), as_str k = st → of_type k u → M u o n →
   ∃ p x, p ∈ object_permissions resp ∧ ps_permission p = mkRelation (as_str n) ∧
     cell_load (wd_cells w) (published_state (wd_writer w)) = Some x ∧
     (u ∈ ps_subjects p ∨
      (nz_get (max_lookup_results (es_limits x)) ≤ Z.of_nat (length (ps_subjects p)))%Z)).
Proof.
  intros Hrun Hin Ht Hrank0 HM0 Hfan Hl.
  destruct (engine_run_ok w log Hrun) as [_ Hlog]. pose proof (lo_sound _ _ Hlog t s Hin) as Hs.
  destruct (snapshot_served s Hs Ht) as (defs & Hc & Hsv).
  unfold lookup_object_permissions in Hl.
  apply bind_Ok in Hl as ([] & _ & ([x limits] & Hx & Hl)%bind_Ok).
  destruct (read_limits _ _ _ _ _ Hx) as (state & Hstate & <-). destruct (Hfan state Hstate) as [Hbound Hroom].
  apply (read_exact w log t s x _ Hrun Hin) in Hx as ->.
  apply bind_Ok in Hl as (ot & Hot%map_err_Ok%ident_new_Ok & Hl).
  apply bind_Ok in Hl as (ns & Hns%map_err_Ok & Hl).
  apply bind_Ok in Hl as (k & _ & ([] & _ & Hl)%bind_Ok).
  apply bind_Ok in Hl as (rds & Hrds%map_err_Ok & (ps & Hps & [= <-])%bind_Ok).
  destruct (object_permission_loop _ _ _ rds) as [qs|[]] eqn:Eq; try done. injection Hps as ->.
  destruct (from_definitions_steps _ _ Hc) as (_ & _ & _ & _ & Hr').
  apply (resolver_namespace_Ok Hr') in Hns as [Hnsin Hnsn]. subst ot.
  assert (∀ n l, lookup_subjects_with_snapshot s (mkLookupSubjects o (mkRelation (as_str n)) st)
    (es_limits state) = Ok l → lists_exactly s o n (es_limits state) st M (subjects l)) as Hexact.
  { intros n l. apply (ranked_lookup s defs Hsv o n (es_limits state) Hbound Hroom rank).
    - intros o1 r1 o2 r2 Hl1. by apply Hrank0, (leads_to_compiled _ _ Hsv).
    - intros u' o' rel'. rewrite <- (step_source _ _ _ _ _ _ _ _ Hc). apply HM0. }
  destruct (entries_exact s defs (es_limits state) o st M Hsv Hexact) with (co := Exact t) (ns := ns)
    (rds := rds) (ps := ps) as (H4 & H5 & H6); try done.
  { intros u n Hm. apply HM0 in Hm as (e & He & _). by exists e. }
  split_and!; [done|done|]. intros Hno k' u n Hk Hu Hm.
  destruct (H6 Hno k' u n Hk Hu Hm) as (p & Hp & Hn & Hor). by exists p, state.
Qed.
End engine.

(** ** Concrete inputs *)

Import EngineExample.

Definition viewers_looked_up (t : ConsistencyToken) : Answer LookupObjectPermissions :=
  lookup_object_permissions (wd_cells shared.1) (published_state (wd_writer shared.1))
    (mkLookupObjectPermissions doc_x "user" (Exact t)).

Definition listing (r : Answer LookupObjectPermissions) : list (string * list User) :=
  match r with
  | Ok resp => map (λ p, (relation_str (ps_permission p), ps_subjects p)) (object_permissions resp)
  | Err _ => []
  end.

Lemma lookup_object_permissions_exact_witness :
  ∃ t s resp, engine_run shared.1 shared.2 ∧ (t, s) ∈ shared.2 ∧ viewers_looked_up t = Ok resp ∧
    listing (Ok resp) = [("owner", [alice_user]); ("viewer", [alice_user])] ∧
    (∀ p, p ∈ object_permissions resp → ps_subjects p ≠ [] ∧ ∃ n : RelationName,
       ps_permission p = mkRelation (as_str n) ∧ ∀ u, u ∈ ps_subjects p →
       ranked_member (cs_definitions (snapshot_schema s)) (rels_of s) (λ _, owner_weight) u doc_x n).
Proof.
  destruct the_write as (t & s & E).
  pose proof (write_facts (λ t s,
    bool_decide (listing (viewers_looked_up t) = [("owner", [alice_user]); ("viewer", [alice_user])]) &&
    bool_decide (tombstones (snapshot_relationships s) = ∅) &&
    schema_ranked (rels_of s) owner_weight (cs_definitions (snapshot_schema s))) t s) as Hf.
  assert (of_write (λ t s,
    bool_decide (listing (viewers_looked_up t) = [("owner", [alice_user]); ("viewer", [alice_user])]) &&
    bool_decide (tombstones (snapshot_relationships s) = ∅) &&
    schema_ranked (rels_of s) owner_weight (cs_definitions (snapshot_schema s))) = true) as Hw
    by (vm_compute; reflexivity).
  specialize (Hf Hw E). apply andb_true_iff in Hf as [Hf Hr]. apply andb_true_iff in Hf as [Hok Ht].
  apply bool_decide_eq_true_1 in Hok, Ht. pose proof (no_tombstones_apart _ Ht) as Hapart.
  destruct (viewers_looked_up t) as [resp|e] eqn:Er; [|discriminate Hok].
  exists t, s, resp. split; [exact shared_run|]. apply list_elem_of_lookup_2 in E as Hin.
  split; [exact Hin|]. split; [exact Er|]. split; [exact Hok|].
  assert (∀ o rel o' rel', leads_to (cs_definitions (snapshot_schema s)) (rels_of s) o rel o' rel' →
    owner_weight rel' < owner_weight rel) as Hrank.
  { intros o rel o' rel' Hl. exact (schema_ranked_spec _ _ _ _ _ _ _ Hr Hl). }
  assert (∀ x, cell_load (wd_cells shared.1) (published_state (wd_writer shared.1)) = Some x →
    (nz_get (max_fanout_per_step (es_limits x)) < u32_max)%Z ∧
    fanout_room (snapshot_relationships s) (es_limits x)) as Hfan.
  { assert (match cell_load (wd_cells shared.1) (published_state (wd_writer shared.1)) with
            | Some x => (nz_get (max_fanout_per_step (es_limits x)) <? u32_max)%Z
            | None => true end = true) as Hb by (vm_compute; reflexivity).
    intros x Hx. rewrite Hx in Hb. split; [by apply Z.ltb_lt|by apply no_tombstones_within]. }
  apply (lookup_object_permissions_exact shared.1 shared.2 t s (λ _, owner_weight)
    (ranked_member (cs_definitions (snapshot_schema s)) (rels_of s) (λ _, owner_weight))
    doc_x "user" resp shared_run Hin Hapart Hrank); [|exact Hfan|exact Er].
  intros u. apply ranked_reading. exact Hrank.
Defined.
