(* ===== verification/Tenants.v ===== *)
(** * Tenants (src/src/api.rs, [TenantId] and [ZanzibarTenantShards])

    Tenant identifiers, and the map from tenants to engines that any number of
    threads read and extend: each atomic action of a call of [get] or
    [get_or_create] is one step, and the steps of different calls interleave. *)

From S2P Require Import Prelude Model Domain Revision StoreTypes Legacy Writer Api EngineProps Dsl.

(** ** Tenant identifiers *)

Definition MAX_TENANT_ID_BYTES : nat := 128.

Inductive TenantIdError :=
| TenantEmpty
| TenantTooLong (max_bytes : nat)
| TenantInvalidByte (offset : nat).

Definition tenant_byte_valid (offset : nat) (b : ascii) : bool :=
  is_ascii_alphanumeric b || existsb (Ascii.eqb b) ["_"; "-"; "."]%char.

Definition validate_tenant_id (value : string) : result TenantIdError unit :=
  _ ← guard_err (str_is_empty value) TenantEmpty;
  _ ← guard_err (Nat.ltb MAX_TENANT_ID_BYTES (byte_len value)) (TenantTooLong MAX_TENANT_ID_BYTES);
  match first_invalid tenant_byte_valid 0 value with
  | Some offset => Err (TenantInvalidByte offset)
  | None => Ok tt
  end.

Record TenantId := mkTenantId {
  tenant_str : string;
  tenant_valid : Is_true (is_ok (validate_tenant_id tenant_str))
}.

Lemma tenant_accepted {value u} :
  validate_tenant_id value = Ok u → Is_true (is_ok (validate_tenant_id value)).
Proof. by intros ->. Qed.

Definition tenant_id_from (value : string) (r : result TenantIdError unit)
    : validate_tenant_id value = r → result TenantIdError TenantId :=
  match r with
  | Ok _ => λ H, Ok (mkTenantId value (tenant_accepted H))
  | Err e => λ _, Err e
  end.

(** [TenantId::new] and the conversions that call it. *)
Definition tenant_id_new (value : string) : result TenantIdError TenantId :=
  tenant_id_from value _ eq_refl.

Lemma tenant_id_from_spec value r (H : validate_tenant_id value = r) :
  match tenant_id_from value r H with
  | Ok t => tenant_str t = value
  | Err e => validate_tenant_id value = Err e
  end.
Proof. by destruct r. Qed.

Lemma tenant_eq (a b : TenantId) : tenant_str a = tenant_str b → a = b.
Proof. destruct a as [s Hs], b as [t Ht]; simpl. intros <-. f_equal. apply proof_irrel. Qed.

#[global] Instance TenantId_eq_dec : EqDecision TenantId := λ a b,
  match decide (tenant_str a = tenant_str b) with
  | left H => left (tenant_eq a b H)
  | right H => right (λ E, H (f_equal tenant_str E))
  end.
Lemma tenant_id_new_str t : tenant_id_new (tenant_str t) = Ok t.
Proof.
  pose proof (tenant_id_from_spec (tenant_str t) _ eq_refl) as H. unfold tenant_id_new.
  destruct (tenant_id_from _ _ _) as [t'|e]; [by rewrite (tenant_eq _ _ H)|].
  pose proof (tenant_valid t) as Hv. by rewrite H in Hv.
Qed.

#[global] Program Instance TenantId_countable : Countable TenantId :=
  inj_countable tenant_str (λ s, result_ok (tenant_id_new s)) _.
Next Obligation. intros t. cbv beta. by rewrite tenant_id_new_str. Qed.

(** ** Shards *)

(** [Arc<ZanzibarEngine>]: the index of an engine in the list of all engines
    built. *)
Abbreviation EngineRef := nat (only parsing).

Record ZanzibarTenantShards := mkShards {
  shards : gmap TenantId EngineRef;
  create_gate : bool;
  shards_builder : ZanzibarEngineBuilder;
  built_engines : list World
}.

Definition shards_new (b : ZanzibarEngineBuilder) : ZanzibarTenantShards := mkShards ∅ false b [].

(** [tenants] *)
Definition tenants (s : ZanzibarTenantShards) : list TenantId :=
  sort_by_name tenant_str (map_to_list (shards s)).*1.

(** Where a call stands. *)
Inductive Call :=
| GetCall (t : TenantId)
| GetReturned (t : TenantId) (r : option EngineRef)
| CreateCall (t : TenantId)
| CreateLocking (t : TenantId)
| CreateLocked (t : TenantId)
| CreateMissed (t : TenantId)
| CreateCloned (t : TenantId) (next : gmap TenantId EngineRef)
| CreateBuilt (t : TenantId) (next : gmap TenantId EngineRef) (e : EngineRef)
| CreateUnlocking (t : TenantId) (e : EngineRef)
| CreateReturned (t : TenantId) (e : EngineRef).

Definition set_gate (locked : bool) (s : ZanzibarTenantShards) : ZanzibarTenantShards :=
  mkShards (shards s) locked (shards_builder s) (built_engines s).

(** The next action of a call: [None] when it waits for the gate or has
    returned. A poisoned gate is entered like any other. [fresh] is the datastore
    id a new engine draws. *)
Definition call_step (fresh : DatastoreId) (c : Call) (s : ZanzibarTenantShards)
    : option (Call * ZanzibarTenantShards) :=
  match c with
  | GetCall t => Some (GetReturned t (shards s !! t), s)
  | CreateCall t =>
      Some (match shards s !! t with
            | Some e => CreateReturned t e
            | None => CreateLocking t
            end, s)
  | CreateLocking t =>
      if create_gate s then None else Some (CreateLocked t, set_gate true s)
  | CreateLocked t =>
      Some (match shards s !! t with
            | Some e => CreateUnlocking t e
            | None => CreateMissed t
            end, s)
  | CreateMissed t => Some (CreateCloned t (shards s), s)
  | CreateCloned t next =>
      Some (CreateBuilt t next (length (built_engines s)),
            mkShards (shards s) (create_gate s) (shards_builder s)
              (built_engines s ++ [build (shards_builder s) fresh []]))
  | CreateBuilt t next e =>
      Some (CreateUnlocking t e,
            mkShards (<[t := e]> next) (create_gate s) (shards_builder s) (built_engines s))
  | CreateUnlocking t e => Some (CreateReturned t e, set_gate false s)
  | GetReturned _ _ | CreateReturned _ _ => None
  end.

Definition returned (c : Call) : bool :=
  match c with GetReturned _ _ | CreateReturned _ _ => true | _ => false end.

(** The calls that hold the gate. *)
Definition holds_gate (c : Call) : bool :=
  match c with
  | CreateLocked _ | CreateMissed _ | CreateCloned _ _ | CreateBuilt _ _ _
  | CreateUnlocking _ _ => true
  | _ => false
  end.

(** ** All threads *)

Record System := mkSystem { sys_shards : ZanzibarTenantShards; sys_calls : list Call }.

(** One action of one call. *)
Definition calls_step (sys sys' : System) : Prop :=
  ∃ i fresh c c' s',
    sys_calls sys !! i = Some c ∧ call_step fresh c (sys_shards sys) = Some (c', s') ∧
    sys' = mkSystem s' (<[i := c']> (sys_calls sys)).

Section system.
Context `{Hasher, HashOrder, Blake3, PestParser}.

(** What else happens: calls begin, and engines run commands. *)
Inductive sys_step (sys : System) : System → Prop :=
| step_call sys' : calls_step sys sys' → sys_step sys sys'
| step_get t : sys_step sys (mkSystem (sys_shards sys) (sys_calls sys ++ [GetCall t]))
| step_create t : sys_step sys (mkSystem (sys_shards sys) (sys_calls sys ++ [CreateCall t]))
| step_command e w fresh cmd :
    built_engines (sys_shards sys) !! e = Some w →
    sys_step sys
      (mkSystem
         (mkShards (shards (sys_shards sys)) (create_gate (sys_shards sys))
            (shards_builder (sys_shards sys))
            (<[e := (submit fresh cmd w).2]> (built_engines (sys_shards sys))))
         (sys_calls sys)).

Definition sys_run (b : ZanzibarEngineBuilder) : System → Prop :=
  rtc sys_step (mkSystem (shards_new b) []).
End system.

(** ** The invariant *)

(** What the shards hold: engines that exist, each under one tenant, and each in
    a state some commands lead to. *)
Record shards_ok `{Hasher, HashOrder, Blake3, PestParser} (s : ZanzibarTenantShards) : Prop := {
  sh_built t e : shards s !! t = Some e → e < length (built_engines s);
  sh_inj t t' e : shards s !! t = Some e → shards s !! t' = Some e → t = t';
  sh_runs e w : built_engines s !! e = Some w → ∃ log, engine_run w log
}.

(** What a call knows of the shards. *)
Definition call_ok (s : ZanzibarTenantShards) (c : Call) : Prop :=
  match c with
  | GetReturned t (Some e) | CreateUnlocking t e | CreateReturned t e => shards s !! t = Some e
  | CreateMissed t => shards s !! t = None
  | CreateCloned t next => shards s !! t = None ∧ next = shards s
  | CreateBuilt t next e =>
      shards s !! t = None ∧ next = shards s ∧ e < length (built_engines s) ∧
      ∀ t', shards s !! t' ≠ Some e
  | _ => True
  end.

Definition holders (calls : list Call) : nat :=
  sum_list_with (λ c, Nat.b2n (holds_gate c)) calls.

Record sys_ok `{Hasher, HashOrder, Blake3, PestParser} (sys : System) : Prop := {
  sy_shards : shards_ok (sys_shards sys);
  sy_calls : Forall (call_ok (sys_shards sys)) (sys_calls sys);
  sy_gate : holders (sys_calls sys) = Nat.b2n (create_gate (sys_shards sys))
}.

(** A call outside the gate only knows entries that stay. *)
Lemma call_ok_grows s s' c :
  holds_gate c = false → shards s ⊆ shards s' → call_ok s c → call_ok s' c.
Proof.
  intros Hc Hs. destruct c as [|? []| | | | | | | |]; try done; simpl; eauto using lookup_weaken.
Qed.

Lemma call_ok_same s s' c :
  shards s' = shards s → length (built_engines s) ≤ length (built_engines s') →
  call_ok s c → call_ok s' c.
Proof.
  intros Hs Hl. destruct c as [|? []| | | | | | | |]; simpl; rewrite ?Hs; try done.
  intros (? & ? & ? & ?). split_and!; [done|done|lia|done].
Qed.

Lemma holders_elem calls c : holders calls = 0 → c ∈ calls → holds_gate c = false.
Proof.
  intros H0 Hc. pose proof (sum_list_with_in c (λ c, Nat.b2n (holds_gate c)) calls Hc) as Hle.
  simpl in Hle. unfold holders in H0. destruct (holds_gate c); simpl in *; [lia|done].
Qed.

Section proofs.
Context `{Hasher, HashOrder, Blake3, PestParser}.

Lemma submit_run fresh cmd w log :
  engine_run w log → ∃ log', engine_run (submit fresh cmd w).2 log'.
Proof.
  intros Hrun. pose proof (execute_run w log [(fresh, cmd)] Hrun) as Hr. revert Hr.
  unfold submit. simpl. destruct (run_command fresh cmd w) as [[t|e] w']; simpl; [|eauto].
  destruct (current_snapshot (wd_writer w')); eauto.
Qed.

(** One action of one call. *)
Lemma call_step_ok fresh c s c' s' :
  shards_ok s → call_ok s c → (holds_gate c = true → create_gate s = true) →
  call_step fresh c s = Some (c', s') →
  shards_ok s' ∧ call_ok s' c' ∧ shards s ⊆ shards s' ∧
  length (built_engines s) ≤ length (built_engines s') ∧
  (holds_gate c = false → shards s' = shards s) ∧
  Nat.b2n (holds_gate c') + Nat.b2n (create_gate s) =
  Nat.b2n (holds_gate c) + Nat.b2n (create_gate s').
Proof.
  intros [Hb Hi Hr] Hc Hg Hstep.
  destruct c as [t|? []|t|t|t|t|t next|t next e|t e|]; simpl in Hstep; try done.
  - injection Hstep as <- <-. split_and!; try done. simpl. by destruct (shards s !! t) eqn:E.
  - injection Hstep as <- <-. split_and!; try done; by destruct (shards s !! t) eqn:E.
  - destruct (create_gate s) eqn:E; [done|]. injection Hstep as <- <-. by split_and!.
  - injection Hstep as <- <-. split_and!; try done; by destruct (shards s !! t) eqn:E.
  - injection Hstep as <- <-. by split_and!.
  - injection Hstep as <- <-. simpl in Hc. destruct Hc as [Hn ->]. split_and!; try done; simpl.
    + split; simpl; [|done|].
      * intros t' e' Ht%Hb. rewrite length_app. lia.
      * intros e' w' [Hw|[Hle Hw]]%lookup_app_Some; [by eapply Hr|].
        apply list_lookup_singleton_Some in Hw as [_ <-]. exists []. apply run_build.
    + rewrite length_app. simpl. split_and!; [done|done|lia|].
      intros t' Ht%Hb. lia.
    + rewrite length_app. lia.
  - injection Hstep as <- <-. simpl in Hc. destruct Hc as (Hn & -> & Hlt & Hne).
    split_and!; try done; simpl; [|by apply lookup_insert_eq|by apply insert_subseteq].
    split; simpl; [| |done].
    + intros t' e' [[<- <-]|[_ Ht]]%lookup_insert_Some; eauto.
    + intros t1 t2 e' [[<- <-]|[_ H1']]%lookup_insert_Some [[<- E]|[_ H2']]%lookup_insert_Some; eauto.
      * by apply Hne in H2'.
      * subst. by apply Hne in H1'.
  - injection Hstep as <- <-. simpl in Hg |- *. rewrite Hg by done. by split_and!.
Qed.

Lemma calls_step_ok sys sys' :
  sys_ok sys → calls_step sys sys' →
  sys_ok sys' ∧ shards (sys_shards sys) ⊆ shards (sys_shards sys').
Proof.
  intros [Hs Hcs Hgate] (i & fresh & c & c' & s' & Hi & Hstep & ->).
  apply list_elem_of_split_length in Hi as (l1 & l2 & E & ->). rewrite E in *.
  apply Forall_app in Hcs as [Hl1 [Hc Hl2]%Forall_cons].
  unfold holders in Hgate. rewrite sum_list_with_app in Hgate. simpl in Hgate.
  destruct (call_step_ok fresh c (sys_shards sys) c' s') as (Hs' & Hc' & Hsub & Hlen & Hsame & Hn);
    [done|done| |done|].
  { intros Hh. rewrite Hh in Hgate. destruct (create_gate _); simpl in *; [done|lia]. }
  assert (∀ l, holders l ≤ holders l1 + holders l2 → Forall (call_ok (sys_shards sys)) l →
               Forall (call_ok s') l) as Hothers.
  { intros l Hle Hl. rewrite Forall_forall in Hl |- *. intros d Hd.
    destruct (holds_gate c) eqn:Hh.
    - apply (call_ok_grows (sys_shards sys)); [|done|by apply Hl].
      apply (holders_elem l); [|done]. unfold holders in *.
      destruct (create_gate (sys_shards sys)); simpl in *; lia.
    - apply (call_ok_same (sys_shards sys)); [by apply Hsame|done|by apply Hl]. }
  rewrite insert_app_r_alt, Nat.sub_diag by lia. simpl. split; [split; simpl|done]; [done| |].
  - apply Forall_app. split; [apply Hothers; [lia|done]|]. constructor; [done|].
    apply Hothers; [lia|done].
  - unfold holders in *. rewrite sum_list_with_app. simpl. lia.
Qed.

Lemma new_call_ok sys c :
  sys_ok sys → call_ok (sys_shards sys) c → holds_gate c = false →
  sys_ok (mkSystem (sys_shards sys) (sys_calls sys ++ [c])).
Proof.
  intros [Hs Hcs Hg] Hc Hh. split; simpl; [done|by apply Forall_app; repeat constructor|].
  unfold holders in *. rewrite sum_list_with_app. simpl. rewrite Hh. simpl. lia.
Qed.

Lemma sys_step_ok sys sys' :
  sys_ok sys → sys_step sys sys' →
  sys_ok sys' ∧ shards (sys_shards sys) ⊆ shards (sys_shards sys').
Proof.
  intros Hok [sys'' Hstep|t|t|e w fresh cmd Hw].
  - by apply calls_step_ok.
  - split; [by apply new_call_ok|done].
  - split; [by apply new_call_ok|done].
  - destruct Hok as [[Hb Hi Hr] Hcs Hg]. split; [|done]. split; simpl; [split; simpl| |done].
    + intros t e' Ht%Hb. by rewrite length_insert.
    + done.
    + intros e' w' [(-> & <- & _)|[_ Hw']]%list_lookup_insert_Some; [|by eapply Hr].
      destruct (Hr e' w Hw) as [log Hrun]. by eapply submit_run.
    + eapply Forall_impl; [done|]. intros c. apply call_ok_same; simpl; [done|].
      by rewrite length_insert.
Qed.

Lemma sys_run_ok b sys : sys_run b sys → sys_ok sys.
Proof.
  intros Hrun. assert (sys_ok (mkSystem (shards_new b) [])) as Hok.
  { split; [split|constructor|done]; simpl; [by intros ? ? ?%lookup_empty_Some| |done].
    by intros ? ? ? ?%lookup_empty_Some. }
  induction Hrun as [|x y z Hstep _ IH]; [done|]. apply IH. by eapply sys_step_ok.
Qed.

Lemma sys_steps_ok sys sys' :
  sys_ok sys → rtc sys_step sys sys' →
  sys_ok sys' ∧ shards (sys_shards sys) ⊆ shards (sys_shards sys').
Proof.
  intros Hok Hrun. induction Hrun as [|x y z Hstep _ IH]; [done|].
  destruct (sys_step_ok x y Hok Hstep) as [Hy Hxy]. destruct (IH Hy) as [Hz Hyz].
  split; [done|by etransitivity].
Qed.
End proofs.

(** ** Properties *)

(** Actions a call has left at most. *)
Definition remaining (c : Call) : nat :=
  match c with
  | GetReturned _ _ | CreateReturned _ _ => 0
  | GetCall _ | CreateUnlocking _ _ => 1
  | CreateBuilt _ _ _ => 2
  | CreateCloned _ _ => 3
  | CreateMissed _ => 4
  | CreateLocked _ => 5
  | CreateLocking _ => 6
  | CreateCall _ => 7
  end.

Definition work (calls : list Call) : nat := sum_list_with remaining calls.

Lemma work_bound calls : work calls ≤ 7 * length calls.
Proof. induction calls as [|[] calls IH]; simpl; unfold work in *; simpl; lia. Qed.

Lemma call_step_works fresh c s c' s' :
  call_step fresh c s = Some (c', s') → remaining c' < remaining c.
Proof.
  intros Hstep. destruct c as [t| |t|t|t|t|t next|t next e|t e|]; simpl in Hstep;
    repeat case_match; simplify_eq; simpl; lia.
Qed.

Lemma calls_step_works sys sys' :
  calls_step sys sys' → work (sys_calls sys') < work (sys_calls sys).
Proof.
  intros (i & fresh & c & c' & s' & Hi & Hstep%call_step_works & ->). simpl.
  apply list_elem_of_split_length in Hi as (l1 & l2 & -> & ->).
  rewrite insert_app_r_alt, Nat.sub_diag by lia. unfold work. rewrite !sum_list_with_app. simpl. lia.
Qed.

(** A call that cannot act waits for the gate. *)
Lemma call_step_blocked fresh c s :
  call_step fresh c s = None → returned c = false → holds_gate c = false ∧ create_gate s = true.
Proof. destruct c; simpl; try done. by destruct (create_gate s). Qed.

Section properties.
Context `{Hasher, HashOrder, Blake3, PestParser}.

Lemma blocked_returned sys :
  sys_ok sys → (∀ sys', ¬ calls_step sys sys') → Forall (λ c, returned c = true) (sys_calls sys).
Proof.
  intros [_ _ Hgate] Hstuck.
  assert (∀ c, c ∈ sys_calls sys → returned c = false →
               holds_gate c = false ∧ create_gate (sys_shards sys) = true) as Hc.
  { intros c [i Hi]%list_elem_of_lookup Hr.
    apply (call_step_blocked (@mkByteArray 16 (replicate 16 0%Z) I)); [|done].
    destruct (call_step _ c _) as [[c' s']|] eqn:E; [|done].
    exfalso. eapply Hstuck. exists i. eexists. by exists c, c', s'. }
  assert (∀ c, c ∈ sys_calls sys → holds_gate c = false) as Hnone.
  { intros c Hin. destruct (returned c) eqn:Hr; [by destruct c|by apply Hc]. }
  assert (holders (sys_calls sys) = 0) as H0'.
  { clear -Hnone. unfold holders. induction (sys_calls sys) as [|c l IH]; [done|]. simpl.
    rewrite Hnone by by left. rewrite IH; [done|]. intros d Hd. apply Hnone. by right. }
  apply Forall_forall. intros c Hin. destruct (returned c) eqn:Hr; [done|].
  destruct (Hc c Hin Hr) as [_ Hg]. rewrite Hg, H0' in Hgate. done.
Qed.

(** C33: However calls of [get_or_create] interleave with each other, with lookups
    and with commands on the engines, the engine returned for a tenant is the one
    every later lookup and every other call for the tenant finds, no two tenants
    ever share an engine, and the engine is a new engine that has run some
    commands. *)
Theorem tenants_isolated (b : ZanzibarEngineBuilder) (sys sys' : System) (t : TenantId)
    (e : EngineRef) (Hrun : sys_run b sys) (Hreturned : CreateReturned t e ∈ sys_calls sys)
    (Hlater : rtc sys_step sys sys') :
  shards (sys_shards sys') !! t = Some e ∧
  (∃ w log, built_engines (sys_shards sys') !! e = Some w ∧ engine_run w log) ∧
  ∀ t' e', CreateReturned t' e' ∈ sys_calls sys' → (e' = e ↔ t' = t).
Proof.
  pose proof (sys_run_ok b sys Hrun) as Hok.
  destruct (sys_steps_ok sys sys' Hok Hlater) as [[Hs Hcs _] Hsub].
  assert (shards (sys_shards sys') !! t = Some e) as Ht.
  { eapply lookup_weaken; [|exact Hsub].
    apply (proj1 (Forall_forall _ _) (sy_calls _ Hok) _ Hreturned). }
  split; [done|]. split.
  - destruct (lookup_lt_is_Some_2 _ _ (sh_built _ Hs t e Ht)) as [w Hw].
    destruct (sh_runs _ Hs e w Hw) as [log Hlog]. by exists w, log.
  - intros t' e' Hr'. pose proof (proj1 (Forall_forall _ _) Hcs _ Hr') as Ht'. simpl in Ht'.
    split; [intros ->; by eapply sh_inj|intros ->; congruence].
Qed.

(** C35: Calls in progress never deadlock and always finish: from any reachable
    state, whatever the schedule, they take at most seven actions each, and when
    none of them can act any more, all have returned. *)
Theorem calls_finish (b : ZanzibarEngineBuilder) (sys sys' : System) (n : nat)
    (Hrun : sys_run b sys) (Hsteps : nsteps calls_step n sys sys') :
  n ≤ 7 * length (sys_calls sys) ∧
  ((∀ sys'', ¬ calls_step sys' sys'') → Forall (λ c, returned c = true) (sys_calls sys')).
Proof.
  split.
  - transitivity (work (sys_calls sys)); [|apply work_bound]. clear Hrun.
    induction Hsteps as [|n x y z Hstep%calls_step_works _ IH]; lia.
  - apply blocked_returned. apply (sys_run_ok b) in Hrun.
    induction Hsteps as [|n x y z Hstep _ IH]; [done|].
    apply IH. by eapply calls_step_ok.
Qed.

(** Letting calls act in a given order. *)
Fixpoint schedule (fresh : DatastoreId) (turns : list nat) (sys : System) : System :=
  match turns with
  | [] => sys
  | i :: turns =>
      schedule fresh turns
        match sys_calls sys !! i with
        | Some c =>
            match call_step fresh c (sys_shards sys) with
            | Some (c', s') => mkSystem s' (<[i := c']> (sys_calls sys))
            | None => sys
            end
        | None => sys
        end
  end.

Lemma schedule_steps fresh turns sys : rtc sys_step sys (schedule fresh turns sys).
Proof.
  revert sys. induction turns as [|i turns IH]; intros sys; simpl; [done|].
  destruct (sys_calls sys !! i) as [c|] eqn:Hc; [|done].
  destruct (call_step fresh c (sys_shards sys)) as [[c' s']|] eqn:E; [|done].
  eapply rtc_l; [|apply IH]. apply step_call. by exists i, fresh, c, c', s'.
Qed.
End properties.

(** ** Concrete inputs *)

Module TenantExample.
Import EngineExample.

Definition acme : TenantId := mkTenantId "acme" I.
Definition other : TenantId := mkTenantId "other" I.

Definition began : System :=
  mkSystem (shards_new builder_new) [CreateCall acme; CreateCall acme; CreateCall other].
(** Both calls for [acme] miss before the first one creates its engine. *)
Definition first : System := schedule here [0; 1; 0; 0; 0; 0; 1; 0; 0] began.
Definition finished : System := schedule here [2; 1; 1; 2; 1; 1; 2; 2; 2; 2; 2; 2] first.

Lemma first_run : sys_run builder_new first.
Proof.
  unfold sys_run. transitivity began; [|apply schedule_steps].
  eapply rtc_l; [apply (step_create _ acme)|]. eapply rtc_l; [apply (step_create _ acme)|].
  eapply rtc_l; [apply (step_create _ other)|]. done.
Qed.

(** The call for [other] acts once more. *)
Lemma other_acts : nsteps calls_step 1 first
  (mkSystem (sys_shards first) (<[2 := CreateLocking other]> (sys_calls first))).
Proof.
  apply nsteps_once. exists 2, here, (CreateCall other), (CreateLocking other), (sys_shards first).
  split; [by vm_compute|]. split; [|done]. unfold call_step.
  assert (shards (sys_shards first) !! other = None) as -> by by vm_compute. done.
Qed.
End TenantExample.

Lemma tenants_isolated_witness :
  let sys' := TenantExample.finished in
  shards (sys_shards sys') !! TenantExample.acme = Some 0 ∧
  (1 = 0 ↔ TenantExample.other = TenantExample.acme).
Proof.
  pose proof (tenants_isolated builder_new TenantExample.first TenantExample.finished
    TenantExample.acme 0 TenantExample.first_run
    ltac:(apply (list_elem_of_lookup_2 _ 0); vm_compute; reflexivity)
    (schedule_steps _ _ _)) as (Ht & _ & He).
  split; [exact Ht|]. apply He. apply (list_elem_of_lookup_2 _ 2). vm_compute. reflexivity.
Defined.

Lemma calls_finish_witness : 1 ≤ 7 * length (sys_calls TenantExample.first).
Proof.
  exact (proj1 (calls_finish builder_new TenantExample.first _ 1 TenantExample.first_run
                  TenantExample.other_acts)).
Defined.
