(* ===== verification/WriterActor.v ===== *)
(** * The writer's queue (src/src/api.rs, [WriterActor] and [submit_write])

    A thread that owns the writer, a bounded queue of commands in front of it and
    a response channel per call. Any number of callers submit commands; every
    atomic action of a caller, of the thread and of dropping the engine is one
    step, and they interleave. *)

From S2P Require Import Prelude Model Domain Revision StoreTypes Legacy Dsl Runtime Writer.
From S2P Require Import EvalContext Api EngineProps.

Definition DEFAULT_WRITER_QUEUE_CAPACITY : nat := 1024.

Definition default_writer_queue_capacity : NonZeroUsize :=
  mkNonZeroUsize DEFAULT_WRITER_QUEUE_CAPACITY I.

(** ** States *)

Abbreviation Response := (result ZanzibarError ConsistencyToken) (only parsing).

(** What is in the queue: a command with its response channel, which is named by
    the call that holds its other end. *)
Inductive Message :=
| Command (call : nat) (command : WriterCommand)
| Shutdown.

(** Where the thread is in its loop. *)
Inductive Worker :=
| Receiving
| Running (call : nat) (command : WriterCommand)
| Replying (call : nat) (response : Response)
| Stopped.

(** Where a call of [submit_write] is; [slot] is its response channel. *)
Inductive Stage :=
| Checking
| Sending
| Waiting (slot : option Response)
| Returned (r : result EngineError ConsistencyToken).

Record SubmitCall := mkSubmit {
  sc_operation : string;
  sc_command : WriterCommand;
  sc_stage : Stage
}.

(** Dropping the engine: the flag, the message, the join. *)
Inductive DropStage := Owned | FlagSet | Joining | Joined.

Record WriterActor := mkActor {
  ac_capacity : NonZeroUsize;
  ac_queue : list Message;
  ac_shutdown : bool;
  ac_worker : Worker;
  ac_world : World;
  ac_calls : list SubmitCall;
  ac_drop : DropStage
}.

(** [WriterActor::start] *)
Definition actor_start (capacity : NonZeroUsize) (w : World) : WriterActor :=
  mkActor capacity [] false Receiving w [] Owned.

Definition is_stopped (w : Worker) : bool := match w with Stopped => true | _ => false end.

(** There is room in the channel, which only exists while the thread runs. *)
Definition has_room (a : WriterActor) : bool :=
  (length (ac_queue a) <? nzu_get (ac_capacity a))%nat.

Definition set_stage (i : nat) (s : Stage) (calls : list SubmitCall) : list SubmitCall :=
  alter (λ c, mkSubmit (sc_operation c) (sc_command c) s) i calls.

Definition with_calls (calls : list SubmitCall) (a : WriterActor) : WriterActor :=
  mkActor (ac_capacity a) (ac_queue a) (ac_shutdown a) (ac_worker a) (ac_world a) calls (ac_drop a).
Definition with_queue (queue : list Message) (a : WriterActor) : WriterActor :=
  mkActor (ac_capacity a) queue (ac_shutdown a) (ac_worker a) (ac_world a) (ac_calls a) (ac_drop a).
Definition with_worker (queue : list Message) (worker : Worker) (w : World) (calls : list SubmitCall)
    (a : WriterActor) : WriterActor :=
  mkActor (ac_capacity a) queue (ac_shutdown a) worker w calls (ac_drop a).
Definition with_drop (shutdown : bool) (d : DropStage) (a : WriterActor) : WriterActor :=
  mkActor (ac_capacity a) (ac_queue a) shutdown (ac_worker a) (ac_world a) (ac_calls a) d.

(** ** Actions *)

(** The next action of a call in [submit_write]: look at the flag, send the
    command, receive the response. [None] when it has to wait: for room in the
    queue, or for the response. When the thread is gone its end of the queue is
    closed, and so are the response channels of the commands that were in it. *)
Definition call_acts (i : nat) (a : WriterActor) : option WriterActor :=
  c ← ac_calls a !! i;
  let unavailable := Returned (Err (EWriterUnavailable (sc_operation c))) in
  match sc_stage c with
  | Checking =>
      Some (with_calls (set_stage i (if ac_shutdown a then unavailable else Sending) (ac_calls a)) a)
  | Sending =>
      if is_stopped (ac_worker a) then Some (with_calls (set_stage i unavailable (ac_calls a)) a)
      else if has_room a then
        Some (with_queue (ac_queue a ++ [Command i (sc_command c)])
                (with_calls (set_stage i (Waiting None) (ac_calls a)) a))
      else None
  | Waiting (Some r) =>
      Some (with_calls (set_stage i (Returned (map_err engine_error r)) (ac_calls a)) a)
  | Waiting None =>
      if is_stopped (ac_worker a) then Some (with_calls (set_stage i unavailable (ac_calls a)) a)
      else None
  | Returned _ => None
  end.

(** The third and last action of [Drop for WriterActor] waits for the thread; the
    second sends [Shutdown] if there is room and goes on if there is none. *)
Definition drop_acts (a : WriterActor) : option WriterActor :=
  match ac_drop a with
  | FlagSet =>
      Some (with_drop (ac_shutdown a) Joining
              (if negb (is_stopped (ac_worker a)) && has_room a
               then with_queue (ac_queue a ++ [Shutdown]) a else a))
  | Joining => if is_stopped (ac_worker a) then Some (with_drop (ac_shutdown a) Joined a) else None
  | Owned | Joined => None
  end.

Section actor.
Context `{Hasher, HashOrder, Blake3, PestParser}.

(** The thread's loop: receive, run, reply. [fresh] is the identifier a new
    writer would draw. *)
Definition worker_acts (fresh : DatastoreId) (a : WriterActor) : option WriterActor :=
  match ac_worker a with
  | Receiving =>
      match ac_queue a with
      | [] => None
      | Command i command :: queue =>
          Some (with_worker queue (Running i command) (ac_world a) (ac_calls a) a)
      | Shutdown :: _ => Some (with_worker [] Stopped (ac_world a) (ac_calls a) a)
      end
  | Running i command =>
      let '(r, w) := run_command fresh command (ac_world a) in
      Some (with_worker (ac_queue a) (Replying i r) w (ac_calls a) a)
  | Replying i r =>
      Some (with_worker (ac_queue a) Receiving (ac_world a)
              (set_stage i (Waiting (Some r)) (ac_calls a)) a)
  | Stopped => None
  end.

(** ** Runs

    The commands run so far are logged, with the call each came from. *)

Record Entry := mkEntryOf { en_call : nat; en_fresh : DatastoreId; en_command : WriterCommand }.

Definition executed (fresh : DatastoreId) (a : WriterActor) : list Entry :=
  match ac_worker a with Running i command => [mkEntryOf i fresh command] | _ => [] end.

Definition has_returned (c : SubmitCall) : bool :=
  match sc_stage c with Returned _ => true | _ => false end.

(** The engine's own actions. *)
Inductive acts : WriterActor * list Entry → WriterActor * list Entry → Prop :=
| acts_call a log i a' : call_acts i a = Some a' → acts (a, log) (a', log)
| acts_worker a log fresh a' :
    worker_acts fresh a = Some a' → acts (a, log) (a', log ++ executed fresh a)
| acts_drop a log a' : drop_acts a = Some a' → acts (a, log) (a', log).

(** What its callers do: begin calls while they hold the engine, and drop it when
    no call borrows it any more. *)
Inductive actor_step : WriterActor * list Entry → WriterActor * list Entry → Prop :=
| step_acts x y : acts x y → actor_step x y
| step_begin a log op command :
    ac_drop a = Owned →
    actor_step (a, log) (with_calls (ac_calls a ++ [mkSubmit op command Checking]) a, log)
| step_drop a log :
    ac_drop a = Owned → Forall (λ c, has_returned c = true) (ac_calls a) →
    actor_step (a, log) (with_drop true FlagSet a, log).

Definition actor_run (capacity : NonZeroUsize) (w : World) : WriterActor * list Entry → Prop :=
  rtc actor_step (actor_start capacity w, []).

(** The commands of a log, for [execute]. *)
Definition log_commands (log : list Entry) : list (DatastoreId * WriterCommand) :=
  (λ e, (en_fresh e, en_command e)) <$> log.

(** The writer after the commands of a log, run one after the other. *)
Definition world_after (w : World) (log : list Entry) : World := (execute w [] (log_commands log)).1.

Lemma execute_app w tokens a b :
  execute w tokens (a ++ b) = execute (execute w tokens a).1 (execute w tokens a).2 b.
Proof.
  revert w tokens. induction a as [|[fresh cmd] a IH]; intros w tokens; [done|]. cbn [app execute].
  destruct (run_command fresh cmd w) as [[t|e] w']; [destruct (current_snapshot _)|]; apply IH.
Qed.

Lemma execute_world w tokens tokens' cmds :
  (execute w tokens cmds).1 = (execute w tokens' cmds).1.
Proof.
  revert w tokens tokens'. induction cmds as [|[fresh cmd] cmds IH]; intros w tokens tokens'; [done|].
  cbn [execute]. destruct (run_command fresh cmd w) as [[t|e] w']; [destruct (current_snapshot _)|];
    apply IH.
Qed.

Lemma world_after_snoc w log e :
  world_after w (log ++ [e]) = (run_command (en_fresh e) (en_command e) (world_after w log)).2.
Proof.
  unfold world_after, log_commands. rewrite fmap_app, execute_app. cbn [fmap list_fmap execute].
  set (x := (execute w [] _).1). destruct (run_command _ _ x) as [[t|r] w']; [|done].
  by destruct (current_snapshot _).
Qed.

(** ** The invariant *)

(** The commands sent and not run, in the order the thread will run them. *)
Definition queued (m : Message) : option (nat * WriterCommand) :=
  match m with Command i command => Some (i, command) | Shutdown => None end.
Definition pending (a : WriterActor) : list (nat * WriterCommand) :=
  match ac_worker a with Running i command => [(i, command)] | _ => [] end ++
  omap (M:=list) queued (ac_queue a).

#[local] Arguments pending : simpl never.
#[local] Arguments has_room : simpl never.

Definition response_of (w : World) (log : list Entry) (k : nat) (e : Entry) : Response :=
  (run_command (en_fresh e) (en_command e) (world_after w (take k log))).1.

(** A call whose command was run: the response is on its way, in its channel or
    returned. *)
Definition answered (a : WriterActor) (i : nat) (c : SubmitCall) (r : Response) : Prop :=
  match sc_stage c with
  | Waiting None => ac_worker a = Replying i r
  | Waiting (Some r') => r' = r
  | Returned r' => r' = map_err engine_error r
  | Checking | Sending => False
  end.

Definition all_returned (a : WriterActor) : Prop := Forall (λ c, has_returned c = true) (ac_calls a).

Definition drop_ok (a : WriterActor) : Prop :=
  match ac_drop a with
  | Owned => ac_shutdown a = false ∧ ac_worker a ≠ Stopped ∧ Shutdown ∉ ac_queue a
  | FlagSet => all_returned a ∧ ac_worker a = Receiving ∧ ac_queue a = []
  | Joining => all_returned a ∧ ((ac_worker a = Receiving ∧ ac_queue a = [Shutdown]) ∨
                                 (ac_worker a = Stopped ∧ ac_queue a = []))
  | Joined => all_returned a ∧ ac_worker a = Stopped ∧ ac_queue a = []
  end.

Record actor_ok (w : World) (a : WriterActor) (log : list Entry) : Prop := {
  ao_world : ac_world a = world_after w log;
  ao_nodup : NoDup ((en_call <$> log) ++ (pending a).*1);
  ao_pending i command : (i, command) ∈ pending a →
    ∃ op, ac_calls a !! i = Some (mkSubmit op command (Waiting None));
  ao_log k e : log !! k = Some e → ∃ c, ac_calls a !! en_call e = Some c ∧
    sc_command c = en_command e ∧ answered a (en_call e) c (response_of w log k e);
  ao_calls i c : ac_calls a !! i = Some c →
    match sc_stage c with
    | Waiting None => i ∈ (pending a).*1 ∨ ∃ r, ac_worker a = Replying i r
    | Waiting (Some _) | Returned _ => i ∈ en_call <$> log
    | Checking | Sending => True
    end;
  ao_replying i r : ac_worker a = Replying i r → i ∈ en_call <$> log ∧
    ∃ c, ac_calls a !! i = Some c ∧ sc_stage c = Waiting None;
  ao_drop : drop_ok a
}.

Lemma log_entry w a log i :
  actor_ok w a log → i ∈ en_call <$> log → ∃ k e, log !! k = Some e ∧ en_call e = i.
Proof.
  intros _ (e & -> & [k Hk]%list_elem_of_lookup)%list_elem_of_fmap. by exists k, e.
Qed.

Lemma set_stage_lookup i s calls j :
  set_stage i s calls !! j =
  if decide (j = i) then (λ c, mkSubmit (sc_operation c) (sc_command c) s) <$> calls !! j
  else calls !! j.
Proof.
  unfold set_stage. case_decide as E; [subst; by rewrite list_lookup_alter_eq|].
  by rewrite list_lookup_alter_ne.
Qed.

(** A call that was not sent yet is nowhere else. *)
Lemma fresh_call w a log i c :
  actor_ok w a log → ac_calls a !! i = Some c → sc_stage c = Checking ∨ sc_stage c = Sending →
  (i ∉ en_call <$> log) ∧ (i ∉ (pending a).*1) ∧ ∀ r, ac_worker a ≠ Replying i r.
Proof.
  intros Hok Hc Hs. split_and!.
  - intros (k & e & Hk & <-)%(log_entry _ _ _ _ Hok). destruct (ao_log _ _ _ Hok _ _ Hk) as (c' & Hc' & _ & Ha).
    unfold answered in Ha. simplify_eq. by destruct Hs as [Hs|Hs]; rewrite Hs in Ha.
  - intros ([i' cmd] & -> & Hin)%list_elem_of_fmap. apply (ao_pending _ _ _ Hok) in Hin as [op Hop].
    cbn in Hc. simplify_eq. by destruct Hs.
  - intros r (_ & c' & Hc' & Hs')%(ao_replying _ _ _ Hok). simplify_eq. rewrite Hs' in Hs. by destruct Hs.
Qed.

(** While a call is in progress the engine is not being dropped. *)
Lemma in_progress_owned w a log i c :
  actor_ok w a log → ac_calls a !! i = Some c → has_returned c = false →
  ac_drop a = Owned ∧ ac_shutdown a = false ∧ ac_worker a ≠ Stopped ∧ Shutdown ∉ ac_queue a.
Proof.
  intros Hok Hc Hr. pose proof (ao_drop _ _ _ Hok) as Hd. unfold drop_ok, all_returned in Hd.
  destruct (ac_drop a); [done|..]; destruct Hd as [Hall _];
    apply list_elem_of_lookup_2 in Hc; rewrite Forall_forall in Hall; by rewrite (Hall _ Hc) in Hr.
Qed.

Lemma actor_start_ok capacity w : actor_ok w (actor_start capacity w) [].
Proof.
  split; cbn; try done; [constructor|by intros ? ? ?%not_elem_of_nil|].
  by split_and!; [..|apply not_elem_of_nil].
Qed.

Lemma begin_ok w a log op command :
  ac_drop a = Owned → actor_ok w a log →
  actor_ok w (with_calls (ac_calls a ++ [mkSubmit op command Checking]) a) log.
Proof.
  intros Hd [Hw Hn Hp Hl Hc Hr Hdrop].
  assert (∀ i c, ac_calls a !! i = Some c → (ac_calls a ++ [mkSubmit op command Checking]) !! i = Some c)
    as Hold by (intros; by apply lookup_app_l_Some).
  split; cbn; try done.
  - intros i cmd Hin. destruct (Hp _ _ Hin) as [op' Ho]. eauto.
  - intros k e Hk. destruct (Hl _ _ Hk) as (c & ? & ? & ?). eauto.
  - intros i c [Hi|[_ Hi]]%lookup_app_Some; [by apply Hc|].
    by apply list_lookup_singleton_Some in Hi as [_ <-].
  - intros i r Hr'. destruct (Hr _ _ Hr') as (? & c & ? & ?). eauto.
  - unfold drop_ok in *. cbn. by rewrite Hd in *.
Qed.

(** Changing the stage of call [i] does not touch what is known of the others. *)
Lemma set_stage_other i s calls j c :
  j ≠ i → calls !! j = Some c → set_stage i s calls !! j = Some c.
Proof. intros Hj Hc. by rewrite set_stage_lookup, decide_False. Qed.

Lemma set_stage_this i s calls c :
  calls !! i = Some c → set_stage i s calls !! i = Some (mkSubmit (sc_operation c) (sc_command c) s).
Proof. intros Hc. by rewrite set_stage_lookup, decide_True, Hc. Qed.

(** A call that was not sent gets on, to sending or into the queue. *)
Lemma unsent_ok w a log i c queue s :
  actor_ok w a log → ac_calls a !! i = Some c → sc_stage c = Checking ∨ sc_stage c = Sending →
  (queue = ac_queue a ∧ s = Sending ∨
   queue = ac_queue a ++ [Command i (sc_command c)] ∧ s = Waiting None) →
  actor_ok w (with_queue queue (with_calls (set_stage i s (ac_calls a)) a)) log.
Proof.
  intros Hok Hi Hs Hq. destruct (fresh_call _ _ _ _ _ Hok Hi Hs) as (Hnl & Hnp & Hnr).
  destruct (in_progress_owned _ _ _ _ _ Hok Hi) as (Hd & Hf & Hst & Hsd).
  { unfold has_returned. by destruct Hs as [->| ->]. }
  destruct Hok as [Hw Hn Hp Hl Hc Hr _].
  assert (∀ p, p ∈ pending (with_queue queue (with_calls (set_stage i s (ac_calls a)) a)) ↔
               p ∈ pending a ∨ (p = (i, sc_command c) ∧ s = Waiting None)) as Hpend.
  { intros p. unfold pending. cbn. destruct Hq as [[-> ->]|[-> ->]]; [naive_solver|].
    rewrite omap_app. cbn. rewrite !elem_of_app, list_elem_of_singleton. naive_solver. }
  split; cbn; try done.
  - destruct Hq as [[-> _]|[-> ->]]; [done|].
    assert ((pending (with_queue (ac_queue a ++ [Command i (sc_command c)])
      (with_calls (set_stage i (Waiting None) (ac_calls a)) a))).*1 = (pending a).*1 ++ [i]) as ->.
    { unfold pending. cbn. rewrite omap_app. cbn. by rewrite !fmap_app, <- app_assoc. }
    rewrite app_assoc. apply NoDup_app. split; [done|]. split; [|apply NoDup_singleton].
    intros j [Hj|Hj]%elem_of_app ->%list_elem_of_singleton; done.
  - intros j cmd [Hin|[[= -> ->] ->]]%Hpend.
    + destruct (Hp _ _ Hin) as [op Ho]. exists op. apply set_stage_other; [|done].
      intros ->. apply Hnp. by apply (list_elem_of_fmap_2 fst) in Hin.
    + exists (sc_operation c). by apply set_stage_this.
  - intros k e Hk. destruct (Hl _ _ Hk) as (c' & Hc' & Hcmd & Ha). exists c'. split; [|done].
    apply set_stage_other; [|done]. intros <-. apply Hnl. by apply list_elem_of_lookup_2, (list_elem_of_fmap_2 en_call) in Hk.
  - intros j c' Hj. destruct (decide (j = i)) as [->|Hne].
    + rewrite (set_stage_this _ _ _ _ Hi) in Hj. injection Hj as <-. cbn.
      destruct Hq as [[_ ->]|[_ ->]]; [done|]. left.
      apply list_elem_of_fmap. exists (i, sc_command c). split; [done|]. apply Hpend. by right.
    + rewrite set_stage_lookup, decide_False in Hj by done. apply Hc in Hj.
      destruct (sc_stage c') as [| |[?|]|]; try done. destruct Hj as [Hj|Hj]; [left|by right].
      apply list_elem_of_fmap in Hj as (p & -> & Hj). apply list_elem_of_fmap. exists p.
      split; [done|]. apply Hpend. by left.
  - intros j r Hj. destruct (Hr _ _ Hj) as (Hin & c' & Hc' & Hs'). split; [done|]. exists c'.
    split; [|done]. apply set_stage_other; [|done]. intros ->. by apply (Hnr r).
  - unfold drop_ok. cbn. rewrite Hd. split_and!; [done..|].
    destruct Hq as [[-> _]|[-> _]]; [done|]. intros [?|?%list_elem_of_singleton]%elem_of_app; done.
Qed.

(** A response goes into the channel of its call, or from it to the caller. *)
Lemma respond_ok w a log i c s worker :
  actor_ok w a log → ac_calls a !! i = Some c → i ∈ en_call <$> log → i ∉ (pending a).*1 →
  (∃ r, sc_stage c = Waiting None ∧ ac_worker a = Replying i r ∧ s = Waiting (Some r) ∧ worker = Receiving) ∨
  (∃ r, sc_stage c = Waiting (Some r) ∧ s = Returned (map_err engine_error r) ∧ worker = ac_worker a) →
  actor_ok w (with_worker (ac_queue a) worker (ac_world a) (set_stage i s (ac_calls a)) a) log.
Proof.
  intros Hok Hi Hlog Hnp Hcase.
  destruct (in_progress_owned _ _ _ _ _ Hok Hi) as (Hd & Hf & Hst & Hsd).
  { unfold has_returned. by destruct Hcase as [(? & -> & _)|(? & -> & _)]. }
  destruct Hok as [Hw Hn Hp Hl Hc Hr _].
  assert (pending (with_worker (ac_queue a) worker (ac_world a) (set_stage i s (ac_calls a)) a) = pending a)
    as Hpend.
  { unfold pending. cbn. by destruct Hcase as [(r & _ & -> & _ & ->)|(r & _ & _ & ->)]. }
  split; cbn; try done.
  - by rewrite Hpend.
  - rewrite Hpend. intros j cmd Hin. destruct (Hp _ _ Hin) as [op Ho]. exists op.
    apply set_stage_other; [|done]. intros ->. apply Hnp. by apply (list_elem_of_fmap_2 fst) in Hin.
  - intros k e Hk. destruct (Hl _ _ Hk) as (c' & Hc' & Hcmd & Ha).
    destruct (decide (en_call e = i)) as [<-|Hne].
    + rewrite Hi in Hc'. injection Hc' as <-. eexists. split; [by apply set_stage_this|].
      split; [done|]. unfold answered in *. cbn.
      destruct Hcase as [(r & Es & Hwk & -> & _)|(r & Es & -> & _)]; rewrite Es in Ha; [|by subst].
      rewrite Hwk in Ha. by injection Ha as <-.
    + exists c'. split; [by apply set_stage_other|]. split; [done|]. unfold answered in *. cbn.
      destruct (sc_stage c') as [| |[?|]|]; try done.
      destruct Hcase as [(r & _ & Hwk & _)|(r & _ & _ & ->)]; [|done].
      rewrite Hwk in Ha. congruence.
  - intros j c' Hj. rewrite Hpend. destruct (decide (j = i)) as [->|Hne].
    + rewrite (set_stage_this _ _ _ _ Hi) in Hj. injection Hj as <-. cbn.
      by destruct Hcase as [(r & _ & _ & -> & _)|(r & _ & -> & _)].
    + rewrite set_stage_lookup, decide_False in Hj by done. apply Hc in Hj.
      destruct (sc_stage c') as [| |[?|]|]; try done. destruct Hj as [Hj|[r' Hj]]; [by left|].
      destruct Hcase as [(r & _ & Hwk & _)|(r & _ & _ & ->)]; [|by right; exists r'].
      rewrite Hwk in Hj. congruence.
  - intros j r' Hj. destruct Hcase as [(r & _ & _ & _ & ->)|(r & Es & _ & ->)]; [done|].
    destruct (Hr _ _ Hj) as (Hin & c' & Hc' & Hs'). split; [done|]. exists c'.
    split; [|done]. apply set_stage_other; [|done]. intros ->. simplify_eq. by rewrite Es in Hs'.
  - unfold drop_ok. cbn. rewrite Hd. split_and!; [done| |done].
    by destruct Hcase as [(r & _ & _ & _ & ->)|(r & _ & _ & ->)].
Qed.

Lemma receive_ok w a log i command queue :
  actor_ok w a log → ac_worker a = Receiving → ac_queue a = Command i command :: queue →
  actor_ok w (with_worker queue (Running i command) (ac_world a) (ac_calls a) a) log.
Proof.
  intros Hok Hwk Hq.
  assert (pending (with_worker queue (Running i command) (ac_world a) (ac_calls a) a) = pending a) as Hpend
    by (unfold pending; cbn; by rewrite Hwk, Hq).
  destruct (ao_pending _ _ _ Hok i command) as [op Hop].
  { unfold pending. rewrite Hwk, Hq. by left. }
  destruct (in_progress_owned _ _ _ _ _ Hok Hop eq_refl) as (Hd & Hf & _ & Hsd).
  destruct Hok as [Hw Hn Hp Hl Hc Hr _]. split; cbn; rewrite ?Hpend; try done.
  - intros k e Hk. destruct (Hl _ _ Hk) as (c & Hc' & Hcmd & Ha). exists c. split_and!; [done..|].
    unfold answered in *. cbn. destruct (sc_stage c) as [| |[?|]|]; try done. by rewrite Hwk in Ha.
  - intros j c Hj. apply Hc in Hj. destruct (sc_stage c) as [| |[?|]|]; try done.
    destruct Hj as [Hj|[r Hj]]; [by left|]. by rewrite Hwk in Hj.
  - unfold drop_ok. cbn. rewrite Hd. split_and!; [done..|]. intros Hin. apply Hsd. rewrite Hq. by right.
Qed.

Lemma run_ok w a log fresh i command r w' :
  actor_ok w a log → ac_worker a = Running i command → run_command fresh command (ac_world a) = (r, w') →
  actor_ok w (with_worker (ac_queue a) (Replying i r) w' (ac_calls a) a)
    (log ++ [mkEntryOf i fresh command]).
Proof.
  intros Hok Hwk Hrun. set (a' := with_worker _ _ _ _ _).
  assert (pending a = (i, command) :: pending a') as Hpend by (unfold pending; cbn; by rewrite Hwk).
  destruct (ao_pending _ _ _ Hok i command) as [op Hop]; [rewrite Hpend; by left|].
  destruct (in_progress_owned _ _ _ _ _ Hok Hop eq_refl) as (Hd & Hf & _ & Hsd).
  destruct Hok as [Hw Hn Hp Hl Hc Hr _]. rewrite Hw in Hrun.
  split; cbn [ac_world ac_calls ac_worker a' with_worker]; try done.
  - rewrite world_after_snoc. cbn. by rewrite Hrun.
  - rewrite Hpend in Hn. rewrite fmap_app, <- app_assoc. done.
  - intros j cmd Hin. apply Hp. rewrite Hpend. by right.
  - intros k e [Hk|[Hlen Hk]]%lookup_app_Some.
    + destruct (Hl _ _ Hk) as (c & Hc' & Hcmd & Ha). exists c. split_and!; [done..|].
      unfold answered, response_of in *. cbn.
      rewrite take_app_le by (apply lookup_lt_Some in Hk; lia).
      destruct (sc_stage c) as [| |[?|]|]; try done. by rewrite Hwk in Ha.
    + apply list_lookup_singleton_Some in Hk as [Hk <-]. cbn [en_call en_command].
      exists (mkSubmit op command (Waiting None)). split_and!; [done..|]. unfold answered, response_of. cbn.
      replace k with (length log) by lia. by rewrite take_app_length, Hrun.
  - intros j c Hj. apply Hc in Hj. rewrite fmap_app.
    destruct (sc_stage c) as [| |[?|]|]; try done; [by apply elem_of_app; left| |by apply elem_of_app; left].
    destruct Hj as [Hj|[r' Hj]]; [|by rewrite Hwk in Hj]. rewrite Hpend in Hj.
    apply elem_of_cons in Hj as [->|Hj]; [right; eauto|by left].
  - intros j r' [= <- <-]. split; [rewrite fmap_app; apply elem_of_app; right; by left|]. eauto.
  - unfold drop_ok. cbn. by rewrite Hd.
Qed.

Lemma worker_ok w a log fresh a' :
  actor_ok w a log → worker_acts fresh a = Some a' → actor_ok w a' (log ++ executed fresh a).
Proof.
  unfold worker_acts, executed. intros Hok Hstep. destruct (ac_worker a) as [|i command|i r|] eqn:Hwk; [| | |done].
  - rewrite app_nil_r. destruct (ac_queue a) as [|[i command|] queue] eqn:Hq; [done| |].
    { injection Hstep as <-. by apply receive_ok. }
    injection Hstep as <-. destruct Hok as [Hw Hn Hp Hl Hc Hr Hdrop]. unfold drop_ok, all_returned in Hdrop.
    assert (all_returned a ∧ ac_drop a = Joining ∧ queue = []) as (Hall & Hd & ->).
    { rewrite Hwk, Hq in Hdrop. unfold all_returned. destruct (ac_drop a).
      - destruct Hdrop as (_ & _ & []). by left.
      - by destruct Hdrop as (_ & _ & ?).
      - destruct Hdrop as (Hall & [[_ [= ->]]|[? _]]); done.
      - by destruct Hdrop as (_ & ? & _). }
    assert (∀ x c, ac_calls a !! x = Some c → ∃ r, sc_stage c = Returned r) as Hret.
    { intros x c Hx%list_elem_of_lookup_2. unfold all_returned in Hall. rewrite Forall_forall in Hall. specialize (Hall _ Hx).
      unfold has_returned in Hall. destruct (sc_stage c); try done. eauto. }
    assert (pending a = []) as Hpend by (unfold pending; by rewrite Hwk, Hq). rewrite Hpend in *.
    split; cbn; try done.
    + intros k e Hk. destruct (Hl _ _ Hk) as (c & Hc' & Hcmd & Ha). exists c. split_and!; [done..|].
      destruct (Hret _ _ Hc') as [r Hs]. unfold answered in *. by rewrite Hs in *.
    + intros j c Hj. destruct (Hret _ _ Hj) as [r Hs]. apply Hc in Hj. by rewrite Hs in *.
    + unfold drop_ok, all_returned. cbn. rewrite Hd. auto.
  - destruct (run_command fresh command (ac_world a)) as [r w'] eqn:Hrun. injection Hstep as <-.
    by apply run_ok.
  - injection Hstep as <-. rewrite app_nil_r. destruct (ao_replying _ _ _ Hok i r Hwk) as (Hin & c & Hc & Hs).
    apply (respond_ok w a log i c); [done..| |].
    + intros Hp. pose proof (ao_nodup _ _ _ Hok) as (_ & Hd & _)%NoDup_app. by apply (Hd i).
    + left. by exists r.
Qed.

Lemma call_ok w a log i a' : actor_ok w a log → call_acts i a = Some a' → actor_ok w a' log.
Proof.
  unfold call_acts. intros Hok Hstep. destruct (ac_calls a !! i) as [c|] eqn:Hi; [cbn in Hstep|done].
  assert (∀ s, sc_stage c = s → (∀ r, s ≠ Returned r) → ac_shutdown a = false ∧ is_stopped (ac_worker a) = false)
    as Hown.
  { intros s Hs Hr. destruct (in_progress_owned _ _ _ _ _ Hok Hi) as (_ & Hf & Hst & _).
    - unfold has_returned. rewrite Hs. destruct s; [done..|]. by destruct (Hr r).
    - split; [done|]. by destruct (ac_worker a). }
  destruct (sc_stage c) as [| |[r|]|r] eqn:Hs; [..|done].
  - destruct (Hown _ eq_refl) as [Hf _]; [done|]. rewrite Hf in Hstep. injection Hstep as <-.
    apply (unsent_ok w a log i c (ac_queue a) Sending); auto.
  - destruct (Hown _ eq_refl) as [_ Hst]; [done|]. rewrite Hst in Hstep.
    destruct (has_room a); [|done]. injection Hstep as <-. apply (unsent_ok w a log i c); auto.
  - injection Hstep as <-.
    assert (i ∈ en_call <$> log) as Hin by (pose proof (ao_calls _ _ _ Hok _ _ Hi) as Hc; by rewrite Hs in Hc).
    apply (respond_ok w a log i c _ (ac_worker a)); [done..| |].
    + intros Hp. pose proof (ao_nodup _ _ _ Hok) as (_ & Hd & _)%NoDup_app. by apply (Hd i).
    + right. eauto.
  - destruct (Hown _ eq_refl) as [_ Hst]; [done|]. by rewrite Hst in Hstep.
Qed.

(** Dropping changes the flag and the queue, which no call looks at any more. *)
Lemma dropping_ok w a log queue shutdown d :
  actor_ok w a log → omap (M:=list) queued queue = omap (M:=list) queued (ac_queue a) →
  drop_ok (with_drop shutdown d (with_queue queue a)) →
  actor_ok w (with_drop shutdown d (with_queue queue a)) log.
Proof.
  intros [Hw Hn Hp Hl Hc Hr _] Hq Hd.
  assert (pending (with_drop shutdown d (with_queue queue a)) = pending a) as Hpend
    by (unfold pending; cbn; by rewrite Hq).
  split; rewrite ?Hpend; done.
Qed.

(** When no call is in progress the thread is idle and the queue is empty. *)
Lemma idle w a log :
  actor_ok w a log → all_returned a → ac_drop a = Owned → ac_worker a = Receiving ∧ ac_queue a = [].
Proof.
  intros Hok Hall Hd.
  assert (∀ i c, ac_calls a !! i = Some c → has_returned c = true) as Hret.
  { intros i c Hi%list_elem_of_lookup_2. unfold all_returned in Hall. rewrite Forall_forall in Hall. auto. }
  assert (∀ i cmd, (i, cmd) ∉ pending a) as Hnone.
  { intros i cmd [op Hop]%(ao_pending _ _ _ Hok). by apply Hret in Hop. }
  pose proof (ao_drop _ _ _ Hok) as Hdrop. unfold drop_ok in Hdrop. rewrite Hd in Hdrop.
  destruct Hdrop as (_ & Hst & Hsd).
  assert (ac_worker a = Receiving) as Hwk.
  { destruct (ac_worker a) as [|i cmd|i r|] eqn:Hwk; [done| | |done].
    - destruct (Hnone i cmd). unfold pending. rewrite Hwk. by left.
    - destruct (ao_replying _ _ _ Hok i r Hwk) as (_ & c & Hc & Hs). apply Hret in Hc.
      unfold has_returned in Hc. by rewrite Hs in Hc. }
  split; [done|]. destruct (ac_queue a) as [|[i cmd|] q] eqn:Hq; [done| |].
  - destruct (Hnone i cmd). unfold pending. rewrite Hwk, Hq. by left.
  - destruct Hsd. by left.
Qed.

Lemma room_when_empty a : ac_queue a = [] → has_room a = true.
Proof.
  intros Hq. unfold has_room. rewrite Hq. destruct (ac_capacity a) as [[|n] Hn]; done.
Qed.

Lemma drop_step_ok w a log a' : actor_ok w a log → drop_acts a = Some a' → actor_ok w a' log.
Proof.
  unfold drop_acts. intros Hok Hstep. pose proof (ao_drop _ _ _ Hok) as Hd. unfold drop_ok in Hd.
  destruct (ac_drop a) eqn:Ed; [done| | |done].
  - destruct Hd as (Hall & Hwk & Hq). rewrite (room_when_empty _ Hq), Hwk in Hstep. injection Hstep as <-.
    apply (dropping_ok w a log (ac_queue a ++ [Shutdown]) (ac_shutdown a)); [done| |].
    + rewrite omap_app. cbn. by rewrite app_nil_r.
    + unfold drop_ok. cbn. rewrite Hq. auto.
  - destruct Hd as (Hall & Hcase). destruct (ac_worker a) eqn:Hwk; try done. injection Hstep as <-.
    apply (dropping_ok w a log (ac_queue a) (ac_shutdown a)); [done|done|].
    unfold drop_ok. cbn. destruct Hcase as [[? _]|[_ ?]]; done.
Qed.

Lemma acts_ok w x y : acts x y → actor_ok w x.1 x.2 → actor_ok w y.1 y.2.
Proof.
  intros [a log i a' Hs|a log fresh a' Hs|a log a' Hs] Hok; cbn in *;
    [by eapply call_ok|by apply worker_ok|by eapply drop_step_ok].
Qed.

Lemma actor_step_ok w x y : actor_step x y → actor_ok w x.1 x.2 → actor_ok w y.1 y.2.
Proof.
  intros [x' y' Hs|a log op command Hd|a log Hd Hall] Hok; cbn in *.
  - by eapply acts_ok.
  - by apply begin_ok.
  - destruct (idle _ _ _ Hok Hall Hd) as [Hwk Hq].
    apply (dropping_ok w a log (ac_queue a) true FlagSet); [done|done|]. by unfold drop_ok.
Qed.

Lemma actor_steps_ok w x y : rtc actor_step x y → actor_ok w x.1 x.2 → actor_ok w y.1 y.2.
Proof. induction 1 as [|x y z Hs _ IH]; [done|]. intros Hok. apply IH. by eapply actor_step_ok. Qed.

Lemma actor_run_ok capacity w x : actor_run capacity w x → actor_ok w x.1 x.2.
Proof. intros Hrun. eapply actor_steps_ok; [exact Hrun|apply actor_start_ok]. Qed.

(** ** The order of commands *)

Lemma steps_log x y : rtc actor_step x y → x.2 `prefix_of` y.2.
Proof.
  induction 1 as [|x y z Hs _ IH]; [done|]. etransitivity; [|exact IH].
  destruct Hs as [? ? [| |]| |]; cbn; try done. by apply prefix_app_r.
Qed.

Lemma tokens_prefix w tokens cmds : tokens `prefix_of` (execute w tokens cmds).2.
Proof.
  revert w tokens. induction cmds as [|[fresh cmd] cmds IH]; intros w tokens; [done|]. cbn [execute].
  destruct (run_command fresh cmd w) as [[t|e] w']; [|apply IH].
  destruct (current_snapshot _); [|apply IH]. etransitivity; [|apply IH]. by apply prefix_app_r.
Qed.

(** A command that succeeded left its token. *)
Lemma token_logged w log k e t :
  engine_run w [] → log !! k = Some e → response_of w log k e = Ok t →
  ∃ s, (t, s) ∈ (execute w [] (log_commands log)).2.
Proof.
  intros Hrun Hk Hr. unfold response_of, world_after in Hr.
  assert (log_commands log = log_commands (take k log) ++
          (en_fresh e, en_command e) :: log_commands (drop (S k) log)) as ->.
  { unfold log_commands. rewrite <- (take_drop_middle _ _ _ Hk) at 1. by rewrite fmap_app. }
  rewrite execute_app. cbn [execute].
  pose proof (execute_run _ _ (log_commands (take k log)) Hrun) as Hbefore.
  set (x := (execute w [] (log_commands (take k log))).1) in *.
  pose proof (command_ok (en_fresh e) (en_command e) x (proj1 (engine_run_ok _ _ Hbefore))) as Hc.
  destruct (run_command (en_fresh e) (en_command e) x) as [[t'|] w']; [|done]. injection Hr as ->.
  destruct Hc as (s & Hs). rewrite (rn_current _ _ _ _ Hs). exists s.
  eapply elem_of_prefix; [|apply tokens_prefix]. apply elem_of_app. right. by left.
Qed.

(** ** Progress *)

(** Actions a call has left at most, those its command takes of the thread not
    counted once it is sent. *)
Definition call_work (c : SubmitCall) : nat :=
  match sc_stage c with Checking => 6 | Sending => 5 | Waiting _ => 1 | Returned _ => 0 end.
Definition message_work (m : Message) : nat := match m with Command _ _ => 3 | Shutdown => 1 end.
Definition worker_work (w : Worker) : nat :=
  match w with Running _ _ => 2 | Replying _ _ => 1 | _ => 0 end.
Definition drop_work (d : DropStage) : nat := match d with FlagSet => 3 | Joining => 1 | _ => 0 end.

Definition actor_work (a : WriterActor) : nat :=
  sum_list_with call_work (ac_calls a) + sum_list_with message_work (ac_queue a) +
  worker_work (ac_worker a) + drop_work (ac_drop a).

Lemma sum_set_stage (f : SubmitCall → nat) i s calls c :
  calls !! i = Some c →
  sum_list_with f (set_stage i s calls) + f c =
  sum_list_with f calls + f (mkSubmit (sc_operation c) (sc_command c) s).
Proof.
  intros (l1 & l2 & -> & ->)%list_elem_of_split_length. unfold set_stage.
  rewrite alter_app_r_alt, Nat.sub_diag by lia. cbn. rewrite !sum_list_with_app. cbn. lia.
Qed.

Lemma acts_work w x y : acts x y → actor_ok w x.1 x.2 → actor_work y.1 < actor_work x.1.
Proof.
  unfold actor_work. intros [a log i a' Hs|a log fresh a' Hs|a log a' Hs] Hok; cbn in *.
  - unfold call_acts in Hs. destruct (ac_calls a !! i) as [c|] eqn:Hi; [cbn in Hs|done].
    assert (∀ s, call_work (mkSubmit (sc_operation c) (sc_command c) s) < call_work c →
      sum_list_with call_work (set_stage i s (ac_calls a)) < sum_list_with call_work (ac_calls a)) as Hlt.
    { intros s Hl. pose proof (sum_set_stage call_work i s _ _ Hi). lia. }
    pose proof (sum_set_stage call_work i (Waiting None) _ _ Hi) as Hsent.
    unfold call_work in Hlt at 1 2, Hsent at 2 4. cbn in Hlt, Hsent.
    destruct (sc_stage c) as [| |[r|]|]; [| | | |done].
    + injection Hs as <-. cbn. destruct (ac_shutdown a);
        [specialize (Hlt (Returned (Err (EWriterUnavailable (sc_operation c)))))|specialize (Hlt Sending)];
        cbn in Hlt; lia.
    + destruct (is_stopped (ac_worker a)); [|destruct (has_room a); [|done]]; injection Hs as <-; cbn.
      * specialize (Hlt (Returned (Err (EWriterUnavailable (sc_operation c))))). cbn in Hlt. lia.
      * rewrite sum_list_with_app. cbn. lia.
    + injection Hs as <-. cbn. specialize (Hlt (Returned (map_err engine_error r))). cbn in Hlt. lia.
    + destruct (is_stopped (ac_worker a)); [|done]. injection Hs as <-. cbn.
      specialize (Hlt (Returned (Err (EWriterUnavailable (sc_operation c))))). cbn in Hlt. lia.
  - unfold worker_acts in Hs. destruct (ac_worker a) as [|i command|i r|] eqn:Hwk; [| | |done].
    + destruct (ac_queue a) as [|[i command|] q]; [done| |]; injection Hs as <-; cbn; lia.
    + destruct (run_command _ _ _). injection Hs as <-. cbn. lia.
    + injection Hs as <-. cbn. destruct (ao_replying _ _ _ Hok i r Hwk) as (_ & c & Hc & Hst).
      pose proof (sum_set_stage call_work i (Waiting (Some r)) _ _ Hc) as Hsum.
      unfold call_work in Hsum at 2 4. rewrite Hst in Hsum. cbn in Hsum. lia.
  - unfold drop_acts in Hs. destruct (ac_drop a); [done| | |done].
    + injection Hs as <-. destruct (negb _ && _); cbn; rewrite ?sum_list_with_app; cbn; lia.
    + destruct (is_stopped _); [|done]. injection Hs as <-. cbn. lia.
Qed.

(** The calls that wait for a response, against those the thread owes one. *)
Definition waits (c : SubmitCall) : nat := match sc_stage c with Waiting None => 1 | _ => 0 end.

Lemma waiting_count ks calls :
  NoDup ks → (∀ k, k ∈ ks → ∃ c, calls !! k = Some c ∧ sc_stage c = Waiting None) →
  length ks ≤ sum_list_with waits calls.
Proof.
  intros Hnd. revert calls. induction Hnd as [|k ks Hk _ IH]; intros calls Hw; [cbn; lia|].
  destruct (Hw k) as (c & Hc & Hs); [by left|].
  pose proof (sum_set_stage waits k Checking _ _ Hc) as Hsum. unfold waits in Hsum at 2 4.
  rewrite Hs in Hsum. cbn in Hsum |- *.
  enough (length ks ≤ sum_list_with waits (set_stage k Checking calls)) by lia. apply IH.
  intros k' Hk'. destruct (Hw k') as (c' & Hc' & Hs'); [by right|]. exists c'. split; [|done].
  apply set_stage_other; [|done]. by intros ->.
Qed.

Lemma pending_waits w a log :
  actor_ok w a log → length (pending a) ≤ sum_list_with waits (ac_calls a).
Proof.
  intros Hok. rewrite <- (length_fmap fst). apply waiting_count.
  - by apply (ao_nodup _ _ _), NoDup_app in Hok as (_ & _ & ?).
  - intros k ([k' cmd] & -> & Hin)%list_elem_of_fmap. apply (ao_pending _ _ _ Hok) in Hin as [op Hop].
    eauto.
Qed.

Lemma work_waits calls :
  sum_list_with call_work calls + 5 * sum_list_with waits calls ≤ 6 * length calls.
Proof.
  induction calls as [|c calls IH]; [done|].
  assert (call_work c + 5 * waits c ≤ 6) by
    (unfold call_work, waits; destruct (sc_stage c) as [| |[|]|]; lia).
  change (call_work c + sum_list_with call_work calls + 5 * (waits c + sum_list_with waits calls) ≤
    6 * S (length calls)). lia.
Qed.

Lemma queue_work q : Shutdown ∉ q → sum_list_with message_work q = 3 * length (omap (M:=list) queued q).
Proof.
  induction q as [|[i cmd|] q IH]; intros Hq; [done| |destruct Hq; by left]. cbn in *.
  rewrite IH; [lia|]. intros ?. apply Hq. by right.
Qed.

Lemma actor_work_bound w a log : actor_ok w a log → actor_work a ≤ 6 * length (ac_calls a) + 3.
Proof.
  intros Hok. pose proof (pending_waits _ _ _ Hok) as Hp. pose proof (work_waits (ac_calls a)) as Hw.
  pose proof (ao_drop _ _ _ Hok) as Hd. unfold drop_ok in Hd. unfold actor_work.
  destruct (ac_drop a) eqn:Ed; [|destruct Hd as (_ & -> & ->); cbn; lia
    |destruct Hd as (_ & [[-> ->]|[-> ->]]); cbn; lia|destruct Hd as (_ & -> & ->); cbn; lia].
  destruct Hd as (_ & _ & Hsd). rewrite (queue_work _ Hsd). unfold pending in Hp. rewrite length_app in Hp.
  assert (worker_work (ac_worker a) ≤
    2 * length match ac_worker a with Running i command => [(i, command)] | _ => [] end + 1) by
    (destruct (ac_worker a); cbn; lia).
  cbn. lia.
Qed.

(** What cannot act. *)
Lemma worker_idle fresh a :
  worker_acts fresh a = None → (ac_worker a = Receiving ∧ ac_queue a = []) ∨ ac_worker a = Stopped.
Proof.
  unfold worker_acts. destruct (ac_worker a); [|by destruct (run_command _ _ _)|done|by right].
  destruct (ac_queue a) as [|[|] q]; [by left|done|done].
Qed.

Lemma stuck w a log :
  actor_ok w a log → (∀ y, ¬ acts (a, log) y) →
  all_returned a ∧ (ac_drop a = Owned ∨ ac_drop a = Joined).
Proof.
  intros Hok Hstuck. set (fresh := @mkByteArray 16 (replicate 16 0%Z) I : DatastoreId).
  assert (worker_acts fresh a = None) as Hidle%worker_idle.
  { destruct (worker_acts fresh a) as [a'|] eqn:E; [|done]. destruct (Hstuck (a', log ++ executed fresh a)).
    by apply acts_worker. }
  assert (drop_acts a = None) as Hdrop.
  { destruct (drop_acts a) as [a'|] eqn:E; [|done]. destruct (Hstuck (a', log)). by apply acts_drop. }
  split.
  - apply Forall_forall. intros c [i Hi]%list_elem_of_lookup. destruct (has_returned c) eqn:Hr; [done|exfalso].
    destruct (in_progress_owned _ _ _ _ _ Hok Hi Hr) as (_ & _ & Hst & _).
    destruct Hidle as [[Hwk Hq]|]; [|done].
    assert (call_acts i a = None) as Hcall.
    { destruct (call_acts i a) as [a'|] eqn:E; [|done]. destruct (Hstuck (a', log)). by eapply acts_call. }
    unfold call_acts in Hcall. rewrite Hi in Hcall. cbn in Hcall. rewrite (room_when_empty _ Hq), Hwk in Hcall.
    pose proof (ao_calls _ _ _ Hok _ _ Hi) as Hc. unfold has_returned in Hr.
    destruct (sc_stage c) as [| |[?|]|]; try done.
    destruct Hc as [Hc|[r Hc]]; [|by rewrite Hwk in Hc]. unfold pending in Hc. rewrite Hwk, Hq in Hc.
    by apply not_elem_of_nil in Hc.
  - pose proof (ao_drop _ _ _ Hok) as Hd. unfold drop_ok in Hd. unfold drop_acts in Hdrop.
    destruct (ac_drop a); [by left|done| |by right]. destruct Hd as [_ [[Hwk Hq]|[Hwk _]]].
    + destruct Hidle as [[_ Hq']|Hwk']; congruence.
    + by rewrite Hwk in Hdrop.
Qed.
End actor.

(** ** Properties *)

Section properties.
Context `{Hasher, HashOrder, Blake3, PestParser}.

(** C5: commands submitted by any number of concurrent callers take effect one
    at a time in one order, each once: the writer is always where running the
    logged commands in that order leads, every call that returned returns what
    its command did at its place in the order, so no call is refused while the
    engine lives and every token returned is one of that sequential run; and a
    call that has returned comes before every call that is still in progress or
    begins later. *)
Theorem submits_linearize b fresh cells capacity a log
    (Hrun : actor_run capacity (build b fresh cells) (a, log)) :
  let w := build b fresh cells in
  let tokens := (execute w [] (log_commands log)).2 in
  ac_world a = world_after w log ∧ NoDup (en_call <$> log) ∧ engine_run (ac_world a) tokens ∧
  (∀ i c r, ac_calls a !! i = Some c → sc_stage c = Returned r →
     ∃ k e, log !! k = Some e ∧ en_call e = i ∧ en_command e = sc_command c ∧
       r = (submit (en_fresh e) (en_command e) (world_after w (take k log))).1 ∧
       ∀ t, r = Ok t → ∃ s, (t, s) ∈ tokens) ∧
  (∀ a' log', rtc actor_step (a, log) (a', log') → ∃ more, log' = log ++ more ∧
     ∀ e c, e ∈ more → ac_calls a !! en_call e = Some c → has_returned c = false).
Proof.
  pose proof (actor_run_ok _ _ _ Hrun) as Hok. cbn [fst snd] in Hok. intros w tokens. split_and!.
  - apply Hok.
  - by apply (ao_nodup _ _ _), NoDup_app in Hok as [? _].
  - rewrite (ao_world _ _ _ Hok). apply execute_run, run_build.
  - intros i c r Hi Hs. pose proof (ao_calls _ _ _ Hok i c Hi) as Hin. rewrite Hs in Hin.
    destruct (log_entry _ _ _ _ Hok Hin) as (k & e & Hk & <-). exists k, e.
    destruct (ao_log _ _ _ Hok k e Hk) as (c' & Hc' & Hcmd & Ha). simplify_eq.
    unfold answered in Ha. rewrite Hs in Ha. subst r.
    assert (map_err engine_error (response_of w log k e) =
            (submit (en_fresh e) (en_command e) (world_after w (take k log))).1) as E.
    { unfold submit, response_of. by destruct (run_command _ _ _). }
    split_and!; [done..|]. intros t Ht. apply map_err_Ok in Ht.
    by eapply token_logged; [apply run_build|done|].
  - intros a' log' Hlater. pose proof (steps_log _ _ Hlater) as [more Hmore]. cbn in Hmore.
    exists more. split; [done|]. intros e c He Hc.
    destruct (has_returned c) eqn:Hr; [|done]. exfalso.
    pose proof (ao_calls _ _ _ Hok _ _ Hc) as Hin. unfold has_returned in Hr.
    destruct (sc_stage c); try done.
    pose proof (actor_steps_ok _ _ _ Hlater Hok) as Hok'. cbn in Hok'. rewrite Hmore in Hok'.
    pose proof (ao_nodup _ _ _ Hok') as [Hnd _]%NoDup_app. rewrite fmap_app in Hnd.
    apply NoDup_app in Hnd as (_ & Hd & _). apply (Hd (en_call e)); [done|]. by apply list_elem_of_fmap_2.
Qed.

(** C34: submitting never deadlocks, whatever the queue's capacity, and neither
    does dropping the engine: from any reachable state, whatever the schedule,
    callers, thread and drop take at most six actions per call and three more,
    and when none of them can act every call has returned and a drop that was
    begun has joined the thread. *)
Theorem submits_finish capacity w a log n a' log'
    (Hrun : actor_run capacity w (a, log)) (Hsteps : nsteps acts n (a, log) (a', log')) :
  n ≤ 6 * length (ac_calls a) + 3 ∧
  ((∀ y, ¬ acts (a', log') y) →
     Forall (λ c, has_returned c = true) (ac_calls a') ∧ (ac_drop a' = Owned ∨ ac_drop a' = Joined)).
Proof.
  pose proof (actor_run_ok _ _ _ Hrun) as Hok. clear Hrun.
  assert (∀ x y, nsteps acts n x y → actor_ok w x.1 x.2 →
    n + actor_work y.1 ≤ actor_work x.1 ∧ actor_ok w y.1 y.2) as Hall.
  { clear. induction 1 as [x|n x y z Hs _ IH]; intros Hok; [done|].
    pose proof (acts_work _ _ _ Hs Hok). destruct (IH (acts_ok _ _ _ Hs Hok)). split; [lia|done]. }
  destruct (Hall _ _ Hsteps Hok) as [Hn Hok']. cbn in *. split; [|by apply (stuck w)].
  pose proof (actor_work_bound _ _ _ Hok). lia.
Qed.
End properties.

(** ** A run

    Two calls on a queue for one command: the second is sent first, the first
    waits for room, and then the engine is dropped. *)

Import EngineExample.

Module ActorExample.
Inductive Move := Begin (op : string) (command : WriterCommand) | Drop | Caller (i : nat) | Thread | Dropping.

Definition next (m : Move) (x : WriterActor * list Entry) : option (WriterActor * list Entry) :=
  let '(a, log) := x in
  match m with
  | Begin op command =>
      match ac_drop a with
      | Owned => Some (with_calls (ac_calls a ++ [mkSubmit op command Checking]) a, log)
      | _ => None
      end
  | Drop =>
      match ac_drop a with
      | Owned => if forallb has_returned (ac_calls a) then Some (with_drop true FlagSet a, log) else None
      | _ => None
      end
  | Caller i => (λ a', (a', log)) <$> call_acts i a
  | Thread => (λ a', (a', log ++ executed here a)) <$> worker_acts here a
  | Dropping => (λ a', (a', log)) <$> drop_acts a
  end.

Fixpoint play (ms : list Move) (x : WriterActor * list Entry) : option (WriterActor * list Entry) :=
  match ms with
  | [] => Some x
  | m :: ms => next m x ≫= play ms
  end.

Definition of_engine (m : Move) : bool := match m with Begin _ _ | Drop => false | _ => true end.

Lemma next_acts m x y : next m x = Some y → of_engine m = true → acts x y.
Proof.
  destruct x as [a log]. unfold next. destruct m as [op command| |i| |]; [done|done|..];
    intros (a' & Ha & ->)%fmap_Some_1 _;
    [by eapply acts_call|by apply acts_worker|by apply acts_drop].
Qed.

Lemma next_step m x y : next m x = Some y → actor_step x y.
Proof.
  intros Hn. destruct (of_engine m) eqn:E; [by eapply step_acts, next_acts|].
  destruct x as [a log], m as [op command| |i| |]; [..|done|done|done];
    unfold next in Hn; destruct (ac_drop a) eqn:Ed; try done.
  - injection Hn as <-. by constructor.
  - destruct (forallb has_returned (ac_calls a)) eqn:Hall; [|done]. injection Hn as <-. constructor; [done|].
    apply Forall_forall. intros c Hc. rewrite forallb_forall in Hall. by apply Hall, list_elem_of_In.
Qed.

Lemma play_steps ms x y : play ms x = Some y → rtc actor_step x y.
Proof.
  revert x. induction ms as [|m ms IH]; intros x; [by intros [= <-]|].
  cbn [play]. intros (z & Hz & Hp)%bind_Some. eapply rtc_l; [by eapply next_step|by apply IH].
Qed.

Lemma play_acts ms x y : play ms x = Some y → forallb of_engine ms = true → nsteps acts (length ms) x y.
Proof.
  revert x. induction ms as [|m ms IH]; intros x; [intros [= <-] _; constructor|].
  cbn [play forallb length]. intros (z & Hz & Hp)%bind_Some [Hm Hms]%andb_prop.
  eapply nsteps_l; [by eapply next_acts|by apply IH].
Qed.

(** A joined engine does nothing more. *)
Lemma joined_quiet a log y :
  forallb has_returned (ac_calls a) && is_stopped (ac_worker a) = true → ac_drop a = Joined →
  ¬ acts (a, log) y.
Proof.
  intros [Hall Hst]%andb_prop Hd Hs. inversion Hs as [? ? i a' Hc|? ? fresh a' Hw|? ? a' Hdr]; subst.
  - unfold call_acts in Hc. destruct (ac_calls a !! i) as [c|] eqn:Hi; [cbn in Hc|done].
    apply list_elem_of_lookup_2, list_elem_of_In in Hi. rewrite forallb_forall in Hall.
    apply Hall in Hi. unfold has_returned in Hi. by destruct (sc_stage c) as [| |[?|]|].
  - unfold worker_acts in Hw. by destruct (ac_worker a).
  - unfold drop_acts in Hdr. by rewrite Hd in Hdr.
Qed.

Definition one : NonZeroUsize := mkNonZeroUsize 1 I.

Definition begun : list Move :=
  [Begin "write_relationships"%string (writes ["doc:x#a@user:alice"%string]);
   Begin "apply_legacy_configs"%string (ApplyNamespaceConfigs [mutual])].
Definition both : list Move :=
  [Caller 0; Caller 1; Caller 1; Thread; Caller 0; Thread; Thread; Thread; Caller 1; Thread; Thread; Caller 0].

Definition started : WriterActor * list Entry := (actor_start one start, []).
Definition served : option (WriterActor * list Entry) := play (begun ++ both) started.
Definition dropping : option (WriterActor * list Entry) := play (begun ++ both ++ [Drop]) started.
Definition joined : option (WriterActor * list Entry) :=
  dropping ≫= play [Dropping; Thread; Dropping].

(** Both calls succeeded and the second was run first. *)
Definition in_order (x : WriterActor * list Entry) : bool :=
  forallb (λ c, match sc_stage c with Returned (Ok _) => true | _ => false end) (ac_calls x.1) &&
  bool_decide (en_call <$> x.2 = [1; 0]).

Lemma checked {A} (f : A → bool) (o : option A) :
  match o with Some x => f x | None => false end = true → ∃ x, o = Some x ∧ f x = true.
Proof. destruct o as [x|]; [eauto|done]. Qed.
End ActorExample.

Lemma submits_linearize_witness :
  ∃ a log, actor_run ActorExample.one start (a, log) ∧
    ActorExample.in_order (a, log) = true ∧ ac_world a = world_after start log.
Proof.
  destruct (ActorExample.checked ActorExample.in_order ActorExample.served) as ([a log] & Hx & Hb);
    [vm_compute; reflexivity|].
  pose proof (ActorExample.play_steps _ _ _ Hx) as Hrun. exists a, log.
  split; [exact Hrun|]. split; [exact Hb|].
  exact (proj1 (submits_linearize builder_new here [] ActorExample.one a log Hrun)).
Defined.

Lemma submits_finish_witness :
  ∃ a log a' log', actor_run ActorExample.one start (a, log) ∧
    nsteps acts 3 (a, log) (a', log') ∧ 3 ≤ 6 * length (ac_calls a) + 3 ∧
    (ac_drop a' = Owned ∨ ac_drop a' = Joined).
Proof.
  destruct (ActorExample.checked
    (λ x, match ActorExample.play [ActorExample.Dropping; ActorExample.Thread; ActorExample.Dropping] x with
          | Some y => forallb has_returned (ac_calls y.1) && is_stopped (ac_worker y.1) &&
                      match ac_drop y.1 with Joined => true | _ => false end
          | None => false
          end) ActorExample.dropping) as ([a log] & Hx & Hb); [vm_compute; reflexivity|].
  pose proof (ActorExample.play_steps _ _ _ Hx) as Hrun.
  destruct (ActorExample.play _ (a, log)) as [[a' log']|] eqn:Hy; [|discriminate Hb].
  apply andb_prop in Hb as [Hb Hd]. cbn [fst] in Hb, Hd.
  pose proof (ActorExample.play_acts _ _ _ Hy eq_refl) as Hsteps.
  assert (ac_drop a' = Joined) as Hj by (destruct (ac_drop a'); [discriminate Hd..|reflexivity]).
  exists a, log, a', log'. split; [exact Hrun|]. split; [exact Hsteps|].
  destruct (submits_finish ActorExample.one start a log 3 a' log' Hrun Hsteps) as [Hn Hstuck].
  split; [exact Hn|]. apply Hstuck. intros y. by apply ActorExample.joined_quiet.
Defined.
