(* ===== verification/SchemaRoundtrip.v ===== *)
(** * Policies round trip

    Importing the policy an engine exports gives its contents back: the schema
    text reads back to the same configurations, which compile to a schema of the
    same hash. *)

From S2P Require Import Prelude Model Domain Revision StoreTypes Schema Store StoreView EvalContext.
From S2P Require Import Dsl Grammar SchemaText Legacy LegacyProps Runtime Writer Policy.
From S2P Require Import WriterSpec PolicyProps Api EngineProps.

(** ** The text of configurations *)

(** Keys are the names of what they map to, as every command but
    [ApplyNamespaceConfigs] makes them. *)
Definition well_keyed (m : gmap string NamespaceConfig) : Prop :=
  map_Forall (λ k c, config_name c = k ∧
    map_Forall (λ r rc, config_relation_name rc = r) (config_relations c)) m.

Definition relation_ast (r : RelationConfig) : LegacyRelationAst :=
  mkRelationAst (relation_str (config_relation_name r)) (config_userset_rewrite r).

Lemma relation_text_body r : relation_text r = "    " +:+ relation_body (relation_ast r) +:+ LF.
Proof.
  unfold relation_text, relation_body, relation_ast. cbn [ast_rewrite ast_relation_name].
  destruct (config_userset_rewrite r); flatten; reflexivity.
Qed.

Section text.
Context `{HashOrder}.

Definition sorted_relations_of (c : NamespaceConfig) : list RelationConfig :=
  sort_by_name (λ r, relation_str (config_relation_name r)) (hash_values (config_relations c)).
Definition sorted_ast (c : NamespaceConfig) : LegacyNamespaceAst :=
  mkNamespaceAst (config_name c) (map relation_ast (sorted_relations_of c)).
Definition sorted_configs (m : gmap string NamespaceConfig) : list NamespaceConfig :=
  sort_by_name config_name (hash_values m).

Lemma canonical_text m : canonical_schema_source m = schema_text (map sorted_ast (sorted_configs m)).
Proof.
  unfold canonical_schema_source, schema_text. f_equal. rewrite map_map. apply map_ext. intros c.
  unfold namespace_text, namespace_body. cbn [ast_name ast_relations sorted_ast].
  assert (map relation_text (sorted_relations_of c) =
    map (λ a, "    " +:+ relation_body a +:+ LF) (map relation_ast (sorted_relations_of c))) as E.
  { rewrite map_map. apply map_ext, relation_text_body. }
  unfold sorted_relations_of in E. rewrite E. unfold relations_text, LF. flatten. reflexivity.
Qed.

Lemma sorted_ast_reorder c ns :
  ast_of_config c = legacy_namespace ns → plain_namespace ns →
  ∃ ns', sorted_ast c = legacy_namespace ns' ∧ plain_namespace ns' ∧ namespace_perm ns ns'.
Proof.
  unfold ast_of_config, legacy_namespace. intros [= Hn Hr] Hp. unfold sorted_ast, sorted_relations_of.
  assert (map relation_ast (sort_by_name (λ r, relation_str (config_relation_name r))
    (hash_values (config_relations c))) ≡ₚ map legacy_relation (ns_relations ns)) as Hp2.
  { rewrite <- Hr. unfold sort_by_name. by rewrite merge_sort_Permutation. }
  apply Permutation_map_inv in Hp2 as (l & E & Hl). rewrite E.
  exists (mkNamespaceDefinition (ns_name ns) l). split; [by rewrite Hn|].
  split; [|by split]. unfold plain_namespace in *. cbn [ns_relations]. by rewrite <- Hl.
Qed.

Lemma sorted_asts configs l :
  map ast_of_config configs = map legacy_namespace l → Forall plain_namespace l →
  ∃ nss, map sorted_ast configs = map legacy_namespace nss ∧ Forall plain_namespace nss ∧
    Forall2 namespace_perm l nss.
Proof.
  revert l. induction configs as [|c configs IH]; intros [|ns l] Hm Hp; try done.
  - exists []. split_and!; constructor.
  - apply cons_eq_inj in Hm as [Hc Hm]. apply Forall_cons in Hp as [Hn Hp].
    destruct (sorted_ast_reorder c ns Hc Hn) as (ns' & E & Hn' & Hs).
    destruct (IH l Hm Hp) as (nss & E' & Hp' & HF).
    exists (ns' :: nss). cbn. rewrite E, E'. split_and!; [done|by constructor|by constructor].
Qed.

(** The definitions the text spells: those of the configurations, reordered. *)
Lemma canonical_definitions m cs :
  compile_configs m = Ok cs →
  ∃ nss cs', map sorted_ast (sorted_configs m) = map legacy_namespace nss ∧
    compile_legacy_ast (map legacy_namespace nss) = Ok cs' ∧ schema_bytes cs' = schema_bytes cs.
Proof.
  intros (defs & Hm & Hp & Hcs)%compile_configs_Ok.
  assert (map ast_of_config (sorted_configs m) ≡ₚ map legacy_namespace defs) as Hpm.
  { rewrite <- Hm. unfold sorted_configs, sort_by_name. by rewrite merge_sort_Permutation. }
  apply Permutation_map_inv in Hpm as (l & Hl & Hd).
  destruct (sorted_asts _ l Hl) as (nss & E & Hp' & HF); [by rewrite <- Hd|].
  assert (definitions_perm defs nss) as Hperm by by exists l.
  assert (schema_ok defs) as Hok by (apply from_definitions_is_Ok; by rewrite Hcs).
  assert (is_ok (from_definitions nss) = true) as Hok' by
    (apply from_definitions_is_Ok; by eapply schema_ok_perm).
  destruct (from_definitions nss) as [cs'|] eqn:Hcs'; [|done]. exists nss, cs'. split_and!; [done| |].
  - apply compile_ast_Ok. by exists nss.
  - rewrite (schema_bytes_source _ _ Hcs), (schema_bytes_source _ _ Hcs'). symmetry.
    apply definitions_bytes_perm; [apply Hok|done].
Qed.

(** ** Configurations from the text *)

Lemma insert_values {K V} `{Countable K} (key : V → K) (m : gmap K V) l :
  map_Forall (λ k v, key v = k) m → l ≡ₚ (map_to_list m).*2 →
  foldl (λ m v, <[key v := v]> m) ∅ l = m.
Proof.
  intros Hk Hl.
  assert (∀ l (m0 : gmap K V), foldl (λ m v, <[key v := v]> m) m0 l =
    (list_to_map (M:=gmap K V) (reverse ((λ v, (key v, v)) <$> l)) : gmap K V) ∪ m0)
    as Hfold.
  { clear. intros l. induction l as [|v l IH]; intros m0; [cbn; by rewrite map_empty_union|].
    cbn [foldl]. rewrite IH, fmap_cons, reverse_cons, list_to_map_app.
    by rewrite <- map_union_assoc, list_to_map_cons, list_to_map_nil, <- insert_union_l, map_empty_union. }
  rewrite Hfold, map_union_empty.
  assert ((λ v, (key v, v)) <$> l ≡ₚ map_to_list m) as Hp.
  { rewrite Hl, <- list_fmap_compose. rewrite <- (list_fmap_id (map_to_list m)) at 2.
    apply reflexive_eq, list_fmap_ext. intros i [k v] Hi%list_elem_of_lookup_2. cbn. f_equal.
    apply elem_of_map_to_list in Hi. by apply (Hk _ _ Hi). }
  rewrite <- (list_to_map_to_list m). symmetry. apply list_to_map_proper; [apply NoDup_fst_map_to_list|].
  by rewrite reverse_Permutation, Hp.
Qed.

Lemma config_of_sorted c :
  map_Forall (λ r rc, config_relation_name rc = r) (config_relations c) → config_of_ast (sorted_ast c) = c.
Proof.
  intros Hk. unfold config_of_ast. cbn [ast_name ast_relations sorted_ast].
  assert (∀ l (m0 : gmap Relation RelationConfig), foldl (λ m r, <[mkRelation (ast_relation_name r) :=
      mkRelationConfig (mkRelation (ast_relation_name r)) (ast_rewrite r)]> m) m0 (map relation_ast l) =
    foldl (λ m rc, <[config_relation_name rc := rc]> m) m0 l) as E.
  { intros l. induction l as [|[[n] rw] l IH]; intros m0; [done|]. cbn. by rewrite IH. }
  rewrite E, insert_values with (m := config_relations c); [by destruct c|done|].
  unfold sorted_relations_of, sort_by_name. by rewrite merge_sort_Permutation, hash_values_perm.
Qed.

Lemma sorted_configs_perm m : sorted_configs m ≡ₚ hash_values m.
Proof. unfold sorted_configs, sort_by_name. by rewrite merge_sort_Permutation. Qed.

Lemma configs_of_sorted m :
  well_keyed m → fmap (M:=list) config_of_ast (map sorted_ast (sorted_configs m)) = sorted_configs m.
Proof.
  intros Hk. change (map config_of_ast (map sorted_ast (sorted_configs m)) = sorted_configs m).
  rewrite map_map. rewrite <- (map_id (sorted_configs m)) at 2. apply map_ext_in.
  intros c Hc%list_elem_of_In. rewrite sorted_configs_perm in Hc. apply elem_of_hash_values in Hc as [k Hc].
  apply config_of_sorted. by apply (Hk _ _ Hc).
Qed.

Lemma configs_of_text m :
  well_keyed m → foldl insert_config ∅ (fmap (M:=list) config_of_ast (map sorted_ast (sorted_configs m))) = m.
Proof.
  intros Hk. rewrite configs_of_sorted by done.
  apply (insert_values config_name); [intros k c Hc; by apply (Hk _ _ Hc)|].
  by rewrite sorted_configs_perm, hash_values_perm.
Qed.
End text.

(** ** Properties *)

Section roundtrip.
Context `{Hasher, HashOrder, Blake3, PestParser, !FollowsGrammar}.

(** The schema text written for configurations that compile is in the grammar
    and reads back: it compiles to a schema of the same hash bytes, and the
    configurations read are those it was written from. *)
Theorem schema_roundtrip m cs (Hcs : compile_configs m = Ok cs) :
  ∃ l cs', parse_dsl (canonical_schema_source m) = Ok l ∧
    compile_legacy_dsl (canonical_schema_source m) = Ok cs' ∧ schema_bytes cs' = schema_bytes cs ∧
    (well_keyed m → foldl insert_config ∅ l = m).
Proof.
  destruct (canonical_definitions m cs Hcs) as (nss & cs' & E & Hcs' & Hb).
  pose proof (canonical_text m) as Ht. rewrite E in Ht.
  exists (fmap (M:=list) config_of_ast (map legacy_namespace nss)), cs'.
  unfold parse_dsl, compile_legacy_dsl. rewrite Ht, reads_schema. split_and!; [done|done|done|].
  intros Hk. rewrite <- E. by apply configs_of_text.
Qed.

(** The text is UTF-8, and the configurations read from it, compiled in the order
    of the text, give a schema of the same hash bytes and the same meaning. *)
Lemma schema_text_compiles m cs (Hcs : compile_configs m = Ok cs) (Hk : well_keyed m) :
  ∃ cs', utf8_valid (canonical_schema_source m) = true ∧
    parse_dsl (canonical_schema_source m) = Ok (sorted_configs m) ∧
    compile_legacy_configs (sorted_configs m) = Ok cs' ∧
    schema_bytes cs' = schema_bytes cs ∧ same_meaning cs' cs ∧ foldl insert_config ∅ (sorted_configs m) = m.
Proof.
  destruct (canonical_definitions m cs Hcs) as (nss & _ & E & _ & _).
  pose proof (canonical_text m) as Ht. rewrite E in Ht.
  destruct (compile_legacy_reorder _ _ (hash_values m) (sorted_configs m) cs Hcs) as (cs' & d & d' & Hcs' & Hp & Hd & Hd').
  { by rewrite sorted_configs_perm. }
  destruct (definitions_perm_same _ _ _ _ Hp Hd Hd') as [Hb Hm].
  exists cs'. split_and!; [rewrite Ht; apply schema_text_utf8| |done|done| |].
  - unfold parse_dsl. rewrite Ht, reads_schema, <- E. cbn [mbind result_bind]. by rewrite configs_of_sorted.
  - intros rels u M. by rewrite (Hm rels u M).
  - rewrite <- (configs_of_sorted m Hk). by apply configs_of_text.
Qed.

(** What an engine exports is the text of its contents. *)
Lemma export_contents w log policy x :
  engine_run w log → contents w = Some x →
  export_policy (wd_cells w) (published_state (wd_writer w)) = Ok policy →
  policy = export_policy_text (ct_configs x) (ct_relationships x).
Proof.
  intros [Hw _]%engine_run_ok Hx Hexp. destruct (contents_current w x Hw Hx) as (s & Hs & _ & Hh & ->).
  unfold export_policy, current_state in Hexp. rewrite (wo_cell w Hw) in Hexp. unfold engine_view in Hexp.
  rewrite Hs, (ho_revision _ _ Hh) in Hexp. by injection Hexp as <-.
Qed.

(** What importing that text would make of an engine. *)
Lemma exported_contents x s :
  snapshot_ok s → well_keyed (ct_configs x) →
  x = mkContents (snapshot_configs s) (snapshot_schema s) (view_rows (snapshot_relationships s)) →
  if decide (Forall line_fits (ct_relationships x))
  then (∃ y, policy_contents (export_policy_text (ct_configs x) (ct_relationships x)) y) ∧
       ∀ y, policy_contents (export_policy_text (ct_configs x) (ct_relationships x)) y → same_contents y x
  else ¬ ∃ y, policy_contents (export_policy_text (ct_configs x) (ct_relationships x)) y.
Proof.
  intros [Hs _ Hv Hr] Hk Ex. pose proof (relationships_roundtrip (ct_configs x) (ct_relationships x)) as Hrel.
  destruct (schema_roundtrip (ct_configs x) (ct_schema x)) as (l & cs' & Hl & Hcs' & _ & Hm).
  { rewrite Ex. exact Hs. }
  assert (spec_replace_dsl None (canonical_schema_source (ct_configs x)) =
          Ok (mkContents (ct_configs x) (ct_schema x) [])) as Hspec.
  { unfold spec_replace_dsl. rewrite Hl, Hcs'. cbn. rewrite (Hm Hk). unfold spec_install.
    rewrite Ex. cbn [ct_configs]. by rewrite Hs. }
  destruct (decide _) as [Hfit|Hfit].
  - destruct Hrel as (rs & Hrs & Hp). split.
    + exists (mkContents (ct_configs x) (ct_schema x) rs), (mkContents (ct_configs x) (ct_schema x) []), rs.
      split_and!; [exact Hspec|exact Hrs| | |done].
      * rewrite Hp, Ex. by apply ViewProps.view_rows_NoDup.
      * cbn [ct_schema]. rewrite (spec_validate_perm _ _ _ Hp), Ex. cbn [ct_schema ct_relationships].
        apply try_for_Ok. eapply Forall_impl; [exact Hr|]. by intros r ->.
    + intros y (x' & rs' & Hx' & Hrs' & _ & _ & ->). cbn [policy_schema export_policy_text] in Hx'.
      rewrite Hspec in Hx'. injection Hx' as <-. rewrite Hrs in Hrs'. injection Hrs' as <-. by split_and!.
  - destruct Hrel as [e Hrs]. intros (y & x' & rs' & _ & Hrs' & _). by rewrite Hrs in Hrs'.
Qed.

(** C22: with a parser that follows the grammar: importing the policy text exported
    by one reachable engine, whose configurations are keyed by the names they hold
    ([well_keyed], which [ApplyNamespaceConfigs] does not enforce), into any
    reachable engine gives it the same configurations, the same compiled schema and
    the same relationships up to their order, or fails by a full table or the end of
    the revision counter and changes nothing; when a relationship prints to more
    bytes than its parser accepts, the import is refused and changes nothing. *)
Theorem exported_policy_restores w log w' log' fresh policy x
    (Hw : engine_run w log) (Hw' : engine_run w' log') (Hx : contents w = Some x)
    (Hkeyed : well_keyed (ct_configs x))
    (Hexp : export_policy (wd_cells w) (published_state (wd_writer w)) = Ok policy) :
  let '(r, w'') := run_command fresh (ApplyPolicyText policy) w' in
  match r with
  | Ok t => Forall line_fits (ct_relationships x) ∧ token_current t w'' ∧
      ∃ y, contents w'' = Some y ∧ same_contents y x
  | Err e => (Forall line_fits (ct_relationships x) → resource_error e) ∧ contents w'' = contents w'
  end.
Proof.
  pose proof (export_contents w log policy x Hw Hx Hexp) as Hpol.
  apply engine_run_ok in Hw as [Hw _]. destruct (contents_current w x Hw Hx) as (s & _ & Hs & _ & Ex).
  pose proof (exported_contents x s Hs Hkeyed Ex) as Hy. rewrite <- Hpol in Hy.
  apply engine_run_ok in Hw' as [Hw' _]. cbn [run_command].
  pose proof (apply_policy_ok fresh policy w' Hw') as Hc.
  destruct (apply_policy_text fresh policy w') as [[t|e] w''].
  - destruct Hc as (_ & Ht & _ & _ & _ & _ & _ & y & y' & Hc & Hpc & Hsame).
    destruct (decide _) as [Hfit|Hfit]; [|by destruct Hy; exists y'].
    split; [done|]. split; [done|]. exists y. split; [done|]. destruct Hy as [_ Hy].
    destruct (Hy y' Hpc) as (? & ? & Hp), Hsame as (? & ? & Hp').
    split_and!; [congruence|congruence|by rewrite Hp'].
  - destruct Hc as (Hc & _ & He). split; [|unfold contents; by rewrite Hc]. intros Hfit.
    destruct (decide _) as [_|]; [|done]. destruct Hy as [Hex _]. by destruct He.
Qed.
End roundtrip.

(** ** A policy and its import *)

Module PolicyExample.
#[local] Existing Instance constant_hasher.
#[local] Existing Instance map_order.
#[local] Existing Instance EngineExample.no_digest.
#[local] Existing Instance grammar_parser.

Definition schema : string :=
  "namespace doc { relation owner {} // comment" +:+ NEWLINE +:+
  "relation parent {} relation viewer { rewrite union(this, computed_userset(relation: " +:+ quoted "owner" +:+
  "), tuple_to_userset(tupleset: " +:+ quoted "parent" +:+ ", computed_userset: " +:+ quoted "viewer" +:+
  "), exclusion(this, intersection(this))) } }".

Definition here : DatastoreId := EngineExample.here.

(** An engine with a schema and two relationships, and an empty one. *)
Definition exporter : World * list (ConsistencyToken * PublishedSnapshot) :=
  execute (build builder_new here []) []
    [(here, ReplaceSchema schema);
     (here, EngineExample.writes ["doc:x#viewer@user:alice"; "doc:y#parent@doc:x#viewer"]%string)].
Definition importer : World := build builder_new here [].

Lemma exporter_run : engine_run exporter.1 exporter.2.
Proof. apply execute_run, run_build. Qed.

#[export] Instance well_keyed_dec m : Decision (well_keyed m).
Proof. unfold well_keyed. apply _. Defined.

(** The policy, its import, and what both engines then hold. *)
Definition imported (policy : PolicyText) : result ZanzibarError ConsistencyToken * World :=
  run_command here (ApplyPolicyText policy) importer.
Definition ready : bool :=
  match contents exporter.1, export_policy (wd_cells exporter.1) (published_state (wd_writer exporter.1)) with
  | Some x, Ok policy =>
      bool_decide (well_keyed (ct_configs x)) && (length (ct_relationships x) =? 2) && is_ok (imported policy).1
  | _, _ => false
  end.
End PolicyExample.

Lemma exported_policy_restores_witness :
  ∃ x y, contents PolicyExample.exporter.1 = Some x ∧ length (ct_relationships x) = 2 ∧
    (∃ policy, contents (PolicyExample.imported policy).2 = Some y) ∧ same_contents y x.
Proof.
  assert (PolicyExample.ready = true) as Hr by (vm_compute; reflexivity).
  unfold PolicyExample.ready in Hr. destruct (contents PolicyExample.exporter.1) as [x|] eqn:Hx; [|discriminate Hr].
  destruct (export_policy _ _) as [policy|] eqn:Hexp; [|discriminate Hr].
  apply andb_prop in Hr as [Hr Hok]. apply andb_prop in Hr as [Hk Hlen].
  apply bool_decide_eq_true_1 in Hk. apply Nat.eqb_eq in Hlen.
  pose proof (@exported_policy_restores constant_hasher map_order EngineExample.no_digest grammar_parser
    grammar_parser_follows PolicyExample.exporter.1 PolicyExample.exporter.2 PolicyExample.importer []
    PolicyExample.here policy x PolicyExample.exporter_run (run_build _ _ _) Hx Hk Hexp) as Hp.
  change (run_command PolicyExample.here (ApplyPolicyText policy) PolicyExample.importer)
    with (PolicyExample.imported policy) in Hp.
  destruct (PolicyExample.imported policy) as [[t|e] w''] eqn:E; [|discriminate Hok].
  destruct Hp as (_ & _ & y & Hy & Hs). exists x, y. split; [reflexivity|]. split; [exact Hlen|].
  split; [exists policy; rewrite E; exact Hy|exact Hs].
Defined.
