(* ===== verification/TupleStore.v ===== *)
(** * The legacy tuple store (src/src/store.rs)

    The [TupleStore] trait as a class of operations with the laws its callers
    may use, and the in-memory implementation over a hash set. *)

From S2P Require Import Prelude Model.

(** ** The trait *)

(** Whether a tuple passes the filters of [read_tuples]. *)
Definition tuple_matches (object : Object) (relation : option Relation) (user : option User)
    (t : RelationTuple) : bool :=
  bool_decide (tuple_object t = object) &&
  match relation with Some r => bool_decide (tuple_relation t = r) | None => true end &&
  match user with Some u => bool_decide (tuple_user t = u) | None => true end.

Class TupleStore (S : Type) := {
  read_tuples : S → Object → option Relation → option User → list RelationTuple;
  write_tuple : RelationTuple → S → result string unit * S;
  delete_tuple : RelationTuple → S → result string unit * S;
  all_tuples : S → list RelationTuple;
  replace_all : list RelationTuple → S → S
}.

(** A store is a finite set of tuples: writing adds a new one, deleting removes
    one that is there, and a refused operation changes nothing. *)
Class TupleStoreLaws (S : Type) `{TupleStore S} (tuples : S → gset RelationTuple) := {
  read_tuples_law s o rel u :
    NoDup (read_tuples s o rel u) ∧
    ∀ t, t ∈ read_tuples s o rel u ↔ t ∈ tuples s ∧ tuple_matches o rel u t = true;
  write_tuple_law t s :
    tuples (write_tuple t s).2 = {[t]} ∪ tuples s ∧
    (is_ok (write_tuple t s).1 = true ↔ t ∉ tuples s);
  delete_tuple_law t s :
    tuples (delete_tuple t s).2 = tuples s ∖ {[t]} ∧
    (is_ok (delete_tuple t s).1 = true ↔ t ∈ tuples s);
  all_tuples_law s : NoDup (all_tuples s) ∧ ∀ t, t ∈ all_tuples s ↔ t ∈ tuples s;
  replace_all_law ts s : tuples (replace_all ts s) = list_to_set ts
}.

(** ** The in-memory store *)

Record InMemoryTupleStore := mkTupleStore { store : gset RelationTuple }.

(** A [HashSet] is visited in an unspecified order. *)
Definition hash_elements `{HashOrder} (s : gset RelationTuple) : list RelationTuple :=
  hash_values (set_to_map (M:=gmap RelationTuple RelationTuple) (λ t, (t, t)) s).

Definition memory_read_tuples `{HashOrder} (s : InMemoryTupleStore) (object : Object)
    (relation : option Relation) (user : option User) : list RelationTuple :=
  filter (λ t, tuple_matches object relation user t = true) (hash_elements (store s)).

Definition memory_write_tuple (t : RelationTuple) (s : InMemoryTupleStore)
    : result string unit * InMemoryTupleStore :=
  if decide (t ∈ store s) then (Err "Tuple already exists", s)
  else (Ok tt, mkTupleStore ({[t]} ∪ store s)).

Definition memory_delete_tuple (t : RelationTuple) (s : InMemoryTupleStore)
    : result string unit * InMemoryTupleStore :=
  if decide (t ∈ store s) then (Ok tt, mkTupleStore (store s ∖ {[t]}))
  else (Err "Tuple not found", s).

Definition memory_replace_all (ts : list RelationTuple) (s : InMemoryTupleStore)
    : InMemoryTupleStore := mkTupleStore (list_to_set ts).

#[export] Instance memory_store `{HashOrder} : TupleStore InMemoryTupleStore := {|
  read_tuples := memory_read_tuples;
  write_tuple := memory_write_tuple;
  delete_tuple := memory_delete_tuple;
  all_tuples s := hash_elements (store s);
  replace_all := memory_replace_all
|}.

Lemma hash_elements_spec `{HashOrder} s :
  NoDup (hash_elements s) ∧ ∀ t, t ∈ hash_elements s ↔ t ∈ s.
Proof.
  unfold hash_elements. set (m := set_to_map _ _).
  assert (∀ k v, m !! k = Some v ↔ k ∈ s ∧ v = k) as Hm.
  { intros k v. unfold m. rewrite lookup_set_to_map by done. naive_solver. }
  split.
  - rewrite (hash_values_perm m). apply NoDup_fmap_2_strong; [|apply NoDup_map_to_list].
    intros [k v] [k' v'] Hk%elem_of_map_to_list Hk'%elem_of_map_to_list.
    apply Hm in Hk as [_ ->]. apply Hm in Hk' as [_ ->]. simpl. by intros ->.
  - intros t. rewrite elem_of_hash_values. setoid_rewrite Hm. naive_solver.
Qed.

#[export] Instance memory_store_laws `{HashOrder} : TupleStoreLaws InMemoryTupleStore store.
Proof.
  split; simpl.
  - intros s o rel u. unfold memory_read_tuples. destruct (hash_elements_spec (store s)) as [Hn He].
    split; [by apply NoDup_filter|]. intros t. rewrite list_elem_of_filter, He. naive_solver.
  - intros t s. unfold memory_write_tuple. destruct (decide _); simpl; set_solver.
  - intros t s. unfold memory_delete_tuple. destruct (decide _); simpl; set_solver.
  - intros s. apply hash_elements_spec.
  - done.
Qed.
