(* ===== verification/SnapshotBytes.v ===== *)
(** * Bytes of a snapshot artifact (src/src/snapshot.rs)

    The errors of saving and loading, checked conversions between the widths of
    lengths and offsets, little-endian integers and the [BinaryCursor] the
    decoders read through. A byte is an integer from 0 to 255; a byte string is
    the list of its bytes. *)

From S2P Require Import Prelude Model Domain Revision StoreTypes Posting EvalContext Legacy.

Local Open Scope Z_scope.

(** ** Errors *)

Inductive SnapshotIoError :=
| SIo (source : string)
| SFormat (reason : string)
| SLimitExceeded (component : string)
| SUnsupportedOption (option : string)
| SSchema (source : ZanzibarError)
| SStore (source : StoreError)
| SDomain (source : DomainError).

Abbreviation sresult := (result SnapshotIoError) (only parsing).

(** ** Checked conversions and arithmetic *)

Definition checked_usize_from_u32 (value : Z) : sresult Z :=
  ok_or (try_from_uint usize_max value) (SLimitExceeded "snapshot u32 count").
Definition checked_usize_from_u64 (value : Z) : sresult Z :=
  ok_or (try_from_uint usize_max value) (SLimitExceeded "snapshot u64 count").
Definition checked_u32_from_usize (value : Z) : sresult Z :=
  ok_or (try_from_uint u32_max value) (SLimitExceeded "snapshot u32 count").
Definition checked_u32_from_u64 (value : Z) : sresult Z :=
  ok_or (try_from_uint u32_max value) (SLimitExceeded "snapshot u32 count").
Definition checked_u64_from_usize (value : Z) : sresult Z :=
  ok_or (try_from_uint u64_max value) (SLimitExceeded "snapshot u64 count").
Definition checked_add_usize (left right : Z) : sresult Z :=
  ok_or (checked_add usize_max left right) (SFormat "snapshot offset overflowed").
Definition checked_mul_usize (left right : Z) : sresult Z :=
  ok_or (checked_mul usize_max left right) (SFormat "snapshot length overflowed").

(** [slice.len()] *)
Definition len_of {A} (l : list A) : Z := Z.of_nat (length l).

(** [slice.get(start..end)] for offsets that are [usize] values. *)
Definition get_range {A} (first last : Z) (l : list A) : option (list A) :=
  slice_get (Z.to_nat first) (Z.to_nat last) l.

(** ** Little-endian integers *)

(** [uN::from_le_bytes] *)
Fixpoint from_le_bytes (bytes : list Z) : Z :=
  match bytes with
  | [] => 0
  | b :: bytes => b + 256 * from_le_bytes bytes
  end.

Definition is_byte (b : Z) : Prop := 0 ≤ b ≤ 255.
Definition bytes_ok (bytes : list Z) : Prop := Forall is_byte bytes.

Fixpoint bytes_str (bytes : list Z) : string :=
  match bytes with
  | [] => EmptyString
  | b :: bytes => String (ascii_of_N (Z.to_N b)) (bytes_str bytes)
  end.

(** ** The cursor *)

Record BinaryCursor := mkCursor { cursor_bytes : list Z; cursor_offset : Z }.

Definition cursor_new (bytes : list Z) : BinaryCursor := mkCursor bytes 0.

Abbreviation Reads := (ST BinaryCursor SnapshotIoError).

Definition read_array (n : nat) : Reads (list Z) := λ c,
  match checked_add_usize (cursor_offset c) (Z.of_nat n) with
  | Err e => (Err e, c)
  | Ok last =>
      match get_range (cursor_offset c) last (cursor_bytes c) with
      | None => (Err (SFormat "snapshot section is truncated"), c)
      | Some slice => (Ok slice, mkCursor (cursor_bytes c) last)
      end
  end.

Definition read_uint (n : nat) : Reads Z := let! a := read_array n in st_ret (from_le_bytes a).
Definition read_u16 : Reads Z := read_uint 2.
Definition read_u32 : Reads Z := read_uint 4.
Definition read_u64 : Reads Z := read_uint 8.

Definition cursor_is_empty (c : BinaryCursor) : bool :=
  (cursor_offset c =? len_of (cursor_bytes c)).

(** [for _ in 0..n { entries.push(..) }] *)
Fixpoint read_times {A} (n : nat) (m : Reads A) : Reads (list A) :=
  match n with
  | O => st_ret []
  | S n => let! a := m in let! l := read_times n m in st_ret (a :: l)
  end.

(** The result of a decoder on a fresh cursor. *)
Definition read_all {A} (m : Reads A) (bytes : list Z) : sresult A := (m (cursor_new bytes)).1.

(** ** Lemmas *)

Lemma len_of_app {A} (l k : list A) : len_of (l ++ k) = len_of l + len_of k.
Proof. unfold len_of. rewrite length_app. lia. Qed.

Lemma len_of_nonneg {A} (l : list A) : 0 ≤ len_of l.
Proof. unfold len_of. lia. Qed.

Lemma slice_get_app {A} (l m r : list A) :
  slice_get (length l) (length l + length m) (l ++ m ++ r) = Some m.
Proof.
  unfold slice_get. rewrite !length_app.
  rewrite (proj2 (Nat.leb_le _ _)) by lia. rewrite (proj2 (Nat.leb_le _ _)) by lia. simpl.
  rewrite drop_app_length. f_equal.
  replace (length l + length m - length l)%nat with (length m) by lia.
  by rewrite take_app_length.
Qed.

Lemma slice_get_Some {A} i j (l s : list A) :
  slice_get i j l = Some s →
  (i ≤ j ≤ length l)%nat ∧ s = take (j - i) (drop i l) ∧ length s = (j - i)%nat.
Proof.
  unfold slice_get. intros Hs.
  destruct (Nat.leb i j && Nat.leb j (length l)) eqn:E; [|done]. injection Hs as <-.
  apply andb_true_iff in E as [?%Nat.leb_le ?%Nat.leb_le].
  split_and!; [lia|lia|done|]. rewrite length_take, length_drop. lia.
Qed.

Lemma get_range_app {A} (l m r : list A) :
  get_range (len_of l) (len_of l + len_of m) (l ++ m ++ r) = Some m.
Proof.
  unfold get_range, len_of. rewrite <- Nat2Z.inj_add, !Nat2Z.id. apply slice_get_app.
Qed.

Lemma get_range_prefix {A} (m r : list A) : get_range 0 (len_of m) (m ++ r) = Some m.
Proof. apply (get_range_app []). Qed.

Lemma get_range_suffix {A} (l m : list A) :
  get_range (len_of l) (len_of (l ++ m)) (l ++ m) = Some m.
Proof.
  rewrite len_of_app. pose proof (get_range_app l m []) as E. by rewrite app_nil_r in E.
Qed.

Lemma get_range_all {A} (l : list A) : get_range 0 (len_of l) l = Some l.
Proof. pose proof (get_range_prefix l []) as E. by rewrite app_nil_r in E. Qed.

(** A slice cuts the list in three. *)
Lemma get_range_Some {A} i j (l s : list A) :
  0 ≤ i → 0 ≤ j → get_range i j l = Some s →
  ∃ pre post, l = pre ++ s ++ post ∧ len_of pre = i ∧ len_of s = j - i ∧ j ≤ len_of l.
Proof.
  intros Hi Hj (Hb & -> & Hlen)%slice_get_Some.
  exists (take (Z.to_nat i) l), (drop (Z.to_nat j) l). unfold len_of. rewrite Hlen, length_take.
  split_and!; [|lia..].
  rewrite <- (take_drop (Z.to_nat i) l) at 1. f_equal.
  rewrite <- (take_drop (Z.to_nat j - Z.to_nat i) (drop (Z.to_nat i) l)) at 1. f_equal.
  rewrite drop_drop. f_equal. lia.
Qed.

Lemma try_from_uint_Some max v w : try_from_uint max v = Some w ↔ w = v ∧ v ≤ max.
Proof. unfold try_from_uint. destruct (Z.leb_spec v max); naive_solver lia. Qed.

Lemma checked_add_Some max a b c : checked_add max a b = Some c ↔ c = a + b ∧ a + b ≤ max.
Proof. unfold checked_add. destruct (Z.leb_spec (a + b) max); naive_solver lia. Qed.

Lemma checked_mul_Some max a b c : checked_mul max a b = Some c ↔ c = a * b ∧ a * b ≤ max.
Proof. unfold checked_mul. destruct (Z.leb_spec (a * b) max); naive_solver lia. Qed.

Lemma checked_sub_Some a b c : checked_sub a b = Some c ↔ c = a - b ∧ b ≤ a.
Proof. unfold checked_sub. destruct (Z.leb_spec b a); naive_solver lia. Qed.

Lemma checked_add_usize_Ok a b c : checked_add_usize a b = Ok c ↔ c = a + b ∧ a + b ≤ usize_max.
Proof.
  unfold checked_add_usize. rewrite <- checked_add_Some.
  destruct (checked_add usize_max a b); simpl; naive_solver.
Qed.

Lemma checked_mul_usize_Ok a b c : checked_mul_usize a b = Ok c ↔ c = a * b ∧ a * b ≤ usize_max.
Proof.
  unfold checked_mul_usize. rewrite <- checked_mul_Some.
  destruct (checked_mul usize_max a b); simpl; naive_solver.
Qed.

Lemma ok_or_try_from {E} (e : E) max v w :
  ok_or (try_from_uint max v) e = Ok w ↔ w = v ∧ v ≤ max.
Proof. rewrite <- try_from_uint_Some. destruct (try_from_uint max v); simpl; naive_solver. Qed.

(** *** Little-endian integers *)

Lemma le_bytes_ok n v : bytes_ok (le_bytes n v).
Proof.
  revert v. induction n as [|n IH]; intros v; simpl; constructor; [|apply IH].
  pose proof (Z.mod_pos_bound v 256). unfold is_byte. lia.
Qed.

Lemma from_le_bytes_mod n v : from_le_bytes (le_bytes n v) = v mod 256 ^ Z.of_nat n.
Proof.
  revert v. induction n as [|n IH]; intros v; [by rewrite Z.mod_1_r|].
  cbn [le_bytes from_le_bytes]. rewrite IH, Nat2Z.inj_succ, Z.pow_succ_r by lia.
  rewrite Z.rem_mul_r; [done|lia|apply Z.pow_pos_nonneg; lia].
Qed.

(** Writing an integer of the width and reading it back. *)
Lemma from_le_bytes_le n v : 0 ≤ v < 256 ^ Z.of_nat n → from_le_bytes (le_bytes n v) = v.
Proof. intros Hv. rewrite from_le_bytes_mod. by apply Z.mod_small. Qed.

Lemma from_le_bytes_bounds bytes :
  bytes_ok bytes → 0 ≤ from_le_bytes bytes < 256 ^ len_of bytes.
Proof.
  unfold len_of. induction 1 as [|b bytes Hb _ IH]; [simpl; lia|].
  cbn [from_le_bytes length]. rewrite Nat2Z.inj_succ, Z.pow_succ_r by lia. unfold is_byte in Hb. lia.
Qed.

(** Reading and writing again: an integer has one encoding of each width. *)
Lemma le_bytes_from bytes :
  bytes_ok bytes → le_bytes (length bytes) (from_le_bytes bytes) = bytes.
Proof.
  induction 1 as [|b bytes Hb _ IH]; [done|]. cbn [length le_bytes from_le_bytes].
  unfold is_byte in Hb.
  rewrite (Z.mul_comm 256), Z.mod_add, Z.div_add by lia.
  rewrite Z.mod_small, Z.div_small by lia. by rewrite Z.add_0_l, IH.
Qed.

Lemma from_le_bytes_zeros n : from_le_bytes (replicate n 0) = 0.
Proof. induction n as [|n IH]; simpl; lia. Qed.

Lemma from_le_bytes_app a b :
  from_le_bytes (a ++ b) = from_le_bytes a + 256 ^ len_of a * from_le_bytes b.
Proof.
  unfold len_of. induction a as [|x a IH]; simpl; [lia|].
  rewrite IH. change (Z.pos (Pos.of_succ_nat (length a))) with (Z.of_nat (S (length a))).
  rewrite Nat2Z.inj_succ, Z.pow_succ_r by lia. lia.
Qed.

(** *** Text *)

Lemma byte_val_bounds b : is_byte (byte_val b).
Proof.
  unfold is_byte, byte_val. pose proof (N_ascii_bounded b). lia.
Qed.

Lemma str_bytes_ok s : bytes_ok (str_bytes s).
Proof. induction s as [|b s IH]; simpl; constructor; [apply byte_val_bounds|done]. Qed.

Lemma bytes_str_bytes s : bytes_str (str_bytes s) = s.
Proof.
  induction s as [|b s IH]; simpl; [done|]. rewrite IH. unfold byte_val.
  by rewrite N2Z.id, ascii_N_embedding.
Qed.

Lemma str_bytes_str bytes : bytes_ok bytes → str_bytes (bytes_str bytes) = bytes.
Proof.
  induction 1 as [|b bytes Hb _ IH]; simpl; [done|]. rewrite IH. f_equal. unfold byte_val, is_byte in *.
  rewrite N_ascii_embedding by lia. lia.
Qed.

Lemma str_bytes_app s t : str_bytes (s +:+ t) = str_bytes s ++ str_bytes t.
Proof. induction s as [|c s IH]; [done|]. rewrite string_cons_app. cbn. by rewrite IH. Qed.

Lemma str_bytes_length s : length (str_bytes s) = byte_len s.
Proof. induction s as [|b s IH]; simpl; by rewrite ?IH. Qed.

Lemma bytes_str_length bytes : byte_len (bytes_str bytes) = length bytes.
Proof. induction bytes as [|b bytes IH]; simpl; by rewrite ?IH. Qed.

Lemma bytes_str_app a b : bytes_str (a ++ b) = bytes_str a +:+ bytes_str b.
Proof. induction a as [|x a IH]; simpl; [done|by rewrite IH]. Qed.

Lemma bytes_str_take n bytes : bytes_str (take n bytes) = str_take n (bytes_str bytes).
Proof. revert n. induction bytes as [|b l IH]; intros [|n]; simpl; by rewrite ?IH. Qed.

Lemma bytes_str_drop n bytes : bytes_str (drop n bytes) = str_drop n (bytes_str bytes).
Proof. revert n. induction bytes as [|b l IH]; intros [|n]; simpl; auto. Qed.

(** A range of the bytes and of their text. *)
Lemma bytes_str_slice i j bytes :
  bytes_str <$> slice_get i j bytes = str_slice i j (bytes_str bytes).
Proof.
  unfold slice_get, str_slice. rewrite bytes_str_length.
  destruct (_ && _); simpl; [|done]. by rewrite bytes_str_take, bytes_str_drop.
Qed.

(** ** What a reader consumes

    [consumes m x a]: at any place of any section, [m] reads exactly the bytes
    [x] there and yields [a]. *)

Definition consumes {A} (m : Reads A) (x : list Z) (a : A) : Prop :=
  ∀ pre post, len_of (pre ++ x ++ post) ≤ usize_max →
    m (mkCursor (pre ++ x ++ post) (len_of pre)) =
    (Ok a, mkCursor (pre ++ x ++ post) (len_of pre + len_of x)).

Lemma consumes_ret {A} (a : A) : consumes (st_ret a) [] a.
Proof. intros pre post _. unfold st_ret. by rewrite Z.add_0_r. Qed.

Lemma consumes_bind {A B} (m : Reads A) (f : A → Reads B) x y a b :
  consumes m x a → consumes (f a) y b → consumes (st_bind m f) (x ++ y) b.
Proof.
  intros Hm Hf pre post Hlen. unfold st_bind. rewrite <- app_assoc in *. rewrite Hm by done.
  replace (pre ++ x ++ y ++ post) with ((pre ++ x) ++ y ++ post) in * by by rewrite <- app_assoc.
  rewrite <- len_of_app, Hf by done. rewrite !len_of_app. f_equal. f_equal. lia.
Qed.

Lemma consumes_array n x : length x = n → consumes (read_array n) x x.
Proof.
  intros <- pre post Hlen. unfold read_array. cbn [cursor_offset cursor_bytes].
  rewrite (proj2 (checked_add_usize_Ok (len_of pre) (Z.of_nat (length x))
                    (len_of pre + len_of x))).
  - by rewrite get_range_app.
  - split; [done|]. rewrite !len_of_app in Hlen. pose proof (len_of_nonneg post). unfold len_of in *. lia.
Qed.

Lemma consumes_uint n v :
  0 ≤ v < 256 ^ Z.of_nat n → consumes (read_uint n) (le_bytes n v) v.
Proof.
  intros Hv. rewrite <- (app_nil_r (le_bytes n v)). eapply consumes_bind.
  - apply consumes_array, le_bytes_length.
  - rewrite from_le_bytes_le by done. apply consumes_ret.
Qed.

Lemma consumes_u16 v : 0 ≤ v ≤ u16_max → consumes read_u16 (le_bytes 2 v) v.
Proof. intros Hv. apply consumes_uint. unfold u16_max in Hv. lia. Qed.

Lemma consumes_u32 v : 0 ≤ v ≤ u32_max → consumes read_u32 (le_bytes 4 v) v.
Proof. intros Hv. apply consumes_uint. unfold u32_max in Hv. lia. Qed.

Lemma consumes_u64 v : 0 ≤ v ≤ u64_max → consumes read_u64 (le_bytes 8 v) v.
Proof. intros Hv. apply consumes_uint. unfold u64_max in Hv. lia. Qed.

Lemma consumes_lift {A} (a : A) : consumes (st_lift (Ok a)) [] a.
Proof. apply consumes_ret. Qed.

(** A check between two reads. *)
Lemma consumes_check {A B} (r : sresult A) (f : A → Reads B) y a b :
  r = Ok a → consumes (f a) y b → consumes (st_bind (st_lift r) f) y b.
Proof. intros -> Hf. apply (consumes_bind _ _ [] y a); [apply consumes_lift|done]. Qed.

(** The last read of a decoder. *)
Lemma consumes_last {A B} (m : Reads A) (f : A → Reads B) x a b :
  consumes m x a → consumes (f a) [] b → consumes (st_bind m f) x b.
Proof. intros Hm Hf. rewrite <- (app_nil_r x). by eapply consumes_bind. Qed.

Lemma consumes_times {A B} (m : Reads A) (enc : B → list Z) (f : B → A) (l : list B) :
  (∀ b, b ∈ l → consumes m (enc b) (f b)) →
  consumes (read_times (length l) m) (concat (enc <$> l)) (f <$> l).
Proof.
  induction l as [|b l IH]; intros Hm; [apply consumes_ret|]. simpl.
  eapply consumes_bind; [apply Hm; by left|].
  rewrite <- (app_nil_r (concat _)). eapply consumes_bind; [|apply consumes_ret].
  apply IH. intros c Hc. apply Hm. by right.
Qed.

Lemma consumes_each {A} (m : Reads A) (enc : A → list Z) (l : list A) :
  (∀ a, a ∈ l → consumes m (enc a) a) → consumes (read_times (length l) m) (concat (enc <$> l)) l.
Proof. intros Hm. pose proof (consumes_times m enc (λ a, a) l Hm) as E. by rewrite list_fmap_id in E. Qed.

(** On a fresh cursor over exactly those bytes nothing is left. *)
Lemma consumes_all {A} (m : Reads A) x a :
  consumes m x a → len_of x ≤ usize_max →
  m (cursor_new x) = (Ok a, mkCursor x (len_of x)).
Proof.
  intros Hm Hx. pose proof (Hm [] []) as E. cbn [app] in E. rewrite app_nil_r in E. by apply E.
Qed.

Lemma consumes_prefix {A} (m : Reads A) x post a :
  consumes m x a → len_of (x ++ post) ≤ usize_max →
  m (cursor_new (x ++ post)) = (Ok a, mkCursor (x ++ post) (len_of x)).
Proof. intros Hm Hx. by apply (Hm [] post). Qed.

(** ** What a successful read says of the bytes *)

Lemma read_array_Ok n c a c' :
  read_array n c = (Ok a, c') → 0 ≤ cursor_offset c →
  c' = mkCursor (cursor_bytes c) (cursor_offset c + Z.of_nat n) ∧ length a = n ∧
  get_range (cursor_offset c) (cursor_offset c + Z.of_nat n) (cursor_bytes c) = Some a.
Proof.
  unfold read_array. intros E Hc.
  destruct (checked_add_usize _ _) as [last|] eqn:El; [|done].
  apply checked_add_usize_Ok in El as [-> _].
  destruct (get_range _ _ _) as [s|] eqn:Es; [|done]. injection E as <- <-.
  assert (0 ≤ cursor_offset c + Z.of_nat n) as Hj by lia.
  pose proof (get_range_Some _ _ _ _ Hc Hj Es) as (pre & post & _ & _ & Hl & _).
  split_and!; [done|unfold len_of in Hl; lia|done].
Qed.

(** [yields m Q]: what [m] returns from a section of bytes satisfies [Q]. *)
Definition cursor_ok (c : BinaryCursor) : Prop := bytes_ok (cursor_bytes c) ∧ 0 ≤ cursor_offset c.

Definition yields {A} (m : Reads A) (Q : A → Prop) : Prop :=
  ∀ c a c', cursor_ok c → m c = (Ok a, c') → Q a ∧ cursor_ok c'.

Lemma yields_ret {A} (a : A) (Q : A → Prop) : Q a → yields (st_ret a) Q.
Proof. by intros HQ c b c' Hc [= <- <-]. Qed.

Lemma yields_bind {A B} (m : Reads A) (f : A → Reads B) (P : A → Prop) (Q : B → Prop) :
  yields m P → (∀ a, P a → yields (f a) Q) → yields (st_bind m f) Q.
Proof.
  intros Hm Hf c b c' Hc (a & c1 & E1 & E2)%st_bind_Ok.
  destruct (Hm _ _ _ Hc E1) as [Ha Hc1]. by apply (Hf a Ha c1).
Qed.

Lemma yields_lift {A} (r : sresult A) (Q : A → Prop) :
  (∀ a, r = Ok a → Q a) → yields (st_lift r) Q.
Proof. intros HQ c a c' Hc [= -> <-]. auto. Qed.

Lemma yields_weaken {A} (m : Reads A) (P Q : A → Prop) :
  yields m P → (∀ a, P a → Q a) → yields m Q.
Proof. intros Hm HPQ c a c' Hc E. destruct (Hm _ _ _ Hc E). auto. Qed.

Lemma bytes_ok_sublist pre s post : bytes_ok (pre ++ s ++ post) → bytes_ok s.
Proof. unfold bytes_ok. rewrite !Forall_app. tauto. Qed.

Lemma get_range_bytes_ok i j bytes s :
  0 ≤ i → 0 ≤ j → bytes_ok bytes → get_range i j bytes = Some s → bytes_ok s.
Proof.
  intros Hi Hj Hb (pre & post & -> & _)%get_range_Some; [|done..]. by eapply bytes_ok_sublist.
Qed.

Lemma yields_array n : yields (read_array n) (λ a, length a = n ∧ bytes_ok a).
Proof.
  intros c a c' [Hb Ho] E. destruct (read_array_Ok _ _ _ _ E Ho) as (-> & Hl & Hg).
  apply get_range_bytes_ok in Hg; [|done|lia|done]. split; [done|]. split; [done|]. cbn. lia.
Qed.

Lemma yields_uint n : yields (read_uint n) (λ v, 0 ≤ v < 256 ^ Z.of_nat n).
Proof.
  eapply yields_bind; [apply yields_array|]. intros a [Hl Ha]. apply yields_ret.
  apply from_le_bytes_bounds in Ha. unfold len_of in Ha. by rewrite Hl in Ha.
Qed.

Lemma yields_times {A} n (m : Reads A) (Q : A → Prop) :
  yields m Q → yields (read_times n m) (λ l, length l = n ∧ Forall Q l).
Proof.
  intros Hm. induction n as [|n IH]; [by apply yields_ret|]. cbn [read_times].
  eapply yields_bind; [exact Hm|]. intros a Ha. eapply yields_bind; [exact IH|].
  intros l [Hl HQ]. apply yields_ret. simpl. split; [lia|by constructor].
Qed.

Lemma yields_all {A} (m : Reads A) Q bytes a :
  yields m Q → bytes_ok bytes → read_all m bytes = Ok a → Q a.
Proof.
  unfold read_all. intros Hm Hb E. destruct (m (cursor_new bytes)) as [r c'] eqn:Em. cbn in E. subst r.
  apply (Hm _ _ _ (conj Hb (Z.le_refl 0) : cursor_ok (cursor_new bytes)) Em).
Qed.

(** Step through a decoder: an integer, or the success of a check. *)
Ltac reads_uint := eapply yields_bind; [apply yields_uint|cbv beta].
Ltac reads_check :=
  eapply yields_bind; [apply yields_lift; let Ha := fresh in intros ? Ha; exact Ha|cbv beta].
