(* ===== verification/Snapshot.v ===== *)
(** * The envelope of a snapshot artifact (src/src/snapshot.rs)

    Header, section directory, sections and footer: the writer of a [.szsnap]
    payload and the reader that accepts or refuses one, the options of saving
    and loading, and the schema section. What the relationship sections hold is
    in [SnapshotStore] and [SnapshotIndexes]. *)

From S2P Require Import Prelude Model Domain Revision StoreTypes Schema Posting Store EvalContext.
From S2P Require Import Dsl Legacy SnapshotBytes.

Local Open Scope Z_scope.

(** ** Constants *)

Definition MAGIC_PREFIX : list Z := str_bytes "SZSNAP" ++ [0].
Definition FORMAT_V2_MAGIC : list Z := str_bytes "SZSNAP" ++ [0; 2].
Definition FORMAT_V3_MAGIC : list Z := str_bytes "SZSNAP" ++ [0; 3].
Definition HEADER_LEN : Z := 76.
Definition DIRECTORY_ENTRY_LEN : Z := 28.
Definition FOOTER_LEN : Z := 32.
Definition REQUIRED_SECTION_COUNT : Z := 11.
Definition MAX_SCHEMA_BYTES : Z := 4 * 1024 * 1024.
Definition DEFAULT_MAX_FILE_BYTES : Z := 2 * 1024 * 1024 * 1024.
Definition DEFAULT_ZSTD_LEVEL : Z := 3.

(** ** Options *)

Inductive SnapshotCompression := CompressionNone | CompressionZstd.

Inductive SnapshotEncodingLayout := Compact | CompressionFriendly.

Record SnapshotSaveOptions := mkSaveOptions {
  save_compression : SnapshotCompression;
  zstd_level : Z;
  include_indexes : bool;
  save_index_profile : IndexProfile
}.

Definition save_options_default : SnapshotSaveOptions :=
  mkSaveOptions CompressionNone DEFAULT_ZSTD_LEVEL true Full.
Definition save_options_zstd : SnapshotSaveOptions :=
  mkSaveOptions CompressionZstd DEFAULT_ZSTD_LEVEL true Full.
Definition with_zstd_level (o : SnapshotSaveOptions) (level : Z) : SnapshotSaveOptions :=
  mkSaveOptions (save_compression o) level (include_indexes o) (save_index_profile o).

Definition section_layout (o : SnapshotSaveOptions) : SnapshotEncodingLayout :=
  match save_compression o with
  | CompressionNone => Compact
  | CompressionZstd => CompressionFriendly
  end.

Inductive SnapshotLoadProfile := FastLoad | Latency.
Inductive SnapshotValidationMode := ValidationFull | TrustedFastLoad.
Inductive SnapshotIntegrityMode := Checksum | External.

(** [NonZeroU64] *)
Record NonZeroU64 := mkNonZeroU64 {
  nzu64_get : Z;
  nzu64_bounds : Is_true (in_range 1 u64_max nzu64_get)
}.

Record SnapshotLoadOptions := mkLoadOptions {
  load_compression : SnapshotCompression;
  load_profile : SnapshotLoadProfile;
  validation : SnapshotValidationMode;
  integrity : SnapshotIntegrityMode;
  max_file_bytes : NonZeroU64;
  required_index_profile : IndexProfile
}.

Definition load_options_default : SnapshotLoadOptions :=
  mkLoadOptions CompressionNone FastLoad ValidationFull Checksum
    (mkNonZeroU64 DEFAULT_MAX_FILE_BYTES I) Full.

#[global] Instance SnapshotCompression_eq_dec : EqDecision SnapshotCompression.
Proof. solve_decision. Defined.
#[global] Instance SnapshotLoadProfile_eq_dec : EqDecision SnapshotLoadProfile.
Proof. solve_decision. Defined.
#[global] Instance SnapshotValidationMode_eq_dec : EqDecision SnapshotValidationMode.
Proof. solve_decision. Defined.
#[global] Instance SnapshotIntegrityMode_eq_dec : EqDecision SnapshotIntegrityMode.
Proof. solve_decision. Defined.
#[global] Instance IndexProfile_eq_dec : EqDecision IndexProfile.
Proof. solve_decision. Defined.

Definition validate_load_options (o : SnapshotLoadOptions) : sresult unit :=
  _ ← guard_err (bool_decide (validation o = TrustedFastLoad) &&
                 negb (bool_decide (load_profile o = FastLoad)))
        (SUnsupportedOption "trusted validation with latency profile");
  guard_err (bool_decide (integrity o = External) &&
             negb (bool_decide (validation o = TrustedFastLoad)))
    (SUnsupportedOption "external integrity without trusted validation").

(** ** Index profiles *)

Definition profile_flag_bits (p : IndexProfile) : Z :=
  match p with Full => 0 | CheckOnly => 1 | CheckAndObjectAudit => 2 end.

Definition profile_from_flag_bits (value : Z) : sresult IndexProfile :=
  match value with
  | 0 => Ok Full
  | 1 => Ok CheckOnly
  | 2 => Ok CheckAndObjectAudit
  | _ => Err (SFormat "snapshot index profile is unsupported")
  end.

Definition supports_broad_resource_indexes (p : IndexProfile) : bool :=
  match p with Full => true | _ => false end.

Definition satisfies (p required : IndexProfile) : bool :=
  match p, required with
  | Full, _ => true
  | CheckAndObjectAudit, (CheckAndObjectAudit | CheckOnly) => true
  | CheckOnly, CheckOnly => true
  | _, _ => false
  end.

(** ** Format versions *)

Inductive SnapshotFormatVersion := V2 | V3.

#[global] Instance SnapshotFormatVersion_eq_dec : EqDecision SnapshotFormatVersion.
Proof. solve_decision. Defined.

Definition CURRENT_FORMAT_VERSION : SnapshotFormatVersion := V3.

Definition version_raw (v : SnapshotFormatVersion) : Z := match v with V2 => 2 | V3 => 3 end.
Definition version_magic (v : SnapshotFormatVersion) : list Z :=
  match v with V2 => FORMAT_V2_MAGIC | V3 => FORMAT_V3_MAGIC end.

Definition version_from_header (magic : list Z) (version : Z) : sresult SnapshotFormatVersion :=
  prefix ← ok_or (get_range 0 (len_of MAGIC_PREFIX) magic) (SFormat "snapshot magic is invalid");
  _ ← guard_err (negb (bool_decide (prefix = MAGIC_PREFIX))) (SFormat "snapshot magic is invalid");
  if bool_decide (magic = FORMAT_V2_MAGIC) && (version =? 2) then Ok V2
  else if bool_decide (magic = FORMAT_V3_MAGIC) && (version =? 3) then Ok V3
  else Err (SFormat "snapshot format version is unsupported").

(** ** Sections *)

Inductive SectionKind :=
| Schema | SymbolBytes | SymbolTable | RelationshipRows | IndexDirectory | IndexKeys
| PostingRanges | PostingRowIds | SymbolHashes | SymbolLookup | Footer.

#[global] Instance SectionKind_eq_dec : EqDecision SectionKind.
Proof. solve_decision. Defined.

Definition kind_raw (k : SectionKind) : Z :=
  match k with
  | Schema => 1 | SymbolBytes => 2 | SymbolTable => 3 | RelationshipRows => 4
  | IndexDirectory => 5 | IndexKeys => 6 | PostingRanges => 7 | PostingRowIds => 8
  | SymbolHashes => 9 | SymbolLookup => 10 | Footer => 11
  end.

Definition kind_from_raw (value : Z) : sresult SectionKind :=
  match value with
  | 1 => Ok Schema | 2 => Ok SymbolBytes | 3 => Ok SymbolTable | 4 => Ok RelationshipRows
  | 5 => Ok IndexDirectory | 6 => Ok IndexKeys | 7 => Ok PostingRanges | 8 => Ok PostingRowIds
  | 9 => Ok SymbolHashes | 10 => Ok SymbolLookup | 11 => Ok Footer
  | _ => Err (SFormat "unknown snapshot section kind")
  end.

Definition section_slot (k : SectionKind) : nat := Z.to_nat (kind_raw k - 1).

(** The order of [validate_required_sections]. *)
Definition REQUIRED_SECTIONS : list SectionKind :=
  [Schema; SymbolBytes; SymbolTable; RelationshipRows; IndexDirectory; IndexKeys;
   PostingRanges; PostingRowIds; SymbolHashes; SymbolLookup; Footer].

Record SnapshotHeader := mkHeader {
  format_version : SnapshotFormatVersion;
  header_schema_hash : SchemaHash;
  relationship_count : Z;
  symbol_count : Z;
  created_revision : Revision;
  header_index_profile : IndexProfile
}.

Record SnapshotSection := mkSection {
  section_bytes : list Z;
  section_flags : Z;
  section_row_count : Z
}.

(** [[Option<SnapshotSection>; REQUIRED_SECTION_COUNT]] *)
Abbreviation SnapshotSections := (list (option SnapshotSection)).

Definition empty_sections : SnapshotSections := replicate 11 None.

(** [sections.get(section_slot(kind)).copied().flatten()] *)
Definition section_get (sections : SnapshotSections) (k : SectionKind) : option SnapshotSection :=
  default None (sections !! section_slot k).

Record SnapshotReader := mkReader {
  reader_header : SnapshotHeader;
  reader_sections : SnapshotSections
}.

(** [SnapshotReader::section] *)
Definition reader_section (r : SnapshotReader) (k : SectionKind) : sresult SnapshotSection :=
  ok_or (section_get (reader_sections r) k) (SFormat "missing required snapshot section").

(** ** The section writer *)

Record SectionPayload := mkPayload {
  payload_kind : SectionKind;
  payload_flags : Z;
  payload_bytes : list Z;
  payload_row_count : Z
}.

(** [SnapshotSectionWriter] *)
Abbreviation SectionWriter := (list SectionPayload).

Definition has_kind (k : SectionKind) (p : SectionPayload) : bool :=
  bool_decide (payload_kind p = k).

Definition add_section_with_flags (k : SectionKind) (flags : Z) (bytes : list Z) (row_count : Z)
    (w : SectionWriter) : sresult SectionWriter :=
  _ ← guard_err (existsb (has_kind k) w) (SFormat "duplicate snapshot section");
  Ok (w ++ [mkPayload k flags bytes row_count]).

Definition add_section (k : SectionKind) (bytes : list Z) (row_count : Z) (w : SectionWriter)
    : sresult SectionWriter :=
  add_section_with_flags k 0 bytes row_count w.

Definition writer_row_count (k : SectionKind) (w : SectionWriter) : sresult Z :=
  ok_or (payload_row_count <$> List.find (has_kind k) w)
    (SFormat "missing required snapshot section").

(** [slice::sort_by] with a comparison given as "at most": a stable sort. *)
Fixpoint insert_by {A} (leb : A → A → bool) (x : A) (l : list A) : list A :=
  match l with
  | [] => [x]
  | y :: l => if leb x y then x :: y :: l else y :: insert_by leb x l
  end.

Definition sort_by {A} (leb : A → A → bool) (l : list A) : list A := foldr (insert_by leb) [] l.

Definition sort_by_key {A} (key : A → Z) (l : list A) : list A :=
  sort_by (λ x y, key x <=? key y) l.

Definition into_sorted_sections (w : SectionWriter) : SectionWriter :=
  sort_by_key (λ p, kind_raw (payload_kind p)) w.

(** ** The writer of a payload *)

Record SectionDirectoryEntry := mkEntry {
  entry_kind : SectionKind;
  entry_flags : Z;
  entry_offset : Z;
  entry_len : Z;
  entry_row_count : Z
}.

Definition snapshot_sections_with_footer (w : SectionWriter) : sresult SectionWriter :=
  let sections := into_sorted_sections w ++ [mkPayload Footer 0 (replicate 32 0) 1] in
  _ ← guard_err (negb (len_of sections =? REQUIRED_SECTION_COUNT))
        (SFormat "snapshot writer did not produce all required sections");
  Ok sections.

(** The loop of [section_directory]. *)
Fixpoint directory_loop (next_offset : Z) (sections : SectionWriter)
    : sresult (list SectionDirectoryEntry) :=
  match sections with
  | [] => Ok []
  | p :: sections =>
      let len := len_of (payload_bytes p) in
      offset ← checked_u64_from_usize next_offset;
      len64 ← checked_u64_from_usize len;
      next_offset ← checked_add_usize next_offset len;
      entries ← directory_loop next_offset sections;
      Ok (mkEntry (payload_kind p) (payload_flags p) offset len64 (payload_row_count p) :: entries)
  end.

Definition section_directory (sections : SectionWriter) : sresult (list SectionDirectoryEntry) :=
  directory_len ← checked_mul_usize (len_of sections) DIRECTORY_ENTRY_LEN;
  next_offset ← checked_add_usize HEADER_LEN directory_len;
  directory_loop next_offset sections.

Definition directory_file_len (directory : list SectionDirectoryEntry) : sresult Z :=
  last ← ok_or (last directory) (SFormat "snapshot directory is empty");
  ok_or (checked_add u64_max (entry_offset last) (entry_len last))
    (SFormat "snapshot writer length overflowed").

(** The bytes [write_header] appends. *)
Definition write_header (schema_hash : SchemaHash) (relationship_count symbol_count : Z)
    (revision : Revision) (file_len : Z) (index_profile : IndexProfile) : list Z :=
  version_magic CURRENT_FORMAT_VERSION ++ le_bytes 2 (version_raw CURRENT_FORMAT_VERSION) ++
  le_bytes 2 (profile_flag_bits index_profile) ++ le_bytes 4 HEADER_LEN ++
  le_bytes 4 REQUIRED_SECTION_COUNT ++ le_bytes 8 file_len ++ array_bytes schema_hash ++
  le_bytes 4 relationship_count ++ le_bytes 4 symbol_count ++ le_bytes 8 (rev_get revision).

(** The bytes [write_directory_entry] appends. *)
Definition write_directory_entry (e : SectionDirectoryEntry) : list Z :=
  le_bytes 2 (kind_raw (entry_kind e)) ++ le_bytes 2 (entry_flags e) ++
  le_bytes 8 (entry_offset e) ++ le_bytes 8 (entry_len e) ++ le_bytes 8 (entry_row_count e).

(** [slice.get_mut(start..end)] followed by [copy_from_slice] of as many bytes. *)
Definition splice (first last : Z) (new bytes : list Z) : option (list Z) :=
  _ ← get_range first last bytes;
  Some (take (Z.to_nat first) bytes ++ new ++ drop (Z.to_nat last) bytes).

(** What the writers read of the published snapshot. *)
Record ArtifactId := mkArtifactId {
  artifact_schema_hash : SchemaHash;
  artifact_revision : Revision
}.

Section writer.
Context `{Blake3}.

(** [encode_file]: the whole payload in memory, the digest patched in. *)
Definition encode_file (snapshot : ArtifactId) (w : SectionWriter) (index_profile : IndexProfile)
    : sresult (list Z) :=
  rows ← writer_row_count RelationshipRows w;
  relationship_count ← checked_u32_from_u64 rows;
  symbols ← writer_row_count SymbolTable w;
  symbol_count ← checked_u32_from_u64 symbols;
  sections ← snapshot_sections_with_footer w;
  directory ← section_directory sections;
  file_len ← directory_file_len directory;
  file_len_usize ← checked_usize_from_u64 file_len;
  let bytes :=
    write_header (artifact_schema_hash snapshot) relationship_count symbol_count
      (artifact_revision snapshot) file_len index_profile ++
    concat (write_directory_entry <$> directory) ++ concat (payload_bytes <$> sections) in
  _ ← guard_err (negb (len_of bytes =? file_len_usize)) (SFormat "snapshot writer length mismatch");
  footer ← ok_or (List.find (λ e, bool_decide (entry_kind e = Footer)) directory)
             (SFormat "missing footer section");
  footer_offset ← checked_usize_from_u64 (entry_offset footer);
  hashed ← ok_or (get_range 0 footer_offset bytes) (SFormat "footer offset is invalid");
  let digest := blake3 hashed in
  footer_end ← checked_add_usize footer_offset FOOTER_LEN;
  ok_or (splice footer_offset footer_end (array_bytes digest) bytes)
    (SFormat "footer range is invalid").

(** The file, the hasher's input and the count that [write_hashed] advances.
    The hasher's state is the bytes it was fed. *)
Record Stream := mkStream { stream_file : list Z; stream_hashed : list Z; stream_written : Z }.

Definition write_hashed (bytes : list Z) (s : Stream) : sresult Stream :=
  len ← checked_u64_from_usize (len_of bytes);
  written ← ok_or (checked_add u64_max (stream_written s) len)
              (SFormat "snapshot writer length overflowed");
  Ok (mkStream (stream_file s ++ bytes) (stream_hashed s ++ bytes) written).

(** The body of the loop over the sections. *)
Definition write_section (s : Stream) (p : SectionPayload) : sresult Stream :=
  if bool_decide (payload_kind p = Footer) then
    written ← ok_or (checked_add u64_max (stream_written s) FOOTER_LEN)
                (SFormat "snapshot writer length overflowed");
    Ok (mkStream (stream_file s ++ array_bytes (blake3 (stream_hashed s))) (stream_hashed s) written)
  else write_hashed (payload_bytes p) s.

(** [write_uncompressed_snapshot_file_inner]: the bytes written to the file. *)
Definition stream_file_bytes (snapshot : ArtifactId) (w : SectionWriter)
    (index_profile : IndexProfile) : sresult (list Z) :=
  rows ← writer_row_count RelationshipRows w;
  relationship_count ← checked_u32_from_u64 rows;
  symbols ← writer_row_count SymbolTable w;
  symbol_count ← checked_u32_from_u64 symbols;
  sections ← snapshot_sections_with_footer w;
  directory ← section_directory sections;
  file_len ← directory_file_len directory;
  let header := write_header (artifact_schema_hash snapshot) relationship_count symbol_count
                  (artifact_revision snapshot) file_len index_profile in
  _ ← checked_mul_usize (len_of directory) DIRECTORY_ENTRY_LEN;
  let directory_bytes := concat (write_directory_entry <$> directory) in
  s ← write_hashed header (mkStream [] [] 0);
  s ← write_hashed directory_bytes s;
  s ← try_fold write_section s sections;
  _ ← guard_err (negb (stream_written s =? file_len)) (SFormat "snapshot writer length mismatch");
  Ok (stream_file s).
End writer.

(** ** The reader *)

(** The fields after the header's first [HEADER_LEN] bytes were cut off;
    [actual_len] is the length of the whole payload. *)
Definition read_header (actual_len : Z) : Reads SnapshotHeader :=
  let! magic := read_array 8 in
  let! version := read_u16 in
  let! format_version := st_lift (version_from_header magic version) in
  let! flags := read_u16 in
  let! index_profile := st_lift (profile_from_flag_bits flags) in
  let! header_len := read_u32 in
  let! _ := st_lift (guard_err (negb (header_len =? HEADER_LEN))
                       (SFormat "snapshot header length is unsupported")) in
  let! section_count := read_u32 in
  let! _ := st_lift (guard_err (negb (section_count =? REQUIRED_SECTION_COUNT))
                       (SFormat "snapshot section count is unsupported")) in
  let! file_len := read_u64 in
  let! actual := st_lift (checked_u64_from_usize actual_len) in
  let! _ := st_lift (guard_err (negb (file_len =? actual))
                       (SFormat "snapshot file length does not match header")) in
  let! hash := read_array 32 in
  (* [SchemaHash::from_bytes] of 32 bytes *)
  let! schema_hash := st_lift (ok_or (byte_array_new 32 hash)
                                 (SFormat "snapshot section is truncated")) in
  let! relationship_count := read_u32 in
  let! symbol_count := read_u32 in
  let! revision_raw := read_u64 in
  let! revision := st_lift (ok_or (revision_new revision_raw)
                              (SFormat "snapshot revision must be non-zero")) in
  st_ret (mkHeader format_version schema_hash relationship_count symbol_count revision
            index_profile).

Definition parse_header (bytes : list Z) : sresult SnapshotHeader :=
  header ← ok_or (get_range 0 HEADER_LEN bytes) (SFormat "snapshot header is truncated");
  read_all (read_header (len_of bytes)) header.

Definition parse_section_count (bytes : list Z) : sresult Z :=
  last ← checked_add_usize 16 4;
  count_bytes ← ok_or (get_range 16 last bytes) (SFormat "snapshot section count is missing");
  checked_usize_from_u32 (from_le_bytes count_bytes).

Definition validate_section_flags (version : SnapshotFormatVersion) (k : SectionKind) (flags : Z)
    : sresult unit :=
  if flags =? 0 then Ok tt
  else if bool_decide (version = V3) &&
          match k with SymbolTable | RelationshipRows | SymbolLookup => true | _ => false end
  then Ok tt
  else Err (SFormat "section flags are unsupported").

(** The directory as read so far: the slots and the ranges. *)
Record DirectoryState := mkDirectory {
  dir_entries : list (Z * Z * SectionKind);
  dir_sections : SnapshotSections
}.

(** The body of the loop over the directory. *)
Definition read_directory_entry (bytes : list Z) (version : SnapshotFormatVersion)
    (directory_end : Z) (d : DirectoryState) : Reads DirectoryState :=
  let! raw_kind := read_u16 in
  let! kind := st_lift (kind_from_raw raw_kind) in
  let! flags := read_u16 in
  let! _ := st_lift (validate_section_flags version kind flags) in
  let! offset := read_u64 in
  let! len := read_u64 in
  let! row_count := read_u64 in
  let! _ := st_lift (guard_err (bool_decide (is_Some (section_get (dir_sections d) kind)))
                       (SFormat "duplicate snapshot section")) in
  let! start := st_lift (checked_usize_from_u64 offset) in
  let! length := st_lift (checked_usize_from_u64 len) in
  let! last := st_lift (checked_add_usize start length) in
  let! _ := st_lift (guard_err ((start <? directory_end) || (len_of bytes <? last))
                       (SFormat "snapshot section is out of bounds")) in
  let! slice := st_lift (ok_or (get_range start last bytes)
                           (SFormat "snapshot section range is invalid")) in
  st_ret (mkDirectory (dir_entries d ++ [(offset, len, kind)])
            (<[section_slot kind := Some (mkSection slice flags row_count)]> (dir_sections d))).

Fixpoint read_directory (n : nat) (bytes : list Z) (version : SnapshotFormatVersion)
    (directory_end : Z) (d : DirectoryState) : Reads DirectoryState :=
  match n with
  | O => st_ret d
  | S n =>
      let! d := read_directory_entry bytes version directory_end d in
      read_directory n bytes version directory_end d
  end.

Definition validate_required_sections (sections : SnapshotSections) : sresult unit :=
  try_for (λ k, guard_err (negb (bool_decide (is_Some (section_get sections k))))
                  (SFormat "missing required snapshot section")) REQUIRED_SECTIONS.

(** The loop over the ranges, with [previous_end]. *)
Definition check_range (previous_end : Z) (e : Z * Z * SectionKind) : sresult Z :=
  _ ← guard_err (e.1.1 <? previous_end) (SFormat "snapshot sections overlap");
  ok_or (checked_add u64_max e.1.1 e.1.2) (SFormat "snapshot section range overflowed").

Definition validate_non_overlapping_sections (entries : list (Z * Z * SectionKind))
    : sresult unit :=
  _ ← try_fold check_range 0 (sort_by_key (λ e, e.1.1) entries);
  Ok tt.

Section reader.
Context `{Blake3}.

Definition validate_footer (bytes : list Z) (sections : SnapshotSections)
    (integrity : SnapshotIntegrityMode) : sresult unit :=
  footer ← ok_or (section_get sections Footer) (SFormat "missing footer section");
  _ ← guard_err (negb (len_of (section_bytes footer) =? FOOTER_LEN))
        (SFormat "footer length is invalid");
  footer_start ← ok_or (checked_sub (len_of bytes) FOOTER_LEN) (SFormat "footer range is invalid");
  expected ← ok_or (get_range footer_start (len_of bytes) bytes) (SFormat "footer range is invalid");
  _ ← guard_err (negb (bool_decide (expected = section_bytes footer)))
        (SFormat "footer must be the final section");
  if bool_decide (integrity = External) then Ok tt else
  hashed ← ok_or (get_range 0 footer_start bytes) (SFormat "footer offset is invalid");
  guard_err (negb (bool_decide (array_bytes (blake3 hashed) = section_bytes footer)))
    (SFormat "snapshot checksum mismatch").

(** [SnapshotReader::parse] *)
Definition reader_parse (bytes : list Z) (integrity : SnapshotIntegrityMode)
    : sresult SnapshotReader :=
  header ← parse_header bytes;
  directory_start ← checked_usize_from_u32 HEADER_LEN;
  section_count ← parse_section_count bytes;
  _ ← guard_err (negb (section_count =? REQUIRED_SECTION_COUNT))
        (SFormat "unexpected snapshot section count");
  directory_len ← checked_mul_usize section_count DIRECTORY_ENTRY_LEN;
  directory_end ← checked_add_usize directory_start directory_len;
  directory_bytes ← ok_or (get_range directory_start directory_end bytes)
                      (SFormat "section directory is out of bounds");
  d ← read_all (read_directory (Z.to_nat section_count) bytes (format_version header)
                  directory_end (mkDirectory [] empty_sections)) directory_bytes;
  _ ← validate_required_sections (dir_sections d);
  _ ← validate_non_overlapping_sections (dir_entries d);
  _ ← validate_footer bytes (dir_sections d) integrity;
  Ok (mkReader header (dir_sections d)).

(** [parse_reader] *)
Definition parse_reader (bytes : list Z) (o : SnapshotLoadOptions) : sresult SnapshotReader :=
  reader ← reader_parse bytes (integrity o);
  _ ← guard_err (negb (satisfies (header_index_profile (reader_header reader))
                         (required_index_profile o)))
        (SUnsupportedOption "snapshot index profile does not satisfy load requirements");
  Ok reader.

(** [compile_snapshot_schema] *)
Definition compile_snapshot_schema `{HashOrder, PestParser} (reader : SnapshotReader)
    : sresult (list NamespaceConfig * CompiledSchema * SchemaHash) :=
  section ← reader_section reader Schema;
  _ ← guard_err (MAX_SCHEMA_BYTES <? len_of (section_bytes section))
        (SLimitExceeded "schema section");
  let schema_source := bytes_str (section_bytes section) in
  _ ← guard_err (negb (utf8_valid schema_source)) (SFormat "schema section is not valid utf-8");
  configs ← map_err SSchema (parse_dsl schema_source);
  schema ← map_err SSchema (compile_legacy_configs configs);
  let schema_hash := hash_for_schema schema in
  _ ← guard_err (negb (bool_decide (schema_hash = header_schema_hash (reader_header reader))))
        (SFormat "schema hash does not match schema section");
  Ok (configs, schema, schema_hash).
End reader.
