(* ===== verification/SnapshotProps.v ===== *)
(** * The envelope of a snapshot artifact, verified

    What the writers produce is one closed form, the reader accepts it and
    returns the sections that were written; and what any accepted payload is
    known to be. *)

From S2P Require Import Prelude Model Domain Revision StoreTypes Schema Posting Store EvalContext.
From S2P Require Import Dsl Legacy SnapshotBytes Snapshot.

Local Open Scope Z_scope.

(** Invert successful checks of widths as well. *)
Ltac inv_checked :=
  inv_ok; repeat match goal with
  | H : checked_add_usize _ _ = Ok _ |- _ => apply checked_add_usize_Ok in H as [-> ?]
  | H : checked_mul_usize _ _ = Ok _ |- _ => apply checked_mul_usize_Ok in H as [-> ?]
  | H : checked_usize_from_u32 _ = Ok _ |- _ => apply ok_or_try_from in H as [-> ?]
  | H : checked_usize_from_u64 _ = Ok _ |- _ => apply ok_or_try_from in H as [-> ?]
  | H : checked_u32_from_usize _ = Ok _ |- _ => apply ok_or_try_from in H as [-> ?]
  | H : checked_u32_from_u64 _ = Ok _ |- _ => apply ok_or_try_from in H as [-> ?]
  | H : checked_u64_from_usize _ = Ok _ |- _ => apply ok_or_try_from in H as [-> ?]
  | H : checked_add _ _ _ = Some _ |- _ => apply checked_add_Some in H as [-> ?]
  | H : checked_sub _ _ = Some _ |- _ => apply checked_sub_Some in H as [-> ?]
  | u : unit |- _ => destruct u
  end.

(** ** Stable sorting *)

Section sorting.
Context {A : Type} (leb : A → A → bool).

Lemma insert_by_perm x l : insert_by leb x l ≡ₚ x :: l.
Proof.
  induction l as [|y l IH]; simpl; [done|]. destruct (leb x y); [done|].
  rewrite IH. constructor.
Qed.

Lemma sort_by_perm l : sort_by leb l ≡ₚ l.
Proof. induction l as [|x l IH]; simpl; [done|]. by rewrite insert_by_perm, IH. Qed.

(** A sorted list is left as it is. *)
Lemma sort_by_sorted l : Sorted (λ x y, leb x y = true) l → sort_by leb l = l.
Proof.
  induction 1 as [|x l _ IH Hx]; [done|]. simpl. rewrite IH.
  destruct Hx as [|y l Hy]; simpl; [done|]. by rewrite Hy.
Qed.

Hypothesis leb_total : ∀ x y, leb x y = false → leb y x = true.

Lemma insert_by_sorted x l :
  Sorted (λ x y, leb x y = true) l → Sorted (λ x y, leb x y = true) (insert_by leb x l).
Proof.
  induction 1 as [|y l Hl IH Hy]; simpl; [by repeat constructor|].
  destruct (leb x y) eqn:E; [by repeat constructor|].
  constructor; [done|]. destruct Hy as [|z l Hz]; simpl.
  - constructor. by apply leb_total.
  - destruct (leb x z); constructor; [by apply leb_total|done].
Qed.

Lemma sort_by_is_sorted l : Sorted (λ x y, leb x y = true) (sort_by leb l).
Proof. induction l as [|x l IH]; simpl; [constructor|]. by apply insert_by_sorted. Qed.
End sorting.

(** ** Codes of the header *)

Lemma profile_roundtrip p : profile_from_flag_bits (profile_flag_bits p) = Ok p.
Proof. by destruct p. Qed.

Lemma kind_roundtrip k : kind_from_raw (kind_raw k) = Ok k.
Proof. by destruct k. Qed.

Lemma kind_raw_bounds k : 1 ≤ kind_raw k ≤ 11.
Proof. destruct k; simpl; lia. Qed.

Lemma kind_from_raw_Ok v k : kind_from_raw v = Ok k → v = kind_raw k.
Proof. unfold kind_from_raw. repeat case_match; intros [= <-]; reflexivity. Qed.

Lemma profile_from_Ok v p : profile_from_flag_bits v = Ok p → v = profile_flag_bits p.
Proof. unfold profile_from_flag_bits. repeat case_match; intros [= <-]; reflexivity. Qed.

Lemma section_slot_inj k k' : section_slot k = section_slot k' → k = k'.
Proof. by destruct k, k'. Qed.

Lemma section_slot_bound k : (section_slot k < 11)%nat.
Proof. destruct k; unfold section_slot; simpl; lia. Qed.

Lemma elem_of_required k : k ∈ REQUIRED_SECTIONS.
Proof. by destruct k; repeat (left; done) || right. Qed.

(** ** Slots *)

Lemma section_get_empty k : section_get empty_sections k = None.
Proof. by destruct k. Qed.

Lemma section_get_insert sections k s k' :
  length sections = 11%nat →
  section_get (<[section_slot k := Some s]> sections) k' =
  if decide (k' = k) then Some s else section_get sections k'.
Proof.
  intros Hl. unfold section_get. destruct (decide (k' = k)) as [->|Hk].
  - rewrite list_lookup_insert_eq; [done|]. rewrite Hl. apply section_slot_bound.
  - rewrite list_lookup_insert_ne; [done|]. intros E. by apply section_slot_inj in E.
Qed.

(** ** The closed form of an artifact *)

Section layout.
Context `{Blake3}.

(** A digest of everything before it. *)
Definition sealed (prefix : list Z) : list Z := prefix ++ array_bytes (blake3 prefix).

Definition with_footer (w : SectionWriter) (footer : list Z) : SectionWriter :=
  into_sorted_sections w ++ [mkPayload Footer 0 footer 1].

Definition bodies (sections : SectionWriter) : list Z := concat (payload_bytes <$> sections).
Definition directory_text (es : list SectionDirectoryEntry) : list Z :=
  concat (write_directory_entry <$> es).

Lemma digest_length prefix : len_of (array_bytes (blake3 prefix)) = 32.
Proof. unfold len_of. destruct (byte_array_wf_list (blake3 prefix)) as [-> _]. done. Qed.

Lemma bodies_app a b : bodies (a ++ b) = bodies a ++ bodies b.
Proof. unfold bodies. by rewrite fmap_app, concat_app. Qed.

Lemma bodies_with_footer w f : bodies (with_footer w f) = bodies (into_sorted_sections w) ++ f.
Proof.
  unfold with_footer. rewrite bodies_app. f_equal. unfold bodies. simpl. by rewrite app_nil_r.
Qed.

Lemma directory_loop_length next sections es :
  directory_loop next sections = Ok es → length es = length sections.
Proof.
  revert next es. induction sections as [|p sections IH]; intros next es E; simpl in E; inv_checked;
    [done|]. simpl. f_equal. by eapply IH.
Qed.

(** The directory does not look at the contents, only at their length. *)
Lemma directory_loop_ext next s s' :
  Forall2 (λ p q, payload_kind p = payload_kind q ∧ payload_flags p = payload_flags q ∧
                  len_of (payload_bytes p) = len_of (payload_bytes q) ∧
                  payload_row_count p = payload_row_count q) s s' →
  directory_loop next s = directory_loop next s'.
Proof.
  intros Hs. revert next. induction Hs as [|p q s s' (H1 & H2 & H3 & H4) _ IH]; intros next; [done|].
  cbn [directory_loop]. rewrite H1, H2, H3, H4.
  destruct (checked_u64_from_usize next); [|done]. cbn [mbind result_bind].
  destruct (checked_u64_from_usize _); [|done]. cbn [mbind result_bind].
  destruct (checked_add_usize _ _); [|done]. cbn [mbind result_bind]. by rewrite IH.
Qed.

Lemma section_directory_footer w f g :
  len_of f = len_of g →
  section_directory (with_footer w f) = section_directory (with_footer w g).
Proof.
  intros Hl. unfold section_directory, with_footer.
  assert (len_of (into_sorted_sections w ++ [mkPayload Footer 0 f 1]) =
          len_of (into_sorted_sections w ++ [mkPayload Footer 0 g 1])) as -> by by rewrite !len_of_app.
  destruct (checked_mul_usize _ _); [|done]. cbn [mbind result_bind].
  destruct (checked_add_usize _ _); [|done]. cbn [mbind result_bind].
  apply directory_loop_ext, Forall2_app; [|by repeat constructor].
  by induction (into_sorted_sections w); constructor.
Qed.

(** An entry gives the place of its section in the payload. *)
Definition entry_of (file : list Z) (p : SectionPayload) (e : SectionDirectoryEntry) : Prop :=
  entry_kind e = payload_kind p ∧ entry_flags e = payload_flags p ∧
  entry_row_count e = payload_row_count p ∧ entry_len e = len_of (payload_bytes p) ∧
  0 ≤ entry_offset e ≤ usize_max ∧ entry_len e ≤ usize_max ∧
  entry_offset e + entry_len e ≤ usize_max ∧
  get_range (entry_offset e) (entry_offset e + entry_len e) file = Some (payload_bytes p).

Lemma directory_loop_ok sections es pre post :
  directory_loop (len_of pre) sections = Ok es →
  Forall2 (entry_of (pre ++ bodies sections ++ post)) sections es ∧
  Forall (λ e, len_of pre ≤ entry_offset e) es ∧
  (len_of pre + len_of (bodies sections) ≤ usize_max ∨ sections = []).
Proof.
  revert es pre. induction sections as [|p sections IH]; intros es pre E; simpl in E; inv_checked.
  { split_and!; [constructor|constructor|by right]. }
  rewrite <- len_of_app in *.
  destruct (IH _ _ ltac:(eassumption)) as (He & Ho & Hl).
  assert (bodies (p :: sections) = payload_bytes p ++ bodies sections) as Eb by done.
  rewrite Eb in *.
  replace (pre ++ (payload_bytes p ++ bodies sections) ++ post)
    with ((pre ++ payload_bytes p) ++ bodies sections ++ post) by by rewrite <- !app_assoc.
  pose proof (len_of_nonneg pre). pose proof (len_of_nonneg (payload_bytes p)).
  rewrite len_of_app in *.
  split_and!.
  - constructor; [|done]. unfold entry_of. cbn [entry_kind entry_flags entry_row_count entry_len entry_offset].
    split_and!; try done; try lia. rewrite <- !app_assoc. apply get_range_app.
  - constructor; [simpl; lia|]. eapply Forall_impl; [exact Ho|]. simpl. lia.
  - left. rewrite len_of_app. destruct Hl as [Hl| ->]; [lia|]. simpl. rewrite Z.add_0_r. lia.
Qed.

Lemma directory_loop_snoc next s p es :
  directory_loop next (s ++ [p]) = Ok es →
  ∃ es', es = es' ++ [mkEntry (payload_kind p) (payload_flags p) (next + len_of (bodies s))
                        (len_of (payload_bytes p)) (payload_row_count p)] ∧
         directory_loop next s = Ok es' ∧
         next + len_of (bodies s) + len_of (payload_bytes p) ≤ usize_max.
Proof.
  revert next es. induction s as [|q s IH]; intros next es E; cbn [app directory_loop] in E; inv_checked.
  - exists []. unfold bodies. simpl. rewrite Z.add_0_r. split_and!; [done|done|lia].
  - destruct (IH _ _ ltac:(eassumption)) as (es' & -> & E' & Hl).
    change (bodies (q :: s)) with (payload_bytes q ++ bodies s). rewrite len_of_app.
    eexists (_ :: es'). split_and!; [| |lia].
    + cbn [app]. by rewrite Z.add_assoc.
    + cbn [directory_loop]. unfold checked_u64_from_usize, checked_add_usize, try_from_uint, checked_add.
      rewrite !(proj2 (Z.leb_le _ _)) by lia. cbn [ok_or mbind result_bind]. by rewrite E'.
Qed.

Lemma header_length hash rows symbols revision file_len profile :
  len_of (write_header hash rows symbols revision file_len profile) = HEADER_LEN.
Proof.
  unfold write_header. rewrite !len_of_app. unfold len_of. rewrite !le_bytes_length.
  destruct (byte_array_wf_list hash) as [-> _]. done.
Qed.

Lemma directory_text_length es : len_of (directory_text es) = 28 * len_of es.
Proof.
  unfold directory_text. induction es as [|e es IH]; [done|]. cbn [fmap list_fmap concat].
  rewrite len_of_app, IH. unfold write_directory_entry. rewrite !len_of_app. unfold len_of.
  rewrite !le_bytes_length. simpl length. lia.
Qed.

Definition no_footer (w : SectionWriter) : Prop := Forall (λ p, payload_kind p ≠ Footer) w.

Lemma find_last_footer {A} (P : A → bool) l x :
  Forall (λ y, P y = false) l → P x = true → List.find P (l ++ [x]) = Some x.
Proof. induction 1 as [|y l Hy _ IH]; intros Hx; simpl; [by rewrite Hx|]. rewrite Hy. auto. Qed.

Lemma into_sorted_perm w : into_sorted_sections w ≡ₚ w.
Proof. apply sort_by_perm. Qed.

Lemma directory_loop_kinds next s es : directory_loop next s = Ok es → entry_kind <$> es = payload_kind <$> s.
Proof.
  revert next es. induction s as [|p s IH]; intros next es E; cbn [directory_loop] in E; inv_checked; [done|].
  cbn [fmap list_fmap entry_kind]. f_equal. by eapply IH.
Qed.

(** The facts both writers establish before they write. *)
Record writable (snapshot : ArtifactId) (w : SectionWriter) (rows symbols : Z)
    (es : list SectionDirectoryEntry) (file_len : Z) : Prop := {
  wr_rows : writer_row_count RelationshipRows w = Ok rows;
  wr_rows_max : rows ≤ u32_max;
  wr_symbols : writer_row_count SymbolTable w = Ok symbols;
  wr_symbols_max : symbols ≤ u32_max;
  wr_count : len_of w = 10;
  wr_directory f : len_of f = FOOTER_LEN → section_directory (with_footer w f) = Ok es;
  wr_directory_len : directory_file_len es = Ok file_len;
  wr_file_len : file_len = HEADER_LEN + 28 * 11 + len_of (bodies (into_sorted_sections w)) + FOOTER_LEN;
  wr_file_max : file_len ≤ u64_max
}.

Definition artifact_prefix (snapshot : ArtifactId) (w : SectionWriter) (p : IndexProfile)
    (rows symbols : Z) (es : list SectionDirectoryEntry) (file_len : Z) : list Z :=
  write_header (artifact_schema_hash snapshot) rows symbols (artifact_revision snapshot) file_len p ++
  directory_text es ++ bodies (into_sorted_sections w).

Lemma snapshot_sections_Ok w sections :
  snapshot_sections_with_footer w = Ok sections →
  sections = with_footer w (replicate 32 0) ∧ len_of w = 10.
Proof.
  unfold snapshot_sections_with_footer. intros E. inv_checked. bool_to_prop.
  match goal with H : (_ =? _) = true |- _ => apply Z.eqb_eq in H end.
  split; [done|]. rewrite len_of_app in *. unfold len_of, REQUIRED_SECTION_COUNT in *.
  rewrite (Permutation_length (into_sorted_perm w)) in *. simpl in *. lia.
Qed.

Lemma section_directory_Ok w f es :
  no_footer w → len_of w = 10 → len_of f = FOOTER_LEN → section_directory (with_footer w f) = Ok es →
  len_of es = 11 ∧
  ∃ es', es = es' ++ [mkEntry Footer 0 (HEADER_LEN + 28 * 11 + len_of (bodies (into_sorted_sections w)))
                        FOOTER_LEN 1] ∧
  Forall (λ e, entry_kind e ≠ Footer) es' ∧
  HEADER_LEN + 28 * 11 + len_of (bodies (into_sorted_sections w)) + FOOTER_LEN ≤ usize_max.
Proof.
  unfold section_directory. intros Hw Hn Hf E. inv_checked.
  assert (len_of (with_footer w f) = 11) as Hl.
  { unfold with_footer. rewrite len_of_app. unfold len_of in *.
    rewrite (Permutation_length (into_sorted_perm w)). simpl. lia. }
  pose proof (directory_loop_length _ _ _ ltac:(eassumption)) as Hlen.
  rewrite Hl in *. change (11 * DIRECTORY_ENTRY_LEN) with (28 * 11) in *.
  pose proof (directory_loop_snoc _ _ _ _ ltac:(eassumption)) as (es' & -> & E' & Hmax).
  cbn [payload_kind payload_flags payload_bytes payload_row_count] in *. rewrite Hf in *.
  split; [unfold len_of in *; lia|]. exists es'. split_and!; [done| |done].
  apply directory_loop_kinds in E'. rewrite Forall_forall. intros e He Hk.
  assert (Footer ∈ entry_kind <$> es') as Hin by (rewrite <- Hk; by apply list_elem_of_fmap_2).
  rewrite E' in Hin. apply list_elem_of_fmap in Hin as (q & Hq & Hin).
  rewrite into_sorted_perm in Hin. unfold no_footer in Hw. rewrite Forall_forall in Hw.
  by apply (Hw q).
Qed.

Lemma section_directory_last w f es file_len :
  no_footer w → len_of w = 10 → len_of f = FOOTER_LEN → section_directory (with_footer w f) = Ok es →
  directory_file_len es = Ok file_len →
  file_len = HEADER_LEN + 28 * 11 + len_of (bodies (into_sorted_sections w)) + FOOTER_LEN ∧
  file_len ≤ u64_max.
Proof.
  intros Hw Hn Hf E Efl.
  destruct (section_directory_Ok _ _ _ Hw Hn Hf E) as (_ & es' & -> & _ & Hmax).
  unfold directory_file_len in Efl. rewrite last_snoc in Efl. cbn [ok_or mbind result_bind] in Efl.
  inv_checked. cbn [entry_offset entry_len] in *. split; lia.
Qed.

Lemma zeros_length : len_of (replicate 32 0) = FOOTER_LEN.
Proof. done. Qed.

Lemma find_footer es' off :
  Forall (λ e, entry_kind e ≠ Footer) es' →
  List.find (λ e, bool_decide (entry_kind e = Footer)) (es' ++ [mkEntry Footer 0 off FOOTER_LEN 1]) =
  Some (mkEntry Footer 0 off FOOTER_LEN 1).
Proof.
  intros Hes. apply find_last_footer; [|done]. eapply Forall_impl; [exact Hes|].
  intros e He. by apply bool_decide_eq_false.
Qed.

Lemma sealed_splice prefix digest off :
  off = len_of prefix → len_of digest = FOOTER_LEN →
  splice off (off + FOOTER_LEN) digest (prefix ++ replicate 32 0) = Some (prefix ++ digest).
Proof.
  intros -> Hd. unfold splice.
  assert (get_range (len_of prefix) (len_of prefix + FOOTER_LEN) (prefix ++ replicate 32 0) =
          Some (replicate 32 0)) as Er.
  { pose proof (get_range_suffix prefix (replicate 32 0)) as E. rewrite len_of_app in E. exact E. }
  rewrite Er. cbn [mbind option_bind]. f_equal. unfold len_of. rewrite Nat2Z.id, take_app_length. f_equal.
  rewrite drop_ge; [by rewrite app_nil_r|]. rewrite length_app, length_replicate.
  unfold FOOTER_LEN. lia.
Qed.

Lemma artifact_prefix_length snapshot w p rows symbols es file_len :
  len_of es = 11 →
  len_of (artifact_prefix snapshot w p rows symbols es file_len) =
  HEADER_LEN + 28 * 11 + len_of (bodies (into_sorted_sections w)).
Proof.
  intros Hes. unfold artifact_prefix. rewrite !len_of_app, header_length, directory_text_length, Hes. lia.
Qed.

(** Both writers do the same checks first. *)
Lemma writable_intro snapshot w rows symbols sections es file_len :
  no_footer w →
  writer_row_count RelationshipRows w = Ok rows → rows ≤ u32_max →
  writer_row_count SymbolTable w = Ok symbols → symbols ≤ u32_max →
  snapshot_sections_with_footer w = Ok sections → section_directory sections = Ok es →
  directory_file_len es = Ok file_len →
  writable snapshot w rows symbols es file_len.
Proof.
  intros Hw Hr Hrm Hs Hsm [-> Hn]%snapshot_sections_Ok Hd Hf.
  destruct (section_directory_last _ _ _ _ Hw Hn zeros_length Hd Hf) as [Hfl Hmax].
  split; try done. intros f Hlen. rewrite <- Hd. by apply section_directory_footer.
Qed.

(** The two writers lay out the same bytes before the digest. *)
Lemma layout_prefix snapshot w p rows symbols es file_len f :
  write_header (artifact_schema_hash snapshot) rows symbols (artifact_revision snapshot) file_len p ++
  concat (write_directory_entry <$> es) ++ concat (payload_bytes <$> with_footer w f) =
  artifact_prefix snapshot w p rows symbols es file_len ++ f.
Proof.
  fold (bodies (with_footer w f)). rewrite bodies_with_footer. unfold artifact_prefix, directory_text.
  by rewrite <- !app_assoc.
Qed.

(** The closed form of the buffered writer. *)
Lemma encode_file_closed snapshot w p bytes :
  no_footer w → encode_file snapshot w p = Ok bytes →
  ∃ rows symbols es file_len, writable snapshot w rows symbols es file_len ∧
    bytes = sealed (artifact_prefix snapshot w p rows symbols es file_len).
Proof.
  intros Hw E. unfold encode_file in E.
  apply bind_Ok in E as (rows & Hrows & E). apply bind_Ok in E as (? & [-> Hr]%ok_or_try_from & E).
  apply bind_Ok in E as (symbols & Hsyms & E). apply bind_Ok in E as (? & [-> Hs]%ok_or_try_from & E).
  apply bind_Ok in E as (sections & Hsec & E). apply bind_Ok in E as (es & Hdir & E).
  apply bind_Ok in E as (file_len & Hfl & E).
  assert (writable snapshot w rows symbols es file_len) as Hwr by (eapply writable_intro; eassumption).
  exists rows, symbols, es, file_len. split; [exact Hwr|].
  apply snapshot_sections_Ok in Hsec as [-> Hn]. rewrite layout_prefix in E.
  destruct (section_directory_Ok _ _ _ Hw Hn zeros_length Hdir) as (Hlen & es' & Ees & Hes & _).
  pose proof (artifact_prefix_length snapshot w p rows symbols es file_len Hlen) as Hpre.
  set (pre := artifact_prefix _ _ _ _ _ _ _) in *. inv_checked.
  rewrite find_footer in * by done. simplify_eq. cbn [entry_offset] in *. rewrite <- Hpre in *.
  rewrite get_range_prefix in *. simplify_eq.
  match goal with H : splice _ _ _ _ = Some _ |- _ => rewrite sealed_splice in H;
    [by simplify_eq|done|apply digest_length] end.
Qed.

Lemma snapshot_sections_ten w :
  len_of w = 10 → snapshot_sections_with_footer w = Ok (with_footer w (replicate 32 0)).
Proof.
  intros Hn. unfold snapshot_sections_with_footer. fold (with_footer w (replicate 32 0)).
  assert (len_of (with_footer w (replicate 32 0)) = REQUIRED_SECTION_COUNT) as ->.
  { unfold with_footer. rewrite len_of_app. unfold len_of in *.
    rewrite (Permutation_length (into_sorted_perm w)), Hn. done. }
  done.
Qed.

Lemma try_from_uint_Ok {E} (e : E) max v : v ≤ max → ok_or (try_from_uint max v) e = Ok v.
Proof. intros Hv. by apply ok_or_try_from. Qed.

Lemma checked_add_usize_le a b : a + b ≤ usize_max → checked_add_usize a b = Ok (a + b).
Proof. intros Hv. by apply checked_add_usize_Ok. Qed.

Lemma ok_or_checked_add {E} (e : E) max a b : a + b ≤ max → ok_or (checked_add max a b) e = Ok (a + b).
Proof. intros Hv. unfold checked_add. by rewrite (proj2 (Z.leb_le _ _)). Qed.

(** A writable snapshot is encoded. *)
Lemma encode_file_writable snapshot w p rows symbols es file_len :
  no_footer w → writable snapshot w rows symbols es file_len →
  encode_file snapshot w p = Ok (sealed (artifact_prefix snapshot w p rows symbols es file_len)).
Proof.
  intros Hw [Hr Hrm Hs Hsm Hn Hd Hdl Hfl Hmax]. unfold encode_file.
  specialize (Hd _ zeros_length).
  destruct (section_directory_Ok _ _ _ Hw Hn zeros_length Hd) as (Hlen & es' & Ees & Hes & _).
  pose proof (artifact_prefix_length snapshot w p rows symbols es file_len Hlen) as Hpre.
  assert (len_of (artifact_prefix snapshot w p rows symbols es file_len) + FOOTER_LEN = file_len)
    as Hend by lia.
  step_ok rows; [done|]. step_ok rows; [by apply try_from_uint_Ok|].
  step_ok symbols; [done|]. step_ok symbols; [by apply try_from_uint_Ok|].
  step_ok (with_footer w (replicate 32 0)); [by apply snapshot_sections_ten|].
  step_ok es; [done|]. step_ok file_len; [done|]. step_ok file_len; [by apply try_from_uint_Ok|].
  rewrite layout_prefix. set (pre := artifact_prefix _ _ _ _ _ _ _) in *. clearbody pre.
  step_ok tt.
  { apply guard_err_Ok, negb_false_iff, Z.eqb_eq. by rewrite len_of_app, zeros_length. }
  step_ok (mkEntry Footer 0 (len_of pre) FOOTER_LEN 1).
  { rewrite Hpre, Ees. apply ok_or_Ok. by apply find_footer. }
  step_ok (len_of pre).
  { apply try_from_uint_Ok. cbn [entry_offset]. unfold usize_max, FOOTER_LEN in *. lia. }
  step_ok pre; [by rewrite get_range_prefix|].
  step_ok (len_of pre + FOOTER_LEN).
  { apply checked_add_usize_le. rewrite Hend. exact Hmax. }
  apply ok_or_Ok. apply sealed_splice; [done|apply digest_length].
Qed.

(** *** The streaming writer *)

Lemma write_hashed_Ok bytes s :
  stream_written s + len_of bytes ≤ u64_max → 0 ≤ stream_written s →
  write_hashed bytes s =
  Ok (mkStream (stream_file s ++ bytes) (stream_hashed s ++ bytes) (stream_written s + len_of bytes)).
Proof.
  intros Hl Hw. unfold write_hashed, checked_u64_from_usize.
  rewrite try_from_uint_Ok by lia. cbn [mbind result_bind].
  by rewrite ok_or_checked_add by done.
Qed.

Lemma write_sections_ok sections s :
  no_footer sections → 0 ≤ stream_written s →
  stream_written s + len_of (bodies sections) ≤ u64_max →
  try_fold write_section s sections =
  Ok (mkStream (stream_file s ++ bodies sections) (stream_hashed s ++ bodies sections)
        (stream_written s + len_of (bodies sections))).
Proof.
  intros Hs. revert s. induction Hs as [|q sections Hq _ IH]; intros s Hw Hl.
  { destruct s. unfold bodies. simpl. by rewrite !app_nil_r, Z.add_0_r. }
  change (bodies (q :: sections)) with (payload_bytes q ++ bodies sections) in *.
  rewrite len_of_app in *. pose proof (len_of_nonneg (payload_bytes q)).
  pose proof (len_of_nonneg (bodies sections)).
  cbn [try_fold]. unfold write_section. rewrite bool_decide_eq_false_2 by done.
  rewrite write_hashed_Ok by lia. cbn [mbind result_bind]. rewrite IH; cbn [stream_written stream_file stream_hashed]; [|lia..].
  rewrite <- !app_assoc. f_equal. f_equal. lia.
Qed.

Lemma into_sorted_no_footer w : no_footer w → no_footer (into_sorted_sections w).
Proof. unfold no_footer. by rewrite into_sorted_perm. Qed.

Lemma stream_writable snapshot w p rows symbols es file_len :
  no_footer w → writable snapshot w rows symbols es file_len →
  stream_file_bytes snapshot w p =
  Ok (sealed (artifact_prefix snapshot w p rows symbols es file_len)).
Proof.
  intros Hw [Hr Hrm Hs Hsm Hn Hd Hdl Hfl Hmax]. unfold stream_file_bytes.
  specialize (Hd _ zeros_length).
  destruct (section_directory_Ok _ _ _ Hw Hn zeros_length Hd) as (Hlen & _ & _ & _ & _).
  step_ok rows; [done|]. step_ok rows; [by apply try_from_uint_Ok|].
  step_ok symbols; [done|]. step_ok symbols; [by apply try_from_uint_Ok|].
  step_ok (with_footer w (replicate 32 0)); [by apply snapshot_sections_ten|].
  step_ok es; [done|]. step_ok file_len; [done|].
  pose proof (header_length (artifact_schema_hash snapshot) rows symbols (artifact_revision snapshot)
    file_len p) as Hh. unfold artifact_prefix.
  set (header := write_header _ _ _ _ _ _) in *. clearbody header.
  fold (directory_text es). pose proof (directory_text_length es) as Hdt. rewrite Hlen in Hdt.
  set (dir := directory_text es) in *. clearbody dir.
  pose proof (into_sorted_no_footer _ Hw) as Hb.
  unfold with_footer. clear Hd Hn. set (sections := into_sorted_sections w) in *. clearbody sections.
  pose proof (len_of_nonneg (bodies sections)). unfold HEADER_LEN, FOOTER_LEN in *.
  step_ok 308; [by rewrite Hlen|].
  step_ok (mkStream header header 76).
  { rewrite write_hashed_Ok; cbn [stream_written stream_file stream_hashed]; [by rewrite Hh|lia|lia]. }
  step_ok (mkStream (header ++ dir) (header ++ dir) 384).
  { rewrite write_hashed_Ok; cbn [stream_written stream_file stream_hashed]; [by rewrite Hdt|lia|lia]. }
  step_ok (mkStream (sealed (header ++ dir ++ bodies sections)) (header ++ dir ++ bodies sections) file_len).
  { rewrite try_fold_app. step_ok (mkStream (header ++ dir ++ bodies sections)
      (header ++ dir ++ bodies sections) (384 + len_of (bodies sections))).
    - rewrite write_sections_ok; cbn [stream_written stream_file stream_hashed]; [|done|lia|lia].
      by rewrite <- !app_assoc.
    - cbn [try_fold]. unfold write_section. cbn [payload_kind]. rewrite bool_decide_eq_true_2 by done.
      rewrite ok_or_checked_add by (cbn [stream_written]; unfold FOOTER_LEN; lia).
      cbn [mbind result_bind stream_written stream_file stream_hashed]. unfold FOOTER_LEN.
      by replace (384 + len_of (bodies sections) + 32) with file_len by lia. }
  step_ok tt; [|done]. cbn [stream_written]. apply guard_err_Ok, negb_false_iff, Z.eqb_refl.
Qed.

Lemma stream_file_closed snapshot w p bytes :
  no_footer w → stream_file_bytes snapshot w p = Ok bytes →
  ∃ rows symbols es file_len, writable snapshot w rows symbols es file_len ∧
    bytes = sealed (artifact_prefix snapshot w p rows symbols es file_len).
Proof.
  intros Hw E. pose proof E as E0. unfold stream_file_bytes in E.
  apply bind_Ok in E as (rows & Hrows & E). apply bind_Ok in E as (? & [-> Hr]%ok_or_try_from & E).
  apply bind_Ok in E as (symbols & Hsyms & E). apply bind_Ok in E as (? & [-> Hs]%ok_or_try_from & E).
  apply bind_Ok in E as (sections & Hsec & E). apply bind_Ok in E as (es & Hdir & E).
  apply bind_Ok in E as (file_len & Hfl & E). clear E.
  assert (writable snapshot w rows symbols es file_len) as Hwr by (eapply writable_intro; eassumption).
  exists rows, symbols, es, file_len. split; [exact Hwr|].
  rewrite (stream_writable _ _ _ _ _ _ _ Hw Hwr) in E0. congruence.
Qed.

Lemma writers_same snapshot w p bytes :
  no_footer w → stream_file_bytes snapshot w p = Ok bytes ↔ encode_file snapshot w p = Ok bytes.
Proof.
  intros Hw. split.
  - intros (r & s & es & fl & Hwr & ->)%stream_file_closed; [|done]. by apply encode_file_writable.
  - intros (r & s & es & fl & Hwr & ->)%encode_file_closed; [|done]. by apply stream_writable.
Qed.

(** ** Reading an artifact *)

(** What the writer is given: sections of distinct kinds other than the footer,
    with flags the format allows and counts of their width. *)
Record payload_ok (p : SectionPayload) : Prop := {
  po_flags : 0 ≤ payload_flags p ≤ u16_max;
  po_valid : validate_section_flags V3 (payload_kind p) (payload_flags p) = Ok tt;
  po_rows : 0 ≤ payload_row_count p ≤ u64_max
}.

Record writer_ok (w : SectionWriter) : Prop := {
  wo_footer : no_footer w;
  wo_nodup : NoDup (payload_kind <$> w);
  wo_payloads : Forall payload_ok w
}.

Lemma header_consumes hash rows symbols revision file_len p :
  0 ≤ rows ≤ u32_max → 0 ≤ symbols ≤ u32_max → 0 ≤ file_len ≤ u64_max →
  consumes (read_header file_len) (write_header hash rows symbols revision file_len p)
    (mkHeader V3 hash rows symbols revision p).
Proof.
  intros Hr Hs Hf. unfold read_header, write_header.
  eapply consumes_bind; [by apply consumes_array|].
  eapply consumes_bind; [by apply consumes_u16|].
  eapply consumes_check; [by vm_compute|].
  eapply consumes_bind; [by apply consumes_u16; destruct p|].
  eapply consumes_check; [apply profile_roundtrip|].
  eapply consumes_bind; [by apply consumes_u32|].
  eapply consumes_check; [done|].
  eapply consumes_bind; [by apply consumes_u32|].
  eapply consumes_check; [done|].
  eapply consumes_bind; [by apply consumes_u64|].
  eapply consumes_check; [by apply try_from_uint_Ok, Hf|].
  eapply consumes_check; [by rewrite Z.eqb_refl|].
  eapply consumes_bind; [by apply consumes_array, byte_array_wf_list|].
  eapply consumes_check; [by rewrite byte_array_new_bytes|].
  eapply consumes_bind; [by apply consumes_u32|].
  eapply consumes_bind; [by apply consumes_u32|].
  eapply consumes_last; [apply consumes_u64; pose proof (rev_range revision); lia|].
  eapply consumes_check; [by rewrite revision_new_get|]. apply consumes_ret.
Qed.

Lemma parse_header_artifact hash rows symbols revision p rest :
  0 ≤ rows ≤ u32_max → 0 ≤ symbols ≤ u32_max →
  let file_len := HEADER_LEN + len_of rest in
  file_len ≤ u64_max →
  parse_header (write_header hash rows symbols revision file_len p ++ rest) =
  Ok (mkHeader V3 hash rows symbols revision p).
Proof.
  intros Hr Hs file_len Hf. pose proof (len_of_nonneg rest).
  pose proof (header_length hash rows symbols revision file_len p) as Hl.
  unfold parse_header. rewrite len_of_app, Hl. fold file_len. rewrite <- Hl at 1.
  rewrite get_range_prefix. cbn [ok_or mbind result_bind]. unfold read_all.
  rewrite (consumes_all _ _ (mkHeader V3 hash rows symbols revision p)); [done| |].
  - apply header_consumes; [done..|]. unfold file_len, HEADER_LEN. unfold file_len, HEADER_LEN in Hf. lia.
  - rewrite Hl. done.
Qed.

(** The slots after the directory was read. *)
Definition fill_slots (file : list Z) (d : DirectoryState) (p : SectionPayload)
    (e : SectionDirectoryEntry) : DirectoryState :=
  mkDirectory (dir_entries d ++ [(entry_offset e, entry_len e, entry_kind e)])
    (<[section_slot (payload_kind p) :=
         Some (mkSection (payload_bytes p) (payload_flags p) (payload_row_count p))]> (dir_sections d)).

Lemma entry_consumes file p e d version directory_end :
  payload_ok p → version = V3 → entry_of file p e → directory_end ≤ entry_offset e →
  section_get (dir_sections d) (payload_kind p) = None → len_of file ≤ usize_max →
  consumes (read_directory_entry file version directory_end d) (write_directory_entry e)
    (fill_slots file d p e).
Proof.
  intros [Hf Hv Hr] -> (Hk & Hfl & Hrc & Hl & Ho & Hlm & Hend & Hget) Hdir Hslot Hfile.
  unfold read_directory_entry, write_directory_entry. rewrite Hk, Hfl, Hrc.
  pose proof (kind_raw_bounds (payload_kind p)).
  eapply consumes_bind; [apply consumes_u16; unfold u16_max; lia|].
  eapply consumes_check; [apply kind_roundtrip|].
  eapply consumes_bind; [by apply consumes_u16|].
  eapply consumes_check; [exact Hv|].
  eapply consumes_bind; [apply consumes_u64; exact Ho|].
  pose proof (len_of_nonneg (payload_bytes p)).
  eapply consumes_bind; [apply consumes_u64; split; [by rewrite Hl|exact Hlm]|].
  eapply consumes_last; [by apply consumes_u64|].
  eapply consumes_check.
  { rewrite bool_decide_eq_false_2; [done|]. rewrite Hslot. by intros [? ?]. }
  eapply consumes_check; [apply try_from_uint_Ok, Ho|].
  eapply consumes_check; [by apply try_from_uint_Ok|].
  eapply consumes_check; [by apply checked_add_usize_le|].
  pose proof Hget as (_ & _ & _ & _ & Hin)%get_range_Some; [|lia..].
  eapply (consumes_check _ _ _ tt).
  { apply guard_err_Ok, orb_false_iff. split; apply Z.ltb_ge; lia. }
  eapply consumes_check; [by rewrite Hget|].
  unfold fill_slots. rewrite Hk. apply consumes_ret.
Qed.

Definition kinds_free (d : DirectoryState) (sections : SectionWriter) : Prop :=
  length (dir_sections d) = 11%nat ∧
  ∀ p, p ∈ sections → section_get (dir_sections d) (payload_kind p) = None.

Definition fill_all (file : list Z) (d : DirectoryState)
    (pes : list (SectionPayload * SectionDirectoryEntry)) : DirectoryState :=
  foldl (λ d pe, fill_slots file d pe.1 pe.2) d pes.

Lemma directory_consumes file sections es directory_end d :
  Forall payload_ok sections → NoDup (payload_kind <$> sections) →
  Forall2 (entry_of file) sections es → Forall (λ e, directory_end ≤ entry_offset e) es →
  kinds_free d sections → len_of file ≤ usize_max →
  consumes (read_directory (length es) file V3 directory_end d) (directory_text es)
    (fill_all file d (zip sections es)).
Proof.
  intros Hok Hnd Hes. revert d Hok Hnd.
  induction Hes as [|p e sections es He Hes IH]; intros d Hok Hnd Hdir [Hlen Hfree] Hfile;
    [apply consumes_ret|].
  apply Forall_cons_1 in Hok as [Hp Hok]. apply Forall_cons_1 in Hdir as [Hd Hdir].
  apply NoDup_cons in Hnd as [Hk Hnd].
  change (directory_text (e :: es)) with (write_directory_entry e ++ directory_text es).
  cbn [length read_directory zip fill_all foldl].
  eapply consumes_bind; [apply entry_consumes; try done; apply Hfree; by left|].
  apply IH; try done. split; [by cbn; rewrite length_insert|].
  intros q Hq. cbn [fill_slots dir_sections]. rewrite section_get_insert by done.
  rewrite decide_False; [apply Hfree; by right|]. intros E. apply Hk. rewrite <- E.
  by apply list_elem_of_fmap_2.
Qed.

Definition section_of (p : SectionPayload) : SnapshotSection :=
  mkSection (payload_bytes p) (payload_flags p) (payload_row_count p).

Lemma fill_all_get file d pes k :
  length (dir_sections d) = 11%nat → NoDup (payload_kind <$> pes.*1) →
  length (dir_sections (fill_all file d pes)) = 11%nat ∧
  (∀ p, p ∈ pes.*1 → section_get (dir_sections (fill_all file d pes)) (payload_kind p) = Some (section_of p)) ∧
  (k ∉ payload_kind <$> pes.*1 →
   section_get (dir_sections (fill_all file d pes)) k = section_get (dir_sections d) k).
Proof.
  revert d k. induction pes as [|[q e] pes IH]; intros d k Hlen Hnd.
  { split_and!; [done|by intros p ?%elem_of_nil|done]. }
  cbn [fmap list_fmap] in *. apply NoDup_cons in Hnd as [Hq Hnd]. cbn [fst snd] in *.
  assert (length (dir_sections (fill_slots file d q e)) = 11%nat) as Hlen'
    by by cbn; rewrite length_insert.
  change (fill_all file d ((q, e) :: pes)) with (fill_all file (fill_slots file d q e) pes).
  split_and!.
  - by apply (IH _ k).
  - intros p [->|Hp]%elem_of_cons; [|by apply (IH _ k)].
    destruct (IH _ (payload_kind q) Hlen' Hnd) as (_ & _ & ->); [|done].
    cbn [fill_slots dir_sections]. rewrite section_get_insert by done. by rewrite decide_True.
  - intros [Hk Hk']%not_elem_of_cons. destruct (IH _ k Hlen' Hnd) as (_ & _ & ->); [|done].
    cbn [fill_slots dir_sections]. rewrite section_get_insert by done. by rewrite decide_False.
Qed.

Lemma fill_all_entries file d pes :
  dir_entries (fill_all file d pes) =
  dir_entries d ++ ((λ pe, (entry_offset pe.2, entry_len pe.2, entry_kind pe.2)) <$> pes).
Proof.
  revert d. induction pes as [|[p e] pes IH]; intros d; [by rewrite app_nil_r|].
  change (fill_all file d ((p, e) :: pes)) with (fill_all file (fill_slots file d p e) pes).
  rewrite IH. cbn.
  by rewrite <- app_assoc.
Qed.

(** Eleven distinct kinds are all kinds. *)
Lemma all_kinds (ks : list SectionKind) k : NoDup ks → length ks = 11%nat → k ∈ ks.
Proof.
  intros Hnd Hlen.
  assert (ks ≡ₚ REQUIRED_SECTIONS) as ->; [|apply elem_of_required].
  apply submseteq_length_Permutation; [|by rewrite Hlen].
  apply NoDup_submseteq; [done|]. intros x _. apply elem_of_required.
Qed.

(** *** Ranges that follow one another *)

Lemma bind_Ok_ex {E A B} (r : result E A) (f : A → result E B) a :
  r = Ok a → (∃ b, f a = Ok b) → ∃ b, r ≫= f = Ok b.
Proof. by intros ->. Qed.

Lemma check_range_Ok prev o l k z :
  check_range prev (o, l, k) = Ok z ↔ z = o + l ∧ prev ≤ o ∧ o + l ≤ u64_max.
Proof.
  unfold check_range. cbn [fst snd]. split.
  - intros E. inv_checked. match goal with H : (_ <? _) = false |- _ => apply Z.ltb_ge in H end. done.
  - intros (-> & Hp & Hl). step_ok tt; [by apply guard_err_Ok, Z.ltb_ge|]. by apply ok_or_checked_add.
Qed.

Lemma directory_loop_chain next sections es :
  directory_loop next sections = Ok es → 0 ≤ next →
  Sorted (λ x y, entry_offset x <= entry_offset y) es ∧
  (∀ prev, 0 ≤ prev ≤ next → ∃ z,
     try_fold check_range prev ((λ e, (entry_offset e, entry_len e, entry_kind e)) <$> es) = Ok z) ∧
  Forall (λ e, next <= entry_offset e) es.
Proof.
  revert next es. induction sections as [|p sections IH]; intros next es E Hn; simpl in E; inv_checked.
  { split_and!; [constructor|by intros prev _; exists prev|constructor]. }
  pose proof (len_of_nonneg (payload_bytes p)).
  destruct (IH _ _ ltac:(eassumption)) as (Hs & Hc & Hh); [lia|].
  split_and!.
  - constructor; [done|]. destruct Hh; constructor; cbn in *; lia.
  - intros prev Hp. cbn [fmap list_fmap try_fold entry_offset entry_len].
    apply (bind_Ok_ex _ _ (next + len_of (payload_bytes p))); [|apply Hc; lia].
    apply check_range_Ok. unfold usize_max in *. lia.
  - constructor; [cbn; lia|]. eapply Forall_impl; [exact Hh|]. cbn. lia.
Qed.

Lemma ranges_accepted next sections es :
  directory_loop next sections = Ok es → 0 ≤ next →
  validate_non_overlapping_sections ((λ e, (entry_offset e, entry_len e, entry_kind e)) <$> es) = Ok tt.
Proof.
  intros E Hn. destruct (directory_loop_chain _ _ _ E Hn) as (Hs & Hc & _).
  unfold validate_non_overlapping_sections, sort_by_key. rewrite sort_by_sorted.
  - destruct (Hc 0) as [z ->]; [lia|]. done.
  - clear -Hs. induction Hs as [|x l _ IH Hx]; [constructor|]. constructor; [done|].
    destruct Hx as [|y l Hy]; constructor. by apply Z.leb_le.
Qed.

(** The footer of a sealed payload passes, checked or not. *)
Lemma footer_accepted prefix sections mode :
  section_get sections Footer = Some (mkSection (array_bytes (blake3 prefix)) 0 1) →
  validate_footer (sealed prefix) sections mode = Ok tt.
Proof.
  intros Hs. unfold validate_footer. rewrite Hs. cbn [ok_or mbind result_bind section_bytes].
  rewrite digest_length. cbn [Z.eqb negb guard_err mbind result_bind]. unfold sealed.
  pose proof (len_of_nonneg prefix).
  step_ok tt; [done|]. step_ok (len_of prefix).
  { apply ok_or_Ok, checked_sub_Some. rewrite len_of_app, digest_length. unfold FOOTER_LEN. lia. }
  step_ok (array_bytes (blake3 prefix)); [by rewrite get_range_suffix|].
  step_ok tt; [by rewrite bool_decide_eq_true_2|].
  destruct (bool_decide (mode = External)); [done|].
  step_ok prefix; [by rewrite get_range_prefix|]. by rewrite bool_decide_eq_true_2.
Qed.

Lemma row_count_bounds w k n : Forall payload_ok w → writer_row_count k w = Ok n → 0 ≤ n.
Proof.
  unfold writer_row_count. intros Hw E. inv_ok. apply fmap_Some in E as (p & Hp & ->).
  apply find_some in Hp as [Hp _]. apply list_elem_of_In in Hp. rewrite Forall_forall in Hw.
  by apply Hw.
Qed.

Lemma parse_count_artifact snapshot rows symbols file_len p rest :
  parse_section_count
    (write_header (artifact_schema_hash snapshot) rows symbols (artifact_revision snapshot) file_len p
       ++ rest) = Ok 11.
Proof.
  unfold parse_section_count, write_header. cbn [mbind result_bind checked_add_usize].
  step_ok 20; [done|]. step_ok (le_bytes 4 11); [|by vm_compute].
  apply ok_or_Ok. rewrite <- !app_assoc. destruct p; reflexivity.
Qed.

(** What was written, as the reader sees it. *)
Definition reads_back (snapshot : ArtifactId) (w : SectionWriter) (p : IndexProfile)
    (r : SnapshotReader) : Prop :=
  writer_row_count RelationshipRows w = Ok (relationship_count (reader_header r)) ∧
  writer_row_count SymbolTable w = Ok (symbol_count (reader_header r)) ∧
  format_version (reader_header r) = V3 ∧
  header_schema_hash (reader_header r) = artifact_schema_hash snapshot ∧
  created_revision (reader_header r) = artifact_revision snapshot ∧
  header_index_profile (reader_header r) = p ∧
  Forall (λ q, reader_section r (payload_kind q) = Ok (section_of q)) w.

Lemma reader_parse_ok bytes mode header es d :
  parse_header bytes = Ok header → parse_section_count bytes = Ok 11 →
  get_range 76 384 bytes = Some (directory_text es) → length es = 11%nat →
  consumes (read_directory (length es) bytes (format_version header) 384
              (mkDirectory [] empty_sections)) (directory_text es) d →
  validate_required_sections (dir_sections d) = Ok tt →
  validate_non_overlapping_sections (dir_entries d) = Ok tt →
  validate_footer bytes (dir_sections d) mode = Ok tt →
  reader_parse bytes mode = Ok (mkReader header (dir_sections d)).
Proof.
  intros Hh Hc Hg Hl Hd Hr Hn Hf. unfold reader_parse. rewrite Hl in Hd.
  step_ok header; [done|]. step_ok 76; [done|]. step_ok 11; [done|]. step_ok tt; [done|].
  step_ok 308; [done|]. step_ok 384; [done|]. step_ok (directory_text es); [by rewrite Hg|].
  step_ok d.
  { unfold read_all. change (Z.to_nat 11) with 11%nat. rewrite (consumes_all _ _ _ Hd); [done|].
    rewrite directory_text_length. unfold len_of. by rewrite Hl. }
  step_ok tt; [done|]. step_ok tt; [done|]. by step_ok tt.
Qed.

(** The parts of a payload with footer [f] and what the directory says of them. *)
Record laid_out (sections : SectionWriter) (es : list SectionDirectoryEntry)
    (header file : list Z) (file_len : Z) : Prop := {
  lo_file : file = header ++ directory_text es ++ bodies sections;
  lo_header : len_of header = 76;
  lo_entries : length es = 11%nat;
  lo_len : len_of file = file_len;
  lo_max : file_len ≤ u64_max;
  lo_loop : directory_loop 384 sections = Ok es;
  lo_payloads : Forall payload_ok sections;
  lo_kinds : NoDup (payload_kind <$> sections)
}.

Lemma footer_sections_ok w f :
  writer_ok w → Forall payload_ok (with_footer w f) ∧ NoDup (payload_kind <$> with_footer w f).
Proof.
  intros [Hw Hnd Hok]. unfold with_footer. split.
  - apply Forall_app. split; [by rewrite into_sorted_perm|].
    repeat constructor; cbn; unfold u16_max, u64_max; lia.
  - rewrite fmap_app, into_sorted_perm. apply NoDup_app.
    split_and!; [done| |apply NoDup_singleton]. intros k (q & -> & Hq)%list_elem_of_fmap Hk.
    apply list_elem_of_singleton in Hk. unfold no_footer in Hw. rewrite Forall_forall in Hw.
    by apply (Hw q).
Qed.

Lemma artifact_laid_out snapshot w p rows symbols es file_len f :
  writer_ok w → writable snapshot w rows symbols es file_len → len_of f = FOOTER_LEN →
  laid_out (with_footer w f) es
    (write_header (artifact_schema_hash snapshot) rows symbols (artifact_revision snapshot) file_len p)
    (artifact_prefix snapshot w p rows symbols es file_len ++ f) file_len.
Proof.
  intros Hw [Hr Hrm Hs Hsm Hn Hd Hdl Hfl Hmax] Hf. specialize (Hd f Hf).
  destruct (footer_sections_ok w f Hw) as [Hok Hnd]. destruct Hw as [Hw _ _].
  destruct (section_directory_Ok _ _ _ Hw Hn Hf Hd) as (Hlen & _ & _ & _ & _).
  assert (len_of (with_footer w f) = 11) as E11.
  { unfold with_footer. rewrite len_of_app. unfold len_of in *.
    rewrite (Permutation_length (into_sorted_perm w)), Hn. done. }
  split; try done.
  - unfold artifact_prefix. by rewrite bodies_with_footer, <- !app_assoc.
  - apply header_length.
  - unfold len_of in Hlen. lia.
  - by rewrite len_of_app, artifact_prefix_length, Hf.
  - unfold section_directory in Hd. inv_checked. by rewrite E11 in *.
Qed.

Section parse.
Context {sections : SectionWriter} {es : list SectionDirectoryEntry} {header file : list Z} {file_len : Z}.
Hypothesis Hlo : laid_out sections es header file file_len.

Lemma laid_out_directory : len_of (directory_text es) = 308.
Proof. rewrite directory_text_length. unfold len_of. by rewrite (lo_entries _ _ _ _ _ Hlo). Qed.

Lemma laid_out_entries :
  Forall2 (entry_of file) sections es ∧ Forall (λ e, 384 ≤ entry_offset e) es.
Proof.
  pose proof (lo_loop _ _ _ _ _ Hlo) as Hl.
  assert (len_of (header ++ directory_text es) = 384) as H384.
  { by rewrite len_of_app, laid_out_directory, (lo_header _ _ _ _ _ Hlo). }
  rewrite <- H384 in Hl. destruct (directory_loop_ok _ _ _ [] Hl) as (He & Ho & _).
  rewrite H384, app_nil_r, <- app_assoc, <- (lo_file _ _ _ _ _ Hlo) in *. done.
Qed.

Lemma laid_out_slots :
  ∃ d, consumes (read_directory (length es) file V3 384 (mkDirectory [] empty_sections))
         (directory_text es) d ∧
       dir_entries d = (λ e, (entry_offset e, entry_len e, entry_kind e)) <$> es ∧
       ∀ q, q ∈ sections → section_get (dir_sections d) (payload_kind q) = Some (section_of q).
Proof.
  destruct laid_out_entries as [Hes Hoff]. destruct Hlo as [Ef Eh El Efl Hmax Hloop Hok Hnd].
  exists (fill_all file (mkDirectory [] empty_sections) (zip sections es)).
  assert ((zip sections es).*1 = sections) as Ezip.
  { apply fst_zip. by rewrite (Forall2_length _ _ _ Hes). }
  split_and!.
  - apply directory_consumes; try done; [|by rewrite Efl].
    split; [done|]. intros q _. apply section_get_empty.
  - rewrite fill_all_entries. cbn [dir_entries app].
    rewrite <- (snd_zip sections es) at 2 by by rewrite (Forall2_length _ _ _ Hes).
    by rewrite <- list_fmap_compose.
  - destruct (fill_all_get file (mkDirectory [] empty_sections) (zip sections es) Footer)
      as (_ & Hget & _); [done|by rewrite Ezip|]. by rewrite Ezip in Hget.
Qed.

Lemma laid_out_required d :
  (∀ q, q ∈ sections → section_get (dir_sections d) (payload_kind q) = Some (section_of q)) →
  validate_required_sections (dir_sections d) = Ok tt.
Proof.
  intros Hget. apply try_for_Ok, Forall_forall. intros k _.
  apply guard_err_Ok, negb_false_iff, bool_decide_eq_true.
  assert (k ∈ payload_kind <$> sections) as (q & -> & Hq)%list_elem_of_fmap.
  { destruct laid_out_entries as [Hes _].
    apply all_kinds; [apply (lo_kinds _ _ _ _ _ Hlo)|].
    rewrite length_fmap, (Forall2_length _ _ _ Hes). apply (lo_entries _ _ _ _ _ Hlo). }
  rewrite (Hget _ Hq). by eexists.
Qed.
End parse.

Lemma artifact_parse snapshot w p rows symbols es file_len mode :
  writer_ok w → writable snapshot w rows symbols es file_len →
  ∃ r, reader_parse (sealed (artifact_prefix snapshot w p rows symbols es file_len)) mode = Ok r ∧
       reads_back snapshot w p r.
Proof.
  intros Hw Hwr. set (prefix := artifact_prefix _ _ _ _ _ _ _).
  pose proof (artifact_laid_out snapshot w p _ _ _ _ _ Hw Hwr (digest_length prefix)) as Hlo.
  fold prefix in Hlo. fold (sealed prefix) in Hlo. clearbody prefix.
  destruct (laid_out_slots Hlo) as (d & Hcons & Hent & Hget).
  pose proof (row_count_bounds _ _ _ (wo_payloads _ Hw) (wr_rows _ _ _ _ _ _ Hwr)).
  pose proof (row_count_bounds _ _ _ (wo_payloads _ Hw) (wr_symbols _ _ _ _ _ _ Hwr)).
  pose proof (wr_rows_max _ _ _ _ _ _ Hwr). pose proof (wr_symbols_max _ _ _ _ _ _ Hwr).
  exists (mkReader (mkHeader V3 (artifact_schema_hash snapshot) rows symbols
    (artifact_revision snapshot) p) (dir_sections d)).
  split.
  - apply (reader_parse_ok _ _ _ es).
    + pose proof (parse_header_artifact (artifact_schema_hash snapshot) rows symbols
        (artifact_revision snapshot) p (directory_text es ++ bodies (with_footer w (array_bytes (blake3 prefix))))) as E.
      destruct Hlo as [Ef Eh _ El Hmax _ _ _]. rewrite Ef at 1. rewrite Ef, len_of_app, Eh in El.
      change HEADER_LEN with 76 in E. rewrite El in E. by apply E.
    + rewrite (lo_file _ _ _ _ _ Hlo). apply parse_count_artifact.
    + rewrite (lo_file _ _ _ _ _ Hlo) at 1. rewrite <- (lo_header _ _ _ _ _ Hlo).
      change 384 with (76 + 308). rewrite <- (laid_out_directory Hlo), <- (lo_header _ _ _ _ _ Hlo).
      apply get_range_app.
    + apply (lo_entries _ _ _ _ _ Hlo).
    + exact Hcons.
    + by apply (laid_out_required Hlo).
    + rewrite Hent. by apply (ranges_accepted 384 _ _ (lo_loop _ _ _ _ _ Hlo)).
    + apply footer_accepted.
      apply (Hget (mkPayload Footer 0 (array_bytes (blake3 prefix)) 1)), elem_of_app. right. by left.
  - destruct Hwr. split_and!; try done. apply Forall_forall. intros q Hq. unfold reader_section.
    cbn [reader_sections]. rewrite Hget; [done|]. unfold with_footer. apply elem_of_app. left.
    by rewrite into_sorted_perm.
Qed.

(** ** What an accepted payload is *)

(** The directory read so far agrees with the slots. *)
Record directory_ok (file : list Z) (version : SnapshotFormatVersion) (d : DirectoryState) : Prop := {
  do_slots : length (dir_sections d) = 11%nat;
  do_nodup : NoDup ((λ e, e.2) <$> dir_entries d);
  do_entry o l k : (o, l, k) ∈ dir_entries d → ∃ s,
    section_get (dir_sections d) k = Some s ∧ get_range o (o + l) file = Some (section_bytes s) ∧
    384 ≤ o ∧ l = len_of (section_bytes s) ∧ o + l ≤ len_of file ∧
    validate_section_flags version k (section_flags s) = Ok tt ∧
    0 ≤ section_flags s ≤ u16_max ∧ 0 ≤ section_row_count s ≤ u64_max;
  do_slot k s : section_get (dir_sections d) k = Some s → k ∈ (λ e, e.2) <$> dir_entries d
}.

Lemma yields_directory_entry file version d :
  directory_ok file version d →
  yields (read_directory_entry file version 384 d)
    (λ d', directory_ok file version d' ∧ length (dir_entries d') = S (length (dir_entries d))).
Proof.
  intros [Hl Hnd He Hs]. unfold read_directory_entry.
  reads_uint. intros raw _.
  reads_check. intros k Hk.
  reads_uint. intros flags Hfl.
  reads_check. intros [] Hv.
  reads_uint. intros offset Ho.
  reads_uint. intros len Hlen.
  reads_uint. intros rows Hrows.
  reads_check. intros [] Hdup%guard_err_Ok.
  reads_check. intros start [-> _]%ok_or_try_from.
  reads_check. intros length [-> _]%ok_or_try_from.
  reads_check. intros last [-> _]%checked_add_usize_Ok.
  reads_check.
  intros [] [Hlo%Z.ltb_ge Hhi%Z.ltb_ge]%guard_err_Ok%orb_false_iff.
  reads_check. intros slice Hslice%ok_or_Ok.
  apply yields_ret. apply bool_decide_eq_false in Hdup.
  assert (k ∉ (λ e, e.2) <$> dir_entries d) as Hnew.
  { intros ([[o l] k'] & -> & Hin)%list_elem_of_fmap. destruct (He _ _ _ Hin) as (s & E & _).
    apply Hdup. cbn. rewrite E. by eexists. }
  pose proof Hslice as Hcut. apply get_range_Some in Hcut as (_ & _ & _ & _ & Hsl & _); [|lia..].
  split; [|cbn [dir_entries]; rewrite length_app; simpl; lia].
  split; cbn [dir_entries dir_sections].
  - by rewrite length_insert.
  - rewrite fmap_app. apply NoDup_app. split_and!; [done| |apply NoDup_singleton].
    intros x Hx ->%list_elem_of_singleton. done.
  - intros o l k' [Hin|[= -> -> ->]%list_elem_of_singleton]%elem_of_app.
    + destruct (He _ _ _ Hin) as (s & Hg & Hrest). exists s. split; [|done].
      rewrite section_get_insert by done. rewrite decide_False; [done|]. intros ->. apply Hnew.
      apply list_elem_of_fmap. by exists (o, l, k).
    + rewrite section_get_insert by done. rewrite decide_True by done. eexists. split; [done|].
      cbn [section_bytes section_flags section_row_count]. unfold u16_max, u64_max.
      split_and!; try done; lia.
  - intros k' s. rewrite section_get_insert by done. rewrite fmap_app, elem_of_app.
    case_decide as E; [subst; intros _; right; by left|]. intros Hg. left. by eapply Hs.
Qed.

Lemma yields_directory n file version d :
  directory_ok file version d →
  yields (read_directory n file version 384 d)
    (λ d', directory_ok file version d' ∧ length (dir_entries d') = (n + length (dir_entries d))%nat).
Proof.
  revert d. induction n as [|n IH]; intros d Hd; [by apply yields_ret|]. cbn [read_directory].
  eapply yields_bind; [by apply yields_directory_entry|]. intros d1 [Hd1 Hl].
  eapply yields_weaken; [by apply IH|]. intros d2 [Hd2 Hl2]. split; [done|]. lia.
Qed.

(** Consecutive ranges of the sorted directory do not meet. *)
Lemma ranges_chained (l : list (Z * Z * SectionKind)) prev z :
  Forall (λ e, 0 ≤ e.1.2) l → try_fold check_range prev l = Ok z →
  StronglySorted (λ x y, x.1.1 + x.1.2 ≤ y.1.1) l ∧ Forall (λ e, prev ≤ e.1.1) l.
Proof.
  intros Hl. revert prev. induction Hl as [|[[o n] k] l Hn Hl IH]; intros prev E; cbn [try_fold] in E.
  { split; constructor. }
  apply bind_Ok in E as (m & (-> & Hp & Hm)%check_range_Ok & E). cbn [fst snd] in *.
  destruct (IH _ E) as [Hs Hf]. split.
  - by constructor.
  - constructor; [done|]. eapply Forall_impl; [exact Hf|]. cbn. intros ? ?. lia.
Qed.

Lemma strongly_sorted_pair {A} (R : A → A → Prop) l x y :
  StronglySorted R l → x ∈ l → y ∈ l → x ≠ y → R x y ∨ R y x.
Proof.
  induction 1 as [|a l Hs IH Ha]; [by intros ?%elem_of_nil|]. rewrite Forall_forall in Ha.
  intros [->|Hx]%elem_of_cons [->|Hy]%elem_of_cons Hne; auto. done.
Qed.

Lemma ranges_disjoint entries x y :
  Forall (λ e, 0 ≤ e.1.2) entries → validate_non_overlapping_sections entries = Ok tt →
  x ∈ entries → y ∈ entries → x ≠ y → x.1.1 + x.1.2 ≤ y.1.1 ∨ y.1.1 + y.1.2 ≤ x.1.1.
Proof.
  intros Hl E Hx Hy Hne. unfold validate_non_overlapping_sections in E.
  apply bind_Ok in E as (z & E & _). unfold sort_by_key in E.
  pose proof (sort_by_perm (λ x y : Z * Z * SectionKind, x.1.1 <=? y.1.1) entries) as Hp.
  rewrite <- Hp in Hl, Hx, Hy. destruct (ranges_chained _ _ _ Hl E) as [Hs _].
  by eapply (strongly_sorted_pair _ _ _ _ Hs).
Qed.

(** Where a section lies in the payload. *)
Definition placed (bytes : list Z) (r : SnapshotReader) (k : SectionKind) (start : Z) : Prop :=
  ∃ s, reader_section r k = Ok s ∧ 384 ≤ start ∧
    get_range start (start + len_of (section_bytes s)) bytes = Some (section_bytes s) ∧
    validate_section_flags (format_version (reader_header r)) k (section_flags s) = Ok tt.

Lemma directory_ok_empty file version : directory_ok file version (mkDirectory [] empty_sections).
Proof.
  split; cbn; [done|constructor|by intros o l k ?%elem_of_nil|].
  intros k s. by rewrite section_get_empty.
Qed.

Lemma required_present sections k :
  validate_required_sections sections = Ok tt → is_Some (section_get sections k).
Proof.
  intros E. apply try_for_Ok in E. rewrite Forall_forall in E. specialize (E k (elem_of_required k)).
  apply guard_err_Ok, negb_false_iff, bool_decide_eq_true in E. done.
Qed.

Lemma yields_header actual :
  yields (read_header actual) (λ h, 0 ≤ relationship_count h ≤ u32_max ∧ 0 ≤ symbol_count h ≤ u32_max).
Proof.
  unfold read_header.
  repeat first
    [ eapply yields_bind; [apply yields_array|]; intros ? _
    | reads_uint; intros ? ?
    | reads_check; intros ? _ ].
  apply yields_ret. cbn. unfold u32_max. lia.
Qed.

Lemma footer_sound bytes sections mode :
  validate_footer bytes sections mode = Ok tt →
  ∃ prefix footer, bytes = prefix ++ section_bytes footer ∧ section_get sections Footer = Some footer ∧
    len_of (section_bytes footer) = FOOTER_LEN ∧
    (mode = Checksum → bytes = sealed prefix).
Proof.
  unfold validate_footer. intros E. inv_checked. bool_to_prop.
  match goal with H : section_get _ _ = Some ?f, H2 : (_ =? _) = true |- _ =>
    rename H into Hf, f into footer; apply Z.eqb_eq in H2 as Hfl end.
  match goal with H : get_range _ _ bytes = Some ?e, H2 : bool_decide (?e = _) = true |- _ =>
    apply bool_decide_eq_true in H2 as ->;
    apply get_range_Some in H as (prefix & post & Eb & Hp & Hl & _);
      [|unfold FOOTER_LEN in *; lia|apply len_of_nonneg] end.
  assert (post = []) as ->.
  { apply length_zero_iff_nil. apply (f_equal len_of) in Eb. rewrite !len_of_app in Eb.
    unfold len_of in *. lia. }
  rewrite app_nil_r in Eb. exists prefix, footer. split_and!; try done. intros ->.
  cbn [bool_decide] in *. rewrite bool_decide_eq_false_2 in * by done. inv_ok. bool_to_prop.
  match goal with H : get_range 0 _ _ = Some ?h |- _ =>
    rewrite <- Hp, get_range_prefix in H; injection H as <- end.
  match goal with H : bool_decide (_ = section_bytes footer) = true |- _ =>
    apply bool_decide_eq_true in H end.
  unfold sealed. by f_equal.
Qed.

(** The parts of a successful parse. *)
Lemma reader_parse_Ok bytes mode r :
  reader_parse bytes mode = Ok r → bytes_ok bytes →
  parse_header bytes = Ok (reader_header r) ∧
  ∃ entries, directory_ok bytes (format_version (reader_header r)) (mkDirectory entries (reader_sections r)) ∧
    validate_required_sections (reader_sections r) = Ok tt ∧
    validate_non_overlapping_sections entries = Ok tt ∧
    validate_footer bytes (reader_sections r) mode = Ok tt.
Proof.
  unfold reader_parse. intros E Hb.
  apply bind_Ok in E as (header & Hh & E). apply bind_Ok in E as (? & [-> _]%ok_or_try_from & E).
  apply bind_Ok in E as (count & Hc & E). apply bind_Ok in E as ([] & Hcount & E).
  apply guard_err_Ok, negb_false_iff, Z.eqb_eq in Hcount as ->.
  apply bind_Ok in E as (? & [-> _]%checked_mul_usize_Ok & E).
  apply bind_Ok in E as (? & [-> _]%checked_add_usize_Ok & E).
  apply bind_Ok in E as (text & Htext%ok_or_Ok & E).
  apply bind_Ok in E as (d & Hd & E). apply bind_Ok in E as ([] & Hr & E).
  apply bind_Ok in E as ([] & Hn & E). apply bind_Ok in E as ([] & Hf & E). injection E as <-.
  cbn [reader_header reader_sections]. split; [done|]. exists (dir_entries d).
  apply get_range_bytes_ok in Htext; [|done..].
  change (HEADER_LEN + REQUIRED_SECTION_COUNT * DIRECTORY_ENTRY_LEN) with 384 in Hd.
  pose proof (yields_all _ _ _ _ (yields_directory _ _ _ _ (directory_ok_empty bytes
    (format_version header))) Htext Hd) as [Hok _]. by destruct d.
Qed.

(** The offset of a section's entry. *)
Definition offset_of (entries : list (Z * Z * SectionKind)) (k : SectionKind) : Z :=
  default 0 (head (omap (M:=list) (λ e, if decide (e.2 = k) then Some e.1.1 else None) entries)).

Lemma offset_of_entry entries o l k :
  NoDup ((λ e, e.2) <$> entries) → (o, l, k) ∈ entries → offset_of entries k = o.
Proof.
  unfold offset_of. intros Hnd Hin. induction entries as [|[[o' l'] k'] es IH].
  - by apply elem_of_nil in Hin.
  - cbn in *. apply NoDup_cons in Hnd as [Hk Hnd]. case_decide as Ek.
    + subst k'. apply elem_of_cons in Hin as [[= -> ->]|Hin]; [done|]. destruct Hk.
      apply list_elem_of_fmap. by exists (o, l, k).
    + apply elem_of_cons in Hin as [[= -> -> ->]|Hin]; [done|]. by apply IH.
Qed.

Lemma accepted_sections bytes mode r :
  reader_parse bytes mode = Ok r → bytes_ok bytes →
  ∃ place : SectionKind → Z,
    (∀ k, placed bytes r k (place k)) ∧
    ∀ k k' s s', k ≠ k' → reader_section r k = Ok s → reader_section r k' = Ok s' →
      place k + len_of (section_bytes s) ≤ place k' ∨ place k' + len_of (section_bytes s') ≤ place k.
Proof.
  intros E Hb. apply reader_parse_Ok in E as (_ & entries & [Hl Hnd He Hs] & Hreq & Hover & _); [|done].
  cbn [dir_entries dir_sections] in *.
  assert (∀ k, ∃ o s, (o, len_of (section_bytes s), k) ∈ entries ∧ reader_section r k = Ok s ∧
                      placed bytes r k o) as Hall.
  { intros k. destruct (required_present _ k Hreq) as [s Hk].
    pose proof (Hs _ _ Hk) as ([[o l] k'] & -> & Hin)%list_elem_of_fmap. cbn in *.
    destruct (He _ _ _ Hin) as (s' & Hk' & Hg & Ho & -> & _ & Hv & _). simplify_eq.
    exists o, s. split_and!; [done|unfold reader_section; by rewrite Hk|]. exists s.
    unfold reader_section. by rewrite Hk. }
  exists (offset_of entries). split.
  - intros k. destruct (Hall k) as (o & s & Hin & _ & Hp). by rewrite (offset_of_entry _ _ _ _ Hnd Hin).
  - intros k k' s s' Hne E E'. destruct (Hall k) as (o & s1 & Hin & E1 & _).
    destruct (Hall k') as (o' & s1' & Hin' & E1' & _).
    rewrite E in E1. injection E1 as <-. rewrite E' in E1'. injection E1' as <-.
    rewrite (offset_of_entry _ _ _ _ Hnd Hin), (offset_of_entry _ _ _ _ Hnd Hin').
    apply (ranges_disjoint entries _ _) with (2 := Hover) (3 := Hin) (4 := Hin'); [|congruence].
    apply Forall_forall. intros [[o2 l2] k2] Hx. cbn. destruct (He _ _ _ Hx) as (s2 & _ & _ & _ & -> & _).
    apply len_of_nonneg.
Qed.
End layout.
