(* ===== verification/SnapshotSymbols.v ===== *)
(** * Symbol sections of a snapshot (src/src/relationship.rs)

    Field widths and their flags, and the four sections that hold the interner:
    the bytes, the table of ranges, the hashes and the lookup order. *)

From S2P Require Import Prelude StoreTypes Interner LiveRows Posting Legacy SnapshotBytes Snapshot.

Local Open Scope Z_scope.

Definition DISK_SYMBOL_HASH_LEN : Z := 8.
Definition SECTION_WIDTH_MASK : Z := 3.
Definition SYMBOL_TABLE_LEN_WIDTH_SHIFT : Z := 2.
Definition SYMBOL_TABLE_LEN_WIDTH_MASK : Z := 12.

(** [!mask] of a [u16]. *)
Definition not_u16 (mask : Z) : Z := Z.lxor u16_max mask.

(** ** Field widths *)

Inductive SnapshotKeyWidth := U8 | U16 | U24 | U32.

(** [SnapshotKeyWidth::byte_len] *)
Definition width_len (w : SnapshotKeyWidth) : nat :=
  match w with U8 => 1 | U16 => 2 | U24 => 3 | U32 => 4 end.
Definition width_byte_len (w : SnapshotKeyWidth) : Z := Z.of_nat (width_len w).

Definition width_flag_bits (w : SnapshotKeyWidth) : Z :=
  match w with U8 => 0 | U16 => 1 | U24 => 2 | U32 => 3 end.

Definition width_from_flag_bits (value : Z) : sresult SnapshotKeyWidth :=
  match value with
  | 0 => Ok U8
  | 1 => Ok U16
  | 2 => Ok U24
  | 3 => Ok U32
  | _ => Err (SFormat "snapshot index key width is unsupported")
  end.

Definition width_for_max (value : Z) : SnapshotKeyWidth :=
  if value <=? u8_max then U8
  else if value <=? u16_max then U16
  else if value <=? 16777215 then U24
  else U32.

(** The bytes [encode_value] appends. *)
Definition encode_value (w : SnapshotKeyWidth) (value : Z) : list Z :=
  match w with
  | U8 => take 1 (le_bytes 4 value)
  | U16 => take 2 (le_bytes 4 value)
  | U24 => take 3 (le_bytes 4 value)
  | U32 => le_bytes 4 value
  end.

Definition read_value (w : SnapshotKeyWidth) : Reads Z :=
  match w with
  | U8 => let! a := read_array 1 in st_ret (from_le_bytes a)
  | U16 => let! a := read_array 2 in st_ret (from_le_bytes a)
  | U24 => let! a := read_array 3 in st_ret (from_le_bytes (a ++ [0]))
  | U32 => let! a := read_array 4 in st_ret (from_le_bytes a)
  end.

Definition section_width_from_flags (flags : Z) : sresult SnapshotKeyWidth :=
  _ ← guard_err (negb (Z.land flags (not_u16 SECTION_WIDTH_MASK) =? 0))
        (SFormat "section width flags are unsupported");
  width_from_flag_bits (Z.land flags SECTION_WIDTH_MASK).

Definition symbol_table_flags (start_width len_width : SnapshotKeyWidth) : Z :=
  Z.lor (width_flag_bits start_width)
    (Z.shiftl (width_flag_bits len_width) SYMBOL_TABLE_LEN_WIDTH_SHIFT).

Definition symbol_table_widths (flags : Z) : sresult (SnapshotKeyWidth * SnapshotKeyWidth) :=
  _ ← guard_err
        (negb (Z.land flags (not_u16 (Z.lor SECTION_WIDTH_MASK SYMBOL_TABLE_LEN_WIDTH_MASK)) =? 0))
        (SFormat "symbol table flags are unsupported");
  start_width ← width_from_flag_bits (Z.land flags SECTION_WIDTH_MASK);
  len_width ← width_from_flag_bits
    (Z.shiftr (Z.land flags SYMBOL_TABLE_LEN_WIDTH_MASK) SYMBOL_TABLE_LEN_WIDTH_SHIFT);
  Ok (start_width, len_width).

Definition snapshot_symbol_width (max_value : Z) (layout : SnapshotEncodingLayout)
    : SnapshotKeyWidth :=
  match layout with
  | Compact => width_for_max max_value
  | CompressionFriendly => U32
  end.

(** [SymbolId::from_snapshot_raw] *)
Definition symbol_from_snapshot_raw (value symbol_count : Z) : sresult SymbolId :=
  value ← ok_or (non_zero value) (SFormat "symbol id must be non-zero");
  _ ← guard_err (symbol_count <? value) (SFormat "symbol id is out of bounds");
  Ok (Z.to_pos value).

(** ** Encoding *)

Definition max_of (l : list Z) : option Z :=
  match l with [] => None | x :: l => Some (foldl Z.max x l) end.

Definition encode_v3_symbol_table (entries : list InternedString) (symbol_bytes_len : Z)
    (layout : SnapshotEncodingLayout) : sresult (list Z * Z) :=
  let start_width := snapshot_symbol_width symbol_bytes_len layout in
  let max_len := default 0 (max_of (len <$> entries)) in
  let len_width := snapshot_symbol_width max_len layout in
  entry_width ← checked_add_usize (width_byte_len start_width) (width_byte_len len_width);
  _ ← checked_mul_usize (len_of entries) entry_width;
  let table := concat ((λ e, encode_value start_width (start e) ++ encode_value len_width (len e))
                         <$> entries) in
  Ok (table, symbol_table_flags start_width len_width).

(** [(hashes_by_id.get(id.index()).copied(), *id)], ordered: an absent hash comes first. *)
Definition lookup_leb (hashes : list Z) (a b : SymbolId) : bool :=
  match hashes !! id_index a, hashes !! id_index b with
  | Some x, Some y => (x <? y) || ((x =? y) && (a <=? b)%positive)
  | None, Some _ => true
  | Some _, None => false
  | None, None => (a <=? b)%positive
  end.

(** [SnapshotSymbolIndex] *)
Abbreviation SnapshotSymbolIndex := (gmap Z SymbolId * gmap Z (list SymbolId))%type.

Section symbols.
Context `{Hasher}.

(** [encode_symbol_acceleration]: the hashes, the lookup and its flags. *)
Definition encode_symbol_acceleration (st : IdentifierInterner) (layout : SnapshotEncodingLayout)
    : sresult (list Z * list Z * Z) :=
  hashes_by_id ← try_map (λ index,
    id ← map_err SStore (symbol_from_index index);
    value ← map_err SStore (resolve st id);
    Ok (hash_value value)) (seq 0 (length (entries st)));
  _ ← checked_mul_usize (len_of hashes_by_id) DISK_SYMBOL_HASH_LEN;
  let hashes := concat (le_bytes 8 <$> hashes_by_id) in
  lookup ← map_err SStore (try_map symbol_from_index (seq 0 (length (entries st))));
  let lookup := sort_by (lookup_leb hashes_by_id) lookup in
  count ← checked_u32_from_usize (len_of (entries st));
  let lookup_width := snapshot_symbol_width count layout in
  _ ← checked_mul_usize (len_of lookup) (width_byte_len lookup_width);
  Ok (hashes, concat ((λ id, encode_value lookup_width (Zpos id)) <$> lookup),
      width_flag_bits lookup_width).

(** ** Decoding *)

(** The body of the loop over the symbol table. *)
Definition read_symbol_entry (bytes : list Z) (start_width len_width : SnapshotKeyWidth)
    : Reads InternedString :=
  let! start := read_value start_width in
  let! len := read_value len_width in
  let! start_usize := st_lift (checked_usize_from_u32 start) in
  let! len_usize := st_lift (checked_usize_from_u32 len) in
  let! last := st_lift (checked_add_usize start_usize len_usize) in
  let! symbol_bytes := st_lift (ok_or (get_range start_usize last bytes)
                                  (SFormat "symbol byte range is out of bounds")) in
  let! _ := st_lift (guard_err (negb (utf8_valid (bytes_str symbol_bytes)))
                       (SFormat "symbol bytes are not valid utf-8")) in
  st_ret (mkInterned start len).

(** A decoder that must use its whole section. *)
Definition read_exactly {A} (m : Reads A) (bytes : list Z) (reason : string) : sresult A :=
  let '(r, c) := m (cursor_new bytes) in
  a ← r;
  _ ← guard_err (negb (cursor_is_empty c)) (SFormat reason);
  Ok a.

Definition decode_symbol_hashes (reader : SnapshotReader) (count : Z) : sresult (list Z) :=
  section ← reader_section reader SymbolHashes;
  _ ← guard_err (negb (section_row_count section =? count))
        (SFormat "symbol hash row count does not match header");
  n ← checked_usize_from_u32 count;
  expected_len ← checked_mul_usize n DISK_SYMBOL_HASH_LEN;
  _ ← guard_err (negb (len_of (section_bytes section) =? expected_len))
        (SFormat "symbol hash length does not match symbol count");
  read_all (read_times (Z.to_nat n) read_u64) (section_bytes section).

Definition symbol_lookup_key (id : SymbolId) (hashes_by_id : list Z) : sresult (Z * SymbolId) :=
  hash ← ok_or (hashes_by_id !! id_index id) (SFormat "symbol lookup hash id is out of bounds");
  Ok (hash, id).

(** [left >= right] on pairs. *)
Definition lookup_key_ge (left right : Z * SymbolId) : bool :=
  (right.1 <? left.1) || ((left.1 =? right.1) && (right.2 <=? left.2)%positive).

(** The loop over the lookup, with [previous]. *)
Fixpoint read_lookup (n : nat) (w : SnapshotKeyWidth) (symbol_count : Z) (hashes_by_id : list Z)
    (previous : option (Z * SymbolId)) : Reads (list SymbolId) :=
  match n with
  | O => st_ret []
  | S n =>
      let! value := read_value w in
      let! id := st_lift (symbol_from_snapshot_raw value symbol_count) in
      let! key := st_lift (symbol_lookup_key id hashes_by_id) in
      let! _ := st_lift (guard_err (match previous with
                                    | Some candidate => lookup_key_ge candidate key
                                    | None => false
                                    end) (SFormat "symbol lookup is not strictly sorted")) in
      let! ids := read_lookup n w symbol_count hashes_by_id (Some key) in
      st_ret (id :: ids)
  end.

(** The width of a section: flags in version 3, none in version 2. *)
Definition section_width (reader : SnapshotReader) (section : SnapshotSection) (reason : string)
    : sresult SnapshotKeyWidth :=
  if bool_decide (format_version (reader_header reader) = V3)
  then section_width_from_flags (section_flags section)
  else
    _ ← guard_err (negb (section_flags section =? 0)) (SFormat reason);
    Ok U32.

Definition decode_symbol_lookup (reader : SnapshotReader) (count : Z) (hashes_by_id : list Z)
    : sresult (list SymbolId) :=
  section ← reader_section reader SymbolLookup;
  _ ← guard_err (negb (section_row_count section =? count))
        (SFormat "symbol lookup row count does not match header");
  n ← checked_usize_from_u32 count;
  w ← section_width reader section "symbol lookup flags are unsupported";
  expected_len ← checked_mul_usize n (width_byte_len w);
  _ ← guard_err (negb (len_of (section_bytes section) =? expected_len))
        (SFormat "symbol lookup length does not match symbol count");
  read_exactly (read_lookup (Z.to_nat n) w count hashes_by_id None) (section_bytes section)
    "symbol lookup has trailing bytes".

Definition resolve_symbol_entry (bytes : string) (entries : list InternedString) (id : SymbolId)
    : sresult string :=
  entry ← ok_or (entries !! id_index id) (SFormat "symbol lookup id is out of bounds");
  first ← checked_usize_from_u32 (start entry);
  len ← checked_usize_from_u32 (len entry);
  last ← checked_add_usize first len;
  value ← ok_or (str_slice (Z.to_nat first) (Z.to_nat last) bytes)
            (SFormat "symbol byte range is out of bounds");
  _ ← guard_err (negb (utf8_valid value)) (SFormat "symbol bytes are not valid utf-8");
  Ok value.

(** Is one of the symbols the value? *)
Fixpoint any_symbol_is (bytes : string) (entries : list InternedString) (value : string)
    (ids : list SymbolId) : sresult bool :=
  match ids with
  | [] => Ok false
  | id :: ids =>
      stored ← resolve_symbol_entry bytes entries id;
      if String.eqb stored value then Ok true else any_symbol_is bytes entries value ids
  end.

Definition symbol_value_exists (bytes : string) (entries : list InternedString)
    (index : SnapshotSymbolIndex) (hash : Z) (value : string) : sresult bool :=
  primary ← any_symbol_is bytes entries value (option_list (index.1 !! hash));
  if (primary : bool) then Ok true
  else any_symbol_is bytes entries value (default [] (index.2 !! hash)).

(** The body of the loop over the stored hashes. *)
Definition index_symbol (bytes : string) (entries : list InternedString)
    (index : SnapshotSymbolIndex) (p : nat * Z) : sresult SnapshotSymbolIndex :=
  id ← map_err SStore (symbol_from_index p.1);
  value ← resolve_symbol_entry bytes entries id;
  _ ← guard_err (negb (hash_value value =? p.2))
        (SFormat "symbol lookup hash does not match symbol bytes");
  exists_ ← symbol_value_exists bytes entries index p.2 value;
  _ ← guard_err exists_ (SFormat "duplicate symbol in snapshot");
  Ok match index.1 !! p.2 with
     | None => (<[p.2 := id]> index.1, index.2)
     | Some _ => (index.1, <[p.2 := default [] (index.2 !! p.2) ++ [id]]> index.2)
     end.

Definition index_full_symbol_lookup (bytes : string) (entries : list InternedString)
    (hashes_by_id : list Z) : sresult SnapshotSymbolIndex :=
  try_fold (index_symbol bytes entries) (∅, ∅) (zip (seq 0 (length hashes_by_id)) hashes_by_id).

(** [from_snapshot_parts] *)
Definition interner_from_snapshot_parts (bytes : string) (entries : list InternedString)
    (hashes_by_id : list Z) (lookup : list SymbolId) (validation : SnapshotValidationMode)
    : sresult IdentifierInterner :=
  match validation with
  | ValidationFull =>
      index ← index_full_symbol_lookup bytes entries hashes_by_id;
      Ok (mkInterner bytes entries index.1 index.2 [] [])
  | TrustedFastLoad => Ok (mkInterner bytes entries ∅ ∅ hashes_by_id lookup)
  end.

(** [IdentifierInterner::decode_snapshot_sections] *)
Definition decode_interner (reader : SnapshotReader) (validation : SnapshotValidationMode)
    : sresult IdentifierInterner :=
  let header := reader_header reader in
  bytes ← reader_section reader SymbolBytes;
  table ← reader_section reader SymbolTable;
  count ← checked_usize_from_u32 (symbol_count header);
  _ ← guard_err (negb (section_row_count table =? symbol_count header))
        (SFormat "symbol table row count does not match header");
  widths ← if bool_decide (format_version header = V3) then symbol_table_widths (section_flags table)
           else
             _ ← guard_err (negb (section_flags table =? 0))
                   (SFormat "symbol table flags are unsupported");
             Ok (U32, U32);
  entry_len ← checked_add_usize (width_byte_len widths.1) (width_byte_len widths.2);
  expected_len ← checked_mul_usize count entry_len;
  _ ← guard_err (negb (len_of (section_bytes table) =? expected_len))
        (SFormat "symbol table length does not match symbol count");
  entries ← read_exactly
              (read_times (Z.to_nat count)
                 (read_symbol_entry (section_bytes bytes) widths.1 widths.2))
              (section_bytes table) "symbol table has trailing bytes";
  hashes_by_id ← decode_symbol_hashes reader (symbol_count header);
  lookup ← decode_symbol_lookup reader (symbol_count header) hashes_by_id;
  interner_from_snapshot_parts (bytes_str (section_bytes bytes)) entries hashes_by_id lookup validation.
End symbols.
