(* ===== verification/SnapshotIndexes.v ===== *)
(** * Row and index sections of a snapshot (src/src/relationship.rs)

    Rows as six fields of one width, and the seven posting indexes: their
    groups sorted by key, singletons with their row id next to the key, the
    others with a range whose further row ids are delta varints; and the two
    decoders, the one that validates every entry and the trusting one. *)

From S2P Require Import Prelude Model Domain StoreTypes Interner LiveRows Posting Row Identity.
From S2P Require Import Store Legacy SnapshotBytes Snapshot SnapshotSymbols.

Local Open Scope Z_scope.

Definition DISK_INDEX_DIRECTORY_LEN : Z := 20.
Definition DISK_INDEX_KEY_LEN : Z := 12.
Definition DISK_POSTING_RANGE_LEN : Z := 12.
Definition DISK_ROW_ID_LEN : Z := 4.
Definition INDEX_DIRECTORY_FLAG_V3_COMPACT : Z := 1.
Definition INDEX_DIRECTORY_KEY_WIDTH_SHIFT : Z := 1.
Definition INDEX_DIRECTORY_KEY_WIDTH_MASK : Z := 6.
Definition SNAPSHOT_INDEX_KIND_COUNT : Z := 7.

(** ** Rows *)

Record DiskRelationshipRow := mkDiskRow {
  disk_resource_type : Z;
  disk_resource_id : Z;
  disk_relation : Z;
  disk_subject_type : Z;
  disk_subject_id : Z;
  disk_subject_relation : Z
}.

(** [From<&RelationshipRow> for DiskRelationshipRow] *)
Definition disk_row (r : RelationshipRow) : DiskRelationshipRow :=
  mkDiskRow (Zpos (row_resource_type r)) (Zpos (row_resource_id r)) (Zpos (row_relation r))
    (Zpos (row_subject_type r)) (Zpos (row_subject_id r))
    match row_subject_relation r with Some rel => Zpos rel | None => 0 end.

Definition disk_row_fields (r : DiskRelationshipRow) : list Z :=
  [disk_resource_type r; disk_resource_id r; disk_relation r; disk_subject_type r;
   disk_subject_id r; disk_subject_relation r].

(** The bytes [encode_width] appends. *)
Definition encode_row (w : SnapshotKeyWidth) (r : DiskRelationshipRow) : list Z :=
  concat (encode_value w <$> disk_row_fields r).

(** [live_disk_rows] *)
Definition live_disk_rows (st : Store) : list DiskRelationshipRow :=
  disk_row <$> filter (λ row, is_live st row = true) (rows st).

(** [slice::chunks_exact]: an incomplete last chunk is ignored. *)
Fixpoint chunks (k n : nat) (l : list Z) : list (list Z) :=
  match k with
  | O => []
  | S k => take n l :: chunks k n (drop n l)
  end.
Definition chunks_exact (n : nat) (l : list Z) : list (list Z) := chunks (length l / n) n l.

(** [decode_snapshot_row_fields]: the four decoders differ in the width of the
    fields only; three bytes are read as four with a zero. *)
Definition field_value (w : SnapshotKeyWidth) (field : list Z) : Z :=
  match w with
  | U24 => from_le_bytes (field ++ [0])
  | _ => from_le_bytes field
  end.

Definition decode_row_fields (w : SnapshotKeyWidth) (row_bytes : list Z)
    : sresult (Z * Z * Z * Z * Z * Z) :=
  _ ← guard_err (negb (length row_bytes =? 6 * width_len w)%nat)
        (SFormat "relationship row width is invalid");
  match field_value w <$> chunks 6 (width_len w) row_bytes with
  | [a; b; c; d; e; f] => Ok (a, b, c, d, e, f)
  | _ => Err (SFormat "relationship row width is invalid")
  end.

(** [Ident::try_from(interner.resolve(id)?)?] *)
Definition validate_ident (kind : IdentifierKind) (st : IdentifierInterner) (id : SymbolId)
    : sresult unit :=
  value ← map_err SStore (resolve st id);
  _ ← map_err SDomain (ident_new kind value);
  Ok tt.

Definition validate_row_domains (st : IdentifierInterner) (row : RelationshipRow)
    : sresult unit :=
  _ ← validate_ident KObjectType st (row_resource_type row);
  _ ← validate_ident KObjectId st (row_resource_id row);
  _ ← validate_ident KRelationName st (row_relation row);
  _ ← validate_ident KSubjectType st (row_subject_type row);
  _ ← validate_ident KSubjectId st (row_subject_id row);
  match row_subject_relation row with
  | Some rel => validate_ident KRelationName st rel
  | None => Ok tt
  end.

(** [RowId::from_snapshot_raw] *)
Definition row_from_snapshot_raw (value row_count : Z) : sresult RowId :=
  value ← ok_or (non_zero value) (SFormat "row id must be non-zero");
  _ ← guard_err (row_count <? value) (SFormat "row id is out of bounds");
  Ok (Z.to_pos value).

Record DecodedSnapshotRows := mkDecodedRows {
  decoded_rows : list RelationshipRow;
  decoded_live_rows : LiveRows;
  decoded_uniqueness : UniquenessState
}.

Section rows.
Context `{Hasher}.

(** The row of six fields. *)
Definition row_from_fields (row_id : RowId) (symbols : Z) (fields : Z * Z * Z * Z * Z * Z)
    : sresult RelationshipRow :=
  let '(resource_type, resource_id, rel, subject_type, subject_id, subject_rel) := fields in
  resource_type ← symbol_from_snapshot_raw resource_type symbols;
  resource_id ← symbol_from_snapshot_raw resource_id symbols;
  rel ← symbol_from_snapshot_raw rel symbols;
  subject_type ← symbol_from_snapshot_raw subject_type symbols;
  subject_id ← symbol_from_snapshot_raw subject_id symbols;
  subject_rel ← if subject_rel =? 0 then Ok None
                else Some <$> symbol_from_snapshot_raw subject_rel symbols;
  Ok (mkRow row_id resource_type resource_id rel subject_type subject_id subject_rel).

(** The body of the loop over the chunks: the rows so far and the detector. *)
Definition decode_row (st : IdentifierInterner) (w : SnapshotKeyWidth) (symbols : Z) (full : bool)
    (acc : list RelationshipRow * RelationshipIdentityIndex) (p : nat * list Z)
    : sresult (list RelationshipRow * RelationshipIdentityIndex) :=
  row_id ← map_err SStore (row_id_from_len p.1);
  fields ← decode_row_fields w p.2;
  row ← row_from_fields row_id symbols fields;
  if full then
    _ ← validate_row_domains st row;
    _ ← guard_err (bool_decide (is_Some (identity_find acc.2 acc.1 row)))
          (SFormat "duplicate relationship row in snapshot");
    Ok (acc.1 ++ [row], identity_insert acc.2 acc.1 row_id row)
  else Ok (acc.1 ++ [row], acc.2).

Definition decode_snapshot_rows (reader : SnapshotReader) (st : IdentifierInterner)
    (validation : SnapshotValidationMode) : sresult DecodedSnapshotRows :=
  let header := reader_header reader in
  section ← reader_section reader RelationshipRows;
  row_count ← checked_usize_from_u32 (relationship_count header);
  _ ← guard_err (negb (section_row_count section =? relationship_count header))
        (SFormat "relationship row count does not match header");
  w ← section_width reader section "relationship row flags are unsupported";
  row_byte_len ← checked_mul_usize (width_byte_len w) 6;
  expected_len ← checked_mul_usize row_count row_byte_len;
  _ ← guard_err (negb (len_of (section_bytes section) =? expected_len))
        (SFormat "relationship row length does not match row count");
  let full := bool_decide (validation = ValidationFull) in
  let row_chunks := chunks_exact (Z.to_nat row_byte_len) (section_bytes section) in
  acc ← try_fold (decode_row st w (symbol_count header) full) ([], identity_default)
          (zip (seq 0 (length row_chunks)) row_chunks);
  Ok (mkDecodedRows acc.1 (live_full (Z.to_nat row_count))
        (if full then KnownUniqueButNotIndexed else UntrustedNotIndexed)).
End rows.

(** ** Index vocabulary *)

Record DiskIndexKey := mkDiskKey { key_first : Z; key_second : Z; key_third : Z }.

#[global] Instance DiskIndexKey_eq_dec : EqDecision DiskIndexKey.
Proof. solve_decision. Defined.

(** The derived [Ord]: fields in order. *)
Definition disk_compare (a b : DiskIndexKey) : comparison :=
  match key_first a ?= key_first b with
  | Eq => match key_second a ?= key_second b with
          | Eq => key_third a ?= key_third b
          | c => c
          end
  | c => c
  end.
Definition disk_ltb (a b : DiskIndexKey) : bool :=
  match disk_compare a b with Lt => true | _ => false end.

(** [DiskIndexKey::max_field] *)
Definition max_field (k : DiskIndexKey) (field_count : Z) : sresult Z :=
  match field_count with
  | 1 => Ok (key_first k)
  | 2 => Ok (Z.max (key_first k) (key_second k))
  | 3 => Ok (Z.max (Z.max (key_first k) (key_second k)) (key_third k))
  | _ => Err (SFormat "index key field count is unsupported")
  end.

Record DiskPostingRange := mkDiskRange {
  range_first_row_id : Z;
  range_overflow_start : Z;
  range_overflow_len : Z
}.

(** The bytes [DiskPostingRange::encode] appends. *)
Definition encode_range (r : DiskPostingRange) : list Z :=
  le_bytes 4 (range_first_row_id r) ++ le_bytes 4 (range_overflow_start r) ++
  le_bytes 4 (range_overflow_len r).

Inductive SnapshotIndexKind :=
| KResource | KResourceObject | KResourceTypeRelation | KResourceType
| KSubject | KSubjectTypeRelation | KSubjectTypeIndex.

#[global] Instance SnapshotIndexKind_eq_dec : EqDecision SnapshotIndexKind.
Proof. solve_decision. Defined.

Definition ALL_INDEX_KINDS : list SnapshotIndexKind :=
  [KResource; KResourceObject; KResourceTypeRelation; KResourceType;
   KSubject; KSubjectTypeRelation; KSubjectTypeIndex].

Definition index_kind_raw (k : SnapshotIndexKind) : Z :=
  match k with
  | KResource => 1 | KResourceObject => 2 | KResourceTypeRelation => 3 | KResourceType => 4
  | KSubject => 5 | KSubjectTypeRelation => 6 | KSubjectTypeIndex => 7
  end.

Definition index_kind_from_raw (value : Z) : sresult SnapshotIndexKind :=
  match value with
  | 1 => Ok KResource | 2 => Ok KResourceObject | 3 => Ok KResourceTypeRelation
  | 4 => Ok KResourceType | 5 => Ok KSubject | 6 => Ok KSubjectTypeRelation
  | 7 => Ok KSubjectTypeIndex
  | _ => Err (SFormat "unknown snapshot index kind")
  end.

Definition key_field_count (k : SnapshotIndexKind) : Z :=
  match k with
  | KResource | KSubject => 3
  | KResourceObject | KResourceTypeRelation | KSubjectTypeRelation => 2
  | KResourceType | KSubjectTypeIndex => 1
  end.

Inductive SnapshotIndexEncoding := FixedV2 | CompactV3 (key_width : SnapshotKeyWidth).

Definition encoding_flags (e : SnapshotIndexEncoding) : Z :=
  match e with
  | FixedV2 => 0
  | CompactV3 key_width =>
      Z.lor INDEX_DIRECTORY_FLAG_V3_COMPACT
        (Z.shiftl (width_flag_bits key_width) INDEX_DIRECTORY_KEY_WIDTH_SHIFT)
  end.

Definition encoding_from_flags (flags : Z) : sresult SnapshotIndexEncoding :=
  if flags =? 0 then Ok FixedV2 else
  _ ← guard_err (Z.land flags INDEX_DIRECTORY_FLAG_V3_COMPACT =? 0)
        (SFormat "index directory flags are unsupported");
  let known := Z.lor INDEX_DIRECTORY_FLAG_V3_COMPACT INDEX_DIRECTORY_KEY_WIDTH_MASK in
  _ ← guard_err (negb (Z.land flags (not_u16 known) =? 0))
        (SFormat "index directory flags are unsupported");
  let width_bits := Z.shiftr (Z.land flags INDEX_DIRECTORY_KEY_WIDTH_MASK)
                      INDEX_DIRECTORY_KEY_WIDTH_SHIFT in
  CompactV3 <$> width_from_flag_bits width_bits.

(** ** Encoding the indexes *)

(** [BTreeMap<DiskIndexKey, Vec<u32>>]: the entries in key order. *)
Abbreviation IndexGroup := (list (DiskIndexKey * list Z)).

(** [group.entry(key).or_default().push(row_id)] *)
Fixpoint group_push (key : DiskIndexKey) (row_id : Z) (g : IndexGroup) : IndexGroup :=
  match g with
  | [] => [(key, [row_id])]
  | (k, ids) :: g' =>
      match disk_compare key k with
      | Lt => (key, [row_id]) :: g
      | Eq => (k, ids ++ [row_id]) :: g'
      | Gt => (k, ids) :: group_push key row_id g'
      end
  end.

Record SnapshotIndexGroups := mkGroups {
  group_resource : IndexGroup;
  group_resource_object : IndexGroup;
  group_resource_type_relation : IndexGroup;
  group_resource_type : IndexGroup;
  group_subject : IndexGroup;
  group_subject_type_relation : IndexGroup;
  group_subject_type : IndexGroup
}.

Definition groups_default : SnapshotIndexGroups := mkGroups [] [] [] [] [] [] [].

(** [SnapshotIndexGroups::group] *)
Definition group_of (g : SnapshotIndexGroups) (k : SnapshotIndexKind) : IndexGroup :=
  match k with
  | KResource => group_resource g
  | KResourceObject => group_resource_object g
  | KResourceTypeRelation => group_resource_type_relation g
  | KResourceType => group_resource_type g
  | KSubject => group_subject g
  | KSubjectTypeRelation => group_subject_type_relation g
  | KSubjectTypeIndex => group_subject_type g
  end.

(** [SnapshotIndexGroups::insert_row] *)
Definition insert_row (row : DiskRelationshipRow) (row_id : Z) (p : IndexProfile)
    (g : SnapshotIndexGroups) : SnapshotIndexGroups :=
  let '(mkDiskRow resource_type resource_id rel subject_type subject_id subject_rel) := row in
  let g := mkGroups
    (group_push (mkDiskKey resource_type resource_id rel) row_id (group_resource g))
    (group_resource_object g) (group_resource_type_relation g) (group_resource_type g)
    (group_subject g) (group_subject_type_relation g) (group_subject_type g) in
  if negb (supports_broad_resource_indexes p) then g else
  let g := mkGroups (group_resource g)
    (group_push (mkDiskKey resource_type resource_id 0) row_id (group_resource_object g))
    (group_push (mkDiskKey resource_type rel 0) row_id (group_resource_type_relation g))
    (group_push (mkDiskKey resource_type 0 0) row_id (group_resource_type g))
    (group_subject g) (group_subject_type_relation g) (group_subject_type g) in
  if negb (supports_subject_reverse_lookup p) then g else
  let subjects := group_push (mkDiskKey subject_type subject_id subject_rel) row_id
                    (group_subject g) in
  let '(subjects, type_relations) :=
    if subject_rel =? 0 then (subjects, group_subject_type_relation g)
    else (group_push (mkDiskKey subject_type subject_id 0) row_id subjects,
          group_push (mkDiskKey subject_type subject_rel 0) row_id (group_subject_type_relation g)) in
  mkGroups (group_resource g) (group_resource_object g) (group_resource_type_relation g)
    (group_resource_type g) subjects type_relations
    (group_push (mkDiskKey subject_type 0 0) row_id (group_subject_type g)).

(** The byte buffers the groups are appended to. *)
Record IndexBuffers := mkBuffers {
  buf_keys : list Z;
  buf_ranges : list Z;
  buf_posting_row_ids : list Z
}.

Record EncodedIndexGroup := mkEncodedGroup {
  eg_encoding : SnapshotIndexEncoding;
  eg_key_count : Z;
  eg_multi_count : Z;
  eg_overflow_row_id_count : Z
}.

(** The bytes [encode_v3_key] appends. *)
Definition encode_v3_key (k : SnapshotIndexKind) (key : DiskIndexKey) (w : SnapshotKeyWidth)
    : list Z :=
  encode_value w (key_first key) ++
  (if 2 <=? key_field_count k then encode_value w (key_second key) else []) ++
  (if 3 <=? key_field_count k then encode_value w (key_third key) else []).

(** The bytes the loop of [encode_posting_delta_varint] appends: a [u32] has at
    most five groups of seven bits. *)
Fixpoint varint_bytes (fuel : nat) (remaining : Z) : list Z :=
  match fuel with
  | O => []
  | S fuel =>
      if 128 <=? remaining
      then Z.lor (Z.land remaining 127) 128 :: varint_bytes fuel (Z.shiftr remaining 7)
      else [remaining]
  end.

Definition encode_posting_delta_varint (value : Z) : sresult (list Z) :=
  _ ← guard_err (value =? 0) (SFormat "posting row id delta must be non-zero");
  Ok (varint_bytes 5 value).

(** The loop over the row ids after the first, with [previous]. *)
Fixpoint encode_deltas (previous : Z) (rest : list Z) (posting_row_ids : list Z)
    : sresult (list Z) :=
  match rest with
  | [] => Ok posting_row_ids
  | row_id :: rest =>
      _ ← guard_err (row_id <=? previous)
            (SFormat "posting row ids are not strictly increasing");
      delta ← ok_or (checked_sub row_id previous) (SFormat "posting row id delta underflowed");
      bytes ← encode_posting_delta_varint delta;
      encode_deltas row_id rest (posting_row_ids ++ bytes)
  end.

(** The range, its overflow count and the posting bytes after it. *)
Definition encode_v3_posting_range (row_ids : list Z) (posting_row_ids : list Z)
    : sresult (DiskPostingRange * Z * list Z) :=
  match row_ids with
  | [] => Err (SFormat "empty posting list")
  | first :: rest =>
      overflow_start ← checked_u32_from_usize (len_of posting_row_ids);
      overflow_row_id_count ← checked_u32_from_usize (len_of rest);
      posting ← encode_deltas first rest posting_row_ids;
      start ← checked_usize_from_u32 overflow_start;
      written ← ok_or (checked_sub (len_of posting) start)
                  (SFormat "posting row id length underflowed");
      overflow_len ← checked_u32_from_usize written;
      Ok (mkDiskRange first overflow_start overflow_len, overflow_row_id_count, posting)
  end.

Definition snapshot_key_width (k : SnapshotIndexKind) (g : IndexGroup) : sresult SnapshotKeyWidth :=
  width_for_max <$>
    try_fold (λ m key, f ← max_field key (key_field_count k); Ok (Z.max m f)) 0 g.*1.

Definition is_single (e : DiskIndexKey * list Z) : bool := (length e.2 =? 1)%nat.
Definition is_multi (e : DiskIndexKey * list Z) : bool := (1 <? length e.2)%nat.

(** The loop over the singletons. *)
Definition encode_single (k : SnapshotIndexKind) (w : SnapshotKeyWidth) (keys : list Z)
    (e : DiskIndexKey * list Z) : sresult (list Z) :=
  row_id ← ok_or (head e.2) (SFormat "empty posting list");
  Ok (keys ++ encode_v3_key k e.1 w ++ le_bytes 4 row_id).

(** The loop over the others, with [overflow_row_id_count]. *)
Definition encode_multi (k : SnapshotIndexKind) (w : SnapshotKeyWidth)
    (acc : IndexBuffers * Z) (e : DiskIndexKey * list Z) : sresult (IndexBuffers * Z) :=
  let '(b, count) := acc in
  '(range, overflow, posting) ← encode_v3_posting_range e.2 (buf_posting_row_ids b);
  count ← ok_or (checked_add u32_max count overflow) (SFormat "posting row id count overflowed");
  Ok (mkBuffers (buf_keys b ++ encode_v3_key k e.1 w) (buf_ranges b ++ encode_range range) posting,
      count).

Definition encode_v3_index_group (k : SnapshotIndexKind) (g : IndexGroup) (b : IndexBuffers)
    : sresult (EncodedIndexGroup * IndexBuffers) :=
  key_count ← checked_u32_from_usize (len_of g);
  multi_count ← checked_u32_from_usize (len_of (filter (λ e, is_multi e = true) g));
  w ← snapshot_key_width k g;
  keys ← try_fold (encode_single k w) (buf_keys b) (filter (λ e, is_single e = true) g);
  acc ← try_fold (encode_multi k w) (mkBuffers keys (buf_ranges b) (buf_posting_row_ids b), 0)
          (filter (λ e, is_multi e = true) g);
  Ok (mkEncodedGroup (CompactV3 w) key_count multi_count acc.2, acc.1).

Record EncodedSnapshotIndexes := mkEncodedIndexes {
  ei_directory : list Z;
  ei_buffers : IndexBuffers;
  ei_key_count : Z;
  ei_range_count : Z;
  ei_posting_row_id_count : Z
}.

(** The body of the loop over the index kinds. *)
Definition encode_index_kind (groups : SnapshotIndexGroups) (acc : EncodedSnapshotIndexes)
    (k : SnapshotIndexKind) : sresult EncodedSnapshotIndexes :=
  key_start ← checked_u32_from_usize (len_of (buf_keys (ei_buffers acc)));
  let range_start := ei_range_count acc in
  '(encoded, b) ← encode_v3_index_group k (group_of groups k) (ei_buffers acc);
  key_count ← ok_or (checked_add u32_max (ei_key_count acc) (eg_key_count encoded))
                (SFormat "index key count overflowed");
  range_count ← ok_or (checked_add u32_max (ei_range_count acc) (eg_multi_count encoded))
                  (SFormat "posting range count overflowed");
  posting_count ← ok_or (checked_add u32_max (ei_posting_row_id_count acc)
                           (eg_overflow_row_id_count encoded))
                    (SFormat "posting row id count overflowed");
  Ok (mkEncodedIndexes
        (ei_directory acc ++ le_bytes 2 (index_kind_raw k) ++
         le_bytes 2 (encoding_flags (eg_encoding encoded)) ++ le_bytes 4 key_start ++
         le_bytes 4 (eg_key_count encoded) ++ le_bytes 4 range_start ++
         le_bytes 4 (eg_multi_count encoded))
        b key_count range_count posting_count).

(** The first loop of [from_rows]. *)
Definition group_row (p : IndexProfile) (groups : SnapshotIndexGroups)
    (row : nat * DiskRelationshipRow) : sresult SnapshotIndexGroups :=
  index ← ok_or (checked_add usize_max (Z.of_nat row.1) 1) (SFormat "row id overflowed");
  row_id ← checked_u32_from_usize index;
  Ok (insert_row row.2 row_id p groups).

(** [EncodedSnapshotIndexes::from_rows] *)
Definition encoded_from_rows (rows : list DiskRelationshipRow) (p : IndexProfile)
    : sresult EncodedSnapshotIndexes :=
  groups ← try_fold (group_row p) groups_default (zip (seq 0 (length rows)) rows);
  try_fold (encode_index_kind groups) (mkEncodedIndexes [] (mkBuffers [] [] []) 0 0 0)
    ALL_INDEX_KINDS.

(** ** Decoding the index sections *)

Record DiskIndexDirectoryEntry := mkIndexEntry {
  de_kind : SnapshotIndexKind;
  de_encoding : SnapshotIndexEncoding;
  de_key_start : Z;
  de_key_count : Z;
  de_posting_range_start : Z;
  de_posting_range_count : Z
}.

Inductive DecodedIndexKeys :=
| FixedKeys (keys : list DiskIndexKey)
| CompactKeys (bytes : list Z) (row_count : Z).

Inductive DecodedPostingRowIds :=
| FixedIds (row_ids : list RowId)
| DeltaVarint (bytes : list Z) (row_count : Z).

(** The loop over the directory, with the kinds seen. *)
Fixpoint read_index_directory (n : nat) (seen : list SnapshotIndexKind)
    : Reads (list DiskIndexDirectoryEntry) :=
  match n with
  | O => st_ret []
  | S n =>
      let! raw := read_u16 in
      let! kind := st_lift (index_kind_from_raw raw) in
      let! flags := read_u16 in
      let! encoding := st_lift (encoding_from_flags flags) in
      let! _ := st_lift (guard_err (bool_decide (kind ∈ seen))
                           (SFormat "duplicate snapshot index kind")) in
      let! key_start := read_u32 in
      let! key_count := read_u32 in
      let! range_start := read_u32 in
      let! range_count := read_u32 in
      let! entries := read_index_directory n (kind :: seen) in
      st_ret (mkIndexEntry kind encoding key_start key_count range_start range_count :: entries)
  end.

Definition decode_index_directory (reader : SnapshotReader) : sresult (list DiskIndexDirectoryEntry) :=
  section ← reader_section reader IndexDirectory;
  _ ← guard_err (negb (section_row_count section =? SNAPSHOT_INDEX_KIND_COUNT))
        (SFormat "index directory row count is invalid");
  expected_len ← checked_mul_usize SNAPSHOT_INDEX_KIND_COUNT DISK_INDEX_DIRECTORY_LEN;
  _ ← guard_err (negb (len_of (section_bytes section) =? expected_len))
        (SFormat "index directory length is invalid");
  read_all (read_index_directory 7 []) (section_bytes section).

Definition is_v3 (reader : SnapshotReader) : bool :=
  bool_decide (format_version (reader_header reader) = V3).

Definition read_disk_key : Reads DiskIndexKey :=
  let! first := read_u32 in
  let! second := read_u32 in
  let! third := read_u32 in
  st_ret (mkDiskKey first second third).

Definition decode_index_keys (reader : SnapshotReader) : sresult DecodedIndexKeys :=
  section ← reader_section reader IndexKeys;
  if is_v3 reader then
    _ ← guard_err (bool_decide (section_bytes section = []) && negb (section_row_count section =? 0))
          (SFormat "index key length does not match row count");
    Ok (CompactKeys (section_bytes section) (section_row_count section))
  else
    row_count ← checked_usize_from_u64 (section_row_count section);
    expected_len ← checked_mul_usize row_count DISK_INDEX_KEY_LEN;
    _ ← guard_err (negb (len_of (section_bytes section) =? expected_len))
          (SFormat "index key length does not match row count");
    FixedKeys <$> read_all (read_times (Z.to_nat row_count) read_disk_key) (section_bytes section).

Definition read_disk_range : Reads DiskPostingRange :=
  let! first := read_u32 in
  let! overflow_start := read_u32 in
  let! overflow_len := read_u32 in
  st_ret (mkDiskRange first overflow_start overflow_len).

Definition decode_posting_ranges (reader : SnapshotReader) : sresult (list DiskPostingRange) :=
  section ← reader_section reader PostingRanges;
  row_count ← checked_usize_from_u64 (section_row_count section);
  expected_len ← checked_mul_usize row_count DISK_POSTING_RANGE_LEN;
  _ ← guard_err (negb (len_of (section_bytes section) =? expected_len))
        (SFormat "posting range length does not match row count");
  read_all (read_times (Z.to_nat row_count) read_disk_range) (section_bytes section).

Definition read_row_id (total_rows : Z) : Reads RowId :=
  let! value := read_u32 in
  st_lift (row_from_snapshot_raw value total_rows).

Definition decode_posting_row_ids (reader : SnapshotReader) : sresult DecodedPostingRowIds :=
  section ← reader_section reader PostingRowIds;
  if is_v3 reader then Ok (DeltaVarint (section_bytes section) (section_row_count section)) else
  row_count ← checked_usize_from_u64 (section_row_count section);
  expected_len ← checked_mul_usize row_count DISK_ROW_ID_LEN;
  _ ← guard_err (negb (len_of (section_bytes section) =? expected_len))
        (SFormat "posting row id length does not match row count");
  FixedIds <$> read_all (read_times (Z.to_nat row_count)
                           (read_row_id (relationship_count (reader_header reader))))
                 (section_bytes section).

(** ** Layout of the version 3 sections *)

Abbreviation Span := (Z * Z)%type.

(** [compact_index_key_span]: the bytes of the group's singletons and of all
    its keys. *)
Record CompactSpans := mkSpans {
  span_start : Z;
  span_singletons : Z;
  span_singleton_count : Z;
  span_end : Z
}.

Definition compact_spans (entry : DiskIndexDirectoryEntry) (w : SnapshotKeyWidth) : sresult CompactSpans :=
  _ ← guard_err (de_key_count entry <? de_posting_range_count entry)
        (SFormat "posting range count exceeds compact key count");
  key_start ← checked_usize_from_u32 (de_key_start entry);
  key_count ← checked_usize_from_u32 (de_key_count entry);
  multi_count ← checked_usize_from_u32 (de_posting_range_count entry);
  singleton_count ← ok_or (checked_sub key_count multi_count)
                      (SFormat "compact singleton count underflowed");
  key_len ← checked_mul_usize (key_field_count (de_kind entry)) (width_byte_len w);
  singleton_entry_len ← checked_add_usize key_len DISK_ROW_ID_LEN;
  singleton_bytes_len ← checked_mul_usize singleton_count singleton_entry_len;
  multi_bytes_len ← checked_mul_usize multi_count key_len;
  group_bytes_len ← checked_add_usize singleton_bytes_len multi_bytes_len;
  key_end ← checked_add_usize key_start group_bytes_len;
  Ok (mkSpans key_start singleton_bytes_len singleton_count key_end).

Definition compact_index_key_span (entry : DiskIndexDirectoryEntry) (w : SnapshotKeyWidth)
    : sresult Span :=
  s ← compact_spans entry w;
  Ok (span_start s, span_end s).

Definition index_range_span (entry : DiskIndexDirectoryEntry) : sresult Span :=
  range_start ← checked_usize_from_u32 (de_posting_range_start entry);
  range_count ← checked_usize_from_u32 (de_posting_range_count entry);
  range_end ← checked_add_usize range_start range_count;
  Ok (range_start, range_end).

Definition span_leb (a b : Span) : bool := (a.1 <? b.1) || ((a.1 =? b.1) && (a.2 <=? b.2)).

(** The loop of [validate_spans_cover], with the cursor. *)
Definition cover_step (reason : string) (cursor : Z) (s : Span) : sresult Z :=
  _ ← guard_err ((s.2 <? s.1) || negb (s.1 =? cursor)) (SFormat reason);
  Ok s.2.

Definition validate_spans_cover (spans : list Span) (total_len : Z) (reason : string)
    : sresult unit :=
  cursor ← try_fold (cover_step reason) 0 (sort_by span_leb spans);
  guard_err (negb (cursor =? total_len)) (SFormat reason).

(** The body of the loop over the ranges: the spans so far. *)
Definition posting_span (posting_len row_count : Z) (spans : list Span) (r : DiskPostingRange)
    : sresult (list Span) :=
  _ ← row_from_snapshot_raw (range_first_row_id r) row_count;
  start ← checked_usize_from_u32 (range_overflow_start r);
  len ← checked_usize_from_u32 (range_overflow_len r);
  last ← checked_add_usize start len;
  _ ← guard_err (posting_len <? last) (SFormat "posting range points outside posting row ids");
  Ok (if len =? 0 then spans else spans ++ [(start, last)]).

Definition validate_v3_posting_row_id_spans (ranges : list DiskPostingRange) (bytes : list Z)
    (row_count : Z) : sresult unit :=
  spans ← try_fold (posting_span (len_of bytes) row_count) [] ranges;
  validate_spans_cover spans (len_of bytes) "posting row id spans do not cover section".

(** The totals and spans of the loop over the directory. *)
Record LayoutTotals := mkTotals {
  total_keys : Z;
  total_ranges : Z;
  key_spans : list Span;
  range_spans : list Span
}.

Definition layout_entry (key_len ranges_len : Z) (t : LayoutTotals) (entry : DiskIndexDirectoryEntry)
    : sresult LayoutTotals :=
  match de_encoding entry with
  | FixedV2 => Err (SFormat "v3 index directory contains non-compact encoding")
  | CompactV3 w =>
      keys ← ok_or (checked_add u64_max (total_keys t) (de_key_count entry))
               (SFormat "index key count overflowed");
      ranges ← ok_or (checked_add u64_max (total_ranges t) (de_posting_range_count entry))
                 (SFormat "posting range count overflowed");
      key_span ← compact_index_key_span entry w;
      _ ← guard_err (key_len <? key_span.2) (SFormat "compact index key range is out of bounds");
      range_span ← index_range_span entry;
      _ ← guard_err (ranges_len <? range_span.2) (SFormat "posting range span is out of bounds");
      Ok (mkTotals keys ranges (key_spans t ++ [key_span]) (range_spans t ++ [range_span]))
  end.

Definition validate_v3_compact_index_sections (directory : list DiskIndexDirectoryEntry)
    (key_bytes : list Z) (key_row_count : Z) (ranges : list DiskPostingRange)
    (posting_bytes : list Z) (row_count : Z) : sresult unit :=
  t ← try_fold (layout_entry (len_of key_bytes) (len_of ranges)) (mkTotals 0 0 [] []) directory;
  _ ← guard_err (negb (total_keys t =? key_row_count))
        (SFormat "index key row count does not match directory");
  ranges_len ← ok_or (try_from_uint u64_max (len_of ranges)) (SLimitExceeded "posting ranges");
  _ ← guard_err (negb (total_ranges t =? ranges_len))
        (SFormat "posting range row count does not match directory");
  _ ← validate_spans_cover (key_spans t) (len_of key_bytes)
        "compact index key spans do not cover section";
  _ ← validate_spans_cover (range_spans t) (len_of ranges)
        "posting range spans do not cover section";
  validate_v3_posting_row_id_spans ranges posting_bytes row_count.

Definition validate_index_section_layout (directory : list DiskIndexDirectoryEntry)
    (keys : DecodedIndexKeys) (ranges : list DiskPostingRange)
    (posting_row_ids : DecodedPostingRowIds) (row_count : Z) : sresult unit :=
  match keys, posting_row_ids with
  | FixedKeys _, FixedIds _ => Ok tt
  | CompactKeys key_bytes key_row_count, DeltaVarint posting_bytes _ =>
      validate_v3_compact_index_sections directory key_bytes key_row_count ranges posting_bytes
        row_count
  | _, _ => Err (SFormat "index section encodings do not match snapshot format")
  end.

(** ** The entries of one index *)

Record SnapshotIndexEntry := mkIndexItem { item_key : DiskIndexKey; item_range : DiskPostingRange }.

(** [windows(2).any(left >= right)] *)
Fixpoint unsorted (keys : list DiskIndexKey) : bool :=
  match keys with
  | a :: ((b :: _) as keys') => negb (disk_ltb a b) || unsorted keys'
  | _ => false
  end.

Definition validate_sorted_keys (keys : list DiskIndexKey) : sresult unit :=
  guard_err (unsorted keys) (SFormat "index keys are not strictly sorted").
Definition validate_sorted_entries (entries : list SnapshotIndexEntry) : sresult unit :=
  guard_err (unsorted (item_key <$> entries)) (SFormat "index keys are not strictly sorted").

Definition decode_compact_key (k : SnapshotIndexKind) (w : SnapshotKeyWidth) : Reads DiskIndexKey :=
  let! first := read_value w in
  let! second := if 2 <=? key_field_count k then read_value w else st_ret 0 in
  let! third := if 3 <=? key_field_count k then read_value w else st_ret 0 in
  st_ret (mkDiskKey first second third).

Definition read_singleton (k : SnapshotIndexKind) (w : SnapshotKeyWidth) : Reads SnapshotIndexEntry :=
  let! key := decode_compact_key k w in
  let! row_id := read_u32 in
  st_ret (mkIndexItem key (mkDiskRange row_id 0 0)).

Definition decode_compact_singletons (k : SnapshotIndexKind) (w : SnapshotKeyWidth)
    (bytes : list Z) (count : Z) : sresult (list SnapshotIndexEntry) :=
  entries ← read_all (read_times (Z.to_nat count) (read_singleton k w)) bytes;
  _ ← validate_sorted_entries entries;
  Ok entries.

(** The loop over the ranges. *)
Fixpoint read_multis (k : SnapshotIndexKind) (w : SnapshotKeyWidth)
    (ranges : list DiskPostingRange) : Reads (list SnapshotIndexEntry) :=
  match ranges with
  | [] => st_ret []
  | range :: ranges =>
      let! key := decode_compact_key k w in
      let! entries := read_multis k w ranges in
      st_ret (mkIndexItem key range :: entries)
  end.

Definition decode_compact_multi_entries (k : SnapshotIndexKind) (w : SnapshotKeyWidth)
    (bytes : list Z) (ranges : list DiskPostingRange) : sresult (list SnapshotIndexEntry) :=
  entries ← read_all (read_multis k w ranges) bytes;
  _ ← validate_sorted_entries entries;
  Ok entries.

(** The loop of [merge_compact_entries]: each turn takes one entry. *)
Fixpoint merge_entries (fuel : nat) (singletons multis merged : list SnapshotIndexEntry)
    : sresult (list SnapshotIndexEntry) :=
  match fuel with
  | O => Ok merged
  | S fuel =>
      match singletons, multis with
      | s :: singletons', m :: multis' =>
          match disk_compare (item_key s) (item_key m) with
          | Lt => merge_entries fuel singletons' multis (merged ++ [s])
          | Gt => merge_entries fuel singletons multis' (merged ++ [m])
          | Eq => Err (SFormat "duplicate compact index key")
          end
      | s :: singletons', [] => merge_entries fuel singletons' [] (merged ++ [s])
      | [], m :: multis' => merge_entries fuel [] multis' (merged ++ [m])
      | [], [] => Ok merged
      end
  end.

Definition merge_compact_entries (singletons multis : list SnapshotIndexEntry)
    : sresult (list SnapshotIndexEntry) :=
  _ ← ok_or (checked_add usize_max (len_of singletons) (len_of multis))
        (SFormat "compact index entry count overflowed");
  merged ← merge_entries (length singletons + length multis) singletons multis [];
  _ ← validate_sorted_entries merged;
  Ok merged.

Definition fixed_snapshot_index_entries (keys : list DiskIndexKey) (ranges : list DiskPostingRange)
    (entry : DiskIndexDirectoryEntry) : sresult (list SnapshotIndexEntry) :=
  _ ← guard_err (negb (de_key_count entry =? de_posting_range_count entry))
        (SFormat "index key count does not match posting range count");
  key_start ← checked_usize_from_u32 (de_key_start entry);
  key_count ← checked_usize_from_u32 (de_key_count entry);
  key_end ← checked_add_usize key_start key_count;
  range_start ← checked_usize_from_u32 (de_posting_range_start entry);
  range_count ← checked_usize_from_u32 (de_posting_range_count entry);
  range_end ← checked_add_usize range_start range_count;
  keys ← ok_or (get_range key_start key_end keys) (SFormat "index key range is out of bounds");
  ranges ← ok_or (get_range range_start range_end ranges) (SFormat "posting range span is out of bounds");
  _ ← validate_sorted_keys keys;
  Ok (zip_with mkIndexItem keys ranges).

Definition compact_snapshot_index_entries (keys : list Z) (ranges : list DiskPostingRange)
    (entry : DiskIndexDirectoryEntry) (w : SnapshotKeyWidth) : sresult (list SnapshotIndexEntry) :=
  s ← compact_spans entry w;
  group_bytes ← ok_or (get_range (span_start s) (span_end s) keys)
                  (SFormat "compact index key range is out of bounds");
  range_start ← checked_usize_from_u32 (de_posting_range_start entry);
  range_end ← checked_add_usize range_start (de_posting_range_count entry);
  multi_ranges ← ok_or (get_range range_start range_end ranges)
                   (SFormat "posting range span is out of bounds");
  singleton_bytes ← ok_or (get_range 0 (span_singletons s) group_bytes)
                      (SFormat "compact singleton keys are out of bounds");
  multi_key_bytes ← ok_or (get_range (span_singletons s) (len_of group_bytes) group_bytes)
                      (SFormat "compact multi keys are out of bounds");
  singletons ← decode_compact_singletons (de_kind entry) w singleton_bytes (span_singleton_count s);
  multis ← decode_compact_multi_entries (de_kind entry) w multi_key_bytes multi_ranges;
  merge_compact_entries singletons multis.

(** ** Posting lists *)

(** [decode_posting_delta_varint]: the loop from the byte at [offset]; [value]
    and [shift] are its locals. A fifth group is the last. *)
Fixpoint decode_varint (fuel : nat) (bytes : list Z) (offset value shift : Z) : sresult (Z * Z) :=
  match fuel with
  | O => Err (SFormat "posting row id delta varint is too long")
  | S fuel =>
      byte ← ok_or (bytes !! Z.to_nat offset) (SFormat "posting row id delta varint is truncated");
      offset ← ok_or (checked_add usize_max offset 1) (SFormat "posting row id delta offset overflowed");
      let low_bits := Z.land byte 127 in
      _ ← guard_err ((shift =? 28) && (15 <? low_bits))
            (SFormat "posting row id delta varint overflows u32");
      let value := Z.lor value (Z.shiftl low_bits shift) in
      if Z.land byte 128 =? 0 then
        _ ← guard_err (value =? 0) (SFormat "posting row id delta must be non-zero");
        Ok (value, offset)
      else
        let shift := shift + 7 in
        _ ← guard_err (28 <? shift) (SFormat "posting row id delta varint is too long");
        decode_varint fuel bytes offset value shift
  end.

Definition decode_posting_delta_varint (bytes : list Z) (offset : Z) : sresult (Z * Z) :=
  decode_varint 5 bytes offset 0 0.

Definition next_delta_row_id (previous : RowId) (delta row_count : Z) : sresult RowId :=
  row_id ← ok_or (checked_add u32_max (Zpos previous) delta) (SFormat "posting row id delta overflowed");
  row_from_snapshot_raw row_id row_count.

(** The items an iterator yields, in order. [DeltaVarintPostingIter] ends after
    an error; each item takes at least a byte. *)
Fixpoint delta_items (fuel : nat) (bytes : list Z) (offset : Z) (previous : RowId) (row_count : Z)
    : list (sresult RowId) :=
  match fuel with
  | O => []
  | S fuel =>
      if offset =? len_of bytes then [] else
      match decode_posting_delta_varint bytes offset with
      | Err e => [Err e]
      | Ok (delta, offset) =>
          match next_delta_row_id previous delta row_count with
          | Err e => [Err e]
          | Ok row_id => Ok row_id :: delta_items fuel bytes offset row_id row_count
          end
      end
  end.

(** [FixedMany] goes on after an error, with the same [previous]. *)
Fixpoint fixed_items (rest : list RowId) (previous : RowId) : list (sresult RowId) :=
  match rest with
  | [] => []
  | row_id :: rest =>
      if (row_id <=? previous)%positive
      then Err (SFormat "posting row ids are not strictly increasing") :: fixed_items rest previous
      else Ok row_id :: fixed_items rest row_id
  end.

(** [posting_row_id_iter] *)
Definition posting_row_ids (r : DiskPostingRange) (ids : DecodedPostingRowIds) (row_count : Z)
    : sresult (list (sresult RowId)) :=
  first ← row_from_snapshot_raw (range_first_row_id r) row_count;
  if range_overflow_len r =? 0 then Ok [Ok first] else
  start ← checked_usize_from_u32 (range_overflow_start r);
  len ← checked_usize_from_u32 (range_overflow_len r);
  last ← checked_add_usize start len;
  match ids with
  | FixedIds row_ids =>
      overflow ← ok_or (get_range start last row_ids)
                   (SFormat "posting range points outside posting row ids");
      Ok (Ok first :: fixed_items overflow first)
  | DeltaVarint bytes _ =>
      overflow ← ok_or (get_range start last bytes)
                   (SFormat "posting range points outside posting row ids");
      Ok (Ok first :: delta_items (length overflow) overflow 0 first row_count)
  end.

(** ** Decoding one index *)

Record SnapshotIndexDecodeInput := mkDecodeInput {
  in_directory : list DiskIndexDirectoryEntry;
  in_keys : DecodedIndexKeys;
  in_ranges : list DiskPostingRange;
  in_posting_row_ids : DecodedPostingRowIds;
  in_rows : list RelationshipRow;
  in_row_count : Z;
  in_symbol_count : Z;
  in_index_profile : IndexProfile;
  in_profile : SnapshotLoadProfile;
  in_validation : SnapshotValidationMode
}.

Definition snapshot_index_entries (input : SnapshotIndexDecodeInput) (k : SnapshotIndexKind)
    : sresult (list SnapshotIndexEntry) :=
  entry ← ok_or (List.find (λ e, bool_decide (de_kind e = k)) (in_directory input))
            (SFormat "missing snapshot index kind");
  match in_keys input, de_encoding entry with
  | FixedKeys keys, FixedV2 => fixed_snapshot_index_entries keys (in_ranges input) entry
  | CompactKeys keys _, CompactV3 w => compact_snapshot_index_entries keys (in_ranges input) entry w
  | _, _ => Err (SFormat "index encoding does not match snapshot format")
  end.

(** [SnapshotIndexDecoder] *)
Record SnapshotIndexDecoder (K : Type) := mkDecoder {
  sd_kind : SnapshotIndexKind;
  sd_key_from_disk : DiskIndexKey → Z → sresult K;
  sd_row_matches_key : RelationshipRow → DiskIndexKey → bool;
  sd_coverage_bit : RelationshipRow → DiskIndexKey → Z;
  sd_expected_mask : RelationshipRow → Z;
  sd_required_by_profile : IndexProfile → bool
}.
Arguments mkDecoder {K}.
Arguments sd_kind {K}.
Arguments sd_key_from_disk {K}.
Arguments sd_row_matches_key {K}.
Arguments sd_coverage_bit {K}.
Arguments sd_expected_mask {K}.
Arguments sd_required_by_profile {K}.

Section decode.
Context {K : Type} `{Countable K, SortKey K}.

(** The locals of the loop over the entries. *)
Record DecodeState := mkDecodeState {
  st_coverage : list Z;
  st_keys : list K;
  st_ranges : list RuntimePostingRange;
  st_overflow : list RowId;
  st_latency : PostingIndex K;
  st_count : Z
}.

(** And those of the loop over the row ids of an entry. *)
Record PostingState := mkPostingState {
  ps_coverage : list Z;
  ps_first : option RowId;
  ps_overflow : list RowId;
  ps_overflow_len : Z;
  ps_latency : PostingIndex K;
  ps_count : Z
}.

Definition increment_count (counter : Z) : sresult Z :=
  ok_or (checked_add u64_max counter 1) (SFormat "posting row id count overflowed").

Definition decode_posting (input : SnapshotIndexDecodeInput) (decoder : SnapshotIndexDecoder K)
    (disk_key : DiskIndexKey) (typed_key : K) (s : PostingState) (item : sresult RowId)
    : sresult PostingState :=
  row_id ← item;
  row ← ok_or (in_rows input !! id_index row_id)
          (SFormat "posting row id points outside relationship rows");
  _ ← guard_err (negb (sd_row_matches_key decoder row disk_key))
        (SFormat "posting row does not match index key");
  let bit := sd_coverage_bit decoder row disk_key in
  _ ← guard_err (bit =? 0) (SFormat "index coverage bit is invalid");
  mask ← ok_or (ps_coverage s !! id_index row_id)
           (SFormat "index coverage row id is out of bounds");
  _ ← guard_err (negb (Z.land mask bit =? 0)) (SFormat "duplicate posting row id in index");
  let coverage := <[id_index row_id := Z.lor mask bit]> (ps_coverage s) in
  let latency := match in_profile input with
                 | Latency => posting_insert typed_key row_id (ps_latency s)
                 | FastLoad => ps_latency s
                 end in
  match ps_first s with
  | None => Ok (mkPostingState coverage (Some row_id) (ps_overflow s) (ps_overflow_len s) latency
                  (ps_count s))
  | Some _ =>
      overflow_len ← ok_or (checked_add u32_max (ps_overflow_len s) 1)
                       (SFormat "posting overflow length overflowed");
      count ← increment_count (ps_count s);
      Ok (mkPostingState coverage (ps_first s) (ps_overflow s ++ [row_id]) overflow_len latency count)
  end.

Definition decode_entry (input : SnapshotIndexDecodeInput) (decoder : SnapshotIndexDecoder K)
    (s : DecodeState) (entry : SnapshotIndexEntry) : sresult DecodeState :=
  typed_key ← sd_key_from_disk decoder (item_key entry) (in_symbol_count input);
  items ← posting_row_ids (item_range entry) (in_posting_row_ids input) (in_row_count input);
  overflow_start ← checked_u32_from_usize (len_of (st_overflow s));
  p ← try_fold (decode_posting input decoder (item_key entry) typed_key)
        (mkPostingState (st_coverage s) None (st_overflow s) 0 (st_latency s) (st_count s)) items;
  first_row_id ← ok_or (ps_first p) (SFormat "empty posting range");
  Ok (mkDecodeState (ps_coverage p) (st_keys s ++ [typed_key])
        (st_ranges s ++ [mkRange first_row_id overflow_start (ps_overflow_len p)])
        (ps_overflow p) (ps_latency p) (ps_count p)).

(** The loop over the rows that checks what is covered. *)
Definition check_coverage (decoder : SnapshotIndexDecoder K) (p : IndexProfile)
    (row : RelationshipRow * Z) : sresult unit :=
  let expected := if sd_required_by_profile decoder p then sd_expected_mask decoder row.1 else 0 in
  guard_err (negb (row.2 =? expected)) (SFormat "index does not cover every required row").

(** One entry of [decode_trusted_fast_index]. *)
Definition trusted_item (s : list RowId * Z * Z) (item : sresult RowId) : sresult (list RowId * Z * Z) :=
  let '(overflow, overflow_len, count) := s in
  row_id ← item;
  overflow_len ← ok_or (checked_add u32_max overflow_len 1)
                   (SFormat "posting overflow length overflowed");
  count ← increment_count count;
  Ok (overflow ++ [row_id], overflow_len, count).

Definition trusted_entry (input : SnapshotIndexDecodeInput) (decoder : SnapshotIndexDecoder K)
    (s : DecodeState) (entry : SnapshotIndexEntry) : sresult DecodeState :=
  typed_key ← sd_key_from_disk decoder (item_key entry) (in_symbol_count input);
  first_row_id ← row_from_snapshot_raw (range_first_row_id (item_range entry)) (in_row_count input);
  overflow_start ← checked_u32_from_usize (len_of (st_overflow s));
  items ← posting_row_ids (item_range entry) (in_posting_row_ids input) (in_row_count input);
  item ← ok_or (head items) (SFormat "empty posting range");
  first ← item;
  _ ← guard_err (negb (bool_decide (first = first_row_id)))
        (SFormat "posting range first row id mismatch");
  p ← try_fold trusted_item (st_overflow s, 0, st_count s) (tail items);
  let '(overflow, overflow_len, count) := p in
  Ok (mkDecodeState (st_coverage s) (st_keys s ++ [typed_key])
        (st_ranges s ++ [mkRange first_row_id overflow_start overflow_len]) overflow
        (st_latency s) count).

(** [decode_index] and [decode_trusted_fast_index]; the count of decoded
    overflow row ids is passed from index to index. *)
Definition decode_index (input : SnapshotIndexDecodeInput) (decoder : SnapshotIndexDecoder K)
    (count : Z) : sresult (PostingIndex K * Z) :=
  entries ← snapshot_index_entries input (sd_kind decoder);
  let empty := mkDecodeState (replicate (length (in_rows input)) 0) [] [] [] posting_default count in
  if bool_decide (in_validation input = TrustedFastLoad) && bool_decide (in_profile input = FastLoad)
  then
    s ← try_fold (trusted_entry input decoder) empty entries;
    Ok (PSorted (st_keys s) (st_ranges s) (st_overflow s), st_count s)
  else
    s ← try_fold (decode_entry input decoder) empty entries;
    _ ← try_for (check_coverage decoder (in_index_profile input)) (zip (in_rows input) (st_coverage s));
    Ok (match in_profile input with
        | FastLoad => PSorted (st_keys s) (st_ranges s) (st_overflow s)
        | Latency => st_latency s
        end, st_count s).
End decode.
Arguments DecodeState K {_ _}.
Arguments PostingState K {_ _}.
