(* ===== verification/SnapshotDataProps.v ===== *)
(** * The symbols and rows of an accepted snapshot

    Under full validation the four symbol sections decode to an interner that
    stands for a list of distinct strings, found by their hash, and the row
    section to rows with consecutive ids that denote distinct relationships. *)

From S2P Require Import Prelude Model Domain StoreTypes Interner LiveRows Posting Row Identity.
From S2P Require Import Store StoreInv Legacy SnapshotBytes Snapshot SnapshotProps SnapshotSymbols.
From S2P Require Import SnapshotIndexes.

Local Open Scope Z_scope.

(** ** Field widths *)

Lemma width_bits_roundtrip w : width_from_flag_bits (width_flag_bits w) = Ok w.
Proof. by destruct w. Qed.

Lemma yields_value w : yields (read_value w) (λ v, 0 ≤ v ≤ u32_max).
Proof.
  destruct w; unfold read_value; (eapply yields_bind; [apply yields_array|]); intros a [Hl Ha];
    apply yields_ret.
  3: rewrite from_le_bytes_app; apply from_le_bytes_bounds in Ha; cbn [from_le_bytes].
  all: try apply from_le_bytes_bounds in Ha; unfold len_of in *; rewrite Hl in *; unfold u32_max; lia.
Qed.

(** ** Entries *)

Lemma entry_text_Ok bytes e s :
  0 ≤ start e → 0 ≤ len e →
  entry_text bytes e = Ok s ↔
  start e + len e ≤ usize_max ∧ str_slice (Z.to_nat (start e)) (Z.to_nat (start e + len e)) bytes = Some s ∧
  utf8_valid s = true.
Proof.
  intros Hs Hl. unfold entry_text. split.
  - intros E. inv_checked.
    repeat match goal with
    | H : try_from_uint _ _ = Some _ |- _ => apply try_from_uint_Some in H as [-> ?]
    end.
    by match goal with H : negb _ = false |- _ => apply negb_false_iff in H end.
  - intros (Hmax & Hsl & Hu).
    step_ok (start e); [apply ok_or_Ok, try_from_uint_Some; lia|].
    step_ok (len e); [apply ok_or_Ok, try_from_uint_Some; lia|].
    step_ok (start e + len e); [by apply ok_or_Ok, checked_add_Some|].
    step_ok s; [by rewrite Hsl|]. step_ok tt; [by rewrite Hu|done].
Qed.

(** An entry of the table and the bytes give a string. *)
Definition entry_ok (bytes : string) (e : InternedString) : Prop :=
  0 ≤ start e ≤ u32_max ∧ 0 ≤ len e ≤ u32_max ∧ ∃ s, entry_text bytes e = Ok s.

Lemma yields_symbol_entry bytes sw lw :
  yields (read_symbol_entry bytes sw lw) (entry_ok (bytes_str bytes)).
Proof.
  unfold read_symbol_entry.
  eapply yields_bind; [apply yields_value|]. intros first Hf.
  eapply yields_bind; [apply yields_value|]. intros length Hl.
  reads_check. intros ? [-> _]%ok_or_try_from.
  reads_check. intros ? [-> _]%ok_or_try_from.
  reads_check. intros last [-> Hlast]%checked_add_usize_Ok.
  reads_check. intros text Htext%ok_or_Ok.
  reads_check. intros [] Hu%guard_err_Ok%negb_false_iff.
  apply yields_ret. unfold entry_ok; cbn [start len]. cbv beta in Hf, Hl. split; [lia|]. split; [lia|]. exists (bytes_str text).
  apply entry_text_Ok; cbn [start len]; [lia..|]. split_and!; [done| |done].
  by rewrite <- bytes_str_slice; unfold get_range in Htext; rewrite Htext.
Qed.

Lemma entries_strings bytes entries :
  Forall (entry_ok bytes) entries → ∃ l, Forall2 (λ e s, entry_text bytes e = Ok s) entries l.
Proof.
  induction 1 as [|e es (_ & _ & s & Hs) _ [l IH]]; [by exists []|]. exists (s :: l). by constructor.
Qed.

(** ** The index of the symbols *)

Section index.
Context `{Hasher}.
Context (text : string) (entries : list InternedString) (l : list string).
Hypothesis Hentries : Forall2 (λ e s, entry_text text e = Ok s ∧ 0 ≤ start e ∧ 0 ≤ len e) entries l.

Lemma resolve_entry_Ok id v : resolve_symbol_entry text entries id = Ok v ↔ l !! id_index id = Some v.
Proof.
  unfold resolve_symbol_entry. split.
  - intros E. apply bind_Ok in E as (e & He%ok_or_Ok & E).
    destruct (Forall2_lookup_l _ _ _ _ _ Hentries He) as (s & Hs & Hes & Hst & Hln).
    apply entry_text_Ok in Hes as (_ & Hsl & _); [|done..]. rewrite Hs. f_equal.
    apply bind_Ok in E as (? & [-> _]%ok_or_try_from & E).
    apply bind_Ok in E as (? & [-> _]%ok_or_try_from & E).
    apply bind_Ok in E as (? & [-> _]%checked_add_usize_Ok & E).
    apply bind_Ok in E as (? & Hv%ok_or_Ok & E). apply bind_Ok in E as (? & _ & [= <-]).
    by simplify_eq.
  - intros Hv. destruct (Forall2_lookup_r _ _ _ _ _ Hentries Hv) as (e & He & Hes & Hst & Hln).
    apply entry_text_Ok in Hes as (Hmax & Hsl & Hu); [|done..].
    step_ok e; [by rewrite He|]. unfold checked_usize_from_u32.
    step_ok (start e); [by apply ok_or_Ok, try_from_uint_Some; lia|].
    step_ok (len e); [by apply ok_or_Ok, try_from_uint_Some; lia|].
    step_ok (start e + len e); [by apply checked_add_usize_Ok|].
    step_ok v; [by rewrite Hsl|]. step_ok tt; [by rewrite Hu|done].
Qed.

Lemma any_symbol_false value ids :
  any_symbol_is text entries value ids = Ok false → ∀ id, id ∈ ids → l !! id_index id ≠ Some value.
Proof.
  induction ids as [|id ids IH]; intros E id' Hin; [by apply elem_of_nil in Hin|].
  cbn [any_symbol_is] in E. apply bind_Ok in E as (stored & Hs%resolve_entry_Ok & E).
  destruct (String.eqb_spec stored value) as [->|Hne]; [done|].
  apply elem_of_cons in Hin as [->|Hin]; [congruence|by apply IH].
Qed.

(** The symbols under a hash. *)
Definition indexed_under (index : SnapshotSymbolIndex) (hash : Z) (id : SymbolId) : Prop :=
  index.1 !! hash = Some id ∨ ∃ ids, index.2 !! hash = Some ids ∧ id ∈ ids.

Lemma index_symbol_absent index hash value :
  symbol_value_exists text entries index hash value = Ok false →
  ∀ id, indexed_under index hash id → l !! id_index id ≠ Some value.
Proof.
  intros E. apply bind_Ok in E as ([] & Ep & E); [done|]. intros id [Hid|(ids & Hid & Hin)].
  - apply (any_symbol_false _ _ Ep). rewrite Hid. by left.
  - apply (any_symbol_false _ _ E). by rewrite Hid.
Qed.

(** What the loop has established of the symbols so far. *)
Definition indexed_prefix (n : nat) (index : SnapshotSymbolIndex) : Prop :=
  NoDup (take n l) ∧
  ∀ i s, (i < n)%nat → l !! i = Some s → indexed_under index (hash_value s) (index_id i).

Lemma index_symbol_step n hash index index' :
  indexed_prefix n index → index_symbol text entries index (n, hash) = Ok index' →
  indexed_prefix (S n) index'.
Proof.
  intros [Hnd Hix] E. unfold index_symbol in E. cbn [fst snd] in E.
  apply bind_Ok in E as (id & Hid & E). apply bind_Ok in E as (value & Hv%resolve_entry_Ok & E).
  apply bind_Ok in E as (? & Hh%guard_err_Ok%negb_false_iff%Z.eqb_eq & E). subst hash.
  apply bind_Ok in E as (ex & Hex & E). apply bind_Ok in E as (? & ->%guard_err_Ok & [= <-]).
  assert (id = index_id n) as ->.
  { destruct (symbol_from_index n) as [id'|] eqn:Es; [|done]. injection Hid as ->.
    by destruct (id_from_index_cases _ _ _ Es) as [[[= ->] _]|[? _]]. }
  rewrite id_index_id in Hv. split.
  - rewrite (take_S_r _ _ _ Hv). apply NoDup_app. split_and!; [done| |apply NoDup_singleton].
    intros s Hs ->%list_elem_of_singleton. apply list_elem_of_lookup in Hs as [i Hi].
    apply lookup_take_Some in Hi as [Hi Hin].
    apply (index_symbol_absent _ _ _ Hex (index_id i)); [by apply Hix|by rewrite id_index_id].
  - intros i s Hi Hs. unfold indexed_under in *.
    destruct (index.1 !! hash_value value) as [first|] eqn:Ef; cbn [fst snd].
    + destruct (decide (i = n)) as [->|Hne].
      * right. rewrite Hv in Hs. injection Hs as ->. rewrite lookup_insert_eq.
        eexists. split; [done|]. apply elem_of_app. right. by left.
      * destruct (Hix i s ltac:(lia) Hs) as [Hp|(ids & Hids & Hin)]; [by left|]. right.
        destruct (decide (hash_value s = hash_value value)) as [Eh|Eh].
        -- rewrite Eh in *. rewrite lookup_insert_eq, Hids. eexists. split; [done|].
           apply elem_of_app. by left.
        -- rewrite lookup_insert_ne by done. by exists ids.
    + destruct (decide (i = n)) as [->|Hne].
      * left. rewrite Hv in Hs. injection Hs as ->. by rewrite lookup_insert_eq.
      * destruct (Hix i s ltac:(lia) Hs) as [Hp|Hids]; [|by right]. left.
        rewrite lookup_insert_ne; [done|]. intros Eh. by rewrite <- Eh, Ef in Hp.
Qed.

Lemma index_full_sound hashes index :
  length hashes = length l → index_full_symbol_lookup text entries hashes = Ok index →
  indexed_prefix (length l) index.
Proof.
  intros Hlen E. rewrite <- Hlen.
  apply (try_fold_ind _ (λ pre ix, indexed_prefix (length pre) ix)) in E.
  - by rewrite length_zip, length_seq, Nat.min_id in E.
  - split; [constructor|]. intros i s Hi. cbn in Hi. lia.
  - intros pre [n hash] post s1 s2 El Hp Ei. rewrite length_app, Nat.add_1_r.
    assert (n = length pre) as ->; [|by eapply index_symbol_step].
    assert ((zip (seq 0 (length hashes)) hashes) !! length pre = Some (n, hash)) as Hl
      by by rewrite El, list_lookup_middle.
    apply lookup_zip_Some in Hl as [Hl _]. by apply lookup_seq in Hl as [-> _].
Qed.
End index.

(** ** The interner *)

(** What is known of any accepted envelope. *)
Record reader_ok (r : SnapshotReader) : Prop := {
  ro_bytes k s : reader_section r k = Ok s → bytes_ok (section_bytes s);
  ro_rows : 0 ≤ relationship_count (reader_header r) ≤ u32_max;
  ro_symbols : 0 ≤ symbol_count (reader_header r) ≤ u32_max
}.

(** The entries cut the symbol bytes into pieces that use all of them, within the
    width of an offset. The loader checks neither. *)
Definition symbols_tiled (st : IdentifierInterner) : Prop :=
  Z.of_nat (byte_len (bytes st)) = foldr (λ e n, len e + n) 0 (entries st) ∧
  Z.of_nat (byte_len (bytes st)) ≤ u32_max.

Lemma str_slice_length i j s t : str_slice i j s = Some t → byte_len t = (j - i)%nat.
Proof.
  rewrite <- (bytes_str_bytes s), <- bytes_str_slice. intros (b & Hb & ->)%fmap_Some.
  rewrite bytes_str_length. by apply slice_get_Some in Hb as (_ & _ & Hl).
Qed.

Lemma tiled_total text entries l :
  Forall2 (λ e s, entry_text text e = Ok s ∧ 0 ≤ start e ∧ 0 ≤ len e) entries l →
  Z.of_nat (total_len l) = foldr (λ e n, len e + n) 0 entries.
Proof.
  induction 1 as [|e s es l (He & Hs & Hl) _ IH]; [done|].
  apply entry_text_Ok in He as (_ & He & _); [|done..]. apply str_slice_length in He.
  cbn [sum_list_with foldr]. rewrite Nat2Z.inj_add, IH. lia.
Qed.

(** What a store needs of its interner, but for the room left in it. *)
Record interner_sound `{Hasher} (st : IdentifierInterner) (l : list string) (count : Z) : Prop := {
  is_entries : Forall2 (λ e s, entry_text (bytes st) e = Ok s) (entries st) l;
  is_nodup : NoDup l;
  is_count : len_of l = count;
  is_index : hash_index_ok st l;
  is_hashed : sorted_lookup st = [];
  is_rep : symbols_tiled st → interner_rep st l
}.

Lemma interner_from_parts `{Hasher} text entries hashes lookup st count :
  interner_from_snapshot_parts text entries hashes lookup ValidationFull = Ok st →
  Forall (entry_ok text) entries → len_of entries = count → len_of hashes = count → count ≤ u32_max →
  ∃ l, interner_sound st l count.
Proof.
  intros E He Hc Hh Hcap. apply bind_Ok in E as (index & Hix & [= <-]).
  destruct (entries_strings _ _ He) as [l Hl].
  assert (Forall2 (λ e s, entry_text text e = Ok s ∧ 0 ≤ start e ∧ 0 ≤ len e) entries l) as Hl'.
  { apply Forall2_same_length_lookup_2; [by eapply Forall2_length|]. intros i e s Hi Hs.
    rewrite Forall_lookup in He. destruct (He _ _ Hi) as (? & ? & _).
    split_and!; [by apply (Forall2_lookup_lr _ _ _ i _ _ Hl)|lia|lia]. }
  pose proof (Forall2_length _ _ _ Hl) as Hlen. unfold len_of in *.
  assert (length hashes = length l) as Hlh by lia.
  destruct (index_full_sound _ _ l Hl' _ _ Hlh Hix) as [Hnd Hin].
  rewrite firstn_all in Hnd.
  assert (∀ i s, l !! i = Some s → indexed_under index (hash_value s) (index_id i)) as Hin'.
  { intros i s Hi. apply Hin; [by eapply lookup_lt_Some|done]. }
  exists l. split; try done; [unfold len_of; lia|]. intros [Ht Htc]. split; try done; cbn in *; try lia.
  - rewrite <- (tiled_total _ _ _ Hl') in Ht. lia.
  - eapply Forall_impl; [exact He|]. intros e (? & ? & _). lia.
Qed.

Lemma read_exactly_Ok {A} (m : Reads A) bytes reason a :
  read_exactly m bytes reason = Ok a → read_all m bytes = Ok a.
Proof.
  unfold read_exactly, read_all. destruct (m (cursor_new bytes)) as [r c]. cbn. intros E.
  apply bind_Ok in E as (a' & -> & E). apply bind_Ok in E as (? & _ & E). done.
Qed.

Lemma decode_hashes_length r count hashes :
  reader_ok r → decode_symbol_hashes r count = Ok hashes → 0 ≤ count → len_of hashes = count.
Proof.
  intros Hr E Hc. apply bind_Ok in E as (s & Hs & E). apply bind_Ok in E as (? & _ & E).
  apply bind_Ok in E as (n & [-> _]%ok_or_try_from & E).
  apply bind_Ok in E as (? & _ & E). apply bind_Ok in E as (? & _ & E).
  apply (yields_all _ _ _ _ (yields_times _ _ _ (yields_uint 8)) (ro_bytes _ Hr _ _ Hs)) in E as [E _].
  unfold len_of. lia.
Qed.

Lemma decode_interner_sound `{Hasher} r st :
  reader_ok r → decode_interner r ValidationFull = Ok st →
  ∃ l, interner_sound st l (symbol_count (reader_header r)).
Proof.
  intros Hr E. destruct (ro_symbols _ Hr) as [Hc Hmax]. unfold decode_interner in E.
  apply bind_Ok in E as (bs & Hbs & E). apply bind_Ok in E as (tb & Htb & E).
  apply bind_Ok in E as (n & [-> _]%ok_or_try_from & E). apply bind_Ok in E as (? & _ & E).
  apply bind_Ok in E as ([sw lw] & _ & E). apply bind_Ok in E as (? & _ & E).
  apply bind_Ok in E as (? & _ & E). apply bind_Ok in E as (? & _ & E).
  apply bind_Ok in E as (entries & He%read_exactly_Ok & E).
  apply bind_Ok in E as (hashes & Hh & E). apply bind_Ok in E as (lookup & _ & E).
  apply (yields_all _ _ _ _ (yields_times _ _ _ (yields_symbol_entry _ _ _)) (ro_bytes _ Hr _ _ Htb))
    in He as [Hn He].
  eapply interner_from_parts; [exact E|exact He| |by eapply decode_hashes_length|done].
  unfold len_of. lia.
Qed.

Section rows.
Context `{Hasher}.
Context {st : IdentifierInterner} {l : list string} {count : Z}.
Hypothesis Hst : interner_sound st l count.

(** ** What a row denotes *)

Lemma sound_resolve id s : resolve st id = Ok s → l !! id_index id = Some s.
Proof.
  intros (e & Hl%ok_or_Ok & Ht)%bind_Ok.
  destruct (Forall2_lookup_l _ _ _ _ _ (is_entries _ _ _ Hst) Hl) as (s' & Hs' & Ht'). congruence.
Qed.

Lemma validate_ident_Ok kind id :
  validate_ident kind st id = Ok tt → ∃ i : Ident kind, denotes l id i.
Proof.
  intros (v & Hv%map_err_Ok%sound_resolve & E)%bind_Ok.
  apply bind_Ok in E as (i & Hi%map_err_Ok%ident_new_Ok & _). exists i. unfold denotes. by rewrite Hi.
Qed.

(** An identifier of a subject is one of an object. *)
Lemma denotes_subject (k1 k2 : IdentifierKind) id (i : Ident k1) :
  (k1, k2) ∈ [(KObjectType, KSubjectType); (KObjectId, KSubjectId);
              (KSubjectType, KObjectType); (KSubjectId, KObjectId)] →
  denotes l id i → ∃ j : Ident k2, denotes l id j.
Proof.
  intros Hk Hi. pose proof (as_str_valid i) as Hv. rewrite (same_grammar _ _ _ Hk) in Hv.
  by exists (mkIdent (as_str i) Hv).
Qed.

Lemma validate_row_denotes row :
  validate_row_domains st row = Ok tt → ∃ r, row_denotes l row r.
Proof.
  unfold validate_row_domains. intros E.
  apply bind_Ok in E as ([] & [rt Hrt]%validate_ident_Ok & E).
  apply bind_Ok in E as ([] & [ri Hri]%validate_ident_Ok & E).
  apply bind_Ok in E as ([] & [rel Hrel]%validate_ident_Ok & E).
  apply bind_Ok in E as ([] & [st' Hst']%validate_ident_Ok & E).
  apply bind_Ok in E as ([] & [si Hsi]%validate_ident_Ok & E).
  apply (denotes_subject _ KObjectType) in Hst' as [t Ht]; [|set_solver].
  apply (denotes_subject _ KObjectId) in Hsi as [i Hi]; [|set_solver].
  destruct (row_subject_relation row) as [f|] eqn:Ef.
  - apply validate_ident_Ok in E as [srel Hs].
    exists (mkRelationship (mkObjectRef rt ri) rel (SubjectUserset (mkObjectRef t i) srel)).
    unfold row_denotes, subject_denotes. by rewrite Ef.
  - exists (mkRelationship (mkObjectRef rt ri) rel (SubjectObject (mkObjectRef t i))).
    unfold row_denotes, subject_denotes. by rewrite Ef.
Qed.

(** ** The duplicate detector *)

(** It holds every row so far under its hash. *)
Record detects (ix : RelationshipIdentityIndex) (rows : list RelationshipRow) : Prop := {
  dt_wf : buckets_wf ix;
  dt_mem h r : r ∈ bucket ix h ↔ ∃ row, rows !! id_index r = Some row ∧ identity_hash row = h
}.

Lemma detects_default : detects identity_default [].
Proof.
  split; [apply buckets_wf_default|]. intros h r. rewrite bucket_default.
  split; [by intros ?%elem_of_nil|]. intros (row & Hr & _). by rewrite lookup_nil in Hr.
Qed.

Lemma detects_fresh ix rows row :
  detects ix rows → identity_find ix rows row = None → row_identity row ∉ row_identity <$> rows.
Proof.
  intros [_ Hm] Hn (row' & Hid & Hin)%list_elem_of_fmap. apply list_elem_of_lookup in Hin as [i Hi].
  rewrite identity_find_bucket in Hn.
  assert (index_id i ∈ bucket ix (identity_hash row)) as Hb.
  { apply Hm. exists row'. rewrite id_index_id. split; [done|]. unfold identity_hash. by rewrite Hid. }
  apply list_elem_of_In in Hb. pose proof (List.find_none _ _ Hn _ Hb) as Hs.
  apply not_true_iff_false in Hs. apply Hs, same_row_true. exists row'. by rewrite id_index_id.
Qed.

Lemma detects_insert ix rows row :
  detects ix rows → identity_find ix rows row = None →
  detects (identity_insert ix rows (index_id (length rows)) row) (rows ++ [row]).
Proof.
  intros Hd Hn. pose proof (detects_fresh _ _ _ Hd Hn) as Hfresh. destruct Hd as [Hwf Hm].
  destruct (identity_insert_bucket ix rows (index_id (length rows)) row Hwf) as [Hwf' Hb].
  { intros r (row' & Hr & _)%Hm. unfold other_row. rewrite Hr. unfold row_eqb.
    rewrite bool_decide_eq_false_2; [done|]. intros E. apply Hfresh.
    apply list_elem_of_fmap. exists row'. split; [done|]. by eapply list_elem_of_lookup_2. }
  split; [done|]. intros h r. rewrite Hb, elem_of_app, Hm. split.
  - intros [(row' & Hr & Hh)|Hr].
    + exists row'. split; [by apply lookup_app_l_Some|done].
    + case_decide as Eh; [|by apply elem_of_nil in Hr]. apply list_elem_of_singleton in Hr as ->.
      exists row. by rewrite id_index_id, list_lookup_middle.
  - intros (row' & Hr & Hh). apply lookup_app_Some in Hr as [Hr|[Hge Hr]]; [left; eauto|right].
    apply list_lookup_singleton_Some in Hr as [Hz ->]. rewrite decide_True by done.
    apply list_elem_of_singleton, (inj id_index). rewrite id_index_id. lia.
Qed.

(** ** The rows *)

(** The rows read so far. *)
Record rows_sound (acc : list RelationshipRow * RelationshipIdentityIndex) (n : nat) : Prop := {
  rs_length : length acc.1 = n;
  rs_ids i row : acc.1 !! i = Some row → row_id row = index_id i;
  rs_denotes : Forall (λ row, ∃ r, row_denotes l row r) acc.1;
  rs_nodup : NoDup (row_identity <$> acc.1);
  rs_detects : detects acc.2 acc.1
}.

Lemma row_from_fields_id row_id symbols fields row :
  row_from_fields row_id symbols fields = Ok row → Row.row_id row = row_id.
Proof.
  unfold row_from_fields. destruct fields as [[[[[a b] c] d] e] f]. intros E.
  repeat (apply bind_Ok in E as (? & _ & E)). by injection E as <-.
Qed.

Lemma decode_row_sound w symbols acc acc' n bytes :
  rows_sound acc n → decode_row st w symbols true acc (n, bytes) = Ok acc' → rows_sound acc' (S n).
Proof.
  intros [Hl Hids Hden Hnd Hdet] E. unfold decode_row in E. cbn [fst snd] in E.
  apply bind_Ok in E as (rid & Hrid%map_err_Ok & E). apply bind_Ok in E as (fields & _ & E).
  apply bind_Ok in E as (row & Hrow%row_from_fields_id & E).
  apply bind_Ok in E as ([] & Hv%validate_row_denotes & E).
  apply bind_Ok in E as (? & Hdup%guard_err_Ok & [= <-]).
  apply bool_decide_eq_false in Hdup. apply eq_None_not_Some in Hdup.
  destruct (id_from_index_cases _ _ _ Hrid) as [[[= ->] _]|[? _]]; [|done].
  rewrite <- Hl in *. split; cbn [fst snd].
  - rewrite length_app. simpl. lia.
  - intros i row' [Hi|[Hge Hi]]%lookup_app_Some; [by apply Hids|].
    apply list_lookup_singleton_Some in Hi as [Hz ->]. rewrite Hrow. f_equal. lia.
  - apply Forall_app. split; [done|]. by apply Forall_singleton.
  - rewrite fmap_app. apply NoDup_app. split_and!; [done| |apply NoDup_singleton].
    intros y Hy ->%list_elem_of_singleton. by apply (detects_fresh _ _ _ Hdet) in Hdup.
  - by apply detects_insert.
Qed.

Lemma rows_sound_nil : rows_sound ([], identity_default) 0.
Proof.
  split; cbn; [done| |constructor|constructor|apply detects_default].
  intros i row Hi. by rewrite lookup_nil in Hi.
Qed.

Lemma chunks_length k n bytes : length (chunks k n bytes) = k.
Proof. revert bytes. induction k as [|k IH]; intros bytes; simpl; by rewrite ?IH. Qed.

(** What the row section of an accepted snapshot holds. *)
Record decoded_sound (d : DecodedSnapshotRows) (n : Z) : Prop := {
  ds_length : len_of (decoded_rows d) = n;
  ds_ids i row : decoded_rows d !! i = Some row → row_id row = index_id i;
  ds_denotes : Forall (λ row, ∃ r, row_denotes l row r) (decoded_rows d);
  ds_nodup : NoDup (row_identity <$> decoded_rows d);
  ds_live : decoded_live_rows d = live_full (length (decoded_rows d));
  ds_uniqueness : decoded_uniqueness d = KnownUniqueButNotIndexed
}.

Lemma decode_rows_sound r d :
  reader_ok r → decode_snapshot_rows r st ValidationFull = Ok d →
  decoded_sound d (relationship_count (reader_header r)).
Proof.
  intros Hr E. destruct (ro_rows _ Hr) as [Hc _]. unfold decode_snapshot_rows in E.
  apply bind_Ok in E as (s & Hs & E). apply bind_Ok in E as (n & [-> _]%ok_or_try_from & E).
  set (count' := relationship_count (reader_header r)) in *.
  apply bind_Ok in E as (? & _ & E). apply bind_Ok in E as (w & Hw & E).
  apply bind_Ok in E as (row_len & [-> _]%checked_mul_usize_Ok & E).
  apply bind_Ok in E as (total & [-> _]%checked_mul_usize_Ok & E).
  apply bind_Ok in E as (? & Hlen%guard_err_Ok%negb_false_iff%Z.eqb_eq & E).
  rewrite bool_decide_eq_true_2 in E by done. set (pieces := chunks_exact _ _) in E.
  assert (length pieces = Z.to_nat count') as Hp.
  { unfold pieces, chunks_exact. rewrite chunks_length. unfold len_of in Hlen.
    assert (0 < width_byte_len w) by by destruct w.
    rewrite <- (Nat2Z.id (length (section_bytes s))), Hlen, Z2Nat.inj_mul by lia.
    apply Nat.div_mul. lia. }
  clearbody pieces. apply bind_Ok in E as (acc & E & [= <-]). rewrite <- Hp in *.
  apply (try_fold_ind _ (λ pre acc, rows_sound acc (length pre))) in E.
  - rewrite length_zip, length_seq, Nat.min_id in E. destruct E as [El Ei Ed En _].
    split; cbn; try done; [unfold len_of; lia|by rewrite El].
  - apply rows_sound_nil.
  - intros pre [n bytes] post s1 s2 El Hs1 Es. rewrite length_app, Nat.add_1_r.
    assert (n = length pre) as ->; [|by eapply decode_row_sound].
    assert (zip (seq 0 (length pieces)) pieces !! length pre = Some (n, bytes)) as Hz
      by by rewrite El, list_lookup_middle.
    apply lookup_zip_Some in Hz as [Hz _]. by apply lookup_seq in Hz as [-> _].
Qed.
End rows.
