(* ===== verification/SnapshotIndexProps.v ===== *)
(** * The indexes of an accepted snapshot

    Under full validation each index section decodes to the posting index of the
    decoded rows: keys strictly sorted, posting lists strictly increasing, every
    row under a key one of its rows, and no row of a key left out. *)

From S2P Require Import Prelude Model Domain StoreTypes Interner LiveRows Posting Row Identity.
From S2P Require Import Store StoreInv Legacy SnapshotBytes Snapshot SnapshotProps SnapshotSymbols.
From S2P Require Import SnapshotIndexes SnapshotDataProps.

Local Open Scope Z_scope.

(** ** Posting lists increase *)

Abbreviation increasing := (StronglySorted Pos.lt).

Lemma all_ok_cons {E A} (r : result E A) items L :
  r :: items = Ok <$> L → ∃ a L', L = a :: L' ∧ r = Ok a ∧ items = Ok <$> L'.
Proof. destruct L as [|a L']; [done|]. intros [= -> ->]. eauto. Qed.

Lemma fixed_items_increasing rest previous L :
  fixed_items rest previous = Ok <$> L → increasing (previous :: L).
Proof.
  revert previous L. induction rest as [|r rest IH]; intros previous L E; cbn in E.
  { destruct L; [|done]. by repeat constructor. }
  destruct (Pos.leb_spec r previous) as [Hle|Hlt].
  { by apply all_ok_cons in E as (a & L' & _ & [=] & _). }
  apply all_ok_cons in E as (a & L' & -> & [= ->] & E). apply IH in E.
  constructor; [done|]. constructor; [done|]. apply StronglySorted_inv in E as [_ E].
  eapply Forall_impl; [exact E|]. intros x Hx. by etrans.
Qed.

Lemma decode_varint_pos fuel bytes offset value shift v o :
  0 ≤ value → 0 ≤ shift → decode_varint fuel bytes offset value shift = Ok (v, o) → 0 < v.
Proof.
  revert offset value shift. induction fuel as [|fuel IH]; intros offset value shift Hv Hs E; [done|].
  cbn [decode_varint] in E. apply bind_Ok in E as (byte & _ & E).
  apply bind_Ok in E as (offset' & _ & E). apply bind_Ok in E as ([] & _ & E).
  set (low := Z.land byte 127) in *. assert (0 ≤ low) by (apply Z.land_nonneg; lia).
  assert (0 ≤ Z.lor value (Z.shiftl low shift)) as Hv'.
  { apply Z.lor_nonneg. split; [done|]. by apply Z.shiftl_nonneg. }
  destruct (Z.land byte 128 =? 0).
  - apply bind_Ok in E as ([] & Hne%guard_err_Ok%Z.eqb_neq & [= <- _]). lia.
  - apply bind_Ok in E as ([] & _ & E). eapply IH; [| |exact E]; lia.
Qed.

Lemma row_from_raw_Ok value n r :
  row_from_snapshot_raw value n = Ok r ↔ r = Z.to_pos value ∧ value ≠ 0 ∧ value ≤ n.
Proof.
  unfold row_from_snapshot_raw, non_zero. split.
  - intros (v & Hv%ok_or_Ok & E)%bind_Ok. destruct (Z.eqb_spec value 0); [done|]. injection Hv as <-.
    apply bind_Ok in E as ([] & ?%guard_err_Ok%Z.ltb_ge & [= <-]). done.
  - intros (-> & Hne & Hle). step_ok value; [by rewrite (proj2 (Z.eqb_neq _ _) Hne)|].
    step_ok tt; [by apply guard_err_Ok, Z.ltb_ge|done].
Qed.

Lemma delta_items_increasing fuel bytes offset previous n L :
  delta_items fuel bytes offset previous n = Ok <$> L → increasing (previous :: L).
Proof.
  revert offset previous L. induction fuel as [|fuel IH]; intros offset previous L E; cbn [delta_items] in E.
  { destruct L; [|done]. by repeat constructor. }
  destruct (offset =? len_of bytes); [destruct L; [|done]; by repeat constructor|].
  destruct (decode_posting_delta_varint bytes offset) as [[delta offset']|e] eqn:Ed.
  2: { by apply all_ok_cons in E as (a & L' & _ & [=] & _). }
  destruct (next_delta_row_id previous delta n) as [r|e] eqn:En.
  2: { by apply all_ok_cons in E as (a & L' & _ & [=] & _). }
  apply all_ok_cons in E as (a & L' & -> & [= ->] & E). apply IH in E.
  pose proof (decode_varint_pos 5 bytes offset 0 0 delta offset' ltac:(done) ltac:(done) Ed) as Hpos.
  apply bind_Ok in En as (v & [-> _]%ok_or_Ok%checked_add_Some & (-> & _)%row_from_raw_Ok).
  assert (previous < Z.to_pos (Z.pos previous + delta))%positive as Hlt by lia.
  constructor; [done|]. constructor; [done|]. apply StronglySorted_inv in E as [_ E].
  eapply Forall_impl; [exact E|]. intros x Hx. by etrans.
Qed.

Lemma posting_row_ids_increasing r ids n L :
  posting_row_ids r ids n = Ok (Ok <$> L) → L ≠ [] ∧ increasing L.
Proof.
  intros (first & _ & E)%bind_Ok.
  destruct (range_overflow_len r =? 0).
  { injection E as E. apply (all_ok_cons (Ok first) []) in E as (a & L' & -> & _ & E).
    destruct L'; [|done]. by repeat constructor. }
  apply bind_Ok in E as (? & _ & E). apply bind_Ok in E as (? & _ & E). apply bind_Ok in E as (? & _ & E).
  destruct ids as [row_ids|bytes ?]; apply bind_Ok in E as (overflow & _ & [= E]);
    apply all_ok_cons in E as (a & L' & -> & [= ->] & E); (split; [done|]).
  - by eapply fixed_items_increasing.
  - by eapply delta_items_increasing.
Qed.

Lemma increasing_NoDup L : increasing L → NoDup L.
Proof.
  induction 1 as [|x L _ IH Hx]; constructor; [|done].
  rewrite Forall_forall in Hx. intros Hin%Hx. by apply Pos.lt_irrefl in Hin.
Qed.

(** Increasing lists of the same elements are equal. *)
Lemma increasing_unique L M : increasing L → increasing M → (∀ x, x ∈ L ↔ x ∈ M) → L = M.
Proof.
  intros HL HM Hx. assert (AntiSymm (=) Pos.lt) by (intros x y ??; lia).
  apply (StronglySorted_unique Pos.lt); [done|done|].
  apply NoDup_Permutation; [by apply increasing_NoDup..|done].
Qed.

(** ** Keys are sorted *)

Definition sorted_keys (entries : list SnapshotIndexEntry) : Prop := unsorted (item_key <$> entries) = false.

Lemma unsorted_take n keys : unsorted keys = false → unsorted (take n keys) = false.
Proof.
  revert n. induction keys as [|a keys IH]; intros [|n] E; try done.
  destruct keys as [|b keys]; [by destruct n|]. cbn [unsorted] in E.
  apply orb_false_iff in E as [Ea E]. destruct n as [|n]; [done|].
  cbn [take unsorted]. rewrite Ea. by apply (IH (S n)).
Qed.

Lemma zip_item_keys keys ranges :
  item_key <$> zip_with mkIndexItem keys ranges = take (length ranges) keys.
Proof. revert ranges. induction keys as [|k keys IH]; intros [|r ranges]; cbn; by rewrite ?IH. Qed.

Lemma snapshot_entries_sorted input k entries :
  snapshot_index_entries input k = Ok entries → sorted_keys entries.
Proof.
  intros (entry & _ & E)%bind_Ok.
  destruct (in_keys input) as [keys|keys ?], (de_encoding entry) as [|w]; try done.
  - unfold fixed_snapshot_index_entries in E.
    do 9 (apply bind_Ok in E as (? & _ & E)).
    apply bind_Ok in E as ([] & Hs%guard_err_Ok & [= <-]).
    unfold sorted_keys. rewrite zip_item_keys. by apply unsorted_take.
  - unfold compact_snapshot_index_entries in E.
    do 10 (apply bind_Ok in E as (? & _ & E)).
    apply bind_Ok in E as (merged & _ & E). by apply bind_Ok in E as ([] & Hs%guard_err_Ok & [= <-]).
Qed.

(** *** Fields are unsigned *)

Definition key_ok (k : DiskIndexKey) : Prop := 0 ≤ key_first k ∧ 0 ≤ key_second k ∧ 0 ≤ key_third k.

Definition keys_ok (keys : DecodedIndexKeys) : Prop :=
  match keys with
  | FixedKeys keys => Forall key_ok keys
  | CompactKeys bytes _ => bytes_ok bytes
  end.

Lemma yields_compact_key k w : yields (decode_compact_key k w) key_ok.
Proof.
  unfold decode_compact_key. eapply yields_bind; [apply yields_value|]. intros a [Ha _].
  apply (yields_bind _ _ (λ v, 0 ≤ v)).
  { destruct (2 <=? _); [|by apply yields_ret]. eapply yields_weaken; [apply yields_value|]. by intros ? [? _]. }
  intros b Hb. apply (yields_bind _ _ (λ v, 0 ≤ v)).
  { destruct (3 <=? _); [|by apply yields_ret]. eapply yields_weaken; [apply yields_value|]. by intros ? [? _]. }
  intros c Hc. by apply yields_ret.
Qed.

Lemma yields_singleton k w : yields (read_singleton k w) (λ e, key_ok (item_key e)).
Proof.
  unfold read_singleton. eapply yields_bind; [apply yields_compact_key|]. intros key Hk.
  reads_uint. intros r _. by apply yields_ret.
Qed.

Lemma yields_multis k w ranges : yields (read_multis k w ranges) (Forall (λ e, key_ok (item_key e))).
Proof.
  induction ranges as [|r ranges IH]; [by apply yields_ret|]. cbn [read_multis].
  eapply yields_bind; [apply yields_compact_key|]. intros key Hk.
  eapply yields_bind; [exact IH|]. intros es Hes. apply yields_ret. by constructor.
Qed.

Lemma merge_entries_Forall (P : SnapshotIndexEntry → Prop) fuel a b c merged :
  Forall P a → Forall P b → Forall P c → merge_entries fuel a b c = Ok merged → Forall P merged.
Proof.
  revert a b c. induction fuel as [|fuel IH]; intros a b c Ha Hb Hc E; cbn [merge_entries] in E.
  { by injection E as <-. }
  destruct Ha as [|x a Hxa Ha], Hb as [|y b Hyb Hb].
  - by injection E as <-.
  - eapply IH; [| | |exact E]; [done|done|]. apply Forall_app. split; [done|]. by apply Forall_singleton.
  - eapply IH; [| | |exact E]; [done|done|]. apply Forall_app. split; [done|]. by apply Forall_singleton.
  - destruct (disk_compare _ _); [done| |];
      (eapply IH; [| | |exact E]); try done; try (by constructor);
      apply Forall_app; (split; [done|]); by apply Forall_singleton.
Qed.

Lemma snapshot_entries_ok input k entries :
  keys_ok (in_keys input) → snapshot_index_entries input k = Ok entries →
  Forall (λ e, key_ok (item_key e)) entries.
Proof.
  intros Hk (entry & _ & E)%bind_Ok.
  destruct (in_keys input) as [keys|keys ?], (de_encoding entry) as [|w]; try done; cbn in Hk.
  - unfold fixed_snapshot_index_entries in E. do 7 (apply bind_Ok in E as (? & _ & E)).
    apply bind_Ok in E as (sub & Hsub%ok_or_Ok & E). apply bind_Ok in E as (ranges & _ & E).
    apply bind_Ok in E as ([] & _ & [= <-]).
    assert (Forall key_ok sub) as Hs.
    { unfold get_range in Hsub. apply slice_get_Some in Hsub as (_ & -> & _). by apply Forall_take, Forall_drop. }
    change (Forall (key_ok ∘ item_key) (zip_with mkIndexItem sub ranges)).
    rewrite <- Forall_fmap, zip_item_keys. by apply Forall_take.
  - unfold compact_snapshot_index_entries in E. apply bind_Ok in E as (sp & _ & E).
    apply bind_Ok in E as (group & Hg%ok_or_Ok & E).
    assert (bytes_ok group) as Hgb.
    { unfold get_range in Hg. apply slice_get_Some in Hg as (_ & -> & _). by apply Forall_take, Forall_drop. }
    do 3 (apply bind_Ok in E as (? & _ & E)).
    apply bind_Ok in E as (sb & Hsb%ok_or_Ok & E). apply bind_Ok in E as (mb & Hmb%ok_or_Ok & E).
    assert (bytes_ok sb ∧ bytes_ok mb) as [Hsbb Hmbb].
    { unfold get_range in Hsb, Hmb. apply slice_get_Some in Hsb as (_ & -> & _).
      apply slice_get_Some in Hmb as (_ & -> & _). split; by apply Forall_take, Forall_drop. }
    apply bind_Ok in E as (singles & E1 & E). apply bind_Ok in E as (multis & E2 & E).
    apply bind_Ok in E1 as (s1 & E1 & Es). apply bind_Ok in Es as ([] & _ & [= <-]).
    apply bind_Ok in E2 as (s2 & E2 & Es). apply bind_Ok in Es as ([] & _ & [= <-]).
    apply (yields_all _ _ _ _ (yields_times _ _ _ (yields_singleton _ _))) in E1 as [_ E1]; [|done].
    apply (yields_all _ _ _ _ (yields_multis _ _ _)) in E2; [|done].
    apply bind_Ok in E as (? & _ & E). apply bind_Ok in E as (merged & Em & E).
    apply bind_Ok in E as ([] & _ & [= <-]). by eapply merge_entries_Forall in Em.
Qed.

(** ** What a decoder must know of its keys *)

(** [keys row] are the keys a row has in the index, [bit row key] the coverage bit
    of one of them. *)
Record decoder_laws {K} `{SortKey K} (d : SnapshotIndexDecoder K)
    (keys : RelationshipRow → list K) (bit : RelationshipRow → K → Z) : Prop := {
  dl_key dk n k row :
    sd_key_from_disk d dk n = Ok k → sd_row_matches_key d row dk = true →
    sd_coverage_bit d row dk ≠ 0 → k ∈ keys row ∧ sd_coverage_bit d row dk = bit row k;
  dl_bit row k : k ∈ keys row →
    ∃ i, 0 ≤ i ∧ bit row k = 2 ^ i ∧ Z.testbit (sd_expected_mask d row) i = true;
  dl_inj row k k' : k ∈ keys row → k' ∈ keys row → bit row k = bit row k' → k = k';
  dl_order dk dk' n k k' :
    key_ok dk → key_ok dk' → sd_key_from_disk d dk n = Ok k → sd_key_from_disk d dk' n = Ok k' →
    disk_compare dk dk' = Lt → key_compare k k' = Lt
}.

(** *** The coverage masks *)

(** A key and the posting list read for it. *)
Abbreviation Decoded K := (K * list RowId)%type.

Section coverage.
Context {K : Type} (rows : list RelationshipRow) (keys : RelationshipRow → list K)
  (bit : RelationshipRow → K → Z).

(** Row [j] is listed under a key whose bit is [i]. *)
Definition covers (es : list (Decoded K)) (j : nat) (i : Z) : Prop :=
  ∃ k L row, (k, L) ∈ es ∧ index_id j ∈ L ∧ rows !! j = Some row ∧ k ∈ keys row ∧ bit row k = 2 ^ i.

Definition masks_ok (es : list (Decoded K)) (cov : list Z) : Prop :=
  length cov = length rows ∧
  ∀ j mask i, cov !! j = Some mask → 0 ≤ i → Z.testbit mask i = true ↔ covers es j i.

Lemma covers_app es es' j i : covers (es ++ es') j i ↔ covers es j i ∨ covers es' j i.
Proof. unfold covers. setoid_rewrite elem_of_app. naive_solver. Qed.

Lemma covers_nil j i : ¬ covers [] j i.
Proof. intros (k & L & row & Hin & _). by apply elem_of_nil in Hin. Qed.

(** One more row id of an entry being read. *)
Lemma covers_snoc es k L r j i :
  covers (es ++ [(k, L ++ [r])]) j i ↔
  covers (es ++ [(k, L)]) j i ∨
  (j = id_index r ∧ ∃ row, rows !! j = Some row ∧ k ∈ keys row ∧ bit row k = 2 ^ i).
Proof.
  rewrite !covers_app. unfold covers. setoid_rewrite elem_of_cons.
  split.
  - intros [?|(k' & L' & row & [[= -> ->]|Hn] & Hin & Hrest)]; [tauto| |by apply elem_of_nil in Hn].
    apply elem_of_app in Hin as [Hin|<-%list_elem_of_singleton]; [left; right|right].
    + exists k, L, row. naive_solver.
    + rewrite id_index_id. split; [done|]. by exists row.
  - intros [[?|(k' & L' & row & [[= -> ->]|Hn] & Hin & Hrest)]|(-> & row & Hrest)];
      [tauto| |by apply elem_of_nil in Hn|]; right.
    + exists k, (L ++ [r]), row. split; [by left|]. split; [|done]. apply elem_of_app. by left.
    + exists k, (L ++ [r]), row. split; [by left|]. split; [|done]. rewrite index_id_index.
      apply elem_of_app. right. by left.
Qed.

Lemma masks_snoc es k L r cov mask row b i :
  masks_ok (es ++ [(k, L)]) cov → cov !! id_index r = Some mask → rows !! id_index r = Some row →
  k ∈ keys row → bit row k = b → b = 2 ^ i → 0 ≤ i →
  masks_ok (es ++ [(k, L ++ [r])]) (<[id_index r := Z.lor mask b]> cov).
Proof.
  intros [Hlen Hm] Hcov Hrow Hk Hb Hi Hpos. split; [by rewrite length_insert|].
  intros j mask' i' Hj Hi'. rewrite covers_snoc.
  destruct (decide (j = id_index r)) as [->|Hne].
  - rewrite list_lookup_insert_eq in Hj by (by eapply lookup_lt_Some). injection Hj as <-.
    rewrite Z.lor_spec, orb_true_iff, (Hm _ _ _ Hcov Hi'), Hi, Z.pow2_bits_eqb, Z.eqb_eq by done.
    split; (intros [?|Hx]; [by left|right]).
    + split; [done|]. exists row. subst. done.
    + destruct Hx as (_ & row' & Hr' & _ & Hbit). rewrite Hrow in Hr'. injection Hr' as <-.
      rewrite Hb, Hi in Hbit. apply Z.pow_inj_r in Hbit; [done|lia..].
  - rewrite list_lookup_insert_ne in Hj by done. rewrite (Hm _ _ _ Hj Hi'). naive_solver.
Qed.

Lemma masks_start : masks_ok [] (replicate (length rows) 0).
Proof.
  split; [apply length_replicate|]. intros j mask i Hj Hi. apply lookup_replicate in Hj as [-> _].
  rewrite Z.testbit_0_l. split; [done|]. by intros ?%covers_nil.
Qed.

Lemma masks_open es k cov : masks_ok es cov → masks_ok (es ++ [(k, [])]) cov.
Proof.
  intros [Hl Hm]. split; [done|]. intros j mask i Hj Hi. rewrite covers_app, (Hm _ _ _ Hj Hi).
  split; [by left|]. intros [?|(k' & L & row & Hin & Hr & _)]; [done|].
  apply list_elem_of_singleton in Hin as [= -> ->]. by apply elem_of_nil in Hr.
Qed.
End coverage.

(** ** Reading an index *)

(** A range over the overflow rows gives a posting list. *)
Definition range_gives (overflow : list RowId) (L : list RowId) (r : RuntimePostingRange) : Prop :=
  head L = Some (first_row_id r) ∧
  ∃ pre post, overflow = pre ++ tail L ++ post ∧ overflow_start r = len_of pre ∧
    overflow_len r = len_of (tail L) ∧ len_of pre ≤ u32_max ∧ len_of (tail L) ≤ u32_max.

Lemma range_gives_app overflow more L r : range_gives overflow L r → range_gives (overflow ++ more) L r.
Proof.
  intros (Hf & pre & post & -> & Hrest). split; [done|]. exists pre, (post ++ more).
  by rewrite <- !app_assoc.
Qed.

Lemma range_gives_items overflow L r :
  range_gives overflow L r → candidate_items (range_candidates r overflow) = L.
Proof.
  intros (Hf & pre & post & -> & Hs & Hl & Hpre & Htail). destruct L as [|x L]; [done|].
  cbn in Hf, Hl, Htail. injection Hf as ->. unfold range_candidates, overflow_slice. rewrite Hl, Hs.
  destruct L as [|y L]; [done|]. pose proof (len_of_nonneg pre).
  destruct (Z.eqb_spec (len_of (y :: L)) 0) as [E|_]; [done|].
  unfold try_from_uint, checked_add, usize_max, u64_max, u32_max in *.
  rewrite (proj2 (Z.leb_le _ _)) by lia. cbn [mbind option_bind].
  rewrite (proj2 (Z.leb_le _ _)) by lia. cbn [mbind option_bind].
  rewrite (proj2 (Z.leb_le _ _)) by lia. cbn [mbind option_bind].
  unfold len_of. rewrite <- Nat2Z.inj_add, !Nat2Z.id.
  cbn [tail]. by rewrite slice_get_app.
Qed.

Section decoding.
Context {K : Type} `{Countable K, SortKey K}.
Context (d : SnapshotIndexDecoder K) (keys : RelationshipRow → list K) (bit : RelationshipRow → K → Z).
Hypothesis Hd : decoder_laws d keys bit.
Context (input : SnapshotIndexDecodeInput).

Let rows := in_rows input.

(** Row ids under a key: rows that have it. *)
Definition posted (k : K) (L : list RowId) : Prop :=
  Forall (λ r, ∃ row, rows !! id_index r = Some row ∧ k ∈ keys row) L.

Definition insert_all (k : K) (q : PostingIndex K) (L : list RowId) : PostingIndex K :=
  foldl (λ q r, posting_insert k r q) q L.

(** The table of the other load profile is built on the way. *)
Definition latency_index (q q' : PostingIndex K) : PostingIndex K :=
  match in_profile input with Latency => q' | FastLoad => q end.

Record posting_read (es : list (Decoded K)) (s : DecodeState K) (k : K) (L : list RowId)
    (p : PostingState K) : Prop := {
  pr_masks : masks_ok rows keys bit (es ++ [(k, L)]) (ps_coverage p);
  pr_first : ps_first p = head L;
  pr_overflow : ps_overflow p = st_overflow s ++ tail L;
  pr_len : ps_overflow_len p = len_of (tail L) ∧ len_of (tail L) ≤ u32_max;
  pr_latency : ps_latency p = latency_index (st_latency s) (insert_all k (st_latency s) L);
  pr_posted : posted k L
}.

Lemma decode_posting_step es s dk k L p item p' :
  sd_key_from_disk d dk (in_symbol_count input) = Ok k → posting_read es s k L p →
  decode_posting input d dk k p item = Ok p' → ∃ r, item = Ok r ∧ posting_read es s k (L ++ [r]) p'.
Proof.
  intros Hk [Hm Hf Ho [Hl Hlm] Hlat Hp] E. unfold decode_posting in E.
  apply bind_Ok in E as (r & -> & E). exists r. split; [done|].
  apply bind_Ok in E as (row & Hrow%ok_or_Ok & E).
  apply bind_Ok in E as ([] & Hmatch%guard_err_Ok%negb_false_iff & E).
  apply bind_Ok in E as ([] & Hbit%guard_err_Ok%Z.eqb_neq & E).
  apply bind_Ok in E as (mask & Hmask%ok_or_Ok & E). apply bind_Ok in E as ([] & _ & E).
  destruct (dl_key _ _ _ Hd _ _ _ _ Hk Hmatch Hbit) as [Hin Hb].
  destruct (dl_bit _ _ _ Hd _ _ Hin) as (i & Hi & Hpow & _).
  pose proof (masks_snoc rows keys bit es k L r _ mask row _ i Hm Hmask Hrow Hin eq_refl Hpow Hi) as Hm'.
  rewrite <- Hb in Hm'.
  assert (posted k (L ++ [r])) as Hp'.
  { apply Forall_app. split; [done|]. apply Forall_singleton. eauto. }
  assert (match in_profile input with Latency => posting_insert k r (ps_latency p) | FastLoad => ps_latency p end
          = latency_index (st_latency s) (insert_all k (st_latency s) (L ++ [r]))) as Hlat'.
  { rewrite Hlat. unfold latency_index, insert_all. rewrite foldl_app. by destruct (in_profile input). }
  destruct L as [|x L]; cbn [head hd_error tail app] in *; rewrite Hf in E.
  - injection E as <-. by split.
  - apply bind_Ok in E as (n & [-> Hn]%ok_or_Ok%checked_add_Some & E).
    apply bind_Ok in E as (c & _ & [= <-]). rewrite Hl in *. unfold len_of in *.
    split; cbn; try done.
    + rewrite Ho. by rewrite <- app_assoc.
    + rewrite len_of_app. unfold len_of. cbn. lia.
Qed.

Lemma decode_postings es s dk k items p p' :
  sd_key_from_disk d dk (in_symbol_count input) = Ok k → posting_read es s k [] p →
  try_fold (decode_posting input d dk k) p items = Ok p' →
  ∃ L, items = Ok <$> L ∧ posting_read es s k L p'.
Proof.
  intros Hk Hs0 E.
  apply (try_fold_ind _ (λ pre p, ∃ L, pre = Ok <$> L ∧ posting_read es s k L p)) in E; [done| |].
  - by exists [].
  - intros pre item post p1 p2 _ (L & -> & Hp) Ei.
    destruct (decode_posting_step _ _ _ _ _ _ _ _ Hk Hp Ei) as (r & -> & Hp').
    exists (L ++ [r]). by rewrite fmap_app.
Qed.

(** *** The entries *)

Record entries_read (es : list (Decoded K)) (s : DecodeState K) : Prop := {
  er_masks : masks_ok rows keys bit es (st_coverage s);
  er_keys : st_keys s = es.*1;
  er_ranges : Forall2 (λ e, range_gives (st_overflow s) e.2) es (st_ranges s);
  er_latency : st_latency s =
    latency_index posting_default (foldl (λ q e, insert_all e.1 q e.2) posting_default es);
  er_posted : Forall (λ e, e.2 ≠ [] ∧ increasing e.2 ∧ posted e.1 e.2) es
}.

(** Before the row ids of an entry. *)
Lemma posting_read_start es s k :
  entries_read es s →
  posting_read es s k [] (mkPostingState (st_coverage s) None (st_overflow s) 0 (st_latency s) (st_count s)).
Proof.
  intros [Hm _ _ _ _]. split; cbn; try done; [by apply masks_open|by rewrite app_nil_r| |constructor].
  unfold latency_index. by destruct (in_profile input).
Qed.

(** The row ids of an entry make it one of those read. *)
Lemma entry_read es s k L p first :
  entries_read es s → posting_read es s k L p → head L = Some first → increasing L →
  len_of (st_overflow s) ≤ u32_max →
  entries_read (es ++ [(k, L)])
    (mkDecodeState (ps_coverage p) (st_keys s ++ [k])
       (st_ranges s ++ [mkRange first (len_of (st_overflow s)) (ps_overflow_len p)])
       (ps_overflow p) (ps_latency p) (ps_count p)).
Proof.
  intros [Hm Hk Hr Hl Hp] [Hpm Hpf Hpo [Hpl Hplm] Hpla Hpp] Hfirst Hinc Hstart. split; cbn.
  - done.
  - by rewrite fmap_app, Hk.
  - rewrite Hpo. apply Forall2_app.
    + eapply Forall2_impl; [exact Hr|]. intros e r. apply range_gives_app.
    + repeat constructor; [done|]. exists (st_overflow s), []. cbn. by rewrite app_nil_r.
  - rewrite Hpla, Hl, foldl_app. unfold latency_index. by destruct (in_profile input).
  - apply Forall_app. split; [done|]. apply Forall_singleton. by destruct L.
Qed.

Lemma decode_entry_step es s entry s' :
  entries_read es s → decode_entry input d s entry = Ok s' →
  ∃ k L, sd_key_from_disk d (item_key entry) (in_symbol_count input) = Ok k ∧
    entries_read (es ++ [(k, L)]) s'.
Proof.
  intros Hread E. pose proof Hread as [Hm Hk Hr Hl Hp]. unfold decode_entry in E.
  apply bind_Ok in E as (k & Hkey & E). apply bind_Ok in E as (items & Hitems & E).
  apply bind_Ok in E as (start & [-> Hstart]%ok_or_try_from & E).
  apply bind_Ok in E as (p & Hfold & E).
  assert (posting_read es s k [] (mkPostingState (st_coverage s) None (st_overflow s) 0 (st_latency s)
    (st_count s))) as Hs0 by by apply posting_read_start.
  destruct (decode_postings _ _ _ _ _ _ _ Hkey Hs0 Hfold) as (L & -> & Hpr).
  apply bind_Ok in E as (first & Hfirst%ok_or_Ok & [= <-]). rewrite (pr_first _ _ _ _ _ Hpr) in Hfirst.
  apply posting_row_ids_increasing in Hitems as [Hne Hinc].
  exists k, L. split; [done|]. by apply entry_read.
Qed.

Lemma decode_entries entries s0 s :
  entries_read [] s0 → try_fold (decode_entry input d) s0 entries = Ok s →
  ∃ es, entries_read es s ∧
    Forall2 (λ entry e, sd_key_from_disk d (item_key entry) (in_symbol_count input) = Ok e.1) entries es.
Proof.
  intros Hs0 E.
  apply (try_fold_ind _ (λ pre s, ∃ es, entries_read es s ∧
    Forall2 (λ entry e, sd_key_from_disk d (item_key entry) (in_symbol_count input) = Ok e.1) pre es)) in E;
    [done|by exists []|].
  intros pre entry post s1 s2 _ (es & Hes & Hk) Ei.
  destruct (decode_entry_step _ _ _ _ Hes Ei) as (k & L & Hkey & Hes').
  exists (es ++ [(k, L)]). split; [done|]. apply Forall2_app; [done|]. by repeat constructor.
Qed.

(** *** The finished index *)

Lemma sorted_typed entries (es : list (Decoded K)) :
  sorted_keys entries → Forall (λ e, key_ok (item_key e)) entries →
  Forall2 (λ entry e, sd_key_from_disk d (item_key entry) (in_symbol_count input) = Ok e.1) entries es →
  StronglySorted (λ x y : K, key_compare x y = Lt) es.*1.
Proof.
  intros Hs Hok HF. apply Sorted_StronglySorted.
  { intros x y z. apply lex_compare_trans. }
  revert Hs Hok. induction HF as [|entry e entries es Hk HF IH]; intros Hs Hok; [constructor|].
  apply Forall_cons in Hok as [Hke Hok]. constructor; [apply IH; [|done]|].
  - unfold sorted_keys in *. cbn in Hs. destruct (item_key <$> entries); [done|].
    cbn [unsorted] in Hs. by apply orb_false_iff in Hs as [_ Hs].
  - destruct HF as [|entry' e' entries es Hk' HF]; constructor.
    unfold sorted_keys in Hs. cbn in Hs. apply orb_false_iff in Hs as [Hlt _].
    apply negb_false_iff in Hlt. unfold disk_ltb in Hlt.
    apply Forall_cons in Hok as [Hke' _].
    destruct (disk_compare _ _) eqn:Ec; [done| |done]. by eapply (dl_order _ _ _ Hd _ _ _ _ _ Hke Hke').
Qed.

(** An index that has the posting lists of the entries and no others. *)
Definition gives (es : list (Decoded K)) (q : PostingIndex K) : Prop :=
  posting_wf q ∧ (∀ k L, (k, L) ∈ es → posting q k = L) ∧ (∀ k, k ∉ es.*1 → posting q k = []).

Lemma insert_all_spec k q L :
  posting_wf q → posting_wf (insert_all k q L) ∧
  ∀ k', posting (insert_all k q L) k' = posting q k' ++ (if decide (k' = k) then L else []).
Proof.
  revert q. induction L as [|r L IH]; intros q Hq; cbn.
  { split; [done|]. intros k'. by destruct (decide (k' = k)); rewrite app_nil_r. }
  destruct (posting_insert_spec q k r Hq) as [Hq' Hp]. destruct (IH _ Hq') as [Hwf Hi].
  split; [done|]. intros k'. rewrite Hi, Hp, <- app_assoc. f_equal. by destruct (decide (k' = k)).
Qed.

Lemma latency_gives (es : list (Decoded K)) :
  NoDup es.*1 → gives es (foldl (λ q e, insert_all e.1 q e.2) posting_default es).
Proof.
  induction es as [|[k L] es IH] using rev_ind; intros Hnd.
  { split; [apply posting_default_wf|]. split; [by intros k L ?%elem_of_nil|].
    intros k _. apply posting_default_nil. }
  rewrite fmap_app in Hnd. cbn in Hnd. apply NoDup_app in Hnd as (Hnd & Hdis & _).
  destruct (IH Hnd) as (Hwf & Hin & Hout). rewrite foldl_app. cbn [foldl].
  destruct (insert_all_spec k _ L Hwf) as [Hwf' Hp]. split; [done|].
  assert (k ∉ es.*1) as Hk by (intros Hx; by apply (Hdis _ Hx), list_elem_of_singleton).
  split.
  - intros k' L'. rewrite elem_of_app, list_elem_of_singleton. cbn [fst snd]. rewrite Hp.
    intros [He|[= -> ->]].
    + rewrite decide_False, app_nil_r; [by apply Hin|]. intros ->. apply Hk.
      apply list_elem_of_fmap. by exists (k, L').
    + rewrite decide_True by done. by rewrite Hout.
  - intros k' Hk'. rewrite fmap_app, elem_of_app in Hk'. cbn [fst snd fmap list_fmap] in *.
    rewrite Hp, decide_False by (intros ->; apply Hk'; right; by left).
    rewrite app_nil_r. apply Hout. tauto.
Qed.

Lemma sorted_gives (es : list (Decoded K)) ranges overflow :
  StronglySorted (λ x y : K, key_compare x y = Lt) es.*1 →
  Forall2 (λ e, range_gives overflow e.2) es ranges →
  gives es (PSorted es.*1 ranges overflow).
Proof.
  intros Hs HF. split.
  { split; [done|]. by rewrite length_fmap, (Forall2_length _ _ _ HF). }
  unfold posting, posting_candidates. split.
  - intros k L Hin. apply list_elem_of_lookup in Hin as [i Hi].
    rewrite (proj2 (binary_search_spec Hs k i)) by (by rewrite list_lookup_fmap, Hi).
    destruct (Forall2_lookup_l _ _ _ _ _ HF Hi) as (r & -> & Hr). by apply range_gives_items.
  - intros k Hk. by rewrite (proj2 (binary_search_None Hs k)).
Qed.

Lemma entries_give es s :
  entries_read es s → StronglySorted (λ x y : K, key_compare x y = Lt) es.*1 →
  gives es (match in_profile input with
            | FastLoad => PSorted (st_keys s) (st_ranges s) (st_overflow s)
            | Latency => st_latency s
            end).
Proof.
  intros [_ Hk Hr Hl _] Hs. rewrite Hl. unfold latency_index. destruct (in_profile input).
  - rewrite Hk. by apply sorted_gives.
  - by apply latency_gives, strictly_sorted_NoDup.
Qed.

Hypothesis Hids : ∀ i row, rows !! i = Some row → row_id row = index_id i.

Lemma rows_increasing (P : RelationshipRow → Prop) `{∀ row, Decision (P row)} :
  increasing (row_id <$> filter P rows).
Proof.
  assert (∀ pre post, rows = pre ++ post →
    increasing (row_id <$> filter P post) ∧
    Forall (λ r, index_id (length pre) ≤ r)%positive (row_id <$> filter P post)) as Hgen.
  { intros pre post. revert pre. induction post as [|row post IH]; intros pre E; [split; constructor|].
    destruct (IH (pre ++ [row])) as [Hs Hf]; [by rewrite <- app_assoc|].
    rewrite length_app, Nat.add_1_r in Hf.
    assert (row_id row = index_id (length pre)) as Hrow.
    { apply Hids. by rewrite E, list_lookup_middle. }
    assert (index_id (length pre) < index_id (S (length pre)))%positive by (unfold index_id; lia).
    rewrite filter_cons. destruct (decide (P row)); cbn.
    - rewrite Hrow. split; [constructor; [done|]|constructor; [done|]];
        (eapply Forall_impl; [exact Hf|]); intros r Hr; cbn in *; lia.
    - split; [done|]. eapply Forall_impl; [exact Hf|]. intros r Hr; cbn in *; lia. }
  by apply (Hgen []).
Qed.

(** The keys an index has under a profile. *)
Definition profile_keys (p : IndexProfile) (row : RelationshipRow) : list K :=
  if sd_required_by_profile d p then keys row else [].

Lemma covered_index p es s q :
  entries_read es s → gives es q →
  try_for (check_coverage d p) (zip rows (st_coverage s)) = Ok tt →
  indexed_by q (profile_keys p) rows.
Proof.
  intros [[Hlen Hm] _ _ _ Hp] (Hwf & Hin & Hout) Hc. split; [done|]. intros k.
  assert (∀ j row, rows !! j = Some row → ∃ mask, st_coverage s !! j = Some mask ∧
    mask = if sd_required_by_profile d p then sd_expected_mask d row else 0) as Hmask.
  { intros j row Hj. destruct (lookup_lt_is_Some_2 (st_coverage s) j) as [mask Hcov].
    { rewrite Hlen. by eapply lookup_lt_Some. }
    exists mask. split; [done|]. apply try_for_Ok in Hc. rewrite Forall_lookup in Hc.
    specialize (Hc j (row, mask)). rewrite lookup_zip_Some in Hc.
    specialize (Hc (conj Hj Hcov)). apply guard_err_Ok, negb_false_iff, Z.eqb_eq in Hc. done. }
  assert (∀ L r, (k, L) ∈ es → r ∈ L → ∃ row, rows !! id_index r = Some row ∧ k ∈ profile_keys p row) as Hsub.
  { intros L r He Hr. rewrite Forall_forall in Hp. destruct (Hp _ He) as (_ & _ & Hpost).
    unfold posted in Hpost. rewrite Forall_forall in Hpost. destruct (Hpost _ Hr) as (row & Hrow & Hk).
    exists row. split; [done|]. unfold profile_keys.
    destruct (Hmask _ _ Hrow) as (mask & Hcov & Hval). destruct (dl_bit _ _ _ Hd _ _ Hk) as (i & Hi & Hpow & _).
    destruct (sd_required_by_profile d p); [done|]. exfalso.
    assert (Z.testbit mask i = true) as Ht; [|by rewrite Hval, Z.testbit_0_l in Ht].
    apply (Hm _ _ _ Hcov Hi). exists k, L, row. rewrite index_id_index. done. }
  assert (∀ j row, rows !! j = Some row → k ∈ profile_keys p row → ∃ L, (k, L) ∈ es ∧ index_id j ∈ L) as Hsup.
  { intros j row Hj Hk. unfold profile_keys in Hk. destruct (Hmask _ _ Hj) as (mask & Hcov & Hval).
    destruct (sd_required_by_profile d p); [|by apply elem_of_nil in Hk].
    destruct (dl_bit _ _ _ Hd _ _ Hk) as (i & Hi & Hpow & Ht). rewrite <- Hval in Ht.
    apply (Hm _ _ _ Hcov Hi) in Ht as (k' & L & row' & He & Hr & Hj' & Hk' & Hb).
    rewrite Hj in Hj'. injection Hj' as <-. exists L.
    rewrite (dl_inj _ _ _ Hd row k k'); [done..|]. congruence. }
  assert (∀ r, r ∈ row_id <$> filter (λ row, k ∈ profile_keys p row) rows ↔
    ∃ row, rows !! id_index r = Some row ∧ k ∈ profile_keys p row) as Hfil.
  { intros r. rewrite list_elem_of_fmap. setoid_rewrite list_elem_of_filter. split.
    - intros (row & -> & Hk & Hrow). apply list_elem_of_lookup in Hrow as [j Hj].
      rewrite (Hids _ _ Hj), id_index_id. eauto.
    - intros (row & Hrow & Hk). exists row. rewrite (Hids _ _ Hrow), index_id_index.
      split; [done|]. split; [done|]. by eapply list_elem_of_lookup_2. }
  destruct (decide (k ∈ es.*1)) as [Hk|Hk].
  - apply list_elem_of_fmap in Hk as ([k' L] & -> & He). cbn [fst snd] in *. rewrite (Hin _ _ He).
    rewrite Forall_forall in Hp. destruct (Hp _ He) as (_ & Hinc & _). cbn in Hinc.
    apply increasing_unique; [done|apply rows_increasing|]. intros r. rewrite Hfil. split; [by apply Hsub|].
    intros (row & Hrow & Hrk). destruct (Hsup _ _ Hrow Hrk) as (L' & He' & Hr).
    rewrite index_id_index in Hr. by rewrite <- (Hin _ _ He), (Hin _ _ He').
  - rewrite (Hout _ Hk).
    assert (filter (λ row, k ∈ profile_keys p row) rows = []) as ->; [|done].
    apply elem_of_nil_inv. intros row Hrow.
    apply list_elem_of_filter in Hrow as [Hrk Hrow]. apply list_elem_of_lookup in Hrow as [j Hj].
    destruct (Hsup _ _ Hj Hrk) as (L & He & _). apply Hk, list_elem_of_fmap. by exists (k, L).
Qed.

Lemma decode_index_sound count q count' :
  in_validation input = ValidationFull → keys_ok (in_keys input) →
  decode_index input d count = Ok (q, count') →
  indexed_by q (profile_keys (in_index_profile input)) rows.
Proof.
  intros Hv Hko E. unfold decode_index in E. apply bind_Ok in E as (entries & He & E).
  pose proof (snapshot_entries_ok _ _ _ Hko He) as Hek. apply snapshot_entries_sorted in He.
  rewrite Hv in E. cbn [andb bool_decide decide_rel] in E.
  rewrite bool_decide_eq_false_2 in E by done. cbn [andb] in E.
  apply bind_Ok in E as (s & Hs & E). apply bind_Ok in E as ([] & Hc & [= <- _]).
  apply decode_entries in Hs as (es & Hes & Hk).
  - eapply covered_index; [exact Hes| |exact Hc]. apply entries_give; [done|]. by eapply sorted_typed.
  - assert (posting_default = latency_index posting_default (posting_default (K:=K))) as Hdef
      by (unfold latency_index; by destruct (in_profile input)).
    split; cbn; [apply masks_start|done|constructor|exact Hdef|constructor].
Qed.
End decoding.
