(* ===== verification/SnapshotStore.v ===== *)
(** * The store in a snapshot (src/src/relationship.rs)

    The seven index decoders and the sections of a whole store, written from the
    canonical store of a view and read back into a store with all rows live. *)

From S2P Require Import Prelude Model Domain StoreTypes Interner LiveRows Posting Row Identity.
From S2P Require Import Store StoreView Legacy SnapshotBytes Snapshot SnapshotSymbols SnapshotIndexes.

Local Open Scope Z_scope.

(** ** Keys *)

Definition ensure_zero (value : Z) (reason : string) : sresult unit :=
  if value =? 0 then Ok tt else Err (SFormat reason).

Definition resource_key_from_disk (key : DiskIndexKey) (symbols : Z) : sresult ResourceIndexKey :=
  object_type ← symbol_from_snapshot_raw (key_first key) symbols;
  object_id ← symbol_from_snapshot_raw (key_second key) symbols;
  rel ← symbol_from_snapshot_raw (key_third key) symbols;
  Ok (object_type, object_id, rel).

Definition resource_object_key_from_disk (key : DiskIndexKey) (symbols : Z)
    : sresult ResourceObjectIndexKey :=
  _ ← ensure_zero (key_third key) "resource object index third key field must be zero";
  object_type ← symbol_from_snapshot_raw (key_first key) symbols;
  object_id ← symbol_from_snapshot_raw (key_second key) symbols;
  Ok (object_type, object_id).

Definition resource_type_relation_key_from_disk (key : DiskIndexKey) (symbols : Z)
    : sresult ResourceTypeRelationIndexKey :=
  _ ← ensure_zero (key_third key) "resource type relation index third key field must be zero";
  object_type ← symbol_from_snapshot_raw (key_first key) symbols;
  rel ← symbol_from_snapshot_raw (key_second key) symbols;
  Ok (object_type, rel).

Definition resource_type_key_from_disk (key : DiskIndexKey) (symbols : Z) : sresult SymbolId :=
  _ ← ensure_zero (key_second key) "resource type index second key field must be zero";
  _ ← ensure_zero (key_third key) "resource type index third key field must be zero";
  symbol_from_snapshot_raw (key_first key) symbols.

Definition subject_key_from_disk (key : DiskIndexKey) (symbols : Z) : sresult SubjectIndexKey :=
  rel ← if key_third key =? 0 then Ok None
        else Some <$> symbol_from_snapshot_raw (key_third key) symbols;
  subject_type ← symbol_from_snapshot_raw (key_first key) symbols;
  subject_id ← symbol_from_snapshot_raw (key_second key) symbols;
  Ok (subject_type, subject_id, rel).

Definition subject_type_relation_key_from_disk (key : DiskIndexKey) (symbols : Z)
    : sresult SubjectTypeRelationIndexKey :=
  _ ← ensure_zero (key_third key) "subject type relation index third key field must be zero";
  subject_type ← symbol_from_snapshot_raw (key_first key) symbols;
  rel ← symbol_from_snapshot_raw (key_second key) symbols;
  Ok (subject_type, rel).

Definition subject_type_key_from_disk (key : DiskIndexKey) (symbols : Z) : sresult SymbolId :=
  _ ← ensure_zero (key_second key) "subject type index second key field must be zero";
  _ ← ensure_zero (key_third key) "subject type index third key field must be zero";
  symbol_from_snapshot_raw (key_first key) symbols.

(** ** Which rows a key covers *)

Definition row_matches_resource_key (row : RelationshipRow) (key : DiskIndexKey) : bool :=
  (Zpos (row_resource_type row) =? key_first key) && (Zpos (row_resource_id row) =? key_second key) &&
  (Zpos (row_relation row) =? key_third key).

Definition row_matches_resource_object_key (row : RelationshipRow) (key : DiskIndexKey) : bool :=
  (Zpos (row_resource_type row) =? key_first key) && (Zpos (row_resource_id row) =? key_second key) &&
  (key_third key =? 0).

Definition row_matches_resource_type_relation_key (row : RelationshipRow) (key : DiskIndexKey) : bool :=
  (Zpos (row_resource_type row) =? key_first key) && (Zpos (row_relation row) =? key_second key) &&
  (key_third key =? 0).

Definition row_matches_resource_type_key (row : RelationshipRow) (key : DiskIndexKey) : bool :=
  (Zpos (row_resource_type row) =? key_first key) && (key_second key =? 0) && (key_third key =? 0).

Definition row_matches_subject_key (row : RelationshipRow) (key : DiskIndexKey) : bool :=
  (Zpos (row_subject_type row) =? key_first key) && (Zpos (row_subject_id row) =? key_second key) &&
  match row_subject_relation row with
  | None => key_third key =? 0
  | Some rel => (key_third key =? 0) || (Zpos rel =? key_third key)
  end.

Definition row_matches_subject_type_relation_key (row : RelationshipRow) (key : DiskIndexKey) : bool :=
  (Zpos (row_subject_type row) =? key_first key) &&
  match row_subject_relation row with
  | Some rel => Zpos rel =? key_second key
  | None => false
  end && (key_third key =? 0).

Definition row_matches_subject_type_key (row : RelationshipRow) (key : DiskIndexKey) : bool :=
  (Zpos (row_subject_type row) =? key_first key) && (key_second key =? 0) && (key_third key =? 0).

Definition simple_index_coverage_bit (row : RelationshipRow) (key : DiskIndexKey) : Z := 1.

Definition subject_index_coverage_bit (row : RelationshipRow) (key : DiskIndexKey) : Z :=
  if key_third key =? 0 then 1 else
  match row_subject_relation row with
  | Some rel => if Zpos rel =? key_third key then 2 else 0
  | None => 0
  end.

Definition subject_expected_mask (row : RelationshipRow) : Z :=
  match row_subject_relation row with Some _ => 3 | None => 1 end.
Definition subject_type_relation_expected_mask (row : RelationshipRow) : Z :=
  match row_subject_relation row with Some _ => 1 | None => 0 end.

(** ** The seven decoders *)

Definition resource_decoder : SnapshotIndexDecoder ResourceIndexKey :=
  mkDecoder KResource resource_key_from_disk row_matches_resource_key simple_index_coverage_bit
    (λ _, 1) (λ _, true).
Definition resource_object_decoder : SnapshotIndexDecoder ResourceObjectIndexKey :=
  mkDecoder KResourceObject resource_object_key_from_disk row_matches_resource_object_key
    simple_index_coverage_bit (λ _, 1) supports_broad_resource_indexes.
Definition resource_type_relation_decoder : SnapshotIndexDecoder ResourceTypeRelationIndexKey :=
  mkDecoder KResourceTypeRelation resource_type_relation_key_from_disk
    row_matches_resource_type_relation_key simple_index_coverage_bit (λ _, 1)
    supports_broad_resource_indexes.
Definition resource_type_decoder : SnapshotIndexDecoder SymbolId :=
  mkDecoder KResourceType resource_type_key_from_disk row_matches_resource_type_key
    simple_index_coverage_bit (λ _, 1) supports_broad_resource_indexes.
Definition subject_decoder : SnapshotIndexDecoder SubjectIndexKey :=
  mkDecoder KSubject subject_key_from_disk row_matches_subject_key subject_index_coverage_bit
    subject_expected_mask supports_subject_reverse_lookup.
Definition subject_type_relation_decoder : SnapshotIndexDecoder SubjectTypeRelationIndexKey :=
  mkDecoder KSubjectTypeRelation subject_type_relation_key_from_disk
    row_matches_subject_type_relation_key simple_index_coverage_bit
    subject_type_relation_expected_mask supports_subject_reverse_lookup.
Definition subject_type_decoder : SnapshotIndexDecoder SymbolId :=
  mkDecoder KSubjectTypeIndex subject_type_key_from_disk row_matches_subject_type_key
    simple_index_coverage_bit (λ _, 1) supports_subject_reverse_lookup.

Definition validate_decoded_posting_row_id_count (ids : DecodedPostingRowIds) (decoded : Z)
    : sresult unit :=
  expected ← match ids with
             | FixedIds row_ids =>
                 ok_or (try_from_uint u64_max (len_of row_ids)) (SLimitExceeded "posting row ids")
             | DeltaVarint _ row_count => Ok row_count
             end;
  guard_err (negb (decoded =? expected))
    (SFormat "posting row id row count does not match decoded varints").

(** [DecodedSnapshotIndexes::decode] *)
Definition decode_indexes (reader : SnapshotReader) (rows : list RelationshipRow)
    (profile : SnapshotLoadProfile) (validation : SnapshotValidationMode) : sresult StoreIndexes :=
  directory ← decode_index_directory reader;
  keys ← decode_index_keys reader;
  ranges ← decode_posting_ranges reader;
  ids ← decode_posting_row_ids reader;
  let header := reader_header reader in
  _ ← validate_index_section_layout directory keys ranges ids (relationship_count header);
  let input := mkDecodeInput directory keys ranges ids rows (relationship_count header)
                 (symbol_count header) (header_index_profile header) profile validation in
  '(resource, count) ← decode_index input resource_decoder 0;
  '(resource_object, count) ← decode_index input resource_object_decoder count;
  '(resource_type_relation, count) ← decode_index input resource_type_relation_decoder count;
  '(resource_type, count) ← decode_index input resource_type_decoder count;
  '(subject, count) ← decode_index input subject_decoder count;
  '(subject_type_relation, count) ← decode_index input subject_type_relation_decoder count;
  '(subject_type, count) ← decode_index input subject_type_decoder count;
  _ ← validate_decoded_posting_row_id_count ids count;
  Ok (mkIndexes resource resource_object resource_type_relation resource_type subject
        subject_type_relation subject_type).

Section sections.
Context `{Hasher}.

(** ** Whole stores *)

(** [IndexedRelationshipStore::decode_snapshot_sections] *)
Definition decode_store (reader : SnapshotReader) (profile : SnapshotLoadProfile)
    (validation : SnapshotValidationMode) : sresult Store :=
  interner ← decode_interner reader validation;
  decoded ← decode_snapshot_rows reader interner validation;
  indexes ← decode_indexes reader (decoded_rows decoded) profile validation;
  Ok (mkStore (header_index_profile (reader_header reader)) interner (decoded_rows decoded)
        (decoded_live_rows decoded) 0 (decoded_uniqueness decoded) indexes).

(** [u64::try_from(len)] *)
Definition count_u64 {A} (l : list A) (component : string) : sresult Z :=
  ok_or (try_from_uint u64_max (len_of l)) (SLimitExceeded component).

(** [IndexedRelationshipStore::encode_snapshot_sections] *)
Definition encode_store (st : Store) (p : IndexProfile) (layout : SnapshotEncodingLayout)
    (w : SectionWriter) : sresult SectionWriter :=
  let interner := interner st in
  let bytes := str_bytes (bytes interner) in
  bytes_len ← checked_u32_from_usize (len_of bytes);
  '(symbol_table, table_flags) ← encode_v3_symbol_table (entries interner) bytes_len layout;
  byte_count ← count_u64 bytes "symbol bytes";
  w ← add_section SymbolBytes bytes byte_count w;
  table_count ← count_u64 (entries interner) "symbol table";
  w ← add_section_with_flags SymbolTable table_flags symbol_table table_count w;
  '(hashes, lookup, lookup_flags) ← encode_symbol_acceleration interner layout;
  symbols ← count_u64 (entries interner) "symbol lookup";
  w ← add_section SymbolHashes hashes symbols w;
  w ← add_section_with_flags SymbolLookup lookup_flags lookup symbols w;
  let disk_rows := live_disk_rows st in
  count ← checked_u32_from_usize (len_of (entries interner));
  let row_width := snapshot_symbol_width count layout in
  row_len ← checked_mul_usize (width_byte_len row_width) 6;
  _ ← ok_or (checked_mul usize_max (len_of disk_rows) row_len)
        (SFormat "relationship rows length overflowed");
  row_count ← count_u64 disk_rows "relationship rows";
  w ← add_section_with_flags RelationshipRows (width_flag_bits row_width)
        (concat (encode_row row_width <$> disk_rows)) row_count w;
  ix ← encoded_from_rows disk_rows p;
  w ← add_section IndexDirectory (ei_directory ix) SNAPSHOT_INDEX_KIND_COUNT w;
  w ← add_section IndexKeys (buf_keys (ei_buffers ix)) (ei_key_count ix) w;
  w ← add_section PostingRanges (buf_ranges (ei_buffers ix)) (ei_range_count ix) w;
  add_section PostingRowIds (buf_posting_row_ids (ei_buffers ix)) (ei_posting_row_id_count ix) w.

(** [RelationshipStoreView::encode_snapshot_sections] *)
Definition encode_view (v : StoreView) (p : IndexProfile) (layout : SnapshotEncodingLayout)
    (w : SectionWriter) : sresult SectionWriter :=
  st ← map_err SStore (canonical_store v);
  encode_store st p layout w.
End sections.
