(* ===== verification/SnapshotLoad.v ===== *)
(** * The store of an accepted snapshot

    The laws of the seven index decoders, and that a store decoded under full
    validation meets the invariant every store built by mutations meets. *)

From S2P Require Import Prelude Model Domain StoreTypes Interner LiveRows Posting Row Identity.
From S2P Require Import Store StoreInv Legacy SnapshotBytes Snapshot SnapshotProps SnapshotSymbols.
From S2P Require Import SnapshotIndexes SnapshotStore SnapshotDataProps SnapshotIndexProps.

Local Open Scope Z_scope.

(** ** Symbols of a key *)

Lemma symbol_raw_Ok value n id :
  symbol_from_snapshot_raw value n = Ok id ↔ id = Z.to_pos value ∧ value ≠ 0 ∧ value ≤ n.
Proof.
  unfold symbol_from_snapshot_raw, non_zero. split.
  - intros (v & Hv%ok_or_Ok & E)%bind_Ok. destruct (Z.eqb_spec value 0); [done|]. injection Hv as <-.
    apply bind_Ok in E as ([] & ?%guard_err_Ok%Z.ltb_ge & [= <-]). done.
  - intros (-> & Hne & Hle). step_ok value; [by rewrite (proj2 (Z.eqb_neq _ _) Hne)|].
    step_ok tt; [by apply guard_err_Ok, Z.ltb_ge|done].
Qed.

Lemma ensure_zero_Ok value reason : ensure_zero value reason = Ok tt ↔ value = 0.
Proof. unfold ensure_zero. destruct (Z.eqb_spec value 0); naive_solver. Qed.

(** The fields of a disk key, and the sort key of the symbols read from it. *)
Definition field_codes (k : DiskIndexKey) : list N :=
  [Z.to_N (key_first k); Z.to_N (key_second k); Z.to_N (key_third k)].

Lemma field_codes_order a b :
  key_ok a → key_ok b → disk_compare a b = lex_compare (field_codes a) (field_codes b).
Proof.
  intros (? & ? & ?) (? & ? & ?). unfold disk_compare, field_codes. cbn [lex_compare].
  rewrite !Z2N.inj_compare by done.
  by destruct (key_first a ?= key_first b), (key_second a ?= key_second b), (key_third a ?= key_third b).
Qed.

Lemma symbol_code value n id :
  0 ≤ value → symbol_from_snapshot_raw value n = Ok id → Npos id = Z.to_N value.
Proof. intros Hv (-> & ? & _)%symbol_raw_Ok. by destruct value. Qed.

(** Trailing zeros do not matter to the order. *)
Lemma lex_compare_zeros a b c : lex_compare (a ++ c) (b ++ c) = Lt → length a = length b →
  lex_compare a b = Lt.
Proof.
  revert b. induction a as [|x a IH]; intros [|y b]; cbn; try done.
  - by rewrite (proj2 (lex_compare_eq c c) eq_refl).
  - destruct (N.compare x y); [|done|done]. intros E [= Hl]. by apply IH.
Qed.

(** The sort key of a typed key is a prefix of the fields, the rest are zero. *)
Lemma order_from_codes {K} `{SortKey K} (key_from_disk : DiskIndexKey → Z → sresult K) zeros :
  (∀ dk n k, key_ok dk → key_from_disk dk n = Ok k → field_codes dk = sort_key k ++ zeros) →
  ∀ dk dk' n k k', key_ok dk → key_ok dk' → key_from_disk dk n = Ok k → key_from_disk dk' n = Ok k' →
    disk_compare dk dk' = Lt → key_compare k k' = Lt.
Proof.
  intros Hcodes dk dk' n k k' Hok Hok' Hk Hk'. rewrite field_codes_order by done.
  rewrite (Hcodes _ _ _ Hok Hk), (Hcodes _ _ _ Hok' Hk'). intros E. unfold key_compare.
  eapply lex_compare_zeros; [exact E|]. by rewrite !sort_key_length.
Qed.

(** ** The laws *)

Ltac read_key := repeat match goal with
  | H : mbind _ _ = Ok _ |- _ => apply bind_Ok in H as (? & ? & H)
  | H : Ok _ = Ok _ |- _ => injection H as <-
  | H : ensure_zero _ _ = Ok ?u |- _ => destruct u; apply ensure_zero_Ok in H
  | H : (_ && _) = true |- _ => apply andb_true_iff in H as [? H]
  | H : (_ =? _) = true |- _ => apply Z.eqb_eq in H
  end.

Ltac key_codes from_disk :=
  let dk := fresh "dk" in let n := fresh "n" in let k := fresh "k" in let Hk := fresh "Hk" in
  intros dk n k (? & ? & ?) Hk; unfold field_codes; cbn in Hk; unfold from_disk in Hk; read_key;
  repeat match goal with
  | H : symbol_from_snapshot_raw _ _ = Ok _ |- _ => apply symbol_code in H; [|done]
  end; repeat match goal with H : _ = 0 |- _ => rewrite H end; cbn; congruence.

(** A symbol read from a field that equals the field of a row. *)
Ltac match_row := repeat match goal with
  | H : symbol_from_snapshot_raw _ _ = Ok _ |- _ => apply symbol_raw_Ok in H as (-> & _ & _)
  end;
  repeat match goal with H : Zpos _ = _ |- _ => rewrite <- H; clear H end; cbn [Z.to_pos].

Lemma bit_one : ∃ i, 0 ≤ i ∧ 1 = 2 ^ i ∧ Z.testbit 1 i = true.
Proof. by exists 0. Qed.

(** An index with one key per row. *)
Ltac simple_laws from_disk matches zeros :=
  split;
  [ let Hk := fresh "Hk" in let Hm := fresh "Hm" in
    intros dk n k row Hk Hm _; cbn in Hk, Hm; unfold from_disk in Hk; unfold matches in Hm;
    read_key; match_row; split; [by left|done]
  | intros row k _; apply bit_one
  | by intros row k k' ->%list_elem_of_singleton ->%list_elem_of_singleton
  | apply (order_from_codes _ zeros); key_codes from_disk ].

Lemma resource_laws : decoder_laws resource_decoder (λ r, [resource_key r]) (λ _ _, 1).
Proof. simple_laws resource_key_from_disk row_matches_resource_key (@nil N). Qed.

Lemma resource_object_laws :
  decoder_laws resource_object_decoder (λ r, [resource_object_key r]) (λ _ _, 1).
Proof. simple_laws resource_object_key_from_disk row_matches_resource_object_key [0%N]. Qed.

Lemma resource_type_relation_laws :
  decoder_laws resource_type_relation_decoder (λ r, [resource_type_relation_key r]) (λ _ _, 1).
Proof.
  simple_laws resource_type_relation_key_from_disk row_matches_resource_type_relation_key [0%N].
Qed.

Lemma resource_type_laws : decoder_laws resource_type_decoder (λ r, [row_resource_type r]) (λ _ _, 1).
Proof. simple_laws resource_type_key_from_disk row_matches_resource_type_key [0%N; 0%N]. Qed.

Lemma subject_type_laws : decoder_laws subject_type_decoder (λ r, [row_subject_type r]) (λ _ _, 1).
Proof. simple_laws subject_type_key_from_disk row_matches_subject_type_key [0%N; 0%N]. Qed.

Definition subject_bit (row : RelationshipRow) (k : SubjectIndexKey) : Z :=
  match k.2 with None => 1 | Some _ => 2 end.

Lemma subject_laws : decoder_laws subject_decoder subject_keys subject_bit.
Proof.
  split.
  - intros dk n k row Hk Hm _. cbn in Hk, Hm |- *. unfold subject_key_from_disk in Hk.
    unfold row_matches_subject_key in Hm. unfold subject_index_coverage_bit, subject_keys, subject_bit.
    apply bind_Ok in Hk as (rel & Hrel & Hk). apply bind_Ok in Hk as (t & Ht & Hk).
    apply bind_Ok in Hk as (i & Hi & [= <-]).
    apply andb_true_iff in Hm as [[Hmt%Z.eqb_eq Hmi%Z.eqb_eq]%andb_true_iff Hm]. match_row.
    destruct (Z.eqb_spec (key_third dk) 0) as [Hz|Hz]; [injection Hrel as <-|].
    + destruct (row_subject_relation row); (split; [set_solver|done]).
    + apply fmap_Ok in Hrel as (r & Hr & ->). destruct (row_subject_relation row) as [r'|]; [|done].
      cbn [orb] in Hm. apply Z.eqb_eq in Hm. rewrite <- Hm in Hr |- *. apply symbol_raw_Ok in Hr as (-> & _).
      rewrite Z.eqb_refl. cbn. split; [by left|done].
  - intros row k Hk. cbn. unfold subject_keys, subject_expected_mask, subject_bit in *.
    destruct (row_subject_relation row) as [r|].
    + apply elem_of_cons in Hk as [->| ->%list_elem_of_singleton]; [by exists 1|by exists 0].
    + apply list_elem_of_singleton in Hk as ->. by exists 0.
  - intros row k k'. unfold subject_keys, subject_bit. destruct (row_subject_relation row) as [r|].
    + by intros [->| ->%list_elem_of_singleton]%elem_of_cons [->| ->%list_elem_of_singleton]%elem_of_cons.
    + by intros ->%list_elem_of_singleton ->%list_elem_of_singleton.
  - apply (order_from_codes _ []). intros dk n k (? & ? & ?) Hk. cbn in Hk. unfold subject_key_from_disk in Hk.
    apply bind_Ok in Hk as (rel & Hrel & Hk). apply bind_Ok in Hk as (t & Ht%symbol_code & Hk); [|done].
    apply bind_Ok in Hk as (i & Hi%symbol_code & [= <-]); [|done]. unfold field_codes. cbn.
    rewrite Ht, Hi. do 2 f_equal. f_equal. destruct (Z.eqb_spec (key_third dk) 0) as [->|Hz].
    + by injection Hrel as <-.
    + by apply fmap_Ok in Hrel as (r & Hr%symbol_code & ->).
Qed.

Lemma subject_type_relation_laws :
  decoder_laws subject_type_relation_decoder (λ r, option_list (subject_type_relation_key r)) (λ _ _, 1).
Proof.
  split.
  - intros dk n k row Hk Hm _. cbn in Hk, Hm. unfold subject_type_relation_key_from_disk in Hk.
    unfold row_matches_subject_type_relation_key in Hm. unfold subject_type_relation_key.
    apply andb_true_iff in Hm as [[Hmt%Z.eqb_eq Hm]%andb_true_iff _].
    destruct (row_subject_relation row) as [r|]; [|done]. read_key. match_row. by split; [left|].
  - intros row k Hk. cbn. unfold subject_type_relation_key, subject_type_relation_expected_mask in *.
    destruct (row_subject_relation row) as [r|]; [|by apply elem_of_nil in Hk]. apply bit_one.
  - intros row k k'. unfold subject_type_relation_key. destruct (row_subject_relation row) as [r|]; cbn.
    + by intros ->%list_elem_of_singleton ->%list_elem_of_singleton.
    + by intros ?%elem_of_nil.
  - apply (order_from_codes _ [0%N]). key_codes subject_type_relation_key_from_disk.
Qed.

(** ** All indexes *)

(** The indexes a profile keeps hold the rows, the others hold none. *)
Record profile_indexes_ok (p : IndexProfile) (ix : StoreIndexes) (rows : list RelationshipRow) : Prop := {
  pi_resource : indexed_by (by_resource ix) (profile_keys resource_decoder (λ r, [resource_key r]) p) rows;
  pi_resource_object : indexed_by (by_resource_object ix)
    (profile_keys resource_object_decoder (λ r, [resource_object_key r]) p) rows;
  pi_resource_type_relation : indexed_by (by_resource_type_relation ix)
    (profile_keys resource_type_relation_decoder (λ r, [resource_type_relation_key r]) p) rows;
  pi_resource_type : indexed_by (by_resource_type ix)
    (profile_keys resource_type_decoder (λ r, [row_resource_type r]) p) rows;
  pi_subject : indexed_by (by_subject ix) (profile_keys subject_decoder subject_keys p) rows;
  pi_subject_type_relation : indexed_by (by_subject_type_relation ix)
    (profile_keys subject_type_relation_decoder (λ r, option_list (subject_type_relation_key r)) p) rows;
  pi_subject_type : indexed_by (by_subject_type ix)
    (profile_keys subject_type_decoder (λ r, [row_subject_type r]) p) rows
}.

Lemma full_indexes_ok ix rows : profile_indexes_ok Full ix rows → indexes_ok ix rows.
Proof. by intros [? ? ? ? ? ? ?]. Qed.

Lemma yields_disk_key : yields read_disk_key key_ok.
Proof.
  unfold read_disk_key. reads_uint. intros a [Ha _]. reads_uint. intros b [Hb _].
  reads_uint. intros c [Hc _]. by apply yields_ret.
Qed.

Lemma decode_keys_ok r keys : reader_ok r → decode_index_keys r = Ok keys → keys_ok keys.
Proof.
  intros Hr E. apply bind_Ok in E as (s & Hs & E). destruct (is_v3 r).
  - apply bind_Ok in E as (? & _ & [= <-]). by apply (ro_bytes _ Hr _ _ Hs).
  - apply bind_Ok in E as (? & _ & E). apply bind_Ok in E as (? & _ & E).
    apply bind_Ok in E as (? & _ & E). apply fmap_Ok in E as (ks & E & ->).
    by apply (yields_all _ _ _ _ (yields_times _ _ _ yields_disk_key) (ro_bytes _ Hr _ _ Hs)) in E as [_ E].
Qed.

Lemma decode_indexes_sound r rows profile ix :
  reader_ok r → (∀ i row, rows !! i = Some row → row_id row = index_id i) →
  decode_indexes r rows profile ValidationFull = Ok ix →
  profile_indexes_ok (header_index_profile (reader_header r)) ix rows.
Proof.
  intros Hr Hids E. unfold decode_indexes in E.
  apply bind_Ok in E as (directory & _ & E). apply bind_Ok in E as (ks & Hks & E).
  apply decode_keys_ok in Hks; [|done].
  apply bind_Ok in E as (ranges & _ & E). apply bind_Ok in E as (ids & _ & E).
  apply bind_Ok in E as (? & _ & E). set (input := mkDecodeInput _ _ _ _ _ _ _ _ _ _) in E.
  assert (in_validation input = ValidationFull) as Hv by done.
  assert (keys_ok (in_keys input)) as Hk by done.
  assert (∀ i row, in_rows input !! i = Some row → row_id row = index_id i) as Hi by done.
  change (header_index_profile (reader_header r)) with (in_index_profile input).
  change rows with (in_rows input). clearbody input.
  apply bind_Ok in E as ([a ?] & Ha & E). apply bind_Ok in E as ([b ?] & Hb & E).
  apply bind_Ok in E as ([c ?] & Hc & E). apply bind_Ok in E as ([e ?] & He & E).
  apply bind_Ok in E as ([f ?] & Hf & E). apply bind_Ok in E as ([g ?] & Hg & E).
  apply bind_Ok in E as ([h ?] & Hh & E). apply bind_Ok in E as (? & _ & [= <-]).
  split; cbn [by_resource by_resource_object by_resource_type_relation by_resource_type by_subject
              by_subject_type_relation by_subject_type].
  - exact (decode_index_sound _ _ _ resource_laws input Hi _ _ _ Hv Hk Ha).
  - exact (decode_index_sound _ _ _ resource_object_laws input Hi _ _ _ Hv Hk Hb).
  - exact (decode_index_sound _ _ _ resource_type_relation_laws input Hi _ _ _ Hv Hk Hc).
  - exact (decode_index_sound _ _ _ resource_type_laws input Hi _ _ _ Hv Hk He).
  - exact (decode_index_sound _ _ _ subject_laws input Hi _ _ _ Hv Hk Hf).
  - exact (decode_index_sound _ _ _ subject_type_relation_laws input Hi _ _ _ Hv Hk Hg).
  - exact (decode_index_sound _ _ _ subject_type_laws input Hi _ _ _ Hv Hk Hh).
Qed.

(** ** The store *)

Section store.
Context `{Hasher}.

(** Distinct rows denote distinct relationships. *)
Lemma pair_rows l rows :
  NoDup l → Forall (λ row, ∃ r, row_denotes l row r) rows → NoDup (row_identity <$> rows) →
  ∃ ps, ps.*1 = rows ∧ Forall (λ p, row_denotes l p.1 p.2) ps ∧ NoDup ps.*2.
Proof.
  intros Hl. induction 1 as [|row rows [r Hr] _ IH]; intros Hnd; [exists []; by repeat constructor|].
  cbn in Hnd. apply NoDup_cons in Hnd as [Hnew Hnd]. destruct (IH Hnd) as (ps & Hps & Hd & Hn).
  exists ((row, r) :: ps). cbn. rewrite Hps. split; [done|]. split; [by constructor|].
  constructor; [|done]. intros ([row' r'] & -> & Hin)%list_elem_of_fmap. cbn in *.
  rewrite Forall_forall in Hd. specialize (Hd _ Hin). cbn in Hd. apply Hnew.
  rewrite (row_denotes_identity l _ row' r' Hl Hr Hd). apply list_elem_of_fmap_2. rewrite <- Hps.
  by apply (list_elem_of_fmap_2 fst) in Hin.
Qed.

Lemma live_wf_full n : live_wf (live_full n) n.
Proof.
  split.
  - intros i. unfold live_at, live_contains. cbn. rewrite id_index_id. by intros ?%Nat.ltb_lt.
  - by intros k [= ->].
Qed.

(** A store decoded from an accepted snapshot, but for what the sharing of symbol
    bytes may hide. *)
Record loaded_sound (p : IndexProfile) (st : Store) (l : list string)
    (ps : list (RelationshipRow * Relationship)) : Prop := {
  ld_entries : Forall2 (λ e s, entry_text (bytes (interner st)) e = Ok s) (entries (interner st)) l;
  ld_strings : NoDup l;
  ld_rows : rows st = ps.*1;
  ld_denotes : Forall (λ q, row_denotes l q.1 q.2) ps;
  ld_distinct : NoDup ps.*2;
  ld_live : live_rows st = live_full (length (rows st));
  ld_profile : index_profile st = p;
  ld_indexes : profile_indexes_ok p (indexes st) (rows st);
  ld_rep : p = Full → symbols_tiled (interner st) → store_rep st l ps ∧ hash_mode st
}.

Lemma full_pairs st ps :
  rows st = ps.*1 → live_rows st = live_full (length (rows st)) →
  (∀ i row, rows st !! i = Some row → row_id row = index_id i) →
  live_relationships st ps = ps.*2.
Proof.
  intros Hrows Hlive Hids. unfold live_relationships, live_pairs. f_equal.
  assert (∀ p, p ∈ ps → is_live st p.1 = true) as Hall.
  { intros p Hp. apply (list_elem_of_fmap_2 fst) in Hp. rewrite <- Hrows in Hp.
    apply list_elem_of_lookup in Hp as [i Hi]. unfold is_live. rewrite (Hids _ _ Hi), Hlive.
    unfold live_contains. cbn. rewrite id_index_id. apply Nat.ltb_lt. by eapply lookup_lt_Some. }
  clear -Hall. induction ps as [|p ps IH]; [done|]. rewrite filter_cons_True by (apply Hall; by left).
  f_equal. apply IH. intros q Hq. apply Hall. by right.
Qed.

Lemma decode_store_sound r profile st :
  reader_ok r → decode_store r profile ValidationFull = Ok st →
  ∃ l ps, loaded_sound (header_index_profile (reader_header r)) st l ps ∧
          len_of ps = relationship_count (reader_header r).
Proof.
  intros Hr E. unfold decode_store in E. apply bind_Ok in E as (i & Hi & E).
  destruct (decode_interner_sound _ _ Hr Hi) as [l Hl].
  apply bind_Ok in E as (d & Hd & E). apply (decode_rows_sound Hl) in Hd; [|done].
  apply bind_Ok in E as (ix & Hix & [= <-]).
  apply decode_indexes_sound in Hix; [|done|apply (ds_ids _ _ Hd)].
  destruct (pair_rows l (decoded_rows d)) as (ps & Hps & Hden & Hnd).
  { apply (is_nodup _ _ _ Hl). } { apply (ds_denotes _ _ Hd). } { apply (ds_nodup _ _ Hd). }
  exists l, ps. destruct (ro_rows _ Hr) as [_ Hcap]. pose proof (ds_length _ _ Hd) as Hlen.
  split; [|by rewrite <- Hlen, <- Hps; unfold len_of; rewrite length_fmap].
  split; cbn; try done; [apply Hl|apply Hl|by apply (ds_live _ _ Hd)|].
  intros Hp Ht. split; [|apply Hl]. split; cbn; try done.
  - by apply (is_rep _ _ _ Hl).
  - apply (ds_ids _ _ Hd).
  - unfold len_of in Hlen. lia.
  - rewrite (ds_live _ _ Hd). apply live_wf_full.
  - rewrite Hp in Hix. by apply full_indexes_ok.
  - rewrite full_pairs; cbn; [done|done|apply (ds_live _ _ Hd)|apply (ds_ids _ _ Hd)].
  - by rewrite (ds_uniqueness _ _ Hd).
Qed.
End store.
