(* ===== verification/SnapshotDataSave.v ===== *)
(** * The symbols and rows of a saved snapshot

    The four sections written from an interner decode, under full validation, to
    an interner of the same bytes and entries: every field fits the width chosen
    for it, the lookup is strictly sorted, and the index of the symbols meets no
    duplicate. The row section written from a store's live rows decodes to the
    same rows with consecutive ids. *)

From S2P Require Import Prelude Model Domain StoreTypes Interner LiveRows Posting Row Identity.
From S2P Require Import Store StoreInv Legacy SnapshotBytes Snapshot SnapshotProps SnapshotSymbols.
From S2P Require Import SnapshotIndexes SnapshotDataProps SnapshotLoad.

Local Open Scope Z_scope.

(** ** Field widths *)

(** [v] has as many bytes as a field of width [w]. *)
Definition fits (w : SnapshotKeyWidth) (v : Z) : Prop := 0 ≤ v < 256 ^ Z.of_nat (width_len w).

Lemma encode_value_le w v : encode_value w v = le_bytes (width_len w) v.
Proof. by destruct w. Qed.

Lemma encode_value_length w v : len_of (encode_value w v) = width_byte_len w.
Proof. rewrite encode_value_le. unfold len_of. by rewrite le_bytes_length. Qed.

Lemma consumes_value w v : fits w v → consumes (read_value w) (encode_value w v) v.
Proof.
  intros Hv. rewrite encode_value_le. unfold read_value.
  destruct w; (eapply consumes_last; [apply consumes_array, le_bytes_length|]).
  3: rewrite from_le_bytes_app; cbn [from_le_bytes]; rewrite Z.mul_0_r, Z.add_0_r.
  all: rewrite from_le_bytes_le by done; apply consumes_ret.
Qed.

Lemma width_for_max_fits v m : 0 ≤ v ≤ m → m ≤ u32_max → fits (width_for_max m) v.
Proof.
  intros Hv Hm. unfold fits, width_for_max, u32_max, u16_max, u8_max in *.
  destruct (Z.leb_spec m 255); [cbn; lia|]. destruct (Z.leb_spec m 65535); [cbn; lia|].
  destruct (Z.leb_spec m 16777215); cbn; lia.
Qed.

Lemma symbol_width_fits v m layout :
  0 ≤ v ≤ m → m ≤ u32_max → fits (snapshot_symbol_width m layout) v.
Proof.
  intros Hv Hm. destruct layout; [by apply width_for_max_fits|].
  unfold fits, u32_max in *. cbn. lia.
Qed.

Lemma fits_u32 w v : fits w v → v ≤ u32_max.
Proof. unfold fits, u32_max. destruct w; cbn; lia. Qed.

Lemma section_width_roundtrip w : section_width_from_flags (width_flag_bits w) = Ok w.
Proof. by destruct w. Qed.

Lemma symbol_table_widths_roundtrip a b : symbol_table_widths (symbol_table_flags a b) = Ok (a, b).
Proof. by destruct a, b. Qed.

Lemma concat_length {A B} (f : A → list B) n l :
  (∀ x, len_of (f x) = n) → len_of (concat (f <$> l)) = len_of l * n.
Proof.
  intros Hf. induction l as [|x l IH]; [done|]. cbn [fmap list_fmap concat].
  rewrite len_of_app, Hf, IH. unfold len_of. cbn [length]. lia.
Qed.

(** ** The table *)

Lemma consumes_symbol_entry text e s sw lw :
  0 ≤ start e → 0 ≤ len e → entry_text text e = Ok s → fits sw (start e) → fits lw (len e) →
  consumes (read_symbol_entry (str_bytes text) sw lw)
    (encode_value sw (start e) ++ encode_value lw (len e)) e.
Proof.
  intros Hs Hl He Hfs Hfl. apply entry_text_Ok in He as (Hmax & Hsl & Hu); [|done..].
  rewrite <- (bytes_str_bytes text), <- bytes_str_slice in Hsl. apply fmap_Some in Hsl as (b & Hb & ->).
  unfold read_symbol_entry. eapply consumes_bind; [by apply consumes_value|].
  eapply consumes_last; [by apply consumes_value|].
  eapply consumes_check; [apply ok_or_try_from; split; [reflexivity|lia]|].
  eapply consumes_check; [apply ok_or_try_from; split; [reflexivity|lia]|].
  eapply consumes_check; [by apply checked_add_usize_Ok|].
  eapply consumes_check; [apply ok_or_Ok; exact Hb|].
  apply (consumes_check _ _ _ tt); [apply guard_err_Ok; by rewrite Hu|].
  destruct e. apply consumes_ret.
Qed.

(** ** The lookup *)

Section lookup.
Context (hashes : list Z).

Definition lookup_lt (a b : SymbolId) : Prop := lookup_leb hashes a b = true ∧ a ≠ b.

Lemma lookup_leb_total a b : lookup_leb hashes a b = false → lookup_leb hashes b a = true.
Proof.
  unfold lookup_leb. destruct (hashes !! id_index a), (hashes !! id_index b); try done.
  - rewrite orb_false_iff, andb_false_iff, Z.ltb_ge, Z.eqb_neq, Pos.leb_gt. intros [? [?|?]].
    + rewrite (proj2 (Z.ltb_lt _ _)) by lia. done.
    + rewrite orb_true_iff, andb_true_iff, Z.ltb_lt, Z.eqb_eq, Pos.leb_le. lia.
  - intros ?%Pos.leb_gt. apply Pos.leb_le. lia.
Qed.

Lemma lookup_by_hash_sorted ids : NoDup ids → Sorted lookup_lt (sort_by (lookup_leb hashes) ids).
Proof.
  intros Hnd. assert (NoDup (sort_by (lookup_leb hashes) ids)) as Hnd' by by rewrite sort_by_perm.
  pose proof (sort_by_is_sorted _ lookup_leb_total ids) as Hs. revert Hnd'.
  induction Hs as [|a l Hl IH Ha]; intros Hnd'; [constructor|]. apply NoDup_cons in Hnd' as [Hna Hnd'].
  constructor; [by apply IH|]. destruct Ha; constructor. split; [done|]. intros ->. apply Hna. by left.
Qed.

Definition after_previous (previous : option (Z * SymbolId)) (ids : list SymbolId) : Prop :=
  match previous with
  | Some (h, p) => hashes !! id_index p = Some h ∧ HdRel lookup_lt p ids
  | None => True
  end.

Lemma consumes_lookup w count ids previous :
  Forall (λ id, fits w (Zpos id) ∧ Zpos id ≤ count ∧ is_Some (hashes !! id_index id)) ids →
  Sorted lookup_lt ids → after_previous previous ids →
  consumes (read_lookup (length ids) w count hashes previous)
    (concat ((λ id, encode_value w (Zpos id)) <$> ids)) ids.
Proof.
  revert previous. induction ids as [|id ids IH]; intros previous Hall Hs Hp; [apply consumes_ret|].
  apply Forall_cons in Hall as [(Hfit & Hcount & [h Hh]) Hall]. apply Sorted_inv in Hs as [Hs Hhd].
  cbn [length read_lookup fmap list_fmap concat].
  eapply consumes_bind; [by apply consumes_value|].
  eapply (consumes_check _ _ _ id).
  { unfold symbol_from_snapshot_raw. step_ok (Zpos id); [done|]. step_ok tt; [|done].
    by apply guard_err_Ok, Z.ltb_ge. }
  eapply (consumes_check _ _ _ (h, id)); [unfold symbol_lookup_key; by rewrite Hh|].
  eapply (consumes_check _ _ _ tt).
  { apply guard_err_Ok. destruct previous as [[h' p]|]; [|done]. destruct Hp as [Hp Hlt].
    apply HdRel_inv in Hlt as [Hle Hne]. unfold lookup_leb in Hle. rewrite Hp, Hh in Hle.
    unfold lookup_key_ge. cbn [fst snd].
    rewrite orb_true_iff, andb_true_iff, Z.ltb_lt, Z.eqb_eq, Pos.leb_le in Hle.
    rewrite orb_false_iff, andb_false_iff, Z.ltb_ge, Z.eqb_neq, Pos.leb_gt.
    assert (Z.pos p ≠ Z.pos id) by congruence. lia. }
  eapply consumes_last; [|apply consumes_ret]. by apply IH.
Qed.
End lookup.

(** ** The index *)

Section index.
Context `{Hasher}.
Context (text : string) (entries : list InternedString) (l : list string).
Hypothesis Hentries : Forall2 (λ e s, entry_text text e = Ok s ∧ 0 ≤ start e ∧ 0 ≤ len e) entries l.
Hypothesis Hnd : NoDup l.
Hypothesis Hcount : len_of l ≤ u32_max.

(** Only symbols before [n] are indexed. *)
Definition indexed_before (n : nat) (index : SnapshotSymbolIndex) : Prop :=
  ∀ hash id, indexed_under index hash id → (id_index id < n)%nat.

Lemma any_symbol_absent value ids :
  (∀ id, id ∈ ids → ∃ v, l !! id_index id = Some v ∧ v ≠ value) →
  any_symbol_is text entries value ids = Ok false.
Proof.
  induction ids as [|id ids IH]; intros Hids; [done|]. cbn [any_symbol_is].
  destruct (Hids id) as (v & Hv & Hne); [by left|].
  step_ok v; [by apply (resolve_entry_Ok _ _ _ Hentries)|].
  rewrite (proj2 (String.eqb_neq _ _) Hne). apply IH. intros id' Hid'. apply Hids. by right.
Qed.

Lemma index_symbol_accepts n s index :
  indexed_before n index → l !! n = Some s →
  ∃ index', index_symbol text entries index (n, hash_value s) = Ok index' ∧ indexed_before (S n) index'.
Proof.
  intros Hb Hs. pose proof (lookup_lt_Some _ _ _ Hs) as Hn.
  assert (∀ id, indexed_under index (hash_value s) id → ∃ v, l !! id_index id = Some v ∧ v ≠ s) as Hother.
  { intros id Hid%Hb. destruct (lookup_lt_is_Some_2 l (id_index id)) as [v Hv]; [lia|].
    exists v. split; [done|]. intros ->. pose proof (NoDup_lookup _ _ _ _ Hnd Hs Hv). lia. }
  eexists. split.
  - unfold index_symbol. cbn [fst snd].
    step_ok (index_id n).
    { apply map_err_Ok, id_from_index_Ok. unfold len_of in Hcount. lia. }
    step_ok s; [apply (resolve_entry_Ok _ _ _ Hentries); by rewrite id_index_id|].
    step_ok tt; [apply guard_err_Ok, negb_false_iff, Z.eqb_refl|].
    step_ok false; [|by step_ok tt].
    unfold symbol_value_exists. step_ok false.
    + apply any_symbol_absent. intros id Hid. apply Hother. left.
      destruct (index.1 !! hash_value s); [|by apply elem_of_nil in Hid].
      by apply list_elem_of_singleton in Hid as ->.
    + apply any_symbol_absent. intros id Hid. apply Hother. right.
      destruct (index.2 !! hash_value s) as [ids|]; [by exists ids|by apply elem_of_nil in Hid].
  - intros h id Hid. destruct (index.1 !! hash_value s) as [first|] eqn:Ef.
    + destruct Hid as [Hid|(ids & Hid & Hin)]; cbn [fst snd] in *.
      { pose proof (Hb h id (or_introl Hid)). lia. }
      destruct (decide (h = hash_value s)) as [->|Hne].
      * rewrite lookup_insert_eq in Hid. injection Hid as <-.
        apply elem_of_app in Hin as [Hin| ->%list_elem_of_singleton]; [|rewrite id_index_id; lia].
        destruct (index.2 !! hash_value s) as [ids|] eqn:E2; [|by apply elem_of_nil in Hin].
        pose proof (Hb (hash_value s) id (or_intror (ex_intro _ ids (conj E2 Hin)))). lia.
      * rewrite lookup_insert_ne in Hid by done.
        pose proof (Hb h id (or_intror (ex_intro _ ids (conj Hid Hin)))). lia.
    + destruct Hid as [Hid|Hid]; cbn [fst snd] in *; [|pose proof (Hb h id (or_intror Hid)); lia].
      destruct (decide (h = hash_value s)) as [->|Hne].
      * rewrite lookup_insert_eq in Hid. injection Hid as <-. rewrite id_index_id. lia.
      * rewrite lookup_insert_ne in Hid by done. pose proof (Hb h id (or_introl Hid)). lia.
Qed.

Lemma index_full_accepts :
  ∃ index, index_full_symbol_lookup text entries (hash_value <$> l) = Ok index.
Proof.
  unfold index_full_symbol_lookup. rewrite length_fmap.
  destruct (try_fold_total (index_symbol text entries) (λ pre, indexed_before (length pre)) (∅, ∅)
    (zip (seq 0 (length l)) (hash_value <$> l))) as (index & E & _); [| |by exists index].
  - intros h id [Hid|(ids & Hid & _)]; cbn in Hid; by rewrite lookup_empty in Hid.
  - intros pre [n hash] post ix El Hix. rewrite length_app, Nat.add_1_r.
    assert (zip (seq 0 (length l)) (hash_value <$> l) !! length pre = Some (n, hash)) as Hz
      by by rewrite El, list_lookup_middle.
    apply lookup_zip_Some in Hz as [Hn Hh]. apply lookup_seq in Hn as [-> _].
    apply list_lookup_fmap_Some in Hh as (s & -> & Hs). by apply index_symbol_accepts.
Qed.
End index.

(** ** The interner *)

Lemma foldl_max_start x l' : x ≤ foldl Z.max x l'.
Proof.
  revert x. induction l' as [|y l' IH]; intros x; cbn; [done|]. transitivity (Z.max x y); [lia|apply IH].
Qed.

Lemma foldl_max_le x l' v : v = x ∨ v ∈ l' → v ≤ foldl Z.max x l'.
Proof.
  intros [->|Hv]; [apply foldl_max_start|]. revert x. induction l' as [|y l' IH]; intros x.
  { by apply elem_of_nil in Hv. }
  apply elem_of_cons in Hv as [->|Hv]; [|by apply IH].
  cbn. transitivity (Z.max x y); [lia|apply foldl_max_start].
Qed.

Lemma foldl_max_elem x l' : foldl Z.max x l' = x ∨ foldl Z.max x l' ∈ l'.
Proof.
  revert x. induction l' as [|y l' IH]; intros x; cbn; [by left|].
  destruct (IH (Z.max x y)) as [->|Hin]; [|right; by right].
  destruct (Z.max_spec x y) as [[_ ->]|[_ ->]]; [right; by left|by left].
Qed.

Section interner.
Context `{Hasher}.
Hypothesis hash_u64 : ∀ s : string, 0 ≤ hash_value s ≤ u64_max.
Context {st : IdentifierInterner} {l : list string}.
Hypothesis Hrep : interner_rep st l.

Lemma rep_entries :
  Forall2 (λ e s, entry_text (bytes st) e = Ok s ∧ 0 ≤ start e ∧ 0 ≤ len e) (entries st) l.
Proof.
  apply Forall2_same_length_lookup_2; [by eapply Forall2_length, Hrep|]. intros i e s He Hs.
  split; [by apply (Forall2_lookup_lr _ _ _ i _ _ (ir_entries _ _ Hrep))|].
  pose proof (ir_fields _ _ Hrep) as Hf. rewrite Forall_lookup in Hf. by apply (Hf i).
Qed.

Lemma entry_within e : e ∈ entries st → start e + len e ≤ len_of (str_bytes (bytes st)).
Proof.
  intros [i Hi]%list_elem_of_lookup. destruct (Forall2_lookup_l _ _ _ _ _ rep_entries Hi)
    as (s & _ & He & Hs & Hl).
  apply entry_text_Ok in He as (_ & He & _); [|done..].
  rewrite <- (bytes_str_bytes (bytes st)), <- bytes_str_slice in He.
  apply fmap_Some in He as (b & Hb & _). apply slice_get_Some in Hb as (? & _ & Hlen).
  assert (length b = (Z.to_nat (start e + len e) - Z.to_nat (start e))%nat) as _ by done.
  unfold len_of. lia.
Qed.

Lemma max_len_bound :
  default 0 (max_of (len <$> entries st)) ≤ u32_max ∧
  ∀ e, e ∈ entries st → len e ≤ default 0 (max_of (len <$> entries st)).
Proof.
  assert (∀ v, v ∈ len <$> entries st → v ≤ u32_max) as Hle.
  { intros v (e & -> & He)%list_elem_of_fmap. pose proof (entry_within e He).
    apply list_elem_of_lookup in He as [i Hi].
    destruct (Forall2_lookup_l _ _ _ _ _ rep_entries Hi) as (_ & _ & _ & ? & _).
    pose proof (ir_cap _ _ Hrep). unfold len_of in *. rewrite str_bytes_length in *. lia. }
  assert (∀ e, e ∈ entries st → len e ∈ len <$> entries st) as Hin by (intros e; apply list_elem_of_fmap_2).
  unfold max_of. destruct (len <$> entries st) as [|x ls].
  - split; [unfold u32_max; cbn; lia|]. by intros e ?%Hin%elem_of_nil.
  - cbn [default]. split.
    + destruct (foldl_max_elem x ls) as [->|?]; apply Hle; [by left|by right].
    + intros e He%Hin. apply foldl_max_le. by apply elem_of_cons in He.
Qed.

Lemma saved_hashes :
  try_map (λ index, id ← map_err SStore (symbol_from_index index);
                    value ← map_err SStore (resolve st id); Ok (hash_value value))
    (seq 0 (length (entries st))) = Ok (hash_value <$> l).
Proof.
  apply try_map_Ok, Forall2_same_length_lookup_2.
  { by rewrite length_seq, length_fmap, (entries_length Hrep). }
  intros i n h Hn Hh. apply lookup_seq in Hn as [-> _].
  apply list_lookup_fmap_Some in Hh as (s & -> & Hs). cbn [Nat.add].
  step_ok (index_id i).
  { apply map_err_Ok, id_from_index_Ok. apply lookup_lt_Some in Hs. pose proof (ir_count _ _ Hrep). lia. }
  step_ok s; [|done]. apply map_err_Ok, (resolve_Ok Hrep). by rewrite id_index_id.
Qed.

Lemma saved_ids :
  try_map symbol_from_index (seq 0 (length (entries st))) = Ok (index_id <$> seq 0 (length l)).
Proof.
  rewrite (entries_length Hrep). apply try_map_Ok, Forall2_same_length_lookup_2; [by rewrite length_fmap|].
  intros i n id Hn Hid. apply list_lookup_fmap_Some in Hid as (n' & -> & Hn').
  rewrite Hn in Hn'. injection Hn' as <-. apply lookup_seq in Hn as [-> Hi].
  apply id_from_index_Ok. pose proof (ir_count _ _ Hrep). lia.
Qed.

Context (r : SnapshotReader) (layout : SnapshotEncodingLayout).
Hypothesis Hversion : format_version (reader_header r) = V3.
Hypothesis Hsymbols : symbol_count (reader_header r) = len_of (entries st).

Lemma count_bound : len_of (entries st) ≤ u32_max.
Proof. unfold len_of. rewrite (entries_length Hrep). apply (ir_count _ _ Hrep). Qed.

Lemma decode_saved_hashes rows :
  checked_mul_usize (len_of (entries st)) DISK_SYMBOL_HASH_LEN = Ok rows →
  reader_section r SymbolHashes =
    Ok (mkSection (concat (le_bytes 8 <$> (hash_value <$> l))) 0 (len_of (entries st))) →
  decode_symbol_hashes r (len_of (entries st)) = Ok (hash_value <$> l).
Proof.
  intros Hmul Hs. pose proof count_bound. apply checked_mul_usize_Ok in Hmul as [-> Hmul].
  unfold decode_symbol_hashes. set (section := mkSection _ _ _) in Hs.
  assert (len_of (hash_value <$> l) = len_of (entries st)) as Hl.
  { unfold len_of. by rewrite length_fmap, (entries_length Hrep). }
  assert (len_of (section_bytes section) = len_of (entries st) * DISK_SYMBOL_HASH_LEN) as Hlen.
  { cbn [section section_bytes]. rewrite (concat_length _ 8), Hl; [done|]. intros h. unfold len_of.
    by rewrite le_bytes_length. }
  step_ok section; [exact Hs|].
  step_ok tt; [apply guard_err_Ok, negb_false_iff, Z.eqb_refl|].
  step_ok (len_of (entries st)).
  { apply ok_or_try_from. unfold usize_max, u64_max, u32_max in *. split; [done|lia]. }
  step_ok (len_of (entries st) * DISK_SYMBOL_HASH_LEN); [by apply checked_mul_usize_Ok|].
  step_ok tt; [by apply guard_err_Ok, negb_false_iff, Z.eqb_eq|].
  unfold read_all. rewrite (consumes_all _ _ (hash_value <$> l)); [done| |by rewrite Hlen].
  rewrite <- Hl. unfold len_of. rewrite Nat2Z.id. cbn [section section_bytes].
  apply consumes_each.
  intros h (s & -> & _)%list_elem_of_fmap. apply consumes_u64, hash_u64.
Qed.

Lemma decode_saved_lookup rows lookup flags :
  let ids := sort_by (lookup_leb (hash_value <$> l)) (index_id <$> seq 0 (length l)) in
  let w := snapshot_symbol_width (len_of (entries st)) layout in
  checked_mul_usize (len_of ids) (width_byte_len w) = Ok rows →
  lookup = concat ((λ id, encode_value w (Zpos id)) <$> ids) → flags = width_flag_bits w →
  reader_section r SymbolLookup = Ok (mkSection lookup flags (len_of (entries st))) →
  decode_symbol_lookup r (len_of (entries st)) (hash_value <$> l) = Ok ids.
Proof.
  intros ids w Hmul Hlookup Hflags Hs. pose proof count_bound as Hcap.
  apply checked_mul_usize_Ok in Hmul as [-> Hmul].
  assert (len_of ids = len_of (entries st)) as Hl.
  { unfold len_of, ids. rewrite (Permutation_length (sort_by_perm _ _)), length_fmap, length_seq.
    by rewrite (entries_length Hrep). }
  assert (len_of lookup = len_of (entries st) * width_byte_len w) as Hlen.
  { rewrite Hlookup, (concat_length _ (width_byte_len w)), Hl; [done|]. intros id. apply encode_value_length. }
  rewrite Hl in Hmul. unfold decode_symbol_lookup, section_width.
  rewrite Hversion, bool_decide_eq_true_2 by done.
  step_ok (mkSection lookup flags (len_of (entries st))); [exact Hs|].
  step_ok tt; [apply guard_err_Ok, negb_false_iff, Z.eqb_refl|].
  step_ok (len_of (entries st)).
  { apply ok_or_try_from. unfold usize_max, u64_max, u32_max in *. split; [done|lia]. }
  step_ok w; [rewrite Hflags; apply section_width_roundtrip|].
  step_ok (len_of (entries st) * width_byte_len w); [by apply checked_mul_usize_Ok|].
  step_ok tt; [by apply guard_err_Ok, negb_false_iff, Z.eqb_eq|].
  unfold read_exactly. cbn [section_bytes].
  rewrite (consumes_all _ lookup ids); [| |by rewrite Hlen].
  { cbn [mbind result_bind]. step_ok tt; [|done]. apply guard_err_Ok, negb_false_iff. unfold cursor_is_empty.
    cbn [cursor_offset cursor_bytes]. apply Z.eqb_refl. }
  rewrite Hlookup, <- Hl. unfold len_of. rewrite Nat2Z.id. apply consumes_lookup; [| |done].
  - apply Forall_forall. intros id. unfold ids. rewrite sort_by_perm.
    intros (i & -> & Hi%elem_of_seq)%list_elem_of_fmap.
    assert (Z.pos (index_id i) ≤ len_of (entries st)) as Hid.
    { unfold len_of, index_id. rewrite (entries_length Hrep). lia. }
    split_and!; [apply symbol_width_fits; [lia|done]| |].
    + rewrite length_fmap, length_seq. unfold index_id. lia.
    + rewrite list_lookup_fmap, id_index_id. apply fmap_is_Some, lookup_lt_is_Some. lia.
  - apply lookup_by_hash_sorted. apply (NoDup_fmap_2 index_id), NoDup_seq.
Qed.

Lemma consumes_entries :
  let sw := snapshot_symbol_width (len_of (str_bytes (bytes st))) layout in
  let lw := snapshot_symbol_width (default 0 (max_of (len <$> entries st))) layout in
  consumes (read_times (Z.to_nat (len_of (entries st))) (read_symbol_entry (str_bytes (bytes st)) sw lw))
    (concat ((λ e, encode_value sw (start e) ++ encode_value lw (len e)) <$> entries st)) (entries st).
Proof.
  intros sw lw. unfold len_of. rewrite Nat2Z.id. apply consumes_each.
  intros e He. pose proof (entry_within e He) as Hin. destruct max_len_bound as [Hmax Hle].
  specialize (Hle e He). apply list_elem_of_lookup in He as [i Hi].
  destruct (Forall2_lookup_l _ _ _ _ _ rep_entries Hi) as (s & _ & Htext & Hs0 & Hl0).
  assert (len_of (str_bytes (bytes st)) ≤ u32_max) as Hcapb.
  { unfold len_of. rewrite str_bytes_length. apply (ir_cap _ _ Hrep). }
  eapply consumes_symbol_entry; [done|done|exact Htext|apply symbol_width_fits; [lia|done]..].
Qed.

(** The four sections decode to the interner that was written. *)
Lemma decode_saved_interner table table_flags hashes lookup lookup_flags byte_rows :
  reader_section r SymbolBytes = Ok (mkSection (str_bytes (bytes st)) 0 byte_rows) →
  reader_section r SymbolTable = Ok (mkSection table table_flags (len_of (entries st))) →
  reader_section r SymbolHashes = Ok (mkSection hashes 0 (len_of (entries st))) →
  reader_section r SymbolLookup = Ok (mkSection lookup lookup_flags (len_of (entries st))) →
  encode_v3_symbol_table (entries st) (len_of (str_bytes (bytes st))) layout = Ok (table, table_flags) →
  encode_symbol_acceleration st layout = Ok (hashes, lookup, lookup_flags) →
  ∃ st', decode_interner r ValidationFull = Ok st' ∧ bytes st' = bytes st ∧ entries st' = entries st.
Proof.
  intros Hb Ht Hh Hl Etab Eacc. pose proof count_bound as Hcap. unfold decode_interner.
  rewrite Hversion, bool_decide_eq_true_2, Hsymbols by done.
  unfold encode_v3_symbol_table in Etab. set (sw := snapshot_symbol_width _ _) in Etab.
  set (lw := snapshot_symbol_width _ _) in Etab.
  apply bind_Ok in Etab as (width & Hw & Etab). apply bind_Ok in Etab as (? & Hmul & [= <- <-]).
  pose proof Hw as Hw'. apply checked_add_usize_Ok in Hw' as [Hwidth _].
  apply checked_mul_usize_Ok in Hmul as [-> Hmul].
  set (enc := λ e, encode_value sw (start e) ++ encode_value lw (len e)) in *.
  assert (len_of (concat (enc <$> entries st)) = len_of (entries st) * width) as Hlen.
  { apply concat_length. intros e. unfold enc. by rewrite len_of_app, !encode_value_length. }
  unfold encode_symbol_acceleration in Eacc. rewrite saved_hashes, saved_ids in Eacc.
  cbn [mbind result_bind] in Eacc.
  apply bind_Ok in Eacc as (? & Hmulh & Eacc). cbn [map_err mbind result_bind] in Eacc.
  apply bind_Ok in Eacc as (? & [-> _]%ok_or_try_from & Eacc).
  apply bind_Ok in Eacc as (? & Hmull & [= <- <- <-]).
  assert (checked_mul_usize (len_of (entries st)) DISK_SYMBOL_HASH_LEN = Ok (len_of (entries st) * 8)) as Hmulh'.
  { apply checked_mul_usize_Ok in Hmulh as [_ Hm]. apply checked_mul_usize_Ok. split; [done|].
    unfold len_of in *. by rewrite length_fmap, <- (entries_length Hrep) in Hm. }
  destruct (index_full_accepts (bytes st) (entries st) l rep_entries) as [index Hix].
  { apply (ir_nodup _ _ Hrep). } { apply (ir_count _ _ Hrep). }
  exists (mkInterner (bytes st) (entries st) index.1 index.2 [] []). split; [|done].
  step_ok (mkSection (str_bytes (bytes st)) 0 byte_rows); [exact Hb|].
  step_ok (mkSection (concat (enc <$> entries st)) (symbol_table_flags sw lw) (len_of (entries st))); [exact Ht|].
  step_ok (len_of (entries st)).
  { apply ok_or_try_from. unfold usize_max, u64_max, u32_max in *. split; [done|lia]. }
  step_ok tt; [apply guard_err_Ok, negb_false_iff, Z.eqb_refl|].
  step_ok (sw, lw); [apply symbol_table_widths_roundtrip|].
  step_ok width; [exact Hw|].
  step_ok (len_of (entries st) * width); [by apply checked_mul_usize_Ok|].
  step_ok tt; [by apply guard_err_Ok, negb_false_iff, Z.eqb_eq|].
  step_ok (entries st).
  { unfold read_exactly. cbn [section_bytes].
    rewrite (consumes_all _ (concat (enc <$> entries st)) (entries st)); [| |by rewrite Hlen].
    { cbn [mbind result_bind]. step_ok tt; [|done]. apply guard_err_Ok, negb_false_iff, Z.eqb_refl. }
    by apply consumes_entries. }
  step_ok (hash_value <$> l); [by eapply decode_saved_hashes|].
  step_ok (sort_by (lookup_leb (hash_value <$> l)) (index_id <$> seq 0 (length l))).
  { by eapply decode_saved_lookup. }
  cbn [section_bytes]. rewrite bytes_str_bytes. unfold interner_from_snapshot_parts. by step_ok index.
Qed.
End interner.

(** The row with the id a decoder gives to position [i]. *)
Definition renumber (i : nat) (row : RelationshipRow) : RelationshipRow :=
  mkRow (index_id i) (row_resource_type row) (row_resource_id row) (row_relation row)
    (row_subject_type row) (row_subject_id row) (row_subject_relation row).

Lemma renumber_identity i row : row_identity (renumber i row) = row_identity row.
Proof. done. Qed.

Lemma renumbered_identities rows : row_identity <$> imap renumber rows = row_identity <$> rows.
Proof.
  apply list_eq. intros i. rewrite !list_lookup_fmap, list_lookup_imap. by destruct (rows !! i).
Qed.

Lemma renumbered_disk rows : disk_row <$> imap renumber rows = disk_row <$> rows.
Proof.
  apply list_eq. intros i. rewrite !list_lookup_fmap, list_lookup_imap. by destruct (rows !! i).
Qed.

Lemma renumbered_ids rows i row : imap renumber rows !! i = Some row → row_id row = index_id i.
Proof. rewrite list_lookup_imap. by intros (? & _ & ->)%fmap_Some. Qed.

(** ** Chunks *)

Lemma chunks_concat n (ls : list (list Z)) :
  Forall (λ l, length l = n) ls → chunks (length ls) n (concat ls) = ls.
Proof.
  induction 1 as [|l ls Hl _ IH]; [done|]. cbn [length chunks concat].
  by rewrite take_app_length', drop_app_length', IH.
Qed.

Lemma concat_same_length n (ls : list (list Z)) :
  Forall (λ l, length l = n) ls → length (concat ls) = (length ls * n)%nat.
Proof. induction 1 as [|l ls Hl _ IH]; [done|]. cbn [concat length]. rewrite length_app. lia. Qed.

Lemma chunks_exact_concat n (ls : list (list Z)) :
  Forall (λ l, length l = n) ls → (0 < n)%nat → chunks_exact n (concat ls) = ls.
Proof.
  intros Hls Hn. unfold chunks_exact. rewrite (concat_same_length n) by done.
  rewrite Nat.div_mul by lia. by apply chunks_concat.
Qed.

(** ** Fields *)

Lemma field_value_encode w v : fits w v → field_value w (encode_value w v) = v.
Proof.
  intros Hv. rewrite encode_value_le. unfold field_value. destruct w.
  3: rewrite from_le_bytes_app; cbn [from_le_bytes]; rewrite Z.mul_0_r, Z.add_0_r.
  all: by apply from_le_bytes_le.
Qed.

Lemma encode_row_length w r : length (encode_row w r) = (6 * width_len w)%nat.
Proof.
  unfold encode_row, disk_row_fields. cbn [fmap list_fmap concat].
  rewrite !length_app, !encode_value_le, !le_bytes_length. simpl. lia.
Qed.

Lemma decode_encoded_row w r :
  Forall (fits w) (disk_row_fields r) →
  decode_row_fields w (encode_row w r) =
  Ok (disk_resource_type r, disk_resource_id r, disk_relation r, disk_subject_type r,
      disk_subject_id r, disk_subject_relation r).
Proof.
  intros Hf. unfold decode_row_fields. rewrite encode_row_length.
  step_ok tt; [by apply guard_err_Ok, negb_false_iff, Nat.eqb_eq|].
  assert (field_value w <$> chunks 6 (width_len w) (encode_row w r) = disk_row_fields r) as ->; [|done].
  change 6%nat with (length (encode_value w <$> disk_row_fields r)). unfold encode_row.
  rewrite chunks_concat.
  - rewrite <- list_fmap_compose. rewrite <- (list_fmap_id (disk_row_fields r)) at 2.
    apply list_fmap_ext. intros i v Hv. rewrite Forall_lookup in Hf. by apply field_value_encode, (Hf i).
  - apply Forall_fmap, Forall_forall. intros v _. cbn. by rewrite encode_value_le, le_bytes_length.
Qed.

Lemma symbol_from_raw id n : Zpos id ≤ n → symbol_from_snapshot_raw (Zpos id) n = Ok id.
Proof. intros Hid. by apply symbol_raw_Ok. Qed.

(** Every symbol of the row is below the bound. *)
Definition symbols_below (n : Z) (row : RelationshipRow) : Prop :=
  Zpos (row_resource_type row) ≤ n ∧ Zpos (row_resource_id row) ≤ n ∧ Zpos (row_relation row) ≤ n ∧
  Zpos (row_subject_type row) ≤ n ∧ Zpos (row_subject_id row) ≤ n ∧
  match row_subject_relation row with Some rel => Zpos rel ≤ n | None => True end.

Lemma row_from_disk_fields n i row :
  symbols_below n row →
  row_from_fields (index_id i) n
    (disk_resource_type (disk_row row), disk_resource_id (disk_row row), disk_relation (disk_row row),
     disk_subject_type (disk_row row), disk_subject_id (disk_row row), disk_subject_relation (disk_row row)) =
  Ok (renumber i row).
Proof.
  intros (? & ? & ? & ? & ? & Hrel). unfold row_from_fields, disk_row.
  cbn [disk_resource_type disk_resource_id disk_relation disk_subject_type disk_subject_id
       disk_subject_relation].
  rewrite !symbol_from_raw by done. cbn [mbind result_bind]. unfold renumber.
  destruct (row_subject_relation row) as [rel|]; [|done]. by rewrite symbol_from_raw.
Qed.

Lemma disk_fields_fit n w row :
  symbols_below n row → (∀ v, 0 ≤ v ≤ n → fits w v) → Forall (fits w) (disk_row_fields (disk_row row)).
Proof.
  intros (? & ? & ? & ? & ? & Hrel) Hw. unfold disk_row_fields. cbn. rewrite !Forall_cons. split_and!; try apply Hw; try lia; [|done].
  destruct (row_subject_relation row); lia.
Qed.

(** ** The loop *)

Section rows.
Context `{Hasher}.
Context {st st' : IdentifierInterner} {l : list string}.
Hypothesis Hrep : interner_rep st l.
Hypothesis Hbytes : bytes st' = bytes st.
Hypothesis Hentries : entries st' = entries st.

Lemma copied_resolve id s : l !! id_index id = Some s → resolve st' id = Ok s.
Proof. intros Hs%(resolve_Ok Hrep). unfold resolve in *. by rewrite Hbytes, Hentries. Qed.

Lemma validate_denoted {kind} id (i : Ident kind) : denotes l id i → validate_ident kind st' id = Ok tt.
Proof.
  intros Hi. unfold validate_ident. step_ok (as_str i); [by apply map_err_Ok, copied_resolve|].
  step_ok i; [|done]. by apply map_err_Ok, ident_new_Ok.
Qed.

Lemma validate_row_accepts i row rel : row_denotes l row rel → validate_row_domains st' (renumber i row) = Ok tt.
Proof.
  intros (Hrt & Hri & Hr & Ht & Hi & Hs). unfold validate_row_domains.
  apply (denotes_subject _ KSubjectType) in Ht as [t Ht]; [|set_solver].
  apply (denotes_subject _ KSubjectId) in Hi as [si Hi]; [|set_solver].
  cbn [renumber row_resource_type row_resource_id row_relation row_subject_type row_subject_id
       row_subject_relation].
  do 3 (step_ok tt; [by eapply validate_denoted|]). do 2 (step_ok tt; [by eapply validate_denoted|]).
  destruct (row_subject_relation row) as [f|]; [|done].
  destruct (subject_relation (subject rel)); [|done]. by eapply validate_denoted.
Qed.

Lemma denoted_below row rel : row_denotes l row rel → symbols_below (len_of l) row.
Proof.
  assert (∀ kind id (i : Ident kind), denotes l id i → Zpos id ≤ len_of l) as Hle.
  { intros kind id i Hi%lookup_lt_Some. unfold len_of, id_index in *. lia. }
  intros (Hrt & Hri & Hr & Ht & Hi & Hs). unfold symbols_below.
  split_and!; try (by eapply Hle). destruct (row_subject_relation row); [|done].
  destruct (subject_relation (subject rel)); [by eapply Hle|done].
Qed.

Lemma detects_find ix rows row :
  detects ix rows → row_identity row ∉ row_identity <$> rows → identity_find ix rows row = None.
Proof.
  intros _ Hn. rewrite identity_find_bucket. destruct (find_first _ _) as [r|] eqn:E; [|done].
  exfalso. apply List.find_some in E as [_ (c & Hc & Hid)%same_row_true]. apply Hn, list_elem_of_fmap.
  exists c. split; [done|]. by eapply list_elem_of_lookup_2.
Qed.

Context (rows : list RelationshipRow).
Hypothesis Hden : Forall (λ row, ∃ rel, row_denotes l row rel) rows.
Hypothesis Hnd : NoDup (row_identity <$> rows).
Hypothesis Hcap : len_of rows ≤ u32_max.
Context (w : SnapshotKeyWidth).
Hypothesis Hw : ∀ v, 0 ≤ v ≤ len_of l → fits w v.

Definition read_so_far (n : nat) (acc : list RelationshipRow * RelationshipIdentityIndex) : Prop :=
  acc.1 = imap renumber (take n rows) ∧ detects acc.2 acc.1.

Lemma decode_row_accepts n row acc :
  rows !! n = Some row → read_so_far n acc →
  ∃ acc', decode_row st' w (len_of l) true acc (n, encode_row w (disk_row row)) = Ok acc' ∧
          read_so_far (S n) acc'.
Proof.
  intros Hrow [Hacc Hdet]. pose proof (lookup_lt_Some _ _ _ Hrow) as Hn.
  assert (length acc.1 = n) as Hlen by (rewrite Hacc, length_imap, length_take; lia).
  rewrite Forall_lookup in Hden. destruct (Hden _ _ Hrow) as [rel Hrel].
  pose proof (denoted_below _ _ Hrel) as Hbelow.
  assert (identity_find acc.2 acc.1 (renumber n row) = None) as Hfind.
  { apply detects_find; [done|]. rewrite Hacc, renumbered_identities, renumber_identity.
    intros (row' & Hid & Hin)%list_elem_of_fmap. apply list_elem_of_lookup in Hin as [j Hj].
    apply lookup_take_Some in Hj as [Hj Hlt].
    assert (n = j); [|lia]. eapply (NoDup_lookup _ _ _ (row_identity row) Hnd);
      rewrite list_lookup_fmap; [by rewrite Hrow|by rewrite Hj, Hid]. }
  exists (acc.1 ++ [renumber n row], identity_insert acc.2 acc.1 (index_id n) (renumber n row)). split.
  - unfold decode_row. cbn [fst snd].
    step_ok (index_id n).
    { apply map_err_Ok, id_from_index_Ok. unfold len_of in Hcap. lia. }
    eapply bind_Ok. eexists. split; [apply decode_encoded_row; by eapply disk_fields_fit|].
    step_ok (renumber n row); [by apply row_from_disk_fields|].
    step_ok tt; [by eapply validate_row_accepts|].
    step_ok tt; [|done]. apply guard_err_Ok, bool_decide_eq_false. rewrite Hfind. by intros [? ?].
  - split; cbn [fst snd].
    + rewrite (take_S_r _ _ _ Hrow), imap_app, Hacc, length_take. cbn. repeat f_equal. lia.
    + rewrite <- Hlen at 1. by apply detects_insert.
Qed.

Lemma decode_rows_accepts :
  ∃ acc, try_fold (decode_row st' w (len_of l) true) ([], identity_default)
           (zip (seq 0 (length rows)) ((λ row, encode_row w (disk_row row)) <$> rows)) = Ok acc ∧
         acc.1 = imap renumber rows.
Proof.
  set (encoded := (λ row, encode_row w (disk_row row)) <$> rows).
  destruct (try_fold_total (decode_row st' w (len_of l) true) (λ pre, read_so_far (length pre))
    ([], identity_default) (zip (seq 0 (length rows)) encoded)) as (acc & E & Hacc & _).
  - split; [done|apply detects_default].
  - intros pre [n bytes] post acc El Hacc. rewrite length_app, Nat.add_1_r.
    assert (zip (seq 0 (length rows)) encoded !! length pre = Some (n, bytes)) as Hz
      by by rewrite El, list_lookup_middle.
    apply lookup_zip_Some in Hz as [Hn Hb]. apply lookup_seq in Hn as [-> _].
    apply list_lookup_fmap_Some in Hb as (row & -> & Hrow). by apply decode_row_accepts.
  - exists acc. split; [done|]. rewrite Hacc. unfold encoded.
    rewrite length_zip, length_seq, length_fmap, Nat.min_id. by rewrite firstn_all.
Qed.

(** The section decodes to the rows that were written. *)
Lemma decode_saved_rows r row_len total :
  format_version (reader_header r) = V3 → symbol_count (reader_header r) = len_of l →
  relationship_count (reader_header r) = len_of rows →
  checked_mul_usize (width_byte_len w) 6 = Ok row_len →
  checked_mul usize_max (len_of rows) row_len = Some total →
  reader_section r RelationshipRows =
    Ok (mkSection (concat (encode_row w <$> (disk_row <$> rows))) (width_flag_bits w) (len_of rows)) →
  ∃ d, decode_snapshot_rows r st' ValidationFull = Ok d ∧ decoded_rows d = imap renumber rows ∧
       decoded_live_rows d = live_full (length rows).
Proof.
  intros Hv Hsyms Hrows Hlen Htotal Hs. pose proof Hlen as [-> _]%checked_mul_usize_Ok.
  apply checked_mul_Some in Htotal as [-> Hmul].
  destruct decode_rows_accepts as (acc & E & Hacc).
  exists (mkDecodedRows acc.1 (live_full (Z.to_nat (len_of rows))) KnownUniqueButNotIndexed).
  split; [|split; [done|]; cbn [decoded_live_rows]; unfold len_of; by rewrite Nat2Z.id].
  unfold decode_snapshot_rows, section_width.
  rewrite Hv, Hsyms, Hrows, bool_decide_eq_true_2 by done.
  assert (Forall (λ b, length b = (6 * width_len w)%nat) (encode_row w <$> (disk_row <$> rows))) as Hall.
  { apply Forall_fmap, Forall_forall. intros row _. apply encode_row_length. }
  step_ok (mkSection (concat (encode_row w <$> (disk_row <$> rows))) (width_flag_bits w) (len_of rows));
    [exact Hs|].
  step_ok (len_of rows).
  { apply ok_or_try_from. unfold usize_max, u64_max, u32_max in *. split; [done|lia]. }
  step_ok tt; [apply guard_err_Ok, negb_false_iff, Z.eqb_refl|].
  step_ok w; [apply section_width_roundtrip|].
  step_ok (width_byte_len w * 6); [done|].
  step_ok (len_of rows * (width_byte_len w * 6)); [by apply checked_mul_usize_Ok|].
  cbn [section_bytes].
  step_ok tt.
  { apply guard_err_Ok, negb_false_iff, Z.eqb_eq. unfold len_of, width_byte_len.
    rewrite (concat_same_length (6 * width_len w)), !length_fmap by done. lia. }
  replace (Z.to_nat (width_byte_len w * 6)) with (6 * width_len w)%nat by (unfold width_byte_len; lia).
  rewrite chunks_exact_concat; [|done|destruct w; simpl; lia].
  rewrite <- list_fmap_compose, length_fmap. by step_ok acc.
Qed.
End rows.
