(* ===== verification/SnapshotGroups.v ===== *)
(** * The index groups of a saved snapshot

    The groups collected from the rows, one per index kind: their keys are
    strictly sorted, and each key holds the positions of its rows in order. A
    group is read back: the posting deltas, the keys of one width, and the
    entries, of which singletons and ranges are written apart. *)

From S2P Require Import Prelude Model Domain StoreTypes Interner LiveRows Posting Row Identity.
From S2P Require Import Store Legacy SnapshotBytes Snapshot SnapshotProps SnapshotSymbols.
From S2P Require Import SnapshotIndexes SnapshotDataProps SnapshotDataSave SnapshotIndexProps.

Local Open Scope Z_scope.

(** ** The order of the keys *)

Definition disk_lt (a b : DiskIndexKey) : Prop := disk_compare a b = Lt.

Lemma disk_lt_fields a b :
  disk_lt a b ↔
  key_first a < key_first b ∨ key_first a = key_first b ∧
  (key_second a < key_second b ∨ key_second a = key_second b ∧ key_third a < key_third b).
Proof.
  unfold disk_lt, disk_compare.
  destruct (Z.compare_spec (key_first a) (key_first b));
    [destruct (Z.compare_spec (key_second a) (key_second b));
      [rewrite Z.compare_lt_iff|..]|..]; (split; [intros ?|intros]); try done; lia.
Qed.

Lemma disk_compare_Eq a b : disk_compare a b = Eq ↔ a = b.
Proof.
  destruct a as [a1 a2 a3], b as [b1 b2 b3]. unfold disk_compare. cbn. split.
  - destruct (Z.compare_spec a1 b1), (Z.compare_spec a2 b2), (Z.compare_spec a3 b3); congruence.
  - intros [= -> -> ->]. by rewrite !Z.compare_refl.
Qed.

Lemma disk_compare_Gt a b : disk_compare a b = Gt ↔ disk_lt b a.
Proof.
  rewrite disk_lt_fields. unfold disk_compare.
  destruct (Z.compare_spec (key_first a) (key_first b));
    [destruct (Z.compare_spec (key_second a) (key_second b));
      [rewrite Z.compare_gt_iff|..]|..]; (split; [intros ?|intros]); try done; lia.
Qed.

#[export] Instance disk_lt_trans : Transitive disk_lt.
Proof. intros a b c. rewrite !disk_lt_fields. lia. Qed.

Lemma disk_lt_irrefl a : ¬ disk_lt a a.
Proof. rewrite disk_lt_fields. lia. Qed.

Lemma disk_ltb_lt a b : disk_ltb a b = true ↔ disk_lt a b.
Proof. unfold disk_ltb, disk_lt. destruct (disk_compare a b); naive_solver. Qed.

Lemma sorted_keys_NoDup keys : StronglySorted disk_lt keys → NoDup keys.
Proof.
  induction 1 as [|a l _ IH Ha]; constructor; [|done]. intros Hin. rewrite Forall_forall in Ha.
  by apply (disk_lt_irrefl a), Ha.
Qed.

Lemma sorted_not_unsorted keys : StronglySorted disk_lt keys → unsorted keys = false.
Proof.
  induction 1 as [|a l Hl IH Ha]; [done|]. cbn [unsorted]. destruct l as [|b l]; [done|].
  rewrite IH, orb_false_r. apply negb_false_iff, disk_ltb_lt. by inversion Ha.
Qed.

(** ** A group as a map *)

(** The row ids a group has for a key. *)
Fixpoint group_ids (g : IndexGroup) (key : DiskIndexKey) : list Z :=
  match g with
  | [] => []
  | (k, ids) :: g => if decide (k = key) then ids else group_ids g key
  end.

Lemma group_ids_absent g key : key ∉ g.*1 → group_ids g key = [].
Proof.
  induction g as [|[k ids] g IH]; intros Hk; [done|]. cbn in *. apply not_elem_of_cons in Hk as [Hne Hk].
  rewrite decide_False by done. by apply IH.
Qed.

Lemma group_ids_elem g key ids : NoDup g.*1 → (key, ids) ∈ g → group_ids g key = ids.
Proof.
  induction g as [|[k ids'] g IH]; cbn; intros Hnd; [by intros ?%elem_of_nil|].
  apply NoDup_cons in Hnd as [Hk Hnd]. intros [[= -> ->]|Hin]%elem_of_cons; [by rewrite decide_True|].
  rewrite decide_False; [by apply IH|]. intros ->. apply Hk. by apply (list_elem_of_fmap_2 fst) in Hin.
Qed.

Lemma group_push_keys key row_id g k : k ∈ (group_push key row_id g).*1 ↔ k = key ∨ k ∈ g.*1.
Proof.
  induction g as [|[k' ids] g IH]; cbn; [by rewrite list_elem_of_singleton, elem_of_nil; naive_solver|].
  destruct (disk_compare key k') eqn:E; cbn; rewrite ?elem_of_cons.
  - apply disk_compare_Eq in E as ->. naive_solver.
  - done.
  - rewrite IH. naive_solver.
Qed.

Lemma group_push_sorted key row_id g :
  StronglySorted disk_lt g.*1 → StronglySorted disk_lt (group_push key row_id g).*1.
Proof.
  induction g as [|[k ids] g IH]; cbn; intros Hs; [by repeat constructor|].
  pose proof Hs as [Hs' Hk]%StronglySorted_inv. destruct (disk_compare key k) eqn:E; cbn.
  - done.
  - constructor; [done|]. constructor; [done|]. eapply Forall_impl; [exact Hk|]. intros x Hx. by etrans.
  - constructor; [by apply IH|]. apply Forall_forall. intros x [->|Hx]%group_push_keys.
    + by apply disk_compare_Gt.
    + rewrite Forall_forall in Hk. by apply Hk.
Qed.

Lemma group_push_ids key row_id g k :
  StronglySorted disk_lt g.*1 →
  group_ids (group_push key row_id g) k = group_ids g k ++ (if decide (k = key) then [row_id] else []).
Proof.
  induction g as [|[k' ids] g IH]; cbn; intros Hs.
  { destruct (decide (key = k)), (decide (k = key)); congruence. }
  apply StronglySorted_inv in Hs as [Hs Hk]. destruct (disk_compare key k') eqn:E; cbn.
  - apply disk_compare_Eq in E as ->. destruct (decide (k' = k)) as [->|Hne]; [by rewrite decide_True|].
    by rewrite (decide_False (P:=k = k')), app_nil_r.
  - destruct (decide (key = k)) as [->|Hne].
    + rewrite (decide_True (P:=k = k)) by done. rewrite decide_False by (intros ->; by apply (disk_lt_irrefl k)).
      rewrite group_ids_absent; [done|]. intros Hin. rewrite Forall_forall in Hk.
      apply (disk_lt_irrefl k). etrans; [exact E|by apply Hk].
    + by rewrite (decide_False (P:=k = key)), app_nil_r by done.
  - destruct (decide (k' = k)) as [->|Hne]; [|by apply IH].
    rewrite decide_False, app_nil_r; [done|]. intros ->. by rewrite (proj2 (disk_compare_Eq _ _)) in E.
Qed.

Lemma group_push_nonempty key row_id g :
  Forall (λ e, e.2 ≠ []) g → Forall (λ e, e.2 ≠ []) (group_push key row_id g).
Proof.
  induction 1 as [|[k ids] g Hids Hg IH]; cbn; [by repeat constructor|].
  destruct (disk_compare key k); repeat constructor; try done. cbn. by destruct ids.
Qed.

(** ** The positions of a key's rows *)

Section positions.
Context (keys : DiskRelationshipRow → list DiskIndexKey).

Definition positions (rows : list DiskRelationshipRow) (key : DiskIndexKey) : list Z :=
  concat (imap (λ i row, if decide (key ∈ keys row) then [Z.of_nat i + 1] else []) rows).

Lemma positions_snoc rows row key :
  positions (rows ++ [row]) key =
  positions rows key ++ (if decide (key ∈ keys row) then [Z.of_nat (length rows) + 1] else []).
Proof. unfold positions. rewrite imap_app, concat_app. cbn. by rewrite app_nil_r, Nat.add_0_r. Qed.

Lemma elem_of_positions rows key x :
  x ∈ positions rows key ↔ ∃ i row, rows !! i = Some row ∧ key ∈ keys row ∧ x = Z.of_nat i + 1.
Proof.
  induction rows as [|row rows IH] using rev_ind.
  { cbn. rewrite elem_of_nil. split; [done|]. intros (i & row & Hi & _). by rewrite lookup_nil in Hi. }
  rewrite positions_snoc, elem_of_app, IH. split.
  - intros [(i & row' & Hi & Hk & ->)|Hx].
    + exists i, row'. split; [by apply lookup_app_l_Some|done].
    + destruct (decide (key ∈ keys row)); [|by apply elem_of_nil in Hx].
      apply list_elem_of_singleton in Hx as ->. exists (length rows), row. by rewrite list_lookup_middle.
  - intros (i & row' & Hi & Hk & ->). apply lookup_app_Some in Hi as [Hi|[Hge Hi]]; [left; by exists i, row'|].
    apply list_lookup_singleton_Some in Hi as [Hz ->]. right. rewrite decide_True by done.
    apply list_elem_of_singleton. lia.
Qed.

Lemma positions_increasing rows key : StronglySorted Z.lt (positions rows key).
Proof.
  induction rows as [|row rows IH] using rev_ind; [constructor|]. rewrite positions_snoc.
  destruct (decide (key ∈ keys row)); [|by rewrite app_nil_r].
  assert (Forall (λ x, x < Z.of_nat (length rows) + 1) (positions rows key)) as Hlt.
  { apply Forall_forall. intros x (i & row' & Hi%lookup_lt_Some & _ & ->)%elem_of_positions. lia. }
  clear -IH Hlt. induction IH as [|x l Hl IH Hx]; cbn; [by repeat constructor|].
  apply Forall_cons in Hlt as [Hlt Hall]. constructor; [by apply IH|].
  apply Forall_app. split; [done|]. by apply Forall_singleton.
Qed.

(** A group of the rows. *)
Record grouped (rows : list DiskRelationshipRow) (g : IndexGroup) : Prop := {
  gr_sorted : StronglySorted disk_lt g.*1;
  gr_nonempty : Forall (λ e, e.2 ≠ []) g;
  gr_ids key : group_ids g key = positions rows key
}.

Lemma grouped_nil : grouped [] [].
Proof. split; [constructor|constructor|done]. Qed.

Lemma grouped_positions rows g key ids : grouped rows g → (key, ids) ∈ g → ids = positions rows key ∧ ids ≠ [].
Proof.
  intros [Hs Hne Hids] Hin. split.
  - rewrite <- Hids. symmetry. apply group_ids_elem; [by apply sorted_keys_NoDup|done].
  - rewrite Forall_forall in Hne. by apply (Hne _ Hin).
Qed.

Lemma grouped_covers rows g i row key :
  grouped rows g → rows !! i = Some row → key ∈ keys row → ∃ ids, (key, ids) ∈ g ∧ Z.of_nat i + 1 ∈ ids.
Proof.
  intros Hg Hi Hk. assert (Z.of_nat i + 1 ∈ positions rows key) as Hin.
  { apply elem_of_positions. by exists i, row. }
  assert (key ∈ g.*1) as (e & -> & He)%list_elem_of_fmap.
  { destruct (decide (key ∈ g.*1)) as [|Hn]; [done|]. apply group_ids_absent in Hn.
    rewrite <- (gr_ids _ _ Hg), Hn in Hin. by apply elem_of_nil in Hin. }
  destruct e as [k ids]. exists ids. split; [done|].
  by destruct (grouped_positions _ _ _ _ Hg He) as [-> _].
Qed.

(** Pushing the keys of one more row. *)
Lemma push_all row_id g ks :
  StronglySorted disk_lt g.*1 → Forall (λ e, e.2 ≠ []) g → NoDup ks →
  let g' := foldl (λ g key, group_push key row_id g) g ks in
  StronglySorted disk_lt g'.*1 ∧ Forall (λ e, e.2 ≠ []) g' ∧
  ∀ key, group_ids g' key = group_ids g key ++ (if decide (key ∈ ks) then [row_id] else []).
Proof.
  revert g. induction ks as [|k ks IH]; intros g Hs Hne Hnd; cbn.
  { split_and!; [done|done|]. intros key. rewrite decide_False by apply not_elem_of_nil. by rewrite app_nil_r. }
  apply NoDup_cons in Hnd as [Hk Hnd].
  destruct (IH (group_push k row_id g)) as (Hs' & Hne' & Hids);
    [by apply group_push_sorted|by apply group_push_nonempty|done|].
  split_and!; [done|done|]. intros key. rewrite Hids, group_push_ids, <- app_assoc by done. f_equal.
  destruct (decide (key = k)) as [->|Hne2].
  - rewrite (decide_False (P:=k ∈ ks)) by done. by rewrite decide_True by by left.
  - rewrite (decide_ext _ (key ∈ k :: ks)); [done|]. rewrite elem_of_cons. naive_solver.
Qed.

Lemma grouped_push rows g row :
  grouped rows g → NoDup (keys row) →
  grouped (rows ++ [row])
    (foldl (λ g key, group_push key (Z.of_nat (length rows) + 1) g) g (keys row)).
Proof.
  intros [Hs Hne Hids] Hnd. destruct (push_all (Z.of_nat (length rows) + 1) g (keys row) Hs Hne Hnd)
    as (Hs' & Hne' & Hids').
  split; [done|done|]. intros key. by rewrite Hids', Hids, positions_snoc.
Qed.
End positions.

(** ** The seven groups *)

(** The keys a row has in an index of a profile. *)
Definition disk_keys (k : SnapshotIndexKind) (p : IndexProfile) (row : DiskRelationshipRow)
    : list DiskIndexKey :=
  let broad := supports_broad_resource_indexes p in
  let reverse := supports_subject_reverse_lookup p in
  match k with
  | KResource => [mkDiskKey (disk_resource_type row) (disk_resource_id row) (disk_relation row)]
  | KResourceObject => if broad then [mkDiskKey (disk_resource_type row) (disk_resource_id row) 0] else []
  | KResourceTypeRelation =>
      if broad then [mkDiskKey (disk_resource_type row) (disk_relation row) 0] else []
  | KResourceType => if broad then [mkDiskKey (disk_resource_type row) 0 0] else []
  | KSubject =>
      if reverse
      then mkDiskKey (disk_subject_type row) (disk_subject_id row) (disk_subject_relation row) ::
           (if disk_subject_relation row =? 0 then []
            else [mkDiskKey (disk_subject_type row) (disk_subject_id row) 0])
      else []
  | KSubjectTypeRelation =>
      if reverse && negb (disk_subject_relation row =? 0)
      then [mkDiskKey (disk_subject_type row) (disk_subject_relation row) 0] else []
  | KSubjectTypeIndex => if reverse then [mkDiskKey (disk_subject_type row) 0 0] else []
  end.

Lemma disk_keys_NoDup k p row : NoDup (disk_keys k p row).
Proof.
  assert (∀ (b : bool) x, NoDup (if b then [x] else [] : list DiskIndexKey)) as Hone
    by (intros [] x; [apply NoDup_singleton|constructor]).
  unfold disk_keys. destruct k; try apply Hone; [apply NoDup_singleton|].
  destruct (supports_subject_reverse_lookup p); [|constructor].
  destruct (Z.eqb_spec (disk_subject_relation row) 0) as [_|Hne]; [apply NoDup_singleton|].
  apply NoDup_cons. split; [|apply NoDup_singleton]. rewrite list_elem_of_singleton. congruence.
Qed.

Lemma insert_row_group row row_id p g k :
  group_of (insert_row row row_id p g) k =
  foldl (λ g key, group_push key row_id g) (group_of g k) (disk_keys k p row).
Proof.
  destruct row as [a b c d e f]. unfold insert_row, disk_keys.
  cbn [disk_resource_type disk_resource_id disk_relation disk_subject_type disk_subject_id
       disk_subject_relation].
  destruct p, k; cbn; try done; by destruct (f =? 0).
Qed.

Lemma group_rows_grouped p rows groups :
  try_fold (group_row p) groups_default (zip (seq 0 (length rows)) rows) = Ok groups →
  len_of rows ≤ u32_max ∧ ∀ k, grouped (disk_keys k p) rows (group_of groups k).
Proof.
  intros E.
  apply (try_fold_ind _ (λ pre groups, len_of pre ≤ u32_max ∧
    ∀ k, grouped (disk_keys k p) (pre.*2) (group_of groups k))) in E.
  - rewrite snd_zip in E by by rewrite length_seq. destruct E as [Hl Hg]. split; [|done].
    unfold len_of in *. by rewrite length_zip, length_seq, Nat.min_id in Hl.
  - split; [done|]. intros k. destruct k; apply grouped_nil.
  - intros pre [n row] post g1 g2 El [Hl Hg] E1. unfold group_row in E1. cbn [fst snd] in E1.
    assert (zip (seq 0 (length rows)) rows !! length pre = Some (n, row)) as Hz
      by by rewrite El, list_lookup_middle.
    apply lookup_zip_Some in Hz as [Hn _]. apply lookup_seq in Hn as [-> _].
    apply bind_Ok in E1 as (? & [-> _]%ok_or_Ok%checked_add_Some & E1).
    apply bind_Ok in E1 as (? & [-> Hmax]%ok_or_try_from & [= <-]).
    split.
    + rewrite len_of_app. unfold len_of. cbn. lia.
    + intros k. rewrite insert_row_group, fmap_app. cbn [fmap list_fmap snd].
      pose proof (grouped_push _ _ _ row (Hg k) (disk_keys_NoDup k p row)) as Hp.
      by rewrite length_fmap in Hp.
Qed.

(** ** Varints *)

Lemma lor_shifted a b n : 0 ≤ n → 0 ≤ a < 2 ^ n → Z.lor a (Z.shiftl b n) = a + b * 2 ^ n.
Proof.
  intros Hn Ha. rewrite Z.shiftl_mul_pow2 by done.
  assert (Z.land a (b * 2 ^ n) = 0) as Hl.
  { apply Z.bits_inj'. intros i Hi. rewrite Z.land_spec, Z.testbit_0_l.
    destruct (Z.lt_ge_cases i n).
    - rewrite Z.mul_pow2_bits_low by done. by rewrite andb_false_r.
    - rewrite <- (Z.mod_small a (2 ^ n)) by done. by rewrite Z.mod_pow2_bits_high by done. }
  rewrite <- Z.lxor_lor by done. symmetry. by apply Z.add_nocarry_lxor.
Qed.

Lemma low_bits v : 0 ≤ v → Z.land v 127 = v mod 128.
Proof. intros Hv. exact (Z.land_ones v 7 ltac:(lia)). Qed.

Lemma continued_low v : Z.land (Z.lor (Z.land v 127) 128) 127 = Z.land v 127.
Proof. rewrite Z.land_lor_distr_l, <- Z.land_assoc. cbn. by rewrite Z.lor_0_r. Qed.

Lemma continued_high v : Z.land (Z.lor (Z.land v 127) 128) 128 = 128.
Proof. rewrite Z.land_lor_distr_l, <- Z.land_assoc. cbn. by rewrite Z.land_0_r. Qed.

Lemma last_high v : 0 ≤ v < 128 → Z.land v 128 = 0.
Proof.
  intros Hv. apply Z.bits_inj'. intros i Hi. rewrite Z.land_spec, Z.testbit_0_l.
  change 128 with (2 ^ 7). rewrite Z.pow2_bits_eqb by lia. destruct (Z.eqb_spec 7 i) as [<-|_].
  - rewrite <- (Z.mod_small v (2 ^ 7)) by lia. by rewrite Z.mod_pow2_bits_high.
  - apply andb_false_r.
Qed.

Lemma varint_last fuel v pre post acc shift :
  0 < v < 128 → (shift = 28 → v ≤ 15) → 0 ≤ shift → 0 ≤ acc < 2 ^ shift → len_of pre + 1 ≤ usize_max →
  decode_varint (S fuel) (pre ++ v :: post) (len_of pre) acc shift = Ok (acc + v * 2 ^ shift, len_of pre + 1).
Proof.
  intros Hv Hlast Hs Hacc Hmax. cbn [decode_varint].
  step_ok v; [apply ok_or_Ok; unfold len_of; rewrite Nat2Z.id; by apply list_lookup_middle|].
  step_ok (len_of pre + 1); [apply ok_or_Ok; by apply checked_add_Some|].
  rewrite low_bits, Z.mod_small by lia.
  step_ok tt.
  { apply guard_err_Ok, andb_false_iff. destruct (Z.eqb_spec shift 28); [right|by left]. apply Z.ltb_ge. lia. }
  rewrite last_high, lor_shifted by lia. cbn [Z.eqb].
  assert (0 < v * 2 ^ shift) by (apply Z.mul_pos_pos; [lia|apply Z.pow_pos_nonneg; lia]).
  step_ok tt; [apply guard_err_Ok, Z.eqb_neq; lia|done].
Qed.

Lemma varint_more fuel v pre post acc shift :
  0 ≤ v → 0 ≤ shift → shift + 7 ≤ 28 → 0 ≤ acc < 2 ^ shift → len_of pre + 1 ≤ usize_max →
  let bytes := pre ++ Z.lor (Z.land v 127) 128 :: post in
  decode_varint (S fuel) bytes (len_of pre) acc shift =
  decode_varint fuel bytes (len_of pre + 1) (acc + v mod 128 * 2 ^ shift) (shift + 7).
Proof.
  intros Hv Hs Hs7 Hacc Hmax bytes. cbn [decode_varint].
  assert (bytes !! Z.to_nat (len_of pre) = Some (Z.lor (Z.land v 127) 128)) as ->.
  { unfold len_of. rewrite Nat2Z.id. by apply list_lookup_middle. }
  cbn [ok_or mbind result_bind].
  rewrite (proj2 (checked_add_Some _ _ _ _) (conj eq_refl Hmax)). cbn [ok_or mbind result_bind].
  rewrite continued_low, continued_high, low_bits, lor_shifted by lia.
  destruct (Z.eqb_spec shift 28); [lia|]. cbn [andb guard_err mbind result_bind Z.eqb].
  by rewrite (proj2 (Z.ltb_ge _ _)) by lia.
Qed.

Lemma varint_bytes_S fuel v :
  varint_bytes (S fuel) v =
  if 128 <=? v then Z.lor (Z.land v 127) 128 :: varint_bytes fuel (Z.shiftr v 7) else [v].
Proof. done. Qed.

#[local] Arguments varint_bytes : simpl never.

(** [n] more groups may follow the one at the offset; those before it make up [acc]. *)
Lemma decode_varint_bytes n v pre post acc :
  let shift := 7 * (4 - Z.of_nat n) in
  (n < 5)%nat → 0 < v < 2 ^ (32 - shift) → 0 ≤ acc < 2 ^ shift →
  len_of (pre ++ varint_bytes (S n) v ++ post) ≤ usize_max →
  decode_varint (S n) (pre ++ varint_bytes (S n) v ++ post) (len_of pre) acc shift =
  Ok (acc + v * 2 ^ shift, len_of pre + len_of (varint_bytes (S n) v)).
Proof.
  revert v pre acc. induction n as [|n IH]; intros v pre acc shift Hn Hv Hacc;
    rewrite varint_bytes_S; destruct (Z.leb_spec 128 v) as [Hbig|Hsmall]; intros Hlen;
    rewrite !len_of_app in Hlen; pose proof (len_of_nonneg post).
  all: assert (shift = 28 → v ≤ 15) as H15
    by (intros E; rewrite E in Hv; change (2 ^ (32 - 28)) with 16 in Hv; lia).
  1: exfalso; lia.
  1, 3: change (len_of [v]) with 1 in *; apply (varint_last _ v pre post); (done || lia).
  assert (2 ^ (32 - shift) = 2 ^ (32 - (shift + 7)) * 128) as Hpow.
  { change 128 with (2 ^ 7). rewrite <- Z.pow_add_r by lia. f_equal. lia. }
  assert (2 ^ (shift + 7) = 2 ^ shift * 128) as Hpow'.
  { rewrite Z.pow_add_r by lia. done. }
  pose proof (Z.div_mod v 128 ltac:(done)) as Hdiv. pose proof (Z.mod_pos_bound v 128 ltac:(done)).
  set (rest := varint_bytes (S n) (Z.shiftr v 7)) in *.
  assert (len_of (Z.lor (Z.land v 127) 128 :: rest) = 1 + len_of rest) as Hl
    by (unfold len_of; cbn [length]; lia).
  rewrite Hl in *. pose proof (len_of_nonneg rest).
  rewrite <- app_comm_cons, varint_more by lia.
  replace (shift + 7) with (7 * (4 - Z.of_nat n)) in * by lia.
  replace (len_of pre + 1) with (len_of (pre ++ [Z.lor (Z.land v 127) 128]))
    by (rewrite len_of_app; unfold len_of; cbn; lia).
  replace (pre ++ Z.lor (Z.land v 127) 128 :: rest ++ post)
    with ((pre ++ [Z.lor (Z.land v 127) 128]) ++ rest ++ post) by by rewrite <- app_assoc.
  assert (Z.shiftr v 7 = v / 128) as Hshr by exact (Z.shiftr_div_pow2 v 7 ltac:(done)).
  unfold rest. rewrite IH.
  - fold rest. rewrite Hshr, Hpow'. f_equal. f_equal; [|rewrite len_of_app; unfold len_of; cbn; lia].
    rewrite Hdiv at 3. ring.
  - lia.
  - rewrite Hshr. split; [apply Z.div_str_pos; lia|]. apply Z.div_lt_upper_bound; lia.
  - assert (0 ≤ v mod 128 * 2 ^ shift) by (apply Z.mul_nonneg_nonneg; lia). rewrite Hpow'. nia.
  - fold rest. rewrite !len_of_app. unfold len_of at 2. cbn [length]. lia.
Qed.

Lemma decode_varint_read v pre post :
  0 < v ≤ u32_max → len_of (pre ++ varint_bytes 5 v ++ post) ≤ usize_max →
  decode_posting_delta_varint (pre ++ varint_bytes 5 v ++ post) (len_of pre) =
  Ok (v, len_of pre + len_of (varint_bytes 5 v)).
Proof.
  intros Hv Hlen. unfold decode_posting_delta_varint, u32_max in *.
  change 0 with (7 * (4 - Z.of_nat 4)) at 2. rewrite decode_varint_bytes; try lia; [|cbn; lia..].
  f_equal. f_equal. cbn. lia.
Qed.

(** ** Posting lists *)

(** The bytes of the row ids after [previous]. *)
Fixpoint delta_bytes (previous : Z) (rest : list Z) : list Z :=
  match rest with
  | [] => []
  | x :: rest => varint_bytes 5 (x - previous) ++ delta_bytes x rest
  end.

Definition posting_bytes (ids : list Z) : list Z :=
  match ids with [] => [] | first :: rest => delta_bytes first rest end.

(** Row ids of a store of [n] rows, in order. *)
Definition row_ids_ok (n : Z) (ids : list Z) : Prop :=
  StronglySorted Z.lt ids ∧ Forall (λ x, 0 < x ≤ n) ids.

Lemma row_ids_ok_cons n x y ids :
  row_ids_ok n (x :: y :: ids) → 0 < y - x ≤ n ∧ 0 < x ≤ n ∧ 0 < y ≤ n ∧ row_ids_ok n (y :: ids).
Proof.
  intros [[Hs Hx]%StronglySorted_inv [Hb Hall]%Forall_cons]. apply Forall_cons in Hx as [Hlt _].
  pose proof Hall as [Hy _]%Forall_cons. split; [lia|]. split_and!; [lia..|]. by split.
Qed.

Lemma encode_deltas_Ok previous rest acc out :
  encode_deltas previous rest acc = Ok out → out = acc ++ delta_bytes previous rest.
Proof.
  revert previous acc. induction rest as [|x rest IH]; intros previous acc E; cbn [encode_deltas] in E.
  { injection E as <-. by rewrite app_nil_r. }
  apply bind_Ok in E as ([] & _ & E). apply bind_Ok in E as (? & [-> _]%ok_or_Ok%checked_sub_Some & E).
  apply bind_Ok in E as (b & (? & _ & Hb)%bind_Ok & E). apply IH in E as ->.
  assert (b = varint_bytes 5 (x - previous)) as -> by congruence.
  by rewrite <- app_assoc.
Qed.

Lemma varint_bytes_nonempty fuel v : (1 ≤ length (varint_bytes (S fuel) v))%nat.
Proof. rewrite varint_bytes_S. destruct (128 <=? v); cbn; lia. Qed.

Lemma delta_bytes_length previous rest : (length rest ≤ length (delta_bytes previous rest))%nat.
Proof.
  revert previous. induction rest as [|x rest IH]; intros previous; [done|]. cbn [delta_bytes length].
  rewrite length_app. pose proof (varint_bytes_nonempty 4 (x - previous)). specialize (IH x). lia.
Qed.

Lemma delta_items_read n fuel rest previous pre :
  n ≤ u32_max → row_ids_ok n (previous :: rest) → (length rest ≤ fuel)%nat →
  len_of (pre ++ delta_bytes previous rest) ≤ usize_max →
  delta_items fuel (pre ++ delta_bytes previous rest) (len_of pre) (Z.to_pos previous) n =
  Ok <$> (Z.to_pos <$> rest).
Proof.
  intros Hn. revert fuel previous pre. induction rest as [|x rest IH]; intros fuel previous pre Hok Hf Hlen.
  { cbn [delta_bytes]. rewrite app_nil_r. destruct fuel; [done|]. cbn [delta_items]. by rewrite Z.eqb_refl. }
  apply row_ids_ok_cons in Hok as (Hd & Hp & Hx & Hok).
  destruct fuel as [|fuel]; [cbn in Hf; lia|]. cbn [delta_items]. cbn [delta_bytes] in *.
  pose proof (varint_bytes_nonempty 4 (x - previous)) as Hv.
  destruct (Z.eqb_spec (len_of pre) (len_of (pre ++ varint_bytes 5 (x - previous) ++ delta_bytes x rest))) as [E|_].
  { exfalso. rewrite !len_of_app in E. pose proof (len_of_nonneg (delta_bytes x rest)). unfold len_of in *. lia. }
  rewrite decode_varint_read; [|unfold u32_max in *; lia|done].
  unfold next_delta_row_id, row_from_snapshot_raw.
  rewrite Z2Pos.id by lia. replace (previous + (x - previous)) with x by lia.
  rewrite (proj2 (checked_add_Some _ _ _ x)) by (unfold u32_max in *; lia). cbn [ok_or mbind result_bind].
  unfold non_zero. rewrite (proj2 (Z.eqb_neq _ _)) by lia. cbn [ok_or mbind result_bind].
  rewrite (proj2 (Z.ltb_ge _ _)) by lia. cbn [guard_err mbind result_bind fmap list_fmap].
  f_equal. rewrite <- len_of_app, app_assoc. rewrite app_assoc in Hlen.
  apply IH; [done|cbn in Hf; lia|done].
Qed.

(** The range of a list of row ids whose bytes start at [off]. *)
Definition range_at (off : Z) (ids : list Z) : DiskPostingRange :=
  mkDiskRange (List.hd 0 ids) off (len_of (posting_bytes ids)).

(** A range that says where the bytes of the row ids are gives the row ids. *)
Lemma posting_row_ids_read n off ids bytes count :
  n ≤ u32_max → row_ids_ok n ids → ids ≠ [] → len_of bytes ≤ usize_max → 0 ≤ off →
  get_range off (off + len_of (posting_bytes ids)) bytes = Some (posting_bytes ids) →
  posting_row_ids (range_at off ids) (DeltaVarint bytes count) n = Ok (Ok <$> (Z.to_pos <$> ids)).
Proof.
  intros Hn Hok Hne Hlen Hoff Hget. destruct ids as [|first rest]; [done|]. unfold posting_row_ids, range_at.
  cbn [range_first_row_id range_overflow_start range_overflow_len List.hd posting_bytes] in *.
  destruct Hok as [Hs Hb]. pose proof Hb as [Hfirst _]%Forall_cons.
  step_ok (Z.to_pos first); [apply row_from_raw_Ok; split_and!; [done|lia..]|].
  destruct (Z.eqb_spec (len_of (delta_bytes first rest)) 0) as [Hz|Hz].
  { pose proof (delta_bytes_length first rest). unfold len_of in Hz. destruct rest; [done|]. cbn [length] in *. lia. }
  pose proof (len_of_nonneg (delta_bytes first rest)).
  pose proof Hget as (_ & _ & _ & _ & _ & Hin)%get_range_Some; [|lia..].
  step_ok off; [apply ok_or_try_from; split; [done|lia]|].
  step_ok (len_of (delta_bytes first rest)); [apply ok_or_try_from; split; [done|lia]|].
  step_ok (off + len_of (delta_bytes first rest)); [apply checked_add_usize_Ok; split; [done|lia]|].
  step_ok (delta_bytes first rest); [by apply ok_or_Ok|]. f_equal. cbn [fmap list_fmap]. f_equal.
  apply (delta_items_read n _ rest first []); [done|by split|apply delta_bytes_length|cbn [app]; lia].
Qed.

(** A singleton has its row id next to the key. *)
Lemma posting_row_ids_single n id ids count :
  0 < id ≤ n → posting_row_ids (mkDiskRange id 0 0) (DeltaVarint ids count) n = Ok (Ok <$> [Z.to_pos id]).
Proof.
  intros Hid. unfold posting_row_ids. cbn.
  step_ok (Z.to_pos id); [apply row_from_raw_Ok; split_and!; [done|lia..]|done].
Qed.

(** ** Keys *)

(** The fields an index kind leaves out are zero, the others symbols. *)
Record key_shape (k : SnapshotIndexKind) (key : DiskIndexKey) : Prop := {
  ks_first : 0 ≤ key_first key ≤ u32_max;
  ks_second : 0 ≤ key_second key ≤ u32_max;
  ks_third : 0 ≤ key_third key ≤ u32_max;
  ks_no_second : key_field_count k < 2 → key_second key = 0;
  ks_no_third : key_field_count k < 3 → key_third key = 0
}.

Definition key_fits (w : SnapshotKeyWidth) (key : DiskIndexKey) : Prop :=
  fits w (key_first key) ∧ fits w (key_second key) ∧ fits w (key_third key).

Lemma consumes_key k w key :
  key_shape k key → key_fits w key → consumes (decode_compact_key k w) (encode_v3_key k key w) key.
Proof.
  intros [_ _ _ H2 H3] (F1 & F2 & F3). unfold decode_compact_key, encode_v3_key.
  eapply consumes_bind; [by apply consumes_value|].
  apply (consumes_bind _ _ _ _ (key_second key)).
  { destruct (Z.leb_spec 2 (key_field_count k)); [by apply consumes_value|].
    rewrite <- H2 by lia. apply consumes_ret. }
  apply (consumes_last _ _ _ (key_third key)).
  { destruct (Z.leb_spec 3 (key_field_count k)); [by apply consumes_value|].
    rewrite <- H3 by lia. apply consumes_ret. }
  destruct key. apply consumes_ret.
Qed.

Lemma max_field_bound k key m :
  key_shape k key → max_field key (key_field_count k) = Ok m →
  m ≤ u32_max ∧ key_first key ≤ m ∧ key_second key ≤ m ∧ key_third key ≤ m.
Proof.
  intros [? ? ? H2 H3] E. destruct k; injection E as <-; cbn in H2, H3;
    rewrite ?H2, ?H3 by lia; lia.
Qed.

Lemma group_width_fits k g w :
  snapshot_key_width k g = Ok w → Forall (key_shape k) g.*1 → Forall (key_fits w) g.*1.
Proof.
  unfold snapshot_key_width. intros (m & E & ->)%fmap_Ok Hshape. rewrite Forall_forall in Hshape.
  apply (try_fold_ind _ (λ pre m, 0 ≤ m ≤ u32_max ∧
    Forall (λ key, key_first key ≤ m ∧ key_second key ≤ m ∧ key_third key ≤ m) pre)) in E.
  - destruct E as [Hm Hall]. rewrite Forall_forall in Hall. apply Forall_forall. intros key Hin.
    destruct (Hshape _ Hin) as [? ? ? _ _]. destruct (Hall _ Hin) as (? & ? & ?).
    unfold key_fits. split; [|split]; (apply width_for_max_fits; lia).
  - split; [unfold u32_max; lia|constructor].
  - intros pre key post s1 s2 El [Hs Hall] E1. apply bind_Ok in E1 as (f & Hf & [= <-]).
    apply max_field_bound in Hf as (Hfm & ? & ? & ?); [|apply Hshape; rewrite El, elem_of_app; right; by left].
    split; [lia|]. apply Forall_app. split; [|apply Forall_singleton; lia].
    eapply Forall_impl; [exact Hall|]. cbn. intros key' ?. lia.
Qed.

Lemma key_length k w key : len_of (encode_v3_key k key w) = key_field_count k * width_byte_len w.
Proof.
  unfold encode_v3_key. rewrite !len_of_app, !encode_value_length.
  destruct k; cbn [key_field_count Z.leb Z.compare Pos.compare Pos.compare_cont];
    rewrite ?encode_value_length; unfold len_of; cbn [length]; lia.
Qed.

(** ** Writing a group *)

Abbreviation Entry := (DiskIndexKey * list Z)%type.

Definition singles (g : IndexGroup) : IndexGroup := filter (λ e, is_single e = true) g.
Definition multis (g : IndexGroup) : IndexGroup := filter (λ e, is_multi e = true) g.

Definition single_bytes (k : SnapshotIndexKind) (w : SnapshotKeyWidth) (e : Entry) : list Z :=
  encode_v3_key k e.1 w ++ le_bytes 4 (List.hd 0 e.2).
Definition multi_bytes (k : SnapshotIndexKind) (w : SnapshotKeyWidth) (e : Entry) : list Z :=
  encode_v3_key k e.1 w.

(** The key bytes of a group. *)
Definition group_keys (k : SnapshotIndexKind) (w : SnapshotKeyWidth) (g : IndexGroup) : list Z :=
  concat (single_bytes k w <$> singles g) ++ concat (multi_bytes k w <$> multis g).

(** The posting bytes, and the ranges when these start at [off]. *)
Definition group_postings (es : IndexGroup) : list Z := concat (posting_bytes <$> es.*2).

Fixpoint group_ranges (off : Z) (es : IndexGroup) : list DiskPostingRange :=
  match es with
  | [] => []
  | e :: es => range_at off e.2 :: group_ranges (off + len_of (posting_bytes e.2)) es
  end.

(** How many row ids follow the first of each entry. *)
Definition group_overflow (es : IndexGroup) : Z := foldr (λ e n, len_of (tail e.2) + n) 0 es.

Definition range_u32 (r : DiskPostingRange) : Prop :=
  range_overflow_start r ≤ u32_max ∧ range_overflow_len r ≤ u32_max.

Lemma group_ranges_app off a b :
  group_ranges off (a ++ b) = group_ranges off a ++ group_ranges (off + len_of (group_postings a)) b.
Proof.
  revert off. induction a as [|e a IH]; intros off.
  { cbn. by rewrite Z.add_0_r. }
  cbn [app group_ranges]. rewrite IH. do 3 f_equal. unfold group_postings. cbn [fmap list_fmap concat].
  rewrite len_of_app. lia.
Qed.

Lemma group_postings_app a b : group_postings (a ++ b) = group_postings a ++ group_postings b.
Proof. unfold group_postings. by rewrite !fmap_app, concat_app. Qed.

Lemma group_postings_one e : group_postings [e] = posting_bytes e.2.
Proof. unfold group_postings. cbn. by rewrite app_nil_r. Qed.

Lemma group_overflow_app a b : group_overflow (a ++ b) = group_overflow a + group_overflow b.
Proof. unfold group_overflow. induction a as [|e a IH]; [done|]. cbn [app foldr]. rewrite IH. lia. Qed.

Lemma group_ranges_length off es : length (group_ranges off es) = length es.
Proof. revert off. induction es as [|e es IH]; intros off; cbn; by rewrite ?IH. Qed.

Lemma encode_range_Ok ids posting r count posting' :
  encode_v3_posting_range ids posting = Ok (r, count, posting') →
  r = range_at (len_of posting) ids ∧ count = len_of (tail ids) ∧
  posting' = posting ++ posting_bytes ids ∧ range_u32 r.
Proof.
  unfold encode_v3_posting_range. destruct ids as [|first rest]; [done|]. intros E.
  apply bind_Ok in E as (? & [-> Hs]%ok_or_try_from & E). apply bind_Ok in E as (? & [-> _]%ok_or_try_from & E).
  apply bind_Ok in E as (out & ->%encode_deltas_Ok & E). apply bind_Ok in E as (? & [-> _]%ok_or_try_from & E).
  apply bind_Ok in E as (? & [-> _]%ok_or_Ok%checked_sub_Some & E).
  apply bind_Ok in E as (? & [-> Hl]%ok_or_try_from & E). rewrite len_of_app in *.
  replace (len_of posting + len_of (delta_bytes first rest) - len_of posting)
    with (len_of (delta_bytes first rest)) in * by lia.
  injection E as <- <- <-. by repeat split.
Qed.

Lemma encode_singles_Ok k w keys g keys' :
  try_fold (encode_single k w) keys g = Ok keys' → keys' = keys ++ concat (single_bytes k w <$> g).
Proof.
  intros E. apply (try_fold_ind _ (λ pre s, s = keys ++ concat (single_bytes k w <$> pre))) in E; [done| |].
  - cbn. by rewrite app_nil_r.
  - intros pre e post s1 s2 _ -> E1. apply bind_Ok in E1 as (id & Hid%ok_or_Ok & [= <-]).
    rewrite fmap_app, concat_app. cbn. rewrite app_nil_r, <- !app_assoc. unfold single_bytes. do 3 f_equal.
    destruct (e.2); [done|]. by injection Hid as ->.
Qed.

Lemma encode_multis_Ok k w b g b' n' :
  try_fold (encode_multi k w) (b, 0) g = Ok (b', n') →
  buf_keys b' = buf_keys b ++ concat (multi_bytes k w <$> g) ∧
  buf_ranges b' = buf_ranges b ++ concat (encode_range <$> group_ranges (len_of (buf_posting_row_ids b)) g) ∧
  buf_posting_row_ids b' = buf_posting_row_ids b ++ group_postings g ∧ n' = group_overflow g ∧
  Forall range_u32 (group_ranges (len_of (buf_posting_row_ids b)) g).
Proof.
  intros E. apply (try_fold_ind _ (λ pre s,
    buf_keys s.1 = buf_keys b ++ concat (multi_bytes k w <$> pre) ∧
    buf_ranges s.1 =
      buf_ranges b ++ concat (encode_range <$> group_ranges (len_of (buf_posting_row_ids b)) pre) ∧
    buf_posting_row_ids s.1 = buf_posting_row_ids b ++ group_postings pre ∧ s.2 = group_overflow pre ∧
    Forall range_u32 (group_ranges (len_of (buf_posting_row_ids b)) pre))) in E; [done| |].
  - cbn. unfold group_postings. cbn. by rewrite !app_nil_r.
  - intros pre e post [b1 n1] [b2 n2] _ (Hk & Hr & Hp & Hn & Hall) E1. cbn [fst snd] in *.
    unfold encode_multi in E1. apply bind_Ok in E1 as ([[r c] p] & Hrange & E1).
    apply bind_Ok in E1 as (? & [-> _]%ok_or_Ok%checked_add_Some & [= <- <-]).
    apply encode_range_Ok in Hrange as (-> & -> & -> & Hu32). cbn [buf_keys buf_ranges buf_posting_row_ids].
    rewrite Hp, len_of_app in Hu32. rewrite Hk, Hr, Hp, Hn, len_of_app.
    rewrite group_ranges_app, group_postings_app, group_postings_one, group_overflow_app, !fmap_app, !concat_app.
    cbn [fmap list_fmap concat group_ranges].
    rewrite !app_nil_r, <- !app_assoc. split_and!; try done.
    + unfold group_overflow. cbn [foldr]. lia.
    + apply Forall_app. split; [done|]. by apply Forall_singleton.
Qed.

(** What writing one group appends. *)
Lemma encode_group_Ok k g b enc b' :
  encode_v3_index_group k g b = Ok (enc, b') →
  ∃ w, snapshot_key_width k g = Ok w ∧ eg_encoding enc = CompactV3 w ∧
    eg_key_count enc = len_of g ∧ len_of g ≤ u32_max ∧ eg_multi_count enc = len_of (multis g) ∧
    eg_overflow_row_id_count enc = group_overflow (multis g) ∧
    buf_keys b' = buf_keys b ++ group_keys k w g ∧
    buf_ranges b' =
      buf_ranges b ++ concat (encode_range <$> group_ranges (len_of (buf_posting_row_ids b)) (multis g)) ∧
    buf_posting_row_ids b' = buf_posting_row_ids b ++ group_postings (multis g) ∧
    Forall range_u32 (group_ranges (len_of (buf_posting_row_ids b)) (multis g)).
Proof.
  intros E. unfold encode_v3_index_group in E.
  apply bind_Ok in E as (? & [-> Hg]%ok_or_try_from & E). apply bind_Ok in E as (? & [-> _]%ok_or_try_from & E).
  apply bind_Ok in E as (w & Hw & E). apply bind_Ok in E as (keys & ->%encode_singles_Ok & E).
  apply bind_Ok in E as ([b1 n1] & Hm & [= <- <-]).
  apply encode_multis_Ok in Hm as (Hk & Hr & Hp & -> & Hall). cbn [buf_keys buf_ranges buf_posting_row_ids] in *.
  exists w. unfold group_keys. rewrite app_assoc. by split_and!.
Qed.
