(* ===== verification/SnapshotIndexSave.v ===== *)
(** * The index sections of a saved snapshot

    The key bytes and ranges of a group decode to its entries in key order. The
    seven groups are written one after the other: the directory, the keys, the
    ranges and the posting bytes read back, and their layout covers the
    sections. *)

From S2P Require Import Prelude Model Domain StoreTypes Interner LiveRows Posting Row Identity.
From S2P Require Import Store Legacy SnapshotBytes Snapshot SnapshotProps SnapshotSymbols.
From S2P Require Import SnapshotIndexes SnapshotDataProps SnapshotDataSave SnapshotIndexProps.
From S2P Require Import SnapshotGroups.

Local Open Scope Z_scope.

(** ** Entries *)

Definition single_item (e : Entry) : SnapshotIndexEntry := mkIndexItem e.1 (mkDiskRange (List.hd 0 e.2) 0 0).

(** The entries of a group whose posting bytes start at [off]. *)
Fixpoint group_entries (off : Z) (g : IndexGroup) : list SnapshotIndexEntry :=
  match g with
  | [] => []
  | e :: g =>
      if is_single e then single_item e :: group_entries off g
      else mkIndexItem e.1 (range_at off e.2) :: group_entries (off + len_of (posting_bytes e.2)) g
  end.

Definition single_items (g : IndexGroup) : list SnapshotIndexEntry := single_item <$> singles g.
Definition multi_items (off : Z) (g : IndexGroup) : list SnapshotIndexEntry :=
  zip_with mkIndexItem (multis g).*1 (group_ranges off (multis g)).

Lemma not_single e : e.2 ≠ [] → is_multi e = negb (is_single e).
Proof. unfold is_multi, is_single. destruct e as [k [|x [|y ids]]]; done. Qed.

Lemma singles_cons e g : singles (e :: g) = if is_single e then e :: singles g else singles g.
Proof. unfold singles. rewrite filter_cons. by destruct (is_single e). Qed.

Lemma multis_cons e g : e.2 ≠ [] → multis (e :: g) = if is_single e then multis g else e :: multis g.
Proof. intros He. unfold multis. rewrite filter_cons, not_single by done. by destruct (is_single e). Qed.

Lemma singles_multis g : Forall (λ e, e.2 ≠ []) g → len_of (singles g) + len_of (multis g) = len_of g.
Proof.
  induction 1 as [|e g He _ IH]; [done|]. rewrite singles_cons, multis_cons by done.
  unfold len_of in *. destruct (is_single e); cbn [length]; lia.
Qed.

Lemma filter_keys_sorted P `{∀ e : Entry, Decision (P e)} (g : IndexGroup) :
  StronglySorted disk_lt g.*1 → StronglySorted disk_lt (filter P g).*1.
Proof.
  induction g as [|e g IH]; [done|]. intros [Hs He]%StronglySorted_inv. rewrite filter_cons.
  destruct (decide (P e)); [|by apply IH]. constructor; [by apply IH|].
  rewrite Forall_forall in He. apply Forall_forall. intros k (x & -> & Hx)%list_elem_of_fmap.
  apply He, list_elem_of_fmap_2. by apply list_elem_of_filter in Hx as [_ Hx].
Qed.

(** *** Keys of the items *)

Lemma single_items_keys g : item_key <$> single_items g = (singles g).*1.
Proof. unfold single_items. by rewrite <- list_fmap_compose. Qed.

Lemma zip_items_keys (es : IndexGroup) ranges :
  length ranges = length es → item_key <$> zip_with mkIndexItem es.*1 ranges = es.*1.
Proof. revert ranges. induction es as [|e es IH]; intros [|r rs]; cbn; try done. intros [= Hl]. by rewrite IH. Qed.

Lemma multi_items_keys off g : item_key <$> multi_items off g = (multis g).*1.
Proof. apply zip_items_keys, group_ranges_length. Qed.

Lemma group_entries_keys off g : item_key <$> group_entries off g = g.*1.
Proof. revert off. induction g as [|e g IH]; intros off; cbn; [done|]. destruct (is_single e); cbn; by rewrite IH. Qed.

Lemma single_items_after e g x : Forall (disk_lt e) g.*1 → x ∈ single_items g → disk_lt e (item_key x).
Proof.
  intros Hall Hx. rewrite Forall_forall in Hall. apply Hall.
  apply (list_elem_of_fmap_2 item_key) in Hx. rewrite single_items_keys in Hx.
  apply list_elem_of_fmap in Hx as (y & -> & Hy). apply list_elem_of_fmap_2.
  by apply list_elem_of_filter in Hy as [_ Hy].
Qed.

Lemma multi_items_after e off g x : Forall (disk_lt e) g.*1 → x ∈ multi_items off g → disk_lt e (item_key x).
Proof.
  intros Hall Hx. rewrite Forall_forall in Hall. apply Hall.
  apply (list_elem_of_fmap_2 item_key) in Hx. rewrite multi_items_keys in Hx.
  apply list_elem_of_fmap in Hx as (y & -> & Hy). apply list_elem_of_fmap_2.
  by apply list_elem_of_filter in Hy as [_ Hy].
Qed.

(** ** The merge *)

Lemma merge_items fuel off g merged :
  StronglySorted disk_lt g.*1 → Forall (λ e, e.2 ≠ []) g → (length g ≤ fuel)%nat →
  merge_entries fuel (single_items g) (multi_items off g) merged = Ok (merged ++ group_entries off g).
Proof.
  revert fuel off merged. induction g as [|e g IH]; intros fuel off merged Hs Hne Hf.
  { cbn. rewrite app_nil_r. by destruct fuel. }
  apply StronglySorted_inv in Hs as [Hs He]. apply Forall_cons in Hne as [Hene Hne].
  destruct fuel as [|fuel]; [cbn in Hf; lia|].
  assert (length g ≤ fuel)%nat as Hf' by (cbn in Hf; lia).
  unfold single_items, multi_items. rewrite singles_cons, multis_cons by done.
  cbn [group_entries]. destruct (is_single e); cbn [fmap list_fmap group_ranges zip_with merge_entries].
  - specialize (IH fuel off (merged ++ [single_item e]) Hs Hne Hf').
    rewrite <- app_assoc in IH. cbn [app] in IH. rewrite <- IH.
    fold (single_items g). fold (multi_items off g).
    pose proof (multi_items_after e.1 off g) as Hafter.
    destruct (multi_items off g) as [|m ms]; [done|].
    specialize (Hafter m He ltac:(by left)). cbn [item_key single_item]. by rewrite Hafter.
  - specialize (IH fuel (off + len_of (posting_bytes e.2)) (merged ++ [mkIndexItem e.1 (range_at off e.2)])
      Hs Hne Hf').
    rewrite <- app_assoc in IH. cbn [app] in IH. rewrite <- IH.
    fold (single_items g). fold (multi_items (off + len_of (posting_bytes e.2)) g).
    pose proof (single_items_after e.1 g) as Hafter.
    destruct (single_items g) as [|s ss]; [done|].
    specialize (Hafter s He ltac:(by left)). cbn [item_key].
    by rewrite (proj2 (disk_compare_Gt _ _) Hafter).
Qed.

(** ** Reading the keys *)

Section read.
Context (k : SnapshotIndexKind) (w : SnapshotKeyWidth).

(** What the reader needs of a group. *)
Record group_ok (g : IndexGroup) : Prop := {
  go_sorted : StronglySorted disk_lt g.*1;
  go_nonempty : Forall (λ e, e.2 ≠ []) g;
  go_shape : Forall (key_shape k) g.*1;
  go_ids : Forall (λ e, Forall (λ x, 0 < x ≤ u32_max) e.2) g
}.

Lemma consumes_singleton e :
  key_shape k e.1 → key_fits w e.1 → 0 ≤ List.hd 0 e.2 ≤ u32_max →
  consumes (read_singleton k w) (single_bytes k w e) (single_item e).
Proof.
  intros Hk Hf Hid. unfold read_singleton, single_bytes.
  eapply consumes_bind; [by apply consumes_key|].
  eapply consumes_last; [by apply consumes_u32|]. apply consumes_ret.
Qed.

Lemma consumes_multis es ranges :
  length ranges = length es → Forall (λ e : Entry, key_shape k e.1 ∧ key_fits w e.1) es →
  consumes (read_multis k w ranges) (concat (multi_bytes k w <$> es)) (zip_with mkIndexItem es.*1 ranges).
Proof.
  revert ranges. induction es as [|e es IH]; intros [|r rs]; try done; intros Hl Hall;
    [apply consumes_ret|].
  apply Forall_cons in Hall as [[Hs Hf] Hall]. cbn [read_multis fmap list_fmap concat zip_with].
  eapply consumes_bind; [by apply consumes_key|].
  eapply consumes_last; [apply IH; [by injection Hl|done]|]. apply consumes_ret.
Qed.

(** *** Where the bytes of a group are *)

Lemma width_len_bounds : 1 ≤ width_byte_len w ≤ 4.
Proof. by destruct w. Qed.

Lemma field_count_bounds : 1 ≤ key_field_count k ≤ 3.
Proof. by destruct k. Qed.

Lemma singles_length g :
  len_of (concat (single_bytes k w <$> singles g)) =
  len_of (singles g) * (key_field_count k * width_byte_len w + DISK_ROW_ID_LEN).
Proof.
  apply concat_length. intros e. unfold single_bytes. rewrite len_of_app, key_length.
  unfold len_of. by rewrite le_bytes_length.
Qed.

Lemma multis_length g :
  len_of (concat (multi_bytes k w <$> multis g)) = len_of (multis g) * (key_field_count k * width_byte_len w).
Proof. apply concat_length. intros e. apply key_length. Qed.

(** A directory entry describes the group at these places. *)
Record describes (entry : DiskIndexDirectoryEntry) (g : IndexGroup) (key_start range_start : Z) : Prop := {
  ds_kind : de_kind entry = k;
  ds_encoding : de_encoding entry = CompactV3 w;
  ds_key_start : de_key_start entry = key_start;
  ds_key_count : de_key_count entry = len_of g;
  ds_range_start : de_posting_range_start entry = range_start;
  ds_range_count : de_posting_range_count entry = len_of (multis g)
}.

Lemma compact_spans_read entry g key_start range_start :
  describes entry g key_start range_start → Forall (λ e, e.2 ≠ []) g → 0 ≤ key_start →
  key_start + len_of (group_keys k w g) ≤ usize_max → len_of g ≤ u32_max →
  compact_spans entry w =
  Ok (mkSpans key_start (len_of (concat (single_bytes k w <$> singles g))) (len_of (singles g))
        (key_start + len_of (group_keys k w g))).
Proof.
  intros [Hk _ Hks Hkc _ Hrc] Hne H0 Hmax Hg. unfold compact_spans. rewrite Hk, Hks, Hkc, Hrc.
  pose proof (singles_multis g Hne) as Hsum. unfold group_keys in *. rewrite len_of_app in *.
  pose proof (singles_length g) as Hsl. pose proof (multis_length g) as Hml.
  pose proof (len_of_nonneg (singles g)). pose proof (len_of_nonneg (multis g)).
  pose proof width_len_bounds. pose proof field_count_bounds.
  set (kl := key_field_count k * width_byte_len w) in *. assert (0 ≤ kl ≤ 12) by (unfold kl; nia).
  pose proof (len_of_nonneg (concat (single_bytes k w <$> singles g))).
  pose proof (len_of_nonneg (concat (multi_bytes k w <$> multis g))).
  unfold usize_max, u64_max, u32_max in *.
  step_ok tt; [apply guard_err_Ok, Z.ltb_ge; lia|].
  step_ok key_start; [apply ok_or_try_from; split; [done|unfold usize_max, u64_max; lia]|].
  step_ok (len_of g); [apply ok_or_try_from; split; [done|unfold usize_max, u64_max; lia]|].
  step_ok (len_of (multis g)); [apply ok_or_try_from; split; [done|unfold usize_max, u64_max; lia]|].
  step_ok (len_of (singles g)); [apply ok_or_Ok, checked_sub_Some; lia|].
  step_ok kl; [apply checked_mul_usize_Ok; split; [done|unfold usize_max, u64_max, kl in *; lia]|].
  step_ok (kl + DISK_ROW_ID_LEN).
  { apply checked_add_usize_Ok. unfold usize_max, u64_max, DISK_ROW_ID_LEN. lia. }
  step_ok (len_of (concat (single_bytes k w <$> singles g))).
  { apply checked_mul_usize_Ok. unfold usize_max, u64_max. lia. }
  step_ok (len_of (concat (multi_bytes k w <$> multis g))).
  { apply checked_mul_usize_Ok. unfold usize_max, u64_max. lia. }
  eapply bind_Ok. eexists. split; [apply checked_add_usize_Ok; split; [reflexivity|]|].
  { unfold usize_max, u64_max. lia. }
  eapply bind_Ok. eexists. split; [|done].
  apply checked_add_usize_Ok. split; [reflexivity|]. unfold usize_max, u64_max. lia.
Qed.

(** *** The entries *)

Lemma decode_singletons_read g :
  group_ok g → Forall (key_fits w) g.*1 → len_of (concat (single_bytes k w <$> singles g)) ≤ usize_max →
  decode_compact_singletons k w (concat (single_bytes k w <$> singles g)) (len_of (singles g)) =
  Ok (single_items g).
Proof.
  intros [Hs Hne Hshape Hids] Hfit Hmax. unfold decode_compact_singletons.
  step_ok (single_items g).
  - unfold read_all, len_of at 1. rewrite Nat2Z.id.
    rewrite (consumes_all _ _ (single_items g)); [done| |done]. apply consumes_times.
    intros e [_ He]%list_elem_of_filter. rewrite Forall_forall in Hshape, Hfit. rewrite Forall_forall in Hids, Hne.
    apply consumes_singleton.
    + by apply Hshape, list_elem_of_fmap_2.
    + by apply Hfit, list_elem_of_fmap_2.
    + specialize (Hne _ He). specialize (Hids _ He). destruct (e.2) as [|x ids]; [done|].
      apply Forall_cons in Hids as [? _]. cbn. lia.
  - unfold validate_sorted_entries. rewrite single_items_keys, sorted_not_unsorted; [done|].
    by apply filter_keys_sorted.
Qed.

Lemma decode_multis_read g off :
  group_ok g → Forall (key_fits w) g.*1 → len_of (concat (multi_bytes k w <$> multis g)) ≤ usize_max →
  decode_compact_multi_entries k w (concat (multi_bytes k w <$> multis g)) (group_ranges off (multis g)) =
  Ok (multi_items off g).
Proof.
  intros [Hs Hne Hshape Hids] Hfit Hmax. unfold decode_compact_multi_entries.
  step_ok (multi_items off g).
  - unfold read_all. rewrite (consumes_all _ _ (multi_items off g)); [done| |done].
    apply consumes_multis; [by rewrite group_ranges_length|].
    apply Forall_forall. intros e [_ He]%list_elem_of_filter. rewrite Forall_forall in Hshape, Hfit.
    split; [by apply Hshape, list_elem_of_fmap_2|by apply Hfit, list_elem_of_fmap_2].
  - unfold validate_sorted_entries. rewrite multi_items_keys, sorted_not_unsorted; [done|].
    by apply filter_keys_sorted.
Qed.

(** A group in its place among the keys and the ranges reads back. *)
Lemma compact_entries_read g off pre post rpre rpost entry :
  group_ok g → Forall (key_fits w) g.*1 → describes entry g (len_of pre) (len_of rpre) →
  len_of (pre ++ group_keys k w g ++ post) ≤ usize_max → len_of g ≤ u32_max →
  len_of (rpre ++ group_ranges off (multis g) ++ rpost) ≤ usize_max →
  compact_snapshot_index_entries (pre ++ group_keys k w g ++ post)
    (rpre ++ group_ranges off (multis g) ++ rpost) entry w = Ok (group_entries off g).
Proof.
  intros Hok Hfit Hd Hmax Hg Hrmax. pose proof Hok as [Hs Hne _ _].
  rewrite !len_of_app in Hmax. rewrite !len_of_app in Hrmax. pose proof (len_of_nonneg pre). pose proof (len_of_nonneg post).
  pose proof (len_of_nonneg rpre). pose proof (len_of_nonneg rpost).
  assert (len_of (group_ranges off (multis g)) = len_of (multis g)) as Hrl
    by (unfold len_of; by rewrite group_ranges_length).
  pose proof (len_of_nonneg (multis g)).
  pose proof (compact_spans_read _ _ _ _ Hd Hne ltac:(done) ltac:(lia) Hg) as Hspans.
  destruct Hd as [Hk _ Hks Hkc Hrs Hrc]. unfold compact_snapshot_index_entries. rewrite Hk, Hrs, Hrc.
  set (sb := concat (single_bytes k w <$> singles g)) in *. set (mb := concat (multi_bytes k w <$> multis g)) in *.
  assert (group_keys k w g = sb ++ mb) as Hsplit by done.
  assert (len_of (group_keys k w g) = len_of sb + len_of mb) as Hlen by by rewrite Hsplit, len_of_app.
  pose proof (len_of_nonneg sb). pose proof (len_of_nonneg mb).
  eapply bind_Ok. eexists. split; [exact Hspans|]. cbn [span_start span_end span_singletons span_singleton_count].
  step_ok (group_keys k w g); [by rewrite get_range_app|].
  step_ok (len_of rpre); [apply ok_or_try_from; split; [done|lia]|].
  step_ok (len_of rpre + len_of (multis g)); [apply checked_add_usize_Ok; split; [done|lia]|].
  step_ok (group_ranges off (multis g)); [by rewrite <- Hrl, get_range_app|].
  rewrite Hsplit.
  step_ok sb; [by rewrite get_range_prefix|].
  step_ok mb; [by rewrite get_range_suffix|].
  step_ok (single_items g); [apply decode_singletons_read; [done|done|fold sb; lia]|].
  step_ok (multi_items off g); [apply decode_multis_read; [done|done|fold mb; lia]|].
  unfold merge_compact_entries.
  assert (length (single_items g) + length (multi_items off g) = length g)%nat as Hn.
  { pose proof (singles_multis g Hne) as Hsum. unfold len_of in Hsum.
    rewrite <- (length_fmap item_key (single_items g)), single_items_keys.
    rewrite <- (length_fmap item_key (multi_items off g)), multi_items_keys, !length_fmap. lia. }
  step_ok (len_of g).
  { apply ok_or_Ok, checked_add_Some. unfold len_of in *. rewrite <- Hn, Nat2Z.inj_add.
    unfold usize_max, u64_max, u32_max in *. lia. }
  step_ok (group_entries off g).
  { rewrite Hn. apply (merge_items _ _ _ []); [done|done|lia]. }
  step_ok tt; [|done]. unfold validate_sorted_entries. rewrite group_entries_keys.
  by apply guard_err_Ok, sorted_not_unsorted.
Qed.
End read.

(** ** The posting lists *)

(** Every entry of a group in its place gives the row ids of its key. *)
Lemma group_entries_postings n count g off pre post :
  n ≤ u32_max → off = len_of pre → Forall (λ e, e.2 ≠ [] ∧ row_ids_ok n e.2) g →
  len_of (pre ++ group_postings (multis g) ++ post) ≤ usize_max →
  Forall2 (λ entry e, item_key entry = e.1 ∧
      posting_row_ids (item_range entry)
        (DeltaVarint (pre ++ group_postings (multis g) ++ post) count) n = Ok (Ok <$> (Z.to_pos <$> e.2)))
    (group_entries off g) g.
Proof.
  intros Hn. revert off pre. induction g as [|e g IH]; intros off pre -> Hall Hmax; [constructor|].
  apply Forall_cons in Hall as [[Hne Hok] Hall]. rewrite multis_cons in * by done. cbn [group_entries].
  destruct (is_single e) eqn:Es; constructor; try by apply IH.
  - split; [done|]. unfold is_single in Es. destruct e as [key [|x [|y ids]]]; try done.
    destruct Hok as [_ [Hx _]%Forall_cons]. by apply posting_row_ids_single.
  - split; [done|]. change (e :: multis g) with ([e] ++ multis g) in *.
    rewrite group_postings_app, group_postings_one in *. cbn [item_range].
    apply posting_row_ids_read; [done|done|done|done|apply len_of_nonneg|].
    rewrite <- app_assoc. apply get_range_app.
  - change (e :: multis g) with ([e] ++ multis g) in *.
    rewrite group_postings_app, group_postings_one, <- !app_assoc in *.
    replace (pre ++ posting_bytes e.2 ++ group_postings (multis g) ++ post)
      with ((pre ++ posting_bytes e.2) ++ group_postings (multis g) ++ post) in * by by rewrite <- app_assoc.
    apply IH; [by rewrite len_of_app|done|done].
Qed.

(** ** Spans that cover a section *)

Lemma Sorted_snoc {A} (R : A → A → Prop) l y :
  Sorted R l → (∀ x, last l = Some x → R x y) → Sorted R (l ++ [y]).
Proof.
  induction 1 as [|x l Hl IH Hx]; intros Hy; [by repeat constructor|]. cbn. constructor.
  - apply IH. intros z Hz. apply Hy. rewrite last_cons. by rewrite Hz.
  - destruct l as [|z l]; cbn; constructor; [by apply Hy|]. by inversion Hx.
Qed.

(** The spans lie next to each other, from the start to [z]. *)
Record covering (spans : list Span) (z : Z) : Prop := {
  cv_sorted : Sorted (λ a b, span_leb a b = true) spans;
  cv_fold reason : try_fold (cover_step reason) 0 spans = Ok z;
  cv_last s : last spans = Some s → s.1 ≤ s.2 ∧ s.2 = z
}.

Lemma covering_nil : covering [] 0.
Proof. split; [constructor|done|done]. Qed.

Lemma covering_snoc spans a b : covering spans a → a ≤ b → covering (spans ++ [(a, b)]) b.
Proof.
  intros [Hs Hf Hl] Hab. split.
  - apply Sorted_snoc; [done|]. intros [x y] [Hxy <-]%Hl. cbn in *. unfold span_leb. cbn.
    rewrite orb_true_iff, andb_true_iff, Z.ltb_lt, Z.eqb_eq, Z.leb_le. lia.
  - intros reason. rewrite try_fold_app, Hf. cbn [mbind result_bind try_fold]. step_ok b; [|done].
    unfold cover_step. step_ok tt; [|done]. apply guard_err_Ok. cbn [fst snd].
    rewrite Z.eqb_refl, orb_false_r. by apply Z.ltb_ge.
  - intros s. rewrite last_snoc. by intros [= <-].
Qed.

Lemma covering_accepted spans z reason : covering spans z → validate_spans_cover spans z reason = Ok tt.
Proof.
  intros [Hs Hf _]. unfold validate_spans_cover. rewrite sort_by_sorted by done.
  step_ok z; [done|]. apply guard_err_Ok, negb_false_iff, Z.eqb_refl.
Qed.

(** ** The directory *)

Definition directory_entry_bytes (e : DiskIndexDirectoryEntry) : list Z :=
  le_bytes 2 (index_kind_raw (de_kind e)) ++ le_bytes 2 (encoding_flags (de_encoding e)) ++
  le_bytes 4 (de_key_start e) ++ le_bytes 4 (de_key_count e) ++
  le_bytes 4 (de_posting_range_start e) ++ le_bytes 4 (de_posting_range_count e).

Record entry_u32 (e : DiskIndexDirectoryEntry) : Prop := {
  eu_encoding : de_encoding e ≠ FixedV2;
  eu_key_start : 0 ≤ de_key_start e ≤ u32_max;
  eu_key_count : 0 ≤ de_key_count e ≤ u32_max;
  eu_range_start : 0 ≤ de_posting_range_start e ≤ u32_max;
  eu_range_count : 0 ≤ de_posting_range_count e ≤ u32_max
}.

Lemma directory_bytes_length es : len_of (concat (directory_entry_bytes <$> es)) = len_of es * 20.
Proof.
  apply concat_length. intros e. unfold directory_entry_bytes, len_of.
  by rewrite !length_app, !le_bytes_length.
Qed.

Lemma kind_raw_roundtrip k : index_kind_from_raw (index_kind_raw k) = Ok k ∧ 0 ≤ index_kind_raw k ≤ u16_max.
Proof. by destruct k. Qed.

Lemma encoding_roundtrip e : encoding_from_flags (encoding_flags e) = Ok e ∧ 0 ≤ encoding_flags e ≤ u16_max.
Proof. by destruct e as [|[]]. Qed.

Lemma consumes_index_directory es seen :
  Forall entry_u32 es → NoDup (de_kind <$> es) → (∀ k, k ∈ de_kind <$> es → k ∉ seen) →
  consumes (read_index_directory (length es) seen) (concat (directory_entry_bytes <$> es)) es.
Proof.
  revert seen. induction es as [|e es IH]; intros seen Hall Hnd Hseen; [apply consumes_ret|].
  apply Forall_cons in Hall as [[_ H1 H2 H3 H4] Hall]. cbn [fmap list_fmap] in *.
  apply NoDup_cons in Hnd as [Hk Hnd]. cbn [length read_index_directory concat].
  unfold directory_entry_bytes. rewrite <- !app_assoc.
  destruct (kind_raw_roundtrip (de_kind e)) as [Hkind Hkmax].
  destruct (encoding_roundtrip (de_encoding e)) as [Henc Hemax].
  eapply consumes_bind; [by apply consumes_u16|]. eapply consumes_check; [exact Hkind|].
  eapply consumes_bind; [by apply consumes_u16|]. eapply consumes_check; [exact Henc|].
  apply (consumes_check _ _ _ tt).
  { apply guard_err_Ok, bool_decide_eq_false, Hseen. by left. }
  do 4 (eapply consumes_bind; [by apply consumes_u32|]).
  eapply consumes_last; [|destruct e; apply consumes_ret].
  apply IH; [done|done|]. intros k Hin [->|Hin']%elem_of_cons; [done|].
  apply (Hseen k); [by right|done].
Qed.

(** ** The groups, one after the other *)

Section groups.
Context (groups : SnapshotIndexGroups).

Definition kind_width (k : SnapshotIndexKind) : SnapshotKeyWidth :=
  match snapshot_key_width k (group_of groups k) with Ok w => w | Err _ => U8 end.

(** The keys, the entries with ranges, and the number of keys of some kinds. *)
Definition kinds_keys (ks : list SnapshotIndexKind) : list Z :=
  concat ((λ k, group_keys k (kind_width k) (group_of groups k)) <$> ks).
Definition kinds_multis (ks : list SnapshotIndexKind) : IndexGroup :=
  concat ((λ k, multis (group_of groups k)) <$> ks).
Definition kinds_count (ks : list SnapshotIndexKind) : Z :=
  foldr (λ k n, len_of (group_of groups k) + n) 0 ks.

Lemma kinds_keys_app a b : kinds_keys (a ++ b) = kinds_keys a ++ kinds_keys b.
Proof. unfold kinds_keys. by rewrite fmap_app, concat_app. Qed.

Lemma kinds_multis_app a b : kinds_multis (a ++ b) = kinds_multis a ++ kinds_multis b.
Proof. unfold kinds_multis. by rewrite fmap_app, concat_app. Qed.

Lemma kinds_count_app a b : kinds_count (a ++ b) = kinds_count a + kinds_count b.
Proof. unfold kinds_count. induction a as [|k a IH]; [done|]. cbn [app foldr]. rewrite IH. lia. Qed.

Lemma kinds_keys_one k : kinds_keys [k] = group_keys k (kind_width k) (group_of groups k).
Proof. unfold kinds_keys. cbn. by rewrite app_nil_r. Qed.

Lemma kinds_multis_one k : kinds_multis [k] = multis (group_of groups k).
Proof. unfold kinds_multis. cbn. by rewrite app_nil_r. Qed.

Lemma kinds_count_one k : kinds_count [k] = len_of (group_of groups k).
Proof. unfold kinds_count. cbn [foldr]. lia. Qed.

Lemma kinds_count_nonneg ks : 0 ≤ kinds_count ks.
Proof.
  unfold kinds_count. induction ks as [|k ks IH]; [done|]. cbn [foldr].
  pose proof (len_of_nonneg (group_of groups k)). lia.
Qed.

(** The directory entry of a kind written after others. *)
Definition entry_after (pre : list SnapshotIndexKind) (k : SnapshotIndexKind) : DiskIndexDirectoryEntry :=
  mkIndexEntry k (CompactV3 (kind_width k)) (len_of (kinds_keys pre)) (len_of (group_of groups k))
    (len_of (kinds_multis pre)) (len_of (multis (group_of groups k))).

Fixpoint entries_after (pre ks : list SnapshotIndexKind) : list DiskIndexDirectoryEntry :=
  match ks with [] => [] | k :: ks => entry_after pre k :: entries_after (pre ++ [k]) ks end.

Lemma entries_after_snoc pre ks k :
  entries_after pre (ks ++ [k]) = entries_after pre ks ++ [entry_after (pre ++ ks) k].
Proof.
  revert pre. induction ks as [|k' ks IH]; intros pre; cbn; [by rewrite app_nil_r|].
  rewrite IH, <- app_assoc. done.
Qed.

Lemma entries_after_app pre a b :
  entries_after pre (a ++ b) = entries_after pre a ++ entries_after (pre ++ a) b.
Proof.
  revert pre. induction a as [|k a IH]; intros pre; cbn; [by rewrite app_nil_r|].
  by rewrite IH, <- app_assoc.
Qed.

Lemma entries_after_kinds pre ks : de_kind <$> entries_after pre ks = ks.
Proof. revert pre. induction ks as [|k ks IH]; intros pre; cbn; by rewrite ?IH. Qed.

(** What has been written of the kinds so far. *)
Record kinds_written (ks : list SnapshotIndexKind) (x : EncodedSnapshotIndexes) : Prop := {
  kw_directory : ei_directory x = concat (directory_entry_bytes <$> entries_after [] ks);
  kw_entries : Forall entry_u32 (entries_after [] ks);
  kw_keys : buf_keys (ei_buffers x) = kinds_keys ks;
  kw_ranges : buf_ranges (ei_buffers x) = concat (encode_range <$> group_ranges 0 (kinds_multis ks));
  kw_postings : buf_posting_row_ids (ei_buffers x) = group_postings (kinds_multis ks);
  kw_key_count : ei_key_count x = kinds_count ks ∧ kinds_count ks ≤ u32_max;
  kw_range_count : ei_range_count x = len_of (kinds_multis ks) ∧ len_of (kinds_multis ks) ≤ u32_max;
  kw_posting_count : ei_posting_row_id_count x = group_overflow (kinds_multis ks) ∧
    group_overflow (kinds_multis ks) ≤ u32_max;
  kw_widths : Forall (λ k, snapshot_key_width k (group_of groups k) = Ok (kind_width k) ∧
                        len_of (group_of groups k) ≤ u32_max) ks;
  kw_u32 : Forall range_u32 (group_ranges 0 (kinds_multis ks))
}.

Lemma write_kind ks k x x' :
  kinds_written ks x → encode_index_kind groups x k = Ok x' → kinds_written (ks ++ [k]) x'.
Proof.
  intros [Hd He Hk Hr Hp [Hkc _] [Hrc Hrm] [Hpc Hpm] Hw Hu] E. unfold encode_index_kind in E.
  apply bind_Ok in E as (? & [-> Hks]%ok_or_try_from & E).
  apply bind_Ok in E as ([enc b] & Henc & E).
  apply encode_group_Ok in Henc as (w & Hwidth & He1 & He2 & Hg & He3 & He4 & Hb1 & Hb2 & Hb3 & Hu').
  apply bind_Ok in E as (? & [-> Hkm]%ok_or_Ok%checked_add_Some & E).
  apply bind_Ok in E as (? & [-> Hrm']%ok_or_Ok%checked_add_Some & E).
  apply bind_Ok in E as (? & [-> Hpm']%ok_or_Ok%checked_add_Some & [= <-]).
  assert (kind_width k = w) as Hkw by (unfold kind_width; by rewrite Hwidth).
  rewrite Hk, Hr, Hp, Hrc, Hpc, ?He1, ?He2, ?He3, ?He4 in *.
  assert (entry_u32 (entry_after ks k)) as Hentry.
  { split; cbn; [done|..]; (split; [apply len_of_nonneg|]); try done.
    pose proof (len_of_nonneg (kinds_multis ks)). lia. }
  split; cbn [ei_directory ei_buffers ei_key_count ei_range_count ei_posting_row_id_count].
  - rewrite entries_after_snoc, fmap_app, concat_app, Hd. cbn [fmap list_fmap concat app].
    unfold directory_entry_bytes at 3. cbn [entry_after de_kind de_encoding de_key_start de_key_count
      de_posting_range_start de_posting_range_count]. by rewrite app_nil_r, Hkw.
  - rewrite entries_after_snoc. apply Forall_app. split; [done|]. by apply Forall_singleton.
  - by rewrite Hb1, kinds_keys_app, kinds_keys_one, Hkw.
  - rewrite Hb2, kinds_multis_app, kinds_multis_one, group_ranges_app, fmap_app, concat_app.
    by rewrite Z.add_0_l.
  - by rewrite Hb3, kinds_multis_app, kinds_multis_one, group_postings_app.
  - by rewrite kinds_count_app, kinds_count_one, <- Hkc.
  - by rewrite kinds_multis_app, kinds_multis_one, len_of_app.
  - by rewrite kinds_multis_app, kinds_multis_one, group_overflow_app.
  - apply Forall_app. split; [done|]. apply Forall_singleton. by rewrite Hkw.
  - rewrite kinds_multis_app, kinds_multis_one, group_ranges_app. apply Forall_app. by rewrite Z.add_0_l.
Qed.

Lemma write_kinds ks x :
  try_fold (encode_index_kind groups) (mkEncodedIndexes [] (mkBuffers [] [] []) 0 0 0) ks = Ok x →
  kinds_written ks x.
Proof.
  intros E. apply (try_fold_ind _ kinds_written) in E; [done| |].
  - split; try constructor; try done.
  - intros pre k post x1 x2 _ Hx E1. by eapply write_kind.
Qed.
End groups.

(** ** Reading the sections *)

Lemma consumes_range r :
  0 ≤ range_first_row_id r ≤ u32_max → 0 ≤ range_overflow_start r ≤ u32_max →
  0 ≤ range_overflow_len r ≤ u32_max → consumes read_disk_range (encode_range r) r.
Proof.
  intros H1 H2 H3. unfold read_disk_range, encode_range.
  eapply consumes_bind; [by apply consumes_u32|]. eapply consumes_bind; [by apply consumes_u32|].
  eapply consumes_last; [by apply consumes_u32|]. destruct r. apply consumes_ret.
Qed.

Lemma encode_range_length r : len_of (encode_range r) = 12.
Proof. unfold encode_range, len_of. by rewrite !length_app, !le_bytes_length. Qed.

(** The ranges of entries lie one after the other. *)
Lemma group_ranges_bounds n off es :
  n ≤ u32_max → 0 ≤ off → Forall (λ e : Entry, e.2 ≠ [] ∧ row_ids_ok n e.2) es →
  Forall (λ r, 0 < range_first_row_id r ≤ n ∧ 0 ≤ range_overflow_start r ∧ 0 ≤ range_overflow_len r)
    (group_ranges off es).
Proof.
  intros Hn Hoff Hall. revert off Hoff. induction Hall as [|e es [Hne [_ Hb]] _ IH]; intros off Hoff; [constructor|].
  pose proof (len_of_nonneg (posting_bytes e.2)). cbn [group_ranges]. constructor; [|apply IH; lia].
  unfold range_at. cbn [range_first_row_id range_overflow_start range_overflow_len].
  destruct (e.2) as [|first rest]; [done|]. apply Forall_cons in Hb as [? _]. cbn [List.hd]. lia.
Qed.

Lemma group_keys_length k w g :
  Forall (λ e, e.2 ≠ []) g → len_of g ≤ len_of (group_keys k w g).
Proof.
  intros Hne. unfold group_keys. rewrite len_of_app, singles_length, multis_length, <- (singles_multis g Hne).
  pose proof (len_of_nonneg (singles g)). pose proof (len_of_nonneg (multis g)).
  pose proof (width_len_bounds w). pose proof (field_count_bounds k). unfold DISK_ROW_ID_LEN.
  assert (1 ≤ key_field_count k * width_byte_len w) by nia. nia.
Qed.

Section sections.
Context (groups : SnapshotIndexGroups) (n : Z).
Hypothesis Hn : n ≤ u32_max.
Hypothesis Hok : ∀ k, group_ok k (group_of groups k).
Hypothesis Hids : ∀ k, Forall (λ e, e.2 ≠ [] ∧ row_ids_ok n e.2) (group_of groups k).
Context (x : EncodedSnapshotIndexes).
Hypothesis Hx : kinds_written groups ALL_INDEX_KINDS x.
Context (r : SnapshotReader).
Hypothesis Hversion : is_v3 r = true.
Hypothesis Hdir : reader_section r IndexDirectory = Ok (mkSection (ei_directory x) 0 SNAPSHOT_INDEX_KIND_COUNT).
Hypothesis Hkeys : reader_section r IndexKeys =
  Ok (mkSection (buf_keys (ei_buffers x)) 0 (ei_key_count x)).
Hypothesis Hranges : reader_section r PostingRanges =
  Ok (mkSection (buf_ranges (ei_buffers x)) 0 (ei_range_count x)).
Hypothesis Hpostings : reader_section r PostingRowIds =
  Ok (mkSection (buf_posting_row_ids (ei_buffers x)) 0 (ei_posting_row_id_count x)).
Hypothesis Hkeys_max : len_of (buf_keys (ei_buffers x)) ≤ usize_max.
Hypothesis Hpostings_max : len_of (buf_posting_row_ids (ei_buffers x)) ≤ usize_max.

Let ks := ALL_INDEX_KINDS.
Let ranges := group_ranges 0 (kinds_multis groups ks).

Lemma kinds_multis_ids l : Forall (λ e, e.2 ≠ [] ∧ row_ids_ok n e.2) (kinds_multis groups l).
Proof.
  unfold kinds_multis. induction l as [|k l IH]; [constructor|]. cbn. apply Forall_app. split; [|done].
  apply Forall_forall. intros e [_ He]%list_elem_of_filter. specialize (Hids k).
  rewrite Forall_forall in Hids. by apply Hids.
Qed.

Lemma group_nonempty k : Forall (λ e, e.2 ≠ []) (group_of groups k).
Proof. apply (go_nonempty _ _ (Hok k)). Qed.

Lemma kinds_count_keys l : 0 ≤ kinds_count groups l ≤ len_of (kinds_keys groups l).
Proof.
  induction l as [|k l IH]; [done|].
  change (k :: l) with ([k] ++ l). rewrite kinds_count_app, kinds_count_one, kinds_keys_app, len_of_app, kinds_keys_one.
  pose proof (group_keys_length k (kind_width groups k) _ (group_nonempty k)).
  pose proof (len_of_nonneg (group_of groups k)). lia.
Qed.

Lemma read_directory_section : decode_index_directory r = Ok (entries_after groups [] ks).
Proof.
  pose proof (kw_directory _ _ _ Hx) as Hd. unfold decode_index_directory.
  assert (len_of (ei_directory x) = 140) as Hl by by rewrite Hd, directory_bytes_length.
  eapply bind_Ok. eexists. split; [exact Hdir|].
  step_ok tt; [done|]. step_ok 140; [done|].
  step_ok tt; [apply guard_err_Ok, negb_false_iff; cbn [section_bytes]; by rewrite Hl|].
  unfold read_all. cbn [section_bytes]. change 7%nat with (length (entries_after groups [] ks)).
  rewrite (consumes_all _ _ (entries_after groups [] ks)); [done| |by rewrite Hl].
  rewrite Hd. apply consumes_index_directory.
  - apply (kw_entries _ _ _ Hx).
  - rewrite entries_after_kinds. by apply (bool_decide_unpack _); vm_compute.
  - intros k _. apply not_elem_of_nil.
Qed.

Lemma read_keys_section :
  decode_index_keys r = Ok (CompactKeys (kinds_keys groups ks) (kinds_count groups ks)).
Proof.
  unfold decode_index_keys. eapply bind_Ok. eexists. split; [exact Hkeys|]. rewrite Hversion.
  cbn [section_bytes section_row_count]. rewrite (kw_keys _ _ _ Hx). destruct (kw_key_count _ _ _ Hx) as [-> _].
  step_ok tt; [|done]. apply guard_err_Ok, andb_false_iff.
  destruct (decide (kinds_keys groups ks = [])) as [E|E]; [right|left; by apply bool_decide_eq_false].
  pose proof (kinds_count_keys ks) as Hc. unfold ks in *. rewrite E in Hc. apply negb_false_iff, Z.eqb_eq.
  change (len_of (@nil Z)) with 0 in Hc. lia.
Qed.

Lemma ranges_length l : len_of (group_ranges 0 (kinds_multis groups l)) = len_of (kinds_multis groups l).
Proof. unfold len_of. by rewrite group_ranges_length. Qed.

Lemma read_ranges_section : decode_posting_ranges r = Ok ranges.
Proof.
  destruct (kw_range_count _ _ _ Hx) as [Hc Hmax]. pose proof (len_of_nonneg (kinds_multis groups ks)).
  unfold decode_posting_ranges. eapply bind_Ok. eexists. split; [exact Hranges|].
  cbn [section_bytes section_row_count]. rewrite Hc, (kw_ranges _ _ _ Hx).
  unfold usize_max, u64_max, u32_max, ks in *.
  assert (len_of (concat (encode_range <$> ranges)) = len_of (kinds_multis groups ALL_INDEX_KINDS) * 12) as Hl.
  { rewrite (concat_length _ 12), <- ranges_length; [done|]. apply encode_range_length. }
  step_ok (len_of (kinds_multis groups ALL_INDEX_KINDS)).
  { apply ok_or_try_from. split; [done|]. unfold usize_max, u64_max. lia. }
  step_ok (len_of (kinds_multis groups ALL_INDEX_KINDS) * 12).
  { apply checked_mul_usize_Ok. split; [done|]. unfold usize_max, u64_max, DISK_POSTING_RANGE_LEN. lia. }
  step_ok tt; [apply guard_err_Ok, negb_false_iff, Z.eqb_eq; exact Hl|].
  unfold read_all. rewrite (consumes_all _ _ ranges); [done| |].
  - rewrite <- ranges_length. unfold len_of. rewrite Nat2Z.id. fold ks. fold ranges.
    apply consumes_each. intros q Hq.
    pose proof (group_ranges_bounds n 0 _ Hn ltac:(done) (kinds_multis_ids ks)) as Hb.
    pose proof (kw_u32 _ _ _ Hx) as Hu. fold ks in Hu. fold ranges in Hu, Hb. rewrite Forall_forall in Hb, Hu.
    destruct (Hb _ Hq) as (? & ? & ?). destruct (Hu _ Hq). unfold u32_max in *. apply consumes_range; unfold u32_max; lia.
  - change (len_of (concat (encode_range <$> ranges)) ≤ usize_max). rewrite Hl.
    unfold usize_max, u64_max. lia.
Qed.

Lemma read_postings_section :
  decode_posting_row_ids r =
  Ok (DeltaVarint (group_postings (kinds_multis groups ks)) (group_overflow (kinds_multis groups ks))).
Proof.
  unfold decode_posting_row_ids. eapply bind_Ok. eexists. split; [exact Hpostings|]. rewrite Hversion.
  cbn [section_bytes section_row_count]. rewrite (kw_postings _ _ _ Hx).
  by destruct (kw_posting_count _ _ _ Hx) as [-> _].
Qed.
(** ** The layout *)

Let keys := kinds_keys groups ks.
Let postings := group_postings (kinds_multis groups ks).

Lemma keys_max : len_of keys ≤ usize_max.
Proof. unfold keys, ks. by rewrite <- (kw_keys _ _ _ Hx). Qed.

Lemma postings_max : len_of postings ≤ usize_max.
Proof. unfold postings, ks. by rewrite <- (kw_postings _ _ _ Hx). Qed.

Lemma kind_written k : k ∈ ks →
  snapshot_key_width k (group_of groups k) = Ok (kind_width groups k) ∧ len_of (group_of groups k) ≤ u32_max.
Proof. pose proof (kw_widths _ _ _ Hx) as Hw. rewrite Forall_forall in Hw. apply Hw. Qed.

Lemma entry_describes pre k :
  describes k (kind_width groups k) (entry_after groups pre k) (group_of groups k)
    (len_of (kinds_keys groups pre)) (len_of (kinds_multis groups pre)).
Proof. by split. Qed.

Lemma before_max pre k post : ks = pre ++ k :: post →
  len_of (kinds_keys groups pre) + len_of (group_keys k (kind_width groups k) (group_of groups k)) ≤ len_of keys ∧
  len_of (kinds_multis groups pre) + len_of (multis (group_of groups k)) ≤ len_of (kinds_multis groups ks) ∧
  kinds_count groups pre + len_of (group_of groups k) ≤ kinds_count groups ks.
Proof.
  intros E. unfold keys. rewrite E. change (k :: post) with ([k] ++ post).
  rewrite !kinds_keys_app, !kinds_multis_app, !kinds_count_app, !len_of_app, kinds_keys_one, kinds_multis_one,
    kinds_count_one.
  pose proof (len_of_nonneg (kinds_keys groups post)). pose proof (len_of_nonneg (kinds_multis groups post)).
  pose proof (kinds_count_keys post). lia.
Qed.

Record layout_so_far (pre : list SnapshotIndexKind) (t : LayoutTotals) : Prop := {
  lt_keys : total_keys t = kinds_count groups pre;
  lt_ranges : total_ranges t = len_of (kinds_multis groups pre);
  lt_key_spans : covering (key_spans t) (len_of (kinds_keys groups pre));
  lt_range_spans : covering (range_spans t) (len_of (kinds_multis groups pre))
}.

Lemma layout_step pre k post t :
  ks = pre ++ k :: post → layout_so_far pre t →
  ∃ t', layout_entry (len_of keys) (len_of ranges) t (entry_after groups pre k) = Ok t' ∧
        layout_so_far (pre ++ [k]) t'.
Proof.
  intros Eks [Hk Hr Hks Hrs]. destruct (before_max _ _ _ Eks) as (Hbk & Hbr & Hbc).
  destruct (kind_written k) as [Hw Hg]. { rewrite Eks, elem_of_app. right. by left. }
  pose proof keys_max as Hkm. pose proof (kinds_count_keys ks) as Hck.
  destruct (kw_range_count _ _ _ Hx) as [_ Hrm]. fold ks in Hrm.
  pose proof (len_of_nonneg (kinds_keys groups pre)). pose proof (len_of_nonneg (kinds_multis groups pre)).
  set (gk := group_keys k (kind_width groups k) (group_of groups k)) in *. pose proof (len_of_nonneg gk).
  pose proof (len_of_nonneg (multis (group_of groups k))).
  pose proof (ranges_length ks) as Hrl. fold ranges in Hrl.
  eexists. split.
  - unfold layout_entry. cbn [entry_after de_encoding de_key_count de_posting_range_count].
    fold keys in Hck. unfold usize_max, u64_max, u32_max in *.
    step_ok (total_keys t + len_of (group_of groups k)).
    { apply ok_or_Ok, checked_add_Some. unfold u64_max. split; [done|lia]. }
    step_ok (total_ranges t + len_of (multis (group_of groups k))).
    { apply ok_or_Ok, checked_add_Some. unfold u64_max. split; [done|lia]. }
    step_ok (len_of (kinds_keys groups pre), len_of (kinds_keys groups pre) + len_of gk).
    { unfold compact_index_key_span. eapply bind_Ok. eexists.
      split; [eapply compact_spans_read; [apply entry_describes|apply group_nonempty|..]|done]; try done.
      fold gk. unfold usize_max, u64_max. lia. }
    step_ok tt; [apply guard_err_Ok, Z.ltb_ge; cbn [snd]; lia|].
    step_ok (len_of (kinds_multis groups pre), len_of (kinds_multis groups pre) + len_of (multis (group_of groups k))).
    { unfold index_range_span. cbn [entry_after de_posting_range_start de_posting_range_count].
      step_ok (len_of (kinds_multis groups pre)).
      { apply ok_or_try_from. unfold usize_max, u64_max. split; [done|lia]. }
      step_ok (len_of (multis (group_of groups k))).
      { apply ok_or_try_from. unfold usize_max, u64_max. split; [done|lia]. }
      eapply bind_Ok. eexists. split; [|done]. apply checked_add_usize_Ok. unfold usize_max, u64_max.
      split; [done|lia]. }
    step_ok tt; [apply guard_err_Ok, Z.ltb_ge; cbn [snd]; lia|done].
  - split; cbn [total_keys total_ranges key_spans range_spans].
    + by rewrite Hk, kinds_count_app, kinds_count_one.
    + by rewrite Hr, kinds_multis_app, kinds_multis_one, len_of_app.
    + rewrite kinds_keys_app, kinds_keys_one, len_of_app. fold gk. apply covering_snoc; [done|lia].
    + rewrite kinds_multis_app, kinds_multis_one, len_of_app. apply covering_snoc; [done|lia].
Qed.

Lemma layout_fold pre post t :
  ks = pre ++ post → layout_so_far pre t →
  ∃ t', try_fold (layout_entry (len_of keys) (len_of ranges)) t (entries_after groups pre post) = Ok t' ∧
        layout_so_far ks t'.
Proof.
  revert pre t. induction post as [|k post IH]; intros pre t E Ht.
  { exists t. split; [done|]. by rewrite E, app_nil_r. }
  destruct (layout_step _ _ _ _ E Ht) as (t1 & E1 & Ht1).
  destruct (IH (pre ++ [k]) t1) as (t2 & E2 & Ht2); [by rewrite <- app_assoc|done|].
  exists t2. split; [|done]. cbn [entries_after try_fold]. by rewrite E1.
Qed.

Lemma posting_spans_cover es off spans :
  covering spans off → 0 ≤ off → off + len_of (group_postings es) ≤ len_of postings →
  Forall (λ e : Entry, e.2 ≠ [] ∧ row_ids_ok n e.2) es →
  ∃ spans', try_fold (posting_span (len_of postings) n) spans (group_ranges off es) = Ok spans' ∧
            covering spans' (off + len_of (group_postings es)).
Proof.
  revert off spans. induction es as [|e es IH]; intros off spans Hc Hoff Hmax Hall.
  { exists spans. split; [done|]. cbn. by rewrite Z.add_0_r. }
  apply Forall_cons in Hall as [[Hne [_ Hb]] Hall].
  change (e :: es) with ([e] ++ es) in *. rewrite group_postings_app, group_postings_one, len_of_app in *.
  pose proof (len_of_nonneg (posting_bytes e.2)) as Hp. pose proof (len_of_nonneg (group_postings es)).
  pose proof postings_max. cbn [app group_ranges try_fold].
  set (last := off + len_of (posting_bytes e.2)) in *.
  set (spans1 := if len_of (posting_bytes e.2) =? 0 then spans else spans ++ [(off, last)]).
  assert (covering spans1 last) as Hc1.
  { unfold spans1. destruct (Z.eqb_spec (len_of (posting_bytes e.2)) 0) as [Hz|Hz].
    - unfold last. by rewrite Hz, Z.add_0_r.
    - apply covering_snoc; [done|]. unfold last. lia. }
  destruct (IH last spans1 Hc1) as (spans2 & E2 & Hc2); [unfold last; lia..|done|].
  exists spans2. split; [|by replace (off + (len_of (posting_bytes e.2) + len_of (group_postings es)))
    with (last + len_of (group_postings es)) by (unfold last; lia)].
  step_ok spans1; [|done]. unfold posting_span, range_at.
  cbn [range_first_row_id range_overflow_start range_overflow_len].
  step_ok (Z.to_pos (List.hd 0 e.2)).
  { destruct (e.2) as [|first rest]; [done|]. apply Forall_cons in Hb as [? _]. cbn [List.hd].
    apply row_from_raw_Ok. split_and!; [done|lia..]. }
  step_ok off; [apply ok_or_try_from; split; [done|lia]|].
  step_ok (len_of (posting_bytes e.2)); [apply ok_or_try_from; split; [done|lia]|].
  step_ok last; [apply checked_add_usize_Ok; split; [done|lia]|].
  step_ok tt; [apply guard_err_Ok, Z.ltb_ge; unfold last; lia|done].
Qed.

Lemma read_layout :
  validate_index_section_layout (entries_after groups [] ks) (CompactKeys keys (kinds_count groups ks)) ranges
    (DeltaVarint postings (group_overflow (kinds_multis groups ks))) n = Ok tt.
Proof.
  unfold validate_index_section_layout, validate_v3_compact_index_sections.
  destruct (layout_fold [] ks (mkTotals 0 0 [] []) eq_refl) as (t & E & [Hk Hr Hks Hrs]).
  { split; try done; apply covering_nil. }
  destruct (kw_range_count _ _ _ Hx) as [_ Hrm]. fold ks in Hrm.
  pose proof (ranges_length ks) as Hrl. fold ranges in Hrl.
  step_ok t; [done|]. step_ok tt; [by apply guard_err_Ok, negb_false_iff, Z.eqb_eq|].
  step_ok (len_of ranges).
  { apply ok_or_try_from. rewrite Hrl. unfold u64_max, u32_max in *. split; [done|lia]. }
  step_ok tt; [apply guard_err_Ok, negb_false_iff, Z.eqb_eq; by rewrite Hr|].
  step_ok tt; [by apply covering_accepted|]. step_ok tt; [apply covering_accepted; by rewrite Hrl|].
  unfold validate_v3_posting_row_id_spans.
  destruct (posting_spans_cover (kinds_multis groups ks) 0 []) as (spans & Es & Hc);
    [apply covering_nil|done|fold postings; lia|apply kinds_multis_ids|].
  step_ok spans; [exact Es|]. by apply covering_accepted.
Qed.

(** ** The entries of an index *)

(** The kinds written before a kind. *)
Definition kinds_before (k : SnapshotIndexKind) : list SnapshotIndexKind :=
  take (Z.to_nat (index_kind_raw k) - 1) ALL_INDEX_KINDS.
Definition kinds_from (k : SnapshotIndexKind) : list SnapshotIndexKind :=
  drop (Z.to_nat (index_kind_raw k)) ALL_INDEX_KINDS.

Lemma kinds_split k : ks = kinds_before k ++ k :: kinds_from k.
Proof. by destruct k. Qed.

Lemma find_kind k :
  List.find (λ e, bool_decide (de_kind e = k)) (entries_after groups [] ks) =
  Some (entry_after groups (kinds_before k) k).
Proof. by destruct k. Qed.

(** Where the posting bytes of a kind start. *)
Definition posting_start (k : SnapshotIndexKind) : Z :=
  len_of (group_postings (kinds_multis groups (kinds_before k))).

Lemma read_entries input k :
  in_directory input = entries_after groups [] ks →
  in_keys input = CompactKeys keys (kinds_count groups ks) → in_ranges input = ranges →
  snapshot_index_entries input k = Ok (group_entries (posting_start k) (group_of groups k)).
Proof.
  intros Ed Ek Er. unfold snapshot_index_entries. rewrite Ed, Ek, Er, find_kind.
  step_ok (entry_after groups (kinds_before k) k); [done|].
  destruct (kind_written k) as [Hw Hg]; [rewrite (kinds_split k), elem_of_app; right; by left|].
  pose proof keys_max as Hkm. destruct (kw_range_count _ _ _ Hx) as [_ Hrm]. fold ks in Hrm.
  rewrite <- (ranges_length ks) in Hrm. fold ranges in Hrm.
  assert (keys = kinds_keys groups (kinds_before k) ++
    group_keys k (kind_width groups k) (group_of groups k) ++ kinds_keys groups (kinds_from k)) as Hkeys'.
  { unfold keys. rewrite (kinds_split k) at 1. change (k :: kinds_from k) with ([k] ++ kinds_from k).
    by rewrite !kinds_keys_app, kinds_keys_one. }
  assert (ranges = group_ranges 0 (kinds_multis groups (kinds_before k)) ++
    group_ranges (posting_start k) (multis (group_of groups k)) ++
    group_ranges (posting_start k + len_of (group_postings (multis (group_of groups k))))
      (kinds_multis groups (kinds_from k))) as Hranges'.
  { unfold ranges. rewrite (kinds_split k) at 1. change (k :: kinds_from k) with ([k] ++ kinds_from k).
    by rewrite !kinds_multis_app, kinds_multis_one, !group_ranges_app. }
  rewrite Hkeys', Hranges' in *. apply compact_entries_read; [apply Hok|..]; try done.
  - apply (group_width_fits k); [done|]. apply (go_shape _ _ (Hok k)).
  - rewrite ranges_length. apply entry_describes.
  - unfold usize_max, u64_max, u32_max in *. lia.
Qed.

Lemma read_postings k :
  Forall2 (λ entry e, item_key entry = e.1 ∧
      posting_row_ids (item_range entry)
        (DeltaVarint postings (group_overflow (kinds_multis groups ks))) n = Ok (Ok <$> (Z.to_pos <$> e.2)))
    (group_entries (posting_start k) (group_of groups k)) (group_of groups k).
Proof.
  pose proof postings_max as Hm.
  assert (postings = group_postings (kinds_multis groups (kinds_before k)) ++
    group_postings (multis (group_of groups k)) ++ group_postings (kinds_multis groups (kinds_from k))) as Hp.
  { unfold postings. rewrite (kinds_split k) at 1. change (k :: kinds_from k) with ([k] ++ kinds_from k).
    by rewrite !kinds_multis_app, kinds_multis_one, !group_postings_app. }
  rewrite Hp in *. by apply group_entries_postings.
Qed.
End sections.
