(* ===== verification/SnapshotStoreSave.v ===== *)
(** * The store of a saved snapshot

    Every index written from the rows is accepted: each key is a key of its rows,
    no row id is listed twice for a key, and every row is covered. The sections
    written from a store are decoded, under full validation, to a store with the
    same symbols and the live rows renumbered. *)

From S2P Require Import Prelude Model Domain StoreTypes Interner LiveRows Posting Row Identity.
From S2P Require Import Store StoreInv StoreView Legacy SnapshotBytes Snapshot SnapshotProps.
From S2P Require Import SnapshotSymbols SnapshotIndexes SnapshotDataProps SnapshotDataSave.
From S2P Require Import SnapshotIndexProps SnapshotStore SnapshotLoad.
From S2P Require Import SnapshotGroups SnapshotIndexSave.

Local Open Scope Z_scope.

(** ** What a decoder must accept *)

(** The keys written for a row in the index of a profile are read and cover it. *)
Record decoder_accepts {K} (d : SnapshotIndexDecoder K) (p : IndexProfile) : Prop := {
  da_key n row key :
    symbols_below n row → key ∈ disk_keys (sd_kind d) p (disk_row row) →
    (∃ k, sd_key_from_disk d key n = Ok k) ∧ sd_row_matches_key d row key = true ∧
    sd_coverage_bit d row key ≠ 0;
  da_cover row i :
    0 ≤ i → sd_required_by_profile d p = true → Z.testbit (sd_expected_mask d row) i = true →
    ∃ key, key ∈ disk_keys (sd_kind d) p (disk_row row) ∧ sd_coverage_bit d row key = 2 ^ i;
  da_unused row : sd_required_by_profile d p = false → disk_keys (sd_kind d) p (disk_row row) = []
}.

Lemma group_overflow_multis g : Forall (λ e, e.2 ≠ []) g → group_overflow (multis g) = group_overflow g.
Proof.
  induction 1 as [|e g He _ IH]; [done|]. rewrite multis_cons by done. unfold group_overflow in *.
  destruct (is_single e) eqn:Es; cbn [foldr]; rewrite IH; [|done].
  unfold is_single in Es. destruct e as [k [|x [|y ids]]]; try done.
Qed.

Lemma group_overflow_nonneg g : 0 ≤ group_overflow g.
Proof.
  unfold group_overflow. induction g as [|e g IH]; cbn [foldr]; [done|].
  pose proof (len_of_nonneg (tail e.2)). lia.
Qed.

Lemma land_clear mask i : 0 ≤ i → Z.testbit mask i = false → Z.land mask (2 ^ i) = 0.
Proof.
  intros Hi Hm. apply Z.bits_inj'. intros j Hj. rewrite Z.land_spec, Z.testbit_0_l, Z.pow2_bits_eqb by done.
  destruct (Z.eqb_spec i j) as [<-|_]; [by rewrite Hm|apply andb_false_r].
Qed.

Section accept.
Context {K : Type} `{Countable K, SortKey K}.
Context (d : SnapshotIndexDecoder K) (keys : RelationshipRow → list K) (bit : RelationshipRow → K → Z).
Hypothesis Hd : decoder_laws d keys bit.
Context (p : IndexProfile).
Hypothesis Ha : decoder_accepts d p.
Context (input : SnapshotIndexDecodeInput) (g : IndexGroup).

Let rows := in_rows input.
Let n := in_symbol_count input.

Hypothesis Hbelow : Forall (symbols_below n) rows.
Hypothesis Hg : grouped (disk_keys (sd_kind d) p) (disk_row <$> rows) g.
Context (entries : list SnapshotIndexEntry).
Hypothesis Hentries : Forall2 (λ entry e, item_key entry = e.1 ∧
  posting_row_ids (item_range entry) (in_posting_row_ids input) (in_row_count input) =
    Ok (Ok <$> (Z.to_pos <$> e.2))) entries g.
Hypothesis Hkeys : Forall key_ok g.*1.

(** A row id of a group is that of a row with the key. *)
Lemma group_row e x :
  e ∈ g → x ∈ e.2 →
  ∃ row, rows !! id_index (Z.to_pos x) = Some row ∧ e.1 ∈ disk_keys (sd_kind d) p (disk_row row) ∧ 0 < x.
Proof.
  intros He Hx. destruct e as [key ids]. destruct (grouped_positions _ _ _ _ _ Hg He) as [-> _].
  apply elem_of_positions in Hx as (i & r & Hi & Hk & ->).
  apply list_lookup_fmap_Some in Hi as (row & -> & Hi). exists row.
  replace (id_index (Z.to_pos (Z.of_nat i + 1))) with i by (unfold id_index; lia). split_and!; [done..|lia].
Qed.

(** The keys of the group, as read. *)
Lemma typed_keys :
  ∃ typed, Forall2 (λ e k, sd_key_from_disk d e.1 n = Ok k) g typed ∧ NoDup typed.
Proof.
  assert (∃ typed, Forall2 (λ e k, sd_key_from_disk d e.1 n = Ok k) g typed) as [typed Ht].
  { assert (∀ e, e ∈ g → ∃ k, sd_key_from_disk d e.1 n = Ok k) as Hall.
    { intros e He. pose proof (gr_nonempty _ _ _ Hg) as Hne. rewrite Forall_forall in Hne.
      specialize (Hne _ He). destruct (e.2) as [|x ids] eqn:Ee; [done|].
      destruct (group_row e x He) as (row & Hrow & Hk & _); [rewrite Ee; by left|].
      rewrite Forall_lookup in Hbelow. exact (proj1 (da_key _ _ Ha n row _ (Hbelow _ _ Hrow) Hk)). }
    clear -Hall. induction g as [|e g' IH]; [by exists []|].
    destruct (Hall e) as [k Hk]; [by left|].
    destruct IH as [typed Ht]; [intros e' He'; apply Hall; by right|]. exists (k :: typed). by constructor. }
  exists typed. split; [done|].
  assert (StronglySorted (λ x y : K, key_compare x y = Lt) typed) as Hs.
  { pose proof (sorted_typed d keys bit Hd input (single_item <$> g)
      ((λ k, (k, [])) <$> typed)) as Hsorted.
    rewrite <- list_fmap_compose in Hsorted. cbn in Hsorted.
    assert ((λ k : K, k) <$> typed = typed) as Eid by apply list_fmap_id.
    unfold compose in Hsorted. cbn [fst] in Hsorted. rewrite Eid in Hsorted. apply Hsorted.
    - unfold sorted_keys. rewrite <- list_fmap_compose.
      apply sorted_not_unsorted. exact (gr_sorted _ _ _ Hg).
    - apply Forall_fmap. rewrite Forall_fmap in Hkeys. exact Hkeys.
    - apply Forall2_fmap_2. exact Ht. }
  by apply strictly_sorted_NoDup.
Qed.

(** *** One row id *)

(** One more row id, but for the first. *)
Definition after_first {A} (L : list A) : Z := match L with [] => 0 | _ => 1 end.

Lemma decode_posting_accepts es s e k L q x :
  e ∈ g → x ∈ e.2 → sd_key_from_disk d e.1 n = Ok k →
  posting_read keys bit input es s k L q → k ∉ es.*1 → Z.to_pos x ∉ L →
  len_of (tail L) + after_first L ≤ u32_max → ps_count q + after_first L ≤ u64_max →
  ∃ q', decode_posting input d e.1 k q (Ok (Z.to_pos x)) = Ok q' ∧
        posting_read keys bit input es s k (L ++ [Z.to_pos x]) q' ∧
        ps_count q' = ps_count q + after_first L.
Proof.
  intros He Hx Hk Hread Hnew Hfresh Hlen Hcount.
  destruct (group_row e x He Hx) as (row & Hrow & Hkey & Hpos).
  pose proof Hbelow as Hb. rewrite Forall_lookup in Hb.
  destruct (da_key _ _ Ha n row e.1 (Hb _ _ Hrow) Hkey) as (_ & Hmatch & Hbit).
  destruct (dl_key _ _ _ Hd _ _ _ _ Hk Hmatch Hbit) as [Hin Hbv].
  destruct (dl_bit _ _ _ Hd _ _ Hin) as (i & Hi & Hpow & _).
  pose proof Hread as [[Hml Hm] Hf _ [Hl _] _ _].
  destruct (lookup_lt_is_Some_2 (ps_coverage q) (id_index (Z.to_pos x))) as [mask Hmask].
  { rewrite Hml. by eapply lookup_lt_Some. }
  assert (Z.land mask (sd_coverage_bit d row e.1) = 0) as Hclear.
  { rewrite Hbv, Hpow. apply land_clear; [done|]. apply not_true_iff_false. intros Ht.
    apply (Hm _ _ _ Hmask Hi) in Ht as (k' & L' & row' & Hcov & Hr & Hrow' & Hk' & Hb').
    fold rows in Hrow'. rewrite Hrow in Hrow'. injection Hrow' as <-. rewrite index_id_index in Hr.
    assert (k' = k) as ->. { apply (dl_inj _ _ _ Hd row); [done|done|by rewrite Hb', Hpow]. }
    apply elem_of_app in Hcov as [Hcov|[= ->]%list_elem_of_singleton]; [|done].
    by apply (list_elem_of_fmap_2 fst) in Hcov. }
  assert (∃ q', decode_posting input d e.1 k q (Ok (Z.to_pos x)) = Ok q' ∧
    ps_count q' = ps_count q + after_first L) as (q' & E & Hc).
  { unfold decode_posting. cbn [mbind result_bind]. fold rows. rewrite Hrow. cbn [ok_or mbind result_bind].
    rewrite Hmatch, (proj2 (Z.eqb_neq _ _) Hbit). cbn [negb guard_err mbind result_bind].
    rewrite Hmask. cbn [ok_or mbind result_bind]. rewrite Hclear. cbn [negb Z.eqb guard_err mbind result_bind].
    rewrite Hf, Hl.
    destruct L as [|y L]; cbn [head hd_error tail after_first] in *; [eexists; split; [done|by rewrite Z.add_0_r]|].
    eexists. split.
    - step_ok (len_of L + 1); [apply ok_or_Ok; by apply checked_add_Some|].
      step_ok (ps_count q + 1); [apply ok_or_Ok; by apply checked_add_Some|done].
    - done. }
  exists q'. split; [done|]. split; [|done].
  destruct (decode_posting_step d keys bit Hd input _ _ _ _ _ _ _ _ Hk Hread E) as (r & [= <-] & Hread').
  done.
Qed.
(** *** One entry *)

Lemma tail_snoc_length {A} (l : list A) x :
  len_of (tail (l ++ [x])) = len_of (tail l) + after_first l.
Proof. destruct l; [done|]. cbn [tail app]. by rewrite len_of_app. Qed.

Lemma tail_app_le {A} (l k : list A) : len_of (tail l) ≤ len_of (tail (l ++ k)).
Proof.
  destruct l; cbn [tail app]; [apply len_of_nonneg|]. rewrite len_of_app.
  pose proof (len_of_nonneg k). lia.
Qed.

Lemma group_ids_NoDup e : e ∈ g → NoDup (Z.to_pos <$> e.2).
Proof.
  intros He. assert (StronglySorted Z.lt e.2) as Hs.
  { destruct e as [key ids]. destruct (grouped_positions _ _ _ _ _ Hg He) as [-> _].
    apply positions_increasing. }
  assert (Forall (λ x, 0 < x) e.2) as Hpos.
  { apply Forall_forall. intros x Hx. by destruct (group_row e x He Hx) as (? & _ & _ & ?). }
  clear -Hs Hpos. induction Hs as [|x l Hs IH Hx]; [constructor|].
  apply Forall_cons in Hpos as [Hx0 Hpos]. cbn. constructor; [|by apply IH].
  intros (y & Hxy & Hy)%list_elem_of_fmap. rewrite Forall_forall in Hx, Hpos.
  specialize (Hx _ Hy). specialize (Hpos _ Hy). cbn in *. lia.
Qed.

(** The rest of the row ids of an entry, after those in [L]. *)
Lemma decode_postings_accept es s e k rest L q :
  e ∈ g → sd_key_from_disk d e.1 n = Ok k → k ∉ es.*1 → e.2 = L ++ rest →
  posting_read keys bit input es s k (Z.to_pos <$> L) q →
  len_of (tail e.2) ≤ u32_max → ps_count q = st_count s + len_of (tail L) →
  st_count s + len_of (tail e.2) ≤ u64_max →
  ∃ q', try_fold (decode_posting input d e.1 k) q (Ok <$> (Z.to_pos <$> rest)) = Ok q' ∧
        posting_read keys bit input es s k (Z.to_pos <$> e.2) q' ∧
        ps_count q' = st_count s + len_of (tail e.2).
Proof.
  intros He Hk Hnew. revert L q. induction rest as [|x rest IH]; intros L q EL Hread Hlen Hc Hcount.
  { rewrite app_nil_r in EL. rewrite EL. by exists q. }
  assert (x ∈ e.2) as Hx by (rewrite EL, elem_of_app; right; by left).
  pose proof (tail_app_le (L ++ [x]) rest) as Hle. rewrite <- app_assoc in Hle. cbn [app] in Hle.
  rewrite <- EL, tail_snoc_length in Hle.
  assert (len_of (tail (Z.to_pos <$> L)) = len_of (tail L)) as Htl
    by (destruct L; [done|]; unfold len_of; cbn; by rewrite length_fmap).
  assert (after_first (Z.to_pos <$> L) = after_first L) as Hone by by destruct L.
  destruct (decode_posting_accepts es s e k (Z.to_pos <$> L) q x) as (q1 & E1 & Hread1 & Hc1);
    rewrite ?Htl, ?Hone in *; try done; try lia.
  { pose proof (group_ids_NoDup e He) as Hnd. rewrite EL, fmap_app in Hnd.
    apply NoDup_app in Hnd as (_ & Hdis & _). intros Hin. apply (Hdis _ Hin). by left. }
  destruct (IH (L ++ [x]) q1) as (q2 & E2 & Hread2 & Hc2); try done.
  - by rewrite <- app_assoc.
  - by rewrite fmap_app.
  - rewrite tail_snoc_length. lia.
  - exists q2. split; [|done]. cbn [fmap list_fmap try_fold]. by rewrite E1.
Qed.

Lemma decode_entry_accepts es s entry e k :
  e ∈ g → item_key entry = e.1 →
  posting_row_ids (item_range entry) (in_posting_row_ids input) (in_row_count input) =
    Ok (Ok <$> (Z.to_pos <$> e.2)) →
  sd_key_from_disk d e.1 n = Ok k → k ∉ es.*1 → entries_read keys bit input es s →
  len_of (st_overflow s) + len_of (tail e.2) ≤ u32_max → st_count s + len_of (tail e.2) ≤ u64_max →
  ∃ s', decode_entry input d s entry = Ok s' ∧
    entries_read keys bit input (es ++ [(k, Z.to_pos <$> e.2)]) s' ∧
    len_of (st_overflow s') = len_of (st_overflow s) + len_of (tail e.2) ∧
    st_count s' = st_count s + len_of (tail e.2).
Proof.
  intros He Hkey Hitems Hk Hnew Hread Hover Hcount.
  pose proof (len_of_nonneg (st_overflow s)). pose proof (len_of_nonneg (tail e.2)).
  destruct (decode_postings_accept es s e k e.2 []
    (mkPostingState (st_coverage s) None (st_overflow s) 0 (st_latency s) (st_count s)))
    as (q & E & Hq & Hc); [done..|by apply posting_read_start|lia|by cbn; rewrite Z.add_0_r|lia|].
  pose proof (gr_nonempty _ _ _ Hg) as Hne. rewrite Forall_forall in Hne. specialize (Hne _ He).
  destruct e as [key [|first rest]]; [done|]. cbn [fst snd tail] in *.
  assert (decode_entry input d s entry = Ok (mkDecodeState (ps_coverage q) (st_keys s ++ [k])
    (st_ranges s ++ [mkRange (Z.to_pos first) (len_of (st_overflow s)) (ps_overflow_len q)])
    (ps_overflow q) (ps_latency q) (ps_count q))) as Edec.
  { unfold decode_entry. fold n. rewrite Hkey. step_ok k; [done|].
    eapply bind_Ok. eexists. split; [exact Hitems|].
    step_ok (len_of (st_overflow s)); [apply ok_or_try_from; split; [done|lia]|].
    step_ok q; [exact E|]. rewrite (pr_first _ _ _ _ _ _ _ _ Hq). by step_ok (Z.to_pos first). }
  eexists. split; [exact Edec|]. cbn [st_overflow st_count]. split; [|split; [|done]].
  - apply entry_read; [done|done|done| |lia].
    by apply (posting_row_ids_increasing _ _ _ _ Hitems).
  - rewrite (pr_overflow _ _ _ _ _ _ _ _ Hq), len_of_app. cbn [fmap list_fmap tail].
    unfold len_of. by rewrite length_fmap.
Qed.
(** *** All entries *)

(** The entries read when the keys are [typed]. *)
Definition as_read (typed : list K) : list (Decoded K) := zip typed ((λ e : Entry, Z.to_pos <$> e.2) <$> g).

Lemma as_read_lookup typed i k e :
  typed !! i = Some k → g !! i = Some e → as_read typed !! i = Some (k, Z.to_pos <$> e.2).
Proof. intros Hk He. unfold as_read. apply lookup_zip_Some. by rewrite list_lookup_fmap, He. Qed.

Record read_to (typed : list K) (start : Z) (i : nat) (s : DecodeState K) : Prop := {
  rt_entries : entries_read keys bit input (take i (as_read typed)) s;
  rt_overflow : len_of (st_overflow s) = group_overflow (take i g);
  rt_count : st_count s = start + group_overflow (take i g)
}.

Lemma group_overflow_take i : group_overflow (take i g) ≤ group_overflow g.
Proof.
  rewrite <- (take_drop i g) at 2. rewrite group_overflow_app. pose proof (group_overflow_nonneg (drop i g)). lia.
Qed.

Lemma take_snoc_overflow i e :
  g !! i = Some e → group_overflow (take (S i) g) = group_overflow (take i g) + len_of (tail e.2).
Proof.
  intros He. rewrite (take_S_r _ _ _ He), group_overflow_app. unfold group_overflow at 2. cbn [foldr]. lia.
Qed.

Lemma decode_entries_accept typed start s0 :
  Forall2 (λ e k, sd_key_from_disk d e.1 n = Ok k) g typed → NoDup typed →
  0 ≤ start → start + group_overflow g ≤ u32_max → read_to typed start 0 s0 →
  ∃ s, try_fold (decode_entry input d) s0 entries = Ok s ∧ read_to typed start (length g) s.
Proof.
  intros Htyped Hnd Hstart Hmax Hs0.
  destruct (try_fold_total (decode_entry input d) (λ pre, read_to typed start (length pre)) s0 entries)
    as (s & E & Hs); [done| |].
  - intros pre entry post s Epre Hs. rewrite length_app, Nat.add_1_r.
    assert (entries !! length pre = Some entry) as Hentry by by rewrite Epre, list_lookup_middle.
    destruct (Forall2_lookup_l _ _ _ _ _ Hentries Hentry) as (e & He & Hkey & Hitems).
    destruct (Forall2_lookup_l _ _ _ _ _ Htyped He) as (k & Hk & Hread).
    destruct Hs as [Hes Hover Hcount]. pose proof (take_snoc_overflow _ _ He) as Hnext.
    pose proof (group_overflow_take (S (length pre))) as Hle.
    pose proof (group_overflow_nonneg (take (length pre) g)). unfold u32_max in *.
    pose proof (as_read_lookup _ _ _ _ Hk He) as Hlast.
    destruct (decode_entry_accepts (take (length pre) (as_read typed)) s entry e k) as (s' & E' & Hes' & Ho' & Hc');
      try done; try (unfold u32_max, u64_max; lia).
    + by eapply list_elem_of_lookup_2.
    + intros Hin. apply list_elem_of_fmap in Hin as ([k' L] & Ek & Hin). cbn in Ek. subst k'.
      apply list_elem_of_lookup in Hin as [j Hj]. apply lookup_take_Some in Hj as [Hj Hlt].
      unfold as_read in Hj. apply lookup_zip_Some in Hj as [Hj _].
      pose proof (NoDup_lookup _ _ _ _ Hnd Hk Hj). lia.
    + exists s'. split; [done|]. split.
      * by rewrite (take_S_r _ _ _ Hlast).
      * lia.
      * lia.
  - exists s. split; [done|]. by rewrite (Forall2_length _ _ _ Hentries) in Hs.
Qed.

(** *** Coverage *)

Lemma covers_exactly typed j row i :
  Forall2 (λ e k, sd_key_from_disk d e.1 n = Ok k) g typed → rows !! j = Some row → 0 ≤ i →
  covers rows keys bit (as_read typed) j i ↔
  Z.testbit (if sd_required_by_profile d p then sd_expected_mask d row else 0) i = true.
Proof.
  intros Htyped Hj Hi. split.
  - intros (k & L & row' & Hin & Hr & Hrow' & Hk & Hb). rewrite Hj in Hrow'. injection Hrow' as <-.
    destruct (dl_bit _ _ _ Hd _ _ Hk) as (i' & Hi' & Hpow & Ht). rewrite Hb in Hpow.
    apply Z.pow_inj_r in Hpow as ->; [|lia..]. destruct (sd_required_by_profile d p) eqn:Ep; [done|]. exfalso.
    unfold as_read in Hin. apply list_elem_of_lookup in Hin as [m Hm]. apply lookup_zip_Some in Hm as [_ Hm].
    apply list_lookup_fmap_Some in Hm as (e & -> & He). apply list_elem_of_fmap in Hr as (x & _ & Hx).
    destruct (group_row e x) as (row2 & _ & Hkey & _); [by eapply list_elem_of_lookup_2|done|].
    rewrite (da_unused _ _ Ha) in Hkey by done. by apply elem_of_nil in Hkey.
  - destruct (sd_required_by_profile d p) eqn:Ep; [|by rewrite Z.testbit_0_l]. intros Ht.
    destruct (da_cover _ _ Ha row i Hi Ep Ht) as (key & Hkey & Hbit).
    destruct (grouped_covers _ _ _ j (disk_row row) key Hg) as (ids & Hin & Hid);
      [by rewrite list_lookup_fmap, Hj|done|].
    apply list_elem_of_lookup in Hin as [m Hm].
    destruct (Forall2_lookup_l _ _ _ _ _ Htyped Hm) as (k & Hk & Hread).
    pose proof Hbelow as Hb. rewrite Forall_lookup in Hb.
    destruct (da_key _ _ Ha n row key (Hb _ _ Hj) Hkey) as (_ & Hmatch & Hne).
    destruct (dl_key _ _ _ Hd _ _ _ _ Hread Hmatch Hne) as [Hin Hbv].
    exists k, (Z.to_pos <$> ids), row. split; [exact (list_elem_of_lookup_2 _ _ _ (as_read_lookup _ _ _ _ Hk Hm))|].
    split; [|split; [done|split; [done|cbn [fst] in Hbv; congruence]]].
    apply list_elem_of_fmap. exists (Z.of_nat j + 1). split; [unfold index_id; lia|done].
Qed.

Lemma coverage_accepted typed (s : DecodeState K) :
  Forall2 (λ e k, sd_key_from_disk d e.1 n = Ok k) g typed →
  masks_ok rows keys bit (as_read typed) (st_coverage s) →
  try_for (check_coverage d p) (zip rows (st_coverage s)) = Ok tt.
Proof.
  intros Htyped [Hlen Hm]. apply try_for_Ok, Forall_lookup. intros j [row mask] Hz.
  apply lookup_zip_Some in Hz as [Hrow Hmask]. apply guard_err_Ok, negb_false_iff, Z.eqb_eq. cbn [fst snd].
  apply Z.bits_inj'. intros i Hi. apply eq_true_iff_eq.
  by rewrite (Hm _ _ _ Hmask Hi), covers_exactly.
Qed.
(** An index written from the rows is accepted; [count] goes up by the row ids
    that follow the first of each key. *)
Lemma decode_index_accepts count :
  in_validation input = ValidationFull → in_index_profile input = p →
  snapshot_index_entries input (sd_kind d) = Ok entries →
  0 ≤ count → count + group_overflow g ≤ u32_max →
  ∃ q, decode_index input d count = Ok (q, count + group_overflow g).
Proof.
  intros Hv Hp He Hc Hmax. destruct typed_keys as (typed & Htyped & Hnd).
  set (s0 := mkDecodeState (replicate (length (in_rows input)) 0) [] [] [] posting_default count : DecodeState K).
  destruct (decode_entries_accept typed count s0) as (s & E & [Hes Hover Hcount]); try done.
  { split; cbn; [|done|by rewrite Z.add_0_r]. split; cbn; [apply masks_start|done|constructor| |constructor].
    unfold latency_index. by destruct (in_profile input). }
  assert (take (length g) (as_read typed) = as_read typed) as Eall.
  { apply take_ge. unfold as_read. rewrite length_zip, length_fmap. lia. }
  rewrite Eall in Hes. rewrite firstn_all in Hcount.
  pose proof (coverage_accepted typed s Htyped (er_masks _ _ _ _ _ Hes)) as Hcov.
  eexists. unfold decode_index. rewrite Hv, Hp.
  step_ok entries; [exact He|]. cbn [andb bool_decide]. rewrite bool_decide_eq_false_2 by done. cbn [andb].
  step_ok s; [exact E|]. step_ok tt; [exact Hcov|]. by rewrite Hcount.
Qed.
End accept.

(** ** The seven decoders *)

Lemma testbit_one i : 0 ≤ i → Z.testbit 1 i = true → 1 = 2 ^ i.
Proof. intros Hi Ht. change 1 with (2 ^ 0) in Ht at 1. rewrite Z.pow2_bits_eqb in Ht by done.
  by apply Z.eqb_eq in Ht as <-. Qed.

Lemma testbit_three i : 0 ≤ i → Z.testbit 3 i = true → 1 = 2 ^ i ∨ 2 = 2 ^ i.
Proof.
  intros Hi Ht. change 3 with (Z.lor (2 ^ 0) (2 ^ 1)) in Ht. rewrite Z.lor_spec, !Z.pow2_bits_eqb in Ht by done.
  apply orb_true_iff in Ht as [<-%Z.eqb_eq|<-%Z.eqb_eq]; [by left|by right].
Qed.

(** Read back the symbols of a row. *)
Ltac read_symbols :=
  repeat (rewrite symbol_from_raw by done; cbn [mbind result_bind fmap result_fmap]).

(** An index with one key per row. *)
Ltac one_key_accepts decoder from_disk matches p :=
  unfold decoder; split; cbn [sd_kind sd_key_from_disk sd_row_matches_key sd_coverage_bit sd_expected_mask
    sd_required_by_profile]; unfold disk_keys;
  [ let Hk := fresh "Hk" in
    intros n row key (? & ? & ? & ? & ? & ?) Hk; destruct p;
    cbn [supports_broad_resource_indexes supports_subject_reverse_lookup] in Hk;
    try (by apply elem_of_nil in Hk);
    apply list_elem_of_singleton in Hk as ->; unfold from_disk, matches;
    cbn [key_first key_second key_third disk_row disk_resource_type disk_resource_id disk_relation
         disk_subject_type];
    rewrite ?Z.eqb_refl; cbn [ensure_zero Z.eqb mbind result_bind andb];
    (split; [read_symbols; by eexists|split; [done|done]])
  | let Hp := fresh "Hp" in let Ht := fresh "Ht" in
    intros row i Hi Hp Ht; apply testbit_one in Ht; [|done];
    unfold simple_index_coverage_bit; rewrite <- Ht; rewrite ?Hp; eexists;
    (split; [by apply list_elem_of_singleton|done])
  | let Hp := fresh "Hp" in intros row Hp; by rewrite ?Hp ].

Lemma resource_index_accepts p : decoder_accepts resource_decoder p.
Proof. one_key_accepts resource_decoder resource_key_from_disk row_matches_resource_key p. Qed.

Lemma resource_object_index_accepts p : decoder_accepts resource_object_decoder p.
Proof.
  one_key_accepts resource_object_decoder resource_object_key_from_disk row_matches_resource_object_key p.
Qed.

Lemma resource_type_relation_index_accepts p : decoder_accepts resource_type_relation_decoder p.
Proof.
  one_key_accepts resource_type_relation_decoder resource_type_relation_key_from_disk
    row_matches_resource_type_relation_key p.
Qed.

Lemma resource_type_index_accepts p : decoder_accepts resource_type_decoder p.
Proof.
  one_key_accepts resource_type_decoder resource_type_key_from_disk row_matches_resource_type_key p.
Qed.

Lemma subject_type_index_accepts p : decoder_accepts subject_type_decoder p.
Proof. one_key_accepts subject_type_decoder subject_type_key_from_disk row_matches_subject_type_key p. Qed.

Lemma subject_index_accepts p : decoder_accepts subject_decoder p.
Proof.
  unfold subject_decoder. split; cbn [sd_kind sd_key_from_disk sd_row_matches_key sd_coverage_bit
    sd_expected_mask sd_required_by_profile]; unfold disk_keys;
    cbn [disk_row disk_subject_type disk_subject_id disk_subject_relation].
  - intros n row key (_ & _ & _ & ? & ? & Hrel). destruct (supports_subject_reverse_lookup p);
      [|by intros ?%elem_of_nil].
    unfold subject_key_from_disk, row_matches_subject_key, subject_index_coverage_bit.
    destruct (row_subject_relation row) as [rel|]; cbn [Z.eqb].
    + intros [->| ->%list_elem_of_singleton]%elem_of_cons; cbn [key_first key_second key_third Z.eqb];
        rewrite ?Z.eqb_refl, ?Pos.eqb_refl; (split; [read_symbols; by eexists|done]).
    + intros ->%list_elem_of_singleton. cbn [key_first key_second key_third Z.eqb]. rewrite ?Z.eqb_refl, ?Pos.eqb_refl.
      split; [read_symbols; by eexists|done].
  - intros row i Hi Hp Ht. rewrite Hp. unfold subject_expected_mask, subject_index_coverage_bit in *.
    destruct (row_subject_relation row) as [rel|]; cbn [Z.eqb].
    + apply testbit_three in Ht as [<-|<-]; [| |done].
      * eexists. split; [right; by left|done].
      * eexists. split; [by left|]. cbn [key_third Z.eqb]. by rewrite Pos.eqb_refl.
    + apply testbit_one in Ht as <-; [|done]. eexists. by split; [left|].
  - intros row Hp. by rewrite Hp.
Qed.

Lemma subject_type_relation_index_accepts p : decoder_accepts subject_type_relation_decoder p.
Proof.
  unfold subject_type_relation_decoder. split; cbn [sd_kind sd_key_from_disk sd_row_matches_key sd_coverage_bit
    sd_expected_mask sd_required_by_profile]; unfold disk_keys;
    cbn [disk_row disk_subject_type disk_subject_relation].
  - intros n row key (_ & _ & _ & ? & _ & Hrel). destruct (supports_subject_reverse_lookup p);
      [|by intros ?%elem_of_nil].
    unfold subject_type_relation_key_from_disk, row_matches_subject_type_relation_key.
    destruct (row_subject_relation row) as [rel|]; cbn [Z.eqb negb andb]; [|by intros ?%elem_of_nil].
    intros ->%list_elem_of_singleton. cbn [key_first key_second key_third]. rewrite ?Z.eqb_refl, ?Pos.eqb_refl.
    cbn [ensure_zero Z.eqb mbind result_bind]. split; [read_symbols; by eexists|done].
  - intros row i Hi Hp Ht. rewrite Hp. unfold subject_type_relation_expected_mask, simple_index_coverage_bit in *.
    destruct (row_subject_relation row) as [rel|]; cbn [Z.eqb negb andb]; [|by rewrite Z.testbit_0_l in Ht].
    apply testbit_one in Ht as <-; [|done]. eexists. by split; [left|].
  - intros row Hp. by rewrite Hp.
Qed.

(** ** The indexes *)

Lemma disk_keys_shape k p n row key :
  symbols_below n row → n ≤ u32_max → key ∈ disk_keys k p (disk_row row) → key_shape k key ∧ key_ok key.
Proof.
  intros (? & ? & ? & ? & ? & Hrel) Hn Hk. unfold disk_keys in Hk.
  cbn [disk_row disk_resource_type disk_resource_id disk_relation disk_subject_type disk_subject_id
       disk_subject_relation] in Hk.
  assert (0 ≤ match row_subject_relation row with Some rel => Zpos rel | None => 0 end ≤ u32_max) as Hrel'.
  { destruct (row_subject_relation row); unfold u32_max; [unfold u32_max in *|]; lia. }
  set (rel := match row_subject_relation row with Some rel => Zpos rel | None => 0 end) in *. clearbody rel.
  assert (∀ a b c, key = mkDiskKey a b c → 0 ≤ a ≤ u32_max → 0 ≤ b ≤ u32_max → 0 ≤ c ≤ u32_max →
    (key_field_count k < 2 → b = 0) → (key_field_count k < 3 → c = 0) → key_shape k key ∧ key_ok key) as Hmk.
  { intros a b c -> ? ? ? Hb Hc. split; [by split|]. unfold key_ok. cbn. lia. }
  destruct k, (supports_broad_resource_indexes p), (supports_subject_reverse_lookup p); cbn [andb] in Hk;
    repeat case_match; try (by apply elem_of_nil in Hk);
    repeat (apply elem_of_cons in Hk as [Hk|Hk]); try (by apply elem_of_nil in Hk);
    (eapply Hmk; [exact Hk|..]); cbn; unfold u32_max in *; lia.
Qed.

Definition kind_overflow (groups : SnapshotIndexGroups) (k : SnapshotIndexKind) : Z :=
  group_overflow (group_of groups k).

Lemma kinds_overflow groups ks :
  (∀ k, Forall (λ e, e.2 ≠ []) (group_of groups k)) →
  group_overflow (kinds_multis groups ks) = foldr (λ k n, kind_overflow groups k + n) 0 ks.
Proof.
  intros Hne. unfold kinds_multis. induction ks as [|k ks IH]; [done|].
  cbn [fmap list_fmap concat foldr]. by rewrite group_overflow_app, group_overflow_multis, IH.
Qed.

Section indexes.
Context (rows : list RelationshipRow) (p : IndexProfile) (x : EncodedSnapshotIndexes) (symbols : Z).
Hypothesis Hbelow : Forall (symbols_below symbols) rows.
Hypothesis Hsymbols : symbols ≤ u32_max.
Hypothesis Hx : encoded_from_rows (disk_row <$> rows) p = Ok x.
Context (r : SnapshotReader).
Hypothesis Hversion : format_version (reader_header r) = V3.
Hypothesis Hcount : relationship_count (reader_header r) = len_of rows.
Hypothesis Hsyms : symbol_count (reader_header r) = symbols.
Hypothesis Hprofile : header_index_profile (reader_header r) = p.
Hypothesis Hdir : reader_section r IndexDirectory = Ok (mkSection (ei_directory x) 0 SNAPSHOT_INDEX_KIND_COUNT).
Hypothesis Hkeys : reader_section r IndexKeys = Ok (mkSection (buf_keys (ei_buffers x)) 0 (ei_key_count x)).
Hypothesis Hranges : reader_section r PostingRanges =
  Ok (mkSection (buf_ranges (ei_buffers x)) 0 (ei_range_count x)).
Hypothesis Hpostings : reader_section r PostingRowIds =
  Ok (mkSection (buf_posting_row_ids (ei_buffers x)) 0 (ei_posting_row_id_count x)).
Hypothesis Hkeys_max : len_of (buf_keys (ei_buffers x)) ≤ usize_max.
Hypothesis Hpostings_max : len_of (buf_posting_row_ids (ei_buffers x)) ≤ usize_max.

Lemma saved_groups :
  ∃ groups, kinds_written groups ALL_INDEX_KINDS x ∧ len_of rows ≤ u32_max ∧
    ∀ k, grouped (disk_keys k p) (disk_row <$> rows) (group_of groups k).
Proof.
  unfold encoded_from_rows in Hx. apply bind_Ok in Hx as (groups & Hg & E).
  apply group_rows_grouped in Hg as [Hl Hg]. apply write_kinds in E.
  exists groups. unfold len_of in *. by rewrite length_fmap in Hl.
Qed.

Lemma group_entries_ok k g :
  grouped (disk_keys k p) (disk_row <$> rows) g → len_of rows ≤ u32_max →
  group_ok k g ∧ Forall (λ e, e.2 ≠ [] ∧ row_ids_ok (len_of rows) e.2) g ∧ Forall key_ok g.*1.
Proof.
  intros Hg Hcap.
  assert (Forall (λ e, e.2 ≠ [] ∧ row_ids_ok (len_of rows) e.2) g) as Hids.
  { apply Forall_forall. intros [key ids] He. destruct (grouped_positions _ _ _ _ _ Hg He) as [-> Hne].
    split; [done|]. split; [apply positions_increasing|]. apply Forall_forall.
    intros y (i & row & Hi%lookup_lt_Some & _ & ->)%elem_of_positions. rewrite length_fmap in Hi.
    unfold len_of. lia. }
  assert (∀ key, key ∈ g.*1 → key_shape k key ∧ key_ok key) as Hshape.
  { intros key (e & -> & He)%list_elem_of_fmap. destruct e as [key ids].
    destruct (grouped_positions _ _ _ _ _ Hg He) as [-> Hne].
    destruct (positions _ _ key) as [|y l] eqn:Ep; [done|].
    assert (y ∈ positions (disk_keys k p) (disk_row <$> rows) key) as Hy by (rewrite Ep; by left).
    apply elem_of_positions in Hy as (i & dr & Hi & Hk & _).
    apply list_lookup_fmap_Some in Hi as (row & -> & Hi). rewrite Forall_lookup in Hbelow.
    exact (disk_keys_shape k p symbols row key (Hbelow _ _ Hi) Hsymbols Hk). }
  split_and!; [|done|].
  - split; [apply Hg|apply Hg| |].
    + apply Forall_forall. intros key Hk. by apply Hshape.
    + eapply Forall_impl; [exact Hids|]. intros e (_ & _ & Hb). eapply Forall_impl; [exact Hb|].
      cbn. intros y ?. lia.
  - apply Forall_forall. intros key Hk. by apply Hshape.
Qed.

(** What the decoders are given. *)
Definition saved_input (groups : SnapshotIndexGroups) (profile : SnapshotLoadProfile)
    : SnapshotIndexDecodeInput :=
  mkDecodeInput (entries_after groups [] ALL_INDEX_KINDS)
    (CompactKeys (kinds_keys groups ALL_INDEX_KINDS) (kinds_count groups ALL_INDEX_KINDS))
    (group_ranges 0 (kinds_multis groups ALL_INDEX_KINDS))
    (DeltaVarint (group_postings (kinds_multis groups ALL_INDEX_KINDS))
       (group_overflow (kinds_multis groups ALL_INDEX_KINDS)))
    rows (len_of rows) symbols p profile ValidationFull.

Lemma decode_saved_index {K} `{Countable K, SortKey K} (d : SnapshotIndexDecoder K) keys bit groups profile count :
  decoder_laws d keys bit → decoder_accepts d p → kinds_written groups ALL_INDEX_KINDS x →
  len_of rows ≤ u32_max → (∀ k, grouped (disk_keys k p) (disk_row <$> rows) (group_of groups k)) →
  0 ≤ count → count + kind_overflow groups (sd_kind d) ≤ u32_max →
  ∃ q, decode_index (saved_input groups profile) d count = Ok (q, count + kind_overflow groups (sd_kind d)).
Proof.
  intros Hd Ha Hw Hcap Hgrouped Hc Hmax.
  assert (∀ k, group_ok k (group_of groups k)) as Hok by (intros k; by apply group_entries_ok).
  assert (∀ k, Forall (λ e, e.2 ≠ [] ∧ row_ids_ok (len_of rows) e.2) (group_of groups k)) as Hids
    by (intros k; by apply (group_entries_ok k)).
  eapply (decode_index_accepts d keys bit Hd p Ha (saved_input groups profile)); try done.
  - by eapply read_postings.
  - by apply (group_entries_ok (sd_kind d)).
  - by eapply (read_entries groups).
Qed.

(** The next index, decoded from the count [c] of the rows before it to [c']. *)
Ltac decoded_index D dec laws accepts c q c' E :=
  let Hc := fresh "Hc" in
  destruct (D _ _ _ _ _ _ _ c laws accepts) as [q E]; [lia|cbn [sd_kind dec]; lia|];
  let k := eval cbn in (sd_kind dec) in change (sd_kind dec) with k in E;
  match type of E with _ = Ok (_, ?n) => remember n as c' eqn:Hc in E end.

(** The four index sections are accepted. *)
Lemma decode_saved_indexes profile : ∃ ix, decode_indexes r rows profile ValidationFull = Ok ix.
Proof.
  destruct saved_groups as (groups & Hw & Hcap & Hgrouped).
  assert (∀ k, group_ok k (group_of groups k)) as Hok by (intros k; by apply group_entries_ok).
  assert (∀ k, Forall (λ e, e.2 ≠ [] ∧ row_ids_ok (len_of rows) e.2) (group_of groups k)) as Hids
    by (intros k; by apply (group_entries_ok k)).
  assert (is_v3 r = true) as Hv3 by by apply bool_decide_eq_true.
  destruct (kw_posting_count _ _ _ Hw) as [_ Hmax].
  assert (group_overflow (kinds_multis groups ALL_INDEX_KINDS) =
    foldr (λ k n, kind_overflow groups k + n) 0 ALL_INDEX_KINDS) as Hsum.
  { apply kinds_overflow. intros k. apply (go_nonempty _ _ (Hok k)). }
  rewrite Hsum in Hmax. cbn [foldr ALL_INDEX_KINDS] in Hsum, Hmax.
  pose proof (λ k, group_overflow_nonneg (group_of groups k) : 0 ≤ kind_overflow groups k) as Hpos.
  pose proof (Hpos KResource). pose proof (Hpos KResourceObject). pose proof (Hpos KResourceTypeRelation).
  pose proof (Hpos KResourceType). pose proof (Hpos KSubject). pose proof (Hpos KSubjectTypeRelation).
  pose proof (Hpos KSubjectTypeIndex).
  pose proof (λ K EqK CK SK d keys bit c Hl Ha,
    @decode_saved_index K EqK CK SK d keys bit groups profile c Hl Ha Hw Hcap Hgrouped) as D.
  decoded_index D resource_decoder resource_laws (resource_index_accepts p) 0 q1 c1 E1.
  decoded_index D resource_object_decoder resource_object_laws (resource_object_index_accepts p) c1 q2 c2 E2.
  decoded_index D resource_type_relation_decoder resource_type_relation_laws
    (resource_type_relation_index_accepts p) c2 q3 c3 E3.
  decoded_index D resource_type_decoder resource_type_laws (resource_type_index_accepts p) c3 q4 c4 E4.
  decoded_index D subject_decoder subject_laws (subject_index_accepts p) c4 q5 c5 E5.
  decoded_index D subject_type_relation_decoder subject_type_relation_laws
    (subject_type_relation_index_accepts p) c5 q6 c6 E6.
  decoded_index D subject_type_decoder subject_type_laws (subject_type_index_accepts p) c6 q7 c7 E7.
  exists (mkIndexes q1 q2 q3 q4 q5 q6 q7). unfold decode_indexes. rewrite Hcount, Hsyms, Hprofile.
  eapply bind_Ok. eexists. split; [by eapply read_directory_section|].
  eapply bind_Ok. eexists. split; [by eapply read_keys_section|].
  eapply bind_Ok. eexists. split; [by eapply (read_ranges_section groups (len_of rows))|].
  eapply bind_Ok. eexists. split; [by eapply read_postings_section|].
  step_ok tt; [by eapply read_layout|]. fold (saved_input groups profile).
  rewrite E1. cbn [mbind result_bind]. rewrite E2. cbn [mbind result_bind]. rewrite E3. cbn [mbind result_bind].
  rewrite E4. cbn [mbind result_bind]. rewrite E5. cbn [mbind result_bind]. rewrite E6. cbn [mbind result_bind].
  rewrite E7. cbn [mbind result_bind].
  step_ok tt; [|done]. unfold validate_decoded_posting_row_id_count. cbn [mbind result_bind].
  apply guard_err_Ok, negb_false_iff, Z.eqb_eq. rewrite Hsum. lia.
Qed.
End indexes.

(** ** The sections of a store *)

Definition live_list (st : Store) : list RelationshipRow := filter (λ row, is_live st row = true) (rows st).

Section store.
Context `{Hasher}.

(** What the encoder of a store computes. *)
Record StoreParts := mkParts {
  part_table : list Z; part_table_flags : Z;
  part_hashes : list Z; part_lookup : list Z; part_lookup_flags : Z;
  part_indexes : EncodedSnapshotIndexes
}.

Definition store_payloads (st : Store) (layout : SnapshotEncodingLayout) (x : StoreParts) : list SectionPayload :=
  let n := len_of (entries (interner st)) in
  let w := snapshot_symbol_width n layout in
  let ix := part_indexes x in
  [mkPayload SymbolBytes 0 (str_bytes (bytes (interner st))) (len_of (str_bytes (bytes (interner st))));
   mkPayload SymbolTable (part_table_flags x) (part_table x) n;
   mkPayload SymbolHashes 0 (part_hashes x) n;
   mkPayload SymbolLookup (part_lookup_flags x) (part_lookup x) n;
   mkPayload RelationshipRows (width_flag_bits w) (concat (encode_row w <$> live_disk_rows st))
     (len_of (live_disk_rows st));
   mkPayload IndexDirectory 0 (ei_directory ix) SNAPSHOT_INDEX_KIND_COUNT;
   mkPayload IndexKeys 0 (buf_keys (ei_buffers ix)) (ei_key_count ix);
   mkPayload PostingRanges 0 (buf_ranges (ei_buffers ix)) (ei_range_count ix);
   mkPayload PostingRowIds 0 (buf_posting_row_ids (ei_buffers ix)) (ei_posting_row_id_count ix)].

Record parts_of (st : Store) (p : IndexProfile) (layout : SnapshotEncodingLayout) (x : StoreParts) : Prop := {
  pt_bytes_max : len_of (str_bytes (bytes (interner st))) ≤ u32_max;
  pt_table : encode_v3_symbol_table (entries (interner st)) (len_of (str_bytes (bytes (interner st)))) layout =
    Ok (part_table x, part_table_flags x);
  pt_lookup : encode_symbol_acceleration (interner st) layout =
    Ok (part_hashes x, part_lookup x, part_lookup_flags x);
  pt_entries_max : len_of (entries (interner st)) ≤ u32_max;
  pt_rows : ∃ row_len total,
    checked_mul_usize (width_byte_len (snapshot_symbol_width (len_of (entries (interner st))) layout)) 6 = Ok row_len ∧
    checked_mul usize_max (len_of (live_disk_rows st)) row_len = Some total;
  pt_indexes : encoded_from_rows (live_disk_rows st) p = Ok (part_indexes x)
}.

Lemma add_section_Ok k flags b n w w' :
  add_section_with_flags k flags b n w = Ok w' → w' = w ++ [mkPayload k flags b n].
Proof. unfold add_section_with_flags. by intros (_ & _ & [= <-])%bind_Ok. Qed.

Lemma encode_store_Ok st p layout w0 w :
  encode_store st p layout w0 = Ok w →
  ∃ x, parts_of st p layout x ∧ w = w0 ++ store_payloads st layout x.
Proof.
  unfold encode_store, add_section, count_u64. intros E.
  apply bind_Ok in E as (? & [-> Hb]%ok_or_try_from & E).
  apply bind_Ok in E as ([table tf] & Ht & E).
  apply bind_Ok in E as (? & [-> _]%ok_or_try_from & E). apply bind_Ok in E as (? & ->%add_section_Ok & E).
  apply bind_Ok in E as (? & [-> _]%ok_or_try_from & E). apply bind_Ok in E as (? & ->%add_section_Ok & E).
  apply bind_Ok in E as ([[hashes lookup] lf] & Hl & E).
  apply bind_Ok in E as (? & [-> _]%ok_or_try_from & E). apply bind_Ok in E as (? & ->%add_section_Ok & E).
  apply bind_Ok in E as (? & ->%add_section_Ok & E).
  apply bind_Ok in E as (? & [-> He]%ok_or_try_from & E).
  apply bind_Ok in E as (row_len & Hrl & E). apply bind_Ok in E as (total & Htotal%ok_or_Ok & E).
  apply bind_Ok in E as (? & [-> _]%ok_or_try_from & E). apply bind_Ok in E as (? & ->%add_section_Ok & E).
  apply bind_Ok in E as (ix & Hix & E). apply bind_Ok in E as (? & ->%add_section_Ok & E).
  apply bind_Ok in E as (? & ->%add_section_Ok & E). apply bind_Ok in E as (? & ->%add_section_Ok & E).
  apply add_section_Ok in E as ->. exists (mkParts table tf hashes lookup lf ix).
  split; [by split; try done; exists row_len, total|]. by rewrite <- !app_assoc.
Qed.

(** ** Loading the sections *)

Lemma omap_imap {A B C} (f : B → option C) (g : nat → A → B) (h : A → option C) (xs : list A) :
  (∀ i y, f (g i y) = h y) → omap f (imap g xs) = omap h xs.
Proof.
  revert g. induction xs as [|y xs IH]; intros g Hg; [done|]. rewrite imap_cons. cbn. rewrite Hg.
  rewrite (IH (g ∘ S)); [done|]. intros i z. apply Hg.
Qed.

Lemma live_list_pairs st l ps : store_rep st l ps → live_list st = (live_pairs st ps).*1.
Proof.
  intros Hst. unfold live_list, live_pairs. rewrite (sr_rows _ _ _ Hst). clear Hst.
  induction ps as [|q ps IH]; [done|]. cbn [fmap list_fmap]. rewrite !filter_cons.
  case_decide; cbn [fmap list_fmap]; [by f_equal|done].
Qed.

Lemma live_list_denotes st l ps : store_rep st l ps → Forall (λ row, ∃ rel, row_denotes l row rel) (live_list st).
Proof.
  intros Hst. rewrite (live_list_pairs _ _ _ Hst). apply Forall_forall.
  intros row ([row' rel] & -> & [_ Hin]%list_elem_of_filter)%list_elem_of_fmap. exists rel.
  pose proof (sr_denotes _ _ _ Hst) as Hd. rewrite Forall_forall in Hd. exact (Hd _ Hin).
Qed.

Lemma live_list_distinct st l ps : store_rep st l ps → NoDup (row_identity <$> live_list st).
Proof.
  intros Hst. rewrite (live_list_pairs _ _ _ Hst). pose proof (sr_unique _ _ _ Hst) as Hu.
  assert (Forall (λ q, row_denotes l q.1 q.2) (live_pairs st ps)) as Hd.
  { apply Forall_forall. intros q [_ Hin]%list_elem_of_filter.
    pose proof (sr_denotes _ _ _ Hst) as Hd. rewrite Forall_forall in Hd. by apply Hd. }
  unfold live_relationships in Hu. clear Hst. induction Hd as [|[row rel] qs Hq Hqs IH]; [constructor|].
  cbn [fmap list_fmap] in *. apply NoDup_cons in Hu as [Hnew Hu]. apply NoDup_cons. split; [|by apply IH].
  intros (row' & Hid & ([row2 rel2] & -> & Hin)%list_elem_of_fmap)%list_elem_of_fmap. apply Hnew.
  rewrite Forall_forall in Hqs. specialize (Hqs _ Hin). cbn in *. symmetry in Hid.
  apply (row_denotes_eqv l _ row rel2) in Hqs; [|done].
  rewrite (row_denotes_functional _ _ _ _ Hq Hqs). apply list_elem_of_fmap. by exists (row2, rel2).
Qed.

(** All the rows of a full bitmap are live. *)
Lemma renumbered_live st rows0 :
  rows st = imap renumber rows0 → live_rows st = live_full (length rows0) → live_list st = rows st.
Proof.
  intros Hr Hl. unfold live_list. apply filter_all. intros row Hin.
  rewrite Hr in Hin. apply list_elem_of_lookup in Hin as [i Hi].
  unfold is_live. rewrite (renumbered_ids _ _ _ Hi), Hl. unfold live_contains. cbn.
  rewrite id_index_id. apply Nat.ltb_lt. apply lookup_lt_Some in Hi. by rewrite length_imap in Hi.
Qed.

Lemma store_rows_copied st st' rows0 :
  bytes (interner st') = bytes (interner st) → entries (interner st') = entries (interner st) →
  live_list st = rows0 → rows st' = imap renumber rows0 → live_rows st' = live_full (length rows0) →
  store_rows st' = store_rows st.
Proof.
  intros Hb He Hl Hr Hf. unfold store_rows. fold (live_list st') (live_list st).
  rewrite (renumbered_live _ _ Hr Hf), Hr, Hl.
  apply omap_imap. intros i row. cbv beta. unfold relationship_from_row, resolve_ident, resolve.
  by rewrite Hb, He.
Qed.

Context (hash_u64 : ∀ s : string, 0 ≤ hash_value s ≤ u64_max).

Section saved.
Context {st : Store} {l : list string} {ps : list (RelationshipRow * Relationship)}.
Hypothesis Hst : store_rep st l ps.
Context (p : IndexProfile) (layout : SnapshotEncodingLayout) (x : StoreParts).
Hypothesis Hx : parts_of st p layout x.

Lemma entries_count : len_of (entries (interner st)) = len_of l.
Proof. unfold len_of. by rewrite (entries_length (sr_interner _ _ _ Hst)). Qed.

Lemma live_count_max : len_of (live_list st) ≤ u32_max.
Proof.
  pose proof (pt_indexes _ _ _ _ Hx) as E. apply bind_Ok in E as (groups & Hg & _).
  apply group_rows_grouped in Hg as [Hl _]. unfold len_of, live_disk_rows in *. by rewrite length_fmap in Hl.
Qed.

Lemma index_counts :
  0 ≤ ei_key_count (part_indexes x) ≤ u32_max ∧ 0 ≤ ei_range_count (part_indexes x) ≤ u32_max ∧
  0 ≤ ei_posting_row_id_count (part_indexes x) ≤ u32_max.
Proof.
  pose proof (pt_indexes _ _ _ _ Hx) as E. apply bind_Ok in E as (groups & Hg & E). apply write_kinds in E.
  destruct (kw_key_count _ _ _ E) as [-> ?], (kw_range_count _ _ _ E) as [-> ?], (kw_posting_count _ _ _ E) as [-> ?].
  pose proof (kinds_count_nonneg groups ALL_INDEX_KINDS). pose proof (len_of_nonneg (kinds_multis groups ALL_INDEX_KINDS)).
  pose proof (group_overflow_nonneg (kinds_multis groups ALL_INDEX_KINDS)). done.
Qed.

Lemma store_payloads_ok : Forall payload_ok (store_payloads st layout x).
Proof.
  assert (∀ w, 0 ≤ width_flag_bits w ≤ u16_max) as Hflags by by intros [].
  assert (∀ a b, 0 ≤ symbol_table_flags a b ≤ u16_max) as Htable by by intros [] [].
  pose proof (pt_entries_max _ _ _ _ Hx) as Hn. pose proof (len_of_nonneg (entries (interner st))).
  pose proof (pt_bytes_max _ _ _ _ Hx). pose proof (len_of_nonneg (str_bytes (bytes (interner st)))).
  pose proof live_count_max as Hl. pose proof (len_of_nonneg (live_list st)).
  assert (len_of (live_disk_rows st) = len_of (live_list st)) as Hd by by (unfold len_of, live_disk_rows; rewrite length_fmap).
  destruct index_counts as (? & ? & ?).
  pose proof (pt_table _ _ _ _ Hx) as Ht. unfold encode_v3_symbol_table in Ht.
  apply bind_Ok in Ht as (? & _ & Ht). apply bind_Ok in Ht as (? & _ & Ht). injection Ht as _ Ht.
  pose proof (pt_lookup _ _ _ _ Hx) as Hlk. unfold encode_symbol_acceleration in Hlk.
  do 5 apply bind_Ok in Hlk as (? & _ & Hlk). injection Hlk as _ _ Hlk.
  unfold store_payloads. rewrite <- Ht, <- Hlk, Hd.
  assert (∀ k f b n, 0 ≤ f ≤ u16_max → validate_section_flags V3 k f = Ok tt → 0 ≤ n ≤ u64_max →
    payload_ok (mkPayload k f b n)) as Hok by by split.
  assert (∀ k f, k ∈ [SymbolTable; RelationshipRows; SymbolLookup] → validate_section_flags V3 k f = Ok tt) as Hv.
  { intros k f Hk. unfold validate_section_flags. destruct (f =? 0); [done|].
    by repeat (apply elem_of_cons in Hk as [->|Hk]; [done|]); apply elem_of_nil in Hk. }
  unfold u64_max, u32_max in *.
  repeat (apply Forall_cons; split); [..|constructor]; apply Hok; try done; try (apply Hv; set_solver); try lia;
    try apply Hflags; try apply Htable; done.
Qed.

Context (r : SnapshotReader).
Hypothesis Hversion : format_version (reader_header r) = V3.
Hypothesis Hrows : relationship_count (reader_header r) = len_of (live_disk_rows st).
Hypothesis Hsyms : symbol_count (reader_header r) = len_of (entries (interner st)).
Hypothesis Hprofile : header_index_profile (reader_header r) = p.
Hypothesis Hsections : Forall (λ q, reader_section r (payload_kind q) = Ok (section_of q) ∧
  len_of (payload_bytes q) ≤ usize_max) (store_payloads st layout x).

(** The sections decode to a store with the relationships of the saved one. *)
Lemma decode_saved_store profile :
  ∃ st', decode_store r profile ValidationFull = Ok st' ∧ store_rows st' = store_rows st.
Proof.
  pose proof Hsections as Hall. unfold store_payloads in Hall.
  repeat match goal with H : Forall _ (_ :: _) |- _ =>
    apply Forall_cons in H as [[? ?] H] end.
  cbn [payload_kind payload_bytes payload_flags payload_row_count section_of] in *.
  pose proof (live_list_denotes _ _ _ Hst) as Hden. pose proof (live_list_distinct _ _ _ Hst) as Hnd.
  pose proof live_count_max as Hcap. pose proof entries_count as Hn.
  assert (live_disk_rows st = disk_row <$> live_list st) as Hdisk by done.
  assert (len_of (live_disk_rows st) = len_of (live_list st)) as Hlen
    by (rewrite Hdisk; unfold len_of; by rewrite length_fmap).
  destruct (decode_saved_interner hash_u64 (sr_interner _ _ _ Hst) r layout Hversion Hsyms
    (part_table x) (part_table_flags x) (part_hashes x) (part_lookup x) (part_lookup_flags x)
    (len_of (str_bytes (bytes (interner st))))) as (st' & Hi & Hb & He); try done.
  { apply Hx. } { apply Hx. }
  destruct (pt_rows _ _ _ _ Hx) as (row_len & total & Hrl & Htotal).
  set (w := snapshot_symbol_width _ _) in *.
  destruct (decode_saved_rows (sr_interner _ _ _ Hst) Hb He (live_list st) Hden Hnd Hcap w) with (r := r)
    (row_len := row_len) (total := total) as (d & Hd & Hdrows & Hdlive); try done.
  { intros v Hv. apply symbol_width_fits; [by rewrite Hn|apply Hx]. }
  { by rewrite Hsyms. } { by rewrite Hrows. } { by rewrite <- Hlen. } { by rewrite <- Hdisk, <- Hlen. }
  destruct (decode_saved_indexes (imap renumber (live_list st)) p (part_indexes x) (len_of (entries (interner st)))) with
    (r := r) (profile := profile) as [ix Hix]; try done.
  { rewrite Hn. apply Forall_forall. intros row (i & row' & -> & Hrow)%elem_of_lookup_imap.
    rewrite Forall_lookup in Hden. destruct (Hden _ _ Hrow) as [rel Hrel]. exact (denoted_below _ _ Hrel). }
  { apply Hx. } { rewrite renumbered_disk, <- Hdisk. apply Hx. }
  { rewrite Hrows, Hlen. unfold len_of. by rewrite length_imap. }
  eexists. split.
  - unfold decode_store. rewrite Hi. cbn [mbind result_bind]. rewrite Hd. cbn [mbind result_bind].
    rewrite Hdrows, Hix. done.
  - by eapply store_rows_copied.
Qed.
End saved.
End store.
