(* ===== verification/SnapshotFile.v ===== *)
(** * Saving and loading snapshot artifacts (src/src/snapshot.rs, src/src/lib.rs)

    A published snapshot to the bytes of an artifact and back, the zstd frame
    around them, the file operations of a save, and the writer a load starts. *)

From S2P Require Import Prelude Model Domain Revision StoreTypes Schema Store StoreView EvalContext.
From S2P Require Import Dsl Legacy Runtime Writer Policy.
From S2P Require Import SnapshotBytes Snapshot SnapshotSymbols SnapshotIndexes SnapshotStore.

Local Open Scope Z_scope.

(** ** The zstd frame *)

(** The zstd crate: the range of levels, [encode_all], and a [Decoder]: whether
    it can be created, the bytes it delivers and the error it may end with. *)
Class Zstd := {
  zstd_min_level : Z;
  zstd_max_level : Z;
  zstd_encode_all : list Z → Z → result string (list Z);
  zstd_decoder : list Z → result string (list Z * option string)
}.

Section zstd.
Context `{Zstd}.

Definition validate_compression_options (o : SnapshotSaveOptions) : sresult unit :=
  guard_err (bool_decide (save_compression o = CompressionZstd) &&
             negb (in_range zstd_min_level zstd_max_level (zstd_level o)))
    (SUnsupportedOption "zstd_level").

Definition encode_payload (bytes : list Z) (o : SnapshotSaveOptions) : sresult (list Z) :=
  match save_compression o with
  | CompressionNone => Ok bytes
  | CompressionZstd => map_err SIo (zstd_encode_all bytes (zstd_level o))
  end.

(** [decoder.take(read_limit).read_to_end(..)]: an error after the limit is not
    met. *)
Definition read_limited (out : list Z * option string) (read_limit : Z) : sresult (list Z) :=
  if read_limit <=? len_of out.1 then Ok (take (Z.to_nat read_limit) out.1) else
  match out.2 with
  | Some e => Err (SIo e)
  | None => Ok out.1
  end.

Definition decode_zstd_bounded (bytes : list Z) (max_file_bytes : NonZeroU64) : sresult (list Z) :=
  read_limit ← ok_or (checked_add u64_max (nzu64_get max_file_bytes) 1)
                 (SLimitExceeded "decompressed snapshot file");
  out ← map_err SIo (zstd_decoder bytes);
  output ← read_limited out read_limit;
  len ← checked_u64_from_usize (len_of output);
  _ ← guard_err (nzu64_get max_file_bytes <? len) (SLimitExceeded "decompressed snapshot file");
  Ok output.

Definition decode_payload (bytes : list Z) (o : SnapshotLoadOptions) : sresult (list Z) :=
  match load_compression o with
  | CompressionNone => Ok bytes
  | CompressionZstd => decode_zstd_bounded bytes (max_file_bytes o)
  end.

(** ** Reading a file *)

(** An open file: its metadata and the bytes that can be read from it, with the
    error that reading them may end with. *)
Record OpenFile := mkOpenFile {
  file_is_file : bool;
  file_len : Z;
  file_contents : list Z * option string
}.

(** [File::open] and [metadata]; [opened] is what they return. *)
Definition open_capped_file (opened : result string OpenFile) (max_file_bytes : NonZeroU64)
    : sresult (OpenFile * Z) :=
  handle ← map_err SIo opened;
  _ ← guard_err (negb (file_is_file handle)) (SFormat "snapshot path is not a regular file");
  _ ← guard_err (nzu64_get max_file_bytes <? file_len handle) (SLimitExceeded "snapshot file");
  Ok (handle, file_len handle).

(** [file.take(len).read_to_end(..)] *)
Definition read_file (handle : OpenFile) (len : Z) : sresult (list Z) :=
  read_limited (file_contents handle) len.

Definition read_capped_file (opened : result string OpenFile) (max_file_bytes : NonZeroU64)
    : sresult (list Z) :=
  '(handle, metadata_len) ← open_capped_file opened max_file_bytes;
  _ ← checked_usize_from_u64 metadata_len;
  bytes ← read_file handle metadata_len;
  len ← checked_u64_from_usize (len_of bytes);
  _ ← guard_err (negb (len =? metadata_len)) (SFormat "snapshot file changed during read");
  Ok bytes.

(** [read_decode_zstd_payload]: the decoder reads the file as it goes; a file
    error ends what it can decode. *)
Definition read_decode_zstd_payload (opened : result string OpenFile) (max_file_bytes : NonZeroU64)
    : sresult (list Z) :=
  '(handle, metadata_len) ← open_capped_file opened max_file_bytes;
  bytes ← read_file handle metadata_len;
  decode_zstd_bounded bytes max_file_bytes.

Definition read_decode_payload (opened : result string OpenFile) (o : SnapshotLoadOptions)
    : sresult (list Z) :=
  if bool_decide (load_compression o = CompressionZstd)
  then read_decode_zstd_payload opened (max_file_bytes o)
  else
    bytes ← read_capped_file opened (max_file_bytes o);
    decode_payload bytes o.
End zstd.

Section artifacts.
Context `{Hasher, HashOrder, Blake3, PestParser, Zstd}.

(** ** Bytes of an artifact *)

Definition artifact_id (s : PublishedSnapshot) : ArtifactId :=
  mkArtifactId (snapshot_schema_hash s) (snapshot_revision s).

(** The first half of [save_snapshot_file]: every section but the footer. *)
Definition snapshot_sections (s : PublishedSnapshot) (o : SnapshotSaveOptions) : sresult SectionWriter :=
  _ ← guard_err (negb (include_indexes o)) (SUnsupportedOption "include_indexes=false");
  _ ← validate_compression_options o;
  let schema_source := str_bytes (canonical_schema_source (snapshot_configs s)) in
  _ ← guard_err (MAX_SCHEMA_BYTES <? len_of schema_source) (SLimitExceeded "schema section");
  w ← add_section Schema schema_source 1 [];
  encode_view (snapshot_relationships s) (save_index_profile o) (section_layout o) w.

(** The bytes a save puts in the file. *)
Definition snapshot_bytes (s : PublishedSnapshot) (o : SnapshotSaveOptions) : sresult (list Z) :=
  w ← snapshot_sections s o;
  match save_compression o with
  | CompressionNone => stream_file_bytes (artifact_id s) w (save_index_profile o)
  | CompressionZstd =>
      bytes ← encode_file (artifact_id s) w (save_index_profile o);
      encode_payload bytes o
  end.

Record LoadedSnapshot := mkLoaded {
  loaded_configs : gmap string NamespaceConfig;
  loaded_schema : CompiledSchema;
  loaded_relationships : StoreView;
  loaded_revision : Revision;
  loaded_schema_hash : SchemaHash
}.

(** [load_snapshot_file_inner] after the payload was read; the timings are left
    out. *)
Definition load_payload (bytes : list Z) (o : SnapshotLoadOptions) : sresult LoadedSnapshot :=
  reader ← parse_reader bytes o;
  '(configs_vec, schema, schema_hash) ← compile_snapshot_schema reader;
  st ← decode_store reader (load_profile o) (validation o);
  Ok (mkLoaded (foldl insert_config ∅ configs_vec) schema (view_from_checkpoint st)
        (created_revision (reader_header reader)) schema_hash).

(** [load_snapshot_file] *)
Definition load_snapshot_file (opened : result string OpenFile) (o : SnapshotLoadOptions)
    : sresult LoadedSnapshot :=
  _ ← validate_load_options o;
  bytes ← read_decode_payload opened o;
  load_payload bytes o.

(** ** The writer of a loaded snapshot *)

(** [one_snapshot_retention] *)
Definition one_snapshot_retention : NonZeroUsize := mkNonZeroUsize 1 I.

(** [WriterState::load_snapshot_with_publisher]: [fresh] is the datastore id
    the new writer draws, [a] the cell it publishes to. *)
Definition writer_of_loaded (l : LoadedSnapshot) (fresh : DatastoreId) (a : SharedEngineState)
    (cells : Cells) : World :=
  let snapshot := mkSnapshot (loaded_revision l) (loaded_schema_hash l) (loaded_configs l)
                    (loaded_schema l) (loaded_relationships l) in
  let s := with_snapshot_retention_and_publisher one_snapshot_retention fresh a in
  let s := mkWriter (loaded_configs l) (Some (loaded_schema l)) (loaded_relationships l)
             (Some snapshot) (snapshot_history s ++ [snapshot]) (datastore_id s)
             (retained_snapshots s) (Some (loaded_revision l)) (evaluation_limits s)
             (published_state s) in
  mkWorld s (publish_current_engine_state s cells).

Definition load_snapshot_with_publisher (opened : result string OpenFile) (o : SnapshotLoadOptions)
    (fresh : DatastoreId) (a : SharedEngineState) (cells : Cells) : sresult World :=
  l ← load_snapshot_file opened o;
  Ok (writer_of_loaded l fresh a cells).

(** [ZanzibarEngine::load_snapshot] *)
Definition load_snapshot (opened : result string OpenFile) (o : SnapshotLoadOptions)
    (fresh : DatastoreId) (cells : Cells) : sresult World :=
  let '(a, cells) := cell_new cells in
  load_snapshot_with_publisher opened o fresh a cells.
End artifacts.
