(* ===== verification/SnapshotLoadProps.v ===== *)
(** * Loading an artifact, verified

    What is known of the engine's state after a load under full validation,
    whatever bytes were loaded. *)

From S2P Require Import Prelude Model Domain Revision StoreTypes Schema Store StoreView.
From S2P Require Import Interner Posting Row StoreInv Dsl Legacy Runtime Writer SnapshotBytes Snapshot SnapshotProps.
From S2P Require Import SnapshotDataProps SnapshotStore SnapshotLoad SnapshotFile.

Local Open Scope Z_scope.

Section load.
Context `{Hasher, HashOrder, Blake3, PestParser, Zstd}.

Lemma parsed_reader_ok bytes mode r : reader_parse bytes mode = Ok r → bytes_ok bytes → reader_ok r.
Proof.
  intros E Hb. destruct (accepted_sections _ _ _ E Hb) as (place & Hp & _).
  destruct (reader_parse_Ok _ _ _ E Hb) as [(header & Hg & Hh)%bind_Ok _].
  apply ok_or_Ok in Hg. apply get_range_bytes_ok in Hg; [|done..].
  destruct (yields_all _ _ _ _ (yields_header _) Hg Hh) as [Hrows Hsyms].
  split; [|done..]. intros k s Hs. destruct (Hp k) as (s' & Hs' & Hk & Hr & _).
  rewrite Hs in Hs'. injection Hs' as <-.
  apply get_range_bytes_ok in Hr; [done|lia| |done]. pose proof (len_of_nonneg (section_bytes s)). lia.
Qed.

(** What an accepted payload and the state loaded from it have to do with each
    other; [p] is the profile of the artifact, [strings] its symbols and [ps] its
    rows with the relationships they stand for. *)
Record load_sound (bytes : list Z) (o : SnapshotLoadOptions) (x : LoadedSnapshot) (h : SnapshotHeader)
    (source : string) (st : Store) (strings : list string)
    (ps : list (RelationshipRow * Relationship)) : Prop := {
  ls_header : parse_header bytes = Ok h;
  ls_sealed : integrity o = Checksum → ∃ prefix, bytes = sealed prefix;
  ls_profile : satisfies (header_index_profile h) (required_index_profile o) = true;
  ls_revision : loaded_revision x = created_revision h;
  ls_source : ∃ configs, parse_dsl source = Ok configs ∧
    compile_legacy_configs configs = Ok (loaded_schema x) ∧
    loaded_configs x = foldl insert_config ∅ configs;
  ls_source_len : len_of (str_bytes source) ≤ MAX_SCHEMA_BYTES;
  ls_hash : loaded_schema_hash x = hash_for_schema (loaded_schema x) ∧
    loaded_schema_hash x = header_schema_hash h;
  ls_store : loaded_relationships x = view_from_checkpoint st;
  ls_rows : loaded_sound (header_index_profile h) st strings ps;
  ls_count : len_of ps = relationship_count h
}.

Lemma load_payload_facts bytes o x :
  bytes_ok bytes → validation o = ValidationFull → load_payload bytes o = Ok x →
  ∃ h source st strings ps, load_sound bytes o x h source st strings ps.
Proof.
  intros Hb Hv E. unfold load_payload in E. rewrite Hv in E.
  apply bind_Ok in E as (r & (r' & Hr & E1)%bind_Ok & E).
  apply bind_Ok in E1 as ([] & Hp%guard_err_Ok%negb_false_iff & [= ->]).
  apply bind_Ok in E as ([[configs schema] hash] & Hschema & E).
  apply bind_Ok in E as (st & Hst & [= <-]).
  pose proof (parsed_reader_ok _ _ _ Hr Hb) as Hok.
  destruct (decode_store_sound _ _ _ Hok Hst) as (strings & ps & Hsound & Hcount).
  destruct (reader_parse_Ok _ _ _ Hr Hb) as (Hh & entries & _ & _ & _ & Hfooter).
  apply footer_sound in Hfooter as (prefix & footer & _ & _ & _ & Hseal).
  unfold compile_snapshot_schema in Hschema.
  apply bind_Ok in Hschema as (section & Hsection & E).
  apply bind_Ok in E as ([] & Hlen%guard_err_Ok%Z.ltb_ge & E).
  apply bind_Ok in E as ([] & _ & E).
  apply bind_Ok in E as (cs & Hcs%map_err_Ok & E). apply bind_Ok in E as (c & Hc%map_err_Ok & E).
  apply bind_Ok in E as ([] & Hhash & [= <- <- <-]).
  apply guard_err_Ok, negb_false_iff, bool_decide_eq_true in Hhash.
  exists (reader_header r), (bytes_str (section_bytes section)), st, strings, ps.
  split; try done.
  - intros Hi. exists prefix. by apply Hseal.
  - by exists cs.
  - rewrite str_bytes_str; [done|]. by apply (ro_bytes _ Hok _ _ Hsection).
Qed.

(** C25: whatever bytes are given, a payload accepted under full validation gives a
    state that is right: its seal holds when checksums are asked for, its index
    profile serves what the caller requires, revision and row count are those of
    the header, the schema is the compiled schema section and hashes to what the
    header says, the rows are valid references to distinct symbols and stand for
    distinct relationships, all of them live, and each index kept by the profile
    lists exactly the rows of its keys; with a full profile, when the symbols use
    up the symbol bytes, the store meets the invariant of every store that
    mutations build. *)
Theorem load_payload_sound bytes o x :
  bytes_ok bytes → validation o = ValidationFull → load_payload bytes o = Ok x →
  ∃ h source st strings ps, load_sound bytes o x h source st strings ps.
Proof. apply load_payload_facts. Qed.

(** ** What a narrow artifact cannot answer *)

Lemma no_postings {K} `{Countable K} `{SortKey K} (q : PostingIndex K) rows k :
  indexed_by q (λ _, []) rows → candidate_items (posting_candidates q k) = [].
Proof.
  intros [_ E]. change (posting q k = []). rewrite E. clear E.
  induction rows as [|row rows IH]; [done|]. by rewrite filter_cons_False by apply not_elem_of_nil.
Qed.

(** Only the resource and relation of a filter together have an index. *)
Definition has_narrow_index (f : RelationshipFilter) : bool :=
  bool_decide (is_Some (rf_optional_resource_id f)) && bool_decide (is_Some (rf_optional_relation f)).

Lemma opt_lookup_is_Some st o x : opt_lookup st o = Some x → is_Some x ↔ is_Some o.
Proof.
  destruct o as [v|]; cbn; [|by intros [= <-]].
  destruct (lookup st v) as [k|]; [|done]. intros [= <-]. by split; eexists.
Qed.

Lemma narrow_no_match p st l ps f :
  loaded_sound p st l ps → p ≠ Full → has_narrow_index f = false →
  view_any_resource_match (view_from_checkpoint st) f = false.
Proof.
  intros Hs Hp Hf. pose proof (ld_indexes _ _ _ _ Hs) as [_ Ho Hr Ht _ _ _].
  apply bool_decide_eq_false. unfold view_query, view_iter. cbn.
  unfold query_compact_relationships, resource_iter.
  destruct (resource_matcher st f) as [m|] eqn:Em; [|by intros [? ?]].
  unfold resource_matcher in Em. apply bind_Some in Em as (t & _ & Em).
  apply bind_Some in Em as (i & Hi%opt_lookup_is_Some & Em).
  apply bind_Some in Em as (rel & Hrel%opt_lookup_is_Some & Em).
  apply bind_Some in Em as (sub & _ & [= <-]).
  match goal with |- context [resource_candidate_row_ids st ?m] =>
    assert (candidate_items (resource_candidate_row_ids st m) = []) as ->; [|by intros [? ?]] end.
  unfold resource_candidate_row_ids. cbn [rm_optional_resource_id rm_optional_relation rm_resource_type].
  rewrite fmap_is_Some in Hi. setoid_rewrite (fmap_is_Some (B:=string)) in Hrel. unfold has_narrow_index in Hf.
  destruct i as [i|], rel as [rel|].
  - rewrite !bool_decide_eq_true_2 in Hf by naive_solver. done.
  - by destruct p; [done|eapply no_postings..].
  - by destruct p; [done|eapply no_postings..].
  - by destruct p; [done|eapply no_postings..].
Qed.

(** C29: an engine loaded from an artifact of a narrow profile finds no row for a
    precondition that does not name both the resource and the relation, whatever
    rows it holds: every [MustNotMatch] of that form passes and every [MustMatch]
    fails, without the typed error of an unsupported operation. *)
Theorem narrow_load_preconditions bytes o x h f :
  bytes_ok bytes → validation o = ValidationFull → load_payload bytes o = Ok x →
  parse_header bytes = Ok h → header_index_profile h ≠ Full → has_narrow_index f = false →
  view_check_precondition (loaded_relationships x) (MustNotMatch f) = Ok tt ∧
  view_check_precondition (loaded_relationships x) (MustMatch f) = Err (PreconditionFailed (MustMatch f)).
Proof.
  intros Hb Hv E Hh Hp Hf.
  destruct (load_payload_facts _ _ _ Hb Hv E) as (h' & source & st & strings & ps & Hs).
  pose proof (ls_header _ _ _ _ _ _ _ _ Hs) as Hh'. rewrite Hh in Hh'. injection Hh' as <-.
  rewrite (ls_store _ _ _ _ _ _ _ _ Hs). unfold view_check_precondition.
  by rewrite (narrow_no_match _ _ _ _ _ (ls_rows _ _ _ _ _ _ _ _ Hs) Hp Hf).
Qed.
End load.
