(* ===== verification/Disk.v ===== *)
(** * Files (the parts of [std::fs] and [std::path] the engine uses)

    A file system as a map from paths to files and directories. Every call takes
    the next fate it was dealt, so it can fail, or stop in the middle of a
    write; the states the file system was in between calls are kept, since the
    process may die in any of them. *)

From S2P Require Import Prelude.

Local Open Scope Z_scope.

(** ** Paths *)

Inductive PathComponent := RootDir | CurDir | ParentDir | Normal (name : string).

#[global] Instance PathComponent_eq_dec : EqDecision PathComponent.
Proof. solve_decision. Defined.
#[global] Instance PathComponent_countable : Countable PathComponent.
Proof.
  refine (inj_countable'
    (λ c, match c with RootDir => inl 0%nat | CurDir => inl 1%nat | ParentDir => inl 2%nat
                  | Normal name => inr name end)
    (λ c, match c with inl 0%nat => RootDir | inl 1%nat => CurDir | inl _ => ParentDir
                  | inr name => Normal name end) _).
  by intros [].
Defined.

Abbreviation Path := (list PathComponent) (only parsing).

(** [Path::components]: a piece between slashes; empty pieces and dots after the
    first piece are dropped. *)
Definition component_of (piece : string) : option PathComponent :=
  if bool_decide (piece = "") || bool_decide (piece = ".") then None
  else if bool_decide (piece = "..") then Some ParentDir
  else Some (Normal piece).

Definition path_of (s : string) : Path :=
  match str_split (ascii_of_N 47) s with
  | [] => []
  | first :: rest =>
      let start := if bool_decide (first = "") && negb (str_is_empty s) then [RootDir]
                   else if bool_decide (first = ".") then [CurDir]
                   else option_list (component_of first) in
      start ++ omap component_of rest
  end.

(** [Path::file_name] and [Path::with_file_name] *)
Definition path_file_name (p : Path) : option string :=
  match last p with Some (Normal name) => Some name | _ => None end.

Definition parent (p : Path) : Path := take (pred (length p)) p.

Definition with_file_name (p : Path) (name : string) : Path :=
  match path_file_name p with
  | Some _ => parent p ++ [Normal name]
  | None => p ++ [Normal name]
  end.

Definition is_absolute (p : Path) : bool :=
  match p with RootDir :: _ => true | _ => false end.

(** [Path::join] *)
Definition path_join (p q : Path) : Path := if is_absolute q then q else p ++ q.

(** ** The file system *)

Inductive Node := NFile (contents : list Z) | NDir.

Abbreviation Files := (gmap Path Node) (only parsing).

(** What happens to a call: it may fail, and a write gets only so far. *)
Record Fate := mkFate { fate_error : option string; fate_progress : nat }.

Record Disk := mkDisk { disk_nodes : Files; disk_fates : list Fate; disk_past : list Files }.

Abbreviation FsCall A := (ST Disk string A) (only parsing).

(** One call; when no fate is left it succeeds. *)
Definition fs_call (effect : Fate → Files → result string unit * Files) : FsCall unit := λ d,
  let fate := default (mkFate None 0) (head (disk_fates d)) in
  let '(r, nodes) := effect fate (disk_nodes d) in
  (r, mkDisk nodes (tail (disk_fates d)) (disk_past d ++ [disk_nodes d])).

(** The effect of a call that fails or does all of its work. *)
Definition or_fail (fate : Fate) (work : result string unit * Files) (nodes : Files)
    : result string unit * Files :=
  match fate_error fate with Some e => (Err e, nodes) | None => work end.

Definition is_dir (nodes : Files) (p : Path) : bool :=
  match p with
  | [] | [RootDir] => true
  | _ => match nodes !! p with Some NDir => true | _ => false end
  end.

(** [File::create]: an existing file is truncated. *)
Definition create_node (p : Path) (nodes : Files) : result string unit * Files :=
  if is_dir nodes p then (Err "is a directory", nodes)
  else if is_dir nodes (parent p) then (Ok tt, <[p := NFile []]> nodes)
  else (Err "no such file or directory", nodes).

Definition file_create (p : Path) : FsCall unit :=
  fs_call (λ fate nodes, or_fail fate (create_node p nodes) nodes).

(** Bytes that reach a file. *)
Definition append_node (p : Path) (bytes : list Z) (nodes : Files) : Files :=
  alter (λ n, match n with NFile old => NFile (old ++ bytes) | NDir => NDir end) p nodes.

(** [write_all] on an open file. *)
Definition file_write_all (p : Path) (bytes : list Z) : FsCall unit :=
  fs_call (λ fate nodes,
    match fate_error fate with
    | Some e => (Err e, append_node p (take (fate_progress fate) bytes) nodes)
    | None => (Ok tt, append_node p bytes nodes)
    end).

(** [fs::rename]: what is at the target is replaced. *)
Definition rename_node (p q : Path) (nodes : Files) : result string unit * Files :=
  match nodes !! p with
  | None => (Err "no such file or directory", nodes)
  | Some n =>
      if is_dir nodes q then (Err "is a directory", nodes)
      else (Ok tt, <[q := n]> (delete p nodes))
  end.

Definition fs_rename (p q : Path) : FsCall unit :=
  fs_call (λ fate nodes, or_fail fate (rename_node p q nodes) nodes).

Definition fs_remove_file (p : Path) : FsCall unit :=
  fs_call (λ fate nodes, or_fail fate
    (match nodes !! p with
     | Some (NFile _) => (Ok tt, delete p nodes)
     | _ => (Err "cannot remove", nodes)
     end) nodes).

(** [fs::write] *)
Definition fs_write (p : Path) (bytes : list Z) : FsCall unit :=
  let! _ := file_create p in file_write_all p bytes.

(** [fs::create_dir_all]: from the shortest prefix to the whole path. *)
Definition make_dir (p : Path) (nodes : Files) : result string unit * Files :=
  if is_dir nodes p then (Ok tt, nodes) else
  match nodes !! p with
  | Some _ => (Err "not a directory", nodes)
  | None => (Ok tt, <[p := NDir]> nodes)
  end.

Definition create_dir_all (p : Path) : FsCall unit :=
  st_for (λ n, fs_call (λ fate nodes, or_fail fate (make_dir (take n p) nodes) nodes))
    (seq 1 (length p)).

(** ** A buffered writer

    [BufWriter]: bytes accepted and not yet in the file. Each call passes on as
    much of them as its fate says; only [flush] passes on all. *)

Record BufWriter := mkBuf { buf_disk : Disk; buf_pending : list Z }.

Definition buf_pass (p : Path) (all : bool) : ST BufWriter string unit := λ b,
  let d := buf_disk b in
  let fate := default (mkFate None 0) (head (disk_fates d)) in
  let n := match fate_error fate, all with
           | None, true => length (buf_pending b)
           | _, _ => fate_progress fate
           end in
  let nodes := append_node p (take n (buf_pending b)) (disk_nodes d) in
  (match fate_error fate with Some e => Err e | None => Ok tt end,
   mkBuf (mkDisk nodes (tail (disk_fates d)) (disk_past d ++ [disk_nodes d]))
     (drop n (buf_pending b))).

Definition buf_write_all (p : Path) (bytes : list Z) : ST BufWriter string unit :=
  let! _ := st_modify (λ b, mkBuf (buf_disk b) (buf_pending b ++ bytes)) in
  buf_pass p false.

Definition buf_flush (p : Path) : ST BufWriter string unit := buf_pass p true.

(** A computation with a buffered writer on a new file. When it ends the writer
    is dropped, which tries to pass on what is left and ignores an error. *)
Definition with_buffer {E A} (p : Path) (m : ST BufWriter E A) : ST Disk E A := λ d,
  let '(r, b) := m (mkBuf d []) in
  (r, buf_disk (if bool_decide (buf_pending b = []) then b else (buf_flush p b).2)).

(** ** What a computation touches

    [confined get P m]: whatever happens, [m] leaves every path outside [P] as it
    is, in every state on the way. *)

Definition agree (P : Path → Prop) (a b : Files) : Prop := ∀ p, ¬ P p → a !! p = b !! p.

(** [d'] was reached from [d] through states that agree with [d] outside [P]. *)
Definition reached (P : Path → Prop) (d d' : Disk) : Prop :=
  ∃ past, disk_past d' = disk_past d ++ past ∧
    Forall (agree P (disk_nodes d)) (past ++ [disk_nodes d']).

Definition confined {S E A} (get : S → Disk) (P : Path → Prop) (m : ST S E A) : Prop :=
  ∀ s r s', m s = (r, s') → reached P (get s) (get s').

(** A computation on the disk itself. *)
Abbreviation on_disk := (@Datatypes.id Disk) (only parsing).

Section confined.
Context {S : Type} (get : S → Disk) (P : Path → Prop).

Lemma agree_trans a b c : agree P a b → agree P b c → agree P a c.
Proof. intros Hab Hbc p Hp. rewrite Hab by done. by apply Hbc. Qed.

Lemma reached_refl d : reached P d d.
Proof. exists []. rewrite app_nil_r. by repeat constructor. Qed.

Lemma reached_trans d1 d2 d3 : reached P d1 d2 → reached P d2 d3 → reached P d1 d3.
Proof.
  intros (l & Hl & [Hal [Ha _]%Forall_cons]%Forall_app) (l' & Hl' & Ha').
  exists (l ++ l'). rewrite Hl', Hl, app_assoc. split; [done|]. rewrite <- app_assoc.
  apply Forall_app. split; [done|]. eapply Forall_impl; [exact Ha'|].
  intros n Hn. by eapply agree_trans.
Qed.

(** One call. *)
Lemma reached_step d d' :
  disk_past d' = disk_past d ++ [disk_nodes d] → agree P (disk_nodes d) (disk_nodes d') → reached P d d'.
Proof. intros Hp Ha. exists [disk_nodes d]. by repeat constructor. Qed.

Lemma confined_ret {E A} (a : A) : confined get P (st_ret (E:=E) a).
Proof. intros s r s' [= <- <-]. apply reached_refl. Qed.

Lemma confined_lift {E A} (r : result E A) : confined get P (st_lift r).
Proof. intros s r' s' [= <- <-]. apply reached_refl. Qed.

Lemma confined_bind {E A B} (m : ST S E A) (f : A → ST S E B) :
  confined get P m → (∀ a, confined get P (f a)) → confined get P (st_bind m f).
Proof.
  intros Hm Hf s r s' E'. unfold st_bind in E'. destruct (m s) as [[a|e] s1] eqn:Em.
  - by eapply reached_trans; [apply (Hm _ _ _ Em)|apply (Hf _ _ _ _ E')].
  - simplify_eq. by apply (Hm _ _ _ Em).
Qed.

Lemma confined_map_err {E F A} (f : E → F) (m : ST S E A) :
  confined get P m → confined get P (λ s, let '(r, s') := m s in (map_err f r, s')).
Proof.
  intros Hm s r s' E'. destruct (m s) as [r1 s1] eqn:Em. simplify_eq. by apply (Hm _ _ _ Em).
Qed.

Lemma confined_for {E A} (f : A → ST S E unit) l :
  Forall (λ a, confined get P (f a)) l → confined get P (st_for f l).
Proof.
  induction 1 as [|a l Ha _ IH]; [apply confined_ret|]. by apply confined_bind.
Qed.
End confined.

Lemma reached_weaken (P Q : Path → Prop) d d' : (∀ p, P p → Q p) → reached P d d' → reached Q d d'.
Proof.
  intros HPQ (l & Hl & Ha). exists l. split; [done|]. eapply Forall_impl; [exact Ha|].
  intros n Hn p Hp. apply Hn. auto.
Qed.

(** *** The calls *)

Lemma agree_insert (P : Path → Prop) p n nodes : P p → agree P nodes (<[p := n]> nodes).
Proof. intros Hp q Hq. rewrite lookup_insert_ne; [done|]. by intros ->. Qed.

Lemma agree_append (P : Path → Prop) p bytes nodes : P p → agree P nodes (append_node p bytes nodes).
Proof. intros Hp q Hq. unfold append_node. rewrite lookup_alter_ne; [done|]. by intros ->. Qed.

Lemma confined_call (P : Path → Prop) effect :
  (∀ fate nodes, agree P nodes (effect fate nodes).2) → confined on_disk P (fs_call effect).
Proof.
  intros He d r d' E. unfold fs_call in E. destruct (effect _ _) as [r1 nodes] eqn:Ee.
  simplify_eq. apply reached_step; [done|].
  specialize (He (default (mkFate None 0) (head (disk_fates d))) (disk_nodes d)). by rewrite Ee in He.
Qed.

Lemma agree_or_fail (P : Path → Prop) fate work nodes :
  agree P nodes work.2 → agree P nodes (or_fail fate work nodes).2.
Proof. intros Hw. unfold or_fail. by destruct (fate_error fate). Qed.

Lemma confined_create (P : Path → Prop) p : P p → confined on_disk P (file_create p).
Proof.
  intros Hp. apply confined_call. intros fate nodes. apply agree_or_fail. unfold create_node.
  repeat case_match; try done. by apply agree_insert.
Qed.

Lemma confined_write_all (P : Path → Prop) p bytes : P p → confined on_disk P (file_write_all p bytes).
Proof.
  intros Hp. apply confined_call. intros fate nodes. case_match; by apply agree_append.
Qed.

Lemma confined_fs_write (P : Path → Prop) p bytes : P p → confined on_disk P (fs_write p bytes).
Proof.
  intros Hp. apply confined_bind; [by apply confined_create|]. intros _. by apply confined_write_all.
Qed.

Lemma confined_remove (P : Path → Prop) p : P p → confined on_disk P (fs_remove_file p).
Proof.
  intros Hp. apply confined_call. intros fate nodes. apply agree_or_fail. repeat case_match; try done.
  intros q Hq. cbn. rewrite lookup_delete_ne; [done|]. by intros ->.
Qed.

Lemma confined_make_dirs (P : Path → Prop) p :
  (∀ n, P (take n p)) → confined on_disk P (create_dir_all p).
Proof.
  intros Hp. apply confined_for, Forall_forall. intros n _. apply confined_call.
  intros fate nodes. apply agree_or_fail. unfold make_dir. repeat case_match; try done.
  by apply agree_insert.
Qed.

Lemma confined_pass (P : Path → Prop) p all : P p → confined buf_disk P (buf_pass p all).
Proof.
  intros Hp b r b' [= <- <-]. apply reached_step; [done|]. by apply agree_append.
Qed.

Lemma confined_buf_write (P : Path → Prop) p bytes : P p → confined buf_disk P (buf_write_all p bytes).
Proof.
  intros Hp. apply confined_bind; [|intros _; by apply confined_pass].
  intros b r b' [= <- <-]. apply reached_refl.
Qed.

Lemma confined_buffer {E A} (P : Path → Prop) p (m : ST BufWriter E A) :
  P p → confined buf_disk P m → confined on_disk P (with_buffer p m).
Proof.
  intros Hp Hm d r d' E'. unfold with_buffer in E'. destruct (m _) as [r1 b] eqn:Em. simplify_eq.
  case_bool_decide; [by apply (Hm _ _ _ Em)|].
  eapply reached_trans; [apply (Hm _ _ _ Em)|].
  by eapply (confined_pass P p true); [|apply surjective_pairing].
Qed.

(** *** What a buffered writer has written *)

Definition written (p : Path) (bytes : list Z) (b : BufWriter) : Prop :=
  ∃ old, disk_nodes (buf_disk b) !! p = Some (NFile old) ∧ bytes = old ++ buf_pending b.

Lemma pass_written p all bytes b r b' :
  buf_pass p all b = (r, b') → written p bytes b →
  written p bytes b' ∧ (all = true → r = Ok tt → buf_pending b' = []).
Proof.
  intros [= <- <-] (old & Hn & ->). split.
  - eexists (old ++ take _ (buf_pending b)). cbn [buf_disk disk_nodes buf_pending]. split.
    + unfold append_node. by rewrite lookup_alter_eq, Hn.
    + by rewrite <- app_assoc, take_drop.
  - intros -> Hr. cbn [buf_pending]. apply drop_ge.
    destruct (fate_error _); [discriminate|done].
Qed.

Lemma buf_write_written p bytes more b r b' :
  buf_write_all p more b = (r, b') → written p bytes b → written p (bytes ++ more) b'.
Proof.
  intros E (old & Hn & ->). unfold buf_write_all in E. cbn [st_bind st_modify] in E.
  eapply pass_written in E as [Hw _]; [exact Hw|]. exists old. split; [done|]. cbn. by rewrite app_assoc.
Qed.

Lemma file_create_Ok p d d' :
  file_create p d = (Ok tt, d') → disk_nodes d' !! p = Some (NFile []).
Proof.
  unfold file_create, fs_call, or_fail, create_node. intros E. repeat case_match; simplify_eq.
  cbn. by rewrite lookup_insert_eq.
Qed.

Lemma fs_rename_spec p q d r d' :
  fs_rename p q d = (r, d') → p ≠ q →
  disk_past d' = disk_past d ++ [disk_nodes d] ∧
  match r with
  | Ok _ => ∃ n, disk_nodes d !! p = Some n ∧ disk_nodes d' = <[q := n]> (delete p (disk_nodes d))
  | Err _ => disk_nodes d' = disk_nodes d
  end.
Proof.
  unfold fs_rename, fs_call, or_fail, rename_node. intros E Hne. repeat case_match; simplify_eq; eauto.
Qed.

(** A path and the path with another name differ. *)
Lemma with_file_name_ne p name :
  path_file_name p ≠ Some name → with_file_name p name ≠ p.
Proof.
  intros Hne E. apply Hne. rewrite <- E. unfold with_file_name, path_file_name at 1.
  destruct (path_file_name p); by rewrite last_snoc.
Qed.
