(* ===== verification/SnapshotDisk.v ===== *)
(** * Saving a snapshot to disk (src/src/snapshot.rs, src/src/lib.rs, src/src/policy.rs)

    An uncompressed artifact goes to a temporary file that is renamed over the
    target; a compressed one is written to the target directly. The first is
    atomic whatever fails; the second is not. *)

From S2P Require Import Prelude Model Domain Revision StoreTypes Store StoreView EvalContext Legacy.
From S2P Require Import Dsl Runtime Writer Policy Api Disk.
From S2P Require Import SnapshotBytes Snapshot SnapshotProps SnapshotFile.

Local Open Scope Z_scope.

(** [From<io::Error>] *)
Definition io {S A} (m : ST S string A) : ST S SnapshotIoError A := λ s,
  let '(r, s') := m s in (map_err SIo r, s').

(** [Result::and_then], on the state the first part left. *)
Definition and_then {S E A} (m n : ST S E A) : ST S E A := let! _ := m in n.

Section disk.
Context `{Hasher, HashOrder, Blake3, PestParser, Zstd}.

(** The process id is an input. *)
Definition snapshot_tmp_path (pid : Z) (path : Path) (revision : Revision) : Path :=
  let file_name := default "snapshot" (path_file_name path) in
  with_file_name path
    (file_name +:+ "." +:+ u64_to_string pid +:+ "." +:+ u64_to_string (rev_get revision) +:+ ".tmp").

(** [write_hashed] with the file it writes to. *)
Definition write_hashed_to (path : Path) (bytes : list Z) (s : Stream)
    : ST BufWriter SnapshotIoError Stream :=
  let! _ := io (buf_write_all path bytes) in
  st_lift (write_hashed bytes s).

(** A turn of the loop over the sections. *)
Definition write_section_to (path : Path) (s : Stream) (p : SectionPayload)
    : ST BufWriter SnapshotIoError Stream :=
  if bool_decide (payload_kind p = Footer) then
    let! _ := io (buf_write_all path (array_bytes (blake3 (stream_hashed s)))) in
    st_lift (write_section s p)
  else write_hashed_to path (payload_bytes p) s.

Fixpoint write_sections_to (path : Path) (s : Stream) (l : SectionWriter)
    : ST BufWriter SnapshotIoError Stream :=
  match l with
  | [] => st_ret s
  | p :: l => let! s := write_section_to path s p in write_sections_to path s l
  end.

(** [write_uncompressed_snapshot_file_inner] from [File::create] on. *)
Definition write_stream (path : Path) (header directory_bytes : list Z) (sections : SectionWriter)
    (file_len : Z) : ST Disk SnapshotIoError unit :=
  let! _ := io (file_create path) in
  with_buffer path
    (let! s := write_hashed_to path header (mkStream [] [] 0) in
     let! s := write_hashed_to path directory_bytes s in
     let! s := write_sections_to path s sections in
     let! _ := io (buf_flush path) in
     st_lift (guard_err (negb (stream_written s =? file_len)) (SFormat "snapshot writer length mismatch"))).

Definition write_uncompressed_snapshot_file_inner (path : Path) (snapshot : ArtifactId)
    (w : SectionWriter) (index_profile : IndexProfile) : ST Disk SnapshotIoError unit :=
  let! rows := st_lift (writer_row_count RelationshipRows w) in
  let! relationship_count := st_lift (checked_u32_from_u64 rows) in
  let! symbols := st_lift (writer_row_count SymbolTable w) in
  let! symbol_count := st_lift (checked_u32_from_u64 symbols) in
  let! sections := st_lift (snapshot_sections_with_footer w) in
  let! directory := st_lift (section_directory sections) in
  let! file_len := st_lift (directory_file_len directory) in
  let header := write_header (artifact_schema_hash snapshot) relationship_count symbol_count
                  (artifact_revision snapshot) file_len index_profile in
  let! _ := st_lift (checked_mul_usize (len_of directory) DIRECTORY_ENTRY_LEN) in
  write_stream path header (concat (write_directory_entry <$> directory)) sections file_len.

Definition write_uncompressed_snapshot_file (pid : Z) (path : Path) (snapshot : ArtifactId)
    (w : SectionWriter) (index_profile : IndexProfile) : ST Disk SnapshotIoError unit := λ d,
  let tmp_path := snapshot_tmp_path pid path (artifact_revision snapshot) in
  let '(result, d) :=
    and_then (write_uncompressed_snapshot_file_inner tmp_path snapshot w index_profile)
      (io (fs_rename tmp_path path)) d in
  (result, if is_ok result then d else (fs_remove_file tmp_path d).2).

Definition save_snapshot_file (pid : Z) (path : Path) (s : PublishedSnapshot)
    (o : SnapshotSaveOptions) : ST Disk SnapshotIoError unit :=
  let! w := st_lift (snapshot_sections s o) in
  match save_compression o with
  | CompressionNone => write_uncompressed_snapshot_file pid path (artifact_id s) w (save_index_profile o)
  | CompressionZstd =>
      let! bytes := st_lift (encode_file (artifact_id s) w (save_index_profile o)) in
      let! payload := st_lift (encode_payload bytes o) in
      io (fs_write path payload)
  end.

(** [WriterState::save_snapshot] *)
Definition writer_save_snapshot (pid : Z) (path : Path) (s : WriterState) (o : SnapshotSaveOptions)
    : ST Disk SnapshotIoError unit :=
  let! snapshot := st_lift (ok_or (current_snapshot s)
                     (SFormat "schema snapshot is required before saving")) in
  save_snapshot_file pid path snapshot o.

(** [ZanzibarEngine::save_snapshot] *)
Definition engine_save_snapshot (pid : Z) (cells : Cells) (a : SharedEngineState) (path : Path)
    (o : SnapshotSaveOptions) : ST Disk SnapshotIoError unit :=
  let! snapshot := st_lift (map_err (λ stop, match stop with
      | Fails ESchemaRequired => SFormat "schema snapshot is required before saving"
      | _ => SFormat "engine state unavailable during snapshot save"
      end) (latest_snapshot <$> current_state cells a)) in
  save_snapshot_file pid path snapshot o.
End disk.

(** ** A finished stream is the artifact *)

Section streams.
Context `{Hasher, HashOrder, Blake3, PestParser, Zstd}.

Lemma io_Ok {S A} (m : ST S string A) s a s' : io m s = (Ok a, s') → m s = (Ok a, s').
Proof. unfold io. intros E. destruct (m s) as [[x|e] s1]; by simplify_eq/=. Qed.

Lemma st_lift_Ok {S E A} (r : result E A) (s : S) a s' : st_lift r s = (Ok a, s') → r = Ok a ∧ s' = s.
Proof. by intros [= -> ->]. Qed.

Lemma write_hashed_to_ok p bytes s b s' b' :
  write_hashed_to p bytes s b = (Ok s', b') → written p (stream_file s) b →
  write_hashed bytes s = Ok s' ∧ written p (stream_file s') b'.
Proof.
  intros E Hw. apply st_bind_Ok in E as ([] & b1 & E1%io_Ok & [E2 ->]%st_lift_Ok). split; [done|].
  apply (buf_write_written _ _ _ _ _ _ E1) in Hw. unfold write_hashed in E2.
  apply bind_Ok in E2 as (? & _ & E2). apply bind_Ok in E2 as (? & _ & E2). by injection E2 as <-.
Qed.

Lemma write_section_to_ok p s sec b s' b' :
  write_section_to p s sec b = (Ok s', b') → written p (stream_file s) b →
  write_section s sec = Ok s' ∧ written p (stream_file s') b'.
Proof.
  unfold write_section_to, write_section. case_bool_decide; [|apply write_hashed_to_ok].
  intros E Hw. apply st_bind_Ok in E as ([] & b1 & E1%io_Ok & [E2 ->]%st_lift_Ok).
  split; [done|]. apply (buf_write_written _ _ _ _ _ _ E1) in Hw.
  apply bind_Ok in E2 as (? & _ & E2). by injection E2 as <-.
Qed.

Lemma write_sections_to_ok p l s b s' b' :
  write_sections_to p s l b = (Ok s', b') → written p (stream_file s) b →
  try_fold write_section s l = Ok s' ∧ written p (stream_file s') b'.
Proof.
  revert s b. induction l as [|sec l IH]; intros s b E Hw; [by injection E as -> ->|].
  apply st_bind_Ok in E as (s1 & b1 & E1 & E2).
  destruct (write_section_to_ok _ _ _ _ _ _ E1 Hw) as [E1' Hw'].
  destruct (IH _ _ E2 Hw') as [E2' Hw'']. split; [|done]. cbn [try_fold]. by rewrite E1'.
Qed.

Lemma write_stream_ok p header text l file_len d d' :
  write_stream p header text l file_len d = (Ok tt, d') →
  ∃ s1 s2 s3, write_hashed header (mkStream [] [] 0) = Ok s1 ∧ write_hashed text s1 = Ok s2 ∧
    try_fold write_section s2 l = Ok s3 ∧ (stream_written s3 =? file_len) = true ∧
    disk_nodes d' !! p = Some (NFile (stream_file s3)).
Proof.
  intros E. apply st_bind_Ok in E as ([] & d1 & E1%io_Ok & E). apply file_create_Ok in E1.
  unfold with_buffer in E. destruct ((let! s := _ in _) _) as [r b] eqn:Em. injection E as -> <-.
  apply st_bind_Ok in Em as (s1 & b1 & Ea & Em).
  apply write_hashed_to_ok in Ea as [Ea Hw]; [|by exists []].
  apply st_bind_Ok in Em as (s2 & b2 & Eb & Em). apply write_hashed_to_ok in Eb as [Eb Hw2]; [|done].
  apply st_bind_Ok in Em as (s3 & b3 & Ec & Em). apply write_sections_to_ok in Ec as [Ec Hw3]; [|done].
  apply st_bind_Ok in Em as ([] & b4 & Ed%io_Ok & [Ef ->]%st_lift_Ok).
  destruct (pass_written p true _ _ _ _ Ed Hw3) as [(old & Hn & Es) Hp].
  rewrite Hp, app_nil_r in Es by done. apply guard_err_Ok, negb_false_iff in Ef.
  exists s1, s2, s3. rewrite bool_decide_eq_true_2 by by rewrite Hp. by rewrite Es.
Qed.

Lemma inner_ok p snapshot w profile d d' :
  write_uncompressed_snapshot_file_inner p snapshot w profile d = (Ok tt, d') →
  ∃ bytes, stream_file_bytes snapshot w profile = Ok bytes ∧ disk_nodes d' !! p = Some (NFile bytes).
Proof.
  unfold write_uncompressed_snapshot_file_inner, stream_file_bytes. intros E.
  apply st_bind_Ok in E as (rows & ? & [H1' ->]%st_lift_Ok & E).
  apply st_bind_Ok in E as (rows' & ? & [H2' ->]%st_lift_Ok & E).
  apply st_bind_Ok in E as (symbols & ? & [H3' ->]%st_lift_Ok & E).
  apply st_bind_Ok in E as (symbols' & ? & [H4' ->]%st_lift_Ok & E).
  apply st_bind_Ok in E as (sections & ? & [H5' ->]%st_lift_Ok & E).
  apply st_bind_Ok in E as (directory & ? & [H6' ->]%st_lift_Ok & E).
  apply st_bind_Ok in E as (file_len & ? & [H7' ->]%st_lift_Ok & E).
  apply st_bind_Ok in E as (len & ? & [H8' ->]%st_lift_Ok & E).
  apply write_stream_ok in E as (s1 & s2 & s3 & E1 & E2 & E3 & E4 & Hn).
  exists (stream_file s3). split; [|done].
  step_ok rows; [done|]. step_ok rows'; [done|]. step_ok symbols; [done|]. step_ok symbols'; [done|].
  step_ok sections; [done|]. step_ok directory; [done|]. step_ok file_len; [done|].
  step_ok len; [done|]. step_ok s1; [exact E1|]. step_ok s2; [exact E2|]. step_ok s3; [exact E3|].
  step_ok tt; [|done]. by rewrite E4.
Qed.

(** Nothing but the file it writes is touched. *)
Lemma inner_confined p snapshot w profile :
  confined on_disk (eq p) (write_uncompressed_snapshot_file_inner p snapshot w profile).
Proof.
  assert (∀ bytes, confined buf_disk (eq p) (io (buf_write_all p bytes))) as Hio.
  { intros bytes. by apply confined_map_err, confined_buf_write. }
  assert (∀ bytes s, confined buf_disk (eq p) (write_hashed_to p bytes s)) as Hh.
  { intros bytes s. apply confined_bind; [done|]. intros _. apply confined_lift. }
  assert (∀ l s, confined buf_disk (eq p) (write_sections_to p s l)) as Hl.
  { induction l as [|sec l IH]; intros s; [apply confined_ret|]. apply confined_bind; [|done].
    unfold write_section_to. case_bool_decide; [|done]. apply confined_bind; [done|].
    intros _. apply confined_lift. }
  unfold write_uncompressed_snapshot_file_inner, write_stream.
  repeat (apply confined_bind; [apply confined_lift|intros ?]).
  apply confined_bind; [by apply confined_map_err, confined_create|]. intros _.
  apply confined_buffer; [done|].
  repeat (apply confined_bind; [done|intros ?]).
  apply confined_bind; [by apply confined_map_err, confined_pass|]. intros _. apply confined_lift.
Qed.

Lemma tmp_path_ne pid p revision : snapshot_tmp_path pid p revision ≠ p.
Proof.
  apply with_file_name_ne. destruct (path_file_name p) as [name|]; [|done]. cbn [default from_option].
  intros [= E]. apply (f_equal String.length) in E. rewrite !byte_len_app in E.
  change (String.length ".") with 1%nat in E. lia.
Qed.

(** What a state of the disk has at the target: the old node or the artifact. *)
Definition old_or_new (artifact : sresult (list Z)) (path tmp : Path) (before nodes : Files) : Prop :=
  (∀ q, q ≠ path → q ≠ tmp → nodes !! q = before !! q) ∧
  (nodes !! path = before !! path ∨
   ∃ bytes, artifact = Ok bytes ∧ nodes !! path = Some (NFile bytes)).

(** A run through such states that ends with the artifact exactly if it succeeds. *)
Definition atomic (artifact : sresult (list Z)) (path tmp : Path) (d : Disk)
    (r : sresult unit) (d' : Disk) : Prop :=
  (∃ past, disk_past d' = disk_past d ++ past ∧
     Forall (old_or_new artifact path tmp (disk_nodes d)) (past ++ [disk_nodes d'])) ∧
  match r with
  | Ok _ => disk_nodes d' !! tmp = None ∧
      ∃ bytes, artifact = Ok bytes ∧ disk_nodes d' !! path = Some (NFile bytes)
  | Err _ => disk_nodes d' !! path = disk_nodes d !! path
  end.

Lemma agree_old artifact path tmp before nodes :
  tmp ≠ path → agree (eq tmp) before nodes → old_or_new artifact path tmp before nodes.
Proof. intros Hne Ha. split; [intros q _ Hq|left]; symmetry; apply Ha; congruence. Qed.

(** A failure that touched only the temporary file. *)
Lemma reached_old artifact path tmp d e d' :
  tmp ≠ path → reached (eq tmp) d d' → atomic artifact path tmp d (Err e) d'.
Proof.
  intros Hne (past & Hp & Ha). split.
  - exists past. split; [done|]. eapply Forall_impl; [exact Ha|]. intros n. by apply agree_old.
  - apply Forall_app in Ha as [_ [Ha _]%Forall_cons]. symmetry. by apply Ha.
Qed.

(** After the temporary file is written it replaces the target in one call. *)
Lemma renamed_new artifact path tmp bytes d d2 d' :
  tmp ≠ path → reached (eq tmp) d d2 → artifact = Ok bytes →
  disk_past d' = disk_past d2 ++ [disk_nodes d2] →
  disk_nodes d' = <[path := NFile bytes]> (delete tmp (disk_nodes d2)) →
  atomic artifact path tmp d (Ok tt) d'.
Proof.
  intros Hne (past & Hp & Hin) Hb Hp3 Hd. unfold atomic. rewrite Hd.
  split; [|split; [by rewrite lookup_insert_ne, lookup_delete_eq|]].
  - exists (past ++ [disk_nodes d2]). split; [by rewrite Hp3, Hp, <- app_assoc|].
    apply Forall_app. split; [eapply Forall_impl; [exact Hin|]; intros x; by apply agree_old|].
    apply Forall_singleton. split; [|right; exists bytes; by rewrite lookup_insert_eq].
    intros q Hq Hq'. rewrite lookup_insert_ne, lookup_delete_ne by done.
    apply Forall_app in Hin as [_ [Ha _]%Forall_cons]. symmetry. by apply Ha.
  - exists bytes. by rewrite lookup_insert_eq.
Qed.

Lemma write_file_atomic pid path snapshot w profile d r d' :
  write_uncompressed_snapshot_file pid path snapshot w profile d = (r, d') →
  atomic (stream_file_bytes snapshot w profile) path
    (snapshot_tmp_path pid path (artifact_revision snapshot)) d r d'.
Proof.
  pose proof (tmp_path_ne pid path (artifact_revision snapshot)) as Hne.
  unfold write_uncompressed_snapshot_file. set (tmp := snapshot_tmp_path _ _ _) in *. intros E.
  destruct (and_then _ _ d) as [res d1] eqn:Ea. unfold and_then, st_bind in Ea.
  destruct (write_uncompressed_snapshot_file_inner tmp snapshot w profile d) as [[[]|e] d2] eqn:Ei;
    pose proof (inner_confined _ _ _ _ _ _ _ Ei) as Hin.
  2: { simplify_eq. apply reached_old; [done|]. eapply reached_trans; [exact Hin|].
       by eapply (confined_remove (eq tmp) tmp); [|apply surjective_pairing]. }
  destruct (inner_ok _ _ _ _ _ _ Ei) as (bytes & Hb & Hn).
  unfold io in Ea. destruct (fs_rename tmp path d2) as [[[]|e] d3] eqn:Er;
    destruct (fs_rename_spec _ _ _ _ _ Er Hne) as [Hp3 Hren]; simplify_eq/=.
  - destruct Hren as (n & Hn' & Hd). simplify_eq. by eapply renamed_new.
  - apply reached_old; [done|]. eapply reached_trans; [exact Hin|].
    eapply reached_trans; [by apply reached_step; [|rewrite Hren]|].
    by eapply (confined_remove (eq tmp) tmp); [|apply surjective_pairing].
Qed.

(** C26: saving an uncompressed artifact is atomic: whichever calls of the file
    system fail, and in whichever state on the way the process dies, the target
    holds what it held before or the whole artifact, and nothing is touched but the
    target and the save's temporary file, which may be left behind when the process
    dies or its removal fails. A save that succeeds ends with the artifact at the
    target and no temporary file, one that fails with the target as it was. *)
Theorem save_atomic pid path s o d r d' :
  save_compression o = CompressionNone →
  save_snapshot_file pid path s o d = (r, d') →
  atomic (snapshot_bytes s o) path (snapshot_tmp_path pid path (snapshot_revision s)) d r d'.
Proof.
  intros Hc E. unfold save_snapshot_file in E. unfold snapshot_bytes. rewrite Hc in E. rewrite Hc.
  unfold st_bind, st_lift in E. destruct (snapshot_sections s o) as [w|e].
  - by apply write_file_atomic in E.
  - simplify_eq. apply reached_old; [apply tmp_path_ne|apply reached_refl].
Qed.

(** a compressed artifact is written over its target: when the write fails
    the old artifact is lost and what is left is a beginning of the new one. *)
Theorem compressed_save_not_atomic pid path s o bytes old e k d :
  save_compression o = CompressionZstd →
  snapshot_bytes s o = Ok bytes →
  disk_nodes d !! path = Some (NFile old) → is_dir (disk_nodes d) path = false →
  is_dir (disk_nodes d) (parent path) = true →
  disk_fates d = [mkFate None 0; mkFate (Some e) k] →
  ∃ d', save_snapshot_file pid path s o d = (Err (SIo e), d') ∧
    disk_nodes d' !! path = Some (NFile (take k bytes)).
Proof.
  intros Hc Hb Hold Hfile Hdir Hfates. unfold save_snapshot_file. unfold snapshot_bytes in Hb.
  rewrite Hc in Hb. rewrite Hc. apply bind_Ok in Hb as (w & Hw & Hb).
  apply bind_Ok in Hb as (raw & Hraw & Hb).
  unfold st_bind, st_lift, io, fs_write. rewrite Hw, Hraw, Hb.
  unfold st_bind, file_create, file_write_all, fs_call, or_fail, create_node.
  rewrite Hfates, Hfile, Hdir. cbn. eexists. split; [done|].
  cbn. unfold append_node. by rewrite lookup_alter_eq, lookup_insert_eq.
Qed.
End streams.
