(* ===== verification/SnapshotRoundtrip.v ===== *)
(** * Saving and loading round trip

    Loading the file a save has written gives an engine the same revision,
    configurations and relationships, and a schema of the same hash and the same
    meaning, or reports that the artifact exceeds the limit of the load. *)

From S2P Require Import Prelude Model Domain Revision StoreTypes Interner Posting Row Schema.
From S2P Require Import Store StoreInv StoreSpec StoreView ViewInv ViewSpec ViewProps EvalContext.
From S2P Require Import Dsl Grammar SchemaText Legacy LegacyProps Runtime Writer Policy.
From S2P Require Import WriterSpec Api EngineProps SchemaRoundtrip.
From S2P Require Import SnapshotBytes Snapshot SnapshotProps SnapshotSymbols SnapshotIndexes SnapshotStore.
From S2P Require Import SnapshotLoad SnapshotStoreSave SnapshotFile Disk SnapshotDisk.

Local Open Scope Z_scope.

(** ** The store that is written *)

Section canonical.
Context `{Hasher}.

Lemma canonical_store_ok v st :
  NoDup (view_rows v) → canonical_store v = Ok st →
  ∃ l ps, store_rep st l ps ∧ store_rows st = view_rows v.
Proof.
  intros Hnd E. pose proof (wp_insert_sequence (view_rows v) _ _ _ _ store_state_default Hnd) as Hw.
  unfold canonical_store, wp in *. destruct (st_for store_insert _ _) as [[[]|e] st']; [|done].
  injection E as <-. destruct Hw as (l & ps & Hst). exists l, ps. split; [apply Hst|].
  by apply (ss_store_rows _ _ _ _ Hst).
Qed.
End canonical.

(** ** The payload *)

(** The snapshot a load publishes. *)
Definition snapshot_of (x : LoadedSnapshot) : PublishedSnapshot :=
  mkSnapshot (loaded_revision x) (loaded_schema_hash x) (loaded_configs x) (loaded_schema x)
    (loaded_relationships x).

(** [x] says what [s] says. *)
Record restores (s x : PublishedSnapshot) : Prop := {
  rs_revision : snapshot_revision x = snapshot_revision s;
  rs_hash : snapshot_schema_hash x = snapshot_schema_hash s;
  rs_configs : snapshot_configs x = snapshot_configs s;
  rs_schema : same_meaning (snapshot_schema x) (snapshot_schema s);
  rs_relationships : view_rows (snapshot_relationships x) = view_rows (snapshot_relationships s)
}.

(** ** Files *)

(** [File::open] and the metadata of what it opens. *)
Definition opened (nodes : Files) (path : Path) : result string OpenFile :=
  match nodes !! path with
  | Some (NFile bytes) => Ok (mkOpenFile true (len_of bytes) (bytes, None))
  | Some NDir => Ok (mkOpenFile false 0 ([], Some "is a directory"))
  | None => Err "no such file or directory"
  end.

(** The file, and what a frame of it holds, are within the limit of the load; the
    bounded decoder reads one byte more than the limit. *)
Definition fits_limit (o : SnapshotLoadOptions) (payload bytes : list Z) : Prop :=
  len_of bytes ≤ nzu64_get (max_file_bytes o) ∧
  (load_compression o = CompressionZstd →
   len_of payload ≤ nzu64_get (max_file_bytes o) ∧ nzu64_get (max_file_bytes o) < u64_max).

Lemma nzu64_range n : 1 ≤ nzu64_get n ≤ u64_max.
Proof. destruct n as [v Hv]. cbn. apply Is_true_true in Hv. unfold in_range in Hv. lia. Qed.

Section roundtrip.
Context `{Hasher, HashOrder, Blake3, PestParser, Zstd, !FollowsGrammar}.
Context (hash_u64 : ∀ s : string, 0 ≤ hash_value s ≤ u64_max).

(** What a save writes: the sections of the canonical store, the schema first. *)
Lemma snapshot_sections_ok s o w :
  snapshot_ok s → snapshot_sections s o = Ok w →
  ∃ st l ps x, store_rep st l ps ∧ store_rows st = view_rows (snapshot_relationships s) ∧
    parts_of st (save_index_profile o) (section_layout o) x ∧
    len_of (str_bytes (canonical_schema_source (snapshot_configs s))) ≤ MAX_SCHEMA_BYTES ∧
    w = mkPayload Schema 0 (str_bytes (canonical_schema_source (snapshot_configs s))) 1 ::
        store_payloads st (section_layout o) x.
Proof.
  intros Hs E. unfold snapshot_sections in E.
  apply bind_Ok in E as ([] & _ & E). apply bind_Ok in E as ([] & _ & E).
  apply bind_Ok in E as ([] & Hlen%guard_err_Ok%Z.ltb_ge & E).
  apply bind_Ok in E as (w0 & ->%add_section_Ok & E).
  apply bind_Ok in E as (st & Hst%map_err_Ok & E).
  apply canonical_store_ok in Hst as (l & ps & Hst & Hrows); [|apply view_rows_NoDup, Hs].
  apply encode_store_Ok in E as (x & Hx & ->). by exists st, l, ps, x.
Qed.

Lemma saved_writer_ok st l ps p layout x source :
  store_rep st l ps → parts_of st p layout x →
  SnapshotProps.writer_ok (mkPayload Schema 0 source 1 :: store_payloads st layout x).
Proof.
  intros Hst Hx. split.
  - by repeat constructor.
  - apply (bool_decide_unpack _). by vm_compute.
  - constructor; [by split|]. by eapply store_payloads_ok.
Qed.

(** A sealed artifact of a writer's sections. *)
Definition artifact_of (id : ArtifactId) (w : SectionWriter) (p : IndexProfile) (bytes : list Z) : Prop :=
  ∃ rows symbols es file_len, writable id w rows symbols es file_len ∧
    bytes = sealed (artifact_prefix id w p rows symbols es file_len).

Lemma artifact_length id w p bytes :
  SnapshotProps.writer_ok w → artifact_of id w p bytes → len_of bytes ≤ u64_max.
Proof.
  intros Hw (rows & symbols & es & file_len & Hwr & ->).
  pose proof (artifact_laid_out id w p _ _ _ _ _ Hw Hwr
    (digest_length (artifact_prefix id w p rows symbols es file_len))) as Hlo.
  unfold sealed. rewrite (lo_len _ _ _ _ _ Hlo). apply Hlo.
Qed.

Lemma section_lengths id w rows symbols es file_len :
  writable id w rows symbols es file_len → Forall (λ q, len_of (payload_bytes q) ≤ usize_max) w.
Proof.
  intros [_ _ _ _ _ _ _ Hlen Hmax]. apply Forall_forall. intros q Hq.
  assert (q ∈ into_sorted_sections w) as Hin by by rewrite into_sorted_perm.
  apply list_elem_of_split in Hin as (a & b & E). rewrite E in Hlen.
  change (q :: b) with ([q] ++ b) in Hlen. rewrite !bodies_app, !len_of_app in Hlen.
  assert (bodies [q] = payload_bytes q) as Eq by (unfold bodies; cbn; by rewrite app_nil_r).
  rewrite Eq in Hlen. pose proof (len_of_nonneg (bodies a)). pose proof (len_of_nonneg (bodies b)).
  unfold HEADER_LEN, FOOTER_LEN, usize_max in *. lia.
Qed.

(** The schema section compiles to a schema of the same hash. *)
Lemma saved_schema_loads s r :
  snapshot_ok s → well_keyed (snapshot_configs s) →
  header_schema_hash (reader_header r) = snapshot_schema_hash s →
  reader_section r Schema = Ok (mkSection (str_bytes (canonical_schema_source (snapshot_configs s))) 0 1) →
  len_of (str_bytes (canonical_schema_source (snapshot_configs s))) ≤ MAX_SCHEMA_BYTES →
  ∃ configs cs, compile_snapshot_schema r = Ok (configs, cs, snapshot_schema_hash s) ∧
    foldl insert_config ∅ configs = snapshot_configs s ∧ same_meaning cs (snapshot_schema s).
Proof.
  intros [Hs Hh _ _] Hk Hr Hsec Hlen.
  destruct (schema_text_compiles _ _ Hs Hk) as (cs & Hutf & Hparse & Hcs & Hb & Hm & Hc).
  exists (sorted_configs (snapshot_configs s)), cs. split; [|done].
  assert (hash_for_schema cs = snapshot_schema_hash s) as Ehash.
  { rewrite Hh. unfold hash_for_schema. by rewrite Hb. }
  unfold compile_snapshot_schema. eapply bind_Ok. eexists. split; [exact Hsec|].
  cbn [section_bytes]. rewrite bytes_str_bytes.
  step_ok tt; [by apply guard_err_Ok, Z.ltb_ge|].
  step_ok tt; [by apply guard_err_Ok; rewrite Hutf|].
  rewrite Hparse. cbn [map_err mbind result_bind]. rewrite Hcs. cbn [map_err mbind result_bind].
  step_ok tt; [|by rewrite Ehash]. apply guard_err_Ok, negb_false_iff, bool_decide_eq_true.
  by rewrite Ehash.
Qed.

Lemma saved_payload_loads s o w bytes lo :
  snapshot_ok s → well_keyed (snapshot_configs s) → snapshot_sections s o = Ok w →
  artifact_of (artifact_id s) w (save_index_profile o) bytes →
  validation lo = ValidationFull →
  satisfies (save_index_profile o) (required_index_profile lo) = true →
  len_of bytes ≤ u64_max ∧ ∃ x, load_payload bytes lo = Ok x ∧ restores s (snapshot_of x).
Proof.
  intros Hs Hk Hw Ha Hv Hp.
  destruct (snapshot_sections_ok s o w Hs Hw) as (st & l & ps & x & Hst & Hrows & Hx & Hlen & Ew).
  assert (SnapshotProps.writer_ok w) as Hwok by (rewrite Ew; by eapply saved_writer_ok).
  split; [by eapply artifact_length|]. destruct Ha as (rows & symbols & es & fl & Hwr & ->).
  pose proof (section_lengths _ _ _ _ _ _ Hwr) as Hlens.
  destruct (artifact_parse _ _ (save_index_profile o) _ _ _ _ (integrity lo) Hwok Hwr) as
    (r & Hr & Hrc & Hsc & Hver & Hhash & Hrev & Hprof & Hsecs).
  rewrite Ew in Hrc, Hsc, Hsecs, Hlens. apply Forall_cons in Hsecs as [Hschema Hsecs].
  apply Forall_cons in Hlens as [_ Hlens]. cbn in Hrc, Hsc. injection Hrc as Hrc. injection Hsc as Hsc.
  destruct (saved_schema_loads s r Hs Hk Hhash Hschema Hlen) as (configs & cs & Hcs & Hc & Hm).
  destruct (decode_saved_store hash_u64 Hst _ _ _ Hx r Hver (eq_sym Hrc) (eq_sym Hsc) Hprof) with
    (profile := load_profile lo) as (st' & Hst' & Hrows').
  { apply Forall_forall. intros q Hq. rewrite Forall_forall in Hsecs, Hlens.
    split; [exact (Hsecs q Hq)|exact (Hlens q Hq)]. }
  exists (mkLoaded (foldl insert_config ∅ configs) cs (view_from_checkpoint st')
    (created_revision (reader_header r)) (snapshot_schema_hash s)). split.
  - unfold load_payload, parse_reader. rewrite Hr. cbn [mbind result_bind].
    step_ok r.
    { step_ok tt; [|done]. apply guard_err_Ok, negb_false_iff. by rewrite Hprof. }
    rewrite Hcs. cbn [mbind result_bind]. rewrite Hv, Hst'. done.
  - split; cbn; [done|done|done|done|]. by rewrite <- Hrows, <- Hrows'.
Qed.

(** ** The file *)

(** [zstd] decodes what it encodes, and no error follows. *)
Context (zstd_lossless : ∀ bytes level frame,
  zstd_encode_all bytes level = Ok frame → zstd_decoder frame = Ok (bytes, None)).

Lemma saved_on_disk pid path s o d d' :
  save_snapshot_file pid path s o d = (Ok tt, d') →
  ∃ bytes, snapshot_bytes s o = Ok bytes ∧ disk_nodes d' !! path = Some (NFile bytes).
Proof.
  unfold save_snapshot_file, snapshot_bytes. intros E. unfold st_bind, st_lift in E.
  destruct (snapshot_sections s o) as [w|]; [|done]. cbn [mbind result_bind].
  destruct (save_compression o).
  - apply write_file_atomic in E as [_ [_ E]]. exact E.
  - destruct (encode_file _ _ _) as [raw|]; [|done]. cbn [mbind result_bind].
    destruct (encode_payload raw o) as [bytes|]; [|done]. exists bytes. split; [done|].
    apply io_Ok in E. unfold fs_write, st_bind in E.
    destruct (file_create path d) as [[[]|e] d1] eqn:Ec; [|done]. apply file_create_Ok in Ec.
    unfold file_write_all, fs_call in E. destruct (fate_error _); simplify_eq. cbn [disk_nodes].
    unfold append_node. by rewrite lookup_alter_eq, Ec.
Qed.

(** What the saved bytes are: the artifact, or a frame of it. *)
Lemma saved_bytes s o bytes :
  snapshot_ok s → snapshot_bytes s o = Ok bytes →
  ∃ w payload, snapshot_sections s o = Ok w ∧
    artifact_of (artifact_id s) w (save_index_profile o) payload ∧ encode_payload payload o = Ok bytes.
Proof.
  intros Hs E. unfold snapshot_bytes in E. apply bind_Ok in E as (w & Hw & E). exists w.
  destruct (snapshot_sections_ok s o w Hs Hw) as (st & l & ps & x & Hst & _ & Hx & _ & Ew).
  assert (SnapshotProps.writer_ok w) as [Hno _ _] by (rewrite Ew; by eapply saved_writer_ok).
  unfold encode_payload. destruct (save_compression o) eqn:Ec.
  - exists bytes. split; [done|]. split; [|done]. by apply stream_file_closed.
  - apply bind_Ok in E as (payload & Hp & E). exists payload. split; [done|].
    split; [by apply encode_file_closed|]. unfold encode_payload in E. by rewrite Ec in E.
Qed.

Lemma read_limited_ok out limit : limit ≤ len_of out → read_limited (out, None) limit = Ok (take (Z.to_nat limit) out).
Proof. intros Hl. unfold read_limited. cbn [fst]. by rewrite (proj2 (Z.leb_le _ _)). Qed.

Lemma read_whole out : read_limited (out, None) (len_of out) = Ok out.
Proof.
  rewrite read_limited_ok by done. unfold len_of. by rewrite Nat2Z.id, firstn_all.
Qed.

Lemma decode_frame frame payload limit :
  zstd_decoder frame = Ok (payload, None) →
  if decide (len_of payload ≤ nzu64_get limit ∧ nzu64_get limit < u64_max)
  then decode_zstd_bounded frame limit = Ok payload
  else ∃ c, decode_zstd_bounded frame limit = Err (SLimitExceeded c).
Proof.
  intros Hd. pose proof (nzu64_range limit) as Hn. unfold decode_zstd_bounded, checked_add.
  destruct (Z.leb_spec (nzu64_get limit + 1) u64_max); cbn [ok_or mbind result_bind].
  2: { rewrite decide_False by lia. by eexists. }
  rewrite Hd. cbn [map_err mbind result_bind]. destruct (decide (len_of payload ≤ nzu64_get limit)) as [Hl|Hl].
  - rewrite decide_True by lia. unfold read_limited. cbn [fst snd].
    rewrite (proj2 (Z.leb_gt _ _)) by lia. cbn [mbind result_bind].
    step_ok (len_of payload).
    { apply ok_or_try_from. split; [done|lia]. }
    step_ok tt; [by apply guard_err_Ok, Z.ltb_ge|done].
  - rewrite decide_False by lia. rewrite read_limited_ok by lia. cbn [mbind result_bind].
    assert (len_of (take (Z.to_nat (nzu64_get limit + 1)) payload) = nzu64_get limit + 1) as ->.
    { unfold len_of in *. rewrite length_take. lia. }
    unfold checked_u64_from_usize, try_from_uint. rewrite (proj2 (Z.leb_le _ _)) by lia.
    cbn [ok_or mbind result_bind]. unfold guard_err. rewrite (proj2 (Z.ltb_lt _ _)) by lia. by eexists.
Qed.

Definition whole_file (bytes : list Z) : OpenFile := mkOpenFile true (len_of bytes) (bytes, None).

Lemma open_whole bytes limit :
  open_capped_file (Ok (whole_file bytes)) limit =
  if decide (len_of bytes ≤ nzu64_get limit) then Ok (whole_file bytes, len_of bytes)
  else Err (SLimitExceeded "snapshot file").
Proof.
  unfold open_capped_file, guard_err, whole_file. cbn [map_err mbind result_bind file_is_file file_len negb].
  destruct (Z.ltb_spec (nzu64_get limit) (len_of bytes)); case_decide; (done || lia).
Qed.

Lemma read_whole_file bytes : read_file (whole_file bytes) (len_of bytes) = Ok bytes.
Proof. apply read_whole. Qed.

Lemma read_capped_whole bytes limit :
  len_of bytes ≤ nzu64_get limit → read_capped_file (Ok (whole_file bytes)) limit = Ok bytes.
Proof.
  intros Hl. pose proof (nzu64_range limit). unfold read_capped_file. rewrite open_whole, decide_True by done.
  cbn [mbind result_bind]. unfold usize_max in *.
  step_ok (len_of bytes); [apply ok_or_try_from; split; [done|unfold usize_max; lia]|].
  rewrite read_whole_file. cbn [mbind result_bind].
  step_ok (len_of bytes); [apply ok_or_try_from; split; [done|lia]|].
  step_ok tt; [apply guard_err_Ok, negb_false_iff, Z.eqb_refl|done].
Qed.

Lemma read_saved payload bytes o lo :
  encode_payload payload o = Ok bytes → load_compression lo = save_compression o →
  if decide (fits_limit lo payload bytes)
  then read_decode_payload (Ok (whole_file bytes)) lo = Ok payload
  else ∃ c, read_decode_payload (Ok (whole_file bytes)) lo = Err (SLimitExceeded c).
Proof.
  intros Hb Hc. unfold encode_payload in Hb. rewrite <- Hc in Hb. unfold read_decode_payload, fits_limit.
  destruct (decide (len_of bytes ≤ nzu64_get (max_file_bytes lo))) as [Hl|Hl].
  2: { rewrite decide_False by tauto. unfold read_decode_zstd_payload, read_capped_file.
       rewrite open_whole, decide_False by done. case_match; by eexists. }
  destruct (load_compression lo) eqn:Ec.
  - injection Hb as ->. rewrite decide_True by done. rewrite bool_decide_eq_false_2 by done.
    rewrite read_capped_whole by done. cbn [mbind result_bind]. unfold decode_payload. by rewrite Ec.
  - rewrite bool_decide_eq_true_2 by done. unfold read_decode_zstd_payload.
    assert (open_capped_file (Ok (whole_file bytes)) (max_file_bytes lo) =
      Ok (whole_file bytes, len_of bytes)) as -> by by rewrite open_whole, decide_True.
    cbn [mbind result_bind]. rewrite read_whole_file. cbn [mbind result_bind].
    apply map_err_Ok in Hb. pose proof (decode_frame _ _ (max_file_bytes lo) (zstd_lossless _ _ _ Hb)) as Hd.
    destruct (decide (_ ∧ nzu64_get (max_file_bytes lo) < u64_max)) as [Hf|Hf].
    + by rewrite decide_True.
    + rewrite decide_False; [done|]. tauto.
Qed.

(** ** The engine *)

Lemma loaded_serves x fresh cells :
  let '(a, cells) := cell_new cells in
  let w := writer_of_loaded x fresh a cells in
  latest_snapshot <$> current_state (wd_cells w) (published_state (wd_writer w)) = Ok (snapshot_of x) ∧
  last_revision (wd_writer w) = Some (loaded_revision x).
Proof.
  unfold cell_new, writer_of_loaded. cbn [published_state wd_writer wd_cells]. split; [|done].
  unfold current_state, publish_current_engine_state. cbn [published_state wd_writer wd_cells].
  rewrite cell_load_store; [done|]. rewrite length_app. cbn. lia.
Qed.

(** C9: for a reachable engine whose configurations are keyed by the names they hold
    ([well_keyed]), a save that succeeds leaves a file at its target. Loading that
    file with valid options, under full validation, with the codec of the save and
    an index profile that the saved one satisfies, is refused exactly when the file
    is longer than the load's limit or, compressed, holds more than the limit or
    meets the limit [u64::MAX] (the bounded decoder reads one byte more than its
    limit), and then with a limit error; otherwise it gives an engine whose readers
    see the same revision, schema hash, configurations and relationships in the same
    order, a schema of the same meaning, and whose revisions go on from there. The
    parser follows the grammar, the codec is lossless and hashes are 64-bit. *)
Theorem saved_engine_restored w log pid path o d d' lo fresh cells
    (Hrun : engine_run w log) (Hkeyed : well_keyed (configs (wd_writer w)))
    (Hsave : engine_save_snapshot pid (wd_cells w) (published_state (wd_writer w)) path o d = (Ok tt, d'))
    (Hoptions : validate_load_options lo = Ok tt) (Hfull : validation lo = ValidationFull)
    (Hcodec : load_compression lo = save_compression o)
    (Hprofile : satisfies (save_index_profile o) (required_index_profile lo) = true) :
  ∃ s payload bytes,
    latest_snapshot <$> current_state (wd_cells w) (published_state (wd_writer w)) = Ok s ∧
    encode_payload payload o = Ok bytes ∧ disk_nodes d' !! path = Some (NFile bytes) ∧
    match load_snapshot (opened (disk_nodes d') path) lo fresh cells with
    | Ok w' => fits_limit lo payload bytes ∧
        ∃ s', latest_snapshot <$> current_state (wd_cells w') (published_state (wd_writer w')) = Ok s' ∧
              restores s s' ∧ last_revision (wd_writer w') = Some (snapshot_revision s)
    | Err e => ¬ fits_limit lo payload bytes ∧ ∃ c, e = SLimitExceeded c
    end.
Proof.
  apply engine_run_ok in Hrun as [Hw _]. unfold engine_save_snapshot in Hsave.
  assert (∃ s, latest_snapshot <$> current_state (wd_cells w) (published_state (wd_writer w)) = Ok s ∧
    configs (wd_writer w) = snapshot_configs s ∧ snapshot_ok s ∧
    save_snapshot_file pid path s o d = (Ok tt, d')) as (s & Hs & Hconf & Hok & E).
  { unfold current_state in *. rewrite (wo_cell w Hw) in *. unfold engine_view in *.
    destruct (current_snapshot (wd_writer w)) as [s|] eqn:Hcur; [|done]. exists s.
    destruct (current_last w s Hw Hcur) as (Hrev & _ & Hok). rewrite Hrev in *.
    pose proof (wo_current w Hw) as Hholds. rewrite Hcur in Hholds. destruct Hholds as [[Hc _ _ _] _].
    split_and!; [done|done|done|]. exact Hsave. }
  rewrite Hconf in Hkeyed. apply saved_on_disk in E as (bytes & Hbytes & Hfile).
  destruct (saved_bytes s o bytes Hok Hbytes) as (sections & payload & Hsec & Ha & Henc).
  destruct (saved_payload_loads s o sections payload lo Hok Hkeyed Hsec Ha Hfull Hprofile) as (_ & x & Hx & Hr).
  exists s, payload, bytes. split_and!; [done|done|done|].
  pose proof (read_saved payload bytes o lo Henc Hcodec) as Hread.
  unfold load_snapshot, load_snapshot_with_publisher, load_snapshot_file, opened. rewrite Hfile, Hoptions.
  fold (whole_file bytes). pose proof (loaded_serves x fresh cells) as Hserve.
  destruct (cell_new cells) as [a cells']. cbn [mbind result_bind].
  destruct (decide (fits_limit lo payload bytes)) as [Hfits|Hfits].
  - rewrite Hread. cbn [mbind result_bind]. rewrite Hx. cbn [mbind result_bind]. split; [done|].
    destruct Hserve as [Hserve Hlast]. exists (snapshot_of x). split; [done|]. split; [done|].
    rewrite Hlast. f_equal. apply Hr.
  - destruct Hread as [c ->]. split; [done|by exists c].
Qed.
End roundtrip.

(** ** An engine, its artifact and the engine loaded from it *)

Module RestoreExample.
#[local] Existing Instance constant_hasher.
#[local] Existing Instance map_order.
#[local] Existing Instance EngineExample.no_digest.
#[local] Existing Instance grammar_parser.

(** A codec that marks its frames. *)
#[export] Instance marking_zstd : Zstd := {|
  zstd_min_level := -7; zstd_max_level := 22;
  zstd_encode_all b _ := Ok (b ++ [0]); zstd_decoder b := Ok (removelast b, None)
|}.

Lemma marking_lossless bytes level frame :
  zstd_encode_all bytes level = Ok frame → zstd_decoder frame = Ok (bytes, None).
Proof. intros [= <-]. cbn. by rewrite removelast_last. Qed.

Lemma hash_in_range (s : string) : 0 ≤ hash_value s ≤ u64_max.
Proof. done. Qed.

Definition here : DatastoreId := PolicyExample.here.
Definition data : Path := [RootDir; Normal "data"].
Definition target : Path := data ++ [Normal "engine.szsnap"].
Definition disk : Disk := mkDisk (<[data := NDir]> ∅) [] [].

Definition session : World := PolicyExample.exporter.1.
Definition saved : sresult unit * Disk :=
  engine_save_snapshot 7 (wd_cells session) (published_state (wd_writer session)) target
    save_options_zstd disk.
Definition options : SnapshotLoadOptions :=
  mkLoadOptions CompressionZstd Latency ValidationFull Checksum (mkNonZeroU64 DEFAULT_MAX_FILE_BYTES I) Full.
Definition restored : sresult World := load_snapshot (opened (disk_nodes saved.2) target) options here [].

Definition ready : bool :=
  is_ok saved.1 && bool_decide (well_keyed (configs (wd_writer session))) &&
  match restored with
  | Ok w => length (view_rows (relationships (wd_writer w))) =? 2
  | Err _ => false
  end%nat.
End RestoreExample.

Lemma saved_engine_restored_witness :
  ∃ s s' w', RestoreExample.saved.1 = Ok tt ∧ RestoreExample.restored = Ok w' ∧
    latest_snapshot <$> current_state (wd_cells RestoreExample.session)
      (published_state (wd_writer RestoreExample.session)) = Ok s ∧
    latest_snapshot <$> current_state (wd_cells w') (published_state (wd_writer w')) = Ok s' ∧
    restores s s' ∧ length (view_rows (relationships (wd_writer w'))) = 2%nat.
Proof.
  assert (RestoreExample.ready = true) as Hr by (vm_compute; reflexivity).
  unfold RestoreExample.ready in Hr. apply andb_prop in Hr as [Hr Hload]. apply andb_prop in Hr as [Hsave Hk].
  apply bool_decide_eq_true_1 in Hk.
  destruct RestoreExample.saved as [r d'] eqn:E. destruct r as [[]|]; [|discriminate Hsave].
  destruct RestoreExample.restored as [w'|] eqn:Hw'; [|discriminate Hload].
  apply Nat.eqb_eq in Hload.
  destruct (@saved_engine_restored constant_hasher map_order EngineExample.no_digest grammar_parser
    RestoreExample.marking_zstd grammar_parser_follows RestoreExample.hash_in_range
    RestoreExample.marking_lossless RestoreExample.session PolicyExample.exporter.2 7 RestoreExample.target
    save_options_zstd RestoreExample.disk d' RestoreExample.options RestoreExample.here []
    PolicyExample.exporter_run Hk E eq_refl eq_refl eq_refl eq_refl)
    as (s & payload & bytes & Hs & _ & _ & Hl).
  unfold RestoreExample.restored in Hw'. rewrite E in Hw'. cbn [snd] in Hw'. rewrite Hw' in Hl.
  destruct Hl as (_ & s' & Hs' & Hrestores & _). exists s, s', w'.
  split; [reflexivity|]. split; [reflexivity|]. split; [exact Hs|]. split; [exact Hs'|].
  split; [exact Hrestores|exact Hload].
Defined.
