(* ===== verification/PolicyFiles.v ===== *)
(** * Policy files (src/src/policy.rs, src/src/api.rs)

    Policy text written to a directory, and an artifact built from policy text
    without an engine. *)

From S2P Require Import Prelude Model Domain Revision StoreTypes Store StoreView EvalContext Legacy.
From S2P Require Import Dsl Runtime Writer Policy Api Disk SnapshotBytes Snapshot SnapshotFile.
From S2P Require Import SnapshotDisk.

Definition SCHEMA_FILE_NAME : string := "schema.zed".

Inductive PolicyIoError :=
| PIo (source : string)
| PZanzibar (source : ZanzibarError)
| PSnapshot (source : SnapshotIoError)
| PInvalidExportPath (reason : string)
| PLockPoisoned (operation : string).

(** [From<io::Error> for PolicyIoError] *)
Definition policy_io {A} (m : ST Disk string A) : ST Disk PolicyIoError A := λ d,
  let '(r, d') := m d in (map_err PIo r, d').

Definition is_parent_component (c : PathComponent) : bool :=
  match c with ParentDir => true | _ => false end.

(** A turn of the loop over the relationship files. *)
Definition write_policy_file (directory : Path) (f : PolicyTextFile) : ST Disk PolicyIoError unit :=
  let relative := path_of (pf_path f) in
  let! _ := st_lift (guard_err (is_absolute relative || existsb is_parent_component relative)
              (PInvalidExportPath
                 "policy file path must be relative and stay inside the export directory")) in
  policy_io (fs_write (path_join directory relative) (str_bytes (pf_contents f))).

Definition write_policy_files (directory : Path) (policy : PolicyText) : ST Disk PolicyIoError unit :=
  let! _ := st_lift (guard_err (bool_decide (directory = []))
              (PInvalidExportPath "directory path must not be empty")) in
  let! _ := policy_io (create_dir_all directory) in
  let! _ := policy_io (fs_write (path_join directory [Normal SCHEMA_FILE_NAME])
              (str_bytes (policy_schema policy))) in
  let! _ := policy_io (create_dir_all (path_join directory [Normal RELATIONSHIP_DIRECTORY_NAME])) in
  st_for (write_policy_file directory) (policy_relationship_files policy).

Section policy.
Context `{Hasher, HashOrder, Blake3, PestParser, Zstd}.

(** [ZanzibarEngine::export_policy_files]: whatever keeps the latest snapshot
    from being read is reported as a missing schema. *)
Definition export_policy_files (cells : Cells) (a : SharedEngineState) (directory : Path)
    : ST Disk PolicyIoError unit :=
  let! policy := st_lift (map_err (λ _, PZanzibar ZSchemaRequired) (export_policy cells a)) in
  write_policy_files directory policy.

(** [save_snapshot_from_policy_text]; the identifiers are what its writers draw. *)
Definition save_snapshot_from_policy_text (fresh fresh' : DatastoreId) (pid : Z) (path : Path)
    (policy : PolicyText) (o : SnapshotSaveOptions) : ST Disk PolicyIoError unit :=
  let! service := st_lift (map_err PZanzibar (from_policy_text fresh fresh' policy [])) in
  λ d, let '(r, d) := writer_save_snapshot pid path (wd_writer service) o d in (map_err PSnapshot r, d).
End policy.

(** ** Where the files go *)

(** The directory's own prefixes, which are created, and what lies under it. *)
Definition inside (directory q : Path) : Prop :=
  (∃ n, q = take n directory) ∨ (∃ rest, q = directory ++ rest ∧ (RootDir ∉ rest) ∧ (ParentDir ∉ rest)).

Lemma component_of_not_root piece : component_of piece ≠ Some RootDir.
Proof. unfold component_of. by repeat case_match. Qed.

Lemma relative_no_root s : is_absolute (path_of s) = false → RootDir ∉ path_of s.
Proof.
  assert (∀ l, RootDir ∉ omap (M:=list) component_of l) as Hl.
  { intros l (piece & _ & Hp)%list_elem_of_omap. by apply component_of_not_root in Hp. }
  unfold path_of. destruct (str_split _ s) as [|first rest]; [intros _; apply not_elem_of_nil|].
  intros Ha. apply not_elem_of_app. split; [|done].
  repeat case_match; [done|set_solver|].
  pose proof (component_of_not_root first) as Hf. destruct (component_of first) as [c|]; [|set_solver].
  cbn. intros [= <-]%list_elem_of_singleton. done.
Qed.

Lemma policy_io_confined {A} (P : Path → Prop) (m : ST Disk string A) :
  confined on_disk P m → confined on_disk P (policy_io m).
Proof. apply confined_map_err. Qed.

Lemma inside_under directory rest :
  RootDir ∉ rest → ParentDir ∉ rest → inside directory (directory ++ rest).
Proof. right. eauto. Qed.

Lemma policy_file_inside directory f :
  confined on_disk (inside directory) (write_policy_file directory f).
Proof.
  unfold write_policy_file. unfold st_bind, st_lift, guard_err.
  destruct (is_absolute (path_of (pf_path f)) || _) eqn:Hg; [apply confined_lift|].
  apply orb_false_iff in Hg as [Ha Hp]. apply policy_io_confined, confined_fs_write.
  unfold path_join. rewrite Ha. apply inside_under; [by apply relative_no_root|].
  intros Hin%list_elem_of_In. apply not_true_iff_false in Hp. apply Hp, existsb_exists. eauto.
Qed.

(** C27: whatever policy text is exported, and whichever calls fail, the only
    paths written are the prefixes of the export directory, which are created,
    and paths under it: no file name in the policy leads outside. *)
Theorem policy_files_inside directory policy d r d' :
  write_policy_files directory policy d = (r, d') → reached (inside directory) d d'.
Proof.
  revert d r d'. change (confined on_disk (inside directory) (write_policy_files directory policy)).
  unfold write_policy_files. apply confined_bind; [apply confined_lift|]. intros _.
  assert (∀ name, inside directory (path_join directory [Normal name])) as Hn.
  { intros name. apply inside_under; set_solver. }
  apply confined_bind; [apply policy_io_confined, confined_make_dirs; left; eauto|]. intros _.
  apply confined_bind; [by apply policy_io_confined, confined_fs_write|]. intros _.
  apply confined_bind; [apply policy_io_confined, confined_make_dirs|]; intros n.
  { unfold path_join. cbn [is_absolute]. rewrite take_app.
    destruct (decide (n ≤ length directory)) as [Hle|Hgt].
    - replace (n - length directory)%nat with 0%nat by lia. rewrite app_nil_r. left. eauto.
    - rewrite take_ge by lia. apply inside_under; destruct (n - length directory)%nat as [|[]]; cbn; set_solver. }
  apply confined_for, Forall_forall. intros f _. apply policy_file_inside.
Qed.

(** ** What the files hold *)

Definition holds (p : Path) (text : string) (d : Disk) : Prop :=
  disk_nodes d !! p = Some (NFile (str_bytes text)).

Lemma policy_io_Ok {A} (m : ST Disk string A) d a d' : policy_io m d = (Ok a, d') → m d = (Ok a, d').
Proof. unfold policy_io. destruct (m d) as [[x|e] d1]; intros [= <- <-]. done. Qed.

Lemma fs_write_Ok p bytes d d' :
  fs_write p bytes d = (Ok tt, d') → disk_nodes d' !! p = Some (NFile bytes).
Proof.
  intros ([] & d1 & Hc%file_create_Ok & E)%st_bind_Ok.
  unfold file_write_all, fs_call in E. destruct (fate_error _); [done|]. injection E as <-.
  cbn. unfold append_node. by rewrite lookup_alter_eq, Hc.
Qed.

(** A path that a computation does not touch keeps its contents. *)
Lemma holds_reached (P : Path → Prop) p text d d' :
  reached P d d' → ¬ P p → holds p text d → holds p text d'.
Proof.
  intros (past & _ & Ha) Hp Hh. apply Forall_app in Ha as [_ [Ha _]%Forall_cons]. unfold holds.
  by rewrite <- Ha.
Qed.

Definition target (directory : Path) (f : PolicyTextFile) : Path :=
  path_join directory (path_of (pf_path f)).

Lemma write_policy_file_Ok directory f d d' :
  write_policy_file directory f d = (Ok tt, d') →
  holds (target directory f) (pf_contents f) d' ∧ reached (eq (target directory f)) d d'.
Proof.
  intros ([] & d1 & [_ ->]%st_lift_Ok & E%policy_io_Ok)%st_bind_Ok. split; [by eapply fs_write_Ok|].
  by apply (confined_fs_write (eq (target directory f))) in E.
Qed.

Lemma policy_files_Ok directory fs d d' :
  st_for (write_policy_file directory) fs d = (Ok tt, d') →
  NoDup (target directory <$> fs) →
  Forall (λ f, holds (target directory f) (pf_contents f) d') fs ∧
  reached (λ p, p ∈ target directory <$> fs) d d'.
Proof.
  revert d. induction fs as [|f fs IH]; intros d E Hnd.
  { injection E as <-. split; [constructor|apply reached_refl]. }
  apply st_bind_Ok in E as ([] & d1 & [Hf Hr]%write_policy_file_Ok & E).
  cbn [fmap list_fmap] in *. apply NoDup_cons in Hnd as [Hnew Hnd].
  destruct (IH _ E Hnd) as [Hfs Hrs]. split.
  - constructor; [|done]. by eapply holds_reached.
  - eapply reached_trans; [eapply reached_weaken; [|exact Hr]|eapply reached_weaken; [|exact Hrs]].
    + intros p <-. by left.
    + intros p Hp. by right.
Qed.

Lemma write_policy_files_Ok directory policy d d' :
  write_policy_files directory policy d = (Ok tt, d') →
  NoDup (target directory <$> policy_relationship_files policy) →
  path_join directory [Normal SCHEMA_FILE_NAME] ∉ target directory <$> policy_relationship_files policy →
  holds (path_join directory [Normal SCHEMA_FILE_NAME]) (policy_schema policy) d' ∧
  Forall (λ f, holds (target directory f) (pf_contents f) d') (policy_relationship_files policy).
Proof.
  intros E Hnd Hs. apply st_bind_Ok in E as (? & d0 & [_ ->]%st_lift_Ok & E).
  apply st_bind_Ok in E as (? & d1 & _ & E).
  apply st_bind_Ok in E as ([] & d2 & E2%policy_io_Ok%fs_write_Ok & E).
  apply st_bind_Ok in E as ([] & d3 & E3%policy_io_Ok & E).
  destruct (policy_files_Ok _ _ _ _ E Hnd) as [Hfs Hr]. split; [|done].
  eapply holds_reached; [exact Hr|done|].
  eapply (holds_reached (λ p, p ≠ path_join directory [Normal SCHEMA_FILE_NAME])); [|by intros ?|exact E2].
  eapply (confined_make_dirs (λ p, p ≠ path_join directory [Normal SCHEMA_FILE_NAME])) in E3; [exact E3|].
  intros n Hn. unfold path_join in Hn. cbn [is_absolute] in Hn. rewrite take_app in Hn.
  destruct (decide (n ≤ length directory)) as [Hle|Hgt].
  - apply (f_equal length) in Hn. rewrite !length_app, !length_take in Hn. cbn in Hn. lia.
  - rewrite take_ge in Hn by lia. apply app_inj_1 in Hn as [_ Hn]; [|done].
    by destruct (n - length directory)%nat as [|[]].
Qed.

(** ** The files of an export *)

Definition SLASH : ascii := ascii_of_N 47.

Lemma ident_no_slash {kind} (i : Ident kind) : str_contains SLASH (as_str i) = false.
Proof.
  destruct i as [s Hs]; cbn. destruct (validate_identifier kind s) as [u|] eqn:Hv; [clear Hs|done].
  rewrite validate_identifier_unfold in Hv.
  destruct (str_is_empty s); [done|]. destruct (Nat.ltb _ _); [done|].
  destruct (first_invalid _ 0 s) eqn:Hf; [done|].
  apply (str_forall_not_contains (λ b, negb (Ascii.eqb b SLASH))); [done|].
  eapply first_invalid_None; [|exact Hf]. intros n b.
  by destruct kind, b as [[] [] [] [] [] [] [] []], n; vm_compute.
Qed.

(** The two components of an exported file. *)
Definition exported_path (resource_type : string) : Path :=
  [Normal RELATIONSHIP_DIRECTORY_NAME; Normal (resource_type +:+ "." +:+ RELATIONSHIP_FILE_EXTENSION)].

Lemma group_file_path g :
  str_contains SLASH g.1 = false → path_of (pf_path (group_file g)) = exported_path g.1.
Proof.
  intros Hg. unfold group_file. cbn [pf_path]. unfold path_of.
  change ("/" +:+ g.1 +:+ "." +:+ RELATIONSHIP_FILE_EXTENSION)
    with (String SLASH (g.1 +:+ "." +:+ RELATIONSHIP_FILE_EXTENSION)).
  fold SLASH. rewrite str_split_app by done.
  rewrite str_split_single by by rewrite str_contains_app, Hg.
  assert (∀ s, (String.length s < 5)%nat → g.1 +:+ "." +:+ RELATIONSHIP_FILE_EXTENSION ≠ s) as Hne.
  { intros s Hs E. apply (f_equal String.length) in E. rewrite byte_len_app in E.
    change (String.length ("." +:+ RELATIONSHIP_FILE_EXTENSION)) with 10%nat in E. lia. }
  assert (component_of (g.1 +:+ "." +:+ RELATIONSHIP_FILE_EXTENSION) =
          Some (Normal (g.1 +:+ "." +:+ RELATIONSHIP_FILE_EXTENSION))) as Hc.
  { unfold component_of. by rewrite !bool_decide_eq_false_2 by (apply Hne; cbn; lia). }
  cbn [omap list_omap]. by rewrite Hc.
Qed.

Lemma exported_path_inj : Inj (=) (=) exported_path.
Proof.
  intros a b [= E]. apply (f_equal str_bytes) in E. rewrite !str_bytes_app in E.
  apply app_inj_2 in E as [E _]; [|done]. by rewrite <- (bytes_str_bytes a), E, bytes_str_bytes.
Qed.

(** Groups are named by object types. *)
Lemma group_names rs groups :
  map_Forall (λ key _, str_contains SLASH key = false) groups →
  map_Forall (λ key _, str_contains SLASH key = false) (foldl group_line groups rs).
Proof.
  revert groups. induction rs as [|r rs IH]; intros groups Hg; [done|].
  apply IH, map_Forall_insert_2; [apply ident_no_slash|done].
Qed.

Lemma relationship_file_paths rs :
  ∃ types, NoDup types ∧ (λ f, path_of (pf_path f)) <$> relationship_files rs = exported_path <$> types.
Proof.
  unfold relationship_files. set (groups := foldl group_line ∅ rs).
  assert (sort_by_name fst (map_to_list groups) ≡ₚ map_to_list groups) as Hp
    by apply merge_sort_Permutation.
  exists (sort_by_name fst (map_to_list groups)).*1. split.
  - rewrite Hp. apply NoDup_fst_map_to_list.
  - change (map group_file) with (fmap (M:=list) group_file).
    rewrite <- !list_fmap_compose. apply list_fmap_ext. intros i g Hg%list_elem_of_lookup_2.
    apply group_file_path. rewrite Hp in Hg. destruct g as [key ls]. apply elem_of_map_to_list in Hg.
    by apply (group_names rs ∅ (map_Forall_empty _) _ _ Hg).
Qed.

Section export.
Context `{HashOrder}.

(** C28: when exporting the policy of an engine succeeds, the directory holds the
    schema and one file per resource type, and they are the policy text of the
    published snapshot. *)
Theorem export_writes_policy cells a directory d d' :
  export_policy_files cells a directory d = (Ok tt, d') →
  ∃ policy, export_policy cells a = Ok policy ∧
    holds (directory ++ [Normal SCHEMA_FILE_NAME]) (policy_schema policy) d' ∧
    Forall (λ f, holds (directory ++ path_of (pf_path f)) (pf_contents f) d')
      (policy_relationship_files policy).
Proof.
  intros (policy & d0 & [Hp ->]%st_lift_Ok & E)%st_bind_Ok.
  assert (export_policy cells a = Ok policy) as Hpol.
  { destruct (export_policy cells a); [by injection Hp as ->|done]. }
  exists policy. split; [done|]. unfold export_policy in Hpol.
  apply bind_Ok in Hpol as (state & _ & [= <-]). cbn [policy_relationship_files] in *.
  destruct (relationship_file_paths (view_rows (snapshot_relationships (latest_snapshot state))))
    as (types & Hnd & Hpaths).
  set (files := relationship_files _) in *.
  assert (∀ f, f ∈ files → target directory f = directory ++ path_of (pf_path f) ∧
                           length (path_of (pf_path f)) = 2%nat) as Ht.
  { intros f Hf. apply (list_elem_of_fmap_2 (λ f, path_of (pf_path f))) in Hf. rewrite Hpaths in Hf.
    apply list_elem_of_fmap in Hf as (t & Hf & _). unfold target. by rewrite Hf. }
  apply write_policy_files_Ok in E as [Hs Hf].
  - split; [exact Hs|]. apply Forall_forall. intros f Hin. rewrite Forall_forall in Hf.
    rewrite <- (proj1 (Ht f Hin)). by apply Hf.
  - change (NoDup (target directory <$> files)).
    assert (target directory <$> files = (λ p, directory ++ p) <$> (exported_path <$> types)) as ->.
    { rewrite <- Hpaths, <- list_fmap_compose. apply list_fmap_ext.
      intros i f Hin%list_elem_of_lookup_2. by apply Ht. }
    apply NoDup_fmap; [apply _|]. apply NoDup_fmap; [apply exported_path_inj|done].
  - intros (f & Hf' & Hin)%list_elem_of_fmap. destruct (Ht f Hin) as [Htf Hlen]. rewrite Htf in Hf'.
    apply (f_equal length) in Hf'. unfold path_join in Hf'. cbn [is_absolute] in Hf'.
    rewrite !length_app, Hlen in Hf'. cbn in Hf'. lia.
Qed.
End export.
