(* ===== verification/SnapshotExample.v ===== *)
(** * A snapshot on disk, concretely

    The properties of saving, loading and exporting applied to an engine that
    took two writes, a file system with a faulty call, and an artifact of each
    profile. The codec and the digest are trivial ones. *)

From S2P Require Import Prelude Model Domain Revision StoreTypes Schema Store StoreView EvalContext.
From S2P Require Import Dsl Legacy Runtime Writer Policy Api EngineProps Disk.
From S2P Require Import SnapshotBytes Snapshot SnapshotFile SnapshotLoadProps SnapshotDisk PolicyFiles.
Import EngineExample.

Local Open Scope Z_scope.

Module SnapshotExample.

(** A codec that keeps the bytes. *)
#[export] Instance store_zstd : Zstd := {|
  zstd_min_level := -7; zstd_max_level := 22;
  zstd_encode_all b _ := Ok b; zstd_decoder b := Ok (b, None)
|}.

(** A schema and four relationships. *)
Definition saved_session : World * list (ConsistencyToken * PublishedSnapshot) :=
  execute start []
    [(here, ApplyPolicyText (from_single_relationship_file "" "doc:x#viewer@user:alice"));
     (here, writes ["doc:x#viewer@user:alice"; "doc:x#viewer@user:bob"; "doc:y#viewer@user:alice";
                    "doc:y#viewer@doc:x#viewer"])].

(** The snapshot the writes published. *)
Definition snap : option PublishedSnapshot := snd <$> (saved_session.2 !! 1%nat).

Definition narrow_options : SnapshotSaveOptions := mkSaveOptions CompressionNone 3 true CheckOnly.
Definition narrow_load : SnapshotLoadOptions :=
  mkLoadOptions CompressionNone FastLoad ValidationFull Checksum
    (mkNonZeroU64 DEFAULT_MAX_FILE_BYTES I) CheckOnly.

End SnapshotExample.
Import SnapshotExample.

Lemma is_some_with {A} (o : option A) (P : A → bool) :
  match o with Some a => P a | None => false end = true → ∃ a, o = Some a ∧ P a = true.
Proof. destruct o as [a|]; [|done]. by exists a. Qed.

(** A result that is [Ok] and passes a check. *)
Lemma is_ok_with {E A} (r : result E A) (P : A → bool) :
  match r with Ok a => P a | Err _ => false end = true → ∃ a, r = Ok a ∧ P a = true.
Proof. destruct r as [a|]; [|done]. by exists a. Qed.

Definition bytes_okb (bytes : list Z) : bool := forallb (in_range 0 255) bytes.

Lemma bytes_okb_ok bytes : bytes_okb bytes = true → bytes_ok bytes.
Proof.
  intros E. apply Forall_forall. intros b Hb%list_elem_of_In. unfold bytes_okb in E.
  rewrite forallb_forall in E. specialize (E b Hb). unfold is_byte, in_range in *. lia.
Qed.

(** An artifact of the snapshot and the state loaded from it. *)
Definition round (so : SnapshotSaveOptions) (lo : SnapshotLoadOptions)
    (P : list Z → LoadedSnapshot → bool) : bool :=
  match snap with
  | Some s =>
      match snapshot_bytes s so with
      | Ok bytes => bytes_okb bytes &&
          match load_payload bytes lo with Ok x => P bytes x | Err _ => false end
      | Err _ => false
      end
  | None => false
  end.

Lemma round_facts so lo P :
  round so lo P = true →
  ∃ s bytes x, snap = Some s ∧ snapshot_bytes s so = Ok bytes ∧ bytes_ok bytes ∧
    load_payload bytes lo = Ok x ∧ P bytes x = true.
Proof.
  unfold round. intros (s & Hs & E)%is_some_with. apply is_ok_with in E as (bytes & Hb & E).
  apply andb_true_iff in E as [Hok E]. apply is_ok_with in E as (x & Hx & E).
  exists s, bytes, x. split; [exact Hs|]. split; [exact Hb|]. split; [exact (bytes_okb_ok _ Hok)|].
  split; [exact Hx|exact E].
Qed.

Lemma load_payload_sound_witness :
  ∃ bytes x, bytes_ok bytes ∧ validation load_options_default = ValidationFull ∧
    load_payload bytes load_options_default = Ok x ∧
    length (view_rows (loaded_relationships x)) = 4%nat ∧
    ∃ h source st strings ps, load_sound bytes load_options_default x h source st strings ps.
Proof.
  assert (round save_options_default load_options_default
    (λ _ x, length (view_rows (loaded_relationships x)) =? 4)%nat = true) as E by (vm_compute; reflexivity).
  apply round_facts in E as (s & bytes & x & _ & _ & Hb & Hx & E). exists bytes, x.
  split; [exact Hb|]. split; [reflexivity|]. split; [exact Hx|]. split; [exact (proj1 (Nat.eqb_eq _ _) E)|].
  exact (load_payload_sound bytes load_options_default x Hb eq_refl Hx).
Defined.

(** A relationship that the filter describes is there. *)
Definition doc_filter : option RelationshipFilter :=
  t ← result_ok (ident_new KObjectType "doc");
  Some (mkRelationshipFilter t None None None query_limit_min).

Definition narrow_fact (bytes : list Z) (x : LoadedSnapshot) (f : RelationshipFilter) : bool :=
  existsb (filter_matches f) (view_rows (loaded_relationships x)) && negb (has_narrow_index f) &&
  match parse_header bytes with
  | Ok h => bool_decide (header_index_profile h = CheckOnly)
  | Err _ => false
  end.

Lemma narrow_load_preconditions_witness :
  ∃ bytes x h f, bytes_ok bytes ∧ load_payload bytes narrow_load = Ok x ∧ parse_header bytes = Ok h ∧
    header_index_profile h ≠ Full ∧ has_narrow_index f = false ∧
    existsb (filter_matches f) (view_rows (loaded_relationships x)) = true ∧
    view_check_precondition (loaded_relationships x) (MustNotMatch f) = Ok tt ∧
    view_check_precondition (loaded_relationships x) (MustMatch f) = Err (PreconditionFailed (MustMatch f)).
Proof.
  assert (round narrow_options narrow_load (λ bytes x, match doc_filter with
    | Some f => narrow_fact bytes x f | None => false end) = true) as E by (vm_compute; reflexivity).
  apply round_facts in E as (s & bytes & x & _ & _ & Hb & Hx & E).
  apply is_some_with in E as (f & _ & E). unfold narrow_fact in E.
  apply andb_true_iff in E as [E Hh]. apply is_ok_with in Hh as (h & Hh & Hp).
  apply andb_true_iff in E as [E Hf]. apply negb_true_iff in Hf.
  apply bool_decide_eq_true_1 in Hp. exists bytes, x, h, f.
  assert (header_index_profile h ≠ Full) as Hne by (rewrite Hp; discriminate).
  split; [exact Hb|]. split; [exact Hx|]. split; [exact Hh|]. split; [exact Hne|].
  split; [exact Hf|]. split; [exact E|].
  exact (narrow_load_preconditions bytes narrow_load x h f Hb eq_refl Hx Hh Hne Hf).
Defined.

(** ** Disks *)

(** Two directories below the root, an old artifact, and calls that fail. *)
Definition here_dir : list PathComponent := [RootDir; Normal "data"].
Definition target_path : list PathComponent := here_dir ++ [Normal "engine.szsnap"].
Definition faulty_disk (fates : list Fate) : Disk :=
  mkDisk (<[target_path := NFile [1; 2; 3]]> (<[here_dir := NDir]> ∅)) fates [].

(** The fourth call of the save fails. *)
Definition save_disk : Disk :=
  faulty_disk (replicate 3 (mkFate None 0) ++ [mkFate (Some "no space left on device") 1000]).

Definition out_of_space (r : sresult unit) : bool :=
  match r with Err (SIo e) => String.eqb e "no space left on device" | _ => false end.

Lemma out_of_space_eq r : out_of_space r = true → r = Err (SIo "no space left on device").
Proof. destruct r as [|[]]; try done. by intros ->%String.eqb_eq. Qed.

Lemma save_atomic_witness :
  ∃ s d', snap = Some s ∧
    save_snapshot_file 7 target_path s save_options_default save_disk =
      (Err (SIo "no space left on device"), d') ∧
    atomic (snapshot_bytes s save_options_default) target_path
      (snapshot_tmp_path 7 target_path (snapshot_revision s)) save_disk
      (Err (SIo "no space left on device")) d'.
Proof.
  assert (match snap with
          | Some s => out_of_space (save_snapshot_file 7 target_path s save_options_default save_disk).1
          | None => false end = true) as E by (vm_compute; reflexivity).
  apply is_some_with in E as (s & Hs & E). apply out_of_space_eq in E.
  destruct (save_snapshot_file 7 target_path s save_options_default save_disk) as [r d'] eqn:Es.
  cbn [fst] in E. subst r. exists s, d'. split; [exact Hs|]. split; [exact Es|].
  exact (save_atomic 7 target_path s save_options_default save_disk _ d' eq_refl Es).
Defined.

Definition overwrite_disk : Disk :=
  faulty_disk [mkFate None 0; mkFate (Some "no space left on device") 10].

Lemma compressed_save_not_atomic_witness :
  ∃ s bytes d', snap = Some s ∧ snapshot_bytes s save_options_zstd = Ok bytes ∧
    save_snapshot_file 7 target_path s save_options_zstd overwrite_disk =
      (Err (SIo "no space left on device"), d') ∧
    disk_nodes d' !! target_path = Some (NFile (take 10 bytes)).
Proof.
  assert (match snap with
          | Some s => is_ok (snapshot_bytes s save_options_zstd)
          | None => false end = true) as E by (vm_compute; reflexivity).
  apply is_some_with in E as (s & Hs & E).
  destruct (snapshot_bytes s save_options_zstd) as [bytes|e] eqn:Eb; [|discriminate E].
  destruct (compressed_save_not_atomic 7 target_path s save_options_zstd bytes [1; 2; 3]
    "no space left on device" 10 overwrite_disk eq_refl Eb) as (d' & Hd & Hn); [vm_compute; reflexivity..|].
  exists s, bytes, d'. split; [exact Hs|]. split; [exact Eb|]. split; [exact Hd|exact Hn].
Defined.

(** ** Policy files *)

(** A policy whose second file leads outside. *)
Definition hostile_policy : PolicyText :=
  mkPolicy "namespace doc { relation viewer {} }"
    [mkPolicyFile "relationships/doc.szr" "doc:x#viewer@user:alice";
     mkPolicyFile "../outside" "doc:x#viewer@user:mallory"].

Lemma policy_files_inside_witness :
  ∃ d', write_policy_files here_dir hostile_policy (faulty_disk []) =
      (Err (PInvalidExportPath "policy file path must be relative and stay inside the export directory"), d') ∧
    reached (inside here_dir) (faulty_disk []) d'.
Proof.
  destruct (write_policy_files here_dir hostile_policy (faulty_disk [])) as [r d'] eqn:E.
  assert (r = Err (PInvalidExportPath
    "policy file path must be relative and stay inside the export directory")) as ->.
  { change r with (r, d').1. rewrite <- E. vm_compute. reflexivity. }
  exists d'. split; [reflexivity|].
  exact (policy_files_inside here_dir hostile_policy (faulty_disk []) _ d' E).
Defined.

Lemma export_writes_policy_witness :
  ∃ d', export_policy_files (wd_cells saved_session.1) (published_state (wd_writer saved_session.1))
      here_dir (faulty_disk []) = (Ok tt, d') ∧
    ∃ policy, export_policy (wd_cells saved_session.1) (published_state (wd_writer saved_session.1)) = Ok policy ∧
      holds (here_dir ++ [Normal SCHEMA_FILE_NAME]) (policy_schema policy) d' ∧
      Forall (λ f, holds (here_dir ++ path_of (pf_path f)) (pf_contents f) d')
        (policy_relationship_files policy).
Proof.
  destruct (export_policy_files (wd_cells saved_session.1) (published_state (wd_writer saved_session.1))
    here_dir (faulty_disk [])) as [r d'] eqn:E.
  assert (r = Ok tt) as ->.
  { change r with (r, d').1. rewrite <- E. vm_compute. reflexivity. }
  exists d'. split; [reflexivity|].
  exact (export_writes_policy (wd_cells saved_session.1) (published_state (wd_writer saved_session.1))
    here_dir (faulty_disk []) d' E).
Defined.
